(* ===== verification/_CoqProject ===== *)
-Q . S2P
Prelude.v
RustStd.v
Errors.v
Resp.v
RespFacts.v
Reply.v
Glob.v
ChannelGlob.v
Text.v
Deadlock.v
DeadlockFacts.v
DeadlockInv.v
DeadlockMerge.v
DeadlockProps.v
Acl.v
AclProps.v
ListType.v
SetType.v
HashType.v
SkipList.v
SkipListFacts.v
SortedSet.v
SortedSetFacts.v
Float64.v
Geo.v
OrdMap.v
StreamType.v
StreamFacts.v
StreamProps.v
Rdb.v
RdbFacts.v
RdbPacked.v
KeyDump.v
KeyDumpProps.v
Memory.v
HashSlot.v
KeyMap.v
FairQueue.v
FairQueueFacts.v
Keyspace.v
CacheOps.v
CacheFacts.v
EvictionFacts.v
CacheSpecs.v
CacheScan.v
KeyspaceSim.v
TypedKeys.v
KeyXfer.v
XferFacts.v
XferProps.v
HashCommands.v
HashProps.v
Bitmap.v
BitmapFacts.v
BitmapProps.v
CacheProps.v
PubSub.v
PubSubCommands.v
PubSubFacts.v
PubSubSim.v
PubSubMemory.v
PubSubProps.v
ClusterState.v
ClusterConf.v
ClusterGossip.v
ClusterBus.v
ClusterCommands.v
ClusterFacts.v
ClusterEpochs.v
ClusterRun.v
ClusterLoad.v
ClusterMerge.v
ClusterElection.v
ClusterTick.v
ClusterReload.v
ClusterRestore.v
ClusterWire.v
ClusterProps.v
