(* ===== verification/Prelude.v ===== *)
(** * Kore: a verification development

    Kore is a Redis-compatible in-memory server written in Rust.  A connection task reads bytes,
    parses them into RESP values and hands the commands to handlers; the handlers call the keyspace
    ([cache/]), which keeps every key in one sharded map from names to slots (a value and an optional
    expiry), accounts for its memory, expires and evicts keys; the values are strings or containers
    (lists, sets, hashes, sorted sets, streams, geo sets), which DUMP turns into bytes and RESTORE
    reads.  Clients publish messages to each other; a fair queue orders those that wait for a lock, and a
    detector watches who waits for whom.  The nodes of a cluster share the hash slots of the keys, learn
    of each other by gossip, hand slots over by votes and commits on a bus, and send clients to the owner
    of a slot.  This development models these parts as executable functions and proves what they promise.

    ** Conventions

    Bytes are [list byte]; integers are [Z] kept in the range of their Rust type, with wrap-around
    and saturation written out (the release profile wraps).  [result] is Rust's [Result] and [exec]
    adds the third ending of a call, a panic.  [HashMap]s are [gmap]s; where the code depends on an
    iteration order, on a hash function, on random draws or on a clock, these are arguments and the
    theorems hold for all of them.  Locks are not modelled: each operation is one step, as it is
    under its lock; a cluster method that takes its lock several times is one step too, and so is a
    handler of a command, a bus message or a round of gossip, each with the clock readings it makes.
    What the network and the disk answer are arguments.

    ** Files

    - [Prelude]: machine integers, results and panics, comparisons, byte strings, tactics and hints.
    - [RustStd]: UTF-8, integer parsing and printing.  [Errors]: [error.rs].
    - [Resp], [RespFacts]: [protocol/resp.rs] and the read loop of [network.rs].
    - [Reply]: error replies, early returns and integer arguments of the command handlers.
    - [Glob]: [pattern_match] of [hashmap.rs].  [KeyMap]: [ShardedKeyMap] of [hashmap.rs].
    - [Text]: lines, words and joining of strings, lossy UTF-8.  [Float64]: doubles, their bits, decimal
      parsing and arithmetic.
    - [Deadlock] ([deadlock.rs]): the detector's tables, the search for cycles, victims, the monitor and
      the merging of snapshots.  [DeadlockFacts]: the depth-first search.  [DeadlockInv]: the tables.
      [DeadlockMerge]: merging.  [DeadlockProps]: programs of calls and two processes.
    - [Acl], [AclProps]: [acl.rs].
    - [ListType], [SetType], [HashType]: [list_type.rs], [set_type.rs], [hash_type.rs].
    - [SkipList], [SkipListFacts], [SortedSet], [SortedSetFacts]: [sorted_set.rs], node by node.
    - [OrdMap] (ordered maps, the [BTreeMap] of streams), [StreamType], [StreamFacts],
      [StreamProps]: [stream_type.rs].
    - [Geo]: [geospatial.rs]; sine, cosine and arc sine are the class [Libm].
    - [Rdb] ([rdb_object.rs]): the encodings of DUMP payloads and their checksum.  [RdbFacts]: readers
      that undo writers, CRC-64.  [RdbPacked]: LZF, listpacks, intsets.  [KeyDump], [KeyDumpProps]:
      the payloads of [cache/key_xfer.rs].
    - [FairQueue], [FairQueueFacts]: [fair_queue.rs].
    - [Memory]: [memory.rs] and [lfu.rs].  [HashSlot]: [cluster/crc16.rs].
    - [Keyspace]: entries, slots, the [Cache] record and the state monad its methods run in
      ([entry.rs], [cache/keyspace.rs], [cache/mod.rs]).  The class [Platform] holds what the
      compiler, the allocator and the hasher decide, with its laws in [PlatformLaws]; the class
      [SearchManager] is the interface of [search_index.rs], with its laws in [SearchLaws].
    - [CacheOps]: the methods of [cache/storage.rs], [cache/eviction.rs], [cache/expiration.rs],
      [cache/operations.rs], [cache/config.rs], and the removals of the typed modules.
    - [CacheFacts]: weakest preconditions of methods, the accounting invariant [inv], deletion and
      lazy expiry.  [EvictionFacts]: the eviction loop.  [CacheSpecs]: each string and expiry method
      as a function on slots.  [CacheScan]: renaming, listing, sweeping, flushing,
      replacing a keyspace.
    - [TypedKeys]: how containers enter the keyspace and change there ([cache/hashes.rs],
      [lists.rs], [sets.rs], [sorted_sets.rs], [geo_sets.rs], [streams.rs]).  [KeyXfer], [XferFacts],
      [XferProps]: COPY, MOVE, DUMP, RESTORE, TOUCH ([impl Cache] of [cache/key_xfer.rs]);
      the class [MapOrder] is the order in which hash maps list what they hold.
    - [HashCommands], [HashProps]: the handlers of [commands/hash.rs], from the arguments of a
      request to the reply, and the indexing of a written hash; the class [SearchWriter] is what indexing
      asks of [search_index.rs].
    - [KeyspaceSim]: the keyspace against an ideal server, and
      SCAN.  [Bitmap], [BitmapFacts], [BitmapProps]: [cache/bitmap.rs].  [CacheProps]: accounting
      over programs, eviction, past-due slots.
    - [ChannelGlob], [PubSub], [PubSubCommands]: [pubsub.rs], [commands/pubsub.rs], and of [commands/mod.rs]
      and [network.rs] the sessions and connections of subscribers; the class [FanOut] is the order of
      the hash tables.  [PubSubFacts]: the tables against sets of subscriptions.  [PubSubSim]: connections
      against a machine on such sets, and subscribed mode.  [PubSubMemory]: pending bytes.
      [PubSubProps]: the properties.
    - [ClusterState]: the topology under the lock of [cluster/state.rs]; the class [ClusterOrder] is the
      order of its hash tables.  [ClusterConf]: the outer record, nodes.conf, votes and commits.
      [ClusterGossip]: [cluster/gossip.rs] and the replies it parses.  [ClusterBus]: [cluster/bus.rs].
      [ClusterCommands]: [commands/cluster.rs], and the redirects of [commands/mod.rs].
    - [ClusterFacts]: the invariant [cluster_ok], kept by each operation.  [ClusterEpochs]: how epochs and
      owners move.  [ClusterRun]: sequences of commands, bus messages and gossip, and the
      votes behind a commit.  [ClusterLoad]: loading
      any file.  [ClusterMerge]: merging snapshots of owners.  [ClusterElection]: quorums, the winner
      and merging role maps.  [ClusterTick]: a round of gossip.  [ClusterReload], [ClusterRestore]: the text of nodes.conf, what its
      parsers read, the restarted node.  [ClusterWire]: frames and connections.  [ClusterProps]: the
      properties.

    ** Theorems

    - Protocol: parsing inverts serialization, also for input cut into any chunks; the parser's
      answers are stable when more bytes arrive; what a malformed value does.
    - Containers: the skiplist with its spans refines a sorted list and the sorted set an ordered
      list of scored members; list, set and hash commands compute their specifications.
    - Streams: IDs only grow, group reads hand out each entry once, the pending counters agree with
      the pending lists, trims drop the oldest entries, snapshots can be read back.
    - Keyspace: the sharded map is one flat map; over any program the memory counters equal the
      bytes held; lazy expiry is invisible to clients outside three exceptions; eviction ends, spares
      what it must spare and frees what was asked; SCAN returns every key once; swapping keyspaces.
    - Bitmaps: a string is an infinite sequence of bits, and SETBIT, GETBIT, BITCOUNT, BITPOS, BITOP
      and BITFIELD (fields in two's complement, with every overflow mode) are operations on it.
    - Access control: the last rule that concerns a command decides, patterns never let a key through
      that they do not cover, and the saved text gives every user back.
    - Memory totals, LFU words, CRC-16 as polynomial remainder and co-location by hash tag.
    - Fair queue: sortedness, counters, and no overtaking.
    - Deadlocks: the search reports a deadlock exactly if some client waits for itself through others;
      the tables stay well-typed over any program; the monitor clears every deadlock; merged snapshots
      show the cycles that run through two processes, and merging twice changes nothing; victims follow
      the strategy.
    - Geo sets: a radius search returns exactly the members within the radius, in order.
    - Hash commands: without eviction every H* command is atomic: the wrong type, or what an ideal finite
      map does, or out of memory and nothing done.
    - Key transfer: COPY, MOVE and RESTORE of a DUMP give a key with the same contents and the right
      expiry, change no other key, keep the byte counters right, and MOVE never loses a key.
    - Payloads: DUMP and KDF1 payloads read back as they were written, a single corrupted byte is
      noticed, LZF, listpacks and intsets decode to what they denote.
    - Pub/Sub: the tables are the subscriptions the requests describe, a message reaches every subscriber
      once per matching subscription, sessions know whether they are subscribed, and the memory charged
      is what waits in the buffers, as long as nobody selects another database.
    - Cluster: the topology is well formed and epochs fence owners over any sequence of commands, bus
      messages and gossip; a commit needs a fresh vote; a restarted node is the node that saved its file;
      a bus connection is a sequence of local calls; two nodes that talked agree on every slot whose
      newer record has an owner; failure needs a quorum; at most one replica claims; redirects lead to
      a node that serves the command.
    - Several theorems state where the code departs from its documentation: stop indices below the
      range, malformed RESP, huge map headers, trims and pending counters, past-due containers, BITFIELD
      at offsets near 2^64, stars in key names and spaces in passwords, clients reported in a cycle they
      are not in, huge counts in payloads, geohashes and boxes at longitude 180, copies of keys in their
      last millisecond, hashes restored beyond the memory limit, writes that evict their own key, HSETNX
      on a past-due hash, messages published from another database, fan-out beyond the size of one message,
      SUNSUBSCRIBE and RESET in subscribed mode, messages taken before they are accounted for, masters
      that demote themselves below the largest one, replicas that never replace a master announced as failed.

    ** Fuel

    The glob matchers get (|text| + 1)(|pattern| + 1) + |pattern| + 1 rounds, which
    [Glob.match_loop_spec], [ChannelGlob.matches_loop_spec] and [AclProps.acl_loop_ends] show to be enough.  The parser's depth is
    bounded by the length of its buffer.  Skiplist walks get the number of nodes.  The eviction loop gets
    three rounds for each key and document and three more; each successful round removes one and three
    empty rounds end it ([EvictionFacts.evict_loop_spec]).
    The SCAN loop gets one call per key and one more.  The search for cycles gets the number of edges
    and two more, since every visit marks a client ([DeadlockFacts.dfs_visit_ok]).  The LZF, listpack and
    ziplist loops get the length of their input and one more; each round consumes a byte.  The loop of a
    bus connection gets the length of what the peer sends and one more; each frame has a header.

    ** Not modelled

    Sockets, TLS, files, threads, the async runtime and Lua; argument parsing and reply formatting of
    the command handlers other than those of hashes, Pub/Sub and CLUSTER; sentinel, replication and
    persistence; the driver of slot migration (MIGRATEKEYS and RESHARD, which talk to other servers with
    retries; what they ask of a node is modelled) and the table of key positions the redirects use;
    the search index, the query language and the vector index (behind [SearchManager]);
    HyperLogLog; the ACL file itself and the checks around each command; redlock.  Of the keyspace:
    [incr_by_float] (printing of doubles), the time-boxed sampling of the background expiry task, and the
    dependence of container sizes on allocator capacities (a size is a function of the contents here). *)

From stdpp Require Export base numbers list gmap strings sorting.
From Stdlib Require Export Strings.Byte ZifyBool.
From Stdlib Require Import Lia.

(** ** Byte strings

    Rust's [Bytes], [Vec<u8>] and [&[u8]] are lists of bytes. *)

Abbreviation Bytes := (list byte).

#[global] Instance byte_eq_dec : EqDecision byte.
Proof. intros x y. destruct (Byte.byte_eq_dec x y); [by left | by right]. Defined.

#[global] Program Instance byte_countable : Countable byte :=
  {| encode b := encode (Byte.to_N b);
     decode p := decode p ≫= Byte.of_N |}.
Next Obligation. intros b. simpl. rewrite decode_encode. simpl. apply Byte.of_to_N. Qed.

(** The numeric value of a [u8] and the wrapping cast [as u8]. *)
Definition u8 (b : byte) : Z := Z.of_N (Byte.to_N b).

Definition byte_of_Z (z : Z) : byte :=
  default x00 (Byte.of_N (Z.to_N (z mod 256))).

(** A byte-string literal [b"..."]. *)
Definition bs (s : string) : Bytes := String.list_byte_of_string s.

Lemma u8_range b : (0 ≤ u8 b < 256)%Z.
Proof. unfold u8. pose proof (Byte.to_N_bounded b). lia. Qed.

Lemma u8_inj b1 b2 : u8 b1 = u8 b2 → b1 = b2.
Proof.
  unfold u8. intros H%N2Z.inj.
  pose proof (Byte.of_to_N b1) as H1. pose proof (Byte.of_to_N b2) as H2.
  rewrite H in H1. congruence.
Qed.

Lemma u8_byte_of_Z z : u8 (byte_of_Z z) = (z mod 256)%Z.
Proof.
  unfold u8, byte_of_Z.
  pose proof (Z.mod_pos_bound z 256 ltac:(lia)) as Hb.
  destruct (Byte.of_N (Z.to_N (z mod 256))) as [b|] eqn:E; simpl.
  - apply Byte.to_of_N in E. rewrite E. lia.
  - apply Byte.of_N_None_iff in E. lia.
Qed.

Lemma byte_of_Z_u8 b : byte_of_Z (u8 b) = b.
Proof.
  apply u8_inj. rewrite u8_byte_of_Z. apply Z.mod_small, u8_range.
Qed.

(** [len()] as an integer. *)
Abbreviation zlen l := (Z.of_nat (length l)).

(** ** Machine integers

    Integers are kept in [Z]; each Rust width has its range and its wrapping,
    saturating and checked operations. *)

Declare Scope kore_scope.
Delimit Scope kore_scope with kore.
Open Scope kore_scope.

Definition u16_max : Z := 65535.
Definition u32_max : Z := 4294967295.
Definition u64_max : Z := 18446744073709551615.
Definition i64_min : Z := -9223372036854775808.
Definition i64_max : Z := 9223372036854775807.

Abbreviation in_u16 z := (0 ≤ z ≤ u16_max)%Z.
Abbreviation in_u64 z := (0 ≤ z ≤ u64_max)%Z.
Abbreviation in_i64 z := (i64_min ≤ z ≤ i64_max)%Z.

Definition in_i64_b (z : Z) : bool := (Z.leb i64_min z && Z.leb z i64_max)%bool.

(** Wrap-around on 64 bits: [as u64] and [as i64]. *)
Definition wrap_u64 (z : Z) : Z := (z mod (u64_max + 1))%Z.
Definition wrap_i64 (z : Z) : Z := ((z - i64_min) mod (u64_max + 1) + i64_min)%Z.

(** [u64::saturating_add], [u64::saturating_sub], [i64::checked_add]. *)
Definition sat_add_u64 (a b : Z) : Z := Z.min (a + b) u64_max.
Definition sat_sub_u64 (a b : Z) : Z := Z.max (a - b) 0.
Definition checked_add_i64 (a b : Z) : option Z :=
  if in_i64_b (a + b) then Some (a + b)%Z else None.

Lemma in_i64_b_spec z : in_i64_b z = true ↔ in_i64 z.
Proof. unfold in_i64_b. rewrite andb_true_iff, !Z.leb_le. done. Qed.

Lemma wrap_i64_id z : in_i64 z → wrap_i64 z = z.
Proof.
  intros. unfold wrap_i64. rewrite Z.mod_small; unfold i64_min, i64_max, u64_max in *; lia.
Qed.

Lemma wrap_u64_id z : in_u64 z → wrap_u64 z = z.
Proof. intros. apply Z.mod_small. lia. Qed.

Lemma wrap_u64_range z : in_u64 (wrap_u64 z).
Proof.
  pose proof (Z.mod_pos_bound z (u64_max + 1) ltac:(unfold u64_max; lia)). unfold wrap_u64. lia.
Qed.

Lemma wrap_i64_range z : in_i64 (wrap_i64 z).
Proof.
  unfold wrap_i64.
  pose proof (Z.mod_pos_bound (z - i64_min) (u64_max + 1) ltac:(unfold u64_max; lia)).
  unfold i64_min, i64_max, u64_max in *. lia.
Qed.

(** ** Results and panics

    [result E A] is Rust's [Result<A, E>]; [exec A] adds the third way a call
    can end, a panic, to a plain value. *)

Inductive result (E A : Type) : Type :=
| Ok (a : A)
| Err (e : E).
Arguments Ok {E A} a.
Arguments Err {E A} e.

Inductive exec (A : Type) : Type :=
| Ret (a : A)
| Panic.
Arguments Ret {A} a.
Arguments Panic {A}.

#[global] Instance result_ret {E} : MRet (result E) := λ A a, Ok a.
#[global] Instance result_bind {E} : MBind (result E) := λ A B f m,
  match m with Ok a => f a | Err e => Err e end.
#[global] Instance result_fmap {E} : FMap (result E) := λ A B f m,
  match m with Ok a => Ok (f a) | Err e => Err e end.
#[global] Instance exec_ret : MRet exec := λ A a, Ret a.
#[global] Instance exec_bind : MBind exec := λ A B f m,
  match m with Ret a => f a | Panic => Panic end.

(** [ok_or_else]: an option as a result. *)
Definition ok_or {E A} (o : option A) (e : E) : result E A :=
  match o with Some a => Ok a | None => Err e end.

(** ** Total preorders given by a three-way comparison

    The interface ordered containers ask of their keys: [Ord::cmp] with its
    documented laws.  Keys that compare [Eq] need not be equal. *)

Class TotalCmp {A : Type} (cmp : A → A → comparison) : Prop := {
  cmp_refl : ∀ x, cmp x x = Eq;
  cmp_flip : ∀ x y, cmp y x = CompOpp (cmp x y);
  cmp_le_trans : ∀ x y z, cmp x y ≠ Gt → cmp y z ≠ Gt → cmp x z ≠ Gt
}.

Arguments cmp_refl {A} cmp {_} x.
Arguments cmp_flip {A} cmp {_} x y.
Arguments cmp_le_trans {A} cmp {_} x y z _ _ _.

(** The comparison separates distinct keys ([Eq] agrees with equality). *)
Class CmpEq {A : Type} (cmp : A → A → comparison) : Prop :=
  cmp_eq : ∀ x y, cmp x y = Eq → x = y.

Section total_cmp.
Context {A : Type} (cmp : A → A → comparison) `{!TotalCmp cmp}.

Lemma cmp_lt_gt x y : cmp x y = Lt ↔ cmp y x = Gt.
Proof. rewrite (cmp_flip cmp x y). destruct (cmp x y); simpl; split; congruence. Qed.

Lemma cmp_eq_sym x y : cmp x y = Eq → cmp y x = Eq.
Proof. intros H. rewrite (cmp_flip cmp x y), H. done. Qed.

Lemma cmp_lt_irrefl x : cmp x x ≠ Lt.
Proof. rewrite (cmp_refl cmp). done. Qed.

Lemma cmp_lt_le_trans x y z : cmp x y = Lt → cmp y z ≠ Gt → cmp x z = Lt.
Proof.
  intros Hxy Hyz. destruct (cmp x z) eqn:E; [|done|].
  - exfalso. apply (cmp_le_trans cmp y z x) in Hyz; [|rewrite (cmp_flip cmp x z), E; done].
    apply Hyz. rewrite (cmp_flip cmp x y), Hxy. done.
  - exfalso. apply (cmp_le_trans cmp x y z); [congruence | done | done].
Qed.

Lemma cmp_le_lt_trans x y z : cmp x y ≠ Gt → cmp y z = Lt → cmp x z = Lt.
Proof.
  intros Hxy Hyz. destruct (cmp x z) eqn:E; [|done|].
  - exfalso. apply (cmp_le_trans cmp z x y) in Hxy; [|rewrite (cmp_flip cmp x z), E; done].
    apply Hxy. rewrite (cmp_flip cmp y z), Hyz. done.
  - exfalso. apply (cmp_le_trans cmp x y z); [done | congruence | done].
Qed.

Lemma cmp_lt_trans x y z : cmp x y = Lt → cmp y z = Lt → cmp x z = Lt.
Proof. intros H1 H2. apply (cmp_lt_le_trans x y z); congruence. Qed.

Lemma cmp_lt_asym x y : cmp x y = Lt → cmp y x ≠ Lt.
Proof. intros H. rewrite (cmp_flip cmp x y), H. done. Qed.

Lemma cmp_eq_l x x' y : cmp x x' = Eq → cmp x y = cmp x' y.
Proof.
  intros H. pose proof (cmp_eq_sym _ _ H) as H'.
  destruct (cmp x' y) eqn:E.
  - destruct (cmp x y) eqn:E2; [done| |].
    + pose proof (cmp_le_lt_trans x' x y ltac:(congruence) E2). congruence.
    + apply cmp_lt_gt in E2.
      pose proof (cmp_lt_le_trans y x x' E2 ltac:(congruence)) as E3.
      apply cmp_lt_gt in E3. congruence.
  - apply (cmp_le_lt_trans x x' y); congruence.
  - apply cmp_lt_gt. apply cmp_lt_gt in E. apply (cmp_lt_le_trans y x' x); congruence.
Qed.

Lemma cmp_eq_r x y y' : cmp y y' = Eq → cmp x y = cmp x y'.
Proof.
  intros H. rewrite (cmp_flip cmp y x), (cmp_flip cmp y' x). f_equal. by apply cmp_eq_l.
Qed.

Definition cmp_lt (x y : A) : Prop := cmp x y = Lt.

#[global] Instance cmp_lt_trans' : Transitive cmp_lt.
Proof. intros x y z. apply cmp_lt_trans. Qed.

#[global] Instance cmp_lt_dec : RelDecision cmp_lt.
Proof. intros x y. unfold cmp_lt. destruct (cmp x y); [right|left|right]; done. Defined.
End total_cmp.

(** Comparison of integers, of pairs and of byte strings (Rust's derived and
    slice [Ord]). *)

Definition cmp_lex {A B} (ca : A → A → comparison) (cb : B → B → comparison)
    (x y : A * B) : comparison :=
  match ca x.1 y.1 with Eq => cb x.2 y.2 | c => c end.

Fixpoint cmp_list {A} (c : A → A → comparison) (x y : list A) : comparison :=
  match x, y with
  | [], [] => Eq
  | [], _ :: _ => Lt
  | _ :: _, [] => Gt
  | a :: x', b :: y' => match c a b with Eq => cmp_list c x' y' | r => r end
  end.

Definition cmp_byte (a b : byte) : comparison := Z.compare (u8 a) (u8 b).
Definition cmp_bytes : Bytes → Bytes → comparison := cmp_list cmp_byte.

#[global] Instance Z_cmp : TotalCmp Z.compare.
Proof.
  split.
  - apply Z.compare_refl.
  - intros. apply Z.compare_antisym.
  - intros x y z. rewrite !Z.compare_le_iff. lia.
Qed.

#[global] Instance Z_cmp_eq : CmpEq Z.compare.
Proof. intros x y. apply Z.compare_eq. Qed.

#[global] Instance cmp_lex_total {A B} (ca : A → A → comparison) (cb : B → B → comparison) :
  TotalCmp ca → TotalCmp cb → TotalCmp (cmp_lex ca cb).
Proof.
  intros Ha Hb. unfold cmp_lex. split.
  - intros x. rewrite (cmp_refl ca), (cmp_refl cb). done.
  - intros x y. rewrite (cmp_flip ca x.1 y.1), (cmp_flip cb x.2 y.2).
    by destruct (ca x.1 y.1).
  - intros x y z Hxy Hyz. destruct (ca x.1 y.1) eqn:E1; [| |done].
    + rewrite (cmp_eq_l ca _ _ z.1 E1). destruct (ca y.1 z.1); try done.
      by apply (cmp_le_trans cb _ y.2).
    + rewrite (cmp_lt_le_trans ca _ y.1 _ E1); [done|].
      by destruct (ca y.1 z.1).
Qed.

#[global] Instance cmp_lex_eq {A B} (ca : A → A → comparison) (cb : B → B → comparison) :
  CmpEq ca → CmpEq cb → CmpEq (cmp_lex ca cb).
Proof.
  intros Ha Hb [x1 x2] [y1 y2]. unfold cmp_lex; simpl.
  destruct (ca x1 y1) eqn:E; try done. intros E2.
  by rewrite (Ha _ _ E), (Hb _ _ E2).
Qed.

#[global] Instance cmp_list_total {A} (c : A → A → comparison) :
  TotalCmp c → TotalCmp (cmp_list c).
Proof.
  intros Hc. split.
  - intros x. induction x as [|a x IH]; simpl; [done|]. by rewrite (cmp_refl c).
  - intros x. induction x as [|a x IH]; intros [|b y]; simpl; try done.
    rewrite (cmp_flip c a b), IH. by destruct (c a b).
  - intros x. induction x as [|a x IH]; intros [|b y] [|d z]; simpl; try done.
    intros Hxy Hyz. destruct (c a b) eqn:E1; [| |done].
    + rewrite (cmp_eq_l c _ _ d E1). destruct (c b d); try done. by apply (IH y).
    + rewrite (cmp_lt_le_trans c _ b _ E1); [done|]. by destruct (c b d).
Qed.

#[global] Instance cmp_list_eq {A} (c : A → A → comparison) :
  CmpEq c → CmpEq (cmp_list c).
Proof.
  intros Hc x. induction x as [|a x IH]; intros [|b y]; simpl; try done.
  destruct (c a b) eqn:E; try done. intros E2. by rewrite (Hc _ _ E), (IH _ E2).
Qed.

#[global] Instance cmp_byte_total : TotalCmp cmp_byte.
Proof.
  unfold cmp_byte. split; intros.
  - apply (cmp_refl Z.compare).
  - apply (cmp_flip Z.compare).
  - by apply (cmp_le_trans Z.compare _ (u8 y)).
Qed.

#[global] Instance cmp_byte_eq : CmpEq cmp_byte.
Proof. intros a b H. by apply u8_inj, Z.compare_eq. Qed.

#[global] Instance cmp_bytes_total : TotalCmp cmp_bytes := _.
#[global] Instance cmp_bytes_eq : CmpEq cmp_bytes := _.

(** ** Automation shared by the components *)

Create HintDb kore discriminated.

(** Case-split on the innermost [match]/[if] of the goal or of a hypothesis,
    keeping the equation, and clean up. *)
Ltac split_match :=
  match goal with
  | |- context [match ?x with _ => _ end] =>
      lazymatch x with context [match _ with _ => _ end] => fail | _ => idtac end;
      destruct x eqn:?
  | H : context [match ?x with _ => _ end] |- _ =>
      lazymatch x with context [match _ with _ => _ end] => fail | _ => idtac end;
      destruct x eqn:?
  end.

Ltac kore_cases := repeat (split_match; simplify_eq/=; try done).

(** Turn boolean comparisons on [Z] and [nat] into propositions. *)
Ltac bool_to_prop :=
  repeat match goal with
  | H : (_ && _)%bool = true |- _ => apply andb_true_iff in H as [? ?]
  | H : (_ && _)%bool = false |- _ => apply andb_false_iff in H
  | H : (_ || _)%bool = true |- _ => apply orb_true_iff in H
  | H : (_ || _)%bool = false |- _ => apply orb_false_iff in H as [? ?]
  | H : negb _ = true |- _ => apply negb_true_iff in H
  | H : negb _ = false |- _ => apply negb_false_iff in H
  | H : (_ <=? _)%Z = true |- _ => apply Z.leb_le in H
  | H : (_ <=? _)%Z = false |- _ => apply Z.leb_gt in H
  | H : (_ <? _)%Z = true |- _ => apply Z.ltb_lt in H
  | H : (_ <? _)%Z = false |- _ => apply Z.ltb_ge in H
  | H : (_ =? _)%Z = true |- _ => apply Z.eqb_eq in H
  | H : (_ =? _)%Z = false |- _ => apply Z.eqb_neq in H
  | H : (_ <=? _)%nat = true |- _ => apply Nat.leb_le in H
  | H : (_ <=? _)%nat = false |- _ => apply Nat.leb_gt in H
  | H : (_ <? _)%nat = true |- _ => apply Nat.ltb_lt in H
  | H : (_ <? _)%nat = false |- _ => apply Nat.ltb_ge in H
  | H : (_ =? _)%nat = true |- _ => apply Nat.eqb_eq in H
  | H : (_ =? _)%nat = false |- _ => apply Nat.eqb_neq in H
  | H : bool_decide _ = true |- _ => apply bool_decide_eq_true_1 in H
  | H : bool_decide _ = false |- _ => apply bool_decide_eq_false_1 in H
  end.

(** ** Generic lemmas on lists *)

Lemma forallb_elem {A} (f : A → bool) l : forallb f l = true → ∀ x, x ∈ l → f x = true.
Proof. intros H x Hx. rewrite forallb_forall in H. apply H. by apply list_elem_of_In. Qed.

(** ** Filters *)

Section filters.
Context {A : Type} (P Q : A → Prop) `{!∀ x, Decision (P x), !∀ x, Decision (Q x)}.

Lemma filter_ext_in (l : list A) : (∀ x, x ∈ l → P x ↔ Q x) → filter P l = filter Q l.
Proof.
  induction l as [|x l IH]; intros Hl; [done|]. rewrite !filter_cons, IH.
  - assert (P x ↔ Q x) by (apply Hl; by left). repeat case_decide; tauto || done.
  - intros y Hy. apply Hl. by right.
Qed.

Lemma filter_all (l : list A) : (∀ x, x ∈ l → P x) → filter P l = l.
Proof.
  induction l as [|x l IH]; intros Hl; [done|]. rewrite filter_cons, decide_True, IH; [done| |].
  - intros y Hy. apply Hl. by right.
  - apply Hl. by left.
Qed.

Lemma filter_none (l : list A) : (∀ x, x ∈ l → ¬ P x) → filter P l = [].
Proof.
  induction l as [|x l IH]; intros Hl; [done|]. rewrite filter_cons, decide_False, IH; [done| |].
  - intros y Hy. apply Hl. by right.
  - apply Hl. by left.
Qed.
End filters.

Lemma filter_fmap {A B} (f : A → B) (P : B → Prop) `{!∀ x, Decision (P x)} (l : list A) :
  filter P (f <$> l) = f <$> filter (λ x, P (f x)) l.
Proof.
  induction l as [|x l IH]; [done|]. rewrite fmap_cons, !filter_cons, IH.
  by case_decide.
Qed.

(** ** Index ranges

    Redis ranges are inclusive, and negative indices count from the end. *)

(** [if i < 0 { (len + i).max(0) } else { i }] *)
Definition clamp_index (len i : Z) : Z := (if i <? 0 then (len + i) `max` 0 else i)%Z.

(** The position an index denotes. *)
Definition redis_index (len i : Z) : Z := (if i <? 0 then len + i else i)%Z.

(** The elements whose position is between [a] and [b]. *)
Definition slice {A} (l : list A) (a b : Z) : list A :=
  take (Z.to_nat (b - a `max` 0 + 1)) (drop (Z.to_nat a) l).

Section slices.
Context {A : Type}.
Implicit Types (l : list A).
Local Open Scope Z_scope.

Lemma slice_lookup l a b k :
  slice l a b !! k =
  (if decide (a `max` 0 + Z.of_nat k ≤ b) then l !! (Z.to_nat (a `max` 0) + k)%nat else None).
Proof.
  unfold slice. rewrite lookup_take, lookup_drop.
  replace (Z.to_nat (a `max` 0)) with (Z.to_nat a) by lia.
  case_decide; case_decide; try done; lia.
Qed.

(** The range the commands compute, with both indices clamped. *)
Lemma range_slice l start stop :
  (if zlen l =? 0 then [] else
   if (clamp_index (zlen l) stop <? clamp_index (zlen l) start)
      || (zlen l <=? clamp_index (zlen l) start) then [] else
   take (Z.to_nat (clamp_index (zlen l) stop `min` (zlen l - 1) - clamp_index (zlen l) start + 1))
     (drop (Z.to_nat (clamp_index (zlen l) start)) l)) =
  slice l (redis_index (zlen l) start) (clamp_index (zlen l) stop).
Proof.
  unfold slice. destruct (Z.eqb_spec (zlen l) 0) as [H0|H0].
  { destruct l; [by rewrite drop_nil, take_nil|simpl in H0; lia]. }
  set (s := clamp_index (zlen l) start). set (s' := redis_index (zlen l) start).
  assert (Hs' : s = s' `max` 0)
    by (subst s s'; unfold clamp_index, redis_index; destruct (Z.ltb_spec start 0); lia).
  set (e := clamp_index (zlen l) stop).
  replace (Z.to_nat s') with (Z.to_nat s) by lia. rewrite <- Hs'.
  destruct (Z.ltb_spec e s); simpl.
  { by replace (Z.to_nat (e - s + 1)) with 0%nat by lia. }
  destruct (Z.leb_spec (zlen l) s).
  { by rewrite drop_ge, take_nil by lia. }
  destruct (Z.le_gt_cases e (zlen l - 1)).
  - by rewrite Z.min_l by lia.
  - rewrite Z.min_r by lia. rewrite !take_ge; [done|rewrite length_drop; lia..].
Qed.
End slices.
