(* ===== verification/RustStd.v ===== *)
(** * The parts of Rust's standard library the modelled code calls

    A [&str] is its list of Unicode scalar values ([chars()]).  The file models
    [str::from_utf8], [as_bytes], [parse::<i64>], [parse::<u64>], [to_string] on
    integers, [str::trim] and [split_once], with the laws the components use;
    the main one is that printing an integer and parsing it back gives it. *)

From S2P Require Import Prelude.
From Stdlib Require Import Lia.

Local Open Scope Z_scope.

Abbreviation Str := (list Z).

(** A string literal of ASCII characters. *)
Definition str (s : string) : Str := u8 <$> bs s.

(** ** UTF-8 *)

Definition is_cont (b : byte) : bool := (128 <=? u8 b) && (u8 b <? 192).

(** [str::from_utf8]: [None] on malformed, overlong or surrogate encodings. *)
Fixpoint from_utf8 (l : Bytes) : option Str :=
  match l with
  | [] => Some []
  | b0 :: l1 =>
    let c0 := u8 b0 in
    if c0 <? 128 then cons c0 <$> from_utf8 l1 else
    match l1 with
    | [] => None
    | b1 :: l2 =>
      if (194 <=? c0) && (c0 <? 224) && is_cont b1 then
        cons ((c0 - 192) * 64 + (u8 b1 - 128)) <$> from_utf8 l2 else
      match l2 with
      | [] => None
      | b2 :: l3 =>
        if (224 <=? c0) && (c0 <? 240) && is_cont b1 && is_cont b2 &&
           ((224 <? c0) || (160 <=? u8 b1)) && (negb (c0 =? 237) || (u8 b1 <? 160)) then
          cons ((c0 - 224) * 4096 + (u8 b1 - 128) * 64 + (u8 b2 - 128)) <$> from_utf8 l3 else
        match l3 with
        | [] => None
        | b3 :: l4 =>
          if (240 <=? c0) && (c0 <? 245) && is_cont b1 && is_cont b2 && is_cont b3 &&
             ((240 <? c0) || (144 <=? u8 b1)) && ((c0 <? 244) || (u8 b1 <? 144)) then
            cons ((c0 - 240) * 262144 + (u8 b1 - 128) * 4096 + (u8 b2 - 128) * 64
                  + (u8 b3 - 128)) <$> from_utf8 l4
          else None
        end
      end
    end
  end.

(** [char::encode_utf8], and [str::as_bytes] on the whole string. *)
Definition encode_char (c : Z) : Bytes :=
  if c <? 128 then [byte_of_Z c]
  else if c <? 2048 then [byte_of_Z (192 + c / 64); byte_of_Z (128 + c mod 64)]
  else if c <? 65536 then
    [byte_of_Z (224 + c / 4096); byte_of_Z (128 + (c / 64) mod 64); byte_of_Z (128 + c mod 64)]
  else
    [byte_of_Z (240 + c / 262144); byte_of_Z (128 + (c / 4096) mod 64);
     byte_of_Z (128 + (c / 64) mod 64); byte_of_Z (128 + c mod 64)].

Definition as_bytes (s : Str) : Bytes := concat (encode_char <$> s).

Definition ascii (s : Str) : Prop := Forall (λ c, 0 ≤ c < 128) s.

Lemma as_bytes_ascii s : ascii s → as_bytes s = byte_of_Z <$> s.
Proof.
  induction 1 as [|c s Hc _ IH]; [done|].
  unfold as_bytes in *. csimpl. rewrite IH. unfold encode_char.
  destruct (Z.ltb_spec c 128); [done|lia].
Qed.

Lemma from_utf8_ascii s : ascii s → from_utf8 (byte_of_Z <$> s) = Some s.
Proof.
  induction 1 as [|c s Hc _ IH]; [done|].
  rewrite fmap_cons. cbn [from_utf8].
  rewrite u8_byte_of_Z, Z.mod_small by lia.
  destruct (Z.ltb_spec c 128); [|lia]. by rewrite IH.
Qed.

(** ** Decimal integers *)

(** The decimal digits of [n >= 0], most significant first; [log2 n + 1] bits
    bound the number of digits. *)
Fixpoint dec_digits (fuel : nat) (n : Z) (acc : Str) : Str :=
  match fuel with
  | O => acc
  | S fuel =>
    let acc := (48 + n mod 10) :: acc in
    if n / 10 =? 0 then acc else dec_digits fuel (n / 10) acc
  end.

(** [to_string] on an integer. *)
Definition to_string (z : Z) : Str :=
  if z <? 0 then 45 :: dec_digits (S (Z.to_nat (Z.log2 (- z)))) (- z) []
  else dec_digits (S (Z.to_nat (Z.log2 z))) z [].

Definition is_digit (c : Z) : bool := (48 <=? c) && (c <=? 57).

Fixpoint parse_digits (s : Str) (acc : Z) : option Z :=
  match s with
  | [] => Some acc
  | c :: s => if is_digit c then parse_digits s (acc * 10 + (c - 48)) else None
  end.

(** A non-empty digit string. *)
Definition parse_nat (s : Str) : option Z :=
  match s with [] => None | _ => parse_digits s 0 end.

(** [parse::<i64>]: optional sign, at least one digit, in range. *)
Definition parse_i64 (s : Str) : option Z :=
  z ← match s with
      | 45 :: r => Z.opp <$> parse_nat r
      | 43 :: r => parse_nat r
      | _ => parse_nat s
      end;
  if in_i64_b z then Some z else None.

(** [parse::<u64>]: an optional [+], at least one digit, in range. *)
Definition parse_u64 (s : Str) : option Z :=
  z ← match s with 43 :: r => parse_nat r | _ => parse_nat s end;
  if z <=? u64_max then Some z else None.

Section decimal.
Lemma parse_digits_app s1 s2 acc :
  parse_digits (s1 ++ s2) acc = parse_digits s1 acc ≫= parse_digits s2.
Proof.
  revert acc. induction s1 as [|c s1 IH]; intros acc; [done|].
  simpl. destruct (is_digit c); [apply IH|done].
Qed.

(** Every step of the printer puts the digits of [n] in front of [acc]. *)
Lemma dec_digits_spec fuel n acc :
  0 ≤ n → Z.log2 n < Z.of_nat fuel →
  ∃ ds, dec_digits fuel n acc = ds ++ acc ∧ ds ≠ [] ∧
        parse_digits ds 0 = Some n ∧ Forall (λ c, 48 ≤ c ≤ 57) ds.
Proof.
  revert n acc. induction fuel as [|fuel IH]; intros n acc Hn Hf.
  { pose proof (Z.log2_nonneg n). lia. }
  simpl. pose proof (Z.mod_pos_bound n 10 ltac:(lia)) as Hm.
  pose proof (Z.div_mod n 10 ltac:(lia)) as Hdm.
  assert (is_digit (48 + n mod 10) = true) as Hd.
  { unfold is_digit. apply andb_true_iff. rewrite !Z.leb_le. lia. }
  destruct (Z.eqb_spec (n / 10) 0) as [E|E].
  - exists [48 + n mod 10]. simpl. rewrite Hd. repeat split; [done| |].
    + f_equal. lia.
    + constructor; [lia|done].
  - pose proof (Z.div_pos n 10 Hn ltac:(lia)) as Hq.
    assert (Z.log2 (n / 10) < Z.of_nat fuel) as Hl.
    { assert (Z.log2 (n / 10) < Z.log2 n); [|lia].
      apply Z.log2_lt_pow2; [lia|].
      pose proof (Z.log2_spec n ltac:(lia)) as [_ Hs]. rewrite Z.pow_succ_r in Hs by apply Z.log2_nonneg. lia. }
    destruct (IH (n / 10) ((48 + n mod 10) :: acc) Hq Hl) as (ds & Hds & _ & Hp & Hfa).
    exists (ds ++ [48 + n mod 10]). rewrite Hds, <- (assoc_L (++)). repeat split.
    + by destruct ds.
    + rewrite parse_digits_app, Hp. simpl. rewrite Hd. f_equal. lia.
    + apply Forall_app; split; [done|]. constructor; [lia|done].
Qed.
End decimal.

(** A printed integer is ASCII, non-empty and has no line break. *)
Lemma to_string_chars z : Forall (λ c, c = 45 ∨ 48 ≤ c ≤ 57) (to_string z).
Proof.
  assert (∀ n, 0 ≤ n → Forall (λ c, c = 45 ∨ 48 ≤ c ≤ 57)
    (dec_digits (S (Z.to_nat (Z.log2 n))) n [])) as Hpos.
  { intros n Hn. pose proof (Z.log2_nonneg n).
    destruct (dec_digits_spec (S (Z.to_nat (Z.log2 n))) n []) as (ds & -> & _ & _ & Hd); [lia..|].
    rewrite (right_id_L [] (++)). eapply Forall_impl; [done|]. simpl. lia. }
  unfold to_string. destruct (Z.ltb_spec z 0).
  - constructor; [by left|]. apply Hpos. lia.
  - apply Hpos. lia.
Qed.

Lemma to_string_ascii z : ascii (to_string z).
Proof. eapply Forall_impl; [apply to_string_chars|]. simpl. lia. Qed.

Lemma to_string_digits z : 0 ≤ z → to_string z ≠ [] ∧ Forall (λ c, 48 ≤ c ≤ 57) (to_string z).
Proof.
  intros Hz. unfold to_string. destruct (Z.ltb_spec z 0); [lia|]. pose proof (Z.log2_nonneg z).
  destruct (dec_digits_spec (S (Z.to_nat (Z.log2 z))) z []) as (ds & -> & Hn & _ & Hd); [lia..|].
  rewrite app_nil_r. done.
Qed.

Lemma to_string_parse_nat n :
  0 ≤ n → parse_nat (to_string n) = Some n ∧ ∃ c r, to_string n = c :: r ∧ 48 ≤ c ≤ 57.
Proof.
  intros Hn. unfold to_string. destruct (Z.ltb_spec n 0); [lia|].
  pose proof (Z.log2_nonneg n).
  destruct (dec_digits_spec (S (Z.to_nat (Z.log2 n))) n []) as (ds & -> & Hne & Hp & Hf); [lia..|].
  rewrite (right_id_L [] (++)). destruct ds as [|c ds]; [done|].
  split; [done|]. exists c, ds. split; [done|]. by inversion Hf.
Qed.

Lemma parse_i64_nat c r :
  c ≠ 45 → c ≠ 43 →
  parse_i64 (c :: r) = z ← parse_nat (c :: r); if in_i64_b z then Some z else None.
Proof.
  intros H1 H2. unfold parse_i64. destruct c as [|p|p]; [done| |done].
  do 7 (destruct p as [p|p|]; try done).
Qed.

(** Printing then parsing a 64-bit integer gives it back. *)
Lemma parse_to_string_i64 z : in_i64 z → parse_i64 (to_string z) = Some z.
Proof.
  intros Hz. pose proof Hz as Hb. apply in_i64_b_spec in Hb.
  destruct (Z.ltb_spec z 0) as [Hneg|Hpos].
  - unfold to_string. destruct (Z.ltb_spec z 0); [|lia].
    destruct (to_string_parse_nat (- z)) as [Hp _]; [lia|].
    unfold to_string in Hp. destruct (Z.ltb_spec (- z) 0); [lia|].
    unfold parse_i64. cbv beta iota. rewrite Hp. simpl. by rewrite Z.opp_involutive, Hb.
  - destruct (to_string_parse_nat z Hpos) as (Hp & c & r & E & Hc).
    rewrite E in *. rewrite parse_i64_nat by lia. by rewrite Hp; simpl; rewrite Hb.
Qed.

Lemma parse_to_string_u64 z : in_u64 z → parse_u64 (to_string z) = Some z.
Proof.
  intros Hz. destruct (to_string_parse_nat z ltac:(lia)) as (Hp & c & r & E & Hc).
  rewrite E in *. unfold parse_u64.
  assert (match c :: r with 43 :: r => parse_nat r | _ => parse_nat (c :: r) end
          = parse_nat (c :: r)) as ->.
  { destruct c as [|p|p]; [done| |done]. do 6 (destruct p as [p|p|]; try done); lia. }
  rewrite Hp. simpl. destruct (Z.leb_spec z u64_max); [done|lia].
Qed.

Lemma parse_u64_range s z : parse_u64 s = Some z → in_u64 z.
Proof.
  unfold parse_u64. intros H.
  assert (Hd : ∀ s acc z, 0 ≤ acc → parse_digits s acc = Some z → 0 ≤ z).
  { induction s0 as [|c s0 IH]; simpl; intros acc z' Ha Hz; [by simplify_eq|].
    destruct (is_digit c) eqn:Ec; [|done]. eapply IH; [|exact Hz]. unfold is_digit in Ec. lia. }
  assert (Hn : ∀ s z, parse_nat s = Some z → 0 ≤ z).
  { intros [|c s0] z' Hz; [done|]. by apply (Hd (c :: s0) 0). }
  destruct (match s with 43 :: r => parse_nat r | _ => parse_nat s end) as [z'|] eqn:E; [|done].
  simpl in H. destruct (Z.leb_spec z' u64_max); simplify_eq. split; [|done].
  repeat case_match; by eapply Hn.
Qed.

(** The length in bytes of what [to_string] prints is its length in characters. *)
Definition dec (z : Z) : Bytes := as_bytes (to_string z).

Lemma dec_utf8 z : from_utf8 (dec z) = Some (to_string z).
Proof.
  unfold dec. rewrite as_bytes_ascii by apply to_string_ascii.
  apply from_utf8_ascii, to_string_ascii.
Qed.

Lemma dec_no_cr z : x0d ∉ dec z.
Proof.
  unfold dec. rewrite as_bytes_ascii by apply to_string_ascii.
  rewrite list_elem_of_fmap. intros (c & E & Hc).
  pose proof (to_string_chars z) as Hf. rewrite Forall_forall in Hf. specialize (Hf c Hc).
  apply (f_equal u8) in E. rewrite u8_byte_of_Z, Z.mod_small in E by lia.
  change (u8 x0d) with 13 in E. lia.
Qed.

(** ** Trimming and splitting *)

(** [char::is_whitespace] (Unicode [White_Space]). *)
Definition is_whitespace (c : Z) : bool :=
  ((9 <=? c) && (c <=? 13)) || (c =? 32) || (c =? 133) || (c =? 160) || (c =? 5760)
  || ((8192 <=? c) && (c <=? 8202)) || (c =? 8232) || (c =? 8233) || (c =? 8239)
  || (c =? 8287) || (c =? 12288).

Fixpoint trim_start (s : Str) : Str :=
  match s with
  | [] => []
  | c :: r => if is_whitespace c then trim_start r else s
  end.

Definition trim (s : Str) : Str := reverse (trim_start (reverse (trim_start s))).

(** [str::split_once] on a character. *)
Fixpoint split_once (d : Z) (s : Str) : option (Str * Str) :=
  match s with
  | [] => None
  | c :: r =>
    if c =? d then Some ([], r)
    else '(a, b) ← split_once d r; Some (c :: a, b)
  end.

Lemma split_once_app d a b : d ∉ a → split_once d (a ++ d :: b) = Some (a, b).
Proof.
  induction a as [|c a IH]; intros Hd; simpl.
  - by rewrite Z.eqb_refl.
  - apply not_elem_of_cons in Hd as [Hc Hd]. destruct (Z.eqb_spec c d); [congruence|].
    by rewrite IH.
Qed.
