(* ===== verification/Errors.v ===== *)
(** * The error type ([src/error.rs])

    One constructor per variant of [Error]; the payload of [Io] (a
    [std::io::Error]) is kept as the text it displays. *)

From S2P Require Import Prelude RustStd.

Inductive KError : Type :=
| Io (e : Str)
| KeyNotFound
| InvalidCommand (m : Str)
| ParseError (m : Str)
| EntryTooLarge
| OutOfMemory
| InvalidProtocol
| AuthRequired
| AuthFailed
| CasMismatch
| InvalidArgument (m : Str)
| LockAcquisitionFailed (m : Str)
| LockExtensionFailed (m : Str)
| DeadlockDetected (m : Str)
| PubSubError (m : Str)
| MessageTooLarge (size max : Z)
| SlowClientTimeout
| NetworkError (m : Str)
| ComparisonError
| ConfigError (m : Str)
| WrongType.

(** The [Display] text ([#[error(...)]]). *)
Definition error_display (e : KError) : Str :=
  match e with
  | Io e => str "IO error: " ++ e
  | KeyNotFound => str "Key not found"
  | InvalidCommand m => str "Invalid command: " ++ m
  | ParseError m => str "Parse error: " ++ m
  | EntryTooLarge => str "Entry too large"
  | OutOfMemory => str "Out of memory"
  | InvalidProtocol => str "Invalid protocol"
  | AuthRequired => str "Authentication required"
  | AuthFailed => str "Authentication failed"
  | CasMismatch => str "CAS mismatch"
  | InvalidArgument m => str "Invalid argument: " ++ m
  | LockAcquisitionFailed m => str "Lock acquisition failed: " ++ m
  | LockExtensionFailed m => str "Lock extension failed: " ++ m
  | DeadlockDetected m => str "Deadlock detected: " ++ m
  | PubSubError m => str "Pub/Sub error: " ++ m
  | MessageTooLarge size max =>
      str "Message too large: " ++ to_string size ++ str " bytes (max: " ++ to_string max ++ str ")"
  | SlowClientTimeout => str "Slow client timeout"
  | NetworkError m => str "Network error: " ++ m
  | ComparisonError => str "Comparison error: cannot compare NaN values"
  | ConfigError m => str "Configuration error: " ++ m
  | WrongType => str "WRONGTYPE Operation against a key holding the wrong kind of value"
  end.

(** [Error::to_resp_string]. *)
Definition to_resp_string (e : KError) : Str :=
  match e with
  | WrongType => error_display e
  | OutOfMemory => str "OOM command not allowed when used memory > 'maxmemory'"
  | other => str "ERR " ++ error_display other
  end.
