(* ===== verification/Resp.v ===== *)
(** * The RESP protocol: serializer and incremental parser
    ([src/protocol/resp.rs]) *)

From S2P Require Import Prelude RustStd Errors.
From Stdlib Require Import Lia.

Local Open Scope Z_scope.

(** ** Values *)

Inductive RespValue : Type :=
| SimpleString (s : Bytes)
| Error (e : Bytes)
| Integer (i : Z)
| BulkString (s : option Bytes)
| Array (arr : list RespValue)
| NullArray
| Multiple (values : list RespValue)
| Map (pairs : list (RespValue * RespValue))
| Bool (b : bool)
| Null
| Push (arr : list RespValue).

Section resp_ind.
Context (P : RespValue → Prop).
Context (HSimple : ∀ s, P (SimpleString s)) (HError : ∀ e, P (Error e))
  (HInteger : ∀ i, P (Integer i)) (HBulk : ∀ s, P (BulkString s))
  (HArray : ∀ arr, Forall P arr → P (Array arr)) (HNullArray : P NullArray)
  (HMultiple : ∀ vs, Forall P vs → P (Multiple vs))
  (HMap : ∀ ps, Forall (λ kv, P kv.1 ∧ P kv.2) ps → P (Map ps))
  (HBool : ∀ b, P (Bool b)) (HNull : P Null)
  (HPush : ∀ arr, Forall P arr → P (Push arr)).

(** Induction that reaches the elements of arrays, maps and pushes. *)
Fixpoint resp_value_ind (v : RespValue) : P v :=
  let list_ind := fix go (l : list RespValue) : Forall P l :=
    match l with
    | [] => Forall_nil_2 P
    | v :: l => Forall_cons_2 P v l (resp_value_ind v) (go l)
    end in
  let pair_ind := fix go (l : list (RespValue * RespValue)) :
      Forall (λ kv, P kv.1 ∧ P kv.2) l :=
    match l with
    | [] => Forall_nil_2 _
    | kv :: l =>
      Forall_cons_2 (λ kv, P kv.1 ∧ P kv.2) kv l
        (match kv with (k, v) => conj (resp_value_ind k) (resp_value_ind v) end) (go l)
    end in
  match v with
  | SimpleString s => HSimple s
  | Error e => HError e
  | Integer i => HInteger i
  | BulkString s => HBulk s
  | Array arr => HArray arr (list_ind arr)
  | NullArray => HNullArray
  | Multiple vs => HMultiple vs (list_ind vs)
  | Map ps => HMap ps (pair_ind ps)
  | Bool b => HBool b
  | Null => HNull
  | Push arr => HPush arr (list_ind arr)
  end.
End resp_ind.

(** ** Serializer *)

Definition crlf : Bytes := [x0d; x0a].

(** [write_to]: append the wire form of [v] to the buffer. *)
Fixpoint write_to (v : RespValue) (buf : Bytes) : Bytes :=
  match v with
  | SimpleString s => buf ++ [x2b] ++ s ++ crlf
  | Error e => buf ++ [x2d] ++ e ++ crlf
  | Integer i => buf ++ [x3a] ++ dec i ++ crlf
  | BulkString None => buf ++ bs "$-1" ++ crlf
  | BulkString (Some s) => buf ++ [x24] ++ dec (zlen s) ++ crlf ++ s ++ crlf
  | Array arr =>
      fold_left (λ buf v, write_to v buf) arr (buf ++ [x2a] ++ dec (zlen arr) ++ crlf)
  | NullArray => buf ++ bs "*-1" ++ crlf
  | Multiple values => fold_left (λ buf v, write_to v buf) values buf
  | Map pairs =>
      fold_left (λ buf kv, write_to kv.2 (write_to kv.1 buf)) pairs
        (buf ++ [x25] ++ dec (zlen pairs) ++ crlf)
  | Bool true => buf ++ bs "#t" ++ crlf
  | Bool false => buf ++ bs "#f" ++ crlf
  | Null => buf ++ bs "_" ++ crlf
  | Push arr =>
      fold_left (λ buf v, write_to v buf) arr (buf ++ [x3e] ++ dec (zlen arr) ++ crlf)
  end.

(** [serialize], with its shortcut for [+OK]. *)
Definition serialize (v : RespValue) : Bytes :=
  match v with
  | SimpleString s =>
      if decide (s = bs "OK") then bs "+OK" ++ crlf else write_to v []
  | _ => write_to v []
  end.

(** Constructors and accessors ([ok], [null], [null_array], [as_array],
    [as_bulk_string], [as_integer]). *)
Definition ok : RespValue := SimpleString (bs "OK").
Definition null : RespValue := BulkString None.
Definition null_array : RespValue := NullArray.
Definition as_array (v : RespValue) : option (list RespValue) :=
  match v with Array arr => Some arr | _ => None end.
Definition as_bulk_string (v : RespValue) : option Bytes :=
  match v with BulkString (Some s) => Some s | _ => None end.
Definition as_integer (v : RespValue) : option Z :=
  match v with Integer i => Some i | _ => None end.

(** ** Parser

    The cursor is the part of the buffer not yet read: its position is the
    buffer's length minus the cursor's.  A parse ends with a value and the new
    cursor, with an [Error], with a panic, or (never, see
    [parse_value_fuel_enough]) by running out of fuel. *)

Inductive presult (A : Type) : Type :=
| POk (a : A) (cur : Bytes)
| PErr (e : KError)
| PPanic
| PFuel.
Arguments POk {A} a cur.
Arguments PErr {A} e.
Arguments PPanic {A}.
Arguments PFuel {A}.

Definition pbind {A B} (m : presult A) (k : A → Bytes → presult B) : presult B :=
  match m with
  | POk a cur => k a cur
  | PErr e => PErr e
  | PPanic => PPanic
  | PFuel => PFuel
  end.

Notation "'let*' x , c := m 'in' k" := (pbind m (λ x c, k))
  (at level 10, x name, c name, m at level 100, k at level 200) : kore_scope.

Definition perr {A} (m : string) : presult A := PErr (ParseError (str m)).

(** [read_line]: up to the first CRLF, which is consumed. *)
Definition at_crlf (b : byte) (r : Bytes) : bool :=
  bool_decide (b = x0d) && bool_decide (head r = Some x0a).

Fixpoint find_crlf (cur : Bytes) : option (Bytes * Bytes) :=
  match cur with
  | [] => None
  | b :: r =>
    if at_crlf b r then Some ([], tail r)
    else '(line, r') ← find_crlf r; Some (b :: line, r')
  end.

Definition read_line (cur : Bytes) : presult Bytes :=
  match find_crlf cur with
  | Some (line, cur') => POk line cur'
  | None => perr "incomplete line"
  end.

Definition expect_crlf (cur : Bytes) : presult unit :=
  match cur with
  | cr :: lf :: r =>
      if negb (Byte.eqb cr x0d) || negb (Byte.eqb lf x0a) then perr "expected CRLF"
      else POk () r
  | _ => perr "incomplete data"
  end.

(** A line holding an [i64]: the start of five of the parse functions. *)
Definition read_i64 (utf8_msg int_msg : string) (cur : Bytes) : presult Z :=
  let* line, cur := read_line cur in
  match from_utf8 line with
  | None => perr utf8_msg
  | Some s =>
    match parse_i64 s with
    | None => perr int_msg
    | Some n => POk n cur
    end
  end.

(** [for _ in 0..n { acc.push(p(cursor)?) }] *)
Fixpoint parse_n {A} (p : Bytes → presult A) (fuel : nat) (n : Z) (cur : Bytes)
    (acc : list A) : presult (list A) :=
  if n <=? 0 then POk acc cur else
  match fuel with
  | O => PFuel
  | S fuel => let* a, cur := p cur in parse_n p fuel (n - 1) cur (acc ++ [a])
  end.

Definition parse_simple_string (cur : Bytes) : presult RespValue :=
  let* line, cur := read_line cur in POk (SimpleString line) cur.

Definition parse_error (cur : Bytes) : presult RespValue :=
  let* line, cur := read_line cur in POk (Error line) cur.

Definition parse_integer (cur : Bytes) : presult RespValue :=
  let* num, cur := read_i64 "invalid UTF-8 in integer" "invalid integer" cur in
  POk (Integer num) cur.

Definition parse_bool (cur : Bytes) : presult RespValue :=
  match cur with
  | [] => perr "incomplete bool"
  | b :: cur =>
    let* _u, cur := expect_crlf cur in
    match b with
    | x74 | x54 => POk (Bool true) cur
    | x66 | x46 => POk (Bool false) cur
    | _ => perr "invalid bool"
    end
  end.

Definition parse_null (cur : Bytes) : presult RespValue :=
  let* _u, cur := expect_crlf cur in POk Null cur.

Definition max_bulk_len : Z := 500 * 1024 * 1024.
Definition max_array_len : Z := 100000.

Definition parse_bulk_string (cur : Bytes) : presult RespValue :=
  let* len, cur :=
    read_i64 "invalid UTF-8 in bulk string length" "invalid bulk string length" cur in
  if len =? -1 then POk (BulkString None) cur else
  if len <? 0 then perr "negative bulk string length" else
  if max_bulk_len <? len then perr "bulk string too large" else
  if zlen cur <? len + 2 then perr "incomplete bulk string data" else
  let data := take (Z.to_nat len) cur in
  let cur := drop (Z.to_nat len) cur in
  match cur with
  | cr :: lf :: r =>
      if negb (Byte.eqb cr x0d) || negb (Byte.eqb lf x0a)
      then perr "invalid bulk string terminator"
      else POk (BulkString (Some data)) r
  | _ => perr "missing bulk string terminator"
  end.

(** The parse functions that call back into [parse_value] take it as [pv]; the
    loop gets the same fuel.  [value_size] is [size_of::<RespValue>()], which
    the compiler chooses: [Vec::with_capacity] panics when the requested bytes
    exceed [isize::MAX]. *)
Section parser.
Context (value_size : Z).

Definition with_capacity_ok (elem_size n : Z) : bool := n * elem_size <=? i64_max.

Definition parse_array (pv : Bytes → presult RespValue) (fuel : nat) (cur : Bytes) :
    presult RespValue :=
  let* len, cur := read_i64 "invalid UTF-8 in array length" "invalid array length" cur in
  if len =? -1 then POk NullArray cur else
  if len <? 0 then perr "negative array length" else
  if max_array_len <? len then perr "array too large" else
  if negb (with_capacity_ok value_size len) then PPanic else
  let* arr, cur := parse_n pv fuel len cur [] in
  POk (Array arr) cur.

Definition parse_pair (pv : Bytes → presult RespValue) (cur : Bytes) :
    presult (RespValue * RespValue) :=
  let* k, cur := pv cur in
  let* v, cur := pv cur in
  POk (k, v) cur.

Definition parse_map (pv : Bytes → presult RespValue) (fuel : nat) (cur : Bytes) :
    presult RespValue :=
  let* len, cur := read_i64 "invalid UTF-8 in map length" "invalid map length" cur in
  if len <? 0 then perr "negative map length" else
  if negb (with_capacity_ok (2 * value_size) len) then PPanic else
  let* pairs, cur := parse_n (parse_pair pv) fuel len cur [] in
  POk (Map pairs) cur.

Definition parse_push (pv : Bytes → presult RespValue) (fuel : nat) (cur : Bytes) :
    presult RespValue :=
  let* len, cur := read_i64 "invalid UTF-8 in push length" "invalid push length" cur in
  if len <? 0 then perr "negative push length" else
  if negb (with_capacity_ok value_size len) then PPanic else
  let* arr, cur := parse_n pv fuel len cur [] in
  POk (Push arr) cur.

Definition invalid_type (b : byte) : KError :=
  ParseError (str "invalid RESP type byte: " ++ to_string (u8 b)).

(** The [match type_byte] of [parse_value]. *)
Definition parse_typed (pv : Bytes → presult RespValue) (fuel : nat) (type_byte : byte) :
    Bytes → presult RespValue :=
  match type_byte with
  | x2b => parse_simple_string
  | x2d => parse_error
  | x3a => parse_integer
  | x24 => parse_bulk_string
  | x2a => parse_array pv fuel
  | x25 => parse_map pv fuel
  | x23 => parse_bool
  | x5f => parse_null
  | x3e => parse_push pv fuel
  | _ => λ _, PErr (invalid_type type_byte)
  end.

Fixpoint parse_value (fuel : nat) (cur : Bytes) : presult RespValue :=
  match fuel with
  | O => PFuel
  | S fuel =>
    match cur with
    | [] => perr "incomplete data"
    | type_byte :: cur => parse_typed (parse_value fuel) fuel type_byte cur
    end
  end.

(** *** The parser object *)

Record RespParser : Type := { buffer : Bytes }.

Definition parser_new : RespParser := {| buffer := [] |}.

Definition feed (p : RespParser) (data : Bytes) : RespParser :=
  {| buffer := buffer p ++ data |}.

Definition parse_with_consumed (p : RespParser) :
    exec (result KError (option (RespValue * nat))) * RespParser :=
  match buffer p with
  | [] => (Ret (Ok None), p)
  | buf =>
    match parse_value (S (length buf)) buf with
    | POk value cur =>
        let pos := (length buf - length cur)%nat in
        (Ret (Ok (Some (value, pos))), {| buffer := drop pos buf |})
    | PErr (ParseError _) => (Ret (Ok None), p)
    | PErr e => (Ret (Err e), p)
    | PPanic | PFuel => (Panic, p)
    end
  end.

Definition parse (p : RespParser) :
    exec (result KError (option RespValue)) * RespParser :=
  match parse_with_consumed p with
  | (Ret (Ok o), p) => (Ret (Ok (fst <$> o)), p)
  | (Ret (Err e), p) => (Ret (Err e), p)
  | (Panic, p) => (Panic, p)
  end.

(** The reading loop of a connection ([process_available_commands] in
    [src/network.rs]): [while let Some(value) = parser.parse()?].  Each
    value leaves the buffer shorter, so its length is enough fuel. *)
Fixpoint drain (fuel : nat) (p : RespParser) :
    exec (result KError (list RespValue)) * RespParser :=
  match fuel with
  | O => (Ret (Ok []), p)
  | S fuel =>
    match parse p with
    | (Ret (Ok (Some v)), p) =>
        match drain fuel p with
        | (Ret (Ok vs), p) => (Ret (Ok (v :: vs)), p)
        | r => r
        end
    | (Ret (Ok None), p) => (Ret (Ok []), p)
    | (Ret (Err e), p) => (Ret (Err e), p)
    | (Panic, p) => (Panic, p)
    end
  end.

(** The connection loop: feed what one [read] returned, then drain. *)
Fixpoint conn_loop (chunks : list Bytes) (p : RespParser) :
    exec (result KError (list RespValue)) * RespParser :=
  match chunks with
  | [] => (Ret (Ok []), p)
  | chunk :: chunks =>
    let p := feed p chunk in
    match drain (S (length (buffer p))) p with
    | (Ret (Ok vs), p) =>
        match conn_loop chunks p with
        | (Ret (Ok ws), p) => (Ret (Ok (vs ++ ws)), p)
        | r => r
        end
    | r => r
    end
  end.
End parser.

(** The crate's own unit tests, on a 40-byte [RespValue]. *)
Example test_array :
  (parse 40 (feed parser_new (bs "*2" ++ crlf ++ bs "$3" ++ crlf ++ bs "foo" ++ crlf
                              ++ bs "$3" ++ crlf ++ bs "bar" ++ crlf))).1
  = Ret (Ok (Some (Array [BulkString (Some (bs "foo")); BulkString (Some (bs "bar"))]))).
Proof. vm_compute. reflexivity. Qed.

Example test_map_roundtrip :
  let v := Map [(BulkString (Some (bs "server")), BulkString (Some (bs "kore")));
                (BulkString (Some (bs "proto")), Integer 3)] in
  (parse 40 (feed parser_new (serialize v))).1 = Ret (Ok (Some v)).
Proof. vm_compute. reflexivity. Qed.
