(* ===== verification/RespFacts.v ===== *)
(** * Facts and properties of the RESP serializer and parser

    The wire form of a value as an equation, what every parse function
    satisfies, the round trip, the behaviour on incomplete input, and the
    framing theorem of the connection loop. *)

From S2P Require Import Prelude RustStd Errors Resp.
From Stdlib Require Import Lia.

Local Open Scope Z_scope.

(** ** The wire form as an equation *)

Definition enc (v : RespValue) : Bytes := write_to v [].

Lemma fold_write {A} (w : A → Bytes → Bytes) (l : list A) buf :
  Forall (λ a, ∀ buf, w a buf = buf ++ w a []) l →
  fold_left (λ buf a, w a buf) l buf = buf ++ concat ((λ a, w a []) <$> l).
Proof.
  intros Hl. revert buf. induction Hl as [|a l Ha _ IH]; intros buf; csimpl.
  - by rewrite (right_id_L [] (++)).
  - rewrite IH, Ha, (assoc_L (++)). done.
Qed.

Lemma fold_write_pair (l : list (RespValue * RespValue)) buf :
  Forall (λ kv, (∀ buf, write_to kv.1 buf = buf ++ write_to kv.1 []) ∧
                (∀ buf, write_to kv.2 buf = buf ++ write_to kv.2 [])) l →
  fold_left (λ buf kv, write_to kv.2 (write_to kv.1 buf)) l buf
  = buf ++ concat ((λ kv, enc kv.1 ++ enc kv.2) <$> l).
Proof.
  intros Hl. revert buf. induction Hl as [|[k v] l [Hk Hv] _ IH]; intros buf; csimpl.
  - by rewrite (right_id_L [] (++)).
  - rewrite IH. simpl in *. rewrite Hv, Hk. unfold enc. by rewrite !(assoc_L (++)).
Qed.

Lemma write_to_app v buf : write_to v buf = buf ++ enc v.
Proof.
  revert buf. unfold enc. induction v using resp_value_ind; intros buf; simpl; try done.
  - destruct s; done.
  - rewrite !(fold_write write_to) by done. by rewrite !(assoc_L (++)).
  - rewrite !(fold_write write_to) by done. done.
  - rewrite !fold_write_pair by done. by rewrite !(assoc_L (++)).
  - destruct b; done.
  - rewrite !(fold_write write_to) by done. by rewrite !(assoc_L (++)).
Qed.

Lemma enc_list vs buf :
  fold_left (λ buf v, write_to v buf) vs buf = buf ++ concat (enc <$> vs).
Proof. apply fold_write. apply Forall_forall. intros v _ b. apply write_to_app. Qed.

Lemma enc_array arr : enc (Array arr) = [x2a] ++ dec (zlen arr) ++ crlf ++ concat (enc <$> arr).
Proof. unfold enc at 1. cbn [write_to]. rewrite enc_list. by rewrite <- !(assoc_L (++)). Qed.

Lemma enc_push arr : enc (Push arr) = [x3e] ++ dec (zlen arr) ++ crlf ++ concat (enc <$> arr).
Proof. unfold enc at 1. cbn [write_to]. rewrite enc_list. by rewrite <- !(assoc_L (++)). Qed.

Lemma enc_multiple vs : enc (Multiple vs) = concat (enc <$> vs).
Proof. unfold enc at 1. simpl. apply enc_list. Qed.

Definition enc_pair (kv : RespValue * RespValue) : Bytes := enc kv.1 ++ enc kv.2.

Lemma enc_map ps : enc (Map ps) = [x25] ++ dec (zlen ps) ++ crlf ++ concat (enc_pair <$> ps).
Proof.
  unfold enc at 1. cbn [write_to]. rewrite fold_write_pair.
  - by rewrite <- !(assoc_L (++)).
  - apply Forall_forall. intros kv _. split; intros b; apply write_to_app.
Qed.

Lemma serialize_enc v : serialize v = enc v.
Proof.
  destruct v as [s| | | | | | | | | |]; try done.
  unfold serialize. by destruct (decide (s = bs "OK")) as [->|].
Qed.

(** ** Lines *)

Lemma at_crlf_spec b r : at_crlf b r = true ↔ b = x0d ∧ ∃ r', r = x0a :: r'.
Proof.
  unfold at_crlf. rewrite andb_true_iff, !bool_decide_eq_true.
  split; [|by intros [-> [r' ->]]]. intros [-> Hh]. split; [done|].
  destruct r as [|b' r]; [done|]. injection Hh as ->. eauto.
Qed.

Lemma at_crlf_app b r q : at_crlf b r = true → at_crlf b (r ++ q) = true.
Proof. rewrite !at_crlf_spec. intros [-> [r' ->]]. eauto. Qed.

Lemma at_crlf_ext b r q : r ≠ [] → at_crlf b (r ++ q) = at_crlf b r.
Proof. by destruct r. Qed.

Lemma find_crlf_app s r : find_crlf s = None → find_crlf (s ++ crlf ++ r) = Some (s, r).
Proof.
  induction s as [|b s IH]; [done|]. cbn [find_crlf app]. intros Hn.
  destruct (at_crlf b s) eqn:Hb; [done|].
  destruct (find_crlf s) as [[]|] eqn:E; [done|].
  destruct (at_crlf b (s ++ crlf ++ r)) eqn:Hb2; [|by rewrite IH].
  apply at_crlf_spec in Hb2 as [-> [r' Hr]]. destruct s as [|b' s]; [done|].
  injection Hr as -> _. done.
Qed.

Lemma find_crlf_no_cr s : x0d ∉ s → find_crlf s = None.
Proof.
  induction s as [|b s IH]; [done|]. rewrite not_elem_of_cons. intros [Hb Hs].
  simpl. rewrite IH by done. destruct (at_crlf b s) eqn:E; [|done].
  apply at_crlf_spec in E as [-> _]. done.
Qed.

Lemma find_crlf_ext p q line r :
  find_crlf p = Some (line, r) → find_crlf (p ++ q) = Some (line, r ++ q).
Proof.
  revert line r. induction p as [|b p IH]; [done|]. simpl. intros line r Hp.
  destruct (at_crlf b p) eqn:Hb.
  - rewrite at_crlf_app by done. apply at_crlf_spec in Hb as [-> [r' ->]].
    by injection Hp as <- <-.
  - destruct (find_crlf p) as [[l0 r0]|] eqn:E; [|done]. injection Hp as <- <-.
    rewrite at_crlf_ext, Hb, (IH _ _ eq_refl); [done|]. by intros ->.
Qed.

Lemma find_crlf_split p line r : find_crlf p = Some (line, r) → p = line ++ crlf ++ r.
Proof.
  revert line r. induction p as [|b p IH]; [done|]. simpl. intros line r Hp.
  destruct (at_crlf b p) eqn:Hb.
  - apply at_crlf_spec in Hb as [-> [r' ->]]. by injection Hp as <- <-.
  - destruct (find_crlf p) as [[l0 r0]|] eqn:E; [|done]. injection Hp as <- <-.
    simpl. f_equal. by apply IH.
Qed.

(** ** What every parse function satisfies

    [stable]: bytes that arrive later do not change a parse that succeeded (or
    panicked), they only stay unread.  [reads n]: a parse that succeeds leaves
    a suffix of its input, at least [n] bytes shorter. *)

Definition stable {A} (P : Bytes → presult A) : Prop :=
  ∀ p q, match P p with
         | POk a r => P (p ++ q) = POk a (r ++ q)
         | PPanic => P (p ++ q) = PPanic
         | _ => True
         end.

Definition reads {A} (n : nat) (P : Bytes → presult A) : Prop :=
  ∀ p a r, P p = POk a r → ∃ c, p = c ++ r ∧ (n ≤ length c)%nat.

Lemma stable_ret {A} (a : A) : stable (POk a).
Proof. done. Qed.

Lemma stable_err {A} e : stable (λ _, PErr e : presult A).
Proof. done. Qed.

Lemma stable_bind {A B} (P : Bytes → presult A) (K : A → Bytes → presult B) :
  stable P → (∀ a, stable (K a)) → stable (λ p, pbind (P p) K).
Proof.
  intros HP HK p q. specialize (HP p q).
  destruct (P p) as [a r| | |]; simpl; try done.
  - rewrite HP. simpl. apply HK.
  - by rewrite HP.
Qed.

Lemma stable_if {A} (b : bool) (P Q : Bytes → presult A) :
  stable P → stable Q → stable (λ p, if b then P p else Q p).
Proof. by destruct b. Qed.

Lemma reads_weaken {A} n m (P : Bytes → presult A) : reads n P → (m ≤ n)%nat → reads m P.
Proof. intros HP Hm p a r E. destruct (HP _ _ _ E) as (c & -> & ?). exists c. split; [done|lia]. Qed.

Lemma reads_ret {A} (a : A) : reads 0 (POk a).
Proof. intros p a' r [= -> ->]. by exists []. Qed.

Lemma reads_err {A} n e : reads n (λ _, PErr e : presult A).
Proof. done. Qed.

Lemma reads_bind {A B} n (P : Bytes → presult A) (K : A → Bytes → presult B) :
  reads n P → (∀ a, reads 0 (K a)) → reads n (λ p, pbind (P p) K).
Proof.
  intros HP HK p b r E. destruct (P p) as [a r'| | |] eqn:E1; try done. simpl in E.
  destruct (HP _ _ _ E1) as (c1 & -> & ?). destruct (HK _ _ _ _ E) as (c2 & -> & _).
  exists (c1 ++ c2). rewrite length_app. split; [by rewrite (assoc_L (++))|lia].
Qed.

Lemma reads_if {A} n (b : bool) (P Q : Bytes → presult A) :
  reads n P → reads n Q → reads n (λ p, if b then P p else Q p).
Proof. by destruct b. Qed.

#[export] Hint Resolve @stable_ret @stable_err @stable_bind @stable_if
  @reads_ret @reads_err @reads_bind @reads_if : kore.

Lemma read_line_stable : stable read_line.
Proof.
  intros p q. unfold read_line. destruct (find_crlf p) as [[l r]|] eqn:E; [|done].
  by rewrite (find_crlf_ext _ _ _ _ E).
Qed.

Lemma read_line_reads : reads 2 read_line.
Proof.
  intros p l r. unfold read_line. destruct (find_crlf p) as [[l' r']|] eqn:E; [|done].
  intros [= <- <-]. apply find_crlf_split in E as ->. exists (l' ++ crlf).
  rewrite length_app, <- (assoc_L (++)). split; [done|]. simpl. lia.
Qed.

Lemma read_i64_stable m1 m2 : stable (read_i64 m1 m2).
Proof.
  apply (stable_bind _ _ read_line_stable). intros line p q.
  destruct (from_utf8 line) as [s|]; [|done]. by destruct (parse_i64 s).
Qed.

Lemma read_i64_reads m1 m2 : reads 2 (read_i64 m1 m2).
Proof.
  apply (reads_bind _ _ _ read_line_reads). intros line p n r E.
  destruct (from_utf8 line) as [s|]; [|done]. destruct (parse_i64 s); simplify_eq.
  by exists [].
Qed.

Lemma expect_crlf_stable : stable expect_crlf.
Proof. intros [|cr [|lf p]] q; simpl; try done. by destruct (_ || _). Qed.

Lemma expect_crlf_reads : reads 2 expect_crlf.
Proof.
  intros [|cr [|lf p]] u r; simpl; try done. destruct (_ || _); [done|].
  intros [= <- <-]. by exists [cr; lf].
Qed.

Lemma parse_n_stable {A} (p : Bytes → presult A) fuel n acc :
  stable p → stable (λ cur, parse_n p fuel n cur acc).
Proof.
  intros Hp. revert n acc. induction fuel as [|fuel IH]; intros n acc; simpl.
  - apply stable_if; [apply stable_ret|done].
  - apply stable_if; [apply stable_ret|]. apply stable_bind; [done|]. intros a. apply IH.
Qed.

Lemma parse_n_reads {A} (p : Bytes → presult A) fuel n acc :
  reads 0 p → reads 0 (λ cur, parse_n p fuel n cur acc).
Proof.
  intros Hp. revert n acc. induction fuel as [|fuel IH]; intros n acc; simpl.
  - apply reads_if; [apply reads_ret|done].
  - apply reads_if; [apply reads_ret|]. apply reads_bind; [done|]. intros a. apply IH.
Qed.

(** The loop needs one unit of fuel more than there are bytes: each element
    reads at least one. *)
Lemma parse_n_fuel {A} (p : Bytes → presult A) fuel n cur acc :
  reads 1 p → (∀ c, (length c ≤ length cur)%nat → p c ≠ PFuel) →
  (length cur < fuel)%nat → parse_n p fuel n cur acc ≠ PFuel.
Proof.
  intros Hr. revert n cur acc. induction fuel as [|fuel IH]; intros n cur acc Hp Hf; [lia|].
  simpl. destruct (n <=? 0); [done|].
  destruct (p cur) as [a r| | |] eqn:E; simpl; try done.
  - destruct (Hr _ _ _ E) as (c & -> & Hc). rewrite length_app in *.
    apply IH; [|lia]. intros c' Hc'. apply Hp. lia.
  - intros _. by apply (Hp cur).
Qed.

Lemma parse_bulk_string_stable : stable parse_bulk_string.
Proof.
  apply (stable_bind _ _ (read_i64_stable _ _)). intros len.
  do 3 (apply stable_if; [done|]). intros p q.
  destruct (Z.ltb_spec (zlen p) (len + 2)) as [|Hl]; [done|].
  assert (Z.to_nat len ≤ length p)%nat by lia.
  rewrite take_app_le, drop_app_le by done.
  destruct (drop (Z.to_nat len) p) as [|cr [|lf r]] eqn:E; [done..|].
  simpl. destruct (_ || _); [done|].
  destruct (Z.ltb_spec (zlen (p ++ q)) (len + 2)) as [Hc|]; [|done].
  rewrite length_app in Hc. lia.
Qed.

Lemma parse_bulk_string_reads : reads 1 parse_bulk_string.
Proof.
  apply reads_weaken with 2%nat; [|lia].
  apply (reads_bind _ _ _ (read_i64_reads _ _)). intros len.
  apply reads_if; [apply reads_ret|]. do 2 (apply reads_if; [done|]). intros p v r. cbv zeta.
  destruct (_ <? _); [done|].
  destruct (drop (Z.to_nat len) p) as [|cr [|lf r']] eqn:E; [done..|].
  destruct (negb _ || negb _); [done|]. intros [= <- <-].
  exists (take (Z.to_nat len) p ++ [cr; lf]). split; [|lia].
  rewrite <- (take_drop (Z.to_nat len) p) at 1. rewrite E, <- (assoc_L (++)). done.
Qed.

Lemma parse_bool_stable : stable parse_bool.
Proof.
  intros [|b p] q; [done|]. apply (stable_bind expect_crlf _ expect_crlf_stable).
  intros []. by destruct b.
Qed.

Lemma parse_bool_reads : reads 1 parse_bool.
Proof.
  intros [|b p] v r; [done|]. intros E.
  assert (reads 0 (λ p, let* _u, cur := expect_crlf p in
    match b with x74 | x54 => POk (Bool true) cur | x66 | x46 => POk (Bool false) cur
    | _ => perr "invalid bool" end)) as Hr.
  { apply reads_bind; [eapply reads_weaken; [apply expect_crlf_reads|lia]|].
    intros []. destruct b; try apply reads_err; apply reads_ret. }
  destruct (Hr _ _ _ E) as (c & -> & _). exists (b :: c). split; [done|simpl; lia].
Qed.

Lemma parse_null_stable : stable parse_null.
Proof. apply stable_bind; [apply expect_crlf_stable|done]. Qed.

Lemma parse_null_reads : reads 2 parse_null.
Proof. apply reads_bind; [apply expect_crlf_reads|]. intros []. apply reads_ret. Qed.

Section parser_laws.
Context (value_size : Z).
Abbreviation parse_value := (parse_value value_size).

Lemma parse_pair_stable pv : stable pv → stable (parse_pair pv).
Proof. intros H. apply stable_bind; [done|]. intros k. by apply stable_bind. Qed.

Lemma parse_pair_reads pv : reads 1 pv → reads 1 (parse_pair pv).
Proof.
  intros H. apply reads_bind; [done|]. intros k.
  apply reads_bind; [by eapply reads_weaken; [apply H|lia]|]. intros v. apply reads_ret.
Qed.

Lemma parse_array_stable pv fuel : stable pv → stable (parse_array value_size pv fuel).
Proof.
  intros H. apply (stable_bind _ _ (read_i64_stable _ _)). intros len.
  do 4 (apply stable_if; [done|]). apply stable_bind; [by apply parse_n_stable|done].
Qed.

Lemma parse_map_stable pv fuel : stable pv → stable (parse_map value_size pv fuel).
Proof.
  intros H. apply (stable_bind _ _ (read_i64_stable _ _)). intros len.
  do 2 (apply stable_if; [done|]).
  apply stable_bind; [by apply parse_n_stable, parse_pair_stable|done].
Qed.

Lemma parse_push_stable pv fuel : stable pv → stable (parse_push value_size pv fuel).
Proof.
  intros H. apply (stable_bind _ _ (read_i64_stable _ _)). intros len.
  do 2 (apply stable_if; [done|]). apply stable_bind; [by apply parse_n_stable|done].
Qed.

Lemma aggregate_reads {A} (p : Bytes → presult A) fuel len (mk : list A → RespValue) :
  reads 1 p →
  reads 0 (λ cur, let* arr, cur := parse_n p fuel len cur [] in POk (mk arr) cur).
Proof.
  intros H. apply reads_bind; [|intros; apply reads_ret].
  apply parse_n_reads. eapply reads_weaken; [apply H|lia].
Qed.

Lemma parse_array_reads pv fuel : reads 1 pv → reads 1 (parse_array value_size pv fuel).
Proof.
  intros H. apply reads_weaken with 2%nat; [|lia].
  apply (reads_bind _ _ _ (read_i64_reads _ _)). intros len.
  apply reads_if; [apply reads_ret|]. do 3 (apply reads_if; [done|]).
  by apply aggregate_reads.
Qed.

Lemma parse_map_reads pv fuel : reads 1 pv → reads 1 (parse_map value_size pv fuel).
Proof.
  intros H. apply reads_weaken with 2%nat; [|lia].
  apply (reads_bind _ _ _ (read_i64_reads _ _)). intros len.
  do 2 (apply reads_if; [done|]). by apply aggregate_reads, parse_pair_reads.
Qed.

Lemma parse_push_reads pv fuel : reads 1 pv → reads 1 (parse_push value_size pv fuel).
Proof.
  intros H. apply reads_weaken with 2%nat; [|lia].
  apply (reads_bind _ _ _ (read_i64_reads _ _)). intros len.
  do 2 (apply reads_if; [done|]). by apply aggregate_reads.
Qed.

Lemma parse_typed_cases (Q : (Bytes → presult RespValue) → Prop) pv fuel b :
  Q parse_simple_string → Q parse_error → Q parse_integer → Q parse_bulk_string →
  Q (parse_array value_size pv fuel) → Q (parse_map value_size pv fuel) → Q parse_bool →
  Q parse_null → Q (parse_push value_size pv fuel) →
  Q (λ _, PErr (invalid_type b)) → Q (parse_typed value_size pv fuel b).
Proof. intros. destruct b; assumption. Qed.

Lemma parse_value_stable fuel : stable (parse_value fuel).
Proof.
  induction fuel as [|fuel IH]; [done|]. intros [|b p] q; [done|]. simpl. revert p q.
  apply (parse_typed_cases stable);
    auto using parse_bulk_string_stable, parse_array_stable, parse_map_stable,
      parse_bool_stable, parse_null_stable, parse_push_stable, stable_err.
  - apply stable_bind; [apply read_line_stable|done].
  - apply stable_bind; [apply read_line_stable|done].
  - apply stable_bind; [apply read_i64_stable|done].
Qed.

Lemma parse_value_reads fuel : reads 1 (parse_value fuel).
Proof.
  induction fuel as [|fuel IH]; [done|]. intros [|b p] v r; [done|]. simpl. intros E.
  assert (reads 1 (parse_typed value_size (parse_value fuel) fuel b)) as Hr.
  { apply (parse_typed_cases (reads 1));
      auto using parse_bulk_string_reads, parse_array_reads, parse_map_reads,
        parse_bool_reads, parse_push_reads, reads_err.
    all: apply reads_weaken with 2%nat; [|lia].
    - apply reads_bind; [apply read_line_reads|]. intros. apply reads_ret.
    - apply reads_bind; [apply read_line_reads|]. intros. apply reads_ret.
    - apply reads_bind; [apply read_i64_reads|]. intros. apply reads_ret.
    - apply parse_null_reads. }
  destruct (Hr _ _ _ E) as (c & -> & ?). exists (b :: c). split; [done|simpl; lia].
Qed.

(** [fueled n P]: on at most [n] bytes, [P] does not run out of fuel. *)
Definition fueled {A} (n : nat) (P : Bytes → presult A) : Prop :=
  ∀ p, (length p ≤ n)%nat → P p ≠ PFuel.

Lemma fueled_bind {A B} n (P : Bytes → presult A) (K : A → Bytes → presult B) :
  reads 0 P → fueled n P → (∀ a, fueled n (K a)) → fueled n (λ p, pbind (P p) K).
Proof.
  intros Hr HP HK p Hp. destruct (P p) as [a r| | |] eqn:E; simpl; try done.
  - destruct (Hr _ _ _ E) as (c & -> & _). rewrite length_app in Hp. apply HK. lia.
  - intros _. by apply (HP p).
Qed.

Lemma fueled_if {A} n (b : bool) (P Q : Bytes → presult A) :
  fueled n P → fueled n Q → fueled n (λ p, if b then P p else Q p).
Proof. by destruct b. Qed.

Lemma read_line_fueled n : fueled n read_line.
Proof. intros p _. unfold read_line. by destruct (find_crlf p) as [[]|]. Qed.

Lemma read_i64_fueled n m1 m2 : fueled n (read_i64 m1 m2).
Proof.
  apply fueled_bind.
  - eapply reads_weaken; [apply read_line_reads|lia].
  - apply read_line_fueled.
  - intros line p _. destruct (from_utf8 line); [|done]. by destruct (parse_i64 _).
Qed.

Lemma expect_crlf_fueled n : fueled n expect_crlf.
Proof. intros [|cr [|lf p]] _; simpl; try done. by destruct (_ || _). Qed.

Lemma aggregate_fueled {A} (p : Bytes → presult A) n fuel len (mk : list A → RespValue) :
  (n < fuel)%nat → reads 1 p → fueled n p →
  fueled n (λ cur, let* arr, cur := parse_n p fuel len cur [] in POk (mk arr) cur).
Proof.
  intros Hn Hr Hf cur Hc. pose proof (parse_n_fuel p fuel len cur [] Hr) as H.
  destruct (parse_n p fuel len cur []); simpl; try done.
  intros _. apply H; [|lia|done]. intros c ?. apply Hf. lia.
Qed.

Lemma parse_pair_fueled n pv : reads 1 pv → fueled n pv → fueled n (parse_pair pv).
Proof.
  intros Hr Hf. assert (reads 0 pv) by (eapply reads_weaken; [done|lia]).
  apply fueled_bind; [done..|]. intros k. by apply fueled_bind.
Qed.

Lemma parse_value_fueled n : fueled n (parse_value (S n)).
Proof.
  induction n as [|n IH]; intros [|b p] Hp; simpl in Hp; try done; [lia|].
  assert (fueled n (parse_typed value_size (parse_value (S n)) (S n) b)) as H;
    [|apply H; lia].
  assert (∀ m1 m2, reads 0 (read_i64 m1 m2)) as Hr.
  { intros. eapply reads_weaken; [apply read_i64_reads|lia]. }
  assert (reads 0 read_line) as Hl.
  { eapply reads_weaken; [apply read_line_reads|lia]. }
  pose proof (parse_value_reads (S n)) as Hv.
  apply (parse_typed_cases (fueled n)).
  - apply fueled_bind; [done|apply read_line_fueled|done].
  - apply fueled_bind; [done|apply read_line_fueled|done].
  - apply fueled_bind; [apply Hr|apply read_i64_fueled|done].
  - apply fueled_bind; [apply Hr|apply read_i64_fueled|]. intros len p' _. cbv zeta.
    repeat (case_match; try done).
  - apply fueled_bind; [apply Hr|apply read_i64_fueled|]. intros len.
    do 4 (apply fueled_if; [done|]). by apply aggregate_fueled; [lia|..].
  - apply fueled_bind; [apply Hr|apply read_i64_fueled|]. intros len.
    do 2 (apply fueled_if; [done|]).
    apply aggregate_fueled; [lia| |]; auto using parse_pair_reads, parse_pair_fueled.
  - intros [|b' p'] Hp'; [done|]. unfold parse_bool.
    pose proof (expect_crlf_fueled n p' ltac:(simpl in Hp'; lia)).
    destruct (expect_crlf p'); simpl; try done. by destruct b'.
  - apply fueled_bind; [|apply expect_crlf_fueled|done].
    eapply reads_weaken; [apply expect_crlf_reads|lia].
  - apply fueled_bind; [apply Hr|apply read_i64_fueled|]. intros len.
    do 2 (apply fueled_if; [done|]). by apply aggregate_fueled; [lia|..].
  - done.
Qed.

Lemma parse_value_fuel_enough fuel cur :
  (length cur < fuel)%nat → parse_value fuel cur ≠ PFuel.
Proof. destruct fuel as [|n]; [lia|]. intros H. apply parse_value_fueled. lia. Qed.

(** All errors of the parser are [ParseError]s. *)
Definition only_parse_errors {A} (P : Bytes → presult A) : Prop :=
  ∀ p e, P p = PErr e → ∃ m, e = ParseError m.

Lemma ope_bind {A B} (P : Bytes → presult A) (K : A → Bytes → presult B) :
  only_parse_errors P → (∀ a, only_parse_errors (K a)) →
  only_parse_errors (λ p, pbind (P p) K).
Proof.
  intros HP HK p e E. destruct (P p) as [a r|e'| |] eqn:E1; simpl in E; simplify_eq.
  - by apply (HK a r).
  - by apply (HP p).
Qed.

Lemma ope_if {A} (b : bool) (P Q : Bytes → presult A) :
  only_parse_errors P → only_parse_errors Q →
  only_parse_errors (λ p, if b then P p else Q p).
Proof. by destruct b. Qed.

Lemma ope_ret {A} (a : A) : only_parse_errors (POk a).
Proof. done. Qed.

Lemma ope_panic {A} : only_parse_errors (λ _, PPanic : presult A).
Proof. done. Qed.

Lemma ope_err {A} m : only_parse_errors (λ _, perr m : presult A).
Proof. intros p e [= <-]. eauto. Qed.

Lemma read_line_ope : only_parse_errors read_line.
Proof.
  intros p e. unfold read_line. destruct (find_crlf p) as [[]|]; [done|].
  intros [= <-]. eauto.
Qed.

Lemma read_i64_ope m1 m2 : only_parse_errors (read_i64 m1 m2).
Proof.
  apply ope_bind; [apply read_line_ope|]. intros line p e.
  destruct (from_utf8 line); [destruct (parse_i64 _); [done|]|]; intros [= <-]; eauto.
Qed.

Lemma expect_crlf_ope : only_parse_errors expect_crlf.
Proof.
  intros [|cr [|lf p]] e; simpl; [intros [= <-]; eauto..|].
  destruct (_ || _); [intros [= <-]; eauto|done].
Qed.

Lemma parse_n_ope {A} (p : Bytes → presult A) fuel n acc :
  only_parse_errors p → only_parse_errors (λ cur, parse_n p fuel n cur acc).
Proof.
  intros Hp. revert n acc. induction fuel as [|fuel IH]; intros n acc; simpl.
  - by apply ope_if.
  - apply ope_if; [done|]. apply ope_bind; [done|]. intros a. apply IH.
Qed.

Lemma parse_value_ope fuel : only_parse_errors (parse_value fuel).
Proof.
  induction fuel as [|fuel IH]; [done|]. intros [|b p] e.
  { intros [= <-]. eauto. }
  simpl. revert p e. apply (parse_typed_cases only_parse_errors).
  - apply ope_bind; [apply read_line_ope|done].
  - apply ope_bind; [apply read_line_ope|done].
  - apply ope_bind; [apply read_i64_ope|done].
  - apply ope_bind; [apply read_i64_ope|]. intros len.
    apply ope_if; [done|]. do 2 (apply ope_if; [apply ope_err|]). intros p e. cbv zeta.
    repeat (case_match; try done); intros [= <-]; eauto.
  - apply ope_bind; [apply read_i64_ope|]. intros len.
    apply ope_if; [done|]. do 2 (apply ope_if; [apply ope_err|]).
    apply ope_if; [done|]. apply ope_bind; [by apply parse_n_ope|done].
  - apply ope_bind; [apply read_i64_ope|]. intros len.
    apply ope_if; [apply ope_err|]. apply ope_if; [done|].
    apply ope_bind; [|done]. apply parse_n_ope. apply ope_bind; [done|].
    intros k. by apply ope_bind.
  - intros [|b' p] e; [intros [= <-]; eauto|]. revert p e.
    apply (ope_bind expect_crlf); [apply expect_crlf_ope|]. intros [] p e.
    destruct b'; intros [= <-]; eauto.
  - apply ope_bind; [apply expect_crlf_ope|done].
  - apply ope_bind; [apply read_i64_ope|]. intros len.
    apply ope_if; [apply ope_err|]. apply ope_if; [done|].
    apply ope_bind; [by apply parse_n_ope|done].
  - intros p e [= <-]. eauto.
Qed.

(** More fuel does not change a result. *)
Definition agrees {A} (P P' : Bytes → presult A) : Prop :=
  ∀ p, P p ≠ PFuel → P' p = P p.

Lemma agrees_bind {A B} (P P' : Bytes → presult A) (K K' : A → Bytes → presult B) :
  agrees P P' → (∀ a, agrees (K a) (K' a)) →
  agrees (λ p, pbind (P p) K) (λ p, pbind (P' p) K').
Proof.
  intros HP HK p. destruct (P p) as [a r|e| |] eqn:E; simpl; try done;
    rewrite (HP p) by congruence; rewrite E; [|done..]. simpl. apply HK.
Qed.

Lemma agrees_refl {A} (P : Bytes → presult A) : agrees P P.
Proof. done. Qed.

Lemma agrees_if {A} (b : bool) (P P' Q Q' : Bytes → presult A) :
  agrees P P' → agrees Q Q' →
  agrees (λ p, if b then P p else Q p) (λ p, if b then P' p else Q' p).
Proof. by destruct b. Qed.

Lemma parse_n_agrees {A} (p p' : Bytes → presult A) fuel fuel' n acc :
  agrees p p' → (fuel ≤ fuel')%nat →
  agrees (λ c, parse_n p fuel n c acc) (λ c, parse_n p' fuel' n c acc).
Proof.
  intros Hp. revert fuel' n acc.
  induction fuel as [|fuel IH]; intros [|fuel'] n acc Hf c; simpl; try lia.
  - done.
  - by destruct (n <=? 0).
  - destruct (n <=? 0); [done|]. revert c. apply agrees_bind; [done|].
    intros a. apply IH. lia.
Qed.

Lemma aggregate_agrees {A} (p p' : Bytes → presult A) fuel fuel' n (mk : list A → RespValue) :
  agrees p p' → (fuel ≤ fuel')%nat →
  agrees (λ c, let* arr, c := parse_n p fuel n c [] in POk (mk arr) c)
         (λ c, let* arr, c := parse_n p' fuel' n c [] in POk (mk arr) c).
Proof. intros. by apply agrees_bind; [apply parse_n_agrees|]. Qed.

Lemma parse_value_agrees fuel fuel' :
  (fuel ≤ fuel')%nat → agrees (parse_value fuel) (parse_value fuel').
Proof.
  revert fuel'. induction fuel as [|fuel IH]; intros fuel' Hf; [by intros p []|].
  destruct fuel' as [|fuel']; [lia|]. intros [|b p]; [done|]. simpl. revert p.
  assert (fuel ≤ fuel')%nat as Hle by lia. specialize (IH fuel' Hle).
  assert (agrees (parse_array value_size (parse_value fuel) fuel)
                 (parse_array value_size (parse_value fuel') fuel')).
  { apply agrees_bind; [done|]. intros len. do 4 (apply agrees_if; [done|]).
    by apply aggregate_agrees. }
  assert (agrees (parse_map value_size (parse_value fuel) fuel)
                 (parse_map value_size (parse_value fuel') fuel')).
  { apply agrees_bind; [done|]. intros len. do 2 (apply agrees_if; [done|]).
    apply aggregate_agrees; [|done]. apply agrees_bind; [done|]. intros k.
    by apply agrees_bind. }
  assert (agrees (parse_push value_size (parse_value fuel) fuel)
                 (parse_push value_size (parse_value fuel') fuel')).
  { apply agrees_bind; [done|]. intros len. do 2 (apply agrees_if; [done|]).
    by apply aggregate_agrees. }
  destruct b; assumption || apply agrees_refl.
Qed.
End parser_laws.

(** ** Round trip *)

Section roundtrip.
Context (value_size : Z).
Abbreviation parse_value := (parse_value value_size).

(** The values the wire format can carry: strings on one line hold no CRLF,
    lengths are within the parser's limits, and [Multiple] (several frames
    written one after the other) is not itself a frame. *)
Fixpoint encodable (v : RespValue) : bool :=
  match v with
  | SimpleString s | Error s => bool_decide (find_crlf s = None)
  | Integer i => in_i64_b i
  | BulkString None => true
  | BulkString (Some s) => zlen s <=? max_bulk_len
  | Array arr =>
      (zlen arr <=? max_array_len) && with_capacity_ok value_size (zlen arr)
      && forallb encodable arr
  | NullArray => true
  | Multiple _ => false
  | Map pairs =>
      with_capacity_ok (2 * value_size) (zlen pairs)
      && forallb (λ kv, encodable kv.1 && encodable kv.2) pairs
  | Bool _ => true
  | Null => true
  | Push arr => with_capacity_ok value_size (zlen arr) && forallb encodable arr
  end.

Context (Hsize : 1 ≤ value_size).

Lemma with_capacity_i64 c n : 1 ≤ c → 0 ≤ n → with_capacity_ok c n = true → in_i64 n.
Proof.
  unfold with_capacity_ok. rewrite Z.leb_le. intros Hc Hn H.
  assert (n * 1 ≤ n * c) by (apply Z.mul_le_mono_nonneg_l; lia).
  unfold i64_min, i64_max in *. lia.
Qed.

Lemma read_i64_dec m1 m2 z rest :
  in_i64 z → read_i64 m1 m2 (dec z ++ crlf ++ rest) = POk z rest.
Proof.
  intros Hz. unfold read_i64, read_line.
  rewrite find_crlf_app by (apply find_crlf_no_cr, dec_no_cr). simpl.
  by rewrite dec_utf8, parse_to_string_i64.
Qed.

Lemma parse_n_enc {A} (p : Bytes → presult A) (e : A → Bytes) l :
  Forall (λ a, ∀ rest, p (e a ++ rest) = POk a rest) l →
  ∀ fuel acc rest, (length l ≤ fuel)%nat →
  parse_n p fuel (zlen l) (concat (e <$> l) ++ rest) acc = POk (acc ++ l) rest.
Proof.
  induction 1 as [|a l Ha _ IH]; intros fuel acc rest Hf.
  { destruct fuel; simpl; by rewrite (right_id_L [] (++)). }
  simpl in Hf. destruct fuel as [|fuel]; [lia|].
  cbn [parse_n]. destruct (Z.leb_spec (zlen (a :: l)) 0); [simpl in *; lia|].
  csimpl. rewrite <- (assoc_L (++)), Ha. simpl.
  replace (Z.of_nat (S (length l)) - 1) with (zlen l) by lia.
  rewrite IH by lia. by rewrite <- (assoc_L (++)).
Qed.

Lemma enc_nonempty v : encodable v = true → enc v ≠ [].
Proof.
  destruct v as [| | |[|]| | | | |[]| |]; try done.
  - by rewrite enc_array.
  - by rewrite enc_map.
  - by rewrite enc_push.
Qed.

Lemma length_concat_enc {A} (e : A → Bytes) l :
  Forall (λ a, e a ≠ []) l → (length l ≤ length (concat (e <$> l)))%nat.
Proof.
  induction 1 as [|a l Ha _ IH]; csimpl; [lia|].
  rewrite length_app. destruct (e a); [done|]. simpl. lia.
Qed.

Lemma length_concat_elem {A} (e : A → Bytes) l a :
  a ∈ l → (length (e a) ≤ length (concat (e <$> l)))%nat.
Proof.
  induction 1 as [|a b l _ IH]; csimpl; rewrite length_app; lia.
Qed.

(** The elements of an aggregate, from the induction hypotheses. *)
Lemma parse_elems_enc l fuel rest :
  Forall (λ v, encodable v = true → ∀ fuel rest, (length (enc v) < fuel)%nat →
    parse_value fuel (enc v ++ rest) = POk v rest) l →
  forallb encodable l = true → (length (concat (enc <$> l)) < fuel)%nat →
  parse_n (parse_value fuel) fuel (zlen l) (concat (enc <$> l) ++ rest) [] = POk l rest.
Proof.
  intros IH He Hf. pose proof (forallb_elem _ _ He) as He'. rewrite Forall_forall in IH.
  apply (parse_n_enc (parse_value fuel) enc).
  - apply Forall_forall. intros v Hv r. apply IH; auto.
    pose proof (length_concat_elem enc l v Hv). lia.
  - assert (length l ≤ length (concat (enc <$> l)))%nat; [|lia].
    apply length_concat_enc, Forall_forall. intros v Hv. by apply enc_nonempty, He'.
Qed.

Lemma parse_pairs_enc l fuel rest :
  Forall (λ kv, (encodable kv.1 = true → ∀ fuel rest, (length (enc kv.1) < fuel)%nat →
      parse_value fuel (enc kv.1 ++ rest) = POk kv.1 rest) ∧
    (encodable kv.2 = true → ∀ fuel rest, (length (enc kv.2) < fuel)%nat →
      parse_value fuel (enc kv.2 ++ rest) = POk kv.2 rest)) l →
  forallb (λ kv, encodable kv.1 && encodable kv.2) l = true →
  (length (concat (enc_pair <$> l)) < fuel)%nat →
  parse_n (parse_pair (parse_value fuel)) fuel (zlen l) (concat (enc_pair <$> l) ++ rest) []
  = POk l rest.
Proof.
  intros IH He Hf. pose proof (forallb_elem _ _ He) as He'.
  setoid_rewrite andb_true_iff in He'. rewrite Forall_forall in IH.
  apply (parse_n_enc (parse_pair (parse_value fuel)) enc_pair).
  - apply Forall_forall. intros [k v] Hkv r. destruct (He' _ Hkv), (IH _ Hkv) as [IHk IHv].
    pose proof (length_concat_elem enc_pair l _ Hkv) as Hl.
    unfold enc_pair at 1 in Hl. rewrite length_app in Hl. cbn [fst snd] in *.
    unfold parse_pair, enc_pair. simpl. rewrite <- (assoc_L (++)), IHk by (done || lia).
    simpl. by rewrite IHv by (done || lia).
  - assert (length l ≤ length (concat (enc_pair <$> l)))%nat; [|lia].
    apply length_concat_enc, Forall_forall. intros kv Hkv. destruct (He' _ Hkv) as [Hk _].
    unfold enc_pair. apply enc_nonempty in Hk. by destruct (enc kv.1).
Qed.

(** Induction hypothesis of the round trip, for one value. *)
Definition parses (v : RespValue) : Prop := encodable v = true → ∀ fuel rest,
  (length (enc v) < fuel)%nat → parse_value fuel (enc v ++ rest) = POk v rest.

Lemma parse_bulk_enc s rest :
  zlen s ≤ max_bulk_len →
  parse_bulk_string (dec (zlen s) ++ crlf ++ s ++ crlf ++ rest)
  = POk (BulkString (Some s)) rest.
Proof.
  intros Hs. unfold parse_bulk_string.
  rewrite read_i64_dec by (unfold i64_min, i64_max; unfold max_bulk_len in Hs; lia).
  cbn [pbind]. rewrite Nat2Z.id, take_app_length, drop_app_length.
  replace (zlen s =? -1) with false by lia. replace (zlen s <? 0) with false by lia.
  replace (max_bulk_len <? zlen s) with false by lia.
  rewrite !length_app. simpl. case_match; [lia|done].
Qed.

Lemma parse_array_enc arr fuel rest :
  Forall parses arr → encodable (Array arr) = true →
  (length (concat (enc <$> arr)) < fuel)%nat →
  parse_array value_size (parse_value fuel) fuel
    (dec (zlen arr) ++ crlf ++ concat (enc <$> arr) ++ rest) = POk (Array arr) rest.
Proof.
  intros IH He Hf. simpl in He. bool_to_prop. unfold parse_array.
  rewrite read_i64_dec by (eapply with_capacity_i64; eauto; lia). cbn [pbind].
  replace (zlen arr =? -1) with false by lia. replace (zlen arr <? 0) with false by lia.
  replace (max_array_len <? zlen arr) with false by lia.
  replace (with_capacity_ok value_size (zlen arr)) with true by done. cbn [negb].
  rewrite parse_elems_enc by (done || lia). done.
Qed.

Lemma parse_push_enc arr fuel rest :
  Forall parses arr → encodable (Push arr) = true →
  (length (concat (enc <$> arr)) < fuel)%nat →
  parse_push value_size (parse_value fuel) fuel
    (dec (zlen arr) ++ crlf ++ concat (enc <$> arr) ++ rest) = POk (Push arr) rest.
Proof.
  intros IH He Hf. simpl in He. bool_to_prop. unfold parse_push.
  rewrite read_i64_dec by (eapply with_capacity_i64; eauto; lia). cbn [pbind].
  replace (zlen arr <? 0) with false by lia.
  replace (with_capacity_ok value_size (zlen arr)) with true by done. cbn [negb].
  rewrite parse_elems_enc by (done || lia). done.
Qed.

Lemma parse_map_enc ps fuel rest :
  Forall (λ kv, parses kv.1 ∧ parses kv.2) ps → encodable (Map ps) = true →
  (length (concat (enc_pair <$> ps)) < fuel)%nat →
  parse_map value_size (parse_value fuel) fuel
    (dec (zlen ps) ++ crlf ++ concat (enc_pair <$> ps) ++ rest) = POk (Map ps) rest.
Proof.
  intros IH He Hf. cbn [encodable] in He. bool_to_prop. unfold parse_map.
  rewrite read_i64_dec by (eapply (with_capacity_i64 (2 * value_size)); eauto; lia).
  cbn [pbind]. replace (zlen ps <? 0) with false by lia.
  replace (with_capacity_ok (2 * value_size) (zlen ps)) with true by done. cbn [negb].
  rewrite parse_pairs_enc by (done || lia). done.
Qed.

Lemma parse_line_enc s rest :
  find_crlf s = None → read_line (s ++ crlf ++ rest) = POk s rest.
Proof. intros Hs. unfold read_line. by rewrite find_crlf_app. Qed.

Lemma parse_value_enc v : parses v.
Proof.
  induction v using resp_value_ind; intros He [|fuel] rest Hf; try lia.
  - cbn. rewrite <- (assoc_L (++)). unfold parse_simple_string.
    rewrite parse_line_enc by by apply bool_decide_eq_true in He. done.
  - cbn. rewrite <- (assoc_L (++)). unfold parse_error.
    rewrite parse_line_enc by by apply bool_decide_eq_true in He. done.
  - apply in_i64_b_spec in He. unfold enc. cbn. unfold parse_integer.
    rewrite <- (assoc_L (++)), read_i64_dec by done. done.
  - destruct s as [s|]; [|done]. simpl in He. bool_to_prop.
    unfold enc. cbn [write_to app Resp.parse_value parse_typed].
    rewrite <- !(assoc_L (++)). by apply parse_bulk_enc.
  - rewrite enc_array in *. rewrite !length_app in Hf. simpl in Hf.
    cbn [app Resp.parse_value parse_typed]. rewrite <- !(assoc_L (++)).
    apply parse_array_enc; done || lia.
  - done.
  - done.
  - rewrite enc_map in *. rewrite !length_app in Hf. simpl in Hf.
    cbn [app Resp.parse_value parse_typed]. rewrite <- !(assoc_L (++)).
    apply parse_map_enc; done || lia.
  - by destruct b.
  - done.
  - rewrite enc_push in *. rewrite !length_app in Hf. simpl in Hf.
    cbn [app Resp.parse_value parse_typed]. rewrite <- !(assoc_L (++)).
    apply parse_push_enc; done || lia.
Qed.

Lemma parse_frame v rest :
  encodable v = true →
  parse_with_consumed value_size {| buffer := enc v ++ rest |}
  = (Ret (Ok (Some (v, length (enc v)))), {| buffer := rest |}).
Proof.
  intros He. unfold parse_with_consumed. cbn [buffer].
  pose proof (enc_nonempty v He).
  destruct (enc v ++ rest) as [|b l] eqn:E; [by destruct (enc v)|]. rewrite <- E.
  rewrite parse_value_enc by (done || rewrite length_app; lia).
  rewrite length_app, Nat.add_sub, drop_app_length. done.
Qed.

Lemma parse_prefix v p q :
  encodable v = true → enc v = p ++ q → q ≠ [] →
  parse_with_consumed value_size {| buffer := p |} = (Ret (Ok None), {| buffer := p |}).
Proof.
  intros He E Hq. unfold parse_with_consumed. cbn [buffer].
  destruct p as [|b p']; [done|]. set (p := b :: p') in *.
  pose proof (parse_value_stable value_size (S (length p)) p q) as Hs.
  pose proof (parse_value_fuel_enough value_size (S (length p)) p ltac:(lia)) as Hf.
  pose proof (parse_value_ope value_size (S (length p)) p) as He'.
  pose proof (parse_value_agrees value_size (S (length p)) (S (length (p ++ q)))
    ltac:(rewrite length_app; lia) (p ++ q)) as Ha.
  assert (parse_value (S (length (p ++ q))) (p ++ q) = POk v []) as Hv.
  { rewrite <- E. rewrite <- (right_id_L [] (++) (enc v)) at 2.
    apply parse_value_enc; [done|lia]. }
  destruct (parse_value (S (length p)) p) as [w r|e| |] eqn:Ep; [|..|done].
  - rewrite Hs, Hv in Ha. specialize (Ha ltac:(done)). simplify_eq.
    by destruct r, q.
  - destruct (He' e eq_refl) as [m ->]. done.
  - rewrite Hs, Hv in Ha. specialize (Ha ltac:(done)). done.
Qed.

(** *** Draining a buffer, and reading a connection chunk by chunk *)

Definition frames (vs : list RespValue) : Bytes := concat (enc <$> vs).

(** What may be left unread: nothing, or the beginning of a frame. *)
Definition incomplete (p : Bytes) : Prop :=
  p = [] ∨ ∃ v q, encodable v = true ∧ enc v = p ++ q ∧ q ≠ [].

Lemma parse_incomplete p :
  incomplete p → parse value_size {| buffer := p |} = (Ret (Ok None), {| buffer := p |}).
Proof.
  intros [->|(v & q & Hv & E & Hq)]; [done|].
  unfold parse. by rewrite (parse_prefix v p q).
Qed.

Lemma drain_frames vs p fuel :
  forallb encodable vs = true → incomplete p → (length vs < fuel)%nat →
  drain value_size fuel {| buffer := frames vs ++ p |} = (Ret (Ok vs), {| buffer := p |}).
Proof.
  intros Hvs Hp. revert fuel. induction vs as [|v vs IH]; intros [|fuel] Hf; try (simpl in Hf; lia).
  - cbn [drain frames fmap list_fmap concat app]. by rewrite parse_incomplete.
  - simpl in Hvs, Hf. bool_to_prop.
    assert (frames (v :: vs) ++ p = enc v ++ frames vs ++ p) as ->.
    { unfold frames. csimpl. by rewrite <- (assoc_L (++)). }
    cbn [drain]. unfold parse. rewrite parse_frame by done. simpl.
    rewrite IH by (done || lia). done.
Qed.

(** A prefix of a sequence of frames is some whole frames and the beginning
    of the next one. *)
Lemma frames_prefix ws b rest :
  forallb encodable ws = true → b ++ rest = frames ws →
  ∃ us vs p, ws = us ++ vs ∧ b = frames us ++ p ∧ p ++ rest = frames vs ∧ incomplete p.
Proof.
  revert b. induction ws as [|w ws IH]; intros b Hws E.
  { exists [], [], []. apply app_nil in E as [-> ->].
    split_and!; [done..|by left]. }
  simpl in Hws. bool_to_prop. unfold frames in E. csimpl in E.
  destruct (decide (length (enc w) ≤ length b)%nat) as [Hl|Hl].
  - apply app_eq_inv in E as [(k & -> & E)|(k & Hk & E)].
    2:{ exists [w], ws, []. rewrite Hk, length_app in Hl. destruct k; [|simpl in Hl; lia].
        rewrite (right_id_L [] (++)) in Hk. subst. unfold frames; csimpl.
        rewrite !(right_id_L [] (++)). split_and!; [done..|by left]. }
    destruct (IH k) as (us & vs & p & -> & -> & Hr & Hi); [done..|].
    exists (w :: us), vs, p. unfold frames; csimpl. rewrite <- (assoc_L (++)). done.
  - exists [], (w :: ws), b. unfold frames; csimpl. split_and!; [done..|].
    right. apply app_eq_inv in E as [(k & -> & _)|(k & Hk & _)].
    { rewrite length_app in Hl. lia. }
    exists w, k. split_and!; [done..|]. intros ->. rewrite Hk, length_app in Hl.
    simpl in Hl. lia.
Qed.

Lemma conn_loop_prefix chunks p ws :
  incomplete p → forallb encodable ws = true → p ++ concat chunks = frames ws →
  conn_loop value_size chunks {| buffer := p |} = (Ret (Ok ws), {| buffer := [] |}).
Proof.
  revert p ws. induction chunks as [|c chunks IH]; intros p ws Hp Hws E.
  - simpl in E. rewrite (right_id_L [] (++)) in E. subst p.
    assert (ws = []) as ->; [|done].
    destruct ws as [|w ws]; [done|]. exfalso. simpl in Hws. bool_to_prop.
    pose proof (parse_frame w (frames ws)) as Hf. apply parse_incomplete in Hp. unfold parse in Hp.
    assert (frames (w :: ws) = enc w ++ frames ws) as Hw by done.
    rewrite Hw, Hf in Hp by done. done.
  - simpl in E. rewrite (assoc_L (++)) in E.
    destruct (frames_prefix ws (p ++ c) (concat chunks)) as (us & vs & p' & -> & Hb & Hr & Hi);
      [done..|].
    rewrite forallb_app in Hws. bool_to_prop. cbn [conn_loop]. unfold feed. cbn [buffer].
    rewrite Hb. rewrite drain_frames; [|done|done|].
    + by rewrite (IH p' vs).
    + rewrite length_app. enough (length us ≤ length (frames us))%nat by lia.
      apply length_concat_enc, Forall_forall. intros v Hv. apply enc_nonempty.
      by apply (forallb_elem encodable us).
Qed.
End roundtrip.

(** ** Properties *)



(** Round trip: serializing an encodable value and parsing the bytes back,
    with anything after them in the buffer, gives the value, reports exactly
    the length of its wire form as consumed, and leaves the rest. *)
Theorem resp_roundtrip (value_size : Z) (v : RespValue) (rest : Bytes) :
  1 ≤ value_size → encodable value_size v = true →
  parse_with_consumed value_size {| buffer := serialize v ++ rest |}
  = (Ret (Ok (Some (v, length (serialize v)))), {| buffer := rest |}).
Proof. intros Hsize He. rewrite !serialize_enc. by apply parse_frame. Qed.

(** Every call of the parser on any buffer: it never returns [Err]; with no
    complete value it leaves the buffer alone; with a value it consumes between
    one byte and the whole buffer, and bytes that arrive later change neither
    the value nor the count, they stay unread behind it. *)
Theorem parse_incremental (value_size : Z) (p : RespParser) :
  match parse_with_consumed value_size p with
  | (Ret (Ok None), p') => p' = p
  | (Ret (Ok (Some (v, n))), p') =>
      (1 ≤ n ≤ length (buffer p))%nat ∧ buffer p' = drop n (buffer p) ∧
      ∀ more, parse_with_consumed value_size (feed p more)
              = (Ret (Ok (Some (v, n))), feed p' more)
  | (Ret (Err _), _) => False
  | (Panic, p') => p' = p ∧ ∀ more, (parse_with_consumed value_size (feed p more)).1 = Panic
  end.
Proof.
  destruct p as [[|b buf]]; [done|]. unfold parse_with_consumed. cbn [buffer].
  set (p := b :: buf). pose proof (parse_value_stable value_size (S (length p)) p) as Hs.
  pose proof (parse_value_fuel_enough value_size (S (length p)) p ltac:(lia)) as Hf.
  assert (∀ more, agrees (parse_value value_size (S (length p)))
    (parse_value value_size (S (length (p ++ more))))) as Ha.
  { intros. apply parse_value_agrees. rewrite length_app. lia. }
  destruct (parse_value value_size (S (length p)) p) as [v r|e| |] eqn:E.
  - destruct (parse_value_reads _ _ _ _ _ E) as (c & Hc & Hlen). rewrite Hc.
    rewrite length_app, Nat.add_sub, drop_app_length. split; [lia|]. split; [done|].
    intros more. unfold feed. cbn [buffer]. rewrite <- Hc. cbn [p app].
    change (b :: buf ++ more) with (p ++ more).
    rewrite (Ha more (p ++ more)) by by rewrite Hs. rewrite Hs.
    assert (length (p ++ more) - length (r ++ more) = length c)%nat as ->
      by (rewrite Hc, !length_app; lia).
    rewrite Hc, <- (assoc_L (++)), drop_app_length. done.
  - destruct (parse_value_ope _ _ _ _ E) as [m ->]. done.
  - split; [done|]. intros more. unfold feed. cbn [buffer p app].
    change (b :: buf ++ more) with (p ++ more).
    rewrite (Ha more (p ++ more)) by by rewrite Hs. by rewrite Hs.
  - done.
Qed.

(** An incomplete frame is kept, not lost: on a proper prefix of the wire
    form of an encodable value the parser asks for more data and leaves the
    buffer as it was. *)
Theorem resp_prefix_waits (value_size : Z) (v : RespValue) (p q : Bytes) :
  1 ≤ value_size → encodable value_size v = true → serialize v = p ++ q → q ≠ [] →
  parse_with_consumed value_size {| buffer := p |} = (Ret (Ok None), {| buffer := p |}).
Proof. intros Hsize He E Hq. rewrite serialize_enc in E. by apply (parse_prefix _ Hsize v p q). Qed.

(** A frame with an unknown type byte is never rejected: the parser
    answers "need more data" whatever arrives afterwards, so the buffer is
    never advanced again. *)
Theorem invalid_type_stalls (value_size : Z) (b : byte) (rest : Bytes) :
  b ∉ bs "+-:$*%#_>" →
  parse_with_consumed value_size {| buffer := b :: rest |}
  = (Ret (Ok None), {| buffer := b :: rest |}).
Proof.
  intros Hb. unfold parse_with_consumed. cbn [buffer parse_value].
  assert (parse_typed value_size (parse_value value_size (length (b :: rest)))
    (length (b :: rest)) b rest = PErr (invalid_type b)) as ->; [|done].
  destruct b; try done; exfalso; apply Hb; vm_compute; repeat constructor.
Qed.

(** The element count of a map frame is not bounded before memory is
    reserved: a map header announcing [i64::MAX] pairs makes the parser panic
    in [Vec::with_capacity]. *)
Theorem parse_map_capacity_panics (value_size : Z) (rest : Bytes) :
  1 ≤ value_size →
  (parse_with_consumed value_size {| buffer := bs "%9223372036854775807" ++ crlf ++ rest |}).1
  = Panic.
Proof.
  intros Hsize. change (bs "%9223372036854775807") with (x25 :: dec i64_max).
  unfold parse_with_consumed. cbn [buffer app parse_value parse_typed].
  unfold parse_map. rewrite read_i64_dec by done. cbn [pbind].
  replace (i64_max <? 0) with false by done.
  assert (with_capacity_ok (2 * value_size) i64_max = false) as ->; [|done].
  unfold with_capacity_ok, i64_max. lia.
Qed.
