(* ===== verification/Reply.v ===== *)
(** * Replies ([protocol.rs], [commands/mod.rs])

    What the command handlers share: error replies, early returns and integer arguments. *)

From S2P Require Import Prelude RustStd Errors Resp.
Local Open Scope Z_scope.

Definition error (s : Str) : RespValue := Resp.Error (as_bytes s).
Definition error_reply (e : KError) : RespValue := error (to_resp_string e).
Definition wrong_args (cmd : Str) : RespValue := error (str "ERR wrong number of arguments for '" ++ cmd ++ str "' command").

(** An early return. *)
Definition or_reply {M : Type → Type} `{!MRet M} {A : Type} (o : option A) (e : RespValue) (k : A → M RespValue) : M RespValue :=
  match o with Some a => k a | None => mret e end.
Notation "'let?' x := o 'else' e 'in' k" := (or_reply o e (λ x, k))
  (at level 10, x name, o at level 100, e at level 100, k at level 200).

Definition bulk (b : Bytes) : RespValue := BulkString (Some b).
Definition bulk_or_null (o : option Bytes) : RespValue := BulkString o.
Definition of_bool (b : bool) : RespValue := Integer (if b then 1 else 0).

Definition parse_integer (v : RespValue) : result KError Z :=
  match as_integer v with
  | Some i => Ok i
  | None =>
    match as_bulk_string v with
    | Some s =>
      s ← ok_or (from_utf8 s) (InvalidArgument (str "invalid UTF-8"));
      ok_or (parse_i64 s) (InvalidArgument (str "invalid integer"))
    | None => Err (InvalidArgument (str "expected integer"))
    end
  end.

Definition not_integer : RespValue := error (str "ERR value is not an integer or out of range").
Definition syntax_error : RespValue := error (str "ERR syntax error").
