(* ===== verification/Glob.v ===== *)
(** * Glob matching of keys ([pattern_match] in [src/hashmap.rs])

    The loop with one backtracking point, its termination, and its equivalence
    with the declarative meaning of [*] and [?]. *)

From S2P Require Import Prelude RustStd.
From Stdlib Require Import Lia.

Definition star : Z := 42.
Definition quest : Z := 63.

(** ** The code *)

(** The [while t < text.len()] loop.  It ends at the end of the text with a
    position in the pattern, or returns [false]; [LoopFuel] is excluded below. *)
Inductive loop_result : Type :=
| LoopEnd (p : nat)
| LoopFalse
| LoopFuel.

Fixpoint match_loop (fuel : nat) (pat text : Str) (p t : nat) (star_idx : option nat)
    (match_idx : nat) : loop_result :=
  match fuel with
  | O => LoopFuel
  | S fuel =>
    match text !! t with
    | None => LoopEnd p
    | Some tc =>
      let backtrack :=
        match star_idx with
        | Some s => match_loop fuel pat text (s + 1) (match_idx + 1) star_idx (match_idx + 1)
        | None => LoopFalse
        end in
      match pat !! p with
      | Some pc =>
        if decide (pc = star) then match_loop fuel pat text (p + 1) t (Some p) t
        else if decide (pc = quest ∨ pc = tc) then
          match_loop fuel pat text (p + 1) (t + 1) star_idx match_idx
        else backtrack
      | None => backtrack
      end
    end
  end.

(** [while p < pattern.len() && pattern[p] == '*' { p += 1 }] *)
Fixpoint skip_stars (fuel : nat) (pat : Str) (p : nat) : nat :=
  match fuel with
  | O => p
  | S fuel =>
    if decide (pat !! p = Some star) then skip_stars fuel pat (p + 1) else p
  end.

Definition match_fuel (pat text : Str) : nat :=
  S ((length text + 1) * (length pat + 1) + length pat).

Definition pattern_match (pat text : Str) : bool :=
  if decide (pat = [star]) then true else
  match match_loop (match_fuel pat text) pat text 0 0 None 0 with
  | LoopEnd p => bool_decide (skip_stars (length pat) pat p = length pat)
  | LoopFalse | LoopFuel => false
  end.

(** The filter of [keys]: a key that is not UTF-8 is matched as the empty
    string ([from_utf8(key).unwrap_or("")]). *)
Definition key_matches (pattern : option Str) (key : Bytes) : bool :=
  match pattern with
  | Some pat => pattern_match pat (default [] (from_utf8 key))
  | None => true
  end.

(** ** The meaning of a pattern *)

Inductive glob : Str → Str → Prop :=
| glob_nil : glob [] []
| glob_star_end pat text : glob pat text → glob (star :: pat) text
| glob_star_char pat c text : glob (star :: pat) text → glob (star :: pat) (c :: text)
| glob_quest pat c text : glob pat text → glob (quest :: pat) (c :: text)
| glob_char pat c text : c ≠ star → glob pat text → glob (c :: pat) (c :: text).

Lemma glob_nil_l text : glob [] text ↔ text = [].
Proof. split; [by inversion 1|]. intros ->. constructor. Qed.

Lemma glob_star pat text : glob (star :: pat) text ↔ ∃ k, k ≤ length text ∧ glob pat (drop k text).
Proof.
  split.
  - intros H. remember (star :: pat) as sp eqn:E. induction H; simplify_eq.
    + exists 0. split; [lia|done].
    + destruct IHglob as (k & Hk & Hg); [done|]. exists (S k). split; [simpl; lia|done].
  - intros (k & Hk & Hg). revert text Hk Hg. induction k as [|k IH]; intros text Hk Hg.
    { by apply glob_star_end. }
    destruct text as [|c text]; simpl in *; [lia|]. apply glob_star_char, IH; [lia|done].
Qed.

(** A pattern character that is not [*] matches exactly one character. *)
Lemma glob_one pc pat text :
  pc ≠ star →
  glob (pc :: pat) text ↔ ∃ tc text', text = tc :: text' ∧ (pc = quest ∨ pc = tc) ∧ glob pat text'.
Proof.
  intros Hpc. split.
  - inversion 1; simplify_eq; naive_solver.
  - intros (tc & text' & -> & [->| ->] & Hg); by constructor.
Qed.

(** A star-free piece of pattern consumes as many characters as it has. *)
Lemma glob_starfree_app m pat text :
  star ∉ m → glob (m ++ pat) text → length m ≤ length text ∧ glob pat (drop (length m) text).
Proof.
  revert text. induction m as [|c m IH]; intros text Hm Hg; simpl; [split; [lia|done]|].
  apply not_elem_of_cons in Hm as [Hc Hm]. simpl in Hg. apply glob_one in Hg; [|done].
  destruct Hg as (tc & text' & -> & _ & Hg). destruct (IH text' Hm Hg). split; [simpl; lia|done].
Qed.

Lemma drop_lookup_cons {A} (l : list A) i x : l !! i = Some x → drop i l = x :: drop (i + 1) l.
Proof. intros H. rewrite (drop_S l x i H). by rewrite Nat.add_1_r. Qed.

(** ** The loop invariant *)

Section loop.
Context (pat text : Str).

Definition pat_at (p : nat) : Str := drop p pat.
Definition text_at (t : nat) : Str := drop t text.

(** A later start after the last star can still succeed. *)
Definition can_backtrack (star_idx : option nat) (match_idx : nat) : Prop :=
  match star_idx with
  | Some s => ∃ k, match_idx < k ≤ length text ∧ glob (pat_at (s + 1)) (text_at k)
  | None => False
  end.

(** Positions are in range and, after a star, what was read since it is a
    star-free piece of pattern, character for character. *)
Definition loop_inv (p t : nat) (star_idx : option nat) (match_idx : nat) : Prop :=
  p ≤ length pat ∧ t ≤ length text ∧ match_idx ≤ t ∧
  match star_idx with
  | Some s => s < p ∧ t = match_idx + (p - (s + 1)) ∧
              star ∉ take (p - (s + 1)) (pat_at (s + 1))
  | None => True
  end.

Lemma pat_at_split s p :
  s < p → p ≤ length pat →
  pat_at (s + 1) = take (p - (s + 1)) (pat_at (s + 1)) ++ pat_at p ∧
  length (take (p - (s + 1)) (pat_at (s + 1))) = p - (s + 1).
Proof.
  intros. unfold pat_at. split.
  - rewrite <- (take_drop (p - (s + 1)) (drop (s + 1) pat)) at 1. f_equal.
    rewrite drop_drop. f_equal. lia.
  - rewrite length_take, length_drop. lia.
Qed.

(** If a later start succeeds, then what follows the piece already read is
    matched somewhere strictly behind the current position. *)
Lemma backtrack_behind p t s mi :
  loop_inv p t (Some s) mi → can_backtrack (Some s) mi →
  ∃ k, t < k ≤ length text ∧ glob (pat_at p) (text_at k).
Proof.
  intros (Hp & Ht & Hmi & Hs & Htm & Hfree) (k & Hk & Hg).
  destruct (pat_at_split s p Hs Hp) as [Hsplit Hlen]. rewrite Hsplit in Hg.
  apply glob_starfree_app in Hg as [Hl Hg]; [|done]. rewrite Hlen in *.
  unfold text_at in *. rewrite length_drop in Hl. rewrite drop_drop in Hg.
  exists (k + (p - (s + 1))). split; [lia|done].
Qed.

(** A successful backtrack is impossible at the end of the text. *)
Lemma no_backtrack_at_end p star_idx mi :
  loop_inv p (length text) star_idx mi → ¬ can_backtrack star_idx mi.
Proof.
  destruct star_idx as [s|]; [|by intros _ []]. intros Hinv Hb.
  destruct (backtrack_behind _ _ _ _ Hinv Hb) as (k & Hk & _). lia.
Qed.

(** Reading a star: the older backtracking point is subsumed by the new one. *)
Lemma star_step p t star_idx mi :
  loop_inv p t star_idx mi → pat !! p = Some star →
  (glob (pat_at p) (text_at t) ∨ can_backtrack star_idx mi) ↔
  (glob (pat_at (p + 1)) (text_at t) ∨ can_backtrack (Some p) t).
Proof.
  intros Hinv Hpc. pose proof Hinv as (Hp & Ht & _).
  assert (pat_at p = star :: pat_at (p + 1)) as Hpat by by apply drop_lookup_cons.
  assert (glob (pat_at p) (text_at t) ↔
    ∃ k, t ≤ k ≤ length text ∧ glob (pat_at (p + 1)) (text_at k)) as Hstar.
  { rewrite Hpat, glob_star. unfold text_at. rewrite length_drop. split.
    - intros (k & Hk & Hg). rewrite drop_drop in Hg. exists (t + k). split; [lia|done].
    - intros (k & Hk & Hg). exists (k - t). split; [lia|].
      rewrite drop_drop. by replace (t + (k - t)) with k by lia. }
  rewrite Hstar. split.
  - intros [(k & Hk & Hg)|Hb].
    + destruct (decide (k = t)) as [->|]; [by left|]. right. exists k. split; [lia|done].
    + destruct star_idx as [s|]; [|done].
      destruct (backtrack_behind _ _ _ _ Hinv Hb) as (k & Hk & Hg).
      rewrite Hpat in Hg. apply glob_star in Hg as (j & Hj & Hg).
      unfold text_at in *. rewrite length_drop in Hj. rewrite drop_drop in Hg.
      right. exists (k + j). split; [lia|done].
  - intros [Hg|(k & Hk & Hg)]; left.
    + exists t. split; [lia|done].
    + exists k. split; [lia|done].
Qed.

Lemma star_inv p t star_idx mi :
  loop_inv p t star_idx mi → pat !! p = Some star → loop_inv (p + 1) t (Some p) t.
Proof.
  intros (Hp & Ht & _) Hpc. apply lookup_lt_Some in Hpc.
  repeat split; [lia..|]. rewrite Nat.sub_diag. by apply not_elem_of_nil.
Qed.

Lemma char_step p t pc tc :
  pat !! p = Some pc → text !! t = Some tc → pc ≠ star → pc = quest ∨ pc = tc →
  glob (pat_at p) (text_at t) ↔ glob (pat_at (p + 1)) (text_at (t + 1)).
Proof.
  intros Hpc Htc Hns Hm. unfold pat_at, text_at.
  rewrite (drop_lookup_cons _ _ _ Hpc), (drop_lookup_cons _ _ _ Htc), glob_one by done.
  naive_solver.
Qed.

Lemma char_inv p t pc star_idx mi :
  loop_inv p t star_idx mi → pat !! p = Some pc → t < length text → pc ≠ star →
  loop_inv (p + 1) (t + 1) star_idx mi.
Proof.
  intros (Hp & Ht & Hmi & Hs) Hpc Hlt Hns. pose proof (lookup_lt_Some _ _ _ Hpc).
  repeat split; [lia..|]. destruct star_idx as [s|]; [|done].
  destruct Hs as (Hs & Htm & Hfree). repeat split; [lia..|].
  replace (p + 1 - (s + 1)) with (S (p - (s + 1))) by lia.
  rewrite (take_S_r _ _ pc).
  - rewrite elem_of_app, list_elem_of_singleton. naive_solver.
  - unfold pat_at. rewrite lookup_drop. by replace (s + 1 + (p - (s + 1))) with p by lia.
Qed.

(** The pattern does not match here: only a backtrack can succeed. *)
Lemma mismatch_step p t tc :
  text !! t = Some tc →
  (∀ pc, pat !! p = Some pc → pc ≠ star ∧ ¬ (pc = quest ∨ pc = tc)) →
  ¬ glob (pat_at p) (text_at t).
Proof.
  intros Htc Hno Hg. unfold pat_at, text_at in Hg.
  rewrite (drop_lookup_cons _ _ _ Htc) in Hg.
  destruct (pat !! p) as [pc|] eqn:Hpc.
  - destruct (Hno pc eq_refl) as [Hns Hm]. rewrite (drop_lookup_cons _ _ _ Hpc) in Hg.
    apply glob_one in Hg; [|done]. naive_solver.
  - apply lookup_ge_None in Hpc. rewrite drop_ge in Hg by done.
    by apply glob_nil_l in Hg.
Qed.

Lemma backtrack_step s mi :
  mi < length text →
  can_backtrack (Some s) mi ↔
  glob (pat_at (s + 1)) (text_at (mi + 1)) ∨ can_backtrack (Some s) (mi + 1).
Proof.
  intros Hmi. split.
  - intros (k & Hk & Hg). destruct (decide (k = mi + 1)) as [->|]; [by left|].
    right. exists k. split; [lia|done].
  - intros [Hg|(k & Hk & Hg)]; [exists (mi + 1)|exists k]; split; done || lia.
Qed.

Lemma backtrack_inv p t s mi :
  loop_inv p t (Some s) mi → t < length text →
  loop_inv (s + 1) (mi + 1) (Some s) (mi + 1).
Proof.
  intros (Hp & Ht & Hmi & Hs & _) Hlt. repeat split; [lia..|].
  rewrite Nat.sub_diag. by apply not_elem_of_nil.
Qed.
End loop.

(** ** What the loop returns *)

Definition loop_measure (pat text : Str) (p mi : nat) : nat :=
  (length text + 1 - mi) * (length pat + 1) + (length pat - p).

(** With fuel above the measure the loop ends, and it ends well exactly when
    the rest matches here or after a backtrack. *)
Lemma match_loop_spec fuel pat text p t star_idx mi :
  loop_inv pat text p t star_idx mi →
  loop_measure pat text p mi < fuel →
  match match_loop fuel pat text p t star_idx mi with
  | LoopEnd p' =>
      p' ≤ length pat ∧
      (glob (pat_at pat p') [] ↔
       glob (pat_at pat p) (text_at text t) ∨ can_backtrack pat text star_idx mi)
  | LoopFalse => ¬ (glob (pat_at pat p) (text_at text t) ∨ can_backtrack pat text star_idx mi)
  | LoopFuel => False
  end.
Proof.
  revert p t star_idx mi. induction fuel as [|fuel IH]; intros p t star_idx mi Hinv Hm; [lia|].
  simpl. destruct (text !! t) as [tc|] eqn:Htc.
  2:{ pose proof Hinv as (Hp & Ht & _). apply lookup_ge_None in Htc.
      assert (t = length text) as -> by lia. split; [done|].
      unfold text_at. rewrite drop_all.
      pose proof (no_backtrack_at_end _ _ _ _ _ Hinv). tauto. }
  pose proof (lookup_lt_Some _ _ _ Htc) as Htl.
  pose proof Hinv as (Hp & Ht & Hmi & Hs).
  assert (Hback : ¬ glob (pat_at pat p) (text_at text t) →
    match (match star_idx with
           | Some s => match_loop fuel pat text (s + 1) (mi + 1) star_idx (mi + 1)
           | None => LoopFalse end) with
    | LoopEnd p' => p' ≤ length pat ∧ (glob (pat_at pat p') [] ↔
        glob (pat_at pat p) (text_at text t) ∨ can_backtrack pat text star_idx mi)
    | LoopFalse => ¬ (glob (pat_at pat p) (text_at text t) ∨ can_backtrack pat text star_idx mi)
    | LoopFuel => False
    end).
  { intros Hno. destruct star_idx as [s|]; [|simpl; tauto].
    pose proof (backtrack_step pat text s mi ltac:(lia)) as Hb.
    specialize (IH (s + 1) (mi + 1) (Some s) (mi + 1) (backtrack_inv _ _ _ _ _ _ Hinv Htl)).
    assert (Hm' : loop_measure pat text (s + 1) (mi + 1) < fuel)
      by (unfold loop_measure in *; destruct Hs; nia).
    specialize (IH Hm').
    destruct (match_loop _ _ _ _ _ _ _); [|tauto..]. destruct IH. split; [done|]. tauto. }
  destruct (pat !! p) as [pc|] eqn:Hpc.
  2:{ apply Hback. apply (mismatch_step _ _ _ _ tc); [done|]. by intros ? ?; simplify_eq. }
  pose proof (lookup_lt_Some _ _ _ Hpc) as Hpl.
  case_decide as Hst; [subst pc|case_decide as Hch].
  - specialize (IH (p + 1) t (Some p) t (star_inv _ _ _ _ _ _ Hinv Hpc)).
    assert (Hm' : loop_measure pat text (p + 1) t < fuel) by (unfold loop_measure in *; nia).
    specialize (IH Hm'). pose proof (star_step _ _ _ _ _ _ Hinv Hpc).
    destruct (match_loop _ _ _ _ _ _ _); [|tauto..]. destruct IH. split; [done|]. tauto.
  - specialize (IH (p + 1) (t + 1) star_idx mi (char_inv _ _ _ _ _ _ _ Hinv Hpc Htl Hst)).
    assert (Hm' : loop_measure pat text (p + 1) mi < fuel) by (unfold loop_measure in *; nia).
    specialize (IH Hm'). pose proof (char_step _ _ _ _ _ _ Hpc Htc Hst Hch).
    destruct (match_loop _ _ _ _ _ _ _); [|tauto..]. destruct IH. split; [done|]. tauto.
  - apply Hback. apply (mismatch_step _ _ _ _ tc); [done|]. intros pc' ?; simplify_eq. tauto.
Qed.

Lemma skip_stars_spec fuel pat p :
  p ≤ length pat → length pat - p ≤ fuel →
  skip_stars fuel pat p = length pat ↔ glob (drop p pat) [].
Proof.
  revert p. induction fuel as [|fuel IH]; intros p Hp Hf; simpl.
  { assert (p = length pat) as -> by lia. rewrite drop_all. split; [constructor|done]. }
  case_decide as Hst.
  - pose proof (lookup_lt_Some _ _ _ Hst). rewrite IH by lia.
    rewrite (drop_lookup_cons _ _ _ Hst). split; [apply glob_star_end|].
    intros Hg. apply glob_star in Hg as (k & _ & Hg). by rewrite drop_nil in Hg.
  - split.
    + intros ->. rewrite drop_all. constructor.
    + destruct (pat !! p) as [pc|] eqn:Hpc; [|apply lookup_ge_None in Hpc; lia].
      rewrite (drop_lookup_cons _ _ _ Hpc), glob_one by congruence. naive_solver.
Qed.

Lemma loop_inv_init pat text : loop_inv pat text 0 0 None 0.
Proof. repeat split; lia. Qed.

Lemma match_fuel_measure pat text : loop_measure pat text 0 0 < match_fuel pat text.
Proof. unfold loop_measure, match_fuel. nia. Qed.

Lemma pattern_match_glob pat text : pattern_match pat text = true ↔ glob pat text.
Proof.
  unfold pattern_match. case_decide as Hs; [subst|].
  { split; [|done]. intros _. apply glob_star. exists (length text).
    rewrite drop_all. split; [done|constructor]. }
  pose proof (match_loop_spec _ _ _ _ _ _ _ (loop_inv_init pat text) (match_fuel_measure pat text)) as Hl.
  unfold pat_at, text_at, can_backtrack in Hl. rewrite !drop_0 in Hl.
  destruct (match_loop _ _ _ _ _ _ _) as [p'| |]; [|naive_solver..].
  destruct Hl as [Hp Hl]. rewrite bool_decide_eq_true, skip_stars_spec by lia. tauto.
Qed.

(** C30. The glob matcher of [KEYS] decides the declarative matching relation
    for every pattern and text, and its loop with one backtracking point always
    reaches a verdict: the fuel is never used up. *)
Theorem pattern_match_correct pat text :
  (pattern_match pat text = true ↔ glob pat text) ∧
  match_loop (match_fuel pat text) pat text 0 0 None 0 ≠ LoopFuel.
Proof.
  split; [apply pattern_match_glob|]. intros E.
  pose proof (match_loop_spec _ _ _ _ _ _ _ (loop_inv_init pat text) (match_fuel_measure pat text)) as Hl.
  by rewrite E in Hl.
Qed.
