(* ===== verification/ChannelGlob.v ===== *)
(** * Glob matching of channels ([PatternMatcher] of [pubsub.rs])

    Stars, question marks, character classes with ranges and negation, and escapes, with one
    backtracking point; the meaning of a pattern; and that the loop decides it. *)

From S2P Require Import Prelude RustStd.
From Stdlib Require Import Lia.

Definition b_star : byte := x2a.
Definition b_quest : byte := x3f.
Definition b_open : byte := x5b.
Definition b_close : byte := x5d.
Definition b_caret : byte := x5e.
Definition b_dash : byte := x2d.
Definition b_escape : byte := x5c.

(** ** The code *)

(** The loop of [match_char_class] over the members of the class: whether [ch] was one of them, and
    the position of the closing bracket or of the end. *)
Fixpoint class_loop (fuel : nat) (pattern : Bytes) (ch : byte) (idx : nat) (matched : bool) : bool * nat :=
  match fuel with
  | O => (matched, idx)
  | S fuel =>
    match pattern !! idx with
    | None => (matched, idx)
    | Some a =>
      if decide (a = b_close) then (matched, idx)
      else
        match pattern !! (idx + 1), pattern !! (idx + 2) with
        | Some d, Some b =>
          if decide (d = b_dash ∧ b ≠ b_close) then
            class_loop fuel pattern ch (idx + 3) (matched || ((u8 a <=? u8 ch)%Z && (u8 ch <=? u8 b)%Z))
          else class_loop fuel pattern ch (idx + 1) (matched || bool_decide (a = ch))
        | _, _ => class_loop fuel pattern ch (idx + 1) (matched || bool_decide (a = ch))
        end
    end
  end.

Definition match_char_class (pattern : Bytes) (start : nat) (ch : byte) : bool * nat :=
  let idx := (start + 1)%nat in
  let negated := bool_decide (pattern !! idx = Some b_caret) in
  let idx := if negated then (idx + 1)%nat else idx in
  if decide (length pattern ≤ idx) then (false, idx)
  else
    let '(matched, idx) := class_loop (length pattern) pattern ch idx false in
    if decide (pattern !! idx = Some b_close) then (if negated then negb matched else matched, (idx + 1)%nat)
    else (false, (start + 1)%nat).

(** The position behind the piece of the pattern at [pi] if it matches [tc]; [pc] is the byte there,
    not a star. *)
Definition eat (pattern : Bytes) (pi : nat) (pc tc : byte) : option nat :=
  if decide (pc = b_quest) then Some (pi + 1)
  else if decide (pc = b_open) then
    let '(matched, next_pi) := match_char_class pattern pi tc in if matched then Some next_pi else None
  else if decide (pc = b_escape) then
    if decide (pattern !! (pi + 1) = Some tc) then Some (pi + 2) else None
  else if decide (pc = tc) then Some (pi + 1) else None.

Inductive verdict : Type := AtEnd (pi : nat) | Mismatch | NoFuel.

Fixpoint matches_loop (fuel : nat) (pattern text : Bytes) (pi ti : nat) (star_pi : option nat) (star_ti : nat) : verdict :=
  match fuel with
  | O => NoFuel
  | S fuel =>
    match text !! ti with
    | None => AtEnd pi
    | Some tc =>
      let backtrack :=
        match star_pi with
        | Some sp => matches_loop fuel pattern text (sp + 1) (star_ti + 1) star_pi (star_ti + 1)
        | None => Mismatch
        end in
      match pattern !! pi with
      | Some pc =>
        if decide (pc = b_star) then matches_loop fuel pattern text (pi + 1) ti (Some pi) ti
        else
          match eat pattern pi pc tc with
          | Some pi' => matches_loop fuel pattern text pi' (ti + 1) star_pi star_ti
          | None => backtrack
          end
      | None => backtrack
      end
    end
  end.

Fixpoint skip_trailing (fuel : nat) (pattern : Bytes) (pi : nat) : nat :=
  match fuel with
  | O => pi
  | S fuel => if decide (pattern !! pi = Some b_star) then skip_trailing fuel pattern (pi + 1) else pi
  end.

Definition matches_fuel (pattern text : Bytes) : nat := S ((length text + 1) * (length pattern + 1) + length pattern).

(** [PatternMatcher::matches] *)
Definition matches (pattern text : Bytes) : bool :=
  match matches_loop (matches_fuel pattern text) pattern text 0 0 None 0 with
  | AtEnd pi => bool_decide (skip_trailing (length pattern) pattern pi = length pattern)
  | Mismatch | NoFuel => false
  end.

(** ** The meaning of a pattern *)

(** The members of a class: single bytes and ranges. *)
Inductive member : Type := Single (a : byte) | Range (a b : byte).

Fixpoint members_of (body : Bytes) : list member :=
  match body with
  | a :: ((d :: b :: body') as rest) => if decide (d = b_dash) then Range a b :: members_of body' else Single a :: members_of rest
  | a :: rest => Single a :: members_of rest
  | [] => []
  end.

Definition is_member (c : byte) (m : member) : bool :=
  match m with
  | Single a => bool_decide (a = c)
  | Range a b => (u8 a <=? u8 c)%Z && (u8 c <=? u8 b)%Z
  end.

Definition in_class (negated : bool) (body : Bytes) (c : byte) : bool := xorb negated (existsb (is_member c) (members_of body)).

Definition special (c : byte) : Prop := c = b_star ∨ c = b_quest ∨ c = b_open ∨ c = b_escape.

Inductive covers : Bytes → Bytes → Prop :=
| covers_end : covers [] []
| covers_star_skip pat text : covers pat text → covers (b_star :: pat) text
| covers_star_take pat c text : covers (b_star :: pat) text → covers (b_star :: pat) (c :: text)
| covers_any pat c text : covers pat text → covers (b_quest :: pat) (c :: text)
| covers_escaped pat c text : covers pat text → covers (b_escape :: c :: pat) (c :: text)
| covers_class (negated : bool) body pat c text :
    b_close ∉ body → (negated = false → head body ≠ Some b_caret) → in_class negated body c = true → covers pat text →
    covers (b_open :: (if negated then [b_caret] else []) ++ body ++ b_close :: pat) (c :: text)
| covers_byte pat c text : ¬ special c → covers pat text → covers (c :: pat) (c :: text).

(** ** Classes *)

Lemma members_of_range a b body : members_of (a :: b_dash :: b :: body) = Range a b :: members_of body.
Proof. cbn [members_of]. by rewrite decide_True. Qed.

Lemma members_of_single a body :
  (∀ b body', body ≠ b_dash :: b :: body') → members_of (a :: body) = Single a :: members_of body.
Proof.
  intros Hn. destruct body as [|d [|b body]]; [done|done|]. cbn [members_of]. rewrite decide_False; [done|]. intros ->. by eapply Hn.
Qed.

Lemma drop_cons_lookup (l : Bytes) i a r : drop i l = a :: r → l !! i = Some a ∧ drop (i + 1) l = r.
Proof.
  intros E. assert (H : l !! (i + 0) = Some a) by (by rewrite <- lookup_drop, E). rewrite Nat.add_0_r in H. split; [done|].
  apply drop_S in H. rewrite H in E. injection E as E. by rewrite Nat.add_1_r.
Qed.

(** A class that is closed. *)
Lemma class_loop_closed fuel pattern ch idx matched body r :
  drop idx pattern = body ++ b_close :: r → b_close ∉ body → (length body < fuel)%nat →
  class_loop fuel pattern ch idx matched = (matched || existsb (is_member ch) (members_of body), (idx + length body)%nat).
Proof.
  revert idx matched body. induction fuel as [|fuel IH]; intros idx matched body E Hc Hf; [lia|].
  destruct body as [|a body].
  { destruct (drop_cons_lookup _ _ _ _ E) as [Ha _]. cbn [class_loop]. rewrite Ha, decide_True by done. cbn.
    by rewrite orb_false_r, Nat.add_0_r. }
  apply not_elem_of_cons in Hc as [Hac Hc]. destruct (drop_cons_lookup _ _ _ _ E) as [Ha E1].
  assert (Hsingle : (∀ b body', body ≠ b_dash :: b :: body') →
    class_loop fuel pattern ch (idx + 1) (matched || bool_decide (a = ch))
    = (matched || existsb (is_member ch) (members_of (a :: body)), (idx + length (a :: body))%nat)).
  { intros Hn. rewrite (IH (idx + 1)%nat _ body) by (done || cbn in Hf; lia). rewrite members_of_single by done.
    cbn [existsb is_member length]. rewrite orb_assoc. f_equal. lia. }
  cbn [class_loop]. rewrite Ha, decide_False by done. destruct body as [|d [|b body]].
  - destruct (drop_cons_lookup _ _ _ _ E1) as [Hd _]. rewrite Hd. destruct (pattern !! (idx + 2)%nat); [|by apply Hsingle].
    rewrite decide_False by (by intros [? _]). by apply Hsingle.
  - destruct (drop_cons_lookup _ _ _ _ E1) as [Hd E2]. destruct (drop_cons_lookup _ _ _ _ E2) as [Hb _].
    replace (idx + 1 + 1)%nat with (idx + 2)%nat in Hb by lia. rewrite Hd, Hb, decide_False by (by intros [_ ?]). by apply Hsingle.
  - destruct (drop_cons_lookup _ _ _ _ E1) as [Hd E2]. destruct (drop_cons_lookup _ _ _ _ E2) as [Hb E3].
    replace (idx + 1 + 1)%nat with (idx + 2)%nat in Hb by lia. replace (idx + 1 + 1 + 1)%nat with (idx + 3)%nat in E3 by lia.
    rewrite Hd, Hb. rewrite !not_elem_of_cons in Hc. destruct Hc as (Hdc & Hbc & Hc). destruct (decide (d = b_dash)) as [->|Hdd].
    + rewrite decide_True by done. rewrite (IH (idx + 3)%nat _ body) by (done || cbn in Hf; lia). rewrite members_of_range.
      cbn [existsb is_member length]. rewrite orb_assoc. f_equal. lia.
    + rewrite decide_False by (by intros [? _]). apply Hsingle. intros b' body' [=]. done.
Qed.

(** A class that is not. *)
Lemma class_loop_open fuel pattern ch idx matched :
  b_close ∉ drop idx pattern → pattern !! (class_loop fuel pattern ch idx matched).2 ≠ Some b_close.
Proof.
  assert (Hno : ∀ i j, (i ≤ j)%nat → b_close ∉ drop i pattern → pattern !! j ≠ Some b_close).
  { intros i j Hij Hc Hj. apply Hc. apply list_elem_of_lookup. exists (j - i)%nat. rewrite lookup_drop. by replace (i + (j - i))%nat with j by lia. }
  assert (Hle : ∀ i j, (i ≤ j)%nat → b_close ∉ drop i pattern → b_close ∉ drop j pattern).
  { intros i j Hij Hc [k Hk]%list_elem_of_lookup. rewrite lookup_drop in Hk. by apply (Hno i (j + k)%nat) in Hk; [|lia|]. }
  revert idx matched. induction fuel as [|fuel IH]; intros idx matched Hc; cbn [class_loop]; [by apply (Hno idx)|].
  destruct (pattern !! idx) as [a|] eqn:Ha; [|cbn; by rewrite Ha]. case_decide as Hac; [subst a; by apply (Hno idx) in Ha|].
  destruct (pattern !! (idx + 1)%nat), (pattern !! (idx + 2)%nat); repeat case_decide; apply IH, (Hle idx); (lia || done).
Qed.

Lemma split_unique (x : byte) (a b r q : Bytes) : x ∉ a → x ∉ b → a ++ x :: r = b ++ x :: q → a = b ∧ r = q.
Proof.
  revert b. induction a as [|y a IH]; intros [|z b] Ha Hb E; simpl in E.
  - by injection E as ->.
  - injection E as <- _. by apply not_elem_of_cons in Hb as [].
  - injection E as -> _. by apply not_elem_of_cons in Ha as [].
  - injection E as -> E. apply not_elem_of_cons in Ha as [_ Ha]. apply not_elem_of_cons in Hb as [_ Hb].
    by destruct (IH b Ha Hb E) as [-> ->].
Qed.

(** What follows an opening bracket: a closed class, or none. *)
Lemma class_cases (s : Bytes) :
  (∃ (negated : bool) body r, s = (if negated then [b_caret] else []) ++ body ++ b_close :: r ∧ (b_close ∉ body) ∧
     (negated = false → head s ≠ Some b_caret)) ∨
  b_close ∉ (if decide (head s = Some b_caret) then tail s else s).
Proof.
  destruct (decide (head s = Some b_caret)) as [Hh|Hh].
  - destruct s as [|x s]; [done|]. injection Hh as ->. cbn [tail]. destruct (decide (b_close ∈ s)) as [Hc|Hc]; [left|by right].
    apply list_elem_of_split_l in Hc as (body & r & -> & Hb). exists true, body, r. by split_and!.
  - destruct (decide (b_close ∈ s)) as [Hc|Hc]; [left|by right]. apply list_elem_of_split_l in Hc as (body & r & -> & Hb).
    exists false, body, r. by split_and!.
Qed.

Lemma head_caret negated (body r : Bytes) :
  (negated = false → head ((if negated : bool then [b_caret] else []) ++ body ++ b_close :: r) ≠ Some b_caret) →
  negated = bool_decide (head ((if negated then [b_caret] else []) ++ body ++ b_close :: r) = Some b_caret).
Proof. intros Hn. destruct negated; cbn [app head]; [by rewrite bool_decide_true|]. rewrite bool_decide_false; [done|]. by apply Hn. Qed.

Lemma lookup_head (l : Bytes) i : l !! i = head (drop i l).
Proof. rewrite <- (Nat.add_0_r i) at 1. rewrite <- lookup_drop. by destruct (drop i l). Qed.

Lemma match_class_closed pattern pi ch negated body r :
  drop (pi + 1) pattern = (if negated : bool then [b_caret] else []) ++ body ++ b_close :: r → b_close ∉ body →
  (negated = false → head (drop (pi + 1) pattern) ≠ Some b_caret) →
  ∃ pi', match_char_class pattern pi ch = (in_class negated body ch, pi') ∧ (pi < pi' ≤ length pattern)%nat ∧ drop pi' pattern = r.
Proof.
  intros E Hb Hn. rewrite E in Hn. apply head_caret in Hn. rewrite <- E, <- lookup_head in Hn. unfold match_char_class. rewrite <- Hn.
  set (idx := if negated then _ else _). assert (Ei : drop idx pattern = body ++ b_close :: r).
  { unfold idx. destruct negated; [|done]. apply (drop_cons_lookup _ _ _ _ E). }
  assert (Hl : (length pattern - idx = length body + S (length r))%nat).
  { rewrite <- length_drop, Ei, length_app. done. }
  rewrite decide_False by lia. rewrite (class_loop_closed _ _ _ _ _ body r) by (done || lia). cbn [orb].
  assert (Ec : drop (idx + length body) pattern = b_close :: r) by (rewrite <- drop_drop, Ei; apply drop_app_length).
  destruct (drop_cons_lookup _ _ _ _ Ec) as [Hc Hr]. rewrite decide_True by done. eexists. split; [|split; [|exact Hr]].
  - unfold in_class. by destruct negated.
  - unfold idx in *. destruct negated; lia.
Qed.

Lemma match_class_open pattern pi ch :
  b_close ∉ (if decide (head (drop (pi + 1) pattern) = Some b_caret) then tail (drop (pi + 1) pattern) else drop (pi + 1) pattern) →
  (match_char_class pattern pi ch).1 = false.
Proof.
  intros Hc. unfold match_char_class. rewrite lookup_head. set (negated := bool_decide _). set (idx := if negated then _ else _).
  assert (Hc' : b_close ∉ drop idx pattern).
  { unfold idx, negated. case_decide as Hh; [rewrite bool_decide_true by done|by rewrite bool_decide_false by done].
    destruct (drop (pi + 1) pattern) as [|x s] eqn:E; [done|]. cbn in Hc. by rewrite (proj2 (drop_cons_lookup _ _ _ _ E)). }
  clear Hc. case_decide; [done|]. pose proof (class_loop_open (length pattern) pattern ch idx false Hc') as Ho.
  destruct (class_loop _ _ _ _ _) as [m i]. by rewrite decide_False.
Qed.

(** ** One piece of a pattern *)

Lemma covers_class_inv s c text :
  covers (b_open :: s) (c :: text) → ∃ negated body r,
    s = (if negated : bool then [b_caret] else []) ++ body ++ b_close :: r ∧ (b_close ∉ body) ∧
    (negated = false → head s ≠ Some b_caret) ∧ in_class negated body c = true ∧ covers r text.
Proof.
  inversion 1 as [| | | | |negated body pat c' text' Hb Hn Hin Hc E1 E2|pat c' text' Hs Hc E1 E2].
  - exists negated, body, pat. split_and!; [done|done| |done|done]. intros ->. destruct body; [done|]. cbn in *. by apply Hn.
  - destruct Hs. unfold special. naive_solver.
Qed.

(** The position behind a piece does not depend on the byte it matches. *)
Lemma eat_unique pattern pi pc c c' p p' : eat pattern pi pc c = Some p → eat pattern pi pc c' = Some p' → p = p'.
Proof.
  unfold eat. destruct (decide (pc = b_quest)); [congruence|]. destruct (decide (pc = b_open)).
  - destruct (class_cases (drop (pi + 1) pattern)) as [(negated & body & r & E & Hb & Hn)|Hc].
    + destruct (match_class_closed pattern pi c negated body r E Hb Hn) as (q & -> & Hq & Er).
      destruct (match_class_closed pattern pi c' negated body r E Hb Hn) as (q' & -> & Hq' & Er').
      assert (q = q') as ->; [|destruct (in_class _ _ c), (in_class _ _ c'); congruence].
      rewrite <- Er' in Er. apply (f_equal length) in Er. rewrite !length_drop in Er. lia.
    + pose proof (match_class_open pattern pi c Hc) as H. destruct (match_char_class pattern pi c) as [m q]. cbn in H. by rewrite H.
  - destruct (decide (pc = b_escape)); repeat case_decide; congruence.
Qed.

Lemma eat_bounds pattern pi pc c p : pattern !! pi = Some pc → eat pattern pi pc c = Some p → (pi < p ≤ length pattern)%nat.
Proof.
  intros Hp. pose proof (lookup_lt_Some _ _ _ Hp) as Hl. unfold eat. destruct (decide (pc = b_quest)); [intros [= <-]; lia|].
  destruct (decide (pc = b_open)).
  - destruct (class_cases (drop (pi + 1) pattern)) as [(negated & body & r & E & Hb & Hn)|Hc].
    + destruct (match_class_closed pattern pi c negated body r E Hb Hn) as (q & -> & Hq & _). destruct (in_class _ _ _); [|done].
      intros [= <-]. lia.
    + pose proof (match_class_open pattern pi c Hc) as H. destruct (match_char_class pattern pi c) as [m q]. cbn in H. by rewrite H.
  - destruct (decide (pc = b_escape)); case_decide as He; try done; intros [= <-]; [|lia]. apply lookup_lt_Some in He. lia.
Qed.

Lemma eat_spec pattern pi pc c text :
  pattern !! pi = Some pc → pc ≠ b_star →
  covers (drop pi pattern) (c :: text) ↔
  ∃ p, eat pattern pi pc c = Some p ∧ (pi < p ≤ length pattern)%nat ∧ covers (drop p pattern) text.
Proof.
  intros Hp Hs. pose proof (lookup_lt_Some _ _ _ Hp) as Hl. assert (E : drop pi pattern = pc :: drop (pi + 1) pattern).
  { rewrite (drop_S _ _ _ Hp). by rewrite Nat.add_1_r. }
  rewrite E. unfold eat. destruct (decide (pc = b_quest)) as [->|Hq].
  { split.
    - inversion 1 as [| | |? ? ? Hc| | |? ? ? Hn]; simplify_eq; [exists (pi + 1)%nat; split_and!; (done || lia)|destruct Hn; unfold special; tauto].
    - intros (p & [= <-] & _ & Hc). by constructor. }
  destruct (decide (pc = b_open)) as [->|Ho].
  { split.
    - intros (negated & body & r & Es & Hb & Hn & Hin & Hc)%covers_class_inv.
      destruct (match_class_closed pattern pi c negated body r Es Hb Hn) as (q & -> & Hq' & Er). rewrite Hin.
      exists q. split_and!; [done|lia|lia|by rewrite Er].
    - intros (p & Hm & Hb & Hc). destruct (class_cases (drop (pi + 1) pattern)) as [(negated & body & r & Es & Hb' & Hn)|Hno].
      + destruct (match_class_closed pattern pi c negated body r Es Hb' Hn) as (q & Em & Hq' & Er). rewrite Em in Hm.
        destruct (in_class negated body c) eqn:Hin; [|done]. injection Hm as <-. rewrite Er in Hc. rewrite Es in Hn |- *.
        apply covers_class; try done. intros ->. specialize (Hn eq_refl). by destruct body.
      + pose proof (match_class_open pattern pi c Hno) as H. destruct (match_char_class pattern pi c) as [m q]. cbn in H. by rewrite H in Hm. }
  destruct (decide (pc = b_escape)) as [->|He].
  { rewrite lookup_head. destruct (drop (pi + 1) pattern) as [|x s] eqn:Ed.
    { split; [inversion 1 as [| | | | | |? ? ? Hn]; simplify_eq; destruct Hn; unfold special; tauto|]. intros (p & Hm & _). done. }
    destruct (drop_cons_lookup pattern (pi + 1) x s Ed) as [Hx Hd]. apply lookup_lt_Some in Hx.
    replace (pi + 1 + 1)%nat with (pi + 2)%nat in Hd by lia. cbn [head]. split.
    - inversion 1 as [| | | |? ? ? Hc| |? ? ? Hn]; simplify_eq; [|destruct Hn; unfold special; tauto].
      rewrite decide_True by done. exists (pi + 2)%nat. split_and!; [done|lia|lia|done].
    - intros (p & Hm & _ & Hc). case_decide as Hh; [|done]. injection Hm as <-. injection Hh as ->. rewrite Hd in Hc. by constructor. }
  split.
  - inversion 1; simplify_eq. rewrite decide_True by done. exists (pi + 1)%nat. split_and!; (done || lia).
  - intros (p & Hm & _ & Hc). case_decide as Hcc; [|done]. subst c. injection Hm as <-. apply covers_byte; [|done]. unfold special. tauto.
Qed.

(** ** The loop *)

Lemma covers_star pat text : covers (b_star :: pat) text ↔ ∃ k, (k ≤ length text)%nat ∧ covers pat (drop k text).
Proof.
  split.
  - intros H. remember (b_star :: pat) as sp eqn:E. induction H as [|? ? H|? ? ? H IH| | | |? ? ? Hn]; simplify_eq.
    + exists 0%nat. split; [lia|done].
    + destruct (IH eq_refl) as (k & Hk & Hc). exists (S k). split; [simpl; lia|done].
    + destruct Hn. by left.
  - intros (k & Hk & Hc). revert text Hk Hc. induction k as [|k IH]; intros text Hk Hc; [by apply covers_star_skip|].
    destruct text as [|c text]; simpl in *; [lia|]. apply covers_star_take, IH; [lia|done].
Qed.

Lemma covers_nil_l text : covers [] text ↔ text = [].
Proof. split; [by inversion 1|]. intros ->. constructor. Qed.

Lemma covers_piece_nil pattern pi pc : pattern !! pi = Some pc → pc ≠ b_star → ¬ covers (drop pi pattern) [].
Proof. intros Hp Hs. rewrite (drop_S _ _ _ Hp). by inversion 1. Qed.

(** [n] pieces without a star lead from [p] to [q]. *)
Inductive reach (pattern : Bytes) (p : nat) : nat → nat → Prop :=
| reach_here : reach pattern p 0 p
| reach_next n q pc c q' : reach pattern p n q → pattern !! q = Some pc → pc ≠ b_star → eat pattern q pc c = Some q' → reach pattern p (S n) q'.

Lemma reach_covers pattern p n q text :
  reach pattern p n q → covers (drop p pattern) text → (n ≤ length text)%nat ∧ covers (drop q pattern) (drop n text).
Proof.
  intros H Hc. induction H as [|n q pc c q' H IH Hp Hs He]; [split; [lia|done]|]. destruct IH as [Hn IH].
  destruct (drop n text) as [|c' r] eqn:Ed; [by apply (covers_piece_nil pattern q pc) in IH|].
  apply (eat_spec pattern q pc c' r Hp Hs) in IH as (p' & He' & _ & Hc'). rewrite (eat_unique _ _ _ _ _ _ _ He He').
  apply drop_cons_lookup in Ed as [Hl Hr]. apply lookup_lt_Some in Hl. rewrite Nat.add_1_r in Hr. rewrite Hr. split; [lia|done].
Qed.

Section loop.
Context (pattern text : Bytes).

(** A later start behind the last star can still succeed. *)
Definition can_retry (star_pi : option nat) (star_ti : nat) : Prop :=
  match star_pi with
  | Some sp => ∃ k, (star_ti < k ≤ length text)%nat ∧ covers (drop (sp + 1) pattern) (drop k text)
  | None => False
  end.

Definition loop_ok (pi ti : nat) (star_pi : option nat) (star_ti : nat) : Prop :=
  (pi ≤ length pattern)%nat ∧ (ti ≤ length text)%nat ∧
  match star_pi with
  | Some sp => (sp < length pattern)%nat ∧ ∃ n, ti = (star_ti + n)%nat ∧ reach pattern (sp + 1) n pi
  | None => (star_ti ≤ ti)%nat
  end.

Definition covered (pi ti : nat) (star_pi : option nat) (star_ti : nat) : Prop :=
  covers (drop pi pattern) (drop ti text) ∨ can_retry star_pi star_ti.

Lemma loop_ok_ti pi ti star_pi star_ti : loop_ok pi ti star_pi star_ti → (star_ti ≤ ti)%nat.
Proof. intros (_ & _ & H). destruct star_pi as [sp|]; [|done]. destruct H as (_ & n & -> & _). lia. Qed.

(** If a later start succeeds, the rest of the pattern is matched strictly behind the position. *)
Lemma retry_behind pi ti sp star_ti :
  loop_ok pi ti (Some sp) star_ti → can_retry (Some sp) star_ti → ∃ k, (ti < k ≤ length text)%nat ∧ covers (drop pi pattern) (drop k text).
Proof.
  intros (_ & _ & _ & n & -> & Hr) (k & Hk & Hc). apply (reach_covers _ _ _ _ _ Hr) in Hc as [Hn Hc].
  rewrite length_drop in Hn. rewrite drop_drop in Hc. exists (k + n)%nat. split; [lia|done].
Qed.

Lemma no_retry_at_end pi star_pi star_ti : loop_ok pi (length text) star_pi star_ti → ¬ can_retry star_pi star_ti.
Proof.
  destruct star_pi as [sp|]; [|by intros _ []]. intros Hok Hr. destruct (retry_behind _ _ _ _ Hok Hr) as (k & Hk & _). lia.
Qed.

Lemma star_covered pi ti star_pi star_ti :
  loop_ok pi ti star_pi star_ti → pattern !! pi = Some b_star → covered pi ti star_pi star_ti ↔ covered (pi + 1) ti (Some pi) ti.
Proof.
  intros Hok Hp. pose proof Hok as (_ & Ht & _). assert (E : drop pi pattern = b_star :: drop (pi + 1) pattern).
  { rewrite (drop_S _ _ _ Hp). by rewrite Nat.add_1_r. }
  assert (Hstar : ∀ j, (j ≤ length text)%nat → covers (drop pi pattern) (drop j text) ↔
    ∃ k, (j ≤ k ≤ length text)%nat ∧ covers (drop (pi + 1) pattern) (drop k text)).
  { intros j Hj. rewrite E, covers_star, length_drop. split.
    - intros (k & Hk & Hc). rewrite drop_drop in Hc. exists (j + k)%nat. split; [lia|done].
    - intros (k & Hk & Hc). exists (k - j)%nat. split; [lia|]. rewrite drop_drop. by replace (j + (k - j))%nat with k by lia. }
  unfold covered. rewrite Hstar by done. split.
  - intros [(k & Hk & Hc)|Hr].
    + destruct (decide (k = ti)) as [->|]; [by left|]. right. exists k. split; [lia|done].
    + destruct star_pi as [sp|]; [|done]. destruct (retry_behind _ _ _ _ Hok Hr) as (k & Hk & Hc). apply Hstar in Hc as (j & Hj & Hc); [|lia].
      right. exists j. split; [lia|done].
  - intros [Hc|(k & Hk & Hc)]; left; [exists ti|exists k]; (split; [lia|done]).
Qed.

Lemma retry_step sp star_ti :
  (star_ti < length text)%nat → can_retry (Some sp) star_ti ↔ covered (sp + 1) (star_ti + 1) (Some sp) (star_ti + 1).
Proof.
  intros Hl. split.
  - intros (k & Hk & Hc). destruct (decide (k = star_ti + 1)%nat) as [->|]; [by left|]. right. exists k. split; [lia|done].
  - intros [Hc|(k & Hk & Hc)]; [exists (star_ti + 1)%nat|exists k]; (split; [lia|done]).
Qed.

Lemma eat_covered pi ti star_pi star_ti pc tc p :
  loop_ok pi ti star_pi star_ti → pattern !! pi = Some pc → pc ≠ b_star → text !! ti = Some tc → eat pattern pi pc tc = Some p →
  loop_ok p (ti + 1) star_pi star_ti ∧ (covered pi ti star_pi star_ti ↔ covered p (ti + 1) star_pi star_ti).
Proof.
  intros (Hl & Ht & Hs) Hp Hn Htc He. pose proof (lookup_lt_Some _ _ _ Htc). pose proof (eat_bounds _ _ _ _ _ Hp He) as Hpp. split.
  - split_and!; [lia|lia|]. destruct star_pi as [sp|]; [|lia]. destruct Hs as (Hsp & n & -> & Hr). split; [done|].
    exists (S n). split; [lia|]. by eapply reach_next.
  - unfold covered. rewrite (drop_S _ _ _ Htc), (eat_spec pattern pi pc tc) by done. rewrite Nat.add_1_r. rewrite He. naive_solver.
Qed.
End loop.

Definition loop_rank (pattern text : Bytes) (pi star_ti : nat) : nat :=
  ((length text + 1 - star_ti) * (length pattern + 1) + (length pattern - pi))%nat.

(** With fuel above the rank the loop ends, and ends well exactly if the rest is covered. *)
Lemma matches_loop_spec fuel pattern text pi ti star_pi star_ti :
  loop_ok pattern text pi ti star_pi star_ti → (loop_rank pattern text pi star_ti < fuel)%nat →
  match matches_loop fuel pattern text pi ti star_pi star_ti with
  | AtEnd p => (p ≤ length pattern)%nat ∧ (covers (drop p pattern) [] ↔ covered pattern text pi ti star_pi star_ti)
  | Mismatch => ¬ covered pattern text pi ti star_pi star_ti
  | NoFuel => False
  end.
Proof.
  revert pi ti star_pi star_ti. induction fuel as [|fuel IH]; intros pi ti star_pi star_ti Hok Hm; [lia|]. cbn [matches_loop].
  pose proof Hok as (Hp & Ht & Hs). pose proof (loop_ok_ti _ _ _ _ _ _ Hok) as Hst. destruct (text !! ti) as [tc|] eqn:Htc.
  2: { apply lookup_ge_None in Htc. assert (ti = length text) as -> by lia. split; [done|]. unfold covered. rewrite drop_all.
       pose proof (no_retry_at_end _ _ _ _ _ Hok). tauto. }
  pose proof (lookup_lt_Some _ _ _ Htc) as Htl.
  assert (Hback : ¬ covers (drop pi pattern) (drop ti text) →
    match match star_pi with Some sp => matches_loop fuel pattern text (sp + 1) (star_ti + 1) star_pi (star_ti + 1) | None => Mismatch end with
    | AtEnd p => (p ≤ length pattern)%nat ∧ (covers (drop p pattern) [] ↔ covered pattern text pi ti star_pi star_ti)
    | Mismatch => ¬ covered pattern text pi ti star_pi star_ti
    | NoFuel => False
    end).
  { intros Hno. destruct star_pi as [sp|]; [|unfold covered; cbn; tauto]. destruct Hs as (Hsp & _).
    assert (Hok' : loop_ok pattern text (sp + 1) (star_ti + 1) (Some sp) (star_ti + 1)).
    { split_and!; [lia|lia|done|]. exists 0%nat. split; [lia|constructor]. }
    specialize (IH _ _ _ _ Hok'). pose proof (retry_step pattern text sp star_ti ltac:(lia)) as Hr.
    assert (Hm' : (loop_rank pattern text (sp + 1) (star_ti + 1) < fuel)%nat) by (unfold loop_rank in *; nia). specialize (IH Hm').
    unfold covered at 1 2. destruct (matches_loop _ _ _ _ _ _ _); [|tauto..]. destruct IH. split; [done|]. tauto. }
  destruct (pattern !! pi) as [pc|] eqn:Hpc.
  2: { apply Hback. apply lookup_ge_None in Hpc. rewrite drop_ge, (drop_S _ _ _ Htc), covers_nil_l by done. done. }
  case_decide as Hstar; [subst pc|destruct (eat pattern pi pc tc) as [p|] eqn:He].
  - assert (Hpl := lookup_lt_Some _ _ _ Hpc). assert (Hok' : loop_ok pattern text (pi + 1) ti (Some pi) ti).
    { split_and!; [lia|lia|done|]. exists 0%nat. split; [lia|constructor]. }
    specialize (IH _ _ _ _ Hok'). assert (Hm' : (loop_rank pattern text (pi + 1) ti < fuel)%nat) by (unfold loop_rank in *; nia).
    specialize (IH Hm'). pose proof (star_covered _ _ _ _ _ _ Hok Hpc). destruct (matches_loop _ _ _ _ _ _ _); [|tauto..]. destruct IH. split; [done|]. tauto.
  - destruct (eat_covered _ _ _ _ _ _ _ _ _ Hok Hpc Hstar Htc He) as [Hok' Hc]. pose proof (eat_bounds _ _ _ _ _ Hpc He).
    specialize (IH _ _ _ _ Hok'). assert (Hm' : (loop_rank pattern text p star_ti < fuel)%nat) by (unfold loop_rank in *; nia).
    specialize (IH Hm'). destruct (matches_loop _ _ _ _ _ _ _); [|tauto..]. destruct IH. split; [done|]. tauto.
  - apply Hback. rewrite (drop_S _ _ _ Htc), (eat_spec pattern pi pc tc) by done. rewrite He. by intros (? & ? & _).
Qed.

Lemma skip_trailing_spec fuel pattern pi :
  (pi ≤ length pattern)%nat → (length pattern - pi ≤ fuel)%nat →
  skip_trailing fuel pattern pi = length pattern ↔ covers (drop pi pattern) [].
Proof.
  revert pi. induction fuel as [|fuel IH]; intros pi Hp Hf; cbn [skip_trailing].
  { assert (pi = length pattern) as -> by lia. rewrite drop_all. split; [constructor|done]. }
  case_decide as Hst.
  - pose proof (lookup_lt_Some _ _ _ Hst). rewrite IH by lia. rewrite (drop_S _ _ _ Hst), covers_star, Nat.add_1_r. split.
    + intros Hc. exists 0%nat. split; [done|]. by rewrite drop_nil.
    + intros (k & _ & Hc). by rewrite drop_nil in Hc.
  - destruct (pattern !! pi) as [pc|] eqn:Hpc.
    + pose proof (lookup_lt_Some _ _ _ Hpc). split; [intros ->; lia|]. intros Hc. by apply (covers_piece_nil _ _ pc) in Hc; [|done|congruence].
    + apply lookup_ge_None in Hpc. assert (pi = length pattern) as -> by lia. rewrite drop_all. split; [constructor|done].
Qed.

(** The matcher of PSUBSCRIBE decides the meaning of patterns, and its loop always ends with a verdict. *)
Theorem channel_match_correct pattern text :
  (matches pattern text = true ↔ covers pattern text) ∧
  matches_loop (matches_fuel pattern text) pattern text 0 0 None 0 ≠ NoFuel.
Proof.
  assert (Hok : loop_ok pattern text 0 0 None 0) by (split_and!; [lia|lia|done]).
  pose proof (matches_loop_spec (matches_fuel pattern text) _ _ _ _ _ _ Hok) as H.
  specialize (H ltac:(unfold loop_rank, matches_fuel; nia)). unfold matches, covered in *. cbn [can_retry] in H. rewrite !drop_0 in H.
  destruct (matches_loop _ _ _ _ _ _ _) as [p| |]; (split; [|done]); [|split; [done|tauto]|done].
  destruct H as [Hp H]. rewrite bool_decide_eq_true, skip_trailing_spec by lia. tauto.
Qed.
