(* ===== verification/Text.v ===== *)
(** * Text of the Rust standard library

    [lines], [split_whitespace], [join], ASCII case and the order of strings, with the laws that
    line-based formats rely on. *)

From S2P Require Import Prelude RustStd.
From Stdlib Require Import Lia.
Local Open Scope Z_scope.

(** ** The functions *)

(** [char::to_ascii_lowercase] and [str::to_ascii_lowercase] *)
Definition lower_char (c : Z) : Z := if (65 <=? c) && (c <=? 90) then c + 32 else c.
Definition to_ascii_lowercase (s : Str) : Str := lower_char <$> s.

(** [str::to_uppercase] of the standard library, which follows the tables of Unicode. *)
Class Uppercase : Type := to_uppercase : Str → Str.

(** [str::eq_ignore_ascii_case] *)
Definition eq_ignore_ascii_case (a b : Str) : bool := bool_decide (to_ascii_lowercase a = to_ascii_lowercase b).

(** [str::trim_start_matches] on a character *)
Fixpoint trim_start_matches (d : Z) (s : Str) : Str :=
  match s with
  | c :: r => if c =? d then trim_start_matches d r else s
  | [] => []
  end.

(** [str::lines]: [cur] holds the current line, reversed; a line feed ends it, together with one
    carriage return in front of it. *)
Fixpoint lines_from (cur s : Str) : list Str :=
  match s with
  | [] => match cur with [] => [] | _ => [reverse cur] end
  | c :: r =>
    if c =? 10 then reverse (match cur with 13 :: cur => cur | _ => cur end) :: lines_from [] r
    else lines_from (c :: cur) r
  end.

Definition lines (s : Str) : list Str := lines_from [] s.

(** [str::split_whitespace] *)
Fixpoint words_from (cur s : Str) : list Str :=
  match s with
  | [] => match cur with [] => [] | _ => [reverse cur] end
  | c :: r =>
    if is_whitespace c then match cur with [] => words_from [] r | _ => reverse cur :: words_from [] r end
    else words_from (c :: cur) r
  end.

Definition split_whitespace (s : Str) : list Str := words_from [] s.

(** [[&str]::join] *)
Fixpoint join (sep : Str) (l : list Str) : Str :=
  match l with
  | [] => []
  | [x] => x
  | x :: l => x ++ sep ++ join sep l
  end.

(** The order of [String]: that of the bytes, which for UTF-8 is that of the characters. *)
Definition str_le (a b : Str) : Prop := cmp_list Z.compare a b ≠ Gt.
#[global] Instance str_le_dec : RelDecision str_le.
Proof. intros a b. unfold str_le. destruct (cmp_list Z.compare a b); [left|left|right]; congruence. Defined.

Definition sort_strings (l : list Str) : list Str := merge_sort str_le l.

(** ** Words *)

(** A word has a character, and none of them is white space. *)
Definition solid (s : Str) : bool := forallb (λ c, negb (is_whitespace c)) s.
Definition word (s : Str) : bool := solid s && negb (bool_decide (s = [])).

Definition space : Str := [32].

Lemma solid_app a b : solid (a ++ b) = solid a && solid b.
Proof. apply forallb_app. Qed.

Lemma solid_char s c : solid s = true → c ∈ s → is_whitespace c = false.
Proof. intros H Hc. pose proof (forallb_elem _ _ H c Hc) as E. by apply negb_true_iff in E. Qed.

Lemma word_solid s : word s = true → solid s = true ∧ s ≠ [].
Proof. intros [H1 H2]%andb_true_iff. split; [done|]. by apply negb_true_iff, bool_decide_eq_false_1 in H2. Qed.

Lemma word_intro s : solid s = true → s ≠ [] → word s = true.
Proof. intros H1 H2. unfold word. by rewrite H1, bool_decide_false. Qed.

Lemma word_cons c s : is_whitespace c = false → solid s = true → word (c :: s) = true.
Proof. intros H1 H2. apply word_intro; [|done]. unfold solid in *. cbn [forallb]. by rewrite H1. Qed.

Lemma words_from_solid cur s r :
  solid s = true → words_from cur (s ++ r) = words_from (reverse s ++ cur) r.
Proof.
  revert cur. induction s as [|c s IH]; intros cur H; [done|]. unfold solid in *. cbn [forallb app words_from] in *.
  apply andb_true_iff in H as [Hc Hs]. apply negb_true_iff in Hc. rewrite Hc, IH by done.
  by rewrite reverse_cons, <- app_assoc.
Qed.

Lemma split_join l : Forall (λ x, word x = true) l → split_whitespace (join space l) = l.
Proof.
  assert (R : ∀ x : Str, x ≠ [] → reverse x = [] → False).
  { intros x Hx E. apply Hx. rewrite <- (reverse_involutive x), E. done. }
  unfold split_whitespace. induction 1 as [|x l Hx Hl IH]; [done|]. apply word_solid in Hx as [Hs Hne].
  destruct l as [|y l]; cbn [join].
  - rewrite <- (app_nil_r x) at 1. rewrite words_from_solid, app_nil_r by done. cbn [words_from].
    destruct (reverse x) eqn:E; [by destruct (R x)|]. by rewrite <- E, reverse_involutive.
  - rewrite words_from_solid, app_nil_r by done. cbn [words_from app space]. change (is_whitespace 32) with true. cbn iota.
    destruct (reverse x) eqn:E; [by destruct (R x)|]. rewrite <- E, reverse_involutive. by f_equal.
Qed.

Lemma join_app_cons sep x l : l ≠ [] → join sep (x :: l) = x ++ sep ++ join sep l.
Proof. by destruct l. Qed.

Lemma join_app sep l1 l2 : l1 ≠ [] → l2 ≠ [] → join sep (l1 ++ l2) = join sep l1 ++ sep ++ join sep l2.
Proof.
  intros H1 H2. induction l1 as [|x l1 IH]; [done|]. destruct l1 as [|y l1].
  - cbn [app]. by rewrite join_app_cons.
  - change ((x :: y :: l1) ++ l2) with (x :: ((y :: l1) ++ l2)). rewrite (join_app_cons sep x (y :: l1)) by done.
    rewrite (join_app_cons sep x (_ ++ _)) by done. rewrite IH by done. by rewrite <- !app_assoc.
Qed.

(** ** Lines *)

Lemma lines_from_line cur s r :
  10 ∉ s → lines_from cur (s ++ r) = lines_from (reverse s ++ cur) r.
Proof.
  revert cur. induction s as [|c s IH]; intros cur H; [done|]. apply not_elem_of_cons in H as [Hc Hs]. cbn [app lines_from].
  destruct (Z.eqb_spec c 10); [congruence|]. rewrite IH by done. by rewrite reverse_cons, <- app_assoc.
Qed.

Definition plain_line (s : Str) : Prop := (10 ∉ s) ∧ last s ≠ Some 13.

Lemma lines_join l :
  Forall plain_line l → l ≠ [] → lines (join [10] l ++ [10]) = l.
Proof.
  unfold lines. assert (E : ∀ x r, plain_line x → lines_from [] (x ++ 10 :: r) = x :: lines_from [] r).
  { intros x r [H10 H13]. rewrite lines_from_line, app_nil_r by done. cbn [lines_from Z.eqb Pos.eqb]. f_equal.
    rewrite <- head_reverse in H13. destruct (reverse x) as [|c y] eqn:Er.
    - by rewrite <- (reverse_involutive x), Er.
    - cbn [head] in H13. transitivity (reverse (c :: y)); [|by rewrite <- Er, reverse_involutive]. f_equal.
      destruct c as [|p|p]; try done. repeat (destruct p as [p|p|]; try done). }
  induction 1 as [|x l Hx Hl IH]; [done|]. intros _. destruct l as [|y l]; cbn [join].
  - by rewrite (E x []).
  - rewrite <- !app_assoc. cbn [app]. rewrite E by done. f_equal. by apply IH.
Qed.

(** ** Trimming *)

Lemma trim_start_id c s : is_whitespace c = false → trim_start (c :: s) = c :: s.
Proof. intros H. cbn [trim_start]. by rewrite H. Qed.

Lemma trim_ends c s d : is_whitespace c = false → last (c :: s) = Some d → is_whitespace d = false → trim (c :: s) = c :: s.
Proof.
  intros Hc Hl Hd. unfold trim. rewrite trim_start_id by done. rewrite <- head_reverse in Hl.
  destruct (reverse (c :: s)) as [|e r] eqn:E; [done|]. injection Hl as ->. rewrite trim_start_id by done.
  by rewrite <- E, reverse_involutive.
Qed.

(** ** Lines of words *)

Lemma words_from_words cur s : solid cur = true → Forall (λ x, word x = true) (words_from cur s).
Proof.
  assert (R : ∀ c y, solid (c :: y) = true → word (reverse (c :: y)) = true).
  { intros c y H. apply word_intro.
    - unfold solid. apply forallb_forall. intros x Hx%list_elem_of_In. rewrite elem_of_reverse in Hx.
      apply (forallb_elem _ _ H x Hx).
    - rewrite reverse_cons. by destruct (reverse y). }
  revert cur. induction s as [|c s IH]; intros cur H; cbn [words_from].
  - destruct cur; [constructor|]. constructor; [by apply R|constructor].
  - destruct (is_whitespace c) eqn:Ec.
    + destruct cur; [by apply IH|]. constructor; [by apply R|by apply IH].
    + apply IH. unfold solid in *. cbn [forallb]. by rewrite Ec.
Qed.

Lemma split_words s : Forall (λ x, word x = true) (split_whitespace s).
Proof. by apply words_from_words. Qed.

Lemma elem_of_join c l : c ∈ join space l → c = 32 ∨ ∃ w, w ∈ l ∧ c ∈ w.
Proof.
  induction l as [|x l IH]; [by intros ?%not_elem_of_nil|]. destruct l as [|y l].
  - cbn [join]. intros H. right. exists x. split; [left|done].
  - rewrite join_app_cons by done. rewrite !elem_of_app. intros [H|[H|H]].
    + right. exists x. split; [left|done].
    + left. unfold space in H. by apply list_elem_of_singleton in H.
    + destruct (IH H) as [?|(w & Hw & Hc)]; [by left|]. right. exists w. split; [by right|done].
Qed.

Lemma last_join l : Forall (λ x, word x = true) l → l ≠ [] → ∃ c, last (join space l) = Some c ∧ is_whitespace c = false.
Proof.
  intros H. induction H as [|x l Hx Hl IH]; [done|]. intros _. apply word_solid in Hx as [Hs Hne]. destruct l as [|y l].
  - cbn [join]. destruct (last x) as [c|] eqn:E; [|by apply last_None in E]. exists c. split; [done|].
    apply (solid_char x); [done|]. apply last_Some in E as [l' ->]. apply elem_of_app. right. by left.
  - destruct IH as (c & E & Hc); [done|]. exists c. rewrite join_app_cons by done. by rewrite !last_app, E.
Qed.

Lemma join_plain l : Forall (λ x, word x = true) l → plain_line (join space l).
Proof.
  intros H. destruct (decide (l = [])) as [->|Hne].
  { split; [by apply not_elem_of_nil|done]. }
  split.
  - intros [?|(w & Hw & Hc)]%elem_of_join; [done|]. rewrite Forall_forall in H. apply H, word_solid in Hw as [Hw _].
    by apply (solid_char w) in Hc.
  - destruct (last_join l H Hne) as (c & -> & Hc). intros [= ->]. done.
Qed.

Lemma trim_join x l c r : x = c :: r → Forall (λ x, word x = true) (x :: l) → trim (join space (x :: l)) = join space (x :: l).
Proof.
  intros -> H. destruct (last_join _ H) as (d & E & Hd); [done|].
  assert (Hc : is_whitespace c = false).
  { inversion H as [|? ? Hx _]; subst. apply word_solid in Hx as [Hx _]. apply (solid_char _ c Hx). left. }
  assert (J : ∃ s, join space ((c :: r) :: l) = c :: s) by (destruct l; [by exists r|eexists; by rewrite join_app_cons]).
  destruct J as [s J]. rewrite J in *. by eapply trim_ends.
Qed.

(** ** [String::from_utf8_lossy]

    Each maximal prefix of an ill-formed sequence becomes one U+FFFD. *)

Definition replacement : Z := 65533.

(** The second byte a three- or four-byte sequence may have after its first. *)
Definition second_ok (c0 c1 : Z) : bool :=
  (if c0 =? 224 then 160 <=? c1 else if c0 =? 240 then 144 <=? c1 else 128 <=? c1) &&
  (if c0 =? 237 then c1 <? 160 else if c0 =? 244 then c1 <? 144 else c1 <? 192).

Fixpoint from_utf8_lossy (l : Bytes) : Str :=
  match l with
  | [] => []
  | b0 :: l1 =>
    let c0 := u8 b0 in
    if c0 <? 128 then c0 :: from_utf8_lossy l1
    else if (194 <=? c0) && (c0 <? 224) then
      match l1 with
      | b1 :: l2 =>
        if is_cont b1 then ((c0 - 192) * 64 + (u8 b1 - 128)) :: from_utf8_lossy l2
        else replacement :: from_utf8_lossy l1
      | [] => [replacement]
      end
    else if (224 <=? c0) && (c0 <? 240) then
      match l1 with
      | b1 :: l2 =>
        if second_ok c0 (u8 b1) then
          match l2 with
          | b2 :: l3 =>
            if is_cont b2 then ((c0 - 224) * 4096 + (u8 b1 - 128) * 64 + (u8 b2 - 128)) :: from_utf8_lossy l3
            else replacement :: from_utf8_lossy l2
          | [] => [replacement]
          end
        else replacement :: from_utf8_lossy l1
      | [] => [replacement]
      end
    else if (240 <=? c0) && (c0 <? 245) then
      match l1 with
      | b1 :: l2 =>
        if second_ok c0 (u8 b1) then
          match l2 with
          | b2 :: l3 =>
            if is_cont b2 then
              match l3 with
              | b3 :: l4 =>
                if is_cont b3 then
                  ((c0 - 240) * 262144 + (u8 b1 - 128) * 4096 + (u8 b2 - 128) * 64 + (u8 b3 - 128))
                    :: from_utf8_lossy l4
                else replacement :: from_utf8_lossy l3
              | [] => [replacement]
              end
            else replacement :: from_utf8_lossy l2
          | [] => [replacement]
          end
        else replacement :: from_utf8_lossy l1
      | [] => [replacement]
      end
    else replacement :: from_utf8_lossy l1
  end.

(** A byte given by its value. *)
Lemma byte_of_Z_eq z b : z = u8 b → byte_of_Z z = b.
Proof. intros ->. apply byte_of_Z_u8. Qed.

Lemma encode_one b : u8 b < 128 → encode_char (u8 b) = [b].
Proof. intros H. unfold encode_char. rewrite (proj2 (Z.ltb_lt _ _) H). by rewrite byte_of_Z_u8. Qed.

Ltac encode_bytes :=
  unfold encode_char; repeat match goal with |- context [?x <? ?y] => destruct (Z.ltb_spec x y); try (exfalso; lia) end;
  repeat f_equal; apply byte_of_Z_eq; Z.to_euclidean_division_equations; lia.

Lemma encode_two b0 b1 :
  194 ≤ u8 b0 < 224 → 128 ≤ u8 b1 < 192 → encode_char ((u8 b0 - 192) * 64 + (u8 b1 - 128)) = [b0; b1].
Proof. intros H0 H1. encode_bytes. Qed.

Lemma encode_three b0 b1 b2 :
  224 ≤ u8 b0 < 240 → 128 ≤ u8 b1 < 192 → 128 ≤ u8 b2 < 192 → 224 < u8 b0 ∨ 160 ≤ u8 b1 →
  encode_char ((u8 b0 - 224) * 4096 + (u8 b1 - 128) * 64 + (u8 b2 - 128)) = [b0; b1; b2].
Proof. intros H0 H1 H2 H3. encode_bytes. Qed.

Lemma encode_four b0 b1 b2 b3 :
  240 ≤ u8 b0 < 245 → 128 ≤ u8 b1 < 192 → 128 ≤ u8 b2 < 192 → 128 ≤ u8 b3 < 192 → 240 < u8 b0 ∨ 144 ≤ u8 b1 →
  encode_char ((u8 b0 - 240) * 262144 + (u8 b1 - 128) * 4096 + (u8 b2 - 128) * 64 + (u8 b3 - 128)) = [b0; b1; b2; b3].
Proof. intros H0 H1 H2 H3 H4. encode_bytes. Qed.

Lemma as_bytes_cons c s : as_bytes (c :: s) = encode_char c ++ as_bytes s.
Proof. done. Qed.

Ltac second_lia :=
  unfold second_ok, is_cont in *;
  repeat match goal with
  | |- context [?x =? ?y] => destruct (Z.eqb_spec x y)
  | H : context [?x =? ?y] |- _ => destruct (Z.eqb_spec x y)
  end; lia.

Lemma is_cont_range b : is_cont b = true → 128 ≤ u8 b < 192.
Proof. unfold is_cont. lia. Qed.

(** The cases of a decoded string: a first character of one to four bytes and the rest. *)
Inductive decoded : Bytes → Str → Prop :=
| dec_nil : decoded [] []
| dec_one b l s : u8 b < 128 → from_utf8 l = Some s → decoded (b :: l) (u8 b :: s)
| dec_two b0 b1 l s : 194 ≤ u8 b0 < 224 → is_cont b1 = true → from_utf8 l = Some s →
    decoded (b0 :: b1 :: l) (((u8 b0 - 192) * 64 + (u8 b1 - 128)) :: s)
| dec_three b0 b1 b2 l s : 224 ≤ u8 b0 < 240 → is_cont b1 = true → is_cont b2 = true → second_ok (u8 b0) (u8 b1) = true →
    from_utf8 l = Some s →
    decoded (b0 :: b1 :: b2 :: l) (((u8 b0 - 224) * 4096 + (u8 b1 - 128) * 64 + (u8 b2 - 128)) :: s)
| dec_four b0 b1 b2 b3 l s : 240 ≤ u8 b0 < 245 → is_cont b1 = true → is_cont b2 = true → is_cont b3 = true →
    second_ok (u8 b0) (u8 b1) = true → from_utf8 l = Some s →
    decoded (b0 :: b1 :: b2 :: b3 :: l)
      (((u8 b0 - 240) * 262144 + (u8 b1 - 128) * 4096 + (u8 b2 - 128) * 64 + (u8 b3 - 128)) :: s).

Lemma from_utf8_cases l s : from_utf8 l = Some s → decoded l s.
Proof.
  destruct l as [|b0 l1]; simpl; [intros [= <-]; constructor|].
  destruct (u8 b0 <? 128) eqn:E0; [intros (s' & H & ->)%fmap_Some; constructor; [lia|done]|].
  destruct l1 as [|b1 l2]; [done|]. destruct (_ && _ && is_cont b1) eqn:E1.
  { intros (s' & H & ->)%fmap_Some. apply andb_true_iff in E1 as [E1 Hc]. constructor; [lia|done..]. }
  destruct l2 as [|b2 l3]; [done|]. destruct (_ && _ && is_cont b1 && is_cont b2 && _ && _) eqn:E2.
  { intros (s' & H & ->)%fmap_Some. repeat (apply andb_true_iff in E2 as [E2 ?]).
    constructor; [lia|done|done| |done]. second_lia. }
  destruct l3 as [|b3 l4]; [done|]. destruct (_ && _ && is_cont b1 && is_cont b2 && is_cont b3 && _ && _) eqn:E3; [|done].
  intros (s' & H & ->)%fmap_Some. repeat (apply andb_true_iff in E3 as [E3 ?]).
  constructor; [lia|done|done|done| |done]. second_lia.
Qed.

(** On valid UTF-8 the lossy conversion is the exact one, and encoding gives the bytes back. *)
Lemma utf8_exact l s : from_utf8 l = Some s → from_utf8_lossy l = s ∧ as_bytes s = l.
Proof.
  remember (length l) as n eqn:Hn. assert (Hle : (length l ≤ n)%nat) by lia. clear Hn.
  revert l s Hle. induction n as [|n IH]; intros l s Hle H%from_utf8_cases.
  { destruct H; simpl in Hle; by try lia. }
  destruct H as [|b l s Hb H|b0 b1 l s H0 H1 H|b0 b1 b2 l s H0 H1 H2 Hs H|b0 b1 b2 b3 l s H0 H1 H2 H3 Hs H]; [done|..];
    (destruct (IH l s) as [Hl Hb']; [simpl in Hle; lia|done|]); rewrite as_bytes_cons, Hb'.
  - simpl. by rewrite (proj2 (Z.ltb_lt _ _) Hb), Hl, encode_one.
  - rewrite encode_two by (by try apply is_cont_range). split; [|done]. simpl.
    rewrite (proj2 (Z.ltb_ge _ _) (ltac:(lia) : 128 ≤ u8 b0)), H1.
    rewrite (proj2 (Z.leb_le _ _) (proj1 H0)), (proj2 (Z.ltb_lt _ _) (proj2 H0)). simpl. by rewrite Hl.
  - rewrite encode_three by (try apply is_cont_range; try done; second_lia). split; [|done]. simpl.
    rewrite (proj2 (Z.ltb_ge _ _) (ltac:(lia) : 128 ≤ u8 b0)), (proj2 (Z.ltb_ge _ _) (ltac:(lia) : 224 ≤ u8 b0)), andb_false_r.
    rewrite (proj2 (Z.leb_le _ _) (proj1 H0)), (proj2 (Z.ltb_lt _ _) (proj2 H0)). simpl. by rewrite Hs, H2, Hl.
  - rewrite encode_four by (try apply is_cont_range; try done; second_lia). split; [|done]. simpl.
    rewrite (proj2 (Z.ltb_ge _ _) (ltac:(lia) : 128 ≤ u8 b0)), (proj2 (Z.ltb_ge _ _) (ltac:(lia) : 224 ≤ u8 b0)), andb_false_r.
    rewrite (proj2 (Z.ltb_ge _ _) (ltac:(lia) : 240 ≤ u8 b0)), andb_false_r.
    rewrite (proj2 (Z.leb_le _ _) (proj1 H0)), (proj2 (Z.ltb_lt _ _) (proj2 H0)). simpl. by rewrite Hs, H2, H3, Hl.
Qed.
