(* ===== verification/Deadlock.v ===== *)
(** * The deadlock detector ([deadlock.rs])

    The detector keeps three tables under one lock order: which client holds each resource
    ([held_locks]), what each client waits for ([waiting_for]) and the wait-for graph
    ([wait_graph]).  Every public operation is one definition here, from the bookkeeping of
    acquisitions, releases and waits to cycle detection by depth-first search, victim selection,
    the background monitor's tick, and the export and merge of snapshots between processes.

    An [Instant] is a number of nanoseconds on the monotonic clock; an operation reads the clock
    once, and the reading is its argument [now].  What the hasher decides (the order in which maps
    and sets are iterated) and the earliest [Instant] the platform can represent are the class
    [DetectorEnv]; [DetectorLaws] states that iteration visits every entry once. *)

From S2P Require Import Prelude RustStd Text.
From Stdlib Require Import Lia.

Local Open Scope Z_scope.

(** ** Time *)

Abbreviation Instant := Z.

Definition from_millis (ms : Z) : Z := ms * 1000000.
Definition as_millis (d : Z) : Z := wrap_u64 (d / 1000000).
(** [Instant::elapsed] is zero for an instant in the future. *)
Definition elapsed (now t : Instant) : Z := (now - t) `max` 0.

(** ** Data *)

Record LockInfo : Type := mkLockInfo {
  resource : Str;
  client_id : Bytes;
  timestamp : Instant;
  ttl_ms : Z
}.

Record HeldLockSnapshot : Type := mkHeldLockSnapshot {
  hs_resource : Str; hs_client_id : Str; hs_ttl_ms : Z; held_for_ms : Z
}.

Record WaitEdgeSnapshot : Type := mkWaitEdgeSnapshot {
  ws_waiter : Str; ws_holder : Str; ws_resource : Str; ws_elapsed_ms : Z
}.

Record OrphanWaitSnapshot : Type := mkOrphanWaitSnapshot {
  os_waiter : Str; os_resource : Str; os_elapsed_ms : Z
}.

Record DeadlockGraphSnapshot : Type := mkSnapshot {
  sn_held : list HeldLockSnapshot;
  sn_waits : list WaitEdgeSnapshot;
  orphan_waits : list OrphanWaitSnapshot;
  source_id : option Str
}.

Inductive DeadlockStatus : Type :=
| NoDeadlock
| Deadlock (cycle : list Bytes) (resources : list Str).

Inductive VictimSelectionStrategy : Type := Youngest | Oldest | FewestLocks.

Record WaitEdge : Type := mkWaitEdge {
  waiter : Bytes; holder : Bytes; edge_resource : Str; edge_timestamp : Instant
}.

Record DeadlockStats : Type := mkStats {
  held_locks_count : nat; waiting_clients_count : nat; wait_graph_edges : nat
}.

Record ConsistentDeadlockView : Type := mkView {
  status : DeadlockStatus; stats : DeadlockStats; snapshot : DeadlockGraphSnapshot
}.

Record LongWaitInfo : Type := mkLongWait {
  lw_waiter : Bytes; lw_holder : Bytes; lw_resource : Str; wait_duration_ms : Z
}.

Record DeadlockDetector : Type := mkDetector {
  held_locks : gmap Str LockInfo;
  waiting_for : gmap Bytes (list LockInfo);
  wait_graph : list WaitEdge;
  max_wait_time_ms : Z;
  auto_resolve : bool;
  victim_strategy : VictimSelectionStrategy
}.

#[global] Instance LockInfo_eq_dec : EqDecision LockInfo.
Proof. solve_decision. Defined.
#[global] Instance WaitEdge_eq_dec : EqDecision WaitEdge.
Proof. solve_decision. Defined.
#[global] Instance DeadlockStatus_eq_dec : EqDecision DeadlockStatus.
Proof. solve_decision. Defined.

Class DetectorEnv : Type := {
  held_iter : gmap Str LockInfo → list (Str * LockInfo);
  waiting_iter : gmap Bytes (list LockInfo) → list (Bytes * list LockInfo);
  clients_iter : gset Bytes → list Bytes;
  instant_min : Instant
}.

Class DetectorLaws `{!DetectorEnv} : Prop := {
  held_iter_perm (m : gmap Str LockInfo) : held_iter m ≡ₚ map_to_list m;
  waiting_iter_perm (m : gmap Bytes (list LockInfo)) : waiting_iter m ≡ₚ map_to_list m;
  clients_iter_perm (s : gset Bytes) : clients_iter s ≡ₚ elements s
}.

(** An environment for closed examples: maps iterate in the order of their keys' encodings, clients
    in the order [first] lists them. *)
Definition listed_env (first : list Bytes) : DetectorEnv := {|
  held_iter m := map_to_list m;
  waiting_iter m := map_to_list m;
  clients_iter s := filter (λ c, c ∈ s) (remove_dups first) ++ elements (s ∖ list_to_set first);
  instant_min := 0
|}.

(** ** Clients, locks, strategies *)

Definition client_id_to_string (id : Bytes) : Str := from_utf8_lossy id.
Definition client_id_from_string (s : Str) : Bytes := as_bytes s.

Definition new_lock (now : Instant) (r : Str) (c : Bytes) (ttl : Z) : LockInfo := mkLockInfo r c now ttl.

Definition is_expired (now : Instant) (self : LockInfo) : bool :=
  from_millis (ttl_ms self) <? elapsed now (timestamp self).

Definition remaining_ttl_ms (now : Instant) (self : LockInfo) : Z :=
  sat_sub_u64 (ttl_ms self) (as_millis (elapsed now (timestamp self))).

Definition strategy_as_str (s : VictimSelectionStrategy) : Str :=
  match s with
  | Youngest => str "youngest"
  | Oldest => str "oldest"
  | FewestLocks => str "fewest-locks"
  end.

Definition strategy_from_str (s : Str) : result Str VictimSelectionStrategy :=
  let other := to_ascii_lowercase (trim s) in
  if decide (other = str "youngest") then Ok Youngest
  else if decide (other = str "oldest") then Ok Oldest
  else if decide (other = str "fewest-locks") then Ok FewestLocks
  else if decide (other = str "fewest_locks") then Ok FewestLocks
  else if decide (other = str "fewestlocks") then Ok FewestLocks
  else Err (str "unknown victim strategy '" ++ other ++ str "'; expected youngest|oldest|fewest-locks").

Definition new_with_strategy (max_wait : Z) (auto : bool) (s : VictimSelectionStrategy) : DeadlockDetector :=
  mkDetector ∅ ∅ [] max_wait auto s.
Definition new (max_wait : Z) (auto : bool) : DeadlockDetector := new_with_strategy max_wait auto Youngest.
Definition default_detector : DeadlockDetector := new 30000 false.

Definition with_victim_strategy (self : DeadlockDetector) (s : VictimSelectionStrategy) : DeadlockDetector :=
  mkDetector (held_locks self) (waiting_for self) (wait_graph self) (max_wait_time_ms self) (auto_resolve self) s.

(** The three tables replaced, the configuration kept. *)
Definition with_tables (self : DeadlockDetector) (held : gmap Str LockInfo)
    (waiting : gmap Bytes (list LockInfo)) (graph : list WaitEdge) : DeadlockDetector :=
  mkDetector held waiting graph (max_wait_time_ms self) (auto_resolve self) (victim_strategy self).

(** [HashMap::retain] with a closure that prunes each wait list and drops the empty ones. *)
Definition retain_waits (keep : LockInfo → bool) (waiting : gmap Bytes (list LockInfo)) : gmap Bytes (list LockInfo) :=
  omap (λ l, let l := filter (λ i, keep i = true) l in if decide (l = []) then None else Some l) waiting.

(** The key edges are deduplicated by. *)
Abbreviation edge_key := (λ e : WaitEdge, (waiter e, edge_resource e, holder e)).

Section operations.
Context {env : DetectorEnv}.

(** ** Acquisition, release, waiting *)

(** The rewriting loop: edges of [r] now point at [c], self-waits go, duplicates go. *)
Fixpoint rewrite_edges (r : Str) (c : Bytes) (old : list WaitEdge) (seen : gset (Bytes * Str * Bytes))
    (graph : list WaitEdge) : gset (Bytes * Str * Bytes) * list WaitEdge :=
  match old with
  | [] => (seen, graph)
  | edge :: old =>
    if decide (edge_resource edge = r ∧ waiter edge = c) then rewrite_edges r c old seen graph
    else
      let edge := if decide (edge_resource edge = r)
                  then mkWaitEdge (waiter edge) c (edge_resource edge) (edge_timestamp edge) else edge in
      if decide (edge_key edge ∈ seen) then rewrite_edges r c old seen graph
      else rewrite_edges r c old ({[edge_key edge]} ∪ seen) (graph ++ [edge])
  end.

(** The relinking loop over the wait list of one client. *)
Fixpoint relink_list (r : Str) (c w : Bytes) (wait_list : list LockInfo)
    (acc : gset (Bytes * Str * Bytes) * list WaitEdge) : gset (Bytes * Str * Bytes) * list WaitEdge :=
  match wait_list with
  | [] => acc
  | info :: wait_list =>
    let '(seen, graph) := acc in
    if decide (resource info ≠ r) then relink_list r c w wait_list acc
    else if decide ((w, r, c) ∈ seen) then relink_list r c w wait_list acc
    else relink_list r c w wait_list
           ({[(w, r, c)]} ∪ seen, graph ++ [mkWaitEdge w c r (timestamp info)])
  end.

Definition relink_waiters (r : Str) (c : Bytes) (waiting : list (Bytes * list LockInfo))
    (acc : gset (Bytes * Str * Bytes) * list WaitEdge) : gset (Bytes * Str * Bytes) * list WaitEdge :=
  foldl (λ acc '(w, wait_list), if decide (w = c) then acc else relink_list r c w wait_list acc) acc waiting.

Definition stop_waiting (r : Str) (c : Bytes) (waiting : gmap Bytes (list LockInfo)) : gmap Bytes (list LockInfo) :=
  match waiting !! c with
  | Some wait_list =>
    let wait_list := filter (λ info, resource info ≠ r) wait_list in
    if decide (wait_list = []) then delete c waiting else <[c := wait_list]> waiting
  | None => waiting
  end.

Definition record_lock_acquired (now : Instant) (r : Str) (c : Bytes) (ttl : Z) (self : DeadlockDetector) : DeadlockDetector :=
  let held := <[r := new_lock now r c ttl]> (held_locks self) in
  let waiting := stop_waiting r c (waiting_for self) in
  let '(seen, graph) := rewrite_edges r c (wait_graph self) ∅ [] in
  let '(_, graph) := relink_waiters r c (waiting_iter waiting) (seen, graph) in
  with_tables self held waiting graph.

Definition record_lock_released (r : Str) (c : Bytes) (self : DeadlockDetector) : DeadlockDetector :=
  match held_locks self !! r with
  | Some info =>
    if decide (client_id info = c) then
      with_tables self (delete r (held_locks self)) (waiting_for self)
        (filter (λ e, ¬ (edge_resource e = r ∧ holder e = c)) (wait_graph self))
    else self
  | None => self
  end.

Definition record_lock_wait (now : Instant) (r : Str) (c : Bytes) (ttl : Z) (self : DeadlockDetector) : DeadlockDetector :=
  let waiting := <[c := default [] (waiting_for self !! c) ++ [new_lock now r c ttl]]> (waiting_for self) in
  let graph := match held_locks self !! r with
               | Some info => wait_graph self ++ [mkWaitEdge c (client_id info) r now]
               | None => wait_graph self
               end in
  with_tables self (held_locks self) waiting graph.

Definition remove_from_waiting (c : Bytes) (self : DeadlockDetector) : DeadlockDetector :=
  with_tables self (held_locks self) (delete c (waiting_for self))
    (filter (λ e, waiter e ≠ c) (wait_graph self)).

(** ** Cycle detection *)

Abbreviation Adjacency := (gmap Bytes (list (Bytes * Str))).

Definition adjacency_of (graph : list WaitEdge) : Adjacency :=
  foldl (λ adj e, <[waiter e := default [] (adj !! waiter e) ++ [(holder e, edge_resource e)]]> adj) ∅ graph.

Record Dfs : Type := mkDfs {
  visited : gset Bytes; rec_stack : gset Bytes; path : list Bytes; resource_path : list Str
}.

Definition enter (node : Bytes) (s : Dfs) : Dfs :=
  mkDfs ({[node]} ∪ visited s) ({[node]} ∪ rec_stack s) (path s ++ [node]) (resource_path s).
Definition leave (node : Bytes) (s : Dfs) : Dfs :=
  mkDfs (visited s) (rec_stack s ∖ {[node]}) (removelast (path s)) (resource_path s).
Definition push_resource (r : Str) (s : Dfs) : Dfs :=
  mkDfs (visited s) (rec_stack s) (path s) (resource_path s ++ [r]).
Definition pop_resource (s : Dfs) : Dfs :=
  mkDfs (visited s) (rec_stack s) (path s) (removelast (resource_path s)).

(** The loop over the neighbours of a node, [visit] being the recursive call. *)
Fixpoint visit_neighbors (visit : Bytes → Dfs → bool * Dfs) (neighbors : list (Bytes * Str)) (s : Dfs) : bool * Dfs :=
  match neighbors with
  | [] => (false, s)
  | (neighbor, r) :: neighbors =>
    if decide (neighbor ∉ visited s) then
      let '(found, s) := visit neighbor (push_resource r s) in
      if found : bool then (true, s) else visit_neighbors visit neighbors (pop_resource s)
    else if decide (neighbor ∈ rec_stack s) then (true, push_resource r s)
    else visit_neighbors visit neighbors s
  end.

Fixpoint dfs_visit (fuel : nat) (adjacency : Adjacency) (node : Bytes) (s : Dfs) : bool * Dfs :=
  match fuel with
  | O => (false, s)
  | S fuel =>
    let '(found, s) := visit_neighbors (dfs_visit fuel adjacency) (default [] (adjacency !! node)) (enter node s) in
    if found : bool then (true, s) else (false, leave node s)
  end.

(** Each visit adds a client to [visited]: the start, or the end of some edge. *)
Definition dfs_fuel (adjacency : Adjacency) : nat :=
  S (S (length (concat (map_to_list adjacency).*2))).

(** [Iterator::position] for the first element equal to [x]. *)
Fixpoint position (x : Bytes) (l : list Bytes) : option nat :=
  match l with
  | [] => None
  | y :: l => if decide (y = x) then Some O else S <$> position x l
  end.

Definition find_cycle_dfs (start : Bytes) (adjacency : Adjacency) : option (list Bytes * list Str) :=
  let '(found, s) := dfs_visit (dfs_fuel adjacency) adjacency start (mkDfs ∅ ∅ [] []) in
  if found : bool then
    cycle_start ← position start (path s);
    Some (drop cycle_start (path s), drop cycle_start (resource_path s))
  else None.

Fixpoint detect_from (clients : list Bytes) (adjacency : Adjacency) : DeadlockStatus :=
  match clients with
  | [] => NoDeadlock
  | start :: clients =>
    match find_cycle_dfs start adjacency with
    | Some (cycle, resources) => Deadlock cycle resources
    | None => detect_from clients adjacency
    end
  end.

Definition detect_from_graph (graph : list WaitEdge) : DeadlockStatus :=
  let adjacency := adjacency_of graph in
  detect_from (clients_iter (dom adjacency)) adjacency.

(** ** Cleanup, statistics, export *)

Definition cleanup_expired_into (now : Instant) (self : DeadlockDetector) : DeadlockDetector :=
  let expired := filter (λ kv : Str * LockInfo, is_expired now kv.2 = true) (held_locks self) in
  let held := filter (λ kv : Str * LockInfo, is_expired now kv.2 = false) (held_locks self) in
  let expired_resources := dom expired in
  let max_wait := from_millis (max_wait_time_ms self) in
  let graph := filter (λ e, (edge_resource e ∉ expired_resources) ∧ elapsed now (edge_timestamp e) < max_wait)
                 (wait_graph self) in
  let waiting := retain_waits (λ info, negb (is_expired now info) && bool_decide (resource info ∉ expired_resources))
                   (waiting_for self) in
  with_tables self held waiting graph.

Definition detect_deadlock (now : Instant) (self : DeadlockDetector) : DeadlockStatus * DeadlockDetector :=
  let self := cleanup_expired_into now self in
  (detect_from_graph (wait_graph self), self).

Definition get_stats (self : DeadlockDetector) : DeadlockStats :=
  mkStats (size (held_locks self)) (size (waiting_for self)) (length (wait_graph self)).

Definition export_held (now : Instant) (info : LockInfo) : HeldLockSnapshot :=
  mkHeldLockSnapshot (resource info) (client_id_to_string (client_id info)) (ttl_ms info)
    (as_millis (elapsed now (timestamp info))).

Definition export_edge (now : Instant) (e : WaitEdge) : WaitEdgeSnapshot :=
  mkWaitEdgeSnapshot (client_id_to_string (waiter e)) (client_id_to_string (holder e)) (edge_resource e)
    (as_millis (elapsed now (edge_timestamp e))).

Definition export_orphans (now : Instant) (graph : list WaitEdge) (waiting : list (Bytes * list LockInfo)) : list OrphanWaitSnapshot :=
  '(w, wait_list) ← waiting;
  info ← wait_list;
  if existsb (λ e, bool_decide (waiter e = w ∧ edge_resource e = resource info)) graph then []
  else [mkOrphanWaitSnapshot (client_id_to_string w) (resource info) (as_millis (elapsed now (timestamp info)))].

Definition export_snapshot (now : Instant) (self : DeadlockDetector) : DeadlockGraphSnapshot :=
  mkSnapshot (export_held now <$> (held_iter (held_locks self)).*2)
    (export_edge now <$> wait_graph self)
    (export_orphans now (wait_graph self) (waiting_iter (waiting_for self)))
    None.

Definition collect_consistent_view (now : Instant) (cleanup : bool) (self : DeadlockDetector) : ConsistentDeadlockView * DeadlockDetector :=
  let self := if cleanup then cleanup_expired_into now self else self in
  (mkView (detect_from_graph (wait_graph self)) (get_stats self) (export_snapshot now self), self).

Definition get_held_locks (self : DeadlockDetector) : list LockInfo := (held_iter (held_locks self)).*2.

(** ** Victim selection *)

(** [Iterator::max_by_key] returns the last maximum, [min_by] the first minimum. *)
Definition max_by_key {A} (key : A → Z) (l : list A) : option A :=
  match l with
  | [] => None
  | x :: l => Some (foldl (λ best y, if key best <=? key y then y else best) x l)
  end.

Definition min_by {A} (cmp : A → A → comparison) (l : list A) : option A :=
  match l with
  | [] => None
  | x :: l => Some (foldl (λ best y, match cmp best y with Gt => y | _ => best end) x l)
  end.

(** Client, lock count, earliest and latest acquisition. *)
Record Candidate : Type := mkCandidate { cd_client : Bytes; cd_count : Z; cd_earliest : Instant; cd_latest : Instant }.

Definition candidate_of (infos : list LockInfo) (c : Bytes) : option Candidate :=
  foldl (λ acc info,
    if decide (client_id info = c) then
      Some (match acc with
            | Some a => mkCandidate c (cd_count a + 1)
                          (if cd_earliest a <=? timestamp info then cd_earliest a else timestamp info)
                          (if timestamp info <=? cd_latest a then cd_latest a else timestamp info)
            | None => mkCandidate c 1 (timestamp info) (timestamp info)
            end)
    else acc) None infos.

Definition pick (s : VictimSelectionStrategy) (candidates : list Candidate) : option Candidate :=
  match s with
  | Youngest => max_by_key cd_latest candidates
  | Oldest => min_by (λ a b, cd_earliest a ?= cd_earliest b) candidates
  | FewestLocks => min_by (λ a b, match cd_count a ?= cd_count b with
                                 | Eq => cd_latest b ?= cd_latest a
                                 | o => o
                                 end) candidates
  end.

Definition resolve_deadlock (cycle : list Bytes) (self : DeadlockDetector) : option Bytes :=
  if decide (cycle = []) then None
  else if negb (auto_resolve self) then None
  else cd_client <$> pick (victim_strategy self) (omap (candidate_of (held_iter (held_locks self)).*2) cycle).

(** ** Long waits, forced release *)

Definition check_long_waits (now : Instant) (self : DeadlockDetector) : list LongWaitInfo :=
  (λ e, mkLongWait (waiter e) (holder e) (edge_resource e) (as_millis (elapsed now (edge_timestamp e))))
  <$> filter (λ e, from_millis (max_wait_time_ms self) / 2 < elapsed now (edge_timestamp e)) (wait_graph self).

Definition held_resources_for_client (c : Bytes) (self : DeadlockDetector) : list Str :=
  (filter (λ kv : Str * LockInfo, client_id kv.2 = c) (held_iter (held_locks self))).*1.

Definition release_client_locks (c : Bytes) (self : DeadlockDetector) : list Str * DeadlockDetector :=
  let released := (filter (λ kv : Str * LockInfo, client_id kv.2 = c) (held_iter (held_locks self))).*1 in
  let held := filter (λ kv : Str * LockInfo, client_id kv.2 ≠ c) (held_locks self) in
  let graph := filter (λ e, waiter e ≠ c ∧ holder e ≠ c ∧ edge_resource e ∉ released) (wait_graph self) in
  let waiting := retain_waits (λ info, bool_decide (resource info ∉ released)) (delete c (waiting_for self)) in
  (released, with_tables self held waiting graph).

(** One tick of the task [spawn_monitor] starts. *)
Definition monitor_tick (now : Instant) (self : DeadlockDetector) : DeadlockDetector :=
  let '(status, self) := detect_deadlock now self in
  match status with
  | Deadlock cycle _ =>
    match resolve_deadlock cycle self with
    | Some victim => (release_client_locks victim self).2
    | None => self
    end
  | NoDeadlock => self
  end.

(** ** Merging a peer's snapshot *)

Definition merge_held (now : Instant) (remote : list HeldLockSnapshot) (held : gmap Str LockInfo) : gmap Str LockInfo :=
  foldl (λ held h,
    if decide (is_Some (held !! hs_resource h)) then held
    else
      let remaining_ttl := sat_sub_u64 (hs_ttl_ms h) (held_for_ms h) in
      if remaining_ttl =? 0 then held
      else <[hs_resource h := mkLockInfo (hs_resource h) (client_id_from_string (hs_client_id h)) now remaining_ttl]> held)
    held remote.

(** The holder an edge should name: the current one where it is known. *)
Definition current_holder (held : gmap Str LockInfo) (r : Str) (h : Bytes) : Bytes :=
  match held !! r with Some info => client_id info | None => h end.

Fixpoint reconcile (held : gmap Str LockInfo) (old : list WaitEdge) (seen : gset (Bytes * Str * Bytes))
    (graph : list WaitEdge) : list WaitEdge :=
  match old with
  | [] => graph
  | edge :: old =>
    let edge := mkWaitEdge (waiter edge) (current_holder held (edge_resource edge) (holder edge))
                  (edge_resource edge) (edge_timestamp edge) in
    if decide (holder edge = waiter edge) then reconcile held old seen graph
    else if decide (edge_key edge ∈ seen) then reconcile held old seen graph
    else reconcile held old ({[edge_key edge]} ∪ seen) (graph ++ [edge])
  end.

Definition ensure_waiting (w : Bytes) (r : Str) (t : Instant) (max_wait_ms : Z) (waiting : gmap Bytes (list LockInfo)) : gmap Bytes (list LockInfo) :=
  if existsb (λ i, bool_decide (resource i = r)) (default [] (waiting !! w)) then waiting
  else <[w := default [] (waiting !! w) ++ [mkLockInfo r w t max_wait_ms]]> waiting.

Definition edge_exists (graph : list WaitEdge) (w h : Bytes) (r : Str) : bool :=
  existsb (λ e, bool_decide (waiter e = w ∧ holder e = h ∧ edge_resource e = r)) graph.

(** [Instant::now().checked_sub(d).unwrap_or_else(Instant::now)] *)
Definition started (now : Instant) (elapsed_ms : Z) : Instant :=
  if now - from_millis elapsed_ms <? instant_min then now else now - from_millis elapsed_ms.

(** Add the wait of [w] on [r] for [h] unless it is a self-wait or known. *)
Definition add_wait (now : Instant) (max_wait : Z) (w h : Bytes) (r : Str) (elapsed_ms : Z)
    (acc : gmap Bytes (list LockInfo) * list WaitEdge) : gmap Bytes (list LockInfo) * list WaitEdge :=
  let '(waiting, graph) := acc in
  if decide (h = w) then acc
  else if edge_exists graph w h r then acc
  else (ensure_waiting w r (started now elapsed_ms) max_wait waiting,
        graph ++ [mkWaitEdge w h r (started now elapsed_ms)]).

Definition merge_wait (now : Instant) (max_wait : Z) (held : gmap Str LockInfo)
    (acc : gmap Bytes (list LockInfo) * list WaitEdge) (e : WaitEdgeSnapshot) : gmap Bytes (list LockInfo) * list WaitEdge :=
  let w := client_id_from_string (ws_waiter e) in
  let h := current_holder held (ws_resource e) (client_id_from_string (ws_holder e)) in
  add_wait now max_wait w h (ws_resource e) (ws_elapsed_ms e) acc.

Definition merge_orphan (now : Instant) (max_wait : Z) (held : gmap Str LockInfo)
    (acc : gmap Bytes (list LockInfo) * list WaitEdge) (o : OrphanWaitSnapshot) : gmap Bytes (list LockInfo) * list WaitEdge :=
  let w := client_id_from_string (os_waiter o) in
  match held !! os_resource o with
  | None => (ensure_waiting w (os_resource o) (started now (os_elapsed_ms o)) max_wait acc.1, acc.2)
  | Some info => add_wait now max_wait w (client_id info) (os_resource o) (os_elapsed_ms o) acc
  end.

(** The waits of one client that need an edge. *)
Definition relink_one (held : gmap Str LockInfo) (graph : list WaitEdge) (w : Bytes) (relink : list WaitEdge) (info : LockInfo) : list WaitEdge :=
  match held !! resource info with
  | None => relink
  | Some h =>
    if decide (client_id h = w) then relink
    else if edge_exists graph w (client_id h) (resource info) || edge_exists relink w (client_id h) (resource info)
    then relink
    else relink ++ [mkWaitEdge w (client_id h) (resource info) (timestamp info)]
  end.

Definition relink_all (held : gmap Str LockInfo) (graph : list WaitEdge) (waiting : list (Bytes * list LockInfo)) : list WaitEdge :=
  foldl (λ relink '(w, wait_list), foldl (relink_one held graph w) relink wait_list) [] waiting.

Definition merge_snapshot (now : Instant) (remote : DeadlockGraphSnapshot) (self : DeadlockDetector) : DeadlockDetector :=
  let max_wait := max_wait_time_ms self in
  let held := merge_held now (sn_held remote) (held_locks self) in
  let graph := reconcile held (wait_graph self) ∅ [] in
  let acc := foldl (merge_wait now max_wait held) (waiting_for self, graph) (sn_waits remote) in
  let '(waiting, graph) := foldl (merge_orphan now max_wait held) acc (orphan_waits remote) in
  with_tables self held waiting (graph ++ relink_all held graph (waiting_iter waiting)).
End operations.
