(* ===== verification/DeadlockFacts.v ===== *)
(** * Facts about the deadlock detector: cycles and depth-first search

    The search is correct for every order in which clients are tried: it ends, it reports a cycle
    exactly when the wait-for graph has one, and what it reports is a chain of waits that runs into
    itself. *)

From S2P Require Import Prelude RustStd Text Deadlock.
From Stdlib Require Import Lia.

(** ** The wait-for relation *)

(** [x] waits for a resource [y] holds. *)
Definition waits (g : list WaitEdge) (x y : Bytes) : Prop := ∃ e, e ∈ g ∧ waiter e = x ∧ holder e = y.
Definition acyclic (g : list WaitEdge) : Prop := ∀ x, ¬ tc (waits g) x x.

(** A chain of waits: client [i] of [p] waits for resource [i] of [rs], held by the next client,
    and the last one waits for [back]. *)
Definition trail (g : list WaitEdge) (p : list Bytes) (rs : list Str) (back : Bytes) : Prop :=
  length rs = length p ∧
  ∀ i c r, p !! i = Some c → rs !! i = Some r →
    ∃ e, e ∈ g ∧ waiter e = c ∧ holder e = default back (p !! S i) ∧ edge_resource e = r.

Lemma adjacency_lookup g w :
  default [] (adjacency_of g !! w) = (λ e, (holder e, edge_resource e)) <$> filter (λ e, waiter e = w) g.
Proof.
  unfold adjacency_of.
  assert (G : ∀ adj : gmap Bytes (list (Bytes * Str)), default [] (foldl (λ (adj : gmap Bytes (list (Bytes * Str))) e, <[waiter e := default [] (adj !! waiter e) ++ [(holder e, edge_resource e)]]> adj) adj g !! w)
    = default [] (adj !! w) ++ ((λ e, (holder e, edge_resource e)) <$> filter (λ e, waiter e = w) g)).
  { induction g as [|e g IH]; intros adj; simpl; [by rewrite app_nil_r|]. rewrite IH, filter_cons.
    destruct (decide (waiter e = w)) as [<-|Hne].
    - rewrite lookup_insert_eq. simpl. by rewrite <- app_assoc.
    - by rewrite lookup_insert_ne. }
  rewrite G, lookup_empty. done.
Qed.

Lemma adjacency_spec g w h r :
  (h, r) ∈ default [] (adjacency_of g !! w) ↔ ∃ e, e ∈ g ∧ waiter e = w ∧ holder e = h ∧ edge_resource e = r.
Proof.
  rewrite adjacency_lookup, list_elem_of_fmap. split.
  - intros (e & [= -> ->] & (Hw & He)%list_elem_of_filter). by exists e.
  - intros (e & He & Hw & <- & <-). exists e. split; [done|]. by apply list_elem_of_filter.
Qed.

Lemma adjacency_dom g w : (∃ h, waits g w h) → w ∈ dom (adjacency_of g).
Proof.
  intros (h & e & He & Hw & Hh). apply elem_of_dom.
  destruct (adjacency_of g !! w) as [l|] eqn:E; [by eexists|].
  assert (H : (h, edge_resource e) ∈ default [] (adjacency_of g !! w)) by (apply adjacency_spec; by exists e).
  rewrite E in H. simpl in H. set_solver.
Qed.

(** ** Depth-first search *)

Section search.
Context (g : list WaitEdge).
Abbreviation adj := (adjacency_of g).
Abbreviation out := (λ x : Bytes, default [] (adj !! x)).

Lemma out_waits x y r : (y, r) ∈ out x → waits g x y.
Proof. intros (e & He & Hw & Hh & _)%adjacency_spec. by exists e. Qed.

Lemma waits_out x y : waits g x y → ∃ r, (y, r) ∈ out x.
Proof. intros (e & He & Hw & Hh). exists (edge_resource e). apply adjacency_spec. by exists e. Qed.

Lemma trail_snoc p rs x y r : trail g p rs x → (y, r) ∈ out x → trail g (p ++ [x]) (rs ++ [r]) y.
Proof.
  intros [Hl Ht] He. split; [rewrite !length_app; simpl; lia|]. intros i c q Hc Hq.
  destruct (decide (i < length p)) as [Hi|Hi].
  - rewrite lookup_app_l in Hc by lia. rewrite lookup_app_l in Hq by lia. destruct (Ht i c q Hc Hq) as (e & Heg & Hw & Hh & Hr).
    exists e. repeat split; try done. rewrite Hh.
    destruct (decide (S i < length p)) as [Hs|Hs]; 
      [rewrite lookup_app_l by done; by destruct (lookup_lt_is_Some_2 p (S i) Hs) as [d ->]|].
    rewrite lookup_app_r, (lookup_ge_None_2 p) by lia. by replace (S i - length p) with 0 by lia.
  - rewrite lookup_app_r in Hc by lia. rewrite lookup_app_r in Hq by lia. apply list_lookup_singleton_Some in Hc as [Hi0 <-].
    apply list_lookup_singleton_Some in Hq as [_ <-]. apply adjacency_spec in He as (e & Heg & Hw & Hh & Hr).
    exists e. repeat split; try done. rewrite lookup_app_r by lia.
    replace (S i - length p) with 1 by lia. done.
Qed.

(** The clients whose search is over. *)
Definition finished (s : Dfs) : gset Bytes := visited s ∖ rec_stack s.

Record good (s : Dfs) : Prop := {
  good_stack : rec_stack s = list_to_set (path s);
  good_sub : rec_stack s ⊆ visited s;
  good_closed x y : x ∈ finished s → waits g x y → y ∈ finished s;
  good_acyclic x : x ∈ finished s → ¬ tc (waits g) x x
}.

Lemma finished_rtc s x y : good s → x ∈ finished s → rtc (waits g) x y → y ∈ finished s.
Proof. intros Hs Hx H. induction H as [|x y z Hxy _ IH]; [done|]. apply IH. by apply (good_closed s Hs x). Qed.

(** The search below [node] ran into a client on its own path. *)
Definition found (s s' : Dfs) : Prop :=
  ∃ more z, path s' = path s ++ more ∧ z ∈ path s' ∧ trail g (path s') (resource_path s') z.

(** It came back without a cycle. *)
Record back (s s' : Dfs) : Prop := {
  back_good : good s';
  back_path : path s' = path s;
  back_resources : resource_path s' = resource_path s;
  back_visited : visited s ⊆ visited s'
}.

Lemma back_finished s s' : good s → back s s' → finished s ⊆ finished s'.
Proof.
  intros Hs [Hs' Hp _ Hv]. unfold finished.
  rewrite (good_stack s Hs), (good_stack s' Hs'), Hp. set_solver.
Qed.

Lemma back_trans s1 s2 s3 : back s1 s2 → back s2 s3 → back s1 s3.
Proof. intros [_ P1 R1 V1] [G P2 R2 V2]. constructor; [done|congruence..|set_solver]. Qed.

Definition visit_ok (U : gset Bytes) (fuel : nat) (visit : Bytes → Dfs → bool * Dfs) : Prop :=
  ∀ node s, good s → node ∉ visited s → node ∈ U → size (U ∖ visited s) ≤ fuel →
    trail g (path s) (resource_path s) node →
    if (visit node s).1
    then found (mkDfs (visited s) (rec_stack s) (path s ++ [node]) (resource_path s)) (visit node s).2
    else back s (visit node s).2 ∧ node ∈ finished (visit node s).2.

Lemma good_resources s rs : good s → good (mkDfs (visited s) (rec_stack s) (path s) rs).
Proof. by intros [H1 H2 H3 H4]. Qed.

Lemma visit_neighbors_ok U fuel visit node p ns s :
  visit_ok U fuel visit → good s → path s = p ++ [node] → trail g p (resource_path s) node →
  size (U ∖ visited s) ≤ fuel → (∀ y r, (y, r) ∈ ns → (y, r) ∈ out node ∧ y ∈ U) →
  let res := visit_neighbors visit ns s in
  if res.1 then found s res.2
  else back s res.2 ∧ ∀ y r, (y, r) ∈ ns → y ∈ finished res.2.
Proof.
  intros Hv. revert s. induction ns as [|[y r] ns IH]; intros s Hs Hp Ht Hu Hns; simpl.
  { split; [by constructor|]. set_solver. }
  destruct (Hns y r) as [Hy HyU]; [by left|]. assert (Hns' : ∀ y r, (y, r) ∈ ns → (y, r) ∈ out node ∧ y ∈ U).
  { intros y' r' Hin. apply Hns. by right. }
  assert (Htr : trail g (path s) (resource_path s ++ [r]) y) by (rewrite Hp; by apply trail_snoc).
  case_decide as Hnv.
  - pose proof (Hv y (push_resource r s) (good_resources s _ Hs) Hnv HyU Hu Htr) as Hc.
    destruct (visit y (push_resource r s)) as [[] s1]; simpl in Hc.
    + destruct Hc as (more & z & Hpath & Hz & Hc). exists (y :: more), z. simpl in Hpath.
      rewrite <- app_assoc in Hpath. repeat split; [done|done|apply Hc..].
    + destruct Hc as [[Hg1 Hp1 Hr1 Hv1] Hfy]. simpl in *.
      assert (Hback : back s (pop_resource s1)).
      { constructor; simpl; [by apply good_resources|done| |done]. by rewrite Hr1, removelast_last. }
      pose proof (IH (pop_resource s1) (back_good _ _ Hback)) as Hrec. simpl in Hrec.
      rewrite Hp1, Hr1, removelast_last in Hrec. specialize (Hrec Hp Ht).
      assert (Hu1 : size (U ∖ visited s1) ≤ fuel) by (etrans; [|exact Hu]; apply subseteq_size; set_solver).
      specialize (Hrec Hu1 Hns').
      destruct (visit_neighbors visit ns (pop_resource s1)) as [[] s2]; simpl in *.
      * destruct Hrec as (more & z & Hpath & Hz & Hc). exists more, z. simpl in Hpath. by rewrite <- Hp1.
      * destruct Hrec as [Hb Hf]. split; [by apply (back_trans s (pop_resource s1))|].
        intros y' r' [[= -> ->]|Hin]%elem_of_cons; [|by eapply Hf].
        by apply (back_finished (pop_resource s1)); [apply good_resources|..].
  - case_decide as Hst.
    + exists [], y. simpl. rewrite app_nil_r. split; [done|]. split; [|done].
      rewrite (good_stack s Hs) in Hst. by apply elem_of_list_to_set in Hst.
    + pose proof (IH s Hs Hp Ht Hu Hns') as Hrec.
      destruct (visit_neighbors visit ns s) as [[] s2]; simpl in *; [done|].
      destruct Hrec as [Hb Hf]. split; [done|]. intros y' r' [[= -> ->]|Hin]%elem_of_cons; [|by eapply Hf].
      apply (back_finished s); try done. unfold finished. by apply elem_of_difference.
Qed.

Lemma good_enter node s : good s → node ∉ visited s → good (enter node s).
Proof.
  intros Hs Hn. assert (Hf : finished (enter node s) = finished s).
  { unfold finished. simpl. pose proof (good_sub s Hs). set_solver. }
  constructor; rewrite ?Hf; simpl.
  - rewrite (good_stack s Hs), list_to_set_app_L. set_solver.
  - pose proof (good_sub s Hs). set_solver.
  - apply (good_closed s Hs).
  - apply (good_acyclic s Hs).
Qed.

(** Once its neighbours are finished, a client is. *)
Lemma good_leave node p s :
  good s → path s = p ++ [node] → node ∉ p → (∀ y, waits g node y → y ∈ finished s) →
  good (leave node s) ∧ node ∈ finished (leave node s).
Proof.
  intros Hs Hp Hn Hy. pose proof (good_stack s Hs) as Hr. rewrite Hp, list_to_set_app_L in Hr. simpl in Hr.
  assert (Hin : node ∈ visited s) by (apply (good_sub s Hs); rewrite Hr; set_solver).
  assert (Hf : finished (leave node s) = {[node]} ∪ finished s).
  { unfold finished. simpl. rewrite Hr. apply set_eq. intros x. set_unfold.
    destruct (decide (x = node)) as [->|]; tauto. }
  assert (Hnf : node ∉ finished s) by (unfold finished; rewrite Hr; set_solver).
  split; [|rewrite Hf; set_solver]. constructor; rewrite ?Hf; simpl.
  - rewrite Hp, removelast_last, Hr. set_solver.
  - pose proof (good_sub s Hs). set_solver.
  - intros x y [->%elem_of_singleton|Hx]%elem_of_union Hw; apply elem_of_union; right; [by apply Hy|].
    by apply (good_closed s Hs x).
  - intros x [->%elem_of_singleton|Hx]%elem_of_union; [|by apply (good_acyclic s Hs)].
    intros Hc. apply Hnf. assert (∃ y, waits g node y ∧ rtc (waits g) y node) as (y & Hny & Hyn).
    { inversion Hc as [|? y]; subst; eexists; split; try done. by apply tc_rtc. }
    eapply finished_rtc; [done| |exact Hyn]. by apply Hy.
Qed.

Lemma dfs_visit_ok U fuel :
  (∀ x y, x ∈ U → waits g x y → y ∈ U) → visit_ok U fuel (dfs_visit fuel adj).
Proof.
  intros HU. induction fuel as [|fuel IH]; intros node s Hs Hn HnU Hsz Ht; simpl.
  { exfalso. apply Nat.le_0_r, size_empty_inv in Hsz. set_solver. }
  assert (Hsz' : size (U ∖ visited (enter node s)) ≤ fuel).
  { apply Nat.lt_succ_r. eapply Nat.lt_le_trans; [|exact Hsz]. apply subset_size. simpl. set_solver. }
  pose proof (visit_neighbors_ok U fuel _ node (path s) (out node) (enter node s) IH
    (good_enter _ _ Hs Hn) eq_refl Ht Hsz') as Hc.
  simpl in Hc. destruct (visit_neighbors (dfs_visit fuel adj) _ (enter node s)) as [[] s1]; simpl in *.
  - apply Hc. intros y r Hy. split; [done|]. by eapply HU, out_waits.
  - destruct Hc as [[Hg Hp Hr Hv] Hf].
    { intros y r Hy. split; [done|]. by eapply HU, out_waits. }
    simpl in *. destruct (good_leave node (path s) s1) as [Hg2 Hin]; try done.
    + intros Hnp. apply Hn, (good_sub s Hs). rewrite (good_stack s Hs). set_solver.
    + intros y (r & Hy)%waits_out. by eapply Hf.
    + split; [|done]. constructor; simpl; try done; [by rewrite Hp, removelast_last|set_solver].
Qed.

(** ** The search from one client, and from all of them *)

Definition start_state : Dfs := mkDfs ∅ ∅ [] [].

Lemma good_start : good start_state.
Proof. constructor; unfold finished; simpl; set_solver. Qed.

Lemma size_list_to_set_le (l : list Bytes) : size (list_to_set l : gset Bytes) ≤ length l.
Proof.
  induction l as [|x l IH]; [done|]. rewrite list_to_set_cons, length_cons, size_union_alt, size_singleton.
  apply le_n_S. etrans; [|exact IH]. apply subseteq_size. set_solver.
Qed.

Lemma fuel_covers start :
  ∃ U : gset Bytes, start ∈ U ∧ (∀ x y, x ∈ U → waits g x y → y ∈ U) ∧ size U ≤ dfs_fuel adj.
Proof.
  set (l := (concat (map_to_list adj).*2).*1). exists ({[start]} ∪ list_to_set l). split; [set_solver|]. split.
  - intros x y _ (r & Hy)%waits_out. apply elem_of_union. right. apply elem_of_list_to_set.
    apply list_elem_of_fmap. exists (y, r). split; [done|]. destruct (adj !! x) as [o|] eqn:E; [|set_solver].
    apply list_elem_of_In, in_concat. exists o. rewrite <- !list_elem_of_In. split; [|done].
    apply list_elem_of_fmap. exists (x, o). split; [done|]. by apply elem_of_map_to_list.
  - change ({[start]} ∪ list_to_set l : gset Bytes) with (list_to_set (start :: l) : gset Bytes).
    etrans; [apply size_list_to_set_le|]. unfold dfs_fuel, l. simpl. rewrite length_fmap. lia.
Qed.

Lemma find_cycle_spec start :
  match find_cycle_dfs start adj with
  | Some (cycle, rs) => (∃ more, cycle = start :: more) ∧ ∃ z, z ∈ cycle ∧ trail g cycle rs z
  | None => ¬ tc (waits g) start start
  end.
Proof.
  destruct (fuel_covers start) as (U & HsU & HU & Hsz). unfold find_cycle_dfs.
  assert (Hsz' : size (U ∖ visited start_state) ≤ dfs_fuel adj) by (etrans; [|exact Hsz]; apply subseteq_size; set_solver).
  pose proof (dfs_visit_ok U (dfs_fuel adj) HU start start_state good_start ltac:(set_solver) HsU Hsz') as Hc.
  unfold start_state in *. destruct (dfs_visit (dfs_fuel adj) adj start (mkDfs ∅ ∅ [] [])) as [[] s]; simpl in Hc.
  - destruct Hc as (more & z & Hp & Hz & Ht).
    { split; [done|]. intros i c r Hc. by rewrite lookup_nil in Hc. }
    simpl in Hp. rewrite Hp in *. simpl. rewrite decide_True by done. simpl. rewrite !drop_0. split; [by eexists|]. by exists z.
  - destruct Hc as [Hb Hin].
    { split; [done|]. intros i c r Hc. by rewrite lookup_nil in Hc. }
    by apply (good_acyclic s (back_good _ _ Hb)).
Qed.
End search.

Lemma trail_cons g c p r rs b :
  trail g (c :: p) (r :: rs) b ↔
  (∃ e, e ∈ g ∧ waiter e = c ∧ holder e = default b (head p) ∧ edge_resource e = r) ∧ trail g p rs b.
Proof.
  split.
  - intros [Hl Ht]. split.
    + destruct (Ht 0 c r eq_refl eq_refl) as (e & He). exists e. by destruct p.
    + split; [simpl in Hl; lia|]. intros i. apply (Ht (S i)).
  - intros [(e & He) [Hl Ht]]. split; [simpl; lia|]. intros [|i] d q Hd Hq; simpl in *; simplify_eq.
    + exists e. by destruct p.
    + by apply Ht.
Qed.

(** Whoever is on the chain waits, in one or more steps, for its end. *)
Lemma trail_tc g p rs b c : trail g p rs b → c ∈ p → tc (waits g) c b.
Proof.
  revert rs c. induction p as [|d p IH]; intros [|r rs] c Ht Hc; try (by inversion Hc).
  { by destruct Ht. }
  apply trail_cons in Ht as [(e & He & Hw & Hh & _) Ht].
  assert (Hd : tc (waits g) d b).
  { destruct p as [|d' p]; simpl in Hh; [apply tc_once; by exists e|].
    apply (tc_l _ _ d'); [by exists e|]. apply (IH rs _ Ht). left. }
  apply elem_of_cons in Hc as [->|Hc]; [done|]. by apply (IH rs).
Qed.

Lemma trail_suffix g p q rs b : trail g (p ++ q) rs b → trail g q (drop (length p) rs) b.
Proof.
  revert rs. induction p as [|c p IH]; intros rs Ht; simpl; [by rewrite drop_0|].
  destruct rs as [|r rs]; [by destruct Ht|]. simpl in Ht. apply trail_cons in Ht as [_ Ht]. by apply IH.
Qed.

(** A chain that comes back into itself ends in a cycle. *)
Lemma trail_loop g p rs z :
  z ∈ p → trail g p rs z → ∃ lead loop, p = lead ++ z :: loop ∧ trail g (z :: loop) (drop (length lead) rs) z.
Proof. intros (lead & loop & ->)%list_elem_of_split Ht. exists lead, loop. split; [done|]. by apply trail_suffix. Qed.

Section detection.
Context {env : DetectorEnv} {laws : DetectorLaws}.

Lemma detect_from_spec g clients :
  match detect_from clients (adjacency_of g) with
  | Deadlock cycle rs => ∃ z, z ∈ cycle ∧ trail g cycle rs z
  | NoDeadlock => ∀ x, x ∈ clients → ¬ tc (waits g) x x
  end.
Proof.
  induction clients as [|x l IH]; simpl; [set_solver|]. pose proof (find_cycle_spec g x) as Hf.
  destruct (find_cycle_dfs x (adjacency_of g)) as [[cycle rs]|]; [by destruct Hf as [_ ?]|].
  destruct (detect_from l (adjacency_of g)); [|done]. intros y [->|Hy]%elem_of_cons; [done|by apply IH].
Qed.

Lemma detect_spec g :
  match detect_from_graph g with
  | Deadlock cycle rs => ∃ z, z ∈ cycle ∧ trail g cycle rs z
  | NoDeadlock => acyclic g
  end.
Proof.
  unfold detect_from_graph. pose proof (detect_from_spec g (clients_iter (dom (adjacency_of g)))) as Hd.
  destruct (detect_from _ _); [|done]. intros x Hx. apply (Hd x); [|done].
  rewrite clients_iter_perm. apply elem_of_elements, adjacency_dom.
  inversion Hx as [|? y]; subst; by eexists.
Qed.

Lemma detect_cycle g : detect_from_graph g = NoDeadlock ↔ acyclic g.
Proof.
  pose proof (detect_spec g) as Hd. split; [intros E; by rewrite E in Hd|]. intros Ha.
  destruct (detect_from_graph g) as [|cycle rs]; [done|]. destruct Hd as (z & Hz & Ht).
  destruct (Ha z). by eapply trail_tc.
Qed.
End detection.
