(* ===== verification/DeadlockInv.v ===== *)
(** * Invariants of the deadlock detector

    Well-formedness of the three tables under every operation, agreement of the wait-for graph with
    the table of holders, victim selection, and the progress of the background monitor. *)

From S2P Require Import Prelude RustStd Text Deadlock DeadlockFacts.
From Stdlib Require Import Lia.

Local Open Scope Z_scope.

(** ** What a well-formed detector is *)

(** A lock is filed under its resource and a wait under its client, durations fit their type. *)
Record typed_tables (held : gmap Str LockInfo) (waiting : gmap Bytes (list LockInfo)) : Prop := {
  ty_held r i : held !! r = Some i → resource i = r ∧ in_u64 (ttl_ms i);
  ty_nonempty c l : waiting !! c = Some l → l ≠ [];
  ty_waiting c l i : waiting !! c = Some l → i ∈ l → client_id i = c ∧ in_u64 (ttl_ms i)
}.

(** No edge contradicts the table of holders. *)
Definition agrees (held : gmap Str LockInfo) (graph : list WaitEdge) : Prop :=
  ∀ e i, e ∈ graph → held !! edge_resource e = Some i → client_id i = holder e.

(** Every edge is backed by a held lock. *)
Definition backed (held : gmap Str LockInfo) (graph : list WaitEdge) : Prop :=
  ∀ e, e ∈ graph → ∃ i, held !! edge_resource e = Some i ∧ client_id i = holder e.

Record typed (d : DeadlockDetector) : Prop := {
  ty_tables : typed_tables (held_locks d) (waiting_for d);
  ty_agrees : agrees (held_locks d) (wait_graph d);
  ty_max_wait : in_u64 (max_wait_time_ms d)
}.

Definition consistent (d : DeadlockDetector) : Prop := backed (held_locks d) (wait_graph d).

(** What the fields of a snapshot may hold: [u64] durations. *)
Record typed_snapshot (s : DeadlockGraphSnapshot) : Prop := {
  ts_held h : h ∈ sn_held s → in_u64 (hs_ttl_ms h) ∧ in_u64 (held_for_ms h);
  ts_waits e : e ∈ sn_waits s → in_u64 (ws_elapsed_ms e);
  ts_orphans o : o ∈ orphan_waits s → in_u64 (os_elapsed_ms o)
}.

(** ** The edge tables of an acquisition *)

Lemma rewrite_edges_in r c old seen graph e :
  e ∈ (rewrite_edges r c old seen graph).2 →
  e ∈ graph ∨ (e ∈ old ∧ edge_resource e ≠ r) ∨
  (edge_resource e = r ∧ holder e = c ∧ waiter e ≠ c).
Proof.
  revert seen graph. induction old as [|o old IH]; intros seen graph H; simpl in H; [by left|].
  case_decide as Hskip; [destruct (IH _ _ H) as [?|[[? ?]|?]]; [by left|right; left; split; [by right|done]|by right; right]|].
  case_decide as Hseen.
  - destruct (IH _ _ H) as [?|[[? ?]|?]]; [by left|right; left; split; [by right|done]|by right; right].
  - destruct (IH _ _ H) as [[Hg| ->%list_elem_of_singleton]%elem_of_app|[[? ?]|?]]; [by left| |right; left; split; [by right|done]|by right; right].
    right. case_decide as Hr; [right; simpl; tauto|left; split; [by left|done]].
Qed.

Lemma relink_list_in r c w l acc e :
  e ∈ (relink_list r c w l acc).2 → e ∈ acc.2 ∨ (edge_resource e = r ∧ holder e = c ∧ waiter e = w).
Proof.
  revert acc. induction l as [|i l IH]; intros [seen graph] H; simpl in H; [by left|].
  repeat case_decide; try (by apply IH in H).
  apply IH in H as [[H| ->%list_elem_of_singleton]%elem_of_app|?]; [by left|by right|by right].
Qed.

Lemma relink_waiters_in r c l acc e :
  e ∈ (relink_waiters r c l acc).2 → e ∈ acc.2 ∨ (edge_resource e = r ∧ holder e = c ∧ waiter e ≠ c).
Proof.
  unfold relink_waiters. revert acc. induction l as [|[w wl] l IH]; intros acc H; simpl in H; [by left|].
  apply IH in H as [H|?]; [|by right]. case_decide; [by left|]. apply relink_list_in in H as [?|(? & ? & ->)]; [by left|by right].
Qed.

Section invariants.
Context {env : DetectorEnv}.

(** The edges after an acquisition: untouched ones, and those of the resource, now held by [c]. *)
Lemma acquired_edges now r c ttl d e :
  e ∈ wait_graph (record_lock_acquired now r c ttl d) →
  (e ∈ wait_graph d ∧ edge_resource e ≠ r) ∨ (edge_resource e = r ∧ holder e = c ∧ waiter e ≠ c).
Proof.
  unfold record_lock_acquired. pose proof (rewrite_edges_in r c (wait_graph d) ∅ [] e) as H1.
  destruct (rewrite_edges r c (wait_graph d) ∅ []) as [seen graph].
  pose proof (relink_waiters_in r c (waiting_iter (stop_waiting r c (waiting_for d))) (seen, graph) e) as H2.
  destruct (relink_waiters r c _ (seen, graph)) as [seen' graph']. simpl in *. intros [H|H]%H2; [|by right].
  apply H1 in H as [H|H]; [by apply not_elem_of_nil in H|done].
Qed.

Lemma acquired_held now r c ttl d :
  held_locks (record_lock_acquired now r c ttl d) = <[r := new_lock now r c ttl]> (held_locks d).
Proof. unfold record_lock_acquired. by repeat case_match. Qed.

Lemma acquired_waiting now r c ttl d :
  waiting_for (record_lock_acquired now r c ttl d) = stop_waiting r c (waiting_for d).
Proof. unfold record_lock_acquired. by repeat case_match. Qed.

(** ** Tables that only lose entries *)

(** [waiting'] has been pruned from [waiting]. *)
Definition pruned (waiting' waiting : gmap Bytes (list LockInfo)) : Prop :=
  ∀ c l', waiting' !! c = Some l' → l' ≠ [] ∧ ∃ l, waiting !! c = Some l ∧ ∀ i, i ∈ l' → i ∈ l.

Lemma typed_tables_pruned held held' waiting waiting' :
  typed_tables held waiting → held' ⊆ held → pruned waiting' waiting → typed_tables held' waiting'.
Proof.
  intros [Hh Hn Hw] Hsub Hp. constructor.
  - intros r i Hi. apply Hh. by eapply lookup_weaken.
  - intros c l Hl. by apply Hp in Hl as [? _].
  - intros c l i Hl Hi. apply Hp in Hl as (_ & l0 & Hl0 & Hsub0). by apply (Hw c l0), Hsub0.
Qed.

Lemma agrees_sub held held' g g' :
  agrees held g → held' ⊆ held → (∀ e, e ∈ g' → e ∈ g) → agrees held' g'.
Proof. intros Ha Hh Hg e i He Hi. apply Ha; [by apply Hg|by eapply lookup_weaken]. Qed.

Lemma pruned_delete c w : (∀ c l, w !! c = Some l → l ≠ []) → pruned (delete c w) w.
Proof. intros Hn x l [_ Hl]%lookup_delete_Some. split; [by eapply Hn|]. by exists l. Qed.

Lemma retain_waits_lookup keep w c :
  retain_waits keep w !! c =
  l ← w !! c; let l := filter (λ i, keep i = true) l in if decide (l = []) then None else Some l.
Proof. unfold retain_waits. by rewrite lookup_omap. Qed.

Lemma pruned_retain keep w w0 : pruned w w0 → pruned (retain_waits keep w) w0.
Proof.
  intros Hp c l. rewrite retain_waits_lookup. destruct (w !! c) as [l0|] eqn:E; simpl; [|done].
  case_decide as Hne; [done|]. intros [= <-]. split; [done|]. destruct (Hp c l0 E) as (_ & l1 & E1 & Hsub).
  exists l1. split; [done|]. intros i [_ Hi]%list_elem_of_filter. by apply Hsub.
Qed.

Lemma pruned_refl w : (∀ c l, w !! c = Some l → l ≠ []) → pruned w w.
Proof. intros Hn c l Hl. split; [by eapply Hn|]. by exists l. Qed.

Lemma pruned_stop r c w : (∀ c l, w !! c = Some l → l ≠ []) → pruned (stop_waiting r c w) w.
Proof.
  intros Hn. unfold stop_waiting. destruct (w !! c) as [l0|] eqn:E; [|by apply pruned_refl].
  case_decide as Hne; [by apply pruned_delete|]. intros x l. destruct (decide (x = c)) as [->|Hx].
  - rewrite lookup_insert_eq. intros [= <-]. split; [done|]. exists l0. split; [done|]. by intros i [_ Hi]%list_elem_of_filter.
  - rewrite lookup_insert_ne by done. by apply pruned_refl.
Qed.

(** ** Operations on one detector *)

(** A smaller detector: fewer holds, pruned waits, fewer edges, the same configuration. *)
Record shrinks (d' d : DeadlockDetector) : Prop := {
  sh_held : held_locks d' ⊆ held_locks d;
  sh_waiting : pruned (waiting_for d') (waiting_for d);
  sh_graph e : e ∈ wait_graph d' → e ∈ wait_graph d;
  sh_max : max_wait_time_ms d' = max_wait_time_ms d
}.

Lemma typed_shrinks d d' : typed d → shrinks d' d → typed d'.
Proof.
  intros [Ht Ha Hm] [Hh Hw Hg Em]. constructor.
  - by eapply typed_tables_pruned.
  - by eapply agrees_sub.
  - by rewrite Em.
Qed.

Lemma typed_new m a s : in_u64 m → typed (new_with_strategy m a s).
Proof.
  intros Hm. constructor; simpl; [|intros e i He; by apply not_elem_of_nil in He|done].
  constructor; intros *; by rewrite lookup_empty.
Qed.

Lemma typed_acquired now r c ttl d : typed d → in_u64 ttl → typed (record_lock_acquired now r c ttl d).
Proof.
  intros [Ht Ha Hm] Httl. constructor.
  - rewrite acquired_held, acquired_waiting.
    destruct (typed_tables_pruned _ (held_locks d) _ (stop_waiting r c (waiting_for d)) Ht) as [Hh Hn Hw]; [done| |].
    { apply pruned_stop, (ty_nonempty _ _ Ht). }
    constructor; try done. intros r' i [[<- <-]|[_ Hi]]%lookup_insert_Some; [done|by apply Hh].
  - intros e i He. rewrite acquired_held. apply acquired_edges in He as [[He Hr]|(-> & -> & _)].
    + rewrite lookup_insert_ne by done. by apply Ha.
    + rewrite lookup_insert_eq. by intros [= <-].
  - unfold record_lock_acquired. by repeat case_match.
Qed.

Lemma shrinks_released r c d : typed d → shrinks (record_lock_released r c d) d.
Proof.
  intros Ht. pose proof (pruned_refl _ (ty_nonempty _ _ (ty_tables d Ht))) as Hp.
  unfold record_lock_released. destruct (held_locks d !! r); [|by split]. case_decide; [|by split].
  split; simpl; [apply delete_subseteq|done|by intros e [_ He]%list_elem_of_filter|done].
Qed.

Lemma typed_wait now r c ttl d : typed d → in_u64 ttl → typed (record_lock_wait now r c ttl d).
Proof.
  intros [[Hh Hn Hw] Ha Hm] Httl. constructor; simpl; [| |done].
  - constructor; [done|..].
    + intros x l [[<- <-]|[_ Hl]]%lookup_insert_Some; [by destruct (default [] _)|by eapply Hn].
    + intros x l i [[<- <-]|[_ Hl]]%lookup_insert_Some Hi; [|by apply (Hw x l)].
      apply elem_of_app in Hi as [Hi| ->%list_elem_of_singleton]; [|done].
      destruct (waiting_for d !! c) as [l|] eqn:E; [by apply (Hw c l)|by apply not_elem_of_nil in Hi].
  - destruct (held_locks d !! r) as [h|] eqn:E; [|done].
    intros e i [He| ->%list_elem_of_singleton]%elem_of_app Hi; [by apply Ha|]. simpl in *. congruence.
Qed.

Lemma shrinks_remove c d : typed d → shrinks (remove_from_waiting c d) d.
Proof.
  intros Ht. split; simpl; [done| |by intros e [_ He]%list_elem_of_filter|done].
  apply pruned_delete, (ty_nonempty _ _ (ty_tables d Ht)).
Qed.

Lemma shrinks_expired now d : typed d → shrinks (cleanup_expired_into now d) d.
Proof.
  intros Ht. split; simpl; [apply map_filter_subseteq| |by intros e [_ He]%list_elem_of_filter|done].
  apply pruned_retain, pruned_refl, (ty_nonempty _ _ (ty_tables d Ht)).
Qed.

Lemma shrinks_release_client c d : typed d → shrinks (release_client_locks c d).2 d.
Proof.
  intros Ht. split; simpl; [apply map_filter_subseteq| |by intros e [_ He]%list_elem_of_filter|done].
  apply pruned_retain, pruned_delete, (ty_nonempty _ _ (ty_tables d Ht)).
Qed.

Lemma typed_cleanup now d : typed d → typed (cleanup_expired_into now d).
Proof. intros Ht. by eapply typed_shrinks, shrinks_expired. Qed.

Lemma typed_tick now d : typed d → typed (monitor_tick now d).
Proof.
  intros Ht. pose proof (typed_cleanup now d Ht) as Ht1. unfold monitor_tick, detect_deadlock.
  revert Ht1. generalize (cleanup_expired_into now d). intros d1 Ht1.
  case_match; [done|]. case_match; [|done]. by eapply typed_shrinks, shrinks_release_client.
Qed.

(** ** Every edge is backed by a lock *)

Lemma consistent_acquired now r c ttl d : consistent d → consistent (record_lock_acquired now r c ttl d).
Proof.
  intros Hc e He. rewrite acquired_held. apply acquired_edges in He as [[He Hr]|(-> & -> & _)].
  - rewrite lookup_insert_ne by done. by apply Hc.
  - rewrite lookup_insert_eq. by eexists.
Qed.

Lemma consistent_released r c d : consistent d → consistent (record_lock_released r c d).
Proof.
  intros Hc. unfold record_lock_released. destruct (held_locks d !! r) as [i|] eqn:E; [|done].
  case_decide as Hi; [|done]. intros e [Hne He]%list_elem_of_filter. simpl in *.
  destruct (Hc e He) as (j & Hj & Ej). exists j. split; [|done]. apply lookup_delete_Some. split; [|done].
  intros Er. apply Hne. split; [done|]. rewrite <- Er in Hj. congruence.
Qed.

Lemma consistent_wait now r c ttl d : consistent d → consistent (record_lock_wait now r c ttl d).
Proof.
  intros Hc e. simpl. destruct (held_locks d !! r) as [h|] eqn:E; [|apply Hc].
  intros [He| ->%list_elem_of_singleton]%elem_of_app; [by apply Hc|]. by exists h.
Qed.

Lemma consistent_remove c d : consistent d → consistent (remove_from_waiting c d).
Proof. intros Hc e [_ He]%list_elem_of_filter. by apply Hc. Qed.

Lemma consistent_cleanup now d : consistent d → consistent (cleanup_expired_into now d).
Proof.
  intros Hc e [[Hne _] He]%list_elem_of_filter. destruct (Hc e He) as (i & Hi & Ei). exists i. split; [|done].
  simpl. apply map_lookup_filter_Some. split; [done|]. simpl. apply not_true_is_false. intros Hx. apply Hne.
  apply elem_of_dom. exists i. by apply map_lookup_filter_Some.
Qed.

Lemma consistent_release_client c d : consistent d → consistent (release_client_locks c d).2.
Proof.
  intros Hc e [(_ & Hh & _) He]%list_elem_of_filter. destruct (Hc e He) as (i & Hi & Ei). exists i. split; [|done].
  simpl. apply map_lookup_filter_Some. split; [done|]. simpl. congruence.
Qed.

Lemma consistent_tick now d : consistent d → consistent (monitor_tick now d).
Proof.
  intros Hc. pose proof (consistent_cleanup now d Hc) as Hc1. unfold monitor_tick, detect_deadlock.
  revert Hc1. generalize (cleanup_expired_into now d). intros d1 Hc1.
  case_match; [done|]. case_match; [|done]. by apply consistent_release_client.
Qed.
End invariants.

(** ** Victim selection *)

Lemma max_by_key_spec {A} (key : A → Z) l :
  l ≠ [] → ∃ x, max_by_key key l = Some x ∧ x ∈ l ∧ ∀ y, y ∈ l → key y ≤ key x.
Proof.
  destruct l as [|x l]; [done|]. intros _. simpl. eexists. split; [done|].
  induction l as [|y l IH] using rev_ind; simpl.
  { split; [by left|]. by intros y ->%list_elem_of_singleton. }
  rewrite foldl_snoc. destruct IH as [Hin Hmax]. set (b := foldl _ x l) in *. clearbody b.
  assert (Hall : ∀ z, z ∈ x :: l ++ [y] → z ∈ x :: l ∨ z = y) by set_solver.
  destruct (Z.leb_spec (key b) (key y)); (split; [set_solver|]); intros z [Hz| ->]%Hall; try apply Hmax in Hz; lia.
Qed.

Lemma min_by_spec {A} (cmp : A → A → comparison) `{!TotalCmp cmp} l :
  l ≠ [] → ∃ x, min_by cmp l = Some x ∧ x ∈ l ∧ ∀ y, y ∈ l → cmp x y ≠ Gt.
Proof.
  destruct l as [|x l]; [done|]. intros _. simpl. eexists. split; [done|].
  induction l as [|y l IH] using rev_ind; simpl.
  { split; [by left|]. intros y ->%list_elem_of_singleton. by rewrite (cmp_refl cmp). }
  rewrite foldl_snoc. destruct IH as [Hin Hmin]. set (b := foldl _ x l) in *. clearbody b.
  assert (Hall : ∀ z, z ∈ x :: l ++ [y] → z ∈ x :: l ∨ z = y) by set_solver.
  destruct (cmp b y) eqn:E; (split; [set_solver|]); intros z [Hz| ->]%Hall; try (by apply Hmin in Hz); try congruence.
  - apply Hmin in Hz. apply (cmp_le_trans cmp y b z); [|done]. rewrite (cmp_flip cmp), E. done.
  - by rewrite (cmp_refl cmp).
Qed.

#[global] Instance earliest_total : TotalCmp (λ a b, cd_earliest a ?= cd_earliest b).
Proof. split; intros; [apply (cmp_refl Z.compare)|apply (cmp_flip Z.compare)|by eapply (cmp_le_trans Z.compare)]. Qed.

Definition fewest_cmp (a b : Candidate) : comparison :=
  match cd_count a ?= cd_count b with Eq => cd_latest b ?= cd_latest a | o => o end.

#[global] Instance fewest_total : TotalCmp fewest_cmp.
Proof.
  unfold fewest_cmp. split.
  - intros x. by rewrite !Z.compare_refl.
  - intros x y. rewrite (Z.compare_antisym (cd_count x)), (Z.compare_antisym (cd_latest y)).
    by destruct (cd_count x ?= cd_count y).
  - intros x y z. destruct (Z.compare_spec (cd_count x) (cd_count y)), (Z.compare_spec (cd_count y) (cd_count z)),
      (Z.compare_spec (cd_count x) (cd_count z)), (Z.compare_spec (cd_latest y) (cd_latest x)),
      (Z.compare_spec (cd_latest z) (cd_latest y)), (Z.compare_spec (cd_latest z) (cd_latest x)); try done; lia.
Qed.

(** What a candidate records of a client's locks. *)
Record summary (l : list LockInfo) (c : Bytes) (a : Candidate) : Prop := {
  su_client : cd_client a = c;
  su_count : cd_count a = zlen (filter (λ i, client_id i = c) l);
  su_latest : ∃ i, i ∈ l ∧ client_id i = c ∧ timestamp i = cd_latest a;
  su_earliest : ∃ i, i ∈ l ∧ client_id i = c ∧ timestamp i = cd_earliest a;
  su_bounds i : i ∈ l → client_id i = c → cd_earliest a ≤ timestamp i ≤ cd_latest a
}.

Lemma candidate_of_spec l c :
  match candidate_of l c with
  | Some a => summary l c a
  | None => ∀ i, i ∈ l → client_id i ≠ c
  end.
Proof.
  induction l as [|j l IH] using rev_ind; [intros i Hi; by apply not_elem_of_nil in Hi|].
  unfold candidate_of in *. rewrite foldl_snoc. destruct (foldl _ None l) as [a|]; case_decide as Hj.
  - destruct IH as [Hc Hn (x & Hx) (y & Hy) Hb].
    split; simpl; [done|rewrite filter_app, length_app, filter_cons_True by done; simpl; lia|..].
    + destruct (Z.leb_spec (timestamp j) (cd_latest a)); [exists x|exists j]; set_solver.
    + destruct (Z.leb_spec (cd_earliest a) (timestamp j)); [exists y|exists j]; set_solver.
    + intros i [Hi| ->%list_elem_of_singleton]%elem_of_app Hic; [specialize (Hb i Hi Hic)|];
        destruct (Z.leb_spec (timestamp j) (cd_latest a)), (Z.leb_spec (cd_earliest a) (timestamp j)); try lia.
      all: destruct Hx as (Hx1 & Hx2 & Hx3), (Hb x Hx1 Hx2); lia.
  - destruct IH as [Hc Hn (x & Hx) (y & Hy) Hb].
    split; [done|rewrite filter_app, filter_cons_False; [by rewrite app_nil_r|done]|set_solver..|].
    intros i [Hi| ->%list_elem_of_singleton]%elem_of_app; [by apply Hb|done].
  - split; simpl; [done| |exists j; set_solver..|].
    + rewrite filter_app, length_app, filter_cons_True by done. rewrite (filter_none _ l) by done. done.
    + intros i [Hi| ->%list_elem_of_singleton]%elem_of_app Hic; [by destruct (IH i Hi)|lia].
  - set_solver.
Qed.

Section victims.
Context {env : DetectorEnv} {laws : DetectorLaws}.

(** [i] is a lock [c] holds. *)
Definition holds (d : DeadlockDetector) (c : Bytes) (i : LockInfo) : Prop :=
  ∃ r, held_locks d !! r = Some i ∧ client_id i = c.

Definition lock_count (d : DeadlockDetector) (c : Bytes) : Z :=
  zlen (filter (λ i, client_id i = c) (map_to_list (held_locks d)).*2).

Abbreviation infos d := ((held_iter (held_locks d)).*2).

Lemma elem_of_infos d i : i ∈ infos d ↔ ∃ r, held_locks d !! r = Some i.
Proof.
  rewrite held_iter_perm, list_elem_of_fmap. split.
  - intros ([r j] & -> & H). exists r. by apply elem_of_map_to_list in H.
  - intros (r & H). exists (r, i). split; [done|]. by apply elem_of_map_to_list.
Qed.

Lemma holds_infos d c i : holds d c i ↔ i ∈ infos d ∧ client_id i = c.
Proof. unfold holds. rewrite elem_of_infos. naive_solver. Qed.

Lemma count_infos d c : zlen (filter (λ i, client_id i = c) (infos d)) = lock_count d c.
Proof. unfold lock_count. by rewrite held_iter_perm. Qed.

Definition candidates (d : DeadlockDetector) (cycle : list Bytes) : list Candidate := omap (candidate_of (infos d)) cycle.

Lemma candidates_summary d cycle a : a ∈ candidates d cycle → ∃ c, c ∈ cycle ∧ summary (infos d) c a.
Proof.
  intros (c & Hc & E)%list_elem_of_omap. exists c. split; [done|].
  pose proof (candidate_of_spec (infos d) c) as H. by rewrite E in H.
Qed.

Lemma candidates_complete d cycle c i :
  c ∈ cycle → holds d c i → ∃ a, a ∈ candidates d cycle ∧ summary (infos d) c a.
Proof.
  intros Hc [Hi Ei]%holds_infos. pose proof (candidate_of_spec (infos d) c) as H.
  destruct (candidate_of (infos d) c) as [a|] eqn:E; [|by destruct (H i Hi)].
  exists a. split; [|done]. apply list_elem_of_omap. by exists c.
Qed.

(** The best candidate for each strategy. *)
Definition best (s : VictimSelectionStrategy) (a b : Candidate) : Prop :=
  match s with
  | Youngest => cd_latest b ≤ cd_latest a
  | Oldest => cd_earliest a ≤ cd_earliest b
  | FewestLocks => fewest_cmp a b ≠ Gt
  end.

Lemma pick_spec s l : l ≠ [] → ∃ a, pick s l = Some a ∧ a ∈ l ∧ ∀ b, b ∈ l → best s a b.
Proof.
  intros Hl. destruct s; simpl.
  - by apply max_by_key_spec.
  - destruct (min_by_spec (λ a b, cd_earliest a ?= cd_earliest b) l Hl) as (a & E & Ha & Hm).
    exists a. repeat split; try done.
  - by apply (min_by_spec fewest_cmp).
Qed.

(** What the chosen client [v] has over a lock [i] of another member [c] of the cycle. *)
Definition preferred (d : DeadlockDetector) (v c : Bytes) (i : LockInfo) : Prop :=
  match victim_strategy d with
  | Youngest => ∃ j, holds d v j ∧ timestamp i ≤ timestamp j
  | Oldest => ∃ j, holds d v j ∧ timestamp j ≤ timestamp i
  | FewestLocks => lock_count d v < lock_count d c ∨
      (lock_count d v = lock_count d c ∧ ∃ j, holds d v j ∧ timestamp i ≤ timestamp j)
  end.

Lemma best_preferred d v c a b i :
  summary (infos d) v a → summary (infos d) c b → best (victim_strategy d) a b → holds d c i → preferred d v c i.
Proof.
  intros Ha Hb Hbest [Hi Ei]%holds_infos. pose proof (su_bounds _ _ _ Hb i Hi Ei) as Hbd.
  destruct (su_latest _ _ _ Ha) as (jl & Hl1 & Hl2 & Hl3), (su_earliest _ _ _ Ha) as (je & He1 & He2 & He3).
  assert (Hjl : holds d v jl) by (by apply holds_infos). assert (Hje : holds d v je) by (by apply holds_infos).
  unfold preferred, best, fewest_cmp in *. destruct (victim_strategy d).
  - exists jl. split; [done|lia].
  - exists je. split; [done|lia].
  - rewrite <- !count_infos, <- (su_count _ _ _ Ha), <- (su_count _ _ _ Hb).
    destruct (Z.compare_spec (cd_count a) (cd_count b)); [|by left|done].
    right. split; [done|]. exists jl. split; [done|].
    destruct (Z.compare_spec (cd_latest b) (cd_latest a)); [lia..|done].
Qed.

Lemma resolve_some cycle d :
  auto_resolve d = true → (∃ c i, c ∈ cycle ∧ holds d c i) →
  ∃ v, resolve_deadlock cycle d = Some v ∧ v ∈ cycle ∧ (∃ i, holds d v i) ∧
       ∀ c i, c ∈ cycle → holds d c i → preferred d v c i.
Proof.
  intros Hauto (c & i & Hc & Hi). unfold resolve_deadlock. rewrite Hauto, decide_False by (by intros ->; apply not_elem_of_nil in Hc).
  simpl. fold (candidates d cycle). destruct (candidates_complete d cycle c i Hc Hi) as (a0 & Ha0 & _).
  destruct (pick_spec (victim_strategy d) (candidates d cycle)) as (a & E & Ha & Hbest); [by intros E; rewrite E in Ha0; apply not_elem_of_nil in Ha0|].
  rewrite E. simpl. destruct (candidates_summary d cycle a Ha) as (v & Hv & Hs). rewrite (su_client _ _ _ Hs).
  exists v. split; [done|]. split; [done|]. split.
  - destruct (su_latest _ _ _ Hs) as (j & Hj & Ej & _). exists j. by apply holds_infos.
  - intros x j Hx Hj. destruct (candidates_complete d cycle x j Hx Hj) as (b & Hb & Hsb). by eapply best_preferred, Hj; [| |apply Hbest].
Qed.

(** ** Progress of the monitor *)

(** Every client that ends a chain back into itself holds a lock, in a consistent detector. *)
Lemma cycle_holds d cycle rs z : consistent d → z ∈ cycle → trail (wait_graph d) cycle rs z → ∃ i, holds d z i.
Proof.
  intros Hc Hz Ht. assert (Hw : ∃ x, waits (wait_graph d) x z).
  { pose proof (trail_tc _ _ _ _ _ Ht Hz) as H. clear -H. induction H as [x y H|x y z H _ IH]; [by exists x|done]. }
  destruct Hw as (x & e & He & _ & Hh). destruct (Hc e He) as (i & Hi & Ei). exists i, (edge_resource e). by rewrite Ei.
Qed.

Lemma trail_waits g p rs b c : trail g p rs b → c ∈ p → ∃ e, e ∈ g ∧ waiter e = c.
Proof.
  intros [Hl Ht] [i Hi]%list_elem_of_lookup. destruct (lookup_lt_is_Some_2 rs i) as [r Hr].
  { rewrite Hl. by eapply lookup_lt_Some. }
  destruct (Ht i c r Hi Hr) as (e & He & Hw & _). by exists e.
Qed.

Lemma filter_shorter {A} (P : A → Prop) `{!∀ x, Decision (P x)} (l : list A) x :
  x ∈ l → ¬ P x → (length (filter P l) < length l)%nat.
Proof.
  induction l as [|y l IH]; intros Hx Hp; [by apply not_elem_of_nil in Hx|]. rewrite filter_cons.
  pose proof (length_filter P l). apply elem_of_cons in Hx as [->|Hx].
  - rewrite decide_False by done. simpl. lia.
  - specialize (IH Hx Hp). case_decide; simpl; lia.
Qed.

Lemma tick_graph now d e : e ∈ wait_graph (monitor_tick now d) → e ∈ wait_graph d.
Proof.
  unfold monitor_tick, detect_deadlock.
  assert (H0 : e ∈ wait_graph (cleanup_expired_into now d) → e ∈ wait_graph d) by (by intros [_ ?]%list_elem_of_filter).
  revert H0. generalize (cleanup_expired_into now d) as d1. intros d1 H0. case_match; [done|]. case_match; [|done].
  intros [_ ?]%list_elem_of_filter. by apply H0.
Qed.

Lemma tick_auto now d : auto_resolve (monitor_tick now d) = auto_resolve d.
Proof. unfold monitor_tick, detect_deadlock. by repeat case_match. Qed.

Lemma tick_progress now d :
  consistent d → auto_resolve d = true →
  acyclic (wait_graph (monitor_tick now d)) ∨ (length (wait_graph (monitor_tick now d)) < length (wait_graph d))%nat.
Proof.
  intros Hc Hauto. pose proof (consistent_cleanup now d Hc) as Hc1.
  assert (Hlen : (length (wait_graph (cleanup_expired_into now d)) ≤ length (wait_graph d))%nat) by apply length_filter.
  assert (Hauto1 : auto_resolve (cleanup_expired_into now d) = true) by done.
  unfold monitor_tick, detect_deadlock. revert Hc1 Hlen Hauto1. generalize (cleanup_expired_into now d).
  intros d1 Hc1 Hlen Hauto1. pose proof (detect_spec (wait_graph d1)) as Hd.
  destruct (detect_from_graph (wait_graph d1)) as [|cycle rs]; [by left|]. right. destruct Hd as (z & Hz & Ht).
  destruct (cycle_holds d1 cycle rs z Hc1 Hz Ht) as (i & Hi).
  destruct (resolve_some cycle d1 Hauto1) as (v & -> & Hv & _); [by exists z, i|].
  destruct (trail_waits _ _ _ _ v Ht Hv) as (e & He & Hw).
  eapply Nat.lt_le_trans; [|exact Hlen]. apply (filter_shorter _ _ e He). tauto.
Qed.

Lemma acyclic_sub g g' : acyclic g → (∀ e, e ∈ g' → e ∈ g) → acyclic g'.
Proof.
  intros Ha Hsub x Hx. apply (Ha x). revert Hx. generalize x at 2 4. intros y Hx. clear Ha.
  induction Hx as [x y (e & He & H)|x y z (e & He & H) _ IH]; [apply tc_once|eapply tc_l; [|exact IH]]; exists e; auto.
Qed.

Lemma ticks_clear ticks d :
  consistent d → auto_resolve d = true → (length (wait_graph d) ≤ length ticks)%nat →
  acyclic (wait_graph (foldl (λ d now, monitor_tick now d) d ticks)).
Proof.
  intros Hc Hauto Hlen.
  assert (H : acyclic (wait_graph d) ∨ (length (wait_graph d) ≤ length ticks)%nat) by tauto. clear Hlen.
  revert d Hc Hauto H. induction ticks as [|now ticks IH]; intros d Hc Hauto H; simpl.
  - destruct H as [H|H]; [done|]. intros x Hx. simpl in H. destruct (wait_graph d); [|simpl in H; lia].
    inversion Hx as [? ? (e & He & _)|? ? ? (e & He & _)]; by apply not_elem_of_nil in He.
  - apply IH; [by apply consistent_tick|by rewrite tick_auto|]. destruct H as [H|H].
    + left. by apply (acyclic_sub (wait_graph d)), tick_graph.
    + destruct (tick_progress now d Hc Hauto) as [?|?]; [by left|]. right. simpl in H. lia.
Qed.
End victims.
