(* ===== verification/DeadlockMerge.v ===== *)
(** * Merging the wait-for graphs of several processes

    What [merge_snapshot] does to each table: holds are added but never replaced, the edges come out
    settled (they name the current holder, no client waits for itself, none is repeated), every wait
    of either side on a held resource has its edge, and merging the same snapshot again changes
    nothing. *)

From S2P Require Import Prelude RustStd Text Deadlock DeadlockFacts DeadlockInv.
From Stdlib Require Import Lia.

Local Open Scope Z_scope.

(** ** Holds *)

Definition live (h : HeldLockSnapshot) : Prop := sat_sub_u64 (hs_ttl_ms h) (held_for_ms h) ≠ 0.

Definition imported (now : Instant) (h : HeldLockSnapshot) : LockInfo :=
  mkLockInfo (hs_resource h) (client_id_from_string (hs_client_id h)) now
    (sat_sub_u64 (hs_ttl_ms h) (held_for_ms h)).

Lemma merge_held_sub now remote held : held ⊆ merge_held now remote held.
Proof.
  unfold merge_held. revert held. induction remote as [|h l IH]; intros held; simpl; [done|].
  etrans; [|apply IH]. case_decide as Hs; [done|]. case_match; [done|].
  apply insert_subseteq. by apply eq_None_not_Some.
Qed.

Lemma merge_held_in now remote held r i :
  merge_held now remote held !! r = Some i →
  held !! r = Some i ∨ ∃ h, h ∈ remote ∧ hs_resource h = r ∧ live h ∧ i = imported now h.
Proof.
  unfold merge_held. revert held. induction remote as [|h l IH]; intros held H; simpl in H; [by left|].
  apply IH in H as [H|(h' & Hin & H)]; [|right; exists h'; split; [by right|done]].
  case_decide as Hs; [by left|]. destruct (Z.eqb_spec (sat_sub_u64 (hs_ttl_ms h) (held_for_ms h)) 0) as [|Hl]; [by left|].
  apply lookup_insert_Some in H as [[Hr Hi]|[_ H]]; [|by left]. right. exists h. split; [left|]. done.
Qed.

(** Each hold of the snapshot is known afterwards or has run out. *)
Lemma merge_held_dom now remote held h :
  h ∈ remote → live h → is_Some (merge_held now remote held !! hs_resource h).
Proof.
  unfold merge_held. revert held. induction remote as [|h' l IH]; intros held Hin Hl; [by apply not_elem_of_nil in Hin|].
  apply elem_of_cons in Hin as [->|Hin]; [|by apply IH]. simpl.
  match goal with |- is_Some (foldl _ ?m l !! _) => assert (Hs : is_Some (m !! hs_resource h')) end.
  { case_decide as Hs; [done|]. destruct (Z.eqb_spec (sat_sub_u64 (hs_ttl_ms h') (held_for_ms h')) 0); [done|].
    rewrite lookup_insert_eq. by eexists. }
  destruct Hs as [i Hi]. exists i. eapply lookup_weaken; [exact Hi|]. apply (merge_held_sub now l).
Qed.

Lemma merge_held_stable now remote held :
  (∀ h, h ∈ remote → live h → is_Some (held !! hs_resource h)) → merge_held now remote held = held.
Proof.
  unfold merge_held. induction remote as [|h l IH]; intros H; simpl; [done|]. case_decide as Hs.
  - apply IH. intros h' Hin. apply H. by right.
  - destruct (Z.eqb_spec (sat_sub_u64 (hs_ttl_ms h) (held_for_ms h)) 0) as [|Hl].
    + apply IH. intros h' Hin. apply H. by right.
    + destruct Hs. apply H; [left|done].
Qed.

Lemma merge_held_again now now' remote held :
  merge_held now' remote (merge_held now remote held) = merge_held now remote held.
Proof. apply merge_held_stable. intros h Hin Hl. by apply merge_held_dom. Qed.

(** ** Settled graphs *)

Record settled (held : gmap Str LockInfo) (g : list WaitEdge) : Prop := {
  se_holder e : e ∈ g → current_holder held (edge_resource e) (holder e) = holder e;
  se_other e : e ∈ g → holder e ≠ waiter e;
  se_nodup : NoDup (edge_key <$> g)
}.

Lemma edge_exists_spec g w h r :
  edge_exists g w h r = true ↔ ∃ e, e ∈ g ∧ waiter e = w ∧ holder e = h ∧ edge_resource e = r.
Proof.
  unfold edge_exists. rewrite existsb_exists. split.
  - intros (e & He%list_elem_of_In & H%bool_decide_eq_true_1). by exists e.
  - intros (e & He & H). exists e. split; [by apply list_elem_of_In|]. by apply bool_decide_eq_true_2.
Qed.

Lemma edge_exists_key g w h r : edge_exists g w h r = true ↔ (w, r, h) ∈ edge_key <$> g.
Proof.
  rewrite edge_exists_spec, list_elem_of_fmap. split.
  - intros (e & He & <- & <- & <-). by exists e.
  - intros (e & [= -> -> ->] & He). by exists e.
Qed.

Lemma edge_exists_app g g' w h r : edge_exists (g ++ g') w h r = edge_exists g w h r || edge_exists g' w h r.
Proof. apply existsb_app. Qed.

Lemma current_holder_idem held r h : current_holder held r (current_holder held r h) = current_holder held r h.
Proof. unfold current_holder. by destruct (held !! r). Qed.

Lemma settled_snoc held g w h r t :
  settled held g → current_holder held r h = h → h ≠ w → edge_exists g w h r = false →
  settled held (g ++ [mkWaitEdge w h r t]).
Proof.
  intros [Hc Ho Hn] Hh Hne Hex. constructor.
  - intros e [He| ->%list_elem_of_singleton]%elem_of_app; [by apply Hc|done].
  - intros e [He| ->%list_elem_of_singleton]%elem_of_app; [by apply Ho|done].
  - rewrite fmap_app. apply NoDup_app. split; [done|]. split; [|apply NoDup_singleton].
    intros k Hk ->%list_elem_of_singleton. apply edge_exists_key in Hk. simpl in Hk. congruence.
Qed.

Lemma settled_agrees held g : settled held g → agrees held g.
Proof.
  intros [Hc _ _] e i He Hi. specialize (Hc e He). unfold current_holder in Hc. by rewrite Hi in Hc.
Qed.

(** ** Reconciling *)

Lemma reconcile_settled held old seen g :
  settled held g → seen = list_to_set (edge_key <$> g) → settled held (reconcile held old seen g).
Proof.
  revert seen g. induction old as [|e old IH]; intros seen g Hs ->; simpl; [done|].
  case_decide as Hself; [by apply IH|]. case_decide as Hseen; [by apply IH|]. apply IH.
  - apply settled_snoc; simpl in *; [done|apply current_holder_idem|done|]. apply not_true_is_false.
    intros Hex%edge_exists_key. apply Hseen. by apply elem_of_list_to_set.
  - rewrite fmap_app, list_to_set_app_L. set_solver.
Qed.

Lemma reconcile_keeps held old seen g e : e ∈ g → e ∈ reconcile held old seen g.
Proof.
  revert seen g. induction old as [|o old IH]; intros seen g He; simpl; [done|].
  repeat case_decide; apply IH; try done. apply elem_of_app. by left.
Qed.

(** An old edge survives, pointed at the current holder, unless that is its own waiter. *)
Lemma reconcile_complete held old seen g e :
  seen = list_to_set (edge_key <$> g) → e ∈ old →
  current_holder held (edge_resource e) (holder e) ≠ waiter e →
  edge_exists (reconcile held old seen g) (waiter e) (current_holder held (edge_resource e) (holder e)) (edge_resource e) = true.
Proof.
  intros Hs. revert seen g Hs. induction old as [|o old IH]; intros seen g -> He Hne; [by apply not_elem_of_nil in He|]. simpl.
  apply elem_of_cons in He as [<-|He].
  - rewrite decide_False by done. case_decide as Hseen.
    + apply elem_of_list_to_set, edge_exists_key in Hseen. simpl in Hseen.
      apply edge_exists_spec in Hseen as (e' & He' & Hk). apply edge_exists_spec. exists e'. split; [by apply reconcile_keeps|done].
    + apply edge_exists_spec. eexists. split; [apply reconcile_keeps, elem_of_app; right; left|]. done.
  - repeat case_decide; apply IH; try done. rewrite fmap_app, list_to_set_app_L. set_solver.
Qed.

Lemma reconcile_id held g : settled held g → reconcile held g ∅ [] = g.
Proof.
  intros Hs. assert (G : ∀ g1 g2 seen, g = g1 ++ g2 → seen = list_to_set (edge_key <$> g1) → reconcile held g2 seen g1 = g).
  { intros g1 g2. revert g1. induction g2 as [|e g2 IH]; intros g1 seen Hg ->; simpl; [by rewrite Hg, app_nil_r|].
    assert (He : e ∈ g) by (rewrite Hg; set_solver). rewrite (se_holder _ _ Hs e He).
    destruct e as [w h r t]. simpl in *. rewrite decide_False by (by apply (se_other _ _ Hs) in He).
    rewrite decide_False.
    - apply IH; [by rewrite <- app_assoc|]. rewrite fmap_app, list_to_set_app_L. set_solver.
    - intros Hin%elem_of_list_to_set. pose proof (se_nodup _ _ Hs) as Hn. rewrite Hg, fmap_app in Hn.
      apply NoDup_app in Hn as (_ & Hn & _). apply (Hn _ Hin). left. }
  by apply (G [] g).
Qed.

(** ** The table of waits *)

Definition has_wait (waiting : gmap Bytes (list LockInfo)) (w : Bytes) (r : Str) : Prop :=
  ∃ l i, waiting !! w = Some l ∧ i ∈ l ∧ resource i = r.

Lemma has_wait_spec waiting w r :
  existsb (λ i, bool_decide (resource i = r)) (default [] (waiting !! w)) = true ↔ has_wait waiting w r.
Proof.
  rewrite existsb_exists. split.
  - intros (i & Hi%list_elem_of_In & Hr%bool_decide_eq_true_1). destruct (waiting !! w) as [l|] eqn:E; [by exists l, i|].
    by apply not_elem_of_nil in Hi.
  - intros (l & i & -> & Hi & Hr). exists i. split; [by apply list_elem_of_In|]. by apply bool_decide_eq_true_2.
Qed.

Lemma ensure_noop w r t m waiting : has_wait waiting w r → ensure_waiting w r t m waiting = waiting.
Proof. intros H%has_wait_spec. unfold ensure_waiting. by rewrite H. Qed.

Lemma ensure_spec w r t m waiting x q :
  has_wait (ensure_waiting w r t m waiting) x q ↔ has_wait waiting x q ∨ (x = w ∧ q = r).
Proof.
  unfold ensure_waiting. destruct (existsb _ _) eqn:E.
  - apply has_wait_spec in E. split; [by left|]. by intros [?|[-> ->]].
  - destruct (decide (x = w)) as [->|Hx].
    + unfold has_wait at 1. setoid_rewrite lookup_insert_eq. split.
      * intros (l & i & [= <-] & [Hi| ->%list_elem_of_singleton]%elem_of_app & Hr); [left|by right].
        destruct (waiting !! w) as [l|] eqn:El; [by exists l, i|by apply not_elem_of_nil in Hi].
      * intros [(l & i & -> & Hi & Hr)|[_ ->]]; do 2 eexists; (split; [done|]); rewrite elem_of_app.
        -- split; [left; exact Hi|done].
        -- split; [right; left|done].
    + unfold has_wait. setoid_rewrite lookup_insert_ne; [|done]. naive_solver.
Qed.

Lemma ensure_typed held w r t m waiting :
  typed_tables held waiting → in_u64 m → typed_tables held (ensure_waiting w r t m waiting).
Proof.
  intros [Hh Hn Hw] Hm. unfold ensure_waiting. destruct (existsb _ _); [done|]. constructor; [done|..].
  - intros x l [[<- <-]|[_ Hl]]%lookup_insert_Some; [by destruct (default [] _)|by eapply Hn].
  - intros x l i [[<- <-]|[_ Hl]]%lookup_insert_Some Hi; [|by apply (Hw x l)].
    apply elem_of_app in Hi as [Hi| ->%list_elem_of_singleton]; [|done].
    destruct (waiting !! w) as [l|] eqn:E; [by apply (Hw w l)|by apply not_elem_of_nil in Hi].
Qed.

(** ** Folding a snapshot's waits into the tables *)

Abbreviation Tables := (gmap Bytes (list LockInfo) * list WaitEdge)%type.

(** [acc'] knows every wait [acc] knows. *)
Definition extends (acc acc' : Tables) : Prop :=
  (∀ x q, has_wait acc.1 x q → has_wait acc'.1 x q) ∧ ∀ e, e ∈ acc.2 → e ∈ acc'.2.

#[global] Instance extends_preorder : PreOrder extends.
Proof. split; [by intros [a b]|]. intros [a b] [a' b'] [a'' b''] [H1 H2] [H3 H4]. split; auto. Qed.

Lemma edge_exists_mono acc acc' w h r : extends acc acc' → edge_exists acc.2 w h r = true → edge_exists acc'.2 w h r = true.
Proof. intros [_ H] (e & He & Hk)%edge_exists_spec. apply edge_exists_spec. exists e. split; [by apply H|done]. Qed.

(** A step that handles one item, keeps an invariant, and does nothing on handled items. *)
Section folding.
Context {X : Type} (f : Tables → X → Tables) (handled : Tables → X → Prop) (ok : Tables → Prop) (P : X → Prop).
Context (f_ext : ∀ acc x, extends acc (f acc x)) (f_ok : ∀ acc x, P x → ok acc → ok (f acc x))
  (f_handled : ∀ acc x, handled (f acc x) x) (f_noop : ∀ acc x, handled acc x → f acc x = acc)
  (handled_mono : ∀ acc acc' x, extends acc acc' → handled acc x → handled acc' x).

Lemma foldl_extends l acc : extends acc (foldl f acc l).
Proof. revert acc. induction l as [|x l IH]; intros acc; simpl; [done|]. etrans; [apply f_ext|apply IH]. Qed.

Lemma foldl_ok l acc : (∀ x, x ∈ l → P x) → ok acc → ok (foldl f acc l).
Proof.
  revert acc. induction l as [|x l IH]; intros acc HP Hacc; simpl; [done|].
  apply IH; [intros y Hy; apply HP; by right|]. apply f_ok; [apply HP; left|done].
Qed.

Lemma foldl_handled l acc x : x ∈ l → handled (foldl f acc l) x.
Proof.
  revert acc. induction l as [|y l IH]; intros acc Hx; [by apply not_elem_of_nil in Hx|]. simpl.
  apply elem_of_cons in Hx as [->|Hx]; [|by apply IH]. eapply handled_mono; [apply foldl_extends|apply f_handled].
Qed.

Lemma foldl_noop l acc : (∀ x, x ∈ l → handled acc x) → foldl f acc l = acc.
Proof.
  induction l as [|x l IH]; intros H; simpl; [done|]. rewrite f_noop by (apply H; left).
  apply IH. intros y Hy. apply H. by right.
Qed.
End folding.

Section merging.
Context {env : DetectorEnv} (now : Instant) (max_wait : Z) (held : gmap Str LockInfo).
(** The waits anyone has asked for. *)
Context (wanted : Bytes → Str → Prop) (max_wait_ok : in_u64 max_wait).

Record ok (acc : Tables) : Prop := {
  ok_settled : settled held acc.2;
  ok_typed : typed_tables held acc.1;
  ok_waits x q : has_wait acc.1 x q → wanted x q;
  ok_edges e : e ∈ acc.2 → wanted (waiter e) (edge_resource e)
}.

Definition known (acc : Tables) (w h : Bytes) (r : Str) : Prop := h = w ∨ edge_exists acc.2 w h r = true.

Lemma known_mono acc acc' w h r : extends acc acc' → known acc w h r → known acc' w h r.
Proof. intros He [?|?]; [by left|]. right. by eapply edge_exists_mono. Qed.

Lemma add_wait_ext w h r ms acc : extends acc (add_wait now max_wait w h r ms acc).
Proof.
  unfold add_wait. destruct acc as [waiting g]. case_decide; [done|]. destruct (edge_exists g w h r); [done|].
  split; simpl; [|intros e He; apply elem_of_app; by left]. intros x q Hx. apply ensure_spec. by left.
Qed.

Lemma add_wait_known w h r ms acc : known (add_wait now max_wait w h r ms acc) w h r.
Proof.
  unfold add_wait, known. destruct acc as [waiting g]. case_decide; [by left|].
  destruct (edge_exists g w h r) eqn:E; [by right|]. right. simpl. apply edge_exists_spec. eexists.
  split; [apply elem_of_app; right; left|]. done.
Qed.

Lemma add_wait_noop w h r ms acc : known acc w h r → add_wait now max_wait w h r ms acc = acc.
Proof.
  unfold add_wait. destruct acc as [waiting g]. intros [->|H]; [by rewrite decide_True|]. case_decide; [done|].
  simpl in H. by rewrite H.
Qed.

Lemma add_wait_ok w h r ms acc :
  wanted w r → current_holder held r h = h → ok acc → ok (add_wait now max_wait w h r ms acc).
Proof.
  intros Hw Hh Hok. pose proof Hok as [Hs Ht Hwt He]. unfold add_wait. destruct acc as [waiting g]. case_decide as Hne; [done|].
  destruct (edge_exists g w h r) eqn:E; [done|]. simpl in *. constructor; simpl.
  - by apply settled_snoc.
  - by apply ensure_typed.
  - intros x q [?|[-> ->]]%ensure_spec; [by apply Hwt|done].
  - intros e [?| ->%list_elem_of_singleton]%elem_of_app; [by apply He|done].
Qed.

(** *** Remote edges *)

Definition handled_wait (acc : Tables) (e : WaitEdgeSnapshot) : Prop :=
  known acc (client_id_from_string (ws_waiter e))
    (current_holder held (ws_resource e) (client_id_from_string (ws_holder e))) (ws_resource e).
Definition wanted_wait (e : WaitEdgeSnapshot) : Prop := wanted (client_id_from_string (ws_waiter e)) (ws_resource e).

Lemma merge_waits_ok l acc :
  (∀ e, e ∈ l → wanted_wait e) → ok acc → ok (foldl (merge_wait now max_wait held) acc l).
Proof. apply foldl_ok. intros a e Hw Ha. apply add_wait_ok; [done|apply current_holder_idem|done]. Qed.

Lemma merge_waits_ext l acc : extends acc (foldl (merge_wait now max_wait held) acc l).
Proof. apply foldl_extends. intros a e. apply add_wait_ext. Qed.

Lemma merge_waits_handled l acc e : e ∈ l → handled_wait (foldl (merge_wait now max_wait held) acc l) e.
Proof.
  apply (foldl_handled _ handled_wait); [intros; apply add_wait_ext|intros; apply add_wait_known|].
  intros a a' x. apply known_mono.
Qed.

Lemma merge_waits_noop l acc : (∀ e, e ∈ l → handled_wait acc e) → foldl (merge_wait now max_wait held) acc l = acc.
Proof. apply foldl_noop. intros a e H. by apply add_wait_noop. Qed.

(** *** Remote waits without a known holder *)

Definition handled_orphan (acc : Tables) (o : OrphanWaitSnapshot) : Prop :=
  match held !! os_resource o with
  | None => has_wait acc.1 (client_id_from_string (os_waiter o)) (os_resource o)
  | Some info => known acc (client_id_from_string (os_waiter o)) (client_id info) (os_resource o)
  end.
Definition wanted_orphan (o : OrphanWaitSnapshot) : Prop := wanted (client_id_from_string (os_waiter o)) (os_resource o).

Lemma merge_orphan_ext acc o : extends acc (merge_orphan now max_wait held acc o).
Proof.
  unfold merge_orphan. destruct (held !! os_resource o); [apply add_wait_ext|]. split; simpl; [|done].
  intros x q H. apply ensure_spec. by left.
Qed.

Lemma merge_orphan_handled acc o : handled_orphan (merge_orphan now max_wait held acc o) o.
Proof.
  unfold merge_orphan, handled_orphan. destruct (held !! os_resource o); [apply add_wait_known|].
  simpl. apply ensure_spec. by right.
Qed.

Lemma handled_orphan_mono acc acc' o : extends acc acc' → handled_orphan acc o → handled_orphan acc' o.
Proof.
  unfold handled_orphan. intros He. destruct (held !! os_resource o); [by apply known_mono|]. apply He.
Qed.

Lemma merge_orphans_ok l acc :
  (∀ o, o ∈ l → wanted_orphan o) → ok acc → ok (foldl (merge_orphan now max_wait held) acc l).
Proof.
  apply foldl_ok. intros a o Hw Ha. unfold merge_orphan. destruct (held !! os_resource o) as [i|] eqn:E.
  - apply add_wait_ok; [done| |done]. unfold current_holder. by rewrite E.
  - destruct Ha as [Hs Ht Hwt He]. constructor; simpl; [done|by apply ensure_typed| |done].
    intros x q [?|[-> ->]]%ensure_spec; [by apply Hwt|done].
Qed.

Lemma merge_orphans_ext l acc : extends acc (foldl (merge_orphan now max_wait held) acc l).
Proof. apply foldl_extends. apply merge_orphan_ext. Qed.

Lemma merge_orphans_handled l acc o : o ∈ l → handled_orphan (foldl (merge_orphan now max_wait held) acc l) o.
Proof. apply (foldl_handled _ handled_orphan); [apply merge_orphan_ext|apply merge_orphan_handled|apply handled_orphan_mono]. Qed.

Lemma merge_orphans_noop l acc : (∀ o, o ∈ l → handled_orphan acc o) → foldl (merge_orphan now max_wait held) acc l = acc.
Proof.
  apply foldl_noop. intros a o. unfold handled_orphan, merge_orphan. destruct (held !! os_resource o); [apply add_wait_noop|].
  intros H. rewrite ensure_noop by done. by destruct a.
Qed.
End merging.

Lemma reconcile_in held old seen g e :
  e ∈ reconcile held old seen g → e ∈ g ∨ ∃ o, o ∈ old ∧ waiter o = waiter e ∧ edge_resource o = edge_resource e.
Proof.
  revert seen g. induction old as [|o old IH]; intros seen g He; simpl in He; [by left|].
  assert (Hlater : (∃ o', o' ∈ old ∧ waiter o' = waiter e ∧ edge_resource o' = edge_resource e) →
    ∃ o', o' ∈ o :: old ∧ waiter o' = waiter e ∧ edge_resource o' = edge_resource e).
  { intros (o' & Ho & H). exists o'. split; [by right|done]. }
  repeat case_decide; apply IH in He as [He|He]; auto.
  apply elem_of_app in He as [He| ->%list_elem_of_singleton]; [by left|]. right. exists o. split; [left|done].
Qed.

(** ** Relinking *)

Section relinking.
Context (held : gmap Str LockInfo) (g : list WaitEdge).

(** Every wait with its client. *)
Definition each_wait (waiting : list (Bytes * list LockInfo)) : list (Bytes * LockInfo) :=
  '(w, l) ← waiting; pair w <$> l.

Lemma relink_all_flat waiting :
  relink_all held g waiting = foldl (λ relink '(w, info), relink_one held g w relink info) [] (each_wait waiting).
Proof.
  unfold relink_all, each_wait. generalize (@nil WaitEdge).
  induction waiting as [|[w l] waiting IH]; intros acc; simpl; [done|].
  rewrite foldl_app, IH. f_equal. clear IH. revert acc. induction l as [|i l IHl]; intros acc; simpl; [done|]. apply IHl.
Qed.

Definition linked (relink : list WaitEdge) (w : Bytes) (info : LockInfo) : Prop :=
  ∀ h, held !! resource info = Some h → client_id h ≠ w →
    edge_exists (g ++ relink) w (client_id h) (resource info) = true.

Lemma relink_one_cases relink w info :
  (relink_one held g w relink info = relink ∧ linked relink w info) ∨
  ∃ h, held !! resource info = Some h ∧ client_id h ≠ w ∧ edge_exists (g ++ relink) w (client_id h) (resource info) = false ∧
    relink_one held g w relink info = relink ++ [mkWaitEdge w (client_id h) (resource info) (timestamp info)].
Proof.
  unfold relink_one, linked. destruct (held !! resource info) as [h|] eqn:E; [|left; split; [done|]; intros h Hh; congruence].
  case_decide as Hw; [left; split; [done|]; intros h' Hh Hne; congruence|]. rewrite <- edge_exists_app.
  destruct (edge_exists (g ++ relink) w (client_id h) (resource info)) eqn:Ex.
  - left. split; [done|]. intros h' Hh _. congruence.
  - right. by exists h.
Qed.

Lemma linked_app relink more w info : linked relink w info → linked (relink ++ more) w info.
Proof. intros H h Hh Hne. rewrite app_assoc, edge_exists_app, (H h Hh Hne). done. Qed.

Lemma relink_fold_spec l relink :
  settled held (g ++ relink) →
  let res := foldl (λ relink '(w, info), relink_one held g w relink info) relink l in
  settled held (g ++ res) ∧ (∃ more, res = relink ++ more) ∧ (∀ w info, (w, info) ∈ l → linked res w info) ∧
  ∀ e, e ∈ res → e ∈ relink ∨ ∃ info, (waiter e, info) ∈ l ∧ resource info = edge_resource e.
Proof.
  revert relink. induction l as [|[w i] l IH]; intros relink Hs; simpl.
  { split; [done|]. split; [exists []; by rewrite app_nil_r|]. split; [intros w info H; by apply not_elem_of_nil in H|by left]. }
  assert (Hone : settled held (g ++ relink_one held g w relink i) ∧ (∃ more, relink_one held g w relink i = relink ++ more) ∧
    linked (relink_one held g w relink i) w i ∧
    ∀ e, e ∈ relink_one held g w relink i → e ∈ relink ∨ (waiter e = w ∧ edge_resource e = resource i)).
  { destruct (relink_one_cases relink w i) as [[-> Hl]|(h & Hh & Hne & Hex & ->)].
    - split; [done|]. split; [exists []; by rewrite app_nil_r|]. split; [done|by left].
    - split; [rewrite app_assoc; apply settled_snoc; try done; unfold current_holder; by rewrite Hh|].
      split; [by eexists|]. split.
      + intros h' Hh' _. rewrite Hh in Hh'. injection Hh' as ->. apply edge_exists_spec.
        eexists. split; [apply elem_of_app; right; apply elem_of_app; right; left|done].
      + intros e [?| ->%list_elem_of_singleton]%elem_of_app; [by left|by right]. }
  destruct Hone as (Hs1 & (m1 & E1) & Hl1 & Hin1). destruct (IH _ Hs1) as (Hs2 & (m2 & E2) & Hl2 & Hin2).
  split; [done|]. split; [exists (m1 ++ m2); by rewrite E2, E1, app_assoc|]. split.
  - intros w' i' [[= -> ->]|H]%elem_of_cons; [rewrite E2; by apply linked_app|by apply Hl2].
  - intros e He. destruct (Hin2 e He) as [He1|(info & Hi & Hr)]; [|right; exists info; split; [by right|done]].
    destruct (Hin1 e He1) as [?|[<- ?]]; [by left|]. right. exists i. split; [left|done].
Qed.

Lemma relink_noop l : (∀ w info, (w, info) ∈ l → linked [] w info) →
  foldl (λ relink '(w, info), relink_one held g w relink info) [] l = [].
Proof.
  induction l as [|[w i] l IH]; intros H; simpl; [done|].
  destruct (relink_one_cases [] w i) as [[-> _]|(h & Hh & Hne & Hex & _)].
  - apply IH. intros w' i' Hin. apply H. by right.
  - rewrite (H w i ltac:(left) h Hh Hne) in Hex. done.
Qed.
End relinking.

Lemma each_wait_spec {env : DetectorEnv} {laws : DetectorLaws} waiting w info :
  (w, info) ∈ each_wait (waiting_iter waiting) ↔ ∃ l, waiting !! w = Some l ∧ info ∈ l.
Proof.
  unfold each_wait. rewrite list_elem_of_bind. split.
  - intros ([w' l] & (i & [= <- <-] & Hi)%list_elem_of_fmap & Hin). exists l. split; [|done].
    rewrite waiting_iter_perm in Hin. by apply elem_of_map_to_list in Hin.
  - intros (l & Hl & Hi). exists (w, l). split; [apply list_elem_of_fmap; by exists info|].
    rewrite waiting_iter_perm. by apply elem_of_map_to_list.
Qed.

(** ** The whole merge *)

Section merge.
Context {env : DetectorEnv} {laws : DetectorLaws}.

(** Client [w] has asked for [r], here or at the peer. *)
Definition wanted (remote : DeadlockGraphSnapshot) (d : DeadlockDetector) (w : Bytes) (r : Str) : Prop :=
  (∃ e, e ∈ wait_graph d ∧ waiter e = w ∧ edge_resource e = r) ∨ has_wait (waiting_for d) w r ∨
  (∃ e, e ∈ sn_waits remote ∧ client_id_from_string (ws_waiter e) = w ∧ ws_resource e = r) ∨
  (∃ o, o ∈ orphan_waits remote ∧ client_id_from_string (os_waiter o) = w ∧ os_resource o = r).

Definition merged_held (now : Instant) (remote : DeadlockGraphSnapshot) (d : DeadlockDetector) : gmap Str LockInfo :=
  merge_held now (sn_held remote) (held_locks d).

Lemma merged_held_typed now remote d :
  typed d → typed_snapshot remote → typed_tables (merged_held now remote d) (waiting_for d).
Proof.
  intros [[Hh Hn Hw] _ _] Hs. constructor; [|done..]. intros r i [Hi|(h & Hin & <- & _ & ->)]%merge_held_in; [by apply Hh|].
  simpl. split; [done|]. destruct (ts_held _ Hs h Hin). unfold sat_sub_u64. lia.
Qed.

Lemma merge_parts now remote d :
  typed d → typed_snapshot remote →
  ∃ acc : Tables, let held := merged_held now remote d in
    merge_snapshot now remote d = with_tables d held acc.1 (acc.2 ++ relink_all held acc.2 (waiting_iter acc.1)) ∧
    ok held (wanted remote d) acc ∧
    extends (waiting_for d, reconcile held (wait_graph d) ∅ []) acc ∧
    (∀ e, e ∈ sn_waits remote → handled_wait held acc e) ∧
    (∀ o, o ∈ orphan_waits remote → handled_orphan held acc o).
Proof.
  intros Ht Hs. set (held := merged_held now remote d). set (acc0 := (waiting_for d, reconcile held (wait_graph d) ∅ [])).
  set (acc1 := foldl (merge_wait now (max_wait_time_ms d) held) acc0 (sn_waits remote)).
  exists (foldl (merge_orphan now (max_wait_time_ms d) held) acc1 (orphan_waits remote)).
  assert (Hok0 : ok held (wanted remote d) acc0).
  { constructor; simpl.
    - apply reconcile_settled; [|done]. constructor; [intros e He; by apply not_elem_of_nil in He..|constructor].
    - by apply merged_held_typed.
    - intros x q H. right. by left.
    - intros e [He|(o & Ho & <- & <-)]%reconcile_in; [by apply not_elem_of_nil in He|]. left. by exists o. }
  split; [|split; [|split; [|split]]].
  - unfold merge_snapshot. fold (merged_held now remote d). fold held. fold acc0. fold acc1.
    by destruct (foldl _ acc1 (orphan_waits remote)).
  - apply merge_orphans_ok; [apply (ty_max_wait d Ht)|intros o Ho; right; right; right; by exists o|].
    apply merge_waits_ok; [apply (ty_max_wait d Ht)|intros e He; right; right; left; by exists e|done].
  - etrans; [apply merge_waits_ext|apply merge_orphans_ext].
  - intros e He. eapply known_mono; [apply merge_orphans_ext|]. by apply merge_waits_handled.
  - intros o Ho. by apply merge_orphans_handled.
Qed.

Lemma settled_app_nil held g : settled held g → settled held (g ++ []).
Proof. by rewrite app_nil_r. Qed.

Lemma merge_typed now remote d : typed d → typed_snapshot remote → typed (merge_snapshot now remote d).
Proof.
  intros Ht Hs. destruct (merge_parts now remote d Ht Hs) as (acc & -> & Hok & _). constructor; simpl.
  - apply Hok.
  - rewrite relink_all_flat. apply settled_agrees. by apply relink_fold_spec, settled_app_nil, Hok.
  - apply Ht.
Qed.

(** The edges on a held resource are exactly those of the clients that want it, its holder apart. *)
Lemma merge_edges now remote d r i w :
  typed d → typed_snapshot remote → held_locks (merge_snapshot now remote d) !! r = Some i →
  (∃ e, e ∈ wait_graph (merge_snapshot now remote d) ∧ waiter e = w ∧ edge_resource e = r ∧ holder e = client_id i) ↔
  wanted remote d w r ∧ client_id i ≠ w.
Proof.
  intros Ht Hs. destruct (merge_parts now remote d Ht Hs) as (acc & -> & Hok & [Hx1 Hx2] & Hw & Ho). simpl. intros Hi.
  rewrite relink_all_flat.
  destruct (relink_fold_spec _ _ (each_wait (waiting_iter acc.1)) [] (settled_app_nil _ _ (ok_settled _ _ _ Hok))) as (Hset & _ & Hlink & Hin).
  revert Hset Hlink Hin. generalize (foldl (λ relink '(w, info), relink_one (merged_held now remote d) acc.2 w relink info) [] (each_wait (waiting_iter acc.1))).
  intros rel Hset Hlink Hin. split.
  - intros (e & He & <- & <- & Hh). split; [|rewrite <- Hh; by apply (se_other _ _ Hset)].
    apply elem_of_app in He as [He|He]; [by apply (ok_edges _ _ _ Hok)|].
    destruct (Hin e He) as [H|(info & (l & Hl & Hil)%each_wait_spec & Hr)]; [by apply not_elem_of_nil in H|].
    apply (ok_waits _ _ _ Hok). by exists l, info.
  - intros [Hwant Hne]. assert (Hk : edge_exists (acc.2 ++ rel) w (client_id i) r = true).
    2: { apply edge_exists_spec in Hk as (e & He & Hew & Heh & Her). by exists e. }
    rewrite edge_exists_app. destruct Hwant as [(e & He & <- & <-)|[Hwt|[(e & He & <- & <-)|(o & Hoo & <- & <-)]]].
    + pose proof (reconcile_complete (merged_held now remote d) (wait_graph d) ∅ [] e eq_refl He) as Hr.
      unfold current_holder in Hr. rewrite Hi in Hr. specialize (Hr Hne).
      by rewrite (edge_exists_mono (waiting_for d, reconcile (merged_held now remote d) (wait_graph d) ∅ []) acc).
    + apply Hx1 in Hwt as (l & info & Hl & Hil & <-). rewrite <- edge_exists_app. apply (Hlink w info); [|done..].
      apply each_wait_spec. by exists l.
    + destruct (Hw e He) as [H|H]; unfold current_holder in H; rewrite Hi in H; [done|by rewrite H].
    + specialize (Ho o Hoo). unfold handled_orphan in Ho. rewrite Hi in Ho. destruct Ho as [H|H]; [done|by rewrite H].
Qed.

(** Merging the same snapshot again, at any later time, changes nothing. *)
Lemma merge_twice now now' remote d :
  typed d → typed_snapshot remote →
  merge_snapshot now' remote (merge_snapshot now remote d) = merge_snapshot now remote d.
Proof.
  intros Ht Hs. destruct (merge_parts now remote d Ht Hs) as (acc & -> & Hok & _ & Hw & Ho).
  set (held := merged_held now remote d) in *. rewrite relink_all_flat.
  destruct (relink_fold_spec _ _ (each_wait (waiting_iter acc.1)) [] (settled_app_nil _ _ (ok_settled _ _ _ Hok))) as (Hset & _ & Hlink & _).
  set (g := acc.2 ++ _) in *. unfold merge_snapshot. simpl.
  rewrite (merge_held_again now now' (sn_held remote) (held_locks d) : merge_held now' (sn_held remote) held = held).
  rewrite (reconcile_id held g Hset).
  assert (Hext : extends acc (acc.1, g)) by (split; simpl; [done|]; intros e He; apply elem_of_app; by left).
  rewrite merge_waits_noop by (intros e He; eapply known_mono; [exact Hext|by apply Hw]).
  rewrite merge_orphans_noop by (intros o Hoo; eapply handled_orphan_mono; [exact Hext|by apply Ho]).
  unfold with_tables. simpl. f_equal.
  rewrite relink_all_flat, relink_noop; [by rewrite app_nil_r|]. intros w info Hin h Hh Hne. rewrite app_nil_r. by apply Hlink.
Qed.
End merge.
