(* ===== verification/DeadlockProps.v ===== *)
(** * Properties of the deadlock detector

    Programs of detector calls keep the tables well-formed; detection finds exactly the cycles;
    the background monitor clears every deadlock; merged graphs show the cycles that run through
    several processes; and an example in which the monitor picks a client outside the cycle. *)

From S2P Require Import Prelude RustStd Text Deadlock DeadlockFacts DeadlockInv DeadlockMerge.
From Stdlib Require Import Lia.

Local Open Scope Z_scope.

(** ** Programs *)

Inductive Call : Type :=
| Acquire (now : Instant) (r : Str) (c : Bytes) (ttl : Z)
| Release (r : Str) (c : Bytes)
| Wait (now : Instant) (r : Str) (c : Bytes) (ttl : Z)
| GiveUp (c : Bytes)
| Detect (now : Instant)
| View (now : Instant) (cleanup : bool)
| ReleaseClient (c : Bytes)
| Tick (now : Instant)
| Merge (now : Instant) (remote : DeadlockGraphSnapshot).

Section programs.
Context {env : DetectorEnv}.

Definition call (d : DeadlockDetector) (op : Call) : DeadlockDetector :=
  match op with
  | Acquire now r c ttl => record_lock_acquired now r c ttl d
  | Release r c => record_lock_released r c d
  | Wait now r c ttl => record_lock_wait now r c ttl d
  | GiveUp c => remove_from_waiting c d
  | Detect now => (detect_deadlock now d).2
  | View now cleanup => (collect_consistent_view now cleanup d).2
  | ReleaseClient c => (release_client_locks c d).2
  | Tick now => monitor_tick now d
  | Merge now remote => merge_snapshot now remote d
  end.

Definition run (ops : list Call) (d : DeadlockDetector) : DeadlockDetector := foldl call d ops.

(** Arguments of the types the methods declare. *)
Definition call_typed (op : Call) : Prop :=
  match op with
  | Acquire _ _ _ ttl | Wait _ _ _ ttl => in_u64 ttl
  | Merge _ remote => typed_snapshot remote
  | _ => True
  end.

Definition local (op : Call) : Prop := match op with Merge _ _ => False | _ => True end.

Lemma call_keeps_typed {laws : DetectorLaws} d op : call_typed op → typed d → typed (call d op).
Proof.
  intros Ho Hd. destruct op; simpl in *.
  - by apply typed_acquired.
  - by eapply typed_shrinks, shrinks_released.
  - by apply typed_wait.
  - by eapply typed_shrinks, shrinks_remove.
  - by apply typed_cleanup.
  - destruct cleanup; [by apply typed_cleanup|done].
  - by eapply typed_shrinks, shrinks_release_client.
  - by apply typed_tick.
  - by apply merge_typed.
Qed.

Lemma run_typed {laws : DetectorLaws} ops d : Forall call_typed ops → typed d → typed (run ops d).
Proof.
  unfold run. revert d. induction ops as [|op ops IH]; intros d Ho Hd; simpl; [done|].
  inversion Ho; subst. apply IH; [done|]. by apply call_keeps_typed.
Qed.

Lemma call_keeps_consistent d op : local op → consistent d → consistent (call d op).
Proof.
  intros Ho Hd. destruct op; simpl in *; [..|done].
  - by apply consistent_acquired.
  - by apply consistent_released.
  - by apply consistent_wait.
  - by apply consistent_remove.
  - by apply consistent_cleanup.
  - destruct cleanup; [by apply consistent_cleanup|done].
  - by apply consistent_release_client.
  - by apply consistent_tick.
Qed.

Lemma run_consistent ops d : Forall local ops → consistent d → consistent (run ops d).
Proof.
  unfold run. revert d. induction ops as [|op ops IH]; intros d Ho Hd; simpl; [done|].
  inversion Ho; subst. apply IH; [done|]. by apply call_keeps_consistent.
Qed.

Lemma call_auto d op : auto_resolve (call d op) = auto_resolve d.
Proof.
  destruct op; simpl; try done.
  - unfold record_lock_acquired. by repeat case_match.
  - unfold record_lock_released. by repeat case_match.
  - by destruct cleanup.
  - apply tick_auto.
  - unfold merge_snapshot. by case_match.
Qed.

Lemma run_auto ops d : auto_resolve (run ops d) = auto_resolve d.
Proof.
  unfold run. revert d. induction ops as [|op ops IH]; intros d; simpl; [done|]. by rewrite IH, call_auto.
Qed.
End programs.

Lemma listed_env_laws first : @DetectorLaws (listed_env first).
Proof.
  split; try done. intros s. simpl.
  apply NoDup_Permutation.
  - apply NoDup_app. split; [apply NoDup_filter, NoDup_remove_dups|]. split; [|apply NoDup_elements].
    intros x [_ Hx]%list_elem_of_filter [_ Hn]%elem_of_elements%elem_of_difference.
    rewrite elem_of_remove_dups in Hx. by apply Hn, elem_of_list_to_set.
  - apply NoDup_elements.
  - intros x. rewrite elem_of_app, list_elem_of_filter, elem_of_remove_dups, !elem_of_elements, elem_of_difference, elem_of_list_to_set.
    destruct (decide (x ∈ first)); tauto.
Qed.

(** ** Two processes *)

Section processes.
Context {env : DetectorEnv} {laws : DetectorLaws}.

(** Client [w] waits for [r] in a process's tables. *)
Definition asks (d : DeadlockDetector) (w : Bytes) (r : Str) : Prop :=
  (∃ e, e ∈ wait_graph d ∧ waiter e = w ∧ edge_resource e = r) ∨ has_wait (waiting_for d) w r.

(** [c] holds [r], as one process knows or else as the other does, its lock not having run out. *)
Definition holder_of (now : Instant) (d1 d2 : DeadlockDetector) (r : Str) (c : Bytes) : Prop :=
  (∃ i, held_locks d1 !! r = Some i ∧ client_id i = c) ∨
  (held_locks d1 !! r = None ∧ ∃ i, held_locks d2 !! r = Some i ∧ client_id i = c ∧ remaining_ttl_ms now i ≠ 0).

Definition global_waits (now : Instant) (d1 d2 : DeadlockDetector) (x y : Bytes) : Prop :=
  x ≠ y ∧ ∃ r, (asks d1 x r ∨ asks d2 x r) ∧ holder_of now d1 d2 r y.

(** The client names of a process survive export. *)
Definition utf8_clients (d : DeadlockDetector) : Prop :=
  (∀ r i, held_locks d !! r = Some i → is_Some (from_utf8 (client_id i))) ∧
  (∀ w r, asks d w r → is_Some (from_utf8 w)).

Lemma client_roundtrip c : is_Some (from_utf8 c) → client_id_from_string (client_id_to_string c) = c.
Proof. intros [s Hs]. apply utf8_exact in Hs as [El Eb]. unfold client_id_from_string, client_id_to_string. by rewrite El. Qed.

Lemma export_typed now d : typed d → typed_snapshot (export_snapshot now d).
Proof.
  intros Ht. constructor; simpl.
  - intros h (i & -> & (r & Hi)%elem_of_infos)%list_elem_of_fmap. simpl. split; [by apply (ty_held _ _ (ty_tables d Ht) r)|apply wrap_u64_range].
  - intros e (e' & -> & _)%list_elem_of_fmap. apply wrap_u64_range.
  - intros o Ho. unfold export_orphans in Ho. apply list_elem_of_bind in Ho as ([w l] & Ho & _).
    apply list_elem_of_bind in Ho as (i & Ho & _). destruct (existsb _ _); [by apply not_elem_of_nil in Ho|].
    apply list_elem_of_singleton in Ho as ->. apply wrap_u64_range.
Qed.

(** Every wait of a process is in its snapshot, as an edge or as an orphan. *)
Lemma export_asks now d w r :
  utf8_clients d →
  ((∃ e, e ∈ sn_waits (export_snapshot now d) ∧ client_id_from_string (ws_waiter e) = w ∧ ws_resource e = r) ∨
   (∃ o, o ∈ orphan_waits (export_snapshot now d) ∧ client_id_from_string (os_waiter o) = w ∧ os_resource o = r)) ↔ asks d w r.
Proof.
  intros [_ Hu]. split.
  - intros [(e & (e' & -> & He)%list_elem_of_fmap & Hw & Hr)|(o & Ho & Hw & Hr)]; simpl in *.
    + assert (Ha : asks d (waiter e') (edge_resource e')) by (left; by exists e').
      rewrite client_roundtrip in Hw by (by eapply Hu). by rewrite <- Hw, <- Hr.
    + unfold export_orphans in Ho. apply list_elem_of_bind in Ho as ([w' l] & Ho & Hl).
      apply list_elem_of_bind in Ho as (i & Ho & Hi). destruct (existsb _ _); [by apply not_elem_of_nil in Ho|].
      apply list_elem_of_singleton in Ho as ->. simpl in *. rewrite waiting_iter_perm in Hl. apply elem_of_map_to_list in Hl.
      assert (Ha : asks d w' (resource i)) by (right; by exists l, i).
      rewrite client_roundtrip in Hw by (by eapply Hu). by rewrite <- Hw, <- Hr.
  - intros Ha. pose proof (client_roundtrip w (Hu w r Ha)) as Hrt.
    assert (Hedge : (∃ e, e ∈ wait_graph d ∧ waiter e = w ∧ edge_resource e = r) →
      ∃ e, e ∈ sn_waits (export_snapshot now d) ∧ client_id_from_string (ws_waiter e) = w ∧ ws_resource e = r).
    { intros (e & He & <- & <-). exists (export_edge now e). split; [apply list_elem_of_fmap; by exists e|done]. }
    destruct Ha as [He|(l & i & Hl & Hi & <-)]; [left; by apply Hedge|].
    destruct (existsb (λ e, bool_decide (waiter e = w ∧ edge_resource e = resource i)) (wait_graph d)) eqn:Ex.
    + left. apply Hedge. apply existsb_exists in Ex as (e & He%list_elem_of_In & Hb%bool_decide_eq_true_1). by exists e.
    + right. exists (mkOrphanWaitSnapshot (client_id_to_string w) (resource i) (as_millis (elapsed now (timestamp i)))).
      split; [|split; [exact Hrt|reflexivity]]. simpl. unfold export_orphans.
      apply list_elem_of_bind. exists (w, l). split; [|rewrite waiting_iter_perm; by apply elem_of_map_to_list].
      apply list_elem_of_bind. exists i. split; [|done]. rewrite Ex. left.
Qed.

(** The holders of the merged table. *)
Lemma merged_holder now now' d1 d2 r c :
  typed d2 → utf8_clients d2 →
  (∃ i, merged_held now (export_snapshot now' d2) d1 !! r = Some i ∧ client_id i = c) ↔ holder_of now' d1 d2 r c.
Proof.
  intros Ht [Hu _]. unfold merged_held. split.
  - intros (i & Hi & <-). destruct (held_locks d1 !! r) as [j|] eqn:E.
    + left. exists j. rewrite (lookup_weaken _ _ _ _ E (merge_held_sub now _ _)) in Hi. by injection Hi as ->.
    + right. split; [done|]. apply merge_held_in in Hi as [Hi|(h & Hin & <- & Hl & ->)]; [congruence|].
      simpl in Hin. apply list_elem_of_fmap in Hin as (j & -> & (r & Hj)%elem_of_infos). exists j.
      destruct (ty_held _ _ (ty_tables d2 Ht) r j Hj) as [<- _]. simpl. split; [done|]. split; [|done].
      symmetry. apply client_roundtrip. by eapply Hu.
  - intros [(i & Hi & <-)|(Hnone & i & Hi & <- & Hl)].
    + exists i. split; [|done]. by eapply lookup_weaken, merge_held_sub.
    + assert (Hin : export_held now' i ∈ sn_held (export_snapshot now' d2)).
      { simpl. apply list_elem_of_fmap. exists i. split; [done|]. apply elem_of_infos. by exists r. }
      destruct (ty_held _ _ (ty_tables d2 Ht) r i Hi) as [Hr _].
      destruct (merge_held_dom now _ (held_locks d1) _ Hin Hl) as [k Hk]. simpl in Hk. rewrite Hr in Hk.
      exists k. split; [done|]. apply merge_held_in in Hk as [Hk|(h & Hh & Ehr & _ & ->)]; [congruence|].
      simpl in Hh. apply list_elem_of_fmap in Hh as (j & -> & (q & Hj)%elem_of_infos). simpl in *.
      destruct (ty_held _ _ (ty_tables d2 Ht) q j Hj) as [Hq _]. rewrite client_roundtrip by (by eapply Hu). congruence.
Qed.

Lemma wanted_asks now d1 d2 w r :
  utf8_clients d2 → wanted (export_snapshot now d2) d1 w r ↔ asks d1 w r ∨ asks d2 w r.
Proof. intros Hu. rewrite <- (export_asks now d2 w r Hu). unfold wanted, asks. tauto. Qed.

Lemma merge_held_eq now remote d : typed d → typed_snapshot remote →
  held_locks (merge_snapshot now remote d) = merged_held now remote d.
Proof. intros Ht Hs. by destruct (merge_parts now remote d Ht Hs) as (acc & -> & _). Qed.

Lemma merge_global now now' d1 d2 :
  typed d1 → typed d2 → utf8_clients d2 →
  let d := merge_snapshot now (export_snapshot now' d2) d1 in
  (∀ x y, global_waits now' d1 d2 x y → waits (wait_graph d) x y) ∧
  (∀ e, e ∈ wait_graph d → is_Some (held_locks d !! edge_resource e) → global_waits now' d1 d2 (waiter e) (holder e)).
Proof.
  intros H1 H2 Hu d. pose proof (export_typed now' d2 H2) as Hs.
  pose proof (merge_edges now (export_snapshot now' d2) d1) as Hedges.
  assert (Hheld : held_locks d = merged_held now (export_snapshot now' d2) d1) by (by apply merge_held_eq).
  split.
  - intros x y (Hne & r & Ha & Hh). apply (merged_holder now) in Hh as (i & Hi & Ei); try done.
    rewrite <- Hheld in Hi. destruct (proj2 (Hedges r i x H1 Hs Hi)) as (e & He & Hw & _ & Hho).
    + split; [by apply wanted_asks|congruence].
    + exists e. split; [done|]. split; congruence.
  - intros e He [i Hi]. assert (Hag := ty_agrees d (merge_typed _ _ _ H1 Hs) e i He Hi).
    destruct (proj1 (Hedges (edge_resource e) i (waiter e) H1 Hs Hi)) as [Hw Hne]; [by exists e|].
    split; [congruence|]. exists (edge_resource e). split; [by apply (wanted_asks now')|].
    apply (merged_holder now); try done. exists i. by rewrite <- Hheld.
Qed.
End processes.

(** ** Properties *)

(** A tiny scene: two clients that wait for each other, and a third that waits for one of them. *)
Definition client_a : Bytes := bs "a".
Definition client_b : Bytes := bs "b".
Definition client_c : Bytes := bs "c".

Definition ring : list Call :=
  [Acquire 0 (str "r1") client_b 60000; Acquire 1 (str "r2") client_c 60000;
   Wait 3 (str "r2") client_b 60000; Wait 4 (str "r1") client_c 60000].

Definition lead_in : list Call :=
  [Acquire 0 (str "r1") client_b 60000; Acquire 1 (str "r2") client_c 60000; Acquire 2 (str "r3") client_a 60000;
   Wait 3 (str "r2") client_b 60000; Wait 4 (str "r1") client_c 60000; Wait 5 (str "r1") client_a 60000].

(** C6. Cycle detection is exact.  Whatever order the hasher makes the search try clients in,
    [detect_from_graph] ends with [NoDeadlock] if and only if no client waits, through any number of
    others, for itself.  When it reports a deadlock, the reported clients form a chain of waits, the
    i-th one waiting for the i-th reported resource that the next one holds, which ends by coming
    back to one of them, so that its tail is a real cycle. *)
Theorem detect_correct {env : DetectorEnv} {laws : DetectorLaws} (g : list WaitEdge) :
  (detect_from_graph g = NoDeadlock ↔ ∀ x, ¬ tc (waits g) x x) ∧
  ∀ cycle rs, detect_from_graph g = Deadlock cycle rs →
    ∃ lead z loop, cycle = lead ++ z :: loop ∧ trail g cycle rs z ∧ trail g (z :: loop) (drop (length lead) rs) z ∧
      tc (waits g) z z.
Proof.
  split; [apply detect_cycle|]. intros cycle rs E. pose proof (detect_spec g) as Hd. rewrite E in Hd.
  destruct Hd as (z & Hz & Ht). destruct (trail_loop g cycle rs z Hz Ht) as (lead & loop & -> & Hl).
  exists lead, z, loop. repeat split; try apply Ht; try apply Hl. apply (trail_tc _ _ _ _ _ Hl). left.
Qed.

Lemma detect_correct_witness :
  ∃ lead z loop, [client_b; client_c] = lead ++ z :: loop ∧
    tc (waits (wait_graph (@run (listed_env [client_b]) ring (new 30000 true)))) z z.
Proof.
  destruct (@detect_correct (listed_env [client_b]) (listed_env_laws [client_b]) (wait_graph (@run (listed_env [client_b]) ring (new 30000 true)))) as [_ H].
  destruct (H [client_b; client_c] [str "r2"; str "r1"]) as (lead & z & loop & E & _ & _ & Hz).
  - vm_compute. reflexivity.
  - exists lead, z, loop. split; [exact E|exact Hz].
Defined.

(** The detector is well-typed after any program of calls.  Every held lock is filed under its
    own resource, every wait under its own client and in a non-empty list, every duration fits a
    [u64], and no edge of the wait-for graph contradicts the table of holders; also after merging
    snapshots of other processes, and whatever times the clock shows. *)
Theorem detector_typed {env : DetectorEnv} {laws : DetectorLaws} (m : Z) (auto : bool) (s : VictimSelectionStrategy) (ops : list Call) :
  in_u64 m → Forall call_typed ops → typed (run ops (new_with_strategy m auto s)).
Proof. intros Hm Ho. apply run_typed; [done|]. by apply typed_new. Qed.

(** The monitor clears every deadlock.  After any program of calls on one process (everything but
    merging), with automatic resolution on, as many ticks of the background task as there are edges
    in the wait-for graph leave a graph without a deadlock, at whatever times the ticks come and
    whichever victims the strategy picks. *)
Theorem monitor_clears {env : DetectorEnv} {laws : DetectorLaws} (m : Z) (s : VictimSelectionStrategy)
    (ops : list Call) (ticks : list Instant) :
  Forall local ops →
  (length (wait_graph (run ops (new_with_strategy m true s))) ≤ length ticks)%nat →
  detect_from_graph (wait_graph (foldl (λ d now, monitor_tick now d) (run ops (new_with_strategy m true s)) ticks)) = NoDeadlock.
Proof.
  intros Hl Hlen. apply detect_cycle, ticks_clear; [|by rewrite run_auto|done].
  apply run_consistent; [done|]. intros e He. by apply not_elem_of_nil in He.
Qed.

(** C16. Merging shows the deadlocks that run through two processes.  Say that a client waits for
    another if either process has recorded its wait for a resource that the other client holds
    (the first process's table deciding, and the second one's lock not having run out at export).
    After merging the second process's snapshot into the first, every such wait is an edge, every edge
    on a held resource is such a wait, and a cycle of such waits is reported.  Client names have to be
    UTF-8, which export relies on. *)
Theorem cross_process_deadlock {env : DetectorEnv} {laws : DetectorLaws} (now now' : Instant) (d1 d2 : DeadlockDetector) :
  typed d1 → typed d2 → utf8_clients d2 →
  let d := merge_snapshot now (export_snapshot now' d2) d1 in
  (∀ x y, global_waits now' d1 d2 x y → waits (wait_graph d) x y) ∧
  (∀ e, e ∈ wait_graph d → is_Some (held_locks d !! edge_resource e) → global_waits now' d1 d2 (waiter e) (holder e)) ∧
  ((∃ x, tc (global_waits now' d1 d2) x x) → detect_from_graph (wait_graph d) ≠ NoDeadlock).
Proof.
  intros H1 H2 Hu d. destruct (merge_global now now' d1 d2 H1 H2 Hu) as [Ha Hb]. split; [done|]. split; [done|].
  intros (x & Hx) Hno%detect_cycle. apply (Hno x). clear Hno. revert Hx. generalize x at 2 4. intros y Hx.
  induction Hx as [x y H|x y z H _ IH]; [apply tc_once|eapply tc_l; [|exact IH]]; by apply Ha.
Qed.

Definition half_one : DeadlockDetector :=
  @run (listed_env []) [Acquire 0 (str "A") client_a 60000; Wait 1 (str "B") client_a 60000] (new 30000 true).
Definition half_two : DeadlockDetector :=
  @run (listed_env []) [Acquire 0 (str "B") client_b 60000; Wait 1 (str "A") client_b 60000] (new 30000 true).

Lemma half_typed (x y : Str) (c : Bytes) : typed (@run (listed_env []) [Acquire 0 x c 60000; Wait 1 y c 60000] (new 30000 true)).
Proof.
  apply (@run_typed (listed_env []) (listed_env_laws [])); [|apply typed_new; unfold u64_max; lia].
  repeat constructor; unfold u64_max; simpl; lia.
Qed.

Lemma half_two_utf8 : utf8_clients half_two.
Proof.
  split.
  - intros r i H. change (held_locks half_two) with ({[str "B" := mkLockInfo (str "B") client_b 0 60000]} : gmap Str LockInfo) in H.
    apply lookup_singleton_Some in H as [_ <-]. by eexists.
  - intros w r [(e & He & _)|(l & i & Hl & _)]; [by apply not_elem_of_nil in He|].
    change (waiting_for half_two) with ({[client_b := [mkLockInfo (str "A") client_b 1 60000]]} : gmap Bytes (list LockInfo)) in Hl.
    apply lookup_singleton_Some in Hl as [<- _]. by eexists.
Qed.

Lemma half_waits :
  @global_waits 2 half_one half_two client_a client_b ∧ @global_waits 2 half_one half_two client_b client_a.
Proof.
  split; (split; [by vm_compute|]).
  - exists (str "B"). split.
    + left. right. exists [mkLockInfo (str "B") client_a 1 60000], (mkLockInfo (str "B") client_a 1 60000).
      split; [by vm_compute|]. split; [left|done].
    + right. split; [by vm_compute|]. exists (mkLockInfo (str "B") client_b 0 60000). repeat split; by vm_compute.
  - exists (str "A"). split.
    + right. right. exists [mkLockInfo (str "A") client_b 1 60000], (mkLockInfo (str "A") client_b 1 60000).
      split; [by vm_compute|]. split; [left|done].
    + left. exists (mkLockInfo (str "A") client_a 0 60000). split; by vm_compute.
Qed.

Lemma cross_process_deadlock_witness :
  @detect_from_graph (listed_env []) (wait_graph (@merge_snapshot (listed_env []) 3 (@export_snapshot (listed_env []) 2 half_two) half_one)) ≠ NoDeadlock.
Proof.
  destruct (@cross_process_deadlock (listed_env []) (listed_env_laws []) 3 2 half_one half_two
    (half_typed (str "A") (str "B") client_a) (half_typed (str "B") (str "A") client_b) half_two_utf8) as (_ & _ & H).
  apply H. exists client_a. apply (tc_l _ _ client_b); [apply half_waits|apply tc_once, half_waits].
Defined.

(** Merging is idempotent.  A second merge of the same snapshot, at any later time, leaves the
    three tables as the first one left them. *)
Theorem merge_idempotent {env : DetectorEnv} {laws : DetectorLaws} (now now' : Instant) (remote : DeadlockGraphSnapshot) (d : DeadlockDetector) :
  typed d → typed_snapshot remote →
  merge_snapshot now' remote (merge_snapshot now remote d) = merge_snapshot now remote d.
Proof. apply merge_twice. Qed.

(** Victim selection follows the strategy.  With automatic resolution on, a victim is chosen as
    soon as some client of the reported cycle holds a lock; it is a client of the cycle that holds
    one, and over every lock of every client of the cycle it has what the strategy asks: a lock at
    least as recent, a lock at least as old, or fewer locks (as many and a lock at least as recent). *)
Theorem victim_follows_strategy {env : DetectorEnv} {laws : DetectorLaws} (cycle : list Bytes) (d : DeadlockDetector) :
  auto_resolve d = true → (∃ c i, c ∈ cycle ∧ holds d c i) →
  ∃ v, resolve_deadlock cycle d = Some v ∧ v ∈ cycle ∧ (∃ i, holds d v i) ∧
       ∀ c i, c ∈ cycle → holds d c i → preferred d v c i.
Proof. apply resolve_some. Qed.

(** The monitor can pick a client that is in no cycle.  The search reports the whole path from
    the client it started at, not the cycle alone.  Here b and c wait for each other and a only waits
    for b; nobody waits for a.  When the search starts at a, the reported cycle names a, which is the
    youngest, so the tick takes a's lock away, and b and c still wait for each other. *)
Theorem lead_in_victim :
  let env := listed_env [client_a] in
  let d := @run env lead_in (new 30000 true) in
  let d' := @monitor_tick env 6 d in
  @detect_from_graph env (wait_graph d) = Deadlock [client_a; client_b; client_c] [str "r1"; str "r2"; str "r1"] ∧
  (¬ tc (waits (wait_graph d)) client_a client_a) ∧
  is_Some (held_locks d !! str "r3") ∧ held_locks d' !! str "r3" = None ∧
  tc (waits (wait_graph d')) client_b client_b.
Proof.
  intros env d d'. split; [by vm_compute|]. split; [|split; [by vm_compute; eexists|]].
  - intros H. assert (∃ x, waits (wait_graph d) x client_a) as (x & e & He & _ & Hh).
    { revert H. generalize client_a at 1. intros y H. induction H; [by eexists|done]. }
    assert (Hall : forallb (λ e, negb (bool_decide (holder e = client_a))) (wait_graph d) = true) by (by vm_compute).
    apply (forallb_elem _ _ Hall) in He. rewrite Hh in He. by rewrite bool_decide_eq_true_2 in He.
  - split; [by vm_compute|]. apply (tc_l _ _ client_c); [|apply tc_once].
    + exists (mkWaitEdge client_b client_c (str "r2") 3). split; [|done]. vm_compute. left.
    + exists (mkWaitEdge client_c client_b (str "r1") 4). split; [|done]. vm_compute. right. left.
Qed.
