(* ===== verification/Acl.v ===== *)
(** * Access control ([acl.rs])

    Users with their passwords, command, key and channel permissions, the rules of ACL SETUSER, and
    the text that ACL SAVE writes and ACL LOAD reads.  Reading and writing the file itself is left
    out.  A rule that fails leaves the user as it was, so a rule is a function from users to a user
    or an error. *)

From S2P Require Import Prelude RustStd Text Glob.
From Stdlib Require Import Lia.
Local Open Scope Z_scope.

(** ** Matching names against patterns *)

(** The loop of [glob_match_bytes].  Equal bytes are tried before the star. *)
Fixpoint acl_match_loop (fuel : nat) (pat text : Bytes) (pi ti : nat) (star_pi : option nat) (star_ti : nat)
    : loop_result :=
  match fuel with
  | O => LoopFuel
  | S fuel =>
    match text !! ti with
    | None => LoopEnd pi
    | Some tc =>
      let backtrack :=
        match star_pi with
        | Some sp => acl_match_loop fuel pat text (sp + 1) (star_ti + 1) star_pi (star_ti + 1)
        | None => LoopFalse
        end in
      match pat !! pi with
      | Some pc =>
        if decide (u8 pc = quest ∨ pc = tc) then acl_match_loop fuel pat text (pi + 1) (ti + 1) star_pi star_ti
        else if decide (u8 pc = star) then acl_match_loop fuel pat text (pi + 1) ti (Some pi) ti
        else backtrack
      | None => backtrack
      end
    end
  end.

Definition glob_match_bytes (pat text : Bytes) : bool :=
  match acl_match_loop (match_fuel (u8 <$> pat) (u8 <$> text)) pat text 0 0 None 0 with
  | LoopEnd pi => bool_decide (skip_stars (length pat) (u8 <$> pat) pi = length pat)
  | LoopFalse | LoopFuel => false
  end.

Definition glob_match (pat text : Str) : bool := glob_match_bytes (as_bytes pat) (as_bytes text).

(** ** Categories *)

Definition category_table : list (Str * list Str) :=
  [
    (str "read", str <$> ["get"; "mget"; "exists"; "type"; "strlen"; "lcs"; "getrange"; "substr"; "ttl";
      "pttl"; "keys"; "scan"; "dbsize"; "hget"; "hmget"; "hgetall"; "hlen"; "hexists"; "hkeys"; "hvals";
      "hstrlen"; "hrandfield"; "lrange"; "llen"; "lindex"; "lpos"; "smembers"; "sismember"; "scard"; "sinter";
      "sunion"; "sdiff"; "srandmember"; "sscan"; "zrange"; "zrevrange"; "zcard"; "zscore"; "zmscore"; "zrank";
      "zrevrank"; "zrangebyscore"; "zrevrangebyscore"; "zcount"; "zrangebylex"; "zrevrangebylex"; "zlexcount";
      "zrandmember"; "zscan"; "zunion"; "zinter"; "zdiff"; "zintercard"; "hscan"; "xlen"; "xrange";
      "xrevrange"; "xread"; "xpending"; "xinfo"; "geopos"; "geodist"; "geohash"; "geosearch"; "georadius_ro";
      "georadiusbymember_ro"; "info"; "role"; "lastsave"; "object"; "memory"; "dump"; "strlen"; "getbit";
      "bitcount"; "bitpos"; "bitfield_ro"; "pfcount"; "time"; "sort"; "lolwut"; "eval_ro"; "evalsha_ro";
      "ft.search"; "ft.info"; "ft._list"; "ft.tagvals"]%string);
    (str "write", str <$> ["set"; "del"; "mset"; "msetnx"; "append"; "setrange"; "setex"; "psetex"; "getset";
      "unlink"; "rename"; "renamenx"; "migrate"; "setnx"; "getdel"; "getex"; "incr"; "decr"; "incrby";
      "decrby"; "incrbyfloat"; "expire"; "pexpire"; "expireat"; "pexpireat"; "persist"; "expiretime";
      "pexpiretime"; "hset"; "hsetnx"; "hmset"; "hdel"; "hgetdel"; "hincrby"; "hincrbyfloat"; "lpush"; "rpush";
      "lpushx"; "rpushx"; "lpop"; "rpop"; "blpop"; "brpop"; "lset"; "lrem"; "ltrim"; "linsert"; "lmove";
      "blmove"; "rpoplpush"; "brpoplpush"; "lmpop"; "blmpop"; "sort"; "sadd"; "srem"; "sinterstore";
      "sunionstore"; "sdiffstore"; "smove"; "spop"; "zadd"; "zrem"; "zincrby"; "zremrangebyrank";
      "zremrangebyscore"; "zremrangebylex"; "zunionstore"; "zinterstore"; "zdiffstore"; "zrangestore";
      "zpopmin"; "zpopmax"; "zmpop"; "bzpopmin"; "bzpopmax"; "bzmpop"; "xadd"; "xdel"; "xtrim"; "xgroup";
      "xack"; "xreadgroup"; "xclaim"; "xautoclaim"; "xsetid"; "geoadd"; "geosearchstore"; "georadius";
      "georadiusbymember"; "flushdb"; "flushall"; "swapdb"; "setbit"; "bitop"; "bitfield"; "pfadd"; "pfmerge";
      "ft.create"; "ft.dropindex"; "ft.aliasadd"; "ft.aliasdel"; "ft.aliasupdate"]%string);
    (str "admin", str <$> ["acl"; "config"; "save"; "bgsave"; "bgrewriteaof"; "lastsave"; "replicaof";
      "slaveof"; "failover"; "sync"; "psync"; "replconf"; "client"; "flushall"; "flushdb"; "shutdown"; "debug";
      "module"; "slowlog"; "monitor"; "command"; "info"; "latency"]%string);
    (str "dangerous", str <$> ["flushall"; "flushdb"; "keys"; "config"; "replicaof"; "slaveof"; "save";
      "shutdown"; "debug"; "acl"; "migrate"; "restore"; "sort"]%string);
    (str "connection", str <$> ["auth"; "hello"; "ping"; "echo"; "quit"; "reset"; "select"; "client";
      "command"; "readonly"; "readwrite"]%string);
    (str "pubsub", str <$> ["publish"; "subscribe"; "unsubscribe"; "psubscribe"; "punsubscribe"; "pubsub";
      "ssubscribe"; "sunsubscribe"; "spublish"]%string);
    (str "keyspace", str <$> ["del"; "exists"; "expire"; "pexpire"; "expireat"; "pexpireat"; "persist";
      "expiretime"; "pexpiretime"; "keys"; "scan"; "move"; "copy"; "migrate"; "randomkey"; "touch"; "rename";
      "renamenx"; "type"; "unlink"; "ttl"; "pttl"; "dbsize"; "flushdb"; "flushall"; "swapdb"; "select"]%string);
    (str "string", str <$> ["get"; "set"; "mget"; "mset"; "msetnx"; "append"; "strlen"; "lcs"; "getrange";
      "substr"; "setrange"; "setex"; "psetex"; "setnx"; "getset"; "getdel"; "getex"; "incr"; "decr"; "incrby";
      "decrby"; "incrbyfloat"]%string);
    (str "bitmap", str <$> ["setbit"; "getbit"; "bitcount"; "bitpos"; "bitop"; "bitfield"; "bitfield_ro"]%string);
    (str "hyperloglog", str <$> ["pfadd"; "pfcount"; "pfmerge"]%string);
    (str "hash", str <$> ["hset"; "hsetnx"; "hmset"; "hget"; "hmget"; "hdel"; "hgetdel"; "hgetall"; "hlen";
      "hexists"; "hkeys"; "hvals"; "hincrby"; "hincrbyfloat"; "hstrlen"; "hrandfield"; "hscan"]%string);
    (str "list", str <$> ["lpush"; "rpush"; "lpushx"; "rpushx"; "lpop"; "rpop"; "blpop"; "brpop"; "lrange";
      "llen"; "lindex"; "lset"; "lrem"; "ltrim"; "linsert"; "lpos"; "lmove"; "blmove"; "rpoplpush";
      "brpoplpush"; "lmpop"; "blmpop"; "sort"]%string);
    (str "set", str <$> ["sadd"; "srem"; "smembers"; "sismember"; "smismember"; "scard"; "sinter";
      "sintercard"; "sunion"; "sdiff"; "sinterstore"; "sunionstore"; "sdiffstore"; "smove"; "spop";
      "srandmember"; "sscan"]%string);
    (str "sortedset", str <$> ["zadd"; "zrange"; "zrevrange"; "zcard"; "zscore"; "zmscore"; "zrem"; "zrank";
      "zrevrank"; "zincrby"; "zrangebyscore"; "zrevrangebyscore"; "zcount"; "zrangebylex"; "zrevrangebylex";
      "zlexcount"; "zremrangebylex"; "zrandmember"; "zremrangebyrank"; "zremrangebyscore"; "zscan"; "zunion";
      "zinter"; "zdiff"; "zintercard"; "zunionstore"; "zinterstore"; "zdiffstore"; "zrangestore"; "zpopmin";
      "zpopmax"; "zmpop"; "bzpopmin"; "bzpopmax"; "bzmpop"]%string);
    (str "stream", str <$> ["xadd"; "xlen"; "xrange"; "xrevrange"; "xdel"; "xtrim"; "xread"; "xgroup";
      "xreadgroup"; "xack"; "xpending"; "xclaim"; "xautoclaim"; "xsetid"; "xinfo"]%string);
    (str "geo", str <$> ["geoadd"; "geosearch"; "geosearchstore"; "geodist"; "geopos"; "geohash"; "georadius";
      "georadius_ro"; "georadiusbymember"; "georadiusbymember_ro"]%string);
    (str "transaction", str <$> ["multi"; "exec"; "discard"; "watch"; "unwatch"]%string);
    (str "scripting", str <$> ["eval"; "eval_ro"; "evalsha"; "evalsha_ro"; "script"; "function"; "fcall";
      "fcall_ro"]%string);
    (str "search", str <$> ["ft.create"; "ft.dropindex"; "ft._list"; "ft.info"; "ft.search"; "ft.tagvals";
      "ft.aliasadd"; "ft.aliasdel"; "ft.aliasupdate"]%string);
    (str "fast", []); (str "slow", []); (str "blocking", [])].

Definition category_list (cat : Str) : option (list Str) :=
  snd <$> (snd <$> list_find (λ e, e.1 = cat) category_table).

(** A sorted vector of the distinct commands; ACL itself is always one of them. *)
Definition all_known_commands : list Str :=
  sort_strings (elements (list_to_set (C := gset Str) (str "acl" :: ((str <$>
  ["read"; "write"; "admin"; "connection"; "pubsub"; "transaction"; "geo"; "stream"; "sortedset";
   "set"; "list"; "hash"; "string"; "bitmap"; "hyperloglog"; "keyspace"; "dangerous"; "scripting";
   "search"]%string)
   ≫= λ cat, default [] (category_list cat))))).

Definition category_commands (cat : Str) : result Str (list Str) :=
  let cat := to_ascii_lowercase (trim_start_matches 64 cat) in
  if decide (cat = str "all") then Ok all_known_commands
  else match category_list cat with
       | Some cmds => Ok cmds
       | None => Err (str "ERR Unknown category '" ++ cat ++ str "'")
       end.

(** ** Users *)

Record AclUser : Type := mkAclUser {
  u_name : Str;
  u_enabled : bool;
  u_nopass : bool;
  u_passwords : list Str;
  all_commands : bool;
  allowed_commands : gset Str;
  disallowed_commands : gset Str;
  all_keys : bool;
  key_patterns : list Str;
  all_channels : bool;
  channel_patterns : list Str;
  command_desc : Str;
  keys_desc : Str;
  channels_desc : Str
}.

(** Updating one group of fields. *)
Definition set_login (u : AclUser) (enabled nopass : bool) (passwords : list Str) : AclUser :=
  mkAclUser (u_name u) enabled nopass passwords (all_commands u) (allowed_commands u) (disallowed_commands u)
    (all_keys u) (key_patterns u) (all_channels u) (channel_patterns u) (command_desc u) (keys_desc u) (channels_desc u).

Definition set_commands (u : AclUser) (all : bool) (allowed disallowed : gset Str) (desc : Str) : AclUser :=
  mkAclUser (u_name u) (u_enabled u) (u_nopass u) (u_passwords u) all allowed disallowed
    (all_keys u) (key_patterns u) (all_channels u) (channel_patterns u) desc (keys_desc u) (channels_desc u).

Definition set_keys (u : AclUser) (all : bool) (patterns : list Str) (desc : Str) : AclUser :=
  mkAclUser (u_name u) (u_enabled u) (u_nopass u) (u_passwords u) (all_commands u) (allowed_commands u) (disallowed_commands u)
    all patterns (all_channels u) (channel_patterns u) (command_desc u) desc (channels_desc u).

Definition set_channels (u : AclUser) (all : bool) (patterns : list Str) (desc : Str) : AclUser :=
  mkAclUser (u_name u) (u_enabled u) (u_nopass u) (u_passwords u) (all_commands u) (allowed_commands u) (disallowed_commands u)
    (all_keys u) (key_patterns u) all patterns (command_desc u) (keys_desc u) desc.

Definition user_new (name : Str) : AclUser :=
  mkAclUser name false false [] false ∅ ∅ false [] false [] [] [] [].

Definition default_superuser (auth : Str) : AclUser :=
  let nopass := bool_decide (auth = []) in
  mkAclUser (str "default") true nopass (if nopass then [] else [auth]) true ∅ ∅ true [] true []
    (str "+@all") (str "~*") (str "&*").

Definition check_password (u : AclUser) (password : Str) : bool :=
  if negb (u_enabled u) then false
  else if u_nopass u then true
  else bool_decide (password ∈ u_passwords u).

Definition user_can_execute (u : AclUser) (cmd : Str) : bool :=
  if all_commands u && bool_decide (disallowed_commands u = ∅) then true
  else
    let cmd := to_ascii_lowercase cmd in
    if decide (cmd ∈ disallowed_commands u) then false
    else if all_commands u then true
    else bool_decide (cmd ∈ allowed_commands u).

Definition user_is_unrestricted (u : AclUser) : bool :=
  u_enabled u && all_commands u && bool_decide (disallowed_commands u = ∅) && all_keys u && all_channels u.

Definition user_can_access_key (u : AclUser) (key : Str) : bool :=
  if all_keys u then true
  else if decide (key_patterns u = []) then false
  else existsb (λ p, glob_match p key) (key_patterns u).

Definition user_can_access_channel (u : AclUser) (channel : Str) : bool :=
  if all_channels u then true
  else if decide (channel_patterns u = []) then false
  else existsb (λ p, glob_match p channel) (channel_patterns u).

(** ** Rules *)

(** [vec.push(x)] unless the vector has it *)
Definition push_new (x : Str) (l : list Str) : list Str := if decide (x ∈ l) then l else l ++ [x].

(** The patterns with their sign, separated by spaces. *)
Definition patterns_desc (sign : Z) (patterns : list Str) : Str := join space ((sign ::.) <$> patterns).

Definition append_cmd_desc (desc rule : Str) : Str :=
  (if decide (desc = []) then [] else desc ++ space) ++ rule.

Definition rule_keys (u : AclUser) (pattern : Str) : AclUser :=
  if decide (pattern = str "*") then set_keys u true [] (str "~*")
  else let patterns := push_new pattern (key_patterns u) in set_keys u false patterns (patterns_desc 126 patterns).

Definition rule_channels (u : AclUser) (pattern : Str) : AclUser :=
  if decide (pattern = str "*") then set_channels u true [] (str "&*")
  else let patterns := push_new pattern (channel_patterns u) in set_channels u false patterns (patterns_desc 38 patterns).

Definition rule_add_category (u : AclUser) (cat rule : Str) : result Str AclUser :=
  cmds ← category_commands cat;
  let cmds := list_to_set (C := gset Str) cmds in
  let desc := append_cmd_desc (command_desc u) rule in
  Ok (if all_commands u then set_commands u true (allowed_commands u) (disallowed_commands u ∖ cmds) desc
      else set_commands u false (allowed_commands u ∪ cmds) (disallowed_commands u) desc).

Definition rule_del_category (u : AclUser) (cat rule : Str) : result Str AclUser :=
  cmds ← category_commands cat;
  if decide (cat = str "all") then Ok (set_commands u false ∅ ∅ (str "-@all"))
  else
    let cmds := list_to_set (C := gset Str) cmds in
    let desc := append_cmd_desc (command_desc u) rule in
    Ok (if all_commands u then set_commands u true (allowed_commands u) (disallowed_commands u ∪ cmds) desc
        else set_commands u false (allowed_commands u ∖ cmds) (disallowed_commands u) desc).

Definition rule_add_command (u : AclUser) (cmd rule : Str) : result Str AclUser :=
  let cmd := to_ascii_lowercase cmd in
  if decide (cmd = []) then Err (str "ERR invalid command rule")
  else Ok (set_commands u (all_commands u)
    (if all_commands u then allowed_commands u else allowed_commands u ∪ {[cmd]})
    (disallowed_commands u ∖ {[cmd]}) (append_cmd_desc (command_desc u) rule)).

Definition rule_del_command (u : AclUser) (cmd rule : Str) : result Str AclUser :=
  let cmd := to_ascii_lowercase cmd in
  if decide (cmd = []) then Err (str "ERR invalid command rule")
  else
    let desc := append_cmd_desc (command_desc u) rule in
    Ok (if all_commands u then set_commands u true (allowed_commands u) (disallowed_commands u ∪ {[cmd]}) desc
        else set_commands u false (allowed_commands u ∖ {[cmd]}) (disallowed_commands u) desc).

(** The rules that are whole words. *)
Definition word_rule (u : AclUser) (rule : Str) : option AclUser :=
  if decide (rule = []) then Some u
  else if decide (rule = str "on") then Some (set_login u true (u_nopass u) (u_passwords u))
  else if decide (rule = str "off") then Some (set_login u false (u_nopass u) (u_passwords u))
  else if decide (rule = str "nopass") then Some (set_login u (u_enabled u) true [])
  else if decide (rule = str "resetpass") then Some (set_login u (u_enabled u) false [])
  else if decide (rule = str "resetkeys") then Some (set_keys u false [] [])
  else if decide (rule = str "allkeys") then Some (set_keys u true [] (str "~*"))
  else if decide (rule = str "allchannels") then Some (set_channels u true [] (str "&*"))
  else if decide (rule = str "resetchannels") then Some (set_channels u false [] [])
  else if decide (rule = str "allcommands" ∨ rule = str "+@all") then Some (set_commands u true ∅ ∅ (str "+@all"))
  else if decide (rule = str "nocommands" ∨ rule = str "-@all") then Some (set_commands u false ∅ ∅ (str "-@all"))
  else if decide (rule = str "reset") then Some (user_new (u_name u))
  else if decide (rule = str "sanitize-payload" ∨ rule = str "skip-sanitize-payload") then Some u
  else None.

(** The rules that begin with a sign: [>], [<], [~], [&], [+] and [-]; the last two before [@] name a
    category. *)
Definition sign_rule (u : AclUser) (rule : Str) : result Str AclUser :=
  let unknown := Err (str "ERR Error in ACL SETUSER modifier '" ++ rule ++ str "'") in
  match rule with
  | [] => unknown
  | c :: r =>
    if c =? 62 then
      if decide (r = []) then Err (str "ERR password can't be empty")
      else Ok (set_login u (u_enabled u) false (push_new r (u_passwords u)))
    else if c =? 60 then Ok (set_login u (u_enabled u) (u_nopass u) (filter (λ p, p ≠ r) (u_passwords u)))
    else if c =? 126 then Ok (rule_keys u r)
    else if c =? 38 then Ok (rule_channels u r)
    else if c =? 43 then
      if decide (head r = Some 64) then rule_add_category u (tail r) rule else rule_add_command u r rule
    else if c =? 45 then
      if decide (head r = Some 64) then rule_del_category u (tail r) rule else rule_del_command u r rule
    else unknown
  end.

Definition apply_rule (u : AclUser) (rule : Str) : result Str AclUser :=
  match word_rule u rule with Some u => Ok u | None => sign_rule u rule end.

Definition to_list_entry (u : AclUser) : Str :=
  join space (
    [str "user " ++ u_name u; if u_enabled u then str "on" else str "off"] ++
    (if u_nopass u then [str "nopass"] else (62 ::.) <$> u_passwords u) ++
    (if decide (keys_desc u = []) then (if all_keys u then [str "~*"] else []) else [keys_desc u]) ++
    (if decide (channels_desc u = []) then (if all_channels u then [str "&*"] else []) else [channels_desc u]) ++
    [if decide (command_desc u = []) then (if all_commands u then str "+@all" else str "-@all") else command_desc u]).

(** ** The store *)

Abbreviation AclStore := (gmap Str AclUser).

Inductive AuthError : Type := WrongPass | Disabled.

Definition from_auth (auth : Str) : AclStore := {[str "default" := default_superuser auth]}.

Definition authenticate (s : AclStore) (username password : Str) : result AuthError unit :=
  match s !! username with
  | None => Err WrongPass
  | Some u =>
    if negb (u_enabled u) then Err Disabled
    else if check_password u password then Ok tt
    else Err WrongPass
  end.

(** What a user may do; nothing for a user that does not exist. *)
Definition user_enabled (s : AclStore) (username : Str) : bool := default false (u_enabled <$> s !! username).

Definition default_allows_nopass (s : AclStore) : bool :=
  default false ((λ u, u_enabled u && u_nopass u) <$> s !! str "default").

Definition can_execute (s : AclStore) (username cmd : Str) : bool :=
  default false ((λ u, user_can_execute u cmd) <$> s !! username).

Definition is_unrestricted (s : AclStore) (username : Str) : bool :=
  default false (user_is_unrestricted <$> s !! username).

Definition can_access_key (s : AclStore) (username key : Str) : bool :=
  default false ((λ u, user_can_access_key u key) <$> s !! username).

Definition can_access_channel (s : AclStore) (username channel : Str) : bool :=
  default false ((λ u, user_can_access_channel u channel) <$> s !! username).

(** The rules up to the first that fails take effect. *)
Fixpoint apply_rules (u : AclUser) (rules : list Str) : AclUser * result Str unit :=
  match rules with
  | [] => (u, Ok tt)
  | rule :: rules => match apply_rule u rule with Ok u => apply_rules u rules | Err e => (u, Err e) end
  end.

Definition setuser (s : AclStore) (username : Str) (rules : list Str) : AclStore * result Str unit :=
  if decide (username = []) then (s, Err (str "ERR Username can't be empty"))
  else
    let '(u, r) := apply_rules (default (user_new username) (s !! username)) rules in
    (<[username := u]> s, r).

(** Names before the default user are gone even though the call fails. *)
Fixpoint deluser (s : AclStore) (usernames : list Str) (deleted : Z) : AclStore * result Str Z :=
  match usernames with
  | [] => (s, Ok deleted)
  | name :: usernames =>
    if decide (name = str "default") then (s, Err (str "ERR The 'default' user cannot be removed"))
    else if decide (name = []) then deluser s usernames deleted
    else match s !! name with
         | Some _ => deluser (delete name s) usernames (deleted + 1)
         | None => deluser s usernames deleted
         end
  end.

Definition usernames (s : AclStore) : list Str := sort_strings ((map_to_list s).*1).

Definition list_users (s : AclStore) : list Str := omap (λ n, to_list_entry <$> s !! n) (usernames s).

(** The content of the file. *)
Definition save_text (s : AclStore) : Str := join [10] (list_users s) ++ [10].

Definition line_error (lineno : Z) (what : Str) : Str :=
  str "ERR Error in ACL file line " ++ to_string (lineno + 1) ++ str ": " ++ what.

Definition load_line (users : AclStore) (lineno : Z) (raw_line : Str) : result Str AclStore :=
  let line := trim raw_line in
  if decide (line = [] ∨ head line = Some 35) then Ok users
  else match split_whitespace line with
       | [] => Ok users
       | t0 :: tokens =>
         if negb (eq_ignore_ascii_case t0 (str "user")) then Err (line_error lineno (str "expected 'user'"))
         else match tokens with
              | [] => Err (line_error lineno (str "missing username"))
              | username :: rules =>
                match apply_rules (user_new username) rules with
                | (u, Ok _) => Ok (<[username := u]> users)
                | (_, Err e) => Err (line_error lineno e)
                end
              end
       end.

Fixpoint load_lines (users : AclStore) (lineno : Z) (l : list Str) : result Str AclStore :=
  match l with
  | [] => Ok users
  | line :: l => users ← load_line users lineno line; load_lines users (lineno + 1) l
  end.

Definition load_from_str (s : AclStore) (content : Str) : AclStore * result Str unit :=
  match load_lines ∅ 0 (lines content) with
  | Err e => (s, Err e)
  | Ok users =>
    if decide (is_Some (users !! str "default")) then (users, Ok tt)
    else (s, Err (str "ERR The ACL file doesn't contain a 'default' user definition. Aborting."))
  end.
