(* ===== verification/AclProps.v ===== *)
(** * Properties of access control

    The meaning of rules, the round trip of ACL SAVE and ACL LOAD, and pattern matching. *)

From S2P Require Import Prelude RustStd Text Glob Acl.
From Stdlib Require Import Lia.
Local Open Scope Z_scope.

(** ** Facts on access control *)

(** ** Patterns *)

Lemma u8_fmap_lookup (l : Bytes) i : (u8 <$> l) !! i = u8 <$> l !! i.
Proof. apply list_lookup_fmap. Qed.

(** Without a star in the text the order of the tests does not matter, and the loop is that of
    [pattern_match]. *)
Lemma acl_loop_eq fuel pat text p t s mi :
  star ∉ (u8 <$> text) →
  acl_match_loop fuel pat text p t s mi = match_loop fuel (u8 <$> pat) (u8 <$> text) p t s mi.
Proof.
  intros Hs. revert p t s mi. induction fuel as [|fuel IH]; intros p t s mi; [done|]. cbn [acl_match_loop match_loop].
  rewrite !u8_fmap_lookup. destruct (text !! t) as [tc|] eqn:Ht; [|done]. cbn [fmap option_fmap option_map].
  assert (Htc : u8 tc ≠ star).
  { intros E. apply Hs. rewrite <- E. apply list_elem_of_fmap_2. by eapply list_elem_of_lookup_2. }
  assert (B : match s with Some sp => acl_match_loop fuel pat text (sp + 1) (mi + 1) s (mi + 1) | None => LoopFalse end
    = match s with Some sp => match_loop fuel (u8 <$> pat) (u8 <$> text) (sp + 1) (mi + 1) s (mi + 1) | None => LoopFalse end)
    by (destruct s; [apply IH|done]).
  destruct (pat !! p) as [pc|]; [|exact B]. cbn [fmap option_fmap option_map].
  destruct (decide (u8 pc = star)) as [Es|Es].
  - rewrite (decide_False (P := u8 pc = quest ∨ pc = tc)) by (intros [E| ->]; [unfold star, quest in *; congruence|done]). apply IH.
  - destruct (decide (u8 pc = quest ∨ pc = tc)) as [E|E].
    + rewrite decide_True by (destruct E as [E| ->]; auto). apply IH.
    + rewrite decide_False; [exact B|]. intros [E'|E'%u8_inj]; auto.
Qed.

(** What the loop has read so far is matched: a match of the rest is a match of the whole. *)
Definition rest_matches (pat text : Str) (p t : nat) : Prop := glob (drop p pat) (drop t text) → glob pat text.

Definition backtrack_ok (pat text : Str) (s : option nat) (mi : nat) : Prop :=
  match s with Some sp => pat !! sp = Some star ∧ rest_matches pat text sp mi | None => True end.

Lemma star_rest pat text p t : pat !! p = Some star → rest_matches pat text p t → rest_matches pat text (p + 1) t.
Proof. intros E H G. apply H. rewrite (drop_lookup_cons _ _ _ E). by apply glob_star_end. Qed.

Lemma star_rest_char pat text p t tc :
  pat !! p = Some star → text !! t = Some tc → rest_matches pat text p t → rest_matches pat text (p + 1) (t + 1).
Proof.
  intros E Et H G. apply H. rewrite (drop_lookup_cons _ _ _ E), (drop_lookup_cons _ _ _ Et).
  by apply glob_star_char, glob_star_end.
Qed.

Lemma char_rest pat text p t pc tc :
  pat !! p = Some pc → text !! t = Some tc → pc = quest ∨ pc = tc →
  rest_matches pat text p t → rest_matches pat text (p + 1) (t + 1).
Proof.
  intros E Et Hc H. destruct (decide (pc = star)) as [->|Hs]; [by eapply star_rest_char|].
  intros G. apply H. rewrite (drop_lookup_cons _ _ _ E), (drop_lookup_cons _ _ _ Et). apply glob_one; [done|]. naive_solver.
Qed.

Lemma acl_loop_sound fuel pat text p t s mi p' :
  let P := u8 <$> pat in let T := u8 <$> text in
  rest_matches P T p t → backtrack_ok P T s mi → (mi ≤ t ≤ length text)%nat → (p ≤ length pat)%nat →
  (∀ sp, s = Some sp → sp < length pat)%nat →
  acl_match_loop fuel pat text p t s mi = LoopEnd p' → (p' ≤ length pat)%nat ∧ (glob (drop p' P) [] → glob P T).
Proof.
  intros P T. revert p t s mi. induction fuel as [|fuel IH]; intros p t s mi Hr Hb Ht Hp Hs; [done|]. cbn [acl_match_loop].
  destruct (text !! t) as [tc|] eqn:Et.
  2:{ intros [= <-]. split; [done|]. apply lookup_ge_None in Et. intros G. apply Hr. rewrite (drop_ge T t); [done|].
      unfold T. rewrite length_fmap. lia. }
  pose proof (lookup_lt_Some _ _ _ Et) as Hlt.
  assert (ET : T !! t = Some (u8 tc)) by (unfold T; by rewrite u8_fmap_lookup, Et).
  assert (B : match s with Some sp => acl_match_loop fuel pat text (sp + 1) (mi + 1) s (mi + 1) | None => LoopFalse end = LoopEnd p' →
    (p' ≤ length pat)%nat ∧ (glob (drop p' P) [] → glob P T)).
  { destruct s as [sp|]; [|done]. destruct Hb as [Hst Hb]. specialize (Hs sp eq_refl) as Hl.
    destruct (lookup_lt_is_Some_2 T mi) as [mc Hmc]; [unfold T; rewrite length_fmap; lia|].
    apply IH; [by eapply star_rest_char| |lia|lia|done].
    split; [done|]. intros G. apply Hb. rewrite (drop_lookup_cons _ _ _ Hmc).
    rewrite (drop_lookup_cons _ _ _ Hst) in G |- *. by apply glob_star_char. }
  destruct (pat !! p) as [pc|] eqn:Ep; [|exact B]. pose proof (lookup_lt_Some _ _ _ Ep) as Hpl.
  assert (EP : P !! p = Some (u8 pc)) by (unfold P; by rewrite u8_fmap_lookup, Ep).
  case_decide as Hc; [|case_decide as Hst; [|exact B]].
  - apply IH; [|done|lia|lia|done]. eapply char_rest; [exact EP|exact ET| |done]. destruct Hc as [Hc| ->]; auto.
  - apply IH; [eapply star_rest; [by rewrite EP, Hst|done]|split; [by rewrite EP, Hst|done]|lia|lia|].
    by intros ? [= <-].
Qed.

(** The fuel is enough. *)
Lemma acl_loop_ends fuel pat text p t s mi :
  (p ≤ length pat)%nat → (mi ≤ t ≤ length text)%nat → (∀ sp, s = Some sp → sp < p)%nat →
  (loop_measure (u8 <$> pat) (u8 <$> text) p mi < fuel)%nat → acl_match_loop fuel pat text p t s mi ≠ LoopFuel.
Proof.
  unfold loop_measure. rewrite !length_fmap. revert p t s mi. induction fuel as [|fuel IH]; intros p t s mi Hp Ht Hs Hm; [by apply Nat.nlt_0_r in Hm|].
  cbn [acl_match_loop]. destruct (text !! t) as [tc|] eqn:Et; [|done]. pose proof (lookup_lt_Some _ _ _ Et) as Hlt.
  assert (B : match s with Some sp => acl_match_loop fuel pat text (sp + 1) (mi + 1) s (mi + 1) | None => LoopFalse end ≠ LoopFuel).
  { destruct s as [sp|]; [|done]. specialize (Hs sp eq_refl) as Hl. apply IH; [lia|lia|intros ? [= <-]; lia|nia]. }
  destruct (pat !! p) as [pc|] eqn:Ep; [|exact B]. pose proof (lookup_lt_Some _ _ _ Ep) as Hpl.
  case_decide; [|case_decide; [|exact B]].
  - apply IH; [lia|lia|intros sp E; specialize (Hs sp E); lia|nia].
  - apply IH; [lia|lia|intros ? [= <-]; lia|nia].
Qed.

Lemma glob_match_bytes_sound pat text : glob_match_bytes pat text = true → glob (u8 <$> pat) (u8 <$> text).
Proof.
  unfold glob_match_bytes. destruct (acl_match_loop _ _ _ _ _ _ _) as [p'| |] eqn:E; [|done..].
  intros H%bool_decide_eq_true_1. apply acl_loop_sound in E as [Hp Hg]; [|by intros G|done|simpl; lia|simpl; lia|done].
  apply Hg. apply (skip_stars_spec (length pat)); rewrite ?length_fmap; [done|lia|done].
Qed.

Lemma glob_match_bytes_starless pat text :
  star ∉ (u8 <$> text) → (glob_match_bytes pat text = true ↔ glob (u8 <$> pat) (u8 <$> text)).
Proof.
  intros Hs. unfold glob_match_bytes. rewrite acl_loop_eq by done.
  pose proof (match_loop_spec (match_fuel (u8 <$> pat) (u8 <$> text)) (u8 <$> pat) (u8 <$> text) 0 0 None 0
    (loop_inv_init _ _) (match_fuel_measure _ _)) as H.
  destruct (match_loop _ _ _ _ _ _ _) as [p'| |]; [| |done].
  - destruct H as [Hp H]. rewrite bool_decide_eq_true. rewrite length_fmap in Hp.
    pose proof (skip_stars_spec (length pat) (u8 <$> pat) p') as K. rewrite length_fmap in K.
    rewrite K by lia. unfold pat_at, text_at, can_backtrack in H. rewrite !drop_0 in H. tauto.
  - unfold pat_at, text_at, can_backtrack in H. rewrite !drop_0 in H. split; [done|]. tauto.
Qed.

(** ** Command permissions *)

(** The commands a user may run, by their lower-case names: one of the two sets is always empty. *)
Definition perm (u : AclUser) (c : Str) : bool :=
  if all_commands u then bool_decide (c ∉ disallowed_commands u) else bool_decide (c ∈ allowed_commands u).

Definition sets_ok (u : AclUser) : Prop :=
  if all_commands u then allowed_commands u = ∅ else disallowed_commands u = ∅.

Lemma can_execute_perm u cmd : sets_ok u → user_can_execute u cmd = perm u (to_ascii_lowercase cmd).
Proof.
  unfold sets_ok, user_can_execute, perm. destruct (all_commands u); intros E; cbn [andb].
  - case_bool_decide as Hd; [rewrite Hd; by rewrite bool_decide_true by set_solver|].
    case_decide; [by rewrite bool_decide_false by tauto|by rewrite bool_decide_true].
  - rewrite E. by rewrite decide_False by set_solver.
Qed.

Definition in_category (cat : Str) : list Str := match category_commands cat with Ok cmds => cmds | Err _ => [] end.

(** What a rule means for commands. *)
Definition granted (rule : Str) (p : Str → bool) : Str → bool :=
  if decide (rule = str "allcommands" ∨ rule = str "+@all") then λ _, true
  else if decide (rule = str "nocommands" ∨ rule = str "-@all" ∨ rule = str "reset") then λ _, false
  else match rule with
       | [] => p
       | sign :: r =>
         if sign =? 43 then
           if decide (head r = Some 64) then λ c, bool_decide (c ∈ in_category (tail r)) || p c
           else λ c, bool_decide (c = to_ascii_lowercase r) || p c
         else if sign =? 45 then
           if decide (head r = Some 64) then λ c, p c && bool_decide (c ∉ in_category (tail r))
           else λ c, p c && bool_decide (c ≠ to_ascii_lowercase r)
         else p
       end.

Lemma word_rule_perm u rule u' c :
  sets_ok u → word_rule u rule = Some u' → sets_ok u' ∧ perm u' c = granted rule (perm u) c.
Proof.
  intros Hs. unfold word_rule.
  assert (N : sets_ok (user_new (u_name u))) by done.
  repeat case_decide; intros [= <-]; subst; try (split; [exact Hs|reflexivity]); try (split; [done|reflexivity]).
  - split; [done|]. unfold granted. rewrite decide_True by done. done.
  - split; [done|]. unfold granted. rewrite decide_False, decide_True by (done || tauto). done.
  - split; [exact Hs|]. match goal with H : _ ∨ _ |- _ => by destruct H as [-> | ->] end.
Qed.

(** Membership in sets that gained or lost commands. *)
Ltac perm_sets :=
  apply Bool.eq_true_iff_eq;
  rewrite ?orb_true_iff, ?andb_true_iff, ?bool_decide_eq_true, ?elem_of_difference, ?elem_of_union, ?elem_of_singleton,
    ?elem_of_list_to_set;
  try tauto;
  repeat match goal with
  | |- context [?c ∈ ?X] => lazymatch goal with _ : c ∈ X |- _ => fail | _ : c ∉ X |- _ => fail | _ => destruct (decide (c ∈ X)) end
  | |- context [?c = ?d :> Str] => lazymatch goal with _ : c = d |- _ => fail | _ : c ≠ d |- _ => fail | _ => destruct (decide (c = d)) end
  end; tauto.

Lemma sign_rule_perm u rule u' c :
  sets_ok u → word_rule u rule = None → sign_rule u rule = Ok u' → sets_ok u' ∧ perm u' c = granted rule (perm u) c.
Proof.
  intros Hs Hw. assert (G1 : ¬ (rule = str "allcommands" ∨ rule = str "+@all")) by (intros [-> | ->]; done).
  assert (G2 : ¬ (rule = str "nocommands" ∨ rule = str "-@all" ∨ rule = str "reset")) by (intros [-> |[-> | ->]]; done).
  unfold granted. rewrite !decide_False by done. unfold sign_rule. destruct rule as [|sign r]; [done|].
  destruct (Z.eqb_spec sign 62) as [->|_]; [case_decide; [done|]; intros [= <-]; by split|].
  destruct (Z.eqb_spec sign 60) as [->|_]; [intros [= <-]; by split|].
  destruct (Z.eqb_spec sign 126) as [->|_]; [intros [= <-]; unfold rule_keys; case_decide; by split|].
  destruct (Z.eqb_spec sign 38) as [->|_]; [intros [= <-]; unfold rule_channels; case_decide; by split|].
  destruct (Z.eqb_spec sign 43) as [->|_]; [|destruct (Z.eqb_spec sign 45) as [->|_]; [|done]]; case_decide as Hh.
  - unfold rule_add_category, in_category. destruct (category_commands (tail r)) as [cmds|]; [|done].
    cbn [mbind result_bind]. intros [= <-]. unfold sets_ok, perm in *. destruct (all_commands u); cbn; (split; [done|]).
    + perm_sets.
    + perm_sets.
  - unfold rule_add_command. case_decide; [done|]. intros [= <-]. unfold sets_ok, perm in *.
    destruct (all_commands u); cbn; (split; [set_solver|]); perm_sets.
  - unfold rule_del_category, in_category. destruct (category_commands (tail r)) as [cmds|]; [|done].
    cbn [mbind result_bind]. case_decide as Ha.
    { destruct G2. right. left. destruct r as [|c' r]; [done|]. injection Hh as ->. cbn in Ha. by rewrite Ha. }
    intros [= <-]. unfold sets_ok, perm in *. destruct (all_commands u); cbn; (split; [done|]);
      perm_sets.
  - unfold rule_del_command. case_decide; [done|]. intros [= <-]. unfold sets_ok, perm in *.
    destruct (all_commands u); cbn; (split; [done|]); perm_sets.
Qed.

Lemma apply_rule_perm u rule u' c :
  sets_ok u → apply_rule u rule = Ok u' → sets_ok u' ∧ perm u' c = granted rule (perm u) c.
Proof.
  unfold apply_rule. intros Hs. destruct (word_rule u rule) as [v|] eqn:E.
  - intros [= <-]. by apply word_rule_perm.
  - by apply sign_rule_perm.
Qed.

(** ** Rules in sequence *)

Lemma apply_rules_app u rules rules' :
  apply_rules u (rules ++ rules') =
    match apply_rules u rules with (u', Ok _) => apply_rules u' rules' | (u', Err e) => (u', Err e) end.
Proof.
  revert u. induction rules as [|r rules IH]; intros u; [done|]. cbn [app apply_rules].
  destruct (apply_rule u r); [apply IH|done].
Qed.

Lemma apply_rules_ok u rules rules' v :
  apply_rules u rules = (v, Ok tt) → apply_rules u (rules ++ rules') = apply_rules v rules'.
Proof. intros E. by rewrite apply_rules_app, E. Qed.

Lemma granted_local r (p p' : Str → bool) c : p c = p' c → granted r p c = granted r p' c.
Proof.
  intros H. unfold granted. repeat case_decide; try done; destruct r as [|sign r]; try done; repeat case_match; by rewrite ?H.
Qed.

Lemma granted_fold rules (p p' : Str → bool) c :
  p c = p' c → foldl (λ p r, granted r p) p rules c = foldl (λ p r, granted r p) p' rules c.
Proof. revert p p'. induction rules as [|r rules IH]; intros p p' H; [done|]. cbn [foldl]. by apply IH, granted_local. Qed.

Lemma apply_rules_perm u rules u' :
  sets_ok u → apply_rules u rules = (u', Ok tt) →
  sets_ok u' ∧ ∀ c, perm u' c = foldl (λ p r, granted r p) (perm u) rules c.
Proof.
  revert u. induction rules as [|r rules IH]; intros u Hs; cbn [apply_rules foldl].
  { by intros [= <-]. }
  destruct (apply_rule u r) as [v|] eqn:E; [|done]. intros Hr.
  destruct (apply_rule_perm u r v [] Hs E) as [Hv _]. destruct (IH v Hv Hr) as [H1 H2]. split; [done|].
  intros c. rewrite H2. apply granted_fold. by apply apply_rule_perm.
Qed.

(** A failing sequence: the rules in front of the one that fails have taken effect. *)
Lemma apply_rules_err u rules u' e :
  apply_rules u rules = (u', Err e) →
  ∃ pre bad post, rules = pre ++ bad :: post ∧ apply_rules u pre = (u', Ok tt) ∧ apply_rule u' bad = Err e.
Proof.
  revert u. induction rules as [|r rules IH]; intros u; cbn [apply_rules]; [done|].
  destruct (apply_rule u r) as [v|e'] eqn:E.
  - intros H. destruct (IH v H) as (pre & bad & post & -> & Hp & Hb). exists (r :: pre), bad, post. split; [done|].
    split; [|done]. cbn [apply_rules]. by rewrite E.
  - intros [= <- <-]. by exists [], r, rules.
Qed.

(** ** Words among rules *)

(** A rule that begins with a sign is one of the whole words only for [+@all] and [-@all]. *)
Lemma word_rule_sign u c r :
  c ∈ [62; 60; 126; 38; 43; 45] → c :: r ≠ str "+@all" → c :: r ≠ str "-@all" → word_rule u (c :: r) = None.
Proof.
  intros Hc H1 H2. unfold word_rule.
  assert (N : ∀ s d w, s = d :: w → d ∉ [62; 60; 126; 38; 43; 45] → c :: r ≠ s).
  { intros s d w -> Hd [= -> _]. done. }
  assert (A : ∀ s, match s with d :: _ => bool_decide (d ∉ [62; 60; 126; 38; 43; 45]) | [] => true end = true → c :: r ≠ s).
  { intros [|d w]; [done|]. intros Hd%bool_decide_eq_true_1. by eapply N. }
  repeat (rewrite decide_False by first [apply A; vm_compute; reflexivity|intros [E|E]; [revert E|revert E]; first [assumption|apply A; vm_compute; reflexivity]]).
  done.
Qed.

(** ** Well-formed users *)

(** Patterns and their description, for keys and for channels. *)
Definition patterns_ok (sign : Z) (all : bool) (patterns : list Str) (desc : Str) : Prop :=
  if all then patterns = [] ∧ desc = [sign; 42]
  else NoDup patterns ∧ Forall (λ p, solid p = true ∧ p ≠ str "*") patterns ∧ desc = patterns_desc sign patterns.

(** The command rules that the description lists rebuild the permissions. *)
Definition commands_rebuilt (u : AclUser) (rules : list Str) : Prop :=
  Forall (λ r, word r = true) rules ∧ command_desc u = join space rules ∧
  ∀ v, all_commands v = false → allowed_commands v = ∅ → disallowed_commands v = ∅ → command_desc v = [] →
    apply_rules v rules =
      (set_commands v (all_commands u) (allowed_commands u) (disallowed_commands u) (command_desc u), Ok tt).

Record user_ok (u : AclUser) : Prop := {
  ok_name : word (u_name u) = true;
  ok_nopass : u_nopass u = true → u_passwords u = [];
  ok_nodup : NoDup (u_passwords u);
  ok_passwords : Forall (λ p, word p = true) (u_passwords u);
  ok_keys : patterns_ok 126 (all_keys u) (key_patterns u) (keys_desc u);
  ok_channels : patterns_ok 38 (all_channels u) (channel_patterns u) (channels_desc u);
  ok_sets : sets_ok u;
  ok_commands : ∃ rules, commands_rebuilt u rules
}.

Lemma patterns_new sign : patterns_ok sign false [] [].
Proof. split; [constructor|]. split; [constructor|done]. Qed.

Lemma set_commands_id v : set_commands v (all_commands v) (allowed_commands v) (disallowed_commands v) (command_desc v) = v.
Proof. by destruct v. Qed.

Lemma commands_none u :
  all_commands u = false → allowed_commands u = ∅ → disallowed_commands u = ∅ → command_desc u = [] → commands_rebuilt u [].
Proof.
  intros E1 E2 E3 E4. split; [constructor|]. split; [done|]. intros v F1 F2 F3 F4. rewrite E1, E2, E3, E4.
  destruct v. cbn in *. by subst.
Qed.

Lemma commands_word u a desc :
  all_commands u = a → allowed_commands u = ∅ → disallowed_commands u = ∅ → command_desc u = desc →
  desc = (if a then str "+@all" else str "-@all") → commands_rebuilt u [desc].
Proof.
  intros E1 E2 E3 E4 Ed. split; [constructor; [rewrite Ed; by destruct a|constructor]|]. split; [done|].
  intros v F1 F2 F3 F4. rewrite E1, E2, E3, E4, Ed. by destruct a.
Qed.

(** One more command rule. *)
Definition same_commands (u v : AclUser) : Prop :=
  all_commands v = all_commands u ∧ allowed_commands v = allowed_commands u ∧
  disallowed_commands v = disallowed_commands u ∧ command_desc v = command_desc u.

Definition with_commands (v u : AclUser) : AclUser :=
  set_commands v (all_commands u) (allowed_commands u) (disallowed_commands u) (command_desc u).

Lemma append_join rules r : Forall (λ r, word r = true) rules → append_cmd_desc (join space rules) r = join space (rules ++ [r]).
Proof.
  intros H. unfold append_cmd_desc. destruct rules as [|x rules]; [done|].
  assert (N : join space (x :: rules) ≠ []).
  { inversion H as [|? ? Hx _]; subst. apply word_solid in Hx as [_ Hx]. destruct x; [done|]. by destruct rules. }
  rewrite decide_False by done. by rewrite join_app, <- app_assoc.
Qed.

Lemma command_rule_frame u c r u' :
  c = 43 ∨ c = 45 → word_rule u (c :: r) = None → sign_rule u (c :: r) = Ok u' →
  command_desc u' = append_cmd_desc (command_desc u) (c :: r) ∧ u' = with_commands u u' ∧
  ∀ v, same_commands u v → apply_rule v (c :: r) = Ok (with_commands v u').
Proof.
  intros Hc Hw Hs. assert (N : c :: r ≠ str "+@all" ∧ c :: r ≠ str "-@all") by (split; intros E; by rewrite E in Hw).
  assert (W : ∀ v, apply_rule v (c :: r) = sign_rule v (c :: r)).
  { intros v. unfold apply_rule. rewrite word_rule_sign; [done| |apply N..]. destruct Hc as [-> | ->]; by apply (bool_decide_eq_true_1 _). }
  assert (G : u' = with_commands u u' ∧ command_desc u' = append_cmd_desc (command_desc u) (c :: r) ∧
    ∀ v, same_commands u v → sign_rule v (c :: r) = Ok (with_commands v u')).
  2:{ destruct G as (G1 & G2 & G3). split; [done|]. split; [done|]. intros v Hv. by rewrite W, G3. }
  revert Hs. unfold sign_rule, with_commands. destruct Hc as [-> | ->]; cbn [Z.eqb Pos.eqb]; case_decide as Hh.
  - unfold rule_add_category. destruct (category_commands (tail r)) as [cmds|]; [|done]. cbn [mbind result_bind].
    intros [= <-]. split; [by destruct (all_commands u)|]. split; [by destruct (all_commands u)|].
    intros v (-> & -> & -> & ->). by destruct (all_commands u).
  - unfold rule_add_command. case_decide; [done|]. intros [= <-]. split; [done|]. split; [done|].
    by intros v (-> & -> & -> & ->).
  - unfold rule_del_category. destruct (category_commands (tail r)) as [cmds|]; [|done]. cbn [mbind result_bind].
    case_decide as Ha.
    { destruct N as [_ []]. destruct r as [|c' r]; [done|]. injection Hh as ->. cbn in Ha. by rewrite Ha. }
    intros [= <-]. split; [by destruct (all_commands u)|]. split; [by destruct (all_commands u)|].
    intros v (-> & -> & -> & ->). by destruct (all_commands u).
  - unfold rule_del_command. case_decide; [done|]. intros [= <-]. split; [by destruct (all_commands u)|].
    split; [by destruct (all_commands u)|]. intros v (-> & -> & -> & ->). by destruct (all_commands u).
Qed.

Lemma commands_append u c r u' rules :
  c = 43 ∨ c = 45 → word_rule u (c :: r) = None → sign_rule u (c :: r) = Ok u' → solid (c :: r) = true →
  commands_rebuilt u rules → commands_rebuilt u' (rules ++ [c :: r]).
Proof.
  intros Hc Hw Hs Hr (Hwords & Hd & Hb). destruct (command_rule_frame u c r u' Hc Hw Hs) as (Ed & _ & Hf).
  split; [apply Forall_app; split; [done|constructor; [by apply word_intro|constructor]]|].
  split; [by rewrite Ed, Hd, append_join|]. intros v F1 F2 F3 F4. rewrite (apply_rules_ok _ _ _ _ (Hb v F1 F2 F3 F4)).
  cbn [apply_rules]. rewrite Hf by done. done.
Qed.

(** ** Rules keep users well-formed *)

Lemma user_new_ok name : word name = true → user_ok (user_new name).
Proof.
  intros H. split; [done|done|constructor|constructor|apply patterns_new..|done|]. exists []. by apply commands_none.
Qed.

Lemma push_new_nodup x l : NoDup l → NoDup (push_new x l).
Proof. intros H. unfold push_new. case_decide; [done|]. apply NoDup_app. split; [done|]. split; [|apply NoDup_singleton]. intros y Hy ->%list_elem_of_singleton. done. Qed.

Lemma push_new_forall (P : Str → Prop) x l : P x → Forall P l → Forall P (push_new x l).
Proof. intros Hx Hl. unfold push_new. case_decide; [done|]. apply Forall_app. split; [done|]. by constructor. Qed.

Lemma patterns_push sign all patterns desc p :
  patterns_ok sign all patterns desc → solid p = true → p ≠ str "*" →
  patterns_ok sign false (push_new p patterns) (patterns_desc sign (push_new p patterns)).
Proof.
  intros H Hp Hs. assert (N : NoDup patterns ∧ Forall (λ p, solid p = true ∧ p ≠ str "*") patterns).
  { unfold patterns_ok in H. destruct all; [destruct H as [-> _]; split; constructor|by destruct H as (? & ? & _)]. }
  destruct N. split; [by apply push_new_nodup|]. split; [by apply push_new_forall|done].
Qed.

Lemma word_rule_ok u rule u' : user_ok u → word_rule u rule = Some u' → user_ok u' ∧ u_name u' = u_name u.
Proof.
  intros [N1 N2 N3 N4 N5 N6 N7 [rules N8]]. unfold word_rule.
  repeat case_decide; intros [= <-]; (split; [|done]);
    try (split; first [done|apply NoDup_nil_2|apply List.Forall_nil|apply patterns_new|by exists rules]).
  - split; try done. exists [str "+@all"]. by eapply (commands_word _ true).
  - split; try done. exists [str "-@all"]. by eapply (commands_word _ false).
  - by apply user_new_ok.
Qed.

Lemma sign_rule_ok u rule u' :
  user_ok u → solid rule = true → word_rule u rule = None → sign_rule u rule = Ok u' → user_ok u' ∧ u_name u' = u_name u.
Proof.
  intros Hu Hr Hw. pose proof Hu as [N1 N2 N3 N4 N5 N6 N7 [rules N8]]. destruct rule as [|c r]; [done|].
  intros Hs. pose proof (sign_rule_perm u (c :: r) u' [] N7 Hw Hs) as [Hsets _].
  assert (Hr' : solid r = true) by (unfold solid in *; cbn [forallb] in Hr; by apply andb_true_iff in Hr as [_ ?]).
  destruct (decide (c = 43 ∨ c = 45)) as [Hc|Hc].
  { destruct (command_rule_frame u c r u' Hc Hw Hs) as (_ & E & _).
    pose proof (commands_append u c r u' rules Hc Hw Hs Hr N8) as Hcmd. rewrite E. split; [|done].
    rewrite E in Hsets. rewrite E in Hcmd. by split; [..|exists (rules ++ [c :: r])]. }
  unfold sign_rule in Hs.
  destruct (Z.eqb_spec c 62) as [->|_].
  { case_decide; [done|]. injection Hs as <-. split; [|done].
    split; try done; [by apply push_new_nodup|apply push_new_forall; [by apply word_intro|done]|by exists rules]. }
  destruct (Z.eqb_spec c 60) as [->|_].
  { injection Hs as <-. split; [|done]. split; try done; cbn.
    - intros E. by rewrite N2.
    - by apply NoDup_filter.
    - rewrite Forall_forall in N4 |- *. intros p [_ Hp]%list_elem_of_filter. by apply N4.
    - by exists rules. }
  destruct (Z.eqb_spec c 126) as [->|_].
  { injection Hs as <-. unfold rule_keys. case_decide; (split; [|done]); (split; try done; try by exists rules). by eapply patterns_push. }
  destruct (Z.eqb_spec c 38) as [->|_].
  { injection Hs as <-. unfold rule_channels. case_decide; (split; [|done]); (split; try done; try by exists rules). by eapply patterns_push. }
  destruct (Z.eqb_spec c 43), (Z.eqb_spec c 45); try tauto. done.
Qed.

Lemma apply_rule_ok u rule u' :
  user_ok u → solid rule = true → apply_rule u rule = Ok u' → user_ok u' ∧ u_name u' = u_name u.
Proof.
  unfold apply_rule. intros Hu Hr. destruct (word_rule u rule) as [v|] eqn:E; [|by apply sign_rule_ok].
  intros [= <-]. by eapply word_rule_ok.
Qed.

Lemma apply_rules_user_ok u rules :
  user_ok u → Forall (λ r, solid r = true) rules → user_ok (apply_rules u rules).1 ∧ u_name (apply_rules u rules).1 = u_name u.
Proof.
  intros Hu Hr. revert u Hu. induction Hr as [|r rules Hr Hrs IH]; intros u Hu; cbn [apply_rules]; [done|].
  destruct (apply_rule u r) as [v|] eqn:E; [|done]. destruct (apply_rule_ok u r v Hu Hr E) as [Hv En].
  destruct (IH v Hv) as [H1 H2]. split; [done|congruence].
Qed.

(** ** Reading a saved user *)

Lemma sign_apply u c r :
  c ∈ [62; 60; 126; 38] → apply_rule u (c :: r) = sign_rule u (c :: r).
Proof.
  intros Hc. unfold apply_rule. rewrite word_rule_sign; [done| | |].
  - set_solver.
  - intros [= -> _]. by apply (bool_decide_eq_true_2 _) in Hc.
  - intros [= -> _]. by apply (bool_decide_eq_true_2 _) in Hc.
Qed.

Lemma push_new_fresh x l : x ∉ l → push_new x l = l ++ [x].
Proof. intros H. unfold push_new. by rewrite decide_False. Qed.

Lemma nodup_middle {A} (l : list A) x r : NoDup (l ++ x :: r) → (x ∉ l) ∧ NoDup ((l ++ [x]) ++ r).
Proof.
  intros H. split; [|by rewrite <- app_assoc]. apply NoDup_app in H as (_ & H & _). intros Hx. apply (H x Hx). left.
Qed.

Lemma replay_passwords v ps :
  NoDup (u_passwords v ++ ps) → Forall (λ p, word p = true) ps →
  apply_rules v ((62 ::.) <$> ps) =
    (set_login v (u_enabled v) (if decide (ps = []) then u_nopass v else false) (u_passwords v ++ ps), Ok tt).
Proof.
  revert v. induction ps as [|p ps IH]; intros v Hn Hp; cbn [fmap list_fmap apply_rules].
  { rewrite app_nil_r. by destruct v. }
  inversion Hp as [|? ? Hp1 Hp2]; subst. apply word_solid in Hp1 as [_ Hne]. apply nodup_middle in Hn as [Hf Hn].
  rewrite sign_apply by (by apply (bool_decide_eq_true_1 _)). cbn [sign_rule Z.eqb Pos.eqb].
  rewrite decide_False, push_new_fresh by done. rewrite IH; [|done|done]. cbn. rewrite <- app_assoc. by case_decide.
Qed.

Lemma replay_keys v patterns :
  all_keys v = false → keys_desc v = patterns_desc 126 (key_patterns v) →
  NoDup (key_patterns v ++ patterns) → Forall (λ p, solid p = true ∧ p ≠ str "*") patterns →
  apply_rules v ((126 ::.) <$> patterns) =
    (set_keys v false (key_patterns v ++ patterns) (patterns_desc 126 (key_patterns v ++ patterns)), Ok tt).
Proof.
  revert v. induction patterns as [|p patterns IH]; intros v Ha Hd Hn Hp; cbn [fmap list_fmap apply_rules].
  { rewrite app_nil_r, <- Hd, <- Ha. by destruct v. }
  inversion Hp as [|? ? [_ Hne] Hp2]; subst. apply nodup_middle in Hn as [Hf Hn].
  rewrite sign_apply by (by apply (bool_decide_eq_true_1 _)). cbn [sign_rule Z.eqb Pos.eqb]. unfold rule_keys.
  rewrite decide_False, push_new_fresh by done. rewrite IH; [|done..]. cbn. by rewrite <- app_assoc.
Qed.

Lemma replay_channels v patterns :
  all_channels v = false → channels_desc v = patterns_desc 38 (channel_patterns v) →
  NoDup (channel_patterns v ++ patterns) → Forall (λ p, solid p = true ∧ p ≠ str "*") patterns →
  apply_rules v ((38 ::.) <$> patterns) =
    (set_channels v false (channel_patterns v ++ patterns) (patterns_desc 38 (channel_patterns v ++ patterns)), Ok tt).
Proof.
  revert v. induction patterns as [|p patterns IH]; intros v Ha Hd Hn Hp; cbn [fmap list_fmap apply_rules].
  { rewrite app_nil_r, <- Hd, <- Ha. by destruct v. }
  inversion Hp as [|? ? [_ Hne] Hp2]; subst. apply nodup_middle in Hn as [Hf Hn].
  rewrite sign_apply by (by apply (bool_decide_eq_true_1 _)). cbn [sign_rule Z.eqb Pos.eqb]. unfold rule_channels.
  rewrite decide_False, push_new_fresh by done. rewrite IH; [|done..]. cbn. by rewrite <- app_assoc.
Qed.

(** The words of a line, group by group. *)
Definition login_words (u : AclUser) : list Str :=
  (if u_enabled u then str "on" else str "off") :: (if u_nopass u then [str "nopass"] else (62 ::.) <$> u_passwords u).

Definition pattern_words (sign : Z) (all : bool) (patterns : list Str) : list Str :=
  if all then [[sign; 42]] else (sign ::.) <$> patterns.

(** What a saved user becomes: an empty command description is spelled out. *)
Definition spelled (u : AclUser) : AclUser :=
  set_commands u (all_commands u) (allowed_commands u) (disallowed_commands u)
    (if decide (command_desc u = []) then str "-@all" else command_desc u).

Lemma login_replay v u :
  user_ok u → u_nopass v = false → u_passwords v = [] →
  apply_rules v (login_words u) = (set_login v (u_enabled u) (u_nopass u) (u_passwords u), Ok tt).
Proof.
  intros Hu Hn Hp. unfold login_words. cbn [apply_rules].
  assert (E : apply_rule v (if u_enabled u then str "on" else str "off") = Ok (set_login v (u_enabled u) (u_nopass v) (u_passwords v)))
    by (by destruct (u_enabled u)).
  rewrite E. destruct (u_nopass u) eqn:En.
  - rewrite (ok_nopass u Hu En). done.
  - rewrite replay_passwords; cbn; rewrite ?Hp; [|apply Hu..]. rewrite Hn. by case_decide.
Qed.

Lemma keys_replay v all patterns desc :
  patterns_ok 126 all patterns desc → all_keys v = false → key_patterns v = [] → keys_desc v = [] →
  apply_rules v (pattern_words 126 all patterns) = (set_keys v all patterns desc, Ok tt).
Proof.
  intros H E1 E2 E3. unfold patterns_ok, pattern_words in *. destruct all; [by destruct H as [-> ->]|].
  destruct H as (Hn & Hp & ->). by rewrite replay_keys; rewrite ?E2.
Qed.

Lemma channels_replay v all patterns desc :
  patterns_ok 38 all patterns desc → all_channels v = false → channel_patterns v = [] → channels_desc v = [] →
  apply_rules v (pattern_words 38 all patterns) = (set_channels v all patterns desc, Ok tt).
Proof.
  intros H E1 E2 E3. unfold patterns_ok, pattern_words in *. destruct all; [by destruct H as [-> ->]|].
  destruct H as (Hn & Hp & ->). by rewrite replay_channels; rewrite ?E2.
Qed.

Lemma join_nested sep l1 toks l2 : toks ≠ [] → join sep (l1 ++ join sep toks :: l2) = join sep (l1 ++ toks ++ l2).
Proof.
  intros Ht. induction l1 as [|x l1 IH].
  - cbn [app]. destruct l2 as [|y l2]; [by rewrite app_nil_r|]. by rewrite join_app_cons, join_app by done.
  - cbn [app]. rewrite !join_app_cons; [by rewrite IH|..].
    + destruct l1; [by destruct toks|done].
    + by destruct l1.
Qed.

(** A description is one part of the line or none; as words it is the same text. *)
Lemma desc_words sign all patterns desc l1 l2 :
  patterns_ok sign all patterns desc →
  join space (l1 ++ (if decide (desc = []) then (if all then [[sign; 42]] else []) else [desc]) ++ l2) =
  join space (l1 ++ pattern_words sign all patterns ++ l2).
Proof.
  intros H. unfold patterns_ok, pattern_words in *. destruct all; [by destruct H as [-> ->]|]. destruct H as (_ & _ & ->).
  unfold patterns_desc. destruct patterns as [|p patterns]; [done|].
  rewrite decide_False; [by apply join_nested|]. cbn [fmap list_fmap]. by destruct ((sign ::.) <$> patterns).
Qed.

Lemma patterns_words sign all patterns desc :
  is_whitespace sign = false → patterns_ok sign all patterns desc →
  Forall (λ w, word w = true) (pattern_words sign all patterns).
Proof.
  intros Hs H. unfold patterns_ok, pattern_words in *. destruct all.
  - constructor; [by apply word_cons|constructor].
  - destruct H as (_ & H & _). apply Forall_fmap. eapply Forall_impl; [exact H|]. intros p [Hp _]. by apply word_cons.
Qed.

Lemma login_words_ok u : user_ok u → Forall (λ w, word w = true) (login_words u).
Proof.
  intros H. constructor; [by destruct (u_enabled u)|]. destruct (u_nopass u); [by repeat constructor|].
  apply Forall_fmap. eapply Forall_impl; [apply H|]. intros p [Hp _]%word_solid. by apply word_cons.
Qed.

Definition command_words (rules : list Str) : list Str := match rules with [] => [str "-@all"] | _ => rules end.

Lemma command_words_spec u rules :
  commands_rebuilt u rules →
  Forall (λ w, word w = true) (command_words rules) ∧
  (if decide (command_desc u = []) then (if all_commands u then str "+@all" else str "-@all") else command_desc u)
    = join space (command_words rules) ∧
  ∀ v, all_commands v = false → allowed_commands v = ∅ → disallowed_commands v = ∅ → command_desc v = [] →
    apply_rules v (command_words rules) = (with_commands v (spelled u), Ok tt).
Proof.
  intros (Hw & Hd & Hb). destruct rules as [|r rules]; cbn [command_words].
  - pose proof (Hb (user_new []) eq_refl eq_refl eq_refl eq_refl) as E. cbn in E. injection E as E1 E2 E3 E4.
    split; [by repeat constructor|]. unfold with_commands, spelled. cbn. rewrite <- E1, <- E2, <- E3, <- E4. split; [done|].
    by intros v _ _ _ _.
  - split; [done|]. assert (N : command_desc u ≠ []).
    { rewrite Hd. inversion Hw as [|? ? Hx _]; subst. apply word_solid in Hx as [_ Hx]. destruct r; [done|]. by destruct rules. }
    unfold with_commands, spelled. cbn [all_commands allowed_commands disallowed_commands command_desc set_commands].
    rewrite !decide_False by done. split; [done|]. exact Hb.
Qed.

(** The line of a user holds words, and applying its rules to a new user gives the user back. *)
Lemma list_entry_words u :
  user_ok u → ∃ toks, to_list_entry u = join space (str "user" :: u_name u :: toks) ∧
    Forall (λ w, word w = true) toks ∧ apply_rules (user_new (u_name u)) toks = (spelled u, Ok tt).
Proof.
  intros Hu. destruct (ok_commands u Hu) as [rules Hc]. destruct (command_words_spec u rules Hc) as (W & D & R).
  pose proof (ok_keys u Hu) as Hk. pose proof (ok_channels u Hu) as Hh.
  set (kw := pattern_words 126 (all_keys u) (key_patterns u)). set (hw := pattern_words 38 (all_channels u) (channel_patterns u)).
  exists (login_words u ++ kw ++ hw ++ command_words rules). split; [|split].
  - unfold to_list_entry. rewrite D.
    change (str "user " ++ u_name u) with (join space [str "user"; u_name u]).
    transitivity (join space ((join space [str "user"; u_name u] :: login_words u) ++
      (if decide (keys_desc u = []) then (if all_keys u then [[126; 42]] else []) else [keys_desc u]) ++
      (if decide (channels_desc u = []) then (if all_channels u then [[38; 42]] else []) else [channels_desc u]) ++
      [join space (command_words rules)])); [done|].
    rewrite (desc_words 126 _ _ _ _ _ Hk). fold kw. rewrite (app_assoc _ kw), (desc_words 38 _ _ _ _ _ Hh). fold hw.
    rewrite (app_assoc _ hw), (join_nested _ _ (command_words rules) []), app_nil_r by (by destruct rules).
    rewrite <- !app_assoc. cbn [app]. by apply (join_nested space [] [str "user"; u_name u]).
  - repeat (apply Forall_app; split); [by apply login_words_ok|by eapply patterns_words..|done].
  - erewrite apply_rules_ok by (by apply login_replay). erewrite apply_rules_ok by (by eapply keys_replay).
    erewrite apply_rules_ok by (by eapply channels_replay). rewrite R by done. by destruct u.
Qed.

(** ** Stores *)

Definition users_ok (s : AclStore) : Prop := ∀ n u, s !! n = Some u → user_ok u ∧ u_name u = n.
Definition store_ok (s : AclStore) : Prop := users_ok s ∧ is_Some (s !! str "default").

Inductive acl_op : Type :=
| ASetuser (username : Str) (rules : list Str)
| ADeluser (usernames : list Str)
| ALoad (content : Str).

Definition acl_step (s : AclStore) (o : acl_op) : AclStore :=
  match o with
  | ASetuser username rules => (setuser s username rules).1
  | ADeluser usernames => (deluser s usernames 0).1
  | ALoad content => (load_from_str s content).1
  end.

(** Names and rules without white space, as a client that separates words by spaces sends them. *)
Definition op_solid (o : acl_op) : bool :=
  match o with ASetuser username rules => solid username && forallb solid rules | _ => true end.

Lemma users_insert s n u : users_ok s → user_ok u → u_name u = n → users_ok (<[n := u]> s).
Proof.
  intros Hs Hu Hn m v. destruct (decide (m = n)) as [->|]; [rewrite lookup_insert_eq; by intros [= <-]|].
  rewrite lookup_insert_ne by done. apply Hs.
Qed.

Lemma setuser_ok s n rules : store_ok s → solid n = true → forallb solid rules = true → store_ok (setuser s n rules).1.
Proof.
  intros [Hs Hd] Hn Hr. unfold setuser. case_decide as Hne; [by split|].
  assert (Hu : user_ok (default (user_new n) (s !! n)) ∧ u_name (default (user_new n) (s !! n)) = n).
  { destruct (s !! n) as [u|] eqn:E; [by apply Hs|]. split; [by apply user_new_ok, word_intro|done]. }
  destruct Hu as [Hu Eu]. destruct (apply_rules_user_ok _ rules Hu) as [H1 H2].
  { apply Forall_forall. by apply forallb_elem. }
  destruct (apply_rules _ rules) as [v r]. cbn [fst] in *. split; [apply users_insert; [done|done|congruence]|].
  destruct (decide (n = str "default")) as [->|]; [by rewrite lookup_insert_eq|by rewrite lookup_insert_ne].
Qed.

Lemma deluser_ok s ns d : store_ok s → store_ok (deluser s ns d).1.
Proof.
  revert s d. induction ns as [|n ns IH]; intros s d H; cbn [deluser]; [done|]. case_decide; [done|]. case_decide; [by apply IH|].
  destruct (s !! n); apply IH; [|done]. destruct H as [Hs Hd]. split.
  - intros m v Hm. apply lookup_delete_Some in Hm as [_ Hm]. by apply Hs.
  - by rewrite lookup_delete_ne.
Qed.

Lemma load_line_ok s i line s' : users_ok s → load_line s i line = Ok s' → users_ok s'.
Proof.
  intros Hs. unfold load_line. case_decide; [by intros [= <-]|]. pose proof (split_words (trim line)) as W.
  destruct (split_whitespace (trim line)) as [|t0 tokens]; [by intros [= <-]|]. destruct (negb _); [done|].
  destruct tokens as [|n rules]; [done|]. inversion W as [|? ? _ W1]; subst. inversion W1 as [|? ? Wn Wr]; subst.
  destruct (apply_rules_user_ok (user_new n) rules) as [H1 H2]; [by apply user_new_ok| |].
  { eapply Forall_impl; [exact Wr|]. by intros r [Hr _]%word_solid. }
  destruct (apply_rules (user_new n) rules) as [v [r|e]]; [|done]. intros [= <-]. by apply users_insert.
Qed.

Lemma load_lines_ok s i l s' : users_ok s → load_lines s i l = Ok s' → users_ok s'.
Proof.
  revert s i. induction l as [|line l IH]; intros s i Hs; cbn [load_lines]; [by intros [= <-]|].
  destruct (load_line s i line) as [s1|] eqn:E; [|done]. apply IH. by eapply load_line_ok.
Qed.

Lemma load_ok s content : store_ok s → store_ok (load_from_str s content).1.
Proof.
  intros Hs. unfold load_from_str. destruct (load_lines ∅ 0 (lines content)) as [s'|] eqn:E; [|done].
  case_decide; [|done]. split; [|done]. eapply load_lines_ok; [|exact E]. by intros n u Hn%lookup_empty_Some.
Qed.

Lemma from_auth_ok auth : solid auth = true → store_ok (from_auth auth).
Proof.
  intros Ha. split; [|done]. intros n u H. unfold from_auth in H. apply lookup_singleton_Some in H as [<- <-]. split; [|done].
  unfold default_superuser. case_bool_decide; split; try done; cbn; first [by constructor|idtac].
  - exists [str "+@all"]. by apply (commands_word _ true).
  - apply NoDup_singleton.
  - constructor; [by apply word_intro|constructor].
  - exists [str "+@all"]. by apply (commands_word _ true).
Qed.

Lemma acl_run_ok auth ops :
  solid auth = true → forallb op_solid ops = true → store_ok (foldl acl_step (from_auth auth) ops).
Proof.
  intros Ha. assert (G : ∀ s, store_ok s → forallb op_solid ops = true → store_ok (foldl acl_step s ops)).
  { induction ops as [|o ops IH]; intros s Hs Ho; [done|]. cbn [forallb foldl] in *. apply andb_true_iff in Ho as [H1 H2].
    apply IH; [|done]. destruct o; cbn [acl_step op_solid] in *; [|by apply deluser_ok|by apply load_ok].
    apply andb_true_iff in H1 as [? ?]. by apply setuser_ok. }
  apply G. by apply from_auth_ok.
Qed.

(** ** Reading a saved store *)

Lemma load_saved_line s i u :
  user_ok u → load_line s i (to_list_entry u) = Ok (<[u_name u := spelled u]> s).
Proof.
  intros Hu. destruct (list_entry_words u Hu) as (toks & E & W & R). unfold load_line.
  assert (Wl : Forall (λ w, word w = true) (str "user" :: u_name u :: toks)) by (constructor; [done|constructor; [apply Hu|done]]).
  rewrite E, (trim_join (str "user") _ 117 (str "ser") eq_refl Wl), split_join by done.
  rewrite decide_False; [by rewrite R|]. rewrite join_app_cons by done. by intros [?|?].
Qed.

Definition saved (s : AclStore) (m : AclStore) (n : Str) : AclStore :=
  match s !! n with Some u => <[n := spelled u]> m | None => m end.

Lemma load_saved_lines s m i l :
  users_ok s → load_lines m i (omap (λ n, to_list_entry <$> s !! n) l) = Ok (foldl (saved s) m l).
Proof.
  intros Hs. revert m i. induction l as [|n l IH]; intros m i; [done|]. cbn [omap list_omap foldl]. unfold saved at 2.
  destruct (s !! n) as [u|] eqn:E; cbn [fmap option_fmap option_map]; [|apply IH].
  destruct (Hs n u E) as [Hu Hn]. cbn [load_lines]. rewrite load_saved_line by done. cbn [mbind result_bind]. rewrite Hn. apply IH.
Qed.

Lemma saved_lookup s l m n :
  foldl (saved s) m l !! n = if decide (n ∈ l ∧ is_Some (s !! n)) then spelled <$> s !! n else m !! n.
Proof.
  revert m. induction l as [|x l IH]; intros m; cbn [foldl].
  { rewrite decide_False; [done|]. by intros [?%not_elem_of_nil _]. }
  rewrite IH. unfold saved. destruct (decide (n ∈ l ∧ is_Some (s !! n))) as [[H1 H2]|H].
  { rewrite decide_True; [done|]. split; [by right|done]. }
  destruct (decide (n = x)) as [->|Hne].
  - destruct (s !! x) as [u|] eqn:E.
    + rewrite lookup_insert_eq, decide_True; [done|]. split; [left|by eexists].
    + rewrite decide_False; [done|]. by intros [_ []].
  - rewrite decide_False; [destruct (s !! x); [by rewrite lookup_insert_ne|done]|].
    intros [Hx Hs]. apply H. apply elem_of_cons in Hx as [?|?]; done.
Qed.

Lemma usernames_elem s n : n ∈ usernames s ↔ is_Some (s !! n).
Proof.
  unfold usernames, sort_strings. rewrite merge_sort_Permutation, list_elem_of_fmap. split.
  - intros ([n' u] & -> & H%elem_of_map_to_list). by exists u.
  - intros [u H]. exists (n, u). split; [done|]. by apply elem_of_map_to_list.
Qed.

Lemma load_save s s0 : store_ok s → load_from_str s0 (save_text s) = (spelled <$> s, Ok tt).
Proof.
  intros [Hs Hd]. unfold load_from_str, save_text. rewrite lines_join.
  - unfold list_users. rewrite load_saved_lines by done.
    assert (E : foldl (saved s) ∅ (usernames s) = spelled <$> s).
    { apply map_eq. intros n. rewrite saved_lookup, lookup_fmap. case_decide as H; [done|].
      destruct (s !! n) as [u|] eqn:E; [|by rewrite lookup_empty]. destruct H. split; [apply usernames_elem|]; by eexists. }
    rewrite E, decide_True; [done|]. rewrite lookup_fmap. by apply fmap_is_Some.
  - apply Forall_forall. intros line (n & _ & Hn)%list_elem_of_omap. destruct (s !! n) as [u|] eqn:E; [|done]. injection Hn as <-.
    destruct (Hs n u E) as [Hu _]. destruct (list_entry_words u Hu) as (toks & -> & W & _). apply join_plain.
    constructor; [done|constructor; [apply Hu|done]].
  - intros E. destruct Hd as [u Hu]. assert (H : to_list_entry u ∈ list_users s).
    { apply list_elem_of_omap. exists (str "default"). rewrite usernames_elem, Hu. split; [by eexists|done]. }
    rewrite E in H. by apply not_elem_of_nil in H.
Qed.

(** ** Permissions *)

Lemma lower_idem s : to_ascii_lowercase (to_ascii_lowercase s) = to_ascii_lowercase s.
Proof.
  unfold to_ascii_lowercase. rewrite <- list_fmap_compose. apply list_fmap_ext. intros _ c _. unfold compose, lower_char.
  destruct (Z.leb_spec 65 c), (Z.leb_spec c 90); cbn [andb]; try (destruct (Z.leb_spec 65 c), (Z.leb_spec c 90); cbn [andb]; done || lia).
  destruct (Z.leb_spec 65 (c + 32)), (Z.leb_spec (c + 32) 90); cbn [andb]; done || lia.
Qed.

(** The fast path for open users skips only checks that succeed. *)
Lemma unrestricted_allows s n cmd key ch :
  is_unrestricted s n = true → can_execute s n cmd = true ∧ can_access_key s n key = true ∧ can_access_channel s n ch = true.
Proof.
  unfold is_unrestricted, can_execute, can_access_key, can_access_channel. destruct (s !! n) as [u|]; [|done].
  cbn. unfold user_is_unrestricted. intros [[[[_ H1]%andb_true_iff H2]%andb_true_iff H3]%andb_true_iff H4]%andb_true_iff.
  unfold user_can_execute, user_can_access_key, user_can_access_channel. by rewrite H1, H2, H3, H4.
Qed.

Lemma existsb_glob l t : existsb (λ p, glob_match p t) l = true ↔ ∃ p, p ∈ l ∧ glob_match p t = true.
Proof. rewrite existsb_exists. split; intros (p & Hp & H); exists p; (split; [by apply list_elem_of_In|done]). Qed.

(** The characters of a string as bytes, and what a pattern means for them. *)
Definition chars (s : Str) : list Z := u8 <$> as_bytes s.
Definition covers (patterns : list Str) (s : Str) : Prop := ∃ p, p ∈ patterns ∧ glob (chars p) (chars s).

Lemma patterns_checked all patterns s :
  let ok := if all : bool then true else if decide (patterns = []) then false else existsb (λ p, glob_match p s) patterns in
  (ok = true → all = true ∨ covers patterns s) ∧
  (star ∉ chars s → all = true ∨ covers patterns s → ok = true).
Proof.
  intros ok. unfold ok. destruct all; [split; [by left|done]|]. case_decide as E.
  - subst. split; [done|]. intros _ [?|(p & Hp & _)]; [done|]. by apply not_elem_of_nil in Hp.
  - split.
    + intros (p & Hp & H)%existsb_glob. right. exists p. split; [done|]. by apply glob_match_bytes_sound.
    + intros Hs [?|(p & Hp & H)]; [done|]. apply existsb_glob. exists p. split; [done|]. by apply glob_match_bytes_starless.
Qed.

Lemma glob_prefix_star l r : glob (l ++ [star]) (l ++ r).
Proof.
  induction l as [|c l IH]; cbn [app].
  - induction r as [|c r IH]; [apply glob_star_end; constructor|by apply glob_star_char].
  - destruct (decide (c = star)) as [->|]; [by apply glob_star_char, glob_star_end|by constructor].
Qed.

(** On a pattern that ends in a star and a text that has a star there, the star is taken as a
    character. *)
Lemma acl_loop_star fuel p c r i :
  (i ≤ length p + 1)%nat → acl_match_loop fuel (p ++ [x2a]) (p ++ x2a :: c :: r) i i None 0 ∈ [LoopFalse; LoopFuel].
Proof.
  revert i. induction fuel as [|fuel IH]; intros i Hi; cbn [acl_match_loop]; [right; left|].
  assert (Es : p ++ x2a :: c :: r = (p ++ [x2a]) ++ c :: r) by (by rewrite <- app_assoc). rewrite Es in *.
  assert (Lp : length (p ++ [x2a]) = (length p + 1)%nat) by (by rewrite length_app).
  destruct (decide (i < length p + 1)%nat) as [Hlt|Hge].
  - destruct (lookup_lt_is_Some_2 (p ++ [x2a]) i) as [x Hx]; [lia|].
    rewrite (lookup_app_l_Some _ _ _ _ Hx), Hx, decide_True by auto. apply IH. lia.
  - assert (i = length (p ++ [x2a])) as -> by lia. rewrite lookup_app_r, Nat.sub_diag by lia. cbn [lookup list_lookup].
    rewrite lookup_ge_None_2 by lia. left.
Qed.

Lemma acl_star_missed p c r : glob_match_bytes (p ++ [x2a]) (p ++ x2a :: c :: r) = false.
Proof.
  unfold glob_match_bytes. pose proof (acl_loop_star (match_fuel (u8 <$> p ++ [x2a]) (u8 <$> p ++ x2a :: c :: r)) p c r 0 ltac:(lia)) as H.
  apply elem_of_cons in H as [->|H]; [done|]. by apply list_elem_of_singleton in H as ->.
Qed.

(** ** Properties *)

(** C8. ACL SAVE and ACL LOAD.  Take any store that the server's password and any SETUSER, DELUSER and
    LOAD calls have made, with names, rules and passwords that contain no white space.  The saved text
    can be loaded again, into any store; afterwards every user logs in with the same passwords and may
    run the same commands and access the same keys and channels, and no other user exists. *)
Theorem acl_save_load auth ops s0 :
  solid auth = true → forallb op_solid ops = true →
  let s := foldl acl_step (from_auth auth) ops in
  ∃ s', load_from_str s0 (save_text s) = (s', Ok tt) ∧ dom s' = dom s ∧ ∀ n,
    (∀ pass, authenticate s' n pass = authenticate s n pass) ∧
    (∀ cmd, can_execute s' n cmd = can_execute s n cmd) ∧
    (∀ key, can_access_key s' n key = can_access_key s n key) ∧
    (∀ ch, can_access_channel s' n ch = can_access_channel s n ch) ∧
    is_unrestricted s' n = is_unrestricted s n.
Proof.
  intros Ha Ho s. exists (spelled <$> s). split; [by apply load_save, acl_run_ok|]. split; [apply dom_fmap_L|].
  intros n. unfold authenticate, can_execute, can_access_key, can_access_channel, is_unrestricted. rewrite lookup_fmap.
  by destruct (s !! n).
Qed.

(** C25. ACL SETUSER and commands.  On any store made as before, a user may run a command exactly if the
    last of the user's rules that concerns the command allows it: the rules of the call are applied
    to what the user could run before, in order, up to the first rule that is an error (whose error
    is the answer).  The rules in front of it stay in force.  No other user changes. *)
Theorem acl_setuser_commands auth ops n rules :
  solid auth = true → forallb op_solid ops = true → n ≠ [] →
  let s := foldl acl_step (from_auth auth) ops in
  let s' := (setuser s n rules).1 in
  ∃ done_ rest, rules = done_ ++ rest ∧
    match (setuser s n rules).2 with
    | Ok _ => rest = []
    | Err e => ∃ u bad post, s' !! n = Some u ∧ rest = bad :: post ∧ apply_rule u bad = Err e
    end ∧
    (∀ cmd, can_execute s' n cmd = foldl (λ p r, granted r p) (can_execute s n) done_ (to_ascii_lowercase cmd)) ∧
    (∀ n', n' ≠ n → s' !! n' = s !! n').
Proof.
  intros Ha Ho Hn s s'. destruct (acl_run_ok auth ops Ha Ho) as [Hs _]. fold s in Hs.
  set (u0 := default (user_new n) (s !! n)). assert (H0 : sets_ok u0 ∧ ∀ c, can_execute s n (to_ascii_lowercase c) = perm u0 (to_ascii_lowercase c)).
  { unfold u0, can_execute. destruct (s !! n) as [u|] eqn:E; [|done]. destruct (Hs n u E) as [[] _]. split; [done|].
    intros c. cbn. by rewrite can_execute_perm, lower_idem. }
  destruct H0 as [H0 P0]. unfold s', setuser. rewrite decide_False by done. fold u0.
  assert (F : ∀ u rs, apply_rules u0 rs = (u, Ok tt) → ∀ cmd, can_execute (<[n := u]> s) n cmd =
    foldl (λ p r, granted r p) (can_execute s n) rs (to_ascii_lowercase cmd)).
  { intros u rs E cmd. destruct (apply_rules_perm u0 rs u H0 E) as [Hu Hp]. unfold can_execute at 1. rewrite lookup_insert_eq. cbn.
    rewrite can_execute_perm, Hp by done. symmetry. by apply granted_fold. }
  destruct (apply_rules u0 rules) as [u [[]|e]] eqn:E; cbn [fst snd].
  - exists rules, []. rewrite app_nil_r. split; [done|]. split; [done|]. split; [by apply F|]. intros n' Hn'. by rewrite lookup_insert_ne.
  - destruct (apply_rules_err u0 rules u e E) as (pre & bad & post & -> & Hp & Hb). exists pre, (bad :: post). split; [done|].
    split; [exists u, bad, post; by rewrite lookup_insert_eq|]. split; [by apply F|]. intros n' Hn'. by rewrite lookup_insert_ne.
Qed.

(** Key and channel patterns.  A user reaches a key (or a channel) only if the user has all of them or
    one of the patterns covers its name, with [*] for any bytes and [?] for one byte; and if the name
    contains no star, the user also does reach it. *)
Theorem acl_patterns_checked u name :
  (user_can_access_key u name = true → all_keys u = true ∨ covers (key_patterns u) name) ∧
  (user_can_access_channel u name = true → all_channels u = true ∨ covers (channel_patterns u) name) ∧
  (star ∉ chars name →
     (all_keys u = true ∨ covers (key_patterns u) name → user_can_access_key u name = true) ∧
     (all_channels u = true ∨ covers (channel_patterns u) name → user_can_access_channel u name = true)).
Proof.
  destruct (patterns_checked (all_keys u) (key_patterns u) name) as [K1 K2].
  destruct (patterns_checked (all_channels u) (channel_patterns u) name) as [C1 C2].
  split; [exact K1|]. split; [exact C1|]. intros Hs. split; [by apply K2|by apply C2].
Qed.

(** A star in a name.  A user with the single pattern [p*] is refused every longer key that continues
    [p] with a star, although the pattern covers it. *)
Theorem acl_star_refused n d p c r :
  let pattern := d :: p ++ str "*" in
  let key := d :: p ++ str "*" ++ c :: r in
  ∃ u, apply_rule (user_new n) (126 :: pattern) = Ok u ∧ covers (key_patterns u) key ∧ user_can_access_key u key = false.
Proof.
  intros pattern key. assert (Hp : pattern ≠ str "*") by (unfold pattern; intros [= _ E]; by destruct p).
  assert (As : as_bytes (str "*") = [x2a]) by reflexivity.
  assert (Ap : as_bytes pattern = as_bytes (d :: p) ++ [x2a]).
  { unfold pattern. rewrite app_comm_cons. unfold as_bytes in *. by rewrite fmap_app, concat_app, As. }
  assert (Ak : ∃ c' r', as_bytes key = as_bytes (d :: p) ++ x2a :: c' :: r').
  { unfold key. rewrite app_comm_cons. unfold as_bytes in *. rewrite !fmap_app, !concat_app, As. cbn [fmap list_fmap concat].
    assert (Ec : ∃ c' r', encode_char c = c' :: r') by (unfold encode_char; repeat case_match; eauto).
    destruct Ec as (c' & r' & ->). by exists c', (r' ++ concat (encode_char <$> r)). }
  destruct Ak as (c' & r' & Ak). eexists. split; [by rewrite sign_apply by (by apply (bool_decide_eq_true_1 _))|].
  unfold rule_keys. rewrite decide_False by done. cbn [key_patterns user_new push_new app set_keys]. split.
  - exists pattern. split; [left|]. unfold chars. rewrite Ap, Ak, !fmap_app. apply glob_prefix_star.
  - unfold user_can_access_key. cbn [all_keys key_patterns set_keys]. rewrite decide_False by done.
    change (glob_match_bytes (as_bytes pattern) (as_bytes key) || false = false). by rewrite Ap, Ak, acl_star_missed.
Qed.

(** White space in a password.  ACL SETUSER accepts a password with a space, and ACL SAVE writes it
    as it is; after ACL LOAD its second half is a rule.  Here a user who may access no key has all
    of them after saving and loading, and the old password no longer works. *)
Theorem acl_password_becomes_rule :
  let s := acl_step (from_auth []) (ASetuser (str "eve") (str <$> ["on"; ">pass ~*"]%string)) in
  can_access_key s (str "eve") (str "payroll") = false ∧ authenticate s (str "eve") (str "pass ~*") = Ok tt ∧
  ∃ s', load_from_str s (save_text s) = (s', Ok tt) ∧
    can_access_key s' (str "eve") (str "payroll") = true ∧ authenticate s' (str "eve") (str "pass ~*") = Err WrongPass.
Proof.
  intros s. split; [vm_compute; reflexivity|]. split; [vm_compute; reflexivity|].
  exists (load_from_str s (save_text s)).1. split; [vm_compute; reflexivity|]. split; vm_compute; reflexivity.
Qed.

(** ** Witnesses *)

(** An administrator narrows the default user and adds one that may read two groups of keys. *)
Definition office : list acl_op :=
  [ASetuser (str "default") (str <$> ["-@dangerous"; "+KEYS"; "resetkeys"; "~app:*"; "~log:?"]%string);
   ASetuser (str "reader") (str <$> ["on"; ">secret"; ">other"; "<other"; "~app:*"; "&news"; "+@read"; "-Scan"]%string);
   ASetuser (str "guest") (str <$> ["nopass"; "reset"]%string); ADeluser [str "nobody"];
   ASetuser (str "guest") (str <$> ["on"; "bogus"; "+@all"]%string)].

Lemma acl_save_load_witness :
  ∃ s', load_from_str ∅ (save_text (foldl acl_step (from_auth (str "pw")) office)) = (s', Ok tt) ∧
    can_execute s' (str "reader") (str "GET") = true ∧ can_execute s' (str "reader") (str "scan") = false ∧
    can_execute s' (str "default") (str "keys") = true ∧ can_execute s' (str "default") (str "flushall") = false.
Proof.
  destruct (acl_save_load (str "pw") office ∅) as (s' & E & _ & H).
  - reflexivity.
  - vm_compute. reflexivity.
  - exists s'. split; [exact E|]. destruct (H (str "reader")) as (_ & Hr & _). destruct (H (str "default")) as (_ & Hd & _).
    rewrite !Hr, !Hd. vm_compute. repeat split.
Defined.

Lemma acl_setuser_commands_witness :
  let s := foldl acl_step (from_auth (str "pw")) office in
  ∃ done_ rest, (str <$> ["+@all"; "-get"; "bogus"; "+get"]%string) = done_ ++ rest ∧
    ∀ cmd, can_execute (setuser s (str "reader") (str <$> ["+@all"; "-get"; "bogus"; "+get"]%string)).1 (str "reader") cmd =
      foldl (λ p r, granted r p) (can_execute s (str "reader")) done_ (to_ascii_lowercase cmd).
Proof.
  intros s.
  destruct (acl_setuser_commands (str "pw") office (str "reader") (str <$> ["+@all"; "-get"; "bogus"; "+get"]%string))
    as (d & r & E & _ & H & _).
  - reflexivity.
  - vm_compute. reflexivity.
  - discriminate.
  - exists d, r. split; [exact E|exact H].
Defined.
