(* ===== verification/ListType.v ===== *)
(** * The list type ([RedisList] in [src/list_type.rs])

    A double-ended queue of byte strings.  The index arithmetic on [isize] is
    kept as in the code; the loops of [lrem], [ltrim] and [lpos] are loops, and
    the theorems equate them with reference definitions on plain lists. *)

From S2P Require Import Prelude RustStd.
From Stdlib Require Import Lia.
Local Open Scope Z_scope.

(** ** The code *)

Record RedisList : Type := mkRedisList { items : list Bytes }.

Definition new : RedisList := mkRedisList [].

Definition push_front (l : list Bytes) (v : Bytes) : list Bytes := v :: l.
Definition push_back (l : list Bytes) (v : Bytes) : list Bytes := l ++ [v].

Definition pop_front (l : list Bytes) : list Bytes * option Bytes :=
  match l with
  | [] => ([], None)
  | v :: l' => (l', Some v)
  end.

Definition pop_back (l : list Bytes) : list Bytes * option Bytes :=
  match last l with
  | None => (l, None)
  | Some v => (take (length l - 1) l, Some v)
  end.

Definition lpush (self : RedisList) (values : list Bytes) : RedisList * nat :=
  let l := foldl push_front (items self) values in (mkRedisList l, length l).

Definition rpush (self : RedisList) (values : list Bytes) : RedisList * nat :=
  let l := foldl push_back (items self) values in (mkRedisList l, length l).

Definition lpop (self : RedisList) : RedisList * option Bytes :=
  let '(l, v) := pop_front (items self) in (mkRedisList l, v).

Definition rpop (self : RedisList) : RedisList * option Bytes :=
  let '(l, v) := pop_back (items self) in (mkRedisList l, v).

(** [for _ in 0..n { if let Some(v) = pop() { out.push(v) } }] *)
Fixpoint pop_loop (pop : list Bytes → list Bytes * option Bytes) (n : nat)
    (l out : list Bytes) : list Bytes * list Bytes :=
  match n with
  | O => (l, out)
  | S n =>
    match pop l with
    | (l', Some v) => pop_loop pop n l' (out ++ [v])
    | (l', None) => pop_loop pop n l' out
    end
  end.

Definition lpop_count (self : RedisList) (count : nat) : RedisList * list Bytes :=
  let n := (count `min` length (items self))%nat in
  let '(l, out) := pop_loop pop_front n (items self) [] in (mkRedisList l, out).

Definition rpop_count (self : RedisList) (count : nat) : RedisList * list Bytes :=
  let n := (count `min` length (items self))%nat in
  let '(l, out) := pop_loop pop_back n (items self) [] in (mkRedisList l, out).

Definition lrange (self : RedisList) (start stop : Z) : list Bytes :=
  let len := zlen (items self) in
  if len =? 0 then [] else
  let start_idx := clamp_index len start in
  let stop_idx := clamp_index len stop in
  if (stop_idx <? start_idx) || (len <=? start_idx) then [] else
  let stop_idx := stop_idx `min` (len - 1) in
  take (Z.to_nat (stop_idx - start_idx + 1)) (drop (Z.to_nat start_idx) (items self)).

Definition llen (self : RedisList) : nat := length (items self).

Definition lindex (self : RedisList) (index : Z) : option Bytes :=
  let len := zlen (items self) in
  if len =? 0 then None else
  let idx := if index <? 0 then len + index else index in
  if (idx <? 0) || (len <=? idx) then None else
  items self !! Z.to_nat idx.

Definition index_error : Str := str "index out of range".

Definition lset (self : RedisList) (index : Z) (value : Bytes) : RedisList * result Str unit :=
  let len := zlen (items self) in
  if len =? 0 then (self, Err index_error) else
  let idx := if index <? 0 then len + index else index in
  if (idx <? 0) || (len <=? idx) then (self, Err index_error) else
  (mkRedisList (<[Z.to_nat idx := value]> (items self)), Ok tt).

(** [while i < items.len() && to_remove > 0], with [length items - i] turns at most. *)
Fixpoint lrem_fwd (fuel : nat) (element : Bytes) (l : list Bytes) (i : nat)
    (to_remove : Z) (removed : nat) : list Bytes * nat :=
  match fuel with
  | O => (l, removed)
  | S fuel =>
    if (Z.of_nat i <? zlen l) && (0 <? to_remove) then
      if decide (l !! i = Some element) then
        lrem_fwd fuel element (delete i l) i (to_remove - 1) (removed + 1)
      else lrem_fwd fuel element l (i + 1) to_remove removed
    else (l, removed)
  end.

(** [while i > 0 && to_remove > 0 { i -= 1; ... }] *)
Fixpoint lrem_bwd (i : nat) (element : Bytes) (l : list Bytes)
    (to_remove : Z) (removed : nat) : list Bytes * nat :=
  match i with
  | O => (l, removed)
  | S i =>
    if 0 <? to_remove then
      if decide (l !! i = Some element) then
        lrem_bwd i element (delete i l) (to_remove - 1) (removed + 1)
      else lrem_bwd i element l to_remove removed
    else (l, removed)
  end.

(** [(-count) as usize] wraps at [i64::MIN] (the release profile has no
    overflow checks). *)
Definition neg_as_usize (count : Z) : Z := wrap_u64 (wrap_i64 (- count)).

Definition lrem (self : RedisList) (count : Z) (element : Bytes) : RedisList * nat :=
  let l := items self in
  if decide (l = []) then (self, 0%nat) else
  if count =? 0 then
    let l' := filter (λ v, v ≠ element) l in (mkRedisList l', (length l - length l')%nat)
  else if 0 <? count then
    let '(l', removed) := lrem_fwd (length l) element l 0 count 0 in (mkRedisList l', removed)
  else
    let '(l', removed) := lrem_bwd (length l) element l (neg_as_usize count) 0 in
    (mkRedisList l', removed).

Definition ltrim (self : RedisList) (start stop : Z) : RedisList :=
  let l := items self in
  let len := zlen l in
  if len =? 0 then self else
  let start_idx := clamp_index len start in
  let stop_idx := clamp_index len stop in
  if (stop_idx <? start_idx) || (len <=? start_idx) then mkRedisList [] else
  let stop_idx := stop_idx `min` (len - 1) in
  let l := if stop_idx + 1 <? zlen l then take (Z.to_nat (stop_idx + 1)) l else l in
  mkRedisList (Nat.iter (Z.to_nat start_idx) (λ l, (pop_front l).1) l).

(** [iter().position(|v| v == x)] *)
Fixpoint position (x : Bytes) (l : list Bytes) : option nat :=
  match l with
  | [] => None
  | v :: l' => if decide (v = x) then Some 0%nat else S <$> position x l'
  end.

(** [VecDeque::insert] at [at <= len]. *)
Definition insert_at (k : nat) (v : Bytes) (l : list Bytes) : list Bytes :=
  take k l ++ v :: drop k l.

Definition linsert (self : RedisList) (before : bool) (pivot element : Bytes)
    : RedisList * option nat :=
  match position pivot (items self) with
  | None => (self, None)
  | Some idx =>
    let at_ := if before then idx else (idx + 1)%nat in
    let l := insert_at at_ element (items self) in
    (mkRedisList l, Some (length l))
  end.

(** The [while] loop of [lpos], with [length items] turns at most. *)
Fixpoint lpos_loop (fuel : nat) (l : list Bytes) (element : Bytes) (rev : bool) (maxlen : Z)
    (unlimited : bool) (i rank_left remaining compared : Z) (out : list nat) : list nat :=
  match fuel with
  | O => out
  | S fuel =>
    if (0 <=? i) && (i <? zlen l) then
      if (0 <? maxlen) && (maxlen <=? compared) then out else
      let compared := compared + 1 in
      let next := if rev then i - 1 else i + 1 in
      if decide (l !! Z.to_nat i = Some element) then
        if 1 <? rank_left then
          lpos_loop fuel l element rev maxlen unlimited next (rank_left - 1) remaining compared out
        else
          let out := out ++ [Z.to_nat i] in
          if unlimited then
            lpos_loop fuel l element rev maxlen unlimited next 1 remaining compared out
          else if remaining - 1 =? 0 then out
          else lpos_loop fuel l element rev maxlen unlimited next 1 (remaining - 1) compared out
      else lpos_loop fuel l element rev maxlen unlimited next rank_left remaining compared out
    else out
  end.

Definition lpos (self : RedisList) (element : Bytes) (rank count maxlen : Z) : list nat :=
  let l := items self in
  if (rank =? 0) || bool_decide (l = []) then [] else
  let rev := rank <? 0 in
  lpos_loop (length l) l element rev maxlen (count =? 0)
    (if rev then zlen l - 1 else 0) (Z.abs rank) count 0 [].

Definition is_empty (self : RedisList) : bool := bool_decide (items self = []).

Definition len (self : RedisList) : nat := length (items self).

Definition iter_items (self : RedisList) : list Bytes := items self.

(** ** Both ends of the queue *)

Lemma foldl_push_front values l : foldl push_front l values = reverse values ++ l.
Proof.
  revert l. induction values as [|v values IH]; intros l; [done|].
  simpl. rewrite IH, reverse_cons, <- app_assoc. done.
Qed.

Lemma foldl_push_back values l : foldl push_back l values = l ++ values.
Proof.
  revert l. induction values as [|v values IH]; intros l; simpl; [by rewrite app_nil_r|].
  rewrite IH. unfold push_back. by rewrite <- app_assoc.
Qed.

Lemma pop_back_snoc l v : pop_back (l ++ [v]) = (l, Some v).
Proof.
  unfold pop_back. rewrite last_snoc, length_app. simpl.
  replace (length l + 1 - 1)%nat with (length l) by lia. by rewrite take_app_length.
Qed.

Lemma pop_loop_front n l out :
  (n ≤ length l)%nat → pop_loop pop_front n l out = (drop n l, out ++ take n l).
Proof.
  revert l out. induction n as [|n IH]; intros l out Hn; simpl; [by rewrite app_nil_r|].
  destruct l as [|v l]; simpl in *; [lia|]. rewrite IH by lia. by rewrite <- app_assoc.
Qed.

Lemma pop_loop_back n l out :
  (n ≤ length l)%nat →
  pop_loop pop_back n l out = (take (length l - n) l, out ++ take n (reverse l)).
Proof.
  revert l out. induction n as [|n IH]; intros l out Hn; simpl.
  { rewrite app_nil_r, Nat.sub_0_r. by rewrite firstn_all. }
  induction l as [|v l _] using rev_ind; simpl in *; [lia|].
  rewrite length_app in Hn. simpl in Hn. rewrite pop_back_snoc, IH by lia.
  rewrite reverse_snoc, length_app. simpl. rewrite <- app_assoc. f_equal.
  replace (length l + 1 - S n)%nat with (length l - n)%nat by lia.
  by rewrite take_app_le by lia.
Qed.

(** ** Ranges *)

Lemma lrange_slice_clamped self start stop :
  lrange self start stop =
  slice (items self) (redis_index (zlen (items self)) start)
    (clamp_index (zlen (items self)) stop).
Proof. apply range_slice. Qed.

Lemma iter_pop_front n l : Nat.iter n (λ l, (pop_front l).1) l = drop n l.
Proof.
  induction n as [|n IH]; [done|]. simpl. rewrite IH.
  replace (S n) with (n + 1)%nat by lia. rewrite <- drop_drop.
  by destruct (drop n l).
Qed.

(** [ltrim] keeps exactly what [lrange] returns. *)
Lemma ltrim_lrange self start stop : items (ltrim self start stop) = lrange self start stop.
Proof.
  unfold ltrim, lrange. set (l := items self).
  destruct (Z.eqb_spec (zlen l) 0) as [H0|H0].
  { destruct l eqn:E; [by subst l|simpl in H0; lia]. }
  assert (Hs : 0 ≤ clamp_index (zlen l) start)
    by (unfold clamp_index; destruct (Z.ltb_spec start 0); lia).
  set (s := clamp_index (zlen l) start) in *. set (e := clamp_index (zlen l) stop).
  destruct ((e <? s) || (zlen l <=? s)) eqn:Hc; [done|]. cbn [items].
  apply orb_false_elim in Hc as [Hc1 Hc2].
  rewrite iter_pop_front. set (e' := e `min` (zlen l - 1)).
  assert (0 ≤ e') by lia.
  destruct (Z.ltb_spec (e' + 1) (zlen l)).
  - rewrite skipn_firstn_comm. f_equal; lia.
  - rewrite take_ge; [done|]. rewrite length_drop. lia.
Qed.

(** ** Removal by value *)

(** Delete the first [n] occurrences of [x]. *)
Fixpoint remove_first (n : Z) (x : Bytes) (l : list Bytes) : list Bytes :=
  match l with
  | [] => []
  | v :: l' =>
    if (0 <? n) && bool_decide (v = x) then remove_first (n - 1) x l'
    else v :: remove_first n x l'
  end.

Lemma remove_first_0 n x l : n ≤ 0 → remove_first n x l = l.
Proof.
  intros. induction l as [|v l IH]; simpl; [done|].
  destruct (Z.ltb_spec 0 n); [lia|]. simpl. by rewrite IH.
Qed.

Lemma remove_first_length n x l : (length (remove_first n x l) ≤ length l)%nat.
Proof.
  revert n. induction l as [|v l IH]; intros n; simpl; [done|].
  case_match; simpl; [specialize (IH (n - 1))|specialize (IH n)]; lia.
Qed.

Lemma delete_at_length (pre : list Bytes) v post : delete (length pre) (pre ++ v :: post) = pre ++ post.
Proof. by rewrite delete_middle. Qed.

Lemma lrem_fwd_spec fuel x pre post n r :
  (length post ≤ fuel)%nat →
  lrem_fwd fuel x (pre ++ post) (length pre) n r =
  (pre ++ remove_first n x post, (r + (length post - length (remove_first n x post)))%nat).
Proof.
  revert pre post n r. induction fuel as [|fuel IH]; intros pre post n r Hf; simpl.
  { destruct post; simpl in *; [|lia]. by rewrite Nat.add_0_r. }
  destruct post as [|v post]; simpl in *.
  { rewrite app_nil_r, Z.ltb_irrefl, Nat.add_0_r. done. }
  destruct (Z.ltb_spec (Z.of_nat (length pre)) (zlen (pre ++ v :: post))) as [_|Hlt];
    [|rewrite length_app in Hlt; simpl in Hlt; lia].
  rewrite list_lookup_middle by done. simpl.
  destruct (Z.ltb_spec 0 n); simpl.
  2:{ rewrite remove_first_0 by lia. by rewrite Nat.sub_diag, Nat.add_0_r. }
  pose proof (remove_first_length (n - 1) x post). pose proof (remove_first_length n x post).
  case_decide as Hd; simplify_eq.
  - rewrite bool_decide_true by done. rewrite delete_at_length, IH by lia. f_equal. lia.
  - rewrite bool_decide_false by congruence.
    specialize (IH (pre ++ [v]) post n r). rewrite length_app, <- !app_assoc in IH.
    simpl in IH. rewrite IH by lia. done.
Qed.

Lemma lrem_bwd_spec x pre post n r :
  lrem_bwd (length pre) x (pre ++ post) n r =
  (reverse (remove_first n x (reverse pre)) ++ post,
   (r + (length pre - length (remove_first n x (reverse pre))))%nat).
Proof.
  revert post n r. induction pre as [|v pre IH] using rev_ind; intros post n r; [by rewrite Nat.add_0_r|].
  rewrite length_app, Nat.add_1_r, reverse_snoc. cbn [lrem_bwd remove_first].
  destruct (Z.ltb_spec 0 n); simpl.
  2:{ rewrite (remove_first_0 n) by lia. rewrite reverse_cons, reverse_involutive.
      rewrite length_reverse, Nat.sub_diag, Nat.add_0_r. done. }
  rewrite <- app_assoc. simpl. rewrite list_lookup_middle by done.
  pose proof (remove_first_length (n - 1) x (reverse pre)) as Hl. rewrite length_reverse in Hl.
  case_decide as Hd; simplify_eq.
  - rewrite bool_decide_true by done. rewrite delete_at_length, IH. f_equal. lia.
  - rewrite bool_decide_false by congruence. rewrite IH, reverse_cons, <- app_assoc. done.
Qed.

Lemma remove_first_all n x l :
  Z.of_nat (length l) ≤ n → remove_first n x l = filter (λ v, v ≠ x) l.
Proof.
  revert n. induction l as [|v l IH]; intros n Hn; [done|]. simpl in Hn.
  rewrite filter_cons. simpl. destruct (Z.ltb_spec 0 n); [|lia]. simpl.
  case_bool_decide; case_decide; try done; rewrite IH by lia; done.
Qed.

(** What [LREM] keeps: the first [count] occurrences go for a positive count,
    the last ones for a negative count, all of them for 0. *)
Definition lrem_keeps (count : Z) (x : Bytes) (l : list Bytes) : list Bytes :=
  if count =? 0 then filter (λ v, v ≠ x) l
  else if 0 <? count then remove_first count x l
  else reverse (remove_first (- count) x (reverse l)).

Lemma neg_as_usize_spec count : i64_min ≤ count < 0 → neg_as_usize count = - count.
Proof.
  intros H. unfold neg_as_usize.
  destruct (Z.eq_dec count i64_min) as [->|Hne]; [done|].
  rewrite wrap_i64_id by (unfold i64_min, i64_max in *; lia).
  unfold wrap_u64. apply Z.mod_small. unfold i64_min, u64_max in *. lia.
Qed.

Lemma lrem_spec self count x :
  in_i64 count →
  lrem self count x =
  (mkRedisList (lrem_keeps count x (items self)),
   (length (items self) - length (lrem_keeps count x (items self)))%nat).
Proof.
  intros Hc. unfold lrem, lrem_keeps. destruct self as [l]. cbn [items].
  case_decide as Hn; [subst l; cbn [reverse]; by repeat case_match|].
  destruct (Z.eqb_spec count 0); [done|].
  destruct (Z.ltb_spec 0 count).
  - pose proof (lrem_fwd_spec (length l) x [] l count 0 (le_n _)) as Hf.
    cbn [app length] in Hf. by rewrite Hf.
  - rewrite neg_as_usize_spec by lia.
    pose proof (lrem_bwd_spec x l [] (- count) 0) as Hb. rewrite app_nil_r in Hb. rewrite Hb.
    rewrite app_nil_r, length_reverse. done.
Qed.

(** ** Positions *)

Section lpos_spec.
Context (l : list Bytes) (element : Bytes).

(** The elements with their positions, in the direction of the scan. *)
Definition scan (rev : bool) : list (nat * Bytes) :=
  let p := imap pair l in if rev then reverse p else p.

(** What is left of the scan at position [i]. *)
Definition scan_from (rev : bool) (i : Z) : list (nat * Bytes) :=
  if rev then reverse (take (Z.to_nat (i + 1)) (imap pair l))
  else drop (Z.to_nat i) (imap pair l).

Definition hits (p : list (nat * Bytes)) : list nat := (filter (λ q, q.2 = element) p).*1.

(** [0] stands for no limit. *)
Definition limit {A} (n : Z) (p : list A) : list A := if n =? 0 then p else take (Z.to_nat n) p.

Definition step (rev : bool) (i : Z) : Z := if rev then i - 1 else i + 1.

Lemma scan_from_step rev i v :
  0 ≤ i → l !! Z.to_nat i = Some v →
  scan_from rev i = (Z.to_nat i, v) :: scan_from rev (step rev i).
Proof.
  intros Hi Hv. assert (imap pair l !! Z.to_nat i = Some (Z.to_nat i, v)) as Hp
    by (rewrite list_lookup_imap, Hv; done).
  unfold scan_from, step. destruct rev.
  - replace (Z.to_nat (i + 1)) with (S (Z.to_nat i)) by lia.
    rewrite (take_S_r _ _ _ Hp), reverse_snoc. do 2 f_equal. f_equal. lia.
  - rewrite (drop_S _ _ _ Hp). do 2 f_equal. lia.
Qed.

(** Where the loop variable can be. *)
Definition valid_pos (rev : bool) (i : Z) : Prop := if rev then -1 ≤ i < zlen l else 0 ≤ i.

Lemma scan_from_end rev i : valid_pos rev i → ¬ (0 ≤ i < zlen l) → scan_from rev i = [].
Proof.
  unfold valid_pos, scan_from. intros Hv Hi. destruct rev.
  - by replace (Z.to_nat (i + 1)) with 0%nat by lia.
  - apply drop_ge. rewrite length_imap. lia.
Qed.

Lemma valid_pos_step rev i : valid_pos rev i → 0 ≤ i → valid_pos rev (step rev i).
Proof. unfold valid_pos, step. destruct rev; lia. Qed.

(** Number of turns left. *)
Definition turns (rev : bool) (i : Z) : Z := if rev then i + 1 else zlen l - i.

(** What the loop still has to compare under [maxlen]. *)
Definition budget {A} (maxlen compared : Z) (p : list A) : list A :=
  if maxlen =? 0 then p else take (Z.to_nat (maxlen - compared)) p.

Lemma budget_cons {A} maxlen compared (q : A) p :
  0 ≤ maxlen → ¬ (0 < maxlen ≤ compared) →
  budget maxlen compared (q :: p) = q :: budget maxlen (compared + 1) p.
Proof.
  intros Hm Hc. unfold budget. destruct (Z.eqb_spec maxlen 0); [done|].
  replace (Z.to_nat (maxlen - compared)) with (S (Z.to_nat (maxlen - (compared + 1)))) by lia.
  done.
Qed.

Lemma hits_cons i v p : hits ((i, v) :: p) = (if decide (v = element) then [i] else []) ++ hits p.
Proof. unfold hits. rewrite filter_cons. simpl. by case_decide. Qed.

(** The hits the loop collects: after [rank_left - 1] of them, the next
    [remaining] ones (all, if unlimited). *)
Definition collect (unlimited : bool) (rank_left remaining : Z) (h : list nat) : list nat :=
  let h := drop (Z.to_nat (rank_left - 1)) h in
  if unlimited then h else take (Z.to_nat remaining) h.

Lemma lpos_loop_spec fuel rev maxlen unlimited i rank_left remaining compared out :
  valid_pos rev i → turns rev i ≤ Z.of_nat fuel → 0 ≤ maxlen → 0 ≤ compared → 1 ≤ rank_left →
  (unlimited = false → 1 ≤ remaining) →
  lpos_loop fuel l element rev maxlen unlimited i rank_left remaining compared out =
  out ++ collect unlimited rank_left remaining
           (hits (budget maxlen compared (scan_from rev i))).
Proof.
  assert (Hnil : ∀ u r m, collect u r m [] = [])
    by (intros; unfold collect; rewrite drop_nil, take_nil; by case_match).
  assert (Hb0 : ∀ m c, budget m c (@nil (nat * Bytes)) = [])
    by (intros; unfold budget; rewrite take_nil; by case_match).
  revert i rank_left remaining compared out.
  induction fuel as [|fuel IH]; intros i rank_left remaining compared out Hv Ht Hm Hcp Hr Hrem.
  { rewrite scan_from_end by (unfold valid_pos, turns in *; destruct rev; lia).
    rewrite Hb0. cbn [hits filter fmap]. by rewrite Hnil, app_nil_r. }
  cbn [lpos_loop]. destruct ((0 <=? i) && (i <? zlen l)) eqn:Hin.
  2:{ rewrite scan_from_end, Hb0 by (done || lia). cbn [hits]. by rewrite Hnil, app_nil_r. }
  assert (0 ≤ i < zlen l) as Hi by lia.
  destruct (lookup_lt_is_Some_2 l (Z.to_nat i)) as [v Hl]; [lia|].
  rewrite Hl. rewrite (scan_from_step _ _ _ (proj1 Hi) Hl).
  destruct ((0 <? maxlen) && (maxlen <=? compared)) eqn:Hmax.
  { unfold budget. destruct (Z.eqb_spec maxlen 0); [lia|].
    replace (Z.to_nat (maxlen - compared)) with 0%nat by lia.
    by rewrite take_0, Hnil, app_nil_r. }
  rewrite budget_cons, hits_cons by lia. fold (step rev i).
  assert (Ht' : turns rev (step rev i) ≤ Z.of_nat fuel)
    by (unfold turns, step in *; destruct rev; lia).
  pose proof (valid_pos_step _ _ Hv (proj1 Hi)) as Hv'.
  case_decide as Hd; simplify_eq.
  2:{ rewrite decide_False by congruence. rewrite IH by (done || lia). done. }
  rewrite decide_True by done. cbn [app].
  destruct (Z.ltb_spec 1 rank_left).
  { rewrite IH by (done || lia). unfold collect.
    replace (Z.to_nat (rank_left - 1)) with (S (Z.to_nat (rank_left - 1 - 1))) by lia. done. }
  assert (rank_left = 1) as -> by lia. destruct unlimited.
  { rewrite IH by (done || lia). unfold collect. cbn [Z.sub Z.to_nat]. by rewrite <- app_assoc. }
  specialize (Hrem eq_refl). destruct (Z.eqb_spec (remaining - 1) 0).
  { replace remaining with 1 by lia. unfold collect. simpl. by rewrite take_0. }
  rewrite IH by (done || lia). rewrite <- app_assoc. f_equal. unfold collect. simpl.
  replace (Z.to_nat remaining) with (S (Z.to_nat (remaining - 1))) by lia. done.
Qed.
End lpos_spec.

Lemma scan_from_start l rev :
  scan_from l rev (if rev then zlen l - 1 else 0) = scan l rev.
Proof.
  unfold scan_from, scan. destruct rev; [|done].
  rewrite take_ge; [done|]. rewrite length_imap. lia.
Qed.

(** ** Properties *)

(** Pushing and popping work at the right ends and in the right order:
    what [LPUSH] (or [RPUSH]) adds comes back in reverse from the same end and
    in order from the other end, the list behind it is untouched, the pushes
    answer the new length, and a pop returns nothing exactly on the empty list. *)
Theorem deque_push_pop self values :
  let n := length values in
  lpop_count (lpush self values).1 n = (self, reverse values) ∧
  rpop_count (rpush self values).1 n = (self, reverse values) ∧
  lpop_count (rpush new values).1 n = (new, values) ∧
  rpop_count (lpush new values).1 n = (new, values) ∧
  (lpush self values).2 = (llen self + n)%nat ∧
  (rpush self values).2 = (llen self + n)%nat ∧
  ((lpop self).2 = None ↔ is_empty self = true) ∧
  ((rpop self).2 = None ↔ is_empty self = true).
Proof.
  intros n. destruct self as [l].
  unfold lpop_count, rpop_count, lpush, rpush, llen, lpop, rpop, is_empty, new. cbn [items fst snd].
  rewrite !foldl_push_front, !foldl_push_back, !length_app, !length_reverse. cbn [app].
  rewrite !(Nat.min_l n) by (subst n; simpl; lia).
  rewrite !bool_decide_eq_true.
  split_and!.
  - rewrite pop_loop_front by (rewrite length_app, length_reverse; lia).
    rewrite <- (length_reverse values : _ = n), drop_app_length, take_app_length. done.
  - rewrite pop_loop_back by (rewrite length_app; lia). rewrite length_app, reverse_app.
    replace (length l + length values - n)%nat with (length l) by lia.
    rewrite <- (length_reverse values : _ = n), !take_app_length. done.
  - rewrite pop_loop_front by done. subst n. by rewrite drop_all, firstn_all.
  - rewrite pop_loop_back by (rewrite app_nil_r, length_reverse; lia).
    subst n. by rewrite !app_nil_r, length_reverse, reverse_involutive, Nat.sub_diag, firstn_all.
  - lia.
  - done.
  - by destruct l.
  - destruct l as [|v l] using rev_ind; [done|]. rewrite pop_back_snoc. split; [done|].
    intros H. by destruct l.
Qed.

(** [LRANGE] returns, and [LTRIM] keeps, exactly the elements between the
    two positions the indices denote (negative ones counted from the end),
    whenever the stop index is not below minus the length. *)
Theorem range_correct self start stop
    (Hstop : - zlen (items self) ≤ stop) :
  let a := redis_index (zlen (items self)) start in
  let b := redis_index (zlen (items self)) stop in
  lrange self start stop = slice (items self) a b ∧
  items (ltrim self start stop) = slice (items self) a b ∧
  ∀ k, slice (items self) a b !! k =
    (if decide (a `max` 0 + Z.of_nat k ≤ b) then items self !! (Z.to_nat (a `max` 0) + k)%nat
     else None).
Proof.
  intros a b. rewrite ltrim_lrange, lrange_slice_clamped.
  replace (clamp_index (zlen (items self)) stop) with b; [|].
  - split_and!; [done..|]. intros k. apply slice_lookup.
  - subst b. unfold redis_index, clamp_index. destruct (Z.ltb_spec stop 0); lia.
Qed.

(** A stop index below minus the length denotes a position before the head,
    so the range is empty, but the code clamps it to the head: with a start
    that reaches the head, [LRANGE] returns the first element and [LTRIM] keeps
    it (the comment says that such ranges empty the list). *)
Theorem range_stop_clamped v rest start stop
    (Hstop : stop < - zlen (v :: rest))
    (Hstart : redis_index (zlen (v :: rest)) start ≤ 0) :
  slice (v :: rest) (redis_index (zlen (v :: rest)) start) (redis_index (zlen (v :: rest)) stop) = [] ∧
  lrange (mkRedisList (v :: rest)) start stop = [v] ∧
  ltrim (mkRedisList (v :: rest)) start stop = mkRedisList [v].
Proof.
  assert (Hr : lrange (mkRedisList (v :: rest)) start stop = [v]).
  { rewrite lrange_slice_clamped. unfold slice, clamp_index. cbn [items].
    destruct (Z.ltb_spec stop 0); [|lia]. rewrite (Z.max_r _ 0) by lia.
    rewrite (Z.max_r _ 0) by lia. rewrite (Z2Nat.nonpos _ Hstart). simpl. by rewrite take_0. }
  split_and!; [|done|].
  - unfold slice. assert (redis_index (zlen (v :: rest)) stop < 0).
    { unfold redis_index. destruct (Z.ltb_spec stop 0); lia. }
    by replace (Z.to_nat _) with 0%nat by lia.
  - pose proof (ltrim_lrange (mkRedisList (v :: rest)) start stop) as Ht. rewrite Hr in Ht.
    destruct (ltrim _ _ _); simpl in Ht. by subst.
Qed.

(** [LREM] deletes the first [count] occurrences for a positive count, the
    last [-count] for a negative one (down to [i64::MIN], where the negation
    wraps), all of them for 0; nothing else is touched and it answers how many
    elements went. *)
Theorem lrem_correct self count x (Hc : in_i64 count) :
  lrem self count x =
    (mkRedisList (lrem_keeps count x (items self)),
     (length (items self) - length (lrem_keeps count x (items self)))%nat) ∧
  filter (λ v, v ≠ x) (lrem_keeps count x (items self)) = filter (λ v, v ≠ x) (items self).
Proof.
  split; [by apply lrem_spec|].
  assert (Hf : ∀ n l, filter (λ v, v ≠ x) (remove_first n x l) = filter (λ v, v ≠ x) l).
  { intros n l. revert n. induction l as [|v l IH]; intros n; [done|]. simpl.
    destruct (0 <? n); simpl; [case_bool_decide|]; rewrite !filter_cons, ?IH; [|done..].
    by rewrite decide_False by naive_solver. }
  assert (Hr : ∀ l : list Bytes, filter (λ v, v ≠ x) (reverse l) = reverse (filter (λ v, v ≠ x) l)).
  { induction l as [|v l IH]; [done|]. rewrite reverse_cons, filter_app, IH, !filter_cons.
    case_decide; [by rewrite reverse_cons|by rewrite app_nil_r]. }
  unfold lrem_keeps. destruct (count =? 0); [|destruct (0 <? count)].
  - rewrite list_filter_filter. apply list_filter_iff. naive_solver.
  - apply Hf.
  - by rewrite Hr, Hf, <- Hr, reverse_involutive.
Qed.

(** [LPOS] returns the positions of the element in the direction of the
    scan, among the first [maxlen] elements compared (all if 0), from the
    [|rank|]-th match on, at most [count] of them (all if 0). *)
Theorem lpos_correct self element rank count maxlen
    (Hrank : rank ≠ 0) (Hcount : 0 ≤ count) (Hmaxlen : 0 ≤ maxlen) :
  lpos self element rank count maxlen =
  limit count (drop (Z.to_nat (Z.abs rank - 1))
    (hits element (limit maxlen (scan (items self) (rank <? 0))))).
Proof.
  destruct self as [l]. unfold lpos. cbn [items].
  destruct (Z.eqb_spec rank 0); [done|]. simpl.
  case_bool_decide as Hl.
  { subst l. unfold limit, scan. cbn [imap]. rewrite reverse_nil.
    assert (hits element [] = []) as Hh by reflexivity.
    repeat case_match; by rewrite ?take_nil, Hh, ?drop_nil, ?take_nil. }
  rewrite lpos_loop_spec; [| | |done|lia|lia|].
  - rewrite scan_from_start. simpl. unfold collect, limit, budget. rewrite Z.sub_0_r. done.
  - unfold valid_pos. destruct (rank <? 0); [|lia]. destruct l; [done|]. simpl. lia.
  - unfold turns. destruct (rank <? 0); lia.
  - intros. destruct (Z.eqb_spec count 0); [done|lia].
Qed.

Lemma lpos_correct_witness :
  lpos (mkRedisList [bs "a"; bs "b"; bs "a"; bs "a"]) (bs "a") (-2) 0 0 = [2%nat; 0%nat].
Proof.
  rewrite (lpos_correct (mkRedisList [bs "a"; bs "b"; bs "a"; bs "a"]) (bs "a") (-2) 0 0);
    [reflexivity|lia..].
Defined.

Lemma position_spec x l :
  match position x l with
  | Some i => l !! i = Some x ∧ x ∉ take i l
  | None => x ∉ l
  end.
Proof.
  induction l as [|v l IH]; simpl; [apply not_elem_of_nil|].
  case_decide as Hv; [subst; split; [done|apply not_elem_of_nil]|].
  destruct (position x l) as [i|]; simpl.
  - destruct IH. split; [done|]. rewrite not_elem_of_cons. done.
  - rewrite not_elem_of_cons. done.
Qed.

Lemma lindex_redis self j :
  lindex self j =
  (if decide (0 ≤ redis_index (zlen (items self)) j)
   then items self !! Z.to_nat (redis_index (zlen (items self)) j) else None).
Proof.
  unfold lindex, redis_index. destruct self as [l]. cbn [items].
  set (idx := if j <? 0 then zlen l + j else j).
  assert (Hge : zlen l ≤ idx → l !! Z.to_nat idx = None) by (intros; apply lookup_ge_None; lia).
  destruct (Z.eqb_spec (zlen l) 0) as [H0|H0].
  { destruct l; [|done]. by case_decide. }
  destruct ((idx <? 0) || (zlen l <=? idx)) eqn:E; case_decide; try lia; try done.
  rewrite Hge; [done|]. lia.
Qed.

(** [LSET] succeeds exactly on the indices [LINDEX] finds an element at;
    then that index reads the new value and every other position and the length
    are unchanged; otherwise it fails and the list is untouched. *)
Theorem lset_lindex self i v :
  match lset self i v with
  | (self', Ok _) =>
      is_Some (lindex self i) ∧ lindex self' i = Some v ∧ llen self' = llen self ∧
      ∀ j, redis_index (zlen (items self)) j ≠ redis_index (zlen (items self)) i →
        lindex self' j = lindex self j
  | (self', Err e) => self' = self ∧ lindex self i = None ∧ e = index_error
  end.
Proof.
  destruct self as [l]. unfold lset, llen. cbn [items].
  destruct (Z.eqb_spec (zlen l) 0) as [H0|H0].
  { split_and!; [done| |done]. rewrite lindex_redis. cbn [items]. destruct l; [|done].
    by case_decide. }
  fold (redis_index (zlen l) i). set (idx := redis_index (zlen l) i).
  destruct ((idx <? 0) || (zlen l <=? idx)) eqn:E.
  { split_and!; [done| |done]. rewrite lindex_redis. cbn [items]. fold idx.
    case_decide; [|done]. apply lookup_ge_None. lia. }
  rewrite !lindex_redis. cbn [items]. rewrite !length_insert. fold idx.
  rewrite !decide_True by lia. split_and!; [| |done|].
  - apply lookup_lt_is_Some. lia.
  - apply list_lookup_insert_eq. lia.
  - intros j Hj. rewrite !lindex_redis. cbn [items]. rewrite length_insert.
    case_decide; [|done]. apply list_lookup_insert_ne. lia.
Qed.

(** [LINSERT] puts the element immediately before or after the first
    occurrence of the pivot, keeps everything else in order and answers the new
    length; without the pivot the list is untouched and it answers nothing. *)
Theorem linsert_correct self before pivot element :
  match linsert self before pivot element with
  | (self', Some n) =>
      ∃ l1 l2, items self = l1 ++ pivot :: l2 ∧ (pivot ∉ l1) ∧
        items self' = l1 ++ ((if before then [element; pivot] else [pivot; element]) ++ l2) ∧
        n = llen self' ∧ n = S (llen self)
  | (self', None) => self' = self ∧ pivot ∉ items self
  end.
Proof.
  destruct self as [l]. unfold linsert, llen, insert_at. cbn [items].
  pose proof (position_spec pivot l) as Hp. destruct (position pivot l) as [i|]; [|done].
  destruct Hp as [Hi Hni]. exists (take i l), (drop (S i) l). cbn [items].
  pose proof (take_drop_middle _ _ _ Hi) as Hl. pose proof (lookup_lt_Some _ _ _ Hi).
  split_and!; [done|done| |done|].
  - destruct before; simpl.
    + by rewrite (drop_S _ _ _ Hi).
    + rewrite Nat.add_1_r, (take_S_r _ _ _ Hi), <- app_assoc. done.
  - rewrite length_app, length_take. simpl. rewrite length_drop. destruct before; lia.
Qed.
