(* ===== verification/SetType.v ===== *)
(** * Sets ([src/set_type.rs])

    The iteration order of a hash set and the samplers of the [rand] crate are
    arguments; memory accounting and allocation failure are not modelled. *)

From S2P Require Import Prelude.
From Stdlib Require Import Lia.

Record RedisSet : Type := mkRedisSet { members : gset Bytes }.

Definition set_new : RedisSet := mkRedisSet ∅.

(** [HashSet::insert] and [HashSet::remove]: whether the set changed. *)
Definition set_insert (m : Bytes) (s : RedisSet) : RedisSet * bool :=
  (mkRedisSet ({[m]} ∪ members s), bool_decide (m ∉ members s)).

Definition set_remove (m : Bytes) (s : RedisSet) : RedisSet * bool :=
  (mkRedisSet (members s ∖ {[m]}), bool_decide (m ∈ members s)).

Fixpoint sadd (self : RedisSet) (ms : list Bytes) : RedisSet * nat :=
  match ms with
  | [] => (self, 0)
  | m :: ms =>
    let '(self, b) := set_insert m self in
    let '(self, added) := sadd self ms in
    (self, if b then S added else added)
  end.

Fixpoint srem (self : RedisSet) (ms : list Bytes) : RedisSet * nat :=
  match ms with
  | [] => (self, 0)
  | m :: ms =>
    let '(self, b) := set_remove m self in
    let '(self, removed) := srem self ms in
    (self, if b then S removed else removed)
  end.

Definition sismember (self : RedisSet) (m : Bytes) : bool := bool_decide (m ∈ members self).
Definition scard (self : RedisSet) : nat := size (members self).
Definition set_is_empty (self : RedisSet) : bool := bool_decide (size (members self) = 0).

(** Stable insertion sort of the indices by size ([sort_by_key]). *)
Fixpoint insert_by_len (sets : list RedisSet) (i : nat) (order : list nat) : list nat :=
  let len j := match sets !! j with Some s => scard s | None => 0 end in
  match order with
  | [] => [i]
  | j :: order' => if (len j <=? len i)%nat then j :: insert_by_len sets i order' else i :: order
  end.

Definition order_by_len (sets : list RedisSet) : list nat :=
  foldl (λ order i, insert_by_len sets i order) [] (seq 0 (length sets)).

(** Whether the set at an index has the member. *)
Definition has_at (sets : list RedisSet) (m : Bytes) (i : nat) : bool :=
  match sets !! i with Some s => sismember s m | None => false end.

(** The scan of [sinter_count] over the members of the first set. *)
Fixpoint count_loop (sets : list RedisSet) (rest : list nat) (limit : option nat) (ms : list Bytes)
    (n : nat) : nat :=
  match ms with
  | [] => n
  | m :: ms =>
    if forallb (has_at sets m) rest then
      let n := S n in
      match limit with
      | Some lim => if (lim <=? n)%nat then n else count_loop sets rest limit ms n
      | None => count_loop sets rest limit ms n
      end
    else count_loop sets rest limit ms n
  end.

Section iteration.
Context (hash_iter : gset Bytes → list Bytes).

Definition smembers (self : RedisSet) : list Bytes := hash_iter (members self).

Definition sinter (sets : list RedisSet) : list Bytes :=
  match sets with
  | [] => []
  | first :: rest =>
    filter (λ m, forallb (λ s, sismember s m) rest = true) (hash_iter (members first))
  end.

Definition sinter_count (sets : list RedisSet) (limit : option nat) : nat :=
  match order_by_len sets with
  | [] => 0
  | first :: rest =>
    match sets !! first with
    | Some s => count_loop sets rest limit (hash_iter (members s)) 0
    | None => 0
    end
  end.

Definition sunion (sets : list RedisSet) : list Bytes :=
  hash_iter (foldl (λ out s, foldl (λ out m, {[m]} ∪ out) out (hash_iter (members s))) ∅ sets).

Definition sdiff (sets : list RedisSet) : list Bytes :=
  match sets with
  | [] => []
  | first :: rest =>
    filter (λ m, existsb (λ s, sismember s m) rest = false) (hash_iter (members first))
  end.

(** [choose_multiple] draws distinct positions; [choose i] is the i-th single draw. *)
Context (choose_multiple : list Bytes → nat → list Bytes).
Context (choose : nat → list Bytes → option Bytes).

Definition spop (self : RedisSet) (count : nat) : RedisSet * list Bytes :=
  if (count =? 0)%nat || set_is_empty self then (self, []) else
  let n := count `min` scard self in
  let chosen := choose_multiple (hash_iter (members self)) n in
  (mkRedisSet (foldl (λ ms m, ms ∖ {[m]}) (members self) chosen), chosen).

(** [(-count) as usize] wraps at [i64::MIN], where it is still 2^63. *)
Definition srandmember (self : RedisSet) (count : Z) : exec (list Bytes) :=
  if set_is_empty self || (count =? 0)%Z then Ret [] else
  if (0 <? count)%Z then
    Ret (choose_multiple (hash_iter (members self)) (Z.to_nat count `min` scard self))
  else
    match mapM (λ i, choose i (hash_iter (members self))) (seq 0 (Z.to_nat (- count))) with
    | Some l => Ret l
    | None => Panic
    end.

Definition srandmember_one (self : RedisSet) : option Bytes := choose 0 (hash_iter (members self)).
End iteration.

(** ** Properties *)

Lemma sadd_spec self ms :
  members (sadd self ms).1 = members self ∪ list_to_set ms ∧
  scard (sadd self ms).1 = scard self + (sadd self ms).2.
Proof.
  revert self. induction ms as [|m ms IH]; intros self; simpl; [split; [set_solver|lia]|].
  specialize (IH (mkRedisSet ({[m]} ∪ members self))).
  destruct (sadd _ ms) as [s' n]. simpl in *. destruct IH as [-> ->]. split; [set_solver|].
  unfold scard. simpl. case_bool_decide.
  - rewrite size_union, size_singleton by set_solver. lia.
  - by replace ({[m]} ∪ members self) with (members self) by set_solver.
Qed.

Lemma srem_spec self ms :
  members (srem self ms).1 = members self ∖ list_to_set ms ∧
  scard self = scard (srem self ms).1 + (srem self ms).2.
Proof.
  revert self. induction ms as [|m ms IH]; intros self; simpl; [split; [set_solver|lia]|].
  specialize (IH (mkRedisSet (members self ∖ {[m]}))).
  destruct (srem _ ms) as [s' n]. simpl in *. destruct IH as [-> Hn]. split; [set_solver|].
  unfold scard in *. simpl in *. case_bool_decide as Hm.
  - assert (size (members self) = S (size (members self ∖ {[m]}))); [|lia].
    rewrite size_difference, size_singleton by set_solver.
    assert (size (members self) ≠ 0) by (intros E%size_empty_inv; set_solver). lia.
  - by replace (members self) with (members self ∖ {[m]}) at 1 by set_solver.
Qed.

Lemma insert_by_len_perm sets i order : insert_by_len sets i order ≡ₚ i :: order.
Proof.
  induction order as [|j order IH]; simpl; [done|]. case_match; [|done].
  rewrite IH. apply Permutation_swap.
Qed.

Lemma order_by_len_perm sets : order_by_len sets ≡ₚ seq 0 (length sets).
Proof.
  unfold order_by_len.
  assert (H : ∀ l acc, foldl (λ order i, insert_by_len sets i order) acc l ≡ₚ acc ++ l).
  { intros l. induction l as [|i l IH]; intros acc; simpl; [by rewrite app_nil_r|].
    rewrite IH, insert_by_len_perm. solve_Permutation. }
  rewrite H. done.
Qed.

Lemma count_loop_spec sets rest limit ms n :
  match limit with Some lim => n < lim `max` 1 | None => True end →
  let total := n + length (filter (λ m, forallb (has_at sets m) rest = true) ms) in
  count_loop sets rest limit ms n =
  match limit with Some lim => (lim `max` 1) `min` total | None => total end.
Proof.
  revert n. induction ms as [|m ms IH]; intros n Hn; simpl; [destruct limit; lia|].
  rewrite filter_cons. destruct (forallb _ rest) eqn:E; simpl.
  - destruct limit as [lim|].
    + destruct (Nat.leb_spec lim (S n)); [lia|]. rewrite IH by lia. lia.
    + rewrite IH by done. lia.
  - by rewrite IH.
Qed.

Section properties.
Context (hash_iter : gset Bytes → list Bytes).
Context (hash_iter_perm : ∀ s, hash_iter s ≡ₚ elements s).

Lemma elem_of_iter m s : m ∈ hash_iter s ↔ m ∈ s.
Proof. by rewrite hash_iter_perm, elem_of_elements. Qed.

Lemma iter_NoDup s : NoDup (hash_iter s).
Proof. rewrite hash_iter_perm. apply NoDup_elements. Qed.

Lemma forallb_members m rest :
  forallb (λ s, sismember s m) rest = true ↔ ∀ s, s ∈ rest → m ∈ members s.
Proof.
  rewrite forallb_forall. unfold sismember. setoid_rewrite <- list_elem_of_In.
  by setoid_rewrite bool_decide_eq_true.
Qed.

Lemma elem_of_sinter m sets :
  m ∈ sinter hash_iter sets ↔ sets ≠ [] ∧ ∀ s, s ∈ sets → m ∈ members s.
Proof.
  destruct sets as [|first rest]; simpl; [set_solver|].
  rewrite list_elem_of_filter, elem_of_iter, forallb_members. set_solver.
Qed.

Lemma elem_of_sdiff m first rest :
  m ∈ sdiff hash_iter (first :: rest) ↔ m ∈ members first ∧ ∀ s, s ∈ rest → m ∉ members s.
Proof.
  simpl. rewrite list_elem_of_filter, elem_of_iter.
  rewrite <- not_true_iff_false, existsb_exists. unfold sismember.
  setoid_rewrite <- list_elem_of_In. setoid_rewrite bool_decide_eq_true. naive_solver.
Qed.

Lemma elem_of_fold_add (m : Bytes) (l : list Bytes) (out : gset Bytes) :
  m ∈ foldl (λ out m, {[m]} ∪ out) out l ↔ m ∈ out ∨ m ∈ l.
Proof.
  revert out. induction l as [|x l IH]; intros out; simpl; [set_solver|]. rewrite IH. set_solver.
Qed.

Lemma elem_of_sunion m sets : m ∈ sunion hash_iter sets ↔ ∃ s, s ∈ sets ∧ m ∈ members s.
Proof.
  unfold sunion. rewrite elem_of_iter.
  assert (H : ∀ out : gset Bytes, m ∈ foldl (λ out s, foldl (λ out m, {[m]} ∪ out) out (hash_iter (members s))) out sets
    ↔ m ∈ out ∨ ∃ s, s ∈ sets ∧ m ∈ members s).
  { induction sets as [|s sets IH]; intros out; simpl; [set_solver|].
    rewrite IH, elem_of_fold_add, elem_of_iter. set_solver. }
  rewrite H. set_solver.
Qed.

Lemma sinter_NoDup sets : NoDup (sinter hash_iter sets).
Proof. destruct sets; [constructor|]. apply NoDup_filter, iter_NoDup. Qed.

(** The members the scan of [sinter_count] counts are those of the intersection. *)
Lemma sinter_count_spec sets limit :
  let total := length (sinter hash_iter sets) in
  sinter_count hash_iter sets limit =
  match limit with Some lim => (lim `max` 1) `min` total | None => total end.
Proof.
  intros total. unfold sinter_count. pose proof (order_by_len_perm sets) as Hp.
  destruct (order_by_len sets) as [|first rest] eqn:E.
  - apply Permutation_nil_l, (f_equal length) in Hp. rewrite length_seq in Hp.
    symmetry in Hp. apply nil_length_inv in Hp as ->. unfold total. simpl. destruct limit; lia.
  - assert (Hin : ∀ i, i ∈ first :: rest ↔ i < length sets).
    { intros i. rewrite Hp, elem_of_seq. lia. }
    destruct (lookup_lt_is_Some_2 sets first) as [s Hs]; [apply Hin; left|]. rewrite Hs.
    rewrite count_loop_spec by (destruct limit; lia). simpl.
    assert (length (filter (λ m, forallb (has_at sets m) rest = true) (hash_iter (members s))) = total)
      as ->; [|done].
    apply Permutation_length, NoDup_Permutation; [apply NoDup_filter, iter_NoDup|apply sinter_NoDup|].
    intros m. rewrite elem_of_sinter, list_elem_of_filter, elem_of_iter, forallb_forall.
    setoid_rewrite <- list_elem_of_In. unfold has_at, sismember. split.
    + intros [Hall Hm]. split; [by intros ->|]. intros s' [i Hi]%list_elem_of_lookup.
      assert (i ∈ first :: rest) as Hi' by (apply Hin; by eapply lookup_lt_Some).
      apply elem_of_cons in Hi' as [->|Hi']; [congruence|].
      specialize (Hall _ Hi'). rewrite Hi in Hall. by apply bool_decide_eq_true in Hall.
    + intros [_ Hall]. split; [|by apply Hall; eapply list_elem_of_lookup_2].
      intros i Hi. destruct (lookup_lt_is_Some_2 sets i) as [s' Hs']; [apply Hin; by right|].
      rewrite Hs'. apply bool_decide_eq_true, Hall. by eapply list_elem_of_lookup_2.
Qed.

(** Set algebra, for every iteration order of the hash sets.  [SINTER], [SUNION] and [SDIFF] list
    without repetition exactly the members of the intersection, the union, and the first set minus
    the others; [SINTERCARD], which scans the smallest set and stops early, returns the size of the
    intersection, cut at the limit. *)
Theorem set_algebra first rest limit :
  let sets := first :: rest in
  (NoDup (sinter hash_iter sets) ∧ NoDup (sunion hash_iter sets) ∧ NoDup (sdiff hash_iter sets)) ∧
  (∀ m, (m ∈ sinter hash_iter sets ↔ ∀ s, s ∈ sets → m ∈ members s) ∧
        (m ∈ sunion hash_iter sets ↔ ∃ s, s ∈ sets ∧ m ∈ members s) ∧
        (m ∈ sdiff hash_iter sets ↔ m ∈ members first ∧ ∀ s, s ∈ rest → m ∉ members s)) ∧
  sinter_count hash_iter sets None = length (sinter hash_iter sets) ∧
  (0 < limit → sinter_count hash_iter sets (Some limit) = limit `min` length (sinter hash_iter sets)).
Proof.
  intros sets. split_and!.
  - apply sinter_NoDup.
  - apply iter_NoDup.
  - apply NoDup_filter, iter_NoDup.
  - intros m. unfold sets. rewrite elem_of_sinter, elem_of_sunion, elem_of_sdiff. naive_solver.
  - apply sinter_count_spec.
  - intros Hl. rewrite sinter_count_spec. lia.
Qed.

Context (choose_multiple : list Bytes → nat → list Bytes).
Context (choose_multiple_spec : ∀ l n,
  ∃ rest, l ≡ₚ choose_multiple l n ++ rest ∧ length (choose_multiple l n) = n `min` length l).

Lemma fold_remove (l : list Bytes) (ms : gset Bytes) : foldl (λ ms m, ms ∖ {[m]}) ms l = ms ∖ list_to_set l.
Proof.
  revert ms. induction l as [|x l IH]; intros ms; simpl; [set_solver|]. rewrite IH. set_solver.
Qed.

Lemma spop_spec self count :
  let '(self', out) := spop hash_iter choose_multiple self count in
  NoDup out ∧ length out = count `min` scard self ∧ (∀ m, m ∈ out → m ∈ members self) ∧
  members self' = members self ∖ list_to_set out ∧ scard self = scard self' + length out.
Proof.
  unfold spop, set_is_empty. destruct ((count =? 0) || _) eqn:E.
  { assert (count `min` scard self = 0) as ->.
    { apply orb_true_iff in E as [H%Nat.eqb_eq|H%bool_decide_eq_true]; unfold scard in *; lia. }
    split_and!; [constructor|done|set_solver|set_solver|simpl; lia]. }
  set (n := count `min` scard self).
  destruct (choose_multiple_spec (hash_iter (members self)) n) as (rest & Hp & Hlen).
  rewrite hash_iter_perm in Hlen at 2. change (length (elements (members self))) with (scard self) in Hlen.
  set (out := choose_multiple _ _) in *.
  assert (Hnd : NoDup (out ++ rest)) by (rewrite <- Hp; apply iter_NoDup).
  apply NoDup_app in Hnd as (Hnd & _ & _). rewrite fold_remove.
  assert (Hsub : ∀ m, m ∈ out → m ∈ members self).
  { intros m Hm. apply elem_of_iter. rewrite Hp. set_solver. }
  split_and!; [done|lia|done|done|]. unfold scard at 2. simpl.
  rewrite size_difference, size_list_to_set by set_solver. fold (scard self). lia.
Qed.

(** Set updates: [SADD] and [SREM] compute the union and the difference with their arguments and
    count the members that appeared or went away; [SPOP] returns [count] distinct members, or all of
    them if there are fewer, and leaves exactly the others. *)
Theorem set_updates self ms count :
  (let '(self', n) := sadd self ms in
   members self' = members self ∪ list_to_set ms ∧ scard self' = scard self + n) ∧
  (let '(self', n) := srem self ms in
   members self' = members self ∖ list_to_set ms ∧ scard self = scard self' + n) ∧
  (let '(self', out) := spop hash_iter choose_multiple self count in
   NoDup out ∧ length out = count `min` scard self ∧ (∀ m, m ∈ out → m ∈ members self) ∧
   members self' = members self ∖ list_to_set out ∧ scard self = scard self' + length out).
Proof.
  split_and!.
  - pose proof (sadd_spec self ms). by destruct (sadd self ms).
  - pose proof (srem_spec self ms). by destruct (srem self ms).
  - apply spop_spec.
Qed.
End properties.

(** ** Witnesses *)

(** Taking the first positions is one way to choose. *)
Lemma set_updates_witness :
  let s := mkRedisSet {[ [Byte.x61]; [Byte.x62] ]} in
  length (spop elements (λ l n, take n l) s 1).2 = 1 `min` scard s.
Proof.
  intros s. pose proof (set_updates elements ltac:(done) (λ l n, take n l)
    ltac:(intros l n; exists (drop n l); split; [by rewrite take_drop|apply length_take]) s [] 1) as (_ & _ & H).
  destruct (spop _ _ s 1). apply H.
Defined.
