(* ===== verification/HashType.v ===== *)
(** * Hashes ([src/hash_type.rs])

    A field-value map.  The iteration order, the samplers of the [rand] crate
    and decimal parsing and printing of doubles are arguments. *)

From S2P Require Import Prelude RustStd.
From Stdlib Require Import Lia.
From Stdlib Require Import SpecFloat.
Local Open Scope Z_scope.

Record RedisHash : Type := mkRedisHash { hfields : gmap Bytes Bytes }.

Definition hash_new : RedisHash := mkRedisHash ∅.

Definition hset (self : RedisHash) (field value : Bytes) : RedisHash * bool :=
  (mkRedisHash (<[field := value]> (hfields self)), bool_decide (hfields self !! field = None)).

Definition hget (self : RedisHash) (field : Bytes) : option Bytes := hfields self !! field.

Definition hmget (self : RedisHash) (fs : list Bytes) : list (option Bytes) := hget self <$> fs.

Fixpoint hdel (self : RedisHash) (fs : list Bytes) : RedisHash * nat :=
  match fs with
  | [] => (self, 0%nat)
  | f :: fs =>
    let b := bool_decide (is_Some (hfields self !! f)) in
    let '(self, n) := hdel (mkRedisHash (delete f (hfields self))) fs in
    (self, if b then S n else n)
  end.

Fixpoint hgetdel (self : RedisHash) (fs : list Bytes) : RedisHash * list (option Bytes) :=
  match fs with
  | [] => (self, [])
  | f :: fs =>
    let v := hfields self !! f in
    let '(self, vs) := hgetdel (mkRedisHash (delete f (hfields self))) fs in
    (self, v :: vs)
  end.

Definition hlen (self : RedisHash) : nat := size (hfields self).
Definition hexists (self : RedisHash) (field : Bytes) : bool := bool_decide (is_Some (hfields self !! field)).
Definition hash_is_empty (self : RedisHash) : bool := bool_decide (size (hfields self) = 0%nat).

Definition hstrlen (self : RedisHash) (field : Bytes) : nat :=
  match hfields self !! field with Some v => length v | None => 0 end.

Definition err_not_int : Str := str "hash value is not an integer".
Definition err_overflow : Str := str "increment or decrement would overflow".
Definition err_not_float : Str := str "hash value is not a valid float".
Definition err_nan : Str := str "increment would produce NaN".

Definition hash_int (self : RedisHash) (field : Bytes) : result Str Z :=
  match hfields self !! field with
  | Some v => s ← ok_or (from_utf8 v) err_not_int; ok_or (parse_i64 s) err_not_int
  | None => Ok 0
  end.

Definition hincrby (self : RedisHash) (field : Bytes) (delta : Z) : RedisHash * result Str Z :=
  match hash_int self field with
  | Err e => (self, Err e)
  | Ok current =>
    match checked_add_i64 current delta with
    | None => (self, Err err_overflow)
    | Some new_val => (mkRedisHash (<[field := dec new_val]> (hfields self)), Ok new_val)
    end
  end.

Section iteration.
Context (hash_iter : gmap Bytes Bytes → list (Bytes * Bytes)).

Definition hgetall (self : RedisHash) : list (Bytes * Bytes) := hash_iter (hfields self).
Definition hkeys (self : RedisHash) : list Bytes := (hash_iter (hfields self)).*1.
Definition hvals (self : RedisHash) : list Bytes := (hash_iter (hfields self)).*2.

Context (choose_multiple : list (Bytes * Bytes) → nat → list (Bytes * Bytes)).
Context (choose : nat → list (Bytes * Bytes) → option (Bytes * Bytes)).

Definition hrandfield (self : RedisHash) (count : Z) : exec (list (Bytes * Bytes)) :=
  if hash_is_empty self || (count =? 0) then Ret [] else
  if 0 <? count then
    Ret (choose_multiple (hash_iter (hfields self)) (Z.to_nat count `min` hlen self)%nat)
  else
    match mapM (λ i, choose i (hash_iter (hfields self))) (seq 0 (Z.to_nat (- count))) with
    | Some l => Ret l
    | None => Panic
    end.

Definition hrandfield_one (self : RedisHash) : option (Bytes * Bytes) :=
  choose 0%nat (hash_iter (hfields self)).
End iteration.

Section floats.
(** [str::parse::<f64>] and [Display for f64]. *)
Context (parse_f64 : Str → option spec_float) (fmt_f64 : spec_float → Str).

Definition is_nan (f : spec_float) : bool := match f with S754_nan => true | _ => false end.

(** The value of a double that is an integer below 1e15 in magnitude. *)
Definition small_integer (f : spec_float) : option Z :=
  match f with
  | S754_zero _ => Some 0
  | S754_finite s m e =>
    let v := if e <? 0 then (if Zpos m mod 2 ^ (- e) =? 0 then Some (Zpos m / 2 ^ (- e)) else None)
             else Some (Zpos m * 2 ^ e) in
    match v with
    | Some v => if v <? 10 ^ 15 then Some (if s then - v else v) else None
    | None => None
    end
  | _ => None
  end.

Definition format_hash_float (f : spec_float) : Str :=
  match small_integer f with Some z => to_string z | None => fmt_f64 f end.

Definition hash_float (self : RedisHash) (field : Bytes) : result Str spec_float :=
  match hfields self !! field with
  | Some v => s ← ok_or (from_utf8 v) err_not_float; ok_or (parse_f64 (trim s)) err_not_float
  | None => Ok (S754_zero false)
  end.

Definition hincrbyfloat (self : RedisHash) (field : Bytes) (delta : spec_float)
    : RedisHash * result Str spec_float :=
  match hash_float self field with
  | Err e => (self, Err e)
  | Ok current =>
    if is_nan current then (self, Err err_not_float) else
    let new_val := SFadd 53 1024 current delta in
    if is_nan new_val then (self, Err err_nan)
    else (mkRedisHash (<[field := as_bytes (format_hash_float new_val)]> (hfields self)), Ok new_val)
  end.
End floats.

(** ** Properties *)

Definition sum (l : list Z) : Z := foldr Z.add 0 l.

Lemma hash_int_dec h f z : in_i64 z → hash_int (mkRedisHash (<[f := dec z]> (hfields h))) f = Ok z.
Proof.
  intros Hz. unfold hash_int. simpl. rewrite lookup_insert_eq, dec_utf8. simpl.
  by rewrite parse_to_string_i64.
Qed.

Lemma hincrby_ok h f v d :
  hash_int h f = Ok v → in_i64 (v + d) →
  hincrby h f d = (mkRedisHash (<[f := dec (v + d)]> (hfields h)), Ok (v + d)).
Proof.
  intros Hv Hd. unfold hincrby, checked_add_i64. rewrite Hv. by rewrite (proj2 (in_i64_b_spec _) Hd).
Qed.

Lemma hincrby_run h f v deltas :
  hash_int h f = Ok v → (∀ k, (k ≤ length deltas)%nat → in_i64 (v + sum (take k deltas))) →
  let h' := foldl (λ h d, (hincrby h f d).1) h deltas in
  hash_int h' f = Ok (v + sum deltas) ∧ (∀ g, g ≠ f → hget h' g = hget h g).
Proof.
  revert h v. induction deltas as [|d deltas IH]; intros h v Hv Hin.
  { simpl. split; [by rewrite Z.add_0_r|done]. }
  assert (Hd : in_i64 (v + d)).
  { specialize (Hin 1%nat ltac:(simpl; lia)). simpl in Hin. by rewrite Z.add_0_r in Hin. }
  cbn [foldl]. rewrite (hincrby_ok h f v d Hv Hd). cbn [fst].
  destruct (IH (mkRedisHash (<[f := dec (v + d)]> (hfields h))) (v + d)) as [IH1 IH2].
  - by apply hash_int_dec.
  - intros k Hk. specialize (Hin (S k) ltac:(simpl; lia)). simpl in Hin. by rewrite <- Z.add_assoc.
  - split; [rewrite IH1; simpl; f_equal; lia|]. intros g Hg. rewrite IH2 by done.
    unfold hget. simpl. by rewrite lookup_insert_ne.
Qed.

(** A sequence of [HINCRBY] on a field that holds the integer [v] leaves the decimal form of [v]
    plus the increments and no other field changes, as long as no partial sum overflows; an increment
    that would overflow, or a field whose value is not a decimal i64, is an error and changes
    nothing. *)
Theorem hincrby_accumulates h f v deltas d :
  hash_int h f = Ok v → (∀ k, (k ≤ length deltas)%nat → in_i64 (v + sum (take k deltas))) →
  let h' := foldl (λ h d, (hincrby h f d).1) h deltas in
  let total := v + sum deltas in
  hincrby h' f d = (if in_i64_b (total + d) then (mkRedisHash (<[f := dec (total + d)]> (hfields h')), Ok (total + d))
                    else (h', Err err_overflow)) ∧
  (∀ g, g ≠ f → hget h' g = hget h g) ∧
  (∀ f' e, hash_int h f' = Err e → hincrby h f' d = (h, Err e)).
Proof.
  intros Hv Hin h' total. destruct (hincrby_run h f v deltas Hv Hin) as [H1 H2]. fold h' in H1, H2.
  split_and!; [|done|].
  - unfold hincrby, checked_add_i64. rewrite H1. fold total. by destruct (in_i64_b (total + d)).
  - intros f' e He. unfold hincrby. by rewrite He.
Qed.

(** ** Witnesses *)

Lemma hincrby_accumulates_witness :
  let h := mkRedisHash {[ [Byte.x66] := [Byte.x37] ]} in
  (hincrby (foldl (λ h d, (hincrby h [Byte.x66] d).1) h [5; -2]) [Byte.x66] i64_max).2 = Err err_overflow ∧
  (hincrby (foldl (λ h d, (hincrby h [Byte.x66] d).1) h [5; -2]) [Byte.x66] 90).2 = Ok 100.
Proof.
  assert (Hk : ∀ k, (k ≤ length [5; -2]%Z)%nat → in_i64 (7 + sum (take k [5; -2]))).
  { intros k Hk. simpl in Hk. unfold i64_min, i64_max. destruct k as [|[|[|k]]]; simpl; lia. }
  intros h. split.
  - rewrite (proj1 (hincrby_accumulates h [Byte.x66] 7 [5; -2] i64_max eq_refl Hk)). reflexivity.
  - rewrite (proj1 (hincrby_accumulates h [Byte.x66] 7 [5; -2] 90 eq_refl Hk)). reflexivity.
Defined.
