(* ===== verification/SkipList.v ===== *)
(** * The span skiplist of sorted sets ([SkipList] in [src/sorted_set.rs])

    Nodes live in a vector and link to each other by index, with a free list of
    released slots; [span] counts the nodes a link jumps over.  The key type is
    a parameter with its comparison, so that the theorems need only the laws of
    [Ord].  Indexing that is out of range and a subtraction below zero are
    panics of the model; the theorems show that neither happens. *)

From S2P Require Import Prelude.
From Stdlib Require Import Lia.

(** ** The code *)

Definition SKIPLIST_MAXLEVEL : nat := 32.

Section skiplist.
  Context {K : Type} (cmp : K → K → comparison) (eqb : K → K → bool).

Record SkipNode : Type := mkSkipNode {
  key : option K;
  forward : list (option nat);
  span : list nat
}.

Record SkipList : Type := mkSkipList {
  nodes : list SkipNode;
  free : list nat;
  level : nat;
  len : nat
}.

Definition SkipNode_head (level : nat) : SkipNode :=
  mkSkipNode None (replicate level None) (replicate level 0).

Definition SkipNode_new (key : K) (level : nat) : SkipNode :=
  mkSkipNode (Some key) (replicate level None) (replicate level 0).

Definition SkipList_new : SkipList := mkSkipList [SkipNode_head SKIPLIST_MAXLEVEL] [] 0 0.

(** The draws [rng.gen::<f64>() < SKIPLIST_P] are an argument: the [n]-th draw
    is [draws n].  The loop draws once more when the level is at its maximum. *)
Fixpoint random_level_loop (fuel : nat) (draws : nat → bool) (n lvl : nat) : nat :=
  match fuel with
  | O => lvl
  | S fuel =>
    if draws n && (lvl <? SKIPLIST_MAXLEVEL) then random_level_loop fuel draws (n + 1) (lvl + 1)
    else lvl
  end.

Definition random_level (draws : nat → bool) : nat :=
  random_level_loop SKIPLIST_MAXLEVEL draws 0 1.

(** Indexing: [v[i]] reads, and [v[i] = x] writes, or panics. *)
Definition index {A} (v : list A) (i : nat) : exec A :=
  match v !! i with Some a => Ret a | None => Panic end.

Definition assign {A} (v : list A) (i : nat) (a : A) : exec (list A) :=
  match v !! i with Some _ => Ret (<[i := a]> v) | None => Panic end.

(** [a - b] on [usize]. *)
Definition sub (a b : nat) : exec nat := if b <=? a then Ret (a - b) else Panic.

Definition get_forward (ns : list SkipNode) (x i : nat) : exec (option nat) :=
  nd ← index ns x; index (forward nd) i.

Definition get_span (ns : list SkipNode) (x i : nat) : exec nat :=
  nd ← index ns x; index (span nd) i.

Definition set_forward (ns : list SkipNode) (x i : nat) (f : option nat) : exec (list SkipNode) :=
  nd ← index ns x; v ← assign (forward nd) i f;
  assign ns x (mkSkipNode (key nd) v (span nd)).

Definition set_span (ns : list SkipNode) (x i : nat) (s : nat) : exec (list SkipNode) :=
  nd ← index ns x; v ← assign (span nd) i s;
  assign ns x (mkSkipNode (key nd) (forward nd) v).

Definition alloc_node (self : SkipList) (key : K) (lvl : nat) : exec (SkipList * nat) :=
  match last (free self) with
  | Some idx =>
    ns ← assign (nodes self) idx (SkipNode_new key lvl);
    Ret (mkSkipList ns (take (length (free self) - 1) (free self)) (level self) (len self), idx)
  | None =>
    Ret (mkSkipList (nodes self ++ [SkipNode_new key lvl]) (free self) (level self) (len self),
         length (nodes self))
  end.

Definition free_node (self : SkipList) (idx : nat) : exec SkipList :=
  ns ← assign (nodes self) idx (SkipNode_head 1);
  Ret (mkSkipList ns (free self ++ [idx]) (level self) (len self)).

Definition node_less (ns : list SkipNode) (idx : nat) (k : K) : exec bool :=
  nd ← index ns idx;
  Ret match key nd with
      | None => true
      | Some k' => match cmp k' k with Lt => true | _ => false end
      end.

(** The inner loop shared by the searches,
    [while let Some(next) = nodes[x].forward[i] { if go { acc += span; x = next } else { break } }],
    where the test [go] sees the next node and [acc + span].  A walk visits each
    node at most once, so the number of nodes bounds it. *)
Fixpoint walk (fuel : nat) (go : nat → nat → exec bool) (ns : list SkipNode) (i x acc : nat)
    : exec (nat * nat) :=
  match fuel with
  | O => Panic
  | S fuel =>
    f ← get_forward ns x i;
    match f with
    | None => Ret (x, acc)
    | Some next =>
      s ← get_span ns x i;
      b ← go next (acc + s);
      if (b : bool) then walk fuel go ns i next (acc + s) else Ret (x, acc)
    end
  end.

(** [for i in (0..=level).rev()]: walk at each level from where the level above
    stopped, and note the node and the rank reached in [update] and [rank]. *)
Fixpoint descend (n : nat) (go : nat → nat → exec bool) (ns : list SkipNode) (x acc : nat)
    (update rank : list nat) : exec (nat * nat * list nat * list nat) :=
  match n with
  | O => Ret (x, acc, update, rank)
  | S i =>
    '(x, acc) ← walk (length ns) go ns i x acc;
    rank ← assign rank i acc;
    update ← assign update i x;
    descend i go ns x acc update rank
  end.

Definition search (self : SkipList) (go : nat → nat → exec bool)
    : exec (nat * nat * list nat * list nat) :=
  descend (level self + 1) go (nodes self) 0 0
    (replicate SKIPLIST_MAXLEVEL 0) (replicate SKIPLIST_MAXLEVEL 0).

(** [for i in (self.level + 1)..lvl]: the levels that come into use. *)
Fixpoint grow (n : nat) (i : nat) (ns : list SkipNode) (update rank : list nat) (length : nat)
    : exec (list SkipNode * list nat * list nat) :=
  match n with
  | O => Ret (ns, update, rank)
  | S n =>
    rank ← assign rank i 0;
    update ← assign update i 0;
    ns ← set_span ns 0 i length;
    grow n (i + 1) ns update rank length
  end.

(** [for i in 0..lvl]: splice the new node in. *)
Fixpoint splice (n : nat) (i : nat) (idx : nat) (ns : list SkipNode) (update rank : list nat)
    : exec (list SkipNode) :=
  match n with
  | O => Ret ns
  | S n =>
    u ← index update i;
    f ← get_forward ns u i;
    ns ← set_forward ns idx i f;
    ns ← set_forward ns u i (Some idx);
    s ← get_span ns u i;
    r0 ← index rank 0;
    ri ← index rank i;
    gap ← sub r0 ri;
    s' ← sub s gap;
    ns ← set_span ns idx i s';
    ns ← set_span ns u i (gap + 1);
    splice n (i + 1) idx ns update rank
  end.

(** [for i in lvl..=self.level]: the links that jump over the new node. *)
Fixpoint widen (n : nat) (i : nat) (ns : list SkipNode) (update : list nat) : exec (list SkipNode) :=
  match n with
  | O => Ret ns
  | S n =>
    u ← index update i;
    s ← get_span ns u i;
    ns ← set_span ns u i (s + 1);
    widen n (i + 1) ns update
  end.

Definition insert (self : SkipList) (k : K) (draws : nat → bool) : exec SkipList :=
  '(x, acc, update, rank) ← search self (λ next _, node_less (nodes self) next k);
  let lvl := random_level draws in
  '(ns, update, rank) ←
    (if level self <? lvl - 1
     then grow (lvl - (level self + 1)) (level self + 1) (nodes self) update rank (len self)
     else Ret (nodes self, update, rank));
  let lv := if level self <? lvl - 1 then lvl - 1 else level self in
  '(sl, idx) ← alloc_node (mkSkipList ns (free self) lv (len self)) k lvl;
  ns ← splice lvl 0 idx (nodes sl) update rank;
  ns ← widen (lv + 1 - lvl) lvl ns update;
  Ret (mkSkipList ns (free sl) lv (len sl + 1)).

(** [for i in 0..=self.level]: take [target] out of every level. *)
Fixpoint unsplice (n : nat) (i : nat) (target : nat) (ns : list SkipNode) (update : list nat)
    : exec (list SkipNode) :=
  match n with
  | O => Ret ns
  | S n =>
    u ← index update i;
    f ← get_forward ns u i;
    ns ← (if decide (f = Some target) then
            su ← get_span ns u i;
            st ← get_span ns target i;
            ns ← set_span ns u i (su + (st - 1));
            ft ← get_forward ns target i;
            set_forward ns u i ft
          else
            su ← get_span ns u i;
            set_span ns u i (su - 1));
    unsplice n (i + 1) target ns update
  end.

(** [while self.level > 0 && self.nodes[0].forward[self.level].is_none()] *)
Fixpoint shrink (lv : nat) (ns : list SkipNode) : exec nat :=
  match lv with
  | O => Ret 0
  | S lv' =>
    f ← get_forward ns 0 lv;
    match f with None => shrink lv' ns | Some _ => Ret lv end
  end.

Definition key_is (ns : list SkipNode) (idx : nat) (k : K) : exec bool :=
  nd ← index ns idx;
  Ret match key nd with Some k' => eqb k' k | None => false end.

Definition remove (self : SkipList) (k : K) : exec (SkipList * bool) :=
  '(x, _, update, _) ← search self (λ next _, node_less (nodes self) next k);
  t ← get_forward (nodes self) x 0;
  match t with
  | None => Ret (self, false)
  | Some target =>
    b ← key_is (nodes self) target k;
    if (b : bool) then
      ns ← unsplice (level self + 1) 0 target (nodes self) update;
      sl ← free_node (mkSkipList ns (free self) (level self) (len self)) target;
      lv ← shrink (level sl) (nodes sl);
      Ret (mkSkipList (nodes sl) (free sl) lv (len sl - 1), true)
    else Ret (self, false)
  end.

Definition rank_of (self : SkipList) (k : K) : exec (option nat) :=
  '(x, rank, _, _) ← search self (λ next _, node_less (nodes self) next k);
  f ← get_forward (nodes self) x 0;
  match f with
  | None => Ret None
  | Some next => b ← key_is (nodes self) next k; Ret (if (b : bool) then Some rank else None)
  end.

Definition get_by_rank (self : SkipList) (rank : nat) : exec (option K) :=
  if len self <=? rank then Ret None else
  let target := rank + 1 in
  '(x, _, _, _) ← search self (λ _ acc, Ret (acc <=? target));
  nd ← index (nodes self) x;
  Ret (key nd).

(** [SkipListIter]: the keys from node [cur] on. *)
Fixpoint iter_from (fuel : nat) (ns : list SkipNode) (cur : option nat) : exec (list K) :=
  match fuel, cur with
  | _, None => Ret []
  | O, Some _ => Panic
  | S fuel, Some idx =>
    nd ← index ns idx;
    match key nd with
    | None => Ret []
    | Some k => cur ← get_forward ns idx 0; l ← iter_from fuel ns cur; Ret (k :: l)
    end
  end.

Definition iter_keys (self : SkipList) : exec (list K) :=
  cur ← get_forward (nodes self) 0 0;
  iter_from (length (nodes self)) (nodes self) cur.

End skiplist.

Arguments SkipNode : clear implicits.
Arguments SkipList : clear implicits.
Arguments mkSkipNode {K}.
Arguments mkSkipList {K}.
