(* ===== verification/SkipListFacts.v ===== *)
(** * The skiplist refines a sorted list

    The representation invariant relates the node vector to the list of towers
    in key order; every operation is proved to keep it, without a panic, and to
    do on the sorted list of keys what its name says.  The links of one level
    never depend on those of another, so the invariant is stated level by level
    and each loop of the code is one level per turn. *)

From S2P Require Import Prelude SkipList.
From Stdlib Require Import Lia.

Section facts.
  Context {K : Type} (cmp : K → K → comparison) `{!TotalCmp cmp}.

(** ** Links *)

(** The forward pointer and the span of node [a] at level [i]. *)
Definition lk (ns : list (SkipNode K)) (a i : nat) : option (option nat * nat) :=
  nd ← ns !! a; f ← forward nd !! i; s ← span nd !! i; Some (f, s).

Definition shape (nd : SkipNode K) : option K * nat * nat :=
  (key nd, length (forward nd), length (span nd)).

Definition put (ns : list (SkipNode K)) (a i : nat) (v : option nat * nat) : list (SkipNode K) :=
  alter (λ nd, mkSkipNode (key nd) (<[i := v.1]> (forward nd)) (<[i := v.2]> (span nd))) a ns.

Lemma lk_Some ns a i f s :
  lk ns a i = Some (f, s) ↔
  ∃ nd, ns !! a = Some nd ∧ forward nd !! i = Some f ∧ span nd !! i = Some s.
Proof.
  unfold lk. destruct (ns !! a) as [nd|]; simpl; [|naive_solver].
  destruct (forward nd !! i) eqn:Ef; simpl; [|naive_solver].
  destruct (span nd !! i) eqn:Es; simpl; naive_solver.
Qed.

Lemma get_forward_lk ns a i f s : lk ns a i = Some (f, s) → get_forward ns a i = Ret f.
Proof. intros (nd & H1 & H2 & H3)%lk_Some. unfold get_forward, index. rewrite H1. simpl. by rewrite H2. Qed.

Lemma get_span_lk ns a i f s : lk ns a i = Some (f, s) → get_span ns a i = Ret s.
Proof. intros (nd & H1 & H2 & H3)%lk_Some. unfold get_span, index. rewrite H1. simpl. by rewrite H3. Qed.

Lemma put_as_insert ns a i v nd :
  ns !! a = Some nd →
  put ns a i v = <[a := mkSkipNode (key nd) (<[i := v.1]> (forward nd)) (<[i := v.2]> (span nd))]> ns.
Proof.
  intros H. unfold put. apply list_eq. intros b.
  destruct (decide (a = b)) as [->|Hne].
  - rewrite list_lookup_alter_eq, H. simpl. rewrite list_lookup_insert_eq; [done|].
    by eapply lookup_lt_Some.
  - by rewrite list_lookup_alter_ne, list_lookup_insert_ne.
Qed.

Lemma set_forward_lk ns a i f s f' :
  lk ns a i = Some (f, s) → set_forward ns a i f' = Ret (put ns a i (f', s)).
Proof.
  intros (nd & H1 & H2 & H3)%lk_Some. unfold set_forward, index, assign. rewrite H1. simpl.
  rewrite H2. simpl. rewrite (put_as_insert _ _ _ _ _ H1). simpl. by rewrite (list_insert_id (span nd)).
Qed.

Lemma set_span_lk ns a i f s s' :
  lk ns a i = Some (f, s) → set_span ns a i s' = Ret (put ns a i (f, s')).
Proof.
  intros (nd & H1 & H2 & H3)%lk_Some. unfold set_span, index, assign. rewrite H1. simpl.
  rewrite H3. simpl. rewrite (put_as_insert _ _ _ _ _ H1). simpl. by rewrite (list_insert_id (forward nd)).
Qed.

Lemma lk_put_eq ns a i v v' : lk ns a i = Some v → lk (put ns a i v') a i = Some v'.
Proof.
  destruct v as [f s], v' as [f' s']. intros (nd & H1 & H2 & H3)%lk_Some. apply lk_Some.
  eexists. split_and!; [by rewrite (put_as_insert _ _ _ _ _ H1), list_lookup_insert_eq
    by by eapply lookup_lt_Some| |]; simpl;
    rewrite list_lookup_insert_eq; try done; by eapply lookup_lt_Some.
Qed.

Lemma lk_put_ne ns a i v b j : (b, j) ≠ (a, i) → lk (put ns a i v) b j = lk ns b j.
Proof.
  intros Hne. unfold lk, put. destruct (decide (a = b)) as [->|Hab].
  - rewrite list_lookup_alter_eq. destruct (ns !! b); simpl; [|done].
    rewrite !list_lookup_insert_ne; congruence.
  - by rewrite list_lookup_alter_ne.
Qed.

Lemma shape_put ns a i v : shape <$> put ns a i v = shape <$> ns.
Proof.
  apply list_eq. intros b. rewrite !list_lookup_fmap. unfold put.
  destruct (decide (a = b)) as [->|Hab]; [|by rewrite list_lookup_alter_ne].
  rewrite list_lookup_alter_eq. destruct (ns !! b); simpl; [|done].
  unfold shape. simpl. by rewrite !length_insert.
Qed.

Lemma shape_lookup ns a k h i :
  (shape <$> ns) !! a = Some (k, h, h) → i < h → ∃ f s, lk ns a i = Some (f, s).
Proof.
  rewrite list_lookup_fmap. intros H Hi. destruct (ns !! a) as [nd|] eqn:E; simplify_eq/=.
  unfold shape in H. simplify_eq.
  destruct (lookup_lt_is_Some_2 (forward nd) i) as [f Hf]; [lia|].
  destruct (lookup_lt_is_Some_2 (span nd) i) as [s Hs]; [lia|].
  exists f, s. apply lk_Some. eauto.
Qed.

(** ** Towers *)

Record tower : Type := Tower { tid : nat; tkey : K; theight : nat }.

(** The first tower above level [i]: its distance, counted from 1, and its node. *)
Fixpoint nxt (i : nat) (l : list tower) : option (nat * nat) :=
  match l with
  | [] => None
  | t :: l' =>
    if i <? theight t then Some (1, tid t) else (λ r, (S r.1, r.2)) <$> nxt i l'
  end.

(** A link at level [i] of a node followed by the towers [rest]: exact when it
    leads somewhere; at the end of a level the span is the rest of the list or
    one more. *)
Definition link_ok (i : nat) (rest : list tower) (f : option nat) (s : nat) : Prop :=
  match nxt i rest with
  | Some (d, a) => f = Some a ∧ s = d
  | None => f = None ∧ length rest ≤ s ≤ S (length rest)
  end.

Definition stop (t : tower) : nat * option K * nat := (tid t, Some (tkey t), theight t).

(** The head and the towers: node, key and height at each position. *)
Definition stops (tw : list tower) : list (nat * option K * nat) :=
  (0, None, SKIPLIST_MAXLEVEL) :: (stop <$> tw).

Definition level_ok (ns : list (SkipNode K)) (tw : list tower) (i : nat) : Prop :=
  ∀ q a k h, stops tw !! q = Some (a, k, h) → i < h →
    ∃ f s, lk ns a i = Some (f, s) ∧ link_ok i (drop q tw) f s.

Definition ids (tw : list tower) : list nat := 0 :: (tid <$> tw).

Lemma nxt_app i A B :
  nxt i (A ++ B) =
  match nxt i A with Some r => Some r | None => (λ r, (length A + r.1, r.2)) <$> nxt i B end.
Proof.
  induction A as [|t A IH]; simpl; [by destruct (nxt i B) as [[]|]|].
  destruct (i <? theight t); [done|]. rewrite IH. destruct (nxt i A) as [[]|]; simpl; [done|].
  by destruct (nxt i B) as [[]|].
Qed.

Lemma nxt_None i A : nxt i A = None ↔ Forall (λ t, theight t ≤ i) A.
Proof.
  induction A as [|t A IH]; simpl; [by split|].
  rewrite Forall_cons. destruct (Nat.ltb_spec i (theight t)).
  - split; [done|]. intros [??]. lia.
  - rewrite <- IH. destruct (nxt i A); simpl; split; try done. intros [??]. done.
Qed.

Lemma nxt_Some i A d a :
  nxt i A = Some (d, a) →
  ∃ C t D, A = C ++ t :: D ∧ d = S (length C) ∧ tid t = a ∧ i < theight t ∧ nxt i C = None.
Proof.
  revert d. induction A as [|t A IH]; intros d; simpl; [done|].
  destruct (Nat.ltb_spec i (theight t)).
  - intros [= <- <-]. exists [], t, A. done.
  - intros H'. destruct (nxt i A) as [[d' a']|] eqn:E; simplify_eq/=.
    destruct (IH d' eq_refl) as (C & t' & D & -> & -> & <- & Ht & Hn).
    exists (t :: C), t', D. split_and!; try done. simpl.
    destruct (Nat.ltb_spec i (theight t)); [lia|]. by rewrite Hn.
Qed.

Lemma stops_app A B : stops (A ++ B) = stops A ++ (stop <$> B).
Proof. unfold stops. by rewrite fmap_app. Qed.

Lemma stops_length A : length (stops A) = S (length A).
Proof. unfold stops. simpl. by rewrite length_fmap. Qed.

Lemma stops_ids tw q a k h : stops tw !! q = Some (a, k, h) → ids tw !! q = Some a.
Proof.
  unfold stops, ids. destruct q as [|q]; simpl; [congruence|].
  rewrite !list_lookup_fmap. destruct (tw !! q); simpl; [|done]. unfold stop. congruence.
Qed.

(** A position of [A ++ B] is in [A] (or the head), or in [B]. *)
Lemma stops_app_inv A B q a k h :
  stops (A ++ B) !! q = Some (a, k, h) →
  (stops A !! q = Some (a, k, h) ∧ q ≤ length A) ∨
  (∃ r t, q = S (length A) + r ∧ B !! r = Some t ∧ stop t = (a, k, h)).
Proof.
  rewrite stops_app, lookup_app_Some, stops_length, list_lookup_fmap.
  intros [H|[Hq H]].
  - left. split; [done|]. apply lookup_lt_Some in H. rewrite stops_length in H. lia.
  - right. destruct (B !! (q - S (length A))) as [t|] eqn:E; simplify_eq/=.
    exists (q - S (length A)), t. split_and!; [lia|done|congruence].
Qed.

(** ** Searching *)

(** [a], at position [u], is the last stop of [A] above level [i]. *)
Definition pred_at (A : list tower) (i a u : nat) : Prop :=
  ∃ k h, stops A !! u = Some (a, k, h) ∧ i < h ∧ nxt i (drop u A) = None.

(** The test of a search that should stop at the end of [A]. *)
Definition go_ok (go : nat → nat → exec bool) (A B : list tower) : Prop :=
  ∀ r a k h, 1 ≤ r → stops (A ++ B) !! r = Some (a, k, h) → go a r = Ret (r <=? length A).

Lemma pred_at_le A i a u : pred_at A i a u → u ≤ length A.
Proof. intros (k & h & H & _). apply lookup_lt_Some in H. rewrite stops_length in H. lia. Qed.

Lemma drop_app_in (A B : list tower) q : q ≤ length A → drop q (A ++ B) = drop q A ++ B.
Proof. intros. by rewrite drop_app_le. Qed.

Lemma stops_in A B q : q ≤ length A → stops (A ++ B) !! q = stops A !! q.
Proof. intros. rewrite stops_app, lookup_app_l; [done|]. rewrite stops_length. lia. Qed.

(** The stop that [nxt] finds. *)
Lemma nxt_stop tw q i d a :
  nxt i (drop q tw) = Some (d, a) →
  1 ≤ d ∧ q + d ≤ length tw ∧ ∃ k h, stops tw !! (q + d) = Some (a, k, h) ∧ i < h.
Proof.
  intros (C & t & D & Hd & -> & <- & Ht & _)%nxt_Some.
  assert (tw !! (q + length C) = Some t) as Hl.
  { rewrite <- lookup_drop, Hd. by apply list_lookup_middle. }
  pose proof (lookup_lt_Some _ _ _ Hl). split_and!; [lia..|].
  replace (q + S (length C)) with (S (q + length C)) by lia.
  exists (Some (tkey t)), (theight t). simpl. rewrite list_lookup_fmap, Hl. done.
Qed.

Lemma walk_spec fuel go ns A B i q a k h :
  level_ok ns (A ++ B) i → go_ok go A B →
  stops A !! q = Some (a, k, h) → i < h → length A - q < fuel →
  ∃ a' u, walk fuel go ns i a q = Ret (a', u) ∧ pred_at A i a' u.
Proof.
  intros Hok Hgo. revert q a k h. induction fuel as [|fuel IH]; intros q a k h Hq Hi Hf; [lia|].
  pose proof (lookup_lt_Some _ _ _ Hq) as Hql. rewrite stops_length in Hql.
  assert (Hq' : stops (A ++ B) !! q = Some (a, k, h)) by (rewrite stops_in by lia; done).
  destruct (Hok _ _ _ _ Hq' Hi) as (f & s & Hlk & Hl). unfold link_ok in Hl.
  cbn [walk]. rewrite (get_forward_lk _ _ _ _ _ Hlk). cbn [mbind exec_bind].
  destruct (nxt i (drop q (A ++ B))) as [[d b]|] eqn:Hn.
  - destruct Hl as [-> ->]. rewrite (get_span_lk _ _ _ _ _ Hlk). cbn [mbind exec_bind].
    destruct (nxt_stop _ _ _ _ _ Hn) as (Hd & Hlen & k' & h' & Hr & Hi').
    rewrite (Hgo (q + d) b k' h') by (done || lia). cbn [mbind exec_bind].
    destruct (Nat.leb_spec (q + d) (length A)).
    + rewrite stops_in in Hr by lia. apply (IH (q + d) b k' h'); [done|done|lia].
    + exists a, q. split; [done|]. exists k, h. split_and!; [done..|].
      rewrite drop_app_in, nxt_app in Hn by lia. destruct (nxt i (drop q A)) as [[d' b']|] eqn:E; [|done].
      simplify_eq. destruct (nxt_stop _ _ _ _ _ E). lia.
  - destruct Hl as [-> _]. exists a, q. split; [done|]. exists k, h. split_and!; [done..|].
    rewrite drop_app_in, nxt_app in Hn by lia. by destruct (nxt i (drop q A)).
Qed.

(** [update] and [rank] hold, below level [n], the last stops before the end of [A]. *)
Definition preds_ok (A : list tower) (n : nat) (update rank : list nat) : Prop :=
  ∀ i, i < n → ∃ a u, pred_at A i a u ∧ update !! i = Some a ∧ rank !! i = Some u.

Lemma assign_in {T} (v : list T) i x : i < length v → assign v i x = Ret (<[i := x]> v).
Proof. intros H. unfold assign. apply lookup_lt_is_Some in H as [y ->]. done. Qed.

Lemma descend_spec n go ns A B q a k h update rank :
  (∀ i, i < n → level_ok ns (A ++ B) i) → go_ok go A B →
  stops A !! q = Some (a, k, h) → n ≤ h → length A < length ns →
  n ≤ length update → n ≤ length rank →
  ∃ x u update' rank', descend n go ns a q update rank = Ret (x, u, update', rank') ∧
    length update' = length update ∧ length rank' = length rank ∧
    preds_ok A n update' rank' ∧ (0 < n → pred_at A 0 x u) ∧ (n = 0 → x = a ∧ u = q) ∧
    (∀ j, n ≤ j → update' !! j = update !! j ∧ rank' !! j = rank !! j).
Proof.
  intros Hok Hgo. revert q a k h update rank.
  induction n as [|n IH]; intros q a k h update rank Hq Hh Hlen Hu Hr; simpl.
  { exists a, q, update, rank. split_and!; try done; intros ?; lia. }
  destruct (walk_spec (length ns) go ns A B n q a k h) as (a' & u & -> & Hp);
    [apply Hok; lia|done..|lia|lia|]. cbn [mbind exec_bind].
  rewrite !assign_in by lia. cbn [mbind exec_bind].
  pose proof Hp as (k' & h' & Hs & Hi & Hn).
  destruct (IH ltac:(intros; apply Hok; lia) u a' k' h' (<[n := a']> update) (<[n := u]> rank))
    as (x & u' & upd & rk & -> & Hl1 & Hl2 & Hps & H0 & Hz & Hrest);
    [done|lia|done|rewrite length_insert; lia..|].
  rewrite length_insert in Hl1, Hl2. exists x, u', upd, rk. split_and!; [done|done|done| | | |].
  - intros i Hi'. destruct (decide (i = n)) as [->|]; [|apply Hps; lia].
    exists a', u. destruct (Hrest n (le_n _)) as [-> ->].
    rewrite !list_lookup_insert_eq by lia. done.
  - intros _. destruct n; [|apply H0; lia]. by destruct (Hz eq_refl) as [-> ->].
  - done.
  - intros j Hj. destruct (Hrest j) as [-> ->]; [lia|]. by rewrite !list_lookup_insert_ne by lia.
Qed.

(** ** One level of an insertion *)

Lemma link_ok_in_prefix i C B B' f s :
  nxt i C ≠ None → link_ok i (C ++ B) f s → link_ok i (C ++ B') f s.
Proof. intros Hn. unfold link_ok. rewrite !nxt_app. by destruct (nxt i C) as [[]|]. Qed.

(** No link jumps less far than the part of the list it is known to cross. *)
Lemma link_ok_span_ge i C B f s :
  nxt i C = None → link_ok i (C ++ B) f s → length C ≤ s.
Proof.
  intros Hn. unfold link_ok. rewrite nxt_app, Hn, length_app.
  destruct (nxt i B) as [[d b]|]; simpl; intros [? ?]; lia.
Qed.

Lemma link_ok_splice i C B f s t :
  nxt i C = None → link_ok i (C ++ B) f s → i < theight t →
  link_ok i (C ++ t :: B) (Some (tid t)) (length C + 1) ∧ link_ok i B f (s - length C).
Proof.
  intros Hn Hl Hi. unfold link_ok in *. rewrite nxt_app, Hn in *. simpl.
  destruct (Nat.ltb_spec i (theight t)); [|lia]. split; [done|].
  rewrite length_app in Hl. destruct (nxt i B) as [[d b]|]; simpl in *.
  - destruct Hl as [-> ->]. split; [done|lia].
  - destruct Hl as [-> Hs]. split; [done|lia].
Qed.

Lemma link_ok_widen i C B f s t :
  nxt i C = None → link_ok i (C ++ B) f s → theight t ≤ i → link_ok i (C ++ t :: B) f (s + 1).
Proof.
  intros Hn Hl Hi. unfold link_ok in *. rewrite nxt_app, Hn in *. simpl.
  destruct (Nat.ltb_spec i (theight t)); [lia|]. rewrite length_app in *. simpl.
  destruct (nxt i B) as [[d b]|]; simpl in *.
  - destruct Hl as [-> ->]. split; [done|lia].
  - destruct Hl as [-> Hs]. split; [done|lia].
Qed.

Lemma ids_app A B : ids (A ++ B) = ids A ++ (tid <$> B).
Proof. unfold ids. by rewrite fmap_app. Qed.

(** The links of the towers of [B], and those of the stops of [A] before [B]. *)
Definition tail_ok (ns : list (SkipNode K)) (B : list tower) (i : nat) : Prop :=
  ∀ r t, B !! r = Some t → i < theight t →
    ∃ f s, lk ns (tid t) i = Some (f, s) ∧ link_ok i (drop (S r) B) f s.

Definition front_ok (ns : list (SkipNode K)) (A B : list tower) (i : nat) : Prop :=
  ∀ q a k h, stops A !! q = Some (a, k, h) → i < h →
    ∃ f s, lk ns a i = Some (f, s) ∧ link_ok i (drop q A ++ B) f s.

Lemma level_ok_app ns A B i : level_ok ns (A ++ B) i ↔ front_ok ns A B i ∧ tail_ok ns B i.
Proof.
  split.
  - intros Hok. split.
    + intros q a k h Hq Hi. pose proof (lookup_lt_Some _ _ _ Hq) as Hl. rewrite stops_length in Hl.
      rewrite <- drop_app_in by lia. apply (Hok q a k h); [by rewrite stops_in by lia|done].
    + intros r t Hr Hi.
      replace (drop (S r) B) with (drop (length A + S r) (A ++ B))
        by by rewrite <- drop_drop, drop_app_length.
      apply (Hok _ _ (Some (tkey t)) (theight t)); [|done].
      rewrite stops_app, lookup_app_r by (rewrite stops_length; lia).
      rewrite stops_length, list_lookup_fmap.
      replace (length A + S r - S (length A)) with r by lia. by rewrite Hr.
  - intros [Hf Ht] q a k h Hq Hi. apply stops_app_inv in Hq as [[Hq Hqle]|(r & t & -> & Hr & Hst)].
    + rewrite drop_app_in by done. by apply (Hf q a k h).
    + unfold stop in Hst. simplify_eq. replace (S (length A) + r) with (length A + S r) by lia.
      rewrite <- drop_drop, drop_app_length. by apply (Ht r).
Qed.

Lemma tail_ok_cons ns t B i :
  tail_ok ns (t :: B) i ↔
  (i < theight t → ∃ f s, lk ns (tid t) i = Some (f, s) ∧ link_ok i B f s) ∧ tail_ok ns B i.
Proof.
  split.
  - intros Hok. split; [intros Hi; by apply (Hok 0 t)|]. intros r t' Hr. by apply (Hok (S r)).
  - intros [Ht Hok] [|r] t' Hr Hi; simpl in *; [simplify_eq; by apply Ht|by apply (Hok r)].
Qed.

(** Unchanged links of [B] stay right. *)
Lemma tail_ok_same ns ns' B i :
  (∀ b, b ∈ tid <$> B → lk ns' b i = lk ns b i) → tail_ok ns B i → tail_ok ns' B i.
Proof.
  intros Hs Hok r t Hr Hi. destruct (Hok r t Hr Hi) as (f & s & Hlk & Hl).
  exists f, s. split; [|done]. rewrite Hs; [done|].
  apply list_elem_of_fmap_2, list_elem_of_lookup. eauto.
Qed.

(** A stop of [A] that is not the last one above level [i] has a link inside [A]. *)
Lemma not_pred A i a u q b k h :
  pred_at A i a u → stops A !! q = Some (b, k, h) → i < h → q ≠ u → nxt i (drop q A) ≠ None.
Proof.
  assert (∀ q1 q2 b1 k1 h1, stops A !! q2 = Some (b1, k1, h1) → i < h1 → q1 < q2 →
    nxt i (drop q1 A) ≠ None) as Hcross.
  { intros q1 q2 b1 k1 h1 Hs Hi1 Hlt Hnone. rewrite nxt_None, Forall_forall in Hnone.
    destruct q2 as [|q2]; [lia|]. simpl in Hs. rewrite list_lookup_fmap in Hs.
    destruct (A !! q2) as [t|] eqn:Et; simplify_eq/=. unfold stop in Hs. simplify_eq.
    assert (theight t ≤ i); [|lia]. apply Hnone.
    apply list_elem_of_lookup. exists (q2 - q1). rewrite lookup_drop.
    by replace (q1 + (q2 - q1)) with q2 by lia. }
  intros (ku & hu & Hu & Hiu & Hn) Hq Hi Hne. destruct (decide (q < u)).
  - by apply (Hcross q u a ku hu).
  - exfalso. apply (Hcross u q b k h); [done..|lia|done].
Qed.

Lemma stops_NoDup A B q u a k h k' h' :
  NoDup (ids (A ++ B)) → stops A !! q = Some (a, k, h) → stops A !! u = Some (a, k', h') → q = u.
Proof.
  rewrite ids_app. intros (Hnd & _)%NoDup_app Hq Hu.
  eapply (NoDup_lookup _ _ _ a Hnd); by eapply stops_ids.
Qed.

Lemma stops_disjoint A B q a k h :
  NoDup (ids (A ++ B)) → stops A !! q = Some (a, k, h) → a ∉ tid <$> B.
Proof.
  rewrite ids_app. intros (_ & Hd & _)%NoDup_app Hq. apply Hd.
  eapply list_elem_of_lookup_2. by eapply stops_ids.
Qed.

Lemma tail_NoDup A t B : NoDup (ids (A ++ t :: B)) → tid t ∉ tid <$> B.
Proof. rewrite ids_app. intros (_ & _ & Hnd)%NoDup_app. by apply NoDup_cons in Hnd as [? _]. Qed.

(** Front links other than the last one above level [i] do not depend on what follows. *)
Lemma front_ok_change ns ns' A B B' C i a u :
  front_ok ns A B i → pred_at A i a u → NoDup (ids (A ++ C)) →
  (∀ b, b ≠ a → b ∉ tid <$> C → lk ns' b i = lk ns b i) →
  (∃ f s, lk ns' a i = Some (f, s) ∧ link_ok i (drop u A ++ B') f s) →
  front_ok ns' A B' i.
Proof.
  intros Hok Hp Hnd Hsame Ha q b k h Hq Hi. pose proof Hp as (ku & hu & Hu & _).
  destruct (decide (q = u)) as [->|Hne]; [by simplify_eq|].
  destruct (Hok q b k h Hq Hi) as (f & s & Hlk & Hl). exists f, s. split.
  - rewrite Hsame; [done| |by eapply stops_disjoint]. intros ->. by eapply Hne, stops_NoDup.
  - eapply link_ok_in_prefix, Hl. by eapply not_pred.
Qed.

Lemma insert_level ns ns' A B i a u f s t :
  level_ok ns (A ++ B) i → pred_at A i a u → NoDup (ids (A ++ t :: B)) →
  lk ns a i = Some (f, s) →
  (∀ b, b ≠ a → b ≠ tid t → lk ns' b i = lk ns b i) →
  lk ns' a i = Some (if i <? theight t then (Some (tid t), length A - u + 1) else (f, s + 1)) →
  (i < theight t → lk ns' (tid t) i = Some (f, s - (length A - u))) →
  level_ok ns' (A ++ t :: B) i.
Proof.
  intros [Hf Htl]%level_ok_app Hp Hnd Hlk Hsame Ha Ht. pose proof Hp as (ku & hu & Hu & Hiu & Hnone).
  destruct (Hf _ _ _ _ Hu Hiu) as (f' & s' & Hlk' & Hla). rewrite Hlk in Hlk'. simplify_eq.
  rewrite <- (length_drop A u) in *.
  apply level_ok_app. split; [|apply tail_ok_cons; split].
  - eapply (front_ok_change _ _ _ _ _ (t :: B)); [done..| |].
    + intros b Hb Hnin. apply Hsame; [done|]. intros ->. apply Hnin. by left.
    + rewrite Ha. destruct (Nat.ltb_spec i (theight t)); eexists _, _; (split; [done|]).
      * by eapply link_ok_splice.
      * by apply link_ok_widen.
  - intros Hi. eexists _, _. split; [by apply Ht|]. by eapply (link_ok_splice i _ B f' s' t).
  - eapply tail_ok_same, Htl. intros b Hb. apply Hsame; intros ->.
    + eapply (stops_disjoint A (t :: B)); [done..|]. by right.
    + by eapply tail_NoDup.
Qed.

(** ** One level of a removal *)

Lemma nxt_pos i l d a : nxt i l = Some (d, a) → 1 ≤ d ∧ a ∈ tid <$> l.
Proof.
  intros (C & t & D & -> & -> & <- & _)%nxt_Some. split; [lia|].
  apply list_elem_of_fmap_2, elem_of_app. right. by left.
Qed.

Lemma link_ok_target i C t B f s :
  nxt i C = None → link_ok i (C ++ t :: B) f s → tid t ∉ tid <$> B →
  f = Some (tid t) ↔ i < theight t.
Proof.
  intros Hn Hl Hnin. unfold link_ok in Hl. rewrite nxt_app, Hn in Hl. simpl in Hl.
  destruct (Nat.ltb_spec i (theight t)); simpl in Hl; [naive_solver|].
  split; [|lia]. intros ->. destruct (nxt i B) as [[d b]|] eqn:E; simpl in Hl; [|naive_solver].
  apply nxt_pos in E as [_ Hin]. naive_solver.
Qed.

Lemma link_ok_unsplice i C t B f s ft st :
  nxt i C = None → i < theight t → link_ok i (C ++ t :: B) f s → link_ok i B ft st →
  link_ok i (C ++ B) ft (s + (st - 1)).
Proof.
  intros Hn Hi Hl Ht. unfold link_ok in *. rewrite nxt_app, Hn in *. simpl in Hl.
  destruct (Nat.ltb_spec i (theight t)); [|lia]. simpl in Hl. destruct Hl as [-> ->].
  rewrite length_app. destruct (nxt i B) as [[d b]|] eqn:E; simpl.
  - apply nxt_pos in E as [? _]. destruct Ht as [-> ->]. split; [done|lia].
  - destruct Ht as [-> Hs]. split; [done|lia].
Qed.

Lemma link_ok_narrow i C t B f s :
  nxt i C = None → theight t ≤ i → link_ok i (C ++ t :: B) f s → link_ok i (C ++ B) f (s - 1).
Proof.
  intros Hn Hi Hl. unfold link_ok in *. rewrite nxt_app, Hn in *. simpl in Hl.
  destruct (Nat.ltb_spec i (theight t)); [lia|]. rewrite length_app in *. simpl in Hl.
  destruct (nxt i B) as [[d b]|]; simpl in *.
  - destruct Hl as [-> ->]. split; [done|lia].
  - destruct Hl as [-> Hs]. split; [done|lia].
Qed.

Lemma remove_level ns ns' A t B i a u f s ft st :
  level_ok ns (A ++ t :: B) i → pred_at A i a u → NoDup (ids (A ++ t :: B)) →
  lk ns a i = Some (f, s) →
  (i < theight t → lk ns (tid t) i = Some (ft, st)) →
  (∀ b, b ≠ a → lk ns' b i = lk ns b i) →
  lk ns' a i = Some (if i <? theight t then (ft, s + (st - 1)) else (f, s - 1)) →
  level_ok ns' (A ++ B) i.
Proof.
  intros [Hf [Ht Htl]%tail_ok_cons]%level_ok_app Hp Hnd Hlk Hlt Hsame Ha.
  pose proof Hp as (ku & hu & Hu & Hiu & Hnone).
  destruct (Hf _ _ _ _ Hu Hiu) as (f' & s' & Hlk' & Hla). rewrite Hlk in Hlk'. simplify_eq.
  apply level_ok_app. split.
  - eapply (front_ok_change _ _ _ _ _ (t :: B)); [done..|intros; by apply Hsame|].
    rewrite Ha. destruct (Nat.ltb_spec i (theight t)) as [Hi|Hi]; eexists _, _; (split; [done|]).
    + destruct (Ht Hi) as (ft' & st' & Hlt' & Hl'). rewrite (Hlt Hi) in Hlt'. simplify_eq.
      by eapply link_ok_unsplice.
    + by eapply link_ok_narrow.
  - eapply tail_ok_same, Htl. intros b Hb. apply Hsame. intros ->.
    eapply (stops_disjoint A (t :: B)); [done..|]. by right.
Qed.

(** ** The loops *)

Lemma level_ok_ext ns ns' tw i :
  (∀ b, lk ns' b i = lk ns b i) → level_ok ns tw i → level_ok ns' tw i.
Proof. intros H Hok q a k h Hq Hi. rewrite H. by apply (Hok q a k h). Qed.

Lemma index_Some {T} (v : list T) i x : v !! i = Some x → index v i = Ret x.
Proof. unfold index. by intros ->. Qed.

Lemma sub_le a b : b ≤ a → sub a b = Ret (a - b).
Proof. unfold sub. intros. by destruct (Nat.leb_spec b a); [|lia]. Qed.

(** What a loop over the levels from [i] to [i + n] leaves behind. *)
Definition levels_done (ns ns' : list (SkipNode K)) (tw : list tower) (i n : nat) : Prop :=
  shape <$> ns' = shape <$> ns ∧
  (∀ j, i ≤ j < i + n → level_ok ns' tw j) ∧
  (∀ j b, ¬ (i ≤ j < i + n) → lk ns' b j = lk ns b j).

Lemma levels_done_0 ns tw i : levels_done ns ns tw i 0.
Proof. split_and!; [done| |done]. intros. lia. Qed.

Lemma levels_done_S ns ns1 ns2 tw i n :
  shape <$> ns1 = shape <$> ns → level_ok ns1 tw i →
  (∀ j b, j ≠ i → lk ns1 b j = lk ns b j) →
  levels_done ns1 ns2 tw (i + 1) n → levels_done ns ns2 tw i (S n).
Proof.
  intros Hs Hok Hsame (Hs2 & Hok2 & Hsame2). split_and!; [congruence| |].
  - intros j Hj. destruct (decide (j = i)) as [->|]; [|apply Hok2; lia].
    eapply level_ok_ext, Hok. intros b. apply Hsame2. lia.
  - intros j b Hj. rewrite Hsame2, Hsame by lia. done.
Qed.

(** The last stop above level [i] is linked. *)
Lemma pred_lk ns A B i a u :
  level_ok ns (A ++ B) i → pred_at A i a u →
  ∃ f s, lk ns a i = Some (f, s) ∧ link_ok i (drop u A ++ B) f s.
Proof. intros [Hf _]%level_ok_app (k & h & Hu & Hi & _). by apply (Hf u a k h). Qed.

Ltac ret := cbn [mbind exec_bind].

Lemma put_put ns a i v v' : put (put ns a i v) a i v' = put ns a i v'.
Proof.
  apply list_eq. intros b. unfold put. destruct (decide (a = b)) as [->|Hne].
  - rewrite !list_lookup_alter_eq. destruct (ns !! b); simpl; [|done].
    by rewrite !list_insert_insert_eq.
  - by rewrite !list_lookup_alter_ne.
Qed.

Lemma put_comm ns a b i v w : a ≠ b → put (put ns a i v) b i w = put (put ns b i w) a i v.
Proof.
  intros Hne. apply list_eq. intros c. unfold put.
  destruct (decide (a = c)) as [<-|]; [|destruct (decide (b = c)) as [<-|]].
  - by rewrite list_lookup_alter_ne, !list_lookup_alter_eq, list_lookup_alter_ne by done.
  - by rewrite list_lookup_alter_eq, !list_lookup_alter_ne, list_lookup_alter_eq by done.
  - by rewrite !list_lookup_alter_ne by done.
Qed.

(** One turn of [unsplice] rewrites one link. *)
Lemma unsplice_step n ns A t B i a u f s update :
  level_ok ns (A ++ t :: B) i → pred_at A i a u → NoDup (ids (A ++ t :: B)) →
  update !! i = Some a → lk ns a i = Some (f, s) → link_ok i (drop u A ++ t :: B) f s →
  ∃ ft st, (i < theight t → lk ns (tid t) i = Some (ft, st)) ∧
    unsplice (S n) i (tid t) ns update =
    unsplice n (i + 1) (tid t)
      (put ns a i (if i <? theight t then (ft, s + (st - 1)) else (f, s - 1))) update.
Proof.
  intros Hok Hp Hnd Hupd Hlk Hl. pose proof Hp as (ku & hu & Hu & Hiu & Hnone).
  pose proof (link_ok_target _ _ _ _ _ _ Hnone Hl (tail_NoDup _ _ _ Hnd)) as Htgt.
  cbn [unsplice]. rewrite (index_Some _ _ _ Hupd). ret.
  rewrite (get_forward_lk _ _ _ _ _ Hlk). ret. destruct (Nat.ltb_spec i (theight t)) as [Hi|Hi].
  - rewrite decide_True by tauto. rewrite (get_span_lk _ _ _ _ _ Hlk). ret.
    apply level_ok_app in Hok as [_ [Ht _]%tail_ok_cons].
    destruct (Ht Hi) as (ft & st & Hlt & _). rewrite (get_span_lk _ _ _ _ _ Hlt). ret.
    assert (Hne : tid t ≠ a).
    { intros E. eapply (stops_disjoint A (t :: B)); [done..|]. rewrite <- E. by left. }
    rewrite (set_span_lk _ _ _ _ _ _ Hlk). ret.
    rewrite (get_forward_lk _ _ _ ft st) by (rewrite lk_put_ne by congruence; done). ret.
    rewrite (set_forward_lk _ _ _ f (s + (st - 1))) by by eapply lk_put_eq. ret.
    exists ft, st. split; [done|]. by rewrite put_put.
  - rewrite decide_False by (rewrite Htgt; lia). rewrite (get_span_lk _ _ _ _ _ Hlk). ret.
    rewrite (set_span_lk _ _ _ _ _ _ Hlk). ret. exists None, 0. split; [lia|done].
Qed.

Lemma unsplice_spec n ns A t B i update rank :
  (∀ j, i ≤ j < i + n → level_ok ns (A ++ t :: B) j) →
  preds_ok A (i + n) update rank → NoDup (ids (A ++ t :: B)) →
  ∃ ns', unsplice n i (tid t) ns update = Ret ns' ∧ levels_done ns ns' (A ++ B) i n.
Proof.
  revert ns i. induction n as [|n IH]; intros ns i Hok Hps Hnd.
  { exists ns. split; [done|apply levels_done_0]. }
  destruct (Hps i) as (a & u & Hp & Hupd & Hrk); [lia|].
  assert (Hoki : level_ok ns (A ++ t :: B) i) by (apply Hok; lia).
  destruct (pred_lk _ _ _ _ _ _ Hoki Hp) as (f & s & Hlk & Hl).
  destruct (unsplice_step n _ _ _ _ _ _ _ _ _ _ Hoki Hp Hnd Hupd Hlk Hl) as (ft & st & Hlt & ->).
  set (ns1 := put _ _ _ _).
  assert (Hsame : ∀ j b, j ≠ i → lk ns1 b j = lk ns b j) by (intros; apply lk_put_ne; congruence).
  destruct (IH ns1 (i + 1)) as (ns2 & -> & Hdone).
  { intros j Hj. eapply level_ok_ext; [|apply Hok; lia]. intros b. apply Hsame. lia. }
  { by replace (i + 1 + n) with (i + S n) by lia. }
  { done. }
  exists ns2. split; [done|]. eapply levels_done_S; [| |exact Hsame|exact Hdone].
  - apply shape_put.
  - eapply (remove_level ns ns1); [done..| | ].
    + intros b Hb. apply lk_put_ne. congruence.
    + by eapply lk_put_eq.
Qed.

(** One turn of [splice] rewrites two links. *)
Lemma splice_step n ns A t B i a u f s v update rank :
  level_ok ns (A ++ B) i → pred_at A i a u → NoDup (ids (A ++ t :: B)) →
  update !! i = Some a → rank !! i = Some u → rank !! 0 = Some (length A) →
  lk ns a i = Some (f, s) → link_ok i (drop u A ++ B) f s → lk ns (tid t) i = Some v →
  splice (S n) i (tid t) ns update rank =
  splice n (i + 1) (tid t)
    (put (put ns (tid t) i (f, s - (length A - u))) a i (Some (tid t), length A - u + 1))
    update rank.
Proof.
  intros Hok Hp Hnd Hupd Hrk Hr0 Hlk Hl Hlt. pose proof Hp as (ku & hu & Hu & Hiu & Hnone).
  pose proof (link_ok_span_ge _ _ _ _ _ Hnone Hl) as Hge. rewrite length_drop in Hge.
  pose proof (pred_at_le _ _ _ _ Hp) as Hule. destruct v as [f0 s0].
  assert (Hne : a ≠ tid t).
  { intros E. eapply (stops_disjoint A (t :: B)); [done..|]. rewrite E. by left. }
  cbn [splice]. rewrite (index_Some _ _ _ Hupd). ret. rewrite (get_forward_lk _ _ _ _ _ Hlk). ret.
  rewrite (set_forward_lk _ _ _ _ _ _ Hlt). ret.
  rewrite (set_forward_lk _ a i f s) by (rewrite lk_put_ne by congruence; done). ret.
  rewrite (get_span_lk _ a i (Some (tid t)) s)
    by (eapply lk_put_eq; rewrite lk_put_ne by congruence; done). ret.
  rewrite (index_Some _ _ _ Hr0), (index_Some _ _ _ Hrk). ret.
  rewrite (sub_le (length A)) by done. ret. rewrite sub_le by done. ret.
  rewrite (set_span_lk _ (tid t) i f s0)
    by (rewrite lk_put_ne by congruence; by eapply lk_put_eq). ret.
  rewrite (set_span_lk _ a i (Some (tid t)) s)
    by (rewrite lk_put_ne by congruence; eapply lk_put_eq; rewrite lk_put_ne by congruence; done).
  ret. f_equal. rewrite (put_comm _ a (tid t)) by congruence.
  by rewrite !put_put.
Qed.

Lemma splice_spec n ns A t B i update rank :
  theight t = i + n →
  (∀ j, i ≤ j < i + n → level_ok ns (A ++ B) j) →
  preds_ok A (i + n) update rank → rank !! 0 = Some (length A) →
  NoDup (ids (A ++ t :: B)) → (shape <$> ns) !! tid t = Some (Some (tkey t), theight t, theight t) →
  ∃ ns', splice n i (tid t) ns update rank = Ret ns' ∧ levels_done ns ns' (A ++ t :: B) i n.
Proof.
  revert ns i. induction n as [|n IH]; intros ns i Hh Hok Hps Hr0 Hnd Hsh.
  { exists ns. split; [done|apply levels_done_0]. }
  destruct (Hps i) as (a & u & Hp & Hupd & Hrk); [lia|].
  assert (Hoki : level_ok ns (A ++ B) i) by (apply Hok; lia).
  destruct (pred_lk _ _ _ _ _ _ Hoki Hp) as (f & s & Hlk & Hl).
  destruct (shape_lookup _ _ _ _ i Hsh) as (f0 & s0 & Hlt); [lia|].
  rewrite (splice_step n _ _ _ _ _ _ _ _ _ _ _ _ Hoki Hp Hnd Hupd Hrk Hr0 Hlk Hl Hlt).
  set (ns1 := put _ _ _ _).
  assert (Hsame : ∀ j b, j ≠ i → lk ns1 b j = lk ns b j)
    by (intros; unfold ns1; rewrite !lk_put_ne by congruence; done).
  assert (Hs1 : shape <$> ns1 = shape <$> ns) by (unfold ns1; by rewrite !shape_put).
  destruct (IH ns1 (i + 1)) as (ns2 & -> & Hdone); [lia| | |done|done|by rewrite Hs1|].
  { intros j Hj. eapply level_ok_ext; [|apply Hok; lia]. intros b. apply Hsame. lia. }
  { by replace (i + 1 + n) with (i + S n) by lia. }
  exists ns2. split; [done|]. eapply levels_done_S; [exact Hs1| |exact Hsame|exact Hdone].
  assert (Hne : a ≠ tid t).
  { destruct Hp as (ku & hu & Hu & _). intros E.
    eapply (stops_disjoint A (t :: B)); [done..|]. rewrite E. by left. }
  eapply (insert_level ns ns1); [done..| | |].
  - intros b Hb Hbt. unfold ns1. by rewrite !lk_put_ne by congruence.
  - destruct (Nat.ltb_spec i (theight t)); [|lia]. eapply lk_put_eq. by rewrite lk_put_ne by congruence.
  - intros _. unfold ns1. rewrite lk_put_ne by congruence. by eapply lk_put_eq.
Qed.

Lemma widen_spec n ns A t B i update rank :
  theight t ≤ i →
  (∀ j, i ≤ j < i + n → level_ok ns (A ++ B) j) →
  preds_ok A (i + n) update rank → NoDup (ids (A ++ t :: B)) →
  ∃ ns', widen n i ns update = Ret ns' ∧ levels_done ns ns' (A ++ t :: B) i n.
Proof.
  revert ns i. induction n as [|n IH]; intros ns i Hh Hok Hps Hnd.
  { exists ns. split; [done|apply levels_done_0]. }
  destruct (Hps i) as (a & u & Hp & Hupd & _); [lia|].
  assert (Hoki : level_ok ns (A ++ B) i) by (apply Hok; lia).
  destruct (pred_lk _ _ _ _ _ _ Hoki Hp) as (f & s & Hlk & _).
  cbn [widen]. rewrite (index_Some _ _ _ Hupd). ret. rewrite (get_span_lk _ _ _ _ _ Hlk). ret.
  rewrite (set_span_lk _ _ _ _ _ _ Hlk). ret. set (ns1 := put _ _ _ _).
  assert (Hsame : ∀ j b, j ≠ i → lk ns1 b j = lk ns b j) by (intros; apply lk_put_ne; congruence).
  destruct (IH ns1 (i + 1)) as (ns2 & -> & Hdone); [lia| | |done|].
  { intros j Hj. eapply level_ok_ext; [|apply Hok; lia]. intros b. apply Hsame. lia. }
  { by replace (i + 1 + n) with (i + S n) by lia. }
  exists ns2. split; [done|].
  eapply levels_done_S; [apply shape_put| |exact Hsame|exact Hdone].
  eapply (insert_level ns ns1); [done..| | |lia].
  - intros b Hb _. apply lk_put_ne. congruence.
  - destruct (Nat.ltb_spec i (theight t)); [lia|]. by eapply lk_put_eq.
Qed.

(** ** The representation invariant *)

Definition shapes_ok (ns : list (SkipNode K)) (tw : list tower) : Prop :=
  ∀ q a k h, stops tw !! q = Some (a, k, h) → (shape <$> ns) !! a = Some (k, h, h).

Record repr (sl : SkipList K) (tw : list tower) : Prop := {
  r_shape : shapes_ok (nodes sl) tw;
  r_heights : Forall (λ t, 1 ≤ theight t ≤ S (level sl)) tw;
  r_level : level sl < SKIPLIST_MAXLEVEL;
  r_len : len sl = length tw;
  r_nodup : NoDup (ids tw ++ free sl);
  r_free : Forall (λ a, a < length (nodes sl)) (free sl);
  r_links : ∀ i, i ≤ level sl → level_ok (nodes sl) tw i;
  r_above : ∀ i, level sl < i < SKIPLIST_MAXLEVEL → ∃ s, lk (nodes sl) 0 i = Some (None, s);
  r_sorted : StronglySorted (cmp_lt cmp) (tkey <$> tw)
}.

Lemma repr_new : repr SkipList_new [].
Proof.
  split; try done.
  - intros [|q] a k h Hq; simplify_eq/=. done.
  - apply Nat.lt_0_succ.
  - simpl. apply NoDup_singleton.
  - intros i Hi [|q] a k h Hq Hh; simplify_eq/=.
    assert (i = 0) as -> by (simpl in Hi; lia). exists None, 0. split; [done|]. split; [done|simpl; lia].
  - intros i [_ Hi]. exists 0. apply lk_Some. exists (SkipNode_head SKIPLIST_MAXLEVEL).
    split_and!; [done|by apply lookup_replicate_2..].
  - constructor.
Qed.

Lemma ids_bound ns tw : shapes_ok ns tw → Forall (λ a, a < length ns) (ids tw).
Proof.
  intros Hs. apply Forall_lookup. intros q a Hq.
  assert (∃ k h, stops tw !! q = Some (a, k, h)) as (k & h & Hst).
  { unfold ids, stops in *. destruct q as [|q]; simpl in *; [simplify_eq; eauto|].
    rewrite list_lookup_fmap in Hq. rewrite list_lookup_fmap. destruct (tw !! q); simplify_eq/=. unfold stop. eauto. }
  specialize (Hs _ _ _ _ Hst). apply lookup_lt_Some in Hs. by rewrite length_fmap in Hs.
Qed.

(** Distinct nodes for distinct towers: there are more nodes than towers. *)
Lemma towers_fit ns tw : shapes_ok ns tw → NoDup (ids tw) → length tw < length ns.
Proof.
  intros Hs Hnd. pose proof (ids_bound _ _ Hs) as Hb. rewrite Forall_forall in Hb.
  assert (length (ids tw) ≤ length (seq 0 (length ns))) as Hl.
  { apply NoDup_incl_length; [by apply NoDup_ListNoDup|].
    intros a Ha%list_elem_of_In. apply list_elem_of_In, elem_of_seq. specialize (Hb a Ha). lia. }
  rewrite length_seq in Hl. unfold ids in Hl. simpl in Hl. rewrite length_fmap in Hl. lia.
Qed.

Lemma repr_ids sl tw : repr sl tw → NoDup (ids tw).
Proof. intros H. pose proof (r_nodup _ _ H) as Hn. by apply NoDup_app in Hn as (? & _). Qed.

(** At level 0 the last stop of [A] is its last element. *)
Lemma pred_at_0 A a u :
  pred_at A 0 a u → Forall (λ t, 1 ≤ theight t) A → u = length A.
Proof.
  intros Hp Hh. pose proof (pred_at_le _ _ _ _ Hp). destruct Hp as (k & h & _ & _ & Hn).
  rewrite nxt_None, Forall_forall in Hn. rewrite Forall_forall in Hh.
  destruct (decide (u = length A)); [done|]. exfalso.
  destruct (lookup_lt_is_Some_2 A u) as [t Ht]; [lia|].
  assert (t ∈ drop u A) by (apply list_elem_of_lookup; exists 0; by rewrite lookup_drop, Nat.add_0_r).
  assert (t ∈ A) by (apply list_elem_of_lookup; eauto).
  specialize (Hn t). specialize (Hh t). naive_solver lia.
Qed.

Lemma search_spec sl go A B :
  repr sl (A ++ B) → go_ok go A B →
  ∃ x update rank, search sl go = Ret (x, length A, update, rank) ∧
    length update = SKIPLIST_MAXLEVEL ∧ length rank = SKIPLIST_MAXLEVEL ∧
    preds_ok A (level sl + 1) update rank ∧ pred_at A 0 x (length A) ∧
    rank !! 0 = Some (length A).
Proof.
  intros Hr Hgo. pose proof (towers_fit _ _ (r_shape _ _ Hr) (repr_ids _ _ Hr)) as Hfit.
  rewrite length_app in Hfit. pose proof (r_level _ _ Hr) as Hlv.
  destruct (descend_spec (level sl + 1) go (nodes sl) A B 0 0 None SKIPLIST_MAXLEVEL
    (replicate SKIPLIST_MAXLEVEL 0) (replicate SKIPLIST_MAXLEVEL 0))
    as (x & u & upd & rk & E & Hl1 & Hl2 & Hps & H0 & _);
    [intros; apply (r_links _ _ Hr); lia|done|done|lia|lia|rewrite length_replicate; lia..|].
  rewrite length_replicate in Hl1, Hl2.
  assert (Hh : Forall (λ t, 1 ≤ theight t) A).
  { pose proof (r_heights _ _ Hr) as Hh. apply Forall_app in Hh as [Hh _].
    eapply Forall_impl; [exact Hh|]. simpl. lia. }
  specialize (H0 ltac:(lia)). pose proof (pred_at_0 _ _ _ H0 Hh) as ->.
  exists x, upd, rk. split_and!; try done.
  destruct (Hps 0) as (a & u & Hp & _ & ->); [lia|]. by rewrite (pred_at_0 _ _ _ Hp Hh).
Qed.

(** The node after the last stop of [A]. *)
Lemma next_at_0 sl A B x :
  repr sl (A ++ B) → pred_at A 0 x (length A) →
  get_forward (nodes sl) x 0 = Ret (tid <$> head B).
Proof.
  intros Hr Hp. destruct (pred_lk (nodes sl) A B 0 x (length A)) as (f & s & Hlk & Hl);
    [apply (r_links _ _ Hr); lia|done|].
  rewrite (get_forward_lk _ _ _ _ _ Hlk). rewrite drop_all in Hl. unfold link_ok in Hl. simpl in Hl.
  destruct B as [|t B]; simpl in *; [by destruct Hl as [-> _]|].
  pose proof (r_heights _ _ Hr) as Hh. apply Forall_app in Hh as [_ [Hh _]%Forall_cons].
  destruct (Nat.ltb_spec 0 (theight t)); [|lia]. by destruct Hl as [-> _].
Qed.

(** ** Insertion *)

Lemma random_level_bounds draws : 1 ≤ random_level draws ≤ SKIPLIST_MAXLEVEL.
Proof.
  unfold random_level. assert (∀ fuel n lvl, 1 ≤ lvl ≤ SKIPLIST_MAXLEVEL →
    1 ≤ random_level_loop fuel draws n lvl ≤ SKIPLIST_MAXLEVEL) as H;
    [|apply H; unfold SKIPLIST_MAXLEVEL; lia].
  induction fuel as [|fuel IH]; intros n lvl Hl; simpl; [done|].
  destruct (draws n); simpl; [|done]. destruct (Nat.ltb_spec lvl SKIPLIST_MAXLEVEL); [|done].
  apply IH. lia.
Qed.

Lemma key_go_ok ns A B k :
  shapes_ok ns (A ++ B) →
  Forall (λ t, cmp (tkey t) k = Lt) A → Forall (λ t, cmp (tkey t) k ≠ Lt) B →
  go_ok (λ next _, node_less cmp ns next k) A B.
Proof.
  intros Hs HA HB r a k' h Hr Hst. specialize (Hs _ _ _ _ Hst).
  rewrite list_lookup_fmap in Hs. destruct (ns !! a) as [nd|] eqn:E; [|done].
  unfold node_less. rewrite (index_Some _ _ _ E). cbn [mbind exec_bind].
  cbn in Hs. unfold shape in Hs. injection Hs as Hk _ _. rewrite Hk.
  destruct r as [|r]; [lia|]. simpl in Hst. rewrite list_lookup_fmap in Hst.
  destruct ((A ++ B) !! r) as [t|] eqn:Et; [|done]. cbn in Hst. unfold stop in Hst. injection Hst as Ha <- Hh.
  apply lookup_app_Some in Et as [Et|[Hlen Et]].
  - rewrite Forall_lookup in HA. rewrite (HA _ _ Et). apply lookup_lt_Some in Et.
    f_equal. symmetry. apply Nat.leb_le. lia.
  - rewrite Forall_lookup in HB. specialize (HB _ _ Et).
    replace (S r <=? length A) with false by (symmetry; apply Nat.leb_gt; lia).
    by destruct (cmp (tkey t) k).
Qed.

Lemma grow_spec n i ns update rank l :
  length update = SKIPLIST_MAXLEVEL → length rank = SKIPLIST_MAXLEVEL →
  i + n ≤ SKIPLIST_MAXLEVEL →
  (∀ j, i ≤ j < i + n → ∃ s, lk ns 0 j = Some (None, s)) →
  ∃ ns' update' rank', grow n i ns update rank l = Ret (ns', update', rank') ∧
    shape <$> ns' = shape <$> ns ∧
    (∀ j, i ≤ j < i + n →
      lk ns' 0 j = Some (None, l) ∧ update' !! j = Some 0 ∧ rank' !! j = Some 0) ∧
    (∀ j, ¬ (i ≤ j < i + n) →
      (∀ b, lk ns' b j = lk ns b j) ∧ update' !! j = update !! j ∧ rank' !! j = rank !! j).
Proof.
  revert i ns update rank. induction n as [|n IH]; intros i ns update rank Hu Hr Hle Hlk.
  { exists ns, update, rank. split_and!; try done. intros. lia. }
  destruct (Hlk i) as [s Hs]; [lia|].
  cbn [grow]. rewrite !assign_in by lia. cbn [mbind exec_bind].
  rewrite (set_span_lk _ _ _ _ _ _ Hs). cbn [mbind exec_bind].
  set (ns1 := put _ _ _ _).
  assert (Hsame : ∀ j b, j ≠ i → lk ns1 b j = lk ns b j) by (intros; apply lk_put_ne; congruence).
  destruct (IH (i + 1) ns1 (<[i := 0]> update) (<[i := 0]> rank))
    as (ns2 & upd & rk & -> & Hs2 & Hin & Hout); [by rewrite length_insert..|lia| |].
  { intros j Hj. destruct (Hlk j) as [s' Hs']; [lia|]. exists s'. rewrite Hsame by lia. done. }
  exists ns2, upd, rk. split_and!; [done|rewrite Hs2; apply shape_put| |].
  - intros j Hj. destruct (decide (j = i)) as [->|]; [|apply Hin; lia].
    destruct (Hout i ltac:(lia)) as (Hl & -> & ->). rewrite Hl.
    rewrite !list_lookup_insert_eq by lia. split_and!; [|done..]. by eapply lk_put_eq.
  - intros j Hj. destruct (Hout j ltac:(lia)) as (Hl & -> & ->).
    rewrite !list_lookup_insert_ne by lia. split_and!; [|done..].
    intros b. rewrite Hl. apply Hsame. lia.
Qed.

(** Above the level in use there is only the head. *)
Lemma level_ok_top ns tw i s :
  Forall (λ t, theight t ≤ i) tw → lk ns 0 i = Some (None, s) →
  length tw ≤ s ≤ S (length tw) → level_ok ns tw i.
Proof.
  intros Hh Hlk Hs q a k h Hq Hi. destruct q as [|q]; simpl in Hq.
  - simplify_eq. exists None, s. split; [done|]. unfold link_ok. rewrite drop_0.
    by rewrite (proj2 (nxt_None i tw) Hh).
  - rewrite list_lookup_fmap in Hq. destruct (tw !! q) as [t|] eqn:E; simplify_eq/=.
    unfold stop in Hq. simplify_eq. rewrite Forall_lookup in Hh. specialize (Hh _ _ E). lia.
Qed.

(** Bringing levels into use keeps the invariant. *)
Lemma grow_repr sl A B update rank lvl :
  repr sl (A ++ B) → lvl ≤ SKIPLIST_MAXLEVEL →
  length update = SKIPLIST_MAXLEVEL → length rank = SKIPLIST_MAXLEVEL →
  preds_ok A (level sl + 1) update rank → rank !! 0 = Some (length A) →
  let lv := if level sl <? lvl - 1 then lvl - 1 else level sl in
  ∃ ns update' rank',
    (if level sl <? lvl - 1
     then grow (lvl - (level sl + 1)) (level sl + 1) (nodes sl) update rank (len sl)
     else Ret (nodes sl, update, rank)) = Ret (ns, update', rank') ∧
    repr (mkSkipList ns (free sl) lv (len sl)) (A ++ B) ∧
    preds_ok A (lv + 1) update' rank' ∧ rank' !! 0 = Some (length A).
Proof.
  intros Hr Hlvl Hu Hrk Hps H0 lv. subst lv. destruct (Nat.ltb_spec (level sl) (lvl - 1)) as [Hlt|Hge].
  2:{ exists (nodes sl), update, rank. split_and!; [done| |done|done]. by destruct sl. }
  destruct (grow_spec (lvl - (level sl + 1)) (level sl + 1) (nodes sl) update rank (len sl))
    as (ns & upd & rk & -> & Hsh & Hin & Hout); [done|done|lia| |].
  { intros j Hj. apply (r_above _ _ Hr). lia. }
  assert (Hheights : ∀ i, level sl < i → Forall (λ t, theight t ≤ i) (A ++ B)).
  { intros i Hi. eapply Forall_impl; [exact (r_heights _ _ Hr)|]. simpl. lia. }
  assert (Hlenns : length ns = length (nodes sl)).
  { by rewrite <- (length_fmap shape ns), Hsh, length_fmap. }
  exists ns, upd, rk. split_and!; [done| | |].
  - split; simpl; try apply Hr.
    + intros q a k h Hq. rewrite Hsh. by apply (r_shape _ _ Hr q).
    + eapply Forall_impl; [exact (r_heights _ _ Hr)|]. simpl. lia.
    + lia.
    + rewrite Hlenns. apply Hr.
    + intros i Hi. destruct (decide (i ≤ level sl)).
      * eapply level_ok_ext; [|by apply (r_links _ _ Hr)]. apply Hout. lia.
      * destruct (Hin i) as (Hlk & _); [lia|]. eapply level_ok_top; [apply Hheights; lia|done|].
        rewrite (r_len _ _ Hr). lia.
    + intros i Hi. destruct (r_above _ _ Hr i) as [s Hs]; [lia|]. exists s.
      destruct (Hout i ltac:(lia)) as [-> _]. done.
  - intros j Hj. destruct (decide (j ≤ level sl)).
    + destruct (Hps j) as (a & u & Hp & Ha & Hb); [lia|]. exists a, u.
      destruct (Hout j ltac:(lia)) as (_ & -> & ->). done.
    + destruct (Hin j) as (_ & Ha & Hb); [lia|]. exists 0, 0. split_and!; [|done..].
      exists None, SKIPLIST_MAXLEVEL. split_and!; [done|lia|]. rewrite drop_0. apply nxt_None.
      specialize (Hheights j ltac:(lia)). by apply Forall_app in Hheights as [? _].
  - destruct (Hout 0 ltac:(lia)) as (_ & _ & ->). done.
Qed.

(** A slot for the new node: from the free list, or a new one at the end. *)
Lemma alloc_spec sl tw k lvl :
  repr sl tw →
  ∃ ns fr idx, alloc_node sl k lvl = Ret (mkSkipList ns fr (level sl) (len sl), idx) ∧
    ns !! idx = Some (SkipNode_new k lvl) ∧ (∀ b, b ∈ ids tw → ns !! b = nodes sl !! b) ∧
    (idx ∉ ids tw) ∧ NoDup (ids tw ++ idx :: fr) ∧ Forall (λ a, a < length ns) fr.
Proof.
  intros Hr. pose proof (r_nodup _ _ Hr) as Hnd. pose proof (r_free _ _ Hr) as Hfr.
  unfold alloc_node. destruct (last (free sl)) as [idx|] eqn:El.
  - apply last_Some in El as [fr El]. rewrite El in *. apply Forall_app in Hfr as [Hfr Hidx].
    apply Forall_cons in Hidx as [Hidx _]. rewrite assign_in by lia. cbn [mbind exec_bind].
    rewrite length_app. cbn [length]. replace (length fr + 1 - 1) with (length fr) by lia.
    rewrite take_app_length. rewrite (app_assoc (ids tw)), NoDup_app in Hnd.
    destruct Hnd as (Hnd & Hd & _).
    assert (Hni : idx ∉ ids tw ++ fr).
    { intros Hin. apply (Hd idx); [done|]. by apply list_elem_of_singleton. }
    rewrite not_elem_of_app in Hni. destruct Hni as [Hni Hnf].
    exists (<[idx := SkipNode_new k lvl]> (nodes sl)), fr, idx.
    split_and!; [done|by apply list_lookup_insert_eq| |done| |].
    + intros b Hb. apply list_lookup_insert_ne. intros ->. done.
    + apply NoDup_app in Hnd as (Hi & Hdf & Hf). apply NoDup_app. split_and!; [done| |].
      * intros b Hb. rewrite not_elem_of_cons. split; [|by apply Hdf]. intros ->. done.
      * by apply NoDup_cons.
    + by rewrite length_insert.
  - apply last_None in El. rewrite El in *. rewrite app_nil_r in Hnd.
    pose proof (ids_bound _ _ (r_shape _ _ Hr)) as Hb. rewrite Forall_forall in Hb.
    assert (Hni : length (nodes sl) ∉ ids tw) by (intros Hin; specialize (Hb _ Hin); lia).
    exists (nodes sl ++ [SkipNode_new k lvl]), [], (length (nodes sl)).
    split_and!; [done|by apply list_lookup_middle| |done| |done].
    + intros b Hin. rewrite lookup_app_l; [done|]. by apply Hb.
    + apply NoDup_app. split_and!; [done| |apply NoDup_singleton].
      intros b Hin. rewrite list_elem_of_singleton. intros ->. done.
Qed.

Lemma lk_ext ns ns' b i : ns' !! b = ns !! b → lk ns' b i = lk ns b i.
Proof. unfold lk. by intros ->. Qed.

Lemma stops_in_ids tw q a k h : stops tw !! q = Some (a, k, h) → a ∈ ids tw.
Proof. intros. eapply list_elem_of_lookup_2. by eapply stops_ids. Qed.

Lemma level_ok_same ns ns' tw i :
  (∀ b, b ∈ ids tw → ns' !! b = ns !! b) → level_ok ns tw i → level_ok ns' tw i.
Proof.
  intros Hs Hok q a k h Hq Hi. rewrite (lk_ext ns ns') by (eapply Hs, stops_in_ids; done).
  by apply (Hok q a k h).
Qed.

Lemma sorted_middle (A B : list tower) t k :
  StronglySorted (cmp_lt cmp) (tkey <$> (A ++ B)) → tkey t = k →
  Forall (λ t, cmp (tkey t) k = Lt) A → Forall (λ t, cmp k (tkey t) = Lt) B →
  StronglySorted (cmp_lt cmp) (tkey <$> (A ++ t :: B)).
Proof.
  intros Hs <- HA HB. induction A as [|a A IH]; simpl in *.
  - constructor; [done|]. by apply Forall_fmap.
  - apply StronglySorted_inv in Hs as [Hs Ha]. apply Forall_cons in HA as [Hat HA].
    constructor; [by apply IH|]. rewrite fmap_app in Ha |- *. apply Forall_app in Ha as [Ha1 Ha2].
    apply Forall_app. split; [done|]. by constructor.
Qed.

Lemma stops_insert_inv A B t q x :
  stops (A ++ t :: B) !! q = Some x → stop t = x ∨ ∃ q', stops (A ++ B) !! q' = Some x.
Proof.
  rewrite !stops_app. intros [Hq|[Hl Hq]]%lookup_app_Some.
  - right. exists q. by apply lookup_app_l_Some.
  - destruct (q - length (stops A)) as [|r]; simpl in Hq; [left; congruence|].
    right. exists (length (stops A) + r). rewrite lookup_app_r by lia.
    by replace (length (stops A) + r - length (stops A)) with r by lia.
Qed.

Lemma stops_remove_incl A B t q x :
  stops (A ++ B) !! q = Some x → ∃ q', stops (A ++ t :: B) !! q' = Some x.
Proof.
  rewrite !stops_app. intros [Hq|[Hl Hq]]%lookup_app_Some.
  - exists q. by apply lookup_app_l_Some.
  - exists (S q). rewrite lookup_app_r by lia.
    by replace (S q - length (stops A)) with (S (q - length (stops A))) by lia.
Qed.

(** The pieces of an insertion put together, after the levels have grown. *)
Lemma insert_repr sl A B k lvl update rank :
  repr sl (A ++ B) → 1 ≤ lvl ≤ S (level sl) →
  preds_ok A (level sl + 1) update rank → rank !! 0 = Some (length A) →
  Forall (λ t, cmp (tkey t) k = Lt) A → Forall (λ t, cmp k (tkey t) = Lt) B →
  ∃ sl1 idx ns1 ns2, alloc_node sl k lvl = Ret (sl1, idx) ∧
    splice lvl 0 idx (nodes sl1) update rank = Ret ns1 ∧
    widen (level sl + 1 - lvl) lvl ns1 update = Ret ns2 ∧
    repr (mkSkipList ns2 (free sl1) (level sl) (len sl1 + 1)) (A ++ Tower idx k lvl :: B).
Proof.
  intros Hr Hlvl Hps H0 HA HB.
  destruct (alloc_spec sl (A ++ B) k lvl Hr) as (ns & fr & idx & -> & Hidx & Hsame & Hni & Hnd & Hfr).
  set (t := Tower idx k lvl).
  assert (Hperm : ids (A ++ t :: B) ++ fr ≡ₚ ids (A ++ B) ++ idx :: fr).
  { rewrite !ids_app. change (tid <$> t :: B) with (idx :: (tid <$> B)).
    rewrite <- !app_assoc. apply Permutation_app_head. simpl. apply Permutation_middle. }
  assert (Hnd2 : NoDup (ids (A ++ t :: B) ++ fr)) by by rewrite Hperm.
  pose proof Hnd2 as (Hndi & _)%NoDup_app.
  destruct (splice_spec lvl ns A t B 0 update rank) as (ns1 & E1 & Hs1 & Hok1 & Hout1);
    [done| | |done|done| |].
  { intros j Hj. eapply level_ok_same, (r_links _ _ Hr); [done|lia]. }
  { intros j Hj. apply Hps. lia. }
  { rewrite list_lookup_fmap. simpl. rewrite Hidx. simpl. unfold shape. simpl.
    by rewrite !length_replicate. }
  destruct (widen_spec (level sl + 1 - lvl) ns1 A t B lvl update rank)
    as (ns2 & E2 & Hs2 & Hok2 & Hout2); [done| | |done|].
  { intros j Hj. eapply level_ok_ext; [intros b; apply Hout1; lia|].
    eapply level_ok_same, (r_links _ _ Hr); [done|lia]. }
  { by replace (lvl + (level sl + 1 - lvl)) with (level sl + 1) by lia. }
  exists (mkSkipList ns fr (level sl) (len sl)), idx, ns1, ns2. split_and!; [done..|].
  assert (Hsh : shape <$> ns2 = shape <$> ns) by congruence.
  split; simpl.
  - intros q a k' h Hq. rewrite Hsh. rewrite list_lookup_fmap.
    destruct (stops_insert_inv _ _ _ _ _ Hq) as [[= <- <- <-]|[q' Hq']].
    + rewrite Hidx. simpl. unfold shape. simpl. by rewrite !length_replicate.
    + rewrite Hsame by by eapply stops_in_ids. rewrite <- list_lookup_fmap.
      by apply (r_shape _ _ Hr q').
  - pose proof (r_heights _ _ Hr) as Hh. apply Forall_app in Hh as [??].
    apply Forall_app. split; [done|]. by constructor.
  - apply Hr.
  - rewrite (r_len _ _ Hr), !length_app. simpl. lia.
  - done.
  - replace (length ns2) with (length ns) by (rewrite <- (length_fmap shape ns2), Hsh; by rewrite length_fmap).
    done.
  - intros i Hi. destruct (decide (i < lvl)).
    + eapply level_ok_ext; [intros b; apply Hout2; lia|]. apply Hok1. lia.
    + apply Hok2. lia.
  - intros i Hi. destruct (r_above _ _ Hr i Hi) as [s Hs]. exists s.
    rewrite Hout2, Hout1 by lia. rewrite (lk_ext (nodes sl)); [done|]. apply Hsame. by left.
  - by apply (sorted_middle A B t k); [apply Hr|..].
Qed.

(** ** The sorted list of keys *)

(** How many keys come before [k]. *)
Fixpoint lower (k : K) (l : list K) : nat :=
  match l with
  | [] => 0
  | x :: l' => match cmp x k with Lt => S (lower k l') | _ => 0 end
  end.

Fixpoint insert_sorted (k : K) (l : list K) : list K :=
  match l with
  | [] => [k]
  | x :: l' => match cmp x k with Lt => x :: insert_sorted k l' | _ => k :: l end
  end.

Definition same_key (k x : K) : Prop := cmp x k = Eq.

#[global] Instance same_key_dec k x : Decision (same_key k x).
Proof. unfold same_key. solve_decision. Defined.

(** [SkipList] [sl] holds the keys [l]. *)
Definition holds (sl : SkipList K) (l : list K) : Prop := ∃ tw, repr sl tw ∧ tkey <$> tw = l.

Lemma holds_sorted sl l : holds sl l → StronglySorted (cmp_lt cmp) l.
Proof. intros (tw & Hr & <-). apply Hr. Qed.

(** The towers before [k] and those from [k] on. *)
Lemma split_towers tw k :
  StronglySorted (cmp_lt cmp) (tkey <$> tw) →
  ∃ A B, tw = A ++ B ∧ length A = lower k (tkey <$> tw) ∧
    Forall (λ t, cmp (tkey t) k = Lt) A ∧ Forall (λ t, cmp (tkey t) k ≠ Lt) B.
Proof.
  induction tw as [|t tw IH]; intros Hs; [by exists [], []|].
  simpl in Hs. apply StronglySorted_inv in Hs as [Hs Ht]. simpl.
  destruct (cmp (tkey t) k) eqn:E.
  2:{ destruct (IH Hs) as (A & B & -> & Hl & HA & HB). exists (t :: A), B.
      split_and!; [done|simpl; by rewrite Hl| |done]. by constructor. }
  all: exists [], (t :: tw); split_and!; [done|done|constructor|].
  all: constructor; [congruence|]; rewrite Forall_fmap in Ht.
  all: eapply Forall_impl; [exact Ht|]; intros t' Hlt Hk; unfold compose, cmp_lt in Hlt.
  all: rewrite (cmp_lt_trans cmp _ _ _ Hlt Hk) in E; done.
Qed.

Lemma insert_sorted_app (A B : list tower) k :
  Forall (λ t, cmp (tkey t) k = Lt) A → Forall (λ t, cmp (tkey t) k ≠ Lt) B →
  insert_sorted k (tkey <$> (A ++ B)) = (tkey <$> A) ++ k :: (tkey <$> B).
Proof.
  intros HA HB. induction HA as [|t A Ht HA IH]; simpl.
  - destruct B as [|t B]; simpl; [done|]. apply Forall_cons in HB as [Ht _].
    by destruct (cmp (tkey t) k).
  - rewrite Ht. by f_equal.
Qed.

Lemma insert_holds sl l k draws :
  holds sl l → Forall (λ x, cmp x k ≠ Eq) l →
  ∃ sl', insert cmp sl k draws = Ret sl' ∧ holds sl' (insert_sorted k l).
Proof.
  intros (tw & Hr & <-) Hne.
  destruct (split_towers tw k (r_sorted _ _ Hr)) as (A & B & -> & Hlen & HA & HB).
  pose proof (key_go_ok _ _ _ _ (r_shape _ _ Hr) HA HB) as Hgo.
  destruct (search_spec _ _ _ _ Hr Hgo) as (x & upd & rk & E1 & Hu & Hrk & Hps & _ & H0).
  unfold insert. rewrite E1. cbn [mbind exec_bind].
  pose proof (random_level_bounds draws) as Hlvl. set (lvl := random_level draws) in *.
  destruct (grow_repr sl A B upd rk lvl Hr (proj2 Hlvl) Hu Hrk Hps H0)
    as (ns & upd' & rk' & -> & Hr' & Hps' & H0'). cbn [mbind exec_bind].
  set (lv := if level sl <? lvl - 1 then lvl - 1 else level sl) in *.
  assert (Hlt : Forall (λ t, cmp k (tkey t) = Lt) B).
  { rewrite fmap_app, Forall_app in Hne. destruct Hne as [_ Hne]. rewrite Forall_fmap in Hne.
    rewrite Forall_forall in HB, Hne |- *. intros t Hin. specialize (HB t Hin). specialize (Hne t Hin).
    apply cmp_lt_gt; [done|]. unfold compose in Hne. by destruct (cmp (tkey t) k). }
  destruct (insert_repr _ A B k lvl upd' rk' Hr') as (sl1 & idx & ns1 & ns2 & Ea & Es & Ew & Hr2);
    [|done|done|done|done|].
  { simpl. unfold lv. destruct (Nat.ltb_spec (level sl) (lvl - 1)); lia. }
  rewrite Ea. cbn [mbind exec_bind]. rewrite Es. cbn [mbind exec_bind]. simpl in Ew. rewrite Ew.
  cbn [mbind exec_bind]. eexists. split; [done|]. exists (A ++ Tower idx k lvl :: B). split; [done|].
  rewrite insert_sorted_app by done. by rewrite fmap_app.
Qed.

(** ** Removal *)

Lemma shrink_spec lv ns tw :
  (∀ i, i ≤ lv → level_ok ns tw i) → Forall (λ t, theight t ≤ S lv) tw → lv < SKIPLIST_MAXLEVEL →
  ∃ lv', shrink lv ns = Ret lv' ∧ lv' ≤ lv ∧ Forall (λ t, theight t ≤ S lv') tw ∧
    (∀ i, lv' < i ≤ lv → ∃ s, lk ns 0 i = Some (None, s)).
Proof.
  induction lv as [|lv IH]; intros Hok Hh Hlv; [exists 0; split_and!; [done|done|done|intros; lia]|].
  destruct (Hok (S lv) (le_n _) 0 0 None SKIPLIST_MAXLEVEL) as (f & s & Hlk & Hl); [done|lia|].
  cbn [shrink]. rewrite (get_forward_lk _ _ _ _ _ Hlk). cbn [mbind exec_bind].
  unfold link_ok in Hl. rewrite drop_0 in Hl.
  destruct (nxt (S lv) tw) as [[d b]|] eqn:E.
  - destruct Hl as [-> _]. exists (S lv). split_and!; [done|done|done|intros; lia].
  - destruct Hl as [-> _]. apply nxt_None in E.
    destruct IH as (lv' & -> & Hle & Hh' & Hab); [intros; apply Hok; lia|done|lia|].
    exists lv'. split_and!; [done|lia|done|]. intros i Hi.
    destruct (decide (i = S lv)) as [->|]; [by exists s|]. apply Hab. lia.
Qed.

Lemma sorted_drop_middle (A B : list tower) t :
  StronglySorted (cmp_lt cmp) (tkey <$> (A ++ t :: B)) →
  StronglySorted (cmp_lt cmp) (tkey <$> (A ++ B)).
Proof.
  induction A as [|a A IH]; simpl; intros [Hs Ha]%StronglySorted_inv; [done|].
  constructor; [by apply IH|]. rewrite fmap_app in Ha |- *. simpl in Ha.
  apply Forall_app in Ha as [? [_ ?]%Forall_cons]. apply Forall_app. done.
Qed.

Lemma remove_repr sl A t B update rank :
  repr sl (A ++ t :: B) → preds_ok A (level sl + 1) update rank →
  ∃ ns sl1 lv, unsplice (level sl + 1) 0 (tid t) (nodes sl) update = Ret ns ∧
    free_node (mkSkipList ns (free sl) (level sl) (len sl)) (tid t) = Ret sl1 ∧
    shrink (level sl1) (nodes sl1) = Ret lv ∧
    repr (mkSkipList (nodes sl1) (free sl1) lv (len sl1 - 1)) (A ++ B).
Proof.
  intros Hr Hps. pose proof (repr_ids _ _ Hr) as Hnd.
  destruct (unsplice_spec (level sl + 1) (nodes sl) A t B 0 update rank)
    as (ns & E & Hsh & Hok & Hout); [intros; apply (r_links _ _ Hr); lia|done|done|].
  exists ns. rewrite E. unfold free_node. simpl.
  assert (Hlen : length ns = length (nodes sl))
    by (rewrite <- (length_fmap shape ns), Hsh; by rewrite length_fmap).
  assert (Hin : tid t ∈ ids (A ++ t :: B)).
  { rewrite ids_app. apply elem_of_app. right. by left. }
  assert (Ht : tid t < length ns).
  { rewrite Hlen. pose proof (ids_bound _ _ (r_shape _ _ Hr)) as Hb.
    rewrite Forall_forall in Hb. by apply Hb. }
  rewrite assign_in by done. cbn [mbind exec_bind].
  set (ns1 := <[tid t := SkipNode_head 1]> ns).
  assert (Hperm : ids (A ++ t :: B) ≡ₚ tid t :: ids (A ++ B)).
  { rewrite !ids_app. simpl. rewrite <- Permutation_middle. constructor. }
  pose proof Hnd as Hnd'. rewrite Hperm in Hnd'. apply NoDup_cons in Hnd' as [Hni Hnd'].
  assert (Hsame : ∀ b, b ∈ ids (A ++ B) → ns1 !! b = ns !! b).
  { intros b Hb. apply list_lookup_insert_ne. intros <-. done. }
  assert (Hh : Forall (λ t, 1 ≤ theight t ≤ S (level sl)) (A ++ B)).
  { pose proof (r_heights _ _ Hr) as Hh. apply Forall_app in Hh as [? [_ ?]%Forall_cons].
    by apply Forall_app. }
  assert (Hok1 : ∀ i, i ≤ level sl → level_ok ns1 (A ++ B) i).
  { intros i Hi. eapply level_ok_same; [done|]. apply Hok. lia. }
  destruct (shrink_spec (level sl) ns1 (A ++ B)) as (lv & Elv & Hle & Hh' & Hab);
    [done|eapply Forall_impl; [exact Hh|]; simpl; lia|apply Hr|].
  exists (mkSkipList ns1 (free sl ++ [tid t]) (level sl) (len sl)), lv. split_and!; [done..|].
  split; simpl.
  - intros q a k h Hq. rewrite list_lookup_fmap, Hsame by by eapply stops_in_ids.
    rewrite <- list_lookup_fmap, Hsh.
    destruct (stops_remove_incl A B t _ _ Hq) as [q' Hq']. by apply (r_shape _ _ Hr q').
  - rewrite Forall_forall in Hh, Hh' |- *. intros t' Hin'. specialize (Hh t' Hin').
    specialize (Hh' t' Hin'). lia.
  - pose proof (r_level _ _ Hr). lia.
  - rewrite (r_len _ _ Hr), !length_app. simpl. lia.
  - pose proof (r_nodup _ _ Hr) as Hn. rewrite Hperm in Hn. cbn [app] in Hn.
    by rewrite Permutation_cons_append, <- (app_assoc (ids _)) in Hn.
  - unfold ns1. rewrite length_insert, Hlen. apply Forall_app. split; [apply Hr|].
    constructor; [lia|done].
  - intros i Hi. apply Hok1. lia.
  - intros i Hi. destruct (decide (i ≤ level sl)); [apply Hab; lia|].
    destruct (r_above _ _ Hr i) as [s Hs]; [lia|]. exists s.
    rewrite (lk_ext ns) by (apply Hsame; by left). rewrite Hout by lia. done.
  - eapply sorted_drop_middle, Hr.
Qed.

(** ** Access by rank and iteration *)

Lemma node_key sl tw q t :
  repr sl tw → tw !! q = Some t →
  ∃ nd, nodes sl !! tid t = Some nd ∧ key nd = Some (tkey t).
Proof.
  intros Hr Ht. pose proof (r_shape _ _ Hr (S q) (tid t) (Some (tkey t)) (theight t)) as Hs.
  simpl in Hs. rewrite !list_lookup_fmap, Ht in Hs. specialize (Hs eq_refl).
  destruct (nodes sl !! tid t) as [nd|]; [|done]. exists nd. split; [done|].
  cbn in Hs. unfold shape in Hs. congruence.
Qed.

Lemma get_by_rank_holds sl l r : holds sl l → get_by_rank sl r = Ret (l !! r).
Proof.
  intros (tw & Hr & <-). unfold get_by_rank. rewrite (r_len _ _ Hr).
  destruct (Nat.leb_spec (length tw) r) as [Hle|Hlt].
  { rewrite lookup_ge_None_2; [done|]. by rewrite length_fmap. }
  assert (Hlen : length (take (r + 1) tw) = r + 1) by (rewrite length_take; lia).
  rewrite <- (take_drop (r + 1) tw) in Hr.
  destruct (search_spec _ (λ _ acc, Ret (acc <=? r + 1)) _ _ Hr)
    as (x & upd & rk & E & _ & _ & _ & (k & h & Hx & _) & _).
  { intros r' a k h _ _. by rewrite Hlen. }
  rewrite E. cbn [mbind exec_bind]. rewrite Hlen in Hx.
  change (stops (take (r + 1) tw) !! (r + 1) = Some (x, k, h)) in Hx.
  set (A := take (r + 1) tw) in *. rewrite Nat.add_1_r in Hx. simpl in Hx.
  rewrite list_lookup_fmap in Hx. destruct (A !! r) as [t|] eqn:Et; [|done].
  cbn in Hx. unfold stop in Hx. simplify_eq.
  destruct (node_key sl _ r t Hr) as (nd & Hnd & Hk); [by apply lookup_app_l_Some|].
  rewrite (index_Some _ _ _ Hnd). cbn [mbind exec_bind]. rewrite Hk.
  unfold A in Et. rewrite lookup_take_lt in Et by lia. by rewrite list_lookup_fmap, Et.
Qed.

Lemma pred_at_last A t : 1 ≤ theight t → pred_at (A ++ [t]) 0 (tid t) (S (length A)).
Proof.
  intros Hh. exists (Some (tkey t)), (theight t). split_and!; [|lia|].
  - rewrite stops_app, lookup_app_r by (rewrite stops_length; lia).
    by rewrite stops_length, Nat.sub_diag.
  - by rewrite drop_ge by (rewrite length_app; simpl; lia).
Qed.

Lemma iter_from_spec fuel sl A B :
  repr sl (A ++ B) → length B ≤ fuel →
  iter_from fuel (nodes sl) (tid <$> head B) = Ret (tkey <$> B).
Proof.
  revert A B. induction fuel as [|fuel IH]; intros A B Hr Hf.
  { destruct B; [done|]. simpl in Hf. lia. }
  destruct B as [|t B]; [done|]. change (tid <$> head (t :: B)) with (Some (tid t)).
  destruct (node_key sl _ (length A) t Hr) as (nd & Hnd & Hk); [by apply list_lookup_middle|].
  cbn [iter_from]. rewrite (index_Some _ _ _ Hnd). cbn [mbind exec_bind]. rewrite Hk.
  rewrite cons_middle, app_assoc in Hr.
  assert (Hh : 1 ≤ theight t).
  { pose proof (r_heights _ _ Hr) as Hh. apply Forall_app in Hh as [[_ [Hh _]%Forall_cons]%Forall_app _].
    lia. }
  pose proof (pred_at_last A t Hh) as Hp.
  replace (S (length A)) with (length (A ++ [t])) in Hp by (rewrite length_app; simpl; lia).
  rewrite (next_at_0 _ _ _ _ Hr Hp). cbn [mbind exec_bind].
  rewrite (IH (A ++ [t]) B Hr) by (simpl in Hf; lia). done.
Qed.

Lemma iter_keys_holds sl l : holds sl l → iter_keys sl = Ret l.
Proof.
  intros (tw & Hr & <-). unfold iter_keys.
  assert (pred_at [] 0 0 (length (@nil tower))) as Hp.
  { exists None, SKIPLIST_MAXLEVEL. split_and!; [done|unfold SKIPLIST_MAXLEVEL; lia|done]. }
  rewrite (next_at_0 sl [] tw 0 Hr Hp). cbn [mbind exec_bind].
  apply (iter_from_spec _ _ []); [done|].
  pose proof (towers_fit _ _ (r_shape _ _ Hr) (repr_ids _ _ Hr)). lia.
Qed.

Lemma holds_len sl l : holds sl l → len sl = length l.
Proof. intros (tw & Hr & <-). rewrite length_fmap. apply Hr. Qed.

Lemma holds_new : holds SkipList_new [].
Proof. exists []. split; [apply repr_new|done]. Qed.

(** ** Finding a key *)

  Context (eqb : K → K → bool) (eqb_cmp : ∀ x y, eqb x y = true ↔ cmp x y = Eq).

(** The towers from [k] on: the first is [k] or none is. *)
Lemma from_key (B : list tower) k :
  StronglySorted (cmp_lt cmp) (tkey <$> B) → Forall (λ t, cmp (tkey t) k ≠ Lt) B →
  match B with
  | [] => True
  | t :: B' => Forall (λ t', cmp (tkey t') k ≠ Eq) B' ∧ (cmp (tkey t) k ≠ Eq → cmp (tkey t) k = Gt)
  end.
Proof.
  destruct B as [|t B]; [done|]. simpl. intros [_ Hs]%StronglySorted_inv [Ht _]%Forall_cons. split.
  - rewrite Forall_fmap in Hs. eapply Forall_impl; [exact Hs|]. intros t' Hlt E.
    unfold compose, cmp_lt in Hlt. rewrite (cmp_eq_r cmp _ _ _ E) in Hlt. done.
  - by destruct (cmp (tkey t) k).
Qed.

Lemma key_is_spec sl A t B k :
  repr sl (A ++ t :: B) → key_is eqb (nodes sl) (tid t) k = Ret (eqb (tkey t) k).
Proof.
  intros Hr. pose proof (r_shape _ _ Hr (S (length A)) (tid t) (Some (tkey t)) (theight t)) as Hs.
  rewrite list_lookup_fmap in Hs. unfold key_is, index.
  destruct (nodes sl !! tid t) as [nd|].
  - simpl in *. unfold shape in Hs. rewrite list_lookup_fmap, list_lookup_middle in Hs by done.
    specialize (Hs eq_refl). injection Hs as -> _ _. done.
  - simpl in Hs. rewrite list_lookup_fmap, list_lookup_middle in Hs by done. by specialize (Hs eq_refl).
Qed.

Lemma eqb_dec x k : eqb x k = bool_decide (same_key k x).
Proof.
  unfold same_key. case_bool_decide as H.
  - by apply eqb_cmp.
  - destruct (eqb x k) eqn:E; [|done]. by apply eqb_cmp in E.
Qed.

Lemma filter_all_keys (A : list tower) k :
  Forall (λ t, cmp (tkey t) k ≠ Eq) A →
  filter (λ x, ¬ same_key k x) (tkey <$> A) = tkey <$> A.
Proof.
  intros HA. induction HA as [|t A Ht HA IH]; [done|]. rewrite fmap_cons, filter_cons, IH.
  by rewrite decide_True by done.
Qed.

Lemma remove_holds sl l k :
  holds sl l →
  ∃ sl', remove cmp eqb sl k = Ret (sl', bool_decide (Exists (same_key k) l)) ∧
    holds sl' (filter (λ x, ¬ same_key k x) l).
Proof.
  intros (tw & Hr & <-).
  destruct (split_towers tw k (r_sorted _ _ Hr)) as (A & B & -> & Hlen & HA & HB).
  pose proof (key_go_ok _ _ _ _ (r_shape _ _ Hr) HA HB) as Hgo.
  destruct (search_spec _ _ _ _ Hr Hgo) as (x & upd & rk & E1 & _ & _ & Hps & Hx & _).
  assert (HA' : Forall (λ t, cmp (tkey t) k ≠ Eq) A)
    by (eapply Forall_impl; [exact HA|]; simpl; congruence).
  pose proof (r_sorted _ _ Hr) as Hsrt. rewrite fmap_app in Hsrt. apply StronglySorted_app_1_r in Hsrt.
  pose proof (from_key B k Hsrt HB) as HB'.
  unfold remove. rewrite E1. cbn [mbind exec_bind].
  rewrite (next_at_0 _ _ _ _ Hr Hx). cbn [mbind exec_bind].
  assert (Hno : Forall (λ t, cmp (tkey t) k ≠ Eq) B →
    Ret (sl, false) = Ret (sl, bool_decide (Exists (same_key k) (tkey <$> (A ++ B)))) ∧
    holds sl (filter (λ x, ¬ same_key k x) (tkey <$> (A ++ B)))).
  { intros HBn. assert (HAB : Forall (λ t, cmp (tkey t) k ≠ Eq) (A ++ B)) by by apply Forall_app.
    split; [|rewrite filter_all_keys by done; by exists (A ++ B)].
    rewrite bool_decide_false; [done|]. apply Forall_not_Exists. by apply Forall_fmap. }
  destruct B as [|t B]; [|change (tid <$> head (t :: B)) with (Some (tid t)); cbv iota beta].
  { exists sl. by apply Hno. }
  rewrite (key_is_spec _ _ _ _ _ Hr). cbn [mbind exec_bind]. rewrite eqb_dec.
  destruct HB' as [HBn Hgt]. destruct (bool_decide_reflect (same_key k (tkey t))) as [Hk|Hk].
  - destruct (remove_repr _ _ _ _ _ _ Hr Hps) as (ns & sl1 & lv & -> & E2 & E3 & Hr').
    cbn [mbind exec_bind]. rewrite E2. cbn [mbind exec_bind]. rewrite E3. cbn [mbind exec_bind].
    eexists. split.
    + rewrite bool_decide_true; [done|]. rewrite fmap_app. apply Exists_app. right. by left.
    + exists (A ++ B). split; [done|]. rewrite !fmap_app, filter_app.
      rewrite fmap_cons, filter_cons, decide_False by (intros Hn; by apply Hn).
      by rewrite !filter_all_keys by done.
  - exists sl. apply Hno. by constructor.
Qed.

Lemma rank_of_holds sl l k :
  holds sl l →
  rank_of cmp eqb sl k =
  Ret (if decide (Exists (same_key k) l) then Some (lower k l) else None).
Proof.
  intros (tw & Hr & <-).
  destruct (split_towers tw k (r_sorted _ _ Hr)) as (A & B & -> & Hlen & HA & HB).
  pose proof (key_go_ok _ _ _ _ (r_shape _ _ Hr) HA HB) as Hgo.
  destruct (search_spec _ _ _ _ Hr Hgo) as (x & upd & rk & E1 & _ & _ & _ & Hx & _).
  pose proof (r_sorted _ _ Hr) as Hsrt. rewrite fmap_app in Hsrt. apply StronglySorted_app_1_r in Hsrt.
  pose proof (from_key B k Hsrt HB) as HB'.
  unfold rank_of. rewrite E1. cbn [mbind exec_bind].
  rewrite (next_at_0 _ _ _ _ Hr Hx). cbn [mbind exec_bind]. rewrite <- Hlen, fmap_app.
  assert (HA' : ¬ Exists (same_key k) (tkey <$> A)).
  { apply Forall_not_Exists. apply Forall_fmap. eapply Forall_impl; [exact HA|].
    unfold compose, same_key. congruence. }
  destruct B as [|t B]; [|change (tid <$> head (t :: B)) with (Some (tid t)); cbv iota beta].
  { rewrite decide_False; [done|]. rewrite Exists_app, Exists_nil. tauto. }
  rewrite (key_is_spec _ _ _ _ _ Hr). cbn [mbind exec_bind]. rewrite eqb_dec.
  destruct HB' as [HBn _]. destruct (bool_decide_reflect (same_key k (tkey t))) as [Hk|Hk].
  - rewrite decide_True; [done|]. apply Exists_app. right. by left.
  - rewrite decide_False; [done|]. rewrite Exists_app. simpl. rewrite Exists_cons.
    intros [?|[?|Hex]]; [done..|]. revert Hex. apply Forall_not_Exists. by apply Forall_fmap.
Qed.

(** ** Programs over a skiplist *)

(** The mutating calls; a caller inserts only keys that are absent. *)
Inductive op : Type :=
| Insert (k : K) (draws : nat → bool)
| Remove (k : K).

Definition run_op (sl : SkipList K) (o : op) : exec (SkipList K) :=
  match o with
  | Insert k draws =>
    r ← rank_of cmp eqb sl k;
    match r with Some _ => Ret sl | None => insert cmp sl k draws end
  | Remove k => '(sl', _) ← remove cmp eqb sl k; Ret sl'
  end.

Fixpoint run (sl : SkipList K) (ops : list op) : exec (SkipList K) :=
  match ops with
  | [] => Ret sl
  | o :: ops => sl' ← run_op sl o; run sl' ops
  end.

(** The same on sorted lists. *)
Definition spec_op (l : list K) (o : op) : list K :=
  match o with
  | Insert k _ => if decide (Exists (same_key k) l) then l else insert_sorted k l
  | Remove k => filter (λ x, ¬ same_key k x) l
  end.

Lemma run_op_holds sl l o :
  holds sl l → ∃ sl', run_op sl o = Ret sl' ∧ holds sl' (spec_op l o).
Proof.
  intros Hh. destruct o as [k draws|k]; simpl.
  - rewrite (rank_of_holds _ _ k Hh). cbn [mbind exec_bind]. case_decide as Hex; [by exists sl|].
    apply insert_holds; [done|]. apply Forall_Exists_neg in Hex. done.
  - destruct (remove_holds _ _ k Hh) as (sl' & -> & Hh'). by exists sl'.
Qed.

Lemma run_holds sl l ops :
  holds sl l → ∃ sl', run sl ops = Ret sl' ∧ holds sl' (foldl spec_op l ops).
Proof.
  revert sl l. induction ops as [|o ops IH]; intros sl l Hh; simpl; [by exists sl|].
  destruct (run_op_holds sl l o Hh) as (sl1 & -> & Hh1). cbn [mbind exec_bind]. by apply IH.
Qed.

(** C1. The skiplist refines a sorted list: after any sequence of insertions
    (of absent keys, with any random levels) and removals, no call has panicked
    and iteration, length, access by rank, rank of a key and the answer of a
    removal are those of the sorted list of keys. *)
Theorem skiplist_refines ops :
  ∃ sl, run SkipList_new ops = Ret sl ∧
    let l := foldl spec_op [] ops in
    StronglySorted (cmp_lt cmp) l ∧
    iter_keys sl = Ret l ∧ len sl = length l ∧
    (∀ r, get_by_rank sl r = Ret (l !! r)) ∧
    (∀ k, rank_of cmp eqb sl k =
       Ret (if decide (Exists (same_key k) l) then Some (lower k l) else None)) ∧
    (∀ k, ∃ sl', remove cmp eqb sl k = Ret (sl', bool_decide (Exists (same_key k) l)) ∧
       iter_keys sl' = Ret (filter (λ x, ¬ same_key k x) l)).
Proof.
  destruct (run_holds SkipList_new [] ops holds_new) as (sl & E & Hh).
  exists sl. split; [done|]. intros l. split_and!.
  - by eapply holds_sorted.
  - by apply iter_keys_holds.
  - by apply holds_len.
  - intros r. by apply get_by_rank_holds.
  - intros k. by apply rank_of_holds.
  - intros k. destruct (remove_holds _ _ k Hh) as (sl' & Er & Hr). exists sl'.
    split; [done|]. by apply iter_keys_holds.
Qed.

(** The links stay exact: in every state a program reaches, a link of any
    node leads to the next node that is tall enough and its span is the
    distance to it; where a level ends the span is the number of nodes left or
    one more, so it never drifts.  (The span of the last links is what
    [saturating_sub] in [remove] leaves inexact.) *)
Theorem skiplist_spans ops :
  ∃ sl tw, run SkipList_new ops = Ret sl ∧ tkey <$> tw = foldl spec_op [] ops ∧
    NoDup (ids tw ++ free sl) ∧
    ∀ q a k h i, stops tw !! q = Some (a, k, h) → i < h → i ≤ level sl →
      ∃ f s, lk (nodes sl) a i = Some (f, s) ∧
        match nxt i (drop q tw) with
        | Some (d, b) => f = Some b ∧ s = d
        | None => f = None ∧ length tw - q ≤ s ≤ S (length tw - q)
        end.
Proof.
  destruct (run_holds SkipList_new [] ops holds_new) as (sl & E & tw & Hr & Hk).
  exists sl, tw. split_and!; [done..|apply Hr|].
  intros q a k h i Hq Hi Hl. destruct (r_links _ _ Hr i Hl q a k h Hq Hi) as (f & s & Hlk & Hok).
  exists f, s. split; [done|]. unfold link_ok in Hok. by rewrite length_drop in Hok.
Qed.
End facts.

(** ** Integers as keys *)

Definition zeqb_cmp (x y : Z) : Z.eqb x y = true ↔ Z.compare x y = Eq :=
  iff_trans (Z.eqb_eq x y) (iff_sym (Z.compare_eq_iff x y)).

(** Draws that promote a node [n] times. *)
Definition draw (n : nat) : nat → bool := λ i, i <? n.

Definition example_ops : list (op (K:=Z)) :=
  [Insert 5%Z (draw 0); Insert 3%Z (draw 2); Insert 9%Z (draw 4); Insert 7%Z (draw 1);
   Insert 3%Z (draw 3); Remove 5%Z; Insert 1%Z (draw 1)].

Lemma skiplist_refines_witness :
  ∃ sl, run Z.compare Z.eqb SkipList_new example_ops = Ret sl ∧
    iter_keys sl = Ret [1%Z; 3%Z; 7%Z; 9%Z].
Proof.
  destruct (skiplist_refines Z.compare Z.eqb zeqb_cmp example_ops) as (sl & E & _ & Hi & _).
  exists sl. split; [exact E|]. rewrite Hi. vm_compute. reflexivity.
Defined.
