(* ===== verification/SortedSet.v ===== *)
(** * Sorted sets ([src/sorted_set.rs])

    A skiplist ordered by score and then member, beside a map from members to
    scores.  Scores are IEEE 754 doubles ([spec_float]); the total order the
    code builds on them is proved to be one, which is what the skiplist asks. *)

From S2P Require Import Prelude RustStd SkipList SkipListFacts.
From Stdlib Require Import Lia Floats.SpecFloat.

(** ** Scores *)

Abbreviation f64 := spec_float.

Definition is_nan (x : f64) : bool := match x with S754_nan => true | _ => false end.

(** [a + b] on doubles, rounding to nearest even. *)
Definition f64_add (a b : f64) : f64 := SFadd 53 1024 a b.

Definition f64_zero : f64 := S754_zero false.

(** [OrderedFloat]: [eq] and [cmp]. *)
Definition OrderedFloat_eq (a b : f64) : bool :=
  match is_nan a, is_nan b with
  | true, true => true
  | false, false => SFeqb a b
  | _, _ => false
  end.

Definition OrderedFloat_cmp (a b : f64) : comparison :=
  match is_nan a, is_nan b with
  | true, true => Eq
  | true, false => Gt
  | false, true => Lt
  | false, false => default Eq (SFcompare a b)
  end.

Record ScoreKey : Type := mkScoreKey { score : f64; member : Bytes }.

#[global] Instance f64_eq_dec : EqDecision f64.
Proof. solve_decision. Defined.

#[global] Instance ScoreKey_eq_dec : EqDecision ScoreKey.
Proof. solve_decision. Defined.

Definition ScoreKey_eq (a b : ScoreKey) : bool :=
  OrderedFloat_eq (score a) (score b) && bool_decide (member a = member b).

Definition ScoreKey_cmp (a b : ScoreKey) : comparison :=
  match OrderedFloat_cmp (score a) (score b) with
  | Eq => cmp_bytes (member a) (member b)
  | ord => ord
  end.

(** [<], [<=], [>] and [>=] of a type with [Ord]. *)
Definition lt_b {A} (cmp : A → A → comparison) (x y : A) : bool :=
  match cmp x y with Lt => true | _ => false end.
Definition le_b {A} (cmp : A → A → comparison) (x y : A) : bool :=
  match cmp x y with Gt => false | _ => true end.
Definition gt_b {A} (cmp : A → A → comparison) (x y : A) : bool :=
  match cmp x y with Gt => true | _ => false end.
Definition ge_b {A} (cmp : A → A → comparison) (x y : A) : bool :=
  match cmp x y with Lt => false | _ => true end.

Record ScoreBound : Type := mkScoreBound { value : f64; exclusive : bool }.

Definition score_accepts_as_min (b : ScoreBound) (s : f64) : bool :=
  if exclusive b then gt_b OrderedFloat_cmp s (value b) else ge_b OrderedFloat_cmp s (value b).

Definition score_accepts_as_max (b : ScoreBound) (s : f64) : bool :=
  if exclusive b then lt_b OrderedFloat_cmp s (value b) else le_b OrderedFloat_cmp s (value b).

Definition score_in_range (s : f64) (min max : ScoreBound) : bool :=
  score_accepts_as_min min s && score_accepts_as_max max s.

Inductive LexBound : Type :=
| NegInf
| PosInf
| Inclusive (b : Bytes)
| Exclusive (b : Bytes).

Definition LexBound_parse (s : Bytes) : result unit LexBound :=
  if decide (s = bs "-") then Ok NegInf
  else if decide (s = bs "+") then Ok PosInf
  else match s with
       | [] => Err tt
       | c :: rest =>
         if decide (c = x5b) then Ok (Inclusive rest)
         else if decide (c = x28) then Ok (Exclusive rest)
         else Err tt
       end.

Definition lex_accepts_as_min (b : LexBound) (m : Bytes) : bool :=
  match b with
  | NegInf => true
  | PosInf => false
  | Inclusive b => ge_b cmp_bytes m b
  | Exclusive b => gt_b cmp_bytes m b
  end.

Definition lex_accepts_as_max (b : LexBound) (m : Bytes) : bool :=
  match b with
  | PosInf => true
  | NegInf => false
  | Inclusive b => le_b cmp_bytes m b
  | Exclusive b => lt_b cmp_bytes m b
  end.

Definition member_in_lex_range (m : Bytes) (min max : LexBound) : bool :=
  lex_accepts_as_min min m && lex_accepts_as_max max m.

(** ** Operations *)

Record SortedSet : Type := mkSortedSet {
  zlist : SkipList ScoreKey;
  member_map : gmap Bytes f64
}.

Record ScoredMember : Type := mkScoredMember { sm_member : Bytes; sm_score : f64 }.

Definition scored (k : ScoreKey) : ScoredMember := mkScoredMember (member k) (score k).

Definition zset_new : SortedSet := mkSortedSet SkipList_new ∅.

Definition zset_len (self : SortedSet) : nat := size (member_map self).

Definition zset_is_empty (self : SortedSet) : bool := bool_decide (member_map self = ∅).

Definition zset_score (self : SortedSet) (m : Bytes) : option f64 := member_map self !! m.

Definition zlist_insert := insert ScoreKey_cmp.
Definition zlist_remove := remove ScoreKey_cmp ScoreKey_eq.
Definition zlist_rank_of := rank_of ScoreKey_cmp ScoreKey_eq.

Definition add (self : SortedSet) (m : Bytes) (sc : f64) (draws : nat → bool)
    : exec (SortedSet * bool) :=
  match member_map self !! m with
  | Some old_score =>
    if OrderedFloat_eq old_score sc then Ret (self, false) else
    '(l, _) ← zlist_remove (zlist self) (mkScoreKey old_score m);
    l ← zlist_insert l (mkScoreKey sc m) draws;
    Ret (mkSortedSet l (<[m := sc]> (member_map self)), false)
  | None =>
    l ← zlist_insert (zlist self) (mkScoreKey sc m) draws;
    Ret (mkSortedSet l (<[m := sc]> (member_map self)), true)
  end.

Definition zset_remove (self : SortedSet) (m : Bytes) : exec (SortedSet * bool) :=
  match member_map self !! m with
  | Some sc =>
    '(l, _) ← zlist_remove (zlist self) (mkScoreKey sc m);
    Ret (mkSortedSet l (delete m (member_map self)), true)
  | None => Ret (self, false)
  end.

(** [for rank in start..=stop { if let Some(key) = get_by_rank(at rank) { out.push(..) } }] *)
Fixpoint collect_ranks (n : nat) (l : SkipList ScoreKey) (ranks : nat → nat) (i : nat)
    : exec (list ScoredMember) :=
  match n with
  | O => Ret []
  | S n =>
    k ← get_by_rank l (ranks i);
    rest ← collect_ranks n l ranks (i + 1);
    Ret (match k with Some k => scored k :: rest | None => rest end)
  end.

Definition range_forward (self : SortedSet) (start stop : nat) : exec (list ScoredMember) :=
  collect_ranks (stop - start + 1) (zlist self) (λ r, r) start.

Definition range_reverse (self : SortedSet) (start stop : nat) : exec (list ScoredMember) :=
  collect_ranks (stop - start + 1) (zlist self) (λ r, zset_len self - 1 - r) start.

Definition range (self : SortedSet) (start stop : Z) (rev : bool) : exec (list ScoredMember) :=
  (let len := Z.of_nat (zset_len self) in
   if len =? 0 then Ret [] else
   let start_idx := clamp_index len start in
   let stop_idx := clamp_index len stop in
   if (stop_idx <? start_idx) || (len <=? start_idx) then Ret [] else
   let stop_idx := stop_idx `min` (len - 1) in
   if rev then range_reverse self (Z.to_nat start_idx) (Z.to_nat stop_idx)
   else range_forward self (Z.to_nat start_idx) (Z.to_nat stop_idx))%Z.

Fixpoint pop_min_loop (n : nat) (self : SortedSet) (out : list ScoredMember)
    : exec (SortedSet * list ScoredMember) :=
  match n with
  | O => Ret (self, out)
  | S n =>
    k ← get_by_rank (zlist self) 0;
    match k with
    | None => Ret (self, out)
    | Some k =>
      '(self, _) ← zset_remove self (member k);
      pop_min_loop n self (out ++ [scored k])
    end
  end.

Definition pop_min (self : SortedSet) (count : nat) : exec (SortedSet * list ScoredMember) :=
  pop_min_loop (count `min` zset_len self) self [].

Fixpoint pop_max_loop (n : nat) (self : SortedSet) (out : list ScoredMember)
    : exec (SortedSet * list ScoredMember) :=
  match n with
  | O => Ret (self, out)
  | S n =>
    if zset_is_empty self then Ret (self, out) else
    k ← get_by_rank (zlist self) (zset_len self - 1);
    match k with
    | None => Ret (self, out)
    | Some k =>
      '(self, _) ← zset_remove self (member k);
      pop_max_loop n self (out ++ [scored k])
    end
  end.

Definition pop_max (self : SortedSet) (count : nat) : exec (SortedSet * list ScoredMember) :=
  pop_max_loop (count `min` zset_len self) self [].

Definition zset_rank (self : SortedSet) (m : Bytes) : exec (option nat) :=
  match member_map self !! m with
  | None => Ret None
  | Some sc => zlist_rank_of (zlist self) (mkScoreKey sc m)
  end.

Definition rev_rank (self : SortedSet) (m : Bytes) : exec (option nat) :=
  r ← zset_rank self m;
  Ret (match r with Some r => Some (zset_len self - 1 - r) | None => None end).

(** [for m in members { if self.remove(&m) { count += 1 } }] *)
Fixpoint remove_members (self : SortedSet) (members : list Bytes) (count : nat)
    : exec (SortedSet * nat) :=
  match members with
  | [] => Ret (self, count)
  | m :: members =>
    '(self, b) ← zset_remove self m;
    remove_members self members (if (b : bool) then count + 1 else count)
  end.

Definition remove_range_by_rank (self : SortedSet) (start stop : Z) : exec (SortedSet * nat) :=
  l ← range self start stop false;
  remove_members self (sm_member <$> l) 0.

Definition incr_by (self : SortedSet) (m : Bytes) (incr : f64) (draws : nat → bool)
    : exec (SortedSet * f64) :=
  let new_score := f64_add (default f64_zero (member_map self !! m)) incr in
  '(self, _) ← add self m new_score draws;
  Ret (self, new_score).

(** [matched[offset..end]] with Redis LIMIT semantics.  [offset] and [count] come
    from non-negative [i64] values, so their sum does not overflow. *)
Definition limit_slice {A} (offset : nat) (count : option nat) (matched : list A) : list A :=
  if length matched <=? offset then [] else
  let end_ := match count with
              | Some c => (offset + c) `min` length matched
              | None => length matched
              end in
  take (end_ - offset) (drop offset matched).

Definition range_by_score (self : SortedSet) (min max : ScoreBound) (rev : bool) (offset : nat)
    (count : option nat) : exec (list ScoredMember) :=
  keys ← iter_keys (zlist self);
  let matched := scored <$> filter (λ k, score_in_range (score k) min max = true) keys in
  let matched := if rev then reverse matched else matched in
  Ret (limit_slice offset count matched).

Definition count_by_score (self : SortedSet) (min max : ScoreBound) : exec nat :=
  keys ← iter_keys (zlist self);
  Ret (length (filter (λ k, score_in_range (score k) min max = true) keys)).

Definition remove_range_by_score (self : SortedSet) (min max : ScoreBound)
    : exec (SortedSet * nat) :=
  keys ← iter_keys (zlist self);
  remove_members self
    (member <$> filter (λ k, score_in_range (score k) min max = true) keys) 0.

(** [sort_by(|a, b| a.member.cmp(&b.member))], a stable sort. *)
Fixpoint insert_by_member (x : ScoredMember) (l : list ScoredMember) : list ScoredMember :=
  match l with
  | [] => [x]
  | y :: l' => if le_b cmp_bytes (sm_member x) (sm_member y) then x :: l
               else y :: insert_by_member x l'
  end.

Definition sort_by_member (l : list ScoredMember) : list ScoredMember :=
  foldr insert_by_member [] l.

Definition range_by_lex (self : SortedSet) (min max : LexBound) (rev : bool) (offset : nat)
    (count : option nat) : exec (list ScoredMember) :=
  keys ← iter_keys (zlist self);
  let matched := scored <$> filter (λ k, member_in_lex_range (member k) min max = true) keys in
  let matched := sort_by_member matched in
  let matched := if rev then reverse matched else matched in
  Ret (limit_slice offset count matched).

(** The keys of the map in iteration order; that order is unspecified, so it is
    an argument, a permutation of the entries. *)
Section hash_order.
Context (hash_order : gmap Bytes f64 → list (Bytes * f64)).

Definition count_by_lex (self : SortedSet) (min max : LexBound) : nat :=
  length (filter (λ m, member_in_lex_range m min max = true) (hash_order (member_map self)).*1).

Definition remove_range_by_lex (self : SortedSet) (min max : LexBound) : exec (SortedSet * nat) :=
  remove_members self
    (filter (λ m, member_in_lex_range m min max = true) (hash_order (member_map self)).*1) 0.
End hash_order.
