(* ===== verification/SortedSetFacts.v ===== *)
(** * Sorted sets: the order of scores, the invariant and the operations *)

From S2P Require Import Prelude RustStd SkipList SkipListFacts SortedSet.
From Stdlib Require Import Lia Floats.SpecFloat.

(** ** The order on scores *)

(** Doubles in increasing order: negative infinity, negative numbers by
    decreasing magnitude, the two zeros, positive numbers, infinity, NaN. *)
Definition f64_key (x : f64) : Z * (Z * Z) :=
  match x with
  | S754_infinity true => (-2, (0, 0))
  | S754_finite true m e => (-1, (- e, - Z.pos m))
  | S754_zero _ => (0, (0, 0))
  | S754_finite false m e => (1, (e, Z.pos m))
  | S754_infinity false => (2, (0, 0))
  | S754_nan => (3, (0, 0))
  end%Z.

Definition cmp_key3 : Z * (Z * Z) → Z * (Z * Z) → comparison :=
  cmp_lex Z.compare (cmp_lex Z.compare Z.compare).

Lemma compare_opp_opp a b : Z.compare (- a) (- b) = CompOpp (Z.compare a b).
Proof. rewrite <- (Z.compare_opp b a). apply Z.compare_antisym. Qed.

Lemma OrderedFloat_cmp_key a b : OrderedFloat_cmp a b = cmp_key3 (f64_key a) (f64_key b).
Proof.
  unfold OrderedFloat_cmp, cmp_key3, cmp_lex.
  destruct a as [[]|[]| |[] m e], b as [[]|[]| |[] m' e']; try done;
    cbn [is_nan f64_key fst snd SFcompare default]; try done.
  rewrite compare_opp_opp. destruct (Z.compare e e') eqn:E; done.
Qed.

Lemma cmp_pullback {A B} (f : A → B) (c : B → B → comparison) (c' : A → A → comparison) :
  (∀ x y, c' x y = c (f x) (f y)) → TotalCmp c → TotalCmp c'.
Proof.
  intros H Hc. split; intros; rewrite ?H in *.
  - apply (cmp_refl c).
  - apply (cmp_flip c).
  - by apply (cmp_le_trans c _ (f y)).
Qed.

#[global] Instance OrderedFloat_total : TotalCmp OrderedFloat_cmp.
Proof. apply (cmp_pullback f64_key cmp_key3); [apply OrderedFloat_cmp_key|apply _]. Qed.

Definition score_pair (k : ScoreKey) : f64 * Bytes := (score k, member k).

#[global] Instance ScoreKey_total : TotalCmp ScoreKey_cmp.
Proof. apply (cmp_pullback score_pair (cmp_lex OrderedFloat_cmp cmp_bytes)); [done|apply _]. Qed.

Lemma OrderedFloat_eq_cmp a b : OrderedFloat_eq a b = true ↔ OrderedFloat_cmp a b = Eq.
Proof.
  unfold OrderedFloat_eq, OrderedFloat_cmp, SFeqb.
  destruct (is_nan a) eqn:Ea, (is_nan b) eqn:Eb; try done.
  destruct (SFcompare a b) as [[]|] eqn:E; try done.
  destruct a as [[]|[]| |[] m e], b as [[]|[]| |[] m' e']; done.
Qed.

Lemma cmp_bytes_Eq a b : cmp_bytes a b = Eq ↔ a = b.
Proof. split; [apply cmp_eq|]. intros ->. apply (cmp_refl cmp_bytes). Qed.

Lemma ScoreKey_eq_cmp a b : ScoreKey_eq a b = true ↔ ScoreKey_cmp a b = Eq.
Proof.
  unfold ScoreKey_eq, ScoreKey_cmp. rewrite andb_true_iff, OrderedFloat_eq_cmp, bool_decide_eq_true.
  rewrite <- cmp_bytes_Eq. destruct (OrderedFloat_cmp (score a) (score b)); naive_solver.
Qed.

(** Keys that compare equal have the same member. *)
Lemma same_key_member k x : same_key ScoreKey_cmp k x → member x = member k.
Proof.
  unfold same_key, ScoreKey_cmp. destruct (OrderedFloat_cmp _ _); try done.
  apply cmp_bytes_Eq.
Qed.

(** ** The invariant *)

Abbreviation zlt := (cmp_lt ScoreKey_cmp).

Definition entry_key (e : Bytes * f64) : ScoreKey := mkScoreKey e.2 e.1.

Definition keys_of (m : gmap Bytes f64) : list ScoreKey := entry_key <$> map_to_list m.

(** The skiplist holds, in order, exactly the entries of the map. *)
Definition zset_ok (s : SortedSet) (l : list ScoreKey) : Prop :=
  holds ScoreKey_cmp (zlist s) l ∧ l ≡ₚ keys_of (member_map s).

Lemma zset_ok_sorted s l : zset_ok s l → StronglySorted zlt l.
Proof. intros [Hh _]. by eapply holds_sorted. Qed.

Lemma zset_ok_len s l : zset_ok s l → zset_len s = length l.
Proof.
  intros [_ Hp]. unfold zset_len. rewrite Hp. unfold keys_of.
  by rewrite length_fmap, length_map_to_list.
Qed.

Lemma zset_ok_elem s l k : zset_ok s l → k ∈ l ↔ member_map s !! member k = Some (score k).
Proof.
  intros [_ Hp]. rewrite Hp. unfold keys_of. rewrite list_elem_of_fmap. split.
  - intros ([m sc] & -> & Hin). by apply elem_of_map_to_list in Hin.
  - intros H. exists (member k, score k). split; [by destruct k|]. by apply elem_of_map_to_list.
Qed.

Lemma zset_ok_new : zset_ok zset_new [].
Proof. split; [apply holds_new|]. unfold keys_of. simpl. by rewrite map_to_list_empty. Qed.

(** At most one key per member. *)
Lemma zset_ok_member s l k k' : zset_ok s l → k ∈ l → k' ∈ l → member k = member k' → k = k'.
Proof.
  intros Hok. rewrite !(zset_ok_elem s l _ Hok). intros H1 H2 E. rewrite E in H1.
  destruct k, k'. simpl in *. congruence.
Qed.

Lemma insert_sorted_perm k l : insert_sorted ScoreKey_cmp k l ≡ₚ k :: l.
Proof.
  induction l as [|x l IH]; simpl; [done|]. destruct (ScoreKey_cmp x k); try done.
  rewrite IH. apply Permutation_swap.
Qed.

(** A list sorted by the strict order is determined by its elements. *)
Lemma zlt_sorted_unique l l' : StronglySorted zlt l → StronglySorted zlt l' → l ≡ₚ l' → l = l'.
Proof.
  intros H1 H2 Hp. apply (StronglySorted_unique_strong zlt); try done.
  intros x y _ _ Hxy Hyx. unfold cmp_lt in *. by apply (cmp_lt_asym ScoreKey_cmp) in Hxy.
Qed.

(** ** The skiplist calls, at score keys *)

Lemma zlist_insert_ok l ks k draws :
  holds ScoreKey_cmp l ks → Forall (λ x, member x ≠ member k) ks →
  ∃ l', zlist_insert l k draws = Ret l' ∧ holds ScoreKey_cmp l' (insert_sorted ScoreKey_cmp k ks).
Proof.
  intros Hh Hne. apply insert_holds; [apply _|done|].
  eapply Forall_impl; [exact Hne|]. intros x Hx E. by apply Hx, same_key_member.
Qed.

Lemma zlist_remove_ok l ks k :
  holds ScoreKey_cmp l ks →
  ∃ l' b, zlist_remove l k = Ret (l', b) ∧
    holds ScoreKey_cmp l' (filter (λ x, ¬ same_key ScoreKey_cmp k x) ks).
Proof.
  intros Hh. destruct (remove_holds ScoreKey_cmp ScoreKey_eq ScoreKey_eq_cmp l ks k Hh)
    as (l' & E & H). eauto.
Qed.

(** Without [k], the keys of a set that has it are those of the other members. *)
Lemma filter_same_key s l k :
  zset_ok s l → k ∈ l →
  filter (λ x, ¬ same_key ScoreKey_cmp k x) l = filter (λ x, member x ≠ member k) l.
Proof.
  intros Hok Hk. apply filter_ext_in. intros x Hx. split.
  - intros Hn E. apply Hn. assert (x = k) as -> by by eapply zset_ok_member.
    apply (cmp_refl ScoreKey_cmp).
  - intros Hn E. by apply Hn, same_key_member.
Qed.

Lemma keys_of_delete m mem sc :
  m !! mem = Some sc → keys_of m ≡ₚ mkScoreKey sc mem :: keys_of (delete mem m).
Proof. intros H. unfold keys_of. rewrite <- (map_to_list_delete m mem sc H). done. Qed.

Lemma keys_of_member m k : k ∈ keys_of m → m !! member k = Some (score k).
Proof.
  unfold keys_of. rewrite list_elem_of_fmap. intros ([m' sc] & -> & H).
  by apply elem_of_map_to_list in H.
Qed.

Lemma filter_member_perm s l mem sc :
  zset_ok s l → member_map s !! mem = Some sc →
  filter (λ x, member x ≠ mem) l ≡ₚ keys_of (delete mem (member_map s)).
Proof.
  intros [_ Hp] Hm. rewrite Hp, (keys_of_delete _ _ _ Hm).
  rewrite filter_cons_False by naive_solver.
  rewrite filter_all; [done|]. intros x Hx E. apply keys_of_member in Hx.
  by rewrite E, lookup_delete_eq in Hx.
Qed.

(** Removing a member: its key leaves the list. *)
Lemma zset_remove_ok s l m :
  zset_ok s l →
  ∃ s', zset_remove s m = Ret (s', bool_decide (m ∈ dom (member_map s))) ∧
    member_map s' = delete m (member_map s) ∧ zset_ok s' (filter (λ x, member x ≠ m) l).
Proof.
  intros Hok. unfold zset_remove. destruct (member_map s !! m) as [sc|] eqn:E.
  - destruct (zlist_remove_ok (zlist s) l (mkScoreKey sc m) (proj1 Hok)) as (l' & b & -> & Hh).
    cbn [mbind exec_bind]. rewrite bool_decide_true by (apply elem_of_dom; eauto).
    eexists. split; [done|]. split; [done|]. split; simpl.
    + rewrite (filter_same_key s l (mkScoreKey sc m) Hok) in Hh; [done|].
      by apply (zset_ok_elem s l _ Hok).
    + by apply (filter_member_perm s l m sc).
  - rewrite bool_decide_false by by apply not_elem_of_dom. exists s.
    rewrite delete_id by done. split_and!; [done|done|].
    rewrite filter_all; [done|]. intros x Hx <-.
    apply (zset_ok_elem s l x Hok) in Hx. congruence.
Qed.

(** Adding a member that is absent. *)
Lemma zset_insert_ok l ks m mem sc draws :
  holds ScoreKey_cmp l ks → ks ≡ₚ keys_of m → m !! mem = None →
  ∃ l', zlist_insert l (mkScoreKey sc mem) draws = Ret l' ∧
    zset_ok (mkSortedSet l' (<[mem := sc]> m)) (insert_sorted ScoreKey_cmp (mkScoreKey sc mem) ks).
Proof.
  intros Hh Hp Hm. destruct (zlist_insert_ok l ks (mkScoreKey sc mem) draws Hh) as (l' & E & Hh').
  { apply Forall_forall. intros x Hx Ex. rewrite Hp in Hx. apply keys_of_member in Hx.
    simpl in Ex. congruence. }
  exists l'. split; [done|]. split; [done|]. cbn [member_map].
  rewrite insert_sorted_perm, Hp. unfold keys_of. by rewrite map_to_list_insert by done.
Qed.

(** The list after [ZADD m sc]. *)
Definition zadd (mem : Bytes) (sc : f64) (l : list ScoreKey) : list ScoreKey :=
  insert_sorted ScoreKey_cmp (mkScoreKey sc mem) (filter (λ x, member x ≠ mem) l).

Lemma add_ok s l mem sc draws :
  zset_ok s l →
  ∃ s', add s mem sc draws = Ret (s', bool_decide (mem ∉ dom (member_map s))) ∧
    match member_map s !! mem with
    | Some old => if OrderedFloat_eq old sc then s' = s
                  else member_map s' = <[mem := sc]> (member_map s) ∧ zset_ok s' (zadd mem sc l)
    | None => member_map s' = <[mem := sc]> (member_map s) ∧ zset_ok s' (zadd mem sc l)
    end.
Proof.
  intros Hok. unfold add, zadd. destruct (member_map s !! mem) as [old|] eqn:E.
  - assert (mem ∈ dom (member_map s)) by (apply elem_of_dom; eauto).
    rewrite bool_decide_false by naive_solver.
    destruct (OrderedFloat_eq old sc); [by exists s|].
    destruct (zlist_remove_ok (zlist s) l (mkScoreKey old mem) (proj1 Hok)) as (l1 & b & -> & Hh).
    rewrite (filter_same_key s l (mkScoreKey old mem) Hok) in Hh
      by by apply (zset_ok_elem s l _ Hok).
    cbn [mbind exec_bind].
    destruct (zset_insert_ok l1 _ (delete mem (member_map s)) mem sc draws Hh) as (l2 & -> & Hok2);
      [by apply (filter_member_perm s l mem old)|by apply lookup_delete_eq|].
    rewrite insert_delete_eq in Hok2. eexists. split; [done|]. done.
  - rewrite bool_decide_true by by apply not_elem_of_dom.
    destruct (zset_insert_ok (zlist s) l (member_map s) mem sc draws) as (l2 & -> & Hok2);
      [apply Hok|apply Hok|done|].
    rewrite filter_all; [by eexists|]. intros x Hx <-.
    apply (zset_ok_elem s l x Hok) in Hx. congruence.
Qed.

(** ** Reading *)

Lemma zset_ok_members s l : zset_ok s l → NoDup (member <$> l).
Proof.
  intros [_ Hp]. rewrite Hp. unfold keys_of. rewrite <- list_fmap_compose.
  apply NoDup_fst_map_to_list.
Qed.

(** [view] reads the skiplist in order, or backwards. *)
Definition view (rev : bool) (l : list ScoreKey) : list ScoreKey := if rev then reverse l else l.

Lemma collect_ranks_ok s l L n ranks i :
  zset_ok s l → (∀ j, j < length L → l !! ranks j = L !! j) → i + n ≤ length L →
  collect_ranks n (zlist s) ranks i = Ret (scored <$> take n (drop i L)).
Proof.
  intros Hok Hv. revert i. induction n as [|n IH]; intros i Hn; simpl; [done|].
  rewrite (get_by_rank_holds ScoreKey_cmp _ _ _ (proj1 Hok)), Hv by lia. cbn [mbind exec_bind].
  rewrite IH by lia. cbn [mbind exec_bind].
  destruct (lookup_lt_is_Some_2 L i) as [k Hk]; [lia|].
  rewrite Hk, (drop_S _ _ _ Hk). simpl. by rewrite Nat.add_1_r.
Qed.

Lemma range_ok s l start stop rev :
  zset_ok s l →
  range s start stop rev =
  Ret (scored <$> slice (view rev l) (redis_index (zlen l) start) (clamp_index (zlen l) stop)).
Proof.
  intros Hok. assert (Hlen : length (view rev l) = length l)
    by (destruct rev; [apply length_reverse|done]).
  rewrite <- Hlen, <- range_slice, Hlen. unfold range. rewrite (zset_ok_len _ _ Hok).
  destruct (zlen l =? 0)%Z eqn:H0; [done|]. cbv zeta.
  set (a := clamp_index _ start). set (b := clamp_index _ stop).
  destruct ((b <? a) || (zlen l <=? a))%Z eqn:Hc; [done|].
  assert (0 ≤ a)%Z by (subst a; unfold clamp_index; destruct (start <? 0)%Z eqn:?; lia).
  set (e := (b `min` (zlen l - 1))%Z).
  assert (Hn : Z.to_nat e - Z.to_nat a + 1 = Z.to_nat (e - a + 1)) by lia.
  unfold range_reverse, range_forward. rewrite (zset_ok_len _ _ Hok), Hn.
  destruct rev; apply (collect_ranks_ok s l); try done; cbn [view] in *; try lia.
  intros j Hj. rewrite reverse_lookup by lia. f_equal. lia.
Qed.

Lemma lower_lookup l k :
  StronglySorted zlt l → k ∈ l → l !! lower ScoreKey_cmp k l = Some k.
Proof.
  induction l as [|x l IH]; intros Hs Hk; [by apply not_elem_of_nil in Hk|].
  apply StronglySorted_inv in Hs as [Hs Hx]. simpl.
  apply elem_of_cons in Hk as [->|Hk].
  - by rewrite (cmp_refl ScoreKey_cmp).
  - rewrite Forall_forall in Hx. rewrite (Hx k Hk). simpl. by apply IH.
Qed.

Lemma zset_rank_ok s l m :
  zset_ok s l →
  ∃ r, zset_rank s m = Ret r ∧
    match r with
    | Some i => ∃ sc, l !! i = Some (mkScoreKey sc m) ∧ member_map s !! m = Some sc
    | None => member_map s !! m = None
    end.
Proof.
  intros Hok. unfold zset_rank, zlist_rank_of. destruct (member_map s !! m) as [sc|] eqn:E.
  - rewrite (rank_of_holds ScoreKey_cmp ScoreKey_eq ScoreKey_eq_cmp _ l _ (proj1 Hok)).
    assert (Hin : mkScoreKey sc m ∈ l) by by apply (zset_ok_elem s l _ Hok).
    rewrite decide_True.
    + eexists. split; [done|]. exists sc. split; [|done].
      apply lower_lookup; [by eapply zset_ok_sorted|done].
    + apply Exists_exists. eexists. split; [done|]. apply (cmp_refl ScoreKey_cmp).
  - by exists None.
Qed.

(** ** Removing several members *)

Lemma remove_members_ok s l ms c :
  zset_ok s l → NoDup ms → (∀ m, m ∈ ms → m ∈ dom (member_map s)) →
  ∃ s', remove_members s ms c = Ret (s', c + length ms) ∧
    zset_ok s' (filter (λ k, member k ∉ ms) l).
Proof.
  revert s l c. induction ms as [|m ms IH]; intros s l c Hok Hnd Hin; simpl.
  - exists s. rewrite Nat.add_0_r. split; [done|]. rewrite filter_all; [done|].
    intros x _. apply not_elem_of_nil.
  - destruct (zset_remove_ok s l m Hok) as (s1 & -> & Hm & Hok1). cbn [mbind exec_bind].
    rewrite bool_decide_true by (apply Hin; by left). apply NoDup_cons in Hnd as [Hni Hnd].
    destruct (IH s1 _ (c + 1) Hok1 Hnd) as (s2 & -> & Hok2).
    { intros m' Hm'. rewrite Hm, dom_delete_L, elem_of_difference, elem_of_singleton.
      split; [apply Hin; by right|]. intros ->. done. }
    exists s2. split; [do 2 f_equal; lia|]. rewrite list_filter_filter in Hok2.
    rewrite (filter_ext_in _ (λ k, (member k ∉ ms) ∧ member k ≠ m)); [done|].
    intros x _. rewrite not_elem_of_cons. tauto.
Qed.

(** The members of a part of the list are removed, the rest stays. *)
Lemma remove_part_ok s l ks c :
  zset_ok s l → ks `sublist_of` l →
  ∃ s', remove_members s (member <$> ks) c = Ret (s', c + length ks) ∧
    zset_ok s' (filter (λ k, k ∉ ks) l).
Proof.
  intros Hok Hsub. pose proof (zset_ok_members _ _ Hok) as Hnd.
  assert (Hin : ∀ k, k ∈ ks → k ∈ l) by (intros; by eapply elem_of_sublist).
  destruct (remove_members_ok s l (member <$> ks) c) as (s' & E & Hok'); [done| | |].
  - eapply sublist_NoDup; [exact Hnd|]. by apply fmap_sublist.
  - intros m (k & -> & Hk)%list_elem_of_fmap. apply elem_of_dom. exists (score k).
    apply (zset_ok_elem s l k Hok). by apply Hin.
  - exists s'. rewrite length_fmap in E. split; [done|].
    rewrite (filter_ext_in _ (λ k, member k ∉ member <$> ks)); [done|].
    intros k Hk. split; intros Hn Hc; apply Hn.
    + apply list_elem_of_fmap in Hc as (k' & E' & Hk').
      by rewrite (zset_ok_member s l k k' Hok Hk (Hin _ Hk') E').
    + by apply list_elem_of_fmap_2.
Qed.

(** ** Popping *)

Lemma filter_member_head k l :
  NoDup (member <$> (k :: l)) → filter (λ x, member x ≠ member k) (k :: l) = l.
Proof.
  rewrite fmap_cons. intros [Hni _]%NoDup_cons. rewrite filter_cons_False by naive_solver.
  apply filter_all. intros x Hx E. apply Hni. rewrite <- E. by apply list_elem_of_fmap_2.
Qed.

Lemma filter_member_last k l :
  NoDup (member <$> (l ++ [k])) → filter (λ x, member x ≠ member k) (l ++ [k]) = l.
Proof.
  rewrite fmap_app. intros (_ & Hd & _)%NoDup_app. rewrite filter_app.
  rewrite (filter_cons_False _ k []) by naive_solver. rewrite app_nil_r. apply filter_all.
  intros x Hx E. apply (Hd (member x)); [by apply list_elem_of_fmap_2|]. rewrite E. by left.
Qed.

Lemma pop_min_loop_ok n s l out :
  zset_ok s l → n ≤ length l →
  ∃ s', pop_min_loop n s out = Ret (s', out ++ (scored <$> take n l)) ∧ zset_ok s' (drop n l).
Proof.
  revert s l out. induction n as [|n IH]; intros s l out Hok Hn; simpl.
  { exists s. by rewrite app_nil_r. }
  rewrite (get_by_rank_holds ScoreKey_cmp _ _ _ (proj1 Hok)). cbn [mbind exec_bind].
  destruct l as [|k l]; simpl in *; [lia|].
  destruct (zset_remove_ok s _ (member k) Hok) as (s1 & -> & _ & Hok1). cbn [mbind exec_bind].
  rewrite filter_member_head in Hok1 by by eapply zset_ok_members.
  destruct (IH s1 l (out ++ [scored k]) Hok1) as (s2 & -> & Hok2); [lia|].
  exists s2. by rewrite <- app_assoc.
Qed.

Lemma zset_ok_nonempty s l k : zset_ok s l → k ∈ l → zset_is_empty s = false.
Proof.
  intros Hok Hk. unfold zset_is_empty. apply bool_decide_eq_false. intros E.
  apply (zset_ok_elem s l k Hok) in Hk. by rewrite E, lookup_empty in Hk.
Qed.

Lemma pop_max_loop_ok n s l out :
  zset_ok s l → n ≤ length l →
  ∃ s', pop_max_loop n s out = Ret (s', out ++ (scored <$> take n (reverse l))) ∧
    zset_ok s' (take (length l - n) l).
Proof.
  revert s l out. induction n as [|n IH]; intros s l out Hok Hn; simpl.
  { exists s. by rewrite app_nil_r, Nat.sub_0_r, firstn_all. }
  destruct l as [|k l _] using rev_ind; [simpl in *; lia|]. rewrite length_app in *. simpl in Hn.
  rewrite (zset_ok_nonempty s _ k Hok) by (apply elem_of_app; right; by left).
  rewrite (zset_ok_len _ _ Hok), (get_by_rank_holds ScoreKey_cmp _ _ _ (proj1 Hok)).
  rewrite length_app. cbn [length]. replace (length l + 1 - 1) with (length l) by lia.
  rewrite list_lookup_middle by done. cbn [mbind exec_bind].
  destruct (zset_remove_ok s _ (member k) Hok) as (s1 & -> & _ & Hok1). cbn [mbind exec_bind].
  rewrite filter_member_last in Hok1 by by eapply zset_ok_members.
  destruct (IH s1 l (out ++ [scored k]) Hok1) as (s2 & -> & Hok2); [lia|].
  exists s2. rewrite reverse_snoc. simpl. rewrite <- app_assoc. split; [done|].
  replace (length l + 1 - S n) with (length l - n) by lia. by rewrite take_app_le by lia.
Qed.

(** ** Programs over a sorted set *)

(** The calls that change a sorted set. *)
Inductive zop : Type :=
| ZAdd (m : Bytes) (sc : f64) (draws : nat → bool)
| ZRem (m : Bytes)
| ZIncrBy (m : Bytes) (incr : f64) (draws : nat → bool)
| ZPopMin (count : nat)
| ZPopMax (count : nat)
| ZRemRangeByRank (start stop : Z)
| ZRemRangeByScore (min max : ScoreBound).

Definition zrun_op (s : SortedSet) (o : zop) : exec SortedSet :=
  match o with
  | ZAdd m sc draws => '(s, _) ← add s m sc draws; Ret s
  | ZRem m => '(s, _) ← zset_remove s m; Ret s
  | ZIncrBy m incr draws => '(s, _) ← incr_by s m incr draws; Ret s
  | ZPopMin count => '(s, _) ← pop_min s count; Ret s
  | ZPopMax count => '(s, _) ← pop_max s count; Ret s
  | ZRemRangeByRank start stop => '(s, _) ← remove_range_by_rank s start stop; Ret s
  | ZRemRangeByScore min max => '(s, _) ← remove_range_by_score s min max; Ret s
  end.

Fixpoint zrun (s : SortedSet) (ops : list zop) : exec SortedSet :=
  match ops with
  | [] => Ret s
  | o :: ops => s' ← zrun_op s o; zrun s' ops
  end.

(** The same on the ordered list of scored members. *)
Definition find_score (m : Bytes) (l : list ScoreKey) : option f64 :=
  score <$> head (filter (λ k, member k = m) l).

Definition zadd_spec (m : Bytes) (sc : f64) (l : list ScoreKey) : list ScoreKey :=
  match find_score m l with
  | Some old => if OrderedFloat_eq old sc then l else zadd m sc l
  | None => zadd m sc l
  end.

Definition zspec_op (l : list ScoreKey) (o : zop) : list ScoreKey :=
  match o with
  | ZAdd m sc _ => zadd_spec m sc l
  | ZRem m => filter (λ k, member k ≠ m) l
  | ZIncrBy m incr _ => zadd_spec m (f64_add (default f64_zero (find_score m l)) incr) l
  | ZPopMin count => drop count l
  | ZPopMax count => take (length l - count) l
  | ZRemRangeByRank start stop =>
      filter (λ k, k ∉ slice l (redis_index (zlen l) start) (clamp_index (zlen l) stop)) l
  | ZRemRangeByScore min max => filter (λ k, score_in_range (score k) min max = false) l
  end.

Lemma find_score_ok s l m : zset_ok s l → find_score m l = member_map s !! m.
Proof.
  intros Hok. unfold find_score.
  destruct (filter (λ k, member k = m) l) as [|k ks] eqn:E; simpl.
  - destruct (member_map s !! m) as [sc|] eqn:Em; [|done]. exfalso.
    assert (mkScoreKey sc m ∈ filter (λ k, member k = m) l) as Hin.
    { apply list_elem_of_filter. split; [done|]. by apply (zset_ok_elem s l _ Hok). }
    rewrite E in Hin. by apply not_elem_of_nil in Hin.
  - assert (k ∈ filter (λ k, member k = m) l) as Hin by (rewrite E; by left).
    apply list_elem_of_filter in Hin as [<- Hk]. symmetry. by apply (zset_ok_elem s l k Hok).
Qed.

Lemma add_spec_ok s l m sc draws :
  zset_ok s l →
  ∃ s', add s m sc draws = Ret (s', bool_decide (m ∉ dom (member_map s))) ∧
    zset_ok s' (zadd_spec m sc l).
Proof.
  intros Hok. destruct (add_ok s l m sc draws Hok) as (s' & E & H). exists s'. split; [done|].
  unfold zadd_spec. rewrite (find_score_ok s l m Hok). repeat case_match; naive_solver.
Qed.

Lemma zrun_op_ok s l o :
  zset_ok s l → ∃ s', zrun_op s o = Ret s' ∧ zset_ok s' (zspec_op l o).
Proof.
  intros Hok. pose proof (zset_ok_len _ _ Hok) as Hlen.
  destruct o as [m sc d|m|m incr d|count|count|start stop|min max]; simpl.
  - destruct (add_spec_ok s l m sc d Hok) as (s' & -> & Hok'). by exists s'.
  - destruct (zset_remove_ok s l m Hok) as (s' & -> & _ & Hok'). by exists s'.
  - unfold incr_by. rewrite (find_score_ok s l m Hok). set (sc := f64_add _ _).
    destruct (add_spec_ok s l m sc d Hok) as (s' & -> & Hok'). by exists s'.
  - unfold pop_min. rewrite Hlen.
    destruct (pop_min_loop_ok (count `min` length l) s l [] Hok) as (s' & -> & Hok'); [lia|].
    exists s'. split; [done|]. destruct (Nat.le_gt_cases count (length l)).
    + by rewrite Nat.min_l in Hok' by lia.
    + rewrite Nat.min_r in Hok' by lia. by rewrite !drop_ge in * by lia.
  - unfold pop_max. rewrite Hlen.
    destruct (pop_max_loop_ok (count `min` length l) s l [] Hok) as (s' & -> & Hok'); [lia|].
    exists s'. split; [done|].
    by replace (length l - count) with (length l - count `min` length l) by lia.
  - unfold remove_range_by_rank. rewrite (range_ok s l _ _ _ Hok). cbn [mbind exec_bind view].
    set (part := slice l _ _). rewrite <- list_fmap_compose.
    destruct (remove_part_ok s l part 0 Hok) as (s' & E & Hok').
    { unfold part, slice. etrans; [apply sublist_take|apply sublist_drop]. }
    change (sm_member ∘ scored <$> part) with (member <$> part). rewrite E. by exists s'.
  - unfold remove_range_by_score. rewrite (iter_keys_holds _ _ _ (proj1 Hok)).
    cbn [mbind exec_bind]. set (part := filter _ l).
    destruct (remove_part_ok s l part 0 Hok) as (s' & -> & Hok'); [apply sublist_filter|].
    exists s'. split; [done|]. rewrite (filter_ext_in _ (λ k, k ∉ part)); [done|].
    intros k Hk. subst part. rewrite list_elem_of_filter.
    destruct (score_in_range _ _ _); naive_solver.
Qed.

Lemma zrun_ok s l ops :
  zset_ok s l → ∃ s', zrun s ops = Ret s' ∧ zset_ok s' (foldl zspec_op l ops).
Proof.
  revert s l. induction ops as [|o ops IH]; intros s l Hok; simpl; [by exists s|].
  destruct (zrun_op_ok s l o Hok) as (s1 & -> & Hok1). cbn [mbind exec_bind]. by apply IH.
Qed.

Lemma limit_slice_spec {A} offset count (l : list A) :
  limit_slice offset count l =
  match count with Some c => take c (drop offset l) | None => drop offset l end.
Proof.
  unfold limit_slice. destruct (Nat.leb_spec (length l) offset).
  { rewrite drop_ge by done. destruct count; [by rewrite take_nil|done]. }
  destruct count as [c|].
  - destruct (Nat.le_gt_cases (offset + c) (length l)).
    + rewrite Nat.min_l by lia. by replace (offset + c - offset) with c by lia.
    + rewrite Nat.min_r by lia. rewrite !take_ge; [done|rewrite length_drop; lia..].
  - by rewrite take_ge by (rewrite length_drop; lia).
Qed.

(** ** Properties *)


(** Reading by position: [ZRANGE]/[ZREVRANGE] return the members between the
    two positions (when the stop index is not below minus the length), and
    [ZRANK]/[ZREVRANK] return the position at which that range has the member,
    or nothing exactly when it is absent. *)
Theorem zset_positions ops :
  ∃ s, zrun zset_new ops = Ret s ∧
    let l := foldl zspec_op [] ops in
    (∀ start stop rev, (- zlen l ≤ stop)%Z →
       range s start stop rev = Ret (scored <$>
         slice (if (rev : bool) then reverse l else l)
           (redis_index (zlen l) start) (redis_index (zlen l) stop))) ∧
    (∀ m, ∃ r r', zset_rank s m = Ret r ∧ rev_rank s m = Ret r' ∧
       match r, r' with
       | Some i, Some j => ∃ sc, zset_score s m = Some sc ∧
           l !! i = Some (mkScoreKey sc m) ∧ reverse l !! j = Some (mkScoreKey sc m)
       | None, None => zset_score s m = None
       | _, _ => False
       end).
Proof.
  destruct (zrun_ok zset_new [] ops zset_ok_new) as (s & E & Hok). exists s. split; [done|].
  intros l. split.
  - intros start stop rev Hstop. rewrite (range_ok s l _ _ _ Hok).
    replace (clamp_index (zlen l) stop) with (redis_index (zlen l) stop); [done|].
    unfold clamp_index, redis_index. destruct (Z.ltb_spec stop 0); lia.
  - intros m. destruct (zset_rank_ok s l m Hok) as (r & Er & Hr). exists r.
    unfold rev_rank. rewrite Er. cbn [mbind exec_bind]. eexists. split_and!; [done..|].
    destruct r as [i|]; [|done]. destruct Hr as (sc & Hi & Hm). exists sc.
    split_and!; [done|done|]. pose proof (lookup_lt_Some _ _ _ Hi).
    rewrite (zset_ok_len s l Hok), reverse_lookup by lia.
    by replace (length l - S (length l - 1 - i)) with i by lia.
Qed.

(** Popping returns the members with the lowest (highest) scores in
    increasing (decreasing) order and leaves exactly the others. *)
Theorem zset_pops ops count :
  ∃ s, zrun zset_new ops = Ret s ∧
    let l := foldl zspec_op [] ops in
    (∃ s', pop_min s count = Ret (s', scored <$> take count l) ∧
       iter_keys (zlist s') = Ret (drop count l)) ∧
    (∃ s', pop_max s count = Ret (s', scored <$> take count (reverse l)) ∧
       iter_keys (zlist s') = Ret (take (length l - count) l)).
Proof.
  destruct (zrun_ok zset_new [] ops zset_ok_new) as (s & E & Hok). exists s. split; [done|].
  intros l. fold l in Hok. pose proof (zset_ok_len _ _ Hok) as Hlen. split.
  - destruct (pop_min_loop_ok (count `min` length l) s l [] Hok) as (s' & Ep & Hok'); [lia|].
    exists s'. unfold pop_min. rewrite Hlen, Ep.
    rewrite (iter_keys_holds ScoreKey_cmp _ _ (proj1 Hok')).
    destruct (Nat.le_gt_cases count (length l)); [by rewrite Nat.min_l by lia|].
    rewrite Nat.min_r by lia. by rewrite !take_ge, !drop_ge by lia.
  - destruct (pop_max_loop_ok (count `min` length l) s l [] Hok) as (s' & Ep & Hok'); [lia|].
    exists s'. unfold pop_max. rewrite Hlen, Ep.
    rewrite (iter_keys_holds ScoreKey_cmp _ _ (proj1 Hok')).
    destruct (Nat.le_gt_cases count (length l)); [by rewrite Nat.min_l by lia|].
    rewrite Nat.min_r by lia. rewrite !take_ge by (rewrite ?length_reverse; lia).
    by replace (length l - length l) with (length l - count) by lia.
Qed.

(** Ranges by score: [ZRANGEBYSCORE] returns, in order (or reversed), the
    members whose score is within the bounds, cut to the LIMIT window, [ZCOUNT]
    counts them, and [ZREMRANGEBYSCORE] removes exactly them. *)
Theorem zset_by_score ops min max rev offset count :
  ∃ s, zrun zset_new ops = Ret s ∧
    let l := foldl zspec_op [] ops in
    let matched := filter (λ k, score_in_range (score k) min max = true) l in
    let window := drop offset (if (rev : bool) then reverse matched else matched) in
    range_by_score s min max rev offset count =
      Ret (scored <$> match count with Some c => take c window | None => window end) ∧
    count_by_score s min max = Ret (length matched) ∧
    (∃ s', remove_range_by_score s min max = Ret (s', length matched) ∧
       iter_keys (zlist s') = Ret (filter (λ k, k ∉ matched) l)).
Proof.
  destruct (zrun_ok zset_new [] ops zset_ok_new) as (s & E & Hok). exists s. split; [done|].
  intros l matched window. fold l in Hok.
  unfold range_by_score, count_by_score, remove_range_by_score.
  rewrite (iter_keys_holds ScoreKey_cmp _ _ (proj1 Hok)). cbn [mbind exec_bind]. fold matched.
  split_and!; [|done|].
  - rewrite limit_slice_spec. f_equal. unfold window.
    destruct rev, count; rewrite <- ?fmap_reverse, <- ?fmap_drop, <- ?fmap_take, <- ?fmap_drop; done.
  - destruct (remove_part_ok s l matched 0 Hok) as (s' & -> & Hok'); [apply sublist_filter|].
    exists s'. split; [done|]. by apply (iter_keys_holds ScoreKey_cmp), Hok'.
Qed.

(** ** Ranges by member *)

Definition member_lt (x y : ScoredMember) : Prop := cmp_bytes (sm_member x) (sm_member y) = Lt.

Lemma insert_by_member_perm x l : insert_by_member x l ≡ₚ x :: l.
Proof.
  induction l as [|y l IH]; simpl; [done|]. destruct (le_b _ _ _); [done|].
  rewrite IH. apply Permutation_swap.
Qed.

Lemma sort_by_member_perm l : sort_by_member l ≡ₚ l.
Proof.
  induction l as [|x l IH]; simpl; [done|]. rewrite insert_by_member_perm. by constructor.
Qed.

Lemma insert_by_member_sorted x l :
  StronglySorted member_lt l → Forall (λ y, sm_member y ≠ sm_member x) l →
  StronglySorted member_lt (insert_by_member x l).
Proof.
  induction l as [|y l IH]; intros Hs Hne; simpl; [by repeat constructor|].
  apply StronglySorted_inv in Hs as [Hs Hy]. apply Forall_cons in Hne as [Hyx Hne].
  unfold le_b. destruct (cmp_bytes (sm_member x) (sm_member y)) eqn:E.
  - apply cmp_bytes_Eq in E. congruence.
  - constructor; [by constructor|]. constructor; [done|].
    eapply Forall_impl; [exact Hy|]. intros z Hz. by eapply (cmp_lt_trans cmp_bytes).
  - constructor; [by apply IH|]. rewrite insert_by_member_perm. constructor; [|done].
    by apply cmp_lt_gt; [apply _|].
Qed.

Lemma sort_by_member_sorted l :
  NoDup (sm_member <$> l) → StronglySorted member_lt (sort_by_member l).
Proof.
  induction l as [|x l IH]; [constructor|]. rewrite fmap_cons. intros [Hni Hnd]%NoDup_cons.
  simpl. apply insert_by_member_sorted; [by apply IH|]. rewrite sort_by_member_perm.
  apply Forall_forall. intros y Hy E. apply Hni. rewrite <- E. by apply list_elem_of_fmap_2.
Qed.

(** Ranges by member: [ZRANGEBYLEX] returns the members within the bounds
    in increasing byte order (or reversed), cut to the LIMIT window, whatever
    the scores are; [ZLEXCOUNT] counts them and [ZREMRANGEBYLEX] removes exactly
    them, in whatever order the map is iterated. *)
Theorem zset_by_lex (hash_order : gmap Bytes f64 → list (Bytes * f64))
    (Hperm : ∀ m, hash_order m ≡ₚ map_to_list m) ops min max rev offset count :
  ∃ s matched, zrun zset_new ops = Ret s ∧
    let l := foldl zspec_op [] ops in
    let in_range k := member_in_lex_range (member k) min max in
    StronglySorted member_lt matched ∧ matched ≡ₚ scored <$> filter (λ k, in_range k = true) l ∧
    (let window := drop offset (if (rev : bool) then reverse matched else matched) in
     range_by_lex s min max rev offset count =
       Ret match count with Some c => take c window | None => window end) ∧
    count_by_lex hash_order s min max = length matched ∧
    (∃ s', remove_range_by_lex hash_order s min max = Ret (s', length matched) ∧
       iter_keys (zlist s') = Ret (filter (λ k, in_range k = false) l)).
Proof.
  destruct (zrun_ok zset_new [] ops zset_ok_new) as (s & E & Hok).
  set (l := foldl zspec_op [] ops) in *.
  set (part := filter (λ k, member_in_lex_range (member k) min max = true) l).
  exists s, (sort_by_member (scored <$> part)). split; [done|]. intros ? in_range.
  assert (Hmem : sm_member <$> (scored <$> part) = member <$> part) by by rewrite <- list_fmap_compose.
  assert (Hnd : NoDup (member <$> part)).
  { eapply sublist_NoDup; [by eapply zset_ok_members|]. apply fmap_sublist, sublist_filter. }
  assert (Hms : filter (λ m, member_in_lex_range m min max = true) (hash_order (member_map s)).*1
    ≡ₚ member <$> part).
  { assert (member <$> l ≡ₚ (hash_order (member_map s)).*1) as Hl.
    { rewrite Hperm, (proj2 Hok). unfold keys_of. by rewrite <- list_fmap_compose. }
    rewrite <- Hl. unfold part. by rewrite filter_fmap. }
  split_and!.
  - apply sort_by_member_sorted. by rewrite Hmem.
  - apply sort_by_member_perm.
  - intros window. unfold range_by_lex. rewrite (iter_keys_holds ScoreKey_cmp _ _ (proj1 Hok)).
    cbn [mbind exec_bind]. by rewrite limit_slice_spec.
  - unfold count_by_lex. by rewrite Hms, sort_by_member_perm, !length_fmap.
  - unfold remove_range_by_lex. destruct (remove_members_ok s l
      (filter (λ m, member_in_lex_range m min max = true) (hash_order (member_map s)).*1) 0 Hok)
      as (s' & Er & Hok').
    { by rewrite Hms. }
    { intros m Hm. rewrite Hms in Hm. apply list_elem_of_fmap in Hm as (k & -> & Hk).
      apply list_elem_of_filter in Hk as [_ Hk]. apply elem_of_dom. exists (score k).
      by apply (zset_ok_elem s l k Hok). }
    exists s'. rewrite Er. split; [by rewrite Hms, sort_by_member_perm, !length_fmap|].
    rewrite (iter_keys_holds ScoreKey_cmp _ _ (proj1 Hok')). f_equal. apply filter_ext_in.
    intros k Hk. rewrite Hms, list_elem_of_fmap. unfold in_range. split.
    + intros Hn. apply not_true_is_false. intros Ht. apply Hn. exists k. split; [done|].
      by apply list_elem_of_filter.
    + intros Hf (k' & E' & [Ht _]%list_elem_of_filter). congruence.
Qed.

Definition zexample : list zop :=
  [ZAdd (bs "b") (S754_finite false 1 1) (draw 2); ZAdd (bs "a") (S754_finite false 1 2) (draw 0);
   ZAdd (bs "c") f64_zero (draw 1)].

Lemma zset_by_lex_witness :
  ∃ s, zrun zset_new zexample = Ret s ∧
    count_by_lex map_to_list s (Inclusive (bs "a")) (Exclusive (bs "c")) = 2.
Proof.
  destruct (zset_by_lex map_to_list (λ m, reflexivity _) zexample
    (Inclusive (bs "a")) (Exclusive (bs "c")) false 0 None)
    as (s & matched & E & _ & Hp & _ & Hc & _).
  exists s. split; [exact E|]. rewrite Hc, Hp. vm_compute. reflexivity.
Defined.
