(* ===== verification/Float64.v ===== *)
(** * Doubles: their 64 bits and their decimal text

    An [f64] is a [spec_float] of precision 53 and maximal exponent 1024.  The file models
    [f64::to_bits], [f64::from_bits] and [str::parse::<f64>], with the law that bits give the number
    back.  The model has one NaN, so the payload of a NaN is not kept. *)

From S2P Require Import Prelude RustStd Text.
From Stdlib Require Import Lia Floats.SpecFloat.

Local Open Scope Z_scope.

Abbreviation f64 := spec_float.

(** The numbers a double can be. *)
Definition valid_f64 (x : f64) : bool := valid_binary 53 1024 x.

(** ** Bits *)

Definition sign_bit (s : bool) : Z := if s then 2 ^ 63 else 0.

(** [f64::to_bits] *)
Definition to_bits (x : f64) : Z :=
  match x with
  | S754_zero s => sign_bit s
  | S754_infinity s => sign_bit s + 2047 * 2 ^ 52
  | S754_nan => 2047 * 2 ^ 52 + 2 ^ 51
  | S754_finite s m e =>
    if Z.pos m <? 2 ^ 52 then sign_bit s + Z.pos m
    else sign_bit s + (e + 1075) * 2 ^ 52 + (Z.pos m - 2 ^ 52)
  end.

(** [f64::from_bits] *)
Definition from_bits (b : Z) : f64 :=
  let s := 2 ^ 63 <=? b in
  let expo := (b / 2 ^ 52) mod 2048 in
  let mant := b mod 2 ^ 52 in
  if expo =? 2047 then (if mant =? 0 then S754_infinity s else S754_nan)
  else if expo =? 0 then
    match mant with Z.pos m => S754_finite s m (-1074) | _ => S754_zero s end
  else match mant + 2 ^ 52 with Z.pos m => S754_finite s m (expo - 1075) | _ => S754_nan end.

Lemma digits2_log2 m : Z.pos (digits2_pos m) = Z.log2 (Z.pos m) + 1.
Proof.
  induction m as [m IH|m IH|]; simpl digits2_pos; [..|done]; rewrite Pos2Z.inj_succ, IH.
  - rewrite (Pos2Z.inj_xI m), (Z.log2_succ_double (Z.pos m)) by lia. lia.
  - rewrite (Pos2Z.inj_xO m), (Z.log2_double (Z.pos m)) by lia. lia.
Qed.

(** A finite double is subnormal, or normal with its exponent in range. *)
Lemma valid_finite s m e :
  valid_f64 (S754_finite s m e) = true →
  (e = -1074 ∧ Z.pos m < 2 ^ 52) ∨ (2 ^ 52 ≤ Z.pos m < 2 ^ 53 ∧ -1074 ≤ e ≤ 971).
Proof.
  unfold valid_f64, valid_binary, bounded, canonical_mantissa, fexp, emin. intros [H1 H2]%andb_true_iff.
  apply Z.eqb_eq in H1. apply Z.leb_le in H2. rewrite digits2_log2 in H1.
  pose proof (Z.log2_spec (Z.pos m) ltac:(lia)) as [Hlo Hhi].
  assert (Hd : Z.log2 (Z.pos m) ≤ 52) by lia.
  assert (Hlt : Z.pos m < 2 ^ 53) by (eapply Z.lt_le_trans; [exact Hhi|]; apply Z.pow_le_mono_r; lia).
  destruct (Z.lt_ge_cases (Z.pos m) (2 ^ 52)) as [Hm|Hm]; [left|right; lia]. split; [|done].
  assert (Z.log2 (Z.pos m) < 52) by (by apply Z.log2_lt_pow2). lia.
Qed.

Lemma bits_fields (sg : bool) e m :
  0 ≤ e < 2048 → 0 ≤ m < 2 ^ 52 →
  let b := sign_bit sg + e * 2 ^ 52 + m in
  (2 ^ 63 <=? b) = sg ∧ (b / 2 ^ 52) mod 2048 = e ∧ b mod 2 ^ 52 = m ∧ in_u64 b.
Proof.
  intros He Hm b. unfold b, sign_bit, u64_max.
  replace (2 ^ 63) with (2048 * 2 ^ 52) by reflexivity. change (2 ^ 52) with 4503599627370496 in *.
  destruct sg; (split; [lia|]); Z.to_euclidean_division_equations; lia.
Qed.

(** The bits of a double give it back. *)
Lemma from_to_bits x : valid_f64 x = true → from_bits (to_bits x) = x ∧ in_u64 (to_bits x).
Proof.
  intros Hv. destruct x as [sg|sg| |sg m e]; unfold to_bits.
  - destruct (bits_fields sg 0 0) as (H1 & H2 & H3 & H4); [lia..|]. replace (sign_bit sg) with (sign_bit sg + 0 * 2 ^ 52 + 0) by lia.
    split; [|done]. unfold from_bits. rewrite H1, H2, H3. done.
  - destruct (bits_fields sg 2047 0) as (H1 & H2 & H3 & H4); [lia..|]. rewrite Z.add_0_r in *.
    split; [|done]. unfold from_bits. rewrite H1, H2, H3. done.
  - split; [by vm_compute|]. unfold u64_max. lia.
  - destruct (valid_finite sg m e Hv) as [[-> Hm]|[Hm He]].
    + rewrite (proj2 (Z.ltb_lt _ _) Hm). destruct (bits_fields sg 0 (Z.pos m)) as (H1 & H2 & H3 & H4); [lia..|].
      replace (sign_bit sg + Z.pos m) with (sign_bit sg + 0 * 2 ^ 52 + Z.pos m) by lia. split; [|done].
      unfold from_bits. rewrite H1, H2, H3. done.
    + rewrite (proj2 (Z.ltb_ge _ _) (proj1 Hm)).
      destruct (bits_fields sg (e + 1075) (Z.pos m - 2 ^ 52)) as (H1 & H2 & H3 & H4); [lia..|]. split; [|done].
      unfold from_bits. rewrite H1, H2, H3.
      rewrite (proj2 (Z.eqb_neq (e + 1075) 2047)), (proj2 (Z.eqb_neq (e + 1075) 0)) by lia.
      replace (Z.pos m - 2 ^ 52 + 2 ^ 52) with (Z.pos m) by lia. f_equal. lia.
Qed.

(** ** Text *)

(** The double nearest to [m * 10 ^ e], ties to even. *)
Definition of_decimal (neg : bool) (m e : Z) : f64 :=
  match m with
  | Z.pos p =>
    if 0 <=? e then
      match binary_normalize 53 1024 (Z.pos p * 10 ^ e) 0 false with
      | S754_finite _ q f => S754_finite neg q f
      | S754_infinity _ => S754_infinity neg
      | S754_zero _ => S754_zero neg
      | S754_nan => S754_nan
      end
    else
      match 10 ^ (- e) with
      | Z.pos d =>
        let '(q, f, l) := SFdiv_core_binary 53 1024 (Z.pos p) 0 (Z.pos d) 0 in
        binary_round_aux 53 1024 neg q f l
      | _ => S754_nan
      end
  | _ => S754_zero neg
  end.

(** Digits up to a character that is none: their value after [acc], how many, and the rest. *)
Fixpoint take_digits (s : Str) (acc : Z) (n : Z) : Z * Z * Str :=
  match s with
  | c :: r => if is_digit c then take_digits r (acc * 10 + (c - 48)) (n + 1) else (acc, n, s)
  | [] => (acc, n, [])
  end.

(** The exponent after [e] or [E]: an optional sign and at least one digit, to the end. *)
Definition parse_exponent (s : Str) : option Z :=
  let '(neg, s) := match s with
                   | c :: r => if c =? 45 then (true, r) else if c =? 43 then (false, r) else (false, s)
                   | [] => (false, s)
                   end in
  let '(v, n, rest) := take_digits s 0 0 in
  if (n =? 0) || negb (bool_decide (rest = [])) then None else Some (if neg then - v else v).

(** [str::parse::<f64>]: an optional sign, then [inf], [infinity] or [nan] in any case, or digits
    with at most one point among or around them and an optional exponent. *)
Definition parse_f64 (s : Str) : option f64 :=
  let '(neg, s) := match s with
                   | c :: r => if c =? 45 then (true, r) else if c =? 43 then (false, r) else (false, s)
                   | [] => (false, s)
                   end in
  if eq_ignore_ascii_case s (str "inf") || eq_ignore_ascii_case s (str "infinity") then Some (S754_infinity neg)
  else if eq_ignore_ascii_case s (str "nan") then Some S754_nan
  else
    let '(ip, n1, rest) := take_digits s 0 0 in
    let '(m, n2, rest) := match rest with
                          | c :: r => if c =? 46 then take_digits r ip 0 else (ip, 0, rest)
                          | [] => (ip, 0, rest)
                          end in
    if n1 + n2 =? 0 then None else
    match rest with
    | [] => Some (of_decimal neg m (- n2))
    | c :: r =>
      if (c =? 101) || (c =? 69) then
        e ← parse_exponent r; Some (of_decimal neg m (e - n2))
      else None
    end.

(** Three closed readings, the last one a halfway case. *)
Lemma parse_f64_examples :
  parse_f64 (str "-2.5e1") = Some (S754_finite true 7036874417766400 (-48)) ∧
  parse_f64 (str "0.1") = Some (S754_finite false 7205759403792794 (-56)) ∧
  parse_f64 (str "9007199254740993") = Some (S754_finite false 4503599627370496 1).
Proof. by vm_compute. Qed.

(** ** Arithmetic *)

Definition f64_of_Z (z : Z) : f64 := binary_normalize 53 1024 z 0 false.
Definition fadd (a b : f64) : f64 := SFadd 53 1024 a b.
Definition fsub (a b : f64) : f64 := SFsub 53 1024 a b.
Definition fmul (a b : f64) : f64 := SFmul 53 1024 a b.
Definition fdiv (a b : f64) : f64 := SFdiv 53 1024 a b.
Definition fsqrt (a : f64) : f64 := SFsqrt 53 1024 a.

(** [f64::max]: the other number when one is a NaN. *)
Definition fmax (a b : f64) : f64 :=
  match a, b with
  | S754_nan, _ => b
  | _, S754_nan => a
  | _, _ => if SFltb a b then b else a
  end.

(** [x as u64]: towards zero, saturating, zero for a NaN. *)
Definition f64_as_u64 (x : f64) : Z :=
  match x with
  | S754_finite false m e => Z.min (if 0 <=? e then Z.pos m * 2 ^ e else Z.pos m / 2 ^ (- e)) u64_max
  | S754_infinity false => u64_max
  | _ => 0
  end.
