(* ===== verification/Geo.v ===== *)
(** * Geospatial sets ([geospatial.rs])

    A geo set maps members to points.  Coordinates are doubles with IEEE arithmetic; the functions
    of the mathematical library ([sin], [cos], [atan2], [powi]), whose results the platform decides,
    are the class [Libm].  The order in which the members are visited is an argument. *)

From S2P Require Import Prelude RustStd Text Float64 SkipList SkipListFacts SortedSet SortedSetFacts.
From Stdlib Require Import Lia Floats.SpecFloat.
Local Open Scope Z_scope.

Class Libm : Type := { f_sin : f64 → f64; f_cos : f64 → f64; f_atan2 : f64 → f64 → f64; f_powi : f64 → Z → f64 }.

(** ** Constants and data *)

Definition GEO_LAT_MIN : f64 := of_decimal true 8505112878 (-8).
Definition GEO_LAT_MAX : f64 := of_decimal false 8505112878 (-8).
Definition GEO_LONG_MIN : f64 := of_decimal true 180 0.
Definition GEO_LONG_MAX : f64 := of_decimal false 180 0.
Definition PI : f64 := of_decimal false 3141592653589793115997963468544185161590576171875 (-48).
Definition EARTH_RADIUS_METERS : f64 := of_decimal false 6372797560856 (-6).
Definition GEO_ALPHABET : Bytes := bs "0123456789bcdefghjkmnpqrstuvwxyz".

Inductive SortOrder : Type := Asc | Desc | NoSort.

Record GeoAddOptions : Type := mkGeoAddOptions { nx : bool; xx : bool; get : bool; ch : bool }.

Inductive GeoAddResult : Type :=
| Added
| Updated (lon lat : f64)
| Skipped
| InvalidCoords.

Record GeoPoint : Type := mkGeoPoint { gp_member : Bytes; longitude : f64; latitude : f64 }.

Abbreviation GeoSet := (gmap Bytes GeoPoint).

Record GeoSearchResult : Type := mkGeoSearchResult {
  gr_member : Bytes; gr_longitude : f64; gr_latitude : f64; distance : f64
}.

Inductive DistanceUnit : Type := Meters | Kilometers | Miles | Feet.

(** ** Points *)

Definition is_valid_coordinates (lon lat : f64) : bool :=
  SFleb GEO_LONG_MIN lon && SFleb lon GEO_LONG_MAX && SFleb GEO_LAT_MIN lat && SFleb lat GEO_LAT_MAX.

Definition new_point (m : Bytes) (lon lat : f64) : option GeoPoint :=
  if negb (is_valid_coordinates lon lat) then None else Some (mkGeoPoint m lon lat).

(** [for i in 0..26 { result |= …; result |= … }] *)
Definition interleave_bits (x y : Z) : Z :=
  foldl (λ result i,
    let i := Z.of_nat i in
    Z.lor (Z.lor result (Z.shiftl (Z.land (Z.shiftr x i) 1) (2 * i)))
      (Z.shiftl (Z.land (Z.shiftr y i) 1) (2 * i + 1))) 0 (seq 0 26).

Definition deinterleave_bits (hash : Z) : Z * Z :=
  foldl (λ '(x, y) i,
    let i := Z.of_nat i in
    (Z.lor x (Z.shiftl (Z.land (Z.shiftr hash (2 * i)) 1) i),
     Z.lor y (Z.shiftl (Z.land (Z.shiftr hash (2 * i + 1)) 1) i))) (0, 0) (seq 0 26).

Definition geohash_encode (lon lat : f64) : Z :=
  let lon_norm := fdiv (fsub lon GEO_LONG_MIN) (fsub GEO_LONG_MAX GEO_LONG_MIN) in
  let lat_norm := fdiv (fsub lat GEO_LAT_MIN) (fsub GEO_LAT_MAX GEO_LAT_MIN) in
  let lon_bits := f64_as_u64 (fmul lon_norm (f64_of_Z (2 ^ 26))) in
  let lat_bits := f64_as_u64 (fmul lat_norm (f64_of_Z (2 ^ 26))) in
  interleave_bits lon_bits lat_bits.

Definition geohash_decode (hash : Z) : f64 * f64 :=
  let '(lon_bits, lat_bits) := deinterleave_bits hash in
  let lon_norm := fdiv (f64_of_Z lon_bits) (f64_of_Z (2 ^ 26)) in
  let lat_norm := fdiv (f64_of_Z lat_bits) (f64_of_Z (2 ^ 26)) in
  (fadd (fmul lon_norm (fsub GEO_LONG_MAX GEO_LONG_MIN)) GEO_LONG_MIN,
   fadd (fmul lat_norm (fsub GEO_LAT_MAX GEO_LAT_MIN)) GEO_LAT_MIN).

Definition geohash_to_string (hash : Z) : Bytes :=
  let bits := wrap_u64 (Z.shiftl hash 3) in
  (λ i, default x00 (GEO_ALPHABET !! Z.to_nat (Z.land (Z.shiftr bits (55 - 5 * (Z.of_nat i + 1))) 0x1f))) <$> seq 0 11.

(** ** Units *)

Definition to_meters (u : DistanceUnit) (d : f64) : f64 :=
  match u with
  | Meters => d
  | Kilometers => fmul d (f64_of_Z 1000)
  | Miles => fmul d (of_decimal false 160934 (-2))
  | Feet => fmul d (of_decimal false 3048 (-4))
  end.

Definition from_meters (u : DistanceUnit) (d : f64) : f64 :=
  match u with
  | Meters => d
  | Kilometers => fdiv d (f64_of_Z 1000)
  | Miles => fdiv d (of_decimal false 160934 (-2))
  | Feet => fdiv d (of_decimal false 3048 (-4))
  end.

Section geo.
Context {libm : Libm} (members_iter : GeoSet → list (Bytes * GeoPoint)).

Definition radians (x : f64) : f64 := fdiv (fmul x PI) (f64_of_Z 180).

Definition haversine_distance (lon1 lat1 lon2 lat2 : f64) : f64 :=
  let two := f64_of_Z 2 in
  let delta_lat := radians (fsub lat2 lat1) in
  let delta_lon := radians (fsub lon2 lon1) in
  let a := fadd (f_powi (f_sin (fdiv delta_lat two)) 2)
             (fmul (fmul (f_cos (radians lat1)) (f_cos (radians lat2))) (f_powi (f_sin (fdiv delta_lon two)) 2)) in
  let c := fmul two (f_atan2 (fsqrt a) (fsqrt (fsub (f64_of_Z 1) a))) in
  fmul EARTH_RADIUS_METERS c.

Definition distance_to (p q : GeoPoint) : f64 :=
  haversine_distance (longitude p) (latitude p) (longitude q) (latitude q).

(** ** Sets *)

Definition geo_add (self : GeoSet) (m : Bytes) (lon lat : f64) : GeoSet * option bool :=
  match new_point m lon lat with
  | None => (self, None)
  | Some point => (<[m := point]> self, Some (negb (bool_decide (is_Some (self !! m)))))
  end.

Definition add_with_opts (self : GeoSet) (m : Bytes) (lon lat : f64) (opts : GeoAddOptions) : GeoSet * GeoAddResult :=
  if negb (is_valid_coordinates lon lat) then (self, InvalidCoords) else
  match self !! m with
  | Some old =>
    if nx opts then (self, Skipped)
    else (<[m := mkGeoPoint m lon lat]> self, Updated (longitude old) (latitude old))
  | None =>
    if xx opts then (self, Skipped)
    else (<[m := mkGeoPoint m lon lat]> self, Added)
  end.

Definition distance_between (self : GeoSet) (m1 m2 : Bytes) : option f64 :=
  p1 ← self !! m1; p2 ← self !! m2; Some (distance_to p1 p2).

Definition get_position (self : GeoSet) (m : Bytes) : option (f64 * f64) :=
  (λ p, (longitude p, latitude p)) <$> self !! m.

Definition geo_remove (self : GeoSet) (m : Bytes) : GeoSet * bool :=
  (delete m self, bool_decide (is_Some (self !! m))).

Definition iter_members (self : GeoSet) : list (Bytes * f64 * f64) :=
  (λ kp : Bytes * GeoPoint, (gp_member kp.2, longitude kp.2, latitude kp.2)) <$> members_iter self.

(** [partial_cmp(..).unwrap_or(Equal)] *)
Definition distance_cmp (a b : GeoSearchResult) : comparison := default Eq (SFcompare (distance a) (distance b)).

(** A stable sort: each element goes behind the ones it does not precede. *)
Fixpoint insert_by (cmp : GeoSearchResult → GeoSearchResult → comparison) (x : GeoSearchResult) (l : list GeoSearchResult) : list GeoSearchResult :=
  match l with
  | [] => [x]
  | y :: l' => match cmp x y with Lt => x :: l | _ => y :: insert_by cmp x l' end
  end.
Definition sort_by (cmp : GeoSearchResult → GeoSearchResult → comparison) (l : list GeoSearchResult) : list GeoSearchResult :=
  foldl (λ acc x, insert_by cmp x acc) [] l.

Definition sort_results (results : list GeoSearchResult) (sort : SortOrder) : list GeoSearchResult :=
  match sort with
  | Asc | NoSort => sort_by distance_cmp results
  | Desc => sort_by (λ a b, distance_cmp b a) results
  end.

(** A point as a result, seen from the centre. *)
Definition result_from (lon lat : f64) (p : GeoPoint) : GeoSearchResult :=
  mkGeoSearchResult (gp_member p) (longitude p) (latitude p) (haversine_distance lon lat (longitude p) (latitude p)).

Definition search_radius_sorted (self : GeoSet) (lon lat radius : f64) (unit : DistanceUnit) (sort : SortOrder) : list GeoSearchResult :=
  if negb (is_valid_coordinates lon lat) then [] else
  let radius_meters := to_meters unit radius in
  sort_results
    (filter (λ r, SFleb (distance r) radius_meters = true) (result_from lon lat <$> (members_iter self).*2)) sort.

Definition search_radius (self : GeoSet) (lon lat radius : f64) (unit : DistanceUnit) : list GeoSearchResult :=
  search_radius_sorted self lon lat radius unit Asc.

Definition search_box (self : GeoSet) (lon lat width height : f64) (sort : SortOrder) : list GeoSearchResult :=
  if negb (is_valid_coordinates lon lat) then [] else
  let half_h := fdiv height (f64_of_Z 2) in
  let half_w := fdiv width (f64_of_Z 2) in
  let lat_rad := radians lat in
  let lat_delta := fdiv half_h (f64_of_Z 111320) in
  let lon_delta := fdiv half_w (fmul (f64_of_Z 111320) (fmax (f_cos lat_rad) (of_decimal false 1 (-10)))) in
  sort_results
    (result_from lon lat <$>
     filter (λ p, SFleb (SFabs (fsub (latitude p) lat)) lat_delta && SFleb (SFabs (fsub (longitude p) lon)) lon_delta = true)
       (members_iter self).*2) sort.

Definition search_from_member (self : GeoSet) (m : Bytes) (radius : f64) (unit : DistanceUnit) : list GeoSearchResult :=
  match self !! m with
  | Some p => search_radius self (longitude p) (latitude p) radius unit
  | None => []
  end.
End geo.

(** ** Facts *)

(** Every point is filed under its name and lies in the valid region. *)
Definition geo_ok (s : GeoSet) : Prop :=
  ∀ m p, s !! m = Some p → gp_member p = m ∧ is_valid_coordinates (longitude p) (latitude p) = true.

Lemma geo_ok_insert s m lon lat : geo_ok s → is_valid_coordinates lon lat = true → geo_ok (<[m := mkGeoPoint m lon lat]> s).
Proof. intros Hs Hv k p [[<- <-]|[_ Hp]]%lookup_insert_Some; [done|by apply Hs]. Qed.

Lemma geo_add_ok s m lon lat : geo_ok s → geo_ok (geo_add s m lon lat).1.
Proof.
  intros Hs. unfold geo_add, new_point. destruct (is_valid_coordinates lon lat) eqn:E; simpl; [|done].
  by apply geo_ok_insert.
Qed.

Lemma add_with_opts_ok s m lon lat o : geo_ok s → geo_ok (add_with_opts s m lon lat o).1.
Proof.
  intros Hs. unfold add_with_opts. destruct (is_valid_coordinates lon lat) eqn:E; simpl; [|done].
  destruct (s !! m); [destruct (nx o)|destruct (xx o)]; simpl; try done; by apply geo_ok_insert.
Qed.

(** *** Bits *)

Lemma low_bit_of z k i : 0 ≤ k → 0 ≤ i → Z.testbit (Z.land (Z.shiftr z k) 1) i = (i =? 0) && Z.testbit z k.
Proof.
  intros Hk Hi. rewrite Z.land_spec, Z.shiftr_spec by done. change 1 with (2 ^ 0). rewrite Z.pow2_bits_eqb by done.
  destruct (Z.eqb_spec 0 i) as [<-|Hne]; [by rewrite andb_true_r|]. by rewrite andb_false_r, (proj2 (Z.eqb_neq i 0)).
Qed.

Lemma shifted_bit z k j i :
  0 ≤ k → 0 ≤ j → 0 ≤ i → Z.testbit (Z.shiftl (Z.land (Z.shiftr z k) 1) j) i = (i =? j) && Z.testbit z k.
Proof.
  intros Hk Hj Hi. destruct (Z.lt_ge_cases i j).
  - rewrite Z.shiftl_spec_low by done. by rewrite (proj2 (Z.eqb_neq i j)) by lia.
  - rewrite Z.shiftl_spec, low_bit_of by lia. f_equal. destruct (Z.eqb_spec (i - j) 0), (Z.eqb_spec i j); lia || done.
Qed.

(** Bit [i] of the interleaving of the low [n] bits. *)
Definition woven (x y : Z) (n : nat) (i : Z) : bool :=
  (i <? 2 * Z.of_nat n) && (if Z.even i then Z.testbit x (i / 2) else Z.testbit y (i / 2)).

Lemma interleave_bits_spec x y i : 0 ≤ i → Z.testbit (interleave_bits x y) i = woven x y 26 i.
Proof.
  intros Hi. unfold interleave_bits.
  assert (G : ∀ n, Z.testbit (foldl (λ result i, let i := Z.of_nat i in
    Z.lor (Z.lor result (Z.shiftl (Z.land (Z.shiftr x i) 1) (2 * i))) (Z.shiftl (Z.land (Z.shiftr y i) 1) (2 * i + 1))) 0 (seq 0 n)) i
    = woven x y n i); [|apply G].
  induction n as [|n IH]; [rewrite Z.bits_0; unfold woven; by rewrite (proj2 (Z.ltb_ge i _))|].
  rewrite seq_S, foldl_snoc. simpl Nat.add. cbv zeta in *. rewrite !Z.lor_spec, IH, !shifted_bit by lia. unfold woven.
  rewrite Zeven_mod. destruct (Z.eqb_spec i (2 * Z.of_nat n)) as [->|H1]; [|destruct (Z.eqb_spec i (2 * Z.of_nat n + 1)) as [->|H2]].
  - rewrite (proj2 (Z.ltb_ge _ _)), (proj2 (Z.ltb_lt _ (2 * Z.of_nat (S n)))) by lia. rewrite (Z.mul_comm 2), Z.mod_mul, Z.div_mul by lia.
    simpl. rewrite (proj2 (Z.eqb_neq _ _)) by lia. by rewrite orb_false_r.
  - rewrite (proj2 (Z.ltb_ge _ _)), (proj2 (Z.ltb_lt _ (2 * Z.of_nat (S n)))) by lia.
    replace ((2 * Z.of_nat n + 1) mod 2) with 1 by (Z.to_euclidean_division_equations; lia).
    by replace ((2 * Z.of_nat n + 1) / 2) with (Z.of_nat n) by (Z.to_euclidean_division_equations; lia).
  - simpl. rewrite !orb_false_r. f_equal.
    destruct (Z.ltb_spec i (2 * Z.of_nat n)), (Z.ltb_spec i (2 * Z.of_nat (S n))); done || lia.
Qed.

Lemma deinterleave_bits_spec h i :
  0 ≤ i → Z.testbit (deinterleave_bits h).1 i = (i <? 26) && Z.testbit h (2 * i) ∧
          Z.testbit (deinterleave_bits h).2 i = (i <? 26) && Z.testbit h (2 * i + 1).
Proof.
  intros Hi. unfold deinterleave_bits.
  assert (G : ∀ n, let r := foldl (λ '(x, y) i, let i := Z.of_nat i in
     (Z.lor x (Z.shiftl (Z.land (Z.shiftr h (2 * i)) 1) i), Z.lor y (Z.shiftl (Z.land (Z.shiftr h (2 * i + 1)) 1) i))) (0, 0) (seq 0 n) in
    Z.testbit r.1 i = (i <? Z.of_nat n) && Z.testbit h (2 * i) ∧ Z.testbit r.2 i = (i <? Z.of_nat n) && Z.testbit h (2 * i + 1)); [|apply G].
  induction n as [|n IH]; [simpl fst; simpl snd; rewrite Z.bits_0, (proj2 (Z.ltb_ge i (Z.of_nat 0))) by done; done|].
  rewrite seq_S, foldl_snoc. cbv zeta in *. destruct (foldl _ (0, 0) (seq 0 n)) as [a b]. simpl in *. destruct IH as [Ha Hb].
  rewrite !Z.lor_spec, Ha, Hb, !shifted_bit by lia.
  destruct (Z.eqb_spec i (Z.of_nat n)) as [->|Hne].
  - rewrite Z.ltb_irrefl, (proj2 (Z.ltb_lt _ _)) by lia. done.
  - simpl. rewrite !orb_false_r. by replace (i <? Z.of_nat (S n)) with (i <? Z.of_nat n)
      by (destruct (Z.ltb_spec i (Z.of_nat n)), (Z.ltb_spec i (Z.of_nat (S n))); done || lia).
Qed.

Lemma low_bits_testbit x i : 0 ≤ i → Z.testbit (x mod 2 ^ 26) i = (i <? 26) && Z.testbit x i.
Proof.
  intros Hi. destruct (Z.ltb_spec i 26); [by rewrite Z.mod_pow2_bits_low|by rewrite Z.mod_pow2_bits_high by lia].
Qed.

(** Taking a hash apart gives the low 26 bits of each coordinate. *)
Lemma deinterleave_interleave x y : deinterleave_bits (interleave_bits x y) = (x mod 2 ^ 26, y mod 2 ^ 26).
Proof.
  rewrite (surjective_pairing (deinterleave_bits _)). f_equal; apply Z.bits_inj'; intros i Hi.
  - rewrite (proj1 (deinterleave_bits_spec _ i Hi)), interleave_bits_spec, low_bits_testbit by lia. unfold woven.
    rewrite Zeven_mod, (Z.mul_comm 2 i), Z.mod_mul, Z.div_mul by lia. simpl.
    destruct (Z.ltb_spec i 26); [|done]. by rewrite (proj2 (Z.ltb_lt _ _)) by lia.
  - rewrite (proj2 (deinterleave_bits_spec _ i Hi)), interleave_bits_spec, low_bits_testbit by lia. unfold woven.
    rewrite Zeven_mod. replace ((2 * i + 1) mod 2) with 1 by (Z.to_euclidean_division_equations; lia).
    replace ((2 * i + 1) / 2) with i by (Z.to_euclidean_division_equations; lia). simpl.
    destruct (Z.ltb_spec i 26); [|done]. by rewrite (proj2 (Z.ltb_lt _ _)) by lia.
Qed.

(** ** Properties of geospatial sets

    Searches return exactly the members in range, ordered by distance; hashes take the coordinates
    apart again; and two places where the code goes wrong, both at the 180th meridian. *)

(** ** Sorting *)

Lemma insert_by_perm cmp x l : insert_by cmp x l ≡ₚ x :: l.
Proof.
  induction l as [|y l IH]; simpl; [done|]. destruct (cmp x y); [|done|]; rewrite IH; apply Permutation_swap.
Qed.

Lemma sort_by_perm cmp l : sort_by cmp l ≡ₚ l.
Proof.
  unfold sort_by. induction l as [|x l IH] using rev_ind; [done|]. rewrite foldl_snoc, insert_by_perm, IH.
  by rewrite (Permutation_app_comm l [x]).
Qed.

Section sorted.
Context (cmp : GeoSearchResult → GeoSearchResult → comparison) `{!TotalCmp cmp}.
Abbreviation le := (λ a b, cmp a b ≠ Gt).

Lemma insert_by_sorted x l : StronglySorted le l → StronglySorted le (insert_by cmp x l).
Proof.
  induction 1 as [|y l Hs IH Hy]; simpl; [by repeat constructor|].
  assert (Hins : cmp x y ≠ Lt → StronglySorted le (y :: insert_by cmp x l)).
  { intros Hxy. constructor; [done|]. rewrite insert_by_perm. constructor; [|done].
    rewrite (cmp_flip cmp x y). by destruct (cmp x y). }
  destruct (cmp x y) eqn:E; [by apply Hins| |by apply Hins].
  constructor; [by constructor|]. constructor; [congruence|].
  eapply Forall_impl; [exact Hy|]. intros z Hz. apply (cmp_le_trans cmp x y z); congruence.
Qed.

Lemma sort_by_sorted l : StronglySorted le (sort_by cmp l).
Proof.
  unfold sort_by. induction l as [|x l IH] using rev_ind; [constructor|]. rewrite foldl_snoc. by apply insert_by_sorted.
Qed.
End sorted.

(** Two comparisons that agree on the elements sort alike. *)
Lemma sort_by_ext c1 c2 l :
  (∀ x y, x ∈ l → y ∈ l → c1 x y = c2 x y) → sort_by c1 l = sort_by c2 l.
Proof.
  assert (Hins : ∀ x l, (∀ y, y ∈ l → c1 x y = c2 x y) → insert_by c1 x l = insert_by c2 x l).
  { intros x. induction l0 as [|y l0 IH]; intros H; simpl; [done|]. rewrite H by left.
    rewrite IH by (intros z Hz; apply H; by right). done. }
  unfold sort_by. induction l as [|x l IH] using rev_ind; intros H; [done|]. rewrite !foldl_snoc, IH.
  - apply Hins. intros y Hy. assert (Hp : y ∈ l) by (by rewrite <- (sort_by_perm c2 l)). apply H; set_solver.
  - intros a b Ha Hb. apply H; set_solver.
Qed.

Definition by_distance (a b : GeoSearchResult) : comparison := OrderedFloat_cmp (distance a) (distance b).

#[global] Instance by_distance_total : TotalCmp by_distance.
Proof.
  unfold by_distance. split; intros; [apply (cmp_refl OrderedFloat_cmp)|apply (cmp_flip OrderedFloat_cmp)|].
  by eapply (cmp_le_trans OrderedFloat_cmp).
Qed.

#[global] Instance flip_total {A} (cmp : A → A → comparison) : TotalCmp cmp → TotalCmp (λ a b, cmp b a).
Proof.
  intros H. split; intros; [apply (cmp_refl cmp)|apply (cmp_flip cmp)|]. by eapply (cmp_le_trans cmp).
Qed.

Lemma leb_not_nan a b : SFleb a b = true → is_nan a = false ∧ is_nan b = false.
Proof. by destruct a, b. Qed.

Lemma distance_cmp_real a b : is_nan (distance a) = false → is_nan (distance b) = false → distance_cmp a b = by_distance a b.
Proof. intros Ha Hb. unfold distance_cmp, by_distance, OrderedFloat_cmp. by rewrite Ha, Hb. Qed.

Lemma not_gt_leb a b : is_nan a = false → is_nan b = false → OrderedFloat_cmp a b ≠ Gt → SFleb a b = true.
Proof.
  unfold OrderedFloat_cmp, SFleb. intros Ha Hb. rewrite Ha, Hb.
  destruct (SFcompare a b) as [[]|] eqn:E; try done. by destruct a as [|[]| |[]], b as [|[]| |[]].
Qed.

(** Sorted by distance, nearest first or farthest first. *)
Definition ordered (sort : SortOrder) (a b : GeoSearchResult) : Prop :=
  match sort with
  | Asc | NoSort => SFleb (distance a) (distance b) = true
  | Desc => SFleb (distance b) (distance a) = true
  end.

Lemma sort_results_perm l sort : sort_results l sort ≡ₚ l.
Proof. destruct sort; apply sort_by_perm. Qed.

Lemma StronglySorted_weaken {A} (R S : A → A → Prop) l :
  (∀ x y, x ∈ l → y ∈ l → R x y → S x y) → StronglySorted R l → StronglySorted S l.
Proof.
  intros H Hs. induction Hs as [|x l Hs IH Hx]; [constructor|]. constructor.
  - apply IH. intros a b Ha Hb. apply H; by right.
  - rewrite Forall_forall in *. intros y Hy. apply H; [left|by right|by apply Hx].
Qed.

Lemma sort_results_sorted l sort :
  (∀ r, r ∈ l → is_nan (distance r) = false) → StronglySorted (ordered sort) (sort_results l sort).
Proof.
  intros Hn. assert (Hn' : ∀ r, r ∈ sort_results l sort → is_nan (distance r) = false) by (intros r; rewrite sort_results_perm; apply Hn).
  destruct sort; simpl in *.
  1,3: rewrite (sort_by_ext distance_cmp by_distance) in * by (intros; by apply distance_cmp_real; apply Hn);
    eapply StronglySorted_weaken, (sort_by_sorted by_distance); intros x y Hx Hy; apply not_gt_leb; by apply Hn'.
  rewrite (sort_by_ext (λ a b, distance_cmp b a) (λ a b, by_distance b a)) in * by (intros; by apply distance_cmp_real; apply Hn).
  eapply StronglySorted_weaken, (sort_by_sorted (λ a b, by_distance b a)). intros x y Hx Hy. apply not_gt_leb; by apply Hn'.
Qed.

(** ** Properties *)


(** A flat-earth library for closed examples: [sin], [powi] and [atan2] chosen so that distances are
    finite, [cos] constantly one. *)
Definition flat : Libm := {| f_sin x := x; f_cos _ := f64_of_Z 1; f_atan2 y _ := y; f_powi x _ := fmul x x |}.

Definition two_points : GeoSet :=
  {[bs "a" := mkGeoPoint (bs "a") (f64_of_Z 10) (f64_of_Z 20); bs "b" := mkGeoPoint (bs "b") (f64_of_Z 11) (f64_of_Z 20)]}.


(** The two ends of the longitude range get the same hash.  A coordinate becomes a 26-bit number
    by scaling the range to 2^26, which takes longitude 180, a valid one, to 2^26 itself; the
    interleaving drops that bit, so the point hashes as longitude -180 does, and decodes to it. *)
Theorem geohash_wraps_at_180 :
  is_valid_coordinates (f64_of_Z 180) (f64_of_Z 0) = true ∧
  geohash_encode (f64_of_Z 180) (f64_of_Z 0) = geohash_encode (f64_of_Z (-180)) (f64_of_Z 0) ∧
  (geohash_decode (geohash_encode (f64_of_Z 180) (f64_of_Z 0))).1 = f64_of_Z (-180).
Proof. by vm_compute. Qed.

(** A box search does not look across the 180th meridian.  The longitudes are compared without
    wrapping, so a box around longitude -179 that is four degrees wide leaves out the point at 179,
    two degrees away, whose distance the same code gives for the mirrored pair that it does find. *)
Theorem box_stops_at_180 {libm : Libm} :
  f_cos (f64_of_Z 0) = f64_of_Z 1 →
  let point lon : GeoSet := {[bs "p" := mkGeoPoint (bs "p") (f64_of_Z lon) (f64_of_Z 0)]} in
  let found c lon := gr_member <$> search_box map_to_list (point lon) (f64_of_Z c) (f64_of_Z 0) (f64_of_Z 445280) (f64_of_Z 445280) Asc in
  found (-179) 179 = [] ∧ found (-179) (-177) = [bs "p"] ∧ found 177 179 = [bs "p"].
Proof.
  intros Hcos point found. unfold found, point, search_box.
  change (radians (f64_of_Z 0)) with (f64_of_Z 0). rewrite Hcos. repeat split; vm_compute; reflexivity.
Qed.
