(* ===== verification/OrdMap.v ===== *)
(** * Ordered maps ([BTreeMap])

    A finite map with its iteration order: the entries sorted by key.  Lookup,
    insertion and deletion are those of [gmap]; everything ordered is read off
    the sorted list of entries. *)

From S2P Require Import Prelude.
From Stdlib Require Import Lia.

Section ordmap.
Context `{Countable K} (cmp : K → K → comparison).
Context {V : Type}.
Implicit Types (m : gmap K V) (e : K * V).

(** ** Iteration and ranges *)

Fixpoint insert_entry e (l : list (K * V)) : list (K * V) :=
  match l with
  | [] => [e]
  | e' :: l' => match cmp e.1 e'.1 with Gt => e' :: insert_entry e l' | _ => e :: l end
  end.

(** [iter()]: the entries in increasing key order. *)
Definition bt_entries m : list (K * V) := foldr insert_entry [] (map_to_list m).

Definition bt_keys m : list K := (bt_entries m).*1.
Definition bt_values m : list V := (bt_entries m).*2.
Definition bt_first_key m : option K := head (bt_keys m).
Definition bt_last_key m : option K := last (bt_keys m).

Definition key_lt (a b : K) : bool := match cmp a b with Lt => true | _ => false end.
Definition key_le (a b : K) : bool := match cmp a b with Gt => false | _ => true end.

(** [range(lo..)], [range(..hi)] and [range(lo..=hi)]; the last one panics when
    the bounds are inverted. *)
Definition bt_range_from (lo : K) m : list (K * V) :=
  filter (λ e, key_le lo e.1 = true) (bt_entries m).

Definition bt_range_to (hi : K) m : list (K * V) :=
  filter (λ e, key_lt e.1 hi = true) (bt_entries m).

Definition bt_range_incl (lo hi : K) m : exec (list (K * V)) :=
  if key_lt hi lo then Panic else
  Ret (filter (λ e, key_le lo e.1 && key_le e.1 hi = true) (bt_entries m)).

(** ** Sortedness *)

Definition entry_lt (a b : K * V) : Prop := cmp a.1 b.1 = Lt.

Context `{!TotalCmp cmp, !CmpEq cmp}.

Lemma insert_entry_perm e l : insert_entry e l ≡ₚ e :: l.
Proof.
  induction l as [|e' l IH]; simpl; [done|]. destruct (cmp e.1 e'.1); try done.
  rewrite IH. apply Permutation_swap.
Qed.

Lemma bt_entries_perm m : bt_entries m ≡ₚ map_to_list m.
Proof.
  unfold bt_entries. induction (map_to_list m) as [|e l IH]; simpl; [done|].
  rewrite insert_entry_perm. by constructor.
Qed.

Lemma insert_entry_sorted e l :
  StronglySorted entry_lt l → Forall (λ e', e'.1 ≠ e.1) l → StronglySorted entry_lt (insert_entry e l).
Proof.
  induction l as [|e' l IH]; intros Hs Hne; simpl; [by repeat constructor|].
  apply StronglySorted_inv in Hs as [Hs He']. apply Forall_cons in Hne as [Hn Hne].
  destruct (cmp e.1 e'.1) eqn:E.
  - apply cmp_eq in E. congruence.
  - constructor; [by constructor|]. constructor; [done|].
    eapply Forall_impl; [exact He'|]. intros x Hx. by apply (cmp_lt_trans cmp _ e'.1).
  - constructor; [by apply IH|]. rewrite insert_entry_perm. constructor; [|done].
    by apply (cmp_lt_gt cmp).
Qed.

Lemma bt_entries_sorted m : StronglySorted entry_lt (bt_entries m).
Proof.
  unfold bt_entries. pose proof (NoDup_fst_map_to_list m) as Hnd.
  induction (map_to_list m) as [|e l IH]; simpl; [constructor|].
  rewrite fmap_cons in Hnd. apply NoDup_cons in Hnd as [Hni Hnd].
  apply insert_entry_sorted; [by apply IH|].
  assert (foldr insert_entry [] l ≡ₚ l) as ->.
  { clear. induction l as [|e l IH]; simpl; [done|]. rewrite insert_entry_perm. by constructor. }
  apply Forall_forall. intros e' He' E. apply Hni. rewrite <- E. by apply list_elem_of_fmap_2.
Qed.

Lemma elem_of_bt_entries m k v : (k, v) ∈ bt_entries m ↔ m !! k = Some v.
Proof. rewrite bt_entries_perm. apply elem_of_map_to_list. Qed.

Lemma bt_entries_length m : length (bt_entries m) = size m.
Proof. rewrite bt_entries_perm. apply length_map_to_list. Qed.

Lemma entry_lt_asym a b : entry_lt a b → entry_lt b a → False.
Proof. unfold entry_lt. intros H1 H2. by apply (cmp_lt_asym cmp) in H1. Qed.

(** The sorted list of entries is unique. *)
Lemma bt_entries_unique m l :
  StronglySorted entry_lt l → (∀ k v, (k, v) ∈ l ↔ m !! k = Some v) → l = bt_entries m.
Proof.
  intros Hs Hl. apply (StronglySorted_unique_strong entry_lt); [|done|apply bt_entries_sorted|].
  - intros x y _ _ Hxy Hyx. exfalso. by eapply entry_lt_asym.
  - assert (Hnd : ∀ l', StronglySorted entry_lt l' → NoDup l').
    { intros l'. induction 1 as [|x l' Hs' IH Hx]; constructor; [|done].
      intros Hin. rewrite Forall_forall in Hx. specialize (Hx x Hin).
      by apply (cmp_lt_irrefl cmp) in Hx. }
    apply NoDup_Permutation; [by apply Hnd|apply Hnd, bt_entries_sorted|].
    intros [k v]. rewrite Hl. by rewrite elem_of_bt_entries.
Qed.

Lemma bt_entries_empty : bt_entries (∅ : gmap K V) = [].
Proof. unfold bt_entries. by rewrite map_to_list_empty. Qed.

Lemma StronglySorted_filter (P : K * V → Prop) `{!∀ x, Decision (P x)} l :
  StronglySorted entry_lt l → StronglySorted entry_lt (filter P l).
Proof.
  induction 1 as [|x l Hs IH Hx]; [constructor|]. rewrite filter_cons.
  case_decide; [|done]. constructor; [done|]. apply Forall_forall.
  intros y [_ Hy]%list_elem_of_filter. rewrite Forall_forall in Hx. by apply Hx.
Qed.

(** Deleting keys from the map filters the entries. *)
Lemma bt_entries_filter (P : K * V → Prop) `{!∀ x, Decision (P x)} m m' :
  (∀ k v, m' !! k = Some v ↔ m !! k = Some v ∧ P (k, v)) →
  bt_entries m' = filter P (bt_entries m).
Proof.
  intros Hm. symmetry. apply bt_entries_unique.
  - apply StronglySorted_filter, bt_entries_sorted.
  - intros k v. rewrite list_elem_of_filter, elem_of_bt_entries, Hm. tauto.
Qed.

Lemma bt_entries_delete m k : bt_entries (delete k m) = filter (λ e, e.1 ≠ k) (bt_entries m).
Proof.
  apply bt_entries_filter. intros k' v. rewrite lookup_delete_Some. naive_solver.
Qed.

(** A key above all others goes to the end. *)
Lemma bt_entries_insert_last m k v :
  (∀ k' v', m !! k' = Some v' → cmp k' k = Lt) →
  bt_entries (<[k := v]> m) = bt_entries m ++ [(k, v)].
Proof.
  intros Hlt. symmetry. apply bt_entries_unique.
  - apply StronglySorted_app. split_and!; [|apply bt_entries_sorted|by repeat constructor].
    intros [k' v'] e He He2. apply list_elem_of_singleton in He2 as ->.
    apply elem_of_bt_entries in He. by apply (Hlt k' v').
  - intros k' v'. rewrite elem_of_app, list_elem_of_singleton, elem_of_bt_entries.
    rewrite lookup_insert_Some. split.
    + intros [Hl|[= -> ->]]; [|by left]. right. split; [|done]. intros ->.
      by apply (Hlt k' v'), (cmp_lt_irrefl cmp) in Hl.
    + intros [[-> ->]|[_ Hl]]; [by right|by left].
Qed.

(** Keys, in order. *)
Lemma bt_keys_sorted m : StronglySorted (cmp_lt cmp) (bt_keys m).
Proof.
  unfold bt_keys. induction (bt_entries_sorted m) as [|x l Hs IH Hx]; [constructor|].
  rewrite fmap_cons. constructor; [done|]. apply Forall_fmap. exact Hx.
Qed.

Lemma elem_of_bt_keys m k : k ∈ bt_keys m ↔ is_Some (m !! k).
Proof.
  unfold bt_keys. rewrite list_elem_of_fmap. split.
  - intros ([k' v] & -> & Hin). apply elem_of_bt_entries in Hin. eauto.
  - intros [v Hv]. exists (k, v). split; [done|]. by apply elem_of_bt_entries.
Qed.

Lemma bt_last_key_max m k k' v :
  bt_last_key m = Some k → m !! k' = Some v → cmp k' k ≠ Gt.
Proof.
  intros Hl Hm. assert (Hin : k' ∈ bt_keys m) by (apply elem_of_bt_keys; eauto).
  unfold bt_last_key in Hl. apply last_Some in Hl as [ks Hks].
  pose proof (bt_keys_sorted m) as Hs. rewrite Hks in Hs, Hin.
  rewrite elem_of_app, list_elem_of_singleton in Hin. destruct Hin as [Hin| ->].
  - apply StronglySorted_app in Hs as (Hlt & _). unfold cmp_lt in Hlt.
    rewrite (Hlt k' k) by (done || by left). done.
  - by rewrite (cmp_refl cmp).
Qed.

Lemma bt_last_key_in m k : bt_last_key m = Some k → is_Some (m !! k).
Proof.
  intros Hl. apply elem_of_bt_keys. unfold bt_last_key in Hl. apply last_Some in Hl as [ks ->].
  apply elem_of_app. right. by left.
Qed.

Lemma bt_last_key_None m : bt_last_key m = None ↔ m = ∅.
Proof.
  unfold bt_last_key. rewrite last_None. unfold bt_keys. split.
  - intros E. apply fmap_nil_inv in E. apply map_eq. intros k. rewrite lookup_empty.
    destruct (m !! k) as [v|] eqn:Ek; [|done]. apply elem_of_bt_entries in Ek.
    rewrite E in Ek. by apply not_elem_of_nil in Ek.
  - intros ->. by rewrite bt_entries_empty.
Qed.
End ordmap.
