(* ===== verification/StreamType.v ===== *)
(** * Streams and consumer groups ([src/stream_type.rs])

    The append-only log with its identifiers, trimming, consumer groups with
    their pending entries lists (PEL) and the snapshot used for persistence.
    The clock [now_ms()] is an argument, and so is the iteration order of hash
    maps, which the code sometimes depends on. *)

From S2P Require Import Prelude RustStd OrdMap.
From Stdlib Require Import Lia.
Local Open Scope Z_scope.

(** ** Identifiers *)

Record StreamId : Type := mkStreamId { ms : Z; seq : Z }.

#[global] Instance StreamId_eq_dec : EqDecision StreamId.
Proof. solve_decision. Defined.

#[global] Instance StreamId_countable : Countable StreamId :=
  inj_countable' (λ i, (ms i, seq i)) (λ p, mkStreamId p.1 p.2) ltac:(by intros []).

Definition ZERO : StreamId := mkStreamId 0 0.
Definition MIN : StreamId := mkStreamId 0 0.
Definition MAX : StreamId := mkStreamId u64_max u64_max.

(** The derived [Ord]: lexicographic. *)
Definition id_cmp (a b : StreamId) : comparison :=
  match Z.compare (ms a) (ms b) with Eq => Z.compare (seq a) (seq b) | c => c end.

Abbreviation id_lt := (key_lt id_cmp).
Abbreviation id_le := (key_le id_cmp).

Definition to_string_id (i : StreamId) : Str := to_string (ms i) ++ str "-" ++ to_string (seq i).

Definition dash : Z := 45.

Definition parse_explicit (s : Str) : option StreamId :=
  match split_once dash (trim s) with
  | None => None
  | Some (ms_s, seq_s) =>
    m ← parse_u64 ms_s;
    q ← parse_u64 seq_s;
    Some (mkStreamId m q)
  end.

Definition StreamId_parse (s : Str) : option StreamId :=
  let s := trim s in
  if decide (s = []) then None
  else if decide (s = str "-") then Some MIN
  else if decide (s = str "+") then Some MAX
  else if decide (s = str "$" ∨ s = str "*") then None
  else match split_once dash s with
       | Some (ms_s, seq_s) =>
         m ← parse_u64 ms_s;
         q ← parse_u64 seq_s;
         Some (mkStreamId m q)
       | None => m ← parse_u64 s; Some (mkStreamId m 0)
       end.

(** Smallest ID above [id], except at [MAX]. *)
Definition next_id (id : StreamId) : StreamId :=
  if seq id <? u64_max then mkStreamId (ms id) (seq id + 1)
  else if ms id <? u64_max then mkStreamId (ms id + 1) 0
  else MAX.

(** ** State *)

Record StreamEntry : Type := mkStreamEntry { se_id : StreamId; fields : list (Bytes * Bytes) }.

Record PendingEntry : Type := mkPendingEntry {
  pe_id : StreamId;
  pe_consumer : Bytes;
  delivery_time_ms : Z;
  delivery_count : Z
}.

Record Consumer : Type := mkConsumer { c_name : Bytes; seen_time_ms : Z; c_pending : nat }.

Record ConsumerGroup : Type := mkConsumerGroup {
  g_name : Bytes;
  last_delivered_id : StreamId;
  entries_read : option Z;
  consumers : gmap Bytes Consumer;
  pel : gmap StreamId PendingEntry
}.

Definition ConsumerGroup_new (name : Bytes) (id : StreamId) : ConsumerGroup :=
  mkConsumerGroup name id None ∅ ∅.

Record RedisStream : Type := mkRedisStream {
  entries : gmap StreamId StreamEntry;
  last_generated_id : StreamId;
  entries_added : Z;
  max_deleted_entry_id : StreamId;
  groups : gmap Bytes ConsumerGroup
}.

Definition stream_new : RedisStream := mkRedisStream ∅ ZERO 0 ZERO ∅.

Definition stream_len (self : RedisStream) : nat := size (entries self).

Definition last_id (self : RedisStream) : StreamId :=
  default ZERO (bt_last_key id_cmp (entries self)).

Definition get_entry (self : RedisStream) (id : StreamId) : option StreamEntry := entries self !! id.

Definition set_groups (self : RedisStream) (gs : gmap Bytes ConsumerGroup) : RedisStream :=
  mkRedisStream (entries self) (last_generated_id self) (entries_added self)
    (max_deleted_entry_id self) gs.

Definition set_consumers (g : ConsumerGroup) (cs : gmap Bytes Consumer) : ConsumerGroup :=
  mkConsumerGroup (g_name g) (last_delivered_id g) (entries_read g) cs (pel g).

Definition set_pel (g : ConsumerGroup) (p : gmap StreamId PendingEntry) : ConsumerGroup :=
  mkConsumerGroup (g_name g) (last_delivered_id g) (entries_read g) (consumers g) p.

Definition add_pending (c : Consumer) : Consumer :=
  mkConsumer (c_name c) (seen_time_ms c) (c_pending c + 1).

(** [c.pending.saturating_sub(1)] *)
Definition sub_pending (c : Consumer) : Consumer :=
  mkConsumer (c_name c) (seen_time_ms c) (c_pending c - 1).

(** ** Adding entries *)

Definition next_auto_id (self : RedisStream) (now : Z) : StreamId :=
  let last := last_generated_id self in
  if ms last <? now then mkStreamId now 0
  else mkStreamId (ms last) (sat_add_u64 (seq last) 1).

Definition err_args : Str := str "ERR wrong number of arguments for 'xadd' command".
Definition err_id : Str := str "ERR Invalid stream ID specified as stream command argument".
Definition err_zero : Str := str "ERR The ID specified in XADD must be greater than 0-0".
Definition err_small : Str :=
  str "ERR The ID specified in XADD is equal or smaller than the target stream top item".

Definition xadd_id (self : RedisStream) (id_spec : Str) (now : Z) : result Str StreamId :=
  if decide (id_spec = str "*") then Ok (next_auto_id self now) else
  match parse_explicit id_spec with
  | None => Err err_id
  | Some explicit =>
    if decide (explicit = ZERO) then Err err_zero
    else if id_le explicit (last_generated_id self) then Err err_small
    else Ok explicit
  end.

Definition xadd (self : RedisStream) (id_spec : Str) (fs : list (Bytes * Bytes)) (now : Z)
    : RedisStream * result Str StreamId :=
  if decide (fs = []) then (self, Err err_args) else
  match xadd_id self id_spec now with
  | Err e => (self, Err e)
  | Ok id =>
    (mkRedisStream (<[id := mkStreamEntry id fs]> (entries self)) id
       (sat_add_u64 (entries_added self) 1) (max_deleted_entry_id self) (groups self), Ok id)
  end.

(** [if let Some(c) = count { if out.len() > c { out.truncate(c) } }] *)
Definition truncate {A} (count : option nat) (l : list A) : list A :=
  match count with Some c => take c l | None => l end.

(** ** Reading *)

Definition xrange (self : RedisStream) (start stop : StreamId) (count : option nat)
    : exec (list StreamEntry) :=
  l ← bt_range_incl id_cmp start stop (entries self);
  Ret (truncate count l.*2).

Definition xrevrange (self : RedisStream) (stop start : StreamId) (count : option nat)
    : exec (list StreamEntry) :=
  l ← bt_range_incl id_cmp start stop (entries self);
  Ret (truncate count (reverse l.*2)).

Definition xread_after (self : RedisStream) (after : StreamId) (count : option nat)
    : list StreamEntry :=
  truncate count (bt_range_from id_cmp (next_id after) (entries self)).*2.

(** ** Removing entries *)

(** [XDEL] takes the entry out of the owner's pending count. *)
Definition ack_in_group (id : StreamId) (g : ConsumerGroup) : ConsumerGroup :=
  match pel g !! id with
  | Some pe =>
    set_pel (set_consumers g (alter sub_pending (pe_consumer pe) (consumers g))) (delete id (pel g))
  | None => g
  end.

Definition max_deleted (self : RedisStream) (id : StreamId) : StreamId :=
  if id_lt (max_deleted_entry_id self) id then id else max_deleted_entry_id self.

Definition xdel_one (self : RedisStream) (id : StreamId) : RedisStream * bool :=
  match entries self !! id with
  | None => (self, false)
  | Some _ =>
    (mkRedisStream (delete id (entries self)) (last_generated_id self) (entries_added self)
       (max_deleted self id) (ack_in_group id <$> groups self), true)
  end.

Fixpoint xdel (self : RedisStream) (ids : list StreamId) : RedisStream * nat :=
  match ids with
  | [] => (self, 0%nat)
  | id :: ids =>
    let '(self, b) := xdel_one self id in
    let '(self, n) := xdel self ids in
    (self, if b then S n else n)
  end.

Section hash_iter.
(** The iteration order of a hash map. *)
Context (hash_iter : ∀ {V}, gmap Bytes V → list (Bytes * V)).
Arguments hash_iter {V}.

(** [for c in g.consumers.values_mut() { if c.pending > 0 { c.pending -= 1; break; } }] *)
Fixpoint sub_first (names : list Bytes) (cs : gmap Bytes Consumer) : gmap Bytes Consumer :=
  match names with
  | [] => cs
  | c :: names =>
    match cs !! c with
    | Some x => if (0 <? c_pending x)%nat then <[c := sub_pending x]> cs else sub_first names cs
    | None => sub_first names cs
    end
  end.

Definition drop_from_pel (id : StreamId) (g : ConsumerGroup) : ConsumerGroup :=
  match pel g !! id with
  | Some _ =>
    set_consumers (set_pel g (delete id (pel g))) (sub_first (hash_iter (consumers g)).*1 (consumers g))
  | None => g
  end.

Definition remove_entry_and_pel (self : RedisStream) (id : StreamId) : RedisStream :=
  mkRedisStream (delete id (entries self)) (last_generated_id self) (entries_added self)
    (match entries self !! id with
     | Some _ => max_deleted self id
     | None => max_deleted_entry_id self
     end)
    (drop_from_pel id <$> groups self).

Definition trim_maxlen_limit (self : RedisStream) (max : nat) (limit : option nat)
    : RedisStream * nat :=
  if (size (entries self) <=? max)%nat then (self, 0%nat) else
  let remove_count := (size (entries self) - max)%nat in
  let remove_count := match limit with Some lim => remove_count `min` lim | None => remove_count end%nat in
  let ids := take remove_count (bt_keys id_cmp (entries self)) in
  (foldl remove_entry_and_pel self ids, length ids).

Definition trim_maxlen (self : RedisStream) (max : nat) : RedisStream * nat :=
  trim_maxlen_limit self max None.

Definition trim_minid_limit (self : RedisStream) (minid : StreamId) (limit : option nat)
    : RedisStream * nat :=
  let ids := truncate limit (bt_range_to id_cmp minid (entries self)).*1 in
  (foldl remove_entry_and_pel self ids, length ids).

Definition trim_minid (self : RedisStream) (minid : StreamId) : RedisStream * nat :=
  trim_minid_limit self minid None.

Definition xadd_with_trim (self : RedisStream) (id_spec : Str) (fs : list (Bytes * Bytes))
    (maxlen : option nat) (minid : option StreamId) (limit : option nat) (now : Z)
    : RedisStream * result Str StreamId :=
  match xadd self id_spec fs now with
  | (self, Err e) => (self, Err e)
  | (self, Ok id) =>
    match maxlen, minid with
    | Some max, _ => ((trim_maxlen_limit self max limit).1, Ok id)
    | None, Some min => ((trim_minid_limit self min limit).1, Ok id)
    | None, None => (self, Ok id)
    end
  end.

Definition xadd_maxlen (self : RedisStream) (id_spec : Str) (fs : list (Bytes * Bytes))
    (maxlen : option nat) (now : Z) : RedisStream * result Str StreamId :=
  xadd_with_trim self id_spec fs maxlen None None now.

End hash_iter.

(** ** Consumer groups *)

Definition err_busy : Str := str "BUSYGROUP Consumer Group name already exists".
Definition err_nogroup : Str := str "NOGROUP No such key '' or consumer group".
Definition err_setid : Str :=
  str "ERR The ID specified in XSETID is smaller than the current top ID".

Definition group_create (self : RedisStream) (name : Bytes) (id : StreamId) (read : option Z)
    : RedisStream * result Str unit :=
  match groups self !! name with
  | Some _ => (self, Err err_busy)
  | None =>
    (set_groups self (<[name := mkConsumerGroup name id read ∅ ∅]> (groups self)), Ok tt)
  end.

Definition group_destroy (self : RedisStream) (name : Bytes) : RedisStream * bool :=
  (set_groups self (delete name (groups self)), bool_decide (is_Some (groups self !! name))).

(** [groups.get_mut(name).ok_or(NOGROUP)] and an update of the group. *)
Definition with_group {A} (self : RedisStream) (name : Bytes)
    (f : ConsumerGroup → ConsumerGroup * A) : RedisStream * result Str A :=
  match groups self !! name with
  | None => (self, Err err_nogroup)
  | Some g =>
    let '(g, a) := f g in (set_groups self (<[name := g]> (groups self)), Ok a)
  end.

Definition create_consumer (c : Bytes) (now : Z) (g : ConsumerGroup) : ConsumerGroup * bool :=
  match consumers g !! c with
  | Some _ => (g, false)
  | None => (set_consumers g (<[c := mkConsumer c now 0]> (consumers g)), true)
  end.

Definition group_create_consumer (self : RedisStream) (name c : Bytes) (now : Z)
    : RedisStream * result Str bool :=
  with_group self name (create_consumer c now).

Definition del_consumer (c : Bytes) (g : ConsumerGroup) : ConsumerGroup * nat :=
  match consumers g !! c with
  | None => (g, 0%nat)
  | Some _ =>
    let pending_ids := (filter (λ e, pe_consumer e.2 = c) (bt_entries id_cmp (pel g))).*1 in
    (set_consumers (set_pel g (foldl (λ p id, delete id p) (pel g) pending_ids))
       (delete c (consumers g)), length pending_ids)
  end.

Definition group_del_consumer (self : RedisStream) (name c : Bytes)
    : RedisStream * result Str nat :=
  with_group self name (del_consumer c).

Definition group_setid (self : RedisStream) (name : Bytes) (id : StreamId) (read : option Z)
    : RedisStream * result Str unit :=
  with_group self name (λ g,
    (mkConsumerGroup (g_name g) id
       (match read with Some v => Some v | None => entries_read g end) (consumers g) (pel g), tt)).

Definition xsetid (self : RedisStream) (id : StreamId) (added : option Z) (deleted : option StreamId)
    : RedisStream * result Str unit :=
  if (match bt_last_key id_cmp (entries self) with Some max_id => id_lt id max_id | None => false end)
  then (self, Err err_setid)
  else (mkRedisStream (entries self) id (default (entries_added self) added)
          (default (max_deleted_entry_id self) deleted) (groups self), Ok tt).

(** *** Claiming *)

Record XClaimOpts : Type := mkXClaimOpts {
  min_idle_ms : Z;
  force : bool;
  time_ms : option Z;
  idle_ms : option Z;
  retrycount : option Z;
  just_id : bool
}.

(** [consumers.entry(c).or_insert(..)] and [seen_time_ms = now]. *)
Definition touch_consumer (c : Bytes) (now : Z) (cs : gmap Bytes Consumer) : gmap Bytes Consumer :=
  match cs !! c with
  | Some x => <[c := mkConsumer (c_name x) now (c_pending x)]> cs
  | None => <[c := mkConsumer c now 0]> cs
  end.

Definition claimed_count (opts : XClaimOpts) (dc : Z) : Z :=
  match retrycount opts with
  | Some n => n
  | None => if negb (just_id opts) then sat_add_u64 dc 1 `max` 1 else if dc =? 0 then 1 else dc
  end.

(** The part of [xclaim]'s loop that claims: create or take over the PEL entry. *)
Definition claim_entry (c : Bytes) (now delivery_time : Z) (opts : XClaimOpts) (id : StreamId)
    (g : ConsumerGroup) : ConsumerGroup :=
  let cs := touch_consumer c now (consumers g) in
  let pe := default (mkPendingEntry id c delivery_time 0) (pel g !! id) in
  let cs :=
    if decide (pe_consumer pe ≠ c) then alter add_pending c (alter sub_pending (pe_consumer pe) cs)
    else if decide (pel g !! id = None) then alter add_pending c cs
    else cs in
  let pe := mkPendingEntry (pe_id pe) c delivery_time (claimed_count opts (delivery_count pe)) in
  set_pel (set_consumers g cs) (<[id := pe]> (pel g)).

(** One turn of [xclaim]'s loop on the group; [None] when nothing is claimed. *)
Definition claim_one (es : gmap StreamId StreamEntry) (c : Bytes) (now delivery_time : Z)
    (opts : XClaimOpts) (g : ConsumerGroup) (id : StreamId) : ConsumerGroup * bool :=
  match es !! id with
  | None => (ack_in_group id g, false)
  | Some _ =>
    match pel g !! id with
    | None =>
      if force opts then (claim_entry c now delivery_time opts id g, true) else (g, false)
    | Some pe =>
      if sat_sub_u64 now (delivery_time_ms pe) <? min_idle_ms opts then (g, false)
      else (claim_entry c now delivery_time opts id g, true)
    end
  end.

Fixpoint claim_loop (es : gmap StreamId StreamEntry) (c : Bytes) (now delivery_time : Z)
    (opts : XClaimOpts) (ids : list StreamId) (g : ConsumerGroup) : ConsumerGroup * list StreamId :=
  match ids with
  | [] => (g, [])
  | id :: ids =>
    let '(g, b) := claim_one es c now delivery_time opts g id in
    let '(g, claimed) := claim_loop es c now delivery_time opts ids g in
    (g, if b then id :: claimed else claimed)
  end.

Definition claim_time (opts : XClaimOpts) (now : Z) : Z :=
  match time_ms opts, idle_ms opts with
  | Some t, _ => t
  | None, Some idle => sat_sub_u64 now idle
  | None, None => now
  end.

Definition xclaim (self : RedisStream) (name c : Bytes) (ids : list StreamId) (opts : XClaimOpts)
    (now : Z) : RedisStream * result Str (list StreamId) :=
  with_group self name (claim_loop (entries self) c now (claim_time opts now) opts ids).

Definition xclaim_force (self : RedisStream) (name c : Bytes) (ids : list StreamId)
    (time count : option Z) (now : Z) : RedisStream * result Str (list StreamId) :=
  xclaim self name c ids (mkXClaimOpts 0 true time None count false) now.

(** [xautoclaim]'s loop over the candidates; it ends with the last ID examined. *)
Fixpoint autoclaim_loop (es : gmap StreamId StreamEntry) (c : Bytes) (now : Z) (opts : XClaimOpts)
    (count : nat) (candidates : list StreamId) (g : ConsumerGroup) (last : option StreamId)
    (claimed deleted : list StreamId)
    : ConsumerGroup * option StreamId * list StreamId * list StreamId :=
  match candidates with
  | [] => (g, last, claimed, deleted)
  | id :: rest =>
    let last := Some id in
    match es !! id with
    | None =>
      let deleted := if decide (is_Some (pel g !! id)) then deleted ++ [id] else deleted in
      autoclaim_loop es c now opts count rest (ack_in_group id g) last claimed deleted
    | Some _ =>
      if (count <=? length claimed)%nat then (g, last, claimed, deleted) else
      let '(g, got) := claim_loop es c now (claim_time opts now) opts [id] g in
      let claimed := claimed ++ got in
      if (count <=? length claimed)%nat then (g, last, claimed, deleted)
      else autoclaim_loop es c now opts count rest g last claimed deleted
    end
  end.

Definition autoclaim_candidates (es : gmap StreamId StreamEntry) (now min_idle : Z)
    (start : StreamId) (g : ConsumerGroup) : list StreamId :=
  (filter (λ e, es !! e.1 = None ∨ min_idle ≤ sat_sub_u64 now (delivery_time_ms e.2))
     (bt_range_from id_cmp start (pel g))).*1.

Definition autoclaim_group (es : gmap StreamId StreamEntry) (c : Bytes) (now min_idle : Z)
    (start : StreamId) (count : nat) (justid : bool) (g : ConsumerGroup)
    : ConsumerGroup * (StreamId * list StreamId * list StreamId) :=
  let opts := mkXClaimOpts min_idle false None None None justid in
  let '(g, last, claimed, deleted) :=
    autoclaim_loop es c now opts count (autoclaim_candidates es now min_idle start g) g None [] [] in
  let next :=
    match last with
    | Some last => default ZERO (head (bt_range_from id_cmp (next_id last) (pel g)).*1)
    | None => ZERO
    end in
  (g, (next, claimed, deleted)).

Definition xautoclaim (self : RedisStream) (name c : Bytes) (min_idle : Z) (start : StreamId)
    (count : nat) (justid : bool) (now : Z)
    : RedisStream * result Str (StreamId * list StreamId * list StreamId) :=
  with_group self name (autoclaim_group (entries self) c now min_idle start count justid).

(** *** Reading through a group *)

(** [for x in l { out.push(x); if out.len() >= count { break } }] *)
Fixpoint collect_upto {A} (count : option nat) (l out : list A) : list A :=
  match l with
  | [] => out
  | x :: l =>
    let out := out ++ [x] in
    match count with
    | Some c => if (c <=? length out)%nat then out else collect_upto count l out
    | None => collect_upto count l out
    end
  end.

Definition new_entries (es : gmap StreamId StreamEntry) (g : ConsumerGroup) (count : option nat)
    : list StreamEntry :=
  collect_upto count (bt_range_from id_cmp (next_id (last_delivered_id g)) es).*2 [].

(** The pending entries of the consumer above [after] that are still in the stream. *)
Definition history_entries (es : gmap StreamId StreamEntry) (c : Bytes) (after : StreamId)
    (count : option nat) (g : ConsumerGroup) : list StreamEntry :=
  let pending_ids :=
    (filter (λ e, pe_consumer e.2 = c) (bt_range_from id_cmp (next_id after) (pel g))).*1 in
  collect_upto count (omap (λ id, es !! id) pending_ids) [].

(** [delivery_count += 1; delivery_time_ms = now] *)
Definition redeliver (now : Z) (pe : PendingEntry) : PendingEntry :=
  mkPendingEntry (pe_id pe) (pe_consumer pe) now (wrap_u64 (delivery_count pe + 1)).

(** One delivered entry of a read with [>]. *)
Definition deliver (c : Bytes) (now : Z) (noack : bool) (g : ConsumerGroup) (e : StreamEntry)
    : ConsumerGroup :=
  let g := mkConsumerGroup (g_name g) (se_id e) (entries_read g) (consumers g) (pel g) in
  if noack then g else
  let pe := default (mkPendingEntry (se_id e) c now 0) (pel g !! se_id e) in
  let cs := if decide (pe_consumer pe ≠ c) then alter sub_pending (pe_consumer pe) (consumers g)
            else consumers g in
  let pe := redeliver now (mkPendingEntry (pe_id pe) c (delivery_time_ms pe) (delivery_count pe)) in
  set_pel (set_consumers g cs) (<[se_id e := pe]> (pel g)).

(** The PEL entries a consumer owns. *)
Definition owned (c : Bytes) (p : gmap StreamId PendingEntry) : nat :=
  length (filter (λ e, pe_consumer e.2 = c) (bt_entries id_cmp p)).

Definition set_pending (n : nat) (x : Consumer) : Consumer := mkConsumer (c_name x) (seen_time_ms x) n.

Definition gt : Str := str ">".

Definition history_start (id_spec : Str) : result Str StreamId :=
  if decide (id_spec = str "0" ∨ id_spec = str "0-0") then Ok ZERO
  else match parse_explicit id_spec with
       | Some id => Ok id
       | None => ok_or (StreamId_parse id_spec) err_id
       end.

Definition read_new (es : gmap StreamId StreamEntry) (c : Bytes) (count : option nat) (noack : bool)
    (now : Z) (g : ConsumerGroup) : ConsumerGroup * list StreamEntry :=
  let es := new_entries es g count in
  let g := set_consumers g (touch_consumer c now (consumers g)) in
  let g := foldl (deliver c now noack) g es in
  (if noack then g
   else set_consumers g (alter (set_pending (owned c (pel g))) c (consumers g)), es).

Definition read_history (es : gmap StreamId StreamEntry) (c : Bytes) (after : StreamId)
    (count : option nat) (now : Z) (g : ConsumerGroup) : ConsumerGroup * list StreamEntry :=
  let es := history_entries es c after count g in
  let g := set_consumers g (touch_consumer c now (consumers g)) in
  (set_pel g (foldl (λ p e, alter (redeliver now) (se_id e) p) (pel g) es), es).

Definition xreadgroup_opts (self : RedisStream) (name c : Bytes) (id_spec : Str)
    (count : option nat) (noack : bool) (now : Z) : RedisStream * result Str (list StreamEntry) :=
  if decide (groups self !! name = None) then (self, Err err_nogroup) else
  if decide (id_spec = gt) then with_group self name (read_new (entries self) c count noack now)
  else match history_start id_spec with
       | Err e => (self, Err e)
       | Ok after => with_group self name (read_history (entries self) c after count now)
       end.

Definition xreadgroup (self : RedisStream) (name c : Bytes) (id_spec : Str) (count : option nat)
    (now : Z) : RedisStream * result Str (list StreamEntry) :=
  xreadgroup_opts self name c id_spec count false now.

Fixpoint ack_loop (ids : list StreamId) (g : ConsumerGroup) : ConsumerGroup * nat :=
  match ids with
  | [] => (g, 0%nat)
  | id :: ids =>
    let b := bool_decide (is_Some (pel g !! id)) in
    let '(g, n) := ack_loop ids (ack_in_group id g) in
    (g, if b then S n else n)
  end.

Definition xack (self : RedisStream) (name : Bytes) (ids : list StreamId)
    : RedisStream * result Str nat :=
  with_group self name (ack_loop ids).

(** *** Inspection *)

Definition pending_matches (now min_idle : Z) (consumer : option Bytes) (pe : PendingEntry) : bool :=
  match consumer with Some c => bool_decide (pe_consumer pe = c) | None => true end &&
  negb (sat_sub_u64 now (delivery_time_ms pe) <? min_idle).

Definition xpending_range (self : RedisStream) (name : Bytes) (start stop : StreamId) (count : nat)
    (consumer : option Bytes) (min_idle now : Z) : exec (result Str (list PendingEntry)) :=
  match groups self !! name with
  | None => Ret (Err err_nogroup)
  | Some g =>
    l ← bt_range_incl id_cmp start stop (pel g);
    Ret (Ok (collect_upto (Some count)
      (filter (λ pe, pending_matches now min_idle consumer pe = true) l.*2) []))
  end.

(** The counts of [xpending_summary], and a name-sorted list. *)
Fixpoint count_consumers (l : list PendingEntry) (m : gmap Bytes nat) : gmap Bytes nat :=
  match l with
  | [] => m
  | pe :: l => count_consumers l (<[pe_consumer pe := S (default 0%nat (m !! pe_consumer pe))]> m)
  end.

Definition xpending_summary (self : RedisStream) (name : Bytes)
    : result Str (nat * option StreamId * option StreamId * list (Bytes * nat)) :=
  match groups self !! name with
  | None => Err err_nogroup
  | Some g =>
    Ok (size (pel g), bt_first_key id_cmp (pel g), bt_last_key id_cmp (pel g),
        bt_entries cmp_bytes (count_consumers (bt_values id_cmp (pel g)) ∅))
  end.

(** Entries behind the group's cursor. *)
Definition lag (self : RedisStream) (g : ConsumerGroup) : nat :=
  length (bt_range_from id_cmp (next_id (last_delivered_id g)) (entries self)).

Record XInfoGroup : Type := mkXInfoGroup {
  xg_name : Bytes; xg_consumers : nat; xg_pending : nat;
  xg_last_delivered_id : StreamId; xg_entries_read : option Z; xg_lag : nat
}.

Record XInfoConsumer : Type := mkXInfoConsumer {
  xc_name : Bytes; xc_pending : nat; xc_idle_ms : Z; xc_inactive_ms : Z
}.

(** The rows are sorted by name, which is the key of the map. *)
Definition xinfo_groups (self : RedisStream) : list XInfoGroup :=
  (λ g, mkXInfoGroup (g_name g) (size (consumers g)) (size (pel g)) (last_delivered_id g)
          (entries_read g) (lag self g)) <$> bt_values cmp_bytes (groups self).

Definition xinfo_consumers (self : RedisStream) (name : Bytes) (now : Z)
    : result Str (list XInfoConsumer) :=
  match groups self !! name with
  | None => Err err_nogroup
  | Some g =>
    Ok ((λ x, let idle := sat_sub_u64 now (seen_time_ms x) in
              mkXInfoConsumer (c_name x) (owned (c_name x) (pel g)) idle idle)
        <$> bt_values cmp_bytes (consumers g))
  end.

(** ** Snapshots *)

Record GroupSnapshot : Type := mkGroupSnapshot {
  gs_name : Bytes;
  gs_last_delivered_id : StreamId;
  gs_pending : list PendingEntry;
  gs_consumers : list Consumer
}.

Record StreamStateSnapshot : Type := mkSnapshot {
  ss_last_generated_id : StreamId;
  ss_entries : list (StreamId * list (Bytes * Bytes));
  ss_groups : list GroupSnapshot
}.

Definition export_entries (self : RedisStream) : list (StreamId * list (Bytes * Bytes)) :=
  (λ e, (se_id e, fields e)) <$> bt_values id_cmp (entries self).

Section export.
Context (hash_iter : ∀ {V}, gmap Bytes V → list (Bytes * V)).
Arguments hash_iter {V}.

Definition export_group (g : ConsumerGroup) : GroupSnapshot :=
  mkGroupSnapshot (g_name g) (last_delivered_id g) (bt_values id_cmp (pel g))
    (hash_iter (consumers g)).*2.

Definition export_state (self : RedisStream) : StreamStateSnapshot :=
  mkSnapshot (last_generated_id self) (export_entries self)
    (export_group <$> (hash_iter (groups self)).*2).
End export.

Definition import_entries (l : list (StreamId * list (Bytes * Bytes))) : gmap StreamId StreamEntry :=
  foldl (λ m e, <[e.1 := mkStreamEntry e.1 e.2]> m) ∅ l.

Definition import_consumers (l : list Consumer) : gmap Bytes Consumer :=
  foldl (λ m c, <[c_name c := c]> m) ∅ l.

(** A PEL entry; its owner is created if missing. *)
Definition import_pending (g : ConsumerGroup) (pe : PendingEntry) : ConsumerGroup :=
  let cs := match consumers g !! pe_consumer pe with
            | Some _ => consumers g
            | None => <[pe_consumer pe := mkConsumer (pe_consumer pe) (delivery_time_ms pe) 0]> (consumers g)
            end in
  set_pel (set_consumers g cs) (<[pe_id pe := pe]> (pel g)).

(** Recompute the pending counts from the PEL. *)
Definition recount (g : ConsumerGroup) : ConsumerGroup :=
  let cs := set_pending 0 <$> consumers g in
  set_consumers g
    (foldl (λ cs pe, alter add_pending (pe_consumer pe) cs) cs (bt_values id_cmp (pel g))).

Definition import_group (s : GroupSnapshot) : ConsumerGroup :=
  let g := set_consumers (ConsumerGroup_new (gs_name s) (gs_last_delivered_id s))
             (import_consumers (gs_consumers s)) in
  recount (foldl import_pending g (gs_pending s)).

Definition import_state (s : StreamStateSnapshot) : RedisStream :=
  let es := import_entries (ss_entries s) in
  let last := match bt_last_key id_cmp es with
              | Some max_id => if id_lt (ss_last_generated_id s) max_id then max_id
                               else ss_last_generated_id s
              | None => ss_last_generated_id s
              end in
  mkRedisStream es last (Z.of_nat (size es)) ZERO
    (foldl (λ m g, <[gs_name g := import_group g]> m) ∅ (ss_groups s)).
