(* ===== verification/StreamFacts.v ===== *)
(** * Streams: identifiers, the log, pending counts, delivery and snapshots *)

From S2P Require Import Prelude RustStd OrdMap StreamType.
From Stdlib Require Import Lia.
Local Open Scope Z_scope.

(** ** Identifiers *)

Definition id_pair (i : StreamId) : Z * Z := (ms i, seq i).

#[global] Instance id_cmp_total : TotalCmp id_cmp.
Proof.
  assert (∀ a b, id_cmp a b = cmp_lex Z.compare Z.compare (id_pair a) (id_pair b)) as H by done.
  split; intros; rewrite ?H in *.
  - apply (cmp_refl (cmp_lex Z.compare Z.compare)).
  - apply (cmp_flip (cmp_lex Z.compare Z.compare)).
  - by apply (cmp_le_trans (cmp_lex Z.compare Z.compare) _ (id_pair y)).
Qed.

#[global] Instance id_cmp_eq : CmpEq id_cmp.
Proof.
  intros [a1 a2] [b1 b2] H. apply (cmp_eq (cmp := cmp_lex Z.compare Z.compare) (a1, a2) (b1, b2)) in H.
  congruence.
Qed.

Lemma id_cmp_Lt a b : id_cmp a b = Lt ↔ ms a < ms b ∨ ms a = ms b ∧ seq a < seq b.
Proof.
  unfold id_cmp. destruct (Z.compare_spec (ms a) (ms b)) as [E|E|E]; [rewrite Z.compare_lt_iff|..];
    split; intros; try done; lia.
Qed.

Lemma id_cmp_Gt a b : id_cmp a b = Gt ↔ id_cmp b a = Lt.
Proof. symmetry. apply (cmp_lt_gt id_cmp). Qed.

Lemma id_lt_true a b : id_lt a b = true ↔ id_cmp a b = Lt.
Proof. unfold key_lt. by destruct (id_cmp a b). Qed.

Lemma id_le_true a b : id_le a b = true ↔ id_cmp a b ≠ Gt.
Proof. unfold key_le. by destruct (id_cmp a b). Qed.

Definition valid_id (i : StreamId) : Prop := in_u64 (ms i) ∧ in_u64 (seq i).

(** Below [MAX], the next ID is the least one above. *)
Lemma next_id_spec i j :
  valid_id i → valid_id j → i ≠ MAX →
  id_cmp i (next_id i) = Lt ∧ (id_cmp i j = Lt ↔ id_cmp (next_id i) j ≠ Gt).
Proof.
  unfold valid_id, next_id. intros [Hm Hs] [Hm' Hs'] Hne. rewrite id_cmp_Gt, !id_cmp_Lt.
  destruct (Z.ltb_spec (seq i) u64_max); simpl; [lia|].
  destruct (Z.ltb_spec (ms i) u64_max); simpl; [lia|].
  exfalso. apply Hne. destruct i; simpl in *. unfold MAX. f_equal; lia.
Qed.

Lemma trim_start_no_ws c s : is_whitespace c = false → trim_start (c :: s) = c :: s.
Proof. intros H. simpl. by rewrite H. Qed.

(** A string that neither starts nor ends with white space is not trimmed. *)
Lemma trim_id s :
  (∀ c, c ∈ s → is_whitespace c = false) → trim s = s.
Proof.
  intros H. unfold trim. assert (Ht : ∀ s', (∀ c, c ∈ s' → is_whitespace c = false) → trim_start s' = s').
  { intros [|c s'] Hc; [done|]. apply trim_start_no_ws, Hc. by left. }
  rewrite (Ht s H), (Ht (reverse s)); [by rewrite reverse_involutive|].
  intros c Hc. rewrite elem_of_reverse in Hc. by apply H.
Qed.

Lemma to_string_id_chars i :
  valid_id i → ∀ c, c ∈ to_string_id i → c = dash ∨ 48 ≤ c ≤ 57.
Proof.
  intros [Hm Hs] c. unfold to_string_id. rewrite !elem_of_app.
  destruct (to_string_digits (ms i)) as [_ H1]; [lia|].
  destruct (to_string_digits (seq i)) as [_ H2]; [lia|].
  rewrite Forall_forall in H1, H2. intros [Hc|[Hc|Hc]]; [right; by apply H1| |right; by apply H2].
  left. by apply list_elem_of_singleton in Hc.
Qed.

Lemma to_string_id_trim i : valid_id i → trim (to_string_id i) = to_string_id i.
Proof.
  intros Hv. apply trim_id. intros c Hc. apply (to_string_id_chars i Hv) in Hc.
  unfold is_whitespace, dash in *. lia.
Qed.

Lemma to_string_id_split i :
  valid_id i → split_once dash (to_string_id i) = Some (to_string (ms i), to_string (seq i)).
Proof.
  intros [Hm Hs]. destruct (to_string_digits (ms i)) as [_ H1]; [lia|].
  assert (Hd : dash ∉ to_string (ms i)).
  { rewrite Forall_forall in H1. intros Hd. apply H1 in Hd. unfold dash in Hd. lia. }
  exact (split_once_app dash _ (to_string (seq i)) Hd).
Qed.

Lemma parse_explicit_to_string i : valid_id i → parse_explicit (to_string_id i) = Some i.
Proof.
  intros Hv. pose proof Hv as [Hm Hs]. unfold parse_explicit.
  rewrite to_string_id_trim, to_string_id_split by done.
  rewrite !parse_to_string_u64 by lia. by destruct i.
Qed.

Lemma StreamId_parse_to_string i : valid_id i → StreamId_parse (to_string_id i) = Some i.
Proof.
  intros Hv. pose proof Hv as [Hm Hs]. unfold StreamId_parse.
  rewrite to_string_id_trim by done. cbv zeta.
  assert (Hd : ∃ c r, to_string_id i = c :: r ∧ 48 ≤ c ≤ 57).
  { unfold to_string_id. destruct (to_string_digits (ms i)) as [Hn H1]; [lia|].
    destruct (to_string (ms i)) as [|c r]; [done|]. apply Forall_cons in H1 as [Hc _].
    eexists _, _. split; [done|exact Hc]. }
  destruct Hd as (c & r & Hc & Hr).
  rewrite to_string_id_split by done. rewrite Hc.
  change (str "-") with [45]. change (str "+") with [43].
  change (str "$") with [36]. change (str "*") with [42].
  rewrite !decide_False; [|naive_solver lia..].
  rewrite !parse_to_string_u64 by lia. by destruct i.
Qed.

(** ** The log *)

(** Entries are stored under their ID, and none is above the last generated one. *)
Record log_ok (s : RedisStream) : Prop := {
  lo_id : ∀ id e, entries s !! id = Some e → se_id e = id;
  lo_last : ∀ id e, entries s !! id = Some e → id_cmp id (last_generated_id s) ≠ Gt;
  lo_valid : valid_id (last_generated_id s);
  lo_entry_valid : ∀ id e, entries s !! id = Some e → valid_id id
}.

Definition log (s : RedisStream) : list StreamEntry := bt_values id_cmp (entries s).

Lemma log_new : log_ok stream_new.
Proof.
  split; simpl; try (intros id e; by rewrite lookup_empty).
  split; unfold u64_max; simpl; lia.
Qed.

(** Whether the automatic ID has room to grow. *)
Definition auto_room (s : RedisStream) (now : Z) : Prop :=
  ms (last_generated_id s) < now ∨ seq (last_generated_id s) < u64_max.

Lemma next_auto_id_spec s now :
  log_ok s → in_u64 now →
  valid_id (next_auto_id s now) ∧
  (auto_room s now → id_cmp (last_generated_id s) (next_auto_id s now) = Lt) ∧
  (¬ auto_room s now → next_auto_id s now = last_generated_id s).
Proof.
  intros Hlog Hnow. destruct (lo_valid s Hlog) as [Hm Hs]. unfold auto_room, next_auto_id, sat_add_u64.
  rewrite id_cmp_Lt. destruct (Z.ltb_spec (ms (last_generated_id s)) now); simpl.
  - split_and!; [split; simpl; [done|unfold u64_max; lia]|lia|lia].
  - split_and!; [split; simpl; [done|lia]|lia|].
    intros Hno. destruct (last_generated_id s) as [m q]. simpl in *. f_equal. lia.
Qed.

Lemma parse_explicit_valid s i : parse_explicit s = Some i → valid_id i.
Proof.
  unfold parse_explicit. destruct (split_once dash (trim s)) as [[a b]|]; [|done].
  destruct (parse_u64 a) as [m|] eqn:Ea; [|done]. simpl.
  destruct (parse_u64 b) as [q|] eqn:Eb; [|done]. simpl. intros [= <-].
  split; simpl; by eapply parse_u64_range.
Qed.

Lemma insert_entry_log_ok s id fs :
  log_ok s → valid_id id → id_cmp (last_generated_id s) id = Lt →
  let s' := mkRedisStream (<[id := mkStreamEntry id fs]> (entries s)) id
    (sat_add_u64 (entries_added s) 1) (max_deleted_entry_id s) (groups s) in
  log_ok s' ∧ log s' = log s ++ [mkStreamEntry id fs].
Proof.
  intros Hlog Hv Hlt s'.
  assert (Hall : ∀ k v, entries s !! k = Some v → id_cmp k id = Lt).
  { intros k v Hk. by apply (cmp_le_lt_trans id_cmp _ (last_generated_id s)), Hlt; eapply lo_last. }
  split.
  - split; simpl; [..|done|].
    + intros k e [[<- <-]|[_ Hk]]%lookup_insert_Some; [done|by apply (lo_id s Hlog)].
    + intros k e [[<- <-]|[_ Hk]]%lookup_insert_Some; [by rewrite (cmp_refl id_cmp)|].
      rewrite (Hall _ _ Hk). done.
    + intros k e [[<- <-]|[_ Hk]]%lookup_insert_Some; [done|by eapply (lo_entry_valid s Hlog)].
  - unfold log, bt_values. simpl. rewrite (bt_entries_insert_last id_cmp (entries s) id _ Hall).
    by rewrite fmap_app.
Qed.

Lemma id_le_false a b : id_le a b = false ↔ id_cmp b a = Lt.
Proof.
  unfold key_le. rewrite (cmp_lt_gt id_cmp). by destruct (id_cmp a b).
Qed.

(** Deleting entries keeps the log right. *)
Lemma log_ok_subset s s' :
  log_ok s → last_generated_id s' = last_generated_id s →
  (∀ id e, entries s' !! id = Some e → entries s !! id = Some e) → log_ok s'.
Proof.
  intros Hlog El Hsub. split; rewrite ?El.
  - intros id e He. by apply (lo_id s Hlog), Hsub.
  - intros id e He. by apply (lo_last s Hlog id e), Hsub.
  - apply Hlog.
  - intros id e He. by apply (lo_entry_valid s Hlog id e), Hsub.
Qed.

Lemma bt_values_filter (P : StreamId → Prop) `{!∀ x, Decision (P x)} s s' :
  log_ok s → (∀ id e, entries s' !! id = Some e ↔ entries s !! id = Some e ∧ P id) →
  log s' = filter (λ e, P (se_id e)) (log s).
Proof.
  intros Hlog Hs. unfold log, bt_values.
  rewrite (bt_entries_filter id_cmp (λ e, P e.1) (entries s) (entries s')) by (intros; apply Hs).
  rewrite filter_fmap. f_equal. apply filter_ext_in. intros [id e] He.
  apply elem_of_bt_entries in He. simpl. by rewrite (lo_id s Hlog id e He).
Qed.

Lemma log_ids s : log_ok s → se_id <$> log s = bt_keys id_cmp (entries s).
Proof.
  intros Hlog. unfold log, bt_values, bt_keys. rewrite <- list_fmap_compose.
  apply list_fmap_ext. intros i [id e] Hi. simpl. apply (lo_id s Hlog).
  apply (elem_of_bt_entries id_cmp). by eapply list_elem_of_lookup_2.
Qed.

Lemma log_length s : length (log s) = size (entries s).
Proof. unfold log, bt_values. by rewrite length_fmap, bt_entries_length. Qed.

Lemma log_ids_NoDup s : log_ok s → NoDup (se_id <$> log s).
Proof.
  intros Hlog. rewrite log_ids by done. pose proof (bt_keys_sorted id_cmp (entries s)) as Hs.
  induction Hs as [|k l Hs IH Hk]; constructor; [|done]. intros Hin.
  rewrite Forall_forall in Hk. apply Hk in Hin. by apply (cmp_lt_irrefl id_cmp) in Hin.
Qed.

Lemma filter_drop_ids k (l : list StreamEntry) :
  NoDup (se_id <$> l) → filter (λ e, se_id e ∉ take k (se_id <$> l)) l = drop k l.
Proof.
  revert l. induction k as [|k IH]; intros l Hnd.
  { rewrite take_0, drop_0. apply filter_all. intros e _. apply not_elem_of_nil. }
  destruct l as [|e l]; [done|]. rewrite fmap_cons in *. apply NoDup_cons in Hnd as [Hni Hnd].
  simpl. rewrite filter_cons_False by (intros Hn; apply Hn; by left).
  rewrite <- (IH l Hnd). apply filter_ext_in. intros x Hx. rewrite not_elem_of_cons.
  split; [by intros [_ ?]|]. intros Hn. split; [|done]. intros E. apply Hni.
  rewrite <- E. by apply list_elem_of_fmap_2.
Qed.

Lemma take_min_length {A} k (l : list A) : take k l = take (k `min` length l)%nat l.
Proof.
  destruct (Nat.le_gt_cases k (length l)); [by rewrite Nat.min_l by lia|].
  rewrite Nat.min_r by lia. by rewrite !take_ge by lia.
Qed.

Section trims.
Context (hash_iter : ∀ {V}, gmap Bytes V → list (Bytes * V)).
Arguments hash_iter {V}.

Lemma fold_remove_spec ids s :
  let s' := foldl (remove_entry_and_pel (@hash_iter)) s ids in
  last_generated_id s' = last_generated_id s ∧
  ∀ id e, entries s' !! id = Some e ↔ entries s !! id = Some e ∧ id ∉ ids.
Proof.
  revert s. induction ids as [|i ids IH]; intros s; simpl.
  { split; [done|]. intros id e. pose proof (not_elem_of_nil id). tauto. }
  destruct (IH (remove_entry_and_pel (@hash_iter) s i)) as [Hl He]. split; [done|].
  intros id e. rewrite He. simpl. rewrite lookup_delete_Some, not_elem_of_cons. naive_solver.
Qed.

Lemma trim_maxlen_limit_spec s max limit :
  log_ok s →
  let n := (length (log s) - max)%nat in
  let n := match limit with Some lim => n `min` lim | None => n end%nat in
  let s' := (trim_maxlen_limit (@hash_iter) s max limit).1 in
  log_ok s' ∧ log s' = drop n (log s) ∧ (trim_maxlen_limit (@hash_iter) s max limit).2 = n.
Proof.
  intros Hlog n0 n. unfold trim_maxlen_limit. rewrite <- log_length.
  destruct (Nat.leb_spec (length (log s)) max) as [Hle|Hlt].
  { assert (n = 0%nat) as -> by (unfold n, n0; destruct limit; lia). by rewrite drop_0. }
  fold n0. fold n. rewrite <- log_ids by done. cbn [fst snd].
  destruct (fold_remove_spec (take n (se_id <$> log s)) s) as [Hl He].
  split_and!.
  - eapply log_ok_subset; [exact Hlog|exact Hl|]. intros id e Hin. by apply He.
  - rewrite (bt_values_filter (λ id, id ∉ take n (se_id <$> log s)) s) by done.
    by apply filter_drop_ids, log_ids_NoDup.
  - rewrite length_take, length_fmap. unfold n, n0. destruct limit; lia.
Qed.

(** The IDs below a bound are a prefix of the log. *)
Lemma ids_below s minid :
  log_ok s →
  ∃ k, (bt_range_to id_cmp minid (entries s)).*1 = take k (se_id <$> log s) ∧
    drop k (log s) = filter (λ e, id_le minid (se_id e) = true) (log s).
Proof.
  intros Hlog. unfold bt_range_to. rewrite log_ids by done. unfold log, bt_keys, bt_values.
  pose proof (bt_entries_sorted id_cmp (entries s)) as Hs.
  assert (Hid : ∀ id e, (id, e) ∈ bt_entries id_cmp (entries s) → se_id e = id).
  { intros id e He. by apply (lo_id s Hlog), (elem_of_bt_entries id_cmp). }
  induction Hs as [|[id e] l Hs IH Hx]; [by exists 0%nat|].
  rewrite filter_cons. cbn [fst]. destruct (id_lt id minid) eqn:E.
  - rewrite decide_True by done. destruct IH as (k & Hk & Hd).
    { intros id' e' Hin. apply Hid. by right. }
    exists (S k). rewrite !fmap_cons. simpl. rewrite Hk. split; [done|].
    rewrite filter_cons_False, Hd; [done|]. rewrite (Hid id e) by by left.
    rewrite id_le_true, id_cmp_Gt. intros Hn. apply id_lt_true in E. done.
  - rewrite decide_False by done. exists 0%nat. split.
    + simpl. rewrite filter_none; [done|]. intros [id' e'] Hin. simpl. rewrite id_lt_true.
      intros Hlt. rewrite Forall_forall in Hx. specialize (Hx _ Hin). unfold entry_lt in Hx. simpl in Hx.
      assert (id_cmp id minid = Lt) by by eapply (cmp_lt_trans id_cmp).
      by apply id_lt_true in H; rewrite H in E.
    + rewrite drop_0. symmetry. apply filter_all. intros x Hx'. rewrite id_le_true, id_cmp_Gt.
      intros Hlt. apply list_elem_of_fmap in Hx' as ([id' e'] & -> & Hin). simpl in Hlt.
      rewrite (Hid id' e' Hin) in Hlt. apply elem_of_cons in Hin as [[= -> ->]|Hin].
      * apply id_lt_true in Hlt. congruence.
      * rewrite Forall_forall in Hx. specialize (Hx _ Hin). unfold entry_lt in Hx. simpl in Hx.
        assert (id_cmp id minid = Lt) as H%id_lt_true by by eapply (cmp_lt_trans id_cmp).
        congruence.
Qed.

Lemma trim_minid_limit_spec s minid limit :
  log_ok s →
  let below := filter (λ e, id_lt (se_id e) minid = true) (log s) in
  let n := match limit with Some lim => length below `min` lim | None => length below end%nat in
  let s' := (trim_minid_limit (@hash_iter) s minid limit).1 in
  log_ok s' ∧ log s' = drop n (log s) ∧ (trim_minid_limit (@hash_iter) s minid limit).2 = n.
Proof.
  intros Hlog below n. unfold trim_minid_limit.
  destruct (ids_below s minid Hlog) as (k & Hk & _).
  rewrite take_min_length in Hk. set (k' := (k `min` _)%nat) in Hk.
  assert (Hlen : length below = length (bt_range_to id_cmp minid (entries s)).*1).
  { unfold below, log, bt_values, bt_range_to. rewrite filter_fmap, !length_fmap.
    f_equal. apply filter_ext_in. intros [id e] He. apply (elem_of_bt_entries id_cmp) in He.
    simpl. by rewrite (lo_id s Hlog id e He). }
  set (ids := truncate limit _). assert (Hids : ids = take n (se_id <$> log s)).
  { unfold ids, n, truncate. rewrite Hlen, Hk, length_take.
    replace (k' `min` length (se_id <$> log s))%nat with k' by lia.
    destruct limit as [lim|]; [|done]. rewrite take_take. f_equal. lia. }
  cbn [fst snd]. destruct (fold_remove_spec ids s) as [Hl He]. split_and!.
  - eapply log_ok_subset; [exact Hlog|exact Hl|]. intros id e Hin. by apply He.
  - rewrite (bt_values_filter (λ id, id ∉ ids) s) by done. rewrite Hids.
    by apply filter_drop_ids, log_ids_NoDup.
  - unfold ids, n, truncate. rewrite Hlen. destruct limit; [by rewrite length_take, Nat.min_comm|done].
Qed.
End trims.

(** ** Pending counts *)

Definition owns (c : Bytes) (pe : PendingEntry) : nat := if decide (pe_consumer pe = c) then 1 else 0.

Lemma owned_perm c p (l : list (StreamId * PendingEntry)) :
  l ≡ₚ map_to_list p → owned c p = length (filter (λ e, pe_consumer e.2 = c) l).
Proof. intros Hl. unfold owned. by rewrite bt_entries_perm, Hl. Qed.

Lemma owned_insert c p id pe :
  p !! id = None → owned c (<[id := pe]> p) = (owns c pe + owned c p)%nat.
Proof.
  intros Hn. rewrite (owned_perm c (<[id := pe]> p) ((id, pe) :: map_to_list p)).
  - rewrite (owned_perm c p (map_to_list p)) by done. rewrite filter_cons. unfold owns. simpl.
    by case_decide.
  - by rewrite map_to_list_insert.
Qed.

Lemma owned_delete c p id pe :
  p !! id = Some pe → owned c p = (owns c pe + owned c (delete id p))%nat.
Proof.
  intros Hs. rewrite <- (insert_delete_id p id pe Hs) at 1. apply owned_insert, lookup_delete_eq.
Qed.

Lemma owned_empty c : owned c ∅ = 0%nat.
Proof. unfold owned. by rewrite bt_entries_empty. Qed.

(** Every pending entry is stored under its ID and its owner exists. *)
Definition pel_ok (g : ConsumerGroup) : Prop :=
  ∀ id pe, pel g !! id = Some pe → pe_id pe = id ∧ is_Some (consumers g !! pe_consumer pe).

(** The counts of the consumers that [P] holds of are those of the PEL. *)
Definition counts_ok (P : Bytes → Prop) (g : ConsumerGroup) : Prop :=
  ∀ c x, consumers g !! c = Some x → c_name x = c ∧ (P c → c_pending x = owned c (pel g)).

Definition group_ok (g : ConsumerGroup) : Prop := pel_ok g ∧ counts_ok (λ _, True) g.

Lemma alter_is_Some {A} (f : A → A) (k : Bytes) (m : gmap Bytes A) i :
  is_Some (alter f k m !! i) ↔ is_Some (m !! i).
Proof. rewrite lookup_alter. case_decide; subst; [by rewrite fmap_is_Some|done]. Qed.

(** Taking an entry out of the PEL and out of its owner's count. *)
Lemma ack_in_group_ok P id g :
  pel_ok g → counts_ok P g → pel_ok (ack_in_group id g) ∧ counts_ok P (ack_in_group id g).
Proof.
  intros Hp Hc. unfold ack_in_group. destruct (pel g !! id) as [pe|] eqn:E; [|done]. split.
  - intros id' pe'. simpl. intros [_ H']%lookup_delete_Some. destruct (Hp _ _ H'). simpl.
    rewrite alter_is_Some. done.
  - intros c x. simpl. rewrite lookup_alter. pose proof (owned_delete c _ _ _ E) as Ho.
    unfold owns in Ho. case_decide as Hd.
    + subst c. destruct (consumers g !! pe_consumer pe) as [y|] eqn:Ey; [|done].
      simpl. intros [= <-]. destruct (Hc _ _ Ey) as [Hn Hy]. split; [done|]. intros HP.
      simpl. rewrite (Hy HP). lia.
    + intros Hx. destruct (Hc _ _ Hx) as [Hn Hy]. split; [done|]. intros HP. rewrite (Hy HP).
      simpl. lia.
Qed.

Lemma group_ok_new name id read : group_ok (mkConsumerGroup name id read ∅ ∅).
Proof. split; intros k v; simpl; by rewrite lookup_empty. Qed.

Lemma touch_lookup c now cs k :
  touch_consumer c now cs !! k =
  if decide (k = c) then
    Some (mkConsumer (default c (c_name <$> cs !! c)) now (default 0%nat (c_pending <$> cs !! c)))
  else cs !! k.
Proof.
  unfold touch_consumer. destruct (cs !! c) eqn:E; simpl; rewrite lookup_insert;
    repeat case_decide; simplify_eq; done.
Qed.

(** A consumer without pending entries owns none. *)
Lemma owned_absent g c : pel_ok g → consumers g !! c = None → owned c (pel g) = 0%nat.
Proof.
  intros Hp Hc. unfold owned. rewrite filter_none; [done|]. intros [id pe] Hin. simpl.
  apply (elem_of_bt_entries id_cmp) in Hin. destruct (Hp _ _ Hin) as [_ [x Hx]]. intros <-. congruence.
Qed.

Lemma touch_ok P c now g :
  pel_ok g → counts_ok P g →
  let g' := set_consumers g (touch_consumer c now (consumers g)) in
  pel_ok g' ∧ counts_ok P g' ∧ is_Some (consumers g' !! c).
Proof.
  intros Hp Hc g'. split_and!.
  - intros id pe Hpe. destruct (Hp _ _ Hpe) as [? Hs]. split; [done|]. simpl.
    rewrite touch_lookup. case_decide; [done|exact Hs].
  - intros k x. simpl. rewrite touch_lookup. case_decide as Hk; [subst k|by apply Hc].
    intros [= <-]. destruct (consumers g !! c) as [y|] eqn:Ey; simpl.
    + destruct (Hc _ _ Ey). done.
    + split; [done|]. intros _. by rewrite owned_absent.
  - simpl. rewrite touch_lookup, decide_True by done. done.
Qed.

Lemma create_consumer_ok c now g : group_ok g → group_ok (create_consumer c now g).1.
Proof.
  intros [Hp Hc]. unfold create_consumer. destruct (consumers g !! c) eqn:E; [done|]. simpl.
  destruct (touch_ok (λ _, True) c now g Hp Hc) as (Hp' & Hc' & _).
  unfold touch_consumer in *. rewrite E in *. done.
Qed.

Lemma owned_replace c p id pe :
  owned c (<[id := pe]> p) = (owns c pe + owned c (delete id p))%nat.
Proof. rewrite <- insert_delete_eq. apply owned_insert, lookup_delete_eq. Qed.

Lemma fold_delete_lookup (ids : list StreamId) (p : gmap StreamId PendingEntry) id pe :
  foldl (λ p id, delete id p) p ids !! id = Some pe ↔ p !! id = Some pe ∧ id ∉ ids.
Proof.
  revert p. induction ids as [|i ids IH]; intros p; simpl.
  { pose proof (not_elem_of_nil id). tauto. }
  rewrite IH, lookup_delete_Some, not_elem_of_cons. naive_solver.
Qed.

Lemma del_consumer_ok c g : group_ok g → group_ok (del_consumer c g).1.
Proof.
  intros [Hp Hc]. unfold del_consumer. destruct (consumers g !! c) as [y|] eqn:E; [|done].
  cbn [fst]. set (ids := (filter _ _).*1). set (p' := foldl _ _ _).
  assert (Hp' : ∀ id pe, p' !! id = Some pe ↔ pel g !! id = Some pe ∧ pe_consumer pe ≠ c).
  { intros id pe. unfold p'. rewrite fold_delete_lookup. split; intros [Hpe Hn]; (split; [done|]).
    - intros Hcc. apply Hn. unfold ids. apply list_elem_of_fmap. exists (id, pe).
      split; [done|]. apply list_elem_of_filter. split; [done|]. by apply (elem_of_bt_entries id_cmp).
    - intros Hin. unfold ids in Hin. apply list_elem_of_fmap in Hin as ([id' pe'] & -> & Hin).
      apply list_elem_of_filter in Hin as [Hcc Hin]. apply (elem_of_bt_entries id_cmp) in Hin.
      simpl in *. congruence. }
  split.
  - intros id pe. simpl. intros [Hpe Hne]%Hp'. destruct (Hp _ _ Hpe). split; [done|].
    by rewrite lookup_delete_ne.
  - intros k x. simpl. intros [Hk Hx]%lookup_delete_Some. destruct (Hc _ _ Hx) as [Hn Hcnt].
    split; [done|]. intros _. rewrite Hcnt by done. unfold owned.
    rewrite (bt_entries_filter id_cmp (λ e, pe_consumer e.2 ≠ c) (pel g) p') by (intros; apply Hp').
    rewrite list_filter_filter. f_equal. apply filter_ext_in. intros [id pe] _. simpl. naive_solver.
Qed.

Lemma alter_pending_lookup (f : Consumer → Consumer) (k : Bytes) (cs : gmap Bytes Consumer) (i : Bytes) x :
  (∀ y, c_name (f y) = c_name y) → alter f k cs !! i = Some x →
  ∃ y, cs !! i = Some y ∧ c_name x = c_name y ∧
    c_pending x = if decide (i = k) then c_pending (f y) else c_pending y.
Proof.
  intros Hf. rewrite lookup_alter. case_decide as Hk.
  - subst. destruct (cs !! i) as [y|]; [|done]. simpl. intros [= <-]. exists y.
    rewrite decide_True by done. done.
  - intros Hx. exists x. rewrite decide_False by congruence. done.
Qed.

Lemma claim_entry_ok c now dt opts id g :
  group_ok g → group_ok (claim_entry c now dt opts id g).
Proof.
  intros [Hp0 Hc0]. destruct (touch_ok (λ _, True) c now g Hp0 Hc0) as (Hp & Hc & [y Hy]).
  unfold claim_entry. set (cs := touch_consumer c now (consumers g)) in *.
  set (pe := default _ _). set (cs2 := if decide _ then _ else _). set (pe' := mkPendingEntry _ _ _ _).
  assert (Hid : pe_id pe = id).
  { unfold pe. destruct (pel g !! id) as [pe0|] eqn:E; [|done]. by apply (Hp0 id). }
  assert (Hsome : ∀ k, is_Some (cs2 !! k) ↔ is_Some (cs !! k)).
  { intros k. unfold cs2. repeat case_decide; rewrite ?alter_is_Some; done. }
  split.
  - intros id' q. simpl. intros [[<- <-]|[_ Hq]]%lookup_insert_Some.
    + split; [done|]. apply Hsome. by exists y.
    + destruct (Hp _ _ Hq) as [? Hs]. split; [done|]. by apply Hsome.
  - intros k x Hx. cbn [consumers set_pel set_consumers pel] in *. rewrite owned_replace.
    assert (Ho : owned k (pel g) =
      (match pel g !! id with Some q => owns k q | None => 0 end + owned k (delete id (pel g)))%nat).
    { destruct (pel g !! id) as [q|] eqn:E; [by apply owned_delete|].
      by rewrite delete_id. }
    assert (Hk : c_name x = k ∧ (c_pending x + match pel g !! id with Some q => owns k q | None => 0 end
      = owns k pe' + owned k (pel g))%nat); [|destruct Hk; split; [done|]; intros _; lia].
    unfold pe in cs2. unfold owns. cbn [pe_consumer pe'].
    destruct (pel g !! id) as [q|] eqn:E; simpl in cs2.
    + unfold cs2 in Hx. clear cs2 Hsome pe pe' Hid. destruct (decide (pe_consumer q ≠ c)) as [Hd|Hd].
      * apply alter_pending_lookup in Hx as (x1 & Hx & -> & ->); [|done].
        apply alter_pending_lookup in Hx as (x2 & Hx & -> & Hx1); [|done].
        destruct (Hc _ _ Hx) as [Hn Hcnt]. specialize (Hcnt I). cbn [pel set_consumers] in Hcnt.
        unfold owns in Ho. simpl. repeat case_decide; simplify_eq; simpl in *; split; try done; lia.
      * apply dec_stable in Hd.
        destruct (Hc _ _ Hx) as [Hn Hcnt]. specialize (Hcnt I). cbn [pel set_consumers] in Hcnt.
        rewrite Hd. split; [done|]. lia.
    + unfold cs2 in Hx. clear cs2 Hsome pe pe' Hid. rewrite decide_False in Hx by (intros Hn; by apply Hn).
      apply alter_pending_lookup in Hx as (x1 & Hx & -> & ->); [|done].
      destruct (Hc _ _ Hx) as [Hn Hcnt]. specialize (Hcnt I). cbn [pel set_consumers] in Hcnt.
      split; [done|]. simpl. repeat case_decide; simplify_eq; lia.
Qed.

Lemma ack_group_ok id g : group_ok g → group_ok (ack_in_group id g).
Proof. intros [Hp Hc]. by apply ack_in_group_ok. Qed.

Lemma claim_loop_ok es c now dt opts ids g :
  group_ok g → group_ok (claim_loop es c now dt opts ids g).1.
Proof.
  revert g. induction ids as [|id ids IH]; intros g Hg; simpl; [done|].
  assert (Hone : group_ok (claim_one es c now dt opts g id).1).
  { unfold claim_one. repeat case_match; simpl; auto using ack_group_ok, claim_entry_ok. }
  destruct (claim_one es c now dt opts g id) as [g1 b]. simpl in Hone. specialize (IH g1 Hone).
  by destruct (claim_loop es c now dt opts ids g1).
Qed.

Lemma autoclaim_loop_ok es c now opts count cands g last cl del :
  group_ok g → group_ok (autoclaim_loop es c now opts count cands g last cl del).1.1.1.
Proof.
  revert g last cl del. induction cands as [|id cands IH]; intros g last cl del Hg; [done|].
  cbn [autoclaim_loop]. destruct (es !! id); [|by apply IH, ack_group_ok].
  case_match; [done|]. pose proof (claim_loop_ok es c now (claim_time opts now) opts [id] g Hg) as Hc.
  destruct (claim_loop _ _ _ _ _ _ _) as [g1 got]. simpl in Hc. case_match; [done|]. by apply IH.
Qed.

Lemma autoclaim_group_ok es c now idle start count justid g :
  group_ok g → group_ok (autoclaim_group es c now idle start count justid g).1.
Proof.
  intros Hg. unfold autoclaim_group.
  set (opts := mkXClaimOpts _ _ _ _ _ _). set (cands := autoclaim_candidates _ _ _ _ _).
  pose proof (autoclaim_loop_ok es c now opts count cands g None [] [] Hg) as Hok.
  destruct (autoclaim_loop _ _ _ _ _ _ _ _ _ _) as [[[g1 last] cl] del]. done.
Qed.

Lemma ack_loop_ok ids g : group_ok g → group_ok (ack_loop ids g).1.
Proof.
  revert g. induction ids as [|id ids IH]; intros g Hg; simpl; [done|].
  specialize (IH _ (ack_group_ok id g Hg)). by destruct (ack_loop ids _).
Qed.

(** While a read delivers, the reader's own count is not up to date. *)
Lemma deliver_ok c now noack e g :
  pel_ok g → counts_ok (λ k, k ≠ c) g → is_Some (consumers g !! c) →
  let g' := deliver c now noack g e in
  pel_ok g' ∧ counts_ok (λ k, k ≠ c) g' ∧ is_Some (consumers g' !! c).
Proof.
  intros Hp Hc Hs. unfold deliver. destruct noack; [done|]. cbv zeta. cbn [pel consumers].
  set (id := se_id e). set (pe := default _ _). set (cs := if decide _ then _ else _).
  assert (Hsome : ∀ k, is_Some (cs !! k) ↔ is_Some (consumers g !! k)).
  { intros k. unfold cs. case_decide; rewrite ?alter_is_Some; done. }
  assert (Hid : pe_id pe = id).
  { unfold pe. destruct (pel g !! id) as [pe0|] eqn:E; [|done]. by apply (Hp id). }
  split_and!.
  - intros id' q. simpl. intros [[<- <-]|[_ Hq]]%lookup_insert_Some.
    + split; [done|]. by apply Hsome.
    + destruct (Hp _ _ Hq). split; [done|]. by apply Hsome.
  - intros k x Hx. cbn [consumers set_pel set_consumers pel] in *. rewrite owned_replace.
    assert (Hx' : ∃ y, consumers g !! k = Some y ∧ c_name x = c_name y ∧ (k ≠ c →
      c_pending x = (c_pending y - if decide (k = pe_consumer pe) then 1 else 0)%nat)).
    { unfold cs in Hx. destruct (decide (pe_consumer pe ≠ c)) as [Hd|Hd].
      - apply alter_pending_lookup in Hx as (y & Hy & Hn & Hcnt); [|done]. exists y.
        split_and!; [done..|]. intros _. rewrite Hcnt. case_decide; simpl; lia.
      - exists x. split_and!; [done..|]. intros Hk. apply dec_stable in Hd.
        rewrite decide_False by congruence. lia. }
    destruct Hx' as (y & Hy & -> & Hcnt). destruct (Hc _ _ Hy) as [Hn Hyc]. split; [done|].
    intros Hk. rewrite (Hcnt Hk), (Hyc Hk). unfold owns. cbn [pe_consumer redeliver].
    rewrite (decide_False (P := c = k)) by congruence.
    unfold pe. destruct (pel g !! id) as [q|] eqn:E; simpl.
    + rewrite (owned_delete k _ _ _ E). unfold owns.
      destruct (decide (pe_consumer q = k)), (decide (k = pe_consumer q)); simplify_eq; lia || done.
    + rewrite (decide_False (P := k = c)) by done. rewrite delete_id by done. lia.
  - by apply Hsome.
Qed.

Lemma deliver_all_ok c now noack es g :
  pel_ok g → counts_ok (λ k, k ≠ c) g → is_Some (consumers g !! c) →
  let g' := foldl (deliver c now noack) g es in
  pel_ok g' ∧ counts_ok (λ k, k ≠ c) g' ∧ is_Some (consumers g' !! c).
Proof.
  revert g. induction es as [|e es IH]; intros g Hp Hc Hs; simpl; [done|].
  destruct (deliver_ok c now noack e g Hp Hc Hs) as (?&?&?). by apply IH.
Qed.

Lemma deliver_noack c now es g :
  let g' := foldl (deliver c now true) g es in
  pel g' = pel g ∧ consumers g' = consumers g.
Proof.
  revert g. induction es as [|e es IH]; intros g; [done|]. simpl.
  destruct (IH (deliver c now true g e)). done.
Qed.

Lemma read_new_ok es c count noack now g :
  group_ok g → group_ok (read_new es c count noack now g).1.
Proof.
  intros [Hp Hc]. destruct (touch_ok (λ _, True) c now g Hp Hc) as (Hp1 & Hc1 & Hs1).
  unfold read_new. cbn [fst]. set (g1 := set_consumers g _) in *. set (l := new_entries _ _ _).
  destruct noack.
  - destruct (deliver_noack c now l g1) as [Ep Ec]. unfold group_ok, pel_ok, counts_ok.
    rewrite Ep, Ec. done.
  - assert (Hc2 : counts_ok (λ k, k ≠ c) g1) by (intros k x Hx; destruct (Hc1 _ _ Hx); auto).
    destruct (deliver_all_ok c now false l g1 Hp1 Hc2 Hs1) as (Hp' & Hc' & Hs').
    set (g2 := foldl _ _ _) in *. split.
    + intros id pe Hpe. destruct (Hp' _ _ Hpe). split; [done|]. simpl. by rewrite alter_is_Some.
    + intros k x Hx. simpl in Hx. cbn [pel set_consumers].
      apply alter_pending_lookup in Hx as (y & Hy & -> & ->); [|done].
      destruct (Hc' _ _ Hy). split; [done|]. intros _. case_decide; subst; auto.
Qed.

Lemma redeliver_owned c now (l : list StreamEntry) p :
  let p' := foldl (λ p e, alter (redeliver now) (se_id e) p) p l in
  owned c p' = owned c p ∧
  ∀ id pe, p' !! id = Some pe → ∃ q, p !! id = Some q ∧ pe_id pe = pe_id q ∧ pe_consumer pe = pe_consumer q.
Proof.
  revert p. induction l as [|e l IH]; intros p; simpl; [split; [done|]; eauto|].
  destruct (IH (alter (redeliver now) (se_id e) p)) as [Ho Hl]. split.
  - rewrite Ho. destruct (p !! se_id e) as [q|] eqn:E.
    + assert (alter (redeliver now) (se_id e) p = <[se_id e := redeliver now q]> p) as ->.
      { apply map_eq. intros i. rewrite lookup_alter, lookup_insert. case_decide; [|done].
        subst. by rewrite E. }
      rewrite owned_replace, (owned_delete c p _ _ E). done.
    + assert (alter (redeliver now) (se_id e) p = p) as ->; [|done].
      apply map_eq. intros i. rewrite lookup_alter. case_decide; [|done]. subst. by rewrite E.
  - intros id pe Hpe. destruct (Hl _ _ Hpe) as (q & Hq & H1 & H2). rewrite lookup_alter in Hq.
    case_decide as Hd; [|eauto]. subst id. destruct (p !! se_id e) as [r|]; [|done]. simpl in Hq.
    simplify_eq. exists r. done.
Qed.

Lemma read_history_ok es c after count now g :
  group_ok g → group_ok (read_history es c after count now g).1.
Proof.
  intros [Hp Hc]. destruct (touch_ok (λ _, True) c now g Hp Hc) as (Hp1 & Hc1 & _).
  unfold read_history. cbn [fst]. set (g1 := set_consumers g _) in *. set (l := history_entries _ _ _ _ _).
  split.
  - intros id pe Hpe. cbn [pel set_pel] in Hpe. apply (redeliver_owned c now l) in Hpe as (q & Hq & -> & ->).
    by apply (Hp1 id q).
  - intros k x Hx. destruct (Hc1 _ _ Hx) as [Hn Hcnt]. split; [done|]. intros _.
    cbn [pel set_pel]. rewrite (proj1 (redeliver_owned k now l (pel g1))). by apply Hcnt.
Qed.

(** ** Rebuilding maps from lists *)

Lemma foldl_insert_lookup {A K V} `{Countable K} (k : A → K) (v : A → V) (l : list A)
    (m0 : gmap K V) i y :
  NoDup (k <$> l) →
  foldl (λ m x, <[k x := v x]> m) m0 l !! i = Some y ↔
  (∃ x, x ∈ l ∧ k x = i ∧ v x = y) ∨ ((i ∉ k <$> l) ∧ m0 !! i = Some y).
Proof.
  revert m0. induction l as [|x l IH]; intros m0 Hnd; simpl.
  { pose proof (not_elem_of_nil i). split; [by right|].
    intros [(x & Hx & _)|[_ ?]]; [by apply not_elem_of_nil in Hx|done]. }
  rewrite fmap_cons in Hnd. apply NoDup_cons in Hnd as [Hni Hnd]. rewrite IH by done.
  setoid_rewrite elem_of_cons. rewrite lookup_insert_Some. split.
  - intros [(x' & Hx' & E1 & E2)|[Hn [[E1 E2]|[Hne Hm]]]].
    + left. exists x'. auto.
    + left. exists x. auto.
    + right. split; [|done]. intros [?|?]; [congruence|done].
  - intros [(x' & [->|Hx'] & E1 & E2)|[Hn Hm]].
    + right. split; [|by left]. by rewrite <- E1.
    + left. exists x'. auto.
    + right. split; [tauto|]. right. split; [|done]. intros E. apply Hn. by left.
Qed.

(** The values of a map, reinserted under their keys, give the map back. *)
Lemma rebuild_map {K V} `{Countable K} (k : V → K) (m : gmap K V) (l : list V) :
  (∀ i x, m !! i = Some x → k x = i) → l ≡ₚ (map_to_list m).*2 →
  NoDup (k <$> l) ∧ (∀ x, x ∈ l ↔ m !! k x = Some x).
Proof.
  intros Hk Hl. assert (Hkeys : k <$> (map_to_list m).*2 = (map_to_list m).*1).
  { rewrite <- list_fmap_compose. apply list_fmap_ext. intros j [i x] Hj. simpl. apply Hk.
    apply elem_of_map_to_list. by eapply list_elem_of_lookup_2. }
  split.
  - rewrite Hl, Hkeys. apply NoDup_fst_map_to_list.
  - intros x. rewrite Hl, list_elem_of_fmap. split.
    + intros ([i x'] & -> & Hin). apply elem_of_map_to_list in Hin. simpl. by rewrite (Hk i).
    + intros Hx. exists (k x, x). split; [done|]. by apply elem_of_map_to_list.
Qed.

Lemma rebuild_map_eq {A K V} `{Countable K} (k : A → K) (v : A → V) (l : list A) (m : gmap K V) :
  NoDup (k <$> l) → (∀ i y, m !! i = Some y ↔ ∃ x, x ∈ l ∧ k x = i ∧ v x = y) →
  foldl (λ m x, <[k x := v x]> m) ∅ l = m.
Proof.
  intros Hnd Hm. apply map_eq. intros i. apply option_eq. intros y.
  rewrite foldl_insert_lookup by done. rewrite Hm, lookup_empty. naive_solver.
Qed.

Lemma bt_values_perm {V} (m : gmap StreamId V) : bt_values id_cmp m ≡ₚ (map_to_list m).*2.
Proof. unfold bt_values. by rewrite bt_entries_perm. Qed.

(** ** Snapshots *)

Definition stream_ok (s : RedisStream) : Prop :=
  log_ok s ∧ ∀ name g, groups s !! name = Some g → g_name g = name ∧ group_ok g.

(** What a snapshot does not carry. *)
Definition forget_read (g : ConsumerGroup) : ConsumerGroup :=
  mkConsumerGroup (g_name g) (last_delivered_id g) None (consumers g) (pel g).

Lemma count_fold_lookup (l : list PendingEntry) (cs : gmap Bytes Consumer) c :
  foldl (λ cs pe, alter add_pending (pe_consumer pe) cs) cs l !! c =
  (λ x, set_pending (c_pending x + length (filter (λ pe, pe_consumer pe = c) l)) x) <$> cs !! c.
Proof.
  revert cs. induction l as [|pe l IH]; intros cs; simpl.
  { destruct (cs !! c) as [[n t p]|]; simpl; [|done]. unfold set_pending. simpl.
    by rewrite Nat.add_0_r. }
  rewrite IH, lookup_alter, filter_cons. case_decide as Hd.
  - subst c. destruct (cs !! pe_consumer pe); simpl; [|done].
    unfold set_pending. simpl. do 2 f_equal. lia.
  - done.
Qed.

Lemma owned_values c p : length (filter (λ pe, pe_consumer pe = c) (bt_values id_cmp p)) = owned c p.
Proof. unfold bt_values, owned. rewrite filter_fmap. by rewrite length_fmap. Qed.

Lemma import_pending_fold (l : list PendingEntry) g :
  (∀ pe, pe ∈ l → is_Some (consumers g !! pe_consumer pe)) →
  foldl import_pending g l =
  set_pel g (foldl (λ p pe, <[pe_id pe := pe]> p) (pel g) l).
Proof.
  revert g. induction l as [|pe l IH]; intros g Hl; simpl; [by destruct g|].
  destruct (Hl pe) as [x Hx]; [by left|].
  assert (import_pending g pe = set_pel g (<[pe_id pe := pe]> (pel g))) as ->.
  { unfold import_pending. rewrite Hx. by destruct g. }
  rewrite IH; [by destruct g|]. intros q Hq. simpl. apply Hl. by right.
Qed.

Section snapshots.
Context (hash_iter : ∀ {V}, gmap Bytes V → list (Bytes * V)).
Arguments hash_iter {V}.
Context (hash_iter_perm : ∀ V (m : gmap Bytes V), hash_iter m ≡ₚ map_to_list m).

Lemma import_export_group g : group_ok g → import_group (export_group (@hash_iter) g) = forget_read g.
Proof.
  intros [Hp Hc]. unfold import_group, export_group. cbn [gs_name gs_last_delivered_id gs_pending gs_consumers].
  destruct (rebuild_map c_name (consumers g) (hash_iter (consumers g)).*2) as [Hnd Hel].
  { intros i x Hx. by destruct (Hc i x Hx). }
  { by rewrite hash_iter_perm. }
  assert (Hcs : import_consumers (hash_iter (consumers g)).*2 = consumers g).
  { unfold import_consumers. apply (rebuild_map_eq c_name (λ c, c)); [done|]. intros i y. split.
    - intros Hy. exists y. destruct (Hc i y Hy) as [Hn _]. rewrite Hel, Hn. done.
    - intros (x & Hx & <- & <-). by apply Hel. }
  rewrite Hcs. rewrite import_pending_fold.
  2:{ intros pe Hpe. rewrite bt_values_perm, list_elem_of_fmap in Hpe.
      destruct Hpe as ([id q] & -> & Hin). apply elem_of_map_to_list in Hin. by apply (Hp id). }
  assert (Hpel : foldl (λ p pe, <[pe_id pe := pe]> p) ∅ (bt_values id_cmp (pel g)) = pel g).
  { destruct (rebuild_map pe_id (pel g) (bt_values id_cmp (pel g))) as [Hnd' Hel'];
      [intros i x Hx; by destruct (Hp i x Hx)|apply bt_values_perm|].
    apply (rebuild_map_eq pe_id (λ c, c)); [done|]. intros i y. split.
    - intros Hy. exists y. destruct (Hp i y Hy) as [Hn _]. rewrite Hel', Hn. done.
    - intros (x & Hx & <- & <-). by apply Hel'. }
  cbn [pel ConsumerGroup_new set_consumers]. rewrite Hpel.
  unfold recount, forget_read, set_consumers, set_pel, ConsumerGroup_new. simpl. f_equal.
  apply map_eq. intros c. rewrite count_fold_lookup, lookup_fmap, owned_values.
  destruct (consumers g !! c) as [[n t p]|] eqn:E; simpl; [|done].
  destruct (Hc c _ E) as [_ Hcnt]. simpl in Hcnt. unfold set_pending. simpl. by rewrite Hcnt.
Qed.

Lemma import_export_entries s : log_ok s → import_entries (export_entries s) = entries s.
Proof.
  intros Hlog. unfold import_entries, export_entries. fold (log s).
  assert (Hel : ∀ e, e ∈ log s ↔ entries s !! se_id e = Some e).
  { intros e. destruct (rebuild_map se_id (entries s) (log s)) as [_ H];
      [intros; by apply (lo_id s Hlog)|apply bt_values_perm|apply H]. }
  apply (rebuild_map_eq (λ e, e.1) (λ e, mkStreamEntry e.1 e.2)).
  - rewrite <- list_fmap_compose. by apply log_ids_NoDup.
  - intros i y. setoid_rewrite list_elem_of_fmap. split.
    + intros Hy. pose proof (lo_id s Hlog i y Hy) as Hid. exists (se_id y, fields y).
      split_and!; [|done|by destruct y]. exists y. split; [done|]. apply Hel. by rewrite Hid.
    + intros (x & (e & -> & He) & <- & <-). simpl. apply Hel in He. by destruct e.
Qed.

Lemma import_export_state s :
  stream_ok s →
  import_state (export_state (@hash_iter) s) =
  mkRedisStream (entries s) (last_generated_id s) (Z.of_nat (stream_len s)) ZERO
    (forget_read <$> groups s).
Proof.
  intros [Hlog Hg]. unfold import_state, export_state.
  cbn [ss_last_generated_id ss_entries ss_groups]. rewrite import_export_entries by done. f_equal.
  - destruct (bt_last_key id_cmp (entries s)) as [k|] eqn:E; [|done].
    destruct (bt_last_key_in id_cmp _ _ E) as [e He].
    pose proof (lo_last s Hlog k e He) as Hle. destruct (id_lt (last_generated_id s) k) eqn:El; [|done].
    rewrite id_lt_true in El. rewrite id_cmp_Gt in Hle. done.
  - destruct (rebuild_map g_name (groups s) (hash_iter (groups s)).*2) as [Hnd Hel];
      [intros i x Hx; by destruct (Hg i x Hx)|by rewrite hash_iter_perm|].
    apply (rebuild_map_eq gs_name import_group).
    + rewrite <- list_fmap_compose. exact Hnd.
    + intros i y. rewrite lookup_fmap, fmap_Some. setoid_rewrite list_elem_of_fmap. split.
      * intros (g & Hx & ->). destruct (Hg i g Hx) as [Hn Hok]. exists (export_group (@hash_iter) g).
        split_and!; [|done|by apply import_export_group]. exists g. split; [done|].
        apply Hel. by rewrite Hn.
      * intros (x & (g & -> & Hin) & <- & <-). apply Hel in Hin. simpl. exists g.
        split; [done|]. destruct (Hg _ _ Hin) as [_ Hok]. by apply import_export_group.
Qed.
End snapshots.

(** ** Reading through a group *)

Definition before (a b : StreamEntry) : Prop := id_cmp (se_id a) (se_id b) = Lt.

Lemma log_sorted s : log_ok s → StronglySorted before (log s).
Proof.
  intros Hlog. pose proof (bt_keys_sorted id_cmp (entries s)) as Hs. rewrite <- log_ids in Hs by done.
  induction (log s) as [|e l IH]; [constructor|]. rewrite fmap_cons in Hs.
  apply StronglySorted_inv in Hs as [Hs He]. constructor; [by apply IH|].
  by rewrite Forall_fmap in He.
Qed.

Lemma log_valid s e : log_ok s → e ∈ log s → valid_id (se_id e).
Proof.
  intros Hlog Hin. unfold log in Hin. rewrite bt_values_perm, list_elem_of_fmap in Hin.
  destruct Hin as ([id e'] & -> & Hin). apply elem_of_map_to_list in Hin. simpl.
  rewrite (lo_id s Hlog id e' Hin). by eapply lo_entry_valid.
Qed.

(** The entries above an ID, in order. *)
Definition above (id : StreamId) (l : list StreamEntry) : list StreamEntry :=
  filter (λ e, id_cmp id (se_id e) = Lt) l.

Lemma range_from_above s id :
  log_ok s → valid_id id → id ≠ MAX →
  (bt_range_from id_cmp (next_id id) (entries s)).*2 = above id (log s).
Proof.
  intros Hlog Hv Hne. unfold bt_range_from, above, log, bt_values. rewrite filter_fmap. f_equal.
  apply filter_ext_in. intros [k e] Hin. apply (elem_of_bt_entries id_cmp) in Hin. simpl.
  rewrite (lo_id s Hlog k e Hin), id_le_true. symmetry.
  apply next_id_spec; [done| |done]. by eapply lo_entry_valid.
Qed.

(** Reading takes at least one entry, even with [COUNT 0]. *)
Definition read_limit (count : option nat) (n : nat) : nat :=
  match count with Some c => c `max` 1 | None => n end.

Lemma collect_upto_spec {A} count (l out : list A) :
  match count with Some c => (length out < c `max` 1)%nat | None => True end →
  collect_upto count l out = out ++ take (read_limit count (length out + length l) - length out) l.
Proof.
  revert out. induction l as [|x l IH]; intros out Hc; simpl; [by rewrite take_nil, app_nil_r|].
  destruct count as [c|]; simpl in *.
  - rewrite length_app. simpl. destruct (Nat.leb_spec c (length out + 1)).
    + replace (c `max` 1 - length out)%nat with 1%nat by lia. done.
    + rewrite IH by (rewrite length_app; simpl; lia). rewrite <- app_assoc. simpl.
      rewrite length_app. simpl.
      by replace (c `max` 1 - length out)%nat with (S (c `max` 1 - (length out + 1)))%nat by lia.
  - rewrite IH by done. rewrite <- app_assoc, length_app. simpl.
    replace (length out + S (length l) - length out)%nat with (S (length l)) by lia. simpl.
    by replace (length out + 1 + length l - (length out + 1))%nat with (length l) by lia.
Qed.

Lemma new_entries_spec s g count :
  log_ok s → valid_id (last_delivered_id g) → last_delivered_id g ≠ MAX →
  let rest := above (last_delivered_id g) (log s) in
  new_entries (entries s) g count = take (read_limit count (length rest)) rest.
Proof.
  intros Hlog Hv Hne rest. unfold new_entries. rewrite range_from_above by done. fold rest.
  rewrite collect_upto_spec by (destruct count; simpl; lia). simpl. by rewrite Nat.sub_0_r.
Qed.

Lemma deliver_cursor c now noack es g :
  last_delivered_id (foldl (deliver c now noack) g es) =
  default (last_delivered_id g) (se_id <$> last es).
Proof.
  revert g. induction es as [|e es IH]; intros g; [done|]. simpl. rewrite IH.
  assert (last_delivered_id (deliver c now noack g e) = se_id e) as ->.
  { unfold deliver. by destruct noack. }
  rewrite last_cons. destruct (last es); done.
Qed.

Lemma read_new_cursor es c count noack now g :
  last_delivered_id (read_new es c count noack now g).1 =
  default (last_delivered_id g) (se_id <$> last (new_entries es g count)).
Proof. unfold read_new. destruct noack; simpl; by rewrite deliver_cursor. Qed.

Lemma above_sorted id l : StronglySorted before l → StronglySorted before (above id l).
Proof.
  induction 1 as [|x l Hs IH Hx]; [constructor|]. unfold above in *. rewrite filter_cons.
  case_decide; [|done]. constructor; [done|].
  rewrite Forall_forall in Hx |- *. intros y Hy. apply list_elem_of_filter in Hy as [_ Hy]. by apply Hx.
Qed.

Lemma above_split l0 e l1 : StronglySorted before (l0 ++ e :: l1) → above (se_id e) (l0 ++ e :: l1) = l1.
Proof.
  rewrite StronglySorted_app. intros (Hlt & _ & Hs). apply StronglySorted_inv in Hs as [_ He].
  unfold above. rewrite filter_app, filter_none, filter_cons, decide_False, filter_all; [done| | |].
  - intros x Hx. rewrite Forall_forall in He. by apply He.
  - by rewrite (cmp_refl id_cmp).
  - intros x Hx Hgt. assert (before x e) as Hlt' by (apply Hlt; [done|left]).
    assert (id_cmp (se_id x) (se_id x) = Lt) as Hc by exact (cmp_lt_trans id_cmp _ _ _ Hlt' Hgt).
    by rewrite (cmp_refl id_cmp) in Hc.
Qed.

Lemma above_above id id' l : id_cmp id id' = Lt → above id' (above id l) = above id' l.
Proof.
  intros Hlt. unfold above. rewrite list_filter_filter. apply filter_ext_in.
  intros e _. split; [by intros []|]. intros He. split; [done|]. exact (cmp_lt_trans id_cmp _ _ _ Hlt He).
Qed.

(** Above the last of the entries read lie the others. *)
Lemma above_last s id n :
  log_ok s → let rest := above id (log s) in
  above (default id (se_id <$> last (take n rest))) (log s) = drop n rest.
Proof.
  intros Hlog rest. destruct (last (take n rest)) as [e|] eqn:El; simpl.
  - apply last_Some in El as [l0 El]. pose proof (take_drop n rest) as Hsplit.
    rewrite El, <- app_assoc in Hsplit. simpl in Hsplit.
    assert (id_cmp id (se_id e) = Lt).
    { assert (e ∈ rest) as He by (rewrite <- Hsplit; set_solver).
      by apply list_elem_of_filter in He as [? _]. }
    rewrite <- (above_above id) by done. fold rest. rewrite <- Hsplit at 1.
    apply above_split. rewrite Hsplit. apply above_sorted, log_sorted, Hlog.
  - apply last_None in El. fold rest. rewrite <- (take_drop n rest) at 1. by rewrite El.
Qed.
