(* ===== verification/StreamProps.v ===== *)
(** * Properties of streams

    Sequences of stream commands, the invariant they keep, what they return,
    and the cases where a count or an order is not what it should be. *)

From S2P Require Import Prelude RustStd OrdMap StreamType StreamFacts.
From Stdlib Require Import Lia.
Local Open Scope Z_scope.

(** ** Commands *)

(** The operations that change a stream.  The clock is part of the operation. *)
Inductive sop : Type :=
| XAdd (spec : Str) (fs : list (Bytes * Bytes)) (now : Z)
| XDel (ids : list StreamId)
| XSetId (id : StreamId) (added : option Z) (deleted : option StreamId)
| XGroupCreate (name : Bytes) (id : StreamId) (read : option Z)
| XGroupDestroy (name : Bytes)
| XGroupCreateConsumer (name c : Bytes) (now : Z)
| XGroupDelConsumer (name c : Bytes)
| XGroupSetId (name : Bytes) (id : StreamId) (read : option Z)
| XClaim (name c : Bytes) (ids : list StreamId) (opts : XClaimOpts) (now : Z)
| XAutoClaim (name c : Bytes) (min_idle : Z) (start : StreamId) (count : nat) (justid : bool) (now : Z)
| XReadGroup (name c : Bytes) (spec : Str) (count : option nat) (noack : bool) (now : Z)
| XAck (name : Bytes) (ids : list StreamId)
| XTrimMaxLen (max : nat) (limit : option nat)
| XTrimMinId (minid : StreamId) (limit : option nat).

Section run.
Context (hash_iter : ∀ {V}, gmap Bytes V → list (Bytes * V)).

Definition sexec (s : RedisStream) (o : sop) : RedisStream :=
  match o with
  | XAdd spec fs now => (xadd s spec fs now).1
  | XDel ids => (xdel s ids).1
  | XSetId id added deleted => (xsetid s id added deleted).1
  | XGroupCreate name id read => (group_create s name id read).1
  | XGroupDestroy name => (group_destroy s name).1
  | XGroupCreateConsumer name c now => (group_create_consumer s name c now).1
  | XGroupDelConsumer name c => (group_del_consumer s name c).1
  | XGroupSetId name id read => (group_setid s name id read).1
  | XClaim name c ids opts now => (xclaim s name c ids opts now).1
  | XAutoClaim name c idle start count justid now =>
    (xautoclaim s name c idle start count justid now).1
  | XReadGroup name c spec count noack now => (xreadgroup_opts s name c spec count noack now).1
  | XAck name ids => (xack s name ids).1
  | XTrimMaxLen max limit => (trim_maxlen_limit (@hash_iter) s max limit).1
  | XTrimMinId minid limit => (trim_minid_limit (@hash_iter) s minid limit).1
  end.

Definition srun (ops : list sop) : RedisStream := foldl sexec stream_new ops.
End run.

(** The numbers in a command are machine integers. *)
Definition sop_in_range (o : sop) : bool :=
  match o with
  | XAdd _ _ now => bool_decide (in_u64 now)
  | XSetId id _ _ => bool_decide (valid_id id)
  | _ => true
  end.

Definition is_trim (o : sop) : bool :=
  match o with XTrimMaxLen _ _ | XTrimMinId _ _ => true | _ => false end.

(** ** The invariant *)

Lemma with_group_ok {A} s name (f : ConsumerGroup → ConsumerGroup * A) :
  (∀ g, group_ok g → group_ok (f g).1) → (∀ g, g_name (f g).1 = g_name g) →
  stream_ok s → stream_ok (with_group s name f).1.
Proof.
  intros Hf Hn [Hl Hg]. unfold with_group. destruct (groups s !! name) as [g|] eqn:E; [|done].
  destruct (Hg _ _ E) as [Eg Hok]. specialize (Hf g Hok). specialize (Hn g).
  destruct (f g) as [g' a]. cbn [fst] in *. split; [by destruct Hl|].
  cbn [groups set_groups]. intros k g0 [[<- <-]|[_ H]]%lookup_insert_Some; [split; [congruence|done]|by apply Hg].
Qed.

Lemma with_group_log {A} s name (f : ConsumerGroup → ConsumerGroup * A) :
  log_ok s → log_ok (with_group s name f).1.
Proof.
  intros []. unfold with_group. destruct (groups s !! name); [|done]. by destruct (f _).
Qed.

(** Group operations keep the group's name. *)
Lemma ack_name id g : g_name (ack_in_group id g) = g_name g.
Proof. unfold ack_in_group. by destruct (pel g !! id). Qed.

Lemma ack_loop_name ids g : g_name (ack_loop ids g).1 = g_name g.
Proof.
  revert g. induction ids as [|id ids IH]; intros g; simpl; [done|].
  specialize (IH (ack_in_group id g)). rewrite ack_name in IH. by destruct (ack_loop ids _).
Qed.

Lemma claim_loop_name es c now dt opts ids g :
  g_name (claim_loop es c now dt opts ids g).1 = g_name g.
Proof.
  revert g. induction ids as [|id ids IH]; intros g; simpl; [done|].
  assert (Hn : g_name (claim_one es c now dt opts g id).1 = g_name g).
  { unfold claim_one. destruct (es !! id), (pel g !! id); simpl; rewrite ?ack_name; try done;
      by case_match. }
  destruct (claim_one _ _ _ _ _ _ _) as [g' b]. specialize (IH g'). simpl in Hn.
  destruct (claim_loop _ _ _ _ _ _ _). simpl in *. congruence.
Qed.

Lemma autoclaim_loop_name es c now opts count cands g last cl del :
  g_name (autoclaim_loop es c now opts count cands g last cl del).1.1.1 = g_name g.
Proof.
  revert g last cl del. induction cands as [|id cands IH]; intros g last cl del; [done|].
  cbn [autoclaim_loop]. destruct (es !! id).
  - case_match; [done|]. pose proof (claim_loop_name es c now (claim_time opts now) opts [id] g) as Hn.
    destruct (claim_loop _ _ _ _ _ _ _) as [g' got]. case_match; [done|]. rewrite IH. done.
  - by rewrite IH, ack_name.
Qed.

Lemma autoclaim_group_name es c now idle start count justid g :
  g_name (autoclaim_group es c now idle start count justid g).1 = g_name g.
Proof.
  unfold autoclaim_group. pose proof (autoclaim_loop_name es c now
    (mkXClaimOpts idle false None None None justid) count
    (autoclaim_candidates es now idle start g) g None [] []) as Hn.
  by destruct (autoclaim_loop _ _ _ _ _ _ _ _ _ _) as [[[g' last] cl] del].
Qed.

Lemma read_new_name es c count noack now g :
  g_name (read_new es c count noack now g).1 = g_name g.
Proof.
  assert (Hd : ∀ l g, g_name (foldl (deliver c now noack) g l) = g_name g).
  { intros l. induction l as [|e l IH]; intros g'; [done|]. simpl. rewrite IH.
    unfold deliver. by destruct noack. }
  unfold read_new. destruct noack; simpl; by rewrite Hd.
Qed.

Lemma create_consumer_name c now g : g_name (create_consumer c now g).1 = g_name g.
Proof. unfold create_consumer. by destruct (consumers g !! c). Qed.

Lemma del_consumer_name c g : g_name (del_consumer c g).1 = g_name g.
Proof. unfold del_consumer. by destruct (consumers g !! c). Qed.

Create HintDb stream.
#[export] Hint Resolve ack_loop_ok ack_loop_name claim_loop_ok claim_loop_name
  autoclaim_group_ok autoclaim_group_name read_new_ok read_new_name read_history_ok
  create_consumer_ok create_consumer_name del_consumer_ok del_consumer_name : stream.

Lemma xadd_id_spec s spec now id :
  log_ok s → in_u64 now → xadd_id s spec now = Ok id →
  valid_id id ∧
  (id_cmp (last_generated_id s) id = Lt ∨ spec = str "*" ∧ ¬ auto_room s now ∧ id = last_generated_id s).
Proof.
  intros Hlog Hnow. unfold xadd_id. case_decide as Es.
  - intros [= <-]. destruct (next_auto_id_spec s now Hlog Hnow) as (Hv & Hlt & Heq). split; [done|].
    destruct (decide (ms (last_generated_id s) < now ∨ seq (last_generated_id s) < u64_max)) as [H|H].
    + left. by apply Hlt.
    + right. split_and!; [done|done|by apply Heq].
  - destruct (parse_explicit spec) as [i|] eqn:E; [|done]. case_decide; [done|].
    destruct (id_le i (last_generated_id s)) eqn:El; [done|]. intros [= <-].
    apply parse_explicit_valid in E. apply id_le_false in El. auto.
Qed.

Lemma xadd_log_ok s spec fs now : log_ok s → in_u64 now → log_ok (xadd s spec fs now).1.
Proof.
  intros Hlog Hnow. unfold xadd. case_decide; [done|].
  destruct (xadd_id s spec now) as [id|e] eqn:E; [|done]. cbn [fst].
  apply xadd_id_spec in E as [Hv Hid]; [|done|done].
  destruct Hid as [Hlt|(_ & _ & ->)]; [by apply insert_entry_log_ok|].
  split; cbn [entries last_generated_id].
  - intros k e0 [[<- <-]|[_ Hk]]%lookup_insert_Some; [done|by apply (lo_id s Hlog)].
  - intros k e0 [[<- <-]|[_ Hk]]%lookup_insert_Some; [by rewrite (cmp_refl id_cmp)|].
    by eapply (lo_last s Hlog).
  - done.
  - intros k e0 [[<- <-]|[_ Hk]]%lookup_insert_Some; [done|by eapply (lo_entry_valid s Hlog)].
Qed.

Lemma xdel_one_ok s id : stream_ok s → stream_ok (xdel_one s id).1.
Proof.
  intros [Hl Hg]. unfold xdel_one. destruct (entries s !! id); [|done]. split.
  - eapply log_ok_subset; [exact Hl|done|]. simpl. intros k e' Hk. by apply lookup_delete_Some in Hk as [_ Hk].
  - intros name g. cbn [fst groups]. rewrite lookup_fmap_Some. intros (g' & <- & H).
    destruct (Hg _ _ H). rewrite ack_name. split; [done|by apply ack_group_ok].
Qed.

Lemma xdel_ok s ids : stream_ok s → stream_ok (xdel s ids).1.
Proof.
  revert s. induction ids as [|id ids IH]; intros s Hs; simpl; [done|].
  pose proof (xdel_one_ok s id Hs). destruct (xdel_one s id) as [s' b]. specialize (IH s' H).
  by destruct (xdel s' ids).
Qed.

Lemma xsetid_log_ok s id added deleted :
  log_ok s → valid_id id → log_ok (xsetid s id added deleted).1.
Proof.
  intros Hlog Hv. unfold xsetid. destruct (bt_last_key id_cmp (entries s)) as [m|] eqn:E.
  - destruct (id_lt id m) eqn:El; [done|]. split; simpl; [apply Hlog| |done|apply Hlog].
    intros k e Hk. apply (cmp_le_trans id_cmp k m id); [by eapply (bt_last_key_max id_cmp)|].
    intros Hgt. apply id_cmp_Gt, id_lt_true in Hgt. congruence.
  - apply (bt_last_key_None id_cmp) in E. split; simpl; [apply Hlog| |done|apply Hlog].
    rewrite E. intros k e Hk. by rewrite lookup_empty in Hk.
Qed.

Lemma xreadgroup_ok s name c spec count noack now :
  stream_ok s → stream_ok (xreadgroup_opts s name c spec count noack now).1.
Proof.
  intros Hs. unfold xreadgroup_opts. repeat case_match; try done; apply with_group_ok; auto with stream.
Qed.

Section invariant.
Context (hash_iter : ∀ {V}, gmap Bytes V → list (Bytes * V)).

Lemma sexec_ok s o :
  sop_in_range o = true → is_trim o = false → stream_ok s → stream_ok (sexec (@hash_iter) s o).
Proof.
  intros Hr Ht Hs. destruct o; simpl in *; try done; try (apply with_group_ok; by auto with stream).
  - apply bool_decide_eq_true in Hr. destruct Hs as [Hl Hg].
    split; [by apply xadd_log_ok|]. unfold xadd. by repeat case_match.
  - by apply xdel_ok.
  - apply bool_decide_eq_true in Hr. destruct Hs as [Hl Hg].
    split; [by apply xsetid_log_ok|]. unfold xsetid. by repeat case_match.
  - destruct Hs as [Hl Hg]. unfold group_create. destruct (groups s !! name) eqn:E; [done|].
    split; [by destruct Hl|]. cbn [fst groups set_groups].
    intros k g [[<- <-]|[_ H]]%lookup_insert_Some; [split; [done|apply group_ok_new]|by apply Hg].
  - destruct Hs as [Hl Hg]. split; [by destruct Hl|].
    cbn [groups set_groups]. intros k g [_ H]%lookup_delete_Some. by apply Hg.
  - by apply xreadgroup_ok.
Qed.

Lemma srun_ok ops :
  Forall (λ o, sop_in_range o = true) ops → Forall (λ o, is_trim o = false) ops →
  stream_ok (srun (@hash_iter) ops).
Proof.
  unfold srun. assert (Hs : stream_ok stream_new).
  { split; [apply log_new|]. intros name g. cbn [groups stream_new]. by rewrite lookup_empty. }
  revert Hs. generalize stream_new. induction ops as [|o ops IH]; intros s Hs Hr Ht; [done|].
  inversion Hr; inversion Ht; subst. simpl. apply IH; [by apply sexec_ok|done|done].
Qed.

(** The log part survives trims as well. *)
Lemma sexec_log_ok s o : sop_in_range o = true → log_ok s → log_ok (sexec (@hash_iter) s o).
Proof.
  intros Hr Hs. destruct o; simpl in *; try (by apply with_group_log).
  - apply bool_decide_eq_true in Hr. by apply xadd_log_ok.
  - revert s Hs. induction ids as [|id ids IH]; intros s Hs; simpl; [done|].
    assert (H : log_ok (xdel_one s id).1).
    { unfold xdel_one. destruct (entries s !! id); [|done]. eapply log_ok_subset; [exact Hs|done|].
      simpl. intros k e' Hk. by apply lookup_delete_Some in Hk as [_ Hk]. }
    destruct (xdel_one s id) as [s' b]. specialize (IH s' H). by destruct (xdel s' ids).
  - apply bool_decide_eq_true in Hr. by apply xsetid_log_ok.
  - unfold group_create. destruct (groups s !! name); [done|]. by destruct Hs.
  - by destruct Hs.
  - unfold xreadgroup_opts. repeat case_match; try done; by apply with_group_log.
  - by apply trim_maxlen_limit_spec.
  - by apply trim_minid_limit_spec.
Qed.

Lemma srun_log_ok ops : Forall (λ o, sop_in_range o = true) ops → log_ok (srun (@hash_iter) ops).
Proof.
  unfold srun. generalize log_new. generalize stream_new.
  induction ops as [|o ops IH]; intros s Hs Hr; [done|].
  inversion Hr; subst. simpl. apply IH; [by apply sexec_log_ok|done].
Qed.
End invariant.

(** ** Delivery *)

Lemma deliver_pel_other c now noack g e id :
  id ≠ se_id e → pel (deliver c now noack g e) !! id = pel g !! id.
Proof. intros Hne. unfold deliver. destruct noack; simpl; [done|]. by rewrite lookup_insert_ne. Qed.

Lemma deliver_all_pel c now es g id :
  id ∉ (se_id <$> es) → pel (foldl (deliver c now false) g es) !! id = pel g !! id.
Proof.
  revert g. induction es as [|e es IH]; intros g Hin; [done|].
  rewrite fmap_cons, not_elem_of_cons in Hin. destruct Hin as [Hne Hin]. cbn [foldl].
  rewrite IH by done. by apply deliver_pel_other.
Qed.

Lemma deliver_all_owner c now es g id :
  id ∈ (se_id <$> es) →
  ∃ pe, pel (foldl (deliver c now false) g es) !! id = Some pe ∧ pe_consumer pe = c.
Proof.
  revert g. induction es as [|e es IH]; intros g Hin; [by apply not_elem_of_nil in Hin|].
  cbn [foldl]. destruct (decide (id ∈ (se_id <$> es))) as [H|H]; [by apply IH|].
  rewrite fmap_cons, elem_of_cons in Hin. destruct Hin as [->|Hin]; [|done].
  rewrite deliver_all_pel by done. unfold deliver. cbn [pel set_pel]. rewrite lookup_insert_eq.
  eexists. done.
Qed.

Lemma read_new_pel es c count now g id :
  let '(g', l) := read_new es c count false now g in
  if decide (id ∈ (se_id <$> l)) then ∃ pe, pel g' !! id = Some pe ∧ pe_consumer pe = c
  else pel g' !! id = pel g !! id.
Proof.
  unfold read_new. cbn [pel set_consumers]. case_decide as Hin; [by apply deliver_all_owner|].
  by rewrite deliver_all_pel.
Qed.

Lemma to_string_id_not_star i : valid_id i → to_string_id i ≠ str "*".
Proof.
  intros Hv E. pose proof (parse_explicit_to_string i Hv) as Hp. rewrite E in Hp. by vm_compute in Hp.
Qed.

(** The bounds of a range. *)
Definition within (lo hi : StreamId) (e : StreamEntry) : bool :=
  id_le lo (se_id e) && id_le (se_id e) hi.

Lemma bt_range_incl_log s lo hi :
  log_ok s → id_lt hi lo = false →
  ∃ l, bt_range_incl id_cmp lo hi (entries s) = Ret l ∧ l.*2 = filter (λ e, within lo hi e = true) (log s).
Proof.
  intros Hlog Hb. unfold bt_range_incl. rewrite Hb. eexists. split; [done|].
  unfold log, bt_values. rewrite filter_fmap. f_equal. apply filter_ext_in.
  intros [k e] Hin. apply (elem_of_bt_entries id_cmp) in Hin. simpl. unfold within.
  by rewrite (lo_id s Hlog k e Hin).
Qed.

Lemma drop_below s minid :
  log_ok s →
  drop (length (filter (λ e, id_lt (se_id e) minid = true) (log s))) (log s) =
  filter (λ e, id_le minid (se_id e) = true) (log s).
Proof.
  intros Hlog. destruct (ids_below s minid Hlog) as (k & Hk & <-).
  assert (Hlen : length (filter (λ e, id_lt (se_id e) minid = true) (log s)) =
                 length (bt_range_to id_cmp minid (entries s)).*1).
  { unfold log, bt_values, bt_range_to. rewrite filter_fmap, !length_fmap.
    f_equal. apply filter_ext_in. intros [id e] He. apply (elem_of_bt_entries id_cmp) in He.
    simpl. by rewrite (lo_id s Hlog id e He). }
  rewrite Hlen, Hk, length_take, length_fmap. destruct (decide (k ≤ length (log s))%nat).
  - by rewrite Nat.min_l.
  - rewrite Nat.min_r, drop_all, drop_ge by lia. done.
Qed.

(** ** Properties *)

(** A hash iteration order that the witnesses use. *)
Definition some_order {V} (m : gmap Bytes V) : list (Bytes * V) := map_to_list m.

Definition kv : list (Bytes * Bytes) := [([Byte.x66], [Byte.x76])].
Definition grp : Bytes := [Byte.x67].
Definition con_a : Bytes := [Byte.x61].
Definition con_b : Bytes := [Byte.x62].

(** Two entries, delivered to two consumers in turn. *)
Definition pair_ops (c1 c2 : Bytes) : list sop :=
  [XAdd (str "1-0") kv 7; XAdd (str "2-0") kv 7; XGroupCreate grp ZERO None;
   XGroupCreateConsumer grp con_a 7; XGroupCreateConsumer grp con_b 7;
   XReadGroup grp c1 gt (Some 1%nat) false 7; XReadGroup grp c2 gt (Some 1%nat) false 7].

(** The consumers of the group after [pair_ops], and the group. *)
Definition pair_consumers : gmap Bytes Consumer :=
  <[con_a := mkConsumer con_a 7 1]> (<[con_b := mkConsumer con_b 7 1]> ∅).

Definition pair_group (c1 c2 : Bytes) : ConsumerGroup :=
  let id1 := mkStreamId 1 0 in
  let id2 := mkStreamId 2 0 in
  mkConsumerGroup grp id2 None pair_consumers
    (<[id1 := mkPendingEntry id1 c1 7 1]> (<[id2 := mkPendingEntry id2 c2 7 1]> ∅)).

Lemma pair_state hash_iter c1 c2 :
  (c1, c2) ∈ [(con_a, con_b); (con_b, con_a)] →
  let s := srun hash_iter (pair_ops c1 c2) in
  groups s !! grp = Some (pair_group c1 c2) ∧ size (entries s) = 2%nat ∧
  bt_keys id_cmp (entries s) = [mkStreamId 1 0; mkStreamId 2 0].
Proof.
  intros Hin. apply elem_of_cons in Hin as [[= -> ->]|Hin];
    [|apply list_elem_of_singleton in Hin as [= -> ->]]; split_and!; vm_compute; reflexivity.
Qed.

Section miscount.
Context (hash_iter : ∀ {V}, gmap Bytes V → list (Bytes * V)).

(** If the iteration starts with the consumer that keeps its entry, that one is decremented. *)
Lemma miscount c1 c2 rest :
  (c1, c2) ∈ [(con_a, con_b); (con_b, con_a)] → (hash_iter Consumer pair_consumers).*1 = c2 :: rest →
  ∃ g x, groups (srun (@hash_iter) (pair_ops c1 c2 ++ [XTrimMaxLen 1 None])) !! grp = Some g ∧
    consumers g !! c2 = Some x ∧ c_pending x ≠ owned c2 (pel g).
Proof.
  intros Hin Hord. destruct (pair_state (@hash_iter) c1 c2 Hin) as (Hg & Hn & Hk).
  exists (drop_from_pel (@hash_iter) (mkStreamId 1 0) (pair_group c1 c2)), (mkConsumer c2 7 0).
  split.
  - unfold srun in *. rewrite foldl_app. cbn [foldl sexec]. unfold trim_maxlen_limit.
    rewrite Hn, Hk. cbn [fst Nat.leb Nat.sub take foldl remove_entry_and_pel groups].
    by rewrite lookup_fmap, Hg.
  - assert (Hp : pel (pair_group c1 c2) !! mkStreamId 1 0 = Some (mkPendingEntry (mkStreamId 1 0) c1 7 1)).
    { apply lookup_insert_eq. }
    unfold drop_from_pel. rewrite Hp. cbn [consumers pair_group set_consumers set_pel pel].
    rewrite Hord. assert (Hc : pair_consumers !! c2 = Some (mkConsumer c2 7 1)).
    { apply elem_of_cons in Hin as [[= -> ->]|Hin]; [done|]. by apply list_elem_of_singleton in Hin as [= -> ->]. }
    cbn [sub_first]. rewrite Hc. cbn [c_pending Nat.ltb Nat.leb sub_pending c_name seen_time_ms Nat.sub].
    rewrite lookup_insert_eq. split; [done|].
    apply elem_of_cons in Hin as [[= -> ->]|Hin]; [done|].
    by apply list_elem_of_singleton in Hin as [= -> ->].
Qed.

Lemma names_order :
  (∀ V (m : gmap Bytes V), hash_iter V m ≡ₚ map_to_list m) →
  (hash_iter Consumer pair_consumers).*1 = [con_a; con_b] ∨
  (hash_iter Consumer pair_consumers).*1 = [con_b; con_a].
Proof.
  intros Hperm. pose proof (Hperm _ pair_consumers) as H. apply (fmap_Permutation fst) in H.
  assert (E : (map_to_list pair_consumers).*1 ≡ₚ [con_a; con_b]) by (vm_compute; solve_Permutation).
  rewrite E in H. symmetry in H. by apply Permutation_length_2_inv in H as [->| ->]; auto.
Qed.
End miscount.

Section props.
Context (hash_iter : ∀ {V}, gmap Bytes V → list (Bytes * V)).

(** C32. After any sequence of stream and consumer group commands other than trims, the [pending]
    counter of every consumer of every group equals the number of entries it owns in the group's
    pending entries list, every pending entry is stored under its own ID, and its owner exists. *)
Theorem stream_pending_counts ops :
  Forall (λ o, sop_in_range o = true) ops → Forall (λ o, is_trim o = false) ops →
  ∀ name g, groups (srun (@hash_iter) ops) !! name = Some g →
    (∀ c x, consumers g !! c = Some x → c_pending x = owned c (pel g)) ∧
    (∀ id pe, pel g !! id = Some pe → pe_id pe = id ∧ is_Some (consumers g !! pe_consumer pe)).
Proof.
  intros Hr Ht name g Hg. destruct (srun_ok (@hash_iter) ops Hr Ht) as [_ Hs].
  destruct (Hs _ _ Hg) as (_ & Hp & Hc). split; [|done]. intros c x Hx. by apply (Hc c x Hx).
Qed.

(** [XADD] on any reachable stream.  An explicit ID above the last generated one is appended at
    the end of the log under that ID, and any other explicit ID is an error that leaves the stream
    as it was.  An automatic ID is above the last generated one and its entry is appended, as long
    as the clock is past the last ID or its sequence number is not exhausted; otherwise the last
    generated ID itself is handed out again. *)
Theorem xadd_appends ops fs now :
  Forall (λ o, sop_in_range o = true) ops → fs ≠ [] → in_u64 now →
  let s := srun (@hash_iter) ops in
  (∀ i, valid_id i →
    let '(s', r) := xadd s (to_string_id i) fs now in
    if id_lt (last_generated_id s) i then r = Ok i ∧ log s' = log s ++ [mkStreamEntry i fs]
    else s' = s ∧ ∃ e, r = Err e) ∧
  (let '(s', r) := xadd s (str "*") fs now in
   (auto_room s now → ∃ i, r = Ok i ∧ id_lt (last_generated_id s) i = true ∧
      log s' = log s ++ [mkStreamEntry i fs]) ∧
   (¬ auto_room s now → r = Ok (last_generated_id s))).
Proof.
  intros Hr Hfs Hnow s. pose proof (srun_log_ok (@hash_iter) ops Hr) as Hlog. fold s in Hlog. split.
  - intros i Hv. unfold xadd, xadd_id. rewrite decide_False by done.
    rewrite decide_False by by apply to_string_id_not_star. rewrite parse_explicit_to_string by done.
    destruct (id_lt (last_generated_id s) i) eqn:E.
    + apply id_lt_true in E. rewrite decide_False.
      * rewrite (proj2 (id_le_false i _) E). split; [done|]. by apply insert_entry_log_ok.
      * intros ->. apply id_cmp_Lt in E. destruct (lo_valid s Hlog). simpl in E. lia.
    + case_decide; [by eauto|]. destruct (id_le i (last_generated_id s)) eqn:El; [by eauto|].
      apply id_le_false, id_lt_true in El. congruence.
  - unfold xadd, xadd_id. rewrite decide_False, decide_True by done.
    destruct (next_auto_id_spec s now Hlog Hnow) as (Hv & Hlt & Heq). split.
    + intros Hroom. eexists. split; [done|]. rewrite id_lt_true.
      split; [by apply Hlt|]. by apply insert_entry_log_ok; [| |apply Hlt].
    + intros Hno. by rewrite Heq.
Qed.

(** C31. Reading new entries through a group delivers, in log order, the first entries above the
    group's cursor (at most [COUNT] of them, and at least one if there is one), moves the cursor so
    that exactly the remaining ones are above it, and leaves the log alone.  Unless [NOACK] is
    given, the delivered entries are now pending for the reader and no other pending entry changes.
    So successive reads by any consumers split the log into consecutive disjoint pieces. *)
Theorem group_read_partitions ops name g c count noack now :
  Forall (λ o, sop_in_range o = true) ops →
  let s := srun (@hash_iter) ops in
  groups s !! name = Some g → valid_id (last_delivered_id g) → last_delivered_id g ≠ MAX →
  let rest := above (last_delivered_id g) (log s) in
  let n := read_limit count (length rest) in
  ∃ g', xreadgroup_opts s name c gt count noack now =
          (set_groups s (<[name := g']> (groups s)), Ok (take n rest)) ∧
    above (last_delivered_id g') (log s) = drop n rest ∧
    (noack = false → ∀ id, if decide (id ∈ (se_id <$> take n rest))
       then ∃ pe, pel g' !! id = Some pe ∧ pe_consumer pe = c else pel g' !! id = pel g !! id).
Proof.
  intros Hr s Hg Hv Hne rest n. pose proof (srun_log_ok (@hash_iter) ops Hr) as Hlog. fold s in Hlog.
  pose proof (new_entries_spec s g count Hlog Hv Hne) as Hnew. fold rest n in Hnew.
  exists (read_new (entries s) c count noack now g).1. split_and!.
  - unfold xreadgroup_opts, with_group. rewrite Hg, decide_False by done. rewrite decide_True by done.
    unfold read_new. by rewrite Hnew.
  - rewrite read_new_cursor, Hnew. by apply above_last.
  - intros -> id. pose proof (read_new_pel (entries s) c count now g id) as Hp.
    unfold read_new in *. by rewrite Hnew in *.
Qed.

(** Trims on any reachable stream.  [MAXLEN] drops the oldest entries and keeps the newest [max],
    [MINID] keeps exactly the entries at or above the bound, and with a [LIMIT] either drops that
    many of the oldest such entries at most; the number returned is the number dropped. *)
Theorem trims_drop_oldest ops max minid lim :
  Forall (λ o, sop_in_range o = true) ops →
  let s := srun (@hash_iter) ops in
  let over := (length (log s) - max)%nat in
  let below := length (filter (λ e, id_lt (se_id e) minid = true) (log s)) in
  let res p := (log (p : RedisStream * nat).1, p.2) in
  res (trim_maxlen (@hash_iter) s max) = (drop over (log s), over) ∧
  res (trim_maxlen_limit (@hash_iter) s max (Some lim)) = (drop (over `min` lim) (log s), over `min` lim)%nat ∧
  res (trim_minid (@hash_iter) s minid) =
    (filter (λ e, id_le minid (se_id e) = true) (log s), below) ∧
  res (trim_minid_limit (@hash_iter) s minid (Some lim)) = (drop (below `min` lim) (log s), below `min` lim)%nat.
Proof.
  intros Hr s over below res. pose proof (srun_log_ok (@hash_iter) ops Hr) as Hlog. fold s in Hlog.
  unfold res, trim_maxlen, trim_minid.
  destruct (trim_maxlen_limit_spec (@hash_iter) s max None Hlog) as (_ & -> & ->).
  destruct (trim_maxlen_limit_spec (@hash_iter) s max (Some lim) Hlog) as (_ & -> & ->).
  destruct (trim_minid_limit_spec (@hash_iter) s minid None Hlog) as (_ & -> & ->).
  destruct (trim_minid_limit_spec (@hash_iter) s minid (Some lim) Hlog) as (_ & -> & ->).
  split_and!; try done. f_equal. by apply drop_below.
Qed.

(** [XRANGE] on any reachable stream returns the entries of the log within the bounds, in log
    order, cut at [COUNT]; [XREVRANGE] returns them in reverse order; and when the lower bound is
    above the upper one both panic, because the ordered map does. *)
Theorem xrange_correct ops lo hi count :
  Forall (λ o, sop_in_range o = true) ops →
  let s := srun (@hash_iter) ops in
  let found := filter (λ e, within lo hi e = true) (log s) in
  xrange s lo hi count = (if id_lt hi lo then Panic else Ret (truncate count found)) ∧
  xrevrange s hi lo count = (if id_lt hi lo then Panic else Ret (truncate count (reverse found))).
Proof.
  intros Hr s found. pose proof (srun_log_ok (@hash_iter) ops Hr) as Hlog. fold s in Hlog.
  unfold xrange, xrevrange. destruct (id_lt hi lo) eqn:E.
  - unfold bt_range_incl. by rewrite E.
  - destruct (bt_range_incl_log s lo hi Hlog E) as (l & -> & Hl). cbn [mbind exec_bind].
    by rewrite Hl.
Qed.

Context (hash_iter_perm : ∀ V (m : gmap Bytes V), hash_iter V m ≡ₚ map_to_list m).

(** The persistence snapshot of a reachable stream rebuilds it, whatever order the hash maps
    iterate in: the log, the last generated ID, the groups with their cursors, consumers, counters
    and pending lists.  Only [entries_read] of the groups and the two statistics counters are reset. *)
Theorem snapshot_roundtrip ops :
  Forall (λ o, sop_in_range o = true) ops → Forall (λ o, is_trim o = false) ops →
  let s := srun (@hash_iter) ops in
  import_state (export_state (@hash_iter) s) =
  mkRedisStream (entries s) (last_generated_id s) (Z.of_nat (stream_len s)) ZERO
    (forget_read <$> groups s).
Proof.
  intros Hr Ht s. apply import_export_state; [done|]. by apply srun_ok.
Qed.

(** A trim can leave wrong pending counters: whatever order the hash maps iterate in, there is a
    sequence of commands ending in [XTRIM MAXLEN 1] after which a consumer's [pending] counter
    differs from the number of pending entries it owns. *)
Theorem trim_miscounts :
  ∃ ops name g c x,
    groups (srun (@hash_iter) ops) !! name = Some g ∧ consumers g !! c = Some x ∧
    c_pending x ≠ owned c (pel g).
Proof.
  destruct (names_order (@hash_iter) hash_iter_perm) as [E|E].
  - destruct (miscount (@hash_iter) con_b con_a [con_b]) as (g & x & H); [set_solver|done|eauto 10].
  - destruct (miscount (@hash_iter) con_a con_b [con_a]) as (g & x & H); [set_solver|done|eauto 10].
Qed.
End props.

(** ** Witnesses *)

Lemma pair_ops_in_range : Forall (λ o, sop_in_range o = true) (pair_ops con_a con_b).
Proof. repeat constructor. Qed.

Lemma pair_ops_no_trim : Forall (λ o, is_trim o = false) (pair_ops con_a con_b).
Proof. repeat constructor. Qed.

Lemma pair_groups : groups (srun (@some_order) (pair_ops con_a con_b)) !! grp = Some (pair_group con_a con_b).
Proof. apply pair_state. left. Qed.

Lemma stream_pending_counts_witness :
  ∃ g x, groups (srun (@some_order) (pair_ops con_a con_b)) !! grp = Some g ∧
    consumers g !! con_a = Some x ∧ c_pending x = owned con_a (pel g).
Proof.
  exists (pair_group con_a con_b), (mkConsumer con_a 7 1).
  split; [apply pair_groups|]. split; [reflexivity|].
  apply (stream_pending_counts (@some_order) _ pair_ops_in_range pair_ops_no_trim grp _ pair_groups).
  reflexivity.
Defined.

Lemma group_read_partitions_witness :
  let s := srun (@some_order) (take 3 (pair_ops con_a con_b)) in
  ∃ g', xreadgroup_opts s grp con_a gt (Some 1%nat) false 7 =
    (set_groups s (<[grp := g']> (groups s)), Ok (take 1 (log s))) ∧
    above (last_delivered_id g') (log s) = drop 1 (log s).
Proof.
  destruct (group_read_partitions (@some_order) (take 3 (pair_ops con_a con_b)) grp
    (ConsumerGroup_new grp ZERO) con_a (Some 1%nat) false 7) as (g' & H1 & H2 & _).
  - repeat constructor.
  - vm_compute. reflexivity.
  - repeat split; unfold u64_max; simpl; lia.
  - done.
  - exists g'. exact (conj H1 H2).
Defined.
