(* ===== verification/Rdb.v ===== *)
(** * The object codec of DUMP and RESTORE ([rdb_object.rs])

    A dump is a type byte, the object, a version and a CRC-64.  The encoders write the classic
    encodings; the decoder also reads what other servers write: integer and LZF-compressed strings,
    listpacks, ziplists, intsets and quicklists.

    A [Cursor] over a slice is the slice not yet read; reading can fail (every failure has the same
    text, [ERR]) or panic, in [Vec::with_capacity] for a count whose bytes pass [isize::MAX].  The
    size of a [Bytes] handle is the compiler's and the [bytes] crate's choice, an argument. *)

From S2P Require Import Prelude RustStd Text Float64 Resp StreamType.
From Stdlib Require Import Lia Floats.SpecFloat.

Local Open Scope Z_scope.

(** ** Byte order *)

Fixpoint le_bytes (n : nat) (z : Z) : Bytes :=
  match n with O => [] | S n => byte_of_Z z :: le_bytes n (z / 256) end.
Definition be_bytes (n : nat) (z : Z) : Bytes := reverse (le_bytes n z).

Fixpoint from_le (l : Bytes) : Z := match l with [] => 0 | b :: l => u8 b + 256 * from_le l end.
Definition from_be (l : Bytes) : Z := from_le (reverse l).

(** [iN::from_le_bytes] for [w] bits: two's complement. *)
Definition signed (w z : Z) : Z := if z <? 2 ^ (w - 1) then z else z - 2 ^ w.
Definition signed_le (l : Bytes) : Z := signed (8 * zlen l) (from_le l).

(** ** Constants *)

Definition RDB_VERSION : Z := 9.
Definition RDB_TYPE_STRING : Z := 0.
Definition RDB_TYPE_LIST : Z := 1.
Definition RDB_TYPE_SET : Z := 2.
Definition RDB_TYPE_ZSET : Z := 3.
Definition RDB_TYPE_HASH : Z := 4.
Definition RDB_TYPE_ZSET_2 : Z := 5.
Definition RDB_TYPE_LIST_ZIPLIST : Z := 10.
Definition RDB_TYPE_SET_INTSET : Z := 11.
Definition RDB_TYPE_ZSET_ZIPLIST : Z := 12.
Definition RDB_TYPE_HASH_ZIPLIST : Z := 13.
Definition RDB_TYPE_LIST_QUICKLIST : Z := 14.
Definition RDB_TYPE_STREAM_LISTPACKS : Z := 15.
Definition RDB_TYPE_HASH_LISTPACK : Z := 16.
Definition RDB_TYPE_ZSET_LISTPACK : Z := 17.
Definition RDB_TYPE_LIST_QUICKLIST_2 : Z := 18.
Definition RDB_TYPE_SET_LISTPACK : Z := 20.

Definition ERR : Str := str "DUMP payload version or checksum are wrong".

Definition max_string : Z := 512 * 1024 * 1024.

(** ** CRC-64 *)

Definition POLY64REV : Z := 0x95ac9329ac4bc9b5.

Definition crc64_bit (crc : Z) : Z :=
  if Z.odd crc then Z.lxor (Z.shiftr crc 1) POLY64REV else Z.shiftr crc 1.

Definition crc64_table : list Z := (λ i, Nat.iter 8 crc64_bit i) <$> seqZ 0 256.

Definition crc64_step (table : list Z) (crc : Z) (b : byte) : Z :=
  Z.lxor (table !!! Z.to_nat (Z.lxor (crc mod 256) (u8 b))) (Z.shiftr crc 8).

Definition redis_crc64 (data : Bytes) : Z := foldl (crc64_step crc64_table) 0 data.

(** ** Readers *)

(** What is left of the input after a read, an error, or a panic. *)
Definition Rd (A : Type) : Type := Bytes → exec (result Str (A * Bytes)).

#[global] Instance rd_ret : MRet Rd := λ A a l, Ret (Ok (a, l)).
#[global] Instance rd_bind : MBind Rd := λ A B f m l,
  match m l with
  | Ret (Ok (a, l)) => f a l
  | Ret (Err e) => Ret (Err e)
  | Panic => Panic
  end.

#[global] Instance rd_fmap : FMap Rd := λ A B f m, a ← m; mret (f a).

Definition rd_fail {A} : Rd A := λ _, Ret (Err ERR).
Definition rd_panic {A} : Rd A := λ _, Panic.

(** A value computed without the cursor. *)
Definition rd_lift {A} (r : result Str A) : Rd A := λ l, Ret (a ← r; Ok (a, l)).

Definition rd_u8 : Rd Z := λ l, match l with b :: l => Ret (Ok (u8 b, l)) | [] => Ret (Err ERR) end.

(** [raw(n)]: the next [n] bytes. *)
Definition rd_raw (n : Z) : Rd Bytes := λ l,
  if zlen l <? n then Ret (Err ERR) else Ret (Ok (take (Z.to_nat n) l, drop (Z.to_nat n) l)).

Definition rd_f64 : Rd f64 := b ← rd_raw 8; mret (from_bits (from_le b)).

(** [Vec::with_capacity(n)] for elements of [size] bytes. *)
Definition rd_capacity (size n : Z) : Rd unit := if with_capacity_ok size n then mret tt else rd_panic.

(** [for _ in 0..n { v.push(read()?) }] *)
Fixpoint rd_many {A} (n : nat) (m : Rd A) : Rd (list A) :=
  match n with
  | O => mret []
  | S n => x ← m; xs ← rd_many n m; mret (x :: xs)
  end.

(** ** Lengths *)

Definition encode_len_u64 (n : Z) : Bytes :=
  if n <? 2 ^ 6 then [byte_of_Z n]
  else if n <? 2 ^ 14 then [byte_of_Z (Z.lor (n / 256) 0x40); byte_of_Z (n mod 256)]
  else if n <=? u32_max then byte_of_Z 0x80 :: be_bytes 4 n
  else byte_of_Z 0x81 :: be_bytes 8 n.

Definition encode_len (n : nat) : Bytes := encode_len_u64 (Z.of_nat n).

(** The value and whether it is a special string tag. *)
Definition decode_len : Rd (Z * bool) :=
  byte ← rd_u8;
  let top := byte / 64 in
  if top =? 0 then mret (byte mod 64, false)
  else if top =? 1 then
    next ← rd_u8; mret (byte mod 64 * 256 + next, false)
  else if byte =? 0x80 then b ← rd_raw 4; mret (from_be b, false)
  else if byte =? 0x81 then b ← rd_raw 8; mret (from_be b, false)
  else if top =? 3 then mret (byte mod 64, true)
  else rd_fail.

Definition decode_rdb_len : Rd Z :=
  '(n, enc) ← decode_len;
  if enc : bool then rd_fail else mret n.

(** ** LZF *)

(** Append [len] bytes copied one at a time from position [start] of what has been written. *)
Fixpoint copy_back (len start : nat) (out : Bytes) : Bytes :=
  match len with
  | O => out
  | S len => copy_back len (S start) (out ++ [default x00 (out !! start)])
  end.

(** [out] holds the bytes written so far, its length is [o]. *)
Fixpoint lzf_loop (fuel : nat) (input : Bytes) (out_len : Z) (out : Bytes) : result Str Bytes :=
  match fuel with
  | O => Err ERR
  | S fuel =>
    match input with
    | [] => Ok out
    | c :: input =>
      let ctrl := u8 c in
      if ctrl <? 32 then
        let lit := ctrl + 1 in
        if (zlen input <? lit) || (out_len <? zlen out + lit) then Err ERR
        else lzf_loop fuel (drop (Z.to_nat lit) input) out_len (out ++ take (Z.to_nat lit) input)
      else
        let len := ctrl / 32 in
        let ref_high := (ctrl mod 32) * 256 in
        '(len, input) ← (if len =? 7 then
                           match input with [] => Err ERR | x :: input => Ok (len + u8 x, input) end
                         else Ok (len, input));
        let len := len + 2 in
        match input with
        | [] => Err ERR
        | x :: input =>
          let start := zlen out - (ref_high + u8 x) - 1 in
          if (start <? 0) || (zlen out <=? start) || (out_len <? zlen out + len) then Err ERR
          else lzf_loop fuel input out_len (copy_back (Z.to_nat len) (Z.to_nat start) out)
        end
    end
  end.

Definition lzf_decompress (input : Bytes) (out_len : Z) : result Str Bytes :=
  out ← lzf_loop (S (length input)) input out_len [];
  if zlen out =? out_len then Ok out else Err ERR.

(** ** Strings *)

Definition encode_raw_string (s : Bytes) : Bytes := encode_len (length s) ++ s.

Definition decode_string : Rd Bytes :=
  '(len, encoded) ← decode_len;
  if negb encoded then
    if max_string <? len then rd_fail else rd_raw len
  else if len =? 0 then v ← rd_u8; mret (dec (signed 8 v))
  else if len =? 1 then b ← rd_raw 2; mret (dec (signed_le b))
  else if len =? 2 then b ← rd_raw 4; mret (dec (signed_le b))
  else if len =? 3 then
    '(clen, enc) ← decode_len;
    if enc : bool then rd_fail else
    '(ulen, enc) ← decode_len;
    if enc || (max_string <? ulen) || (max_string <? clen) then rd_fail else
    compressed ← rd_raw clen;
    rd_lift (lzf_decompress compressed ulen)
  else rd_fail.

(** ** Listpacks *)

Definition lp_backlen_size (entry_len : Z) : Z :=
  if entry_len <=? 127 then 1
  else if entry_len <? 2 ^ 14 then 2
  else if entry_len <? 2 ^ 21 then 3
  else if entry_len <? 2 ^ 28 then 4
  else 5.

(** [data[a..a + n]] after the check that the slice reaches that far. *)
Definition slice_or (data : Bytes) (a n : Z) : result Str Bytes :=
  if zlen data <? a + n then Err ERR else Ok (take (Z.to_nat n) (drop (Z.to_nat a) data)).

(** The value of the first entry and the length of its encoding and data. *)
Definition lp_decode_entry (data : Bytes) : result Str (Bytes * Z) :=
  match data with
  | [] => Err ERR
  | b :: _ =>
    let b0 := u8 b in
    if b0 <? 0x80 then Ok (dec b0, 1)
    else if b0 / 64 =? 2 then
      let len := b0 mod 64 in
      s ← slice_or data 1 len; Ok (s, 1 + len)
    else if b0 / 32 =? 6 then
      d ← slice_or data 1 1;
      let v := b0 mod 32 * 256 + from_le d in
      Ok (dec (if 2 ^ 12 <=? v then v - 2 ^ 13 else v), 2)
    else if b0 / 16 =? 14 then
      d ← slice_or data 1 1;
      let len := b0 mod 16 * 256 + from_le d in
      s ← slice_or data 2 len; Ok (s, 2 + len)
    else if b0 =? 0xF0 then
      d ← slice_or data 1 4;
      let len := from_le d in
      s ← slice_or data 5 len; Ok (s, 5 + len)
    else if b0 =? 0xF1 then d ← slice_or data 1 2; Ok (dec (signed_le d), 3)
    else if b0 =? 0xF2 then
      d ← slice_or data 1 3;
      let v := from_le d in
      Ok (dec (if 2 ^ 23 <=? v then v - 2 ^ 24 else v), 4)
    else if b0 =? 0xF3 then d ← slice_or data 1 4; Ok (dec (signed_le d), 5)
    else if b0 =? 0xF4 then d ← slice_or data 1 8; Ok (dec (signed_le d), 9)
    else Err ERR
  end.

(** The entries from the current position to the end mark or the end of the slice. *)
Fixpoint lp_loop (fuel : nat) (data : Bytes) : result Str (list Bytes) :=
  match fuel with
  | O => Err ERR
  | S fuel =>
    match data with
    | [] => Ok []
    | b :: _ =>
      if u8 b =? 0xFF then Ok [] else
      '(val, entry_len) ← lp_decode_entry data;
      let step := entry_len + lp_backlen_size entry_len in
      if zlen data <? step then Err ERR else
      rest ← lp_loop fuel (drop (Z.to_nat step) data);
      Ok (val :: rest)
    end
  end.

Definition decode_listpack (data : Bytes) : result Str (list Bytes) :=
  if zlen data <? 7 then Err ERR else
  let total := from_le (take 4 data) in
  if negb (total =? zlen data) && negb (bool_decide (last data = Some xff)) then Err ERR
  else lp_loop (S (length data)) (drop 6 data).

(** ** Ziplists *)

(** One integer entry: its value and its length. *)
Definition zl_integer (enc : Z) (data : Bytes) : result Str (Z * Z) :=
  if enc =? 0xC0 then d ← slice_or data 1 2; Ok (signed_le d, 3)
  else if enc =? 0xD0 then
    d ← slice_or data 1 3;
    let v := from_le d in Ok (if 2 ^ 23 <=? v then v - 2 ^ 24 else v, 4)
  else if enc =? 0xE0 then d ← slice_or data 1 4; Ok (signed_le d, 5)
  else if enc =? 0xF0 then d ← slice_or data 1 8; Ok (signed_le d, 9)
  else if enc =? 0xFE then d ← slice_or data 1 1; Ok (signed_le d, 2)
  else if (0xF1 <=? enc) && (enc <=? 0xFD) then Ok (enc - 0xF1, 1)
  else Err ERR.

(** One entry after its previous-length field: its value and its length. *)
Definition zl_entry (data : Bytes) : result Str (Bytes * Z) :=
  match data with
  | [] => Err ERR
  | b :: _ =>
    let enc := u8 b in
    if enc / 64 =? 0 then
      let len := enc mod 64 in
      s ← slice_or data 1 len; Ok (s, 1 + len)
    else if enc / 64 =? 1 then
      d ← slice_or data 1 1;
      let len := enc mod 64 * 256 + from_le d in
      s ← slice_or data 2 len; Ok (s, 2 + len)
    else if enc / 64 =? 2 then
      d ← slice_or data 1 4;
      let len := from_be d in
      s ← slice_or data 5 len; Ok (s, 5 + len)
    else '(v, step) ← zl_integer enc data; Ok (dec v, step)
  end.

Fixpoint zl_loop (fuel : nat) (data : Bytes) : result Str (list Bytes) :=
  match fuel with
  | O => Err ERR
  | S fuel =>
    match data with
    | [] => Ok []
    | b :: _ =>
      if u8 b =? 0xFF then Ok [] else
      if (u8 b =? 0xFE) && (zlen data <? 5) then Err ERR else
      let prevlen := if u8 b =? 0xFE then 5%nat else 1%nat in
      '(val, step) ← zl_entry (drop prevlen data);
      rest ← zl_loop fuel (drop (Z.to_nat step) (drop prevlen data));
      Ok (val :: rest)
    end
  end.

Definition decode_ziplist (data : Bytes) : result Str (list Bytes) :=
  if zlen data <? 11 then Err ERR else zl_loop (S (length data)) (drop 10 data).

(** ** Intsets *)

Fixpoint intset_loop (length : nat) (width : nat) (data : Bytes) : result Str (list Bytes) :=
  match length with
  | O => Ok []
  | S length =>
    if zlen data <? Z.of_nat width then Err ERR else
    rest ← intset_loop length width (drop width data);
    Ok (dec (signed_le (take width data)) :: rest)
  end.

Definition decode_intset (data : Bytes) : result Str (list Bytes) :=
  if zlen data <? 8 then Err ERR else
  let encoding := from_le (take 4 data) in
  let length := from_le (take 4 (drop 4 data)) in
  if length =? 0 then Ok []
  else if (encoding =? 2) || (encoding =? 4) || (encoding =? 8)
  then intset_loop (Z.to_nat length) (Z.to_nat encoding) (drop 8 data)
  else Err ERR.

(** ** Objects *)

Inductive RdbObject : Type :=
| RString (s : Bytes)
| RList (l : list Bytes)
| RSet (l : list Bytes)
| RHash (l : list (Bytes * Bytes))
| RZSet (l : list (Bytes * f64))
| RStream (s : StreamStateSnapshot).

Definition finish_dump (body : Bytes) : Bytes :=
  let body := body ++ le_bytes 2 RDB_VERSION in
  body ++ le_bytes 8 (redis_crc64 body).

(** [encode_len] of the length and then every element. *)
Definition encode_seq {A} (f : A → Bytes) (l : list A) : Bytes := encode_len (length l) ++ concat (f <$> l).

Definition encode_pair (kv : Bytes * Bytes) : Bytes := encode_raw_string kv.1 ++ encode_raw_string kv.2.
Definition encode_scored (ms : Bytes * f64) : Bytes := encode_raw_string ms.1 ++ le_bytes 8 (to_bits ms.2).

Definition encode_string_dump (value : Bytes) : Bytes :=
  finish_dump (byte_of_Z RDB_TYPE_STRING :: encode_raw_string value).
Definition encode_list_dump (elements : list Bytes) : Bytes :=
  finish_dump (byte_of_Z RDB_TYPE_LIST :: encode_seq encode_raw_string elements).
Definition encode_set_dump (members : list Bytes) : Bytes :=
  finish_dump (byte_of_Z RDB_TYPE_SET :: encode_seq encode_raw_string members).
Definition encode_hash_dump (fields : list (Bytes * Bytes)) : Bytes :=
  finish_dump (byte_of_Z RDB_TYPE_HASH :: encode_seq encode_pair fields).
Definition encode_zset_dump (members : list (Bytes * f64)) : Bytes :=
  finish_dump (byte_of_Z RDB_TYPE_ZSET_2 :: encode_seq encode_scored members).

(** *** Streams *)

Definition STREAM_KORE_MARK : Bytes := bs "KST1".

Definition encode_id (i : StreamId) : Bytes := encode_len_u64 (ms i) ++ encode_len_u64 (seq i).
Definition encode_entry (e : StreamId * list (Bytes * Bytes)) : Bytes := encode_id e.1 ++ encode_seq encode_pair e.2.
Definition encode_pending (p : PendingEntry) : Bytes :=
  encode_id (pe_id p) ++ encode_raw_string (pe_consumer p) ++ encode_len_u64 (delivery_time_ms p) ++
  encode_len_u64 (delivery_count p).
Definition encode_consumer (c : Consumer) : Bytes :=
  encode_raw_string (c_name c) ++ encode_len_u64 (seen_time_ms c) ++ encode_len_u64 (Z.of_nat (c_pending c)).
Definition encode_group (g : GroupSnapshot) : Bytes :=
  encode_raw_string (gs_name g) ++ encode_id (gs_last_delivered_id g) ++
  encode_seq encode_pending (gs_pending g) ++ encode_seq encode_consumer (gs_consumers g).

Definition encode_stream_dump (state : StreamStateSnapshot) : Bytes :=
  let entries := ss_entries state in
  let last := ss_last_generated_id state in
  let first := match entries with (id, _) :: _ => id | [] => ZERO end in
  finish_dump
    (byte_of_Z RDB_TYPE_STREAM_LISTPACKS :: encode_len_u64 0 ++ encode_len (length entries) ++
     encode_id last ++ encode_id first ++ encode_len_u64 0 ++ encode_len_u64 0 ++
     encode_len (length entries) ++ encode_len_u64 0 ++ STREAM_KORE_MARK ++
     encode_seq encode_entry entries ++ encode_seq encode_group (ss_groups state)).

(** ** Decoding *)

Section decode.
(** [size_of::<Bytes>()]; the other element sizes follow on a 64-bit target. *)
Context (bytes_size : Z).

(** A length, the vector for that many elements of [size] bytes, and the elements. *)
Definition rd_seq {A} (size : Z) (m : Rd A) : Rd (list A) :=
  n ← decode_rdb_len;
  _ ← rd_capacity size n;
  rd_many (Z.to_nat n) m.

Definition decode_pair : Rd (Bytes * Bytes) := k ← decode_string; v ← decode_string; mret (k, v).

Definition decode_id : Rd StreamId := m ← decode_rdb_len; s ← decode_rdb_len; mret (mkStreamId m s).

Definition decode_entry : Rd (StreamId * list (Bytes * Bytes)) :=
  id ← decode_id; fields ← rd_seq (2 * bytes_size) decode_pair; mret (id, fields).

Definition decode_pending : Rd PendingEntry :=
  id ← decode_id; consumer ← decode_string; time ← decode_rdb_len; count ← decode_rdb_len;
  mret (mkPendingEntry id consumer time count).

Definition decode_consumer : Rd Consumer :=
  name ← decode_string; seen ← decode_rdb_len; n ← decode_rdb_len;
  mret (mkConsumer name seen (Z.to_nat n)).

Definition decode_group : Rd GroupSnapshot :=
  name ← decode_string; id ← decode_id;
  pending ← rd_seq (32 + bytes_size) decode_pending;
  consumers ← rd_seq (16 + bytes_size) decode_consumer;
  mret (mkGroupSnapshot name id pending consumers).

Definition decode_stream_type15 : Rd RdbObject :=
  num_listpacks ← decode_rdb_len;
  if 0 <? num_listpacks then rd_fail else
  length ← decode_rdb_len;
  last ← decode_id;
  _ ← decode_id;
  _ ← decode_id;
  _ ← decode_rdb_len;
  num_cgroups ← decode_rdb_len;
  if 0 <? num_cgroups then
    _ ← decode_string; _ ← decode_rdb_len; _ ← decode_rdb_len; _ ← decode_rdb_len; rd_fail
  else λ rest,
    if decide (rest = []) then
      if length =? 0 then Ret (Ok (RStream (mkSnapshot last [] []), rest)) else Ret (Err ERR)
    else
      (mark ← rd_raw 4;
       if decide (mark ≠ STREAM_KORE_MARK) then rd_fail else
       entries ← rd_seq 40 decode_entry;
       groups ← rd_seq (64 + bytes_size) decode_group;
       mret (RStream (mkSnapshot last entries groups))) rest.

(** Consecutive entries as pairs. *)
Fixpoint pair_up (l : list Bytes) : result Str (list (Bytes * Bytes)) :=
  match l with
  | [] => Ok []
  | k :: v :: l => cons (k, v) <$> pair_up l
  | _ => Err ERR
  end.

(** A score given as text. *)
Definition score_text (s : Bytes) : result Str f64 := ok_or (from_utf8 s ≫= parse_f64) ERR.

Fixpoint score_pairs (l : list (Bytes * Bytes)) : result Str (list (Bytes * f64)) :=
  match l with
  | [] => Ok []
  | (m, s) :: l => sc ← score_text s; cons (m, sc) <$> score_pairs l
  end.

(** The entries of a listpack, or of the ziplist older encodings hold. *)
Definition packed_entries (listpack : bool) (blob : Bytes) : result Str (list Bytes) :=
  if listpack then decode_listpack blob else decode_ziplist blob.

(** A node that may be either. *)
Definition node_entries (blob : Bytes) : result Str (list Bytes) :=
  match decode_listpack blob with Ok lp => Ok lp | Err _ => decode_ziplist blob end.

Definition quicklist_node (v2 : bool) : Rd (list Bytes) :=
  if v2 then
    container ← decode_rdb_len;
    blob ← decode_string;
    if container =? 1 then mret [blob]
    else if container =? 2 then rd_lift (node_entries blob)
    else rd_fail
  else blob ← decode_string; rd_lift (node_entries blob).

Definition decode_body (ty : Z) : Rd RdbObject :=
  if ty =? RDB_TYPE_STRING then RString <$> decode_string
  else if ty =? RDB_TYPE_LIST then RList <$> rd_seq bytes_size decode_string
  else if ty =? RDB_TYPE_SET then RSet <$> rd_seq bytes_size decode_string
  else if ty =? RDB_TYPE_ZSET then
    RZSet <$> rd_seq (8 + bytes_size) (m ← decode_string; s ← decode_string; sc ← rd_lift (score_text s); mret (m, sc))
  else if ty =? RDB_TYPE_ZSET_2 then
    RZSet <$> rd_seq (8 + bytes_size) (m ← decode_string; sc ← rd_f64; mret (m, sc))
  else if ty =? RDB_TYPE_HASH then RHash <$> rd_seq (2 * bytes_size) decode_pair
  else if (ty =? RDB_TYPE_HASH_LISTPACK) || (ty =? RDB_TYPE_HASH_ZIPLIST) then
    blob ← decode_string;
    rd_lift (entries ← packed_entries (ty =? RDB_TYPE_HASH_LISTPACK) blob; RHash <$> pair_up entries)
  else if (ty =? RDB_TYPE_ZSET_LISTPACK) || (ty =? RDB_TYPE_ZSET_ZIPLIST) then
    blob ← decode_string;
    rd_lift (entries ← packed_entries (ty =? RDB_TYPE_ZSET_LISTPACK) blob;
             pairs ← pair_up entries; RZSet <$> score_pairs pairs)
  else if ty =? RDB_TYPE_SET_LISTPACK then blob ← decode_string; rd_lift (RSet <$> decode_listpack blob)
  else if ty =? RDB_TYPE_LIST_ZIPLIST then blob ← decode_string; rd_lift (RList <$> decode_ziplist blob)
  else if (ty =? RDB_TYPE_LIST_QUICKLIST) || (ty =? RDB_TYPE_LIST_QUICKLIST_2) then
    n ← decode_rdb_len;
    nodes ← rd_many (Z.to_nat n) (quicklist_node (ty =? RDB_TYPE_LIST_QUICKLIST_2));
    mret (RList (concat nodes))
  else if ty =? RDB_TYPE_SET_INTSET then blob ← decode_string; rd_lift (RSet <$> decode_intset blob)
  else if ty =? RDB_TYPE_STREAM_LISTPACKS then decode_stream_type15
  else rd_fail.

Definition decode_rdb_object (data : Bytes) : exec (result Str RdbObject) :=
  match (ty ← rd_u8; decode_body ty) data with
  | Ret (Ok (obj, rest)) => Ret (if decide (rest = []) then Ok obj else Err ERR)
  | Ret (Err e) => Ret (Err e)
  | Panic => Panic
  end.

Definition decode_redis_dump (data : Bytes) : exec (result Str RdbObject) :=
  if zlen data <? 11 then Ret (Err ERR) else
  let n := (length data - 8)%nat in
  let crc_stored := from_le (drop n data) in
  let body := take n data in
  if negb (redis_crc64 body =? crc_stored) then Ret (Err ERR)
  else decode_rdb_object (take (length body - 2) body).

End decode.
