(* ===== verification/RdbFacts.v ===== *)
(** * Facts about the object codec

    A class of byte codecs whose instances carry their round-trip law; the CRC as a linear,
    injective function of its input. *)

From S2P Require Import Prelude RustStd Text Float64 Resp StreamType Rdb.
From Stdlib Require Import Lia Floats.SpecFloat.

Local Open Scope Z_scope.

(** ** Byte order *)

Lemma length_le_bytes n z : length (le_bytes n z) = n.
Proof. revert z. induction n as [|n IH]; intros z; simpl; [done|]. by rewrite IH. Qed.

Lemma length_be_bytes n z : length (be_bytes n z) = n.
Proof. unfold be_bytes. by rewrite length_reverse, length_le_bytes. Qed.

Lemma from_le_bytes n z : from_le (le_bytes n z) = z mod 256 ^ Z.of_nat n.
Proof.
  revert z. induction n as [|n IH]; intros z; simpl le_bytes; simpl from_le; [by rewrite Z.mod_1_r|].
  rewrite IH, u8_byte_of_Z, Nat2Z.inj_succ, Z.pow_succ_r by lia.
  rewrite (Z.rem_mul_r z 256 (256 ^ Z.of_nat n)) by lia. done.
Qed.

Lemma from_le_u64 z : in_u64 z → from_le (le_bytes 8 z) = z.
Proof. intros H. rewrite from_le_bytes. apply Z.mod_small. unfold u64_max in H. simpl. lia. Qed.

Lemma from_be_bytes n z : 0 ≤ z < 256 ^ Z.of_nat n → from_be (be_bytes n z) = z.
Proof.
  intros H. unfold from_be, be_bytes. rewrite reverse_involutive, from_le_bytes. by apply Z.mod_small.
Qed.

Lemma from_le_range l : 0 ≤ from_le l < 256 ^ zlen l.
Proof.
  induction l as [|b l IH]; simpl from_le; [simpl; lia|]. pose proof (u8_range b).
  rewrite length_cons, Nat2Z.inj_succ, Z.pow_succ_r by lia. lia.
Qed.

(** ** Codecs *)

(** [m] reads exactly [b], with the value [a], whatever follows. *)
Definition reads {A} (m : Rd A) (b : Bytes) (a : A) : Prop := ∀ rest, m (b ++ rest) = Ret (Ok (a, rest)).

(** [m] undoes [enc] on the values [ok] describes. *)
Class Codec {A} (enc : A → Bytes) (m : Rd A) (ok : A → Prop) : Prop := codec : ∀ a, ok a → reads m (enc a) a.

Lemma rd_reads_ret {A} (a : A) : reads (mret a) [] a.
Proof. by intros rest. Qed.

Lemma rd_reads_bind {A B} (m : Rd A) (f : A → Rd B) b1 b2 a c :
  reads m b1 a → reads (f a) b2 c → reads (m ≫= f) (b1 ++ b2) c.
Proof. intros H1 H2 rest. unfold mbind, rd_bind. by rewrite <- app_assoc, H1, H2. Qed.

Lemma reads_bind_last {A B} (m : Rd A) (f : A → Rd B) b a c :
  reads m b a → reads (f a) [] c → reads (m ≫= f) b c.
Proof. intros H1 H2. rewrite <- (app_nil_r b). by eapply rd_reads_bind. Qed.

Lemma reads_fmap {A B} (g : A → B) (m : Rd A) b a : reads m b a → reads (g <$> m) b (g a).
Proof. intros H. unfold fmap, rd_fmap. by eapply reads_bind_last, rd_reads_ret. Qed.

Lemma reads_nil {A} (m : Rd A) b a : reads m b a → m b = Ret (Ok (a, [])).
Proof. intros H. by rewrite <- (H []), app_nil_r. Qed.

Lemma reads_many {A} (enc : A → Bytes) m ok l :
  Codec enc m ok → Forall ok l → reads (rd_many (length l) m) (concat (enc <$> l)) l.
Proof.
  intros Hc. induction 1 as [|a l Ha Hl IH]; simpl; [apply rd_reads_ret|].
  eapply rd_reads_bind; [by apply Hc|]. eapply reads_bind_last; [exact IH|apply rd_reads_ret].
Qed.

Lemma reads_raw b : reads (rd_raw (zlen b)) b b.
Proof.
  intros rest. unfold rd_raw. rewrite length_app, Nat2Z.inj_add.
  rewrite (proj2 (Z.ltb_ge _ _)) by lia. by rewrite Nat2Z.id, take_app_length, drop_app_length.
Qed.

Lemma reads_u8 b : reads rd_u8 [b] (u8 b).
Proof. by intros rest. Qed.

Lemma reads_capacity size n : with_capacity_ok size n = true → reads (rd_capacity size n) [] tt.
Proof. intros H rest. unfold rd_capacity. by rewrite H. Qed.

(** *** Lengths *)

Lemma or_64 n : 0 ≤ n < 64 → Z.lor n 0x40 = n + 64.
Proof.
  intros H. rewrite <- (Z.add_lor_land n 64). assert (Z.land n 64 = 0) as ->; [|lia].
  change 64 with (2 ^ 6). apply Z.bits_inj'. intros i Hi. rewrite Z.land_spec, Z.bits_0, Z.pow2_bits_eqb by lia.
  destruct (Z.eqb_spec 6 i) as [<-|]; [|by rewrite andb_false_r]. rewrite andb_true_r.
  apply Z.bits_above_log2; [lia|]. destruct (decide (n = 0)) as [->|]; [done|]. apply Z.log2_lt_pow2; lia.
Qed.

(** The forms with a marker byte and a big-endian word. *)
Lemma len_word_reads mark (w : nat) n :
  (u8 mark = 0x80 ∧ w = 4%nat) ∨ (u8 mark = 0x81 ∧ w = 8%nat) → 0 ≤ n < 256 ^ Z.of_nat w →
  reads decode_len (mark :: be_bytes w n) (n, false).
Proof.
  intros Hm Hn. change (mark :: be_bytes w n) with ([mark] ++ be_bytes w n). eapply rd_reads_bind; [apply reads_u8|].
  assert (Hr : reads (b ← rd_raw (Z.of_nat w); mret (from_be b, false)) (be_bytes w n) (n, false)).
  { apply (reads_bind_last _ _ _ (be_bytes w n)); [|rewrite from_be_bytes by done; apply rd_reads_ret].
    pose proof (reads_raw (be_bytes w n)) as H. by rewrite length_be_bytes in H. }
  destruct Hm as [[-> ->]|[-> ->]]; exact Hr.
Qed.

Lemma decode_len_reads n : in_u64 n → reads decode_len (encode_len_u64 n) (n, false).
Proof.
  intros Hn rest. unfold encode_len_u64, decode_len. change (2 ^ 6) with 64. change (2 ^ 14) with 16384.
  destruct (Z.ltb_spec n 64).
  { unfold mbind, rd_bind, rd_u8. simpl. rewrite u8_byte_of_Z, (Z.mod_small n 256) by lia.
    rewrite (Z.div_small n 64), Z.eqb_refl by lia. by rewrite Z.mod_small by lia. }
  destruct (Z.ltb_spec n 16384).
  { unfold mbind, rd_bind, rd_u8. simpl. rewrite !u8_byte_of_Z, or_64 by (Z.to_euclidean_division_equations; lia).
    assert (E : (n / 256 + 64) mod 256 = n / 256 + 64) by (apply Z.mod_small; Z.to_euclidean_division_equations; lia).
    rewrite E. replace ((n / 256 + 64) / 64) with 1 by (Z.to_euclidean_division_equations; lia). simpl.
    replace ((n / 256 + 64) mod 64) with (n / 256) by (Z.to_euclidean_division_equations; lia).
    rewrite u8_byte_of_Z, Z.mod_mod, Z.mul_comm, <- Z.div_mod by lia. done. }
  unfold u32_max, u64_max in *. destruct (Z.leb_spec n 4294967295).
  - apply (len_word_reads (byte_of_Z 128) 4 n); [by left|simpl; lia].
  - apply (len_word_reads (byte_of_Z 129) 8 n); [by right|simpl; lia].
Qed.

#[global] Instance len_codec : Codec encode_len_u64 decode_rdb_len (λ n, in_u64 n).
Proof.
  intros n Hn. unfold decode_rdb_len. eapply reads_bind_last; [by apply decode_len_reads|]. apply rd_reads_ret.
Qed.

(** Anything held in memory has a length a [u64] holds. *)
Definition short (b : Bytes) : Prop := zlen b ≤ max_string.

#[global] Instance string_codec : Codec encode_raw_string decode_string short.
Proof.
  intros s Hs. unfold encode_raw_string, encode_len, decode_string, short, max_string in *.
  eapply rd_reads_bind; [apply decode_len_reads; unfold u64_max; lia|]. simpl.
  rewrite (proj2 (Z.ltb_ge _ _)) by (unfold max_string; lia). apply reads_raw.
Qed.

#[global] Instance pair_codec : Codec encode_pair decode_pair (λ kv, short kv.1 ∧ short kv.2).
Proof.
  intros [k v] [Hk Hv]. unfold encode_pair, decode_pair. simpl. eapply rd_reads_bind; [by apply string_codec|].
  eapply reads_bind_last; [by apply string_codec|apply rd_reads_ret].
Qed.

#[global] Instance scored_codec :
  Codec encode_scored (m ← decode_string; sc ← rd_f64; mret (m, sc)) (λ ms, short ms.1 ∧ valid_f64 ms.2 = true).
Proof.
  intros [m sc] [Hm [E Hr]%from_to_bits]. unfold encode_scored. simpl in *. eapply rd_reads_bind; [by apply string_codec|].
  unfold rd_f64. eapply reads_bind_last; [|apply rd_reads_ret]. eapply reads_bind_last.
  - pose proof (reads_raw (le_bytes 8 (to_bits sc))) as H. by rewrite length_le_bytes in H.
  - rewrite from_le_u64, E by done. apply rd_reads_ret.
Qed.

(** A list of values of [size] bytes each. *)
Definition fits_vec {A} (size : Z) (ok : A → Prop) (l : list A) : Prop :=
  with_capacity_ok size (zlen l) = true ∧ in_u64 (zlen l) ∧ Forall ok l.

Lemma seq_codec {A} (enc : A → Bytes) m ok size :
  Codec enc m ok → Codec (encode_seq enc) (rd_seq size m) (fits_vec size ok).
Proof.
  intros Hc l (Hcap & Hn & Hl). unfold encode_seq, encode_len, rd_seq. eapply rd_reads_bind; [by apply len_codec|].
  change (concat (enc <$> l)) with ([] ++ concat (enc <$> l)). eapply rd_reads_bind; [by apply reads_capacity|].
  rewrite Nat2Z.id. by eapply reads_many.
Qed.
#[global] Existing Instance seq_codec.

(** ** CRC-64 *)

Abbreviation crc_range c := (0 ≤ c < 2 ^ 64).

Lemma crc64_bit_range c : crc_range c → crc_range (crc64_bit c).
Proof.
  intros H. assert (Hs : 0 ≤ Z.shiftr c 1 < 2 ^ 63).
  { rewrite Z.shiftr_div_pow2 by lia. change (2 ^ 1) with 2. Z.to_euclidean_division_equations. lia. }
  unfold crc64_bit. destruct (Z.odd c); [|lia]. split; [apply Z.lxor_nonneg; unfold POLY64REV; lia|].
  assert (Hn : 0 ≤ Z.lxor (Z.shiftr c 1) POLY64REV) by (apply Z.lxor_nonneg; unfold POLY64REV; lia).
  destruct (Z.eq_dec (Z.lxor (Z.shiftr c 1) POLY64REV) 0) as [->|Hne]; [lia|]. apply Z.log2_lt_pow2; [lia|].
  eapply Z.le_lt_trans; [apply Z.log2_lxor; unfold POLY64REV; lia|]. apply Z.max_lub_lt; [|by vm_compute].
  destruct (Z.eq_dec (Z.shiftr c 1) 0) as [->|]; [by vm_compute|]. apply Z.log2_lt_pow2; lia.
Qed.

Lemma crc64_bit_lxor a b : crc64_bit (Z.lxor a b) = Z.lxor (crc64_bit a) (crc64_bit b).
Proof.
  unfold crc64_bit. rewrite !Z.shiftr_lxor, <- !Z.bit0_odd, Z.lxor_spec.
  destruct (Z.testbit a 0), (Z.testbit b 0); simpl; try done.
  - rewrite (Z.lxor_comm (Z.shiftr b 1) POLY64REV), Z.lxor_assoc, <- (Z.lxor_assoc POLY64REV), Z.lxor_nilpotent, Z.lxor_0_l. done.
  - by rewrite !Z.lxor_assoc, (Z.lxor_comm POLY64REV).
  - by rewrite Z.lxor_assoc.
Qed.

(** The bit shifted out is the top bit of the result, so a step can be undone. *)
Lemma crc64_bit_inj a b : crc_range a → crc_range b → crc64_bit a = crc64_bit b → a = b.
Proof.
  intros Ha Hb H. assert (Htop : ∀ c, crc_range c → Z.testbit (crc64_bit c) 63 = Z.odd c).
  { intros c Hc. unfold crc64_bit. assert (Hz : Z.testbit (Z.shiftr c 1) 63 = false).
    { rewrite Z.shiftr_spec by lia. destruct (Z.eq_dec c 0) as [->|]; [done|].
      apply Z.bits_above_log2; [lia|]. apply Z.log2_lt_pow2; lia. }
    destruct (Z.odd c); [|done]. by rewrite Z.lxor_spec, Hz. }
  pose proof (Htop a Ha) as Ea. rewrite H, (Htop b Hb) in Ea. unfold crc64_bit in H. rewrite Ea in H.
  assert (Hs : Z.shiftr a 1 = Z.shiftr b 1).
  { destruct (Z.odd a); [|done]. apply (f_equal (λ x, Z.lxor x POLY64REV)) in H.
    by rewrite !Z.lxor_assoc, Z.lxor_nilpotent, !Z.lxor_0_r in H. }
  rewrite !Z.shiftr_div_pow2 in Hs by lia. change (2 ^ 1) with 2 in Hs.
  rewrite (Z.div_mod a 2), (Z.div_mod b 2), Hs, !Zmod_odd, Ea by lia. done.
Qed.

Definition crc64_byte (c : Z) : Z := Nat.iter 8 crc64_bit c.

Lemma crc64_byte_lxor a b : crc64_byte (Z.lxor a b) = Z.lxor (crc64_byte a) (crc64_byte b).
Proof. unfold crc64_byte. simpl. by rewrite !crc64_bit_lxor. Qed.

Lemma crc64_byte_range c : crc_range c → crc_range (crc64_byte c).
Proof. intros H. unfold crc64_byte. simpl. by repeat apply crc64_bit_range. Qed.

Lemma crc64_byte_inj a b : crc_range a → crc_range b → crc64_byte a = crc64_byte b → a = b.
Proof.
  intros Ha Hb. unfold crc64_byte. simpl. intros H.
  repeat (apply crc64_bit_inj in H; [|by repeat apply crc64_bit_range..]). done.
Qed.

(** Eight steps only shift a number whose low byte is zero. *)
Lemma crc64_byte_shift h : crc64_byte (h * 256) = h.
Proof.
  assert (Hd : ∀ x, crc64_bit (x * 2) = x).
  { intros x. unfold crc64_bit. rewrite Z.odd_mul, andb_false_r, Z.shiftr_div_pow2 by lia. apply Z.div_mul. lia. }
  unfold crc64_byte. simpl. replace (h * 256) with (h * 2 * 2 * 2 * 2 * 2 * 2 * 2 * 2) by lia. by rewrite !Hd.
Qed.

Lemma lxor_low_high h l : 0 ≤ l < 256 → Z.lxor (h * 256) l = h * 256 + l.
Proof.
  intros Hl. symmetry. apply Z.add_nocarry_lxor. apply Z.bits_inj'. intros i Hi. rewrite Z.land_spec, Z.bits_0.
  change 256 with (2 ^ 8). destruct (Z.lt_ge_cases i 8); [by rewrite Z.mul_pow2_bits_low|].
  assert (Z.testbit l i = false) as ->; [|apply andb_false_r]. destruct (Z.eq_dec l 0) as [->|]; [apply Z.bits_0|].
  apply Z.bits_above_log2; [lia|]. eapply Z.lt_le_trans; [|done]. apply Z.log2_lt_pow2; lia.
Qed.

Lemma crc64_table_lookup i : 0 ≤ i < 256 → crc64_table !!! Z.to_nat i = crc64_byte i.
Proof.
  intros Hi. unfold crc64_table. apply list_lookup_total_correct. rewrite list_lookup_fmap, lookup_seqZ_lt by lia.
  simpl. by rewrite Z2Nat.id by lia.
Qed.

Lemma byte_lxor_range x b : 0 ≤ Z.lxor (x mod 256) (u8 b) < 256.
Proof.
  pose proof (u8_range b). pose proof (Z.mod_pos_bound x 256 ltac:(lia)). assert (Hn : 0 ≤ Z.lxor (x mod 256) (u8 b)) by (apply Z.lxor_nonneg; lia).
  split; [done|]. destruct (Z.eq_dec (Z.lxor (x mod 256) (u8 b)) 0) as [->|]; [lia|]. change 256 with (2 ^ 8) at 2.
  apply Z.log2_lt_pow2; [lia|]. eapply Z.le_lt_trans; [apply Z.log2_lxor; lia|].
  assert (Hlog : ∀ z, 0 ≤ z < 256 → Z.log2 z < 8).
  { intros z Hz. destruct (Z.eq_dec z 0) as [->|]; [done|]. apply Z.log2_lt_pow2; lia. }
  apply Z.max_lub_lt; by apply Hlog.
Qed.

(** The table does eight steps at once. *)
Lemma crc64_step_bits c b : crc_range c → crc64_step crc64_table c b = crc64_byte (Z.lxor c (u8 b)).
Proof.
  intros Hc. unfold crc64_step. rewrite crc64_table_lookup by apply byte_lxor_range.
  rewrite Z.shiftr_div_pow2 by lia. change (2 ^ 8) with 256.
  rewrite <- (crc64_byte_shift (c / 256)) at 1. rewrite <- crc64_byte_lxor. f_equal.
  rewrite (Z.lxor_comm _ (c / 256 * 256)), <- Z.lxor_assoc.
  rewrite lxor_low_high by (apply Z.mod_pos_bound; lia). by rewrite (Z.mul_comm _ 256), <- Z.div_mod by lia.
Qed.

Lemma lxor_byte_range c b : crc_range c → crc_range (Z.lxor c (u8 b)).
Proof.
  intros Hc. pose proof (u8_range b). assert (Hn : 0 ≤ Z.lxor c (u8 b)) by (apply Z.lxor_nonneg; lia). split; [done|].
  destruct (Z.eq_dec (Z.lxor c (u8 b)) 0) as [->|]; [lia|]. apply Z.log2_lt_pow2; [lia|].
  assert (Hlog : ∀ z, crc_range z → Z.log2 z < 64).
  { intros z Hz. destruct (Z.eq_dec z 0) as [->|]; [done|]. apply Z.log2_lt_pow2; lia. }
  eapply Z.le_lt_trans; [apply Z.log2_lxor; lia|]. apply Z.max_lub_lt; apply Hlog; lia.
Qed.

Lemma crc64_step_range c b : crc_range c → crc_range (crc64_step crc64_table c b).
Proof. intros Hc. rewrite crc64_step_bits by done. by apply crc64_byte_range, lxor_byte_range. Qed.

Lemma crc64_fold_range data c : crc_range c → crc_range (foldl (crc64_step crc64_table) c data).
Proof. revert c. induction data as [|b data IH]; intros c Hc; simpl; [done|]. by apply IH, crc64_step_range. Qed.

Lemma redis_crc64_range data : in_u64 (redis_crc64 data).
Proof. pose proof (crc64_fold_range data 0 ltac:(lia)). unfold redis_crc64, u64_max in *. lia. Qed.

Lemma lxor_cancel_r a b x : Z.lxor a x = Z.lxor b x → a = b.
Proof.
  intros H. apply (f_equal (λ y, Z.lxor y x)) in H. by rewrite !Z.lxor_assoc, Z.lxor_nilpotent, !Z.lxor_0_r in H.
Qed.

(** Reading the same bytes keeps different states different. *)
Lemma crc64_fold_inj data c d :
  crc_range c → crc_range d → foldl (crc64_step crc64_table) c data = foldl (crc64_step crc64_table) d data → c = d.
Proof.
  revert c d. induction data as [|b data IH]; intros c d Hc Hd H; simpl in H; [done|].
  apply IH in H; [|by apply crc64_step_range..]. rewrite !crc64_step_bits in H by done.
  apply crc64_byte_inj in H; [|by apply lxor_byte_range..]. by apply lxor_cancel_r in H.
Qed.

(** Changing one byte changes the checksum. *)
Lemma crc64_one_byte pre x y post :
  x ≠ y → redis_crc64 (pre ++ x :: post) ≠ redis_crc64 (pre ++ y :: post).
Proof.
  intros Hxy H. apply Hxy. unfold redis_crc64 in H. rewrite !foldl_app in H. simpl in H.
  pose proof (crc64_fold_range pre 0 ltac:(lia)) as Hc. apply crc64_fold_inj in H; [|by apply crc64_step_range..].
  rewrite !crc64_step_bits in H by done. apply crc64_byte_inj in H; [|by apply lxor_byte_range..].
  rewrite !(Z.lxor_comm (foldl _ _ _)) in H. apply lxor_cancel_r in H. by apply u8_inj.
Qed.
