(* ===== verification/RdbPacked.v ===== *)
(** * Compressed strings and packed lists

    What the LZF decompressor and the listpack and intset decoders compute, against descriptions of
    the formats: a compressed string is a sequence of literal runs and back references, a listpack a
    sequence of tagged entries, an intset a row of two's-complement words. *)

From S2P Require Import Prelude RustStd Text Float64 Resp StreamType Rdb RdbFacts.
From Stdlib Require Import Lia.

Local Open Scope Z_scope.

(** ** LZF *)

Inductive token : Type :=
| Lit (b : Bytes)
| Ref (len off : Z).

(** The bytes a compressor writes for a token. *)
Definition token_bytes (t : token) : Bytes :=
  match t with
  | Lit b => byte_of_Z (zlen b - 1) :: b
  | Ref len off =>
    let l := len - 2 in
    let o := off - 1 in
    if l <? 7 then [byte_of_Z (l * 32 + o / 256); byte_of_Z o]
    else [byte_of_Z (7 * 32 + o / 256); byte_of_Z (l - 7); byte_of_Z o]
  end.

(** A reference of distance [off] appends, [len] times, the byte [off] places before the end. *)
Definition again (off : nat) (out : Bytes) : Bytes := out ++ [default x00 (out !! (length out - off)%nat)].
Definition expand (out : Bytes) (t : token) : Bytes :=
  match t with
  | Lit b => out ++ b
  | Ref len off => Nat.iter (Z.to_nat len) (again (Z.to_nat off)) out
  end.

Definition token_ok (out : Bytes) (t : token) : Prop :=
  match t with
  | Lit b => 1 ≤ zlen b ≤ 32
  | Ref len off => 3 ≤ len ≤ 264 ∧ 1 ≤ off ≤ 8192 ∧ off ≤ zlen out
  end.

(** Every token is valid where it stands. *)
Fixpoint tokens_ok (out : Bytes) (l : list token) : Prop :=
  match l with [] => True | t :: l => token_ok out t ∧ tokens_ok (expand out t) l end.

Lemma iter_swap {A} (f : A → A) n x : Nat.iter n f (f x) = f (Nat.iter n f x).
Proof. induction n as [|n IH]; simpl; [done|]. by rewrite IH. Qed.

Lemma length_again n off out : length (Nat.iter n (again off) out) = (length out + n)%nat.
Proof. induction n as [|n IH]; simpl; [lia|]. unfold again at 1. rewrite length_app, IH. simpl. lia. Qed.

(** Copying forwards from [off] places back is repeating the byte [off] places back. *)
Lemma copy_back_again n off out :
  (off ≤ length out)%nat → copy_back n (length out - off) out = Nat.iter n (again off) out.
Proof.
  revert out. induction n as [|n IH]; intros out Ho; simpl; [done|]. rewrite <- iter_swap, <- IH.
  - f_equal. unfold again. rewrite length_app. simpl. lia.
  - unfold again. rewrite length_app. simpl. lia.
Qed.

Lemma expand_longer out t : (length out ≤ length (expand out t))%nat.
Proof. destruct t as [b|len off]; simpl; [rewrite length_app; lia|rewrite length_again; lia]. Qed.

Lemma expands_longer out l : (length out ≤ length (foldl expand out l))%nat.
Proof. revert out. induction l as [|t l IH]; intros out; simpl; [done|]. etrans; [apply (expand_longer out t)|apply IH]. Qed.

(** One round of the loop reads one token. *)
Lemma lzf_loop_token fuel t rest out n :
  token_ok out t → zlen (expand out t) ≤ n →
  lzf_loop (S fuel) (token_bytes t ++ rest) n out = lzf_loop fuel rest n (expand out t).
Proof.
  destruct t as [b|len off]; intros Hok Hn.
  - simpl in Hok, Hn. rewrite length_app in Hn. unfold token_bytes. cbn [lzf_loop app].
    rewrite u8_byte_of_Z, Z.mod_small by lia. rewrite (proj2 (Z.ltb_lt _ _)) by lia. cbv zeta.
    replace (zlen b - 1 + 1) with (zlen b) by lia. rewrite length_app, Nat2Z.inj_add.
    rewrite (proj2 (Z.ltb_ge _ _)), (proj2 (Z.ltb_ge n _)) by lia. cbn [orb].
    by rewrite Nat2Z.id, drop_app_length, take_app_length.
  - destruct Hok as (Hl & Ho & Hle). simpl in Hn. rewrite length_again in Hn. unfold token_bytes. cbv zeta.
    assert (Hcopy : copy_back (Z.to_nat len) (Z.to_nat (zlen out - off)) out = expand out (Ref len off)).
    { simpl. rewrite <- copy_back_again by lia. f_equal. lia. }
    assert (Hh : 0 ≤ (off - 1) / 256 < 32) by (Z.to_euclidean_division_equations; lia).
    assert (Hoff : ∀ h, h = (off - 1) / 256 → zlen out - (h * 256 + (off - 1) mod 256) - 1 = zlen out - off).
    { intros h ->. pose proof (Z.div_mod (off - 1) 256 ltac:(lia)). lia. }
    destruct (Z.ltb_spec (len - 2) 7); cbn [lzf_loop app]; rewrite !u8_byte_of_Z.
    + assert (Ec : ((len - 2) * 32 + (off - 1) / 256) mod 256 = (len - 2) * 32 + (off - 1) / 256) by (apply Z.mod_small; lia).
      rewrite Ec, (proj2 (Z.ltb_ge _ 32)) by lia.
      replace (((len - 2) * 32 + (off - 1) / 256) / 32) with (len - 2) by (rewrite Z.div_add_l, (Z.div_small ((off - 1) / 256)) by lia; lia).
      rewrite (proj2 (Z.eqb_neq (len - 2) 7)) by lia. cbn [mbind result_bind]. rewrite u8_byte_of_Z.
      rewrite Hoff by (rewrite Z.add_comm, Z.mod_add, Z.mod_small by lia; done). replace (len - 2 + 2) with len by lia.
      rewrite (proj2 (Z.ltb_ge (zlen out - off) 0)), (proj2 (Z.leb_gt (zlen out) (zlen out - off))), (proj2 (Z.ltb_ge n _)) by lia. cbn [orb].
      by rewrite Hcopy.
    + assert (Ec : (7 * 32 + (off - 1) / 256) mod 256 = 7 * 32 + (off - 1) / 256) by (apply Z.mod_small; lia).
      rewrite Ec, (proj2 (Z.ltb_ge _ 32)) by lia.
      replace ((7 * 32 + (off - 1) / 256) / 32) with 7 by (rewrite Z.div_add_l, (Z.div_small ((off - 1) / 256)) by lia; lia).
      cbn [mbind result_bind Z.eqb Pos.eqb]. rewrite !u8_byte_of_Z, (Z.mod_small (len - 2 - 7)) by lia.
      rewrite Hoff by (rewrite Z.add_comm, Z.mod_add, Z.mod_small by lia; done). replace (7 + (len - 2 - 7) + 2) with len by lia.
      rewrite (proj2 (Z.ltb_ge (zlen out - off) 0)), (proj2 (Z.leb_gt (zlen out) (zlen out - off))), (proj2 (Z.ltb_ge n _)) by lia. cbn [orb].
      by rewrite Hcopy.
Qed.

Lemma lzf_loop_tokens l fuel out n :
  tokens_ok out l → zlen (foldl expand out l) ≤ n → (length l < fuel)%nat →
  lzf_loop fuel (concat (token_bytes <$> l)) n out = Ok (foldl expand out l).
Proof.
  revert fuel out. induction l as [|t l IH]; intros [|fuel] out Hok Hn Hf; try (simpl in Hf; lia); [done|].
  destruct Hok as [Ht Hl]. cbn [fmap list_fmap concat]. rewrite lzf_loop_token; [|done|].
  - apply IH; [done|done|simpl in Hf; lia].
  - pose proof (expands_longer (expand out t) l). simpl in Hn. lia.
Qed.

Lemma tokens_length l : (length l ≤ length (concat (token_bytes <$> l)))%nat.
Proof.
  induction l as [|t l IH]; [done|].
  change (concat (token_bytes <$> t :: l)) with (token_bytes t ++ concat (token_bytes <$> l)). rewrite length_app, length_cons.
  assert (1 ≤ length (token_bytes t))%nat by (destruct t; simpl; [lia|]; case_match; simpl; lia). lia.
Qed.

(** The decompressor expands the tokens. *)
Lemma lzf_expands l :
  tokens_ok [] l → lzf_decompress (concat (token_bytes <$> l)) (zlen (foldl expand [] l)) = Ok (foldl expand [] l).
Proof.
  intros Hok. unfold lzf_decompress. rewrite lzf_loop_tokens; [|done|lia|].
  - cbn [mbind result_bind]. by rewrite Z.eqb_refl.
  - pose proof (tokens_length l). lia.
Qed.

(** ** Two's complement *)

Definition in_bits (w z : Z) : Prop := - 2 ^ (w - 1) ≤ z < 2 ^ (w - 1).

Lemma signed_wrap w z : 0 < w → in_bits w z → signed w (z mod 2 ^ w) = z.
Proof.
  intros Hw Hz. unfold signed, in_bits in *. assert (E : 2 ^ w = 2 * 2 ^ (w - 1)) by (rewrite <- Z.pow_succ_r by lia; f_equal; lia).
  destruct (Z.lt_ge_cases z 0).
  - replace (z mod 2 ^ w) with (z + 2 ^ w) by (apply Z.mod_unique_pos with (-1); lia).
    rewrite (proj2 (Z.ltb_ge _ _)) by lia. lia.
  - rewrite Z.mod_small by lia. by rewrite (proj2 (Z.ltb_lt _ _)) by lia.
Qed.

Lemma pow256 n : 256 ^ Z.of_nat n = 2 ^ (8 * Z.of_nat n).
Proof. change 256 with (2 ^ 8). by rewrite <- Z.pow_mul_r by lia. Qed.

(** A word of [n] bytes read back with its sign. *)
Lemma signed_le_bytes n z : (0 < n)%nat → in_bits (8 * Z.of_nat n) z → signed_le (le_bytes n z) = z.
Proof.
  intros Hn Hz. unfold signed_le. rewrite length_le_bytes, from_le_bytes, pow256. apply signed_wrap; [lia|done].
Qed.

(** ** Listpacks *)

(** The entries of the format: an unsigned 7-bit number, signed numbers of 13 to 64 bits, strings with
    6-, 12- and 32-bit lengths. *)
Inductive lp_entry : Type :=
| LpUint7 (z : Z)
| LpStr6 (s : Bytes)
| LpInt13 (z : Z)
| LpStr12 (s : Bytes)
| LpStr32 (s : Bytes)
| LpInt (width : nat) (z : Z).

(** The tag of a number of [width] bytes. *)
Definition lp_int_tag (width : nat) : Z :=
  match width with 2%nat => 0xF1 | 3%nat => 0xF2 | 4%nat => 0xF3 | _ => 0xF4 end.

Definition lp_bytes (e : lp_entry) : Bytes :=
  match e with
  | LpUint7 z => [byte_of_Z z]
  | LpStr6 s => byte_of_Z (128 + zlen s) :: s
  | LpInt13 z => [byte_of_Z (192 + z mod 2 ^ 13 / 256); byte_of_Z (z mod 2 ^ 13 mod 256)]
  | LpStr12 s => byte_of_Z (224 + zlen s / 256) :: byte_of_Z (zlen s mod 256) :: s
  | LpStr32 s => byte_of_Z 0xF0 :: le_bytes 4 (zlen s) ++ s
  | LpInt width z => byte_of_Z (lp_int_tag width) :: le_bytes width z
  end.

Definition lp_value (e : lp_entry) : Bytes :=
  match e with
  | LpUint7 z | LpInt13 z | LpInt _ z => dec z
  | LpStr6 s | LpStr12 s | LpStr32 s => s
  end.

Definition lp_entry_ok (e : lp_entry) : Prop :=
  match e with
  | LpUint7 z => 0 ≤ z < 128
  | LpStr6 s => zlen s < 64
  | LpInt13 z => in_bits 13 z
  | LpStr12 s => zlen s < 4096
  | LpStr32 s => zlen s ≤ u32_max
  | LpInt width z => (width = 2 ∨ width = 3 ∨ width = 4 ∨ width = 8)%nat ∧ in_bits (8 * Z.of_nat width) z
  end.

Lemma slice_or_app a b c : slice_or (a ++ b ++ c) (zlen a) (zlen b) = Ok b.
Proof.
  unfold slice_or. rewrite !length_app, (proj2 (Z.ltb_ge _ _)) by lia.
  by rewrite !Nat2Z.id, drop_app_length, take_app_length.
Qed.

Lemma slice_or_at (data pre b rest : Bytes) (n len : Z) :
  data = pre ++ b ++ rest → n = zlen pre → len = zlen b → slice_or data n len = Ok b.
Proof. intros -> -> ->. apply slice_or_app. Qed.

(** The first byte of an entry. *)
Ltac first_byte := cbn [app]; rewrite ?u8_byte_of_Z.

Lemma lp_decode_int width z rest :
  (width = 2 ∨ width = 3 ∨ width = 4 ∨ width = 8)%nat → in_bits (8 * Z.of_nat width) z →
  lp_decode_entry (lp_bytes (LpInt width z) ++ rest) = Ok (dec z, 1 + Z.of_nat width).
Proof.
  intros Hw Hz. assert (Hs : slice_or (byte_of_Z (lp_int_tag width) :: le_bytes width z ++ rest) 1 (Z.of_nat width) = Ok (le_bytes width z)).
  { apply (slice_or_at _ [byte_of_Z (lp_int_tag width)] (le_bytes width z) rest); [done|done|by rewrite length_le_bytes]. }
  assert (Hv : signed_le (le_bytes width z) = z) by (apply signed_le_bytes; [lia|done]).
  cbn [lp_bytes app]. destruct Hw as [->|[->|[->| ->]]]; cbn [lp_int_tag] in *; unfold lp_decode_entry; rewrite u8_byte_of_Z.
  - change (Z.of_nat 2) with 2 in *. cbn -[slice_or le_bytes signed_le dec]. rewrite Hs. cbn [mbind result_bind]. by rewrite Hv.
  - change (Z.of_nat 3) with 3 in *. cbn -[slice_or le_bytes signed_le dec from_le Z.leb Z.sub]. rewrite Hs. cbn [mbind result_bind].
    refine (f_equal (λ v, Ok (dec v, 4)) _). unfold signed_le, signed in Hv. rewrite length_le_bytes in Hv.
    change (2 ^ (8 * Z.of_nat 3 - 1)) with 8388608 in Hv. change (2 ^ (8 * Z.of_nat 3)) with 16777216 in Hv.
    change (2 ^ 23) with 8388608. change (2 ^ 24) with 16777216.
    destruct (Z.leb_spec 8388608 (from_le (le_bytes 3 z))), (Z.ltb_spec (from_le (le_bytes 3 z)) 8388608); lia.
  - change (Z.of_nat 4) with 4 in *. cbn -[slice_or le_bytes signed_le dec]. rewrite Hs. cbn [mbind result_bind]. by rewrite Hv.
  - change (Z.of_nat 8) with 8 in *. cbn -[slice_or le_bytes signed_le dec]. rewrite Hs. cbn [mbind result_bind]. by rewrite Hv.
Qed.

Lemma one_byte_slice b x rest : slice_or (b :: x :: rest) 1 1 = Ok [x].
Proof. apply (slice_or_at _ [b] [x] rest); done. Qed.

Lemma lp_decode_str6 s rest :
  zlen s < 64 → lp_decode_entry (lp_bytes (LpStr6 s) ++ rest) = Ok (s, 1 + zlen s).
Proof.
  intros Hs. cbn [lp_bytes app]. unfold lp_decode_entry. rewrite u8_byte_of_Z, (Z.mod_small (128 + zlen s) 256) by lia. cbv zeta.
  rewrite (proj2 (Z.ltb_ge _ _)) by lia. replace ((128 + zlen s) / 64) with 2 by (Z.to_euclidean_division_equations; lia).
  rewrite Z.eqb_refl. replace ((128 + zlen s) mod 64) with (zlen s) by (Z.to_euclidean_division_equations; lia).
  rewrite (slice_or_at _ [byte_of_Z (128 + zlen s)] s rest); done.
Qed.

Lemma lp_decode_int13 z rest :
  in_bits 13 z → lp_decode_entry (lp_bytes (LpInt13 z) ++ rest) = Ok (dec z, 2).
Proof.
  intros Hz. pose proof (signed_wrap 13 z ltac:(lia) Hz) as Hw. unfold signed in Hw. cbn [lp_bytes app].
  change (2 ^ (13 - 1)) with 4096 in Hw. change (2 ^ 13) with 8192 in *. set (v := z mod 8192) in *.
  assert (Hv : 0 ≤ v < 8192) by (apply Z.mod_pos_bound; lia). clearbody v. unfold lp_decode_entry.
  assert (Hh : 0 ≤ v / 256 < 32) by (Z.to_euclidean_division_equations; lia).
  rewrite u8_byte_of_Z, (Z.mod_small (192 + v / 256) 256) by lia. cbv zeta. rewrite (proj2 (Z.ltb_ge _ _)) by lia.
  replace ((192 + v / 256) / 64) with 3 by (Z.to_euclidean_division_equations; lia).
  replace ((192 + v / 256) / 32) with 6 by (Z.to_euclidean_division_equations; lia). rewrite Z.eqb_refl. change (3 =? 2) with false. cbv iota.
  rewrite one_byte_slice. cbn [mbind result_bind]. replace ((192 + v / 256) mod 32) with (v / 256) by (Z.to_euclidean_division_equations; lia).
  cbn [from_le]. rewrite u8_byte_of_Z, Z.mod_mod by lia. replace (v / 256 * 256 + (v mod 256 + 256 * 0)) with v by (Z.to_euclidean_division_equations; lia).
  change (2 ^ 12) with 4096. do 3 f_equal. destruct (Z.leb_spec 4096 v), (Z.ltb_spec v 4096); lia.
Qed.

Lemma lp_decode_str12 s rest :
  zlen s < 4096 → lp_decode_entry (lp_bytes (LpStr12 s) ++ rest) = Ok (s, 2 + zlen s).
Proof.
  intros Hs. cbn [lp_bytes app]. unfold lp_decode_entry. assert (Hh : 0 ≤ zlen s / 256 < 16) by (Z.to_euclidean_division_equations; lia).
  rewrite u8_byte_of_Z, (Z.mod_small (224 + zlen s / 256) 256) by lia. cbv zeta. rewrite (proj2 (Z.ltb_ge _ _)) by lia.
  replace ((224 + zlen s / 256) / 64) with 3 by (Z.to_euclidean_division_equations; lia).
  replace ((224 + zlen s / 256) / 32) with 7 by (Z.to_euclidean_division_equations; lia).
  replace ((224 + zlen s / 256) / 16) with 14 by (Z.to_euclidean_division_equations; lia).
  change (3 =? 2) with false. change (7 =? 6) with false. rewrite Z.eqb_refl. cbv iota.
  rewrite one_byte_slice. cbn [mbind result_bind from_le].
  replace ((224 + zlen s / 256) mod 16) with (zlen s / 256) by (Z.to_euclidean_division_equations; lia).
  rewrite u8_byte_of_Z, Z.mod_mod by lia.
  replace (zlen s / 256 * 256 + (zlen s mod 256 + 256 * 0)) with (zlen s) by (Z.to_euclidean_division_equations; lia).
  rewrite (slice_or_at _ [byte_of_Z (224 + zlen s / 256); byte_of_Z (zlen s mod 256)] s rest); done.
Qed.

Lemma lp_decode_str32 s rest :
  zlen s ≤ u32_max → lp_decode_entry (lp_bytes (LpStr32 s) ++ rest) = Ok (s, 5 + zlen s).
Proof.
  intros Hs. cbn [lp_bytes app]. rewrite <- app_assoc.
  assert (H1 : slice_or (byte_of_Z 0xF0 :: le_bytes 4 (zlen s) ++ s ++ rest) 1 4 = Ok (le_bytes 4 (zlen s))).
  { apply (slice_or_at _ [byte_of_Z 0xF0] (le_bytes 4 (zlen s)) (s ++ rest)); [done|done|by rewrite length_le_bytes]. }
  assert (H2 : slice_or (byte_of_Z 0xF0 :: le_bytes 4 (zlen s) ++ s ++ rest) 5 (zlen s) = Ok s).
  { apply (slice_or_at _ (byte_of_Z 0xF0 :: le_bytes 4 (zlen s)) s rest); [done|by rewrite length_cons, length_le_bytes|done]. }
  unfold lp_decode_entry. change (u8 (byte_of_Z 0xF0)) with 0xF0. cbv zeta.
  change (0xF0 <? 0x80) with false. change (0xF0 / 64 =? 2) with false. change (0xF0 / 32 =? 6) with false.
  change (0xF0 / 16 =? 14) with false. change (0xF0 =? 0xF0) with true. cbv iota. rewrite H1. cbn [mbind result_bind].
  rewrite from_le_bytes, Z.mod_small by (unfold u32_max in Hs; simpl; lia). by rewrite H2.
Qed.

(** Every entry reads back as its value. *)
Lemma lp_decode_entry_spec e rest :
  lp_entry_ok e → lp_decode_entry (lp_bytes e ++ rest) = Ok (lp_value e, zlen (lp_bytes e)).
Proof.
  destruct e as [z|s|z|s|s|w z]; intros Hok.
  - simpl in Hok. cbn [lp_bytes app]. unfold lp_decode_entry. rewrite u8_byte_of_Z, Z.mod_small by lia. cbv zeta.
    by rewrite (proj2 (Z.ltb_lt _ _)) by lia.
  - rewrite lp_decode_str6 by done. do 2 f_equal. simpl. lia.
  - by rewrite lp_decode_int13.
  - rewrite lp_decode_str12 by done. do 2 f_equal. simpl. lia.
  - rewrite lp_decode_str32 by done. do 2 f_equal. cbn [lp_bytes]. rewrite length_cons, length_app, length_le_bytes. lia.
  - destruct Hok as [Hw Hz]. rewrite lp_decode_int by done. do 2 f_equal. cbn [lp_bytes]. rewrite length_cons, length_le_bytes. lia.
Qed.

(** An entry never starts with the end mark. *)
Lemma lp_bytes_first e : lp_entry_ok e → ∃ b l, lp_bytes e = b :: l ∧ u8 b ≠ 0xFF.
Proof.
  destruct e as [z|s|z|s|s|w z]; intros Hok; cbn [lp_bytes]; do 2 eexists; (split; [done|]); rewrite u8_byte_of_Z; simpl in Hok.
  - rewrite Z.mod_small by lia. lia.
  - rewrite Z.mod_small by lia. lia.
  - pose proof (Z.mod_pos_bound z 8192 ltac:(lia)). change (2 ^ 13) with 8192. rewrite Z.mod_small; Z.to_euclidean_division_equations; lia.
  - rewrite Z.mod_small; Z.to_euclidean_division_equations; lia.
  - done.
  - destruct Hok as [[->|[->|[->| ->]]] _]; done.
Qed.

(** The length of an entry in base 128, most significant digit first; all digits but the first are
    marked, so that the number can be read from its end. *)
Fixpoint backlen_digits (fuel : nat) (n : Z) : list Z :=
  match fuel with
  | O => []
  | S fuel => if n <? 128 then [n] else backlen_digits fuel (n / 128) ++ [n mod 128 + 128]
  end.
Definition backlen (n : Z) : Bytes := byte_of_Z <$> backlen_digits 5 n.

Lemma backlen_size n : 0 ≤ n < 2 ^ 35 → zlen (backlen n) = lp_backlen_size n.
Proof.
  intros Hn. unfold backlen, lp_backlen_size. rewrite length_fmap. change (2 ^ 35) with 34359738368 in Hn.
  change (2 ^ 14) with 16384. change (2 ^ 21) with 2097152. change (2 ^ 28) with 268435456. cbn [backlen_digits].
  rewrite !Z.div_div by lia. change (128 * 128 * 128 * 128) with 268435456. change (128 * 128 * 128) with 2097152. change (128 * 128) with 16384.
  destruct (Z.ltb_spec n 128); [by rewrite (proj2 (Z.leb_le _ _)) by lia|rewrite (proj2 (Z.leb_gt _ _)) by lia].
  destruct (Z.ltb_spec (n / 128) 128), (Z.ltb_spec n 16384); try (Z.to_euclidean_division_equations; lia); [done|].
  destruct (Z.ltb_spec (n / 16384) 128), (Z.ltb_spec n 2097152); try (Z.to_euclidean_division_equations; lia); [done|].
  destruct (Z.ltb_spec (n / 2097152) 128), (Z.ltb_spec n 268435456); try (Z.to_euclidean_division_equations; lia); [done|].
  destruct (Z.ltb_spec (n / 268435456) 128); [done|Z.to_euclidean_division_equations; lia].
Qed.

Lemma lp_bytes_length e : lp_entry_ok e → zlen (lp_bytes e) < 2 ^ 35.
Proof.
  change (2 ^ 35) with 34359738368.
  destruct e as [z|s|z|s|s|w z]; simpl; intros Hok; rewrite ?length_app, ?length_le_bytes; simpl; unfold u32_max in *; lia.
Qed.

(** An entry followed by its length, read backwards by other servers. *)
Definition lp_packed (e : lp_entry) : Bytes := lp_bytes e ++ backlen (zlen (lp_bytes e)).

Lemma lp_loop_spec l fuel :
  Forall lp_entry_ok l → (length l < fuel)%nat →
  lp_loop fuel (concat (lp_packed <$> l) ++ [xff]) = Ok (lp_value <$> l).
Proof.
  intros Hl. revert fuel. induction Hl as [|e l He Hl IH]; intros [|fuel] Hf; try (simpl in Hf; lia); [done|].
  change (concat (lp_packed <$> e :: l)) with (lp_packed e ++ concat (lp_packed <$> l)).
  unfold lp_packed at 1. rewrite <- !app_assoc. set (bl := backlen (zlen (lp_bytes e))).
  assert (Hb : zlen bl = lp_backlen_size (zlen (lp_bytes e))) by (pose proof (lp_bytes_length e He); apply backlen_size; lia).
  clearbody bl. pose proof (lp_decode_entry_spec e (bl ++ concat (lp_packed <$> l) ++ [xff]) He) as Hd.
  destruct (lp_bytes_first e He) as (b & r & Eb & Hne). cbn [lp_loop]. rewrite Eb in *. cbn [app] in *.
  rewrite (proj2 (Z.eqb_neq _ _)) by done. rewrite Hd. cbn [mbind result_bind].
  rewrite <- Hb. change (b :: r ++ bl ++ concat (lp_packed <$> l) ++ [xff]) with ((b :: r) ++ bl ++ concat (lp_packed <$> l) ++ [xff]).
  rewrite (app_assoc (b :: r)), length_app, (proj2 (Z.ltb_ge _ _)) by (rewrite length_app; lia).
  replace (Z.to_nat (zlen (b :: r) + zlen bl)) with (length ((b :: r) ++ bl)) by (rewrite length_app; lia).
  rewrite drop_app_length, IH by (simpl in Hf; lia). done.
Qed.

(** A whole listpack: its length, the number of entries, the entries, the end mark. *)
Definition listpack (l : list lp_entry) : Bytes :=
  let body := concat (lp_packed <$> l) ++ [xff] in
  le_bytes 4 (6 + zlen body) ++ le_bytes 2 (zlen l) ++ body.

Lemma packed_length l : Forall lp_entry_ok l → (length l ≤ length (concat (lp_packed <$> l)))%nat.
Proof.
  induction 1 as [|e l He Hl IH]; [done|].
  change (concat (lp_packed <$> e :: l)) with (lp_packed e ++ concat (lp_packed <$> l)).
  destruct (lp_bytes_first e He) as (b & r & Eb & _). rewrite length_app, length_cons. unfold lp_packed at 1.
  rewrite Eb, length_app, length_cons. lia.
Qed.

Lemma decode_listpack_spec l :
  Forall lp_entry_ok l → 6 + zlen (concat (lp_packed <$> l) ++ [xff]) ≤ u32_max →
  decode_listpack (listpack l) = Ok (lp_value <$> l).
Proof.
  intros Hl Hn. unfold listpack. cbv zeta. set (body := concat (lp_packed <$> l) ++ [xff]) in *.
  assert (Hb : zlen body = zlen (concat (lp_packed <$> l)) + 1) by (unfold body; rewrite length_app; simpl; lia).
  unfold decode_listpack. rewrite (app_assoc (le_bytes 4 _)). set (h := le_bytes 4 _ ++ le_bytes 2 _).
  assert (Hh : length h = 6%nat) by (unfold h; by rewrite length_app, !length_le_bytes).
  rewrite length_app, Hh, (proj2 (Z.ltb_ge _ _)) by lia.
  assert (Et : from_le (take 4 (h ++ body)) = 6 + zlen body).
  { unfold h. rewrite <- app_assoc, (take_app_le (le_bytes 4 _)), take_ge by (rewrite length_le_bytes; lia).
    rewrite from_le_bytes, Z.mod_small by (unfold u32_max in Hn; simpl; lia). done. }
  rewrite Et. replace (6 + zlen body =? Z.of_nat (6 + length body)) with true by lia. cbn [negb andb].
  replace (drop 6 (h ++ body)) with body by (rewrite <- Hh; by rewrite drop_app_length).
  apply lp_loop_spec; [done|]. pose proof (packed_length l Hl). lia.
Qed.

(** ** Intsets *)

Definition intset (width : nat) (l : list Z) : Bytes :=
  le_bytes 4 (Z.of_nat width) ++ le_bytes 4 (zlen l) ++ concat (le_bytes width <$> l).

Lemma intset_loop_spec width l :
  (0 < width)%nat → Forall (in_bits (8 * Z.of_nat width)) l →
  intset_loop (length l) width (concat (le_bytes width <$> l)) = Ok (dec <$> l).
Proof.
  intros Hw. induction 1 as [|z l Hz Hl IH]; [done|].
  change (concat (le_bytes width <$> z :: l)) with (le_bytes width z ++ concat (le_bytes width <$> l)).
  assert (Hlen := length_le_bytes width z). cbn [length intset_loop]. rewrite length_app, Hlen, (proj2 (Z.ltb_ge _ _)) by lia.
  rewrite take_app_length', drop_app_length' by done. by rewrite IH, signed_le_bytes.
Qed.

Lemma decode_intset_spec width l :
  (width = 2 ∨ width = 4 ∨ width = 8)%nat → Forall (in_bits (8 * Z.of_nat width)) l → zlen l ≤ u32_max →
  decode_intset (intset width l) = Ok (dec <$> l).
Proof.
  intros Hw Hl Hn. unfold decode_intset, intset. rewrite !length_app, !length_le_bytes, (proj2 (Z.ltb_ge _ _)) by lia.
  rewrite take_app_length' by (by rewrite length_le_bytes). rewrite drop_app_length' by (by rewrite length_le_bytes).
  rewrite take_app_length' by (by rewrite length_le_bytes). rewrite !from_le_bytes, !Z.mod_small by (unfold u32_max in Hn; simpl; lia).
  cbv zeta. destruct l as [|z l]; [done|]. rewrite (proj2 (Z.eqb_neq _ _)) by (simpl; lia).
  replace ((Z.of_nat width =? 2) || (Z.of_nat width =? 4) || (Z.of_nat width =? 8)) with true by lia.
  rewrite (app_assoc (le_bytes 4 _)), drop_app_length' by (by rewrite length_app, !length_le_bytes).
  rewrite !Nat2Z.id. apply intset_loop_spec; [lia|done].
Qed.
