(* ===== verification/KeyDump.v ===== *)
(** * Serialized keys ([KeyPayload] of [cache/key_xfer.rs])

    The snapshot of one key, its two wire formats (the Redis object encoding that DUMP writes and the
    older KDF1 layout that RESTORE still reads) and the expiry RESTORE applies. *)

From S2P Require Import Prelude RustStd Text Float64 Resp StreamType Geo Rdb.
From Stdlib Require Import Lia Floats.SpecFloat.

Local Open Scope Z_scope.

Inductive KeyPayload : Type :=
| PString (value : Bytes) (flags pttl : Z)
| PHash (fields : list (Bytes * Bytes)) (pttl : Z)
| PList (elements : list Bytes) (pttl : Z)
| PSet (members : list Bytes) (pttl : Z)
| PZSet (members : list (Bytes * f64)) (pttl : Z)
| PGeo (members : list (Bytes * f64 * f64)) (pttl : Z)
| PStream (state : StreamStateSnapshot) (pttl : Z).

Definition payload_pttl (p : KeyPayload) : Z :=
  match p with
  | PString _ _ t | PHash _ t | PList _ t | PSet _ t | PZSet _ t | PGeo _ t | PStream _ t => t
  end.

Definition set_pttl (p : KeyPayload) (t : Z) : KeyPayload :=
  match p with
  | PString v f _ => PString v f t
  | PHash l _ => PHash l t
  | PList l _ => PList l t
  | PSet l _ => PSet l t
  | PZSet l _ => PZSet l t
  | PGeo l _ => PGeo l t
  | PStream s _ => PStream s t
  end.

(** ** DUMP *)

Definition encode_geo_dump (members : list (Bytes * f64 * f64)) : Bytes :=
  encode_zset_dump ((λ '(m, lon, lat), (m, f64_of_Z (geohash_encode lon lat))) <$> members).

Definition encode_dump (p : KeyPayload) : Bytes :=
  match p with
  | PString value _ _ => encode_string_dump value
  | PList elements _ => encode_list_dump elements
  | PSet members _ => encode_set_dump members
  | PHash fields _ => encode_hash_dump fields
  | PZSet members _ => encode_zset_dump members
  | PGeo members _ => encode_geo_dump members
  | PStream state _ => encode_stream_dump state
  end.

(** ** KDF1 *)

Definition KDF_MAGIC : Bytes := bs "KDF1".

Definition write_u32 (n : Z) : Bytes := le_bytes 4 n.
Definition write_u64 (n : Z) : Bytes := le_bytes 8 n.
Definition write_bytes (b : Bytes) : Bytes := write_u32 (zlen b) ++ b.

(** [write_u32(len)] and then every element. *)
Definition write_seq {A} (f : A → Bytes) (l : list A) : Bytes := write_u32 (zlen l) ++ concat (f <$> l).

Definition write_pair (kv : Bytes * Bytes) : Bytes := write_bytes kv.1 ++ write_bytes kv.2.
Definition write_f64 (x : f64) : Bytes := write_u64 (to_bits x).
Definition write_id (i : StreamId) : Bytes := write_u64 (ms i) ++ write_u64 (seq i).
Definition write_entry (e : StreamId * list (Bytes * Bytes)) : Bytes := write_id e.1 ++ write_seq write_pair e.2.
Definition write_pending (p : PendingEntry) : Bytes :=
  write_id (pe_id p) ++ write_bytes (pe_consumer p) ++ write_u64 (delivery_time_ms p) ++ write_u64 (delivery_count p).
Definition write_consumer (c : Consumer) : Bytes :=
  write_bytes (c_name c) ++ write_u64 (seen_time_ms c) ++ write_u32 (Z.of_nat (c_pending c)).
Definition write_group (g : GroupSnapshot) : Bytes :=
  write_bytes (gs_name g) ++ write_id (gs_last_delivered_id g) ++ write_seq write_pending (gs_pending g) ++
  write_seq write_consumer (gs_consumers g).
Definition encode_stream (s : StreamStateSnapshot) : Bytes :=
  write_id (ss_last_generated_id s) ++ write_seq write_entry (ss_entries s) ++ write_seq write_group (ss_groups s).

Definition encode_kdf1 (p : KeyPayload) : Bytes :=
  KDF_MAGIC ++
  match p with
  | PString value flags _ => byte_of_Z 1 :: write_u32 flags ++ write_bytes value
  | PHash fields _ => byte_of_Z 2 :: write_seq write_pair fields
  | PList elements _ => byte_of_Z 3 :: write_seq write_bytes elements
  | PSet members _ => byte_of_Z 4 :: write_seq write_bytes members
  | PZSet members _ => byte_of_Z 5 :: write_seq (λ ms, write_bytes ms.1 ++ write_f64 ms.2) members
  | PGeo members _ => byte_of_Z 6 :: write_seq (λ m, write_bytes m.1.1 ++ write_f64 m.1.2 ++ write_f64 m.2) members
  | PStream state _ => byte_of_Z 7 :: encode_stream state
  end.

(** *** Reading KDF1

    [u32] counts times element sizes stay below [isize::MAX], so no allocation panics. *)

Definition rd_u32 : Rd Z := b ← rd_raw 4; mret (from_le b).
Definition rd_u64 : Rd Z := b ← rd_raw 8; mret (from_le b).
Definition rd_bytes : Rd Bytes := n ← rd_u32; rd_raw n.

Definition rd_seq32 {A} (m : Rd A) : Rd (list A) := n ← rd_u32; rd_many (Z.to_nat n) m.

Definition rd_pair : Rd (Bytes * Bytes) := k ← rd_bytes; v ← rd_bytes; mret (k, v).
Definition rd_id : Rd StreamId := m ← rd_u64; s ← rd_u64; mret (mkStreamId m s).
Definition rd_entry : Rd (StreamId * list (Bytes * Bytes)) := id ← rd_id; fields ← rd_seq32 rd_pair; mret (id, fields).
Definition rd_pending : Rd PendingEntry :=
  id ← rd_id; consumer ← rd_bytes; time ← rd_u64; count ← rd_u64; mret (mkPendingEntry id consumer time count).
Definition rd_consumer : Rd Consumer :=
  name ← rd_bytes; seen ← rd_u64; n ← rd_u32; mret (mkConsumer name seen (Z.to_nat n)).
Definition rd_group : Rd GroupSnapshot :=
  name ← rd_bytes; id ← rd_id; pending ← rd_seq32 rd_pending; consumers ← rd_seq32 rd_consumer;
  mret (mkGroupSnapshot name id pending consumers).

Definition decode_stream : Rd StreamStateSnapshot :=
  id ← rd_id; entries ← rd_seq32 rd_entry; groups ← rd_seq32 rd_group; mret (mkSnapshot id entries groups).

Definition kdf_body (ty : Z) : Rd KeyPayload :=
  if ty =? 1 then flags ← rd_u32; value ← rd_bytes; mret (PString value flags (-1))
  else if ty =? 2 then (λ l, PHash l (-1)) <$> rd_seq32 rd_pair
  else if ty =? 3 then (λ l, PList l (-1)) <$> rd_seq32 rd_bytes
  else if ty =? 4 then (λ l, PSet l (-1)) <$> rd_seq32 rd_bytes
  else if ty =? 5 then (λ l, PZSet l (-1)) <$> rd_seq32 (m ← rd_bytes; sc ← rd_f64; mret (m, sc))
  else if ty =? 6 then (λ l, PGeo l (-1)) <$> rd_seq32 (m ← rd_bytes; lon ← rd_f64; lat ← rd_f64; mret (m, lon, lat))
  else if ty =? 7 then (λ s, PStream s (-1)) <$> decode_stream
  else rd_fail.

Definition decode_kdf1 (data : Bytes) : exec (result Str KeyPayload) :=
  if (zlen data <? 5) || negb (bool_decide (take 4 data = KDF_MAGIC)) then Ret (Err ERR) else
  match (ty ← rd_u8; kdf_body ty) (drop 4 data) with
  | Ret (Ok (p, rest)) => Ret (if decide (rest = []) then Ok p else Err ERR)
  | Ret (Err e) => Ret (Err e)
  | Panic => Panic
  end.

(** ** RESTORE *)

Definition payload_of (obj : RdbObject) : KeyPayload :=
  match obj with
  | RString value => PString value 0 (-1)
  | RList l => PList l (-1)
  | RSet l => PSet l (-1)
  | RHash l => PHash l (-1)
  | RZSet l => PZSet l (-1)
  | RStream s => PStream s (-1)
  end.

Section restore.
Context (bytes_size : Z).

Definition decode_redis_wire (data : Bytes) : exec (result Str KeyPayload) :=
  match decode_redis_dump bytes_size data with
  | Ret (Ok obj) => Ret (Ok (payload_of obj))
  | Ret (Err e) => Ret (Err e)
  | Panic => Panic
  end.

Definition decode_dump (data : Bytes) : exec (result Str KeyPayload) :=
  if (4 <=? zlen data) && bool_decide (take 4 data = KDF_MAGIC) then decode_kdf1 data else decode_redis_wire data.
End restore.

(** [with_restore_ttl]: [now] is the wall clock in milliseconds. *)
Definition with_restore_ttl (now : Z) (p : KeyPayload) (ttl_arg : Z) (absttl : bool) : KeyPayload :=
  set_pttl p
    (if ttl_arg <=? 0 then -1
     else if absttl then (if ttl_arg <=? now then 0 else ttl_arg - now)
     else ttl_arg).
