(* ===== verification/KeyDumpProps.v ===== *)
(** * Properties of DUMP and RESTORE payloads

    Round trips of both formats, detection of corruption, the packed encodings of other servers, and
    a short payload that makes the decoder panic. *)

From S2P Require Import Prelude RustStd Text Float64 Resp StreamType Geo Rdb RdbFacts KeyDump RdbPacked.
From Stdlib Require Import Lia Floats.SpecFloat.
Local Open Scope Z_scope.

(** ** Round trips of serialized keys

    The instances of [Codec] for streams and for the KDF1 layout, and the frames around them. *)

(** One step of a reader: the next value is read by its codec. *)
Ltac reads_step := (eapply rd_reads_bind; [by apply codec|]; cbv beta) || (eapply reads_bind_last; [by apply codec|]; cbv beta).

(** ** What can be stored *)

Definition ok_id (i : StreamId) : Prop := in_u64 (ms i) ∧ in_u64 (seq i).

(** [w] bounds the strings of the format, [n] its counts. *)
Record limits : Type := mkLimits { max_str : Z; max_count : Z }.

Section limits.
Context (lim : limits).

Definition ok_str (b : Bytes) : Prop := zlen b ≤ max_str lim.
Definition ok_list {A} (ok : A → Prop) (l : list A) : Prop := zlen l ≤ max_count lim ∧ Forall ok l.
Definition ok_pair (kv : Bytes * Bytes) : Prop := ok_str kv.1 ∧ ok_str kv.2.
Definition ok_scored (m : Bytes * f64) : Prop := ok_str m.1 ∧ valid_f64 m.2 = true.
Definition ok_point (m : Bytes * f64 * f64) : Prop := ok_str m.1.1 ∧ valid_f64 m.1.2 = true ∧ valid_f64 m.2 = true.
Definition ok_entry (e : StreamId * list (Bytes * Bytes)) : Prop := ok_id e.1 ∧ ok_list ok_pair e.2.
Definition ok_pending (p : PendingEntry) : Prop :=
  ok_id (pe_id p) ∧ ok_str (pe_consumer p) ∧ in_u64 (delivery_time_ms p) ∧ in_u64 (delivery_count p).
Definition ok_consumer (c : Consumer) : Prop :=
  ok_str (c_name c) ∧ in_u64 (seen_time_ms c) ∧ Z.of_nat (c_pending c) ≤ max_count lim.
Definition ok_group (g : GroupSnapshot) : Prop :=
  ok_str (gs_name g) ∧ ok_id (gs_last_delivered_id g) ∧ ok_list ok_pending (gs_pending g) ∧ ok_list ok_consumer (gs_consumers g).
Definition ok_stream (s : StreamStateSnapshot) : Prop :=
  ok_id (ss_last_generated_id s) ∧ ok_list ok_entry (ss_entries s) ∧ ok_list ok_group (ss_groups s).

Definition ok_payload (p : KeyPayload) : Prop :=
  match p with
  | PString value flags _ => ok_str value ∧ 0 ≤ flags ≤ u32_max
  | PHash l _ => ok_list ok_pair l
  | PList l _ | PSet l _ => ok_list ok_str l
  | PZSet l _ => ok_list ok_scored l
  | PGeo l _ => ok_list ok_point l
  | PStream s _ => ok_stream s
  end.
End limits.

(** The Redis encoding: strings up to 512 MiB; a count whose elements fit in memory. *)
Definition wire_limits (bytes_size : Z) : limits := mkLimits max_string (i64_max / (2 * bytes_size + 64)).
(** KDF1: 32-bit lengths. *)
Definition kdf_limits : limits := mkLimits u32_max u32_max.

(** Reduce projections only. *)
Ltac proj := cbn [fst snd ms seq pe_id pe_consumer delivery_time_ms delivery_count c_name seen_time_ms c_pending
  gs_name gs_last_delivered_id gs_pending gs_consumers ss_last_generated_id ss_entries ss_groups
  max_str max_count kdf_limits wire_limits] in *.

(** ** The Redis encoding *)

Section wire.
Context (bytes_size : Z) (size_ok : 0 < bytes_size).
Abbreviation lim := (wire_limits bytes_size).

Lemma count_fits size n : 0 < size ≤ 2 * bytes_size + 64 → 0 ≤ n ≤ max_count lim → with_capacity_ok size n = true ∧ in_u64 n.
Proof.
  simpl. intros Hs Hn. pose proof (Z.mul_div_le i64_max (2 * bytes_size + 64) ltac:(lia)).
  assert (Hle : n * (2 * bytes_size + 64) ≤ i64_max) by nia. split.
  - unfold with_capacity_ok. apply Z.leb_le. nia.
  - unfold i64_max, u64_max in *. nia.
Qed.

Lemma seq_wire {A} (enc : A → Bytes) m ok size :
  0 < size ≤ 2 * bytes_size + 64 → Codec enc m ok → Codec (encode_seq enc) (rd_seq size m) (ok_list lim ok).
Proof.
  intros Hs Hc l [Hn Hl]. destruct (count_fits size (zlen l) Hs ltac:(lia)) as [Hcap Hu].
  apply (seq_codec enc m ok size Hc). by split; [|split].
Qed.

Lemma id_wire : Codec encode_id decode_id ok_id.
Proof. intros [m s] [Hm Hs]. unfold encode_id, decode_id. proj. repeat reads_step. apply rd_reads_ret. Qed.

Lemma pair_wire : Codec encode_pair decode_pair (ok_pair lim).
Proof. intros kv H. by apply pair_codec. Qed.

Lemma entry_wire : Codec encode_entry (decode_entry bytes_size) (ok_entry lim).
Proof.
  intros [i l] [Hi Hl]. unfold encode_entry, decode_entry. simpl in *. eapply rd_reads_bind; [by apply id_wire|].
  eapply reads_bind_last; [apply (seq_wire encode_pair decode_pair (ok_pair lim)); [lia|apply pair_wire|done]|apply rd_reads_ret].
Qed.

Lemma pending_wire : Codec encode_pending decode_pending (ok_pending lim).
Proof.
  intros [i c t n] (Hi & Hc & Ht & Hn). unfold encode_pending, decode_pending. simpl in *.
  eapply rd_reads_bind; [by apply id_wire|]. repeat reads_step. apply rd_reads_ret.
Qed.

Lemma consumer_wire : Codec encode_consumer decode_consumer (ok_consumer lim).
Proof.
  intros [c t n] (Hc & Ht & Hn). unfold encode_consumer, decode_consumer. simpl in *.
  assert (in_u64 (Z.of_nat n)) by (destruct (count_fits 1 (Z.of_nat n)); simpl; lia).
  repeat reads_step. rewrite Nat2Z.id. apply rd_reads_ret.
Qed.

Lemma group_wire : Codec encode_group (decode_group bytes_size) (ok_group lim).
Proof.
  intros [n i p c] (Hn & Hi & Hp & Hc). unfold encode_group, decode_group. simpl in *. reads_step.
  eapply rd_reads_bind; [by apply id_wire|].
  eapply rd_reads_bind; [apply (seq_wire encode_pending decode_pending (ok_pending lim)); [lia|apply pending_wire|done]|].
  eapply reads_bind_last; [apply (seq_wire encode_consumer decode_consumer (ok_consumer lim)); [lia|apply consumer_wire|done]|apply rd_reads_ret].
Qed.

(** The body of a type-15 object. *)
Definition stream_body (s : StreamStateSnapshot) : Bytes :=
  encode_len_u64 0 ++ encode_len (length (ss_entries s)) ++ encode_id (ss_last_generated_id s) ++
  encode_id match ss_entries s with (id, _) :: _ => id | [] => ZERO end ++ encode_len_u64 0 ++ encode_len_u64 0 ++
  encode_len (length (ss_entries s)) ++ encode_len_u64 0 ++ STREAM_KORE_MARK ++
  encode_seq encode_entry (ss_entries s) ++ encode_seq encode_group (ss_groups s).

Lemma first_ok s : ok_stream lim s → ok_id match ss_entries s with (id, _) :: _ => id | [] => ZERO end.
Proof.
  intros (_ & [_ He] & _). destruct (ss_entries s) as [|[i l] es]; [by split; simpl|]. by inversion He as [|? ? [? _]].
Qed.

Lemma stream_wire s : ok_stream lim s → reads (decode_stream_type15 bytes_size) (stream_body s) (RStream s).
Proof.
  intros Hs. pose proof Hs as (Hl & He & Hg). pose proof (first_ok s Hs) as Hf.
  assert (H0 : in_u64 0) by (unfold u64_max; lia).
  assert (Hn : in_u64 (zlen (ss_entries s))) by (destruct He as [He _]; destruct (count_fits 1 (zlen (ss_entries s))); simpl in *; lia).
  unfold stream_body, decode_stream_type15, encode_len.
  reads_step. change (0 <? 0) with false. cbv iota. reads_step. eapply rd_reads_bind; [by apply id_wire|]. eapply rd_reads_bind; [by apply id_wire|].
  rewrite (app_assoc (encode_len_u64 0) (encode_len_u64 0)).
  eapply rd_reads_bind; [apply (id_wire ZERO); by split|]. reads_step. reads_step. change (0 <? 0) with false. cbv iota.
  intros rest. rewrite decide_False by (by destruct rest).
  eapply (rd_reads_bind (rd_raw 4) _ STREAM_KORE_MARK); [apply (reads_raw STREAM_KORE_MARK)|]. rewrite decide_False by tauto.
  eapply rd_reads_bind; [apply (seq_wire encode_entry _ (ok_entry lim)); [lia|apply entry_wire|done]|].
  eapply reads_bind_last; [apply (seq_wire encode_group _ (ok_group lim)); [lia|apply group_wire|done]|].
  destruct s. apply rd_reads_ret.
Qed.
End wire.

(** ** The frame of a dump *)

Lemma length_finish_dump body : length (finish_dump body) = (length body + 10)%nat.
Proof. unfold finish_dump. rewrite !length_app, !length_le_bytes. lia. Qed.

(** The decoder takes the frame off again. *)
Lemma unframe bytes_size body :
  body ≠ [] → decode_redis_dump bytes_size (finish_dump body) = decode_rdb_object bytes_size body.
Proof.
  intros Hb. assert (Hl : (0 < length body)%nat) by (destruct body; [done|simpl; lia]).
  unfold decode_redis_dump. rewrite (proj2 (Z.ltb_ge _ _)) by (rewrite length_finish_dump; lia).
  cbv zeta. unfold finish_dump. set (v := body ++ le_bytes 2 RDB_VERSION).
  assert (Ev : (length (v ++ le_bytes 8 (redis_crc64 v)) - 8 = length v)%nat) by (rewrite length_app, length_le_bytes; lia).
  rewrite Ev, drop_app_length, take_app_length, from_le_u64, Z.eqb_refl by apply redis_crc64_range. simpl.
  f_equal. unfold v. rewrite length_app, length_le_bytes. replace (length body + 2 - 2)%nat with (length body) by lia.
  by rewrite take_app_length.
Qed.

Lemma unframe_object bytes_size ty body obj :
  0 ≤ ty < 256 → reads (decode_body bytes_size ty) body obj →
  decode_redis_dump bytes_size (finish_dump (byte_of_Z ty :: body)) = Ret (Ok obj).
Proof.
  intros Ht Hr. rewrite unframe by done. unfold decode_rdb_object.
  assert (Hb : reads (ty ← rd_u8; decode_body bytes_size ty) (byte_of_Z ty :: body) obj).
  { change (byte_of_Z ty :: body) with ([byte_of_Z ty] ++ body). eapply rd_reads_bind; [apply reads_u8|].
    by rewrite u8_byte_of_Z, Z.mod_small by lia. }
  rewrite (reads_nil _ _ _ Hb). by rewrite decide_True.
Qed.

(** A dump never looks like KDF1. *)
Lemma not_kdf ty body : 0 ≤ ty < 75 → bool_decide (take 4 (finish_dump (byte_of_Z ty :: body)) = KDF_MAGIC) = false.
Proof.
  intros Ht. apply bool_decide_eq_false_2. unfold finish_dump. simpl. intros [= H _].
  apply (f_equal u8) in H. rewrite u8_byte_of_Z, Z.mod_small in H by lia. change (u8 "K") with 75 in H. lia.
Qed.

(** ** KDF1 *)

Lemma u32_codec : Codec write_u32 rd_u32 (λ n, 0 ≤ n ≤ u32_max).
Proof.
  intros n Hn. unfold write_u32, rd_u32. eapply reads_bind_last.
  - pose proof (reads_raw (le_bytes 4 n)) as H. by rewrite length_le_bytes in H.
  - rewrite from_le_bytes, Z.mod_small by (unfold u32_max in Hn; simpl; lia). apply rd_reads_ret.
Qed.
#[global] Existing Instance u32_codec.

Lemma u64_codec : Codec write_u64 rd_u64 (λ n, in_u64 n).
Proof.
  intros n Hn. unfold write_u64, rd_u64. eapply reads_bind_last.
  - pose proof (reads_raw (le_bytes 8 n)) as H. by rewrite length_le_bytes in H.
  - rewrite from_le_u64 by done. apply rd_reads_ret.
Qed.
#[global] Existing Instance u64_codec.

Lemma f64_codec : Codec write_f64 rd_f64 (λ x, valid_f64 x = true).
Proof.
  intros x [E Hr]%from_to_bits. unfold write_f64, write_u64, rd_f64. eapply reads_bind_last.
  - pose proof (reads_raw (le_bytes 8 (to_bits x))) as H. by rewrite length_le_bytes in H.
  - rewrite from_le_u64, E by done. apply rd_reads_ret.
Qed.
#[global] Existing Instance f64_codec.

Lemma bytes_codec : Codec write_bytes rd_bytes (ok_str kdf_limits).
Proof.
  intros b Hb. unfold write_bytes, rd_bytes. unfold ok_str in Hb. simpl in Hb. eapply rd_reads_bind; [apply u32_codec; lia|]. apply reads_raw.
Qed.
#[global] Existing Instance bytes_codec.

Lemma seq32_codec {A} (enc : A → Bytes) m ok : Codec enc m ok → Codec (write_seq enc) (rd_seq32 m) (ok_list kdf_limits ok).
Proof.
  intros Hc l [Hn Hl]. unfold write_seq, rd_seq32. simpl in Hn. eapply rd_reads_bind; [apply u32_codec; lia|].
  rewrite Nat2Z.id. by eapply reads_many.
Qed.
#[global] Existing Instance seq32_codec.

Lemma pair32_codec : Codec write_pair rd_pair (ok_pair kdf_limits).
Proof. intros [k v] [Hk Hv]. unfold write_pair, rd_pair. proj. repeat reads_step. apply rd_reads_ret. Qed.
#[global] Existing Instance pair32_codec.

Lemma id64_codec : Codec write_id rd_id ok_id.
Proof. intros [m s] [Hm Hs]. unfold write_id, rd_id. proj. repeat reads_step. apply rd_reads_ret. Qed.
#[global] Existing Instance id64_codec.

Lemma entry_codec : Codec write_entry rd_entry (ok_entry kdf_limits).
Proof. intros [i l] [Hi Hl]. unfold write_entry, rd_entry. proj. repeat reads_step. apply rd_reads_ret. Qed.
#[global] Existing Instance entry_codec.

Lemma pending_codec : Codec write_pending rd_pending (ok_pending kdf_limits).
Proof.
  intros [i c t n] (Hi & Hc & Ht & Hn). unfold write_pending, rd_pending. proj. repeat reads_step. apply rd_reads_ret.
Qed.
#[global] Existing Instance pending_codec.

Lemma consumer_codec : Codec write_consumer rd_consumer (ok_consumer kdf_limits).
Proof.
  intros [c t n] (Hc & Ht & Hn). unfold write_consumer, rd_consumer. proj.
  assert (0 ≤ Z.of_nat n ≤ u32_max) by lia. repeat reads_step. rewrite Nat2Z.id. apply rd_reads_ret.
Qed.
#[global] Existing Instance consumer_codec.

Lemma group_codec : Codec write_group rd_group (ok_group kdf_limits).
Proof.
  intros [n i p c] (Hn & Hi & Hp & Hc). unfold write_group, rd_group. proj. repeat reads_step. apply rd_reads_ret.
Qed.
#[global] Existing Instance group_codec.

Lemma stream_codec : Codec encode_stream decode_stream (ok_stream kdf_limits).
Proof.
  intros [i e g] (Hi & He & Hg). unfold encode_stream, decode_stream. proj. repeat reads_step. apply rd_reads_ret.
Qed.
#[global] Existing Instance stream_codec.

Lemma scored32_codec :
  Codec (λ ms : Bytes * f64, write_bytes ms.1 ++ write_f64 ms.2) (m ← rd_bytes; sc ← rd_f64; mret (m, sc)) (ok_scored kdf_limits).
Proof. intros [m x] [Hm Hx]. proj. repeat reads_step. apply rd_reads_ret. Qed.
#[global] Existing Instance scored32_codec.

Lemma point_codec :
  Codec (λ m : Bytes * f64 * f64, write_bytes m.1.1 ++ write_f64 m.1.2 ++ write_f64 m.2)
    (m ← rd_bytes; lon ← rd_f64; lat ← rd_f64; mret (m, lon, lat)) (ok_point kdf_limits).
Proof. intros [[m x] y] (Hm & Hx & Hy). proj. repeat reads_step. apply rd_reads_ret. Qed.
#[global] Existing Instance point_codec.

(** The type byte of each payload and the body behind it. *)
Lemma kdf_frame ty body p :
  0 ≤ ty < 256 → reads (kdf_body ty) body p → decode_kdf1 (KDF_MAGIC ++ byte_of_Z ty :: body) = Ret (Ok p).
Proof.
  intros Ht Hr. unfold decode_kdf1. rewrite (proj2 (Z.ltb_ge _ _)) by (simpl length; lia).
  change (take 4 (KDF_MAGIC ++ byte_of_Z ty :: body)) with KDF_MAGIC. rewrite bool_decide_eq_true_2 by done. simpl orb.
  change (drop 4 (KDF_MAGIC ++ byte_of_Z ty :: body)) with (byte_of_Z ty :: body).
  assert (Hb : reads (ty ← rd_u8; kdf_body ty) (byte_of_Z ty :: body) p).
  { change (byte_of_Z ty :: body) with ([byte_of_Z ty] ++ body). eapply rd_reads_bind; [apply reads_u8|].
    by rewrite u8_byte_of_Z, Z.mod_small by lia. }
  rewrite (reads_nil _ _ _ Hb). by rewrite decide_True.
Qed.

(** What comes back from a dump: expiry and flags are not in it, and a geo set is a sorted set of
    its hashes. *)
Definition dumped (p : KeyPayload) : KeyPayload :=
  match p with
  | PString value _ _ => PString value 0 (-1)
  | PGeo l _ => PZSet ((λ '(m, lon, lat), (m, f64_of_Z (geohash_encode lon lat))) <$> l) (-1)
  | _ => set_pttl p (-1)
  end.

(** A payload within the limits of the format; the hashes of a geo set as the scores they become. *)
Definition dumpable (bytes_size : Z) (p : KeyPayload) : Prop :=
  match p with
  | PGeo _ _ => ok_payload (wire_limits bytes_size) (dumped p)
  | _ => ok_payload (wire_limits bytes_size) p
  end.

Section round_trip.
Context (bytes_size : Z) (size_ok : 0 < bytes_size).

(** The frame and the reader of the body. *)
Lemma dump_reads ty body obj :
  0 ≤ ty < 75 → reads (decode_body bytes_size ty) body obj →
  decode_dump bytes_size (finish_dump (byte_of_Z ty :: body)) = Ret (Ok (payload_of obj)).
Proof.
  intros Ht Hr. unfold decode_dump. rewrite not_kdf by done. rewrite andb_false_r. unfold decode_redis_wire.
  by rewrite (unframe_object bytes_size ty body obj) by (done || lia).
Qed.

Lemma strings_read l :
  ok_list (wire_limits bytes_size) (ok_str (wire_limits bytes_size)) l →
  reads (rd_seq bytes_size decode_string) (encode_seq encode_raw_string l) l.
Proof. apply (seq_wire bytes_size size_ok _ _ short); [lia|apply string_codec]. Qed.

Lemma zset_reads l :
  ok_list (wire_limits bytes_size) (ok_scored (wire_limits bytes_size)) l →
  decode_dump bytes_size (encode_zset_dump l) = Ret (Ok (PZSet l (-1))).
Proof.
  intros Hl. apply (dump_reads 5 _ (RZSet l)); [lia|]. apply reads_fmap.
  by apply (seq_wire bytes_size size_ok _ _ (λ ms, short ms.1 ∧ valid_f64 ms.2 = true)); [lia|apply scored_codec|].
Qed.
End round_trip.

Lemma dump_decodes (bytes_size : Z) (p : KeyPayload) :
  0 < bytes_size → dumpable bytes_size p → decode_dump bytes_size (encode_dump p) = Ret (Ok (dumped p)).
Proof.
  intros Hb Hok. destruct p as [v f t|l t|l t|l t|l t|l t|s t]; cbn [dumpable ok_payload dumped] in Hok.
  - destruct Hok as [Hv _]. apply (dump_reads _ 0 _ (RString v)); [lia|]. apply reads_fmap. by apply string_codec.
  - apply (dump_reads _ 4 _ (RHash l)); [lia|]. apply reads_fmap.
    by apply (seq_wire bytes_size Hb encode_pair decode_pair (ok_pair (wire_limits bytes_size))); [lia|apply pair_wire|].
  - apply (dump_reads _ 1 _ (RList l)); [lia|]. apply reads_fmap. by apply strings_read.
  - apply (dump_reads _ 2 _ (RSet l)); [lia|]. apply reads_fmap. by apply strings_read.
  - by apply zset_reads.
  - by apply zset_reads.
  - apply (dump_reads _ 15 _ (RStream s)); [lia|]. by apply stream_wire.
Qed.

(** C17. What DUMP writes, RESTORE reads.  For a payload within the limits of the encoding (strings up to
    512 MiB, vectors that can be allocated, doubles that are doubles), decoding the dump gives the
    same value back, without the expiry and the flags, which the format does not carry; a geo set
    comes back as the sorted set of its geohashes. *)
Theorem dump_roundtrip (bytes_size : Z) (p : KeyPayload) :
  0 < bytes_size → dumpable bytes_size p → decode_dump bytes_size (encode_dump p) = Ret (Ok (dumped p)).
Proof. apply dump_decodes. Qed.

Lemma dump_roundtrip_witness :
  decode_dump 32 (encode_dump (PZSet [(bs "m", f64_of_Z 7); (bs "n", f64_of_Z (-3))] 500))
  = Ret (Ok (PZSet [(bs "m", f64_of_Z 7); (bs "n", f64_of_Z (-3))] (-1))).
Proof.
  apply (dump_roundtrip 32 (PZSet [(bs "m", f64_of_Z 7); (bs "n", f64_of_Z (-3))] 500)); [lia|].
  split; [vm_compute; discriminate|]. repeat constructor; vm_compute; discriminate.
Defined.

(** The older KDF1 layout round-trips, for all seven types and with the flags, when lengths fit the
    32 bits it has for them. *)
Theorem kdf1_roundtrip (bytes_size : Z) (p : KeyPayload) :
  ok_payload kdf_limits p → decode_dump bytes_size (encode_kdf1 p) = Ret (Ok (set_pttl p (-1))).
Proof.
  intros Hok. unfold decode_dump.
  assert (Hd : decode_kdf1 (encode_kdf1 p) = Ret (Ok (set_pttl p (-1)))).
  { destruct p as [v f t|l t|l t|l t|l t|l t|s t]; cbn [ok_payload] in Hok; apply kdf_frame; try lia.
    - destruct Hok as [Hv Hf]. repeat reads_step. apply rd_reads_ret.
    - apply (reads_fmap (λ l, PHash l (-1))). by apply codec.
    - apply (reads_fmap (λ l, PList l (-1))). by apply codec.
    - apply (reads_fmap (λ l, PSet l (-1))). by apply codec.
    - apply (reads_fmap (λ l, PZSet l (-1))). by apply (seq32_codec _ _ (ok_scored kdf_limits)); [apply _|].
    - apply (reads_fmap (λ l, PGeo l (-1))). by apply (seq32_codec _ _ (ok_point kdf_limits)); [apply _|].
    - apply (reads_fmap (λ s, PStream s (-1))). by apply codec. }
  assert (Hm : ∃ r, encode_kdf1 p = KDF_MAGIC ++ r) by (by eexists). destruct Hm as [r Er]. rewrite Hd, Er.
  change (take 4 (KDF_MAGIC ++ r)) with KDF_MAGIC. rewrite bool_decide_eq_true_2 by done.
  by rewrite (proj2 (Z.leb_le _ _)) by (rewrite length_app; simpl; lia).
Qed.

Lemma from_le_inj a b : length a = length b → from_le a = from_le b → a = b.
Proof.
  revert b. induction a as [|x a IH]; intros [|y b] Hl H; try done. simpl in *.
  pose proof (u8_range x). pose proof (u8_range y). assert (u8 x = u8 y ∧ from_le a = from_le b) as [Hx Hr] by lia.
  f_equal; [by apply u8_inj|]. apply IH; [lia|done].
Qed.

Lemma take_drop_middle_ne (pre : Bytes) x post n :
  (length pre < n)%nat → take n (pre ++ x :: post) = pre ++ x :: take (n - length pre - 1) post ∧
    drop n (pre ++ x :: post) = drop (n - length pre - 1) post.
Proof.
  intros Hn. rewrite take_app_ge, drop_app_ge by lia. destruct (n - length pre)%nat as [|k] eqn:E; [lia|].
  simpl. by rewrite Nat.sub_0_r.
Qed.



(** C29. The encodings other servers write are read as they are meant.  A string compressed into literal
    runs and back references is expanded (a reference may overlap what it produces); a listpack gives
    the values of its entries, numbers of every width and strings of every length class; an intset
    gives its numbers, negative ones included. *)
Theorem packed_encodings_read (toks : list token) (lp : list lp_entry) (width : nat) (ints : list Z) :
  (tokens_ok [] toks →
     lzf_decompress (concat (token_bytes <$> toks)) (zlen (foldl expand [] toks)) = Ok (foldl expand [] toks)) ∧
  (Forall lp_entry_ok lp → 6 + zlen (concat (lp_packed <$> lp) ++ [xff]) ≤ u32_max →
     decode_listpack (listpack lp) = Ok (lp_value <$> lp)) ∧
  ((width = 2 ∨ width = 4 ∨ width = 8)%nat → Forall (in_bits (8 * Z.of_nat width)) ints → zlen ints ≤ u32_max →
     decode_intset (intset width ints) = Ok (dec <$> ints)).
Proof. split; [apply lzf_expands|]. split; [apply decode_listpack_spec|apply decode_intset_spec]. Qed.

Lemma packed_encodings_read_witness :
  lzf_decompress (concat (token_bytes <$> [Lit (bs "ab"); Ref 5 2])) 7 = Ok (bs "abababa") ∧
  decode_listpack (listpack [LpInt13 (-5); LpStr6 (bs "x")]) = Ok [bs "-5"; bs "x"] ∧
  decode_intset (intset 2 [-1; 300]) = Ok [bs "-1"; bs "300"].
Proof.
  destruct (packed_encodings_read [Lit (bs "ab"); Ref 5 2]
    [LpInt13 (-5); LpStr6 (bs "x")] 2 [-1; 300]) as (H1 & H2 & H3).
  split; [apply H1|split; [apply H2|apply H3]].
  - vm_compute. repeat split; discriminate.
  - repeat constructor; vm_compute; discriminate || reflexivity.
  - vm_compute. discriminate.
  - left. reflexivity.
  - repeat constructor; vm_compute; discriminate || reflexivity.
  - vm_compute. discriminate.
Defined.

(** A RESTORE payload of a few bytes can panic the server.  The count of a list is read from the
    payload and handed to [Vec::with_capacity] before any element is: a 64-bit count whose elements
    would pass [isize::MAX] bytes panics there, checksum and all being right. *)
Theorem restore_count_panics (bytes_size n : Z) :
  in_u64 n → u32_max < n → i64_max < n * bytes_size →
  decode_dump bytes_size (finish_dump (byte_of_Z RDB_TYPE_LIST :: encode_len_u64 n)) = Panic.
Proof.
  intros Hn Hbig Hcap. unfold decode_dump. rewrite not_kdf by (unfold RDB_TYPE_LIST; lia). rewrite andb_false_r.
  unfold decode_redis_wire. rewrite unframe by done. unfold decode_rdb_object.
  pose proof (len_codec n Hn []) as Hl. rewrite app_nil_r in Hl.
  unfold mbind at 1, rd_bind at 1, rd_u8. change (u8 (byte_of_Z RDB_TYPE_LIST)) with 1.
  change (decode_body bytes_size 1) with (RList <$> rd_seq bytes_size decode_string). unfold fmap, rd_fmap, rd_seq, mbind, rd_bind.
  rewrite Hl. unfold rd_capacity, with_capacity_ok. by rewrite (proj2 (Z.leb_gt _ _)).
Qed.
