(* ===== verification/Memory.v ===== *)
(** * Memory accounting ([src/memory.rs])

    Size estimates and the tracker of memory per category with its running
    total.  [usize] is 64 bits wide: [fetch_add] wraps, the estimates saturate where
    the code does and wrap elsewhere.  [utilization], a percentage for display, is
    not modelled. *)

From S2P Require Import Prelude.
From Stdlib Require Import Lia SpecFloat.
Local Open Scope Z_scope.

Abbreviation usize_max := u64_max (only parsing).

(** ** Size estimates *)

Definition BYTES_OVERHEAD : Z := 24.
Definition DICT_ENTRY_OVERHEAD : Z := 32.

(** [n.saturating_add(7) & !7] *)
Definition align_up_8 (n : Z) : Z := Z.ldiff (sat_add_u64 n 7) 7.

Definition with_alloc_overhead (raw : Z) : Z :=
  if raw =? 0 then 0 else align_up_8 (sat_add_u64 raw (wrap_u64 (raw + 7) / 8)).

Definition estimate_string_entry (key_len value_len entry_struct_size : Z) : Z :=
  with_alloc_overhead
    (wrap_u64 (key_len + value_len + entry_struct_size + BYTES_OVERHEAD * 2 + DICT_ENTRY_OVERHEAD)).

Definition logical_string_entry (key_len value_len entry_struct_size : Z) : Z :=
  wrap_u64 (key_len + value_len + entry_struct_size).

Definition estimate_typed_key_base (key_len empty_struct_size : Z) : Z :=
  with_alloc_overhead (wrap_u64 (key_len + BYTES_OVERHEAD + DICT_ENTRY_OVERHEAD + empty_struct_size)).

Definition estimate_hash_field (field_len value_len : Z) : Z :=
  with_alloc_overhead (wrap_u64 (field_len + value_len + BYTES_OVERHEAD * 2 + DICT_ENTRY_OVERHEAD)).

Definition estimate_list_element (elem_len : Z) : Z :=
  with_alloc_overhead (wrap_u64 (elem_len + BYTES_OVERHEAD + 16)).

Definition estimate_set_member (member_len : Z) : Z :=
  with_alloc_overhead (wrap_u64 (member_len + BYTES_OVERHEAD + DICT_ENTRY_OVERHEAD)).

Definition estimate_zset_member (member_len skip_node_size : Z) : Z :=
  with_alloc_overhead
    (wrap_u64 (member_len + BYTES_OVERHEAD + DICT_ENTRY_OVERHEAD + skip_node_size + 8)).

Definition estimate_keyed_object (key_len content_size : Z) : Z :=
  sat_add_u64 (with_alloc_overhead (wrap_u64 (key_len + BYTES_OVERHEAD + DICT_ENTRY_OVERHEAD)))
    content_size.

(** ** The tracker *)

Inductive MemoryCategory : Type :=
| CatCache | CatPubSub | CatSortedSets | CatGeoSets | CatHashes | CatLists | CatSets | CatStreams
| CatSearch.

#[global] Instance MemoryCategory_eq_dec : EqDecision MemoryCategory.
Proof. solve_decision. Defined.

Record MemoryTracker : Type := mkTracker {
  counters : MemoryCategory → Z;
  total : Z;
  limit : Z;
  max_message_size : Z
}.

Definition tracker_new (max_memory max_message : Z) : MemoryTracker :=
  mkTracker (λ _, 0) 0 max_memory max_message.

Definition set_counter (c : MemoryCategory) (v : Z) (f : MemoryCategory → Z) : MemoryCategory → Z :=
  λ c', if decide (c' = c) then v else f c'.

Definition set_max_memory (self : MemoryTracker) (size : Z) : MemoryTracker :=
  mkTracker (counters self) (total self) size (max_message_size self).

Definition can_allocate (self : MemoryTracker) (size : Z) (c : MemoryCategory) : bool :=
  if bool_decide (c = CatPubSub) && (max_message_size self <? size) then false
  else if limit self =? 0 then true
  else wrap_u64 (total self + size) <=? limit self.

Definition account (self : MemoryTracker) (size : Z) (c : MemoryCategory) : MemoryTracker :=
  if size =? 0 then self else
  mkTracker (set_counter c (wrap_u64 (counters self c + size)) (counters self))
    (wrap_u64 (total self + size)) (limit self) (max_message_size self).

Definition allocate (self : MemoryTracker) (size : Z) (c : MemoryCategory) : MemoryTracker * bool :=
  if can_allocate self size c then (account self size c, true) else (self, false).

Definition deallocate (self : MemoryTracker) (size : Z) (c : MemoryCategory) : MemoryTracker :=
  if size =? 0 then self else
  let prev := counters self c in
  let actual := Z.min prev size in
  mkTracker (set_counter c (sat_sub_u64 prev size) (counters self))
    (if 0 <? actual then sat_sub_u64 (total self) actual else total self)
    (limit self) (max_message_size self).

Definition reset (self : MemoryTracker) : MemoryTracker :=
  mkTracker (λ _, 0) 0 (limit self) (max_message_size self).

(** Everything but Pub/Sub. *)
Definition KEYSPACE_CATEGORIES : list MemoryCategory :=
  [CatCache; CatSortedSets; CatGeoSets; CatHashes; CatLists; CatSets; CatStreams; CatSearch].

Definition take_keyspace_counts (self : MemoryTracker) : MemoryTracker * list (MemoryCategory * Z) :=
  let out := (λ c, (c, counters self c)) <$> KEYSPACE_CATEGORIES in
  let taken := foldl sat_add_u64 0 out.*2 in
  (mkTracker (λ c, if decide (c ∈ KEYSPACE_CATEGORIES) then 0 else counters self c)
     (if 0 <? taken then sat_sub_u64 (total self) taken else total self)
     (limit self) (max_message_size self), out).

(** The category tags of the argument are ignored: only the positions count. *)
Fixpoint install_from (cs : list MemoryCategory) (counts : list (MemoryCategory * Z))
    (f : MemoryCategory → Z) : MemoryCategory → Z :=
  match cs, counts with
  | c :: cs, (_, v) :: counts => install_from cs counts (set_counter c v f)
  | _, _ => f
  end.

Definition install_keyspace_counts (self : MemoryTracker) (counts : list (MemoryCategory * Z))
    : MemoryTracker :=
  let installed := foldl sat_add_u64 0 (take 8 counts.*2) in
  mkTracker (install_from KEYSPACE_CATEGORIES counts (counters self))
    (if 0 <? installed then wrap_u64 (total self + installed) else total self)
    (limit self) (max_message_size self).

Definition reset_category (self : MemoryTracker) (c : MemoryCategory) : MemoryTracker :=
  let prev := counters self c in
  mkTracker (set_counter c 0 (counters self))
    (if 0 <? prev then sat_sub_u64 (total self) prev else total self)
    (limit self) (max_message_size self).

Definition total_memory (self : MemoryTracker) : Z := total self.
Definition category_memory (self : MemoryTracker) (c : MemoryCategory) : Z := counters self c.

(** ** The running total *)

Definition all_categories : list MemoryCategory := CatPubSub :: KEYSPACE_CATEGORIES.

Definition sum_of (f : MemoryCategory → Z) (cs : list MemoryCategory) : Z := foldr (λ c s, f c + s) 0 cs.

(** Counters are not negative, and the total is their sum. *)
Record tracker_ok (t : MemoryTracker) : Prop := {
  tr_pos : ∀ c, 0 ≤ counters t c;
  tr_total : total t = sum_of (counters t) all_categories
}.

Lemma all_categories_NoDup : NoDup all_categories.
Proof. apply (bool_decide_unpack _). vm_compute. exact I. Qed.

Lemma elem_of_all_categories c : c ∈ all_categories.
Proof. destruct c; apply (bool_decide_unpack _); vm_compute; exact I. Qed.

Lemma sum_of_set c v f cs :
  NoDup cs → sum_of (set_counter c v f) cs = sum_of f cs + (if decide (c ∈ cs) then v - f c else 0).
Proof.
  induction 1 as [|x cs Hx Hnd IH]; [done|]. cbn [sum_of foldr]. fold (sum_of (set_counter c v f) cs).
  fold (sum_of f cs). rewrite IH. unfold set_counter at 1. destruct (decide (x = c)) as [->|Hne].
  - rewrite (decide_False (P := c ∈ cs)), decide_True by set_solver. lia.
  - destruct (decide (c ∈ cs)); [rewrite decide_True by set_solver|rewrite decide_False by set_solver]; lia.
Qed.

Lemma sum_of_pos f cs : (∀ c, 0 ≤ f c) → 0 ≤ sum_of f cs.
Proof. intros Hf. induction cs as [|c cs IH]; simpl; [done|]. specialize (Hf c). lia. Qed.

Lemma sum_of_ge f cs c : (∀ c, 0 ≤ f c) → c ∈ cs → f c ≤ sum_of f cs.
Proof.
  intros Hf. induction cs as [|x cs IH]; [by intros ?%not_elem_of_nil|].
  pose proof (sum_of_pos f cs Hf). pose proof (Hf x).
  intros [->|Hin]%elem_of_cons; simpl; [lia|]. specialize (IH Hin). lia.
Qed.

Lemma sum_of_ext f g cs : (∀ c, c ∈ cs → f c = g c) → sum_of f cs = sum_of g cs.
Proof.
  intros H. induction cs as [|c cs IH]; [done|]. simpl. rewrite H by left. rewrite IH; [done|].
  intros c' Hc. apply H. by right.
Qed.

Lemma sum_set_all c v f : sum_of (set_counter c v f) all_categories = sum_of f all_categories + (v - f c).
Proof.
  rewrite (sum_of_set c v f _ all_categories_NoDup), decide_True; [done|apply elem_of_all_categories].
Qed.

Lemma account_ok t size c :
  tracker_ok t → 0 ≤ size → total t + size ≤ u64_max →
  tracker_ok (account t size c) ∧ total (account t size c) = total t + size ∧
  (∀ c', counters (account t size c) c' = counters t c' + (if decide (c' = c) then size else 0)).
Proof.
  intros Hok Hs Hb. unfold account. destruct (Z.eqb_spec size 0) as [->|Hne].
  { split_and!; [done|lia|]. intros c'. case_decide; lia. }
  pose proof (tr_pos t Hok) as Hp. pose proof (sum_of_pos _ all_categories Hp) as Hs0.
  rewrite <- (tr_total t Hok) in Hs0.
  assert (Hc : counters t c ≤ total t).
  { rewrite (tr_total t Hok). apply sum_of_ge; [done|apply elem_of_all_categories]. }
  assert (E1 : wrap_u64 (counters t c + size) = counters t c + size).
  { unfold wrap_u64. apply Z.mod_small. specialize (Hp c). lia. }
  assert (E2 : wrap_u64 (total t + size) = total t + size) by (unfold wrap_u64; apply Z.mod_small; lia).
  rewrite E1, E2. split_and!; cbn [counters total]; [|done|].
  - split; cbn [counters total].
    + intros c'. unfold set_counter. specialize (Hp c). case_decide; [lia|apply Hok].
    + rewrite sum_set_all, (tr_total t Hok). lia.
  - intros c'. unfold set_counter. case_decide; [by subst|lia].
Qed.

Lemma deallocate_ok t size c :
  tracker_ok t → 0 ≤ size →
  let n := Z.min (counters t c) size in
  tracker_ok (deallocate t size c) ∧ total (deallocate t size c) = total t - n ∧
  (∀ c', counters (deallocate t size c) c' = counters t c' - (if decide (c' = c) then n else 0)).
Proof.
  intros Hok Hs n. pose proof (tr_pos t Hok) as Hp. unfold deallocate, n.
  destruct (Z.eqb_spec size 0) as [->|Hne].
  { pose proof (Hp c). split_and!; [done|lia|]. intros c'. case_decide; lia. }
  assert (Hc : counters t c ≤ total t).
  { rewrite (tr_total t Hok). apply sum_of_ge; [done|apply elem_of_all_categories]. }
  assert (E : (if 0 <? Z.min (counters t c) size then sat_sub_u64 (total t) (Z.min (counters t c) size)
               else total t) = total t - Z.min (counters t c) size).
  { unfold sat_sub_u64. specialize (Hp c). destruct (Z.ltb_spec 0 (Z.min (counters t c) size)); lia. }
  rewrite E. unfold sat_sub_u64. split_and!; cbn [counters total]; [|done|].
  - split; cbn [counters total].
    + intros c'. unfold set_counter. case_decide; [lia|apply Hok].
    + rewrite sum_set_all, (tr_total t Hok). lia.
  - intros c'. unfold set_counter. case_decide; [subst; lia|lia].
Qed.

Lemma sat_fold l acc :
  Forall (λ v, 0 ≤ v) l → 0 ≤ acc → acc + foldr Z.add 0 l ≤ u64_max →
  foldl sat_add_u64 acc l = acc + foldr Z.add 0 l.
Proof.
  revert acc. induction l as [|v l IH]; intros acc Hl Ha Hb; simpl in *; [lia|].
  inversion Hl as [|? ? Hv Hl']; subst. assert (0 ≤ foldr Z.add 0 l).
  { clear -Hl'. induction Hl'; simpl; lia. }
  unfold sat_add_u64 at 2. rewrite Z.min_l by lia. rewrite IH by (done || lia). lia.
Qed.

Lemma sum_of_fmap f cs : foldr Z.add 0 (f <$> cs) = sum_of f cs.
Proof. induction cs as [|c cs IH]; [done|]. simpl. by rewrite <- IH. Qed.

Lemma counts_fmap (f : MemoryCategory → Z) (cs : list MemoryCategory) :
  ((λ c, (c, f c)) <$> cs).*2 = f <$> cs.
Proof. by rewrite <- list_fmap_compose. Qed.

Lemma take_ok t :
  tracker_ok t → total t ≤ u64_max →
  let '(t', out) := take_keyspace_counts t in
  tracker_ok t' ∧ total t' = counters t CatPubSub ∧ out = ((λ c, (c, counters t c)) <$> KEYSPACE_CATEGORIES) ∧
  ∀ c, counters t' c = if decide (c = CatPubSub) then counters t c else 0.
Proof.
  intros Hok Hb. unfold take_keyspace_counts. rewrite counts_fmap.
  pose proof (tr_pos t Hok) as Hp. pose proof (tr_total t Hok) as Ht.
  change (sum_of (counters t) all_categories) with (counters t CatPubSub + sum_of (counters t) KEYSPACE_CATEGORIES) in Ht.
  pose proof (Hp CatPubSub). pose proof (sum_of_pos _ KEYSPACE_CATEGORIES Hp).
  rewrite sat_fold; [|apply Forall_fmap, Forall_forall; intros c _; apply Hp|lia|rewrite sum_of_fmap; lia].
  rewrite sum_of_fmap.
  assert (E : (if 0 <? 0 + sum_of (counters t) KEYSPACE_CATEGORIES
     then sat_sub_u64 (total t) (0 + sum_of (counters t) KEYSPACE_CATEGORIES) else total t) = counters t CatPubSub).
  { unfold sat_sub_u64. destruct (Z.ltb_spec 0 (0 + sum_of (counters t) KEYSPACE_CATEGORIES)); lia. }
  rewrite E. split_and!; cbn [counters total]; [|done|done|by intros []].
  split; cbn [counters total]; [intros c; case_decide; [lia|apply Hp]|]. simpl. lia.
Qed.

Lemma install_from_lookup cs vals f c :
  NoDup cs → length vals = length cs →
  install_from cs vals f c =
    match list_find (eq c) cs with Some (i, _) => default (f c) (vals.*2 !! i) | None => f c end.
Proof.
  intros Hnd. revert vals f. induction Hnd as [|x cs Hx Hnd IH]; intros [|[t v] vals] f Hlen; try done.
  injection Hlen as Hlen. cbn [install_from]. rewrite IH by done. cbn [list_find].
  destruct (decide (c = x)) as [->|Hne].
  - assert (list_find (eq x) cs = None) as ->.
    { apply list_find_None, Forall_forall. intros y Hy ->. done. }
    simpl. unfold set_counter. by rewrite decide_True.
  - destruct (list_find (eq c) cs) as [[i y]|]; simpl; unfold set_counter; by rewrite decide_False.
Qed.

Lemma sum_install vals f :
  length vals = 8%nat →
  sum_of (install_from KEYSPACE_CATEGORIES vals f) KEYSPACE_CATEGORIES = foldr Z.add 0 vals.*2 ∧
  install_from KEYSPACE_CATEGORIES vals f CatPubSub = f CatPubSub ∧
  (∀ c, install_from KEYSPACE_CATEGORIES vals f c ∈ f c :: vals.*2).
Proof.
  intros Hlen. do 8 (destruct vals as [|[? ?] vals]; [done|]). destruct vals; [|done].
  split_and!; [done|done|]. intros c. rewrite install_from_lookup by (done || apply (bool_decide_unpack _); done).
  destruct c; simpl; set_solver.
Qed.

Lemma install_ok t vals :
  tracker_ok t → (∀ c, c ≠ CatPubSub → counters t c = 0) → length vals = 8%nat →
  Forall (λ v, 0 ≤ v) vals.*2 → total t + foldr Z.add 0 vals.*2 ≤ u64_max →
  tracker_ok (install_keyspace_counts t vals) ∧
  total (install_keyspace_counts t vals) = total t + foldr Z.add 0 vals.*2.
Proof.
  intros Hok Hz Hlen Hv Hb. pose proof (tr_pos t Hok) as Hp. pose proof (tr_total t Hok) as Ht.
  destruct (sum_install vals (counters t) Hlen) as (Hsum & Hpub & Hel).
  assert (Hk : sum_of (counters t) KEYSPACE_CATEGORIES = 0).
  { rewrite (sum_of_ext _ (λ _, 0)); [done|]. intros c Hc. apply Hz. intros ->.
    revert Hc. apply (bool_decide_unpack _). done. }
  change (sum_of (counters t) all_categories) with (counters t CatPubSub + sum_of (counters t) KEYSPACE_CATEGORIES) in Ht.
  rewrite Hk in Ht. pose proof (Hp CatPubSub).
  assert (H0 : 0 ≤ foldr Z.add 0 vals.*2) by (clear -Hv; induction Hv; simpl; lia).
  unfold install_keyspace_counts. rewrite take_ge by (rewrite length_fmap; lia).
  rewrite sat_fold by (done || lia).
  assert (E : (if 0 <? 0 + foldr Z.add 0 vals.*2 then wrap_u64 (total t + (0 + foldr Z.add 0 vals.*2))
               else total t) = total t + foldr Z.add 0 vals.*2).
  { unfold wrap_u64. destruct (Z.ltb_spec 0 (0 + foldr Z.add 0 vals.*2)); [rewrite Z.mod_small; lia|lia]. }
  rewrite E. split; [|done]. split; cbn [counters total].
  - intros c. specialize (Hel c). apply elem_of_cons in Hel as [->|Hel]; [apply Hp|].
    rewrite Forall_forall in Hv. by apply Hv.
  - change (sum_of ?f all_categories) with (f CatPubSub + sum_of f KEYSPACE_CATEGORIES).
    rewrite Hpub, Hsum. lia.
Qed.

(** ** Programs *)

Inductive mop : Type :=
| MAccount (size : Z) (c : MemoryCategory)
| MAllocate (size : Z) (c : MemoryCategory)
| MDeallocate (size : Z) (c : MemoryCategory)
| MReset
| MResetCategory (c : MemoryCategory)
| MSwapKeyspace (counts : list (MemoryCategory * Z)).

Definition mexec (t : MemoryTracker) (o : mop) : MemoryTracker :=
  match o with
  | MAccount size c => account t size c
  | MAllocate size c => (allocate t size c).1
  | MDeallocate size c => deallocate t size c
  | MReset => reset t
  | MResetCategory c => reset_category t c
  | MSwapKeyspace counts => install_keyspace_counts (take_keyspace_counts t).1 counts
  end.

(** The bytes an operation adds, and whether its arguments are machine numbers. *)
Definition added (o : mop) : Z :=
  match o with
  | MAccount size _ | MAllocate size _ => size
  | MSwapKeyspace counts => foldr Z.add 0 counts.*2
  | _ => 0
  end.

Definition mop_ok (o : mop) : bool :=
  match o with
  | MAccount size _ | MAllocate size _ | MDeallocate size _ => 0 <=? size
  | MSwapKeyspace counts => (length counts =? 8)%nat && forallb (λ v, 0 <=? v) counts.*2
  | _ => true
  end.

Definition total_added (ops : list mop) : Z := foldr (λ o s, added o + s) 0 ops.

Lemma added_pos o : mop_ok o = true → 0 ≤ added o.
Proof.
  destruct o; simpl; try lia. rewrite andb_true_iff. intros [_ H].
  induction counts.*2 as [|v l IH]; simpl in *; [done|]. apply andb_true_iff in H as [? H]. specialize (IH H). lia.
Qed.

Lemma mexec_ok t o :
  tracker_ok t → mop_ok o = true → total t + added o ≤ u64_max →
  tracker_ok (mexec t o) ∧ total (mexec t o) ≤ total t + added o.
Proof.
  intros Hok Ho Hb. destruct o as [size c|size c|size c| |c|counts]; cbn [mexec added mop_ok] in *.
  - destruct (account_ok t size c) as (H1 & H2 & _); [done|lia|done|]. split; [done|lia].
  - unfold allocate. case_match; simpl; [|split; [done|lia]].
    destruct (account_ok t size c) as (H1 & H2 & _); [done|lia|done|]. split; [done|lia].
  - destruct (deallocate_ok t size c Hok) as (H1 & H2 & _); [lia|].
    pose proof (tr_pos t Hok c). split; [done|lia].
  - pose proof (tr_total t Hok). pose proof (sum_of_pos _ all_categories (tr_pos t Hok)).
    split; [by split|simpl; lia].
  - pose proof (tr_pos t Hok) as Hp. pose proof (Hp c).
    assert (counters t c ≤ total t).
    { rewrite (tr_total t Hok). apply sum_of_ge; [done|apply elem_of_all_categories]. }
    unfold reset_category. assert (E : (if 0 <? counters t c then sat_sub_u64 (total t) (counters t c)
      else total t) = total t - counters t c).
    { unfold sat_sub_u64. destruct (Z.ltb_spec 0 (counters t c)); lia. }
    rewrite E. split; [|cbn [total]; lia]. split; cbn [counters total].
    + intros c'. unfold set_counter. case_decide; [lia|apply Hp].
    + rewrite sum_set_all, (tr_total t Hok). lia.
  - apply andb_true_iff in Ho as [Hlen%Nat.eqb_eq Hv].
    assert (Hpos : 0 ≤ foldr Z.add 0 counts.*2).
    { apply (added_pos (MSwapKeyspace counts)). simpl. by rewrite Hlen, Hv. }
    pose proof (take_ok t Hok ltac:(lia)) as Htk. destruct (take_keyspace_counts t) as [t' out].
    destruct Htk as (Hok' & Et & _ & Hz). cbn [fst].
    assert (counters t CatPubSub ≤ total t).
    { rewrite (tr_total t Hok). apply sum_of_ge; [apply Hok|apply elem_of_all_categories]. }
    destruct (install_ok t' counts) as [H1 H2]; [done| |done| |lia|split; [done|lia]].
    + intros c Hc. by rewrite Hz, decide_False.
    + apply Forall_forall. intros v Hin. apply (forallb_elem _ _ Hv) in Hin. lia.
Qed.

(** Operations that respect the limit. *)
Definition checked (o : mop) : bool := match o with MAccount _ _ | MSwapKeyspace _ => false | _ => true end.

Lemma mexec_limit t o :
  checked o = true →
  tracker_ok t → mop_ok o = true → total t + added o ≤ u64_max →
  limit (mexec t o) = limit t ∧ (limit t ≠ 0 → total t ≤ limit t → total (mexec t o) ≤ limit t).
Proof.
  intros Hkind Hok Ho Hb. destruct o as [size c|size c|size c| |c|counts]; try done; simpl in *.
  - unfold allocate. destruct (can_allocate t size c) eqn:E; [|split; [done|simpl; lia]]. cbn [fst].
    destruct (account_ok t size c Hok) as (_ & Ht & _); [lia|done|].
    split; [unfold account; by case_match|]. intros Hl _. rewrite Ht. unfold can_allocate in E.
    case_match; [done|]. rewrite (proj2 (Z.eqb_neq _ _) Hl) in E.
    pose proof (sum_of_pos _ all_categories (tr_pos t Hok)). rewrite <- (tr_total t Hok) in H0.
    unfold wrap_u64 in E. rewrite Z.mod_small in E by lia. lia.
  - destruct (deallocate_ok t size c Hok) as (_ & Ht & _); [lia|]. pose proof (tr_pos t Hok c).
    split; [unfold deallocate; by case_match|lia].
  - pose proof (sum_of_pos _ all_categories (tr_pos t Hok)). rewrite <- (tr_total t Hok) in H.
    split; [done|simpl; lia].
  - split; [done|]. intros _ Hle. pose proof (mexec_ok t (MResetCategory c) Hok eq_refl Hb) as [_ H].
    simpl in H. lia.
Qed.

Lemma run_sum t ops :
  tracker_ok t → Forall (λ o, mop_ok o = true) ops → total t + total_added ops ≤ u64_max →
  let t' := foldl mexec t ops in
  total_memory t' = sum_of (category_memory t') all_categories ∧ (∀ c, 0 ≤ category_memory t' c).
Proof.
  revert t. induction ops as [|o ops IH]; intros t Hok Ho Hb; simpl in *; [by destruct Hok|].
  inversion Ho as [|? ? Ho1 Ho2]; subst. pose proof (added_pos o Ho1).
  assert (Hrest : 0 ≤ total_added ops).
  { clear -Ho2. induction Ho2 as [|o ops H _ IH]; simpl; [done|]. pose proof (added_pos o H). lia. }
  destruct (mexec_ok t o Hok Ho1) as [Hok' Hle]; [lia|]. apply IH; [done|done|lia].
Qed.

Lemma run_limit t ops :
  tracker_ok t → Forall (λ o, mop_ok o = true) ops → total t + total_added ops ≤ u64_max →
  Forall (λ o, checked o = true) ops → limit t ≠ 0 → total t ≤ limit t →
  total_memory (foldl mexec t ops) ≤ limit t.
Proof.
  revert t. induction ops as [|o ops IH]; intros t Hok Ho Hb Hc Hl Hle; simpl in *; [done|].
  inversion Ho as [|? ? Ho1 Ho2]; subst. inversion Hc as [|? ? Hc1 Hc2]; subst.
  pose proof (added_pos o Ho1).
  assert (Hrest : 0 ≤ total_added ops).
  { clear -Ho2. induction Ho2 as [|o ops H _ IH]; simpl; [done|]. pose proof (added_pos o H). lia. }
  destruct (mexec_ok t o Hok Ho1) as [Hok' Hle']; [lia|].
  destruct (mexec_limit t o Hc1 Hok Ho1) as [El Hlim]; [lia|]. rewrite <- El.
  apply IH; [done|done|lia|done|congruence|]. rewrite El. by apply Hlim.
Qed.

(** The running total.  As long as the bytes ever added fit the machine word, after any sequence of
    allocations, unconditional accounting, deallocations (also of more than is held), resets and
    keyspace swaps the total equals the sum of the category counters, none of which is negative; and a
    tracker that only ever allocates stays within its limit. *)
Theorem memory_total_exact max message ops :
  Forall (λ o, mop_ok o = true) ops → total_added ops ≤ u64_max → 0 ≤ max →
  let t := foldl mexec (tracker_new max message) ops in
  total_memory t = sum_of (category_memory t) all_categories ∧ (∀ c, 0 ≤ category_memory t c) ∧
  (max ≠ 0 → Forall (λ o, checked o = true) ops → total_memory t ≤ max).
Proof.
  intros Ho Hb Hmax. assert (Hok : tracker_ok (tracker_new max message)) by (split; done).
  destruct (run_sum (tracker_new max message) ops Hok Ho) as [H1 H2]; [simpl; lia|].
  split_and!; [done|done|]. intros Hl Hc. by apply (run_limit (tracker_new max message) ops Hok).
Qed.

(** ** Approximated LFU ([src/lfu.rs])

    A logarithmic access counter with decay by the minute, packed with its time
    stamp.  The current minute and the random draw (a double in [0, 1)) are
    arguments; the probability is computed in double precision as the code does. *)

Definition LFU_INIT_VAL : Z := 5.
Definition LFU_LOG_FACTOR_DEFAULT : Z := 10.
Definition LFU_DECAY_TIME_DEFAULT : Z := 1.

(** [((secs / 60) & 0xffff) as u16] *)
Definition minutes_of (secs : Z) : Z := Z.land (secs / 60) 65535.

Definition pack (ldt counter : Z) : Z := Z.lor (Z.shiftl ldt 8) counter.

Definition unpack (v : Z) : Z * Z := (Z.land (Z.shiftr v 8) 65535, Z.land v 255).

(** [wrapping_sub] and [wrapping_add] on [u16]. *)
Definition wrap_u16 (z : Z) : Z := z mod 65536.

Definition time_elapsed (ldt now : Z) : Z :=
  if ldt <=? now then now - ldt else wrap_u16 (wrap_u16 (65535 - ldt) + now).

Definition decr_counter (ldt counter decay_time now : Z) : Z :=
  if decay_time =? 0 then counter else
  let num_periods := time_elapsed ldt now / decay_time in
  if num_periods =? 0 then counter
  else if counter <=? num_periods then 0
  else counter - num_periods.

Abbreviation f64 := spec_float.
Definition f64_of_Z (z : Z) : f64 := binary_normalize 53 1024 z 0 false.

Definition incr_probability (counter log_factor : Z) : f64 :=
  let baseval := if LFU_INIT_VAL <? counter then f64_of_Z (counter - LFU_INIT_VAL) else S754_zero false in
  let factor := f64_of_Z (Z.max log_factor 1) in
  SFdiv 53 1024 (f64_of_Z 1) (SFadd 53 1024 (SFmul 53 1024 baseval factor) (f64_of_Z 1)).

Definition log_incr (counter log_factor : Z) (r : f64) : Z :=
  if counter =? 255 then 255
  else if SFltb r (incr_probability counter log_factor) then counter + 1 else counter.

Definition initial (now : Z) : Z := pack now LFU_INIT_VAL.

Definition on_access (packed log_factor decay_time now : Z) (r : f64) : Z :=
  let '(ldt, counter) := unpack packed in
  pack now (log_incr (decr_counter ldt counter decay_time now) log_factor r).

Definition effective_counter (packed decay_time now : Z) : Z :=
  let '(ldt, counter) := unpack packed in decr_counter ldt counter decay_time now.

(** ** Facts *)

Lemma land_ones_range a n : 0 ≤ n → 0 ≤ Z.land a (Z.ones n) < 2 ^ n.
Proof. intros Hn. rewrite Z.land_ones by done. apply Z.mod_pos_bound. lia. Qed.

Lemma unpack_pack ldt counter : in_u16 ldt → 0 ≤ counter ≤ 255 → unpack (pack ldt counter) = (ldt, counter).
Proof.
  unfold u16_max. intros Hl Hc. unfold unpack, pack.
  assert (E : Z.lor (Z.shiftl ldt 8) counter = ldt * 256 + counter).
  { rewrite Z.shiftl_mul_pow2 by lia. change (2 ^ 8) with 256.
    rewrite <- Z.lxor_lor, <- Z.add_nocarry_lxor; [done| |];
      (apply Z.bits_inj'; intros n Hn; rewrite Z.land_spec, Z.bits_0;
       destruct (Z.ltb_spec n 8);
       [replace (ldt * 256) with (ldt * 2 ^ 8) by lia; rewrite Z.mul_pow2_bits_low by lia; done|
        rewrite (Z.bits_above_log2 counter n), andb_false_r; [done|lia|];
        destruct (Z.eq_dec counter 0) as [->|]; [simpl; lia|]; apply Z.log2_lt_pow2; [lia|];
        apply Z.lt_le_trans with (2 ^ 8); [lia|apply Z.pow_le_mono_r; lia]]). }
  rewrite E, Z.shiftr_div_pow2 by lia. change (2 ^ 8) with 256.
  change 65535 with (Z.ones 16). change 255 with (Z.ones 8). rewrite !Z.land_ones by lia.
  replace ((ldt * 256 + counter) / 256) with ldt by (rewrite Z.div_add_l, Z.div_small; lia).
  rewrite Z.mod_small by (simpl; lia). f_equal.
  change (2 ^ 8) with 256. rewrite Z.add_comm, Z.mod_add, Z.mod_small; lia.
Qed.

Lemma time_elapsed_range ldt now : in_u16 ldt → in_u16 now → in_u16 (time_elapsed ldt now).
Proof.
  unfold u16_max, time_elapsed, wrap_u16. intros Hl Hn. destruct (Z.leb_spec ldt now); [lia|].
  pose proof (Z.mod_pos_bound ((65535 - ldt) mod 65536 + now) 65536). lia.
Qed.

Lemma decr_counter_range ldt counter decay now :
  in_u16 ldt → in_u16 now → 0 ≤ counter ≤ 255 → 0 ≤ decay → 0 ≤ decr_counter ldt counter decay now ≤ counter.
Proof.
  intros Hl Hn Hc Hd. unfold decr_counter. destruct (Z.eqb_spec decay 0); [lia|].
  pose proof (time_elapsed_range ldt now Hl Hn). unfold u16_max in *.
  assert (0 ≤ time_elapsed ldt now / decay) by (apply Z.div_pos; lia).
  destruct (Z.eqb_spec (time_elapsed ldt now / decay) 0); [lia|].
  destruct (Z.leb_spec counter (time_elapsed ldt now / decay)); lia.
Qed.

Lemma log_incr_range counter factor r :
  0 ≤ counter ≤ 255 → counter ≤ log_incr counter factor r ≤ Z.min 255 (counter + 1).
Proof.
  intros Hc. unfold log_incr. destruct (Z.eqb_spec counter 255); [lia|]. destruct (SFltb _ _); lia.
Qed.

(** ** Properties *)

(** The LFU word.  After any sequence of accesses, at any minutes and with any random draws, the
    word unpacks to the minute of the last access and a counter between 0 and 255, and an access
    first lets the counter decay and then raises it by at most one; the effective counter used for
    eviction never exceeds the stored one, whatever time has passed. *)
Theorem lfu_word_sound start accesses factor decay :
  in_u16 start → Forall (λ a, in_u16 a.1) accesses → 0 ≤ decay →
  let word l := foldl (λ w a, on_access w factor decay a.1 a.2) (initial start) l in
  let w := word accesses in
  (unpack w).1 = (default start (fst <$> last accesses)) ∧ 0 ≤ (unpack w).2 ≤ 255 ∧
  (∀ now r, in_u16 now →
     0 ≤ effective_counter w decay now ≤ (unpack w).2 ∧
     effective_counter w decay now ≤ (unpack (on_access w factor decay now r)).2
       ≤ Z.min 255 (effective_counter w decay now + 1)).
Proof.
  intros Hs Ha Hd word w.
  assert (Hw : ∃ t c, in_u16 t ∧ 0 ≤ c ≤ 255 ∧ w = pack t c ∧ t = default start (fst <$> last accesses)).
  { unfold w, word. clear w word. induction accesses as [|a l IH] using rev_ind.
    - exists start, LFU_INIT_VAL. split; [done|]. split; [unfold LFU_INIT_VAL; lia|done].
    - apply Forall_app in Ha as [Ha Hl]. inversion Hl as [|? ? Hl1 _]; subst.
      destruct (IH Ha) as (t & c & Ht & Hc & E & _). rewrite foldl_app, last_snoc. cbn [foldl]. rewrite E.
      unfold on_access. rewrite unpack_pack by done. eexists _, _. split; [exact Hl1|]. split; [|done].
      pose proof (decr_counter_range t c decay a.1 Ht Hl1 Hc Hd).
      pose proof (log_incr_range (decr_counter t c decay a.1) factor a.2). lia. }
  destruct Hw as (t & c & Ht & Hc & -> & Et). rewrite unpack_pack by done. cbn [fst snd].
  split_and!; [done|lia|lia|]. intros now r Hn. unfold effective_counter, on_access.
  rewrite unpack_pack by done. pose proof (decr_counter_range t c decay now Ht Hn Hc Hd) as Hr.
  split; [done|]. pose proof (log_incr_range (decr_counter t c decay now) factor r).
  rewrite unpack_pack by (done || lia). cbn [snd]. lia.
Qed.
