(* ===== verification/HashSlot.v ===== *)
(** * Cluster hash slots ([src/cluster/crc16.rs])

    The bitwise CRC16 loop, the hash-tag rule and the slot of a key.  The checksum
    is shown to be the remainder of a polynomial division over GF(2). *)

From S2P Require Import Prelude.
From Stdlib Require Import Lia.
Local Open Scope Z_scope.

Definition SLOT_COUNT : Z := 16384.

(** One turn of [for _ in 0..8]; [<<] on [u16] drops the bit shifted out. *)
Definition crc_bit (crc : Z) : Z :=
  if decide (Z.land crc 32768 ≠ 0) then Z.lxor (Z.land (Z.shiftl crc 1) 65535) 4129
  else Z.land (Z.shiftl crc 1) 65535.

Definition crc_byte (crc : Z) (b : byte) : Z :=
  Nat.iter 8 crc_bit (Z.lxor crc (Z.land (Z.shiftl (u8 b) 8) 65535)).

Definition crc16 (data : Bytes) : Z := foldl crc_byte 0 data.

(** [iter().position(|&b| b == c)] *)
Definition position (c : byte) (l : Bytes) : option nat := fst <$> list_find (λ b, b = c) l.

Definition lbrace : byte := "{"%byte.
Definition rbrace : byte := "}"%byte.

Definition hash_tag_bytes (key : Bytes) : Bytes :=
  match position lbrace key with
  | None => key
  | Some s =>
    match position rbrace (drop (s + 1) key) with
    | None => key
    | Some rel_e =>
      let e := (s + 1 + rel_e)%nat in
      if decide (e = s + 1)%nat then key else take (e - (s + 1)) (drop (s + 1) key)
    end
  end.

Definition key_hash_slot (key : Bytes) : Z :=
  Z.land (crc16 (hash_tag_bytes key)) (SLOT_COUNT - 1).

(** ** The reference: division of polynomials over GF(2)

    A polynomial is the integer whose bits are its coefficients; addition is [lxor].
    [pmul q g] is the product. *)

Fixpoint pmul_pos (q : positive) (g : Z) : Z :=
  match q with
  | xH => g
  | xO q => 2 * pmul_pos q g
  | xI q => Z.lxor (2 * pmul_pos q g) g
  end.

Definition pmul (q : N) (g : Z) : Z :=
  match q with N0 => 0 | Npos q => pmul_pos q g end.

(** x^16 + x^12 + x^5 + 1 *)
Definition generator : Z := 69665.

(** The bytes as one polynomial, the first byte in the highest position. *)
Definition poly_of (data : Bytes) : Z := foldl (λ m b, m * 256 + u8 b) 0 data.

(** ** Facts *)

Lemma lxor_double a b : Z.lxor (2 * a) (2 * b) = 2 * Z.lxor a b.
Proof.
  assert (E : ∀ x, 2 * x = Z.shiftl x 1) by (intros x; rewrite Z.shiftl_mul_pow2 by lia; lia).
  by rewrite !E, Z.shiftl_lxor.
Qed.

Lemma lxor_add_high a b n : 0 ≤ n → 0 ≤ b < 2 ^ n → Z.lxor (a * 2 ^ n) b = a * 2 ^ n + b.
Proof.
  intros Hn Hb. rewrite <- Z.add_nocarry_lxor; [done|]. apply Z.bits_inj'. intros i Hi.
  rewrite Z.land_spec, Z.bits_0. destruct (Z.ltb_spec i n).
  - by rewrite Z.mul_pow2_bits_low.
  - rewrite <- (Z.mod_small b (2 ^ n)), Z.mod_pow2_bits_high by lia. by rewrite andb_false_r.
Qed.

Lemma lxor_range a b n : 0 ≤ n → 0 ≤ a < 2 ^ n → 0 ≤ b < 2 ^ n → 0 ≤ Z.lxor a b < 2 ^ n.
Proof.
  intros Hn Ha Hb. assert (0 ≤ Z.lxor a b) by (apply Z.lxor_nonneg; lia). split; [done|].
  assert (E : Z.lxor a b = Z.lxor a b mod 2 ^ n).
  { apply Z.bits_inj'. intros i Hi. destruct (Z.ltb_spec i n).
    - by rewrite Z.mod_pow2_bits_low.
    - rewrite Z.mod_pow2_bits_high by lia. rewrite Z.lxor_spec.
      rewrite <- (Z.mod_small a (2 ^ n)), <- (Z.mod_small b (2 ^ n)) by lia.
      by rewrite !Z.mod_pow2_bits_high by lia. }
  rewrite E. apply Z.mod_pos_bound. lia.
Qed.

Lemma top_bit c : 0 ≤ c < 65536 → Z.land c 32768 ≠ 0 ↔ 32768 ≤ c.
Proof.
  intros Hc. assert (E : Z.land c 32768 = if 32768 <=? c then 32768 else 0).
  { apply Z.bits_inj'. intros i Hi. rewrite Z.land_spec. change 32768 with (2 ^ 15).
    rewrite Z.pow2_bits_eqb by lia. destruct (Z.eqb_spec 15 i) as [<-|].
    - rewrite andb_true_r, Z.testbit_odd, Z.shiftr_div_pow2 by lia. change (2 ^ 15) with 32768.
      destruct (Z.leb_spec 32768 c).
      + by replace (c / 32768) with 1 by (apply Z.div_unique with (c - 32768); lia).
      + by rewrite Z.div_small by lia.
    - rewrite andb_false_r. destruct (_ <=? _); [|by rewrite Z.bits_0].
      rewrite Z.pow2_bits_eqb by lia. symmetry. by apply Z.eqb_neq. }
  rewrite E. destruct (Z.leb_spec 32768 c); lia.
Qed.

Lemma crc_bit_spec c : 0 ≤ c < 65536 →
  0 ≤ crc_bit c < 65536 ∧
  2 * c = Z.lxor (if decide (32768 ≤ c) then generator else 0) (crc_bit c).
Proof.
  intros Hc. unfold crc_bit. change 65535 with (Z.ones 16).
  rewrite Z.land_ones, Z.shiftl_mul_pow2 by lia. change (2 ^ 16) with 65536. change (2 ^ 1) with 2.
  pose proof (Z.mod_pos_bound (c * 2) 65536 ltac:(lia)) as Hm.
  destruct (decide (Z.land c 32768 ≠ 0)) as [Ht|Ht].
  - assert (32768 ≤ c) by (by apply top_bit). rewrite decide_True by done. split.
    + apply (lxor_range _ _ 16); simpl; lia.
    + replace (c * 2 mod 65536) with (2 * c - 65536) in *
        by (apply Z.mod_unique with 1; lia).
      replace generator with (Z.lxor (1 * 2 ^ 16) 4129) by done.
      rewrite (Z.lxor_comm (2 * c - 65536)), Z.lxor_assoc, <- (Z.lxor_assoc 4129), Z.lxor_nilpotent, Z.lxor_0_l.
      rewrite lxor_add_high; simpl; lia.
  - assert (¬ 32768 ≤ c) by (by rewrite <- top_bit). rewrite decide_False by done.
    rewrite Z.lxor_0_l, Z.mod_small by lia. lia.
Qed.

(** [v] is congruent to the register [c] modulo the generator. *)
Definition rem_inv (v c : Z) : Prop :=
  0 ≤ c < 65536 ∧ ∃ q, v = Z.lxor (pmul q generator) c.

Lemma crc_bit_inv v c : rem_inv v c → rem_inv (2 * v) (crc_bit c).
Proof.
  intros [Hc [q ->]]. destruct (crc_bit_spec c Hc) as [Hr E]. split; [done|].
  rewrite <- lxor_double, E, <- Z.lxor_assoc. destruct (decide (32768 ≤ c)).
  - exists (N.succ_double q). by destruct q; cbn [N.succ_double pmul pmul_pos Z.mul]; rewrite ?Z.lxor_0_l.
  - exists (N.double q). rewrite Z.lxor_0_r. by destruct q.
Qed.

Lemma crc_iter_inv n v c : rem_inv v c → rem_inv (2 ^ Z.of_nat n * v) (Nat.iter n crc_bit c).
Proof.
  intros H. induction n as [|n IH]; [by rewrite Z.mul_1_l|].
  rewrite Nat2Z.inj_succ, Z.pow_succ_r, <- Z.mul_assoc by lia. by apply crc_bit_inv.
Qed.

Lemma crc_byte_inv m c b : rem_inv (m * 65536) c → rem_inv ((m * 256 + u8 b) * 65536) (crc_byte c b).
Proof.
  intros [Hc [q E]]. pose proof (u8_range b). unfold crc_byte.
  change 65535 with (Z.ones 16). rewrite Z.land_ones, Z.shiftl_mul_pow2 by lia.
  rewrite Z.mod_small by (change (2 ^ 8) with 256; simpl; lia).
  replace ((m * 256 + u8 b) * 65536) with (2 ^ Z.of_nat 8 * (m * 65536 + u8 b * 2 ^ 8))
    by (change (2 ^ Z.of_nat 8) with 256; change (2 ^ 8) with 256; lia).
  apply crc_iter_inv. split; [apply (lxor_range _ _ 16); change (2 ^ 8) with 256; simpl; lia|].
  exists q. rewrite <- Z.lxor_assoc, <- E.
  rewrite (lxor_add_high m _ 16); [done|lia|]. change (2 ^ 8) with 256. simpl. lia.
Qed.

Lemma crc16_inv data : rem_inv (poly_of data * 65536) (crc16 data).
Proof.
  induction data as [|b data IH] using rev_ind.
  - split; [unfold crc16; simpl; lia|]. by exists 0%N.
  - unfold poly_of, crc16 in *. rewrite !foldl_app. cbn [foldl]. by apply crc_byte_inv.
Qed.

Lemma position_None c l : c ∉ l → position c l = None.
Proof.
  intros H. unfold position. destruct (list_find _ l) as [[i y]|] eqn:E; [|done].
  apply list_find_Some in E as (Hl & -> & _). by apply list_elem_of_lookup_2 in Hl.
Qed.

Lemma position_app c l k : c ∉ l → position c (l ++ c :: k) = Some (length l).
Proof.
  intros H. unfold position. rewrite list_find_app_r.
  2:{ pose proof (position_None c l H) as E. unfold position in E. by destruct (list_find _ l). }
  cbn [list_find]. rewrite decide_True by done. cbn. f_equal; lia.
Qed.

(** ** Properties *)

(** The checksum is the CRC: [crc16 data] is the remainder of the message polynomial times
    x^16 divided by x^16 + x^12 + x^5 + 1 over GF(2), it has degree below 16, and the slot of every
    key is one of the 16384 slots. *)
Theorem crc16_is_remainder data :
  0 ≤ crc16 data ≤ u16_max ∧
  (∃ q, poly_of data * 2 ^ 16 = Z.lxor (pmul q generator) (crc16 data)) ∧
  ∀ key, 0 ≤ key_hash_slot key < SLOT_COUNT.
Proof.
  destruct (crc16_inv data) as [Hc Hq]. split; [unfold u16_max; lia|]. split; [done|].
  intros key. unfold key_hash_slot. change (SLOT_COUNT - 1) with (Z.ones 14).
  rewrite Z.land_ones by lia. apply Z.mod_pos_bound. done.
Qed.

(** Hash tags: keys that share the body of their first brace pair share a slot, whatever is
    around it, the slot of the body itself.  A key without a brace pair, or whose first pair is empty, is hashed whole. *)
Theorem hash_tag_colocates pre tag post pre' post' :
  lbrace ∉ pre → lbrace ∉ pre' → rbrace ∉ tag → tag ≠ [] → lbrace ∉ tag →
  key_hash_slot (pre ++ lbrace :: tag ++ rbrace :: post) = key_hash_slot tag ∧
  key_hash_slot (pre ++ lbrace :: tag ++ rbrace :: post) =
    key_hash_slot (pre' ++ lbrace :: tag ++ rbrace :: post') ∧
  hash_tag_bytes (pre ++ lbrace :: rbrace :: post) = pre ++ lbrace :: rbrace :: post ∧
  hash_tag_bytes pre = pre ∧
  hash_tag_bytes (pre ++ lbrace :: tag) = pre ++ lbrace :: tag.
Proof.
  intros Hp Hp' Ht Hne Hlt.
  assert (D : ∀ p l, drop (length p + 1) (p ++ lbrace :: l) = l).
  { intros p l. by rewrite drop_app_add. }
  assert (T : ∀ p q, lbrace ∉ p → hash_tag_bytes (p ++ lbrace :: tag ++ rbrace :: q) = tag).
  { intros p q Hpn. unfold hash_tag_bytes. rewrite position_app by done. rewrite D, position_app by done.
    destruct tag as [|t tag]; [done|]. rewrite decide_False by (simpl; lia).
    replace (length p + 1 + length (t :: tag) - (length p + 1))%nat with (length (t :: tag)) by lia.
    by rewrite take_app_length. }
  assert (I : ∀ p, lbrace ∉ p → hash_tag_bytes p = p).
  { intros p Hpn. unfold hash_tag_bytes. by rewrite position_None. }
  unfold key_hash_slot. split; [by rewrite T, I|]. split; [by rewrite !T|]. split; [|split; [by apply I|]].
  - unfold hash_tag_bytes. rewrite position_app, D by done.
    change (rbrace :: post) with ([] ++ rbrace :: post) at 1. rewrite position_app by set_solver. rewrite decide_True; [done|simpl; lia].
  - unfold hash_tag_bytes. rewrite position_app, D by done. by rewrite position_None.
Qed.

(** ** Witnesses *)

