(* ===== verification/KeyMap.v ===== *)
(** * The sharded key map ([src/hashmap.rs], [ShardedKeyMap])

    The map of the unified keyspace: keys are hashed to shards, each with its own
    lock and its own counter of compare-and-swap (CAS) tokens.  The hash function
    (the [ahash] crate), the iteration order of a shard and the random draws are
    arguments.  Every method takes one shard lock at a time, and a method on one
    key is a single step. *)

From S2P Require Import Prelude RustStd Glob.
From Stdlib Require Import Lia.

Inductive MapAction (V : Type) : Type :=
| Keep
| Set_ (v : V)
| Remove_.
Arguments Keep {V}.
Arguments Set_ {V} v.
Arguments Remove_ {V}.

Record ShardedKeyMap (V : Type) : Type := mkKeyMap {
  shards : list (gmap Bytes V);
  cas_counters : list Z;
  num_shards : nat
}.
Arguments mkKeyMap {V}.
Arguments shards {V}.
Arguments cas_counters {V}.
Arguments num_shards {V}.

(** [v[i]]: indexing panics out of range. *)
Definition index {A} (l : list A) (i : nat) : exec A :=
  match l !! i with Some x => Ret x | None => Panic end.

Section keymap.
Context {V : Type}.
Context (hash_one : Bytes → Z).
Implicit Types (self : ShardedKeyMap V) (key : Bytes).

Definition km_new (n : nat) : ShardedKeyMap V :=
  let n := n `max` 1 in mkKeyMap (replicate n ∅) (replicate n 1%Z) n.

Definition shard_index self key : nat := Z.to_nat (hash_one key mod Z.of_nat (num_shards self)).

Definition shard self key : exec (gmap Bytes V) := index (shards self) (shard_index self key).

(** Writing a shard back (the effect of the write guard). *)
Definition set_shard self (i : nat) (m : gmap Bytes V) : ShardedKeyMap V :=
  mkKeyMap (<[i := m]> (shards self)) (cas_counters self) (num_shards self).

(** [fetch_add(1)] returns the old value and wraps. *)
Definition next_cas self key : exec (ShardedKeyMap V * Z) :=
  let i := shard_index self key in
  c ← index (cas_counters self) i;
  Ret (mkKeyMap (shards self) (<[i := wrap_u64 (c + 1)]> (cas_counters self)) (num_shards self), c).

Definition km_get self key : exec (option V) := m ← shard self key; Ret (m !! key).

Definition contains_key self key : exec bool :=
  m ← shard self key; Ret (bool_decide (is_Some (m !! key))).

Definition km_insert self key (v : V) : exec (ShardedKeyMap V * option V) :=
  m ← shard self key;
  Ret (set_shard self (shard_index self key) (<[key := v]> m), m !! key).

Definition km_remove self key : exec (ShardedKeyMap V * option V) :=
  m ← shard self key;
  Ret (set_shard self (shard_index self key) (delete key m), m !! key).

Definition apply_action (key : Bytes) (a : MapAction V) (m : gmap Bytes V) : gmap Bytes V :=
  match a with Keep => m | Set_ v => <[key := v]> m | Remove_ => delete key m end.

Definition mutate {R} self key (f : option V → Z → MapAction V * R) : exec (ShardedKeyMap V * R) :=
  m ← shard self key;
  '(self, cas) ← next_cas self key;
  let '(action, result) := f (m !! key) cas in
  Ret (set_shard self (shard_index self key) (apply_action key action m), result).

Definition get_or_insert_with self key (f : unit → V) : exec (ShardedKeyMap V * V) :=
  m ← shard self key;
  match m !! key with
  | Some v => Ret (self, v)
  | None => let v := f tt in Ret (set_shard self (shard_index self key) (<[key := v]> m), v)
  end.

Definition km_len self : nat := sum_list (size <$> shards self).

Definition km_is_empty self : bool := forallb (λ m, bool_decide (size m = 0)) (shards self).

Definition km_clear self : ShardedKeyMap V :=
  mkKeyMap ((λ _, ∅) <$> shards self) (cas_counters self) (num_shards self).

Section iteration.
Context (hash_iter : gmap Bytes V → list (Bytes * V)).

(** [for_each] visits these in order. *)
Definition visit self : list (Bytes * V) := concat (hash_iter <$> shards self).

Definition drain_all self : ShardedKeyMap V * list (Bytes * V) := (km_clear self, visit self).

Fixpoint fill_all self (entries : list (Bytes * V)) : exec (ShardedKeyMap V) :=
  match entries with
  | [] => Ret self
  | (k, v) :: entries => p ← km_insert self k v; fill_all p.1 entries
  end.

Definition replace_all self (entries : list (Bytes * V)) : exec (ShardedKeyMap V) :=
  fill_all (drain_all self).1 entries.

Definition km_keys self (pattern : option Str) : list Bytes :=
  concat ((λ m, filter (λ k, key_matches pattern k = true) (hash_iter m).*1) <$> shards self).

(** One attempt of [get_random]: a shard, then a position in it. *)
Definition random_attempt self (draw : nat * nat) : option (Bytes * V) :=
  match shards self !! draw.1 with
  | Some m => if (size m =? 0)%nat then None else hash_iter m !! draw.2
  | None => None
  end.

(** Up to ten attempts. *)
Fixpoint get_random self (draws : list (nat * nat)) : option (Bytes * V) :=
  match draws with
  | [] => None
  | d :: draws =>
    match random_attempt self d with Some e => Some e | None => get_random self draws end
  end.

(** Distinct random entries; each element of [rounds] are the draws of one [get_random]. *)
Fixpoint get_n_random self (n : nat) (rounds : list (list (nat * nat))) (seen : gset Bytes)
    (result : list (Bytes * V)) : list (Bytes * V) :=
  match rounds with
  | [] => result
  | draws :: rounds =>
    if (n <=? length result)%nat then result else
    match get_random self draws with
    | None => result
    | Some (k, v) =>
      if decide (k ∈ seen) then get_n_random self n rounds seen result
      else get_n_random self n rounds ({[k]} ∪ seen) (result ++ [(k, v)])
    end
  end.
End iteration.
End keymap.

(** ** Facts *)

Section facts.
Context {V : Type}.
Context (hash_one : Bytes → Z).
Implicit Types (self : ShardedKeyMap V) (key : Bytes) (m : gmap Bytes V).

(** The content, and the shard of a key among [n]. *)
Definition contents self : gmap Bytes V := ⋃ shards self.

Definition idx (n : nat) key : nat := Z.to_nat (hash_one key mod Z.of_nat n).

(** A key is only in its own shard. *)
Record km_ok self : Prop := {
  km_pos : 0 < num_shards self;
  km_shards : length (shards self) = num_shards self;
  km_cas : length (cas_counters self) = num_shards self;
  km_place : ∀ i m k, shards self !! i = Some m → is_Some (m !! k) → shard_index hash_one self k = i
}.

Lemma idx_lt n k : 0 < n → idx n k < n.
Proof. intros Hn. unfold idx. pose proof (Z.mod_pos_bound (hash_one k) (Z.of_nat n)). lia. Qed.

Lemma union_lookup (l : list (gmap Bytes V)) i m k :
  l !! i = Some m → (∀ j m', l !! j = Some m' → is_Some (m' !! k) → j = i) → (⋃ l) !! k = m !! k.
Proof.
  revert i. induction l as [|m0 l IH]; intros i Hi Huniq; [done|]. simpl. destruct i as [|i].
  - injection Hi as ->. destruct (m !! k) as [v|] eqn:E; [by apply lookup_union_Some_l|].
    rewrite lookup_union_r by done. apply lookup_union_list_None, Forall_forall.
    intros m' [j Hj]%list_elem_of_lookup. destruct (m' !! k) eqn:E'; [|done]. by specialize (Huniq (S j) m' Hj ltac:(eauto)).
  - destruct (m0 !! k) as [v|] eqn:E; [by specialize (Huniq 0 m0 eq_refl ltac:(eauto))|].
    rewrite lookup_union_r by done. apply (IH i); [done|]. intros j m' Hj Hk.
    specialize (Huniq (S j) m' Hj Hk). lia.
Qed.

Lemma shard_ok self k : km_ok self → ∃ m, shards self !! shard_index hash_one self k = Some m.
Proof.
  intros H. apply lookup_lt_is_Some_2. rewrite km_shards by done. apply idx_lt, H.
Qed.

Lemma contents_lookup self m k :
  km_ok self → shards self !! shard_index hash_one self k = Some m → contents self !! k = m !! k.
Proof.
  intros Hok Hm. apply (union_lookup _ _ _ _ Hm). intros j m' Hj Hk.
  symmetry. by eapply (km_place self Hok).
Qed.

Lemma set_shard_ok self i m' :
  km_ok self → (∀ k, is_Some (m' !! k) → shard_index hash_one self k = i) → km_ok (set_shard self i m').
Proof.
  intros [H1 H2 H3 H4] Hm. split; simpl; [done|by rewrite length_insert|done|].
  intros j m k Hj Hk. change (shard_index hash_one (set_shard self i m') k) with (shard_index hash_one self k).
  destruct (decide (j = i)) as [->|Hne].
  - assert (i < length (shards self)) by (apply lookup_lt_Some in Hj; by rewrite length_insert in Hj).
    rewrite list_lookup_insert_eq in Hj by done. injection Hj as <-. by apply Hm.
  - rewrite list_lookup_insert_ne in Hj by done. by eapply H4.
Qed.

Lemma set_shard_contents self i m m' k :
  km_ok self → shards self !! i = Some m → (∀ k, is_Some (m' !! k) → shard_index hash_one self k = i) →
  contents (set_shard self i m') !! k =
  if decide (shard_index hash_one self k = i) then m' !! k else contents self !! k.
Proof.
  intros Hok Hi Hm. pose proof (set_shard_ok self i m' Hok Hm) as Hok'.
  destruct (shard_ok self k Hok) as [mk Hk]. case_decide as E.
  - apply contents_lookup; [done|]. simpl. change (shard_index hash_one _ k) with (shard_index hash_one self k).
    rewrite E. apply list_lookup_insert_eq. by eapply lookup_lt_Some.
  - rewrite (contents_lookup self mk) by done. apply contents_lookup; [done|].
    simpl. change (shard_index hash_one _ k) with (shard_index hash_one self k).
    by rewrite list_lookup_insert_ne.
Qed.

(** Updating the shard of [k] at [k] only. *)
Lemma update_shard self k m m' :
  km_ok self → shards self !! shard_index hash_one self k = Some m →
  (∀ k', k' ≠ k → m' !! k' = m !! k') →
  let self' := set_shard self (shard_index hash_one self k) m' in
  km_ok self' ∧ contents self' = partial_alter (λ _, m' !! k) k (contents self).
Proof.
  intros Hok Hm Hother self'.
  assert (Hplace : ∀ k', is_Some (m' !! k') → shard_index hash_one self k' = shard_index hash_one self k).
  { intros k' Hk'. destruct (decide (k' = k)) as [->|Hne]; [done|]. rewrite Hother in Hk' by done.
    by eapply (km_place self Hok). }
  split; [by apply set_shard_ok|]. apply map_eq. intros k'. unfold self'.
  rewrite (set_shard_contents self _ m) by done. destruct (decide (k' = k)) as [->|Hne].
  - by rewrite decide_True, lookup_partial_alter_eq by done.
  - rewrite lookup_partial_alter_ne by done. case_decide as E; [|done].
    rewrite Hother by done. symmetry. apply contents_lookup; [done|]. by rewrite E.
Qed.

Lemma update_shard_insert self k m v :
  km_ok self → shards self !! shard_index hash_one self k = Some m →
  let self' := set_shard self (shard_index hash_one self k) (<[k := v]> m) in
  km_ok self' ∧ contents self' = <[k := v]> (contents self).
Proof.
  intros Hok Hm. destruct (update_shard self k m (<[k := v]> m)) as [Hok' E]; [done..| |].
  { intros k' Hne. by rewrite lookup_insert_ne. }
  split; [done|]. rewrite E, lookup_insert_eq. done.
Qed.

Lemma update_shard_delete self k m :
  km_ok self → shards self !! shard_index hash_one self k = Some m →
  let self' := set_shard self (shard_index hash_one self k) (delete k m) in
  km_ok self' ∧ contents self' = delete k (contents self).
Proof.
  intros Hok Hm. destruct (update_shard self k m (delete k m)) as [Hok' E]; [done..| |].
  { intros k' Hne. by rewrite lookup_delete_ne. }
  split; [done|]. rewrite E, lookup_delete_eq. done.
Qed.

Lemma update_shard_action self k m a :
  km_ok self → shards self !! shard_index hash_one self k = Some m →
  let self' := set_shard self (shard_index hash_one self k) (apply_action k a m) in
  km_ok self' ∧ contents self' = apply_action k a (contents self).
Proof.
  intros Hok Hm. destruct a; simpl; [|by apply update_shard_insert|by apply update_shard_delete].
  unfold set_shard. rewrite list_insert_id by done. by destruct self.
Qed.

(** Each operation on the content. *)
Lemma km_insert_spec self k v :
  km_ok self → ∃ self', km_insert hash_one self k v = Ret (self', contents self !! k) ∧ km_ok self' ∧
    contents self' = <[k := v]> (contents self) ∧ cas_counters self' = cas_counters self ∧
    num_shards self' = num_shards self.
Proof.
  intros Hok. destruct (shard_ok self k Hok) as [m Hm]. unfold km_insert, shard, index. rewrite Hm.
  eexists. split; [by rewrite (contents_lookup self m)|]. destruct (update_shard_insert self k m v Hok Hm). done.
Qed.

Lemma km_remove_spec self k :
  km_ok self → ∃ self', km_remove hash_one self k = Ret (self', contents self !! k) ∧ km_ok self' ∧
    contents self' = delete k (contents self) ∧ cas_counters self' = cas_counters self ∧
    num_shards self' = num_shards self.
Proof.
  intros Hok. destruct (shard_ok self k Hok) as [m Hm]. unfold km_remove, shard, index. rewrite Hm.
  eexists. split; [by rewrite (contents_lookup self m)|]. destruct (update_shard_delete self k m Hok Hm). done.
Qed.

Lemma get_or_insert_spec self k f :
  km_ok self → ∃ self', get_or_insert_with hash_one self k f = Ret (self', default (f tt) (contents self !! k)) ∧
    km_ok self' ∧ contents self' = <[k := default (f tt) (contents self !! k)]> (contents self) ∧
    cas_counters self' = cas_counters self ∧ num_shards self' = num_shards self.
Proof.
  intros Hok. destruct (shard_ok self k Hok) as [m Hm]. unfold get_or_insert_with, shard, index. rewrite Hm.
  cbn [mbind exec_bind]. rewrite <- (contents_lookup self m k) by done.
  destruct (contents self !! k) as [v|] eqn:E; simpl.
  - exists self. by rewrite insert_id.
  - eexists. split; [done|]. destruct (update_shard_insert self k m (f tt) Hok Hm). done.
Qed.

Lemma next_cas_spec self k :
  km_ok self → ∃ c self', cas_counters self !! shard_index hash_one self k = Some c ∧
    next_cas hash_one self k = Ret (self', c) ∧ km_ok self' ∧ shards self' = shards self ∧
    cas_counters self' = <[shard_index hash_one self k := wrap_u64 (c + 1)]> (cas_counters self) ∧
    num_shards self' = num_shards self.
Proof.
  intros Hok. destruct (lookup_lt_is_Some_2 (cas_counters self) (shard_index hash_one self k)) as [c Hc].
  { rewrite km_cas by done. apply idx_lt, Hok. }
  exists c. eexists. split; [done|]. unfold next_cas, index. rewrite Hc. split; [done|].
  destruct Hok as [H1 H2 H3 H4]. split; [|done]. split; simpl; [done|done|by rewrite length_insert|done].
Qed.

Lemma mutate_spec {R} self k (f : option V → Z → MapAction V * R) :
  km_ok self → ∃ c self', cas_counters self !! shard_index hash_one self k = Some c ∧
    mutate hash_one self k f = Ret (self', (f (contents self !! k) c).2) ∧ km_ok self' ∧
    contents self' = apply_action k (f (contents self !! k) c).1 (contents self) ∧
    cas_counters self' = <[shard_index hash_one self k := wrap_u64 (c + 1)]> (cas_counters self) ∧
    num_shards self' = num_shards self.
Proof.
  intros Hok. destruct (shard_ok self k Hok) as [m Hm].
  destruct (next_cas_spec self k Hok) as (c & self1 & Hc & Hcas & Hok1 & Hs1 & Hc1 & Hn1).
  exists c. unfold mutate, shard, index. rewrite Hm, Hcas. cbn [mbind exec_bind].
  rewrite <- (contents_lookup self m k) by done. destruct (f (contents self !! k) c) as [a r]. simpl.
  assert (Ei : shard_index hash_one self k = shard_index hash_one self1 k).
  { unfold shard_index. by rewrite Hn1. }
  rewrite Ei in Hm. rewrite <- Hs1 in Hm.
  destruct (update_shard_action self1 k m a Hok1 Hm) as [Hok2 E2].
  eexists. split; [done|]. split; [done|]. split; [done|]. split; [|by simpl].
  rewrite E2. f_equal. unfold contents. by rewrite Hs1.
Qed.

(** ** Iteration *)

(** The maps of a list are pairwise disjoint. *)
Fixpoint separate (l : list (gmap Bytes V)) : Prop :=
  match l with [] => True | m :: l => m ##ₘ ⋃ l ∧ separate l end.

Lemma separate_shards (l : list (gmap Bytes V)) :
  (∀ i j mi mj k, l !! i = Some mi → l !! j = Some mj → is_Some (mi !! k) → is_Some (mj !! k) → i = j) →
  separate l.
Proof.
  induction l as [|m l IH]; intros H; simpl; [done|]. split.
  - apply map_disjoint_spec. intros k v1 v2 H1 H2. apply lookup_union_list_Some_1 in H2 as (m' & Hin & H2).
    apply list_elem_of_lookup in Hin as [j Hj]. specialize (H 0 (S j) m m' k eq_refl Hj ltac:(eauto) ltac:(eauto)).
    done.
  - apply IH. intros i j mi mj k Hi Hj H1 H2. specialize (H (S i) (S j) mi mj k Hi Hj H1 H2). lia.
Qed.

Lemma separate_ok self : km_ok self → separate (shards self).
Proof.
  intros Hok. apply separate_shards. intros i j mi mj k Hi Hj H1 H2.
  by rewrite <- (km_place self Hok i mi k Hi H1), <- (km_place self Hok j mj k Hj H2).
Qed.

Lemma separate_size l : separate l → size (⋃ l) = sum_list (size <$> l).
Proof.
  induction l as [|m l IH]; simpl; [intros _; apply map_size_empty|]. intros [Hd Hs].
  rewrite map_size_disj_union by done. f_equal. by apply IH.
Qed.

Lemma union_to_list m1 m2 : m1 ##ₘ m2 → map_to_list (m1 ∪ m2) ≡ₚ map_to_list m1 ++ map_to_list m2.
Proof.
  intros Hd. apply NoDup_Permutation.
  - apply NoDup_map_to_list.
  - apply NoDup_app. split_and!; [apply NoDup_map_to_list| |apply NoDup_map_to_list].
    intros [k v] H1 H2. apply elem_of_map_to_list in H1, H2. by eapply map_disjoint_spec.
  - intros [k v]. rewrite elem_of_app, !elem_of_map_to_list. by apply lookup_union_Some.
Qed.

Context (hash_iter : gmap Bytes V → list (Bytes * V)).
Context (hash_iter_perm : ∀ m, hash_iter m ≡ₚ map_to_list m).

Lemma visit_perm self : km_ok self → visit hash_iter self ≡ₚ map_to_list (contents self).
Proof.
  intros Hok%separate_ok. unfold visit, contents. induction (shards self) as [|m l IH]; simpl in *.
  - by rewrite map_to_list_empty.
  - destruct Hok. rewrite IH, hash_iter_perm, union_to_list by done. done.
Qed.

Lemma keys_perm self pat :
  km_ok self →
  km_keys hash_iter self pat ≡ₚ filter (λ k, key_matches pat k = true) (map_to_list (contents self)).*1.
Proof.
  intros Hok. rewrite <- (visit_perm self Hok). unfold km_keys, visit.
  induction (shards self) as [|m l IH]; simpl; [done|]. by rewrite IH, fmap_app, filter_app.
Qed.

Lemma sizes_zero (l : list (gmap Bytes V)) : sum_list (size <$> l) = 0 ↔ ∀ m, m ∈ l → size m = 0.
Proof.
  induction l as [|m l IH]; [set_solver|].
  change (sum_list (size <$> m :: l)) with (size m + sum_list (size <$> l)).
  rewrite Nat.eq_add_0, IH. setoid_rewrite elem_of_cons. naive_solver.
Qed.

Lemma is_empty_spec self : km_ok self → km_is_empty self = bool_decide (contents self = ∅).
Proof.
  intros Hok%separate_ok. unfold km_is_empty, contents. apply eq_true_iff_eq.
  rewrite forallb_forall, bool_decide_eq_true. setoid_rewrite <- list_elem_of_In.
  setoid_rewrite bool_decide_eq_true. by rewrite <- map_size_empty_iff, separate_size, sizes_zero.
Qed.

Lemma union_empties (l : list (gmap Bytes V)) : (∀ m, m ∈ l → m = ∅) → ⋃ l = ∅.
Proof.
  intros H. apply map_eq. intros k. rewrite lookup_empty. apply lookup_union_list_None, Forall_forall.
  intros m ->%H. apply lookup_empty.
Qed.

Lemma clear_ok self : km_ok self → km_ok (km_clear self) ∧ contents (km_clear self) = ∅.
Proof.
  intros [H1 H2 H3 H4]. split.
  - split; simpl; [done|by rewrite length_fmap|done|].
    intros i m k Hi [v Hv]. rewrite list_lookup_fmap in Hi. destruct (shards self !! i); [|done].
    injection Hi as <-. by rewrite lookup_empty in Hv.
  - apply union_empties. intros m (m' & -> & _)%list_elem_of_fmap. done.
Qed.

Lemma fill_all_spec entries self :
  km_ok self → ∃ self', fill_all hash_one self entries = Ret self' ∧ km_ok self' ∧
    contents self' = foldl (λ m e, <[e.1 := e.2]> m) (contents self) entries ∧
    cas_counters self' = cas_counters self ∧ num_shards self' = num_shards self.
Proof.
  revert self. induction entries as [|[k v] entries IH]; intros self Hok; simpl; [by exists self|].
  destruct (km_insert_spec self k v Hok) as (s1 & -> & Hok1 & E1 & C1 & N1). cbn [mbind exec_bind fst].
  destruct (IH s1 Hok1) as (s2 & -> & Hok2 & E2 & C2 & N2). exists s2. rewrite <- E1, <- C1, <- N1. done.
Qed.

(** ** Programs *)

Inductive kop : Type :=
| KInsert (k : Bytes) (v : V)
| KRemove (k : Bytes)
| KMutate (k : Bytes) (f : option V → Z → MapAction V)
| KNextCas (k : Bytes)
| KGetOrInsert (k : Bytes) (v : V)
| KClear
| KReplaceAll (es : list (Bytes * V)).

Definition kexec self (o : kop) : exec (ShardedKeyMap V) :=
  match o with
  | KInsert k v => p ← km_insert hash_one self k v; Ret p.1
  | KRemove k => p ← km_remove hash_one self k; Ret p.1
  | KMutate k f => p ← mutate hash_one self k (λ cur cas, (f cur cas, tt)); Ret p.1
  | KNextCas k => p ← next_cas hash_one self k; Ret p.1
  | KGetOrInsert k v => p ← get_or_insert_with hash_one self k (λ _, v); Ret p.1
  | KClear => Ret (km_clear self)
  | KReplaceAll es => replace_all hash_one hash_iter self es
  end.

Fixpoint krun self (ops : list kop) : exec (ShardedKeyMap V) :=
  match ops with
  | [] => Ret self
  | o :: ops => self ← kexec self o; krun self ops
  end.

(** The specification: one flat map, and the tokens issued so far for each shard. *)
Definition kspec (n : nat) (st : gmap Bytes V * (nat → Z)) (o : kop) : gmap Bytes V * (nat → Z) :=
  let '(m, issued) := st in
  let issue k := λ i, (if (i =? idx n k)%nat then issued i + 1 else issued i)%Z in
  match o with
  | KInsert k v => (<[k := v]> m, issued)
  | KRemove k => (delete k m, issued)
  | KMutate k f => (apply_action k (f (m !! k) (wrap_u64 (1 + issued (idx n k)))) m, issue k)
  | KNextCas k => (m, issue k)
  | KGetOrInsert k v => (<[k := default v (m !! k)]> m, issued)
  | KClear => (∅, issued)
  | KReplaceAll es => (foldl (λ m e, <[e.1 := e.2]> m) ∅ es, issued)
  end.

(** The map holds the content, and the counters count the tokens modulo 2^64. *)
Definition represents (n : nat) self (st : gmap Bytes V * (nat → Z)) : Prop :=
  km_ok self ∧ num_shards self = n ∧ contents self = st.1 ∧
  ∀ i c, cas_counters self !! i = Some c → c = wrap_u64 (1 + st.2 i).

Lemma issue_counters (cs : list Z) c (issued : nat → Z) j :
  (∀ i c, cs !! i = Some c → c = wrap_u64 (1 + issued i)) → cs !! j = Some c →
  ∀ i c', <[j := wrap_u64 (c + 1)]> cs !! i = Some c' →
    c' = wrap_u64 (1 + (if (i =? j)%nat then issued i + 1 else issued i))%Z.
Proof.
  intros H Hj i c' Hi. destruct (Nat.eqb_spec i j) as [->|Hne].
  - rewrite list_lookup_insert_eq in Hi by by eapply lookup_lt_Some. injection Hi as <-.
    rewrite (H _ _ Hj). unfold wrap_u64. rewrite Zplus_mod_idemp_l. f_equal. lia.
  - rewrite list_lookup_insert_ne in Hi by done. by apply H.
Qed.

Lemma kexec_spec n self st o :
  represents n self st → ∃ self', kexec self o = Ret self' ∧ represents n self' (kspec n st o).
Proof.
  destruct st as [m issued]. intros (Hok & Hn & Hm & Hc). simpl in Hm, Hc. subst m.
  assert (Ei : ∀ k, shard_index hash_one self k = idx n k) by (intros k; unfold shard_index; by rewrite Hn).
  destruct o; simpl.
  - destruct (km_insert_spec self k v Hok) as (s1 & -> & Hok1 & E1 & C1 & N1).
    eexists. split; [done|]. split_and!; simpl; [done|congruence|done|by rewrite C1].
  - destruct (km_remove_spec self k Hok) as (s1 & -> & Hok1 & E1 & C1 & N1).
    eexists. split; [done|]. split_and!; simpl; [done|congruence|done|by rewrite C1].
  - destruct (mutate_spec self k (λ cur cas, (f cur cas, tt)) Hok) as (c & s1 & Hcas & -> & Hok1 & E1 & C1 & N1).
    eexists. split; [done|]. rewrite Ei in Hcas, C1. split_and!; simpl; [done|congruence| |].
    + rewrite E1. simpl. by rewrite (Hc _ _ Hcas).
    + rewrite C1. by apply issue_counters.
  - destruct (next_cas_spec self k Hok) as (c & s1 & Hcas & -> & Hok1 & S1 & C1 & N1).
    eexists. split; [done|]. rewrite Ei in Hcas, C1. split_and!; simpl; [done|congruence| |].
    + unfold contents. by rewrite S1.
    + rewrite C1. by apply issue_counters.
  - destruct (get_or_insert_spec self k (λ _, v) Hok) as (s1 & -> & Hok1 & E1 & C1 & N1).
    eexists. split; [done|]. split_and!; simpl; [done|congruence|done|by rewrite C1].
  - destruct (clear_ok self Hok) as [Hok1 E1]. eexists. split; [done|]. by split_and!.
  - destruct (clear_ok self Hok) as [Hok1 E1].
    destruct (fill_all_spec es (km_clear self) Hok1) as (s2 & E & Hok2 & E2 & C2 & N2).
    unfold replace_all, drain_all. simpl. rewrite E. eexists. split; [done|]. rewrite E1 in E2.
    split_and!; simpl; [done|by rewrite N2|done|by rewrite C2].
Qed.

Lemma km_new_represents n : represents (n `max` 1) (km_new n) (∅, λ _, 0%Z).
Proof.
  split_and!; simpl; [|done|apply union_empties; by intros m [-> _]%elem_of_replicate|].
  - split; cbn [num_shards km_new shards cas_counters].
    + lia.
    + by rewrite length_replicate.
    + by rewrite length_replicate.
    + intros i m k [-> _]%lookup_replicate [v Hv]. by rewrite lookup_empty in Hv.
  - intros i c [-> _]%lookup_replicate. done.
Qed.

Lemma krun_spec n self st ops :
  represents n self st → ∃ self', krun self ops = Ret self' ∧ represents n self' (foldl (kspec n) st ops).
Proof.
  revert self st. induction ops as [|o ops IH]; intros self st H; simpl; [by exists self|].
  destruct (kexec_spec n self st o H) as (s1 & -> & H1). by apply IH.
Qed.

(** ** Sampling *)

Lemma get_random_spec self draws k v :
  km_ok self → get_random hash_iter self draws = Some (k, v) → contents self !! k = Some v.
Proof.
  intros Hok. induction draws as [|d draws IH]; simpl; [done|].
  destruct (random_attempt hash_iter self d) as [e|] eqn:E; [|done]. intros [= ->].
  unfold random_attempt in E. destruct (shards self !! d.1) as [m|] eqn:Em; [|done].
  destruct (size m =? 0); [done|]. apply list_elem_of_lookup_2 in E.
  rewrite hash_iter_perm, elem_of_map_to_list in E.
  rewrite (contents_lookup self m k); [done|done|]. by rewrite (km_place self Hok d.1 m k Em) by eauto.
Qed.

Definition sample_ok self (n : nat) (seen : gset Bytes) (result : list (Bytes * V)) : Prop :=
  length result ≤ n ∧ NoDup result.*1 ∧ (∀ k, k ∈ result.*1 → k ∈ seen) ∧
  ∀ k v, (k, v) ∈ result → contents self !! k = Some v.

Lemma get_n_random_ok self n rounds seen result :
  km_ok self → sample_ok self n seen result →
  ∃ seen', sample_ok self n seen' (get_n_random hash_iter self n rounds seen result).
Proof.
  intros Hok. revert seen result. induction rounds as [|draws rounds IH]; intros seen result H; simpl;
    [by exists seen|].
  destruct (Nat.leb_spec n (length result)) as [|Hlt]; [by exists seen|].
  destruct (get_random hash_iter self draws) as [[k v]|] eqn:E; [|by exists seen].
  destruct H as (Hl & Hd & Hs & Hc). case_decide as Hk; [by apply IH|]. apply IH. split_and!.
  - rewrite length_app. simpl. lia.
  - rewrite fmap_app. apply NoDup_app. split_and!; [done| |apply NoDup_singleton].
    intros k' H1 H2. apply list_elem_of_singleton in H2 as ->. by apply Hk, Hs.
  - intros k'. rewrite fmap_app, elem_of_app. intros [H'|H'%list_elem_of_singleton]; set_solver.
  - intros k' v' [H'|H'%list_elem_of_singleton]%elem_of_app; [by apply Hc|].
    injection H' as -> ->. by eapply get_random_spec.
Qed.

(** ** Properties *)

(** The sharded map is one flat map.  After any sequence of insertions, removals, read-modify-write
    calls, get-or-insert, clear and replace-all, for any hash function, number of shards and iteration
    order, no call has panicked; lookups, length, the emptiness test, the entries visited and the keys
    listed for a glob pattern are those of the flat map; and a random sample consists of at most [n]
    entries of the map with distinct keys. *)
Theorem keymap_refines n ops :
  ∃ self, krun (km_new n) ops = Ret self ∧
    let m := (foldl (kspec (n `max` 1)) (∅, λ _, 0%Z) ops).1 in
    (∀ k, km_get hash_one self k = Ret (m !! k) ∧
          contains_key hash_one self k = Ret (bool_decide (is_Some (m !! k)))) ∧
    km_len self = size m ∧ km_is_empty self = bool_decide (m = ∅) ∧
    visit hash_iter self ≡ₚ map_to_list m ∧
    (∀ pat, km_keys hash_iter self pat ≡ₚ filter (λ k, key_matches pat k = true) (map_to_list m).*1) ∧
    (∀ count rounds, let l := get_n_random hash_iter self count rounds ∅ [] in
       length l ≤ count ∧ NoDup l.*1 ∧ ∀ k v, (k, v) ∈ l → m !! k = Some v).
Proof.
  destruct (krun_spec _ _ _ ops (km_new_represents n)) as (self & E & Hok & _ & Em & _).
  exists self. split; [done|]. rewrite <- Em. cbv zeta. split_and!.
  - intros k. unfold km_get, contains_key, shard, index. destruct (shard_ok self k Hok) as [m Hm].
    rewrite Hm, (contents_lookup self m k Hok Hm). done.
  - symmetry. by apply separate_size, separate_ok.
  - by apply is_empty_spec.
  - by apply visit_perm.
  - intros pat. by apply keys_perm.
  - intros count rounds. destruct (get_n_random_ok self count rounds ∅ [] Hok) as (seen & ? & ? & _ & ?); [|done].
    split_and!; simpl; [lia|constructor|set_solver|set_solver].
Qed.

(** CAS tokens.  After any sequence of operations the next token for a key is one more than the
    number of tokens that [next_cas] and read-modify-write calls have taken from its shard, modulo
    2^64; so the tokens a key sees are 1, 2, 3, ... and do not repeat before the counter wraps, and
    replacing or clearing the map does not reset them. *)
Theorem keymap_cas_tokens n ops k :
  let issued := (foldl (kspec (n `max` 1)) (∅, λ _, 0%Z) ops).2 in
  ∃ self self', krun (km_new n) ops = Ret self ∧
    next_cas hash_one self k = Ret (self', wrap_u64 (1 + issued (idx (n `max` 1) k))).
Proof.
  intros issued. destruct (krun_spec _ _ _ ops (km_new_represents n)) as (self & E & Hok & Hn & _ & Hc).
  destruct (next_cas_spec self k Hok) as (c & s' & Hcas & Hnext & _).
  exists self, s'. split; [done|]. rewrite Hnext. f_equal. f_equal. fold issued in Hc.
  assert (shard_index hash_one self k = idx (n `max` 1) k) as Ei by (unfold shard_index; by rewrite Hn).
  rewrite Ei in Hcas. by apply Hc.
Qed.
End facts.
