(* ===== verification/FairQueue.v ===== *)
(** * Fair lock queue ([src/fair_queue.rs])

    Per-resource waiting queues in priority order, first come first served
    within a priority.  Every method runs under the write lock of the queue map,
    so a method is one step on the state; the background sweep takes the lock once
    per resource and is modelled as such steps.  The clock is an argument, read
    once per step.  Resource names are strings, counters wrap at 64 bits. *)

From S2P Require Import Prelude RustStd.
From Stdlib Require Import Lia.
Local Open Scope Z_scope.

(** ** Clients *)

Record QueuedClient : Type := mkQueuedClient {
  client_id : Bytes;
  resource : Str;
  queued_at : Z;
  ttl : Z;
  priority : Z
}.

#[global] Instance QueuedClient_eq_dec : EqDecision QueuedClient.
Proof. solve_decision. Defined.

Definition QueuedClient_new (id : Bytes) (res : Str) (ttl priority now : Z) : QueuedClient :=
  mkQueuedClient id res now ttl priority.

Definition is_expired (now : Z) (c : QueuedClient) : bool := wrap_u64 (queued_at c + ttl c) <? now.

Definition wait_time (now : Z) (c : QueuedClient) : Z := sat_sub_u64 now (queued_at c).

(** ** State *)

Record FairQueueStats : Type := mkStats {
  total_queued : nat;
  active_queues : nat;
  total_enqueued : Z;
  total_dequeued : Z;
  total_expired : Z;
  total_claim_denied : Z;
  total_removed : Z;
  max_wait_time : Z;
  avg_wait_time : Z
}.

Record FairQueue : Type := mkFairQueue {
  queues : gmap Str (list QueuedClient);
  max_queue_size : nat;
  stats : FairQueueStats
}.

Definition fq_new (max : nat) : FairQueue := mkFairQueue ∅ max (mkStats 0 0 0 0 0 0 0 0 0).

(** [queues.values().map(|q| q.len()).sum()] *)
Definition count_queued (qs : gmap Str (list QueuedClient)) : nat :=
  map_fold (λ _ q n, length q + n)%nat 0%nat qs.

(** The two gauges, recomputed from the map. *)
Definition refresh (qs : gmap Str (list QueuedClient)) (st : FairQueueStats) : FairQueueStats :=
  mkStats (count_queued qs) (size qs) (total_enqueued st) (total_dequeued st) (total_expired st)
    (total_claim_denied st) (total_removed st) (max_wait_time st) (avg_wait_time st).

Definition add_enqueued (st : FairQueueStats) : FairQueueStats :=
  mkStats (total_queued st) (active_queues st) (wrap_u64 (total_enqueued st + 1)) (total_dequeued st)
    (total_expired st) (total_claim_denied st) (total_removed st) (max_wait_time st) (avg_wait_time st).

Definition add_expired (n : nat) (st : FairQueueStats) : FairQueueStats :=
  mkStats (total_queued st) (active_queues st) (total_enqueued st) (total_dequeued st)
    (wrap_u64 (total_expired st + Z.of_nat n)) (total_claim_denied st) (total_removed st)
    (max_wait_time st) (avg_wait_time st).

Definition add_denied (st : FairQueueStats) : FairQueueStats :=
  mkStats (total_queued st) (active_queues st) (total_enqueued st) (total_dequeued st)
    (total_expired st) (wrap_u64 (total_claim_denied st + 1)) (total_removed st)
    (max_wait_time st) (avg_wait_time st).

Definition add_removed (st : FairQueueStats) : FairQueueStats :=
  mkStats (total_queued st) (active_queues st) (total_enqueued st) (total_dequeued st)
    (total_expired st) (total_claim_denied st) (wrap_u64 (total_removed st + 1))
    (max_wait_time st) (avg_wait_time st).

(** Counting a dequeue: the maximum and the running average of the waiting times.  The division
    panics if the counter has wrapped to zero. *)
Definition add_dequeued (wait : Z) (st : FairQueueStats) : exec FairQueueStats :=
  let total := wrap_u64 (total_dequeued st + 1) in
  let max := if max_wait_time st <? wait then wait else max_wait_time st in
  if total =? 0 then Panic else
  let avg := wrap_u64 (wrap_u64 (avg_wait_time st * wrap_u64 (total - 1)) + wait) / total in
  Ret (mkStats (total_queued st) (active_queues st) (total_enqueued st) total (total_expired st)
         (total_claim_denied st) (total_removed st) max avg).

(** ** Queues as lists *)

(** [iter().position(p)] *)
Fixpoint find_pos {A} (p : A → bool) (l : list A) : option nat :=
  match l with
  | [] => None
  | x :: l => if p x then Some 0%nat else S <$> find_pos p l
  end.

Definition insert_pos {A} (i : nat) (x : A) (l : list A) : list A := take i l ++ x :: drop i l.
Definition remove_pos {A} (i : nat) (l : list A) : list A := take i l ++ drop (S i) l.

Definition is_client (id : Bytes) (c : QueuedClient) : bool := bool_decide (client_id c = id).

(** [retain(|c| !c.is_expired())] *)
Definition live (now : Z) (q : list QueuedClient) : list QueuedClient :=
  filter (λ c, is_expired now c = false) q.

(** Storing a queue, or removing its entry once it is empty. *)
Definition put (r : Str) (q : list QueuedClient) (qs : gmap Str (list QueuedClient))
    : gmap Str (list QueuedClient) :=
  if decide (q = []) then delete r qs else <[r := q]> qs.

Definition get_queue (self : FairQueue) (r : Str) : list QueuedClient := default [] (queues self !! r).

Definition with_state (self : FairQueue) (qs : gmap Str (list QueuedClient)) (st : FairQueueStats)
    : FairQueue := mkFairQueue qs (max_queue_size self) st.

(** ** Operations *)

Definition enqueue (self : FairQueue) (c : QueuedClient) : FairQueue * bool :=
  let q := get_queue self (resource c) in
  if (max_queue_size self <=? length q)%nat then
    (with_state self (<[resource c := q]> (queues self)) (stats self), false)
  else
    let pos := default (length q) (find_pos (λ x, priority c <? priority x) q) in
    let qs := <[resource c := insert_pos pos c q]> (queues self) in
    (with_state self qs (add_enqueued (refresh qs (stats self))), true).

(** The clean-up shared by [cleanup_expired], [try_acquire] and [is_next]. *)
Definition cleanup_expired (self : FairQueue) (r : Str) (now : Z) : FairQueue * nat :=
  match queues self !! r with
  | None => (self, 0%nat)
  | Some q =>
    let qs := put r (live now q) (queues self) in
    let n := (length q - length (live now q))%nat in
    (with_state self qs
       (if (0 <? n)%nat then refresh qs (add_expired n (stats self)) else stats self), n)
  end.

Definition is_next (self : FairQueue) (r : Str) (id : Bytes) (now : Z) : FairQueue * bool :=
  let self := (cleanup_expired self r now).1 in
  (self, match head (get_queue self r) with Some front => is_client id front | None => true end).

Definition try_acquire (self : FairQueue) (r : Str) (id : Bytes) (now : Z) : FairQueue * bool :=
  let self := (cleanup_expired self r now).1 in
  match head (get_queue self r) with
  | Some front =>
    if is_client id front then (self, true)
    else (with_state self (queues self) (add_denied (stats self)), false)
  | None => (self, true)
  end.

(** Counting the dequeued client, if there is one. *)
Definition count_dequeue (self : FairQueue) (qs : gmap Str (list QueuedClient))
    (c : option QueuedClient) (now : Z) : exec (FairQueue * option QueuedClient) :=
  match c with
  | None => Ret (with_state self qs (stats self), None)
  | Some x =>
    st ← add_dequeued (wait_time now x) (refresh qs (stats self));
    Ret (with_state self qs st, Some x)
  end.

Definition dequeue_client (self : FairQueue) (r : Str) (id : Bytes) (now : Z)
    : exec (FairQueue * option QueuedClient) :=
  match queues self !! r with
  | None => Ret (self, None)
  | Some q =>
    let matches_front := match head q with Some c => is_client id c | None => false end in
    let '(c, q) :=
      if matches_front then (head q, tail q)
      else match find_pos (is_client id) q with
           | Some pos => (q !! pos, remove_pos pos q)
           | None => (None, q)
           end in
    count_dequeue self (put r q (queues self)) c now
  end.

Definition dequeue (self : FairQueue) (r : Str) (now : Z) : exec (FairQueue * option QueuedClient) :=
  match queues self !! r with
  | None => Ret (self, None)
  | Some q => count_dequeue self (put r (tail q) (queues self)) (head q) now
  end.

Definition remove (self : FairQueue) (r : Str) (id : Bytes) : FairQueue * bool :=
  match queues self !! r with
  | None => (self, false)
  | Some q =>
    match find_pos (is_client id) q with
    | None => (self, false)
    | Some pos =>
      let qs := put r (remove_pos pos q) (queues self) in
      (with_state self qs (add_removed (refresh qs (stats self))), true)
    end
  end.

Definition queue_length (self : FairQueue) (r : Str) : nat := length (get_queue self r).

Definition queue_position (self : FairQueue) (r : Str) (id : Bytes) : option nat :=
  find_pos (is_client id) (get_queue self r).

(** All resources, in the order [keys] lists them. *)
Fixpoint cleanup_list (self : FairQueue) (rs : list Str) (now : Z) : FairQueue * nat :=
  match rs with
  | [] => (self, 0%nat)
  | r :: rs =>
    let '(self, n) := cleanup_expired self r now in
    let '(self, m) := cleanup_list self rs now in
    (self, (n + m)%nat)
  end.

Definition cleanup_all_expired (hash_iter : gmap Str (list QueuedClient) → list Str)
    (self : FairQueue) (now : Z) : FairQueue * nat :=
  cleanup_list self (hash_iter (queues self)) now.

Definition clear (self : FairQueue) : FairQueue :=
  with_state self ∅
    (let st := stats self in
     mkStats 0 0 (total_enqueued st) (total_dequeued st) (total_expired st) (total_claim_denied st)
       (total_removed st) (max_wait_time st) (avg_wait_time st)).

(** The background thread: a sweep of one resource, and the update of the statistics after a round
    that removed [n] entries. *)
Definition sweep_one (self : FairQueue) (r : Str) (now : Z) : FairQueue * nat :=
  match queues self !! r with
  | None => (self, 0%nat)
  | Some q =>
    (with_state self (put r (live now q) (queues self)) (stats self),
     (length q - length (live now q))%nat)
  end.

Definition sweep_commit (self : FairQueue) (n : nat) : FairQueue :=
  if (0 <? n)%nat then with_state self (queues self) (refresh (queues self) (add_expired n (stats self)))
  else self.
