(* ===== verification/FairQueueFacts.v ===== *)
(** * Fairness of the lock queue

    Programs of queue operations, the invariant of the queues and of the
    statistics, and the fairness they give: nobody is overtaken by a client of the
    same or a lower priority, and at most one waiting client has the turn. *)

From S2P Require Import Prelude RustStd FairQueue.
From Stdlib Require Import Lia.
Local Open Scope Z_scope.

(** ** Insertion by priority *)

Fixpoint insert_prio (c : QueuedClient) (q : list QueuedClient) : list QueuedClient :=
  match q with
  | [] => [c]
  | x :: q' => if priority c <? priority x then c :: q else x :: insert_prio c q'
  end.

Lemma insert_pos_prio c q :
  insert_pos (default (length q) (find_pos (λ x, priority c <? priority x) q)) c q = insert_prio c q.
Proof.
  induction q as [|x q IH]; [done|]. cbn [find_pos insert_prio].
  destruct (priority c <? priority x); [done|]. rewrite <- IH.
  destruct (find_pos _ q); simpl; done.
Qed.

Definition prio_le (a b : QueuedClient) : Prop := priority a ≤ priority b.
Definition sorted (q : list QueuedClient) : Prop := StronglySorted prio_le q.

Lemma insert_prio_perm c q : insert_prio c q ≡ₚ c :: q.
Proof.
  induction q as [|x q IH]; simpl; [done|]. destruct (priority c <? priority x); [done|].
  rewrite IH. apply Permutation_swap.
Qed.

Lemma insert_prio_sorted c q : sorted q → sorted (insert_prio c q).
Proof.
  intros Hs. induction Hs as [|x q Hs IH Hx]; simpl; [repeat constructor|].
  destruct (Z.ltb_spec (priority c) (priority x)).
  - constructor; [by constructor|]. constructor; [unfold prio_le; lia|].
    eapply Forall_impl; [exact Hx|]. unfold prio_le. intros; lia.
  - constructor; [done|]. rewrite insert_prio_perm. constructor; [unfold prio_le; lia|done].
Qed.

(** Where a new client goes relative to a waiting one. *)
Lemma insert_prio_before c' c l1 l2 :
  priority c' < priority c →
  ∃ a b, l1 = a ++ b ∧ insert_prio c' (l1 ++ c :: l2) = (a ++ c' :: b) ++ c :: l2.
Proof.
  intros Hlt. induction l1 as [|x l1 IH]; cbn [app insert_prio].
  - exists [], []. by rewrite (proj2 (Z.ltb_lt _ _) Hlt).
  - destruct (priority c' <? priority x); [by exists [], (x :: l1)|].
    destruct IH as (a & b & -> & ->). by exists (x :: a), b.
Qed.

Lemma insert_prio_after c' c l1 l2 :
  sorted (l1 ++ c :: l2) → priority c ≤ priority c' →
  insert_prio c' (l1 ++ c :: l2) = l1 ++ c :: insert_prio c' l2.
Proof.
  intros Hs Hle. induction l1 as [|x l1 IH]; cbn [app insert_prio].
  - by rewrite (proj2 (Z.ltb_ge _ _) Hle).
  - apply StronglySorted_inv in Hs as [Hs Hx]. rewrite Forall_app, Forall_cons in Hx.
    destruct Hx as (_ & Hx & _). unfold prio_le in Hx.
    rewrite (proj2 (Z.ltb_ge _ _)) by lia. by rewrite IH.
Qed.

(** ** Lists with a marked element *)

Lemma pivot_unique {A} (x : A) l1 l2 k1 k2 :
  l1 ++ x :: l2 = k1 ++ x :: k2 → x ∉ l1 → x ∉ l2 → l1 = k1 ∧ l2 = k2.
Proof.
  revert k1. induction l1 as [|y l1 IH]; intros [|z k1]; simpl; intros E H1 H2; simplify_eq/=.
  - done.
  - exfalso. apply H2. set_solver.
  - exfalso. apply H1. left.
  - destruct (IH k1) as [-> ->]; [done|set_solver|done|done].
Qed.

Lemma sublist_pivot {A} (x : A) l1 l2 k1 k2 :
  sublist (k1 ++ x :: k2) (l1 ++ x :: l2) → x ∉ l1 → x ∉ l2 → sublist k1 l1 ∧ sublist k2 l2.
Proof.
  intros Hs H1 H2. apply sublist_app_l in Hs as (m1 & m2 & E & S1 & S2).
  apply sublist_cons_l in S2 as (m3 & m4 & -> & S2). rewrite app_assoc in E.
  apply pivot_unique in E as [-> ->]; [|done|done]. split; [|done].
  etrans; [exact S1|]. apply sublist_inserts_r. done.
Qed.

Lemma sorted_sublist q q' : sublist q' q → sorted q → sorted q'.
Proof.
  induction 1 as [|x l1 l2 Hs IH|x l1 l2 Hs IH]; intros Hq; [done| |].
  - apply StronglySorted_inv in Hq as [Hq Hx]. constructor; [by apply IH|].
    rewrite Forall_forall in Hx |- *. intros y Hy. apply Hx.
    eapply elem_of_submseteq; [exact Hy|by apply sublist_submseteq].
  - apply StronglySorted_inv in Hq as [Hq _]. by apply IH.
Qed.

Lemma remove_pos_sublist {A} i (l : list A) : sublist (remove_pos i l) l.
Proof.
  unfold remove_pos. rewrite <- (take_drop i l) at 3. apply sublist_app; [done|].
  replace (drop (S i) l) with (drop 1 (drop i l)) by (rewrite drop_drop; f_equal; lia).
  apply sublist_drop.
Qed.

(** ** Programs *)

Inductive fop : Type :=
| Enqueue (c : QueuedClient)
| IsNext (r : Str) (id : Bytes) (now : Z)
| TryAcquire (r : Str) (id : Bytes) (now : Z)
| DequeueClient (r : Str) (id : Bytes) (now : Z)
| Dequeue (r : Str) (now : Z)
| Remove (r : Str) (id : Bytes)
| CleanupExpired (r : Str) (now : Z)
| CleanupAllExpired (rs : list Str) (now : Z)
| Clear
| Sweep (r : Str) (now : Z)
| SweepCommit (n : nat).

Definition fexec (s : FairQueue) (o : fop) : exec FairQueue :=
  match o with
  | Enqueue c => Ret (enqueue s c).1
  | IsNext r id now => Ret (is_next s r id now).1
  | TryAcquire r id now => Ret (try_acquire s r id now).1
  | DequeueClient r id now => p ← dequeue_client s r id now; Ret p.1
  | Dequeue r now => p ← dequeue s r now; Ret p.1
  | Remove r id => Ret (remove s r id).1
  | CleanupExpired r now => Ret (cleanup_expired s r now).1
  | CleanupAllExpired rs now => Ret (cleanup_list s rs now).1
  | Clear => Ret (clear s)
  | Sweep r now => Ret (sweep_one s r now).1
  | SweepCommit n => Ret (sweep_commit s n)
  end.

Fixpoint frun (s : FairQueue) (ops : list fop) : exec FairQueue :=
  match ops with
  | [] => Ret s
  | o :: ops => s ← fexec s o; frun s ops
  end.

(** ** What a step does to a queue *)

Lemma get_queue_put s r q st r' :
  get_queue (with_state s (put r q (queues s)) st) r' = if decide (r = r') then q else get_queue s r'.
Proof.
  unfold get_queue, put. simpl. destruct (decide (q = [])) as [->|Hq]; case_decide; subst.
  - by rewrite lookup_delete_eq.
  - by rewrite lookup_delete_ne.
  - by rewrite lookup_insert_eq.
  - by rewrite lookup_insert_ne.
Qed.

Lemma get_queue_Some s r q : queues s !! r = Some q → get_queue s r = q.
Proof. unfold get_queue. by intros ->. Qed.

Lemma cleanup_queue s r now r' :
  get_queue (cleanup_expired s r now).1 r' =
  if decide (r = r') then live now (get_queue s r') else get_queue s r'.
Proof.
  unfold cleanup_expired. destruct (queues s !! r) as [q|] eqn:E; simpl.
  - rewrite get_queue_put. case_decide; [|done]. subst. by rewrite (get_queue_Some s r' q).
  - case_decide; [|done]. subst. unfold get_queue. by rewrite E.
Qed.

Lemma cleanup_max s r now : max_queue_size (cleanup_expired s r now).1 = max_queue_size s.
Proof. unfold cleanup_expired. by destruct (queues s !! r). Qed.

Lemma live_sublist now q : sublist (live now q) q.
Proof. apply sublist_filter. Qed.

Definition shrinks (s s' : FairQueue) : Prop :=
  max_queue_size s' = max_queue_size s ∧ ∀ r, sublist (get_queue s' r) (get_queue s r).

Lemma shrinks_refl s : shrinks s s.
Proof. split; [done|]. by intros r. Qed.

Lemma shrinks_put s r q st :
  sublist q (get_queue s r) → shrinks s (with_state s (put r q (queues s)) st).
Proof. intros Hq. split; [done|]. intros r'. rewrite get_queue_put. case_decide; [by subst|done]. Qed.

Lemma shrinks_trans s1 s2 s3 : shrinks s1 s2 → shrinks s2 s3 → shrinks s1 s3.
Proof. intros [E1 H1] [E2 H2]. split; [congruence|]. intros r. etrans; [apply H2|apply H1]. Qed.

Lemma shrinks_stats s s' st : shrinks s s' → shrinks s (with_state s' (queues s') st).
Proof. done. Qed.

Lemma shrinks_cleanup s r now : shrinks s (cleanup_expired s r now).1.
Proof.
  split; [apply cleanup_max|]. intros r'. rewrite cleanup_queue. case_decide; [apply live_sublist|done].
Qed.

Lemma shrinks_cleanup_list s rs now : shrinks s (cleanup_list s rs now).1.
Proof.
  revert s. induction rs as [|r rs IH]; intros s; simpl; [apply shrinks_refl|].
  pose proof (shrinks_cleanup s r now) as H. destruct (cleanup_expired s r now) as [s' n].
  specialize (IH s'). destruct (cleanup_list s' rs now). by eapply shrinks_trans.
Qed.

Lemma count_dequeue_state s qs c now s' x :
  count_dequeue s qs c now = Ret (s', x) → ∃ st, s' = with_state s qs st.
Proof.
  unfold count_dequeue. destruct c as [c|]; [|intros [= <- _]; by eexists].
  destruct (add_dequeued _ _); [|done]. intros [= <- _]. by eexists.
Qed.

Lemma shrinks_dequeue_client s r id now s' x :
  dequeue_client s r id now = Ret (s', x) → shrinks s s'.
Proof.
  unfold dequeue_client. destruct (queues s !! r) as [q|] eqn:E; [|intros [= <- _]; apply shrinks_refl].
  apply get_queue_Some in E.
  match goal with |- context [let '(_, _) := ?e in _] => destruct e as [c q'] eqn:E' end.
  intros [st ->]%count_dequeue_state. apply shrinks_put. rewrite E.
  destruct (match head q with Some c => is_client id c | None => false end).
  - injection E' as _ <-. destruct q; [done|]. by apply sublist_cons.
  - destruct (find_pos _ q) as [pos|]; injection E' as _ <-; [apply remove_pos_sublist|done].
Qed.

Lemma shrinks_dequeue s r now s' x : dequeue s r now = Ret (s', x) → shrinks s s'.
Proof.
  unfold dequeue. destruct (queues s !! r) as [q|] eqn:E; [|intros [= <- _]; apply shrinks_refl].
  apply get_queue_Some in E. intros [st ->]%count_dequeue_state. apply shrinks_put. rewrite E.
  destruct q; [done|]. by apply sublist_cons.
Qed.

Lemma get_queue_insert s r q st r' :
  get_queue (with_state s (<[r := q]> (queues s)) st) r' = if decide (r = r') then q else get_queue s r'.
Proof.
  unfold get_queue. simpl. case_decide; subst; [by rewrite lookup_insert_eq|by rewrite lookup_insert_ne].
Qed.

Lemma enqueue_queue s c r :
  get_queue (enqueue s c).1 r =
  if decide (resource c = r) then
    if (max_queue_size s <=? length (get_queue s r))%nat then get_queue s r
    else insert_prio c (get_queue s r)
  else get_queue s r.
Proof.
  unfold enqueue. rewrite insert_pos_prio. destruct (decide (resource c = r)) as [<-|Hne].
  - destruct (max_queue_size s <=? _)%nat; cbn [fst]; rewrite get_queue_insert; by rewrite decide_True.
  - case_match; cbn [fst]; rewrite get_queue_insert; by rewrite decide_False.
Qed.

(** Only [enqueue] lets a queue grow. *)
Lemma fexec_step s o s' :
  fexec s o = Ret s' → shrinks s s' ∨ ∃ c, o = Enqueue c ∧ s' = (enqueue s c).1.
Proof.
  destruct o; simpl; intros H.
  - right. injection H as <-. by eexists.
  - left. injection H as <-. apply shrinks_cleanup.
  - left. injection H as <-. unfold try_acquire. pose proof (shrinks_cleanup s r now).
    case_match; [|done]. by case_match.
  - left. destruct (dequeue_client s r id now) as [[s1 x]|] eqn:E; [|done]. injection H as <-.
    by eapply shrinks_dequeue_client.
  - left. destruct (dequeue s r now) as [[s1 x]|] eqn:E; [|done]. injection H as <-.
    by eapply shrinks_dequeue.
  - left. injection H as <-. unfold remove. destruct (queues s !! r) as [q|] eqn:E; [|apply shrinks_refl].
    destruct (find_pos _ q); [|apply shrinks_refl]. cbn [fst]. apply shrinks_put.
    rewrite (get_queue_Some s r q E). apply remove_pos_sublist.
  - left. injection H as <-. apply shrinks_cleanup.
  - left. injection H as <-. apply shrinks_cleanup_list.
  - left. injection H as <-. split; [done|]. intros r. unfold get_queue. simpl.
    rewrite lookup_empty. apply sublist_nil_l.
  - left. injection H as <-. unfold sweep_one. destruct (queues s !! r) as [q|] eqn:E; [|apply shrinks_refl].
    cbn [fst]. apply shrinks_put. rewrite (get_queue_Some s r q E). apply live_sublist.
  - left. injection H as <-. unfold sweep_commit. by case_match; [apply shrinks_stats|]; apply shrinks_refl.
Qed.

Lemma fexec_max s o s' : fexec s o = Ret s' → max_queue_size s' = max_queue_size s.
Proof.
  intros [[H _]|(c & _ & ->)]%fexec_step; [done|]. unfold enqueue. by case_match.
Qed.

(** ** The invariant of the queues *)

Record fq_ok (s : FairQueue) : Prop := {
  fq_sorted : ∀ r, sorted (get_queue s r);
  fq_bound : ∀ r, (length (get_queue s r) ≤ max_queue_size s)%nat
}.

Lemma fq_ok_new max : fq_ok (fq_new max).
Proof.
  split; intros r; unfold get_queue; simpl; rewrite lookup_empty; [constructor|simpl; lia].
Qed.

Lemma fexec_ok s o s' : fexec s o = Ret s' → fq_ok s → fq_ok s'.
Proof.
  intros H [Hs Hb]. pose proof (fexec_max s o s' H) as Hm. apply fexec_step in H as [[_ H]|(c & _ & ->)].
  - split; intros r.
    + by eapply sorted_sublist; [apply H|].
    + rewrite Hm. etrans; [|apply (Hb r)]. apply sublist_length, H.
  - split; intros r; rewrite ?Hm, enqueue_queue; destruct (decide (resource c = r)); try done.
    + case_match; [done|]. by apply insert_prio_sorted.
    + destruct (Nat.leb_spec (max_queue_size s) (length (get_queue s r))); [done|].
      rewrite insert_prio_perm. simpl. lia.
Qed.

(** ** The gauges, and the absence of panics *)

(** No entry for an empty queue. *)
Definition tight (qs : gmap Str (list QueuedClient)) : Prop := ∀ r q, qs !! r = Some q → q ≠ [].

Definition gauges (qs : gmap Str (list QueuedClient)) (st : FairQueueStats) : Prop :=
  total_queued st = count_queued qs ∧ active_queues st = size qs.

Lemma put_tight r q qs : tight qs → tight (put r q qs).
Proof.
  intros Ht r' q'. unfold put. case_decide.
  - intros [_ H']%lookup_delete_Some. by apply Ht in H'.
  - intros [[_ <-]|[_ H']]%lookup_insert_Some; [done|by apply Ht in H'].
Qed.

Lemma put_same r q qs : tight qs → qs !! r = Some q → put r q qs = qs.
Proof. intros Ht H. unfold put. rewrite decide_False by by apply Ht in H. by apply insert_id. Qed.

Lemma live_all now q : length (live now q) = length q → live now q = q.
Proof.
  unfold live. induction q as [|c q IH]; [done|]. rewrite filter_cons. case_decide; simpl; intros H'.
  - f_equal. apply IH. lia.
  - pose proof (sublist_length _ _ (live_sublist now q)) as Hl. unfold live in Hl. lia.
Qed.

Definition sound (s : FairQueue) : Prop := tight (queues s) ∧ gauges (queues s) (stats s).

Lemma cleanup_sound s r now : sound s → sound (cleanup_expired s r now).1.
Proof.
  intros [Ht Hg]. unfold cleanup_expired. destruct (queues s !! r) as [q|] eqn:E; [|done].
  split; cbn [fst queues stats with_state]; [by apply put_tight|]. case_match eqn:En; [done|].
  rewrite live_all, put_same; try done. pose proof (sublist_length _ _ (live_sublist now q)).
  apply Nat.ltb_ge in En. lia.
Qed.

Lemma cleanup_list_sound s rs now : sound s → sound (cleanup_list s rs now).1.
Proof.
  revert s. induction rs as [|r rs IH]; intros s Hs; simpl; [done|].
  pose proof (cleanup_sound s r now Hs) as H. destruct (cleanup_expired s r now) as [s' n].
  specialize (IH s' H). by destruct (cleanup_list s' rs now).
Qed.

Lemma enqueue_sound s c : (0 < max_queue_size s)%nat → sound s → sound (enqueue s c).1.
Proof.
  intros Hmax [Ht Hg]. unfold enqueue, get_queue.
  destruct (Nat.leb_spec (max_queue_size s) (length (default [] (queues s !! resource c)))) as [H|H].
  - destruct (queues s !! resource c) as [q|] eqn:E; [|simpl in H; lia]. simpl.
    unfold with_state. rewrite insert_id by done. by destruct s.
  - split; cbn [fst queues stats with_state]; [|done].
    intros r q [[_ <-]|[_ H']]%lookup_insert_Some; [|by apply Ht in H'].
    unfold insert_pos. by destruct (take _ _).
Qed.

Lemma add_dequeued_spec wait st n :
  0 ≤ total_dequeued st ≤ n → n < u64_max →
  ∃ st', add_dequeued wait st = Ret st' ∧ total_queued st' = total_queued st ∧
    active_queues st' = active_queues st ∧ 0 ≤ total_dequeued st' ≤ n + 1.
Proof.
  intros Hd Hn. unfold add_dequeued. assert (E : wrap_u64 (total_dequeued st + 1) = total_dequeued st + 1).
  { unfold wrap_u64. apply Z.mod_small. lia. }
  rewrite E. destruct (Z.eqb_spec (total_dequeued st + 1) 0); [lia|].
  eexists. split; [done|]. simpl. lia.
Qed.

Lemma count_dequeue_sound s qs c now n :
  0 ≤ total_dequeued (stats s) ≤ n → n < u64_max → tight qs →
  (c = None → gauges qs (stats s)) →
  ∃ s', count_dequeue s qs c now = Ret (s', c) ∧ sound s' ∧ 0 ≤ total_dequeued (stats s') ≤ n + 1.
Proof.
  intros Hd Hn Ht Hg. unfold count_dequeue. destruct c as [c|].
  - destruct (add_dequeued_spec (wait_time now c) (refresh qs (stats s)) n Hd Hn)
      as (st & -> & E1 & E2 & Hb). eexists. split; [done|]. split; [split; [done|]|done].
    by split; simpl; rewrite ?E1, ?E2.
  - eexists. split; [done|]. split; [split; [done|by apply Hg]|simpl; lia].
Qed.

Definition is_sweep (o : fop) : bool :=
  match o with Sweep _ _ | SweepCommit _ => true | _ => false end.

Lemma find_pos_lookup {A} (p : A → bool) l i : find_pos p l = Some i → ∃ x, l !! i = Some x ∧ p x = true.
Proof.
  revert i. induction l as [|x l IH]; intros i; simpl; [done|]. destruct (p x) eqn:E.
  - intros [= <-]. by exists x.
  - destruct (find_pos p l) as [j|]; [|done]. intros [= <-]. by apply IH.
Qed.

Lemma dequeue_client_sound s r id now n :
  sound s → 0 ≤ total_dequeued (stats s) ≤ n → n < u64_max →
  ∃ s' x, dequeue_client s r id now = Ret (s', x) ∧ sound s' ∧ 0 ≤ total_dequeued (stats s') ≤ n + 1.
Proof.
  intros Hs Hd Hn. unfold dequeue_client. destruct (queues s !! r) as [q|] eqn:E.
  2: { eexists _, _. split; [done|]. split; [done|lia]. }
  destruct Hs as [Ht Hg].
  match goal with |- context [let '(_, _) := ?e in _] => destruct e as [c q'] eqn:E' end.
  destruct (count_dequeue_sound s (put r q' (queues s)) c now n) as (s' & -> & H);
    [done|done|by apply put_tight| |by eexists _, _].
  intros ->. assert (q' = q) as ->; [|by rewrite put_same].
  destruct q as [|x q]; simpl in E'; [by simplify_eq|].
  destruct (is_client id x); [done|].
  destruct (find_pos (is_client id) q) as [pos|] eqn:Ep; simpl in E'; [|by simplify_eq].
  apply find_pos_lookup in Ep as (y & Hy & _). by rewrite Hy in E'.
Qed.

Lemma dequeue_sound s r now n :
  sound s → 0 ≤ total_dequeued (stats s) ≤ n → n < u64_max →
  ∃ s' x, dequeue s r now = Ret (s', x) ∧ sound s' ∧ 0 ≤ total_dequeued (stats s') ≤ n + 1.
Proof.
  intros Hs Hd Hn. unfold dequeue. destruct (queues s !! r) as [q|] eqn:E.
  2: { eexists _, _. split; [done|]. split; [done|lia]. }
  destruct Hs as [Ht Hg].
  destruct (count_dequeue_sound s (put r (tail q) (queues s)) (head q) now n) as (s' & -> & H);
    [done|done|by apply put_tight| |by eexists _, _].
  intros Hh. apply Ht in E. by destruct q.
Qed.

Lemma fexec_sound s o n :
  (0 < max_queue_size s)%nat → sound s → is_sweep o = false →
  0 ≤ total_dequeued (stats s) ≤ n → n < u64_max →
  ∃ s', fexec s o = Ret s' ∧ sound s' ∧ 0 ≤ total_dequeued (stats s') ≤ n + 1.
Proof.
  intros Hm Hs Ho Hd Hn.
  assert (Hcl : ∀ s r now, total_dequeued (stats (cleanup_expired s r now).1) = total_dequeued (stats s)).
  { intros. unfold cleanup_expired. case_match; [|done]. simpl. by case_match. }
  destruct o; try done; simpl.
  - eexists. split; [done|]. split; [by apply enqueue_sound|]. unfold enqueue. case_match; simpl; lia.
  - eexists. split; [done|]. split; [by apply cleanup_sound|]. rewrite Hcl. lia.
  - eexists. split; [done|]. pose proof (cleanup_sound s r now Hs). unfold try_acquire.
    specialize (Hcl s r now). set (s1 := (cleanup_expired s r now).1) in *.
    case_match; [case_match|]; (split; [done|simpl; lia]).
  - destruct (dequeue_client_sound s r id now n Hs Hd Hn) as (s' & x & -> & H). by eexists.
  - destruct (dequeue_sound s r now n Hs Hd Hn) as (s' & x & -> & H). by eexists.
  - eexists. split; [done|]. unfold remove. destruct (queues s !! r) eqn:E; [|split; [done|simpl; lia]].
    case_match; [|split; [done|simpl; lia]]. destruct Hs. split; [split; [by apply put_tight|done]|simpl; lia].
  - eexists. split; [done|]. split; [by apply cleanup_sound|]. rewrite Hcl. lia.
  - eexists. split; [done|]. split; [by apply cleanup_list_sound|].
    assert (E : total_dequeued (stats (cleanup_list s rs now).1) = total_dequeued (stats s)); [|lia].
    clear Hs Hd Hm Ho. revert s. induction rs as [|r rs IH]; intros s; simpl; [done|].
    specialize (Hcl s r now). destruct (cleanup_expired s r now) as [s1 k]. specialize (IH s1).
    destruct (cleanup_list s1 rs now). simpl in *. congruence.
  - eexists. split; [done|]. split; [|simpl; lia]. split; [by intros r q|done].
Qed.

Lemma frun_sound s ops n :
  (0 < max_queue_size s)%nat → sound s → Forall (λ o, is_sweep o = false) ops →
  0 ≤ total_dequeued (stats s) ≤ n → n + zlen ops ≤ u64_max →
  ∃ s', frun s ops = Ret s' ∧ sound s' ∧ max_queue_size s' = max_queue_size s.
Proof.
  revert s n. induction ops as [|o ops IH]; intros s n Hm Hs Hf Hd Hn; simpl in Hn.
  { by exists s. }
  inversion Hf; subst. destruct (fexec_sound s o n) as (s1 & E & Hs1 & Hd1); [done..|lia|].
  pose proof (fexec_max s o s1 E) as Em. cbn [frun mbind exec_bind]. rewrite E. cbn [mbind exec_bind].
  destruct (IH s1 (n + 1)) as (s' & -> & Hs' & Em'); [lia|done|done|lia|lia|].
  exists s'. split; [done|]. split; [done|congruence].
Qed.

Lemma frun_ok s ops s' : frun s ops = Ret s' → fq_ok s → fq_ok s'.
Proof.
  revert s. induction ops as [|o ops IH]; intros s H Hs; simpl in H; [by injection H as <-|].
  destruct (fexec s o) as [s1|] eqn:E; [|done]. eapply IH; [exact H|]. by eapply fexec_ok.
Qed.

(** ** No overtaking *)

(** The clients that do not have a higher priority than [c]. *)
Definition not_above (c : QueuedClient) (l : list QueuedClient) : list QueuedClient :=
  filter (λ x, priority c ≤ priority x) l.

Definition ids (l : list QueuedClient) : list Bytes := client_id <$> l.

Lemma not_in_ids c l : client_id c ∉ ids l → c ∉ l.
Proof. intros H Hin. apply H. by apply list_elem_of_fmap_2. Qed.

Definition enqueues (id : Bytes) (o : fop) : bool :=
  match o with Enqueue c => is_client id c | _ => false end.

Lemma sublist_ids l l' : sublist l' l → ∀ id, id ∈ ids l' → id ∈ ids l.
Proof.
  intros Hs id. unfold ids. rewrite !list_elem_of_fmap. intros (x & -> & Hx). exists x. split; [done|].
  eapply elem_of_submseteq; [exact Hx|by apply sublist_submseteq].
Qed.

Lemma elem_of_ids_app id l1 l2 : id ∈ ids (l1 ++ l2) ↔ id ∈ ids l1 ∨ id ∈ ids l2.
Proof. unfold ids. by rewrite fmap_app, elem_of_app. Qed.

Lemma elem_of_ids_cons id c l : id ∈ ids (c :: l) ↔ id = client_id c ∨ id ∈ ids l.
Proof. unfold ids. by rewrite fmap_cons, elem_of_cons. Qed.

Lemma ids_insert id c q : id ∈ ids (insert_prio c q) ↔ id = client_id c ∨ id ∈ ids q.
Proof. unfold ids. rewrite insert_prio_perm, fmap_cons, elem_of_cons. done. Qed.

(** A step neither brings a client back nor lets others of its priority pass it. *)
Lemma fexec_keeps_out s o s' r id :
  fexec s o = Ret s' → enqueues id o = false → id ∉ ids (get_queue s r) → id ∉ ids (get_queue s' r).
Proof.
  intros H He Hin. apply fexec_step in H as [[_ H]|(c & -> & ->)].
  - intros Hin'. apply Hin. eapply sublist_ids; [apply H|exact Hin'].
  - rewrite enqueue_queue. case_decide; [|done]. case_match; [done|]. rewrite ids_insert.
    apply bool_decide_eq_false in He. intros [->|H']; [done|by apply Hin].
Qed.

Lemma frun_keeps_out ops s s' r id :
  frun s ops = Ret s' → Forall (λ o, enqueues id o = false) ops →
  id ∉ ids (get_queue s r) → id ∉ ids (get_queue s' r).
Proof.
  revert s. induction ops as [|o ops IH]; intros s H Hf Hid; simpl in H; [by injection H as <-|].
  inversion Hf; subst. destruct (fexec s o) as [s1|] eqn:E; [|done].
  eapply IH; [exact H|done|]. by eapply fexec_keeps_out.
Qed.

Lemma not_above_sublist c l l' : sublist l' l → sublist (not_above c l') (not_above c l).
Proof.
  unfold not_above. induction 1 as [|x l1 l2 Hs IH|x l1 l2 Hs IH]; [done| |]; rewrite ?filter_cons.
  - case_decide; [by apply sublist_skip|done].
  - case_decide; [by apply sublist_cons|done].
Qed.

Lemma fexec_no_overtaking s o s' r c l1 l2 k1 k2 :
  fq_ok s → fexec s o = Ret s' → enqueues (client_id c) o = false →
  get_queue s r = l1 ++ c :: l2 → client_id c ∉ ids l1 → client_id c ∉ ids l2 →
  get_queue s' r = k1 ++ c :: k2 →
  sublist (not_above c k1) (not_above c l1) ∧ (client_id c ∉ ids k1) ∧ (client_id c ∉ ids k2).
Proof.
  intros Hok H He Hq H1 H2 Hq'. apply fexec_step in H as [[_ H]|(c' & -> & ->)].
  - specialize (H r). rewrite Hq, Hq' in H. apply sublist_pivot in H as [Hs1 Hs2];
      [|by apply not_in_ids|by apply not_in_ids].
    split_and!; [by apply not_above_sublist| |]; intros Hin; [apply H1|apply H2]; by eapply sublist_ids.
  - pose proof (fq_sorted s Hok r) as Hs. rewrite enqueue_queue, Hq in Hq'. rewrite Hq in Hs.
    apply bool_decide_eq_false in He.
    assert (Hsame : l1 ++ c :: l2 = k1 ++ c :: k2 →
      sublist (not_above c k1) (not_above c l1) ∧ (client_id c ∉ ids k1) ∧ (client_id c ∉ ids k2)).
    { intros E. apply pivot_unique in E as [-> ->]; [done|by apply not_in_ids|by apply not_in_ids]. }
    case_decide; [|by apply Hsame]. case_match; [by apply Hsame|]. clear Hsame.
    destruct (Z.ltb_spec (priority c') (priority c)) as [Hlt|Hge].
    + destruct (insert_prio_before c' c l1 l2 Hlt) as (a & b & -> & E). rewrite E in Hq'.
      assert (Hab : client_id c ∉ ids (a ++ c' :: b)).
      { rewrite elem_of_ids_app, elem_of_ids_cons. rewrite elem_of_ids_app in H1. naive_solver. }
      apply pivot_unique in Hq' as [<- <-]; [|by apply not_in_ids|by apply not_in_ids].
      split; [|done]. unfold not_above. rewrite !filter_app, filter_cons, decide_False by lia. done.
    + rewrite (insert_prio_after c' c l1 l2 Hs) in Hq' by lia.
      assert (Hl2 : client_id c ∉ ids (insert_prio c' l2)) by (rewrite ids_insert; naive_solver).
      apply pivot_unique in Hq' as [<- <-]; [done|by apply not_in_ids|by apply not_in_ids].
Qed.

Lemma frun_no_overtaking ops s s' r c l1 l2 k1 k2 :
  fq_ok s → frun s ops = Ret s' → Forall (λ o, enqueues (client_id c) o = false) ops →
  get_queue s r = l1 ++ c :: l2 → client_id c ∉ ids l1 → client_id c ∉ ids l2 →
  get_queue s' r = k1 ++ c :: k2 → sublist (not_above c k1) (not_above c l1).
Proof.
  revert s l1 l2. induction ops as [|o ops IH]; intros s l1 l2 Hok H Hf Hq H1 H2 Hq'; simpl in H.
  { injection H as <-. rewrite Hq in Hq'.
    apply pivot_unique in Hq' as [-> ->]; [done|by apply not_in_ids|by apply not_in_ids]. }
  inversion Hf; subst. destruct (fexec s o) as [s1|] eqn:E; [|done].
  destruct (decide (c ∈ get_queue s1 r)) as [Hin|Hout].
  - apply list_elem_of_split in Hin as (m1 & m2 & Hm).
    destruct (fexec_no_overtaking s o s1 r c l1 l2 m1 m2) as (Hs & Hm1 & Hm2); try done.
    etrans; [|exact Hs]. eapply IH; [by eapply fexec_ok|exact H|done|exact Hm|done|done|done].
  - exfalso.
    assert (Hid : client_id c ∉ ids (get_queue s1 r)).
    { apply fexec_step in E as [[_ E]|(c' & -> & ->)].
      - specialize (E r). rewrite Hq in E. intros (x & Ex & Hx)%list_elem_of_fmap.
        assert (x ∈ l1 ++ c :: l2) as Hx' by (eapply elem_of_submseteq; [exact Hx|by apply sublist_submseteq]).
        apply elem_of_app in Hx' as [Hx'|Hx']; [apply H1; rewrite Ex; by apply list_elem_of_fmap_2|].
        apply elem_of_cons in Hx' as [->|Hx']; [done|]. apply H2. rewrite Ex. by apply list_elem_of_fmap_2.
      - exfalso. apply Hout. rewrite enqueue_queue, Hq. assert (Hc : c ∈ l1 ++ c :: l2) by (apply elem_of_app; right; left).
        case_decide; [case_match|]; [done| |done]. rewrite insert_prio_perm. by right. }
    apply (frun_keeps_out ops s1 s' r (client_id c)); try done. rewrite Hq', elem_of_ids_app, elem_of_ids_cons. auto.
Qed.

(** ** Properties *)

(** After any sequence of queue operations, the background sweeps aside, nothing has panicked;
    every queue is ordered by priority, holds at most [max_queue_size] clients and is present only
    if it is not empty; and the two gauges are the number of waiting clients and of queues. *)
Theorem fair_queue_sound max ops :
  (0 < max)%nat → Forall (λ o, is_sweep o = false) ops → zlen ops ≤ u64_max →
  ∃ s, frun (fq_new max) ops = Ret s ∧
    (∀ r, StronglySorted prio_le (get_queue s r) ∧ (length (get_queue s r) ≤ max)%nat) ∧
    (∀ r q, queues s !! r = Some q → q ≠ []) ∧
    total_queued (stats s) = count_queued (queues s) ∧ active_queues (stats s) = size (queues s).
Proof.
  intros Hmax Hf Hlen. destruct (frun_sound (fq_new max) ops 0) as (s & E & [Ht Hg] & Em);
    [done|split; [by intros r q|done]|done|simpl; lia|lia|].
  exists s. destruct (frun_ok _ _ _ E (fq_ok_new max)) as [Hs Hb]. rewrite Em in Hb.
  split; [done|]. split; [intros r; split; [apply Hs|apply Hb]|]. split; [exact Ht|exact Hg].
Qed.

(** No overtaking.  If a client waits in a reachable queue, then as long as it stays there and
    does not queue again, whatever operations run (sweeps included), every client in front of it
    that does not have a strictly higher priority was already in front of it, and in that order:
    clients of the same or a lower priority that arrive later never pass it. *)
Theorem fair_queue_no_overtaking max ops0 ops s s' r c l1 l2 k1 k2 :
  frun (fq_new max) ops0 = Ret s → frun s ops = Ret s' →
  Forall (λ o, enqueues (client_id c) o = false) ops →
  get_queue s r = l1 ++ c :: l2 → client_id c ∉ ids l1 → client_id c ∉ ids l2 →
  get_queue s' r = k1 ++ c :: k2 →
  sublist (not_above c k1) (not_above c l1).
Proof.
  intros H0 H Hf. eapply frun_no_overtaking; [|exact H|exact Hf].
  eapply frun_ok; [exact H0|apply fq_ok_new].
Qed.

(** The turn.  [try_acquire] and [is_next] drop the expired clients of the queue and grant the
    turn exactly to the first one left, or to anyone if none is left; [dequeue_client] then takes
    that client out and leaves the others in order. *)
Theorem fair_queue_turn s r id now :
  let waiting := live now (get_queue s r) in
  let turn := match waiting with [] => true | front :: _ => is_client id front end in
  let '(s1, b1) := try_acquire s r id now in
  let '(s2, b2) := is_next s r id now in
  b1 = turn ∧ b2 = turn ∧ get_queue s1 r = waiting ∧ get_queue s2 r = waiting ∧
  (∀ front rest s3 x, waiting = front :: rest → client_id front = id →
     dequeue_client s1 r id now = Ret (s3, x) → x = Some front ∧ get_queue s3 r = rest).
Proof.
  intros waiting turn. pose proof (cleanup_queue s r now r) as Hq. rewrite decide_True in Hq by done.
  fold waiting in Hq. destruct (try_acquire s r id now) as [s1 b1] eqn:E1.
  destruct (is_next s r id now) as [s2 b2] eqn:E2. unfold try_acquire, is_next in *.
  rewrite Hq in E1, E2. injection E2 as <- <-.
  assert (Hs1 : get_queue s1 r = waiting ∧ b1 = turn).
  { unfold turn. destruct waiting as [|front rest]; simpl in E1; [by simplify_eq|].
    destruct (is_client id front); injection E1 as <- <-; split; try done. }
  destruct Hs1 as [Hs1 ->]. split_and!; [done|unfold turn; by destruct waiting|done|done|].
  intros front rest s3 x Ew Hid. unfold dequeue_client.
  assert (Eq : queues s1 !! r = Some (front :: rest)).
  { unfold get_queue in Hs1. rewrite Ew in Hs1. destruct (queues s1 !! r); simpl in Hs1; congruence. }
  rewrite Eq. simpl. assert (is_client id front = true) as -> by by apply bool_decide_eq_true.
  intros Hc. pose proof (count_dequeue_state _ _ _ _ _ _ Hc) as [st ->].
  rewrite get_queue_put, decide_True by done. split; [|done].
  unfold count_dequeue in Hc. destruct (add_dequeued _ _); [|done]. by injection Hc as _ <-.
Qed.
