(* ===== verification/Keyspace.v ===== *)
(** * The keyspace: data and effects ([src/entry.rs], [src/cache/mod.rs], [src/cache/keyspace.rs])

    One map from names to slots; a slot is a typed value with an optional expiry.
    The operations on it are in [CacheOps].

    An operation runs at one instant: the clocks and the random draws it reads are
    in an environment.  What depends on the allocator or the compiler
    ([size_of::<Entry>()], the memory size of a container, which counts the capacity
    of its tables) is an argument, and so is the hash function.  The search indexes
    are an interface. *)

From S2P Require Import Prelude RustStd Errors HashType ListType SetType SortedSet StreamType Memory KeyMap.
From Stdlib Require Import Lia.
Local Open Scope Z_scope.

(** ** Entries ([entry.rs]) *)

(** What one operation observes: the monotonic clock in nanoseconds, the wall clock in
    milliseconds since the epoch, and the draw of [rand::random]. *)
Record Clock : Type := mkClock { now : Z; unix_ms : Z; draw_f64 : Memory.f64 }.

Definition minutes_now (t : Clock) : Z := minutes_of (unix_ms t / 1000).

Record Entry : Type := mkEntry {
  e_key : Bytes;
  e_value : Bytes;
  created_at : Z;
  last_access_micros : Z;
  e_lfu : Z;
  flags : Z;
  cas : Z
}.

Definition entry_new (t : Clock) (key value : Bytes) : Entry :=
  mkEntry key value (now t) 0 (initial (minutes_now t)) 0 0.

Definition with_flags (e : Entry) (f : Z) : Entry :=
  mkEntry (e_key e) (e_value e) (created_at e) (last_access_micros e) (e_lfu e) f (cas e).
Definition with_cas (e : Entry) (c : Z) : Entry :=
  mkEntry (e_key e) (e_value e) (created_at e) (last_access_micros e) (e_lfu e) (flags e) c.

(** [elapsed()] is zero when the clock is behind [created_at]. *)
Definition touch (t : Clock) (e : Entry) (log_factor decay_time : Z) : Entry :=
  mkEntry (e_key e) (e_value e) (created_at e) (wrap_u64 (Z.max 0 (now t - created_at e) / 1000))
    (on_access (e_lfu e) log_factor decay_time (minutes_now t) (draw_f64 t)) (flags e) (cas e).

Definition last_access_time (e : Entry) : Z :=
  if last_access_micros e =? 0 then created_at e else created_at e + last_access_micros e * 1000.

Definition lfu_freq (t : Clock) (e : Entry) (decay_time : Z) : Z :=
  effective_counter (e_lfu e) decay_time (minutes_now t).

Record StoreOptions : Type := mkStoreOptions {
  nx : bool;
  xx : bool;
  get : bool;
  ttl_ms : option Z;
  exat_ms : option Z;
  so_flags : Z;
  keepttl : bool;
  so_cas : option Z
}.

(** ** Slots ([cache/keyspace.rs]) *)

Inductive KeyType : Type := KNone | KString | KZSet | KGeo | KHash | KList | KSet | KStream.

#[global] Instance KeyType_eq_dec : EqDecision KeyType.
Proof. solve_decision. Defined.

Definition as_redis_str (k : KeyType) : Str :=
  match k with
  | KNone => str "none"
  | KString => str "string"
  | KZSet | KGeo => str "zset"
  | KHash => str "hash"
  | KList => str "list"
  | KSet => str "set"
  | KStream => str "stream"
  end.

(** Geo sets are not modelled; the keyspace does not look into them. *)
Section values.
Context {GeoSet : Type}.

Inductive KeyValue : Type :=
| VString (e : Entry)
| VHash (h : RedisHash)
| VList (l : RedisList)
| VSet (s : RedisSet)
| VZSet (z : SortedSet)
| VGeo (g : GeoSet)
| VStream (s : RedisStream).

Definition value_type (v : KeyValue) : KeyType :=
  match v with
  | VString _ => KString
  | VHash _ => KHash
  | VList _ => KList
  | VSet _ => KSet
  | VZSet _ => KZSet
  | VGeo _ => KGeo
  | VStream _ => KStream
  end.

Definition memory_category (v : KeyValue) : MemoryCategory :=
  match v with
  | VString _ => CatCache
  | VHash _ => CatHashes
  | VList _ => CatLists
  | VSet _ => CatSets
  | VZSet _ => CatSortedSets
  | VGeo _ => CatGeoSets
  | VStream _ => CatStreams
  end.

Definition is_string (v : KeyValue) : bool := match v with VString _ => true | _ => false end.
Definition is_typed_container (v : KeyValue) : bool := negb (is_string v).

Record KeySlot : Type := mkKeySlot { expires_at : option Z; slot_value : KeyValue }.

Definition is_expired (t : Clock) (s : KeySlot) : bool :=
  match expires_at s with Some exp => exp <=? now t | None => false end.
End values.
Arguments KeyValue : clear implicits.
Arguments KeySlot : clear implicits.

(** [slot_ttl_live] of [cache/storage.rs]. *)
Definition slot_ttl_live (t : Clock) (exp : option Z) : bool :=
  match exp with Some exp => now t <? exp | None => true end.

(** ** The platform

    The hash function of the map, the iteration order of a shard, and the sizes the compiler and the
    allocator decide. *)

Class Platform (GeoSet : Type) : Type := {
  hash_one : Bytes → Z;
  hash_iter : gmap Bytes (KeySlot GeoSet) → list (Bytes * KeySlot GeoSet);
  entry_struct_size : Z;
  container_size : KeyValue GeoSet → Z
}.

(** Iteration visits every entry once; sizes are byte counts. *)
Class PlatformLaws (GeoSet : Type) `{!Platform GeoSet} : Prop := {
  hash_iter_perm (m : gmap Bytes (KeySlot GeoSet)) : hash_iter m ≡ₚ map_to_list m;
  entry_struct_size_pos : 0 ≤ entry_struct_size;
  container_size_pos (v : KeyValue GeoSet) : 0 ≤ container_size v
}.

(** A concrete platform, for closed examples. *)
Definition byte_platform : Platform unit := {|
  hash_one k := foldl (λ h b, wrap_u64 (h * 31 + u8 b)) 0 k;
  hash_iter m := map_to_list m;
  entry_struct_size := 96;
  container_size _ := 64
|}.

Lemma byte_platform_laws : @PlatformLaws unit byte_platform.
Proof. by split. Qed.

(** ** Statistics ([stats.rs]): the counters the keyspace bumps. *)

Inductive Stat : Type :=
| store_too_large | store_no_memory | cas_badval | cas_misses | cas_hits | cmd_set | cmd_get | cmd_del
| cmd_incr | cmd_decr | hits | misses | evicted_expired | evicted_lru.

#[global] Instance Stat_eq_dec : EqDecision Stat.
Proof. solve_decision. Defined.

Definition stat_add (s : Stat) (n : Z) (f : Stat → Z) : Stat → Z :=
  λ s', if decide (s' = s) then wrap_u64 (f s + n) else f s'.

(** ** The interface of the search indexes ([search_index.rs])

    What the keyspace calls.  [document_size] is [get_document_data] followed by
    [document_approx_size]; sampling takes its randomness as a number. *)

Record SearchEvictSample : Type := mkSearchSample {
  index_name : Str;
  doc_id : Bytes;
  sample_bytes : Z;
  sample_last_access : Z;
  sample_lfu_freq : Z
}.

Class SearchManager (S : Type) : Type := {
  find_matching_indices : S → Bytes → list Str;
  get_index : S → Str → option Str;
  document_size : S → Str → Bytes → option Z;
  remove_document : S → Str → Bytes → S;
  total_document_count : S → nat;
  sample_documents_for_eviction : S → nat → option Bytes → Z → nat → list SearchEvictSample;
  clear_documents : S → S;
  clear_indices : S → S;
  no_indices : S
}.

(** What the keyspace relies on: sizes are byte counts, a sampled document is in the index it
    names, and removing a document that is there leaves fewer of them. *)
Class SearchLaws (S : Type) `{!SearchManager S} : Prop := {
  document_size_pos s i d z : document_size s i d = Some z → 0 ≤ z ≤ u64_max;
  sample_present s n ex dec r x :
    x ∈ sample_documents_for_eviction s n ex dec r →
    ∃ i z, get_index s (index_name x) = Some i ∧ document_size s i (doc_id x) = Some z ∧ 0 < z;
  remove_document_fewer s i d z :
    document_size s i d = Some z → (total_document_count (remove_document s i d) < total_document_count s)%nat;
  remove_document_le s i d : (total_document_count (remove_document s i d) ≤ total_document_count s)%nat
}.

(** A server without search indexes. *)
#[global] Instance no_search : SearchManager unit := {|
  find_matching_indices _ _ := [];
  get_index _ _ := None;
  document_size _ _ _ := None;
  remove_document _ _ _ := tt;
  total_document_count _ := 0%nat;
  sample_documents_for_eviction _ _ _ _ _ := [];
  clear_documents _ := tt;
  clear_indices _ := tt;
  no_indices := tt
|}.

#[global] Instance no_search_laws : SearchLaws unit.
Proof. split; [done| |done|done]. intros s n ex dec r x H. by apply not_elem_of_nil in H. Qed.

(** ** Eviction policies ([cache/eviction.rs]) *)

Inductive EvictionPolicy : Type :=
| NoEviction | AllKeysLru | VolatileLru | AllKeysLfu | VolatileLfu | AllKeysRandom | VolatileRandom
| VolatileTtl.

#[global] Instance EvictionPolicy_eq_dec : EqDecision EvictionPolicy.
Proof. solve_decision. Defined.

(** ** The cache ([cache/mod.rs])

    The fields the keyspace operations read or write. *)

Record Cache (GeoSet S : Type) : Type := mkCache {
  key_values : ShardedKeyMap (KeySlot GeoSet);
  search_index_manager : S;
  memory_tracker : MemoryTracker;
  stats : Stat → Z;
  max_memory : Z;
  memory_usage : Z;
  max_entry_size : Z;
  evict_enabled : bool;
  eviction_policy : EvictionPolicy;
  eviction_sample_size : nat;
  lfu_log_factor : Z;
  lfu_decay_time : Z;
  watch_gens : gmap Bytes Z
}.
Arguments mkCache {GeoSet S}.
Arguments key_values {GeoSet S}.
Arguments search_index_manager {GeoSet S}.
Arguments memory_tracker {GeoSet S}.
Arguments stats {GeoSet S}.
Arguments max_memory {GeoSet S}.
Arguments memory_usage {GeoSet S}.
Arguments max_entry_size {GeoSet S}.
Arguments evict_enabled {GeoSet S}.
Arguments eviction_policy {GeoSet S}.
Arguments eviction_sample_size {GeoSet S}.
Arguments lfu_log_factor {GeoSet S}.
Arguments lfu_decay_time {GeoSet S}.
Arguments watch_gens {GeoSet S}.

Definition new_with_sweep_loadfactor {GeoSet S} `{!SearchManager S} (num_shards : nat) (max_memory max_entry_size : Z)
    : Cache GeoSet S :=
  mkCache (km_new num_shards) no_indices (tracker_new max_memory (1024 * 1024)) (λ _, 0) max_memory 0
    max_entry_size true AllKeysLru 5 LFU_LOG_FACTOR_DEFAULT LFU_DECAY_TIME_DEFAULT ∅.

(** ** Effects

    A method takes the cache and returns it changed, with its result, or panics. *)

Definition St (S A : Type) : Type := S → exec (S * A).
#[global] Instance st_ret {S} : MRet (St S) := λ A a s, Ret (s, a).
#[global] Instance st_bind {S} : MBind (St S) := λ A B f m s,
  match m s with Ret (s', a) => f a s' | Panic => Panic end.

(** The [?] operator on a method that returns a [Result]. *)
Definition try_bind {S E A B} (m : St S (result E A)) (f : A → St S (result E B)) : St S (result E B) :=
  λ s, match m s with
       | Ret (s', Ok a) => f a s'
       | Ret (s', Err e) => Ret (s', Err e)
       | Panic => Panic
       end.
Notation "x ?← m ; k" := (try_bind m (λ x, k)) (at level 20, m at level 100, k at level 200, right associativity) : kore_scope.

Section effects.
Context {GeoSet S : Type} `{!Platform GeoSet}.
Abbreviation M := (St (Cache GeoSet S)).
Implicit Types (c : Cache GeoSet S).

Definition set_key_values c kv : Cache GeoSet S :=
  mkCache kv (search_index_manager c) (memory_tracker c) (stats c) (max_memory c) (memory_usage c)
    (max_entry_size c) (evict_enabled c) (eviction_policy c) (eviction_sample_size c) (lfu_log_factor c)
    (lfu_decay_time c) (watch_gens c).
Definition set_search c s : Cache GeoSet S :=
  mkCache (key_values c) s (memory_tracker c) (stats c) (max_memory c) (memory_usage c)
    (max_entry_size c) (evict_enabled c) (eviction_policy c) (eviction_sample_size c) (lfu_log_factor c)
    (lfu_decay_time c) (watch_gens c).
Definition set_memory c (t : MemoryTracker) (usage : Z) : Cache GeoSet S :=
  mkCache (key_values c) (search_index_manager c) t (stats c) (max_memory c) usage
    (max_entry_size c) (evict_enabled c) (eviction_policy c) (eviction_sample_size c) (lfu_log_factor c)
    (lfu_decay_time c) (watch_gens c).
Definition set_stats c f : Cache GeoSet S :=
  mkCache (key_values c) (search_index_manager c) (memory_tracker c) f (max_memory c) (memory_usage c)
    (max_entry_size c) (evict_enabled c) (eviction_policy c) (eviction_sample_size c) (lfu_log_factor c)
    (lfu_decay_time c) (watch_gens c).
Definition set_watch c w : Cache GeoSet S :=
  mkCache (key_values c) (search_index_manager c) (memory_tracker c) (stats c) (max_memory c) (memory_usage c)
    (max_entry_size c) (evict_enabled c) (eviction_policy c) (eviction_sample_size c) (lfu_log_factor c)
    (lfu_decay_time c) w.
Definition set_limits c (mm me : Z) : Cache GeoSet S :=
  mkCache (key_values c) (search_index_manager c) (memory_tracker c) (stats c) mm (memory_usage c)
    me (evict_enabled c) (eviction_policy c) (eviction_sample_size c) (lfu_log_factor c)
    (lfu_decay_time c) (watch_gens c).
Definition set_eviction c (on : bool) (p : EvictionPolicy) (n : nat) : Cache GeoSet S :=
  mkCache (key_values c) (search_index_manager c) (memory_tracker c) (stats c) (max_memory c) (memory_usage c)
    (max_entry_size c) on p n (lfu_log_factor c) (lfu_decay_time c) (watch_gens c).

(** Reading a field, and a change that returns nothing. *)
Definition asks {A} (f : Cache GeoSet S → A) : M A := λ c, Ret (c, f c).
Definition modify (f : Cache GeoSet S → Cache GeoSet S) : M unit := λ c, Ret (f c, tt).

(** The methods of the key map, on the field. *)
Definition on_map {A} (f : ShardedKeyMap (KeySlot GeoSet) → exec (ShardedKeyMap (KeySlot GeoSet) * A)) : M A :=
  λ c, match f (key_values c) with Ret (kv, a) => Ret (set_key_values c kv, a) | Panic => Panic end.
Definition kv_get (key : Bytes) : M (option (KeySlot GeoSet)) :=
  λ c, match km_get hash_one (key_values c) key with Ret v => Ret (c, v) | Panic => Panic end.
Definition kv_insert (key : Bytes) (s : KeySlot GeoSet) : M (option (KeySlot GeoSet)) :=
  on_map (λ kv, km_insert hash_one kv key s).
Definition kv_remove (key : Bytes) : M (option (KeySlot GeoSet)) := on_map (λ kv, km_remove hash_one kv key).
Definition kv_mutate {R} (key : Bytes) (f : option (KeySlot GeoSet) → Z → MapAction (KeySlot GeoSet) * R) : M R :=
  on_map (λ kv, mutate hash_one kv key f).

(** [fetch_sub] and [fetch_add] on [memory_usage] wrap. *)
Definition usage_sub (n : Z) : M unit :=
  modify (λ c, set_memory c (memory_tracker c) (wrap_u64 (memory_usage c - n))).
Definition usage_add (n : Z) : M unit :=
  modify (λ c, set_memory c (memory_tracker c) (wrap_u64 (memory_usage c + n))).
Definition track_free (n : Z) (cat : MemoryCategory) : M unit :=
  modify (λ c, set_memory c (deallocate (memory_tracker c) n cat) (memory_usage c)).
Definition track_add (n : Z) (cat : MemoryCategory) : M unit :=
  modify (λ c, set_memory c (account (memory_tracker c) n cat) (memory_usage c)).
Definition stats_add (s : Stat) (n : Z) : M unit := modify (λ c, set_stats c (stat_add s n (stats c))).
Definition stats_incr (s : Stat) : M unit := stats_add s 1.

Definition watch_generation (key : Bytes) : M Z :=
  λ c, match watch_gens c !! key with
       | Some g => Ret (c, g)
       | None => Ret (set_watch c (<[key := 0]> (watch_gens c)), 0)
       end.

Definition touch_watch_key (key : Bytes) : M unit :=
  modify (λ c, set_watch c (alter (λ g, wrap_u64 (g + 1)) key (watch_gens c))).

Definition touch_all_watch_keys : M unit :=
  modify (λ c, set_watch c ((λ g, wrap_u64 (g + 1)) <$> watch_gens c)).
End effects.
