(* ===== verification/CacheOps.v ===== *)
(** * The keyspace operations ([src/cache/keyspace.rs], [eviction.rs], [expiration.rs], [storage.rs],
      [operations.rs], [config.rs], and the removals of the typed modules)

    Each method of [Cache] as a state-passing function on the model of [Keyspace].
    [usize] counts of keys and samples are [nat]. *)

From S2P Require Import Prelude RustStd Errors Glob ListType SetType HashType SortedSet StreamType Memory KeyMap Keyspace.
From Stdlib Require Import Lia.
Local Open Scope Z_scope.

(** ** Eviction candidates *)

Record EvictCandidate : Type := mkCandidate {
  c_key : Bytes;
  c_type : KeyType;
  c_size : Z;
  c_last_access : Z;
  c_lfu_freq : Z;
  c_expires_at : option Z;
  c_search_index : option Str
}.

(** The random choices of one eviction round: the draws of [get_n_random], the seed of the search
    sample, the two shuffles and [choose]. *)
Record Round : Type := mkRound {
  key_draws : list (list (nat * nat));
  search_seed : nat;
  shuffle_search : list EvictCandidate → list EvictCandidate;
  shuffle_keys : list EvictCandidate → list EvictCandidate;
  choose : nat
}.

Definition volatile_only (p : EvictionPolicy) : bool :=
  match p with VolatileLru | VolatileLfu | VolatileRandom | VolatileTtl => true | _ => false end.

Definition allkeys (p : EvictionPolicy) : bool :=
  match p with AllKeysLru | AllKeysLfu | AllKeysRandom => true | _ => false end.

Definition from_u8 (v : Z) : EvictionPolicy :=
  match v with
  | 0 => NoEviction | 1 => AllKeysLru | 2 => VolatileLru | 3 => AllKeysLfu | 4 => VolatileLfu
  | 5 => AllKeysRandom | 6 => VolatileRandom | 7 => VolatileTtl | _ => AllKeysLru
  end.

(** [min_by_key]: the first of the least. *)
Fixpoint min_by {A} (cmp : A → A → comparison) (best : A) (l : list A) : A :=
  match l with
  | [] => best
  | x :: l => min_by cmp (match cmp x best with Lt => x | _ => best end) l
  end.

Definition min_by_key {A K} (cmp : K → K → comparison) (key : A → K) (l : list A) : option A :=
  match l with [] => None | x :: l => Some (min_by (λ a b, cmp (key a) (key b)) x l) end.

(** A pair of a score and a [Reverse] size. *)
Definition cmp_score_size : Z * Z → Z * Z → comparison := cmp_lex Z.compare (λ a b, Z.compare b a).

Definition pick_victim (t : Clock) (r : Round) (candidates : list EvictCandidate) (policy : EvictionPolicy)
    : option EvictCandidate :=
  match policy with
  | NoEviction => None
  | AllKeysLru | VolatileLru => min_by_key cmp_score_size (λ c, (c_last_access c, c_size c)) candidates
  | AllKeysLfu | VolatileLfu => min_by_key cmp_score_size (λ c, (c_lfu_freq c, c_size c)) candidates
  | AllKeysRandom | VolatileRandom => candidates !! (choose r mod length candidates)%nat
  | VolatileTtl =>
    min_by_key Z.compare (λ c, default (now t + u64_max / 4 * 1000000000) (c_expires_at c)) candidates
  end.

(** Ten years ago, or now when the clock does not reach that far back. *)
Definition cold_instant (t : Clock) : Z :=
  let z := now t - 86400 * 365 * 10 * 1000000000 in if z <? 0 then now t else z.

Definition typed_candidate (t : Clock) (key : Bytes) (key_type : KeyType) (size : Z) (exp : option Z)
    : EvictCandidate := mkCandidate key key_type size (cold_instant t) 0 exp None.

(** The split of the sample budget between keys and search documents. *)
Definition sample_budget (policy : EvictionPolicy) (sample_size key_n search_docs : nat) : nat * nat :=
  if allkeys policy && (0 <? search_docs)%nat then
    let total := ((key_n + search_docs) `max` 1)%nat in
    let s := ((sample_size * search_docs + total - 1) / total)%nat in
    let s := (((s `max` 1) `min` sample_size) `min` search_docs)%nat in
    let k := if (key_n =? 0)%nat then 0%nat
             else ((sample_size - s) `max` (if (s <? sample_size)%nat then 1 else 0))%nat in
    (((k `max` (if (0 <? key_n)%nat then 1 else 0)) `min` (sample_size * 2))%nat, s)
  else if volatile_only policy then ((sample_size * 4) `max` sample_size, 0)%nat
  else (sample_size, 0)%nat.

(** The cap on the pool, which keeps a share of search documents. *)
Definition cap_pool (r : Round) (sample_size search_draw : nat) (out : list EvictCandidate) : list EvictCandidate :=
  let cap := ((sample_size * 2) `max` sample_size)%nat in
  if (cap <? length out)%nat then
    let search_c := shuffle_search r (filter (λ c, is_Some (c_search_index c)) out) in
    let key_c := shuffle_keys r (filter (λ c, ¬ is_Some (c_search_index c)) out) in
    let search_keep :=
      if (length search_c =? 0)%nat then 0%nat
      else if (length key_c =? 0)%nat then (cap `min` length search_c)%nat
      else ((((cap * search_draw / (sample_size `max` 1)) `max` 1) `min` length search_c) `min` cap)%nat in
    let key_keep := ((cap - search_keep) `min` length key_c)%nat in
    take key_keep key_c ++ take search_keep search_c
  else out.

(** The outcome of the closures of [cache/operations.rs]: a value with the sizes replaced and written, or
    the error case ([NotInteger], [TooLarge]). *)
Inductive RmwOutcome (A : Type) : Type :=
| RmwOk (value : A) (old_size new_size : Z)
| RmwFail.
Arguments RmwOk {A}.
Arguments RmwFail {A}.

Section ops.
Context {GeoSet Srch : Type} `{!Platform GeoSet, !SearchManager Srch}.
Abbreviation M := (St (Cache GeoSet Srch)).
Abbreviation Slot := (KeySlot GeoSet).

Definition entry_size (e : Entry) : Z :=
  estimate_string_entry (zlen (e_key e)) (zlen (e_value e)) entry_struct_size.

Definition content_memory_size (v : KeyValue GeoSet) : Z :=
  match v with VString e => entry_size e | _ => container_size v end.

(** ** [cache/search.rs]: documents of a deleted key *)

Fixpoint remove_from_indices (key : Bytes) (matching : list Str) : M unit :=
  match matching with
  | [] => mret tt
  | i :: matching =>
    doc ← asks (λ c, document_size (search_index_manager c) i key);
    _ ← match doc with Some size => track_free size CatSearch | None => mret tt end;
    _ ← modify (λ c, set_search c (remove_document (search_index_manager c) i key));
    remove_from_indices key matching
  end.

Definition auto_remove_from_indices (key : Bytes) : M unit :=
  matching ← asks (λ c, find_matching_indices (search_index_manager c) key);
  remove_from_indices key matching.

(** ** [cache/keyspace.rs] *)

Definition remove_key_value_raw (key : Bytes) : M bool :=
  slot ← kv_remove key;
  match slot with
  | Some slot =>
    _ ← match slot_value slot with
        | VString entry =>
          let size := entry_size entry in
          _ ← usage_sub size; track_free size CatCache
        | v => track_free (estimate_keyed_object (zlen key) (content_memory_size v)) (memory_category v)
        end;
    mret true
  | None => mret false
  end.

Definition account_typed_key_rename (src dst : Bytes) (content : Z) (category : MemoryCategory) : M unit :=
  if decide (length src = length dst) then mret tt
  else
    _ ← track_free (estimate_keyed_object (zlen src) content) category;
    track_add (estimate_keyed_object (zlen dst) content) category.

Definition get_string_entry (t : Clock) (key : Bytes) : M (option Entry) :=
  slot ← kv_get key;
  mret match slot with
       | Some slot =>
         if is_expired t slot then None
         else match slot_value slot with VString e => Some e | _ => None end
       | None => None
       end.

(** ** [cache/expiration.rs]: lazy expiry *)

Definition delete_without_clearing_expire (key : Bytes) : M bool :=
  deleted ← remove_key_value_raw key;
  _ ← (if deleted : bool then _ ← auto_remove_from_indices key; touch_watch_key key else mret tt);
  mret deleted.

Definition purge_if_expired (t : Clock) (key : Bytes) : M bool :=
  slot ← kv_get key;
  match slot with
  | Some slot =>
    match expires_at slot with
    | Some exp =>
      if now t <? exp then mret false
      else _ ← delete_without_clearing_expire key; mret true
    | None => mret false
    end
  | None => mret false
  end.

Definition get_key_value (t : Clock) (key : Bytes) : M (option (KeyValue GeoSet)) :=
  purged ← purge_if_expired t key;
  if purged : bool then mret None
  else slot ← kv_get key; mret (slot_value <$> slot).

Definition key_type (t : Clock) (key : Bytes) : M KeyType :=
  v ← get_key_value t key;
  mret (default KNone (value_type <$> v)).

Definition ensure_type (t : Clock) (key : Bytes) (expected : KeyType) : M (result KError unit) :=
  actual ← key_type t key;
  mret (if decide (actual = KNone) then Ok tt
        else if decide (actual = expected) then Ok tt else Err WrongType).

Definition ensure_string_or_absent (t : Clock) (key : Bytes) : M (result KError unit) :=
  purged ← purge_if_expired t key;
  if purged : bool then mret (Ok tt)
  else
    slot ← kv_get key;
    mret match slot with
         | None => Ok tt
         | Some slot => if is_string (slot_value slot) then Ok tt else Err WrongType
         end.

(** ** The removals of the typed modules *)

(** [remove_hash] and its siblings differ in the variant they match and the category they free; a
    value of another type is put back. *)
Definition remove_typed (kt : KeyType) (key : Bytes) : M bool :=
  slot ← kv_remove key;
  match slot with
  | Some slot =>
    if decide (value_type (slot_value slot) = kt) then
      _ ← track_free (estimate_keyed_object (zlen key) (container_size (slot_value slot)))
            (memory_category (slot_value slot));
      mret true
    else _ ← kv_insert key slot; mret false
  | None => mret false
  end.

Definition remove_hash : Bytes → M bool := remove_typed KHash.
Definition remove_list : Bytes → M bool := remove_typed KList.
Definition remove_set : Bytes → M bool := remove_typed KSet.
Definition remove_sorted_set : Bytes → M bool := remove_typed KZSet.
Definition remove_geo_set : Bytes → M bool := remove_typed KGeo.
Definition remove_stream : Bytes → M bool := remove_typed KStream.

(** ** [cache/eviction.rs] *)

Definition key_candidate (t : Clock) (decay : Z) (volatile : bool) (k : Bytes) (slot : Slot)
    : option EvictCandidate :=
  if is_expired t slot then None
  else if volatile && negb (bool_decide (is_Some (expires_at slot))) then None
  else Some match slot_value slot with
    | VString e =>
      mkCandidate k KString (entry_size e) (last_access_time e) (lfu_freq t e decay) (expires_at slot) None
    | other =>
      typed_candidate t k (value_type other)
        (estimate_keyed_object (zlen k) (content_memory_size other)) (expires_at slot)
    end.

Definition search_candidate (s : SearchEvictSample) : EvictCandidate :=
  mkCandidate (doc_id s) KNone (sample_bytes s) (sample_last_access s) (sample_lfu_freq s) None
    (Some (index_name s)).

Definition sample_eviction_candidates (t : Clock) (r : Round) (policy : EvictionPolicy) (sample_size : nat)
    (exclude : option Bytes) (c : Cache GeoSet Srch) : list EvictCandidate :=
  let sample_size := (sample_size `max` 1)%nat in
  let key_n := km_len (key_values c) in
  let search_docs := if allkeys policy then total_document_count (search_index_manager c) else 0%nat in
  let '(key_draw, search_draw) := sample_budget policy sample_size key_n search_docs in
  let decay := lfu_decay_time c in
  let keys :=
    if (0 <? key_draw)%nat then
      omap (λ '(k, slot), key_candidate t decay (volatile_only policy) k slot)
        (get_n_random hash_iter (key_values c) key_draw (take (5 * key_draw)%nat (key_draws r)) ∅ [])
    else [] in
  let docs :=
    if (0 <? search_draw)%nat then
      search_candidate <$>
        sample_documents_for_eviction (search_index_manager c) search_draw exclude decay (search_seed r)
    else [] in
  cap_pool r sample_size search_draw (keys ++ docs).

Definition evict_search_document (index : Str) (doc : Bytes) : M (option Z) :=
  found ← asks (λ c, i ← get_index (search_index_manager c) index;
                     z ← document_size (search_index_manager c) i doc; Some (i, z));
  match found with
  | Some (i, size) =>
    _ ← modify (λ c, set_search c (remove_document (search_index_manager c) i doc));
    _ ← (if 0 <? size then track_free size CatSearch else mret tt);
    mret (Some size)
  | None => mret None
  end.

Definition evict_typed (remove : Bytes → M bool) (c : EvictCandidate) : M (option Z) :=
  removed ← remove (c_key c);
  if removed : bool then _ ← auto_remove_from_indices (c_key c); mret (Some (c_size c)) else mret None.

Definition evict_candidate (c : EvictCandidate) : M (option Z) :=
  match c_search_index c with
  | Some index => evict_search_document index (c_key c)
  | None =>
    match c_type c with
    | KString =>
      slot ← kv_remove (c_key c);
      match slot with
      | Some slot =>
        match slot_value slot with
        | VString entry =>
          let size := entry_size entry in
          _ ← usage_sub size;
          _ ← track_free size CatCache;
          _ ← auto_remove_from_indices (c_key c);
          mret (Some size)
        | _ => _ ← kv_insert (c_key c) slot; mret None
        end
      | None => mret None
      end
    | KZSet => evict_typed remove_sorted_set c
    | KGeo => evict_typed remove_geo_set c
    | KHash => evict_typed remove_hash c
    | KList => evict_typed remove_list c
    | KSet => evict_typed remove_set c
    | KStream => evict_typed remove_stream c
    | KNone => mret None
    end
  end.

(** The [while freed < needed] loop; [i] counts the rounds.  Running out of fuel is [Panic]; it does
    not happen with the fuel given below ([CacheFacts.evict_loop_spec]). *)
Fixpoint evict_loop (fuel : nat) (t : Clock) (rounds : nat → Round) (policy : EvictionPolicy) (sample_size : nat)
    (exclude : option Bytes) (needed : Z) (i : nat) (freed : Z) (empty_rounds : nat) : M (result KError unit) :=
  match fuel with
  | O => λ _, Panic
  | S fuel =>
    if freed <? needed then
      candidates ← asks (sample_eviction_candidates t (rounds i) policy sample_size exclude);
      if (length candidates =? 0)%nat then
        if (3 <=? empty_rounds + 1)%nat then mret (Err OutOfMemory)
        else evict_loop fuel t rounds policy sample_size exclude needed (i + 1) freed (empty_rounds + 1)
      else
        match pick_victim t (rounds i) candidates policy with
        | Some c =>
          r ← evict_candidate c;
          freed ← match r with
                  | Some bytes =>
                    _ ← stats_incr evicted_lru;
                    _ ← (if decide (is_Some (c_search_index c)) then mret tt else touch_watch_key (c_key c));
                    mret (freed + bytes)
                  | None => mret freed
                  end;
          evict_loop fuel t rounds policy sample_size exclude needed (i + 1) freed 0
        | None => mret (Err OutOfMemory)
        end
    else mret (Ok tt)
  end.

(** Three rounds for every key and document, and three more. *)
Definition evict_fuel (c : Cache GeoSet Srch) : nat :=
  (3 * (km_len (key_values c) + total_document_count (search_index_manager c)) + 4)%nat.

Definition evict_memory_excluding (t : Clock) (rounds : nat → Round) (needed : Z) (exclude : option Bytes)
    : M (result KError unit) := λ c,
  if decide (eviction_policy c = NoEviction) then Ret (c, Err OutOfMemory)
  else evict_loop (evict_fuel c) t rounds (eviction_policy c) (eviction_sample_size c `max` 1) exclude needed 0 0 0 c.

Definition evict_memory (t : Clock) (rounds : nat → Round) (needed : Z) : M (result KError unit) :=
  evict_memory_excluding t rounds needed None.

Definition set_eviction_policy (policy : EvictionPolicy) : M unit :=
  modify (λ c, set_eviction c (negb (bool_decide (policy = NoEviction))) policy (eviction_sample_size c)).

Definition eviction_allowed (c : Cache GeoSet Srch) : bool :=
  negb (bool_decide (eviction_policy c = NoEviction)) && evict_enabled c.

(** ** [cache/storage.rs] *)

Definition string_map_action (a : MapAction Entry) (exp : option Z) : MapAction Slot :=
  match a with
  | Keep => Keep
  | Set_ e => Set_ (mkKeySlot exp (VString e))
  | Remove_ => Remove_
  end.

Definition mutate_string {R} (key : Bytes) (f : option Entry → option Z → Z → MapAction Entry * option Z * R)
    : M (result KError R) :=
  kv_mutate key (λ current next_cas,
    match current with
    | Some (mkKeySlot exp (VString entry)) =>
      let '(action, new_exp, r) := f (Some entry) exp next_cas in (string_map_action action new_exp, Ok r)
    | Some _ => (Keep, Err WrongType)
    | None => let '(action, new_exp, r) := f None None next_cas in (string_map_action action new_exp, Ok r)
    end).

Definition account_replace (old_size new_size : Z) : M unit :=
  _ ← (if 0 <? old_size then _ ← usage_sub old_size; track_free old_size CatCache else mret tt);
  if 0 <? new_size then _ ← usage_add new_size; track_add new_size CatCache else mret tt.

Definition resolve_expiration (t : Clock) (opts : StoreOptions) : option Z :=
  match ttl_ms opts with
  | Some ttl => Some (now t + ttl * 1000000)
  | None =>
    match exat_ms opts with
    | Some exat =>
      if exat <=? unix_ms t then Some (now t) else Some (now t + (exat - unix_ms t) * 1000000)
    | None => None
    end
  end.

Definition ensure_capacity (t : Clock) (rounds : nat → Round) (needed : Z) : M (result KError unit) := λ c,
  if needed =? 0 then Ret (c, Ok tt)
  else if max_memory c =? 0 then Ret (c, Ok tt)
  else if can_allocate (memory_tracker c) needed CatCache then Ret (c, Ok tt)
  else if eviction_allowed c then
    (r ← evict_memory t rounds needed;
     match r with
     | Ok tt => mret (Ok tt)
     | Err e => _ ← stats_incr store_no_memory; mret (Err e)
     end) c
  else (_ ← stats_incr store_no_memory; mret (Err OutOfMemory)) c.

Inductive StoreOutcome : Type :=
| Exists_ (e : Entry)
| NotExists
| CasMismatched
| CasMiss
| Stored (old_for_get : option Entry) (old_size new_size : Z).

(** The closure of [store], under the shard lock. *)
Definition store_action (t : Clock) (key value : Bytes) (opts : StoreOptions) (new_size : Z)
    (current : option Entry) (slot_exp : option Z) (next_cas : Z) : MapAction Entry * option Z * StoreOutcome :=
  let expires := resolve_expiration t opts in
  let keepttl := keepttl opts && negb (bool_decide (is_Some expires)) in
  let live := slot_ttl_live t slot_exp in
  let present := if live then current else None in
  match nx opts, present with
  | true, Some existing => (Keep, None, Exists_ existing)
  | _, _ =>
    if xx opts && negb (bool_decide (is_Some present)) then (Keep, None, NotExists) else
    match so_cas opts, present with
    | Some expected, Some existing =>
      if cas existing =? expected then
        (Set_ (with_cas (with_flags (entry_new t key value) (so_flags opts)) next_cas),
         match expires with Some exp => Some exp | None => if keepttl && live then slot_exp else None end,
         Stored (if get opts then present else None) (default 0 (entry_size <$> current)) new_size)
      else (Keep, None, CasMismatched)
    | Some _, None => (Keep, None, CasMiss)
    | None, _ =>
      (Set_ (with_cas (with_flags (entry_new t key value) (so_flags opts)) next_cas),
       match expires with Some exp => Some exp | None => if keepttl && live then slot_exp else None end,
       Stored (if get opts then present else None) (default 0 (entry_size <$> current)) new_size)
    end
  end.

(** The capacity check: only when a whole new entry does not fit is the old one credited. *)
Definition store_capacity (t : Clock) (rounds : nat → Round) (key : Bytes) (size : Z) : M (result KError unit) := λ c,
  if max_memory c =? 0 then Ret (c, Ok tt)
  else if max_memory c <? sat_add_u64 (total_memory (memory_tracker c)) size then
    (existing ← get_string_entry t key;
     ensure_capacity t rounds (sat_sub_u64 size (default 0 (entry_size <$> existing)))) c
  else Ret (c, Ok tt).

Definition store (t : Clock) (rounds : nat → Round) (key value : Bytes) (opts : StoreOptions)
    : M (result KError (option Entry)) :=
  limit ← asks max_entry_size;
  if limit <? logical_string_entry (zlen key) (zlen value) entry_struct_size then
    _ ← stats_incr store_too_large; mret (Err EntryTooLarge)
  else
    let size := estimate_string_entry (zlen key) (zlen value) entry_struct_size in
    _ ?← store_capacity t rounds key size;
    outcome ?← mutate_string key (store_action t key value opts size);
    match outcome with
    | Exists_ existing => mret (Ok (Some existing))
    | NotExists => mret (Ok None)
    | CasMismatched => _ ← stats_incr cas_badval; mret (Err CasMismatch)
    | CasMiss => _ ← stats_incr cas_misses; mret (Err KeyNotFound)
    | Stored old_for_get old_size new_size =>
      _ ← account_replace old_size new_size;
      _ ← (if decide (is_Some (so_cas opts)) then stats_incr cas_hits else mret tt);
      _ ← stats_incr cmd_set;
      mret (Ok old_for_get)
    end.

(** [touch] changes the entry in place, behind its shared pointer: the map sees the new one. *)
Definition load (t : Clock) (key : Bytes) (do_touch : bool) : M (option Entry) :=
  _ ← stats_incr cmd_get;
  slot ← kv_get key;
  match slot with
  | Some slot =>
    match slot_value slot with
    | VString entry =>
      if is_expired t slot then
        removed ← kv_remove key;
        _ ← match removed with
            | Some removed =>
              if is_string (slot_value removed) then
                _ ← usage_sub (entry_size entry);
                _ ← track_free (entry_size entry) CatCache;
                stats_incr evicted_expired
              else mret tt
            | None => mret tt
            end;
        _ ← stats_incr misses;
        mret None
      else
        log_factor ← asks lfu_log_factor;
        decay ← asks lfu_decay_time;
        let entry := if do_touch then touch t entry log_factor decay else entry in
        _ ← (if do_touch then kv_insert key (mkKeySlot (expires_at slot) (VString entry)) else mret None);
        _ ← stats_incr hits;
        mret (Some entry)
    | _ => _ ← stats_incr misses; mret None
    end
  | None => _ ← stats_incr misses; mret None
  end.

Definition delete (key : Bytes) : M bool :=
  _ ← stats_incr cmd_del;
  deleted ← remove_key_value_raw key;
  _ ← (if deleted : bool then auto_remove_from_indices key else mret tt);
  mret deleted.

Fixpoint delete_many (keys : list Bytes) : M nat :=
  match keys with
  | [] => mret 0%nat
  | k :: keys =>
    d ← delete k;
    n ← delete_many keys;
    mret (if d : bool then 1 + n else n)%nat
  end.

Definition exists_ (t : Clock) (key : Bytes) : M bool :=
  v ← get_key_value t key; mret (bool_decide (is_Some v)).

Definition dbsize (c : Cache GeoSet Srch) : nat := km_len (key_values c).

Definition flush_keyspace : M unit := modify (λ c, set_key_values c (km_clear (key_values c))).

Definition flush : M unit :=
  _ ← flush_keyspace;
  _ ← modify (λ c, set_search c (clear_documents (search_index_manager c)));
  modify (λ c, set_memory c (reset (memory_tracker c)) 0).

Definition flush_all_including_search : M unit :=
  _ ← flush_keyspace;
  _ ← modify (λ c, set_search c (clear_indices (search_index_manager c)));
  modify (λ c, set_memory c (reset (memory_tracker c)) 0).

(** The drained keyspace between two caches.  The index and alias maps travel as one state. *)
Record KeyspacePayload : Type := mkPayload {
  p_key_values : list (Bytes * Slot);
  p_watch : gmap Bytes Z;
  p_indices : Srch;
  p_counts : list (MemoryCategory * Z);
  p_mem : Z
}.

Definition take_keyspace_payload : M KeyspacePayload := λ c,
  let '(kv, entries) := drain_all hash_iter (key_values c) in
  let '(tracker, counts) := take_keyspace_counts (memory_tracker c) in
  Ret (set_watch (set_memory (set_search (set_key_values c kv) no_indices) tracker 0) ∅,
       mkPayload entries (watch_gens c) (search_index_manager c) counts (memory_usage c)).

Definition install_keyspace_payload_retaining_discard (payload : KeyspacePayload) : M KeyspacePayload := λ c,
  let pre_watch_keys := (map_to_list (watch_gens c)).*1 in
  let '(kv, discard_entries) := drain_all hash_iter (key_values c) in
  let '(tracker, discard_counts) := take_keyspace_counts (memory_tracker c) in
  match fill_all hash_one kv (p_key_values payload) with
  | Panic => Panic
  | Ret kv =>
    let gens := foldl (λ gens k, <[k := wrap_u64 (default 0 (gens !! k) + 1)]> gens) (p_watch payload) pre_watch_keys in
    Ret (set_watch
           (set_memory (set_search (set_key_values c kv) (p_indices payload))
              (install_keyspace_counts tracker (p_counts payload)) (p_mem payload)) gens,
         mkPayload discard_entries (watch_gens c) (search_index_manager c) discard_counts (memory_usage c))
  end.

Definition install_keyspace_payload (payload : KeyspacePayload) : M unit :=
  _ ← install_keyspace_payload_retaining_discard payload; mret tt.

(** [other] is drained into [self]. *)
Definition replace_keyspace_from (self other : Cache GeoSet Srch) : exec (Cache GeoSet Srch * Cache GeoSet Srch) :=
  '(other, payload) ← take_keyspace_payload other;
  '(self, _) ← install_keyspace_payload payload self;
  Ret (self, other).

Definition remaining_ms (t : Clock) (exp : Z) : Z := wrap_i64 ((exp - now t) / 1000000).

Definition export_strings (t : Clock) (c : Cache GeoSet Srch) : list (Bytes * Bytes * Z * Z) :=
  omap (λ '(_, slot),
    match slot_value slot with
    | VString entry =>
      if is_expired t slot then None
      else match expires_at slot with
           | Some exp =>
             if now t <? exp then
               Some (e_key entry, e_value entry, flags entry, wrap_i64 (unix_ms t + remaining_ms t exp))
             else None
           | None => Some (e_key entry, e_value entry, flags entry, -1)
           end
    | _ => None
    end) (visit hash_iter (key_values c)).

Definition map_keys_all (t : Clock) (c : Cache GeoSet Srch) : list Bytes :=
  omap (λ '(k, slot), if is_string (slot_value slot) && negb (is_expired t slot) then Some k else None)
    (visit hash_iter (key_values c)).

Fixpoint live_keys (t : Clock) (candidates : list Bytes) : M (list Bytes) :=
  match candidates with
  | [] => mret []
  | key :: candidates =>
    purged ← purge_if_expired t key;
    if purged : bool then live_keys t candidates
    else
      slot ← kv_get key;
      match slot with
      | None => live_keys t candidates
      | Some _ => rest ← live_keys t candidates; mret (key :: rest)
      end
  end.

Definition keys (t : Clock) (pattern : option Str) : M (list Bytes) :=
  candidates ← asks (λ c, km_keys hash_iter (key_values c) pattern);
  live_keys t candidates.

(** [keys.sort()] *)
Definition bytes_le (a b : Bytes) : Prop := cmp_bytes a b ≠ Gt.
#[global] Instance bytes_le_dec : RelDecision bytes_le.
Proof. intros a b. unfold bytes_le. destruct (cmp_bytes a b); [left|left|right]; congruence. Defined.

Definition scan (t : Clock) (cursor : Z) (pattern : option Str) (count : Z) : M (Z * list Bytes) :=
  found ← keys t pattern;
  let sorted := merge_sort bytes_le found in
  if zlen sorted <=? cursor then mret (0, [])
  else
    let end_ := Z.min (wrap_u64 (cursor + count)) (zlen sorted) in
    if end_ <? cursor then λ _, Panic
    else
      mret (if zlen sorted <=? end_ then 0 else end_,
            take (Z.to_nat (end_ - cursor)) (drop (Z.to_nat cursor) sorted)).

(** ** [cache/expiration.rs] *)

Definition expire (t : Clock) (key : Bytes) (ttl : Z) : M bool :=
  kt ← key_type t key;
  if decide (kt = KNone) then mret false
  else if ttl =? 0 then _ ← delete key; mret true
  else
    let exp := now t + ttl * 1000000 in
    kv_mutate key (λ cur _,
      match cur with
      | Some slot => (Set_ (mkKeySlot (Some exp) (slot_value slot)), true)
      | None => (Keep, false)
      end).

Definition expire_at_unix_ms (t : Clock) (key : Bytes) (expire_unix_ms : Z) : M bool :=
  kt ← key_type t key;
  if decide (kt = KNone) then mret false
  else if expire_unix_ms <=? unix_ms t then _ ← delete key; mret true
  else expire t key (expire_unix_ms - unix_ms t).

Definition ttl (t : Clock) (key : Bytes) : M Z :=
  purged ← purge_if_expired t key;
  if purged : bool then mret (-2)
  else
    slot ← kv_get key;
    mret match slot with
         | Some slot =>
           match expires_at slot with
           | Some exp => if exp <=? now t then 0 else remaining_ms t exp
           | None => -1
           end
         | None => -2
         end.

Definition expire_time_unix_ms (t : Clock) (key : Bytes) : M Z :=
  v ← ttl t key;
  mret (if v <? 0 then v else wrap_i64 (unix_ms t + v)).

Definition persist (key : Bytes) : M bool :=
  kv_mutate key (λ cur _,
    match cur with
    | Some slot =>
      if decide (is_Some (expires_at slot)) then (Set_ (mkKeySlot None (slot_value slot)), true) else (Keep, false)
    | None => (Keep, false)
    end).

Definition typed_key_exportable (t : Clock) (key : Bytes) : M bool :=
  slot ← kv_get key;
  mret match slot with
       | Some slot => if is_typed_container (slot_value slot) then negb (is_expired t slot) else true
       | None => true
       end.

Definition export_typed_expires_unix_ms (t : Clock) (c : Cache GeoSet Srch) : list (Bytes * Z) :=
  omap (λ '(k, slot),
    if is_typed_container (slot_value slot) then
      match expires_at slot with
      | Some exp => if exp <=? now t then None else Some (k, wrap_i64 (unix_ms t + remaining_ms t exp))
      | None => None
      end
    else None) (visit hash_iter (key_values c)).

Definition set_typed_expire_unix_ms (t : Clock) (key : Bytes) (expire_unix_ms : Z) : M unit :=
  if expire_unix_ms <? 0 then mret tt
  else if expire_unix_ms <=? unix_ms t then _ ← delete key; mret tt
  else
    kv_mutate key (λ cur _,
      match cur with
      | Some slot =>
        if is_typed_container (slot_value slot) then
          (Set_ (mkKeySlot (Some (now t + (expire_unix_ms - unix_ms t) * 1000000)) (slot_value slot)), tt)
        else (Keep, tt)
      | None => (Keep, tt)
      end).

(** Sampling of past-due typed keys; each draw list is one [get_random]. *)
Fixpoint sample_expired_typed (t : Clock) (samples : nat) (draws : list (list (nat * nat))) (found : list Bytes)
    (c : Cache GeoSet Srch) : list Bytes :=
  match draws with
  | [] => found
  | d :: draws =>
    if (samples <=? length found)%nat then found
    else match get_random hash_iter (key_values c) d with
         | None => found
         | Some (k, slot) =>
           if is_typed_container (slot_value slot) && is_expired t slot
           then sample_expired_typed t samples draws (found ++ [k]) c
           else sample_expired_typed t samples draws found c
         end
  end.

Fixpoint delete_expired_typed (t : Clock) (candidates : list Bytes) : M nat :=
  match candidates with
  | [] => mret 0%nat
  | key :: candidates =>
    slot ← kv_get key;
    let still_expired :=
      match slot with
      | Some slot => is_typed_container (slot_value slot) && is_expired t slot
      | None => false
      end in
    n ← (if still_expired then
           d ← delete_without_clearing_expire key;
           if d : bool then _ ← stats_incr evicted_expired; mret 1%nat else mret 0%nat
         else mret 0%nat);
    rest ← delete_expired_typed t candidates;
    mret (n + rest)%nat
  end.

Definition active_expire_typed (t : Clock) (samples : nat) (draws : list (list (nat * nat))) : M nat :=
  if (samples =? 0)%nat then mret 0%nat
  else
    candidates ← asks (sample_expired_typed t samples (take (samples * 5) draws) []);
    delete_expired_typed t candidates.

(** ** Sweeping ([cache/eviction.rs]) *)

Definition apply_expire_accounting (count : nat) (bytes_freed : Z) : M unit :=
  _ ← (if 0 <? bytes_freed then _ ← usage_sub bytes_freed; track_free bytes_freed CatCache else mret tt);
  stats_add evicted_expired (Z.of_nat count).

(** One turn of the loop of [string_sweep_expired]: what is not an expired string is put back. *)
Definition sweep_string (t : Clock) (key : Bytes) : M (option Z) :=
  slot ← kv_remove key;
  match slot with
  | Some slot =>
    match slot_value slot with
    | VString e =>
      if is_expired t slot then mret (Some (entry_size e))
      else _ ← kv_insert key slot; mret None
    | _ => _ ← kv_insert key slot; mret None
    end
  | None => mret None
  end.

Fixpoint sweep_strings (t : Clock) (expired : list Bytes) : M (nat * Z) :=
  match expired with
  | [] => mret (0%nat, 0)
  | key :: expired =>
    freed ← sweep_string t key;
    '(n, bytes) ← sweep_strings t expired;
    mret match freed with Some size => ((n + 1)%nat, bytes + size) | None => (n, bytes) end
  end.

Definition string_sweep_expired (t : Clock) : M (nat * Z) :=
  expired ← asks (λ c, omap (λ '(k, slot), if is_string (slot_value slot) && is_expired t slot then Some k else None)
                         (visit hash_iter (key_values c)));
  sweep_strings t expired.

Fixpoint sweep_typed (t : Clock) (expired : list Bytes) : M nat :=
  match expired with
  | [] => mret 0%nat
  | key :: expired =>
    purged ← purge_if_expired t key;
    _ ← (if purged : bool then stats_incr evicted_expired else mret tt);
    n ← sweep_typed t expired;
    mret (if purged : bool then n + 1 else n)%nat
  end.

Definition sweep_typed_expired (t : Clock) : M nat :=
  expired ← asks (λ c, omap (λ '(k, slot), if is_typed_container (slot_value slot) && is_expired t slot then Some k else None)
                         (visit hash_iter (key_values c)));
  sweep_typed t expired.

Definition sweep (t : Clock) : M nat :=
  '(count, bytes) ← string_sweep_expired t;
  _ ← (if (0 <? count)%nat then apply_expire_accounting count bytes else mret tt);
  typed ← sweep_typed_expired t;
  mret (count + typed)%nat.

(** ** [cache/operations.rs] *)

Definition incr_action (t : Clock) (key : Bytes) (delta : Z) (current : option Entry) (slot_exp : option Z)
    (next_cas : Z) : MapAction Entry * option Z * RmwOutcome Z :=
  let fresh current_val keep_exp fl :=
    let new_value := wrap_i64 (current_val + delta) in
    let entry := with_cas (with_flags (entry_new t key (dec new_value)) fl) next_cas in
    (Set_ entry, keep_exp, RmwOk new_value (default 0 (entry_size <$> current)) (entry_size entry)) in
  match current with
  | Some entry =>
    if slot_ttl_live t slot_exp then
      match s ← from_utf8 (e_value entry); parse_i64 s with
      | Some v => fresh v slot_exp (flags entry)
      | None => (Keep, None, RmwFail)
      end
    else fresh 0 None 0
  | None => fresh 0 None 0
  end.

(** The accounting after the map was changed. *)
Definition rmw_account {A} (err : KError) (o : RmwOutcome A) : M (result KError A) :=
  match o with
  | RmwFail => mret (Err err)
  | RmwOk v old_size new_size => _ ← account_replace old_size new_size; mret (Ok v)
  end.

Definition incr_decr (t : Clock) (key : Bytes) (delta : Z) : M (result KError Z) :=
  outcome ?← mutate_string key (incr_action t key delta);
  rmw_account (InvalidArgument (str "value is not a valid integer")) outcome.

Definition incr (t : Clock) (key : Bytes) (delta : Z) : M (result KError Z) :=
  _ ← stats_incr cmd_incr; incr_decr t key delta.

Definition decr (t : Clock) (key : Bytes) (delta : Z) : M (result KError Z) :=
  _ ← stats_incr cmd_decr; incr_decr t key (wrap_i64 (- delta)).

(** The value an RMW starts from, the expiry and flags it keeps, and the size it frees. *)
Definition rmw_old (t : Clock) (current : option Entry) (slot_exp : option Z) : Bytes * option Z * Z * Z :=
  match current with
  | Some entry =>
    if slot_ttl_live t slot_exp then (e_value entry, slot_exp, flags entry, entry_size entry)
    else ([], None, 0, entry_size entry)
  | None => ([], None, 0, 0)
  end.

Definition rmw_write (t : Clock) (key : Bytes) (limit : Z) (new_value : Bytes) (keep_exp : option Z) (fl old_size : Z)
    (next_cas : Z) : MapAction Entry * option Z * RmwOutcome Z :=
  if limit <? logical_string_entry (zlen key) (zlen new_value) entry_struct_size then (Keep, None, RmwFail)
  else
    let entry := with_cas (with_flags (entry_new t key new_value) fl) next_cas in
    (Set_ entry, keep_exp, RmwOk (zlen new_value) old_size (entry_size entry)).

Definition append_action (t : Clock) (key suffix : Bytes) (limit : Z) (current : option Entry)
    (slot_exp : option Z) (next_cas : Z) : MapAction Entry * option Z * RmwOutcome Z :=
  let '(old_val, keep_exp, fl, old_size) := rmw_old t current slot_exp in
  rmw_write t key limit (old_val ++ suffix) keep_exp fl old_size next_cas.

(** The size checks of [append] and [setrange] before the map is changed. *)
Definition rmw_precheck (t : Clock) (rounds : nat → Round) (key : Bytes) (new_len : Z → Z) : M (result KError Z) :=
  existing ← get_string_entry t key;
  let len := new_len (zlen (default [] (e_value <$> existing))) in
  limit ← asks max_entry_size;
  if limit <? logical_string_entry (zlen key) len entry_struct_size then mret (Err EntryTooLarge)
  else
    let projected := estimate_string_entry (zlen key) len entry_struct_size in
    _ ?← ensure_capacity t rounds (sat_sub_u64 projected (default 0 (entry_size <$> existing)));
    mret (Ok limit).

Definition append (t : Clock) (rounds : nat → Round) (key suffix : Bytes) : M (result KError Z) :=
  _ ?← ensure_string_or_absent t key;
  limit ?← rmw_precheck t rounds key (λ old, wrap_u64 (old + zlen suffix));
  outcome ?← mutate_string key (append_action t key suffix limit);
  rmw_account EntryTooLarge outcome.

(** [vec![0; n]], the two [copy_from_slice]. *)
Definition overwrite (old : Bytes) (offset : nat) (value : Bytes) : Bytes :=
  let buf := old ++ replicate (offset + length value - length old) x00 in
  if decide (value = []) then buf else take offset buf ++ value ++ drop (offset + length value) buf.

Definition setrange_action (t : Clock) (key : Bytes) (offset : nat) (value : Bytes) (limit : Z)
    (current : option Entry) (slot_exp : option Z) (next_cas : Z) : MapAction Entry * option Z * RmwOutcome Z :=
  let '(old_val, keep_exp, fl, old_size) := rmw_old t current slot_exp in
  rmw_write t key limit (overwrite old_val offset value) keep_exp fl old_size next_cas.

(** Where [offset + value.len()] wraps, the slice [buf[offset..end]] is inverted and panics. *)
Definition setrange (t : Clock) (rounds : nat → Round) (key : Bytes) (offset : nat) (value : Bytes)
    : M (result KError Z) :=
  _ ?← ensure_string_or_absent t key;
  limit ?← rmw_precheck t rounds key (λ old, Z.max (wrap_u64 (Z.of_nat offset + zlen value)) old);
  if wrap_u64 (Z.of_nat offset + zlen value) <? Z.of_nat offset then λ _, Panic else
  outcome ?← mutate_string key (setrange_action t key offset value limit);
  rmw_account EntryTooLarge outcome.

Definition no_such_key : KError := InvalidArgument (str "no such key").

Definition rename_string (src dst : Bytes) : M (result KError bool) :=
  slot ← kv_remove src;
  match slot with
  | None => mret (Err no_such_key)
  | Some slot =>
    match slot_value slot with
    | VString entry =>
      let old_size := entry_size entry in
      let entry := mkEntry dst (e_value entry) (created_at entry) (last_access_micros entry) (e_lfu entry)
                     (flags entry) (cas entry) in
      let new_size := entry_size entry in
      _ ← kv_insert dst (mkKeySlot (expires_at slot) (VString entry));
      _ ← (if old_size <? new_size then
             _ ← usage_add (new_size - old_size); track_add (new_size - old_size) CatCache
           else if new_size <? old_size then
             _ ← usage_sub (old_size - new_size); track_free (old_size - new_size) CatCache
           else mret tt);
      mret (Ok true)
    | _ => _ ← kv_insert src slot; mret (Err no_such_key)
    end
  end.

Definition rename_typed (src_type : KeyType) (src dst : Bytes) : M (result KError bool) :=
  slot ← kv_remove src;
  match slot with
  | None => mret (Err no_such_key)
  | Some slot =>
    if decide (value_type (slot_value slot) = src_type) then
      _ ← account_typed_key_rename src dst (content_memory_size (slot_value slot)) (memory_category (slot_value slot));
      _ ← kv_insert dst slot;
      mret (Ok true)
    else _ ← kv_insert src slot; mret (Err no_such_key)
  end.

Definition rename (t : Clock) (src dst : Bytes) (nx : bool) : M (result KError bool) :=
  if decide (src = dst) then
    kt ← key_type t src;
    mret (if decide (kt = KNone) then Err no_such_key else Ok true)
  else
    src_type ← key_type t src;
    if decide (src_type = KNone) then mret (Err no_such_key)
    else
      blocked ← (if nx then exists_ t dst else mret false);
      if blocked : bool then mret (Ok false)
      else
        there ← exists_ t dst;
        _ ← (if there : bool then delete dst else mret false);
        match src_type with
        | KNone => mret (Err no_such_key)
        | KString => rename_string src dst
        | _ => rename_typed src_type src dst
        end.

(** ** [cache/config.rs] *)

Definition set_max_entry_size (size : Z) : M (result KError unit) := λ c,
  if size <? 1024 then Ret (c, Err (InvalidArgument (str "max entry size too small (minimum 1KB)")))
  else if max_memory c <? size then Ret (c, Err (InvalidArgument (str "max entry size cannot exceed max memory")))
  else Ret (set_limits c (max_memory c) size, Ok tt).

Definition set_max_memory (t : Clock) (rounds : nat → Round) (size : Z) : M (result KError unit) := λ c,
  if (0 <? size) && (size <? 1024 * 1024) then
    Ret (c, Err (InvalidArgument (str "max memory must be at least 1MB (or 0 for unlimited)")))
  else
    let c := set_memory c (Memory.set_max_memory (memory_tracker c) size) (memory_usage c) in
    let c := set_limits c size
               (if (0 <? size) && (size <? max_entry_size c) then size else max_entry_size c) in
    if 0 <? size then
      let over := sat_sub_u64 (total_memory (memory_tracker c)) size in
      if (0 <? over) && eviction_allowed c then (_ ← evict_memory t rounds over; mret (Ok tt)) c
      else Ret (c, Ok tt)
    else Ret (c, Ok tt).

Definition set_eviction_sample_size (size : nat) : M (result KError unit) := λ c,
  if (size <? 1)%nat then Ret (c, Err (InvalidArgument (str "eviction sample size too small (minimum 1)")))
  else if (100 <? size)%nat then Ret (c, Err (InvalidArgument (str "eviction sample size too large (maximum 100)")))
  else Ret (set_eviction c (evict_enabled c) (eviction_policy c) size, Ok tt).
End ops.
