(* ===== verification/CacheFacts.v ===== *)
(** * Facts about the keyspace operations

    A weakest precondition for the state-passing methods, the invariant of the cache (names, and
    memory accounted exactly), and what each method does to the map of slots. *)

From S2P Require Import Prelude RustStd Errors Glob ListType SetType HashType SortedSet StreamType Memory KeyMap Keyspace CacheOps.
From Stdlib Require Import Lia.
Local Open Scope Z_scope.

(** ** Sums over maps *)

Definition zsum (l : list Z) : Z := foldr Z.add 0 l.

#[global] Instance zsum_perm : Proper ((≡ₚ) ==> (=)) zsum.
Proof. induction 1; simpl; lia. Qed.

Definition map_sum {V} (f : Bytes → V → Z) (m : gmap Bytes V) : Z :=
  zsum ((λ '(k, v), f k v) <$> map_to_list m).

Section map_sum.
Context {V : Type} (f : Bytes → V → Z).
Implicit Types (m : gmap Bytes V).

Lemma map_sum_empty : map_sum f ∅ = 0.
Proof. unfold map_sum. by rewrite map_to_list_empty. Qed.

Lemma map_sum_delete k m : map_sum f (base.delete k m) = map_sum f m - from_option (f k) 0 (m !! k).
Proof.
  destruct (m !! k) as [v|] eqn:E; simpl.
  - assert (Em : map_sum f m = f k v + map_sum f (base.delete k m)); [|lia].
    unfold map_sum. by rewrite <- (map_to_list_delete m k v E) at 1.
  - rewrite delete_id by done. lia.
Qed.

Lemma map_sum_insert k v m : map_sum f (<[k := v]> m) = map_sum f m - from_option (f k) 0 (m !! k) + f k v.
Proof.
  rewrite <- insert_delete_eq, <- map_sum_delete.
  assert (Em : map_sum f (<[k := v]> (base.delete k m)) = f k v + map_sum f (base.delete k m)); [|lia].
  unfold map_sum at 1. by rewrite map_to_list_insert by apply lookup_delete_eq.
Qed.

Lemma map_sum_pos m : (∀ k v, 0 ≤ f k v) → 0 ≤ map_sum f m.
Proof.
  intros Hf. unfold map_sum. induction (map_to_list m) as [|[k v] l IH]; [done|].
  rewrite fmap_cons. cbn [zsum foldr]. specialize (Hf k v). unfold zsum in IH. lia.
Qed.

Lemma map_sum_ge m k v : (∀ k v, 0 ≤ f k v) → m !! k = Some v → f k v ≤ map_sum f m.
Proof.
  intros Hf Hk. pose proof (map_sum_delete k m) as E. rewrite Hk in E. simpl in E.
  pose proof (map_sum_pos (base.delete k m) Hf). lia.
Qed.

Lemma map_sum_ext (g : Bytes → V → Z) m : (∀ k v, f k v = g k v) → map_sum f m = map_sum g m.
Proof. intros H. unfold map_sum. f_equal. apply list_fmap_ext. intros i [k v] _. apply H. Qed.

Lemma map_sum_le (m m' : gmap Bytes V) : (∀ k v, 0 ≤ f k v) → m' ⊆ m → map_sum f m' ≤ map_sum f m.
Proof.
  intros Hf. revert m. induction m' as [|k v m' Hk IH] using map_ind; intros m Hsub.
  - rewrite map_sum_empty. by apply map_sum_pos.
  - assert (Hv : m !! k = Some v) by (eapply lookup_weaken; [apply lookup_insert_eq|done]).
    rewrite map_sum_insert, Hk. simpl. specialize (IH (base.delete k m)).
    rewrite map_sum_delete, Hv in IH. simpl in IH.
    assert (m' ⊆ base.delete k m); [|specialize (IH ltac:(done)); lia].
    apply map_subseteq_spec. intros k' v' Hk'. rewrite lookup_delete_ne by congruence.
    eapply lookup_weaken; [|exact Hsub]. rewrite lookup_insert_ne by congruence. done.
Qed.
End map_sum.

Lemma map_sum_plus {V} (f g : Bytes → V → Z) m : map_sum (λ k v, f k v + g k v) m = map_sum f m + map_sum g m.
Proof.
  unfold map_sum. induction (map_to_list m) as [|[k v] l IH]; [done|]. rewrite !fmap_cons.
  cbn [zsum foldr]. unfold zsum in IH. lia.
Qed.

(** ** Weakest preconditions *)

Section wp.
Context {St_ : Type}.
Implicit Types (c : St_).

(** The method returns, and its result satisfies [Q]. *)
Definition wp {A} (m : St St_ A) c (Q : St_ → A → Prop) : Prop :=
  match m c with Ret (c', a) => Q c' a | Panic => False end.

Lemma wp_ret {A} (a : A) c (Q : St_ → A → Prop) : Q c a → wp (mret a) c Q.
Proof. done. Qed.

Lemma wp_bind {A B} (m : St St_ A) (f : A → St St_ B) c Q :
  wp m c (λ c' a, wp (f a) c' Q) → wp (m ≫= f) c Q.
Proof. unfold wp, mbind, st_bind. by destruct (m c) as [[c' a]|]. Qed.

Lemma wp_try {E A B} (m : St St_ (result E A)) (f : A → St St_ (result E B)) c Q :
  wp m c (λ c' r, match r with Ok a => wp (f a) c' Q | Err e => Q c' (Err e) end) → wp (try_bind m f) c Q.
Proof. unfold wp, try_bind. by destruct (m c) as [[c' [a|e]]|]. Qed.

Lemma wp_mono {A} (m : St St_ A) c (P Q : St_ → A → Prop) :
  wp m c P → (∀ c' a, P c' a → Q c' a) → wp m c Q.
Proof. unfold wp. destruct (m c) as [[c' a]|]; auto. Qed.

Lemma wp_elim {A} (m : St St_ A) c Q : wp m c Q → ∃ c' a, m c = Ret (c', a) ∧ Q c' a.
Proof. unfold wp. destruct (m c) as [[c' a]|]; [eauto|done]. Qed.
End wp.

(** ** The invariant *)

Section facts.
Context {GeoSet Srch : Type} `{!Platform GeoSet, !PlatformLaws GeoSet, !SearchManager Srch, !SearchLaws Srch}.
Abbreviation Slot := (KeySlot GeoSet).
Abbreviation C := (Cache GeoSet Srch).
Abbreviation M := (St C).
Implicit Types (c : C) (k : Bytes) (m : gmap Bytes Slot) (s : Slot) (cat : MemoryCategory).

(** The slots by name. *)
Definition slots c : gmap Bytes Slot := contents (key_values c).

(** What a slot is accounted for. *)
Definition slot_bytes k s : Z :=
  match slot_value s with
  | VString e => entry_size (GeoSet := GeoSet) e
  | v => estimate_keyed_object (zlen k) (container_size v)
  end.

Definition cat_bytes cat m : Z :=
  map_sum (λ k s, if decide (memory_category (slot_value s) = cat) then slot_bytes k s else 0) m.

Definition bytes m : Z := map_sum slot_bytes m.

(** Memory that is not of the keyspace: messages and search documents. *)
Definition other c : Z :=
  counters (memory_tracker c) CatPubSub + counters (memory_tracker c) CatSearch.

Definition named k s : Prop := ∀ e, slot_value s = VString e → e_key e = k.

Record inv c : Prop := {
  inv_map : km_ok hash_one (key_values c);
  inv_named : ∀ k s, slots c !! k = Some s → named k s;
  inv_tracker : tracker_ok (memory_tracker c);
  inv_counts : ∀ cat, cat ≠ CatPubSub → cat ≠ CatSearch → counters (memory_tracker c) cat = cat_bytes cat (slots c);
  inv_usage : memory_usage c = cat_bytes CatCache (slots c);
  inv_total : total (memory_tracker c) ≤ u64_max;
  inv_limit : limit (memory_tracker c) = max_memory c
}.

Lemma with_alloc_overhead_pos n : 0 ≤ n → 0 ≤ with_alloc_overhead n.
Proof.
  intros Hn. unfold with_alloc_overhead, align_up_8, sat_add_u64, wrap_u64.
  destruct (Z.eqb_spec n 0); [lia|]. apply Z.ldiff_nonneg. left.
  pose proof (Z.mod_pos_bound (n + 7) (u64_max + 1) ltac:(done)).
  assert (0 ≤ ((n + 7) mod (u64_max + 1)) / 8) by (apply Z.div_pos; lia). unfold u64_max in *. lia.
Qed.

Lemma slot_bytes_pos k s : 0 ≤ slot_bytes k s.
Proof.
  assert (W : ∀ z, 0 ≤ wrap_u64 z) by (intros z; apply Z.mod_pos_bound; done).
  assert (E : ∀ e, 0 ≤ entry_size (GeoSet := GeoSet) e) by (intros e; apply with_alloc_overhead_pos, W).
  assert (O : ∀ v, 0 ≤ estimate_keyed_object (zlen k) (container_size (GeoSet := GeoSet) v)).
  { intros v. pose proof (container_size_pos v). unfold estimate_keyed_object, sat_add_u64.
    pose proof (with_alloc_overhead_pos _ (W (zlen k + BYTES_OVERHEAD + DICT_ENTRY_OVERHEAD))).
    unfold u64_max in *. lia. }
  unfold slot_bytes. destruct (slot_value s); first [apply E | apply O].
Qed.

Lemma cat_pos cat k s : 0 ≤ (if decide (memory_category (slot_value s) = cat) then slot_bytes k s else 0).
Proof. case_decide; [apply slot_bytes_pos|lia]. Qed.

Lemma cat_bytes_pos cat m : 0 ≤ cat_bytes cat m.
Proof. apply map_sum_pos. intros. apply cat_pos. Qed.

Lemma bytes_pos m : 0 ≤ bytes m.
Proof. apply map_sum_pos, slot_bytes_pos. Qed.

(** Every slot is in exactly one keyspace category. *)
Lemma bytes_cats m :
  bytes m = sum_of (λ cat, if decide (cat = CatSearch) then 0 else cat_bytes cat m) KEYSPACE_CATEGORIES.
Proof.
  transitivity (cat_bytes CatCache m + cat_bytes CatSortedSets m + cat_bytes CatGeoSets m + cat_bytes CatHashes m
    + cat_bytes CatLists m + cat_bytes CatSets m + cat_bytes CatStreams m).
  - unfold cat_bytes. rewrite <- !map_sum_plus. apply map_sum_ext. intros k s.
    destruct (slot_value s); simpl; lia.
  - cbn [sum_of foldr KEYSPACE_CATEGORIES]. rewrite (decide_True (P := CatSearch = CatSearch)), !decide_False by done. lia.
Qed.

Lemma total_eq c : inv c → total (memory_tracker c) = other c + bytes (slots c).
Proof.
  intros H. rewrite (tr_total _ (inv_tracker c H)), bytes_cats. unfold other.
  cbn [sum_of foldr all_categories KEYSPACE_CATEGORIES].
  rewrite (inv_counts c H CatCache), (inv_counts c H CatSortedSets), (inv_counts c H CatGeoSets),
    (inv_counts c H CatHashes), (inv_counts c H CatLists), (inv_counts c H CatSets), (inv_counts c H CatStreams) by done.
  rewrite (decide_True (P := CatSearch = CatSearch)), !decide_False by done. lia.
Qed.

Definition cfg c : Z * Z * bool * EvictionPolicy * nat * Z * Z :=
  (max_memory c, max_entry_size c, evict_enabled c, eviction_policy c, eviction_sample_size c, lfu_log_factor c,
   lfu_decay_time c).

Definition docs c : nat := total_document_count (search_index_manager c).

(** A method took [c] to [c'], whose slots are [m]. *)
Record step c c' m : Prop := {
  st_inv : inv c';
  st_slots : slots c' = m;
  st_cfg : cfg c' = cfg c;
  st_other : other c' ≤ other c;
  st_docs : (docs c' ≤ docs c)%nat
}.

Lemma step_refl c : inv c → step c c (slots c).
Proof. intros H. by split. Qed.

Lemma step_trans c c1 c2 m1 m2 : step c c1 m1 → step c1 c2 m2 → step c c2 m2.
Proof. intros [??? H1 ?] [??? H2 ?]. split; [done|done|congruence|lia|lia]. Qed.

Lemma step_eq c c' m m' : step c c' m → m = m' → step c c' m'.
Proof. by intros ? ->. Qed.

(** Same slots, same memory: statistics and generations. *)
Lemma step_quiet c c' :
  inv c → key_values c' = key_values c → memory_tracker c' = memory_tracker c → memory_usage c' = memory_usage c →
  cfg c' = cfg c → (docs c' ≤ docs c)%nat → step c c' (slots c).
Proof.
  intros H Ek Et Eu Ec Hd.
  assert (Es : slots c' = slots c) by (unfold slots; by rewrite Ek).
  split; [|done|done|unfold other; by rewrite Et|done].
  unfold cfg in Ec. simplify_eq. destruct H. split; rewrite ?Ek, ?Et, ?Eu, ?Es; congruence || done.
Qed.

(** A slot is dropped and its memory given back. *)
Lemma inv_free c c' k s :
  inv c → slots c !! k = Some s → km_ok hash_one (key_values c') → slots c' = base.delete k (slots c) →
  memory_tracker c' = deallocate (memory_tracker c) (slot_bytes k s) (memory_category (slot_value s)) →
  memory_usage c' = (if is_string (slot_value s) then wrap_u64 (memory_usage c - slot_bytes k s) else memory_usage c) →
  cfg c' = cfg c → (docs c' ≤ docs c)%nat → step c c' (base.delete k (slots c)).
Proof.
  intros H Hk Hm Es Et Eu Ec Hd. pose proof (slot_bytes_pos k s) as Hp. unfold cfg in Ec. simplify_eq.
  destruct (deallocate_ok (memory_tracker c) (slot_bytes k s) (memory_category (slot_value s)) (inv_tracker c H) Hp)
    as (Hok & Htot & Hcnt).
  assert (Hcs : memory_category (slot_value s) ≠ CatPubSub ∧ memory_category (slot_value s) ≠ CatSearch)
    by (by destruct (slot_value s)).
  assert (Hge : slot_bytes k s ≤ cat_bytes (memory_category (slot_value s)) (slots c)).
  { pose proof (map_sum_ge (λ k s', if decide (memory_category (slot_value s') = memory_category (slot_value s))
                                   then slot_bytes k s' else 0) (slots c) k s (cat_pos _) Hk) as G.
    cbn beta in G. by rewrite decide_True in G. }
  rewrite <- (inv_counts c H) in Hge by apply Hcs.
  replace (Z.min _ _) with (slot_bytes k s) in * by lia.
  assert (Hcat : ∀ cat, cat_bytes cat (slots c') =
    cat_bytes cat (slots c) - (if decide (cat = memory_category (slot_value s)) then slot_bytes k s else 0)).
  { intros cat. rewrite Es. unfold cat_bytes. rewrite map_sum_delete, Hk. simpl. repeat case_decide; congruence || lia. }
  split; [|done|unfold cfg; congruence| |done].
  - split; rewrite ?Et; [done| |done| | | |].
    + intros k' s'. rewrite Es, lookup_delete_Some. intros [_ ?]. by apply (inv_named c H).
    + intros cat Hn1 Hn2. rewrite Hcnt, Hcat, (inv_counts c H) by done. done.
    + rewrite Eu, Hcat, <- (inv_usage c H).
      destruct (slot_value s); cbn [is_string memory_category] in *; repeat (case_decide; try done); try lia; [].
      unfold wrap_u64. apply Z.mod_small. pose proof (inv_total c H). pose proof (total_eq c H) as Et'.
      rewrite (inv_usage c H). pose proof (inv_counts c H CatCache ltac:(done) ltac:(done)) as E0.
      rewrite <- E0. split; [lia|]. pose proof (sum_of_ge _ all_categories CatCache (tr_pos _ (inv_tracker c H))
        (elem_of_all_categories _)) as G. rewrite <- (tr_total _ (inv_tracker c H)) in G. lia.
    + rewrite Htot. pose proof (inv_total c H). lia.
    + unfold deallocate. destruct (_ =? 0); simpl; rewrite (inv_limit c H); done.
  - unfold other. rewrite Et, !Hcnt. rewrite !decide_False by (destruct Hcs; congruence). lia.
Qed.

(** A slot is added under a free name and its memory accounted. *)
Lemma inv_put c c' k s :
  inv c → slots c !! k = None → named k s → km_ok hash_one (key_values c') → slots c' = <[k := s]> (slots c) →
  memory_tracker c' = account (memory_tracker c) (slot_bytes k s) (memory_category (slot_value s)) →
  memory_usage c' = (if is_string (slot_value s) then wrap_u64 (memory_usage c + slot_bytes k s) else memory_usage c) →
  cfg c' = cfg c → (docs c' ≤ docs c)%nat → total (memory_tracker c) + slot_bytes k s ≤ u64_max →
  step c c' (<[k := s]> (slots c)).
Proof.
  intros H Hk Hn Hm Es Et Eu Ec Hd Hfit. pose proof (slot_bytes_pos k s) as Hp. unfold cfg in Ec. simplify_eq.
  destruct (account_ok (memory_tracker c) (slot_bytes k s) (memory_category (slot_value s)) (inv_tracker c H) Hp Hfit)
    as (Hok & Htot & Hcnt).
  assert (Hcs : memory_category (slot_value s) ≠ CatPubSub ∧ memory_category (slot_value s) ≠ CatSearch)
    by (by destruct (slot_value s)).
  assert (Hcat : ∀ cat, cat_bytes cat (slots c') =
    cat_bytes cat (slots c) + (if decide (cat = memory_category (slot_value s)) then slot_bytes k s else 0)).
  { intros cat. rewrite Es. unfold cat_bytes. rewrite map_sum_insert, Hk. simpl. repeat case_decide; congruence || lia. }
  split; [|done|unfold cfg; congruence| |done].
  - split; rewrite ?Et; [done| |done| | | |].
    + intros k' s'. rewrite Es, lookup_insert_Some. intros [[<- <-]|[_ ?]]; [done|]. by apply (inv_named c H).
    + intros cat Hn1 Hn2. rewrite Hcnt, Hcat, (inv_counts c H) by done. done.
    + rewrite Eu, Hcat, <- (inv_usage c H).
      destruct (slot_value s); cbn [is_string memory_category] in *; repeat (case_decide; try done); try lia; [].
      unfold wrap_u64. apply Z.mod_small. rewrite (inv_usage c H). pose proof (cat_bytes_pos CatCache (slots c)).
      pose proof (inv_counts c H CatCache ltac:(done) ltac:(done)) as E0. rewrite <- E0 in *.
      pose proof (sum_of_ge _ all_categories CatCache (tr_pos _ (inv_tracker c H))
        (elem_of_all_categories _)) as G. rewrite <- (tr_total _ (inv_tracker c H)) in G. lia.
    + by rewrite Htot.
    + unfold account. destruct (_ =? 0); simpl; rewrite (inv_limit c H); done.
  - unfold other. rewrite Et, !Hcnt. rewrite !decide_False by (destruct Hcs; congruence). lia.
Qed.

(** A slot is replaced by one of the same size: expiry and access times. *)
Lemma inv_same c c' k s s' :
  inv c → slots c !! k = Some s → named k s' → slot_bytes k s' = slot_bytes k s →
  memory_category (slot_value s') = memory_category (slot_value s) →
  km_ok hash_one (key_values c') → slots c' = <[k := s']> (slots c) →
  memory_tracker c' = memory_tracker c → memory_usage c' = memory_usage c →
  cfg c' = cfg c → (docs c' ≤ docs c)%nat → step c c' (<[k := s']> (slots c)).
Proof.
  intros H Hk Hn Hb Hcs Hm Es Et Eu Ec Hd. unfold cfg in Ec. simplify_eq.
  assert (Hcat : ∀ cat, cat_bytes cat (slots c') = cat_bytes cat (slots c)).
  { intros cat. rewrite Es. unfold cat_bytes. rewrite map_sum_insert, Hk. simpl. rewrite Hcs, Hb. lia. }
  split; [|done|unfold cfg; congruence|unfold other; by rewrite Et|done].
  split; rewrite ?Et; [done| |apply H| | |apply H|rewrite (inv_limit c H); done].
  - intros k' s1. rewrite Es, lookup_insert_Some. intros [[<- <-]|[_ ?]]; [done|]. by apply (inv_named c H).
  - intros cat Hn1 Hn2. rewrite Hcat, (inv_counts c H) by done. done.
  - by rewrite Eu, Hcat, (inv_usage c H).
Qed.

(** Documents are dropped and their memory given back. *)
Lemma inv_search c c' n :
  inv c → 0 ≤ n → key_values c' = key_values c → memory_tracker c' = deallocate (memory_tracker c) n CatSearch →
  memory_usage c' = memory_usage c → cfg c' = cfg c → (docs c' ≤ docs c)%nat → step c c' (slots c).
Proof.
  intros H Hp Ek Et Eu Ec Hd. unfold cfg in Ec. simplify_eq.
  assert (Es : slots c' = slots c) by (unfold slots; by rewrite Ek).
  destruct (deallocate_ok (memory_tracker c) n CatSearch (inv_tracker c H) Hp) as (Hok & Htot & Hcnt).
  pose proof (tr_pos _ (inv_tracker c H) CatSearch) as Hs.
  split; [|done|unfold cfg; congruence| |done].
  - split; rewrite ?Et, ?Es, ?Ek; [apply H|apply (inv_named c H)|done| | | |].
    + intros cat Hn1 Hn2. rewrite Hcnt, decide_False by done. rewrite (inv_counts c H) by done. lia.
    + by rewrite Eu, (inv_usage c H).
    + rewrite Htot. pose proof (inv_total c H). lia.
    + unfold deallocate. destruct (_ =? 0); simpl; rewrite (inv_limit c H); done.
  - unfold other. rewrite Et, !Hcnt. rewrite decide_False, decide_True by done. lia.
Qed.

(** ** The map *)

Lemma wp_asks {A} (f : C → A) c (Q : C → A → Prop) : Q c (f c) → wp (asks f) c Q.
Proof. done. Qed.

Lemma wp_modify (f : C → C) c (Q : C → unit → Prop) : Q (f c) tt → wp (modify f) c Q.
Proof. done. Qed.

Lemma wp_kv_get k c Q : km_ok hash_one (key_values c) → Q c (slots c !! k) → wp (kv_get k) c Q.
Proof.
  intros Hok H. unfold wp, kv_get, km_get, shard, index.
  destruct (shard_ok hash_one (key_values c) k Hok) as [m Hm]. rewrite Hm. cbn [mbind exec_bind].
  by rewrite <- (contents_lookup hash_one (key_values c) m k).
Qed.

Lemma wp_kv_remove k c Q :
  km_ok hash_one (key_values c) →
  (∀ kv, km_ok hash_one kv → contents kv = base.delete k (slots c) → Q (set_key_values c kv) (slots c !! k)) →
  wp (kv_remove k) c Q.
Proof.
  intros Hok H. unfold wp, kv_remove, on_map.
  destruct (km_remove_spec hash_one (key_values c) k Hok) as (kv & -> & Hkv & E & _). by apply H.
Qed.

Lemma wp_kv_insert k s c Q :
  km_ok hash_one (key_values c) →
  (∀ kv, km_ok hash_one kv → contents kv = <[k := s]> (slots c) → Q (set_key_values c kv) (slots c !! k)) →
  wp (kv_insert k s) c Q.
Proof.
  intros Hok H. unfold wp, kv_insert, on_map.
  destruct (km_insert_spec hash_one (key_values c) k s Hok) as (kv & -> & Hkv & E & _). by apply H.
Qed.

(** [mutate] hands out a token. *)
Lemma wp_kv_mutate {R} k (f : option Slot → Z → MapAction Slot * R) c Q :
  km_ok hash_one (key_values c) →
  (∀ kv token, km_ok hash_one kv → contents kv = apply_action k (f (slots c !! k) token).1 (slots c) →
     Q (set_key_values c kv) (f (slots c !! k) token).2) →
  wp (kv_mutate k f) c Q.
Proof.
  intros Hok H. unfold wp, kv_mutate, on_map.
  destruct (mutate_spec hash_one (key_values c) k f Hok) as (token & kv & _ & -> & Hkv & E & _). by apply H.
Qed.

Ltac wp_step := first [apply wp_bind | apply wp_try | apply wp_ret | apply wp_asks | apply wp_modify].
Ltac wp_steps := repeat (wp_step; cbv beta).

(** ** Removal *)

Lemma wp_remove_from_indices k matching c :
  inv c → wp (remove_from_indices k matching) c (λ c' _, step c c' (slots c)).
Proof.
  revert c. induction matching as [|i matching IH]; intros c H; [by apply step_refl|].
  cbn [remove_from_indices]. wp_steps.
  assert (Hs : ∀ n, (document_size (search_index_manager c) i k = Some n ∨
                     document_size (search_index_manager c) i k = None ∧ n = 0) →
    wp (remove_from_indices k matching)
      (set_search (set_memory c (deallocate (memory_tracker c) n CatSearch) (memory_usage c))
         (remove_document (search_index_manager c) i k)) (λ c' _, step c c' (slots c))).
  { intros n Hn. assert (0 ≤ n) by (destruct Hn as [Hn|[_ ->]]; [by apply document_size_pos in Hn as [? _]|done]).
    assert (Hst : step c (set_search (set_memory c (deallocate (memory_tracker c) n CatSearch) (memory_usage c))
      (remove_document (search_index_manager c) i k)) (slots c)).
    { apply (inv_search _ _ n); try done. apply remove_document_le. }
    eapply wp_mono; [apply IH, Hst|]. intros c' [] H'. eapply step_trans; [exact Hst|]. eapply step_eq; [exact H'|].
    apply Hst. }
  destruct (document_size (search_index_manager c) i k) as [n|] eqn:E; wp_steps.
  - apply Hs. by left.
  - replace (set_search c _) with (set_search (set_memory c (deallocate (memory_tracker c) 0 CatSearch) (memory_usage c))
      (remove_document (search_index_manager c) i k)) by done. apply Hs. by right.
Qed.

Lemma wp_auto_remove k c : inv c → wp (auto_remove_from_indices k) c (λ c' _, step c c' (slots c)).
Proof. intros H. unfold auto_remove_from_indices. wp_steps. by apply wp_remove_from_indices. Qed.

Lemma wp_touch_watch k c : inv c → wp (touch_watch_key k) c (λ c' _, step c c' (slots c)).
Proof. intros H. apply wp_modify. by apply step_quiet. Qed.

Lemma wp_stats (st : Stat) n c : inv c → wp (stats_add st n) c (λ c' _, step c c' (slots c)).
Proof. intros H. apply wp_modify. by apply step_quiet. Qed.

(** The state after a slot left the map and its memory was given back. *)
Definition freed c kv k s : C :=
  set_memory (set_key_values c kv)
    (deallocate (memory_tracker c) (slot_bytes k s) (memory_category (slot_value s)))
    (if is_string (slot_value s) then wrap_u64 (memory_usage c - slot_bytes k s) else memory_usage c).

Lemma step_freed c kv k s :
  inv c → slots c !! k = Some s → km_ok hash_one kv → contents kv = base.delete k (slots c) →
  step c (freed c kv k s) (base.delete k (slots c)).
Proof. intros H Hk Hm Es. by apply (inv_free c _ k s). Qed.

Lemma step_absent c kv k :
  inv c → slots c !! k = None → km_ok hash_one kv → contents kv = base.delete k (slots c) →
  step c (set_key_values c kv) (base.delete k (slots c)).
Proof.
  intros H Hk Hm Es. rewrite delete_id in * by done.
  destruct H as [H1 H2 H3 H4 H5 H6 H7]. split; [|done..].
  split; unfold slots in *; cbn [key_values memory_tracker memory_usage max_memory set_key_values];
    rewrite ?Es; done.
Qed.

Lemma wp_remove_raw k c :
  inv c → wp (remove_key_value_raw k) c (λ c' r,
    step c c' (base.delete k (slots c)) ∧ r = bool_decide (is_Some (slots c !! k))).
Proof.
  intros H. unfold remove_key_value_raw. apply wp_bind, wp_kv_remove; [apply H|]. intros kv Hkv E.
  destruct (slots c !! k) as [s|] eqn:Ek; wp_steps.
  - pose proof (step_freed c kv k s H Ek Hkv E) as Hst. unfold freed, slot_bytes in Hst.
    destruct (slot_value s) eqn:Ev; wp_steps; split; try done;
      cbn [is_string memory_category content_memory_size] in *; rewrite Ev in Hst; exact Hst.
  - split; [|done]. by apply step_absent.
Qed.

Lemma wp_delete k c :
  inv c → wp (CacheOps.delete k) c (λ c' r,
    step c c' (base.delete k (slots c)) ∧ r = bool_decide (is_Some (slots c !! k))).
Proof.
  intros H. unfold CacheOps.delete. apply wp_bind. eapply wp_mono; [by apply wp_stats|]. intros c1 [] H1.
  apply wp_bind. eapply wp_mono; [apply wp_remove_raw, H1|]. intros c2 r [H2 ->]. rewrite (st_slots _ _ _ H1) in *.
  pose proof (step_trans _ _ _ _ _ H1 H2) as H3. apply wp_bind.
  case_bool_decide; [|wp_steps; done]. eapply wp_mono; [apply wp_auto_remove, H3|]. intros c3 [] H4. wp_steps.
  split; [|done]. eapply step_trans; [exact H3|]. eapply step_eq; [exact H4|apply H3].
Qed.

Lemma wp_delete_no_clear k c :
  inv c → wp (delete_without_clearing_expire k) c (λ c' r,
    step c c' (base.delete k (slots c)) ∧ r = bool_decide (is_Some (slots c !! k))).
Proof.
  intros H. unfold delete_without_clearing_expire.
  apply wp_bind. eapply wp_mono; [apply wp_remove_raw, H|]. intros c1 r [H1 ->]. apply wp_bind.
  case_bool_decide; [|wp_steps; done].
  apply wp_bind. eapply wp_mono; [apply wp_auto_remove, H1|]. intros c2 [] H2.
  eapply wp_mono; [apply wp_touch_watch, H2|]. intros c3 [] H3. wp_steps. split; [|done].
  rewrite (st_slots _ _ _ H2) in H3. rewrite (st_slots _ _ _ H1) in H3. 
  eapply step_trans; [exact H1|]. eapply step_trans; [exact H2|exact H3].
Qed.

(** ** Lazy expiry *)

Definition due (t : Clock) k m : bool := match m !! k with Some s => is_expired t s | None => false end.
Definition purge (t : Clock) k m : gmap Bytes Slot := if due t k m then base.delete k m else m.

Lemma wp_purge t k c :
  inv c → wp (purge_if_expired t k) c (λ c' r, step c c' (purge t k (slots c)) ∧ r = due t k (slots c)).
Proof.
  intros H. unfold purge_if_expired, purge, due. apply wp_bind, wp_kv_get; [apply H|].
  destruct (slots c !! k) as [s|] eqn:Ek; [|wp_steps; by split; [apply step_refl|]].
  unfold is_expired. destruct (expires_at s) as [exp|]; [|wp_steps; by split; [apply step_refl|]].
  destruct (Z.ltb_spec (now t) exp), (Z.leb_spec exp (now t)); try lia; [wp_steps; by split; [apply step_refl|]|].
  apply wp_bind. eapply wp_mono; [by apply wp_delete_no_clear|]. intros c1 r [Hst _]. wp_steps. done.
Qed.

Lemma purge_lookup t k m : purge t k m !! k = match m !! k with Some s => if is_expired t s then None else Some s | None => None end.
Proof.
  unfold purge, due. destruct (m !! k) as [s|] eqn:E; [|done]. destruct (is_expired t s); [apply lookup_delete_eq|done].
Qed.

(** The value a client sees under a name. *)
Definition visible (t : Clock) k m : option Slot :=
  s ← m !! k; if is_expired t s then None else Some s.

Lemma purge_visible t k m : purge t k m !! k = visible t k m.
Proof. rewrite purge_lookup. unfold visible. by destruct (m !! k). Qed.

Lemma wp_get_key_value t k c :
  inv c → wp (get_key_value t k) c (λ c' r, step c c' (purge t k (slots c)) ∧ r = slot_value <$> visible t k (slots c)).
Proof.
  intros H. unfold get_key_value. apply wp_bind. eapply wp_mono; [by apply wp_purge|]. intros c1 r [H1 ->].
  destruct (due t k (slots c)) eqn:E.
  - wp_steps. split; [done|]. unfold visible, due in *. destruct (slots c !! k); [|done]. simpl. by rewrite E.
  - apply wp_bind, wp_kv_get; [apply H1|]. wp_steps. split; [done|].
    by rewrite (st_slots _ _ _ H1), purge_visible.
Qed.

Definition type_at (t : Clock) k m : KeyType := default KNone (value_type <$> (slot_value <$> visible t k m)).

Lemma wp_key_type t k c :
  inv c → wp (key_type t k) c (λ c' r, step c c' (purge t k (slots c)) ∧ r = type_at t k (slots c)).
Proof.
  intros H. unfold key_type. apply wp_bind. eapply wp_mono; [by apply wp_get_key_value|]. intros c1 r [H1 ->].
  by wp_steps.
Qed.

Lemma wp_exists t k c :
  inv c → wp (exists_ t k) c (λ c' r, step c c' (purge t k (slots c)) ∧ r = bool_decide (is_Some (visible t k (slots c)))).
Proof.
  intros H. unfold exists_. apply wp_bind. eapply wp_mono; [by apply wp_get_key_value|]. intros c1 r [H1 ->].
  wp_steps. split; [done|]. apply bool_decide_ext. by rewrite fmap_is_Some.
Qed.

Lemma type_at_None t k m : type_at t k m = KNone ↔ visible t k m = None.
Proof.
  unfold type_at. destruct (visible t k m) as [s|]; simpl; [|done]. split; [|done]. by destruct (slot_value s).
Qed.

(** ** The empty cache *)

Lemma km_new_ok n : km_ok hash_one (km_new n : ShardedKeyMap Slot) ∧ contents (km_new n : ShardedKeyMap Slot) = ∅.
Proof.
  split.
  - split; cbn; [lia|by rewrite length_replicate..|].
    intros i m k [-> _]%lookup_replicate [s Hs]. by rewrite lookup_empty in Hs.
  - unfold contents. apply union_empties. intros m [-> _]%elem_of_replicate. done.
Qed.

Lemma inv_new n mm me : inv (new_with_sweep_loadfactor n mm me : C) ∧ slots (new_with_sweep_loadfactor n mm me : C) = ∅.
Proof.
  destruct (km_new_ok n) as [Hkv E]. split; [|exact E].
  split; unfold slots; cbn [key_values memory_tracker memory_usage max_memory new_with_sweep_loadfactor]; rewrite ?E.
  - done.
  - intros k s Hk. by rewrite lookup_empty in Hk.
  - split; done.
  - intros cat _ _. symmetry. apply map_sum_empty.
  - symmetry. apply map_sum_empty.
  - done.
  - done.
Qed.

Lemma inv_watch c (gens : gmap Bytes Z) : inv c → inv (set_watch c gens).
Proof. intros H. apply (step_quiet c (set_watch c gens)); done. Qed.
End facts.
