(* ===== verification/EvictionFacts.v ===== *)
(** * Eviction: termination and what is evicted

    The sampled candidates are live keys and indexed documents, the loop ends within its fuel, and
    it only removes keys the policy allows. *)

From S2P Require Import Prelude RustStd Errors Glob ListType SetType HashType SortedSet StreamType Memory KeyMap Keyspace CacheOps CacheFacts.
From Stdlib Require Import Lia.
Local Open Scope Z_scope.

(** The shuffles of a round reorder. *)
Definition round_ok (r : Round) : Prop := ∀ l, shuffle_search r l ≡ₚ l ∧ shuffle_keys r l ≡ₚ l.

Lemma min_by_elem {A} (cmp : A → A → comparison) (x : A) l : min_by cmp x l ∈ x :: l.
Proof.
  revert x. induction l as [|y l IH]; intros x; simpl; [set_solver|].
  specialize (IH (match cmp y x with Lt => y | _ => x end)). destruct (cmp y x); set_solver.
Qed.

Lemma min_by_key_elem {A K} (cmp : K → K → comparison) (key : A → K) l :
  l ≠ [] → ∃ x, min_by_key cmp key l = Some x ∧ x ∈ l.
Proof. destruct l as [|x l]; intros H; [done|]. eexists. split; [done|]. apply min_by_elem. Qed.

Lemma pick_victim_elem t r policy l :
  l ≠ [] → policy ≠ NoEviction → ∃ x, pick_victim t r l policy = Some x ∧ x ∈ l.
Proof.
  intros Hl Hp. destruct policy; try done; try by apply min_by_key_elem.
  all: unfold pick_victim; destruct (lookup_lt_is_Some_2 l (choose r mod length l)) as [x Hx];
    [apply Nat.mod_upper_bound; by destruct l|]; exists x; split; [done|]; by eapply list_elem_of_lookup_2.
Qed.

Lemma cap_pool_elem r n d out x : round_ok r → x ∈ cap_pool r n d out → x ∈ out.
Proof.
  intros Hr. unfold cap_pool. destruct (_ <? _)%nat; [|done].
  intros [H|H]%elem_of_app; apply elem_of_take in H as (i & H & _);
    apply list_elem_of_lookup_2 in H; rewrite ?(proj1 (Hr _)), ?(proj2 (Hr _)) in H;
    by apply list_elem_of_filter in H as [_ H].
Qed.

Section eviction.
Context {GeoSet Srch : Type} `{!Platform GeoSet, !PlatformLaws GeoSet, !SearchManager Srch, !SearchLaws Srch}.
Abbreviation Slot := (KeySlot GeoSet).
Abbreviation C := (Cache GeoSet Srch).
Implicit Types (c : C) (k : Bytes) (m : gmap Bytes Slot) (s : Slot).

Ltac wp_step := first [apply wp_bind | apply wp_try | apply wp_ret | apply wp_asks | apply wp_modify].
Ltac wp_steps := repeat (wp_step; cbv beta).

(** A candidate that names a live key the policy may evict, or an indexed document. *)
Definition cand_ok (t : Clock) (policy : EvictionPolicy) c (x : EvictCandidate) : Prop :=
  match c_search_index x with
  | None =>
    ∃ s, slots c !! c_key x = Some s ∧ c_type x = value_type (slot_value s) ∧ c_size x = slot_bytes (c_key x) s ∧
      is_expired t s = false ∧ (volatile_only policy = true → is_Some (expires_at s))
  | Some index =>
    volatile_only policy = false ∧
    ∃ i z, get_index (search_index_manager c) index = Some i ∧
      document_size (search_index_manager c) i (c_key x) = Some z ∧ 0 < z
  end.

Lemma key_candidate_ok t decay policy c k s x :
  slots c !! k = Some s → key_candidate t decay (volatile_only policy) k s = Some x → cand_ok t policy c x.
Proof.
  intros Hk. unfold key_candidate. destruct (is_expired t s) eqn:Ee; [done|].
  destruct (volatile_only policy && negb (bool_decide (is_Some (expires_at s)))) eqn:Ev; [done|]. intros [= <-].
  assert (V : volatile_only policy = true → is_Some (expires_at s)).
  { intros E. rewrite E in Ev. simpl in Ev. by destruct (bool_decide_reflect (is_Some (expires_at s))). }
  unfold cand_ok, typed_candidate. destruct (slot_value s) eqn:Es; simpl; exists s; unfold slot_bytes; rewrite Es;
    split_and!; done.
Qed.

Lemma sample_ok_candidates t r policy n exclude c x :
  inv c → round_ok r → x ∈ sample_eviction_candidates t r policy n exclude c → cand_ok t policy c x.
Proof.
  intros H Hr. unfold sample_eviction_candidates.
  destruct (sample_budget policy (n `max` 1) (km_len (key_values c)) _) as [key_draw search_draw] eqn:Eb.
  intros Hx%cap_pool_elem; [|done]. apply elem_of_app in Hx as [Hx|Hx].
  - destruct (0 <? key_draw)%nat; [|by apply not_elem_of_nil in Hx].
    apply list_elem_of_omap in Hx as ([k s] & Hks & Hx). eapply key_candidate_ok; [|exact Hx].
    destruct (get_n_random_ok hash_one hash_iter hash_iter_perm (key_values c) key_draw
      (take (5 * key_draw) (key_draws r)) ∅ []) as (seen & _ & _ & _ & Hin); [apply H| |].
    { split_and!; [simpl; lia|constructor|set_solver|set_solver]. }
    by apply Hin.
  - destruct (0 <? search_draw)%nat eqn:Ed; [|by apply not_elem_of_nil in Hx].
    apply list_elem_of_fmap in Hx as (y & -> & Hy). unfold cand_ok. cbn [c_search_index search_candidate c_key]. split.
    + unfold sample_budget in Eb. destruct policy; try done; simpl in Eb; by simplify_eq.
    + by apply sample_present in Hy.
Qed.

(** What remains to be evicted. *)
Definition population c : nat := (size (slots c) + docs c)%nat.

(** The outcome of evicting one candidate. *)
Definition evicted (t : Clock) (policy : EvictionPolicy) c (x : EvictCandidate) c' (n : Z) : Prop :=
  (c_search_index x = None ∧ (∃ s, slots c !! c_key x = Some s ∧ n = slot_bytes (c_key x) s ∧
     (volatile_only policy = true → is_Some (expires_at s))) ∧ step c c' (base.delete (c_key x) (slots c))) ∨
  (is_Some (c_search_index x) ∧ 0 < n ∧ (docs c' < docs c)%nat ∧ step c c' (slots c)).

Lemma wp_remove_typed k c s :
  inv c → slots c !! k = Some s → is_string (slot_value s) = false →
  wp (remove_typed (value_type (slot_value s)) k) c (λ c' r, step c c' (base.delete k (slots c)) ∧ r = true).
Proof.
  intros H Hk Hs. unfold remove_typed. apply wp_bind, wp_kv_remove; [apply H|]. intros kv Hkv E. rewrite Hk.
  rewrite decide_True by done. wp_steps. split; [|done]. pose proof (step_freed c kv k s H Hk Hkv E) as Hst.
  unfold freed, slot_bytes in Hst. by destruct (slot_value s).
Qed.

Lemma wp_evict_typed t policy c x (remove : Bytes → St C bool) :
  inv c → cand_ok t policy c x → c_search_index x = None →
  wp (remove (c_key x)) c (λ c' r, step c c' (base.delete (c_key x) (slots c)) ∧ r = true) →
  wp (evict_typed remove x) c (λ c' r, ∃ n, r = Some n ∧ evicted t policy c x c' n).
Proof.
  intros H Hok Hx Hr. unfold evict_typed. apply wp_bind. eapply wp_mono; [exact Hr|]. intros c1 r [H1 ->].
  apply wp_bind. eapply wp_mono; [apply wp_auto_remove, H1|]. intros c2 [] H2. wp_steps.
  exists (c_size x). split; [done|]. left. unfold cand_ok in Hok. rewrite Hx in Hok.
  destruct Hok as (s & Hs & _ & Hsz & _ & Hv). split; [done|]. split; [by exists s|].
  eapply step_trans; [exact H1|]. eapply step_eq; [exact H2|apply H1].
Qed.

Lemma wp_evict_string t policy c x s e :
  inv c → cand_ok t policy c x → c_search_index x = None → c_type x = KString →
  slots c !! c_key x = Some s → slot_value s = VString e →
  wp (evict_candidate x) c (λ c' r, ∃ n, r = Some n ∧ evicted t policy c x c' n).
Proof.
  intros H Hok Hx Ht Hk Ev. unfold evict_candidate. rewrite Hx, Ht.
  apply wp_bind, wp_kv_remove; [apply H|]. intros kv Hkv E. rewrite Hk, Ev.
  pose proof (step_freed c kv (c_key x) s H Hk Hkv E) as Hst.
  assert (Eb : slot_bytes (c_key x) s = entry_size (GeoSet := GeoSet) e) by (unfold slot_bytes; by rewrite Ev).
  unfold freed in Hst. rewrite Ev, Eb in Hst. cbn [is_string memory_category] in Hst.
  wp_steps. eapply wp_mono; [apply wp_auto_remove, Hst|]. intros c2 [] H2. wp_steps.
  exists (entry_size (GeoSet := GeoSet) e). split; [done|]. left. split; [done|]. split.
  - exists s. unfold cand_ok in Hok. rewrite Hx in Hok. destruct Hok as (s' & Hs' & _ & _ & _ & Hv).
    by simplify_eq.
  - eapply step_trans; [exact Hst|]. eapply step_eq; [exact H2|apply Hst].
Qed.

Lemma wp_evict_document t policy c x index :
  inv c → cand_ok t policy c x → c_search_index x = Some index →
  wp (evict_candidate x) c (λ c' r, ∃ n, r = Some n ∧ evicted t policy c x c' n).
Proof.
  intros H Hok Hx. unfold evict_candidate, evict_search_document. rewrite Hx. unfold cand_ok in Hok. rewrite Hx in Hok.
  destruct Hok as (_ & i & z & Hi & Hz & Hp). wp_steps. rewrite Hi. cbn [mbind option_bind]. rewrite Hz.
  wp_steps. destruct (Z.ltb_spec 0 z); [|lia]. wp_steps. exists z. split; [done|]. right.
  split; [by eexists|]. split; [done|]. split; [by eapply remove_document_fewer|].
  apply (inv_search _ _ z); try done; [lia|]. apply remove_document_le.
Qed.

Lemma wp_evict_candidate t policy c x :
  inv c → cand_ok t policy c x → wp (evict_candidate x) c (λ c' r, ∃ n, r = Some n ∧ evicted t policy c x c' n).
Proof.
  intros H Hok. destruct (c_search_index x) as [index|] eqn:Hx; [by eapply wp_evict_document|].
  pose proof Hok as Hok'. unfold cand_ok in Hok'. rewrite Hx in Hok'. destruct Hok' as (s & Hk & Ht & _).
  destruct (slot_value s) eqn:Ev; cbn [value_type] in Ht; [by eapply wp_evict_string|..].
  all: unfold evict_candidate; rewrite Hx, Ht; apply wp_evict_typed; try done;
    pose proof (wp_remove_typed (c_key x) c s H Hk) as Hr; rewrite Ev in Hr; by apply Hr.
Qed.

(** What an eviction run may have done when it started at [c]. *)
Definition eviction_result (policy : EvictionPolicy) c c' (needed : Z) (r : result KError unit) : Prop :=
  ∃ m, step c c' m ∧ m ⊆ slots c ∧
    (volatile_only policy = true → ∀ k s, slots c !! k = Some s → expires_at s = None → m !! k = Some s) ∧
    match r with
    | Ok tt => docs c = 0%nat → needed ≤ bytes (slots c) - bytes m
    | Err e => e = OutOfMemory
    end.

Lemma result_step t policy c c1 c2 c3 x n needed r :
  evicted t policy c x c1 n → step c1 c2 (slots c1) → eviction_result policy c2 c3 (needed - n) r →
  eviction_result policy c c3 needed r.
Proof.
  intros Hev H12 (m & Hst & Hsub & Hvol & Hr). pose proof (st_slots _ _ _ H12) as E12. rewrite E12 in *.
  exists m. destruct Hev as [(Hx & (s & Hk & -> & Hv) & H1)|(Hx & Hn & Hd & H1)];
    pose proof (st_slots _ _ _ H1) as E1; rewrite E1 in *.
  - split; [by eapply step_trans, step_trans|]. split; [etrans; [done|apply delete_subseteq]|]. split.
    + intros Hp k s' Hk' He. apply Hvol; [done| |done]. rewrite lookup_delete_ne; [done|].
      intros <-. simplify_eq. destruct (Hv Hp). congruence.
    + destruct r as [[]|e]; [|done]. intros Hd. assert (docs c2 = 0%nat) as Hd2.
      { pose proof (st_docs _ _ _ H1). pose proof (st_docs _ _ _ H12). lia. }
      specialize (Hr Hd2). unfold bytes in *. rewrite map_sum_delete, Hk in Hr. simpl in Hr. lia.
  - split; [by eapply step_trans, step_trans|]. split; [done|]. split; [done|].
    destruct r as [[]|e]; [|done]. intros Hd0. lia.
Qed.

Lemma population_less t policy c c1 c2 x n :
  evicted t policy c x c1 n → step c1 c2 (slots c1) → (population c2 < population c)%nat.
Proof.
  unfold population. intros [(_ & (s & Hk & _) & H1)|(_ & _ & Hd & H1)] H12;
    pose proof (st_docs _ _ _ H12); pose proof (st_docs _ _ _ H1); rewrite (st_slots _ _ _ H12), (st_slots _ _ _ H1); [|lia].
  rewrite map_size_delete, Hk. assert (size (slots c) ≠ 0%nat); [|lia].
  intros E. apply map_size_empty_inv in E. by rewrite E, lookup_empty in Hk.
Qed.

Lemma evict_loop_spec fuel t rounds policy n exclude needed i freed empties c :
  inv c → policy ≠ NoEviction → (∀ i, round_ok (rounds i)) → (empties < 3)%nat →
  (3 * population c + 3 - empties < fuel)%nat →
  wp (evict_loop fuel t rounds policy n exclude needed i freed empties) c
    (λ c' r, eviction_result policy c c' (needed - freed) r).
Proof.
  intros H Hp Hr. revert c i freed empties H. induction fuel as [|fuel IH]; intros c i freed empties H He Hf; [lia|].
  cbn [evict_loop]. destruct (Z.ltb_spec freed needed) as [Hlt|Hge].
  2:{ wp_steps. exists (slots c). split; [by apply step_refl|]. split; [done|]. split; [done|]. intros _. lia. }
  apply wp_bind, wp_asks. destruct (Nat.eqb_spec (length (sample_eviction_candidates t (rounds i) policy n exclude c)) 0) as [Hz|Hz].
  { destruct (Nat.leb_spec 3 (empties + 1)).
    - wp_steps. exists (slots c). split; [by apply step_refl|]. done.
    - apply IH; [done|lia|lia]. }
  destruct (pick_victim_elem t (rounds i) policy (sample_eviction_candidates t (rounds i) policy n exclude c))
    as (x & -> & Hx); [by intros E; rewrite E in Hz|done|].
  apply sample_ok_candidates in Hx; [|done|done].
  apply wp_bind. eapply wp_mono; [by apply wp_evict_candidate|]. intros c1 r (b & -> & Hev).
  assert (H1 : inv c1) by (destruct Hev as [(_ & _ & [])|(_ & _ & _ & [])]; done).
  apply wp_bind, wp_bind. eapply wp_mono; [by apply wp_stats|]. intros c2 [] H2.
  assert (Hw : wp (if decide (is_Some (c_search_index x)) then mret () else touch_watch_key (c_key x)) c2
    (λ c' _, step c1 c' (slots c1))).
  { case_decide; [by wp_steps|]. eapply wp_mono; [apply wp_touch_watch, H2|]. intros c3 [] H3.
    eapply step_trans; [exact H2|]. eapply step_eq; [exact H3|apply H2]. }
  apply wp_bind. eapply wp_mono; [exact Hw|]. intros c3 [] H3. wp_steps.
  eapply wp_mono; [apply IH|].
  - apply H3.
  - lia.
  - pose proof (population_less _ _ _ _ _ _ _ Hev H3). lia.
  - intros c4 r H4. eapply result_step; [exact Hev|exact H3|]. replace (needed - freed - b) with (needed - (freed + b)) by lia.
    exact H4.
Qed.

Lemma km_len_size c : inv c → km_len (key_values c) = size (slots c).
Proof. intros H. symmetry. eapply separate_size, separate_ok, H. Qed.

Lemma wp_evict_memory t rounds needed c :
  inv c → (∀ i, round_ok (rounds i)) →
  wp (evict_memory t rounds needed) c (λ c' r, eviction_result (eviction_policy c) c c' needed r).
Proof.
  intros H Hr. unfold evict_memory, evict_memory_excluding, wp. case_decide as Hp.
  { exists (slots c). split; [by apply step_refl|]. done. }
  pose proof (evict_loop_spec (evict_fuel c) t rounds (eviction_policy c) (eviction_sample_size c `max` 1) None needed
    0 0 0 c H Hp Hr ltac:(lia)) as Hw. unfold wp in Hw. rewrite Z.sub_0_r in Hw. apply Hw.
  unfold evict_fuel, population, docs. rewrite km_len_size by done. lia.
Qed.
End eviction.
