(* ===== verification/CacheSpecs.v ===== *)
(** * What each keyspace method does to the slots

    One specification per method: it returns, its result, the slots it leaves, and that names and
    memory accounting stay right as long as the data fits the address space. *)

From S2P Require Import Prelude RustStd Errors Glob ListType SetType HashType SortedSet StreamType Memory KeyMap Keyspace CacheOps CacheFacts EvictionFacts.
From Stdlib Require Import Lia.
Local Open Scope Z_scope.

Section specs.
Context {GeoSet Srch : Type} `{!Platform GeoSet, !PlatformLaws GeoSet, !SearchManager Srch, !SearchLaws Srch}.
Abbreviation Slot := (KeySlot GeoSet).
Abbreviation C := (Cache GeoSet Srch).
Abbreviation M := (St C).
Implicit Types (c : C) (k : Bytes) (m : gmap Bytes Slot) (s : Slot) (e : Entry).

Ltac wp_step := first [apply wp_bind | apply wp_try | apply wp_ret | apply wp_asks | apply wp_modify].
Ltac wp_steps := repeat (wp_step; cbv beta).

(** The data and what else is accounted fit 64 bits. *)
Definition fits c : Prop := other c + bytes (slots c) ≤ u64_max.

(** The slots are [m], and if that fits, the accounting is right. *)
Definition lands c c' m : Prop := slots c' = m ∧ (fits c' → step c c' m).

Lemma step_lands c c' m : step c c' m → lands c c' m.
Proof. intros H. split; [apply H|done]. Qed.

Lemma lands_quiet c c1 c2 m :
  lands c c1 m → key_values c2 = key_values c1 → memory_tracker c2 = memory_tracker c1 →
  memory_usage c2 = memory_usage c1 → cfg c2 = cfg c1 → search_index_manager c2 = search_index_manager c1 → lands c c2 m.
Proof.
  intros [H1 H2] Ek Et Eu Ec Es. assert (E : slots c2 = slots c1) by (unfold slots; by rewrite Ek).
  split; [congruence|]. intros Hf. assert (Hf1 : fits c1) by (unfold fits, other in *; by rewrite <- Et, <- E).
  eapply step_trans; [by apply H2|]. rewrite <- H1. apply step_quiet; try done.
  - by apply H2.
  - unfold docs. by rewrite Es.
Qed.

Lemma lands_trans c c1 c2 m1 m : step c c1 m1 → lands c1 c2 m → lands c c2 m.
Proof. intros H1 [H2 H3]. split; [done|]. intros Hf. eapply step_trans; [exact H1|by apply H3]. Qed.

(** The map was written without a change. *)
Lemma step_kept c kv : inv c → km_ok hash_one kv → contents kv = slots c → step c (set_key_values c kv) (slots c).
Proof.
  intros [H1 H2 H3 H4 H5 H6 H7] Hkv E. split; [|done..].
  split; unfold slots in *; cbn [key_values memory_tracker memory_usage max_memory set_key_values]; rewrite ?E; done.
Qed.

(** ** Reading *)

Lemma wp_get_string_entry t k c :
  inv c → wp (get_string_entry t k) c (λ c' r, c' = c ∧
    r = s ← visible t k (slots c); match slot_value s with VString e => Some e | _ => None end).
Proof.
  intros H. unfold get_string_entry. apply wp_bind, wp_kv_get; [apply H|]. wp_steps. split; [done|].
  unfold visible. destruct (slots c !! k) as [s|]; [|done]. simpl. by destruct (is_expired t s).
Qed.

Definition string_or_absent (t : Clock) k m : result KError unit :=
  match visible t k m with
  | Some s => if is_string (slot_value s) then Ok tt else Err WrongType
  | None => Ok tt
  end.

Lemma wp_ensure_string t k c :
  inv c → wp (ensure_string_or_absent t k) c (λ c' r, step c c' (purge t k (slots c)) ∧ r = string_or_absent t k (slots c)).
Proof.
  intros H. unfold ensure_string_or_absent. apply wp_bind. eapply wp_mono; [by apply wp_purge|]. intros c1 r [H1 ->].
  unfold string_or_absent. rewrite <- purge_visible. destruct (due t k (slots c)) eqn:E.
  - wp_steps. split; [done|]. rewrite purge_lookup. unfold due in E. destruct (slots c !! k); [|done]. by rewrite E.
  - apply wp_bind, wp_kv_get; [apply H1|]. wp_steps. rewrite (st_slots _ _ _ H1). split; [done|].
    by destruct (purge t k (slots c) !! k).
Qed.

(** ** Writing a string *)

Lemma inv_usage_u64 c : inv c → in_u64 (memory_usage c).
Proof.
  intros H. rewrite (inv_usage c H), <- (inv_counts c H) by done.
  pose proof (tr_pos _ (inv_tracker c H) CatCache). pose proof (inv_total c H).
  pose proof (sum_of_ge _ all_categories CatCache (tr_pos _ (inv_tracker c H)) (elem_of_all_categories _)) as G.
  rewrite <- (tr_total _ (inv_tracker c H)) in G. lia.
Qed.

(** [account_replace] is a deallocation and an accounting. *)
Lemma account_replace_eq old new c :
  in_u64 (memory_usage c) → 0 ≤ old → 0 ≤ new →
  account_replace old new c =
    Ret (set_memory c (account (deallocate (memory_tracker c) old CatCache) new CatCache)
           (wrap_u64 (wrap_u64 (memory_usage c - old) + new)), tt).
Proof.
  intros Hu Ho Hn. unfold account_replace, mbind, st_bind.
  assert (W : ∀ z, in_u64 z → wrap_u64 z = z) by (intros z ?; apply Z.mod_small; lia).
  assert (W2 : ∀ z, wrap_u64 (wrap_u64 z) = wrap_u64 z).
  { intros z. apply W. unfold wrap_u64. pose proof (Z.mod_pos_bound z (u64_max + 1) ltac:(done)). lia. }
  destruct (Z.ltb_spec 0 old) as [Hlt|Hge].
  - destruct (Z.ltb_spec 0 new); [done|]. replace new with 0 by lia. cbn. rewrite Z.add_0_r, W2. done.
  - replace old with 0 by lia. rewrite Z.sub_0_r, (W (memory_usage c)) by done.
    destruct (Z.ltb_spec 0 new); [done|]. replace new with 0 by lia. cbn. rewrite Z.add_0_r, W by done.
    by destruct c.
Qed.

Definition string_size m k : Z :=
  match m !! k with Some s => if is_string (slot_value s) then slot_bytes k s else 0 | None => 0 end.

Lemma string_size_pos m k : 0 ≤ string_size m k.
Proof. unfold string_size. destruct (m !! k) as [s|]; [|done]. destruct (is_string _); [apply slot_bytes_pos|done]. Qed.

(** The name held a string or nothing, the map now has the new entry, and the sizes are accounted. *)
Lemma wp_account_string c kv k exp e :
  inv c → (∀ s, slots c !! k = Some s → is_string (slot_value s) = true) → e_key e = k →
  km_ok hash_one kv → contents kv = <[k := mkKeySlot exp (VString e)]> (slots c) →
  wp (account_replace (string_size (slots c) k) (entry_size (GeoSet := GeoSet) e)) (set_key_values c kv)
    (λ c' _, lands c c' (<[k := mkKeySlot exp (VString e)]> (slots c))).
Proof.
  intros H Hs He Hkv E. pose proof (inv_usage_u64 c H) as Hu. unfold wp.
  pose proof (string_size_pos (slots c) k) as Hold.
  pose proof (slot_bytes_pos k (mkKeySlot exp (VString (GeoSet := GeoSet) e))) as Hnew. unfold slot_bytes in Hnew. cbn in Hnew.
  rewrite account_replace_eq by done. cbn [memory_tracker memory_usage set_key_values].
  set (c' := set_memory _ _ _). assert (Es : slots c' = <[k := mkKeySlot exp (VString e)]> (slots c)) by exact E.
  split; [done|]. intros Hf.
  destruct (km_remove_spec hash_one (key_values c) k (inv_map c H)) as (kv1 & _ & Hkv1 & E1 & _).
  assert (Hmid : ∃ c1, step c c1 (base.delete k (slots c)) ∧
    memory_tracker c1 = deallocate (memory_tracker c) (string_size (slots c) k) CatCache ∧
    memory_usage c1 = wrap_u64 (memory_usage c - string_size (slots c) k) ∧ docs c1 = docs c).
  { unfold string_size. destruct (slots c !! k) as [s|] eqn:Ek.
    - rewrite (Hs s eq_refl). exists (freed c kv1 k s). split; [by apply step_freed|]. unfold freed.
      rewrite (Hs s eq_refl). assert (memory_category (slot_value s) = CatCache) as ->; [|done].
      specialize (Hs s eq_refl). by destruct (slot_value s).
    - exists (set_key_values c kv1). split; [by apply step_absent|]. rewrite Z.sub_0_r. split; [done|].
      split; [|done]. symmetry. apply Z.mod_small. cbn. lia. }
  destruct Hmid as (c1 & H1 & Et1 & Eu1 & Ed1). eapply step_trans; [exact H1|].
  rewrite <- (insert_delete_eq (slots c)), <- (st_slots _ _ _ H1).
  apply (inv_put c1 c' k); try done.
  - apply H1.
  - rewrite (st_slots _ _ _ H1). apply lookup_delete_eq.
  - intros e' [= <-]. done.
  - by rewrite (st_slots _ _ _ H1), insert_delete_eq.
  - cbn. by rewrite Et1.
  - cbn. by rewrite Eu1.
  - rewrite (st_cfg _ _ _ H1). done.
  - rewrite Ed1. done.
  - rewrite (total_eq c1 (st_inv _ _ _ H1)). unfold fits in Hf.
    assert (Eo : other c' = other c1).
    { unfold other, c'. cbn [memory_tracker set_memory]. rewrite Et1. unfold account. by destruct (_ =? 0). }
    rewrite Eo, Es in Hf. unfold bytes in *. rewrite (st_slots _ _ _ H1). 
    rewrite map_sum_insert in Hf. rewrite map_sum_delete. lia.
Qed.

Lemma wp_mutate_string {R} k (f : option Entry → option Z → Z → MapAction Entry * option Z * R) c Q :
  inv c →
  (∀ kv token, km_ok hash_one kv →
     match slots c !! k with
     | Some (mkKeySlot exp (VString e)) =>
       contents kv = apply_action k (string_map_action (f (Some e) exp token).1.1 (f (Some e) exp token).1.2) (slots c) →
       Q (set_key_values c kv) (Ok (f (Some e) exp token).2)
     | Some _ => contents kv = slots c → Q (set_key_values c kv) (Err WrongType)
     | None =>
       contents kv = apply_action k (string_map_action (f None None token).1.1 (f None None token).1.2) (slots c) →
       Q (set_key_values c kv) (Ok (f None None token).2)
     end) →
  wp (mutate_string k f) c Q.
Proof.
  intros H HQ. apply wp_kv_mutate; [apply H|]. intros kv token Hkv E. specialize (HQ kv token Hkv).
  destruct (slots c !! k) as [[exp v]|].
  - destruct v; try by apply HQ. destruct (f (Some e) exp token) as [[a x] r]. by apply HQ.
  - destruct (f None None token) as [[a x] r]. by apply HQ.
Qed.

(** A read-modify-write of a string, on the slots. *)
Definition do_string {R} (f : option Entry → option Z → Z → MapAction Entry * option Z * R) k (token : Z) m
    : gmap Bytes Slot * result KError R :=
  let go cur exp :=
    let '(a, x, r) := f cur exp token in (apply_action k (string_map_action a x) m, Ok r) in
  match m !! k with
  | Some (mkKeySlot exp (VString e)) => go (Some e) exp
  | Some _ => (m, Err WrongType)
  | None => go None None
  end.

(** The sizes an outcome reports are those of the entries replaced and written, under the same name. *)
Definition action_ok {R} k (f : option Entry → option Z → Z → MapAction Entry * option Z * R)
    (sizes : R → option (Z * Z)) : Prop :=
  ∀ cur exp token,
    match f cur exp token with
    | (Keep, _, r) => sizes r = None
    | (Set_ e, _, r) => e_key e = k ∧
        sizes r = Some (default 0 (entry_size (GeoSet := GeoSet) <$> cur), entry_size (GeoSet := GeoSet) e)
    | (Remove_, _, r) => False
    end.

(** What is left to do after the map was changed: the accounting, if there is any. *)
Definition accounted {R} (sizes : R → option (Z * Z)) c c1 m (r : result KError R) : Prop :=
  match r with
  | Ok o =>
    match sizes o with
    | Some (old, new) => wp (account_replace old new) c1 (λ c' _, lands c c' m)
    | None => step c c1 m
    end
  | Err _ => step c c1 m
  end.

Lemma wp_do_string {R} k (f : option Entry → option Z → Z → MapAction Entry * option Z * R) sizes c :
  inv c → action_ok k f sizes →
  wp (mutate_string k f) c (λ c1 r, ∃ token,
    r = (do_string f k token (slots c)).2 ∧ accounted sizes c c1 (do_string f k token (slots c)).1 r).
Proof.
  intros H Hf. apply wp_mutate_string; [done|]. intros kv token Hkv. unfold do_string.
  assert (G : ∀ cur exp,
    (∀ s, slots c !! k = Some s → is_string (slot_value s) = true) →
    string_size (slots c) k = default 0 (entry_size (GeoSet := GeoSet) <$> cur) →
    contents kv = apply_action k (string_map_action (f cur exp token).1.1 (f cur exp token).1.2) (slots c) →
    accounted sizes c (set_key_values c kv)
      (apply_action k (string_map_action (f cur exp token).1.1 (f cur exp token).1.2) (slots c))
      (Ok (f cur exp token).2)).
  { intros cur exp Hs Hsz E. specialize (Hf cur exp token). destruct (f cur exp token) as [[a x] r]. unfold accounted.
    destruct a as [|e|]; cbn [fst snd string_map_action apply_action] in *; [| |done].
    - rewrite Hf. by apply step_kept.
    - destruct Hf as [He ->]. rewrite <- Hsz. by apply wp_account_string. }
  destruct (slots c !! k) as [[exp v]|] eqn:Ek.
  - destruct v as [e| | | | | |]; [|intros E; exists token; split; [done|]; by apply step_kept..].
    intros E. exists token. specialize (G (Some e) exp). destruct (f (Some e) exp token) as [[a x] r]. split; [done|].
    apply G; [|unfold string_size; by rewrite Ek|done]. intros s [= <-]. done.
  - intros E. exists token. specialize (G None None). destruct (f None None token) as [[a x] r]. split; [done|].
    apply G; [done|unfold string_size; by rewrite Ek|done].
Qed.

(** ** Capacity *)

(** The room was made, possibly by evicting. *)
Definition made_room c c' (r : result KError unit) : Prop :=
  ∃ m, step c c' m ∧ m ⊆ slots c ∧ (max_memory c = 0 → r = Ok tt ∧ m = slots c) ∧
    (r = Ok tt ∨ r = Err OutOfMemory).

Lemma made_room_refl c : inv c → made_room c c (Ok tt).
Proof. intros H. exists (slots c). split; [by apply step_refl|]. split; [done|]. split; [done|]. by left. Qed.

Lemma wp_ensure_capacity t rounds needed c :
  inv c → (∀ i, round_ok (rounds i)) → wp (ensure_capacity t rounds needed) c (made_room c).
Proof.
  intros H Hr. unfold wp, ensure_capacity.
  destruct (needed =? 0); [by apply made_room_refl|].
  destruct (Z.eqb_spec (max_memory c) 0) as [|Hmm]; [by apply made_room_refl|].
  destruct (can_allocate _ _ _); [by apply made_room_refl|]. destruct (eviction_allowed c).
  - change (wp (r ← evict_memory t rounds needed;
       match r with Ok tt => mret (Ok tt) | Err e => _ ← stats_incr store_no_memory; mret (Err e) end) c (made_room c)).
    apply wp_bind. eapply wp_mono; [by apply wp_evict_memory|]. intros c1 r (m & H1 & Hsub & _ & Hres).
    destruct r as [[]|e]; wp_steps.
    + exists m. split; [done|]. split; [done|]. split; [done|]. by left.
    + subst e. exists m. split; [|by split; [|split; [|right]]]. eapply step_trans; [exact H1|].
      rewrite <- (st_slots _ _ _ H1). apply step_quiet; try done. apply H1.
  - change (wp (_ ← stats_incr store_no_memory; mret (Err OutOfMemory)) c (made_room c)). wp_steps.
    exists (slots c). split; [by apply step_quiet|]. split; [done|]. split; [done|]. by right.
Qed.

(** The outcome of a write that may evict first: out of memory, or [spec] on what remains of [m0]. *)
Definition written {A} c m0 (spec : Z → gmap Bytes Slot → gmap Bytes Slot * result KError A) c' (r : result KError A) : Prop :=
  ∃ m1, m1 ⊆ m0 ∧ (max_memory c = 0 → m1 = m0) ∧
    ((r = Err OutOfMemory ∧ max_memory c ≠ 0 ∧ step c c' m1) ∨
     (∃ token, r = (spec token m1).2 ∧ lands c c' (spec token m1).1)).

(** ** [store] *)

Definition store_spec (t : Clock) (limit : Z) k (value : Bytes) (opts : StoreOptions) (token : Z) m
    : gmap Bytes Slot * result KError (option Entry) :=
  if limit <? logical_string_entry (zlen k) (zlen value) (entry_struct_size (GeoSet := GeoSet)) then (m, Err EntryTooLarge)
  else
    let size := estimate_string_entry (zlen k) (zlen value) (entry_struct_size (GeoSet := GeoSet)) in
    let '(m', o) := do_string (store_action (GeoSet := GeoSet) t k value opts size) k token m in
    (m', match o with
         | Err e => Err e
         | Ok (Exists_ e) => Ok (Some e)
         | Ok NotExists => Ok None
         | Ok CasMismatched => Err CasMismatch
         | Ok CasMiss => Err KeyNotFound
         | Ok (Stored old _ _) => Ok old
         end).

Definition store_sizes (o : StoreOutcome) : option (Z * Z) :=
  match o with Stored _ old new => Some (old, new) | _ => None end.

Lemma store_action_ok t k value opts :
  action_ok k (store_action (GeoSet := GeoSet) t k value opts
    (estimate_string_entry (zlen k) (zlen value) (entry_struct_size (GeoSet := GeoSet)))) store_sizes.
Proof.
  intros cur exp token. unfold store_action.
  destruct (nx opts), (if slot_ttl_live t exp then cur else None) as [e|]; try done;
    destruct (xx opts && _); try done; destruct (so_cas opts) as [z|]; try done;
    try (destruct (cas e =? z); try done); split; reflexivity.
Qed.

Lemma wp_store_capacity t rounds k size c :
  inv c → (∀ i, round_ok (rounds i)) → wp (store_capacity t rounds k size) c (made_room c).
Proof.
  intros H Hr. unfold wp, store_capacity. destruct (max_memory c =? 0); [by apply made_room_refl|].
  destruct (_ <? _); [|by apply made_room_refl].
  change (wp (existing ← get_string_entry t k;
    ensure_capacity t rounds (sat_sub_u64 size (default 0 (entry_size (GeoSet := GeoSet) <$> existing)))) c (made_room c)).
  apply wp_bind. eapply wp_mono; [by apply wp_get_string_entry|]. intros c1 r [-> _]. by apply wp_ensure_capacity.
Qed.

Lemma wp_store t rounds k value opts c :
  inv c → (∀ i, round_ok (rounds i)) →
  wp (store t rounds k value opts) c (written c (slots c) (store_spec t (max_entry_size c) k value opts)).
Proof.
  intros H Hr. unfold store. wp_steps. destruct (max_entry_size c <? _) eqn:El.
  { wp_steps. exists (slots c). split; [done|]. split; [done|]. right. exists 0. unfold store_spec. rewrite El.
    split; [done|]. apply step_lands, step_quiet; done. }
  wp_steps. eapply wp_mono; [by apply wp_store_capacity|]. intros c1 r (m1 & H1 & Hsub & Hun & Hres).
  destruct r as [[]|e]; cycle 1.
  { exists m1. split; [done|]. split; [by intros [_ ?]%Hun|]. left. destruct Hres as [|[= ->]]; [done|].
    split; [done|]. split; [|done]. intros [? _]%Hun. done. }
  apply wp_try. eapply wp_mono; [apply wp_do_string; [apply H1|apply store_action_ok]|].
  intros c2 r (token & -> & Hacc). rewrite (st_slots _ _ _ H1) in Hacc |- *.
  assert (W : ∀ c' r, r = (store_spec t (max_entry_size c) k value opts token m1).2 →
    lands c1 c' (store_spec t (max_entry_size c) k value opts token m1).1 →
    written c (slots c) (store_spec t (max_entry_size c) k value opts) c' r).
  { intros c' r Er Hl. exists m1. split; [done|]. split; [by intros [_ ?]%Hun|]. right. exists token. split; [done|].
    by eapply lands_trans. }
  set (Q := written c (slots c) _) in *. unfold store_spec in W. rewrite El in W. cbv zeta in W.
  destruct (do_string _ k token m1) as [m' [o|e]]; cbn [fst snd] in *; [|by apply W, step_lands].
  destruct o; cbn [accounted store_sizes] in Hacc; [wp_steps..|].
  - by apply W, step_lands.
  - by apply W, step_lands.
  - apply W; [done|]. eapply lands_quiet; [by apply step_lands|done..].
  - apply W; [done|]. eapply lands_quiet; [by apply step_lands|done..].
  - apply wp_bind. eapply wp_mono; [exact Hacc|]. intros c3 [] H3. case_decide; wp_steps; (apply W; [done|]);
      (eapply lands_quiet; [exact H3|done..]).
Qed.

(** ** [incr], [append], [setrange] *)

Definition rmw_sizes {A} (o : RmwOutcome A) : option (Z * Z) :=
  match o with RmwOk _ old new => Some (old, new) | RmwFail => None end.

Definition rmw_spec {A} (f : option Entry → option Z → Z → MapAction Entry * option Z * RmwOutcome A) (err : KError)
    k (token : Z) m : gmap Bytes Slot * result KError A :=
  let '(m', o) := do_string f k token m in
  (m', match o with Err e => Err e | Ok RmwFail => Err err | Ok (RmwOk v _ _) => Ok v end).

Lemma wp_rmw {A} (f : option Entry → option Z → Z → MapAction Entry * option Z * RmwOutcome A) err k c :
  inv c → action_ok k f rmw_sizes →
  wp (try_bind (mutate_string k f) (rmw_account err)) c
    (λ c' r, ∃ token, r = (rmw_spec f err k token (slots c)).2 ∧ lands c c' (rmw_spec f err k token (slots c)).1).
Proof.
  intros H Hf. apply wp_try. eapply wp_mono; [by apply wp_do_string|]. intros c1 r (token & -> & Hacc).
  unfold rmw_spec. destruct (do_string f k token (slots c)) as [m' [[v old new|]|e]] eqn:E;
    cbn [fst snd accounted rmw_sizes] in *.
  - unfold rmw_account. apply wp_bind. eapply wp_mono; [exact Hacc|]. intros c2 [] H2. wp_steps.
    exists token. by rewrite E.
  - wp_steps. exists token. rewrite E. split; [done|]. by apply step_lands.
  - exists token. rewrite E. split; [done|]. by apply step_lands.
Qed.

Lemma incr_action_ok t k delta : action_ok k (incr_action (GeoSet := GeoSet) t k delta) rmw_sizes.
Proof.
  intros cur exp token. unfold incr_action. destruct cur as [e|]; [|done].
  destruct (slot_ttl_live t exp); [|done].
  by destruct (s ← from_utf8 (e_value e); parse_i64 s).
Qed.

Definition not_an_integer : KError := InvalidArgument (str "value is not a valid integer").

Lemma wp_incr_decr t k delta c :
  inv c → wp (incr_decr t k delta) c (λ c' r, ∃ token,
    r = (rmw_spec (incr_action (GeoSet := GeoSet) t k delta) not_an_integer k token (slots c)).2 ∧
    lands c c' (rmw_spec (incr_action (GeoSet := GeoSet) t k delta) not_an_integer k token (slots c)).1).
Proof. intros H. apply wp_rmw; [done|apply incr_action_ok]. Qed.

Lemma rmw_write_ok t k limit (g : Bytes → Bytes) :
  action_ok k (λ cur exp token,
    let '(old_val, keep_exp, fl, old_size) := rmw_old (GeoSet := GeoSet) t cur exp in
    rmw_write (GeoSet := GeoSet) t k limit (g old_val) keep_exp fl old_size token) rmw_sizes.
Proof.
  intros cur exp token. unfold rmw_old, rmw_write.
  destruct cur as [e|]; [destruct (slot_ttl_live t exp)|]; destruct (limit <? _); done.
Qed.

(** The action of [append] or [setrange] under the limit [limit]. *)
Definition write_spec (t : Clock) (limit : Z) (g : Bytes → Bytes) k (token : Z) m : gmap Bytes Slot * result KError Z :=
  rmw_spec (λ cur exp token,
    let '(old_val, keep_exp, fl, old_size) := rmw_old (GeoSet := GeoSet) t cur exp in
    rmw_write (GeoSet := GeoSet) t k limit (g old_val) keep_exp fl old_size token) EntryTooLarge k token m.

(** The checks before the write: a string or nothing is visible, and the result is not too large. *)
Definition precheck (t : Clock) (limit : Z) (new_len : Z → Z) k m : result KError unit :=
  match string_or_absent t k m with
  | Err e => Err e
  | Ok tt =>
    let old := s ← visible t k m; match slot_value s with VString e => Some e | _ => None end in
    if limit <? logical_string_entry (zlen k) (new_len (zlen (default [] (e_value <$> old)))) (entry_struct_size (GeoSet := GeoSet))
    then Err EntryTooLarge else Ok tt
  end.

Definition checked_written (t : Clock) c m0 (g : Bytes → Bytes) (new_len : Z → Z) k c' (r : result KError Z) : Prop :=
  match precheck t (max_entry_size c) new_len k m0 with
  | Err e => r = Err e ∧ step c c' m0
  | Ok tt => written c m0 (write_spec t (max_entry_size c) g k) c' r
  end.

Lemma visible_purge t k m : visible t k (purge t k m) = visible t k m.
Proof.
  rewrite <- (purge_visible t k m). unfold visible at 1. rewrite purge_lookup. destruct (m !! k) as [s|]; [|done].
  destruct (is_expired t s) eqn:E; [done|]. simpl. by rewrite E.
Qed.

Lemma cfg_limits c c' m : step c c' m → max_memory c' = max_memory c ∧ max_entry_size c' = max_entry_size c.
Proof. intros H. pose proof (st_cfg _ _ _ H) as E. unfold cfg in E. by simplify_eq. Qed.

Lemma wp_checked_write t rounds k (g : Bytes → Bytes) new_len c :
  inv c → (∀ i, round_ok (rounds i)) →
  wp (_ ?← ensure_string_or_absent t k;
      limit ?← rmw_precheck t rounds k new_len;
      outcome ?← mutate_string k (λ cur exp token,
        let '(old_val, keep_exp, fl, old_size) := rmw_old (GeoSet := GeoSet) t cur exp in
        rmw_write (GeoSet := GeoSet) t k limit (g old_val) keep_exp fl old_size token);
      rmw_account EntryTooLarge outcome) c
    (checked_written t c (purge t k (slots c)) g new_len k).
Proof.
  intros H Hr. set (m0 := purge t k (slots c)). apply wp_try. eapply wp_mono; [by apply wp_ensure_string|].
  intros c1 r [H1 ->]. destruct (cfg_limits _ _ _ H1) as [Emm Eme]. unfold checked_written, precheck.
  assert (Es : string_or_absent t k m0 = string_or_absent t k (slots c)).
  { unfold string_or_absent, m0. by rewrite visible_purge. }
  rewrite Es. destruct (string_or_absent t k (slots c)) as [[]|e]; [|done].
  unfold rmw_precheck. apply wp_try, wp_bind. eapply wp_mono; [apply wp_get_string_entry, H1|]. intros c1' old [-> ->].
  rewrite (st_slots _ _ _ H1). fold m0. wp_steps. rewrite Eme. destruct (max_entry_size c <? _) eqn:El.
  { wp_steps. done. }
  apply wp_try. eapply wp_mono; [by apply wp_ensure_capacity; [apply H1|]|]. intros c2 r (m1 & H2 & Hsub & Hun & Hres).
  rewrite (st_slots _ _ _ H1), Emm in *. fold m0 in Hsub, Hun. pose proof (step_trans _ _ _ _ _ H1 H2) as H12.
  destruct r as [[]|e]; cycle 1.
  { exists m1. split; [done|]. split; [by intros [_ ?]%Hun|]. left. destruct Hres as [|[= ->]]; [done|].
    split; [done|]. split; [|done]. by intros [? _]%Hun. }
  apply wp_ret. eapply wp_mono; [apply wp_rmw; [apply H2|apply rmw_write_ok]|].
  intros c3 r (token & -> & Hl). rewrite (st_slots _ _ _ H2) in *. exists m1. split; [done|].
  split; [by intros [_ ?]%Hun|]. right. exists token. split; [done|]. by eapply lands_trans.
Qed.

Lemma wp_append t rounds k suffix c :
  inv c → (∀ i, round_ok (rounds i)) →
  wp (append t rounds k suffix) c
    (checked_written t c (purge t k (slots c)) (λ old, old ++ suffix) (λ old, wrap_u64 (old + zlen suffix)) k).
Proof. apply wp_checked_write. Qed.

Lemma wp_setrange t rounds k offset value c :
  inv c → (∀ i, round_ok (rounds i)) → Z.of_nat offset + zlen value ≤ u64_max →
  wp (setrange t rounds k offset value) c
    (checked_written t c (purge t k (slots c)) (λ old, overwrite old offset value)
       (λ old, Z.max (wrap_u64 (Z.of_nat offset + zlen value)) old) k).
Proof.
  intros H Hr Hw. unfold setrange.
  assert (E : (wrap_u64 (Z.of_nat offset + zlen value) <? Z.of_nat offset) = false).
  { rewrite wrap_u64_id by lia. apply Z.ltb_ge. lia. }
  rewrite E. by apply wp_checked_write.
Qed.

(** ** [load] *)

(** The entry returned, and the slots: past-due strings go, and a touched entry is stamped. *)
Definition load_spec (t : Clock) (log_factor decay : Z) k (do_touch : bool) m : gmap Bytes Slot * option Entry :=
  match m !! k with
  | Some s =>
    match slot_value s with
    | VString e =>
      if is_expired t s then (base.delete k m, None)
      else if do_touch then
        let e := touch t e log_factor decay in (<[k := mkKeySlot (expires_at s) (VString e)]> m, Some e)
      else (m, Some e)
    | _ => (m, None)
    end
  | None => (m, None)
  end.

Lemma step_stats c c' m (st : Stat) n : step c c' m → step c (set_stats c' (stat_add st n (stats c'))) m.
Proof.
  intros H. eapply step_trans; [exact H|]. rewrite <- (st_slots _ _ _ H). apply step_quiet; try done. apply H.
Qed.

Lemma wp_load_expired k c s e :
  inv c → slots c !! k = Some s → slot_value s = VString e →
  wp (removed ← kv_remove k;
      _ ← match removed with
          | Some removed =>
            if is_string (slot_value removed) then
              _ ← usage_sub (entry_size (GeoSet := GeoSet) e);
              _ ← track_free (entry_size (GeoSet := GeoSet) e) CatCache;
              stats_incr evicted_expired
            else mret tt
          | None => mret tt
          end;
      _ ← stats_incr misses;
      mret None) c (λ c' (r : option Entry), step c c' (base.delete k (slots c)) ∧ r = None).
Proof.
  intros H Hk Ev. apply wp_bind, wp_kv_remove; [apply H|]. intros kv Hkv E. rewrite Hk, Ev. wp_steps. split; [|done].
  pose proof (step_freed c kv k s H Hk Hkv E) as Hst. unfold freed, slot_bytes in Hst. rewrite Ev in Hst.
  exact (step_stats _ _ _ misses 1 (step_stats _ _ _ evicted_expired 1 Hst)).
Qed.

Lemma wp_load t k do_touch c :
  inv c → wp (load t k do_touch) c (λ c' r,
    step c c' (load_spec t (lfu_log_factor c) (lfu_decay_time c) k do_touch (slots c)).1 ∧
    r = (load_spec t (lfu_log_factor c) (lfu_decay_time c) k do_touch (slots c)).2).
Proof.
  intros H. unfold load. wp_steps. set (c0 := set_stats c _).
  assert (H0 : step c c0 (slots c)) by (by apply step_quiet).
  change (slots c) with (slots c0) in *. change (lfu_log_factor c) with (lfu_log_factor c0).
  change (lfu_decay_time c) with (lfu_decay_time c0). clearbody c0.
  apply wp_kv_get; [apply H0|]. unfold load_spec.
  assert (Miss : wp (_ ← stats_incr misses; mret None) c0 (λ c' (r : option Entry), step c c' (slots c0) ∧ r = None)).
  { wp_steps. split; [|done]. by apply step_stats. }
  destruct (slots c0 !! k) as [s|] eqn:Ek; [|exact Miss].
  destruct (slot_value s) as [e| | | | | |] eqn:Ev; [|exact Miss..].
  destruct (is_expired t s).
  { eapply wp_mono; [eapply wp_load_expired; [apply H0|exact Ek|exact Ev]|]. intros c1 r [H1 ->]. split; [|done].
    by eapply step_trans. }
  wp_steps. destruct do_touch; [|wp_steps; split; [by apply step_stats|done]].
  apply wp_kv_insert; [apply H0|]. intros kv Hkv E. wp_steps. split; [|done].
  apply (step_stats _ (set_key_values c0 kv)). eapply step_trans; [exact H0|].
  apply (inv_same c0 _ k s); try done.
  - apply H0.
  - intros e' [= <-]. cbn. by apply (inv_named c0 (st_inv _ _ _ H0) k s).
  - unfold slot_bytes. by rewrite Ev.
  - by rewrite Ev.
Qed.

(** ** Expiry *)

(** A slot keeps its value and gets another expiry. *)
Lemma step_reexpire c kv k s exp :
  inv c → slots c !! k = Some s → km_ok hash_one kv →
  contents kv = <[k := mkKeySlot exp (slot_value s)]> (slots c) →
  step c (set_key_values c kv) (<[k := mkKeySlot exp (slot_value s)]> (slots c)).
Proof.
  intros H Hk Hkv E. apply (inv_same c _ k s); try done.
  intros e He. by apply (inv_named c H k s).
Qed.

Definition expire_spec (t : Clock) k (ttl : Z) m : gmap Bytes Slot * bool :=
  match visible t k m with
  | Some s =>
    if ttl =? 0 then (base.delete k m, true)
    else (<[k := mkKeySlot (Some (now t + ttl * 1000000)) (slot_value s)]> m, true)
  | None => (purge t k m, false)
  end.

Lemma purge_live t k m s : visible t k m = Some s → purge t k m = m ∧ m !! k = Some s.
Proof.
  unfold visible, purge, due. destruct (m !! k) as [s'|]; simpl; [|done]. destruct (is_expired t s'); [done|].
  by intros [= ->].
Qed.

Lemma wp_expire t k ttl c :
  inv c → wp (expire t k ttl) c (λ c' r, step c c' (expire_spec t k ttl (slots c)).1 ∧ r = (expire_spec t k ttl (slots c)).2).
Proof.
  intros H. unfold expire. apply wp_bind. eapply wp_mono; [by apply wp_key_type|]. intros c1 r [H1 ->]. unfold expire_spec.
  case_decide as Ht; [apply type_at_None in Ht; rewrite Ht; by wp_steps|].
  rewrite type_at_None in Ht. destruct (visible t k (slots c)) as [s|] eqn:Ev; [|done].
  destruct (purge_live _ _ _ _ Ev) as [Ep Ek]. rewrite Ep in H1. destruct (ttl =? 0).
  - apply wp_bind. eapply wp_mono; [apply wp_delete, H1|]. intros c2 r [H2 _]. wp_steps. split; [|done].
    rewrite (st_slots _ _ _ H1) in H2. by eapply step_trans.
  - apply wp_kv_mutate; [apply H1|]. intros kv token Hkv. rewrite (st_slots _ _ _ H1), Ek. cbn [fst snd apply_action].
    intros E. split; [|done]. eapply step_trans; [exact H1|]. rewrite <- (st_slots _ _ _ H1) in E, Ek |- *.
    apply step_reexpire; [apply H1|done|done|done].
Qed.

Definition expire_at_spec (t : Clock) k (at_ms : Z) m : gmap Bytes Slot * bool :=
  match visible t k m with
  | Some s => if at_ms <=? unix_ms t then (base.delete k m, true) else expire_spec t k (at_ms - unix_ms t) m
  | None => (purge t k m, false)
  end.

Lemma wp_expire_at t k at_ms c :
  inv c → wp (expire_at_unix_ms t k at_ms) c (λ c' r,
    step c c' (expire_at_spec t k at_ms (slots c)).1 ∧ r = (expire_at_spec t k at_ms (slots c)).2).
Proof.
  intros H. unfold expire_at_unix_ms. apply wp_bind. eapply wp_mono; [by apply wp_key_type|]. intros c1 r [H1 ->].
  unfold expire_at_spec. case_decide as Ht; [apply type_at_None in Ht; rewrite Ht; by wp_steps|].
  rewrite type_at_None in Ht. destruct (visible t k (slots c)) as [s|] eqn:Ev; [|done].
  destruct (purge_live _ _ _ _ Ev) as [Ep Ek]. rewrite Ep in H1. destruct (at_ms <=? unix_ms t).
  - apply wp_bind. eapply wp_mono; [apply wp_delete, H1|]. intros c2 r [H2 _]. wp_steps. split; [|done].
    rewrite (st_slots _ _ _ H1) in H2. by eapply step_trans.
  - eapply wp_mono; [apply wp_expire, H1|]. intros c2 r [H2 ->]. rewrite (st_slots _ _ _ H1) in *. split; [|done].
    by eapply step_trans.
Qed.

Definition ttl_spec (t : Clock) k m : Z :=
  match visible t k m with
  | Some s => match expires_at s with Some exp => remaining_ms t exp | None => -1 end
  | None => -2
  end.

Lemma wp_ttl t k c :
  inv c → wp (ttl t k) c (λ c' r, step c c' (purge t k (slots c)) ∧ r = ttl_spec t k (slots c)).
Proof.
  intros H. unfold ttl, ttl_spec. apply wp_bind. eapply wp_mono; [by apply wp_purge|]. intros c1 r [H1 ->].
  destruct (due t k (slots c)) eqn:E.
  - wp_steps. split; [done|]. unfold visible, due in *. destruct (slots c !! k); [|done]. simpl. by rewrite E.
  - apply wp_bind, wp_kv_get; [apply H1|]. wp_steps. split; [done|]. rewrite (st_slots _ _ _ H1), purge_visible.
    destruct (visible t k (slots c)) as [s|] eqn:Ev; [|done].
    assert (Hx : is_expired t s = false).
    { unfold visible in Ev. destruct (slots c !! k) as [s'|]; [|done]. simpl in Ev. destruct (is_expired t s') eqn:Ee; [done|].
      by injection Ev as <-. }
    unfold is_expired in Hx. destruct (expires_at s) as [exp|]; [|done]. by rewrite Hx.
Qed.

Definition persist_spec k m : gmap Bytes Slot * bool :=
  match m !! k with
  | Some s => if decide (is_Some (expires_at s)) then (<[k := mkKeySlot None (slot_value s)]> m, true) else (m, false)
  | None => (m, false)
  end.

Lemma wp_persist k c :
  inv c → wp (persist k) c (λ c' r, step c c' (persist_spec k (slots c)).1 ∧ r = (persist_spec k (slots c)).2).
Proof.
  intros H. apply wp_kv_mutate; [apply H|]. intros kv token Hkv. unfold persist_spec.
  destruct (slots c !! k) as [s|] eqn:Ek; [|intros E; split; [by apply step_kept|done]].
  case_decide; intros E; (split; [|done]); [by apply step_reexpire|by apply step_kept].
Qed.

Lemma wp_set_typed_expire t k at_ms c :
  inv c → wp (set_typed_expire_unix_ms t k at_ms) c (λ c' _, ∃ m, step c c' m).
Proof.
  intros H. unfold set_typed_expire_unix_ms. destruct (at_ms <? 0); [wp_steps; eexists; by apply step_refl|].
  destruct (at_ms <=? unix_ms t).
  - apply wp_bind. eapply wp_mono; [by apply wp_delete|]. intros c1 r [H1 _]. wp_steps. eauto.
  - apply wp_kv_mutate; [apply H|]. intros kv token Hkv. destruct (slots c !! k) as [s|] eqn:Ek.
    + destruct (is_typed_container (slot_value s)); intros E; cbn [fst apply_action] in E; eexists;
        [exact (step_reexpire c kv k s _ H Ek Hkv E)|by apply step_kept].
    + intros E. eexists. by apply step_kept.
Qed.
End specs.
