(* ===== verification/CacheScan.v ===== *)
(** * Renaming, listing and sweeping

    Specifications of the methods that move a slot or walk the whole map. *)

From S2P Require Import Prelude RustStd Errors Glob ListType SetType HashType SortedSet StreamType Memory KeyMap Keyspace CacheOps CacheFacts EvictionFacts CacheSpecs.
From Stdlib Require Import Lia.
Local Open Scope Z_scope.

Lemma list_filter_iff' {A} (P Q : A → Prop) `{!∀ x, Decision (P x), !∀ x, Decision (Q x)} (l : list A) :
  (∀ x, x ∈ l → P x ↔ Q x) → filter P l = filter Q l.
Proof.
  induction l as [|x l IH]; intros Hiff; [done|]. pose proof (Hiff x ltac:(set_solver)) as Hx.
  rewrite !filter_cons, IH by (intros y Hy; apply Hiff; set_solver). repeat case_decide; tauto.
Qed.

Section scan.
Context {GeoSet Srch : Type} `{!Platform GeoSet, !PlatformLaws GeoSet, !SearchManager Srch, !SearchLaws Srch}.
Abbreviation Slot := (KeySlot GeoSet).
Abbreviation C := (Cache GeoSet Srch).
Abbreviation M := (St C).
Implicit Types (c : C) (k : Bytes) (m : gmap Bytes Slot) (s : Slot) (e : Entry).

Ltac wp_step := first [apply wp_bind | apply wp_try | apply wp_ret | apply wp_asks | apply wp_modify].
Ltac wp_steps := repeat (wp_step; cbv beta).

(** ** [rename] *)

(** A slot under another name: a string entry carries its name. *)
Definition renamed (dst : Bytes) s : Slot :=
  mkKeySlot (expires_at s)
    match slot_value s with
    | VString e => VString (mkEntry dst (e_value e) (created_at e) (last_access_micros e) (e_lfu e) (flags e) (cas e))
    | v => v
    end.

Lemma renamed_cat dst s : memory_category (slot_value (renamed dst s)) = memory_category (slot_value s).
Proof. unfold renamed. by destruct (slot_value s). Qed.

(** The slot moved, and the difference of the sizes was accounted. *)
Lemma step_rename c c' src dst s :
  inv c → src ≠ dst → slots c !! src = Some s → slots c !! dst = None →
  let d := slot_bytes dst (renamed dst s) - slot_bytes src s in
  km_ok hash_one (key_values c') → slots c' = <[dst := renamed dst s]> (base.delete src (slots c)) →
  tracker_ok (memory_tracker c') → limit (memory_tracker c') = limit (memory_tracker c) →
  (∀ cat, counters (memory_tracker c') cat =
     counters (memory_tracker c) cat + (if decide (cat = memory_category (slot_value s)) then d else 0)) →
  memory_usage c' = memory_usage c + (if is_string (slot_value s) then d else 0) →
  total (memory_tracker c') = total (memory_tracker c) + d → total (memory_tracker c') ≤ u64_max →
  cfg c' = cfg c → (docs c' ≤ docs c)%nat →
  step c c' (<[dst := renamed dst s]> (base.delete src (slots c))).
Proof.
  intros H Hne Hs Hd d Hm Es Hok Hl Hcnt Hu Ht Hfit Hcfg Hdocs.
  assert (Emm : max_memory c' = max_memory c) by (unfold cfg in Hcfg; congruence).
  assert (Hcs : memory_category (slot_value s) ≠ CatPubSub ∧ memory_category (slot_value s) ≠ CatSearch)
    by (by destruct (slot_value s)).
  assert (Hcat : ∀ cat, cat_bytes cat (slots c') =
    cat_bytes cat (slots c) + (if decide (cat = memory_category (slot_value s)) then d else 0)).
  { intros cat. rewrite Es. unfold cat_bytes. rewrite map_sum_insert, map_sum_delete, Hs, lookup_delete_ne, Hd by done.
    cbn [from_option]. rewrite renamed_cat. unfold d. repeat case_decide; congruence || lia. }
  split; [|done|done| |done].
  - split; [done| |done| | |done|by rewrite Hl, (inv_limit c H)].
    + intros k' s'. rewrite Es, lookup_insert_Some, lookup_delete_Some. intros [[<- <-]|(_ & _ & ?)].
      * intros e. unfold renamed. cbn. destruct (slot_value s); [|done..]. by intros [= <-].
      * by apply (inv_named c H).
    + intros cat Hn1 Hn2. rewrite Hcnt, Hcat, (inv_counts c H) by done. done.
    + rewrite Hu, Hcat, (inv_usage c H). f_equal. by destruct (slot_value s).
  - unfold other. rewrite !Hcnt. rewrite !decide_False by (destruct Hcs; congruence). lia.
Qed.

Lemma bytes_rename c src dst s :
  src ≠ dst → slots c !! src = Some s → slots c !! dst = None →
  bytes (<[dst := renamed dst s]> (base.delete src (slots c))) =
  bytes (slots c) + (slot_bytes dst (renamed dst s) - slot_bytes src s).
Proof.
  intros Hne Hs Hd. unfold bytes. rewrite map_sum_insert, map_sum_delete, Hs, lookup_delete_ne, Hd by done. simpl. lia.
Qed.

Definition moved (src dst : Bytes) s m : gmap Bytes Slot := <[dst := renamed dst s]> (base.delete src m).

(** The memory of [c'] is that of [c] with [d] more bytes in [cat], and so is its usage if [cat] counts strings. *)
Definition adjusted (cat : MemoryCategory) (d : Z) c c' : Prop :=
  tracker_ok (memory_tracker c') ∧ limit (memory_tracker c') = limit (memory_tracker c) ∧
  (∀ cat', counters (memory_tracker c') cat' = counters (memory_tracker c) cat' + (if decide (cat' = cat) then d else 0)) ∧
  memory_usage c' = memory_usage c + (if decide (cat = CatCache) then d else 0) ∧
  total (memory_tracker c') = total (memory_tracker c) + d.

(** Nothing but the memory changed, and [CatPubSub] and [CatSearch] did not. *)
Definition same_but_memory c c' : Prop :=
  key_values c' = key_values c ∧ cfg c' = cfg c ∧ docs c' = docs c ∧ other c' = other c.

Lemma account_other (t : MemoryTracker) n cat :
  cat ≠ CatPubSub → cat ≠ CatSearch →
  counters (account t n cat) CatPubSub = counters t CatPubSub ∧ counters (account t n cat) CatSearch = counters t CatSearch ∧
  limit (account t n cat) = limit t.
Proof. intros H1 H2. unfold account, set_counter. destruct (_ =? 0); [done|]. cbn. by rewrite !decide_False by congruence. Qed.

Lemma deallocate_other (t : MemoryTracker) n cat :
  cat ≠ CatPubSub → cat ≠ CatSearch →
  counters (deallocate t n cat) CatPubSub = counters t CatPubSub ∧ counters (deallocate t n cat) CatSearch = counters t CatSearch ∧
  limit (deallocate t n cat) = limit t.
Proof. intros H1 H2. unfold deallocate, set_counter. destruct (_ =? 0); [done|]. cbn. by rewrite !decide_False by congruence. Qed.

(** The last lines of the string branch of [rename]. *)
Lemma wp_adjust_string (old new : Z) c :
  tracker_ok (memory_tracker c) → 0 ≤ old ≤ counters (memory_tracker c) CatCache → 0 ≤ new →
  memory_usage c = counters (memory_tracker c) CatCache → total (memory_tracker c) ≤ u64_max →
  wp (if old <? new then _ ← usage_add (new - old); track_add (new - old) CatCache
      else if new <? old then _ ← usage_sub (old - new); track_free (old - new) CatCache
      else mret tt) c
    (λ c' _, same_but_memory c c' ∧
       (total (memory_tracker c) + (new - old) ≤ u64_max → adjusted CatCache (new - old) c c')).
Proof.
  intros Hok Ho Hn Hu Hmax.
  assert (Hc : counters (memory_tracker c) CatCache ≤ total (memory_tracker c)).
  { rewrite (tr_total _ Hok). apply sum_of_ge; [apply Hok|apply elem_of_all_categories]. }
  destruct (Z.ltb_spec old new) as [Hlt|Hge]; [|destruct (Z.ltb_spec new old) as [Hlt|Heq]]; wp_steps.
  - destruct (account_other (memory_tracker c) (new - old) CatCache) as (P1 & P2 & P3); [done..|].
    split; [by unfold same_but_memory, other; cbn; rewrite P1, P2|]. intros Hfit.
    destruct (account_ok (memory_tracker c) (new - old) CatCache Hok) as (Hok' & Htot & Hcnt); [lia|lia|].
    split_and!; cbn; try done. unfold wrap_u64. rewrite Z.mod_small by lia. done.
  - destruct (deallocate_other (memory_tracker c) (old - new) CatCache) as (P1 & P2 & P3); [done..|].
    split; [by unfold same_but_memory, other; cbn; rewrite P1, P2|]. intros _.
    destruct (deallocate_ok (memory_tracker c) (old - new) CatCache Hok) as (Hok' & Htot & Hcnt); [lia|].
    replace (Z.min _ _) with (old - new) in * by lia.
    split_and!; cbn [memory_tracker memory_usage set_memory]; rewrite ?decide_True by done; try done.
    + intros cat. rewrite Hcnt. case_decide; lia.
    + unfold wrap_u64. rewrite Z.mod_small by lia. lia.
    + lia.
  - split; [done|]. intros _. replace (new - old) with 0 by lia. split_and!; rewrite ?decide_True by done; [done|done| |lia|lia].
    intros cat. case_decide; lia.
Qed.

(** The same for a container, when the lengths of the names differ. *)
Lemma wp_adjust_typed src dst s c :
  tracker_ok (memory_tracker c) → is_string (slot_value s) = false →
  slot_bytes src s ≤ counters (memory_tracker c) (memory_category (slot_value s)) →
  let d := slot_bytes dst (renamed dst s) - slot_bytes src s in
  wp (account_typed_key_rename src dst (content_memory_size (slot_value s)) (memory_category (slot_value s))) c
    (λ c' _, same_but_memory c c' ∧
       (total (memory_tracker c) + d ≤ u64_max → adjusted (memory_category (slot_value s)) d c c')).
Proof.
  intros Hok Hstr Hge d.
  assert (Hcs : memory_category (slot_value s) ≠ CatPubSub ∧ memory_category (slot_value s) ≠ CatSearch ∧
    memory_category (slot_value s) ≠ CatCache) by (by destruct (slot_value s)). destruct Hcs as (N1 & N2 & N3).
  assert (Bs : ∀ k, slot_bytes k s = estimate_keyed_object (zlen k) (content_memory_size (slot_value s)))
    by (intros k; unfold slot_bytes; by destruct (slot_value s)).
  assert (Bd : slot_bytes dst (renamed dst s) = slot_bytes dst s)
    by (unfold slot_bytes, renamed; cbn; by destruct (slot_value s)).
  unfold account_typed_key_rename. case_decide as El.
  { wp_steps. split; [done|]. intros _. assert (d = 0) as -> by (unfold d; rewrite Bd, !Bs, El; lia).
    split_and!; [done|done|intros cat; case_decide; lia|by rewrite decide_False by done; lia|lia]. }
  rewrite <- !Bs. wp_steps. pose proof (slot_bytes_pos src s) as Ps. pose proof (slot_bytes_pos dst s) as Pd.
  destruct (deallocate_ok (memory_tracker c) (slot_bytes src s) (memory_category (slot_value s)) Hok Ps) as (Hok1 & Ht1 & Hc1).
  replace (Z.min _ _) with (slot_bytes src s) in * by lia.
  destruct (deallocate_other (memory_tracker c) (slot_bytes src s) (memory_category (slot_value s)) N1 N2) as (P1 & P2 & P3).
  set (t1 := deallocate _ _ _) in *.
  destruct (account_other t1 (slot_bytes dst s) (memory_category (slot_value s)) N1 N2) as (P4 & P5 & P6).
  split; [by unfold same_but_memory, other; cbn; rewrite P4, P5, P1, P2|]. intros Hfit.
  destruct (account_ok t1 (slot_bytes dst s) (memory_category (slot_value s)) Hok1 Pd) as (Hok2 & Ht2 & Hc2); [lia|].
  split_and!; cbn; [done|by rewrite P6| |by rewrite decide_False by done; lia|lia].
  intros cat. rewrite Hc2, Hc1. unfold d. rewrite Bd. case_decide; lia.
Qed.

(** After the move and the accounting. *)
Lemma lands_rename c c1 c' kv src dst s :
  inv c → src ≠ dst → slots c !! src = Some s → slots c !! dst = None →
  c1 = set_key_values c kv → km_ok hash_one (key_values c') → slots c' = moved src dst s (slots c) →
  cfg c' = cfg c → docs c' = docs c → other c' = other c →
  (total (memory_tracker c) + (slot_bytes dst (renamed dst s) - slot_bytes src s) ≤ u64_max →
     adjusted (memory_category (slot_value s)) (slot_bytes dst (renamed dst s) - slot_bytes src s) c1 c') →
  lands c c' (moved src dst s (slots c)).
Proof.
  intros H Hne Hs Hd -> Hkv Es Ec Ed Eo Hadj. split; [done|]. intros Hf. unfold fits in Hf. rewrite Es, Eo in Hf.
  unfold moved in Hf. rewrite (bytes_rename c src dst s Hne Hs Hd) in Hf. pose proof (total_eq c H) as Ht.
  destruct Hadj as (A1 & A2 & A3 & A4 & A5); [lia|]. cbn [memory_tracker memory_usage set_key_values] in *.
  apply step_rename; try done; [|lia|lia].
  rewrite A4. f_equal. destruct (slot_value s); done.
Qed.

Lemma wp_rename_string src dst c s e :
  inv c → src ≠ dst → slots c !! src = Some s → slots c !! dst = None → slot_value s = VString e →
  wp (rename_string src dst) c (λ c' r, lands c c' (moved src dst s (slots c)) ∧ r = Ok true).
Proof.
  intros H Hne Hs Hd Ev. unfold rename_string.
  apply wp_bind, wp_kv_remove; [apply H|]. intros kv1 Hkv1 E1. rewrite Hs, Ev.
  apply wp_bind, wp_kv_insert; [done|]. intros kv Hkv E. unfold slots in E at 1. cbn [key_values set_key_values] in E.
  rewrite E1 in E. set (e' := mkEntry dst _ _ _ _ _ _) in *.
  assert (Er : renamed dst s = mkKeySlot (expires_at s) (VString e')) by (unfold renamed; by rewrite Ev).
  assert (Bs : slot_bytes src s = entry_size (GeoSet := GeoSet) e) by (unfold slot_bytes; by rewrite Ev).
  assert (Bd : slot_bytes dst (renamed dst s) = entry_size (GeoSet := GeoSet) e') by (by rewrite Er).
  pose proof (slot_bytes_pos src s) as Ps. pose proof (slot_bytes_pos dst (renamed dst s)) as Pd.
  assert (Hcs : slot_bytes src s ≤ counters (memory_tracker c) CatCache).
  { rewrite (inv_counts c H) by done. pose proof (map_sum_ge _ (slots c) src s (cat_pos CatCache) Hs) as G.
    cbn beta in G. rewrite Ev in G. exact G. }
  rewrite <- Bs, <- Bd. apply wp_bind. eapply wp_mono; [apply wp_adjust_string|].
  - apply H.
  - cbn. lia.
  - done.
  - cbn. rewrite (inv_usage c H), (inv_counts c H) by done. done.
  - apply H.
  - intros c' [] ((Ek & Ec & Ed & Eo) & Hadj). wp_steps. split; [|done].
    apply (lands_rename c (set_key_values c kv) c' kv); try done.
    + by rewrite Ek.
    + unfold slots, moved. rewrite Ek. cbn. by rewrite E, Er.
    + by rewrite Ev.
Qed.

Lemma wp_rename_typed src dst c s :
  inv c → src ≠ dst → slots c !! src = Some s → slots c !! dst = None → is_string (slot_value s) = false →
  wp (rename_typed (value_type (slot_value s)) src dst) c (λ c' r, lands c c' (moved src dst s (slots c)) ∧ r = Ok true).
Proof.
  intros H Hne Hs Hd Ev. unfold rename_typed.
  apply wp_bind, wp_kv_remove; [apply H|]. intros kv1 Hkv1 E1. rewrite Hs, decide_True by done.
  assert (Hcs : memory_category (slot_value s) ≠ CatPubSub ∧ memory_category (slot_value s) ≠ CatSearch)
    by (by destruct (slot_value s)).
  assert (Hge : slot_bytes src s ≤ counters (memory_tracker c) (memory_category (slot_value s))).
  { rewrite (inv_counts c H) by apply Hcs.
    pose proof (map_sum_ge _ (slots c) src s (cat_pos (memory_category (slot_value s))) Hs) as G.
    cbn beta in G. by rewrite decide_True in G. }
  apply wp_bind. eapply wp_mono; [apply (wp_adjust_typed src dst s); [apply H|done|exact Hge]|].
  intros c1 [] ((Ek & Ec & Ed & Eo) & Hadj).
  apply wp_bind, wp_kv_insert; [by rewrite Ek|]. intros kv Hkv E.
  assert (E2 : contents kv = moved src dst s (slots c)).
  { rewrite E. unfold slots at 1, moved. rewrite Ek. cbn [key_values set_key_values]. rewrite E1. f_equal.
    unfold renamed. destruct s as [exp v]. cbn in *. by destruct v. }
  wp_steps. split; [|done]. eapply (lands_rename c _ _ kv1); try done; exact Hadj.
Qed.

Definition rename_spec (t : Clock) (src dst : Bytes) (nx : bool) m : gmap Bytes Slot * result KError bool :=
  match visible t src m with
  | None => (purge t src m, Err no_such_key)
  | Some s =>
    if decide (src = dst) then (m, Ok true)
    else if nx && bool_decide (is_Some (visible t dst m)) then (m, Ok false)
    else (moved src dst s (base.delete dst m), Ok true)
  end.

Lemma visible_ne t k k' m : k ≠ k' → visible t k (purge t k' m) = visible t k m.
Proof.
  intros Hne. unfold visible, purge. destruct (due t k' m); [|done]. by rewrite lookup_delete_ne.
Qed.

Lemma delete_purge t k m : base.delete k (purge t k m) = base.delete k m.
Proof. unfold purge. destruct (due t k m); [|done]. apply delete_delete_eq. Qed.

Lemma purge_absent t k m : visible t k m = None → purge t k m = base.delete k m.
Proof.
  unfold visible, purge, due. destruct (m !! k) as [s|] eqn:E; simpl; [|by rewrite delete_id].
  by destruct (is_expired t s).
Qed.

(** The destination is free when the slot is moved there. *)
Lemma wp_free_dst t dst c :
  inv c →
  wp (there ← exists_ t dst; if there : bool then CacheOps.delete dst else mret false) c
    (λ c' _, step c c' (base.delete dst (slots c))).
Proof.
  intros H. apply wp_bind. eapply wp_mono; [by apply wp_exists|]. intros c1 r [H1 ->]. case_bool_decide as Hv.
  - eapply wp_mono; [apply wp_delete, H1|]. intros c2 r [H2 _]. eapply step_trans; [exact H1|].
    rewrite (st_slots _ _ _ H1), delete_purge in H2. exact H2.
  - wp_steps. eapply step_eq; [exact H1|]. apply purge_absent. by apply eq_None_not_Some.
Qed.

(** With [nx], a past-due destination is already gone when the answer is no. *)
Definition nx_blocked t (dst : Bytes) (nx : bool) m : bool := nx && bool_decide (is_Some (visible t dst m)).

Lemma wp_nx t dst (nx : bool) c :
  inv c → wp (if nx then exists_ t dst else mret false) c (λ c' r,
    (∃ m, step c c' m ∧ base.delete dst m = base.delete dst (slots c) ∧ (nx_blocked t dst nx (slots c) = true → m = slots c)) ∧
    r = nx_blocked t dst nx (slots c)).
Proof.
  intros H. unfold nx_blocked. destruct nx; [|wp_steps; split; [|done]; exists (slots c); by split; [apply step_refl|]].
  eapply wp_mono; [by apply wp_exists|]. intros c1 r [H1 ->]. split; [|done]. exists (purge t dst (slots c)).
  split; [done|]. split; [apply delete_purge|]. simpl. rewrite bool_decide_eq_true. intros [s Hs].
  by destruct (purge_live _ _ _ _ Hs).
Qed.

Lemma wp_rename t src dst nx c :
  inv c → wp (rename t src dst nx) c (λ c' r, lands c c' (rename_spec t src dst nx (slots c)).1 ∧
    r = (rename_spec t src dst nx (slots c)).2).
Proof.
  intros H. unfold rename, rename_spec. destruct (decide (src = dst)) as [<-|Hne].
  - apply wp_bind. eapply wp_mono; [by apply wp_key_type|]. intros c1 r [H1 ->]. wp_steps.
    case_decide as Ht; rewrite type_at_None in Ht; [rewrite Ht; split; [by apply step_lands|done]|].
    destruct (visible t src (slots c)) eqn:Ev; [|done]. destruct (purge_live _ _ _ _ Ev) as [Ep _]. rewrite Ep in H1.
    split; [by apply step_lands|done].
  - apply wp_bind. eapply wp_mono; [by apply wp_key_type|]. intros c1 r [H1 ->].
    case_decide as Ht; [apply type_at_None in Ht; rewrite Ht; wp_steps; split; [by apply step_lands|done]|].
    pose proof Ht as Ht'. rewrite type_at_None in Ht'. destruct (visible t src (slots c)) as [s|] eqn:Ev; [|done].
    destruct (purge_live _ _ _ _ Ev) as [Ep Ek]. rewrite Ep in H1. clear Ht'.
    assert (Et : type_at t src (slots c) = value_type (slot_value s)) by (unfold type_at; by rewrite Ev).
    rewrite Et in *. clear Et. apply wp_bind. eapply wp_mono; [apply wp_nx, H1|].
    intros c2 r [(m2 & H2 & Em2 & Hb2) ->]. rewrite (st_slots _ _ _ H1) in *.
    pose proof (step_trans _ _ _ _ _ H1 H2) as H12. fold (nx_blocked t dst nx (slots c)).
    destruct (nx_blocked t dst nx (slots c)).
    { wp_steps. rewrite Hb2 in H12 by done. split; [by apply step_lands|done]. }
    pose proof (wp_free_dst t dst c2 (st_inv _ _ _ H12)) as Hfree. apply wp_bind. unfold wp in Hfree. unfold mbind at 1, st_bind at 1 in Hfree.
    unfold wp at 1. destruct (exists_ t dst c2) as [[c3 there]|]; [|done]. apply wp_bind.
    eapply wp_mono; [exact Hfree|]. intros c4 r H4. cbv beta in H4. rewrite (st_slots _ _ _ H12), Em2 in H4.
    pose proof (step_trans _ _ _ _ _ H12 H4) as H14. pose proof (st_slots _ _ _ H14) as E4.
    assert (Hs4 : slots c4 !! src = Some s) by (rewrite E4, lookup_delete_ne by done; exact Ek).
    assert (Hd4 : slots c4 !! dst = None) by (rewrite E4; apply lookup_delete_eq).
    assert (Fin : ∀ c' (r : result KError bool), lands c4 c' (moved src dst s (slots c4)) ∧ r = Ok true →
      lands c c' (moved src dst s (base.delete dst (slots c))) ∧ r = Ok true).
    { intros c' r' [Hl ->]. split; [|done]. rewrite E4 in Hl. by eapply lands_trans. }
    pose proof (wp_rename_typed src dst c4 s (st_inv _ _ _ H14) Hne Hs4 Hd4) as Hty.
    destruct (slot_value s) as [e| | | | | |] eqn:Evs; cbn [value_type] in *; [|eapply wp_mono; [by apply Hty|exact Fin]..].
    eapply wp_mono; [apply (wp_rename_string src dst c4 s e); try done; apply H14|exact Fin].
Qed.

(** ** Walking the map *)

(** What is left after the names in [l] were looked at. *)
Definition purge_all (t : Clock) (l : list Bytes) m : gmap Bytes Slot := foldl (λ m k, purge t k m) m l.

Lemma wp_live_keys t l c :
  inv c → wp (live_keys t l) c (λ c' r,
    step c c' (purge_all t l (slots c)) ∧ (NoDup l → r = filter (λ k, is_Some (visible t k (slots c))) l)).
Proof.
  revert c. induction l as [|k l IH]; intros c H; cbn [live_keys purge_all foldl].
  { wp_steps. split; [by apply step_refl|done]. }
  apply wp_bind. eapply wp_mono; [by apply wp_purge|]. intros c1 r [H1 ->].
  assert (Hrest : NoDup (k :: l) → filter (λ k0, is_Some (visible t k0 (slots c1))) l = filter (λ k0, is_Some (visible t k0 (slots c))) l).
  { intros [Hk _]%NoDup_cons. apply list_filter_iff'. intros k' Hk'. rewrite (st_slots _ _ _ H1), visible_ne; [done|].
    intros ->. done. }
  assert (Hvis : due t k (slots c) = true → ¬ is_Some (visible t k (slots c))).
  { unfold due, visible. intros E. destruct (slots c !! k); [|done]. simpl. rewrite E. by intros []. }
  destruct (due t k (slots c)) eqn:E.
  - eapply wp_mono; [apply IH, H1|]. intros c2 r [H2 Hr]. rewrite (st_slots _ _ _ H1) in H2.
    split; [by eapply step_trans|]. intros Hnd. rewrite Hr, Hrest by (done || by apply NoDup_cons in Hnd as []).
    rewrite filter_cons_False by auto. done.
  - apply wp_bind, wp_kv_get; [apply H1|]. rewrite (st_slots _ _ _ H1) at 1. rewrite purge_visible.
    destruct (visible t k (slots c)) as [s|] eqn:Ev.
    + apply wp_bind. eapply wp_mono; [apply IH, H1|]. intros c2 r [H2 Hr]. wp_steps. rewrite (st_slots _ _ _ H1) in H2.
      split; [by eapply step_trans|]. intros Hnd. rewrite Hr, Hrest by (done || by apply NoDup_cons in Hnd as []).
      rewrite filter_cons_True by (by rewrite Ev). done.
    + eapply wp_mono; [apply IH, H1|]. intros c2 r [H2 Hr]. rewrite (st_slots _ _ _ H1) in H2.
      split; [by eapply step_trans|]. intros Hnd. rewrite Hr, Hrest by (done || by apply NoDup_cons in Hnd as []).
      rewrite filter_cons_False by (rewrite Ev; by intros []). done.
Qed.

Lemma purge_all_lookup t l m k :
  purge_all t l m !! k = if decide (k ∈ l) then visible t k m else m !! k.
Proof.
  revert m. induction l as [|k' l IH]; intros m; [done|]. cbn [purge_all foldl]. fold (purge_all t l (purge t k' m)).
  rewrite IH. destruct (decide (k = k')) as [->|Hne].
  - rewrite (decide_True (P := k' ∈ k' :: l)) by set_solver. case_decide; [apply visible_purge|apply purge_visible].
  - rewrite visible_ne by done. unfold purge.
    assert (E : (if due t k' m then base.delete k' m else m) !! k = m !! k)
      by (destruct (due t k' m); [by rewrite lookup_delete_ne|done]).
    rewrite E. repeat case_decide; done || set_solver.
Qed.

(** The slots that are not past due. *)
Definition live (t : Clock) m : gmap Bytes Slot := filter (λ ks, is_expired t ks.2 = false) m.

Lemma live_lookup t m k : live t m !! k = visible t k m.
Proof.
  unfold live, visible. rewrite map_lookup_filter. destruct (m !! k) as [s|]; [|done]. simpl.
  destruct (is_expired t s); [by rewrite option_guard_False|by rewrite option_guard_True].
Qed.

(** Names that are visible and match. *)
Definition listed (t : Clock) (pat : option Str) m : list Bytes :=
  filter (λ k, key_matches pat k = true) (map_to_list (live t m)).*1.

Lemma elem_of_map_keys m k : k ∈ (map_to_list m).*1 ↔ is_Some (m !! k).
Proof.
  rewrite list_elem_of_fmap. split.
  - intros ([k' s] & -> & H%elem_of_map_to_list). by exists s.
  - intros [s H]. exists (k, s). split; [done|]. by apply elem_of_map_to_list.
Qed.

Lemma NoDup_map_keys m : NoDup (map_to_list m).*1.
Proof. apply NoDup_fst_map_to_list. Qed.

Lemma wp_keys t pat c :
  inv c → wp (keys t pat) c (λ c' r, r ≡ₚ listed t pat (slots c) ∧
    ∃ l, step c c' (purge_all t l (slots c))).
Proof.
  intros H. unfold keys. apply wp_bind, wp_asks.
  pose proof (keys_perm hash_one hash_iter hash_iter_perm (key_values c) pat (inv_map c H)) as Hp.
  fold (slots c) in Hp. set (l := km_keys hash_iter (key_values c) pat) in *.
  assert (Hnd : NoDup l) by (rewrite Hp; apply NoDup_filter, NoDup_map_keys).
  eapply wp_mono; [by apply wp_live_keys|]. intros c' r [H1 Hr]. split; [|by exists l]. rewrite (Hr Hnd).
  apply NoDup_Permutation; [by apply NoDup_filter|apply NoDup_filter, NoDup_map_keys|].
  intros k. unfold listed. rewrite !list_elem_of_filter, elem_of_map_keys, live_lookup, Hp, list_elem_of_filter, elem_of_map_keys.
  split; [naive_solver|]. intros [Hm [s Hs]]. split; [by exists s|]. split; [done|].
  destruct (purge_live _ _ _ _ Hs) as [_ E]. by exists s.
Qed.

(** ** Sweeping *)

Definition drop_string (t : Clock) m k : gmap Bytes Slot :=
  match m !! k with
  | Some s => if is_string (slot_value s) && is_expired t s then base.delete k m else m
  | None => m
  end.

Lemma drop_strings_lookup t l m k :
  foldl (drop_string t) m l !! k =
  s ← m !! k; if bool_decide (k ∈ l) && (is_string (slot_value s) && is_expired t s) then None else Some s.
Proof.
  revert m. induction l as [|k' l IH]; intros m; cbn [foldl]; [by destruct (m !! k)|]. rewrite IH. unfold drop_string.
  destruct (decide (k = k')) as [->|Hne].
  - destruct (m !! k') as [s|] eqn:E; [|by rewrite E]. simpl.
    destruct (is_string (slot_value s) && is_expired t s) eqn:Es.
    + rewrite lookup_delete_eq, (bool_decide_eq_true_2 (k' ∈ k' :: l)) by set_solver. done.
    + rewrite E. simpl. by rewrite Es, !andb_false_r.
  - assert (E : match m !! k' with
                | Some s => if is_string (slot_value s) && is_expired t s then base.delete k' m else m
                | None => m end !! k = m !! k).
    { destruct (m !! k') as [s|]; [|done]. destruct (_ && _); [by rewrite lookup_delete_ne|done]. }
    rewrite E. destruct (m !! k) as [s|]; [|done]. simpl.
    by rewrite (bool_decide_ext (k ∈ k' :: l) (k ∈ l)) by set_solver.
Qed.

Lemma wp_put_back k s c kv :
  km_ok hash_one kv → contents kv = base.delete k (slots c) → slots c !! k = Some s →
  wp (_ ← kv_insert k s; mret None) (set_key_values c kv) (λ c1 (r : option Z),
    r = None ∧ ∃ kv1, c1 = set_key_values c kv1 ∧ km_ok hash_one kv1 ∧ contents kv1 = slots c).
Proof.
  intros Hkv E Hs. apply wp_bind, wp_kv_insert; [done|]. intros kv1 Hkv1 E1. wp_steps. split; [done|]. exists kv1.
  split; [done|]. split; [done|]. rewrite E1. unfold slots at 1. cbn. rewrite E. by apply insert_delete_id.
Qed.

Lemma wp_sweep_string t k c :
  km_ok hash_one (key_values c) →
  wp (sweep_string t k) c (λ c1 r, ∃ kv1, c1 = set_key_values c kv1 ∧ km_ok hash_one kv1 ∧
    contents kv1 = drop_string t (slots c) k ∧
    (r = None ∧ drop_string t (slots c) k = slots c ∨
     ∃ s e, slots c !! k = Some s ∧ slot_value s = VString e ∧ r = Some (entry_size (GeoSet := GeoSet) e) ∧
       drop_string t (slots c) k = base.delete k (slots c))).
Proof.
  intros Hok. unfold sweep_string, drop_string. apply wp_bind, wp_kv_remove; [done|]. intros kv Hkv E.
  assert (Fin : ∀ c1 (r : option Z), r = None ∧ (∃ kv1, c1 = set_key_values c kv1 ∧ km_ok hash_one kv1 ∧ contents kv1 = slots c) →
    ∃ kv1, c1 = set_key_values c kv1 ∧ km_ok hash_one kv1 ∧ contents kv1 = slots c ∧
    (r = None ∧ slots c = slots c ∨
     ∃ s e, slots c !! k = Some s ∧ slot_value s = VString e ∧ r = Some (entry_size (GeoSet := GeoSet) e) ∧
       slots c = base.delete k (slots c))) by naive_solver.
  destruct (slots c !! k) as [s|] eqn:Ek; cycle 1.
  { wp_steps. exists kv. rewrite delete_id in E by done. naive_solver. }
  destruct (slot_value s) as [e| | | | | |] eqn:Ev; cbn [is_string andb];
    [|(eapply wp_mono; [by apply wp_put_back|]; intros c1 r Hr; specialize (Fin c1 r Hr); exact Fin)..].
  destruct (is_expired t s); [wp_steps; exists kv; naive_solver|].
  eapply wp_mono; [by apply wp_put_back|]; intros c1 r Hr; specialize (Fin c1 r Hr); exact Fin.
Qed.

(** What a deletion takes from the sums. *)
Lemma delete_string_sums m k s e :
  m !! k = Some s → slot_value s = VString e →
  cat_bytes CatCache (base.delete k m) = cat_bytes CatCache m - entry_size (GeoSet := GeoSet) e ∧
  (∀ cat, cat ≠ CatCache → cat_bytes cat (base.delete k m) = cat_bytes cat m) ∧
  Z.of_nat (size (base.delete k m)) = Z.of_nat (size m) - 1.
Proof.
  intros Ek Ev. assert (Bk : slot_bytes k s = entry_size (GeoSet := GeoSet) e) by (unfold slot_bytes; by rewrite Ev).
  split_and!.
  - unfold cat_bytes. rewrite map_sum_delete, Ek. cbn [from_option]. rewrite Ev. cbn [memory_category].
    by rewrite decide_True, Bk.
  - intros cat Hc. unfold cat_bytes. rewrite map_sum_delete, Ek. cbn [from_option]. rewrite Ev. cbn [memory_category].
    rewrite decide_False by done. lia.
  - rewrite map_size_delete, Ek. assert (size m ≠ 0%nat); [|lia].
    intros Ez. apply map_size_empty_inv in Ez. by rewrite Ez, lookup_empty in Ek.
Qed.

(** The strings leave the map, and their sizes are added up. *)
Lemma wp_sweep_strings t l c :
  km_ok hash_one (key_values c) →
  wp (sweep_strings t l) c (λ c' r, ∃ kv, c' = set_key_values c kv ∧ km_ok hash_one kv ∧
    contents kv = foldl (drop_string t) (slots c) l ∧
    r.2 = cat_bytes CatCache (slots c) - cat_bytes CatCache (contents kv) ∧
    Z.of_nat r.1 = Z.of_nat (size (slots c)) - Z.of_nat (size (contents kv)) ∧
    (∀ cat, cat ≠ CatCache → cat_bytes cat (contents kv) = cat_bytes cat (slots c))).
Proof.
  revert c. induction l as [|k l IH]; intros c Hok; cbn [sweep_strings foldl].
  { wp_steps. exists (key_values c). destruct c. cbn. split_and!; try done; unfold slots; cbn; lia. }
  apply wp_bind. eapply wp_mono; [by apply wp_sweep_string|]. intros c1 r (kv1 & -> & Hkv1 & E1 & Hr).
  apply wp_bind. eapply wp_mono; [by apply IH|]. intros c2 [n b] (kv2 & -> & Hkv2 & E2 & B2 & N2 & O2).
  wp_steps. exists kv2. unfold slots in E2, B2, N2, O2. cbn in E2, B2, N2, O2. rewrite E1 in *.
  split; [done|]. split; [done|]. split; [done|].
  destruct Hr as [[-> Ed]|(s & e & Ek & Ev & -> & Ed)]; rewrite Ed in *; cbn [fst snd]; [done|].
  destruct (delete_string_sums (slots c) k s e Ek Ev) as (D1 & D2 & D3).
  split_and!; [lia|lia|]. intros cat Hc. by rewrite O2, D2.
Qed.

(** The bytes the swept strings were accounted for are given back at once. *)
Lemma step_swept c kv n :
  inv c → km_ok hash_one kv → contents kv ⊆ slots c →
  0 ≤ n → n = cat_bytes CatCache (slots c) - cat_bytes CatCache (contents kv) →
  (∀ cat, cat ≠ CatCache → cat_bytes cat (contents kv) = cat_bytes cat (slots c)) →
  step c (set_memory (set_key_values c kv) (deallocate (memory_tracker c) n CatCache) (wrap_u64 (memory_usage c - n)))
    (contents kv).
Proof.
  intros H Hkv Hsub Hn0 Hn Hother. pose proof (inv_usage_u64 c H) as Hu. pose proof (inv_tracker c H) as Hok.
  destruct (deallocate_ok (memory_tracker c) n CatCache Hok Hn0) as (Hok' & Htot & Hcnt).
  destruct (deallocate_other (memory_tracker c) n CatCache) as (P1 & P2 & P3); [done..|].
  pose proof (inv_counts c H CatCache ltac:(done) ltac:(done)) as E0.
  pose proof (cat_bytes_pos CatCache (contents kv)) as Hp.
  replace (Z.min _ _) with n in * by lia.
  split; [|done|done|unfold other; cbn; rewrite P1, P2; done|done].
  split; cbn [key_values memory_tracker memory_usage max_memory set_memory set_key_values]; [done| |done| | | |].
  - intros k s Hk. apply (inv_named c H). by eapply lookup_weaken.
  - intros cat N1 N2. rewrite Hcnt. unfold slots. cbn. case_decide as Ec; [subst cat; lia|].
    rewrite Hother, (inv_counts c H) by done. lia.
  - unfold slots. cbn. rewrite (inv_usage c H) in *. unfold wrap_u64. rewrite Z.mod_small by lia. lia.
  - pose proof (inv_total c H). lia.
  - rewrite P3. apply (inv_limit c H).
Qed.

Lemma drop_strings_subseteq t l m : foldl (drop_string t) m l ⊆ m.
Proof.
  apply map_subseteq_spec. intros k s. rewrite drop_strings_lookup. destruct (m !! k); [|done]. simpl.
  destruct (_ && _); [done|]. by intros [= ->].
Qed.

(** The strings past due, as the first pass collects them. *)
Definition expired_strings (t : Clock) c : list Bytes :=
  omap (λ '(k, slot), if is_string (slot_value slot) && is_expired t slot then Some k else None)
    (visit hash_iter (key_values c)).

Lemma elem_of_visit c k s : inv c → (k, s) ∈ visit hash_iter (key_values c) ↔ slots c !! k = Some s.
Proof.
  intros H. rewrite (visit_perm hash_one hash_iter hash_iter_perm (key_values c) (inv_map c H)).
  apply elem_of_map_to_list.
Qed.

Lemma elem_of_collected (P : Slot → bool) c k :
  inv c → k ∈ omap (λ '(k, slot), if P slot then Some k else None) (visit hash_iter (key_values c)) ↔
  ∃ s, slots c !! k = Some s ∧ P s = true.
Proof.
  intros H. rewrite list_elem_of_omap. split.
  - intros ([k' s] & Hin & E). apply elem_of_visit in Hin; [|done]. destruct (P s) eqn:Ep; [|done].
    injection E as ->. eauto.
  - intros (s & Hk & Ep). exists (k, s). split; [by apply elem_of_visit|]. by rewrite Ep.
Qed.

(** No string is past due. *)
Definition strings_live (t : Clock) m : gmap Bytes Slot :=
  filter (λ ks, is_string (slot_value ks.2) && is_expired t ks.2 = false) m.

Lemma strings_live_lookup t m k :
  strings_live t m !! k = s ← m !! k; if is_string (slot_value s) && is_expired t s then None else Some s.
Proof.
  unfold strings_live. rewrite map_lookup_filter. destruct (m !! k) as [s|]; [|done]. simpl.
  destruct (_ && _); [by rewrite option_guard_False|by rewrite option_guard_True].
Qed.

Lemma wp_string_sweep {A} t c (K : nat → M A) Q :
  inv c →
  (∀ c' n, step c c' (strings_live t (slots c)) →
     Z.of_nat n = Z.of_nat (size (slots c)) - Z.of_nat (size (strings_live t (slots c))) → wp (K n) c' Q) →
  wp ('(count, bytes0) ← string_sweep_expired t;
      _ ← (if (0 <? count)%nat then apply_expire_accounting count bytes0 else mret tt);
      K count) c Q.
Proof.
  intros H HK. apply wp_bind. unfold string_sweep_expired. apply wp_bind, wp_asks.
  eapply wp_mono; [apply wp_sweep_strings, H|]. intros c1 [n b] (kv & -> & Hkv & E & B & N & O). cbn [fst snd] in *.
  assert (Em : contents kv = strings_live t (slots c)).
  { rewrite E. apply map_eq. intros k. rewrite drop_strings_lookup, strings_live_lookup.
    destruct (slots c !! k) as [s|] eqn:Ek; [|done]. simpl.
    destruct (is_string (slot_value s) && is_expired t s) eqn:Ep; [|by rewrite andb_false_r].
    rewrite bool_decide_eq_true_2; [done|]. apply (elem_of_collected _ c k H). eauto. }
  assert (Hsub : contents kv ⊆ slots c) by (rewrite E; apply drop_strings_subseteq).
  assert (Hb : 0 ≤ b).
  { pose proof (map_sum_le _ (slots c) (contents kv) (cat_pos CatCache) Hsub) as G. unfold cat_bytes in B. lia. }
  pose proof (step_swept c kv b H Hkv Hsub Hb B O) as Hst. rewrite <- Em in HK. apply wp_bind.
  destruct (Nat.ltb_spec 0 n) as [Hn|Hn]; cycle 1.
  { apply wp_ret, HK; [|done]. assert (Ez : contents kv = slots c).
    { apply (map_subseteq_size_eq _ _ Hsub). lia. }
    rewrite Ez. by apply step_kept. }
  unfold apply_expire_accounting. destruct (Z.ltb_spec 0 b); wp_steps; (apply HK; [|done]).
  - by apply (step_stats c (set_memory (set_key_values c kv) _ _)).
  - assert (b = 0) as -> by lia. replace (set_key_values c kv) with
      (set_memory (set_key_values c kv) (deallocate (memory_tracker c) 0 CatCache) (wrap_u64 (memory_usage c - 0))).
    { by apply step_stats. }
    rewrite Z.sub_0_r. unfold wrap_u64. rewrite Z.mod_small; [done|]. pose proof (inv_usage_u64 c H). lia.
Qed.

Lemma wp_sweep_typed t l c :
  inv c → NoDup l → (∀ k, k ∈ l → due t k (slots c) = true) →
  wp (sweep_typed t l) c (λ c' r, step c c' (purge_all t l (slots c)) ∧ r = length l).
Proof.
  revert c. induction l as [|k l IH]; intros c H Hnd Hl; cbn [sweep_typed purge_all foldl length].
  { wp_steps. split; [by apply step_refl|done]. }
  apply NoDup_cons in Hnd as [Hk Hnd]. apply wp_bind. eapply wp_mono; [by apply wp_purge|]. intros c1 r [H1 ->].
  rewrite (Hl k) by set_solver. apply wp_bind, wp_modify. set (c2 := set_stats _ _).
  assert (H2 : step c c2 (purge t k (slots c))) by (by apply step_stats). clearbody c2.
  apply wp_bind. eapply wp_mono; [apply IH; [apply H2|done|]|].
  - intros k' Hk'. rewrite (st_slots _ _ _ H2). assert (Hd : due t k' (slots c) = true) by (apply Hl; set_solver).
    unfold purge. destruct (due t k (slots c)); [|done]. unfold due. rewrite lookup_delete_ne; [exact Hd|by intros ->].
  - intros c3 r [H3 ->]. wp_steps. rewrite (st_slots _ _ _ H2) in H3. split; [by eapply step_trans|]. lia.
Qed.

Lemma size_purge_all t l m :
  NoDup l → (∀ k, k ∈ l → due t k m = true) → Z.of_nat (size (purge_all t l m)) = Z.of_nat (size m) - Z.of_nat (length l).
Proof.
  revert m. induction l as [|k l IH]; intros m Hnd Hl; cbn [purge_all foldl length]; [lia|].
  apply NoDup_cons in Hnd as [Hk Hnd]. fold (purge_all t l (purge t k m)). rewrite IH; [|done|].
  - unfold purge. rewrite (Hl k) by set_solver. specialize (Hl k ltac:(set_solver)). unfold due in Hl.
    destruct (m !! k) as [s|] eqn:E; [|done]. rewrite map_size_delete, E.
    assert (size m ≠ 0%nat); [|lia]. intros Ez. apply map_size_empty_inv in Ez. by rewrite Ez, lookup_empty in E.
  - intros k' Hk'. assert (Hd : due t k' m = true) by (apply Hl; set_solver). unfold purge.
    destruct (due t k m); [|done]. unfold due. rewrite lookup_delete_ne; [exact Hd|by intros ->].
Qed.

Lemma collected_NoDup (P : Slot → bool) c :
  inv c → NoDup (omap (λ '(k, slot), if P slot then Some k else None) (visit hash_iter (key_values c))).
Proof.
  intros H. apply sublist_NoDup with (visit hash_iter (key_values c)).*1.
  - rewrite (visit_perm hash_one hash_iter hash_iter_perm (key_values c) (inv_map c H)). apply NoDup_map_keys.
  - induction (visit hash_iter (key_values c)) as [|[k s] v IH]; [constructor|]. simpl.
    destruct (P s); by constructor.
Qed.

Lemma wp_sweep t c :
  inv c → wp (sweep t) c (λ c' r, step c c' (live t (slots c)) ∧
    Z.of_nat r = Z.of_nat (size (slots c)) - Z.of_nat (size (live t (slots c)))).
Proof.
  intros H. apply wp_string_sweep; [done|]. intros c1 n H1 Hn. apply wp_bind. unfold sweep_typed_expired.
  pose proof (st_inv _ _ _ H1) as Hi. apply wp_bind, wp_asks. set (l := omap _ _).
  assert (Hin : ∀ k, k ∈ l ↔ ∃ s, slots c1 !! k = Some s ∧ is_typed_container (slot_value s) && is_expired t s = true).
  { intros k. apply (elem_of_collected _ c1 k Hi). }
  assert (Hnd : NoDup l) by (by apply (collected_NoDup (λ s, is_typed_container (slot_value s) && is_expired t s))).
  assert (Hdue : ∀ k, k ∈ l → due t k (slots c1) = true).
  { intros k (s & Hk & [_ Hs]%andb_true_iff)%Hin. unfold due. by rewrite Hk. }
  assert (Em : purge_all t l (slots c1) = live t (slots c)).
  { apply map_eq. intros k. rewrite purge_all_lookup, live_lookup. rewrite (st_slots _ _ _ H1) in Hin |- *.
    specialize (Hin k). unfold visible at 1. rewrite strings_live_lookup in *. unfold visible.
    destruct (slots c !! k) as [s|]; [|by repeat case_decide]. cbn [mbind option_bind] in *.
    unfold is_typed_container in Hin. destruct (is_string (slot_value s)) eqn:Est, (is_expired t s) eqn:Ex; cbn in *;
      rewrite ?Ex; case_decide as Hk; try done.
    exfalso. apply Hk, Hin. exists s. by rewrite Est, Ex. }
  eapply wp_mono; [by apply wp_sweep_typed|]. intros c2 r [H2 ->]. wp_steps. rewrite Em in H2.
  split; [by eapply step_trans|]. pose proof (size_purge_all t l (slots c1) Hnd Hdue) as Hsz. rewrite Em in Hsz.
  rewrite (st_slots _ _ _ H1) in Hsz. lia.
Qed.

Lemma wp_delete_many l c :
  inv c → wp (delete_many l) c (λ c' r, step c c' (foldl (λ m k, base.delete k m) (slots c) l) ∧
    Z.of_nat r = Z.of_nat (size (slots c)) - Z.of_nat (size (foldl (λ m k, base.delete k m) (slots c) l))).
Proof.
  revert c. induction l as [|k l IH]; intros c H; cbn [delete_many foldl].
  { wp_steps. split; [by apply step_refl|lia]. }
  apply wp_bind. eapply wp_mono; [by apply wp_delete|]. intros c1 r [H1 ->]. apply wp_bind.
  eapply wp_mono; [apply IH, H1|]. intros c2 n [H2 Hn]. wp_steps. rewrite (st_slots _ _ _ H1) in *.
  split; [by eapply step_trans|]. case_bool_decide as Hk.
  - rewrite map_size_delete in Hn. destruct Hk as [s Hk]. rewrite Hk in Hn.
    assert (size (slots c) ≠ 0%nat); [|lia]. intros Ez. apply map_size_empty_inv in Ez. by rewrite Ez, lookup_empty in Hk.
  - rewrite (delete_id (slots c)) in * by (by apply eq_None_not_Some). done.
Qed.

(** ** Flushing *)

Lemma cat_bytes_empty cat : cat_bytes cat ∅ = 0.
Proof. apply map_sum_empty. Qed.

Lemma inv_flushed c (t : MemoryTracker) (srch : Srch) :
  inv c → tracker_ok t → (∀ cat, counters t cat = 0) → limit t = limit (memory_tracker c) →
  inv (set_memory (set_search (set_key_values c (km_clear (key_values c))) srch) t 0).
Proof.
  intros H Hok Hz Hl. destruct (clear_ok hash_one (key_values c) (inv_map c H)) as [Hkv E].
  split; unfold slots; cbn [key_values memory_tracker memory_usage max_memory set_memory set_search set_key_values];
    rewrite ?E; [done| |done| | | |].
  - intros k s Hk. by rewrite lookup_empty in Hk.
  - intros cat _ _. by rewrite Hz, cat_bytes_empty.
  - by rewrite cat_bytes_empty.
  - rewrite (tr_total t Hok). cbn. rewrite !Hz. done.
  - by rewrite Hl, (inv_limit c H).
Qed.

Lemma wp_flush c : inv c → wp flush c (λ c' _, inv c' ∧ slots c' = ∅ ∧ cfg c' = cfg c ∧ other c' = 0).
Proof.
  intros H. unfold flush, flush_keyspace. wp_steps. cbn [search_index_manager memory_tracker set_search set_key_values].
  split; [|split; [|done]].
  - by apply inv_flushed.
  - unfold slots. cbn. apply (clear_ok hash_one (key_values c)), H.
Qed.
End scan.

(** ** Replacing a keyspace ([take_keyspace_payload], [install_keyspace_payload] of [src/cache/storage.rs])

    A loaded snapshot is swapped in: the slots, the accounting and the search indexes of one cache
    become those of another. *)

Section swap.
Context {GeoSet Srch : Type} `{!Platform GeoSet, !PlatformLaws GeoSet, !SearchManager Srch, !SearchLaws Srch}.
Abbreviation Slot := (KeySlot GeoSet).
Abbreviation C := (Cache GeoSet Srch).
Implicit Types (c self other : C) (k : Bytes) (m : gmap Bytes Slot) (s : Slot).

(** The counters travel by position. *)
Lemma install_counts (t : MemoryTracker) (f : MemoryCategory → Z) cat :
  counters (install_keyspace_counts t ((λ x : MemoryCategory, (x, f x)) <$> KEYSPACE_CATEGORIES)) cat =
  if decide (cat = CatPubSub) then counters t CatPubSub else f cat.
Proof. by destruct cat. Qed.

Lemma insert_all_list (l : list (Bytes * Slot)) m : NoDup l.*1 → foldl (λ m e, <[e.1 := e.2]> m) m l = list_to_map l ∪ m.
Proof.
  revert m. induction l as [|[k s] l IH]; intros m Hnd; [symmetry; apply (left_id_L ∅ (∪))|].
  apply NoDup_cons in Hnd as [Hk Hnd]. cbn [foldl list_to_map fst snd foldr]. rewrite IH by done.
  rewrite <- insert_union_l. symmetry. apply insert_union_r. by apply not_elem_of_list_to_map.
Qed.

Lemma fill_visited kv (other : ShardedKeyMap Slot) :
  km_ok hash_one kv → km_ok hash_one other →
  ∃ kv', fill_all hash_one (km_clear kv) (visit hash_iter other) = Ret kv' ∧ km_ok hash_one kv' ∧ contents kv' = contents other.
Proof.
  intros H1 H2. destruct (clear_ok hash_one kv H1) as [Hc Ec].
  destruct (fill_all_spec hash_one (visit hash_iter other) (km_clear kv) Hc) as (kv' & E & Hkv & Em & _).
  exists kv'. split; [done|]. split; [done|]. rewrite Em, Ec.
  pose proof (visit_perm hash_one hash_iter hash_iter_perm other H2) as Hp.
  assert (Hnd : NoDup (visit hash_iter other).*1) by (rewrite Hp; apply NoDup_fst_map_to_list).
  rewrite insert_all_list, (right_id_L ∅ (∪)) by done. rewrite (list_to_map_proper _ _ Hnd Hp). apply list_to_map_to_list.
Qed.

(** The generations after the swap. *)
Lemma bumped_lookup (l : list Bytes) (gens : gmap Bytes Z) k :
  NoDup l →
  foldl (λ gens k, <[k := wrap_u64 (default 0 (gens !! k) + 1)]> gens) gens l !! k =
  if decide (k ∈ l) then Some (wrap_u64 (default 0 (gens !! k) + 1)) else gens !! k.
Proof.
  revert gens. induction l as [|k' l IH]; intros gens Hnd; [done|]. apply NoDup_cons in Hnd as [Hk' Hnd].
  cbn [foldl]. rewrite IH by done. destruct (decide (k = k')) as [->|Hne].
  - rewrite lookup_insert_eq, (decide_False (P := k' ∈ l)), decide_True by (done || set_solver). done.
  - rewrite lookup_insert_ne by done. repeat case_decide; done || set_solver.
Qed.

Definition pubsub_bytes c : Z := counters (memory_tracker c) CatPubSub.

Lemma pubsub_le_total c : inv c → pubsub_bytes c ≤ total (memory_tracker c).
Proof.
  intros H. rewrite (tr_total _ (inv_tracker _ H)).
  apply sum_of_ge; [apply (inv_tracker _ H)|apply elem_of_all_categories].
Qed.

(** What is left of a drained cache. *)
Lemma inv_taken c (gens : gmap Bytes Z) :
  inv c →
  inv (set_watch (set_memory (set_search (set_key_values c (km_clear (key_values c))) no_indices)
         (take_keyspace_counts (memory_tracker c)).1 0) gens) ∧ contents (km_clear (key_values c)) = ∅.
Proof.
  intros H. pose proof (take_ok _ (inv_tracker _ H) (inv_total _ H)) as Ht.
  assert (L : limit (take_keyspace_counts (memory_tracker c)).1 = limit (memory_tracker c)) by done.
  destruct (take_keyspace_counts (memory_tracker c)) as [t counts]. destruct Ht as (Hok & Tt & _ & Zt). cbn [fst] in *.
  destruct (clear_ok hash_one (key_values c) (inv_map _ H)) as [Hclr E]. split; [|done].
  split; unfold slots; cbn [key_values memory_tracker memory_usage max_memory set_watch set_memory set_search set_key_values];
    rewrite ?E.
  - done.
  - intros k s Hk. by rewrite lookup_empty in Hk.
  - done.
  - intros cat N1 N2. rewrite Zt, decide_False by done. symmetry. apply map_sum_empty.
  - symmetry. apply map_sum_empty.
  - rewrite Tt. pose proof (inv_total _ H). pose proof (pubsub_le_total c H). unfold pubsub_bytes in *. lia.
  - rewrite L. apply (inv_limit _ H).
Qed.

(** The state of [self] after the payload of [other] went in. *)
Definition installed self other (kv : ShardedKeyMap Slot) (gens : gmap Bytes Z) : C :=
  set_watch
    (set_memory (set_search (set_key_values self kv) (search_index_manager other))
       (install_keyspace_counts (take_keyspace_counts (memory_tracker self)).1
          ((λ x : MemoryCategory, (x, counters (memory_tracker other) x)) <$> KEYSPACE_CATEGORIES))
       (memory_usage other)) gens.

Lemma inv_installed self other (kv : ShardedKeyMap Slot) (gens : gmap Bytes Z) :
  inv self → inv other → pubsub_bytes self + (total (memory_tracker other) - pubsub_bytes other) ≤ u64_max →
  km_ok hash_one kv → contents kv = slots other →
  inv (installed self other kv gens) ∧ pubsub_bytes (installed self other kv gens) = pubsub_bytes self.
Proof.
  intros Hs Ho Hfit Hkv Ekv. unfold installed, pubsub_bytes at 1.
  pose proof (take_ok _ (inv_tracker _ Hs) (inv_total _ Hs)) as Ht.
  assert (L : limit (take_keyspace_counts (memory_tracker self)).1 = limit (memory_tracker self)) by done.
  destruct (take_keyspace_counts (memory_tracker self)) as [t discard]. destruct Ht as (Hok & Tt & _ & Zt). cbn [fst] in *.
  set (vals := _ <$> KEYSPACE_CATEGORIES).
  assert (Sv : foldr Z.add 0 vals.*2 = total (memory_tracker other) - pubsub_bytes other).
  { rewrite (tr_total _ (inv_tracker _ Ho)). unfold pubsub_bytes. cbn. lia. }
  destruct (install_ok t vals Hok) as [Hin Tin]; [|done| |rewrite Tt, Sv; exact Hfit|].
  { intros c Hc. by rewrite Zt, decide_False. }
  { apply Forall_fmap, Forall_fmap, Forall_forall. intros c _. apply (tr_pos _ (inv_tracker _ Ho)). }
  cbn [memory_tracker set_watch set_memory]. unfold vals at 2. rewrite install_counts, decide_True, Zt, decide_True by done.
  split; [|done].
  split; unfold slots; cbn [key_values memory_tracker memory_usage max_memory set_watch set_memory set_search set_key_values];
    rewrite ?Ekv; fold (slots other).
  - done.
  - apply (inv_named _ Ho).
  - done.
  - intros cat N1 N2. unfold vals. rewrite install_counts, decide_False by done. by apply (inv_counts _ Ho).
  - apply (inv_usage _ Ho).
  - rewrite Tin, Tt, Sv. exact Hfit.
  - unfold install_keyspace_counts. cbn. rewrite L. apply (inv_limit _ Hs).
Qed.

(** ** Properties *)

(** Replacing a keyspace.  When the messages of [self] and the data of [other] fit together, the
    swap returns; then [self] has exactly the slots, the search indexes and the byte counts of
    [other] and its own configuration and Pub/Sub count, [other] is empty, the accounting of both is
    right, and every key watched on [self] has the generation of [other] plus one, the other keys
    the generation of [other]. *)
Theorem keyspace_replace self other :
  inv self → inv other → pubsub_bytes self + (total (memory_tracker other) - pubsub_bytes other) ≤ u64_max →
  ∃ self' other', replace_keyspace_from self other = Ret (self', other') ∧ inv self' ∧ inv other' ∧
    slots self' = slots other ∧ slots other' = ∅ ∧ cfg self' = cfg self ∧ cfg other' = cfg other ∧
    search_index_manager self' = search_index_manager other ∧
    category_memory (memory_tracker self') CatSearch = category_memory (memory_tracker other) CatSearch ∧
    pubsub_bytes self' = pubsub_bytes self ∧
    ∀ k, watch_gens self' !! k =
      if decide (is_Some (watch_gens self !! k)) then Some (wrap_u64 (default 0 (watch_gens other !! k) + 1))
      else watch_gens other !! k.
Proof.
  intros Hs Ho Hfit.
  destruct (fill_visited (key_values self) (key_values other) (inv_map _ Hs) (inv_map _ Ho)) as (kv & Ef & Hkv & Ekv).
  unfold replace_keyspace_from, take_keyspace_payload, install_keyspace_payload,
    install_keyspace_payload_retaining_discard, drain_all, mbind, st_bind, exec_bind.
  pose proof (inv_taken other ∅ Ho) as [Hto Eclr].
  pose proof (take_ok _ (inv_tracker _ Ho) (inv_total _ Ho)) as Htk.
  destruct (take_keyspace_counts (memory_tracker other)) as [to counts]. destruct Htk as (_ & _ & -> & _).
  pose proof (inv_installed self other kv) as Hinst. unfold installed in Hinst.
  destruct (take_keyspace_counts (memory_tracker self)) as [ts discard]. cbn [fst p_key_values p_watch p_counts p_mem p_indices] in *.
  rewrite Ef. eexists _, _. split; [done|].
  destruct (Hinst (foldl (λ gens k, <[k := wrap_u64 (default 0 (gens !! k) + 1)]> gens) (watch_gens other)
    (map_to_list (watch_gens self)).*1) Hs Ho Hfit Hkv Ekv) as [H1 H2].
  split; [exact H1|]. split; [exact Hto|]. split; [exact Ekv|]. split; [exact Eclr|]. do 4 (split; [done|]).
  split; [exact H2|]. intros k. cbn [watch_gens set_watch]. rewrite bumped_lookup by apply NoDup_fst_map_to_list.
  apply decide_ext. rewrite list_elem_of_fmap. split.
  - intros ([k' g] & -> & Hin'%elem_of_map_to_list). by exists g.
  - intros [g Hg]. exists (k, g). split; [done|]. by apply elem_of_map_to_list.
Qed.
End swap.

(** ** Witnesses *)

(** A client has watched a key at generation 1; after the swap the generation is 1 again. *)
