(* ===== verification/KeyspaceSim.v ===== *)
(** * The keyspace against an ideal server

    In the keyspace a key whose time is over stays in the map until something touches it.  The ideal
    server has no such keys: it is a finite map from names to values with an expiry, from which keys
    disappear at the moment they expire.  The keyspace answers as the ideal server does, with the
    exceptions [safe] names. *)

From S2P Require Import Prelude RustStd Errors Glob ListType SetType HashType SortedSet StreamType Memory KeyMap Keyspace CacheOps CacheFacts EvictionFacts CacheSpecs CacheScan.
From Stdlib Require Import Lia Sorting.
Local Open Scope Z_scope.

(** ** Sorted listings *)

#[global] Instance bytes_le_trans : Transitive bytes_le.
Proof. intros a b c. apply (cmp_le_trans cmp_bytes). Qed.

#[global] Instance bytes_le_total : Total bytes_le.
Proof.
  intros a b. unfold bytes_le. rewrite (cmp_flip cmp_bytes a b). destruct (cmp_bytes a b); simpl; [left|left|right]; done.
Qed.

#[global] Instance bytes_le_antisymm : AntiSymm (=) bytes_le.
Proof.
  intros a b. unfold bytes_le. rewrite (cmp_flip cmp_bytes a b). destruct (cmp_bytes a b) eqn:E; simpl; try done.
  by apply cmp_eq in E.
Qed.

Lemma merge_sort_perm (l l' : list Bytes) : l ≡ₚ l' → merge_sort bytes_le l = merge_sort bytes_le l'.
Proof.
  intros H. apply (StronglySorted_unique bytes_le); [by apply StronglySorted_merge_sort; apply _..|].
  by rewrite !merge_sort_Permutation.
Qed.

Section sim.
Context {GeoSet Srch : Type} `{!Platform GeoSet, !PlatformLaws GeoSet, !SearchManager Srch, !SearchLaws Srch}.
Abbreviation Slot := (KeySlot GeoSet).
Abbreviation C := (Cache GeoSet Srch).
Abbreviation M := (St C).
Implicit Types (c : C) (k : Bytes) (m : gmap Bytes Slot) (s : Slot) (e : Entry).

Ltac wp_step := first [apply wp_bind | apply wp_try | apply wp_ret | apply wp_asks | apply wp_modify].
Ltac wp_steps := repeat (wp_step; cbv beta).

(** ** The ideal server *)

Inductive AValue : Type :=
| AString (v : Bytes) (fl : Z)
| AContainer (v : KeyValue GeoSet).

Record ASlot : Type := mkASlot { a_expires : option Z; a_value : AValue }.

Definition a_past (t : Clock) (a : ASlot) : bool :=
  match a_expires a with Some exp => exp <=? now t | None => false end.

Implicit Types a : gmap Bytes ASlot.

(** Time passes: keys expire. *)
Definition a_live (t : Clock) a : gmap Bytes ASlot := filter (λ ks, a_past t ks.2 = false) a.

Inductive kcmd : Type :=
| CGet k (do_touch : bool)
| CSet k (v : Bytes) (opts : StoreOptions)
| CDel k
| CExists k
| CType k
| CExpire k (ttl : Z)
| CExpireAt k (at_ms : Z)
| CPersist k
| CTtl k
| CIncr k (delta : Z)
| CDecr k (delta : Z)
| CAppend k (suffix : Bytes)
| CSetrange k (offset : nat) (v : Bytes)
| CRename (src dst : Bytes) (nx : bool)
| CScan (cursor : Z) (pattern : option Str) (count : Z)
| CSweep.

Inductive reply : Type :=
| RValue (v : option (Bytes * Z))
| RBool (b : bool)
| RInt (z : Z)
| RType (kt : KeyType)
| RScan (next : Z) (names : list Bytes)
| RError (e : KError)
| RDone.

(** The value and flags, when the key holds a string. *)
Definition a_string (o : option ASlot) : option (Bytes * Z) :=
  x ← o; match a_value x with AString v fl => Some (v, fl) | AContainer _ => None end.

Definition a_container (o : option ASlot) : bool :=
  match o with Some (mkASlot _ (AContainer _)) => true | _ => false end.

Definition too_large (limit : Z) k (v : Bytes) : bool :=
  limit <? logical_string_entry (zlen k) (zlen v) (entry_struct_size (GeoSet := GeoSet)).

Definition a_set (limit : Z) (t : Clock) k (v : Bytes) (opts : StoreOptions) a : gmap Bytes ASlot * reply :=
  let old := a !! k in
  if too_large limit k v then (a, RError EntryTooLarge)
  else if a_container old then (a, RError WrongType)
  else if nx opts && bool_decide (is_Some old) then (a, RValue (a_string old))
  else if xx opts && negb (bool_decide (is_Some old)) then (a, RValue None)
  else
    let exp := match resolve_expiration t opts with
               | Some exp => Some exp
               | None => if keepttl opts then old ≫= a_expires else None
               end in
    (<[k := mkASlot exp (AString v (so_flags opts))]> a, RValue (if get opts then a_string old else None)).

(** A string gets a new value and keeps its expiry and flags; an absent key is an empty string. *)
Definition a_write k (v : Bytes) a : gmap Bytes ASlot :=
  <[k := mkASlot (a !! k ≫= a_expires) (AString v (default 0 (snd <$> a_string (a !! k))))]> a.

Definition a_incr k (delta : Z) a : gmap Bytes ASlot * reply :=
  if a_container (a !! k) then (a, RError WrongType)
  else
    let old := match a_string (a !! k) with
               | Some (v, _) => s ← from_utf8 v; parse_i64 s
               | None => Some 0
               end in
    match old with
    | Some z => let z := wrap_i64 (z + delta) in (a_write k (dec z) a, RInt z)
    | None => (a, RError not_an_integer)
    end.

Definition a_edit (limit : Z) k (g : Bytes → Bytes) a : gmap Bytes ASlot * reply :=
  if a_container (a !! k) then (a, RError WrongType)
  else
    let v := g (default [] (fst <$> a_string (a !! k))) in
    if too_large limit k v then (a, RError EntryTooLarge) else (a_write k v a, RInt (zlen v)).

Definition a_expire k (exp : option Z) a : gmap Bytes ASlot * reply :=
  match a !! k with
  | None => (a, RBool false)
  | Some x =>
    (match exp with Some exp => <[k := mkASlot (Some exp) (a_value x)]> a | None => base.delete k a end, RBool true)
  end.

Definition a_rename (src dst : Bytes) (nx : bool) a : gmap Bytes ASlot * reply :=
  match a !! src with
  | None => (a, RError no_such_key)
  | Some x =>
    if decide (src = dst) then (a, RBool true)
    else if nx && bool_decide (is_Some (a !! dst)) then (a, RBool false)
    else (<[dst := x]> (base.delete src a), RBool true)
  end.

(** The names that match, sorted. *)
Definition a_names (pattern : option Str) a : list Bytes :=
  merge_sort bytes_le (filter (λ k, key_matches pattern k = true) (map_to_list a).*1).

Definition a_scan (cursor : Z) (pattern : option Str) (count : Z) a : reply :=
  let names := a_names pattern a in
  if zlen names <=? cursor then RScan 0 []
  else RScan (if zlen names <=? cursor + count then 0 else cursor + count)
         (take (Z.to_nat count) (drop (Z.to_nat cursor) names)).

Definition a_type (o : option ASlot) : KeyType :=
  match o with
  | Some (mkASlot _ (AString _ _)) => KString
  | Some (mkASlot _ (AContainer v)) => value_type v
  | None => KNone
  end.

Definition a_step (limit : Z) (t : Clock) (o : kcmd) a : gmap Bytes ASlot * reply :=
  match o with
  | CGet k _ => (a, RValue (a_string (a !! k)))
  | CSet k v opts => a_set limit t k v opts a
  | CDel k => (base.delete k a, RBool (bool_decide (is_Some (a !! k))))
  | CExists k => (a, RBool (bool_decide (is_Some (a !! k))))
  | CType k => (a, RType (a_type (a !! k)))
  | CExpire k ttl => a_expire k (if ttl =? 0 then None else Some (now t + ttl * 1000000)) a
  | CExpireAt k at_ms =>
    a_expire k (if at_ms <=? unix_ms t then None else Some (now t + (at_ms - unix_ms t) * 1000000)) a
  | CPersist k =>
    match a !! k with
    | Some (mkASlot (Some _) v) => (<[k := mkASlot None v]> a, RBool true)
    | _ => (a, RBool false)
    end
  | CTtl k =>
    (a, RInt match a !! k with
             | Some x => match a_expires x with Some exp => remaining_ms t exp | None => -1 end
             | None => -2
             end)
  | CIncr k delta => a_incr k delta a
  | CDecr k delta => a_incr k (wrap_i64 (- delta)) a
  | CAppend k suffix => a_edit limit k (λ v, v ++ suffix) a
  | CSetrange k offset v => a_edit limit k (λ old, overwrite old offset v) a
  | CRename src dst nx => a_rename src dst nx a
  | CScan cursor pattern count => (a, a_scan cursor pattern count a)
  | CSweep => (a, RDone)
  end.

(** ** The keyspace *)

Definition value_of (r : result KError (option Entry)) : reply :=
  match r with Ok o => RValue ((λ e, (e_value e, flags e)) <$> o) | Err e => RError e end.
Definition int_of (r : result KError Z) : reply := match r with Ok z => RInt z | Err e => RError e end.
Definition bool_of (r : result KError bool) : reply := match r with Ok b => RBool b | Err e => RError e end.

Definition k_step (t : Clock) (rounds : nat → Round) (o : kcmd) : M reply :=
  match o with
  | CGet k b => r ← load t k b; mret (value_of (Ok r))
  | CSet k v opts => r ← store t rounds k v opts; mret (value_of r)
  | CDel k => r ← CacheOps.delete k; mret (RBool r)
  | CExists k => r ← exists_ t k; mret (RBool r)
  | CType k => r ← key_type t k; mret (RType r)
  | CExpire k n => r ← expire t k n; mret (RBool r)
  | CExpireAt k n => r ← expire_at_unix_ms t k n; mret (RBool r)
  | CPersist k => r ← persist k; mret (RBool r)
  | CTtl k => r ← ttl t k; mret (RInt r)
  | CIncr k d => r ← incr t k d; mret (int_of r)
  | CDecr k d => r ← decr t k d; mret (int_of r)
  | CAppend k x => r ← append t rounds k x; mret (int_of r)
  | CSetrange k n v => r ← setrange t rounds k n v; mret (int_of r)
  | CRename src dst b => r ← rename t src dst b; mret (bool_of r)
  | CScan cursor p n => '(next, l) ← CacheOps.scan t cursor p n; mret (RScan next l)
  | CSweep => _ ← sweep t; mret RDone
  end.

(** What a client can see of a slot. *)
Definition erase s : ASlot :=
  mkASlot (expires_at s) (match slot_value s with VString e => AString (e_value e) (flags e) | v => AContainer v end).

Definition view (t : Clock) m : gmap Bytes ASlot := erase <$> live t m.

(** Where the keyspace differs from the ideal server: writing a string over a past-due container is
    refused, deleting a past-due key reports it, and PERSIST brings it back.  Compare-and-swap
    tokens are not part of the ideal server, and lengths and cursors stay within 64 bits. *)
Definition stale_container (t : Clock) k m : bool :=
  match m !! k with Some s => is_expired t s && negb (is_string (slot_value s)) | None => false end.

Definition string_len k m : Z :=
  match m !! k with Some (mkKeySlot _ (VString e)) => zlen (e_value e) | _ => 0 end.

Definition safe (t : Clock) (o : kcmd) m : bool :=
  match o with
  | CSet k _ opts => negb (bool_decide (is_Some (so_cas opts))) && negb (stale_container t k m)
  | CIncr k _ | CDecr k _ => negb (stale_container t k m)
  | CDel k | CPersist k => negb (due t k m)
  | CAppend k x => string_len k m + zlen x <=? u64_max
  | CSetrange _ n v => Z.of_nat n + zlen v <=? u64_max
  | CScan cursor _ n => (0 <=? cursor) && (0 <=? n) && (cursor + n <=? u64_max)
  | _ => true
  end.

(** The same, as the lemmas below use it. *)
Definition safe_at (t : Clock) (o : kcmd) m : Prop :=
  match o with
  | CSet k _ opts => so_cas opts = None ∧ (due t k m = true → ∀ s, m !! k = Some s → is_string (slot_value s) = true)
  | CIncr k _ | CDecr k _ => due t k m = true → ∀ s, m !! k = Some s → is_string (slot_value s) = true
  | CDel k | CPersist k => due t k m = false
  | CAppend k x => zlen x ≤ u64_max ∧
      ∀ s e, m !! k = Some s → slot_value s = VString e → zlen (e_value e) + zlen x ≤ u64_max
  | CSetrange _ n v => Z.of_nat n + zlen v ≤ u64_max
  | CScan cursor _ n => 0 ≤ cursor ∧ 0 ≤ n ∧ cursor + n ≤ u64_max
  | _ => True
  end.

Lemma safe_spec t o m : safe t o m = true → safe_at t o m.
Proof.
  assert (St : ∀ k, negb (stale_container t k m) = true →
    due t k m = true → ∀ s, m !! k = Some s → is_string (slot_value s) = true).
  { intros k H Hd s Hs. unfold stale_container, due in *. rewrite Hs in *. rewrite Hd in H. by destruct (is_string _). }
  destruct o; cbn [safe safe_at]; try done.
  - rewrite andb_true_iff, negb_true_iff, bool_decide_eq_false, <- eq_None_not_Some. intros [Hc Hs]. split; [done|by apply St].
  - by intros ?%negb_true_iff.
  - by intros ?%negb_true_iff.
  - apply St.
  - apply St.
  - rewrite Z.leb_le. unfold string_len. intros H. split; [destruct (m !! k) as [[? []]|]; lia|].
    intros [exp v] e Hk Hv. rewrite Hk in H. cbn in Hv. by subst v.
  - by rewrite Z.leb_le.
  - rewrite !andb_true_iff, !Z.leb_le. tauto.
Qed.

(** ** Views *)

Lemma erase_past t s : a_past t (erase s) = is_expired t s.
Proof. done. Qed.

Lemma view_lookup t m k : view t m !! k = erase <$> visible t k m.
Proof. unfold view. by rewrite lookup_fmap, live_lookup. Qed.

Lemma a_live_lookup t a k : a_live t a !! k = x ← a !! k; if a_past t x then None else Some x.
Proof.
  unfold a_live. rewrite map_lookup_filter. destruct (a !! k) as [x|]; [|done]. simpl.
  destruct (a_past t x); [by rewrite option_guard_False|by rewrite option_guard_True].
Qed.

Lemma a_live_view t m : a_live t (view t m) = view t m.
Proof.
  apply map_eq. intros k. rewrite a_live_lookup, view_lookup. unfold visible. destruct (m !! k) as [s|]; [|done].
  simpl. destruct (is_expired t s) eqn:E; [done|]. simpl. by rewrite erase_past, E.
Qed.

Lemma view_insert t k s m : view t (<[k := s]> m) = a_live t (<[k := erase s]> (view t m)).
Proof.
  apply map_eq. intros k'. rewrite a_live_lookup, view_lookup. unfold visible. destruct (decide (k = k')) as [->|].
  - rewrite !lookup_insert_eq. simpl. rewrite erase_past. by destruct (is_expired t s).
  - rewrite !lookup_insert_ne by done. pose proof (f_equal (lookup k') (a_live_view t m)) as E.
    rewrite a_live_lookup in E. rewrite E, view_lookup. done.
Qed.

Lemma view_delete t k m : view t (base.delete k m) = base.delete k (view t m).
Proof.
  apply map_eq. intros k'. rewrite view_lookup. unfold visible. destruct (decide (k = k')) as [->|].
  - by rewrite !lookup_delete_eq.
  - rewrite !lookup_delete_ne by done. by rewrite view_lookup.
Qed.

Lemma view_purge t k m : view t (purge t k m) = view t m.
Proof.
  unfold purge. destruct (due t k m) eqn:E; [|done]. rewrite view_delete. apply delete_id. rewrite view_lookup.
  unfold due, visible in *. destruct (m !! k); [|done]. simpl. by rewrite E.
Qed.

Lemma view_purge_all t l m : view t (purge_all t l m) = view t m.
Proof. revert m. induction l as [|k l IH]; intros m; [done|]. etrans; [apply IH|]. apply view_purge. Qed.

Lemma view_live t m : view t (live t m) = view t m.
Proof.
  apply map_eq. intros k. rewrite !view_lookup. unfold visible at 1. rewrite live_lookup. unfold visible.
  destruct (m !! k) as [s|]; [|done]. simpl. destruct (is_expired t s) eqn:E; [done|]. simpl. by rewrite E.
Qed.

Lemma a_live_delete t k a : a_live t (base.delete k a) = base.delete k (a_live t a).
Proof. apply map_filter_delete. Qed.

(** Looking later shows what is left of an earlier view. *)
Lemma a_past_later t t' (x : ASlot) : now t ≤ now t' → a_past t x = true → a_past t' x = true.
Proof. unfold a_past. destruct (a_expires x); [|done]. rewrite !Z.leb_le. lia. Qed.

Lemma a_live_later t t' a : now t ≤ now t' → a_live t' (a_live t a) = a_live t' a.
Proof.
  intros Hle. apply map_eq. intros k. rewrite !a_live_lookup. destruct (a !! k) as [x|]; [|done]. simpl.
  destruct (a_past t x) eqn:E; [|done]. by rewrite (a_past_later t t' x Hle E).
Qed.

Lemma view_later t t' m : now t ≤ now t' → view t' m = a_live t' (view t m).
Proof.
  intros Hle. apply map_eq. intros k. rewrite a_live_lookup, !view_lookup. unfold visible.
  destruct (m !! k) as [s|]; [|done]. simpl. destruct (is_expired t s) eqn:E; simpl.
  - rewrite <- erase_past in E. apply (a_past_later t t' _ Hle) in E. rewrite erase_past in E. by rewrite E.
  - rewrite erase_past. by destruct (is_expired t' s).
Qed.

(** ** One command on the slots *)

(** What a read-modify-write of a string finds: a live string, a live container, or nothing. *)
Inductive found (t : Clock) k m : Type :=
| found_string exp e : m !! k = Some (mkKeySlot exp (VString e)) → slot_ttl_live t exp = true →
    view t m !! k = Some (mkASlot exp (AString (e_value e) (flags e))) → found t k m
| found_container s : m !! k = Some s → is_string (slot_value s) = false →
    view t m !! k = Some (mkASlot (expires_at s) (AContainer (slot_value s))) → found t k m
| found_stale exp e : m !! k = Some (mkKeySlot exp (VString e)) → slot_ttl_live t exp = false →
    view t m !! k = None → found t k m
| found_none : m !! k = None → view t m !! k = None → found t k m.

Lemma find_slot t k m :
  (due t k m = true → ∀ s, m !! k = Some s → is_string (slot_value s) = true) → found t k m.
Proof.
  intros Hs. pose proof (view_lookup t m k) as V. unfold visible, due in *. destruct (m !! k) as [[exp v]|] eqn:E.
  - cbn [mbind option_bind] in V. destruct (is_expired t (mkKeySlot exp v)) eqn:Ex.
    + specialize (Hs eq_refl _ eq_refl). destruct v as [e| | | | | |]; try done.
      apply (found_stale t k m exp e E); [|done]. unfold is_expired, slot_ttl_live in *. cbn in *. destruct exp; [|done].
      apply Z.ltb_ge. by apply Z.leb_le.
    + assert (L : slot_ttl_live t exp = true).
      { unfold is_expired, slot_ttl_live in *. cbn in *. destruct exp; [|done]. apply Z.ltb_lt. by apply Z.leb_gt. }
      destruct v as [e| | | | | |]; [by apply (found_string t k m exp e E)|by eapply found_container..].
  - by apply found_none.
Qed.

Lemma a_live_insert_view t k s m : a_live t (<[k := erase s]> (view t m)) = view t (<[k := s]> m).
Proof. by rewrite view_insert. Qed.

Ltac act := cbn [fst snd string_map_action apply_action andb negb value_of int_of a_container a_value].

Lemma sim_store limit t k v opts token m :
  safe_at t (CSet k v opts) m →
  view t (store_spec t limit k v opts token m).1 = a_live t (a_set limit t k v opts (view t m)).1 ∧
  value_of (store_spec t limit k v opts token m).2 = (a_set limit t k v opts (view t m)).2.
Proof.
  intros [Hcas Hs]. unfold store_spec, a_set, too_large. destruct (limit <? _); [act; by rewrite a_live_view|]. cbv zeta.
  assert (Dn : ∀ A, bool_decide (is_Some (@None A)) = false) by (intros A; by apply bool_decide_false; intros []).
  assert (Ds : ∀ A (x : A), bool_decide (is_Some (Some x)) = true) by (intros A x; by apply bool_decide_true).
  destruct (find_slot t k m Hs) as [exp e Ek L V|s Ek Hc V|exp e Ek L V|Ek V]; unfold do_string; rewrite Ek, V;
    unfold store_action; rewrite ?L, ?Hcas, ?Dn, ?Ds.
  - destruct (nx opts), (xx opts); act; rewrite ?a_live_view; try done;
      (rewrite view_insert; split; [|by destruct (get opts)]); unfold erase; act;
      destruct (resolve_expiration t opts); rewrite ?Dn, ?Ds, ?andb_true_r; done.
  - destruct s as [exp x]. destruct x; act; by rewrite ?a_live_view.
  - destruct (nx opts), (xx opts); act; rewrite ?a_live_view; try done;
      (rewrite view_insert; split; [|by destruct (get opts)]); unfold erase; act;
      destruct (resolve_expiration t opts); rewrite ?andb_false_r; act; by destruct (keepttl opts).
  - destruct (slot_ttl_live t None), (nx opts), (xx opts); act; rewrite ?a_live_view; try done;
      (rewrite view_insert; split; [|by destruct (get opts)]); unfold erase; act;
      destruct (resolve_expiration t opts); destruct (keepttl opts); done.
Qed.

Lemma sim_incr t k delta token m :
  (due t k m = true → ∀ s, m !! k = Some s → is_string (slot_value s) = true) →
  let r := rmw_spec (incr_action (GeoSet := GeoSet) t k delta) not_an_integer k token m in
  view t r.1 = a_live t (a_incr k delta (view t m)).1 ∧ int_of r.2 = (a_incr k delta (view t m)).2.
Proof.
  intros Hs. unfold rmw_spec, a_incr, a_write. cbv zeta.
  destruct (find_slot t k m Hs) as [exp e Ek L V|s Ek Hc V|exp e Ek L V|Ek V]; unfold do_string; rewrite Ek, V;
    unfold incr_action; rewrite ?L.
  - act. cbn [a_string mbind option_bind a_value].
    destruct (from_utf8 (e_value e) ≫= parse_i64) as [z|]; act; [|by rewrite a_live_view].
    by rewrite view_insert.
  - destruct s as [exp x]. destruct x; act; by rewrite ?a_live_view.
  - act. by rewrite view_insert.
  - act. by rewrite view_insert.
Qed.

Lemma sim_load t f d k b m :
  view t (load_spec t f d k b m).1 = view t m ∧
  value_of (Ok (load_spec t f d k b m).2) = RValue (a_string (view t m !! k)).
Proof.
  unfold load_spec. pose proof (view_lookup t m k) as V. unfold visible in V.
  destruct (m !! k) as [s|] eqn:Ek; [|by rewrite V]. cbn [mbind option_bind] in V.
  destruct (slot_value s) as [e| | | | | |] eqn:Ev; [|split; [done|]; rewrite V;
    destruct (is_expired t s); [done|]; cbn [fmap option_fmap option_map]; unfold erase; by rewrite Ev..].
  destruct (is_expired t s) eqn:Ex; cbn [fst snd]; [by rewrite view_delete, delete_id, V|].
  assert (Ee : erase s = mkASlot (expires_at s) (AString (e_value e) (flags e))) by (unfold erase; by rewrite Ev).
  cbn [fmap option_fmap option_map] in V. rewrite Ee in V. destruct b; cbn [fst snd]; [|by rewrite V]. rewrite V.
  split; [|done]. by rewrite view_insert, insert_id, a_live_view.
Qed.

Lemma due_purge t k m : due t k (purge t k m) = false.
Proof.
  unfold due. rewrite purge_lookup. destruct (m !! k) as [s|]; [|done]. by destruct (is_expired t s) eqn:E; rewrite ?E.
Qed.

(** [append] and [setrange]: the early check is the one of the write. *)
Lemma sim_edit limit t k g new_len token m :
  due t k m = false →
  (∀ s e, m !! k = Some s → slot_value s = VString e → new_len (zlen (e_value e)) = zlen (g (e_value e))) →
  new_len 0 = zlen (g []) →
  match precheck t limit new_len k m with
  | Ok _ =>
    let r := write_spec t limit g k token m in
    view t r.1 = a_live t (a_edit limit k g (view t m)).1 ∧ int_of r.2 = (a_edit limit k g (view t m)).2
  | Err e => a_edit limit k g (view t m) = (view t m, RError e)
  end.
Proof.
  intros Hd Hlen Hlen0. unfold precheck, string_or_absent, write_spec, rmw_spec, a_edit, a_write, too_large.
  destruct (find_slot t k m) as [exp e Ek L V|s Ek Hc V|exp e Ek L V|Ek V]; [congruence|..]; unfold do_string;
    rewrite Ek, V; unfold visible; rewrite Ek; unfold due in Hd; rewrite Ek in Hd; cbn [mbind option_bind]; rewrite ?Hd;
    cbn [mbind option_bind slot_value is_string fmap option_fmap option_map from_option fst snd a_string a_value a_container id].
  - rewrite (Hlen _ _ Ek eq_refl). unfold rmw_old. rewrite L. unfold rmw_write.
    destruct (limit <? _); act; [done|]. by rewrite view_insert.
  - rewrite Hc. done.
  - unfold is_expired, slot_ttl_live in *. cbn in Hd. destruct exp; [|done]. apply Z.leb_gt in Hd. apply Z.ltb_ge in L. lia.
  - cbn [length]. change (Z.of_nat 0) with 0. rewrite Hlen0. unfold rmw_old, rmw_write.
    destruct (limit <? _); act; [done|]. by rewrite view_insert.
Qed.

Lemma sim_expire t k n m :
  view t (expire_spec t k n m).1 = a_live t (a_step 0 t (CExpire k n) (view t m)).1 ∧
  RBool (expire_spec t k n m).2 = (a_step 0 t (CExpire k n) (view t m)).2.
Proof.
  unfold expire_spec. cbn [a_step]. unfold a_expire. rewrite view_lookup.
  destruct (visible t k m) as [s|] eqn:E; cbn [fmap option_fmap option_map].
  - destruct (n =? 0); act; [by rewrite a_live_delete, a_live_view, view_delete|].
    by rewrite view_insert.
  - act. by rewrite view_purge, a_live_view.
Qed.

Lemma sim_expire_at t k n m :
  view t (expire_at_spec t k n m).1 = a_live t (a_step 0 t (CExpireAt k n) (view t m)).1 ∧
  RBool (expire_at_spec t k n m).2 = (a_step 0 t (CExpireAt k n) (view t m)).2.
Proof.
  unfold expire_at_spec. cbn [a_step]. unfold a_expire. rewrite view_lookup.
  destruct (visible t k m) as [s|] eqn:E; cbn [fmap option_fmap option_map].
  - destruct (Z.leb_spec n (unix_ms t)) as [|Hlt]; act.
    + by rewrite a_live_delete, a_live_view, view_delete.
    + unfold expire_spec. rewrite E. destruct (Z.eqb_spec (n - unix_ms t) 0); [lia|]. act. by rewrite view_insert.
  - act. by rewrite view_purge, a_live_view.
Qed.

Lemma not_due_lookup t k m : due t k m = false → view t m !! k = erase <$> m !! k.
Proof. intros H. rewrite view_lookup. unfold due, visible in *. destruct (m !! k); [|done]. simpl. by rewrite H. Qed.

Lemma sim_persist t k m :
  due t k m = false →
  view t (persist_spec k m).1 = a_live t (a_step 0 t (CPersist k) (view t m)).1 ∧
  RBool (persist_spec k m).2 = (a_step 0 t (CPersist k) (view t m)).2.
Proof.
  intros H. unfold persist_spec. cbn [a_step]. rewrite not_due_lookup by done. destruct (m !! k) as [[[exp|] v]|];
    cbn [expires_at fmap option_fmap option_map erase slot_value].
  - rewrite decide_True by done. act. by rewrite view_insert.
  - rewrite decide_False by (by intros []). act. by rewrite a_live_view.
  - act. by rewrite a_live_view.
Qed.

Lemma sim_rename t src dst b m :
  view t (rename_spec t src dst b m).1 = a_live t (a_rename src dst b (view t m)).1 ∧
  bool_of (rename_spec t src dst b m).2 = (a_rename src dst b (view t m)).2.
Proof.
  unfold rename_spec, a_rename. rewrite !view_lookup. destruct (visible t src m) as [s|] eqn:E;
    cbn [fmap option_fmap option_map]; [|act; by rewrite view_purge, a_live_view].
  case_decide as Hd; [act; by rewrite a_live_view|].
  assert (Eb : bool_decide (is_Some (erase <$> visible t dst m)) = bool_decide (is_Some (visible t dst m))).
  { apply bool_decide_ext. by rewrite fmap_is_Some. }
  rewrite Eb. destruct (b && _); act; [by rewrite a_live_view|]. split; [|done]. unfold moved. rewrite view_insert.
  assert (Er : erase (renamed dst s) = erase s) by (destruct s as [exp v]; by destruct v).
  rewrite Er, !view_delete. f_equal. apply map_eq. intros k. destruct (decide (dst = k)) as [->|].
  - by rewrite !lookup_insert_eq.
  - rewrite !lookup_insert_ne by done. destruct (decide (src = k)) as [->|]; [by rewrite !lookup_delete_eq|].
    by rewrite !lookup_delete_ne by done.
Qed.

Lemma names_listed t pat m l : l ≡ₚ listed t pat m → merge_sort bytes_le l = a_names pat (view t m).
Proof.
  intros H. apply merge_sort_perm. rewrite H. unfold listed, view. rewrite map_to_list_fmap, <- list_fmap_compose.
  by apply reflexive_eq.
Qed.

Lemma wp_scan t cursor pat count c :
  inv c → safe_at t (CScan cursor pat count) (slots c) →
  wp (CacheOps.scan t cursor pat count) c (λ c' r,
    (∃ l, step c c' (purge_all t l (slots c))) ∧ RScan r.1 r.2 = a_scan cursor pat count (view t (slots c))).
Proof.
  intros H (Hc & Hn & Hb). unfold CacheOps.scan. apply wp_bind. eapply wp_mono; [by apply wp_keys|].
  intros c1 l [Hl Hst]. rewrite (names_listed t pat _ l Hl). unfold a_scan. set (names := a_names pat _). clearbody names.
  cbv zeta. destruct (Z.leb_spec (zlen names) cursor); [by apply wp_ret|]. rewrite wrap_u64_id by lia.
  destruct (Z.ltb_spec (Z.min (cursor + count) (zlen names)) cursor); [lia|]. apply wp_ret. split; [done|]. cbn [fst snd].
  destruct (Z.leb_spec (zlen names) (cursor + count)).
  - rewrite Z.min_r by lia. rewrite Z.leb_refl. f_equal. rewrite !take_ge; [done|rewrite length_drop; lia..].
  - rewrite Z.min_l by lia. destruct (Z.leb_spec (zlen names) (cursor + count)); [lia|]. f_equal. f_equal. lia.
Qed.

(** ** One command *)

(** After a command the keyspace shows what the ideal server holds, and answered the same. *)
Definition matches (t : Clock) c (ar : gmap Bytes ASlot * reply) c' (r : reply) : Prop :=
  (fits c' → inv c' ∧ cfg c' = cfg c) ∧ view t (slots c') = a_live t ar.1 ∧ r = ar.2.

Lemma matches_lands t c ar c' m r : lands c c' m → view t m = a_live t ar.1 → r = ar.2 → matches t c ar c' r.
Proof. intros [<- Hst] V R. split; [|done]. intros Hf. by destruct (Hst Hf). Qed.

Lemma matches_read t c c' m r : step c c' m → view t m = view t (slots c) → matches t c (view t (slots c), r) c' r.
Proof. intros H V. eapply matches_lands; [by apply step_lands|act; by rewrite a_live_view|done]. Qed.

Lemma wp_reply {A} (p : M A) (f : A → reply) c (Q : C → reply → Prop) :
  wp p c (λ c' r, Q c' (f r)) → wp (r ← p; mret (f r)) c Q.
Proof. intros H. apply wp_bind. eapply wp_mono; [exact H|]. auto. Qed.

Lemma written_unlimited {A} c m0 (spec : Z → gmap Bytes Slot → gmap Bytes Slot * result KError A) c' r :
  max_memory c = 0 → written c m0 spec c' r → ∃ token, r = (spec token m0).2 ∧ lands c c' (spec token m0).1.
Proof. intros Hm (m1 & _ & Hun & [(_ & ? & _)|H]); [done|]. by rewrite (Hun Hm) in H. Qed.

Lemma wp_k_incr (st : Stat) t k delta c :
  inv c → (due t k (slots c) = true → ∀ s, slots c !! k = Some s → is_string (slot_value s) = true) →
  wp (_ ← stats_incr st; incr_decr t k delta) c
    (λ c' r, matches t c (a_incr k delta (view t (slots c))) c' (int_of r)).
Proof.
  intros H Hs. apply wp_bind. eapply wp_mono; [by apply wp_stats|]. intros c1 [] H1.
  eapply wp_mono; [apply wp_incr_decr, H1|]. intros c2 r (token & -> & Hl). rewrite (st_slots _ _ _ H1) in *.
  destruct (sim_incr t k delta token (slots c) Hs) as [V R].
  eapply matches_lands; [by eapply lands_trans|exact V|exact R].
Qed.

Lemma k_edit t k g new_len c c' r :
  max_memory c = 0 →
  (∀ s e, slots c !! k = Some s → slot_value s = VString e → new_len (zlen (e_value e)) = zlen (g (e_value e))) →
  new_len 0 = zlen (g []) →
  checked_written t c (purge t k (slots c)) g new_len k c' r →
  matches t c (a_edit (max_entry_size c) k g (view t (slots c))) c' (int_of r).
Proof.
  intros Hm Hlen Hlen0. unfold checked_written. rewrite <- (view_purge t k (slots c)).
  assert (Hl : ∀ s e, purge t k (slots c) !! k = Some s → slot_value s = VString e → new_len (zlen (e_value e)) = zlen (g (e_value e))).
  { intros s e Hk. apply Hlen. rewrite purge_visible in Hk. by destruct (purge_live _ _ _ _ Hk). }
  pose proof (λ token, sim_edit (max_entry_size c) t k g new_len token _ (due_purge t k (slots c)) Hl Hlen0) as S.
  destruct (precheck _ _ _ _ _) as [[]|e].
  - intros (token & -> & Hw)%written_unlimited; [|done]. destruct (S token) as [V R]. by eapply matches_lands.
  - intros [-> Hst]. rewrite (S 0). eapply matches_lands; [by apply step_lands|act; by rewrite a_live_view|done].
Qed.

Lemma overwrite_length old offset v : zlen (overwrite old offset v) = Z.max (Z.of_nat offset + zlen v) (zlen old).
Proof.
  unfold overwrite. case_decide as Hv.
  - subst v. rewrite length_app, length_replicate. simpl. lia.
  - rewrite !length_app, length_take, length_drop, length_app, length_replicate. lia.
Qed.

Lemma k_step_matches t rounds o c :
  inv c → max_memory c = 0 → (∀ i, round_ok (rounds i)) → safe_at t o (slots c) →
  wp (k_step t rounds o) c (matches t c (a_step (max_entry_size c) t o (view t (slots c)))).
Proof.
  intros H Hm Hr Hs. destruct o; cbn [k_step a_step]; try apply wp_reply.
  - eapply wp_mono; [by apply wp_load|]. intros c' r [Hst ->].
    destruct (sim_load t (lfu_log_factor c) (lfu_decay_time c) k do_touch (slots c)) as [V R].
    rewrite R. eapply matches_read; [exact Hst|exact V].
  - eapply wp_mono; [by apply wp_store|]. intros c' r (token & -> & Hl)%written_unlimited; [|done].
    destruct (sim_store (max_entry_size c) t k v opts token (slots c) Hs) as [V R]. by eapply matches_lands.
  - eapply wp_mono; [by apply wp_delete|]. intros c' r [Hst ->]. cbn [safe_at] in Hs.
    eapply matches_lands; [by apply step_lands|act; by rewrite a_live_delete, a_live_view, view_delete|].
    act. f_equal. rewrite not_due_lookup by done. apply bool_decide_ext. by rewrite fmap_is_Some.
  - eapply wp_mono; [by apply wp_exists|]. intros c' r [Hst ->]. rewrite view_lookup.
    assert (Eb : bool_decide (is_Some (erase <$> visible t k (slots c))) = bool_decide (is_Some (visible t k (slots c)))).
    { apply bool_decide_ext. by rewrite fmap_is_Some. }
    rewrite Eb. eapply matches_read; [exact Hst|apply view_purge].
  - eapply wp_mono; [by apply wp_key_type|]. intros c' r [Hst ->]. rewrite view_lookup.
    assert (Et : a_type (erase <$> visible t k (slots c)) = type_at t k (slots c)).
    { unfold type_at. destruct (visible t k (slots c)) as [[exp v]|]; [|done]. by destruct v. }
    rewrite Et. eapply matches_read; [exact Hst|apply view_purge].
  - eapply wp_mono; [by apply wp_expire|]. intros c' r [Hst ->]. destruct (sim_expire t k ttl (slots c)) as [V R].
    eapply matches_lands; [by apply step_lands|exact V|exact R].
  - eapply wp_mono; [by apply wp_expire_at|]. intros c' r [Hst ->]. destruct (sim_expire_at t k at_ms (slots c)) as [V R].
    eapply matches_lands; [by apply step_lands|exact V|exact R].
  - eapply wp_mono; [by apply wp_persist|]. intros c' r [Hst ->]. destruct (sim_persist t k (slots c) Hs) as [V R].
    eapply matches_lands; [by apply step_lands|exact V|exact R].
  - eapply wp_mono; [by apply wp_ttl|]. intros c' r [Hst ->]. rewrite view_lookup. unfold ttl_spec.
    destruct (visible t k (slots c)) as [s|]; (eapply matches_read; [exact Hst|apply view_purge]).
  - by apply wp_k_incr.
  - by apply wp_k_incr.
  - eapply wp_mono; [by apply wp_append|]. intros c' r Hc. eapply k_edit; [done| | |exact Hc].
    + intros s e Hk Hv. destruct Hs as [_ Hs]. specialize (Hs s e Hk Hv). rewrite wrap_u64_id, length_app; lia.
    + destruct Hs as [Hs _]. cbv beta. rewrite wrap_u64_id; cbn [app]; lia.
  - eapply wp_mono; [by apply wp_setrange|]. intros c' r Hc. cbn [safe_at] in Hs. eapply k_edit; [done| | |exact Hc].
    + intros s e Hk Hv. cbv beta. by rewrite overwrite_length, wrap_u64_id by lia.
    + cbv beta. by rewrite overwrite_length, wrap_u64_id by lia.
  - eapply wp_mono; [by apply wp_rename|]. intros c' r [Hl ->]. destruct (sim_rename t src dst nx (slots c)) as [V R].
    by eapply matches_lands.
  - apply wp_bind. eapply wp_mono; [by apply wp_scan|]. intros c' [n l] [[l' Hst] E]. apply wp_ret. cbn [fst snd] in E.
    rewrite E. eapply matches_read; [exact Hst|apply view_purge_all].
  - eapply wp_mono; [by apply wp_sweep|]. intros c' r [Hst _].
    eapply matches_read; [exact Hst|apply view_live].
Qed.

(** ** Programs *)

Fixpoint k_run (prog : list (Clock * (nat → Round) * kcmd)) : M (list reply) :=
  match prog with
  | [] => mret []
  | (t, rounds, o) :: prog => r ← k_step t rounds o; rs ← k_run prog; mret (r :: rs)
  end.

Fixpoint a_run (limit : Z) (prog : list (Clock * (nat → Round) * kcmd)) a : gmap Bytes ASlot * list reply :=
  match prog with
  | [] => (a, [])
  | (t, _, o) :: prog =>
    let '(a, r) := a_step limit t o (a_live t a) in
    let '(a, rs) := a_run limit prog a in (a, r :: rs)
  end.

(** The clocks do not go back, and the shuffles are permutations. *)
Fixpoint timed (n : Z) (prog : list (Clock * (nat → Round) * kcmd)) : Prop :=
  match prog with
  | [] => True
  | (t, rounds, _) :: prog => n ≤ now t ∧ (∀ i, round_ok (rounds i)) ∧ timed (now t) prog
  end.

Definition end_time (n : Z) (prog : list (Clock * (nat → Round) * kcmd)) : Z := foldl (λ _ x, now x.1.1) n prog.

Fixpoint run_safe (prog : list (Clock * (nat → Round) * kcmd)) c : bool :=
  match prog with
  | [] => true
  | (t, rounds, o) :: prog =>
    safe t o (slots c) &&
    match k_step t rounds o c with
    | Ret (c', _) => (other c' + bytes (slots c') <=? u64_max) && run_safe prog c'
    | Panic => true
    end
  end.

(** From the time [n] on the keyspace shows what the ideal server holds. *)
Definition shows (n : Z) c a : Prop := ∀ t, n ≤ now t → view t (slots c) = a_live t a.

Lemma k_run_matches prog n c a :
  inv c → max_memory c = 0 → timed n prog → run_safe prog c = true → shows n c a →
  ∃ c' rs, k_run prog c = Ret (c', rs) ∧ inv c' ∧
    rs = (a_run (max_entry_size c) prog a).2 ∧ shows (end_time n prog) c' (a_run (max_entry_size c) prog a).1.
Proof.
  revert n c a. induction prog as [|[[t rounds] o] prog IH]; intros n c a H Hm Ht Hs Hsh.
  { exists c, []. done. }
  destruct Ht as (Hn & Hr & Ht). apply andb_true_iff in Hs as [Hs%safe_spec Hrest].
  destruct (wp_elim _ _ _ (k_step_matches t rounds o c H Hm Hr Hs)) as (c1 & r & E & Hinv & V & R).
  rewrite E in Hrest. apply andb_true_iff in Hrest as [Hf%Z.leb_le Hrest]. destruct (Hinv Hf) as [H1 Hcfg].
  assert (Hcm : max_memory c1 = max_memory c ∧ max_entry_size c1 = max_entry_size c) by (unfold cfg in Hcfg; split; congruence).
  destruct Hcm as [Em Ee]. rewrite (Hsh t Hn) in V, R. cbn [k_run a_run].
  destruct (a_step (max_entry_size c) t o (a_live t a)) as [a1 r1]. cbn [fst snd] in V, R. subst r1.
  destruct (IH (now t) c1 a1) as (c' & rs & E' & H' & Rs & Hsh'); [done|congruence|done|done| |].
  { intros t' Ht'. by rewrite (view_later t t') by done; rewrite V, a_live_later. }
  rewrite Ee in *. exists c', (r :: rs). unfold mbind, st_bind. rewrite E. unfold exec_bind. rewrite E'.
  destruct (a_run (max_entry_size c) prog a1) as [a2 rs2]. cbn [fst snd] in *. subst rs2.
  done.
Qed.

(** C2. Lazy expiry is invisible.  Without a memory limit, run any program of reads, writes, counters,
    appends, renames, expiry changes, scans and sweeps on the keyspace, at clocks that do not go back
    and outside the exceptions named by [safe], with sizes that fit 64 bits.  Every call returns, every
    reply is the one of a server from which keys vanish at the moment they expire, and from
    the last clock on the keyspace shows exactly what that server holds. *)
Theorem keyspace_simulation prog n c :
  inv c → max_memory c = 0 → timed n prog → run_safe prog c = true →
  ∃ c' rs, k_run prog c = Ret (c', rs) ∧ inv c' ∧
    rs = (a_run (max_entry_size c) prog (erase <$> slots c)).2 ∧
    ∀ t, end_time n prog ≤ now t → view t (slots c') = a_live t (a_run (max_entry_size c) prog (erase <$> slots c)).1.
Proof.
  intros H Hm Ht Hs. destruct (k_run_matches prog n c (erase <$> slots c) H Hm Ht Hs) as (c' & rs & E & H' & R & S).
  - intros t _. apply map_eq. intros k. rewrite view_lookup, a_live_lookup, lookup_fmap. unfold visible.
    destruct (slots c !! k) as [s|]; [|done]. cbn [mbind option_bind fmap option_fmap option_map]. rewrite erase_past.
    by destruct (is_expired t s).
  - by exists c', rs.
Qed.

(** ** Iterating SCAN *)

(** A client that follows the cursors until it is back at 0. *)
Fixpoint scan_all (fuel : nat) (t : Clock) (pattern : option Str) (count cursor : Z) : M (option (list Bytes)) :=
  match fuel with
  | O => mret None
  | S fuel =>
    '(next, l) ← CacheOps.scan t cursor pattern count;
    if next =? 0 then mret (Some l)
    else rest ← scan_all fuel t pattern count next; mret ((l ++.) <$> rest)
  end.

Lemma wp_scan_all fuel t pat count cursor c :
  let names := a_names pat (view t (slots c)) in
  inv c → 0 < count → 0 ≤ cursor → zlen names + count ≤ u64_max → cursor ≤ zlen names →
  zlen names - cursor < Z.of_nat fuel →
  wp (scan_all fuel t pat count cursor) c (λ c' r, inv c' ∧ r = Some (drop (Z.to_nat cursor) names)).
Proof.
  intros names. revert cursor c names. induction fuel as [|fuel IH]; intros cursor c names H Hp H0 Hb Hc Hf; [lia|].
  cbn [scan_all]. apply wp_bind. eapply wp_mono; [apply wp_scan; [done|cbn [safe_at]; lia]|].
  intros c1 [next l] [[l' Hst] E]. cbn [fst snd] in E. unfold a_scan in E. fold names in E. cbv zeta in E.
  destruct (Z.leb_spec (zlen names) cursor); [|destruct (Z.leb_spec (zlen names) (cursor + count))];
    injection E as -> ->; cbn [Z.eqb].
  - apply wp_ret. split; [apply Hst|]. by rewrite drop_ge by lia.
  - apply wp_ret. split; [apply Hst|]. f_equal. apply take_ge. rewrite length_drop. lia.
  - destruct (Z.eqb_spec (cursor + count) 0); [lia|].
    assert (V : view t (slots c1) = view t (slots c)) by (rewrite (st_slots _ _ _ Hst); apply view_purge_all).
    apply wp_bind. eapply wp_mono; [apply IH; rewrite ?V; fold names; try lia; apply Hst|].
    intros c2 r [Hi ->]. apply wp_ret. split; [done|]. rewrite V. fold names. cbn [fmap option_fmap option_map]. f_equal.
    rewrite Z2Nat.inj_add, <- drop_drop by lia. apply take_drop.
Qed.

Lemma elem_of_a_names pat t m k : k ∈ a_names pat (view t m) ↔ is_Some (visible t k m) ∧ key_matches pat k = true.
Proof.
  unfold a_names. rewrite merge_sort_Permutation, list_elem_of_filter, list_elem_of_fmap, <- (fmap_is_Some erase), <- view_lookup.
  split.
  - intros (Hm & [k' x] & -> & Hx%elem_of_map_to_list). split; [by exists x|done].
  - intros [[x Hx] Hm]. split; [done|]. exists (k, x). split; [done|]. by apply elem_of_map_to_list.
Qed.

Lemma NoDup_a_names pat a : NoDup (a_names pat a).
Proof. unfold a_names. rewrite merge_sort_Permutation. apply NoDup_filter, NoDup_fst_map_to_list. Qed.

Lemma length_a_names pat t m : (length (a_names pat (view t m)) ≤ size m)%nat.
Proof.
  unfold a_names. rewrite merge_sort_Permutation. etrans; [apply length_filter|]. rewrite length_fmap, length_map_to_list.
  unfold view. rewrite map_size_fmap. apply map_subseteq_size, map_filter_subseteq.
Qed.

End sim.

(** ** Witness *)

(** A clock at [ms] milliseconds; rounds that pick and shuffle nothing. *)
Definition clock_at (ms : Z) : Clock := mkClock (ms * 1000000) ms (f64_of_Z 0).
Definition no_rounds : nat → Round := λ _, mkRound [] 0 id id 0.
Definition plain : StoreOptions := mkStoreOptions false false false None None 0 false None.
Definition for_ms (ms : Z) : StoreOptions := mkStoreOptions false false false (Some ms) None 0 false None.

(** A counter with a lifetime of ten milliseconds is read, incremented, and gone afterwards. *)
Lemma keyspace_simulation_witness :
  let prog := (λ '(t, o), (clock_at t, no_rounds, o)) <$>
    [(0, CSet (bs "a") (bs "5") (for_ms 10)); (1, CSet (bs "b") (bs "x") plain); (2, CIncr (bs "a") 3);
     (3, CScan 0 None 10); (11, CGet (bs "a") true); (12, CScan 0 None 10); (13, CAppend (bs "a") (bs "!"));
     (14, CRename (bs "b") (bs "a") false); (15, CGet (bs "a") true)] in
  ∃ c rs, @k_run unit unit byte_platform _ prog (new_with_sweep_loadfactor 4 0 4096) = Ret (c, rs) ∧
    rs = [RValue None; RValue None; RInt 8; RScan 0 [bs "a"; bs "b"]; RValue None; RScan 0 [bs "b"]; RInt 1;
          RBool true; RValue (Some (bs "x", 0))].
Proof.
  intros prog.
  destruct (@keyspace_simulation unit unit byte_platform byte_platform_laws _ _ prog 0 (new_with_sweep_loadfactor 4 0 4096))
    as (c & rs & E & _ & R & _).
  - apply (inv_new (Platform0 := byte_platform)).
  - reflexivity.
  - assert (Hr : ∀ i, round_ok (no_rounds i)) by (intros i l; by split). cbn. repeat (split; [lia|split; [exact Hr|]]). done.
  - vm_compute. reflexivity.
  - exists c, rs. split; [exact E|]. rewrite R. vm_compute. reflexivity.
Defined.

(** Three keys, one of them past due, one at a time. *)
Definition three_keys : list (Clock * (nat → Round) * @kcmd) :=
  (λ '(t, o), (clock_at t, no_rounds, o)) <$>
    [(0, CSet (bs "b") (bs "1") plain); (0, CSet (bs "a") (bs "2") plain); (0, CSet (bs "c") (bs "3") (for_ms 5))].

Definition ran (prog : list (Clock * (nat → Round) * @kcmd)) : Cache unit unit :=
  match @k_run unit unit byte_platform _ prog (new_with_sweep_loadfactor 4 0 4096) with
  | Ret (c, _) => c
  | Panic => new_with_sweep_loadfactor 4 0 4096
  end.

Lemma no_rounds_ok i : round_ok (no_rounds i).
Proof. by intros l. Qed.

Lemma ran_inv prog n :
  timed n prog → @run_safe unit unit byte_platform _ prog (new_with_sweep_loadfactor 4 0 4096) = true →
  @inv unit unit byte_platform (ran prog).
Proof.
  intros Ht Hs.
  destruct (@k_run_matches unit unit byte_platform byte_platform_laws _ _ prog n (new_with_sweep_loadfactor 4 0 4096) ∅)
    as (c & rs & E & H & _).
  - apply (inv_new (Platform0 := byte_platform)).
  - reflexivity.
  - exact Ht.
  - exact Hs.
  - intros t _. apply map_eq. intros k. rewrite (view_lookup (GeoSet := unit)), (a_live_lookup (GeoSet := unit)). done.
  - unfold ran. by rewrite E.
Qed.

