(* ===== verification/TypedKeys.v ===== *)
(** * Typed keys ([cache/hashes.rs], [lists.rs], [sets.rs], [sorted_sets.rs], [geo_sets.rs], [streams.rs])

    How containers get into the keyspace and change there.  The six modules repeat one text with
    another variant of [KeyValue] and another memory category; here they are one definition each,
    over the kind of container.

    A handle ([Arc<RwLock<_>>]) is shared with the map, so a write through it is a write to the slot.
    The size of a container is taken to be a function of its contents. *)

From S2P Require Import Prelude RustStd Errors ListType SetType HashType SortedSet StreamType Memory KeyMap Keyspace CacheOps Float64 Geo CacheFacts EvictionFacts CacheSpecs.
From Stdlib Require Import Lia.
Local Open Scope Z_scope.

Inductive Container : Type := CHash | CList | CSet | CZSet | CGeo | CStream.

#[global] Instance Container_eq_dec : EqDecision Container.
Proof. solve_decision. Defined.

Definition container_type (k : Container) : KeyType :=
  match k with
  | CHash => KHash | CList => KList | CSet => KSet | CZSet => KZSet | CGeo => KGeo | CStream => KStream
  end.

(** [RedisHash::new()] and its siblings. *)
Definition empty_of (k : Container) : KeyValue GeoSet :=
  match k with
  | CHash => VHash hash_new
  | CList => VList ListType.new
  | CSet => VSet set_new
  | CZSet => VZSet zset_new
  | CGeo => VGeo ∅
  | CStream => VStream stream_new
  end.

(** [is_empty] of the containers that go away when they are. *)
Definition value_is_empty (v : KeyValue GeoSet) : bool :=
  match v with
  | VHash h => hash_is_empty h
  | VList l => ListType.is_empty l
  | VSet s => set_is_empty s
  | _ => false
  end.

Section typed.
Context {Srch : Type} {platform : Platform GeoSet} {search : SearchManager Srch}.
Abbreviation Slot := (KeySlot GeoSet).
Abbreviation M := (St (Cache GeoSet Srch)).

(** ** Accounting *)

Definition ensure_non_string_capacity (t : Clock) (rounds : nat → Round) (needed : Z) : M (result KError unit) := λ c,
  let fail : M (result KError unit) := _ ← stats_incr store_no_memory; mret (Err OutOfMemory) in
  if needed =? 0 then Ret (c, Ok tt)
  else if can_allocate (memory_tracker c) needed CatSortedSets then Ret (c, Ok tt)
  else if eviction_allowed c then
    (r ← evict_memory t rounds needed;
     room ← asks (λ c, can_allocate (memory_tracker c) needed CatSortedSets);
     match r with
     | Ok tt => if room : bool then mret (Ok tt) else fail
     | Err _ => fail
     end) c
  else fail c.

(** [account_list_delta] and its siblings. *)
Definition account_delta (cat : MemoryCategory) (old_size new_size : Z) : M unit :=
  _ ← (if 0 <? old_size then track_free old_size cat else mret tt);
  if 0 <? new_size then track_add new_size cat else mret tt.

Definition account_list_delta : Z → Z → M unit := account_delta CatLists.
Definition account_set_delta : Z → Z → M unit := account_delta CatSets.
Definition account_sorted_set_delta : Z → Z → M unit := account_delta CatSortedSets.
Definition account_geo_set_delta : Z → Z → M unit := account_delta CatGeoSets.
Definition account_stream_delta : Z → Z → M unit := account_delta CatStreams.

Definition account_hash_delta (t : Clock) (rounds : nat → Round) (old_size new_size : Z) : M (result KError unit) :=
  _ ?← (if old_size <? new_size then ensure_non_string_capacity t rounds (new_size - old_size) else mret (Ok tt));
  _ ← account_delta CatHashes old_size new_size;
  mret (Ok tt).

(** ** Handles *)

(** [get_hash] and its siblings: they do not look at the expiry. *)
Definition get_typed (k : Container) (key : Bytes) : M (option (KeyValue GeoSet)) :=
  slot ← kv_get key;
  mret (s ← slot; if decide (value_type (slot_value s) = container_type k) then Some (slot_value s) else None).

Definition typed_exists (k : Container) (key : Bytes) : M bool :=
  v ← get_typed k key; mret (bool_decide (is_Some v)).

(** [get_or_insert_with], whose closure accounts for the new container. *)
Definition insert_new (k : Container) (key : Bytes) (base : Z) : M Slot :=
  existing ← kv_get key;
  _ ← (if decide (existing = None) then track_add base (memory_category (empty_of k)) else mret tt);
  on_map (λ kv, get_or_insert_with hash_one kv key (λ _, mkKeySlot None (empty_of k))).

Definition get_or_create (t : Clock) (rounds : nat → Round) (k : Container) (key : Bytes) : M (result KError (KeyValue GeoSet)) :=
  _ ?← ensure_type t key (container_type k);
  existing ← get_typed k key;
  match existing with
  | Some v => mret (Ok v)
  | None =>
    let base := estimate_keyed_object (zlen key) (container_size (empty_of k)) in
    _ ?← ensure_non_string_capacity t rounds base;
    slot ← insert_new k key base;
    mret (if decide (value_type (slot_value slot) = container_type k) then Ok (slot_value slot) else Err WrongType)
  end.

Definition get_or_create_hash (t : Clock) (rounds : nat → Round) := get_or_create t rounds CHash.
Definition get_or_create_list (t : Clock) (rounds : nat → Round) := get_or_create t rounds CList.
Definition get_or_create_set (t : Clock) (rounds : nat → Round) := get_or_create t rounds CSet.
Definition get_or_create_sorted_set (t : Clock) (rounds : nat → Round) := get_or_create t rounds CZSet.
Definition get_or_create_geo_set (t : Clock) (rounds : nat → Round) := get_or_create t rounds CGeo.
Definition get_or_create_stream (t : Clock) (rounds : nat → Round) := get_or_create t rounds CStream.

(** A write through the handle of the container under [key]. *)
Definition write_value (key : Bytes) (v : KeyValue GeoSet) : M unit :=
  slot ← kv_get key;
  match slot with
  | Some slot => _ ← kv_insert key (mkKeySlot (expires_at slot) v); mret tt
  | None => mret tt
  end.

(** [remove_hash_if_empty], [remove_list_if_empty], [remove_set_if_empty]. *)
Definition remove_if_empty (k : Container) (key : Bytes) : M unit :=
  v ← get_typed k key;
  if default false (value_is_empty <$> v) then _ ← remove_typed (container_type k) key; mret tt else mret tt.

(** [import_stream]: the sizes it accounts are those of the contents, without the key. *)
Definition import_stream (t : Clock) (rounds : nat → Round) (key : Bytes) (state : StreamStateSnapshot) : M (result KError unit) :=
  _ ← remove_stream key;
  v ?← get_or_create_stream t rounds key;
  let old_size := container_size v in
  let v' := VStream (import_state state) in
  _ ← write_value key v';
  _ ← account_stream_delta old_size (container_size v');
  mret (Ok tt).

(** ** Geo sets *)

Definition is_geo (v : KeyValue GeoSet) : bool := match v with VGeo _ => true | _ => false end.

Definition geo_set_count (c : Cache GeoSet Srch) : nat :=
  length (filter (λ kv : Bytes * Slot, is_geo (slot_value kv.2) = true) (visit hash_iter (key_values c))).

Definition geo_sets_memory (c : Cache GeoSet Srch) : Z :=
  foldl (λ total '(key, slot),
    if is_geo (slot_value slot) then wrap_u64 (total + estimate_keyed_object (zlen key) (container_size (slot_value slot)))
    else total) 0 (visit hash_iter (key_values c)).

Fixpoint remove_all (k : Container) (keys : list Bytes) : M unit :=
  match keys with
  | [] => mret tt
  | key :: keys => _ ← remove_typed (container_type k) key; remove_all k keys
  end.

Definition clear_geo_sets : M unit :=
  keys ← asks (λ c, (filter (λ kv : Bytes * Slot, is_geo (slot_value kv.2) = true) (visit hash_iter (key_values c))).*1);
  remove_all CGeo keys.

(** ** Export for persistence *)

Section export.
Context (map_iter : ∀ {V}, gmap Bytes V → list (Bytes * V)) (set_iter : gset Bytes → list Bytes) (t : Clock).
Arguments map_iter {V}.

(** The loop of [export_hashes] and its siblings over the slots; [get] is the content if the value has
    the type. *)
Fixpoint export_loop {A} (get : KeyValue GeoSet → option A) (l : list (Bytes * Slot)) : M (list (Bytes * A)) :=
  match l with
  | [] => mret []
  | (key, slot) :: l =>
    match get (slot_value slot) with
    | None => export_loop get l
    | Some a =>
      ok ← typed_key_exportable t key;
      rest ← export_loop get l;
      mret (if ok : bool then (key, a) :: rest else rest)
    end
  end.

Definition export_typed {A} (get : KeyValue GeoSet → option A) : M (list (Bytes * A)) :=
  l ← asks (λ c, visit hash_iter (key_values c)); export_loop get l.

Definition export_hashes : M (list (Bytes * list (Bytes * Bytes))) :=
  export_typed (λ v, match v with VHash h => Some (map_iter (hfields h)) | _ => None end).
Definition export_lists : M (list (Bytes * list Bytes)) :=
  export_typed (λ v, match v with VList l => Some (items l) | _ => None end).
Definition export_sets : M (list (Bytes * list Bytes)) :=
  export_typed (λ v, match v with VSet s => Some (set_iter (members s)) | _ => None end).
Definition export_zsets : M (list (Bytes * list (Bytes * Float64.f64))) :=
  export_typed (λ v, match v with VZSet z => Some (map_iter (member_map z)) | _ => None end).
Definition export_geos : M (list (Bytes * list (Bytes * Float64.f64 * Float64.f64))) :=
  export_typed (λ v, match v with VGeo g => Some (iter_members (@map_iter GeoPoint) g) | _ => None end).
Definition export_streams : M (list (Bytes * StreamStateSnapshot)) :=
  export_typed (λ v, match v with VStream s => Some (export_state (@map_iter) s) | _ => None end).
End export.
End typed.

(** ** Typed keys: what creating, writing and removing a container does to the accounting *)

Section facts.
Context {Srch : Type} {platform : Platform GeoSet} {laws : PlatformLaws GeoSet}
  {search : SearchManager Srch} {slaws : SearchLaws Srch}.
Abbreviation Slot := (KeySlot GeoSet).
Abbreviation C := (Cache GeoSet Srch).
Abbreviation M := (St C).
Implicit Types (c : C) (key : Bytes) (m : gmap Bytes Slot) (s : Slot) (v : KeyValue GeoSet) (k : Container) (t : Clock) (rounds : nat → Round).

Ltac wp_step := first [apply wp_bind | apply wp_try | apply wp_ret | apply wp_asks | apply wp_modify].
Ltac wp_steps := repeat (wp_step; cbv beta).

(** There is room for [n] more bytes below 2^64. *)
Definition headroom c (n : Z) : Prop := total (memory_tracker c) + n ≤ u64_max.

Lemma total_step c c' m : inv c → step c c' m → m ⊆ slots c → total (memory_tracker c') ≤ total (memory_tracker c).
Proof.
  intros H H1 Hsub. rewrite (total_eq c H), (total_eq c' (st_inv _ _ _ H1)). pose proof (st_other _ _ _ H1).
  rewrite (st_slots _ _ _ H1). pose proof (map_sum_le slot_bytes (slots c) m slot_bytes_pos Hsub). unfold bytes. lia.
Qed.

Lemma headroom_step c c' m n : inv c → step c c' m → m ⊆ slots c → headroom c n → headroom c' n.
Proof. intros H H1 Hsub. pose proof (total_step c c' m H H1 Hsub). unfold headroom. lia. Qed.

(** What a container under [key] is accounted for. *)
Definition value_bytes key v : Z := estimate_keyed_object (zlen key) (container_size v).

Lemma slot_bytes_value key exp v : is_string v = false → slot_bytes key (mkKeySlot exp v) = value_bytes key v.
Proof. by destruct v. Qed.

Lemma value_bytes_pos key v : 0 ≤ value_bytes key v.
Proof.
  destruct (is_string v) eqn:E; [|rewrite <- (slot_bytes_value key None) by done; apply slot_bytes_pos].
  unfold value_bytes, estimate_keyed_object, sat_add_u64. pose proof (container_size_pos v).
  assert (0 ≤ with_alloc_overhead (wrap_u64 (zlen key + BYTES_OVERHEAD + DICT_ENTRY_OVERHEAD)))
    by (apply with_alloc_overhead_pos, Z.mod_pos_bound; done). unfold u64_max. lia.
Qed.

(** ** Capacity *)

Lemma wp_ensure_non_string t rounds needed c :
  inv c → (∀ i, round_ok (rounds i)) → wp (ensure_non_string_capacity t rounds needed) c (made_room c).
Proof.
  intros H Hr. unfold wp, ensure_non_string_capacity. destruct (needed =? 0); [by apply made_room_refl|].
  destruct (can_allocate _ _ _) eqn:Ea; [by apply made_room_refl|].
  assert (Hmm : max_memory c ≠ 0).
  { intros E. unfold can_allocate in Ea. rewrite (inv_limit c H), E in Ea. done. }
  assert (Hfail : ∀ c1 m1, step c c1 m1 → m1 ⊆ slots c →
    wp (_ ← stats_incr store_no_memory; mret (Err OutOfMemory)) c1 (made_room c)).
  { intros c1 m1 H1 Hsub. wp_steps. exists m1. split; [|by split; [|split; [|right]]].
    eapply step_trans; [exact H1|]. rewrite <- (st_slots _ _ _ H1). apply step_quiet; try done. apply H1. }
  destruct (eviction_allowed c); [|apply (Hfail c (slots c)); [by apply step_refl|done]].
  match goal with |- match ?m c with _ => _ end => change (wp m c (made_room c)) end.
  apply wp_bind. eapply wp_mono; [by apply wp_evict_memory|]. intros c1 r (m1 & H1 & Hsub & _). wp_steps.
  destruct r as [[]|e]; [|by apply (Hfail c1 m1)]. destruct (can_allocate (memory_tracker c1) _ _); [|by apply (Hfail c1 m1)].
  wp_steps. exists m1. split; [done|]. split; [done|]. split; [done|]. by left.
Qed.

(** ** A container of another size *)

Lemma inv_resize c c' key s s' :
  inv c → slots c !! key = Some s → is_string (slot_value s') = false →
  memory_category (slot_value s') = memory_category (slot_value s) →
  km_ok hash_one (key_values c') → slots c' = <[key := s']> (slots c) → tracker_ok (memory_tracker c') →
  (∀ cat, counters (memory_tracker c') cat = counters (memory_tracker c) cat
     + (if decide (cat = memory_category (slot_value s)) then slot_bytes key s' - slot_bytes key s else 0)) →
  total (memory_tracker c') ≤ u64_max → limit (memory_tracker c') = limit (memory_tracker c) →
  memory_usage c' = memory_usage c → cfg c' = cfg c → (docs c' ≤ docs c)%nat → step c c' (<[key := s']> (slots c)).
Proof.
  intros H Hk Hs Hc Hm Es Htr Hcnt Htot Hlim Eu Ec Hd. unfold cfg in Ec. simplify_eq.
  assert (Hcs : memory_category (slot_value s) ≠ CatPubSub ∧ memory_category (slot_value s) ≠ CatSearch ∧
                memory_category (slot_value s) ≠ CatCache)
    by (rewrite <- Hc; by destruct (slot_value s')).
  assert (Hcat : ∀ cat, cat_bytes cat (slots c') = cat_bytes cat (slots c)
     + (if decide (cat = memory_category (slot_value s)) then slot_bytes key s' - slot_bytes key s else 0)).
  { intros cat. rewrite Es. unfold cat_bytes. rewrite map_sum_insert, Hk. simpl. rewrite Hc. repeat case_decide; congruence || lia. }
  split; [|done|unfold cfg; congruence| |done].
  - split; [done| |done| | |done|rewrite Hlim, (inv_limit c H); congruence].
    + intros k' s1. rewrite Es, lookup_insert_Some. intros [[<- <-]|[_ ?]]; [|by apply (inv_named c H)].
      intros e He. by rewrite He in Hs.
    + intros cat Hn1 Hn2. rewrite Hcnt, Hcat, (inv_counts c H) by done. done.
    + rewrite Eu, Hcat, (inv_usage c H), decide_False by (destruct Hcs as (_ & _ & ?); congruence). lia.
  - unfold other. rewrite !Hcnt, !decide_False by (destruct Hcs as (? & ? & _); congruence). lia.
Qed.

Lemma account_delta_eq cat old new c :
  0 ≤ old → 0 ≤ new →
  account_delta cat old new c = Ret (set_memory c (account (deallocate (memory_tracker c) old cat) new cat) (memory_usage c), tt).
Proof.
  intros Ho Hn. unfold account_delta, track_free, track_add, modify, mbind, st_bind, mret, st_ret.
  destruct (Z.ltb_spec 0 old), (Z.ltb_spec 0 new); try done.
  - replace new with 0 by lia. done.
  - replace old with 0 by lia. done.
  - replace old with 0 by lia. replace new with 0 by lia. by destruct c.
Qed.

(** Moving [old] bytes of the tracker to [new] ones. *)
Lemma account_delta_ok (tr : MemoryTracker) cat old new :
  tracker_ok tr → 0 ≤ old ≤ counters tr cat → 0 ≤ new → total tr - old + new ≤ u64_max →
  let tr' := account (deallocate tr old cat) new cat in
  tracker_ok tr' ∧ total tr' = total tr - old + new ∧ limit tr' = limit tr ∧
  ∀ cat', counters tr' cat' = counters tr cat' + (if decide (cat' = cat) then new - old else 0).
Proof.
  intros Hok Ho Hn Ht tr'. destruct (deallocate_ok tr old cat Hok ltac:(lia)) as (H1 & T1 & N1).
  replace (Z.min _ _) with old in * by lia.
  destruct (account_ok (deallocate tr old cat) new cat H1 Hn ltac:(lia)) as (H2 & T2 & N2).
  split; [done|]. split; [unfold tr'; lia|]. split.
  - unfold tr', account, deallocate. by destruct (new =? 0), (old =? 0).
  - intros cat'. unfold tr'. rewrite N2, N1. case_decide; lia.
Qed.

Lemma wp_write_value key v c s :
  inv c → slots c !! key = Some s → wp (write_value key v) c (λ c' _, ∃ kv, c' = set_key_values c kv ∧
    km_ok hash_one kv ∧ contents kv = <[key := mkKeySlot (expires_at s) v]> (slots c)).
Proof.
  intros H Hk. unfold write_value. apply wp_bind, wp_kv_get; [apply H|]. rewrite Hk.
  apply wp_bind, wp_kv_insert; [apply H|]. intros kv Hkv E. wp_steps. by exists kv.
Qed.

Lemma slot_bytes_counted c key s :
  inv c → slots c !! key = Some s → slot_bytes key s ≤ counters (memory_tracker c) (memory_category (slot_value s)).
Proof.
  intros H Hk. rewrite (inv_counts c H) by (by destruct (slot_value s)).
  pose proof (map_sum_ge (λ (k : Bytes) s', if decide (memory_category (slot_value s') = memory_category (slot_value s))
                                 then slot_bytes k s' else 0) (slots c) key s (cat_pos _) Hk) as G.
  cbn beta in G. by rewrite decide_True in G.
Qed.

(** The contents change and the tracker follows by the difference. *)
Lemma step_rewrite c kv key s v old new :
  inv c → slots c !! key = Some s → is_string v = false → memory_category v = memory_category (slot_value s) →
  km_ok hash_one kv → contents kv = <[key := mkKeySlot (expires_at s) v]> (slots c) →
  0 ≤ old ≤ slot_bytes key s → 0 ≤ new → new - old = value_bytes key v - slot_bytes key s → headroom c new →
  step c (set_memory (set_key_values c kv) (account (deallocate (memory_tracker c) old (memory_category v)) new (memory_category v))
            (memory_usage c)) (<[key := mkKeySlot (expires_at s) v]> (slots c)).
Proof.
  intros H Hk Hv Hc Hkv E Ho Hn Hd Hr. pose proof (slot_bytes_counted c key s H Hk) as Hle. rewrite <- Hc in Hle.
  destruct (account_delta_ok (memory_tracker c) (memory_category v) old new (inv_tracker c H) ltac:(lia) Hn
    ltac:(unfold headroom in Hr; lia)) as (T1 & T2 & T3 & T4).
  apply (inv_resize _ _ _ s); try done.
  - intros cat. cbn [memory_tracker set_memory]. rewrite T4, <- Hc. by rewrite slot_bytes_value, <- Hd.
  - cbn [memory_tracker set_memory]. rewrite T2. unfold headroom in Hr. lia.
Qed.

(** ** Creation *)

Lemma empty_of_type k : value_type (empty_of k) = container_type k.
Proof. by destruct k. Qed.
Lemma empty_of_typed k : is_string (empty_of k) = false.
Proof. by destruct k. Qed.

Lemma wp_get_typed k key c :
  inv c → wp (get_typed k key) c (λ c' r, c' = c ∧
    r = (s ← slots c !! key; if decide (value_type (slot_value s) = container_type k) then Some (slot_value s) else None)).
Proof. intros H. unfold get_typed. apply wp_bind, wp_kv_get; [apply H|]. by wp_steps. Qed.

Lemma wp_insert_new k key c :
  inv c → slots c !! key = None → headroom c (value_bytes key (empty_of k)) →
  wp (insert_new k key (value_bytes key (empty_of k))) c (λ c' s,
    s = mkKeySlot None (empty_of k) ∧ step c c' (<[key := mkKeySlot None (empty_of k)]> (slots c)) ∧
    memory_tracker c' = account (memory_tracker c) (value_bytes key (empty_of k)) (memory_category (empty_of k))).
Proof.
  intros H Hk Hr. unfold insert_new. apply wp_bind, wp_kv_get; [apply H|]. rewrite Hk, decide_True by done.
  unfold track_add. wp_steps. unfold wp, on_map. cbn [key_values set_memory].
  destruct (get_or_insert_spec hash_one (key_values c) key (λ _, mkKeySlot None (empty_of k)) (inv_map c H))
    as (kv & -> & Hkv & E & _). fold (slots c) in *. rewrite Hk in *. cbn [default] in *. split; [done|]. split; [|done].
  apply (inv_put c _ key (mkKeySlot None (empty_of k))); try done.
  - intros e He. by destruct k.
  - by destruct k.
  - by destruct k.
  - rewrite slot_bytes_value by apply empty_of_typed. exact Hr.
Qed.

(** The outcome of creating a container under a free name: out of memory, or an empty container
    beside what the eviction left. *)
Definition created (k : Container) key c c' (r : result KError (KeyValue GeoSet)) : Prop :=
  ∃ m1, m1 ⊆ slots c ∧ (max_memory c = 0 → m1 = slots c) ∧
    ((r = Err OutOfMemory ∧ max_memory c ≠ 0 ∧ step c c' m1) ∨
     (r = Ok (empty_of k) ∧ step c c' (<[key := mkKeySlot None (empty_of k)]> m1) ∧
      (∀ n, headroom c (value_bytes key (empty_of k) + n) → headroom c' n))).

Lemma absent_type t key m : m !! key = None → purge t key m = m ∧ type_at t key m = KNone.
Proof. intros E. unfold purge, due, type_at, visible. by rewrite E. Qed.

Lemma absent_sub key m m' : m' ⊆ m → m !! key = None → m' !! key = None.
Proof. intros Hsub Hn. destruct (m' !! key) as [s|] eqn:E; [|done]. by rewrite (lookup_weaken _ _ _ _ E Hsub) in Hn. Qed.

Lemma wp_key_type_absent t key c :
  inv c → slots c !! key = None → wp (key_type t key) c (λ c' r, c' = c ∧ r = KNone).
Proof.
  intros H Hk. unfold key_type, get_key_value, purge_if_expired. do 3 apply wp_bind. apply wp_kv_get; [apply H|]. rewrite Hk.
  apply wp_ret, wp_bind, wp_kv_get; [apply H|]. rewrite Hk. by wp_steps.
Qed.

(** Creating under a free name is making room and inserting. *)
Lemma wp_create_absent t rounds k key c (Q : C → result KError (KeyValue GeoSet) → Prop) :
  inv c → slots c !! key = None →
  wp (ensure_non_string_capacity t rounds (value_bytes key (empty_of k))) c (λ c1 r,
    match r with
    | Err e => Q c1 (Err e)
    | Ok _ => inv c1 ∧ slots c1 !! key = None ∧ headroom c1 (value_bytes key (empty_of k)) ∧
      ∀ c2, step c1 c2 (<[key := mkKeySlot None (empty_of k)]> (slots c1)) →
        memory_tracker c2 = account (memory_tracker c1) (value_bytes key (empty_of k)) (memory_category (empty_of k)) →
        Q c2 (Ok (empty_of k))
    end) →
  wp (get_or_create t rounds k key) c Q.
Proof.
  intros H Hk Hw. unfold get_or_create, ensure_type. apply wp_try, wp_bind. eapply wp_mono; [by apply wp_key_type_absent|].
  intros c0 r [-> ->]. apply wp_ret. rewrite decide_True by done. cbv beta iota. apply wp_bind.
  eapply wp_mono; [by apply wp_get_typed|]. intros c0 r [-> ->]. rewrite Hk. simpl. apply wp_try.
  eapply wp_mono; [exact Hw|]. intros c1 [[]|e]; [|done]. intros (H1 & Hk1 & Hh & HQ). apply wp_bind.
  eapply wp_mono; [by apply wp_insert_new|]. intros c2 s (-> & H2 & Et). wp_steps. cbn [slot_value].
  rewrite decide_True by apply empty_of_type. by apply HQ.
Qed.

Lemma wp_get_or_create t rounds k key c :
  inv c → (∀ i, round_ok (rounds i)) → slots c !! key = None → headroom c (value_bytes key (empty_of k)) →
  wp (get_or_create t rounds k key) c (created k key c).
Proof.
  intros H Hr Hk Hh. apply wp_create_absent; [done|done|]. eapply wp_mono; [by apply wp_ensure_non_string|].
  intros c2 r (m1 & H2 & Hsub & Hun & Hres). destruct r as [[]|e].
  - pose proof (absent_sub key _ _ Hsub Hk) as Hk2. rewrite <- (st_slots _ _ _ H2) in Hk2.
    split; [apply H2|]. split; [done|]. split; [by eapply headroom_step|]. intros c3 H3 Et. rewrite (st_slots _ _ _ H2) in H3.
    exists m1. split; [done|]. split; [by intros [_ ?]%Hun|]. right. split; [done|]. split; [by eapply step_trans|].
    intros n Hn. pose proof (total_step _ _ _ H H2 Hsub) as Ht. pose proof (value_bytes_pos key (empty_of k)) as Hp. unfold headroom in *.
    rewrite Et. destruct (Z.le_gt_cases 0 n); [|pose proof (inv_total c3 (st_inv _ _ _ H3)) as G; rewrite Et in G; lia].
    destruct (account_ok (memory_tracker c2) (value_bytes key (empty_of k)) (memory_category (empty_of k)) (inv_tracker c2 (st_inv _ _ _ H2)) Hp
      ltac:(lia)) as (_ & -> & _). lia.
  - exists m1. split; [done|]. split; [by intros [_ ?]%Hun|]. left. destruct Hres as [|[= ->]]; [done|].
    split; [done|]. split; [|done]. by intros [? _]%Hun.
Qed.

(** ** With a limit and without eviction *)

Lemma can_allocate_spec (tr : MemoryTracker) n :
  limit tr ≠ 0 → 0 ≤ total tr + n ≤ u64_max → can_allocate tr n CatSortedSets = (total tr + n <=? limit tr).
Proof.
  intros Hl Hn. unfold can_allocate. rewrite bool_decide_false, (proj2 (Z.eqb_neq _ _)) by done. cbn [andb].
  unfold wrap_u64. by rewrite Z.mod_small by lia.
Qed.

Lemma ensure_granted t rounds n c :
  can_allocate (memory_tracker c) n CatSortedSets = true → ensure_non_string_capacity t rounds n c = Ret (c, Ok tt).
Proof. intros E. unfold ensure_non_string_capacity. rewrite E. by destruct (n =? 0). Qed.

Lemma ensure_refused t rounds n c :
  n ≠ 0 → can_allocate (memory_tracker c) n CatSortedSets = false → eviction_allowed c = false →
  ensure_non_string_capacity t rounds n c = Ret (set_stats c (stat_add store_no_memory 1 (stats c)), Err OutOfMemory).
Proof. intros Hn E Ev. unfold ensure_non_string_capacity. by rewrite E, Ev, (proj2 (Z.eqb_neq _ _)). Qed.

Lemma step_eviction c c' m : step c c' m → eviction_allowed c' = eviction_allowed c.
Proof. intros H. pose proof (st_cfg _ _ _ H) as E. unfold cfg in E. simplify_eq. unfold eviction_allowed. by repeat match goal with E : _ = _ |- _ => rewrite E; clear E end. Qed.

Lemma total_nonneg c : inv c → 0 ≤ total (memory_tracker c).
Proof. intros H. rewrite (tr_total _ (inv_tracker c H)). apply sum_of_pos, (tr_pos _ (inv_tracker c H)). Qed.

Lemma wp_create_granted t rounds k key c :
  inv c → slots c !! key = None → max_memory c ≠ 0 → max_memory c ≤ u64_max →
  total (memory_tracker c) + value_bytes key (empty_of k) ≤ max_memory c →
  wp (get_or_create t rounds k key) c (λ c' r, r = Ok (empty_of k) ∧
    step c c' (<[key := mkKeySlot None (empty_of k)]> (slots c)) ∧
    memory_tracker c' = account (memory_tracker c) (value_bytes key (empty_of k)) (memory_category (empty_of k))).
Proof.
  intros H Hk Hm Hu Hle. pose proof (value_bytes_pos key (empty_of k)). pose proof (total_nonneg c H).
  apply wp_create_absent; [done|done|]. unfold wp. rewrite ensure_granted.
  - split; [done|]. split; [done|]. split; [unfold headroom; lia|]. done.
  - rewrite can_allocate_spec; rewrite ?(inv_limit c H); [by apply Z.leb_le|done|lia].
Qed.

(** ** Without eviction *)

(** There is no limit, or no eviction: asking for memory removes nothing. *)
Definition quiet c : Prop := limit (memory_tracker c) = 0 ∨ eviction_allowed c = false.

Lemma quiet_step c c' m : inv c → step c c' m → quiet c → quiet c'.
Proof.
  intros H H1 [Hq|Hq]; [left|right].
  - destruct (cfg_limits _ _ _ H1) as [E _]. by rewrite (inv_limit c' (st_inv _ _ _ H1)), E, <- (inv_limit c H).
  - by rewrite (step_eviction _ _ _ H1).
Qed.

Lemma ensure_quiet t rounds (n : Z) c :
  quiet c → ensure_non_string_capacity t rounds n c = Ret (c, Ok tt) ∨
    (limit (memory_tracker c) ≠ 0 ∧
     ensure_non_string_capacity t rounds n c = Ret (set_stats c (stat_add store_no_memory 1 (stats c)), Err OutOfMemory)).
Proof.
  intros Hq. destruct (can_allocate (memory_tracker c) n CatSortedSets) eqn:E; [left; by apply ensure_granted|].
  destruct (Z.eq_dec (limit (memory_tracker c)) 0) as [El|El].
  { unfold can_allocate in E. by rewrite El in E. }
  destruct (Z.eq_dec n 0) as [->|Hn]; [left; by unfold ensure_non_string_capacity|].
  right. split; [done|]. apply ensure_refused; [done|done|]. by destruct Hq.
Qed.

Lemma wp_ensure_quiet t rounds (n : Z) c (Q : C → result KError unit → Prop) :
  inv c → quiet c → Q c (Ok tt) → (∀ c', max_memory c ≠ 0 → step c c' (slots c) → Q c' (Err OutOfMemory)) →
  wp (ensure_non_string_capacity t rounds n) c Q.
Proof.
  intros H Hq Hok Hno. unfold wp. destruct (ensure_quiet t rounds n c Hq) as [-> |[Hl ->]]; [done|].
  apply Hno; [by rewrite <- (inv_limit c H)|]. by apply step_quiet.
Qed.

Lemma purge_free t key m : visible t key m = None → purge t key m !! key = None.
Proof. by rewrite purge_visible. Qed.

(** The container of a key, created if there is none. *)
Lemma wp_get_or_create_quiet t rounds k key c (Q : C → result KError (KeyValue GeoSet) → Prop) :
  inv c → quiet c → (visible t key (slots c) = None → headroom c (value_bytes key (empty_of k))) →
  (∀ c1, step c c1 (purge t key (slots c)) →
    match visible t key (slots c) with
    | Some s => if decide (value_type (slot_value s) = container_type k) then Q c1 (Ok (slot_value s)) else Q c1 (Err WrongType)
    | None =>
      (∀ c2, step c1 c2 (<[key := mkKeySlot None (empty_of k)]> (slots c1)) →
        memory_tracker c2 = account (memory_tracker c1) (value_bytes key (empty_of k)) (memory_category (empty_of k)) →
        Q c2 (Ok (empty_of k))) ∧
      (∀ c2, max_memory c1 ≠ 0 → step c1 c2 (slots c1) → Q c2 (Err OutOfMemory))
    end) →
  wp (get_or_create t rounds k key) c Q.
Proof.
  intros H Hq Hh HQ. unfold get_or_create, ensure_type. apply wp_try, wp_bind. eapply wp_mono; [by apply wp_key_type|].
  intros c1 r [H1 ->]. apply wp_ret. specialize (HQ c1 H1). pose proof (purge_visible t key (slots c)) as Hpv.
  assert (Et : type_at t key (slots c) = default KNone (value_type <$> (slot_value <$> visible t key (slots c)))) by done.
  rewrite Et. clear Et. destruct (visible t key (slots c)) as [s|] eqn:Ev.
  - change (default KNone _) with (value_type (slot_value s)). rewrite (decide_False (P := _ = KNone)) by (by destruct (slot_value s)). destruct (decide (value_type (slot_value s) = container_type k)) as [Ht|Ht]; [|done].
    apply wp_bind. eapply wp_mono; [apply wp_get_typed, H1|]. intros ? r [-> ->]. rewrite (st_slots _ _ _ H1), Hpv. cbn [mbind option_bind].
    rewrite decide_True by done. by apply wp_ret.
  - change (default KNone _) with KNone. rewrite decide_True by done. rewrite <- (st_slots _ _ _ H1) in Hpv. destruct HQ as [HQ1 HQ2].
    assert (Hq1 : quiet c1) by (by eapply quiet_step).
    assert (Hh1 : headroom c1 (value_bytes key (empty_of k))).
    { eapply headroom_step; [done|done| |by apply Hh]. unfold purge. destruct (due _ _ _); [apply delete_subseteq|done]. }
    apply wp_bind. eapply wp_mono; [apply wp_get_typed, H1|]. intros ? r [-> ->]. rewrite Hpv. cbn [mbind option_bind].
    apply wp_try, wp_ensure_quiet; [apply H1|done| |].
    + apply wp_bind. eapply wp_mono; [apply wp_insert_new; [apply H1|done|done]|]. intros c2 sl (-> & H2 & Et). apply wp_ret.
      cbn [slot_value]. rewrite decide_True by apply empty_of_type. by apply HQ1.
    + intros c2 Hm H2. by apply HQ2.
Qed.

(** Another map with the same contents. *)
Lemma step_same_contents c c' :
  inv c → km_ok hash_one (key_values c') → slots c' = slots c → memory_tracker c' = memory_tracker c →
  memory_usage c' = memory_usage c → cfg c' = cfg c → (docs c' ≤ docs c)%nat → step c c' (slots c).
Proof.
  intros H Hk Es Et Eu Ec Hd. split; [|done|done|unfold other; by rewrite Et|done].
  unfold cfg in Ec. simplify_eq. destruct H. split; rewrite ?Et, ?Eu, ?Es; congruence || done.
Qed.
End facts.

(** ** Examples *)

(** A hash takes 40 bytes per field. *)
Definition geo_platform : Platform GeoSet := {|
  hash_one k := foldl (λ h b, wrap_u64 (h * 31 + u8 b)) 0 k;
  hash_iter m := map_to_list m;
  entry_struct_size := 96;
  container_size v := match v with VHash h => 64 + 40 * Z.of_nat (hlen h) | _ => 64 end
|}.

Lemma geo_platform_laws : @PlatformLaws GeoSet geo_platform.
Proof. split; [done|done|]. intros [| | | | | |]; cbn; lia. Qed.

(** A database of one container, under the name [h]. *)
Definition holding (max_memory : Z) (s : KeySlot GeoSet) : Cache GeoSet unit :=
  match @kv_insert GeoSet unit geo_platform (bs "h") s (new_with_sweep_loadfactor 1 max_memory 4096) with
  | Ret (c, _) => set_memory c (account (memory_tracker c) (@slot_bytes GeoSet geo_platform (bs "h") s) (memory_category (slot_value s))) 0
  | Panic => new_with_sweep_loadfactor 1 max_memory 4096
  end.

Lemma holding_step (max_memory : Z) s :
  is_string (slot_value s) = false → @slot_bytes GeoSet geo_platform (bs "h") s ≤ u64_max →
  @step GeoSet unit geo_platform _ (new_with_sweep_loadfactor 1 max_memory 4096) (holding max_memory s) {[bs "h" := s]}.
Proof.
  intros Hs Hb. pose (c0 := new_with_sweep_loadfactor 1 max_memory 4096 : Cache GeoSet unit).
  destruct (inv_new (Platform0 := geo_platform) (Srch := unit) 1 max_memory 4096) as [H0 E0].
  destruct (km_insert_spec (@hash_one GeoSet geo_platform) (key_values c0) (bs "h") s (inv_map _ H0)) as (kv & E & Hkv & Ec & _).
  unfold holding, kv_insert, on_map. fold c0. rewrite E. cbn [mbind exec_bind].
  change {[bs "h" := s]} with (<[bs "h" := s]> (∅ : gmap Bytes (KeySlot GeoSet))). rewrite <- E0.
  apply (inv_put (Platform0 := geo_platform) (PlatformLaws0 := geo_platform_laws) c0 _ (bs "h") s); try done.
  - unfold named. by destruct (slot_value s).
  - by rewrite Hs.
Qed.

Lemma holding_inv (max_memory : Z) s :
  is_string (slot_value s) = false → @slot_bytes GeoSet geo_platform (bs "h") s ≤ u64_max →
  @inv GeoSet unit geo_platform (holding max_memory s).
Proof. intros Hs Hb. apply (st_inv _ _ _ (holding_step max_memory s Hs Hb)). Qed.

Lemma holding_visible (t : Clock) (max_memory : Z) s :
  is_string (slot_value s) = false → @slot_bytes GeoSet geo_platform (bs "h") s ≤ u64_max → is_expired t s = false →
  visible t (bs "h") (slots (holding max_memory s)) = Some s.
Proof.
  intros Hs Hb Hx. rewrite (st_slots _ _ _ (holding_step max_memory s Hs Hb)). unfold visible. rewrite lookup_singleton_eq. cbn.
  by rewrite Hx.
Qed.
