(* ===== verification/KeyXfer.v ===== *)
(** * Key transfer ([cache/key_xfer.rs], [impl Cache])

    Snapshots of keys taken from and put into a keyspace: DUMP, RESTORE, COPY, MOVE, RANDOMKEY and
    TOUCH.  The iteration orders of the hash maps are the class [MapOrder]; the random levels of
    skiplist nodes, the draws of RANDOMKEY and the rounds of evictions are arguments. *)

From S2P Require Import Prelude RustStd Errors ListType SetType HashType SortedSet StreamType Memory KeyMap Keyspace CacheOps Float64 Geo Rdb KeyDump TypedKeys.
From Stdlib Require Import Lia.
Local Open Scope Z_scope.

(** In which order the containers list what they hold. *)
Class MapOrder : Type := {
  map_iter : ∀ {V}, gmap Bytes V → list (Bytes * V);
  set_iter : gset Bytes → list Bytes
}.

Class MapOrderLaws `{!MapOrder} : Prop := {
  map_iter_perm {V} (m : gmap Bytes V) : map_iter m ≡ₚ map_to_list m;
  set_iter_perm (s : gset Bytes) : set_iter s ≡ₚ elements s
}.

(** The order of the keys, for closed examples. *)
Definition key_order : MapOrder := {| map_iter _ m := map_to_list m; set_iter s := elements s |}.
Lemma key_order_laws : @MapOrderLaws key_order.
Proof. by split. Qed.

(** What a call draws: eviction rounds for the two places where a call may evict, and the coin flips
    of the levels of the nodes a sorted set inserts. *)
Record Draws : Type := mkDraws {
  make_room : nat → Round;
  make_more_room : nat → Round;
  levels : nat → nat → bool
}.

Definition restore_options (flags pttl : Z) : StoreOptions :=
  mkStoreOptions false false false (if 0 <? pttl then Some pttl else None) None flags false None.

Definition set_fields (fields : list (Bytes * Bytes)) (h : RedisHash) : RedisHash :=
  foldl (λ h '(f, v), (hset h f v).1) h fields.

Fixpoint add_scored (levels : nat → nat → bool) (i : nat) (members : list (Bytes * Float64.f64)) (z : SortedSet) : exec SortedSet :=
  match members with
  | [] => Ret z
  | (m, score) :: members => '(z, _) ← add z m score (levels i); add_scored levels (S i) members z
  end.

Definition add_points (members : list (Bytes * Float64.f64 * Float64.f64)) (g : GeoSet) : GeoSet :=
  foldl (λ g '(m, lon, lat), (geo_add g m lon lat).1) g members.

Definition same_objects : KError := InvalidArgument (str "source and destination objects are the same").

Section xfer.
Context {Srch : Type} {platform : Platform GeoSet} {search : SearchManager Srch} {order : MapOrder}.
Abbreviation Slot := (KeySlot GeoSet).
Abbreviation C := (Cache GeoSet Srch).
Abbreviation M := (St C).

(** A computation that may panic, as a method. *)
Definition lift {A} (e : exec A) : M A := λ c, match e with Ret a => Ret (c, a) | Panic => Panic end.

(** ** Taking a snapshot *)

(** The payload of a value. *)
Definition payload_from (v : KeyValue GeoSet) (pttl : Z) : KeyPayload :=
  match v with
  | VString e => PString (e_value e) (flags e) pttl
  | VHash h => PHash (map_iter (hfields h)) pttl
  | VList l => PList (items l) pttl
  | VSet s => PSet (set_iter (members s)) pttl
  | VZSet z => PZSet (map_iter (member_map z)) pttl
  | VGeo g => PGeo (iter_members map_iter g) pttl
  | VStream s => PStream (export_state (@map_iter order) s) pttl
  end.

Definition dump_container (k : Container) (key : Bytes) (pttl : Z) : M (option KeyPayload) :=
  v ← get_typed k key; mret ((λ v, payload_from v pttl) <$> v).

Definition dump_key (t : Clock) (key : Bytes) : M (option KeyPayload) :=
  pttl ← ttl t key;
  if pttl =? -2 then mret None else
  kt ← key_type t key;
  match kt with
  | KNone => mret None
  | KString => entry ← load t key false; mret ((λ e, payload_from (VString e) pttl) <$> entry)
  | KHash => dump_container CHash key pttl
  | KList => dump_container CList key pttl
  | KSet => dump_container CSet key pttl
  | KZSet => dump_container CZSet key pttl
  | KGeo => dump_container CGeo key pttl
  | KStream => dump_container CStream key pttl
  end.

(** ** Putting it back *)

Definition expire_after (t : Clock) (key : Bytes) (pttl : Z) : M (result KError unit) :=
  _ ← (if 0 <? pttl then expire t key pttl else mret false); mret (Ok tt).

(** The container under [key], created if missing, gets the contents [fill] computes from its own. *)
Definition restore_container (t : Clock) (d : Draws) (k : Container) (key : Bytes)
    (fill : KeyValue GeoSet → exec (KeyValue GeoSet)) (account : Z → Z → M (result KError unit)) (pttl : Z)
    : M (result KError unit) :=
  v ?← get_or_create t (make_room d) k key;
  let old := estimate_keyed_object (zlen key) (container_size v) in
  v' ← lift (fill v);
  _ ← write_value key v';
  _ ?← account old (estimate_keyed_object (zlen key) (container_size v'));
  expire_after t key pttl.

(** The contents a payload adds to a container of its type. *)
Definition fill_from (d : Draws) (p : KeyPayload) (v : KeyValue GeoSet) : exec (KeyValue GeoSet) :=
  match p, v with
  | PHash fields _, VHash h => Ret (VHash (set_fields fields h))
  | PList elements _, VList l => Ret (VList (rpush l elements).1)
  | PSet ms _, VSet s => Ret (VSet (sadd s ms).1)
  | PZSet ms _, VZSet z => z ← add_scored (levels d) 0 ms z; Ret (VZSet z)
  | PGeo ms _, VGeo g => Ret (VGeo (add_points ms g))
  | _, v => Ret v
  end.

Definition and_ok (m : M unit) : M (result KError unit) := _ ← m; mret (Ok tt).

Definition restore_value (t : Clock) (d : Draws) (key : Bytes) (p : KeyPayload) : M (result KError unit) :=
  match p with
  | PString value flags pttl =>
    _ ?← store t (make_room d) key value (restore_options flags pttl); mret (Ok tt)
  | PHash _ pttl => restore_container t d CHash key (fill_from d p) (account_hash_delta t (make_more_room d)) pttl
  | PList _ pttl => restore_container t d CList key (fill_from d p) (λ o n, and_ok (account_list_delta o n)) pttl
  | PSet _ pttl => restore_container t d CSet key (fill_from d p) (λ o n, and_ok (account_set_delta o n)) pttl
  | PZSet _ pttl => restore_container t d CZSet key (fill_from d p) (λ o n, and_ok (account_sorted_set_delta o n)) pttl
  | PGeo _ pttl => restore_container t d CGeo key (fill_from d p) (λ o n, and_ok (account_geo_set_delta o n)) pttl
  | PStream state pttl => _ ?← import_stream t (make_room d) key state; expire_after t key pttl
  end.

Definition restore_key (t : Clock) (d : Draws) (key : Bytes) (p : KeyPayload) (replace : bool) : M (result KError bool) :=
  present ← exists_ t key;
  if (present : bool) && negb replace then mret (Ok false) else
  _ ← (if present : bool then CacheOps.delete key else mret false);
  _ ?← restore_value t d key p;
  mret (Ok true).

(** ** COPY and MOVE *)

Definition copy_key (t : Clock) (d : Draws) (src dst : Bytes) (replace : bool) : M (result KError bool) :=
  payload ← dump_key t src;
  match payload with
  | None => mret (Ok false)
  | Some payload => if decide (src = dst) then mret (Err same_objects) else restore_key t d dst payload replace
  end.

(** Two databases: a method of the first or of the second. *)
Definition on_src {A} (m : M A) : St (C * C) A := λ '(a, b), match m a with Ret (a, r) => Ret ((a, b), r) | Panic => Panic end.
Definition on_dst {A} (m : M A) : St (C * C) A := λ '(a, b), match m b with Ret (b, r) => Ret ((a, b), r) | Panic => Panic end.

(** [copy_key] with another database as the target. *)
Definition copy_key_to (t : Clock) (d : Draws) (src dst : Bytes) (replace : bool) : St (C * C) (result KError bool) :=
  payload ← on_src (dump_key t src);
  match payload with
  | None => mret (Ok false)
  | Some payload => on_dst (restore_key t d dst payload replace)
  end.

(** [move_key_to] with the database itself as the target. *)
Definition move_key_same (key : Bytes) : M (result KError bool) := mret (Err same_objects).

Definition move_key_to (t : Clock) (d : Draws) (key : Bytes) : St (C * C) (result KError bool) :=
  payload ← on_src (dump_key t key);
  match payload with
  | None => mret (Ok false)
  | Some payload =>
    taken ← on_dst (exists_ t key);
    if taken : bool then mret (Ok false) else
    _ ?← on_dst (restore_key t d key payload false);
    _ ← on_src (CacheOps.delete key);
    mret (Ok true)
  end.

(** ** RANDOMKEY and TOUCH *)

(** [draws] are those of [get_random]; [idx], modulo the number of keys, is the one of the fallback. *)
Definition random_key (t : Clock) (draws : list (nat * nat)) (idx : nat) : M (option Bytes) :=
  sample ← asks (λ c, get_random hash_iter (key_values c) draws);
  let fallback : M (option Bytes) := all ← keys t None; mret (all !! (idx mod length all)%nat) in
  match sample with
  | Some (k, slot) => if is_expired t slot then fallback else mret (Some k)
  | None => fallback
  end.

Fixpoint touch_keys (t : Clock) (l : list Bytes) : M nat :=
  match l with
  | [] => mret O
  | key :: l =>
    log_factor ← asks lfu_log_factor;
    decay ← asks lfu_decay_time;
    kt ← key_type t key;
    n ← match kt with
        | KNone => mret O
        | KString =>
          entry ← get_string_entry t key;
          match entry with
          | Some entry => _ ← write_value key (VString (touch t entry log_factor decay)); mret 1%nat
          | None => mret O
          end
        | _ => mret 1%nat
        end;
    rest ← touch_keys t l;
    mret (n + rest)%nat
  end.

(** ** DUMP and RESTORE *)

Definition dump_serialized (t : Clock) (key : Bytes) : M (option Bytes) :=
  p ← dump_key t key; mret (encode_dump <$> p).

Definition busy_key : Str := str "BUSYKEY Target key name already exists.".
Definition bad_payload : Str := str "ERR DUMP payload version or checksum are wrong".

Definition restore_serialized (bytes_size : Z) (t : Clock) (d : Draws) (key data : Bytes) (ttl_arg : Z) (replace absttl : bool)
    : M (result Str bool) :=
  present ← exists_ t key;
  if (present : bool) && negb replace then mret (Err busy_key) else
  decoded ← lift (decode_dump bytes_size data);
  match decoded with
  | Err _ => mret (Err bad_payload)
  | Ok payload =>
    let payload := with_restore_ttl (unix_ms t) payload ttl_arg absttl in
    let expire_now := payload_pttl payload =? 0 in
    let payload := if expire_now then set_pttl payload (-1) else payload in
    r ← restore_key t d key payload true;
    match r with
    | Err e => mret (Err (to_resp_string e))
    | Ok _ => _ ← (if expire_now then CacheOps.delete key else mret false); mret (Ok true)
    end
  end.

End xfer.
