(* ===== verification/XferFacts.v ===== *)
(** * Key transfer: what a snapshot holds, what restoring it does to the keyspace *)

From S2P Require Import Prelude RustStd Errors ListType SetType HashType SortedSet StreamType Memory KeyMap Keyspace CacheOps CacheFacts EvictionFacts CacheSpecs Float64 Geo Rdb KeyDump TypedKeys KeyXfer SkipListFacts SortedSetFacts OrdMap StreamFacts.
From Stdlib Require Import Lia.
Local Open Scope Z_scope.

Section facts.
Context {Srch : Type} {platform : Platform GeoSet} {laws : PlatformLaws GeoSet}
  {search : SearchManager Srch} {slaws : SearchLaws Srch} {order : MapOrder}.
Abbreviation Slot := (KeySlot GeoSet).
Abbreviation C := (Cache GeoSet Srch).
Abbreviation M := (St C).
Implicit Types (c : C) (key : Bytes) (m : gmap Bytes Slot) (s : Slot) (v : KeyValue GeoSet) (p : KeyPayload) (k : Container) (old new : Z) (t : Clock).

Ltac wp_step := first [apply wp_bind | apply wp_try | apply wp_ret | apply wp_asks | apply wp_modify].
Ltac wp_steps := repeat (wp_step; cbv beta).

Definition draws_ok (d : Draws) : Prop := ∀ i, round_ok (make_room d i) ∧ round_ok (make_more_room d i).

(** ** Snapshots *)

(** The payload of a visible slot. *)
Definition slot_payload (t : Clock) s : KeyPayload :=
  payload_from (slot_value s) (match expires_at s with Some exp => remaining_ms t exp | None => -1 end).

(** The time left can be written as an [i64] number of milliseconds. *)
Definition short_ttl (t : Clock) s : Prop :=
  match expires_at s with Some exp => exp - now t ≤ i64_max * 1000000 | None => True end.

Lemma remaining_short t s exp :
  is_expired t s = false → short_ttl t s → expires_at s = Some exp → remaining_ms t exp = (exp - now t) / 1000000 ∧ 0 ≤ remaining_ms t exp.
Proof.
  unfold is_expired, short_ttl. intros He Hs E. rewrite E in *. apply Z.leb_gt in He.
  assert (Hr : 0 ≤ (exp - now t) / 1000000 ≤ i64_max).
  { split; [apply Z.div_pos; lia|]. apply (Z.div_le_mono _ _ 1000000) in Hs; [|lia]. by rewrite Z.div_mul in Hs by lia. }
  unfold remaining_ms. rewrite wrap_i64_id; [split; [done|lia]|]. unfold i64_min. lia.
Qed.

Lemma visible_live t key m s : visible t key m = Some s → is_expired t s = false.
Proof.
  unfold visible. destruct (m !! key) as [s'|]; [|done]. simpl. destruct (is_expired t s') eqn:E; [done|]. by intros [= <-].
Qed.

Lemma wp_dump_container k key pttl c s :
  inv c → slots c !! key = Some s → value_type (slot_value s) = container_type k →
  wp (dump_container k key pttl) c (λ c' r, c' = c ∧ r = Some (payload_from (slot_value s) pttl)).
Proof.
  intros H Hk Ht. unfold dump_container. apply wp_bind. eapply wp_mono; [by apply wp_get_typed|].
  intros c1 r [-> ->]. rewrite Hk. simpl. rewrite decide_True by done. by wp_steps.
Qed.

Lemma wp_dump_key t key c :
  inv c → (∀ s, visible t key (slots c) = Some s → short_ttl t s) →
  wp (dump_key t key) c (λ c' r, step c c' (purge t key (slots c)) ∧ r = slot_payload t <$> visible t key (slots c)).
Proof.
  intros H Hs. unfold dump_key. apply wp_bind. eapply wp_mono; [by apply wp_ttl|]. intros c1 r [H1 ->]. unfold ttl_spec.
  destruct (visible t key (slots c)) as [s|] eqn:Ev; [|by wp_steps].
  specialize (Hs s eq_refl). pose proof (visible_live _ _ _ _ Ev) as Hl. destruct (purge_live _ _ _ _ Ev) as [Ep Ek].
  set (pttl := match expires_at s with Some exp => remaining_ms t exp | None => -1 end).
  assert (Hp : pttl ≠ -2).
  { unfold pttl. destruct (expires_at s) as [exp|] eqn:Ee; [|done]. destruct (remaining_short t s exp Hl Hs Ee). lia. }
  rewrite (proj2 (Z.eqb_neq _ _)) by done. rewrite Ep in *.
  assert (E1 : slots c1 = slots c) by apply H1.
  apply wp_bind. eapply wp_mono; [apply wp_key_type, H1|]. intros c2 r [H2 ->]. rewrite E1 in H2. rewrite Ep in H2.
  pose proof (step_trans _ _ _ _ _ H1 H2) as H3. assert (E2 : slots c2 !! key = Some s) by (by rewrite (st_slots _ _ _ H3)).
  assert (Et : type_at t key (slots c1) = value_type (slot_value s)) by (rewrite E1; unfold type_at; by rewrite Ev).
  rewrite Et. unfold slot_payload. fold pttl. cbn [fmap option_fmap option_map].
  destruct (slot_value s) as [e|h|l|st|z|g|st] eqn:Esv; cbn [value_type];
    [|eapply wp_mono; [apply (wp_dump_container _ _ _ _ s); [apply H3|done|by rewrite Esv]|];
      intros c3 r [-> ->]; rewrite Esv; done..].
  apply wp_bind. eapply wp_mono; [apply wp_load, H3|]. intros c3 r [H4 ->]. wp_steps. unfold load_spec in *.
  rewrite E2, Esv, Hl in *. cbn [fst snd fmap option_fmap option_map] in *. split; [|done].
  rewrite (st_slots _ _ _ H3) in H4. by eapply step_trans.
Qed.

(** ** Restoring *)

Definition expiry_after (t : Clock) (pttl : Z) : option Z :=
  if 0 <? pttl then Some (now t + pttl * 1000000) else None.

Lemma wp_expire_after t key pttl c v :
  inv c → slots c !! key = Some (mkKeySlot None v) →
  wp (expire_after t key pttl) c (λ c' r, r = Ok tt ∧ step c c' (<[key := mkKeySlot (expiry_after t pttl) v]> (slots c))).
Proof.
  intros H Hk. unfold expire_after, expiry_after. destruct (Z.ltb_spec 0 pttl).
  - apply wp_bind. eapply wp_mono; [by apply wp_expire|]. intros c1 r [H1 _]. wp_steps. split; [done|].
    unfold expire_spec, visible in H1. rewrite Hk in H1. simpl in H1. by rewrite (proj2 (Z.eqb_neq _ _)) in H1 by lia.
  - wp_steps. split; [done|]. rewrite insert_id by done. by apply step_refl.
Qed.

(** The value a payload turns into under a free name. *)
Definition container_of p : Container :=
  match p with
  | PString _ _ _ | PHash _ _ => CHash | PList _ _ => CList | PSet _ _ => CSet | PZSet _ _ => CZSet
  | PGeo _ _ => CGeo | PStream _ _ => CStream
  end.

Definition restored_value (d : Draws) p v : Prop :=
  match p with
  | PString value fl _ => ∃ e, v = VString e ∧ e_value e = value ∧ flags e = fl
  | PStream state _ => v = VStream (import_state state)
  | _ => fill_from d p (empty_of (container_of p)) = Ret v ∧ value_type v = container_type (container_of p)
  end.

(** The outcome: out of memory, or the value beside what the eviction left. *)
Definition restored (t : Clock) key (ok : KeyValue GeoSet → Prop) (pttl : Z) c c' (r : result KError unit) : Prop :=
  ∃ m1, m1 ⊆ slots c ∧ (max_memory c = 0 → m1 = slots c) ∧
    ((r = Err OutOfMemory ∧ max_memory c ≠ 0 ∧ step c c' m1) ∨
     (∃ v, ok v ∧ r = Ok tt ∧ lands c c' (<[key := mkKeySlot (expiry_after t pttl) v]> m1))).

(** An accounting function that records the change and cannot fail. *)
Definition records (cat : MemoryCategory) c (account_fn : Z → Z → M (result KError unit)) : Prop :=
  ∀ c1 o n, limit (memory_tracker c1) = max_memory c → 0 ≤ o → 0 ≤ n →
    account_fn o n c1 = Ret (set_memory c1 (account (deallocate (memory_tracker c1) o cat) n cat) (memory_usage c1), Ok tt).

Lemma and_ok_records cat c : records cat c (λ o n, and_ok (account_delta cat o n)).
Proof. intros c1 o n _ Ho Hn. unfold and_ok, mbind, st_bind. by rewrite account_delta_eq. Qed.

Lemma hash_delta_records t rounds c : max_memory c = 0 → records CatHashes c (account_hash_delta t rounds).
Proof.
  intros E c1 o n Hl Ho Hn. rewrite E in Hl. unfold account_hash_delta, try_bind.
  assert (Hc : (if o <? n then ensure_non_string_capacity t rounds (n - o) else mret (Ok tt)) c1 = Ret (c1, Ok tt)).
  { destruct (o <? n); [|done]. unfold ensure_non_string_capacity. destruct (n - o =? 0); [done|].
    unfold can_allocate. by rewrite Hl. }
  rewrite Hc. unfold mbind, st_bind. by rewrite account_delta_eq.
Qed.

Lemma category_of_type v k : value_type v = container_type k → memory_category v = memory_category (empty_of k) ∧ is_string v = false.
Proof. by destruct v, k. Qed.

(** Writing the new contents over the empty container and recording the change. *)
Lemma wp_fill {A : Type} k key v c (account_fn : Z → Z → M (result KError unit)) old new (next : M (result KError A)) (Q : C → result KError A → Prop) :
  inv c → slots c !! key = Some (mkKeySlot None (empty_of k)) → value_type v = container_type k →
  (∀ c1, limit (memory_tracker c1) = max_memory c → account_fn old new c1 =
     Ret (set_memory c1 (account (deallocate (memory_tracker c1) old (memory_category v)) new (memory_category v)) (memory_usage c1), Ok tt)) →
  0 ≤ old ≤ value_bytes key (empty_of k) → 0 ≤ new → new - old = value_bytes key v - value_bytes key (empty_of k) → headroom c new →
  (∀ c', step c c' (<[key := mkKeySlot None v]> (slots c)) → wp next c' Q) →
  wp (_ ← write_value key v; _ ?← account_fn old new; next) c Q.
Proof.
  intros H Hk Ht Hacc Ho Hn Hd Hr Hq. apply wp_bind. eapply wp_mono; [by apply (wp_write_value _ _ _ _ H Hk)|].
  intros c1 [] (kv & -> & Hkv & E). unfold wp, try_bind. rewrite Hacc by apply (inv_limit c H).
  apply Hq. destruct (category_of_type v k Ht) as [Hc Hs].
  apply (step_rewrite c kv key (mkKeySlot None (empty_of k)) v old new); try done.
  - by rewrite slot_bytes_value by apply empty_of_typed.
  - by rewrite slot_bytes_value by apply empty_of_typed.
Qed.

Lemma wp_restore_container t d k key fill account_fn pttl v c :
  inv c → draws_ok d → slots c !! key = None → fill (empty_of k) = Ret v → value_type v = container_type k →
  records (memory_category v) c account_fn → headroom c (value_bytes key (empty_of k) + value_bytes key v) →
  wp (restore_container t d k key fill account_fn pttl) c (restored t key (λ x, x = v) pttl c).
Proof.
  intros H Hd Hk Hf Ht Hacc Hh. pose proof (value_bytes_pos key v) as Hv1. pose proof (value_bytes_pos key (empty_of k)) as Hv2.
  unfold restore_container. apply wp_try.
  eapply wp_mono; [apply wp_get_or_create; [done|apply Hd|done|unfold headroom in *; lia]|].
  intros c1 r (m1 & Hsub & Hun & [(-> & Hmm & H1)|(-> & H1 & Hroom)]).
  { exists m1. split; [done|]. split; [done|]. by left. }
  cbv zeta. apply wp_bind. unfold wp at 1, lift. rewrite Hf.
  assert (Emm : max_memory c1 = max_memory c) by (pose proof (st_cfg _ _ _ H1) as E; unfold cfg in E; congruence).
  apply (wp_fill k key v c1 account_fn); try done.
  - apply H1.
  - rewrite (st_slots _ _ _ H1). apply lookup_insert_eq.
  - intros c2 Hl. apply Hacc; [congruence|done|done].
  - by apply Hroom.
  - intros c2 H2. rewrite (st_slots _ _ _ H1), insert_insert_eq in H2. pose proof (step_trans _ _ _ _ _ H1 H2) as H3.
    eapply wp_mono; [apply (wp_expire_after t key pttl c2 v); [apply H3|rewrite (st_slots _ _ _ H3); apply lookup_insert_eq]|].
    intros c3 r [-> H4]. rewrite (st_slots _ _ _ H3), insert_insert_eq in H4.
    exists m1. split; [done|]. split; [done|]. right. exists v. split; [done|]. split; [done|].
    apply step_lands. by eapply step_trans.
Qed.

(** The size of a keyed object is the sum of its parts. *)
Definition unsaturated key v : Prop :=
  with_alloc_overhead (wrap_u64 (zlen key + BYTES_OVERHEAD + DICT_ENTRY_OVERHEAD)) + container_size v ≤ u64_max.

Lemma value_bytes_split key v :
  unsaturated key v →
  value_bytes key v = with_alloc_overhead (wrap_u64 (zlen key + BYTES_OVERHEAD + DICT_ENTRY_OVERHEAD)) + container_size v.
Proof. unfold unsaturated, value_bytes, estimate_keyed_object, sat_add_u64. lia. Qed.

Lemma wp_remove_absent k key c :
  inv c → slots c !! key = None → wp (remove_typed (container_type k) key) c (λ c' _, step c c' (slots c)).
Proof.
  intros H Hk. unfold remove_typed. apply wp_bind, wp_kv_remove; [apply H|]. intros kv Hkv E. rewrite Hk. wp_steps.
  eapply step_eq; [by apply step_absent|by apply delete_id].
Qed.

Lemma wp_restore_stream t d key state pttl c :
  let v := VStream (import_state state) in
  inv c → draws_ok d → slots c !! key = None → unsaturated key v → unsaturated key (empty_of CStream) →
  headroom c (value_bytes key (empty_of CStream) + value_bytes key v) →
  wp (_ ?← import_stream t (make_room d) key state; expire_after t key pttl) c (restored t key (λ x, x = v) pttl c).
Proof.
  intros v H Hd Hk Hu Hu0 Hh. pose proof (value_bytes_pos key v) as Hv1. pose proof (value_bytes_pos key (empty_of CStream)) as Hv2.
  pose proof (value_bytes_split _ _ Hu) as E1. pose proof (value_bytes_split _ _ Hu0) as E0.
  pose proof (container_size_pos v) as P1. pose proof (container_size_pos (empty_of CStream)) as P0.
  pose proof (with_alloc_overhead_pos _ ltac:(apply (Z.mod_pos_bound (zlen key + BYTES_OVERHEAD + DICT_ENTRY_OVERHEAD) (u64_max + 1)); done)) as Po.
  fold (wrap_u64 (zlen key + BYTES_OVERHEAD + DICT_ENTRY_OVERHEAD)) in Po.
  apply wp_try. unfold import_stream. apply wp_bind. eapply wp_mono; [by apply (wp_remove_absent CStream)|]. intros c0 r0 H0.
  apply wp_try. eapply wp_mono.
  { apply wp_get_or_create; [apply H0|apply Hd|by rewrite (st_slots _ _ _ H0)|].
    eapply headroom_step; [exact H|exact H0|done|unfold headroom in *; lia]. }
  intros c1 r (m1 & Hsub & Hun & Hr). rewrite (st_slots _ _ _ H0) in Hsub, Hun.
  assert (Emm : max_memory c0 = max_memory c) by (pose proof (st_cfg _ _ _ H0) as E; unfold cfg in E; congruence).
  rewrite Emm in *. destruct Hr as [(-> & Hmm & H1)|(-> & H1 & Hroom)].
  { exists m1. split; [done|]. split; [done|]. left. split; [done|]. split; [done|]. exact (step_trans _ _ _ _ _ H0 H1). }
  assert (Hk1 : slots c1 !! key = Some (mkKeySlot None (empty_of CStream))) by (rewrite (st_slots _ _ _ H1); apply lookup_insert_eq).
  cbv zeta. apply wp_bind. eapply wp_mono; [apply (wp_write_value _ v _ _ (st_inv _ _ _ H1) Hk1)|].
  intros c2 [] (kv & -> & Hkv & E). apply wp_bind. unfold wp at 1, account_stream_delta. rewrite (account_delta_eq _ _ _ _ P0 P1).
  assert (H2 : headroom c1 (value_bytes key v)) by (apply Hroom; eapply headroom_step; [exact H|exact H0|done|exact Hh]).
  pose proof (step_rewrite c1 kv key _ v (container_size (empty_of CStream)) (container_size v) (st_inv _ _ _ H1) Hk1 eq_refl eq_refl Hkv E)
    as H3. rewrite slot_bytes_value in H3 by done.
  specialize (H3 ltac:(lia) P1 ltac:(lia) ltac:(unfold headroom in *; lia)).
  rewrite (st_slots _ _ _ H1), insert_insert_eq in H3. pose proof (step_trans _ _ _ _ _ H0 (step_trans _ _ _ _ _ H1 H3)) as H4.
  apply wp_ret. pose proof (wp_expire_after t key pttl _ v (st_inv _ _ _ H4)) as Hw. rewrite (st_slots _ _ _ H4) in Hw.
  specialize (Hw (lookup_insert_eq _ _ _)). eapply wp_mono; [exact Hw|]. intros c3 r [-> H5]. rewrite insert_insert_eq in H5.
  exists m1. split; [done|]. split; [done|]. right. exists v. split; [done|]. split; [done|]. apply step_lands. by eapply step_trans.
Qed.

Lemma store_spec_absent t limit key value fl pttl token m :
  (limit <? logical_string_entry (zlen key) (zlen value) (entry_struct_size (GeoSet := GeoSet))) = false → m !! key = None →
  ∃ e, store_spec t limit key value (restore_options fl pttl) token m =
    (<[key := mkKeySlot (expiry_after t pttl) (VString e)]> m, Ok None) ∧ e_value e = value ∧ flags e = fl.
Proof.
  intros El Hk. unfold store_spec, do_string. rewrite El, Hk. cbv zeta.
  unfold store_action, restore_options, resolve_expiration, expiry_after. cbn [nx xx so_cas ttl_ms exat_ms keepttl get so_flags andb].
  eexists. split; [|split]; [|by instantiate (1 := with_cas (with_flags (entry_new t key value) fl) token)|done].
  destruct (0 <? pttl); done.
Qed.

Lemma wp_restore_string t d key value fl pttl c :
  inv c → draws_ok d → slots c !! key = None →
  logical_string_entry (zlen key) (zlen value) (entry_struct_size (GeoSet := GeoSet)) ≤ max_entry_size c →
  wp (_ ?← store t (make_room d) key value (restore_options fl pttl); mret (Ok tt)) c
    (restored t key (λ v, ∃ e, v = VString e ∧ e_value e = value ∧ flags e = fl) pttl c).
Proof.
  intros H Hd Hk Hl. apply wp_try. eapply wp_mono; [apply wp_store; [done|apply Hd]|].
  intros c1 r (m1 & Hsub & Hun & [(-> & Hmm & H1)|(token & -> & H1)]).
  { exists m1. split; [done|]. split; [done|]. by left. }
  destruct (store_spec_absent t (max_entry_size c) key value fl pttl token m1) as (e & E & Ev & Ef).
  { apply Z.ltb_ge. lia. } { by eapply absent_sub. }
  rewrite E in *. apply wp_ret. exists m1. split; [done|]. split; [done|]. right. exists (VString e). split; [by exists e|]. done.
Qed.
End facts.

(** ** Key transfer: a restored value has the contents of the dumped one *)

Section content.
Context {order : MapOrder} {olaws : MapOrderLaws}.
Implicit Types (v : KeyValue GeoSet) (p : KeyPayload).

(** Values as their operations leave them. *)
Definition value_ok v : Prop :=
  match v with
  | VZSet z => ∃ l, zset_ok z l
  | VGeo g => geo_ok g
  | VStream s => stream_ok s
  | _ => True
  end.

(** The same value to a client: everything but access times, CAS tokens, the shape of a skiplist and
    the stream counters that a snapshot does not carry. *)
Definition same_content v v' : Prop :=
  match v, v' with
  | VString e, VString e' => e_value e' = e_value e ∧ flags e' = flags e
  | VHash h, VHash h' => h' = h
  | VList l, VList l' => l' = l
  | VSet s, VSet s' => s' = s
  | VZSet z, VZSet z' => member_map z' = member_map z ∧ ∃ l, zset_ok z l ∧ zset_ok z' l
  | VGeo g, VGeo g' => g' = g
  | VStream s, VStream s' =>
    entries s' = entries s ∧ last_generated_id s' = last_generated_id s ∧ groups s' = forget_read <$> groups s
  | _, _ => False
  end.

Lemma foldl_insert_map {V} (m : gmap Bytes V) : foldl (λ m x, <[x.1 := x.2]> m) ∅ (map_iter m) = m.
Proof.
  apply rebuild_map_eq; [rewrite (map_iter_perm m); apply NoDup_fst_map_to_list|]. intros i y. rewrite <- elem_of_map_to_list. split.
  - intros Hi. exists (i, y). split; [by rewrite map_iter_perm|done].
  - intros ([i' y'] & Hx & <- & <-). by rewrite map_iter_perm in Hx.
Qed.

Lemma set_fields_dump h : set_fields (map_iter (hfields h)) hash_new = h.
Proof.
  assert (E : ∀ l m, set_fields l (mkRedisHash m) = mkRedisHash (foldl (λ m x, <[x.1 := x.2]> m) m l)).
  { induction l as [|[f v] l IH]; intros m; [done|]. simpl. apply IH. }
  unfold hash_new. rewrite E, foldl_insert_map. by destruct h.
Qed.

Lemma rpush_items l vs : (rpush l vs).1 = mkRedisList (items l ++ vs).
Proof.
  unfold rpush. simpl. f_equal. generalize (items l). induction vs as [|x vs IH]; intros acc; simpl; [by rewrite app_nil_r|].
  rewrite IH. unfold push_back. by rewrite <- app_assoc.
Qed.

Lemma sadd_dump s : (sadd set_new (set_iter (members s))).1 = s.
Proof.
  destruct (sadd_spec set_new (set_iter (members s))) as [E _]. destruct s as [ms], (sadd _ _) as [[ms'] n]. simpl in *. f_equal.
  rewrite E. apply set_eq. intros x. rewrite elem_of_union, elem_of_list_to_set, set_iter_perm, elem_of_elements. set_solver.
Qed.

Lemma add_points_dump g : geo_ok g → add_points (iter_members map_iter g) ∅ = g.
Proof.
  intros Hg. assert (Hall : ∀ k (p : GeoPoint), (k, p) ∈ map_iter g → gp_member p = k ∧ is_valid_coordinates (longitude p) (latitude p) = true).
  { intros k p Hp. rewrite map_iter_perm in Hp. apply elem_of_map_to_list in Hp. by apply Hg. }
  rewrite <- (foldl_insert_map g) at 2. unfold iter_members, add_points. revert Hall. generalize (∅ : GeoSet), (map_iter g).
  intros acc l. revert acc. induction l as [|[k p] l IH]; intros acc Hall; [done|]. simpl.
  destruct (Hall k p ltac:(left)) as [Hm Hv]. unfold geo_add at 2, new_point. rewrite Hv, Hm. cbn [negb fst].
  replace (mkGeoPoint k (longitude p) (latitude p)) with p by (destruct p; simpl in *; by subst).
  apply IH. intros k' p' Hp. apply Hall. by right.
Qed.

(** *** Sorted sets *)

(** Adding never panics. *)
Lemma add_scored_ok levels i l z ks : zset_ok z ks → ∃ z' ks', add_scored levels i l z = Ret z' ∧ zset_ok z' ks'.
Proof.
  revert i z ks. induction l as [|[m sc] l IH]; intros i z ks Hok; [by exists z, ks|]. simpl.
  destruct (add_ok z ks m sc (levels i) Hok) as (z1 & -> & H1). cbn [mbind exec_bind].
  assert (∃ ks1, zset_ok z1 ks1) as [ks1 Hok1].
  { destruct (member_map z !! m); [|by destruct H1; eexists]. destruct (OrderedFloat_eq _ _); [subst; by eexists|by destruct H1; eexists]. }
  by apply (IH _ _ ks1).
Qed.

(** Adding members that are not there yet adds them to the map. *)
Lemma add_scored_map levels i l z ks z' :
  zset_ok z ks → NoDup l.*1 → (∀ m, m ∈ l.*1 → member_map z !! m = None) → add_scored levels i l z = Ret z' →
  member_map z' = foldl (λ m x, <[x.1 := x.2]> m) (member_map z) l.
Proof.
  revert i z ks. induction l as [|[m sc] l IH]; intros i z ks Hok Hnd Hnew; [by intros [= ->]|]. simpl.
  destruct (add_ok z ks m sc (levels i) Hok) as (z1 & -> & H1). cbn [mbind exec_bind].
  rewrite (Hnew m) in H1 by left. destruct H1 as [Em Hok1]. inversion Hnd as [|? ? Hm Hnd']; subst.
  intros E. rewrite (IH _ _ _ Hok1 Hnd') in * by (try exact E; intros m' Hm'; rewrite Em, lookup_insert_ne by (by intros ->);
    apply Hnew; by right). by rewrite Em.
Qed.

Lemma add_scored_dump levels z l : zset_ok z l → ∃ z', add_scored levels 0 (map_iter (member_map z)) zset_new = Ret z' ∧
  member_map z' = member_map z ∧ zset_ok z' l.
Proof.
  intros Hok. destruct (add_scored_ok levels 0 (map_iter (member_map z)) zset_new [] zset_ok_new) as (z' & l' & E & Hok').
  assert (Em : member_map z' = member_map z).
  { rewrite (add_scored_map levels 0 (map_iter (member_map z)) zset_new [] z' zset_ok_new); try done.
    - apply foldl_insert_map.
    - rewrite (map_iter_perm (member_map z)). apply NoDup_fst_map_to_list. }
  exists z'. split; [done|]. split; [done|]. replace l with l'; [done|].
  apply zlt_sorted_unique; [by eapply zset_ok_sorted|by eapply zset_ok_sorted|].
  destruct Hok as [_ Hp], Hok' as [_ Hp']. by rewrite Hp, Hp', Em.
Qed.

(** *** The round trip *)

Lemma fill_total (d : Draws) p : (∀ x f t, p ≠ PString x f t) → ∃ v, restored_value d p v.
Proof.
  intros Hp. destruct p as [x f t|l t|l t|l t|l t|l t|st t]; [by destruct (Hp x f t)|by eexists (VHash _)|by eexists (VList _)|
    by eexists (VSet _)| |by eexists (VGeo _)|by eexists (VStream _)].
  destruct (add_scored_ok (levels d) 0 l zset_new [] zset_ok_new) as (z & ks & E & _). exists (VZSet z).
  cbn. by rewrite E.
Qed.

Lemma restored_same (d : Draws) v pttl v' : value_ok v → restored_value d (payload_from v pttl) v' → same_content v v'.
Proof.
  destruct v as [e|h|l|s|z|g|st]; cbn [value_ok payload_from restored_value container_of empty_of fill_from].
  - intros _ (e' & -> & Hv & Hf). done.
  - intros _ [[= <-] _]. apply set_fields_dump.
  - intros _ [[= <-] _]. refine (eq_trans (rpush_items ListType.new (items l)) _). by destruct l.
  - intros _ [[= <-] _]. apply sadd_dump.
  - intros [l Hok] [E _]. destruct (add_scored_dump (levels d) z l Hok) as (z' & E' & Em & Hok'). rewrite E' in E. injection E as <-.
    split; [done|]. by exists l.
  - intros Hg [[= <-] _]. by apply add_points_dump.
  - intros Hs ->. cbn [same_content]. by rewrite (import_export_state (@map_iter order) (λ V m, map_iter_perm m)).
Qed.
End content.
