(* ===== verification/XferProps.v ===== *)
(** * Properties of key transfer: COPY, MOVE, DUMP and RESTORE on the keyspace *)

From S2P Require Import Prelude RustStd Errors ListType SetType HashType SkipListFacts SortedSet SortedSetFacts OrdMap StreamType StreamFacts Memory KeyMap Keyspace CacheOps CacheFacts EvictionFacts CacheSpecs Float64 Geo Rdb RdbFacts KeyDump KeyDumpProps KeyspaceSim TypedKeys KeyXfer XferFacts.
From Stdlib Require Import Lia.
Local Open Scope Z_scope.

Section props.
Context {Srch : Type} {platform : Platform GeoSet} {laws : PlatformLaws GeoSet}
  {search : SearchManager Srch} {slaws : SearchLaws Srch} {order : MapOrder} {olaws : MapOrderLaws}.
Abbreviation Slot := (KeySlot GeoSet).
Abbreviation C := (Cache GeoSet Srch).
Abbreviation M := (St C).
Implicit Types (c : C) (key : Bytes) (m : gmap Bytes Slot) (s : Slot) (v : KeyValue GeoSet) (p : KeyPayload) (t : Clock) (d : Draws).

(** ** Restoring *)

(** The payload is within the limits: a string within the entry size, a container within the 64 bits
    of the byte counters. *)
Definition fits_in d c key p : Prop :=
  match p with
  | PString value _ _ => logical_string_entry (zlen key) (zlen value) (entry_struct_size (GeoSet := GeoSet)) ≤ max_entry_size c
  | _ => ∀ v, restored_value d p v →
           headroom c (value_bytes key (empty_of (container_of p)) + value_bytes key v) ∧
           unsaturated key v ∧ unsaturated key (empty_of (container_of p))
  end.

(** Hashes check the capacity a second time, after they were written; the others do not. *)
Definition no_second_check c p : Prop := match p with PHash _ _ => max_memory c = 0 | _ => True end.

Lemma restored_ext t key (P Q : KeyValue GeoSet → Prop) pttl c c' r :
  (∀ v, P v → Q v) → restored t key P pttl c c' r → restored t key Q pttl c c' r.
Proof.
  intros HPQ (m1 & Hs & Hu & Hr). exists m1. split; [done|]. split; [done|]. destruct Hr as [|(v & Hv & Hr)]; [by left|].
  right. exists v. split; [by apply HPQ|done].
Qed.

Lemma wp_restore_value t d key p c :
  inv c → draws_ok d → slots c !! key = None → no_second_check c p → fits_in d c key p →
  wp (restore_value t d key p) c (restored t key (restored_value d p) (payload_pttl p) c).
Proof.
  intros H Hd Hk Hn Hf. destruct p as [x f pttl|l pttl|l pttl|l pttl|l pttl|l pttl|st pttl]; cbn [restore_value payload_pttl];
    [by apply wp_restore_string| | | | | |].
  6: { destruct (Hf (VStream (import_state st)) eq_refl) as (Hh & Hu & Hu0).
       eapply wp_mono; [by apply wp_restore_stream|]. intros c' r. by apply restored_ext. }
  all: match goal with |- context [fill_from ?d ?p] => destruct (fill_total d p) as [v Hv]; [done|] end;
    destruct (Hf v Hv) as (Hh & _); destruct Hv as [Ev Ht];
    (eapply wp_mono; [eapply wp_restore_container; [done|done|done|exact Ev|exact Ht| |exact Hh]|
      intros c' r; apply restored_ext; intros v' ->; by split]);
    destruct v; try done; first [by apply hash_delta_records | apply and_ok_records].
Qed.

(** The outcome of [restore_key]. *)
Definition restore_outcome t d key p (replace : bool) c c' (r : result KError bool) : Prop :=
  (r = Ok false ∧ replace = false ∧ is_Some (visible t key (slots c)) ∧ step c c' (slots c)) ∨
  ((replace = true ∨ visible t key (slots c) = None) ∧
   ∃ m1, m1 ⊆ base.delete key (slots c) ∧ (max_memory c = 0 → m1 = base.delete key (slots c)) ∧
    ((r = Err OutOfMemory ∧ max_memory c ≠ 0 ∧ step c c' m1) ∨
     (∃ v, restored_value d p v ∧ r = Ok true ∧
        lands c c' (<[key := mkKeySlot (expiry_after t (payload_pttl p)) v]> m1)))).

Lemma purge_hidden t key m : visible t key m = None → purge t key m = base.delete key m.
Proof.
  unfold visible, purge, due. destruct (m !! key) as [s|] eqn:E; simpl; [|intros _; by rewrite delete_id].
  by destruct (is_expired t s).
Qed.

Lemma fits_in_step d c c' key p m : inv c → step c c' m → m ⊆ slots c → fits_in d c key p → fits_in d c' key p.
Proof.
  intros H Hst Hsub. destruct (cfg_limits _ _ _ Hst) as [_ El].
  destruct p; cbn [fits_in]; intros Hf; try (intros v Hv; destruct (Hf v Hv) as (Hh & Hu); split; [|done]; by eapply headroom_step).
  by rewrite El.
Qed.

Lemma wp_restore_key t d key p replace c :
  inv c → draws_ok d → no_second_check c p → fits_in d c key p →
  wp (restore_key t d key p replace) c (restore_outcome t d key p replace c).
Proof.
  intros H Hd Hn Hf. unfold restore_key. apply wp_bind. eapply wp_mono; [by apply wp_exists|]. intros c1 r [H1 ->].
  assert (Hgo : ∀ c2, (replace = true ∨ visible t key (slots c) = None) → step c c2 (base.delete key (slots c)) →
    wp (_ ?← restore_value t d key p; mret (Ok true)) c2 (restore_outcome t d key p replace c)).
  { intros c2 Hwhen H2. pose proof (delete_subseteq (slots c) key) as Hsub. destruct (cfg_limits _ _ _ H2) as [Em _].
    apply wp_try. eapply wp_mono.
    - apply wp_restore_value; [apply H2|done|rewrite (st_slots _ _ _ H2); apply lookup_delete_eq| |by eapply fits_in_step].
      unfold no_second_check in *. by rewrite Em.
    - intros c3 r (m1 & Hs & Hu & Hr). rewrite (st_slots _ _ _ H2), ?Em in *.
      assert (G : ∀ r', (r' = Err OutOfMemory ∧ max_memory c ≠ 0 ∧ step c c3 m1) ∨ (∃ v, restored_value d p v ∧ r' = Ok true ∧
        lands c c3 (<[key := mkKeySlot (expiry_after t (payload_pttl p)) v]> m1)) → restore_outcome t d key p replace c c3 r').
      { intros r' Hr'. right. split; [done|]. by exists m1. }
      destruct Hr as [(-> & Hmm & H3)|(v & Hv & -> & H3)]; [apply G; left|apply wp_ret, G; right; exists v].
      + split; [done|]. split; [done|]. by eapply step_trans.
      + split; [done|]. split; [done|]. by eapply lands_trans. }
  destruct (visible t key (slots c)) as [s|] eqn:Ev.
  - destruct (purge_live _ _ _ _ Ev) as [Ep Ek]. rewrite Ep in H1. rewrite bool_decide_true by done. cbn [andb].
    destruct replace; cbn [negb].
    + apply wp_bind. eapply wp_mono; [apply wp_delete, H1|]. intros c2 r [H2 _]. rewrite (st_slots _ _ _ H1) in H2.
      apply Hgo; [by left|by eapply step_trans].
    + apply wp_ret. left. split; [done|]. split; [done|]. by rewrite Ev.
  - rewrite bool_decide_false by (by intros [? ?]). cbn [andb]. apply wp_bind, wp_ret. apply Hgo; [by right|].
    by rewrite <- (purge_hidden t key).
Qed.

(** ** COPY *)

Lemma outcome_step t d key p replace c c1 c' r :
  step c c1 (slots c) → restore_outcome t d key p replace c1 c' r → restore_outcome t d key p replace c c' r.
Proof.
  intros H1 Hr. pose proof (st_slots _ _ _ H1) as E1. destruct (cfg_limits _ _ _ H1) as [Em _].
  unfold restore_outcome in *. rewrite E1, Em in Hr.
  destruct Hr as [(-> & Hrep & Hv & H2)|(Hwhen & m1 & Hsub & Hun & Hr)]; [left|right].
  - split; [done|]. split; [done|]. split; [done|]. by eapply step_trans.
  - split; [done|]. exists m1. split; [done|]. split; [done|]. destruct Hr as [(-> & Hmm & H2)|(v & Hv & -> & H2)]; [left|right; exists v].
    + split; [done|]. split; [done|]. by eapply step_trans.
    + split; [done|]. split; [done|]. by eapply lands_trans.
Qed.

Lemma wp_dump_visible t key c s :
  inv c → visible t key (slots c) = Some s → short_ttl t s →
  wp (dump_key t key) c (λ c' r, step c c' (slots c) ∧ r = Some (slot_payload t s)).
Proof.
  intros H Hv Hs. eapply wp_mono; [apply wp_dump_key; [done|]|].
  - intros s' Hs'. rewrite Hs' in Hv. by injection Hv as ->.
  - intros c' r [H1 ->]. rewrite Hv in *. destruct (purge_live _ _ _ _ Hv) as [Ep _]. by rewrite Ep in H1.
Qed.

Lemma no_second_check_step c c1 m p : step c c1 m → no_second_check c p → no_second_check c1 p.
Proof. intros H1. destruct (cfg_limits _ _ _ H1) as [Em _]. unfold no_second_check. by rewrite Em. Qed.

Lemma wp_copy_key t d src dst replace c s :
  inv c → draws_ok d → src ≠ dst → visible t src (slots c) = Some s → short_ttl t s →
  no_second_check c (slot_payload t s) → fits_in d c dst (slot_payload t s) →
  wp (copy_key t d src dst replace) c (restore_outcome t d dst (slot_payload t s) replace c).
Proof.
  intros H Hd Hne Hv Hs Hn Hf. unfold copy_key. apply wp_bind. eapply wp_mono; [by apply (wp_dump_visible t src c s)|].
  intros c1 r [H1 ->]. rewrite decide_False by done. eapply wp_mono.
  - apply wp_restore_key; [apply H1|done|by eapply no_second_check_step|by eapply fits_in_step].
  - intros c' r. by apply outcome_step.
Qed.

(** The expiry of a copy: none if the key has none or if less than a millisecond is left, and otherwise
    less than a millisecond before the one of the key. *)
Definition same_expiry t (exp exp' : option Z) : Prop :=
  match exp with
  | None => exp' = None
  | Some x => if decide (x - now t < 1000000) then exp' = None else ∃ x', exp' = Some x' ∧ x - 1000000 < x' ≤ x
  end.

Lemma payload_pttl_from v pttl : payload_pttl (payload_from v pttl) = pttl.
Proof. by destruct v. Qed.

Lemma copied_expiry t s :
  is_expired t s = false → short_ttl t s → same_expiry t (expires_at s) (expiry_after t (payload_pttl (slot_payload t s))).
Proof.
  intros Hl Hs. unfold slot_payload. rewrite payload_pttl_from. unfold same_expiry, expiry_after.
  destruct (expires_at s) as [x|] eqn:E; [|done]. destruct (remaining_short t s x Hl Hs E) as [-> Hp].
  unfold is_expired in Hl. rewrite E in Hl. apply Z.leb_gt in Hl. case_decide as Hlt.
  - by rewrite Z.div_small by lia.
  - pose proof (Z.div_mod (x - now t) 1000000 ltac:(lia)). pose proof (Z.mod_pos_bound (x - now t) 1000000 ltac:(lia)).
    rewrite (proj2 (Z.ltb_lt _ _)) by lia. eexists. split; [done|]. lia.
Qed.


(** ** MOVE *)

Lemma wp_on_src {A : Type} (m : M A) (a b : C) (Q : C * C → A → Prop) : wp m a (λ a' r, Q (a', b) r) → wp (on_src m) (a, b) Q.
Proof. unfold wp, on_src. by destruct (m a) as [[a' r]|]. Qed.
Lemma wp_on_dst {A : Type} (m : M A) (a b : C) (Q : C * C → A → Prop) : wp m b (λ b' r, Q (a, b') r) → wp (on_dst m) (a, b) Q.
Proof. unfold wp, on_dst. by destruct (m b) as [[b' r]|]. Qed.

Definition moved t key s (a b a' b' : C) (r : result KError bool) : Prop :=
  match r with
  | Ok true => slots a' = base.delete key (slots a) ∧
      ∃ exp v, slots b' !! key = Some (mkKeySlot exp v) ∧ same_content (slot_value s) v ∧ same_expiry t (expires_at s) exp
  | Ok false => slots a' = slots a ∧ is_Some (visible t key (slots b)) ∧ slots b' = slots b
  | Err e => slots a' = slots a ∧ e = OutOfMemory ∧ max_memory b ≠ 0
  end.


(** ** DUMP and RESTORE *)

(** What the Redis encoding keeps: it has no flags, and a geo set becomes a sorted set. *)
Definition portable v : Prop :=
  match v with VString e => flags e = 0 | VGeo _ => False | _ => True end.

Lemma dumped_portable t s : portable (slot_value s) → dumped (slot_payload t s) = set_pttl (slot_payload t s) (-1).
Proof. unfold slot_payload. destruct (slot_value s) as [e|h|l|st|z|g|st]; try done. cbn. by intros ->. Qed.

Lemma restored_set_pttl d p x v : restored_value d (set_pttl p x) v ↔ restored_value d p v.
Proof. by destruct p. Qed.

Lemma payload_pttl_set p x : payload_pttl (set_pttl p x) = x.
Proof. by destruct p. Qed.

Lemma set_pttl_twice p x y : set_pttl (set_pttl p x) y = set_pttl p y.
Proof. by destruct p. Qed.

Lemma fits_in_pttl d c key p x : fits_in d c key (set_pttl p x) ↔ fits_in d c key p.
Proof. by destruct p. Qed.

Lemma wp_restore_serialized n t d key data p ttl_arg replace c :
  inv c → draws_ok d → max_memory c = 0 → decode_dump n data = Ret (Ok p) → fits_in d c key p →
  (replace = true ∨ visible t key (slots c) = None) → 0 ≤ ttl_arg →
  wp (restore_serialized n t d key data ttl_arg replace false) c (λ c' r, r = Ok true ∧ ∃ v, restored_value d p v ∧
    lands c c' (<[key := mkKeySlot (expiry_after t ttl_arg) v]> (slots c))).
Proof.
  intros H Hd Hmm Hdec Hf Hwhen Ht. unfold restore_serialized. apply wp_bind. eapply wp_mono; [by apply wp_exists|].
  intros c1 r [H1 ->]. assert (Hgo : bool_decide (is_Some (visible t key (slots c))) && negb replace = false).
  { destruct Hwhen as [->| ->]; [by rewrite andb_false_r|done]. }
  rewrite Hgo. apply wp_bind. unfold wp at 1, lift. rewrite Hdec. cbv zeta. unfold with_restore_ttl. rewrite payload_pttl_set.
  set (pttl := if ttl_arg <=? 0 then -1 else _). assert (Hp : pttl ≠ 0 ∧ expiry_after t pttl = expiry_after t ttl_arg).
  { unfold pttl, expiry_after. destruct (Z.leb_spec ttl_arg 0); [|by split; [lia|]]. by rewrite (proj2 (Z.ltb_ge 0 ttl_arg)). }
  destruct Hp as [Hp0 Hpe]. rewrite (proj2 (Z.eqb_neq _ _)) by done. destruct (cfg_limits _ _ _ H1) as [Em _].
  assert (Hsub : purge t key (slots c) ⊆ slots c) by (unfold purge; destruct (due _ _ _); [apply delete_subseteq|done]).
  apply wp_bind. eapply wp_mono.
  - apply wp_restore_key; [apply H1|done|unfold no_second_check; by destruct p; rewrite ?Em|].
    apply fits_in_pttl. by eapply fits_in_step.
  - intros c2 r [(_ & [=] & _)|(_ & m1 & _ & Hun & Hr)]. rewrite Em in *. specialize (Hun Hmm). subst m1.
    destruct Hr as [(_ & ? & _)|(v & Hv & -> & H2)]; [done|]. apply wp_bind, wp_ret, wp_ret. split; [done|]. exists v.
    split; [by apply restored_set_pttl in Hv|]. rewrite payload_pttl_set, Hpe, (st_slots _ _ _ H1), insert_delete_eq in H2.
    apply (lands_trans c c1 c2 (purge t key (slots c))); [done|]. replace (<[key := mkKeySlot _ v]> (slots c)) with
      (<[key := mkKeySlot (expiry_after t ttl_arg) v]> (purge t key (slots c))); [done|].
    unfold purge. destruct (due _ _ _); [apply insert_delete_eq|done].
Qed.


(** ** Where it goes wrong *)

(** A key in its last millisecond is copied without an expiry.  The snapshot carries whole milliseconds;
    zero of them is restored like none, so the copy stays for ever. *)
Theorem copy_forgets_expiry t d src dst c s exp :
  inv c → draws_ok d → max_memory c = 0 → src ≠ dst → visible t src (slots c) = Some s →
  expires_at s = Some exp → exp - now t < 1000000 → fits_in d c dst (slot_payload t s) →
  ∃ c' v, copy_key t d src dst true c = Ret (c', Ok true) ∧ slots c' !! dst = Some (mkKeySlot None v).
Proof.
  intros H Hd Hmm Hne Hv Hexp Hlt Hf.
  assert (Hs : short_ttl t s) by (unfold short_ttl; rewrite Hexp; unfold i64_max; lia).
  destruct (wp_elim _ _ _ (wp_copy_key t d src dst true c s H Hd Hne Hv Hs ltac:(by unfold no_second_check; case_match) Hf))
    as (c' & r & E & [(_ & [=] & _)|(_ & m1 & _ & _ & Hr)]).
  destruct Hr as [(_ & ? & _)|(v & _ & -> & H1)]; [done|]. exists c', v. split; [done|]. rewrite (proj1 H1), lookup_insert_eq.
  pose proof (copied_expiry t s (visible_live _ _ _ _ Hv) Hs) as Hx. unfold same_expiry in Hx. rewrite Hexp, decide_True in Hx by done.
  by rewrite Hx.
Qed.

(** The fields are written, and the second check refuses them. *)
Lemma wp_restore_refused t d key fields pttl replace c :
  let empty := VHash hash_new in
  let full := VHash (set_fields fields hash_new) in
  inv c → slots c !! key = None → eviction_allowed c = false → max_memory c ≠ 0 →
  total (memory_tracker c) + value_bytes key empty ≤ max_memory c →
  max_memory c < total (memory_tracker c) + value_bytes key full → total (memory_tracker c) + value_bytes key full ≤ u64_max →
  wp (restore_key t d key (PHash fields pttl) replace) c (λ c' r, r = Err OutOfMemory ∧
    slots c' = <[key := mkKeySlot None full]> (slots c) ∧
    memory_tracker c' = account (memory_tracker c) (value_bytes key empty) CatHashes).
Proof.
  intros empty full H Hk Hev Hmm Hlo Hhi Hmax. pose proof (value_bytes_pos key empty) as P0. pose proof (total_nonneg c H) as Htot.
  unfold restore_key, exists_. apply wp_bind, wp_bind. unfold get_key_value, purge_if_expired. apply wp_bind, wp_bind.
  apply wp_kv_get; [apply H|]. rewrite Hk. apply wp_ret, wp_bind, wp_kv_get; [apply H|]. rewrite Hk. apply wp_ret, wp_ret.
  cbn [fmap option_fmap option_map]. rewrite bool_decide_false by (by intros [? ?]). cbn [andb]. apply wp_bind, wp_ret, wp_try.
  cbn [restore_value]. unfold restore_container. apply wp_try.
  eapply wp_mono; [apply (wp_create_granted t _ CHash); [done|done|done|lia|done]|]. intros c2 r (-> & H2 & Et).
  apply wp_bind. unfold wp at 1, lift. cbn [fill_from empty_of].
  assert (Hk2 : slots c2 !! key = Some (mkKeySlot None empty)) by (rewrite (st_slots _ _ _ H2); apply lookup_insert_eq).
  apply wp_bind. eapply wp_mono; [apply (wp_write_value _ full _ _ (st_inv _ _ _ H2) Hk2)|]. intros c3 [] (kv & -> & Hkv & E).
  rewrite (st_slots _ _ _ H2), insert_insert_eq in E. change (memory_category (empty_of CHash)) with CatHashes in Et.
  change (empty_of CHash) with empty in Et. destruct (account_ok (memory_tracker c) (value_bytes key empty) CatHashes (inv_tracker c H) P0 ltac:(lia)) as (_ & A2 & _).
  destruct (cfg_limits _ _ _ H2) as [Em _]. pose proof (inv_limit _ (st_inv _ _ _ H2)) as Hlim. rewrite Em in Hlim.
  change (estimate_keyed_object (zlen key) (container_size (VHash hash_new))) with (value_bytes key empty).
  change (estimate_keyed_object (zlen key) (container_size (VHash (set_fields fields hash_new)))) with (value_bytes key full).
  apply wp_try. unfold wp, account_hash_delta, try_bind. rewrite (proj2 (Z.ltb_lt _ _)) by lia. rewrite ensure_refused; [done|lia| |].
  - cbn [memory_tracker set_key_values]. rewrite can_allocate_spec; rewrite ?Hlim, ?Et, ?A2; [apply Z.leb_gt; lia|done|lia].
  - change (eviction_allowed c2 = false). by rewrite (step_eviction _ _ _ H2).
Qed.

(** A hash that does not fit is restored without being accounted.  With a memory limit and eviction off,
    when the empty hash fits and its fields do not, RESTORE (and COPY, and MOVE) answers that it is out of
    memory, yet the key is there with all its fields, and the counters only know the empty hash: the
    writer does not undo its write, as the accounting function asks of it. *)
Theorem restore_hash_unaccounted t d key fields pttl replace c :
  let empty := VHash hash_new in
  let full := VHash (set_fields fields hash_new) in
  inv c → slots c !! key = None → eviction_allowed c = false → max_memory c ≠ 0 →
  total (memory_tracker c) + value_bytes key empty ≤ max_memory c →
  max_memory c < total (memory_tracker c) + value_bytes key full → total (memory_tracker c) + value_bytes key full ≤ u64_max →
  ∃ c', restore_key t d key (PHash fields pttl) replace c = Ret (c', Err OutOfMemory) ∧
    slots c' = <[key := mkKeySlot None full]> (slots c) ∧
    total (memory_tracker c') = total (memory_tracker c) + value_bytes key empty ∧ ¬ inv c'.
Proof.
  intros empty full H Hk Hev Hmm Hlo Hhi Hmax. subst empty full. destruct (wp_elim _ _ _ (wp_restore_refused t d key fields pttl replace c H Hk Hev Hmm Hlo Hhi Hmax))
    as (c' & r & E & -> & Es & Et). exists c'. split; [done|]. split; [done|].
  destruct (account_ok (memory_tracker c) (value_bytes key (VHash hash_new)) CatHashes (inv_tracker c H) (value_bytes_pos _ _)
    ltac:(lia)) as (_ & A2 & A3).
  rewrite Et, A2. split; [done|]. intros H'. pose proof (inv_counts c' H' CatHashes ltac:(done) ltac:(done)) as G.
  rewrite Et, A3, decide_True, Es, (inv_counts c H) in G by done. unfold cat_bytes in G. rewrite map_sum_insert, Hk in G.
  cbn [from_option slot_value memory_category] in G. rewrite decide_True, slot_bytes_value in G by done. lia.
Qed.
End props.

(** ** Witnesses *)

Definition no_draws : Draws := mkDraws no_rounds no_rounds (λ _ _, false).

Lemma no_draws_ok : draws_ok no_draws.
Proof. intros i. split; apply no_rounds_ok. Qed.

(** A hash of one field with two and a half milliseconds to go. *)
Definition fading : KeySlot GeoSet := mkKeySlot (Some 2500000) (VHash (hset hash_new (bs "f") (bs "v")).1).

Lemma fading_fits (c : Cache GeoSet unit) exp dst : total (memory_tracker c) ≤ 1000 → zlen dst = 1 →
  @fits_in unit geo_platform no_draws c dst (@slot_payload key_order (clock_at 0) (mkKeySlot exp (slot_value fading))).
Proof.
  intros Hc Hd v [E _]. assert (Ev : v = VHash (set_fields [(bs "f", bs "v")] hash_new)) by (by injection E).
  subst v. unfold headroom, value_bytes, unsaturated. rewrite Hd. split; [|split; vm_compute; discriminate].
  eapply Z.le_trans; [apply Z.add_le_mono_r, Hc|]. vm_compute. discriminate.
Qed.



