(* ===== verification/HashCommands.v ===== *)
(** * Hash commands ([commands/hash.rs])

    The handlers of the H* commands: from the arguments of a request to the reply, through the typed
    keys.  Every handler of the file answers [Ok], so a handler returns the reply.  With them the
    argument parsers of [commands/mod.rs] and [commands/admin.rs] they use, and the indexing of a
    written hash ([auto_index_key] of [cache/search.rs]).

    A handler mutates the hash under its lock, releases it, and then asks for the memory; if there is
    none it undoes its write.  The eviction that makes the memory may take the very key, which leaves
    the handle without a slot: a later write through it is lost. *)

From S2P Require Import Prelude RustStd Errors Resp Reply Glob Text ListType SetType HashType SortedSet StreamType Memory KeyMap Keyspace CacheOps Float64 Geo Rdb KeyDump TypedKeys KeyXfer.
From Stdlib Require Import SpecFloat.
Local Open Scope Z_scope.

(** ** Arguments *)

Definition flat_pairs (l : list (Bytes * Bytes)) : list RespValue := l ≫= (λ '(f, v), [bulk f; bulk v]).

Definition invalid_key : RespValue := error (str "ERR invalid key").
Definition invalid_field : RespValue := error (str "ERR invalid field").
Definition invalid_value : RespValue := error (str "ERR invalid value").

(** The bulk strings among the arguments. *)
Definition bulk_strings (args : list RespValue) : list Bytes := omap as_bulk_string args.

(** The field-value pairs of HSET. *)
Fixpoint parse_pairs (args : list RespValue) : result RespValue (list (Bytes * Bytes)) :=
  match args with
  | f :: v :: args =>
    match as_bulk_string f, as_bulk_string v with
    | Some f, Some v => pairs ← parse_pairs args; Ok ((f, v) :: pairs)
    | None, _ => Err invalid_field
    | _, None => Err invalid_value
    end
  | _ => Ok []
  end.

(** [parse_scan_options]: the keywords have ASCII letters only, to which no other letter is
    capitalised, so the comparison ignores the case of ASCII letters. *)
Record ScanOptions : Type := mkScanOptions {
  scan_pattern : option Str;
  scan_count : Z;
  scan_type : option Str
}.

Definition scan_types : list Str := [str "string"; str "list"; str "set"; str "zset"; str "hash"; str "stream"].

Fixpoint parse_scan_options (args : list RespValue) (o : ScanOptions) : result RespValue ScanOptions :=
  match args with
  | [] => Ok o
  | opt :: args =>
    match as_bulk_string opt with
    | None => Err syntax_error
    | Some opt =>
      let opt := to_ascii_lowercase (from_utf8_lossy opt) in
      if decide (opt = str "match") then
        match args with
        | [] => Err syntax_error
        | v :: args =>
          match as_bulk_string v with
          | Some s => parse_scan_options args (mkScanOptions (Some (from_utf8_lossy s)) (scan_count o) (scan_type o))
          | None => Err syntax_error
          end
        end
      else if decide (opt = str "count") then
        match args with
        | [] => Err syntax_error
        | v :: args =>
          match parse_integer v with
          | Ok c => if 0 <? c then parse_scan_options args (mkScanOptions (scan_pattern o) c (scan_type o)) else Err not_integer
          | Err _ => Err not_integer
          end
        end
      else if decide (opt = str "type") then
        match args with
        | [] => Err syntax_error
        | v :: args =>
          match as_bulk_string v with
          | Some s =>
            let ty := to_ascii_lowercase (from_utf8_lossy s) in
            if decide (ty ∈ scan_types) then parse_scan_options args (mkScanOptions (scan_pattern o) (scan_count o) (Some ty))
            else Err (error (str "ERR type not supported for TYPE filter"))
          | None => Err syntax_error
          end
        end
      else Err syntax_error
    end
  end.

Definition scan_defaults : ScanOptions := mkScanOptions None 10 None.

(** The order of pairs by name. *)
Definition name_le (a b : Bytes * Bytes) : Prop := bytes_le a.1 b.1.
#[global] Instance name_le_dec : RelDecision name_le.
Proof. intros a b. unfold name_le. apply bytes_le_dec. Defined.

Definition cursor_page {A} (items : list A) (cursor count : Z) : Z * list A :=
  if zlen items <=? cursor then (0, [])
  else
    let end_ := Z.min (wrap_u64 (cursor + count)) (zlen items) in
    (if zlen items <=? end_ then 0 else end_, take (Z.to_nat (end_ - cursor)) (drop (Z.to_nat cursor) items)).

Definition scan_name_matches (pattern : option Str) (name : Bytes) : bool :=
  match pattern with
  | None => true
  | Some pat => pattern_match pat (default [] (from_utf8 name))
  end.

Definition scan_reply (next_cursor : Z) (elements : list RespValue) : RespValue :=
  Array [bulk (dec next_cursor); Array elements].

(** ** Indexing a written hash ([cache/search.rs]) *)

(** What indexing asks of the indexes: the approximate size of a document and writing it. *)
Class SearchWriter (S : Type) : Type := {
  document_approx_size : Bytes → gmap Str Str → Z;
  index_document : S → Str → Bytes → gmap Str Str → S
}.

#[global] Instance no_search_writer : SearchWriter unit := {| document_approx_size _ _ := 0; index_document _ _ _ _ := tt |}.

Section commands.
Context {Srch : Type} {platform : Platform GeoSet} {search : SearchManager Srch} {writer : SearchWriter Srch} {order : MapOrder}.
Context (t : Clock).
Abbreviation M := (St (Cache GeoSet Srch)).

(** [rounds] are the evictions of this write. *)
Definition account_search_index_write (rounds : nat → Round) (key : Bytes) (old_size : option Z) (fields : gmap Str Str) : M bool :=
  let old_size := default 0 old_size in
  let new_size := document_approx_size (S := Srch) key fields in
  let delta := new_size - old_size in
  granted ← (if old_size <? new_size then
    room ← asks (λ c, can_allocate (memory_tracker c) delta CatSearch);
    if room : bool then mret true
    else
      allowed ← asks eviction_allowed;
      _ ← (if allowed : bool then evict_memory_excluding t rounds delta (Some key) else mret (Ok tt));
      asks (λ c, can_allocate (memory_tracker c) delta CatSearch)
    else mret true);
  if granted : bool then
    _ ← (if 0 <? old_size then track_free old_size CatSearch else mret tt);
    _ ← (if 0 <? new_size then track_add new_size CatSearch else mret tt);
    mret true
  else mret false.

Fixpoint index_all (rounds : nat → nat → Round) (n : nat) (key : Bytes) (fields : gmap Str Str) (indices : list Str) : M unit :=
  match indices with
  | [] => mret tt
  | i :: indices =>
    old ← asks (λ c, document_size (search_index_manager c) i key);
    granted ← account_search_index_write (rounds n) key old fields;
    _ ← (if granted : bool then modify (λ c, set_search c (index_document (search_index_manager c) i key fields)) else mret tt);
    index_all rounds (S n) key fields indices
  end.

(** [rounds] are the evictions for each index. *)
Definition auto_index_key (rounds : nat → nat → Round) (key : Bytes) (fields : gmap Str Str) : M unit :=
  matching ← asks (λ c, find_matching_indices (search_index_manager c) key);
  index_all rounds 0 key fields matching.

(** The fields as text; of names with the same text the last one counts. *)
Definition index_fields (h : RedisHash) : gmap Str Str :=
  foldl (λ m '(f, v), <[from_utf8_lossy f := from_utf8_lossy v]> m) ∅ (hgetall map_iter h).

(** ** Access to the hash of a key *)

Definition ensure_hash_key (key : Bytes) : M (result KError (option unit)) :=
  kt ← key_type t key;
  mret match kt with KNone => Ok None | KHash => Ok (Some tt) | _ => Err WrongType end.

(** The reply of a reading command if the key has another type. *)
Definition checked (key : Bytes) (k : M RespValue) : M RespValue :=
  r ← ensure_hash_key key;
  match r with Err WrongType => mret (error_reply WrongType) | _ => k end.

Definition get_hash (key : Bytes) : M (option RedisHash) :=
  v ← get_typed CHash key;
  mret match v with Some (VHash h) => Some h | _ => None end.

Definition keyed_size (key : Bytes) (h : RedisHash) : Z := estimate_keyed_object (zlen key) (container_size (VHash h)).

(** The evictions a writing command may cause: for a first check, for creating the hash, for its
    growth and for indexing it. *)
Record Rounds : Type := mkRounds {
  r_check : nat → Round;
  r_create : nat → Round;
  r_grow : nat → Round;
  r_index : nat → nat → Round
}.

(** The hash of the key, created if there is none. *)
Definition with_hash (r : Rounds) (key : Bytes) (k : RedisHash → M RespValue) : M RespValue :=
  v ← get_or_create_hash t (r_create r) key;
  match v with
  | Ok (VHash h) => k h
  | Ok _ => mret (error_reply WrongType)
  | Err e => mret (error_reply e)
  end.

(** The write of [after] over [before]; without the memory for it, [undone] replaces it, and an empty
    hash goes away. *)
Definition write_hash (r : Rounds) (key : Bytes) (before after undone : RedisHash) (k : M RespValue) : M RespValue :=
  _ ← write_value key (VHash after);
  granted ← account_hash_delta t (r_grow r) (keyed_size key before) (keyed_size key after);
  match granted with
  | Ok _ => k
  | Err e =>
    _ ← write_value key (VHash undone);
    _ ← (if hash_is_empty undone then remove_hash key else mret false);
    mret (error_reply e)
  end.

(** A write that does not make the hash larger. *)
Definition shrink_hash (r : Rounds) (key : Bytes) (before after : RedisHash) (k : M RespValue) : M RespValue :=
  _ ← write_value key (VHash after);
  _ ← account_hash_delta t (r_grow r) (keyed_size key before) (keyed_size key after);
  _ ← (if hash_is_empty after then remove_hash key else mret false);
  k.

(** ** Handlers *)

(** The old values of the fields a HSET writes. *)
Definition originals_of (h : RedisHash) (pairs : list (Bytes * Bytes)) : gmap Bytes (option Bytes) :=
  foldl (λ m '(f, _), match m !! f with Some _ => m | None => <[f := hget h f]> m end) ∅ pairs.

Definition put_back (originals : gmap Bytes (option Bytes)) (h : RedisHash) : RedisHash :=
  foldl (λ h '(f, old), match old with Some v => (hset h f v).1 | None => (hdel h [f]).1 end) h (map_iter originals).

Fixpoint hset_all (h : RedisHash) (added : Z) (pairs : list (Bytes * Bytes)) : RedisHash * Z :=
  match pairs with
  | [] => (h, added)
  | (f, v) :: pairs => let '(h, new) := hset h f v in hset_all h (if new : bool then added + 1 else added) pairs
  end.

Definition handle_hset (r : Rounds) (args : list RespValue) : M RespValue :=
  if (zlen args <? 3) || (zlen args mod 2 =? 0) then mret (wrong_args (str "hset")) else
  let? key := args !! 0%nat ≫= as_bulk_string else invalid_key in
  match parse_pairs (drop 1 args) with
  | Err e => mret e
  | Ok pairs =>
    with_hash r key (λ h,
      let '(h', added) := hset_all h 0 pairs in
      write_hash r key h h' (put_back (originals_of h pairs) h')
        (_ ← auto_index_key (r_index r) key (index_fields h'); mret (Integer added)))
  end.

Definition handle_hsetnx (r : Rounds) (args : list RespValue) : M RespValue :=
  if negb (zlen args =? 3) then mret (wrong_args (str "hsetnx")) else
  let? key := args !! 0%nat ≫= as_bulk_string else invalid_key in
  let? field := args !! 1%nat ≫= as_bulk_string else invalid_field in
  let? value := args !! 2%nat ≫= as_bulk_string else invalid_value in
  present ← get_hash key;
  let slow : M RespValue :=
    room ← ensure_non_string_capacity t (r_check r) (wrap_u64 (wrap_u64 (zlen field + zlen value) + 32));
    match room with
    | Err e => mret (error_reply e)
    | Ok _ =>
      with_hash r key (λ h,
        if hexists h field then mret (Integer 0) else
        let '(h', added) := hset h field value in
        if negb added then _ ← write_value key (VHash h'); mret (Integer 0) else
        write_hash r key h h' (hdel h' [field]).1
          (_ ← auto_index_key (r_index r) key (index_fields h'); mret (Integer 1)))
    end in
  match present with
  | Some h => if hexists h field then mret (Integer 0) else slow
  | None => checked key slow
  end.

Definition handle_hget (args : list RespValue) : M RespValue :=
  if negb (zlen args =? 2) then mret (wrong_args (str "hget")) else
  let? key := args !! 0%nat ≫= as_bulk_string else invalid_key in
  checked key (
    let? field := args !! 1%nat ≫= as_bulk_string else invalid_field in
    h ← get_hash key;
    mret match h with Some h => bulk_or_null (hget h field) | None => null end).

Definition handle_hmget (args : list RespValue) : M RespValue :=
  if zlen args <? 2 then mret (wrong_args (str "hmget")) else
  let? key := args !! 0%nat ≫= as_bulk_string else invalid_key in
  checked key (
    let fields := bulk_strings (drop 1 args) in
    h ← get_hash key;
    mret (Array match h with
                | Some h => bulk_or_null <$> hmget h fields
                | None => (λ _, null) <$> fields
                end)).

Definition handle_hdel (r : Rounds) (args : list RespValue) : M RespValue :=
  if zlen args <? 2 then mret (wrong_args (str "hdel")) else
  let? key := args !! 0%nat ≫= as_bulk_string else invalid_key in
  checked key (
    let fields := bulk_strings (drop 1 args) in
    h ← get_hash key;
    match h with
    | None => mret (Integer 0)
    | Some h => let '(h', removed) := hdel h fields in shrink_hash r key h h' (mret (Integer (Z.of_nat removed)))
    end).

Definition handle_hgetdel (r : Rounds) (args : list RespValue) : M RespValue :=
  if zlen args <? 2 then mret (wrong_args (str "hgetdel")) else
  let? key := args !! 0%nat ≫= as_bulk_string else invalid_key in
  checked key (
    let fields := bulk_strings (drop 1 args) in
    if decide (fields = []) then mret (wrong_args (str "hgetdel")) else
    h ← get_hash key;
    match h with
    | None => mret (Array ((λ _, null) <$> fields))
    | Some h => let '(h', values) := hgetdel h fields in shrink_hash r key h h' (mret (Array (bulk_or_null <$> values)))
    end).

(** [proto] is the protocol version of the connection. *)
Definition handle_hgetall (proto : Z) (args : list RespValue) : M RespValue :=
  if negb (zlen args =? 1) then mret (wrong_args (str "hgetall")) else
  let? key := args !! 0%nat ≫= as_bulk_string else invalid_key in
  checked key (
    h ← get_hash key;
    let pairs := match h with Some h => hgetall map_iter h | None => [] end in
    mret (if 3 <=? proto then Map ((λ '(f, v), (bulk f, bulk v)) <$> pairs) else Array (flat_pairs pairs))).

Definition handle_hlen (args : list RespValue) : M RespValue :=
  if negb (zlen args =? 1) then mret (wrong_args (str "hlen")) else
  let? key := args !! 0%nat ≫= as_bulk_string else invalid_key in
  checked key (
    h ← get_hash key;
    mret (Integer (Z.of_nat (default 0%nat (hlen <$> h))))).

Definition handle_hexists (args : list RespValue) : M RespValue :=
  if negb (zlen args =? 2) then mret (wrong_args (str "hexists")) else
  let? key := args !! 0%nat ≫= as_bulk_string else invalid_key in
  checked key (
    let? field := args !! 1%nat ≫= as_bulk_string else invalid_field in
    h ← get_hash key;
    mret (of_bool (default false ((λ h, hexists h field) <$> h)))).

Definition handle_hkeys (args : list RespValue) : M RespValue :=
  if negb (zlen args =? 1) then mret (wrong_args (str "hkeys")) else
  let? key := args !! 0%nat ≫= as_bulk_string else invalid_key in
  checked key (
    h ← get_hash key;
    mret (Array (default [] ((λ h, bulk <$> hkeys map_iter h) <$> h)))).

Definition handle_hvals (args : list RespValue) : M RespValue :=
  if negb (zlen args =? 1) then mret (wrong_args (str "hvals")) else
  let? key := args !! 0%nat ≫= as_bulk_string else invalid_key in
  checked key (
    h ← get_hash key;
    mret (Array (default [] ((λ h, bulk <$> hvals map_iter h) <$> h)))).

(** The field as it was before. *)
Definition put_back_field (field : Bytes) (prior : option Bytes) (h : RedisHash) : RedisHash :=
  match prior with Some old => (hset h field old).1 | None => (hdel h [field]).1 end.

Definition handle_hincrby (r : Rounds) (args : list RespValue) : M RespValue :=
  if negb (zlen args =? 3) then mret (wrong_args (str "hincrby")) else
  let? key := args !! 0%nat ≫= as_bulk_string else invalid_key in
  let? field := args !! 1%nat ≫= as_bulk_string else invalid_field in
  let? delta := args !! 2%nat ≫= (λ a, match parse_integer a with Ok d => Some d | Err _ => None end) else not_integer in
  with_hash r key (λ h,
    match hincrby h field delta with
    | (h', Ok v) => write_hash r key h h' (put_back_field field (hget h field) h') (mret (Integer v))
    | (_, Err msg) => mret (error (str "ERR " ++ msg))
    end).

Section floats.
(** [str::parse::<f64>] and [Display for f64]. *)
Context (parse_f64 : Str → option spec_float) (fmt_f64 : spec_float → Str).

Definition parse_float (v : RespValue) : result KError spec_float :=
  match as_bulk_string v with
  | Some b => ok_or (parse_f64 (from_utf8_lossy b)) (InvalidArgument (str "not a valid float"))
  | None => Err (InvalidArgument (str "not a bulk string"))
  end.

Definition handle_hincrbyfloat (r : Rounds) (args : list RespValue) : M RespValue :=
  if negb (zlen args =? 3) then mret (wrong_args (str "hincrbyfloat")) else
  let? key := args !! 0%nat ≫= as_bulk_string else invalid_key in
  let? field := args !! 1%nat ≫= as_bulk_string else invalid_field in
  let? delta := args !! 2%nat ≫= (λ a, match parse_float a with Ok d => Some d | Err _ => None end)
    else error (str "ERR value is not a valid float") in
  if is_nan delta then mret (error (str "ERR would produce NaN: value is not a valid float")) else
  with_hash r key (λ h,
    match hincrbyfloat parse_f64 fmt_f64 h field delta with
    | (h', Ok v) =>
      write_hash r key h h' (put_back_field field (hget h field) h') (mret (bulk (as_bytes (format_hash_float fmt_f64 v))))
    | (_, Err msg) => mret (error (str "ERR " ++ msg))
    end).
End floats.

Definition handle_hstrlen (args : list RespValue) : M RespValue :=
  if negb (zlen args =? 2) then mret (wrong_args (str "hstrlen")) else
  let? key := args !! 0%nat ≫= as_bulk_string else invalid_key in
  checked key (
    let? field := args !! 1%nat ≫= as_bulk_string else invalid_field in
    h ← get_hash key;
    mret (Integer (Z.of_nat (default 0%nat ((λ h, hstrlen h field) <$> h))))).

Definition handle_hmset (r : Rounds) (args : list RespValue) : M RespValue :=
  if (zlen args <? 3) || (zlen args mod 2 =? 0) then mret (wrong_args (str "hmset")) else
  reply ← handle_hset r args;
  mret match reply with Integer _ => ok | other => other end.

Section random.
(** The samplers of the [rand] crate. *)
Context (choose_multiple : list (Bytes * Bytes) → nat → list (Bytes * Bytes)) (choose : nat → list (Bytes * Bytes) → option (Bytes * Bytes)).

Definition handle_hrandfield (args : list RespValue) : M RespValue :=
  if (zlen args =? 0) || (3 <? zlen args) then mret (wrong_args (str "hrandfield")) else
  let? key := args !! 0%nat ≫= as_bulk_string else invalid_key in
  checked key (
    let option_ok := match args !! 2%nat with
                     | None => true
                     | Some a => default false ((λ s, bool_decide (to_ascii_lowercase (from_utf8_lossy s) = str "withvalues")) <$> as_bulk_string a)
                     end in
    if negb option_ok then mret syntax_error else
    h ← get_hash key;
    match h, args !! 1%nat with
    | None, Some _ => mret (Array [])
    | None, None => mret null
    | Some h, None => mret (bulk_or_null (fst <$> hrandfield_one map_iter choose h))
    | Some h, Some a =>
      match parse_integer a with
      | Err e => mret (error_reply e)
      | Ok count =>
        pairs ← lift (hrandfield map_iter choose_multiple choose h count);
        mret (Array (if bool_decide (is_Some (args !! 2%nat)) then flat_pairs pairs else bulk <$> pairs.*1))
      end
    end).
End random.

Definition handle_hscan (args : list RespValue) : M RespValue :=
  if zlen args <? 2 then mret (wrong_args (str "hscan")) else
  let? key := args !! 0%nat ≫= as_bulk_string else invalid_key in
  checked key (
    let? cursor := args !! 1%nat ≫= (λ a, match parse_integer a with Ok c => if 0 <=? c then Some c else None | Err _ => None end)
      else error (str "ERR invalid cursor") in
    match parse_scan_options (drop 2 args) scan_defaults with
    | Err e => mret e
    | Ok o =>
      h ← get_hash key;
      let pairs := match h with
                   | Some h => filter (λ fv : Bytes * Bytes, scan_name_matches (scan_pattern o) fv.1 = true) (hgetall map_iter h)
                   | None => []
                   end in
      let '(next, batch) := cursor_page (merge_sort name_le pairs) cursor (scan_count o) in
      mret (scan_reply next (flat_pairs batch))
    end).

End commands.
