(* ===== verification/HashProps.v ===== *)
(** * Properties of the hash commands: each is an atomic change of one finite map *)

From S2P Require Import Prelude RustStd Errors Resp Reply Text ListType SetType HashType SortedSet StreamType Memory KeyMap Keyspace CacheOps CacheFacts EvictionFacts CacheSpecs CacheScan Float64 Geo Rdb KeyDump TypedKeys KeyXfer HashCommands Glob KeyspaceSim.
From Stdlib Require Import Lia SpecFloat.
Local Open Scope Z_scope.

(** ** Facts about the hash commands *)

Section writes.
Implicit Types (h : RedisHash) (f v : Bytes) (fs : list Bytes) (pairs : list (Bytes * Bytes)).

(** ** Writing fields, and undoing it *)

(** The fields after the pairs were written in order. *)
Definition written (pairs : list (Bytes * Bytes)) (m : gmap Bytes Bytes) : gmap Bytes Bytes := list_to_map (reverse pairs) ∪ m.

Lemma written_cons f v pairs m : written ((f, v) :: pairs) m = written pairs (<[f := v]> m).
Proof.
  unfold written. rewrite reverse_cons, list_to_map_app, <- map_union_assoc. f_equal. simpl.
  by rewrite insert_empty, <- insert_union_singleton_l.
Qed.

Lemma written_ne f pairs m : f ∉ pairs.*1 → written pairs m !! f = m !! f.
Proof.
  intros Hf. unfold written. apply lookup_union_r, not_elem_of_list_to_map_1. rewrite fmap_reverse. by rewrite elem_of_reverse.
Qed.

Lemma hset_all_spec h n pairs :
  hset_all h n pairs = (mkRedisHash (written pairs (hfields h)),
    n + (Z.of_nat (size (written pairs (hfields h))) - Z.of_nat (size (hfields h)))).
Proof.
  revert h n. induction pairs as [|[f v] pairs IH]; intros h n; cbn [hset_all].
  - unfold written. rewrite reverse_nil, list_to_map_nil, map_empty_union. destruct h. f_equal. simpl. lia.
  - unfold hset. rewrite IH, written_cons. cbn [hfields]. f_equal. destruct (hfields h !! f) as [w|] eqn:E.
    + rewrite bool_decide_false by done. rewrite map_size_insert_Some by done. lia.
    + rewrite bool_decide_true, map_size_insert_None by done. lia.
Qed.

Lemma originals_lookup h pairs (m : gmap Bytes (option Bytes)) f :
  foldl (λ m '(f, _), match m !! f with Some _ => m | None => <[f := hget h f]> m end) m pairs !! f
  = match m !! f with Some o => Some o | None => if decide (f ∈ pairs.*1) then Some (hget h f) else None end.
Proof.
  revert m. induction pairs as [|[g w] pairs IH]; intros m; cbn [foldl].
  - destruct (m !! f); [done|]. case_decide as Hf; [by apply not_elem_of_nil in Hf|done].
  - rewrite IH. destruct (decide (g = f)) as [->|Hne].
    + destruct (m !! f) eqn:E; [by rewrite E|]. rewrite lookup_insert_eq, decide_True by (simpl; apply list_elem_of_here). done.
    + replace (match m !! g with Some _ => m | None => _ end !! f) with (m !! f) by (destruct (m !! g); [done|by rewrite lookup_insert_ne]).
      destruct (m !! f); [done|].
      repeat case_decide; try done; set_solver.
Qed.

Lemma put_back_list (l : list (Bytes * option Bytes)) h f :
  NoDup l.*1 →
  hget (foldl (λ h '(f, old), match old with Some v => (hset h f v).1 | None => (hdel h [f]).1 end) h l) f
  = match (list_to_map l : gmap Bytes (option Bytes)) !! f with Some o => o | None => hget h f end.
Proof.
  revert h. induction l as [|[g o] l IH]; intros h Hnd; [done|]. apply NoDup_cons in Hnd as [Hg Hnd]. simpl. rewrite IH by done.
  destruct (decide (g = f)) as [->|Hne].
  - rewrite lookup_insert_eq, not_elem_of_list_to_map_1 by done. destruct o; unfold hget; simpl; [apply lookup_insert_eq|apply lookup_delete_eq].
  - rewrite lookup_insert_ne by done. destruct (list_to_map l !! f); [done|].
    destruct o; unfold hget; simpl; [by apply lookup_insert_ne|by apply lookup_delete_ne].
Qed.

Lemma put_back_originals `{!MapOrder, !MapOrderLaws} h pairs :
  put_back (originals_of h pairs) (mkRedisHash (written pairs (hfields h))) = h.
Proof.
  destruct h as [m]. cbn [hfields]. set (l := map_iter (originals_of (mkRedisHash m) pairs)).
  assert (Hl : l ≡ₚ map_to_list (originals_of (mkRedisHash m) pairs)) by apply map_iter_perm.
  assert (Hnd : NoDup l.*1) by (rewrite Hl; apply NoDup_fst_map_to_list).
  assert (E : ∀ h : RedisHash, (∀ f, hget h f = m !! f) → h = mkRedisHash m).
  { intros [m'] Hm. f_equal. by apply map_eq. }
  apply E. intros f. unfold put_back. fold l. rewrite put_back_list by done.
  replace (list_to_map l) with (originals_of (mkRedisHash m) pairs).
  2: { symmetry. rewrite (list_to_map_proper l _ Hnd Hl). apply list_to_map_to_list. }
  unfold originals_of. rewrite originals_lookup, lookup_empty. case_decide as Hf; [done|]. by apply written_ne.
Qed.

Lemma put_back_field_spec h f v : put_back_field f (hget h f) (mkRedisHash (<[f := v]> (hfields h))) = h.
Proof.
  destruct h as [m]. unfold put_back_field, hget. cbn [hfields]. destruct (m !! f) eqn:E; simpl; f_equal.
  - by rewrite insert_insert_eq, insert_id.
  - by rewrite delete_insert_eq, delete_id.
Qed.

Lemma hdel_insert h f v : hget h f = None → (hdel (mkRedisHash (<[f := v]> (hfields h))) [f]).1 = h.
Proof. destruct h as [m]. unfold hget. simpl. intros E. f_equal. by rewrite delete_insert_eq, delete_id. Qed.

(** The fields after a deletion. *)
Definition without (fs : list Bytes) (m : gmap Bytes Bytes) : gmap Bytes Bytes := filter (λ fv, fv.1 ∉ fs) m.

Lemma without_cons f fs m : without (f :: fs) m = without fs (base.delete f m).
Proof.
  apply map_eq. intros g. unfold without. apply option_eq. intros v. rewrite !map_lookup_filter_Some, lookup_delete_Some. simpl.
  rewrite not_elem_of_cons. naive_solver.
Qed.

Lemma without_size fs m : (size (without fs m) ≤ size m)%nat.
Proof. apply map_subseteq_size, map_filter_subseteq. Qed.

Lemma hdel_spec h fs : hdel h fs = (mkRedisHash (without fs (hfields h)), (size (hfields h) - size (without fs (hfields h)))%nat).
Proof.
  revert h. induction fs as [|f fs IH]; intros [m]; cbn [hdel hfields].
  - unfold without. rewrite map_filter_id by (intros; apply not_elem_of_nil). f_equal. lia.
  - rewrite IH, without_cons. cbn [hfields]. f_equal. pose proof (without_size fs (base.delete f m)) as Hle.
    destruct (m !! f) as [v|] eqn:E.
    + rewrite bool_decide_true by done. rewrite map_size_delete_Some in * by done.
      assert (size m ≠ 0%nat) by (apply map_size_ne_0_lookup; eauto). lia.
    + rewrite bool_decide_false by (by intros [? ?]). by rewrite map_size_delete_None by done.
Qed.

(** A field that is asked for twice is there the first time only. *)
Definition taken (fs : list Bytes) (m : gmap Bytes Bytes) : list (option Bytes) :=
  imap (λ i f, if decide (f ∈ take i fs) then None else m !! f) fs.

Lemma hgetdel_spec h fs : hgetdel h fs = (mkRedisHash (without fs (hfields h)), taken fs (hfields h)).
Proof.
  revert h. induction fs as [|f fs IH]; intros [m]; cbn [hgetdel hfields].
  - unfold without. by rewrite map_filter_id by (intros; apply not_elem_of_nil).
  - rewrite IH, without_cons. cbn [hfields]. f_equal. unfold taken. cbn [imap]. f_equal. apply imap_ext. intros i g _. simpl.
    destruct (decide (f = g)) as [->|Hne].
    + rewrite lookup_delete_eq, (decide_True (P := g ∈ g :: _)) by apply list_elem_of_here. by destruct (decide _).
    + rewrite lookup_delete_ne by done. repeat case_decide; try done; set_solver.
Qed.

Section facts.
Context {Srch : Type} {platform : Platform GeoSet} {laws : PlatformLaws GeoSet}
  {search : SearchManager Srch} {slaws : SearchLaws Srch} {writer : SearchWriter Srch} {order : MapOrder} {olaws : MapOrderLaws}.
Abbreviation Slot := (KeySlot GeoSet).
Abbreviation C := (Cache GeoSet Srch).
Abbreviation M := (St C).
Implicit Types (c : C) (key : Bytes) (m : gmap Bytes Slot) (s : Slot) (t : Clock) (r : Rounds) (rounds : nat → Round) (Q : C → RespValue → Prop).

(** ** Looking *)

(** The hash of a slot. *)
Definition hash_of (o : option Slot) : option RedisHash :=
  s ← o; match slot_value s with VHash h => Some h | _ => None end.

(** The key holds something else. *)
Definition foreign (o : option Slot) : bool :=
  match o with Some s => negb (bool_decide (value_type (slot_value s) = KHash)) | None => false end.

Lemma wp_checked t key (k : M RespValue) c Q :
  inv c →
  (∀ c1, step c c1 (purge t key (slots c)) →
    if foreign (visible t key (slots c)) then Q c1 (error_reply WrongType) else wp k c1 Q) →
  wp (checked t key k) c Q.
Proof.
  intros H HQ. unfold checked, ensure_hash_key. apply wp_bind, wp_bind. eapply wp_mono; [by apply wp_key_type|].
  intros c1 kt [H1 ->]. apply wp_ret. specialize (HQ c1 H1). unfold type_at.
  destruct (visible t key (slots c)) as [s|]; [|exact HQ]. unfold foreign in HQ. cbn.
  destruct (slot_value s); cbn in HQ |- *; try (by apply wp_ret); exact HQ.
Qed.

Lemma wp_get_hash key c (P : C → option RedisHash → Prop) : inv c → P c (hash_of (slots c !! key)) → wp (get_hash key) c P.
Proof.
  intros H HQ. unfold get_hash. apply wp_bind. eapply wp_mono; [by apply wp_get_typed|]. intros ? o [-> ->]. apply wp_ret.
  unfold hash_of in HQ. destruct (slots c !! key) as [s|]; [|exact HQ]. cbn in HQ |- *. by destruct (slot_value s).
Qed.

(** ** Writing *)

Lemma keyed_size_value key h : keyed_size key h = value_bytes key (VHash h).
Proof. done. Qed.

Lemma hash_slot_bytes key s h : slot_value s = VHash h → slot_bytes key s = value_bytes key (VHash h).
Proof. intros E. rewrite <- E. destruct s as [e v]. cbn [slot_value] in *. apply slot_bytes_value. by rewrite E. Qed.

(** The write, if the memory for it is granted. *)
Lemma step_write_hash c kv key s h h' c' :
  inv c → slots c !! key = Some s → slot_value s = VHash h → km_ok hash_one kv →
  contents kv = <[key := mkKeySlot (expires_at s) (VHash h')]> (slots c) → headroom c (value_bytes key (VHash h')) →
  account_delta CatHashes (value_bytes key (VHash h)) (value_bytes key (VHash h')) (set_key_values c kv) = Ret (c', tt) →
  step c c' (<[key := mkKeySlot (expires_at s) (VHash h')]> (slots c)).
Proof.
  intros H Hk Hs Hkv E Hr Ha. pose proof (hash_slot_bytes key s h Hs) as Hb.
  pose proof (value_bytes_pos key (VHash h)) as P1. pose proof (value_bytes_pos key (VHash h')) as P2.
  rewrite account_delta_eq in Ha by done. injection Ha as <-.
  apply (step_rewrite c kv key s (VHash h') (value_bytes key (VHash h)) (value_bytes key (VHash h'))); try done; try lia.
  by rewrite Hs.
Qed.

(** Growing asks for memory first: granted and accounted, or refused. *)
Lemma hash_delta_quiet t rounds (old new : Z) c (P : C → result KError unit → Prop) :
  quiet c → (∀ c', account_delta CatHashes old new c = Ret (c', tt) → P c' (Ok tt)) →
  (old < new → limit (memory_tracker c) ≠ 0 → P (set_stats c (stat_add store_no_memory 1 (stats c))) (Err OutOfMemory)) →
  0 ≤ old → 0 ≤ new → wp (account_hash_delta t rounds old new) c P.
Proof.
  intros Hq Hok Hno Ho Hn. assert (Hacc : wp (_ ← account_delta CatHashes old new; mret (Ok tt)) c P).
  { unfold wp, mbind, st_bind. rewrite account_delta_eq by done. cbn. apply Hok. by apply account_delta_eq. }
  unfold account_hash_delta. apply wp_try. destruct (Z.ltb_spec old new) as [Hlt|_]; [|by apply wp_ret].
  unfold wp at 1. destruct (ensure_quiet t rounds (new - old) c Hq) as [-> |[Hl ->]]; [done|]. by apply Hno.
Qed.

Lemma wp_write_hash t r key h h' (k : M RespValue) c s Q :
  inv c → quiet c → slots c !! key = Some s → slot_value s = VHash h → headroom c (value_bytes key (VHash h')) →
  (∀ c', step c c' (<[key := mkKeySlot (expires_at s) (VHash h')]> (slots c)) → wp k c' Q) →
  (∀ c', max_memory c ≠ 0 → step c c' (if hash_is_empty h then base.delete key (slots c) else slots c) →
    Q c' (error_reply OutOfMemory)) →
  wp (write_hash t r key h h' h k) c Q.
Proof.
  intros H Hq Hk Hs Hr Hok Hno. unfold write_hash. apply wp_bind. eapply wp_mono; [by apply (wp_write_value key _ c s)|].
  intros c1 [] (kv & -> & Hkv & E). rewrite !keyed_size_value. apply wp_bind.
  apply hash_delta_quiet; [exact Hq| | |apply value_bytes_pos|apply value_bytes_pos].
  - intros c2 Ha. apply Hok. by eapply (step_write_hash c kv key s h h').
  - intros _ Hl. set (c2 := set_stats _ _). assert (Hk2 : slots c2 !! key = Some (mkKeySlot (expires_at s) (VHash h'))).
    { unfold slots, c2. cbn [key_values set_stats set_key_values]. rewrite E. apply lookup_insert_eq. }
    apply wp_bind. unfold write_value. apply wp_bind, wp_kv_get; [exact Hkv|]. rewrite Hk2.
    apply wp_bind, wp_kv_insert; [exact Hkv|]. intros kv2 Hkv2 E2. apply wp_ret.
    assert (H3 : step c (set_key_values c2 kv2) (slots c)).
    { apply step_same_contents; try done. change (contents kv2 = slots c). rewrite E2.
      change (slots c2) with (contents kv). rewrite E, insert_insert_eq. cbn [expires_at]. rewrite <- Hs. apply insert_id. by destruct s. }
    change (limit (memory_tracker c) ≠ 0) in Hl. rewrite (inv_limit c H) in Hl. apply wp_bind. destruct (hash_is_empty h) eqn:Ee.
    + unfold remove_hash. replace KHash with (value_type (slot_value s)) by (by rewrite Hs).
      eapply wp_mono; [apply (wp_remove_typed key _ s); [apply H3|by rewrite (st_slots _ _ _ H3)|by rewrite Hs]|].
      intros c4 b [H4 _]. apply wp_ret. rewrite (st_slots _ _ _ H3) in H4. apply Hno; [done|]. by eapply step_trans.
    + apply wp_ret, wp_ret. by apply Hno.
Qed.

(** A hash with fewer fields is not larger. *)
Class HashSizes : Prop :=
  hash_shrinks (h h' : RedisHash) : hfields h' ⊆ hfields h → container_size (VHash h') ≤ container_size (VHash h).

Lemma value_bytes_mono {sizes : HashSizes} key h h' : hfields h' ⊆ hfields h → value_bytes key (VHash h') ≤ value_bytes key (VHash h).
Proof. intros Hs. pose proof (hash_shrinks h h' Hs). unfold value_bytes, estimate_keyed_object, sat_add_u64. lia. Qed.

Lemma wp_shrink_hash {sizes : HashSizes} t r key h h' (k : M RespValue) c s Q :
  inv c → slots c !! key = Some s → slot_value s = VHash h → headroom c (value_bytes key (VHash h')) → hfields h' ⊆ hfields h →
  (∀ c', step c c' (if hash_is_empty h' then base.delete key (slots c)
                    else <[key := mkKeySlot (expires_at s) (VHash h')]> (slots c)) → wp k c' Q) →
  wp (shrink_hash t r key h h' k) c Q.
Proof.
  intros H Hk Hs Hr Hsub Hok. pose proof (value_bytes_mono key h h' Hsub) as Hle. unfold shrink_hash.
  apply wp_bind. eapply wp_mono; [by apply (wp_write_value key _ c s)|]. intros c1 [] (kv & -> & Hkv & E).
  rewrite !keyed_size_value. apply wp_bind. unfold account_hash_delta. rewrite (proj2 (Z.ltb_ge _ _)) by lia.
  apply wp_try, wp_ret, wp_bind. unfold wp at 1. rewrite account_delta_eq by apply value_bytes_pos. apply wp_ret.
  set (c2 := set_memory _ _ _). assert (H2 : step c c2 (<[key := mkKeySlot (expires_at s) (VHash h')]> (slots c))).
  { eapply (step_write_hash c kv key s h h'); try done. by rewrite account_delta_eq by apply value_bytes_pos. }
  apply wp_bind. destruct (hash_is_empty h'); [|apply wp_ret; by apply Hok].
  eapply wp_mono; [apply (wp_remove_typed key c2 (mkKeySlot (expires_at s) (VHash h'))); [apply H2| |done]|].
  { rewrite (st_slots _ _ _ H2). apply lookup_insert_eq. }
  intros c3 b [H3 _]. apply Hok. rewrite (st_slots _ _ _ H2), delete_insert_eq in H3. by eapply step_trans.
Qed.

Lemma wp_with_hash t r key (k : RedisHash → M RespValue) (n : Z) c Q :
  let m1 := purge t key (slots c) in
  let vis := visible t key (slots c) in
  inv c → quiet c → 0 ≤ n → headroom c (value_bytes key (VHash hash_new) + n) →
  (∀ c1, foreign vis = true → step c c1 m1 → Q c1 (error_reply WrongType)) →
  (∀ c1, foreign vis = false → max_memory c ≠ 0 → step c c1 m1 → Q c1 (error_reply OutOfMemory)) →
  (∀ c2 s, foreign vis = false → slot_value s = VHash (default hash_new (hash_of vis)) → expires_at s = vis ≫= expires_at →
    (vis = None ∨ vis = Some s) → step c c2 (<[key := s]> m1) → headroom c2 n → wp (k (default hash_new (hash_of vis))) c2 Q) →
  wp (with_hash t r key k) c Q.
Proof.
  intros m1 vis H Hq Hn Hh Hfor Hoom Hok. unfold with_hash. apply wp_bind. pose proof (value_bytes_pos key (VHash hash_new)) as P0.
  apply wp_get_or_create_quiet; [done|done|intros _; change (empty_of CHash) with (VHash hash_new : KeyValue GeoSet); unfold headroom in *; lia|].
  intros c1 H1. fold m1 in H1. fold vis. destruct (cfg_limits _ _ _ H1) as [Em _].
  assert (Hsub : m1 ⊆ slots c) by (unfold m1, purge; destruct (due _ _ _); [apply delete_subseteq|done]).
  destruct vis as [s|] eqn:Ev.
  - case_decide as Ht; [|apply wp_ret; apply Hfor; [|done]; cbn; rewrite bool_decide_false by done; done].
    destruct (slot_value s) as [|h| | | | |] eqn:Es; try done. specialize (Hok c1 s). cbn in Hok. rewrite Es in Hok. cbn in Hok.
    apply Hok; try done; [by right| |].
    + rewrite insert_id; [done|]. unfold m1. rewrite purge_visible. exact Ev.
    + eapply headroom_step; [done|exact H1|done|]. unfold headroom in *. lia.
  - split; [|intros c2 Hm H2; apply wp_ret, Hoom; [done|by rewrite <- Em|]; rewrite (st_slots _ _ _ H1) in H2; by eapply step_trans].
    intros c2 H2 Et. apply (Hok c2 (mkKeySlot None (VHash hash_new))); try done; [by left| |].
    + rewrite (st_slots _ _ _ H1) in H2. by eapply step_trans.
    + change (memory_category (empty_of CHash)) with CatHashes in Et. change (empty_of CHash) with (VHash hash_new : KeyValue GeoSet) in Et.
      unfold headroom in *. pose proof (total_step _ _ _ H H1 Hsub) as Ht.
      assert (Hfit : total (memory_tracker c1) + value_bytes key (VHash hash_new) ≤ u64_max) by lia.
      destruct (account_ok (memory_tracker c1) _ CatHashes (inv_tracker c1 (st_inv _ _ _ H1)) P0 Hfit) as (_ & A2 & _). rewrite Et, A2. lia.
Qed.
End facts.

End writes.

Implicit Types (f v : Bytes) (fs : list Bytes) (pairs : list (Bytes * Bytes)).

(** ** Requests and what they should do *)

Inductive hash_cmd : Type :=
| HSet pairs
| HMSet pairs
| HSetNx f v
| HGet f
| HMGet fs
| HDel fs
| HGetDel fs
| HGetAll (proto : Z)
| HLen
| HExists f
| HKeys
| HVals
| HIncrBy f (delta : Z)
| HIncrByFloat f (text : Bytes)
| HStrLen f
| HScan (cursor : Z) (pattern : option Bytes) (count : Z).

Implicit Types (cmd : hash_cmd) (fields : gmap Bytes Bytes).

(** The arguments a client sends. *)
Definition hash_args (key : Bytes) cmd : list RespValue :=
  bulk key ::
  match cmd with
  | HSet pairs | HMSet pairs => flat_pairs pairs
  | HSetNx f v => [bulk f; bulk v]
  | HGet f | HExists f | HStrLen f => [bulk f]
  | HMGet fs | HDel fs | HGetDel fs => bulk <$> fs
  | HGetAll _ | HLen | HKeys | HVals => []
  | HIncrBy f delta => [bulk f; bulk (dec delta)]
  | HIncrByFloat f text => [bulk f; bulk text]
  | HScan cursor pattern count =>
    bulk (dec cursor) :: match pattern with Some p => [bulk (bs "MATCH"); bulk p] | None => [] end ++ [bulk (bs "COUNT"); bulk (dec count)]
  end.

(** Sorting by name gives one list when no name is there twice. *)
Lemma name_sorted (l : list (Bytes * Bytes)) : StronglySorted name_le l → StronglySorted bytes_le l.*1.
Proof. induction 1 as [|x l Hl IH Hx]; constructor; [done|]. apply Forall_fmap. exact Hx. Qed.

Lemma same_names (l l' : list (Bytes * Bytes)) : NoDup l.*1 → l ≡ₚ l' → l.*1 = l'.*1 → l = l'.
Proof.
  intros Hnd Hp E. apply list_eq. intros i. apply option_eq. intros [f v].
  assert (Hf : ∀ k : list (Bytes * Bytes), fst <$> k !! i = k.*1 !! i) by (intros k; by rewrite list_lookup_fmap).
  assert (Hv : ∀ f v v', (f, v) ∈ l → (f, v') ∈ l → v = v').
  { intros g w w' H1 H2. apply (elem_of_list_to_map_1 l g w Hnd) in H1. apply (elem_of_list_to_map_1 l g w' Hnd) in H2. congruence. }
  pose proof (Hf l) as H1. pose proof (Hf l') as H2. rewrite E, <- H2 in H1.
  destruct (l !! i) as [[g w]|] eqn:E1, (l' !! i) as [[g' w']|] eqn:E2; try done. injection H1 as ->.
  assert (w = w') as ->; [|done]. apply (Hv g'); [by eapply list_elem_of_lookup_2|]. rewrite Hp. by eapply list_elem_of_lookup_2.
Qed.

Lemma sort_names (l l' : list (Bytes * Bytes)) : NoDup l.*1 → l ≡ₚ l' → merge_sort name_le l = merge_sort name_le l'.
Proof.
  intros Hnd Hp. assert (Ht : Transitive name_le) by (intros x y z; unfold name_le; by etrans).
  assert (Hto : Total name_le) by (intros x y; unfold name_le; apply bytes_le_total).
  assert (Hs : merge_sort name_le l ≡ₚ merge_sort name_le l') by (by rewrite !merge_sort_Permutation).
  apply same_names; [by rewrite merge_sort_Permutation|done|].
  apply (StronglySorted_unique bytes_le); [by apply name_sorted, StronglySorted_merge_sort..|]. by rewrite Hs.
Qed.

Section props.
Context {Srch : Type} {platform : Platform GeoSet} {laws : PlatformLaws GeoSet}
  {search : SearchManager Srch} {slaws : SearchLaws Srch} {writer : SearchWriter Srch} {order : MapOrder} {olaws : MapOrderLaws}
  {sizes : HashSizes}.
Context (parse_f64 : Str → option spec_float) (fmt_f64 : spec_float → Str).
Abbreviation Slot := (KeySlot GeoSet).
Abbreviation C := (Cache GeoSet Srch).
Abbreviation M := (St C).
Implicit Types (c : C) (key : Bytes) (m : gmap Bytes Slot) (s : Slot) (t : Clock) (r : Rounds) (Q : C → RespValue → Prop).

Definition handle t r key cmd : M RespValue :=
  let args := hash_args key cmd in
  match cmd with
  | HSet _ => handle_hset t r args
  | HMSet _ => handle_hmset t r args
  | HSetNx _ _ => handle_hsetnx t r args
  | HGet _ => handle_hget t args
  | HMGet _ => handle_hmget t args
  | HDel _ => handle_hdel t r args
  | HGetDel _ => handle_hgetdel t r args
  | HGetAll proto => handle_hgetall t proto args
  | HLen => handle_hlen t args
  | HExists _ => handle_hexists t args
  | HKeys => handle_hkeys t args
  | HVals => handle_hvals t args
  | HIncrBy _ _ => handle_hincrby t r args
  | HIncrByFloat _ _ => handle_hincrbyfloat t parse_f64 fmt_f64 r args
  | HStrLen _ => handle_hstrlen t args
  | HScan _ _ _ => handle_hscan t args
  end.

(** The integer and the double a field stands for; a missing field is zero. *)
Definition int_at fields f : option Z :=
  match fields !! f with Some v => s ← from_utf8 v; parse_i64 s | None => Some 0 end.
Definition float_at fields f : option spec_float :=
  match fields !! f with
  | Some v => s ← from_utf8 v; x ← parse_f64 (trim s); if is_nan x then None else Some x
  | None => Some (S754_zero false)
  end.

(** Names in ascending order with the fields that match. *)
Definition matching (pattern : option Bytes) fields : list (Bytes * Bytes) :=
  merge_sort name_le
    (filter (λ fv : Bytes * Bytes, scan_name_matches (from_utf8_lossy <$> pattern) fv.1 = true) (map_to_list fields)).

(** The new fields, if the command writes, and the reply.  A missing key is a hash without fields. *)
Definition ideal cmd fields : option (gmap Bytes Bytes) * RespValue :=
  match cmd with
  | HSet pairs => (Some (written pairs fields), Integer (Z.of_nat (size (written pairs fields)) - Z.of_nat (size fields)))
  | HMSet pairs => (Some (written pairs fields), ok)
  | HSetNx f v =>
    match fields !! f with Some _ => (None, Integer 0) | None => (Some (<[f := v]> fields), Integer 1) end
  | HGet f => (None, BulkString (fields !! f))
  | HMGet fs => (None, Array ((λ f, BulkString (fields !! f)) <$> fs))
  | HDel fs => (Some (without fs fields), Integer (Z.of_nat (size fields - size (without fs fields))))
  | HGetDel fs => (Some (without fs fields), Array (BulkString <$> taken fs fields))
  | HGetAll proto =>
    (None, if 3 <=? proto then Map ((λ fv, (bulk fv.1, bulk fv.2)) <$> map_iter fields) else Array (flat_pairs (map_iter fields)))
  | HLen => (None, Integer (Z.of_nat (size fields)))
  | HExists f => (None, Integer (if decide (is_Some (fields !! f)) then 1 else 0))
  | HKeys => (None, Array (bulk <$> (map_iter fields).*1))
  | HVals => (None, Array (bulk <$> (map_iter fields).*2))
  | HIncrBy f delta =>
    match int_at fields f with
    | None => (None, error (str "ERR hash value is not an integer"))
    | Some z =>
      if decide (in_i64 (z + delta)) then (Some (<[f := dec (z + delta)]> fields), Integer (z + delta))
      else (None, error (str "ERR increment or decrement would overflow"))
    end
  | HIncrByFloat f text =>
    match float_at fields f, parse_f64 (from_utf8_lossy text) with
    | Some x, Some d =>
      let y := SFadd 53 1024 x d in
      if is_nan y then (None, error (str "ERR increment would produce NaN"))
      else (Some (<[f := as_bytes (format_hash_float fmt_f64 y)]> fields), bulk (as_bytes (format_hash_float fmt_f64 y)))
    | _, _ => (None, error (str "ERR hash value is not a valid float"))
    end
  | HStrLen f => (None, Integer (match fields !! f with Some v => zlen v | None => 0 end))
  | HScan cursor pattern count =>
    let l := matching pattern fields in
    let page := take (Z.to_nat count) (drop (Z.to_nat cursor) l) in
    (None, scan_reply (if cursor + count <? zlen l then cursor + count else 0) (flat_pairs page))
  end.

(** Requests a client can send and that name something. *)
Definition request_ok cmd : Prop :=
  match cmd with
  | HSet pairs | HMSet pairs => pairs ≠ []
  | HMGet fs | HDel fs | HGetDel fs => fs ≠ []
  | HIncrBy _ delta => in_i64 delta
  | HIncrByFloat _ text => match parse_f64 (from_utf8_lossy text) with Some d => is_nan d = false | None => False end
  | HScan cursor _ count => 0 ≤ cursor ≤ i64_max ∧ 0 < count ≤ i64_max
  | _ => True
  end.

(** The keyspace after the command; a hash without fields is not kept. *)
Definition settle key m (exp : option Z) (o : option (gmap Bytes Bytes)) : gmap Bytes Slot :=
  match o with
  | None => m
  | Some fields => if decide (fields = ∅) then base.delete key m else <[key := mkKeySlot exp (VHash (mkRedisHash fields))]> m
  end.

Definition fields_of (o : option Slot) : gmap Bytes Bytes := default ∅ (hfields <$> hash_of o).

(** The outcome of a command: the wrong type, or what the ideal hash does, or, for a command that
    writes, out of memory and nothing done.  Past-due keys may have been dropped in any case. *)
Definition outcome t key cmd c c' (reply : RespValue) : Prop :=
  let vis := visible t key (slots c) in
  let m := purge t key (slots c) in
  let '(o, answer) := ideal cmd (fields_of vis) in
  if foreign vis then reply = error_reply WrongType ∧ step c c' m
  else (reply = answer ∧ step c c' (settle key m (vis ≫= expires_at) o)) ∨
       (max_memory c ≠ 0 ∧ o ≠ None ∧ reply = error_reply OutOfMemory ∧ step c c' m).

(** ** Reading *)

Lemma wp_read t key cmd (reply : option RedisHash → RespValue) (k : option RedisHash → M RespValue) c :
  inv c → (∀ o c1, k o c1 = Ret (c1, reply o)) → (∀ o, ideal cmd (default ∅ (hfields <$> o)) = (None, reply o)) →
  wp (checked t key (h ← get_hash key; k h)) c (outcome t key cmd c).
Proof.
  intros H Hk Hi. apply wp_checked; [done|]. intros c1 H1. unfold outcome, fields_of. rewrite Hi.
  destruct (foreign _); [done|]. apply wp_bind, wp_get_hash; [apply H1|]. rewrite (st_slots _ _ _ H1), purge_visible.
  unfold wp. rewrite Hk. left. by split.
Qed.

Lemma bulk_strings_bulk fs : bulk_strings (bulk <$> fs) = fs.
Proof. induction fs as [|f fs IH]; [done|]. cbn. unfold bulk_strings in IH. cbn in IH. by rewrite IH. Qed.

Lemma args_long key fs : fs ≠ [] → (zlen (bulk key :: (bulk <$> fs)) <? 2) = false.
Proof. intros Hf. destruct fs; [done|]. apply Z.ltb_ge. cbn [length fmap list_fmap]. lia. Qed.

Lemma map_iter_empty : map_iter (∅ : gmap Bytes Bytes) = [].
Proof. apply Permutation_nil_r. by rewrite map_iter_perm, map_to_list_empty. Qed.

Lemma pair_bulks (l : list (Bytes * Bytes)) : (λ '(f, v), (bulk f, bulk v)) <$> l = (λ fv : Bytes * Bytes, (bulk fv.1, bulk fv.2)) <$> l.
Proof. apply list_fmap_ext. by intros i [f v] _. Qed.

Lemma wp_reads t r key cmd c :
  inv c → request_ok cmd →
  match cmd with HGet _ | HMGet _ | HGetAll _ | HLen | HExists _ | HKeys | HVals | HStrLen _ => True | _ => False end →
  wp (handle t r key cmd) c (outcome t key cmd c).
Proof.
  intros H Hok Hr. destruct cmd; try done; unfold handle, hash_args;
    unfold handle_hget, handle_hmget, handle_hgetall, handle_hlen, handle_hexists, handle_hkeys, handle_hvals, handle_hstrlen.
  2: rewrite args_long by done; change (drop 1 (?x :: ?l)) with l; rewrite bulk_strings_bulk.
  all: cbn -[checked get_hash Z.leb Z.of_nat].
  all: eapply (wp_read t key _ (λ h, _) (λ h, mret _)); [done|intros; reflexivity|]; intros [[fields]|]; cbn -[Z.leb Z.of_nat]; unfold hgetall, hkeys, hvals;
    rewrite ?pair_bulks, ?map_iter_empty; try done.
  - unfold hmget. by rewrite <- list_fmap_compose.
  - unfold of_bool, hexists. by destruct (decide (is_Some (fields !! f))); [rewrite bool_decide_true|rewrite bool_decide_false].
  - unfold hstrlen. cbn [hfields]. by destruct (fields !! f).
Qed.

(** The order of the map does not show in HSCAN. *)
Lemma matching_iter pattern fields :
  merge_sort name_le (filter (λ fv : Bytes * Bytes, scan_name_matches (from_utf8_lossy <$> pattern) fv.1 = true) (map_iter fields))
  = matching pattern fields.
Proof.
  apply sort_names; [|by rewrite map_iter_perm]. apply NoDup_fmap_fst.
  - intros f v1 v2. rewrite !list_elem_of_filter, map_iter_perm, !elem_of_map_to_list. intros [_ H1] [_ H2]. congruence.
  - apply NoDup_filter. rewrite map_iter_perm. apply NoDup_map_to_list.
Qed.

Lemma parse_options pattern (count : Z) :
  0 < count ≤ i64_max →
  parse_scan_options (match pattern with Some p => [bulk (bs "MATCH"); bulk p] | None => [] end ++ [bulk (bs "COUNT"); bulk (dec count)])
    scan_defaults = Ok (mkScanOptions (from_utf8_lossy <$> pattern) count None).
Proof.
  intros Hc. assert (Hp : parse_integer (bulk (dec count)) = Ok count).
  { unfold parse_integer. cbn [as_integer as_bulk_string bulk]. rewrite dec_utf8. cbn. rewrite parse_to_string_i64; [done|]. unfold i64_max, i64_min in *. lia. }
  assert (Hm : to_ascii_lowercase (from_utf8_lossy (bs "MATCH")) = str "match") by (vm_compute; reflexivity).
  assert (Hk : to_ascii_lowercase (from_utf8_lossy (bs "COUNT")) = str "count") by (vm_compute; reflexivity).
  destruct pattern as [p|]; cbn [app parse_scan_options as_bulk_string bulk];
    rewrite ?Hm, ?Hk; fold (bulk (dec count)); rewrite Hp, (proj2 (Z.ltb_lt _ _)) by lia; reflexivity.
Qed.

Lemma parse_dec (z : Z) : in_i64 z → parse_integer (bulk (dec z)) = Ok z.
Proof. intros Hz. unfold parse_integer. cbn [as_integer as_bulk_string bulk]. rewrite dec_utf8. cbn. by rewrite parse_to_string_i64. Qed.

Lemma cursor_page_spec {A : Type} (l : list A) (cursor count : Z) :
  0 ≤ cursor ≤ i64_max → 0 < count ≤ i64_max →
  cursor_page l cursor count = (if cursor + count <? zlen l then cursor + count else 0, take (Z.to_nat count) (drop (Z.to_nat cursor) l)).
Proof.
  intros Hc Hn. unfold cursor_page, wrap_u64. unfold i64_max in *. rewrite (Z.mod_small (cursor + count)) by (unfold u64_max; lia).
  destruct (Z.leb_spec (Z.of_nat (length l)) cursor) as [Hle|Hgt].
  { rewrite (proj2 (Z.ltb_ge _ _)) by lia. by rewrite drop_ge, take_nil by lia. }
  destruct (Z.ltb_spec (cursor + count) (Z.of_nat (length l))).
  - rewrite Z.min_l by lia. rewrite (proj2 (Z.leb_gt _ _)) by lia. by replace (cursor + count - cursor) with count by lia.
  - rewrite Z.min_r by lia. rewrite (proj2 (Z.leb_le _ _)) by lia. f_equal.
    rewrite !take_ge; [done|rewrite length_drop; lia..].
Qed.

Lemma wp_hscan_page t r key cursor pattern (count : Z) c :
  inv c → request_ok (HScan cursor pattern count) →
  wp (handle t r key (HScan cursor pattern count)) c (outcome t key (HScan cursor pattern count) c).
Proof.
  intros H [Hc Hn]. unfold handle, hash_args, handle_hscan.
  assert (Hl : ∀ l, (zlen (bulk key :: bulk (dec cursor) :: l) <? 2) = false).
  { intros l. apply Z.ltb_ge. cbn [length]. lia. }
  rewrite Hl. match goal with |- context [_ :: _ :: ?l] => set (opts := l) end.
  assert (Ho : parse_scan_options opts scan_defaults = Ok (mkScanOptions (from_utf8_lossy <$> pattern) count None)) by (by apply parse_options).
  cbn [lookup list_lookup mbind option_bind as_bulk_string bulk or_reply drop]. fold (bulk (dec cursor)). change (drop 0 opts) with opts.
  rewrite Ho, parse_dec, (proj2 (Z.leb_le _ _)) by (done || unfold i64_min, i64_max in *; lia). cbn [or_reply scan_pattern scan_count].
  apply (wp_read t key _ (λ o, let page := cursor_page (matching pattern (default ∅ (hfields <$> o))) cursor count in
    scan_reply page.1 (flat_pairs page.2))); [done| |].
  - intros o c1. destruct o as [[fields]|]; cbn [default fmap option_fmap option_map from_option id hfields]; unfold hgetall; cbn [hfields];
      rewrite <- matching_iter.
    + by destruct (cursor_page _ _ _).
    + rewrite map_iter_empty. by destruct (cursor_page _ _ _).
  - intros o. unfold ideal. by rewrite cursor_page_spec.
Qed.

(** ** Writing *)

(** No search index covers the key. *)
Definition unindexed key : Prop := ∀ i : Srch, find_matching_indices i key = [].

(** What the new hash takes fits in the 64 bits of the byte counters. *)
Definition roomy t key cmd c : Prop :=
  ∀ fields, (ideal cmd (fields_of (visible t key (slots c)))).1 = Some fields →
    headroom c (value_bytes key (VHash hash_new) + value_bytes key (VHash (mkRedisHash fields))).

Lemma unindexed_skip t (rounds : nat → nat → Round) key (fields : gmap Str Str) c : unindexed key → auto_index_key t rounds key fields c = Ret (c, tt).
Proof. intros Hu. unfold auto_index_key, asks, mbind, st_bind, mret, st_ret. cbn. by rewrite Hu. Qed.

Lemma fields_of_hash (o : option Slot) : hfields (default hash_new (hash_of o)) = fields_of o.
Proof. unfold fields_of. by destruct (hash_of o). Qed.

Lemma hash_empty_iff (h : RedisHash) : hash_is_empty h = bool_decide (hfields h = ∅).
Proof. unfold hash_is_empty. apply bool_decide_ext, map_size_empty_iff. Qed.

Lemma undo_map key m s (vis : option Slot) :
  m !! key = vis → (vis = None ∨ vis = Some s) → hash_of vis ≠ Some hash_new →
  (if hash_is_empty (default hash_new (hash_of vis)) then base.delete key (<[key := s]> m) else <[key := s]> m)
  = m ∨ (∃ s, vis = Some s ∧ hash_of vis = None).
Proof.
  intros Hm [->|Hv] Hne; [left; cbn; by rewrite delete_insert_id|]. subst vis. rewrite Hv in *.
  destruct (hash_of (Some s)) as [[fields]|] eqn:E; [|by right; exists s]. left. cbn [default from_option].
  rewrite hash_empty_iff, bool_decide_false; [by apply insert_id|]. cbn. intros ->. by destruct Hne.
Qed.

Lemma wp_update t r key cmd (body : RedisHash → M RespValue) (h' : RedisHash) (k : M RespValue) answer c :
  let vis := visible t key (slots c) in
  let h := default hash_new (hash_of vis) in
  inv c → quiet c → hash_of vis ≠ Some hash_new → roomy t key cmd c →
  ideal cmd (fields_of vis) = (Some (hfields h'), answer) → hfields h' ≠ ∅ →
  body h = write_hash t r key h h' h k → (∀ c1, k c1 = Ret (c1, answer)) →
  wp (with_hash t r key body) c (outcome t key cmd c).
Proof.
  intros vis h H Hq Hne Hroom Hi Hh' Hb Hk. pose proof (value_bytes_pos key (VHash h')) as P1.
  assert (Hr : headroom c (value_bytes key (VHash hash_new) + value_bytes key (VHash h'))).
  { destruct h' as [fields]. apply Hroom. fold vis. by rewrite Hi. }
  apply (wp_with_hash t r key body (value_bytes key (VHash h'))); [done|done|done|done| | |]; fold vis; unfold outcome; fold vis; rewrite Hi.
  - intros c1 -> H1. by split.
  - intros c1 -> Hm H1. by right.
  - intros c2 s Hf Hs Hexp Hvis H2 Hr2. rewrite Hf. fold h in Hs |- *. rewrite Hb. destruct (cfg_limits _ _ _ H2) as [Em _].
    apply (wp_write_hash t r key h h' k c2 s); [apply H2|by eapply quiet_step|rewrite (st_slots _ _ _ H2); apply lookup_insert_eq|done|done| |].
    + intros c3 H3. unfold wp. rewrite Hk. left. split; [done|]. rewrite (st_slots _ _ _ H2), insert_insert_eq, Hexp in H3.
      unfold settle. rewrite decide_False by done. destruct h'. by eapply step_trans.
    + intros c3 Hm H3. right. split; [by rewrite <- Em|]. split; [done|]. split; [done|]. rewrite (st_slots _ _ _ H2) in H3.
      destruct (undo_map key (purge t key (slots c)) s vis (purge_visible _ _ _) Hvis Hne) as [E|(s' & Ev & Eh)].
      * fold h in E. rewrite E in H3. by eapply step_trans.
      * exfalso. unfold foreign in Hf. rewrite Ev in Hf. rewrite Ev in Eh. cbn in Eh. by destruct (slot_value s').
Qed.

(** A command that finds nothing to write in a hash that is there. *)
Lemma wp_keep t r key cmd (body : RedisHash → M RespValue) answer c :
  let vis := visible t key (slots c) in
  inv c → quiet c → vis ≠ None →
  ideal cmd (fields_of vis) = (None, answer) → body (default hash_new (hash_of vis)) = mret answer →
  wp (with_hash t r key body) c (outcome t key cmd c).
Proof.
  intros vis H Hq Hne Hi Hb. unfold with_hash. apply wp_bind. apply wp_get_or_create_quiet; [done|done|by intros ?%Hne|].
  intros c1 H1. unfold outcome. fold vis. rewrite Hi. destruct vis as [s|] eqn:Ev; [|done].
  case_decide as Ht; [|apply wp_ret; cbn; by rewrite bool_decide_false]. cbn in Hb. unfold foreign.
  destruct (slot_value s) as [|h| | | | |] eqn:Es; try done. cbn in Hb. rewrite Hb. apply wp_ret. left. by split.
Qed.

Lemma written_nonempty pairs fields : pairs ≠ [] → written pairs fields ≠ ∅.
Proof.
  destruct pairs as [|[f v] pairs]; [done|]. intros _ E. rewrite written_cons in E.
  assert (Hs : is_Some (written pairs (<[f := v]> fields) !! f)).
  { unfold written. apply lookup_union_is_Some. right. rewrite lookup_insert_eq. done. }
  rewrite E, lookup_empty in Hs. by destruct Hs.
Qed.

Lemma parse_flat pairs : parse_pairs (flat_pairs pairs) = Ok pairs.
Proof. induction pairs as [|[f v] pairs IH]; [done|]. cbn. unfold flat_pairs in IH. by rewrite IH. Qed.

Lemma flat_length pairs : length (flat_pairs pairs) = (2 * length pairs)%nat.
Proof. induction pairs as [|[f v] pairs IH]; [done|]. cbn. unfold flat_pairs in IH. lia. Qed.

Lemma hset_arity key pairs : pairs ≠ [] →
  (zlen (bulk key :: flat_pairs pairs) <? 3) || (zlen (bulk key :: flat_pairs pairs) mod 2 =? 0) = false.
Proof.
  intros Hp. apply orb_false_iff. cbn [length]. rewrite flat_length.
  replace (Z.of_nat (S (2 * length pairs))) with (1 + Z.of_nat (length pairs) * 2) by lia. split.
  - apply Z.ltb_ge. destruct pairs; [done|]. cbn [length]. lia.
  - apply Z.eqb_neq. rewrite Z.mod_add by lia. done.
Qed.

Lemma wp_hset t r key pairs c cmd answer :
  let fields := fields_of (visible t key (slots c)) in
  inv c → quiet c → hash_of (visible t key (slots c)) ≠ Some hash_new → roomy t key cmd c → unindexed key → pairs ≠ [] →
  ideal cmd fields = (Some (written pairs fields), answer) →
  answer = Integer (Z.of_nat (size (written pairs fields)) - Z.of_nat (size fields)) →
  wp (handle_hset t r (bulk key :: flat_pairs pairs)) c (outcome t key cmd c).
Proof.
  intros fields H Hq Hne Hroom Hu Hp Hi ->. unfold handle_hset. rewrite hset_arity by done.
  cbn [lookup list_lookup mbind option_bind as_bulk_string bulk or_reply]. change (drop 1 (_ :: ?l)) with l. rewrite parse_flat.
  set (h := default hash_new (hash_of (visible t key (slots c)))). set (h' := mkRedisHash (written pairs fields)).
  eapply (wp_update t r key cmd _ h' (_ ← auto_index_key t (r_index r) key (index_fields h');
    mret (Integer (Z.of_nat (size (written pairs fields)) - Z.of_nat (size fields))))); try done.
  - by apply written_nonempty.
  - fold h. assert (Ef : hfields h = fields) by apply fields_of_hash. rewrite hset_all_spec, Ef, Z.add_0_l. fold h'.
    f_equal. unfold h'. rewrite <- Ef. apply put_back_originals.
  - intros c1. unfold mbind, st_bind. by rewrite unindexed_skip.
Qed.

Lemma wp_hmset t r key pairs c :
  inv c → quiet c → hash_of (visible t key (slots c)) ≠ Some hash_new → roomy t key (HMSet pairs) c → unindexed key → pairs ≠ [] →
  wp (handle t r key (HMSet pairs)) c (outcome t key (HMSet pairs) c).
Proof.
  intros H Hq Hne Hroom Hu Hp. unfold handle, hash_args, handle_hmset. rewrite hset_arity by done.
  apply wp_bind. eapply wp_mono; [by apply (wp_hset t r key pairs c (HSet pairs) _ H Hq Hne Hroom Hu Hp eq_refl eq_refl)|].
  intros c' reply Ho. apply wp_ret. unfold outcome, ideal in *. destruct (foreign _).
  - by destruct Ho as [-> ?].
  - destruct Ho as [[-> ?]|(? & _ & -> & ?)]; [by left|by right].
Qed.

(** ** HSETNX *)

Lemma hash_outcome_step t key cmd c c1 c' reply :
  due t key (slots c) = false → step c c1 (slots c) → outcome t key cmd c1 c' reply → outcome t key cmd c c' reply.
Proof.
  intros Hd H1. destruct (cfg_limits _ _ _ H1) as [Em _]. unfold outcome, purge. rewrite (st_slots _ _ _ H1), Hd, Em.
  destruct (ideal _ _) as [o answer]. destruct (foreign _).
  - intros [-> H2]. split; [done|]. by eapply step_trans.
  - intros [[-> H2]|(Hm & Ho & -> & H2)]; [left|right; split; [done|]; split; [done|]]; (split; [done|]); by eapply step_trans.
Qed.

Lemma live_visible t key m : due t key m = false → visible t key m = m !! key.
Proof. unfold due, visible. destruct (m !! key) as [s|]; [|done]. cbn. by intros ->. Qed.

Lemma wp_hsetnx_slow t r key f v c :
  inv c → quiet c → hash_of (visible t key (slots c)) ≠ Some hash_new → roomy t key (HSetNx f v) c → unindexed key →
  due t key (slots c) = false → fields_of (visible t key (slots c)) !! f = None → foreign (visible t key (slots c)) = false →
  wp (with_hash t r key (λ h,
        if hexists h f then mret (Integer 0) else
        let '(h', added) := hset h f v in
        if negb added then _ ← write_value key (VHash h'); mret (Integer 0) else
        write_hash t r key h h' (hdel h' [f]).1
          (_ ← auto_index_key t (r_index r) key (index_fields h'); mret (Integer 1)))) c (outcome t key (HSetNx f v) c).
Proof.
  intros H Hq Hne Hroom Hu Hd Hf Hfor. set (fields := fields_of (visible t key (slots c))) in *. set (h' := mkRedisHash (<[f := v]> fields)).
  apply (wp_update t r key (HSetNx f v) _ h' (_ ← auto_index_key t (r_index r) key (index_fields h'); mret (Integer 1)) (Integer 1)); try done.
  - unfold ideal. fold fields. by rewrite Hf.
  - apply insert_non_empty.
  - set (h := default hash_new _). assert (Ef : hfields h = fields) by apply fields_of_hash.
    unfold hexists, hset. rewrite Ef, Hf, bool_decide_false, bool_decide_true by (done || by intros [? ?]). cbn [negb].
    fold h'. unfold h'. rewrite <- Ef at 2. rewrite hdel_insert; [done|]. unfold hget. by rewrite Ef.
  - intros c1. unfold mbind, st_bind. by rewrite unindexed_skip.
Qed.

Lemma wp_hsetnx t r key f v c :
  inv c → quiet c → hash_of (visible t key (slots c)) ≠ Some hash_new → roomy t key (HSetNx f v) c → unindexed key →
  due t key (slots c) = false → wp (handle t r key (HSetNx f v)) c (outcome t key (HSetNx f v) c).
Proof.
  intros H Hq Hne Hroom Hu Hd. pose proof (live_visible t key (slots c) Hd) as Hv.
  assert (Hp : purge t key (slots c) = slots c) by (unfold purge; by rewrite Hd).
  unfold handle, hash_args, handle_hsetnx. cbn [length negb Z.of_nat]. change (negb (_ =? 3)) with false.
  cbn [lookup list_lookup mbind option_bind as_bulk_string bulk or_reply]. set (slow := _ ← ensure_non_string_capacity _ _ _; _).
  assert (Hslow : ∀ c1, step c c1 (slots c) → fields_of (visible t key (slots c)) !! f = None → foreign (visible t key (slots c)) = false →
    wp slow c1 (outcome t key (HSetNx f v) c)).
  { intros c1 H1 Hf Hfor. assert (Hq1 : quiet c1) by (by eapply quiet_step). unfold slow. apply wp_bind, wp_ensure_quiet; [apply H1|done| |].
    - eapply wp_mono; [apply wp_hsetnx_slow; try (rewrite (st_slots _ _ _ H1); done); [apply H1|done| |done]|].
      + intros fields E. rewrite (st_slots _ _ _ H1) in E. eapply headroom_step; [done|exact H1|done|]. by apply Hroom.
      + intros c2 reply Ho. by eapply hash_outcome_step.
    - intros c2 Hm H2. destruct (cfg_limits _ _ _ H1) as [Em _]. rewrite (st_slots _ _ _ H1) in H2. apply wp_ret.
      unfold outcome, ideal. rewrite Hf, Hfor, Hp. right. split; [by rewrite <- Em|]. split; [done|]. split; [done|]. by eapply step_trans. }
  apply wp_bind, wp_get_hash; [done|]. rewrite <- Hv. destruct (hash_of (visible t key (slots c))) as [h|] eqn:Eh.
  - assert (Hfor : foreign (visible t key (slots c)) = false).
    { destruct (visible t key (slots c)) as [s|]; [|done]. cbn in Eh |- *. by destruct (slot_value s). }
    assert (Ef : fields_of (visible t key (slots c)) = hfields h) by (unfold fields_of; by rewrite Eh).
    unfold hexists. destruct (hfields h !! f) as [w|] eqn:E.
    + rewrite bool_decide_true by done. apply wp_ret. unfold outcome, ideal. rewrite Ef, E, Hfor, Hp. left. split; [done|]. by apply step_refl.
    + rewrite bool_decide_false by (by intros [? ?]). apply Hslow; [by apply step_refl|by rewrite Ef|done].
  - apply wp_checked; [done|]. intros c1 H1. rewrite Hp in H1. destruct (foreign _) eqn:Hfor.
    + unfold outcome. rewrite Hfor, Hp. by destruct (ideal _ _).
    + apply Hslow; [done| |done]. unfold fields_of. rewrite Eh. apply lookup_empty.
Qed.

(** ** Deleting fields *)

Lemma wp_removing t r key cmd fs (answer : RedisHash → RespValue) (k : option RedisHash → M RespValue) c :
  inv c → roomy t key cmd c → k None = mret (answer hash_new) →
  (∀ h, k (Some h) = shrink_hash t r key h (mkRedisHash (without fs (hfields h))) (mret (answer h))) →
  (∀ fields, ideal cmd fields = (Some (without fs fields), answer (mkRedisHash fields))) →
  wp (checked t key (h ← get_hash key; k h)) c (outcome t key cmd c).
Proof.
  intros H Hroom Hk0 Hk Hi. apply wp_checked; [done|]. intros c1 H1. unfold outcome. rewrite Hi. destruct (foreign _) eqn:Hfor; [done|].
  apply wp_bind, wp_get_hash; [apply H1|]. rewrite (st_slots _ _ _ H1), purge_visible. specialize (Hroom (without fs (fields_of (visible t key (slots c))))).
  rewrite Hi in Hroom. specialize (Hroom eq_refl). pose proof (value_bytes_pos key (VHash hash_new)) as P0.
  assert (Hsub : purge t key (slots c) ⊆ slots c) by (unfold purge; destruct (due _ _ _); [apply delete_subseteq|done]).
  destruct (visible t key (slots c)) as [s|] eqn:Ev.
  - cbn in Hfor |- *. destruct (slot_value s) as [|h| | | | |] eqn:Es; try done. clear Hfor.
    assert (Ef : fields_of (Some s) = hfields h) by (unfold fields_of, hash_of; cbn; by rewrite Es). rewrite Ef in *.
    rewrite Hk. apply (wp_shrink_hash t r key h _ _ c1 s); [apply H1|by rewrite (st_slots _ _ _ H1), purge_visible|done| |apply map_filter_subseteq|].
    + eapply headroom_step; [done|exact H1|done|]. unfold headroom in *. lia.
    + intros c2 H2. apply wp_ret. left. split; [by destruct h|]. rewrite hash_empty_iff in H2. cbn [hfields] in H2.
      rewrite (st_slots _ _ _ H1) in H2. unfold settle. change (default ∅ (hfields <$> Some h)) with (hfields h).
      case_decide as E; [rewrite bool_decide_true in H2 by done|rewrite bool_decide_false in H2 by done];
        by eapply step_trans.
  - cbn. rewrite Hk0. apply wp_ret. left. split; [done|]. unfold settle. assert (E : without fs (fields_of None) = ∅) by apply map_filter_empty.
    rewrite decide_True by done. rewrite delete_id; [done|]. by rewrite purge_visible.
Qed.

Lemma wp_hdel t r key fs c :
  inv c → roomy t key (HDel fs) c → fs ≠ [] → wp (handle t r key (HDel fs)) c (outcome t key (HDel fs) c).
Proof.
  intros H Hroom Hf. unfold handle, hash_args, handle_hdel. rewrite args_long by done.
  cbn [lookup list_lookup mbind option_bind as_bulk_string bulk or_reply]. change (drop 1 (_ :: ?l)) with l. rewrite bulk_strings_bulk.
  apply (wp_removing t r key (HDel fs) fs (λ h, Integer (Z.of_nat (size (hfields h) - size (without fs (hfields h)))))); try done.
  intros h. by rewrite hdel_spec.
Qed.

Lemma wp_hgetdel t r key fs c :
  inv c → roomy t key (HGetDel fs) c → fs ≠ [] → wp (handle t r key (HGetDel fs)) c (outcome t key (HGetDel fs) c).
Proof.
  intros H Hroom Hf. unfold handle, hash_args, handle_hgetdel. rewrite args_long by done.
  cbn [lookup list_lookup mbind option_bind as_bulk_string bulk or_reply]. change (drop 1 (_ :: ?l)) with l. rewrite bulk_strings_bulk.
  rewrite decide_False by done. apply (wp_removing t r key (HGetDel fs) fs (λ h, Array (BulkString <$> taken fs (hfields h)))); try done.
  - do 2 f_equal. unfold taken, hash_new. cbn [hfields]. apply list_eq. intros i. rewrite !list_lookup_fmap, list_lookup_imap. destruct (fs !! i); [|done]. cbn. rewrite lookup_empty. by case_decide.
  - intros h. by rewrite hgetdel_spec.
Qed.

(** ** Incrementing *)

Lemma hash_int_at (h : RedisHash) f : hash_int h f = match int_at (hfields h) f with Some z => Ok z | None => Err err_not_int end.
Proof.
  unfold hash_int, int_at. destruct (hfields h !! f) as [v|]; [|done]. destruct (from_utf8 v) as [s|]; [|done]. cbn.
  by destruct (parse_i64 s).
Qed.

Lemma wp_hincrby t r key f (delta : Z) c :
  inv c → quiet c → hash_of (visible t key (slots c)) ≠ Some hash_new → roomy t key (HIncrBy f delta) c → in_i64 delta →
  wp (handle t r key (HIncrBy f delta)) c (outcome t key (HIncrBy f delta) c).
Proof.
  intros H Hq Hne Hroom Hd. unfold handle, hash_args, handle_hincrby. change (negb (_ =? 3)) with false.
  cbn [lookup list_lookup mbind option_bind or_reply]. rewrite parse_dec by done. cbn [as_bulk_string bulk or_reply].
  set (vis := visible t key (slots c)) in *. assert (Ef : hfields (default hash_new (hash_of vis)) = fields_of vis) by apply fields_of_hash.
  destruct (int_at (fields_of vis) f) as [z|] eqn:Ez.
  - destruct (decide (in_i64 (z + delta))) as [Hin|Hin].
    + eapply (wp_update t r key _ _ (mkRedisHash (<[f := dec (z + delta)]> (fields_of vis))) (mret (Integer (z + delta)))); try done.
      * unfold ideal. fold vis. by rewrite Ez, decide_True.
      * apply insert_non_empty.
      * fold vis. rewrite (hincrby_ok _ _ z) by (done || by rewrite hash_int_at, Ef, Ez). by rewrite <- Ef, put_back_field_spec.
    + eapply (wp_keep t r key); try done.
      * fold vis. intros E. rewrite E in Ez. cbn in Ez. unfold int_at in Ez. rewrite lookup_empty in Ez. injection Ez as <-. by destruct Hin.
      * unfold ideal. fold vis. by rewrite Ez, decide_False.
      * fold vis. unfold hincrby, checked_add_i64. rewrite hash_int_at, Ef, Ez.
        destruct (in_i64_b (z + delta)) eqn:Eb; [by apply in_i64_b_spec in Eb|done].
  - eapply (wp_keep t r key); try done.
    + fold vis. intros E. rewrite E in Ez. cbn in Ez. unfold int_at in Ez. by rewrite lookup_empty in Ez.
    + unfold ideal. fold vis. by rewrite Ez.
    + fold vis. unfold hincrby. by rewrite hash_int_at, Ef, Ez.
Qed.

Lemma hincrbyfloat_at (h : RedisHash) f (d : spec_float) :
  hincrbyfloat parse_f64 fmt_f64 h f d =
  match float_at (hfields h) f with
  | None => (h, Err err_not_float)
  | Some x =>
    let y := SFadd 53 1024 x d in
    if is_nan y then (h, Err err_nan) else (mkRedisHash (<[f := as_bytes (format_hash_float fmt_f64 y)]> (hfields h)), Ok y)
  end.
Proof.
  unfold hincrbyfloat, hash_float, float_at. destruct (hfields h !! f) as [v|]; [|done]. destruct (from_utf8 v) as [s|]; [|done]. cbn.
  destruct (parse_f64 (trim s)) as [x|]; [|done]. by destruct x.
Qed.

Lemma zero_plus (d : spec_float) : is_nan d = false → is_nan (SFadd 53 1024 (S754_zero false) d) = false.
Proof. by destruct d as [[]| | |]. Qed.

Lemma wp_hincrbyfloat t r key f (text : Bytes) c :
  inv c → quiet c → hash_of (visible t key (slots c)) ≠ Some hash_new → roomy t key (HIncrByFloat f text) c →
  request_ok (HIncrByFloat f text) → wp (handle t r key (HIncrByFloat f text)) c (outcome t key (HIncrByFloat f text) c).
Proof.
  intros H Hq Hne Hroom Hd. cbn in Hd. destruct (parse_f64 (from_utf8_lossy text)) as [d|] eqn:Ed; [|done].
  unfold handle, hash_args, handle_hincrbyfloat. change (negb (_ =? 3)) with false.
  cbn [lookup list_lookup mbind option_bind or_reply]. unfold parse_float. cbn [as_bulk_string bulk or_reply]. rewrite Ed. cbn [ok_or or_reply]. rewrite Hd.
  set (vis := visible t key (slots c)) in *. assert (Ef : hfields (default hash_new (hash_of vis)) = fields_of vis) by apply fields_of_hash.
  destruct (float_at (fields_of vis) f) as [x|] eqn:Ex; [destruct (is_nan (SFadd 53 1024 x d)) eqn:En|].
  - eapply (wp_keep t r key); try done.
    + fold vis. intros E. rewrite E in Ex. cbn in Ex. unfold float_at in Ex. rewrite lookup_empty in Ex. injection Ex as <-.
      by rewrite zero_plus in En.
    + unfold ideal. fold vis. by rewrite Ex, Ed, En.
    + fold vis. rewrite hincrbyfloat_at, Ef, Ex. cbv zeta. by rewrite En.
  - set (text' := as_bytes (format_hash_float fmt_f64 (SFadd 53 1024 x d))).
    eapply (wp_update t r key _ _ (mkRedisHash (<[f := text']> (fields_of vis))) (mret (bulk text'))); try done.
    + unfold ideal. fold vis. by rewrite Ex, Ed, En.
    + apply insert_non_empty.
    + fold vis. rewrite hincrbyfloat_at, Ef, Ex. cbv zeta. rewrite En. by rewrite <- Ef, put_back_field_spec.
  - eapply (wp_keep t r key); try done.
    + fold vis. intros E. rewrite E in Ex. cbn in Ex. unfold float_at in Ex. by rewrite lookup_empty in Ex.
    + unfold ideal. fold vis. by rewrite Ex.
    + fold vis. by rewrite hincrbyfloat_at, Ef, Ex.
Qed.


(** ** Where it goes wrong *)

(** HSETNX sees fields of a past-due hash.  It looks for the field before anything drops the key, so it answers
    0 and sets nothing although the key is gone for every other command: HEXISTS answers 0 as well. *)
Theorem hsetnx_stale t r key f v c s h w :
  inv c → slots c !! key = Some s → is_expired t s = true → slot_value s = VHash h → hget h f = Some w →
  handle t r key (HSetNx f v) c = Ret (c, Integer 0) ∧ ∃ c', handle t r key (HExists f) c = Ret (c', Integer 0).
Proof.
  intros H Hk Hx Hs Hf. split.
  - cut (wp (handle t r key (HSetNx f v)) c (λ c' reply, c' = c ∧ reply = Integer 0)).
    { intros Hw. by destruct (wp_elim _ _ _ Hw) as (c' & reply & E & -> & ->). }
    unfold handle, hash_args, handle_hsetnx. change (negb (_ =? 3)) with false.
    cbn [lookup list_lookup mbind option_bind as_bulk_string bulk or_reply]. apply wp_bind, wp_get_hash; [done|]. rewrite Hk. cbn. rewrite Hs.
    unfold hexists. unfold hget in Hf. rewrite Hf, bool_decide_true by done. by apply wp_ret.
  - destruct (wp_elim _ _ _ (wp_reads t r key (HExists f) c H I I)) as (c' & reply & E & Ho). exists c'.
    assert (Hv : visible t key (slots c) = None) by (unfold visible; rewrite Hk; cbn; by rewrite Hx).
    unfold outcome in Ho. rewrite Hv in Ho. cbn in Ho. rewrite decide_False in Ho by (rewrite lookup_empty; by intros [? ?]).
    by destruct Ho as [[-> _]|(_ & ? & _)].
Qed.
End props.

(** ** Eviction of the key that is being written *)

(** A hash of one field, which takes 176 bytes; every round draws its key. *)
Definition one_field : KeySlot GeoSet := mkKeySlot None (VHash (mkRedisHash {[bs "f" := bs "v"]})).
Definition all_draws : nat → Round := λ _, mkRound (replicate 5 [(0, 0)]%nat) 0 id id 0.
Definition evicting : Rounds := mkRounds all_draws all_draws all_draws (λ _, all_draws).


(** ** Witnesses *)

Lemma geo_hash_sizes : @HashSizes geo_platform.
Proof. intros h h' Hs. cbn. unfold hlen. pose proof (map_subseteq_size _ _ Hs). lia. Qed.

Lemma one_field_inv (max_memory : Z) exp : @inv GeoSet unit geo_platform (holding max_memory (mkKeySlot exp (slot_value one_field))).
Proof. apply holding_inv; vm_compute; [reflexivity|discriminate]. Qed.

