(* ===== verification/Bitmap.v ===== *)
(** * Bitmaps ([cache/bitmap.rs])

    Bits of a string are numbered from the most significant bit of its first byte.  [u64] positions
    wrap around, and an index outside the string panics. *)

From S2P Require Import Prelude RustStd Errors ListType SetType HashType SortedSet StreamType Memory KeyMap Keyspace CacheOps.
From Stdlib Require Import Lia.
Local Open Scope Z_scope.

(** [512 * 1024 * 1024 * 8 - 1] *)
Definition MAX_BIT_OFFSET : Z := 4294967295.

Inductive BitOpKind : Type := BitAnd | BitOr | BitXor | BitNot.
Inductive BitfieldOverflow : Type := Wrap | Sat | FailOvf.

#[global] Instance BitOpKind_eq_dec : EqDecision BitOpKind.
Proof. solve_decision. Defined.

Inductive BitfieldOp : Type :=
| BfGet (signed : bool) (bits offset : Z)
| BfSet (signed : bool) (bits offset value : Z)
| BfIncrBy (signed : bool) (bits offset increment : Z).

(** ** Single bits *)

(** [1u8 << (7 - bit_i)], and [|=] or [&= !] with it. *)
Definition bit_mask (bit_i : Z) : Z := Z.shiftl 1 (7 - bit_i).

Definition has_bit (b : byte) (bit_i : Z) : bool := negb (Z.land (u8 b) (bit_mask bit_i) =? 0).

Definition put_bit (b : byte) (bit_i : Z) (v : bool) : byte :=
  byte_of_Z (if v then Z.lor (u8 b) (bit_mask bit_i) else Z.land (u8 b) (Z.lxor 255 (bit_mask bit_i))).

(** [v.resize(n, 0)] where the vector is shorter. *)
Definition grow (bytes : Bytes) (n : Z) : Bytes := bytes ++ replicate (Z.to_nat n - length bytes) x00.

Definition get_bit_at (bytes : Bytes) (bit_offset : Z) : Z :=
  match bytes !! Z.to_nat (bit_offset / 8) with
  | Some b => if has_bit b (bit_offset mod 8) then 1 else 0
  | None => 0
  end.

(** [bytes[bi] |= m] or [bytes[bi] &= !m] for the bit at a position. *)
Definition write_bit (bytes : Bytes) (pos : Z) (v : bool) : exec Bytes :=
  match bytes !! Z.to_nat (pos / 8) with
  | Some b => Ret (<[Z.to_nat (pos / 8) := put_bit b (pos mod 8) v]> bytes)
  | None => Panic
  end.

Definition normalize_index (idx len : Z) : Z := if idx <? 0 then Z.max (len + idx) 0 else idx.

(** ** Fields *)

Definition ensure_len (bytes : Bytes) (offset bits : Z) : Bytes :=
  grow bytes (wrap_u64 (wrap_u64 (offset + bits) + 7) / 8).

Fixpoint get_bits_loop (n : nat) (bytes : Bytes) (pos value : Z) : Z :=
  match n with
  | O => value
  | S n =>
    get_bits_loop n bytes (wrap_u64 (pos + 1)) (Z.lor (wrap_u64 (Z.shiftl value 1)) (get_bit_at bytes pos))
  end.

Definition get_bits (bytes : Bytes) (offset bits : Z) (signed : bool) : Z :=
  let value := get_bits_loop (Z.to_nat bits) bytes offset 0 in
  if signed && (bits <? 64) then
    if negb (Z.land value (Z.shiftl 1 (bits - 1)) =? 0) then
      wrap_i64 (Z.lor value (Z.lxor u64_max (Z.shiftl 1 bits - 1)))
    else wrap_i64 value
  else wrap_i64 value.

(** [n] bits are left; the next one to write is bit [n - 1] of [value]. *)
Fixpoint set_bits_loop (n : nat) (bytes : Bytes) (pos value : Z) : exec Bytes :=
  match n with
  | O => Ret bytes
  | S n =>
    bytes ← write_bit bytes pos (Z.land (Z.shiftr value (Z.of_nat n)) 1 =? 1);
    set_bits_loop n bytes (wrap_u64 (pos + 1)) value
  end.

Definition set_bits (bytes : Bytes) (offset bits value width : Z) : exec Bytes :=
  let mask := if 64 <=? width then u64_max else Z.shiftl 1 width - 1 in
  set_bits_loop (Z.to_nat bits) bytes offset (Z.land value mask).

Definition apply_overflow_i128 (value bits : Z) (signed : bool) (mode : BitfieldOverflow) : Z * bool :=
  let '(lo, hi) :=
    if signed then (- Z.shiftl 1 (bits - 1), Z.shiftl 1 (bits - 1) - 1)
    else (0, if 64 <=? bits then u64_max else Z.shiftl 1 bits - 1) in
  if (lo <=? value) && (value <=? hi) then (wrap_i64 value, true)
  else match mode with
       | FailOvf => (0, false)
       | Sat => (wrap_i64 (if hi <? value then hi else lo), true)
       | Wrap =>
         if negb signed && (64 <=? bits) then (wrap_i64 (wrap_u64 value), true)
         else
           let range := Z.shiftl 1 bits in
           let v := Z.rem value range in
           let v := if v <? 0 then v + range else v in
           let v := if signed && (Z.shiftl 1 (bits - 1) <=? v) then v - range else v in
           (wrap_i64 v, true)
       end.

Definition apply_overflow (value bits : Z) (signed : bool) (mode : BitfieldOverflow) : Z * bool :=
  apply_overflow_i128 value bits signed mode.

(** One operation of BITFIELD: the bytes, whether they were written, and the reply. *)
Definition bf_store (bytes : Bytes) (offset bits : Z) (stored : Z * bool) (reply : Z) : exec (Bytes * bool * option Z) :=
  if stored.2 then
    bytes ← set_bits (ensure_len bytes offset bits) offset bits (wrap_u64 stored.1) bits;
    Ret (bytes, true, Some reply)
  else Ret (bytes, false, None).

Definition bf_op (mode : BitfieldOverflow) (bytes : Bytes) (op : BitfieldOp) : exec (Bytes * bool * option Z) :=
  match op with
  | BfGet signed bits offset => Ret (bytes, false, Some (get_bits bytes offset bits signed))
  | BfSet signed bits offset value =>
    bf_store bytes offset bits (apply_overflow value bits signed mode) (get_bits bytes offset bits signed)
  | BfIncrBy signed bits offset increment =>
    let stored := apply_overflow_i128 (get_bits bytes offset bits signed + increment) bits signed mode in
    bf_store bytes offset bits stored stored.1
  end.

Fixpoint bf_ops (mode : BitfieldOverflow) (bytes : Bytes) (ops : list BitfieldOp) : exec (Bytes * bool * list (option Z)) :=
  match ops with
  | [] => Ret (bytes, false, [])
  | op :: ops =>
    '(bytes, wrote, reply) ← bf_op mode bytes op;
    '(bytes, wrote', replies) ← bf_ops mode bytes ops;
    Ret (bytes, wrote || wrote', reply :: replies)
  end.

Definition bf_parts (op : BitfieldOp) : bool * Z * Z * bool :=
  match op with
  | BfGet signed bits offset => (signed, bits, offset, false)
  | BfSet signed bits offset _ | BfIncrBy signed bits offset _ => (signed, bits, offset, true)
  end.

(** The checks before the write: the end of the highest field and whether anything is written. *)
Fixpoint bf_extent (ops : list BitfieldOp) (max_end : Z) (any_write : bool) : result KError (Z * bool) :=
  match ops with
  | [] => Ok (max_end, any_write)
  | op :: ops =>
    let '(signed, bits, offset, is_write) := bf_parts op in
    if (bits =? 0) || (64 <? bits) then Err (InvalidArgument (str "invalid bitfield type"))
    else if negb signed && (63 <? bits) then Err (InvalidArgument (str "invalid bitfield type"))
    else bf_extent ops (Z.max max_end (sat_add_u64 offset bits)) (any_write || is_write)
  end.

(** ** On the keyspace *)

(** The outcome of [setbit] and [bitfield]: the answer and the sizes to account for, if written. *)
Inductive BitOutcome (A : Type) : Type :=
| BitDone (a : A) (sizes : option (Z * Z))
| BitTooLarge.
Arguments BitDone {A} a sizes.
Arguments BitTooLarge {A}.

Section ops.
Context {GeoSet Srch : Type} `{!Platform GeoSet, !SearchManager Srch}.
Abbreviation M := (St (Cache GeoSet Srch)).

Definition raw_entry (key : Bytes) (len : Z) : Z :=
  wrap_u64 (zlen key + len + entry_struct_size (GeoSet := GeoSet)).

(** The size checks of [setbit] and [bitfield] before the map is changed. *)
Definition bit_capacity (t : Clock) (rounds : nat → Round) (key : Bytes) (needed_len limit : Z) : M (result KError unit) :=
  existing ← get_string_entry t key;
  let new_len := Z.max needed_len (zlen (default [] (e_value <$> existing))) in
  if limit <? raw_entry key new_len then mret (Err EntryTooLarge)
  else ensure_capacity t rounds (sat_sub_u64 (raw_entry key new_len) (default 0 (entry_size (GeoSet := GeoSet) <$> existing))).

(** Their closures: [f] maps the old value to the new one, if it writes, and an answer. *)
Definition bit_action {A} (t : Clock) (key : Bytes) (limit : Z) (f : Bytes → exec (option Bytes * A))
    (current : option Entry) (slot_exp : option Z) (next_cas : Z) : MapAction Entry * option Z * exec (BitOutcome A) :=
  let '(old_val, keep_exp, fl, old_size) := rmw_old (GeoSet := GeoSet) t current slot_exp in
  match f old_val with
  | Panic => (Keep, None, Panic)
  | Ret (None, a) => (Keep, None, Ret (BitDone a None))
  | Ret (Some bytes, a) =>
    if limit <? raw_entry key (zlen bytes) then (Keep, None, Ret BitTooLarge)
    else
      let entry := with_cas (with_flags (entry_new t key bytes) fl) next_cas in
      (Set_ entry, keep_exp, Ret (BitDone a (Some (old_size, entry_size (GeoSet := GeoSet) entry))))
  end.

Definition bit_account {A} (o : exec (BitOutcome A)) : M (result KError A) :=
  match o with
  | Ret (BitDone a (Some (old_size, new_size))) => _ ← account_replace old_size new_size; mret (Ok a)
  | Ret (BitDone a None) => mret (Ok a)
  | Ret BitTooLarge => mret (Err EntryTooLarge)
  | Panic => λ _, Panic
  end.

Definition set_one (offset bit : Z) (old : Bytes) : exec (option Bytes * Z) :=
  let bytes := grow old (offset / 8 + 1) in
  bytes' ← write_bit bytes offset (bit =? 1);
  Ret (Some bytes', get_bit_at bytes offset).

Definition setbit (t : Clock) (rounds : nat → Round) (key : Bytes) (offset bit : Z) : M (result KError Z) :=
  if 1 <? bit then mret (Err (InvalidArgument (str "bit is not an integer or out of range")))
  else if MAX_BIT_OFFSET <? offset then mret (Err (InvalidArgument (str "bit offset is not an integer or out of range")))
  else
    _ ?← ensure_string_or_absent t key;
    limit ← asks max_entry_size;
    _ ?← bit_capacity t rounds key (offset / 8 + 1) limit;
    outcome ?← mutate_string key (bit_action t key limit (set_one offset bit));
    bit_account outcome.

(** The value of a string key; nothing for a missing one. *)
Definition read_string (t : Clock) (key : Bytes) : M (result KError (option Bytes)) :=
  kt ← key_type t key;
  match kt with
  | KNone => mret (Ok None)
  | KString => e ← get_string_entry t key; mret (Ok (e_value <$> e))
  | _ => mret (Err WrongType)
  end.

Definition getbit (t : Clock) (key : Bytes) (offset : Z) : M (result KError Z) :=
  if MAX_BIT_OFFSET <? offset then mret (Err (InvalidArgument (str "bit offset is not an integer or out of range")))
  else
    v ?← read_string t key;
    mret (Ok (get_bit_at (default [] v) offset)).

(** [b.count_ones()] *)
Definition count_ones (b : byte) : Z := zlen (filter (λ i, has_bit b (Z.of_nat i) = true) (List.seq 0 8)).

Definition bit_window (start end_ : option Z) (len : Z) (open_start : bool) : Z * Z :=
  match start, end_ with
  | None, None => (0, len - 1)
  | Some s, None => (normalize_index s len, len - 1)
  | Some s, Some e => (normalize_index s len, normalize_index e len)
  | None, Some e => (0, if open_start then normalize_index e len else len - 1)
  end.

Definition bitcount_value (bytes : Bytes) (start end_ : option Z) (bit_unit : bool) : Z :=
  let byte_len := zlen bytes in
  if byte_len =? 0 then 0
  else if bit_unit then
    let bit_len := byte_len * 8 in
    let '(s, e) := bit_window start end_ bit_len false in
    if (e <? s) || (bit_len <=? s) then 0
    else zlen (filter (λ pos, get_bit_at bytes pos = 1) (seqZ s (Z.min e (bit_len - 1) - s + 1)))
  else
    let '(s, e) := bit_window start end_ byte_len false in
    if (e <? s) || (byte_len <=? s) then 0
    else foldr (λ b n, count_ones b + n) 0
           (take (Z.to_nat (Z.min e (byte_len - 1) - s + 1)) (drop (Z.to_nat s) bytes)).

Definition bitcount (t : Clock) (key : Bytes) (start end_ : option Z) (bit_unit : bool) : M (result KError Z) :=
  v ?← read_string t key;
  mret (Ok (bitcount_value (default [] v) start end_ bit_unit)).

(** The first position of [bit] in a byte, as the inner loop finds it. *)
Definition find_in_byte (b : byte) (bit : Z) : option nat :=
  fst <$> list_find (λ i,
    ((bit =? 1) && has_bit b (Z.of_nat i)) || ((bit =? 0) && negb (has_bit b (Z.of_nat i))) = true) (List.seq 0 8).

Fixpoint find_in_bytes (bytes : Bytes) (bi : Z) (bit : Z) : option Z :=
  match bytes with
  | [] => None
  | b :: bytes =>
    let target := if bit =? 1 then u8 b else Z.lxor 255 (u8 b) in
    if target =? 0 then find_in_bytes bytes (bi + 1) bit
    else match find_in_byte b bit with
         | Some i => Some (bi * 8 + Z.of_nat i)
         | None => find_in_bytes bytes (bi + 1) bit
         end
  end.

Definition bitpos_value (bytes : Bytes) (bit : Z) (start end_ : option Z) (bit_unit : bool) : Z :=
  let byte_len := zlen bytes in
  if byte_len =? 0 then (if bit =? 0 then 0 else -1)
  else
    let len := if bit_unit then byte_len * 8 else byte_len in
    let '(s, e) := bit_window start end_ len true in
    if (e <? s) || (len <=? s) then -1
    else
      let e := Z.min e (len - 1) in
      let found :=
        if bit_unit then snd <$> list_find (λ pos, get_bit_at bytes pos = bit) (seqZ s (e - s + 1))
        else find_in_bytes (take (Z.to_nat (e - s + 1)) (drop (Z.to_nat s) bytes)) s bit in
      match found with
      | Some pos => pos
      | None => if (bit =? 0) && negb (bool_decide (is_Some end_)) then byte_len * 8 else -1
      end.

Definition bitpos (t : Clock) (key : Bytes) (bit : Z) (start end_ : option Z) (bit_unit : bool) : M (result KError Z) :=
  if 1 <? bit then mret (Err (InvalidArgument (str "bit is not an integer or out of range")))
  else
    v ?← read_string t key;
    mret (Ok (bitpos_value (default [] v) bit start end_ bit_unit)).

Fixpoint read_sources (t : Clock) (keys : list Bytes) : M (result KError (list Bytes)) :=
  match keys with
  | [] => mret (Ok [])
  | k :: keys =>
    v ?← read_string t k;
    rest ?← read_sources t keys;
    mret (Ok (default [] v :: rest))
  end.

Definition bitop_byte (op : BitOpKind) (a b : byte) : byte :=
  byte_of_Z match op with
            | BitAnd => Z.land (u8 a) (u8 b)
            | BitOr => Z.lor (u8 a) (u8 b)
            | _ => Z.lxor (u8 a) (u8 b)
            end.

Definition bitop_value (op : BitOpKind) (sources : list Bytes) : Bytes :=
  let max_len := foldr (λ s n, Z.max (zlen s) n) 0 sources in
  match op, sources with
  | _, [] => []
  | BitNot, src :: _ => (λ b, byte_of_Z (Z.lxor 255 (u8 b))) <$> src
  | _, s0 :: rest => foldl (λ acc src, zip_with (bitop_byte op) acc (grow src max_len)) (grow s0 max_len) rest
  end.

Definition bitop_action (t : Clock) (dest result_ : Bytes) (current : option Entry) (slot_exp : option Z) (next_cas : Z)
    : MapAction Entry * option Z * RmwOutcome Z :=
  let entry := with_cas (entry_new t dest result_) next_cas in
  (Set_ entry, None,
   RmwOk (zlen result_) (default 0 (entry_size (GeoSet := GeoSet) <$> current)) (entry_size (GeoSet := GeoSet) entry)).

(** [Remove] for whatever is there. *)
Definition remove_action (current : option Entry) (slot_exp : option Z) (next_cas : Z) : MapAction Entry * option Z * unit :=
  (Remove_, None, tt).

Definition bitop (t : Clock) (rounds : nat → Round) (op : BitOpKind) (dest : Bytes) (keys : list Bytes)
    : M (result KError Z) :=
  if decide (keys = []) then mret (Err (InvalidArgument (str "wrong number of arguments for 'bitop'")))
  else if bool_decide (op = BitNot) && negb (length keys =? 1)%nat then
    mret (Err (InvalidArgument (str "BITOP NOT must be called with a single source key")))
  else
    sources ?← read_sources t keys;
    _ ?← ensure_string_or_absent t dest;
    let result_ := bitop_value op sources in
    limit ← asks max_entry_size;
    if limit <? raw_entry dest (zlen result_) then mret (Err EntryTooLarge)
    else
      old ← get_string_entry t dest;
      let old_size := default 0 (entry_size (GeoSet := GeoSet) <$> old) in
      if decide (result_ = []) then
        if 0 <? old_size then
          _ ?← mutate_string dest remove_action;
          _ ← account_replace old_size 0;
          mret (Ok 0)
        else mret (Ok 0)
      else
        _ ?← ensure_capacity t rounds (sat_sub_u64 (raw_entry dest (zlen result_)) old_size);
        outcome ?← mutate_string dest (bitop_action t dest result_);
        rmw_account EntryTooLarge outcome.

(** The loop over the operations, on a value grown to the highest field if anything is written. *)
Definition bf_body (mode : BitfieldOverflow) (ops : list BitfieldOp) (needed_len : Z) (any_write : bool) (old : Bytes)
    : exec (option Bytes * list (option Z)) :=
  '(bytes, wrote, replies) ← bf_ops mode (if any_write then grow old needed_len else old) ops;
  Ret (if wrote : bool then Some bytes else None, replies).

Definition bitfield (t : Clock) (rounds : nat → Round) (key : Bytes) (ops : list BitfieldOp) (mode : BitfieldOverflow)
    : M (result KError (list (option Z))) :=
  if decide (ops = []) then mret (Ok [])
  else
    _ ?← ensure_string_or_absent t key;
    extent ?← mret (bf_extent ops 0 false);
    let needed_len := wrap_u64 (extent.1 + 7) / 8 in
    limit ← asks max_entry_size;
    _ ?← (if extent.2 : bool then bit_capacity t rounds key needed_len limit else mret (Ok tt));
    outcome ?← mutate_string key (bit_action t key limit (bf_body mode ops needed_len extent.2));
    bit_account outcome.
End ops.
