(* ===== verification/BitmapFacts.v ===== *)
(** * Facts on bitmaps

    A string is read as an infinite sequence of bits, with zeros after its end; each operation is
    the corresponding operation on that sequence. *)

From S2P Require Import Prelude RustStd Errors ListType SetType HashType SortedSet StreamType Memory KeyMap Keyspace CacheOps CacheFacts EvictionFacts CacheSpecs Bitmap.
From Stdlib Require Import Lia.
Local Open Scope Z_scope.

(** ** Bits of integers *)

Lemma land_one_bit a n : 0 ≤ n → (Z.land a (Z.shiftl 1 n) =? 0) = negb (Z.testbit a n).
Proof.
  intros Hn. rewrite Z.shiftl_1_l. destruct (Z.testbit a n) eqn:E; simpl.
  - apply Z.eqb_neq. intros H. apply (f_equal (λ z, Z.testbit z n)) in H.
    rewrite Z.land_spec, Z.pow2_bits_true, E, Z.bits_0 in H; done.
  - apply Z.eqb_eq, Z.bits_inj'. intros m Hm. rewrite Z.land_spec, Z.bits_0, Z.pow2_bits_eqb by done.
    destruct (Z.eqb_spec n m) as [->|]; [by rewrite E|by rewrite andb_false_r].
Qed.

Lemma land_shiftr_one v n : 0 ≤ n → (Z.land (Z.shiftr v n) 1 =? 1) = Z.testbit v n.
Proof.
  intros Hn. change 1 with (Z.ones 1) at 1. rewrite Z.land_ones, <- Z.bit0_mod by lia. rewrite Z.shiftr_spec by lia.
  rewrite Z.add_0_l. by destruct (Z.testbit v n).
Qed.

Lemma testbit_255 n : 0 ≤ n < 8 → Z.testbit 255 n = true.
Proof. intros. change 255 with (Z.ones 8). by apply Z.ones_spec_low. Qed.

Lemma testbit_mod_256 z n : 0 ≤ n < 8 → Z.testbit (z mod 256) n = Z.testbit z n.
Proof. intros. change 256 with (2 ^ 8). apply Z.mod_pow2_bits_low. lia. Qed.

(** ** Bits of bytes *)

Lemma has_bit_spec b i : 0 ≤ i < 8 → has_bit b i = Z.testbit (u8 b) (7 - i).
Proof. intros. unfold has_bit, bit_mask. rewrite land_one_bit by lia. by rewrite negb_involutive. Qed.

Lemma put_bit_spec b i v j : 0 ≤ i < 8 → 0 ≤ j < 8 → has_bit (put_bit b i v) j = if j =? i then v else has_bit b j.
Proof.
  intros Hi Hj. rewrite !has_bit_spec by done. unfold put_bit, bit_mask. rewrite u8_byte_of_Z, testbit_mod_256 by lia.
  rewrite Z.shiftl_1_l. assert (E : (7 - i =? 7 - j) = (j =? i)) by (destruct (Z.eqb_spec (7 - i) (7 - j)), (Z.eqb_spec j i); lia || done).
  destruct v.
  - rewrite Z.lor_spec, Z.pow2_bits_eqb, E by lia. destruct (j =? i); [apply orb_true_r|apply orb_false_r].
  - rewrite Z.land_spec, Z.lxor_spec, Z.pow2_bits_eqb, E, testbit_255 by lia.
    destruct (j =? i); simpl; [apply andb_false_r|apply andb_true_r].
Qed.

Lemma has_bit_zero i : has_bit x00 i = false.
Proof. done. Qed.

(** ** The bits of a string *)

Definition bit (bytes : Bytes) (q : Z) : bool := get_bit_at bytes q =? 1.

Lemma bit_lookup bytes q :
  bit bytes q = match bytes !! Z.to_nat (q / 8) with Some b => has_bit b (q mod 8) | None => false end.
Proof. unfold bit, get_bit_at. destruct (bytes !! _) as [b|]; [|done]. by destruct (has_bit b (q mod 8)). Qed.

Lemma get_bit_at_bit bytes q : get_bit_at bytes q = Z.b2z (bit bytes q).
Proof. unfold bit, get_bit_at. destruct (bytes !! _) as [b|]; [|done]. by destruct (has_bit b (q mod 8)). Qed.

Lemma grow_bit bytes n q : bit (grow bytes n) q = bit bytes q.
Proof.
  rewrite !bit_lookup. unfold grow. set (i := Z.to_nat (q / 8)). destruct (decide (i < length bytes)%nat).
  - by rewrite lookup_app_l.
  - rewrite lookup_app_r, (lookup_ge_None_2 bytes i) by lia. destruct (replicate _ _ !! _) as [b|] eqn:E; [|done].
    apply lookup_replicate in E as [-> _]. apply has_bit_zero.
Qed.

Lemma grow_length bytes n : zlen (grow bytes n) = Z.max (zlen bytes) n.
Proof. unfold grow. rewrite length_app, length_replicate. lia. Qed.

Lemma bit_ge bytes q : zlen bytes * 8 ≤ q → bit bytes q = false.
Proof.
  intros. rewrite bit_lookup, lookup_ge_None_2; [done|]. pose proof (Z.div_mod q 8). pose proof (Z.mod_pos_bound q 8). lia.
Qed.

Lemma write_bit_spec bytes pos v :
  0 ≤ pos < zlen bytes * 8 →
  ∃ bytes', write_bit bytes pos v = Ret bytes' ∧ length bytes' = length bytes ∧
    ∀ q, 0 ≤ q → bit bytes' q = if q =? pos then v else bit bytes q.
Proof.
  intros Hp. pose proof (Z.div_mod pos 8 ltac:(lia)) as Dp. pose proof (Z.mod_pos_bound pos 8 ltac:(lia)) as Bp.
  unfold write_bit. destruct (bytes !! Z.to_nat (pos / 8)) as [b|] eqn:E; [|apply lookup_ge_None in E; lia].
  eexists. split; [done|]. split; [apply length_insert|]. intros q Hq.
  pose proof (Z.div_mod q 8 ltac:(lia)) as Dq. pose proof (Z.mod_pos_bound q 8 ltac:(lia)) as Bq. rewrite !bit_lookup.
  destruct (decide (q / 8 = pos / 8)) as [Eq|Ne].
  - rewrite Eq, list_lookup_insert_eq, E by (by eapply lookup_lt_Some). rewrite put_bit_spec by lia.
    destruct (Z.eqb_spec (q mod 8) (pos mod 8)), (Z.eqb_spec q pos); try done; lia.
  - rewrite list_lookup_insert_ne by lia. destruct (Z.eqb_spec q pos); [congruence|done].
Qed.

(** ** Fields *)

(** The [n] bits from [p] on, as an unsigned number; and the sequence with such a field written. *)
Fixpoint field (n : nat) (s : Z → bool) (p : Z) : Z :=
  match n with O => 0 | S n => Z.b2z (s p) * 2 ^ Z.of_nat n + field n s (p + 1) end.

Definition put_field (s : Z → bool) (p n w : Z) : Z → bool :=
  λ q, if (p <=? q) && (q <? p + n) then Z.testbit w (n - 1 - (q - p)) else s q.

Lemma field_range n s p : 0 ≤ field n s p < 2 ^ Z.of_nat n.
Proof.
  revert p. induction n as [|n IH]; intros p; cbn [field]; [done|]. specialize (IH (p + 1)).
  rewrite Nat2Z.inj_succ, Z.pow_succ_r by lia. destruct (s p); simpl Z.b2z; lia.
Qed.

Lemma field_ext n s s' p : (∀ q, p ≤ q < p + Z.of_nat n → s q = s' q) → field n s p = field n s' p.
Proof.
  revert p. induction n as [|n IH]; intros p H; cbn [field]; [done|]. rewrite (H p) by lia. f_equal. apply IH.
  intros q Hq. apply H. lia.
Qed.

Lemma field_testbit n w p : field n (λ q, Z.testbit w (Z.of_nat n - 1 - (q - p))) p = w mod 2 ^ Z.of_nat n.
Proof.
  revert p. induction n as [|n IH]; intros p; cbn [field]; [by rewrite Z.mod_1_r|].
  replace (Z.of_nat (S n) - 1 - (p - p)) with (Z.of_nat n) by lia.
  rewrite (field_ext n _ (λ q, Z.testbit w (Z.of_nat n - 1 - (q - (p + 1))))); [|intros q _; f_equal; lia].
  rewrite IH, Z.testbit_spec' by lia. rewrite Nat2Z.inj_succ, Z.pow_succ_r, (Z.mul_comm 2) by lia.
  rewrite Z.rem_mul_r by lia. lia.
Qed.

Lemma set_bits_loop_spec n bytes pos value :
  0 ≤ pos → pos + Z.of_nat n ≤ zlen bytes * 8 → pos + Z.of_nat n ≤ u64_max →
  ∃ bytes', set_bits_loop n bytes pos value = Ret bytes' ∧ length bytes' = length bytes ∧
    ∀ q, 0 ≤ q → bit bytes' q = put_field (bit bytes) pos (Z.of_nat n) value q.
Proof.
  revert bytes pos. induction n as [|n IH]; intros bytes pos H0 Hl Hm; cbn [set_bits_loop].
  { exists bytes. split; [done|]. split; [done|]. intros q _. unfold put_field. destruct (Z.leb_spec pos q), (Z.ltb_spec q (pos + Z.of_nat 0)); try done; lia. }
  rewrite land_shiftr_one by lia.
  destruct (write_bit_spec bytes pos (Z.testbit value (Z.of_nat n))) as (b1 & -> & L1 & B1); [lia|]. cbn [mbind exec_bind].
  rewrite wrap_u64_id by lia. destruct (IH b1 (pos + 1)) as (b2 & E2 & L2 & B2); [lia|rewrite L1; lia|lia|].
  exists b2. split; [done|]. split; [congruence|]. intros q Hq. rewrite B2 by done. unfold put_field. rewrite B1 by done.
  destruct (Z.leb_spec (pos + 1) q), (Z.ltb_spec q (pos + 1 + Z.of_nat n)), (Z.leb_spec pos q),
    (Z.ltb_spec q (pos + Z.of_nat (S n))), (Z.eqb_spec q pos); cbn [andb]; try lia; try done; f_equal; lia.
Qed.

Lemma lor_shift1 v b : 0 ≤ v → Z.lor (Z.shiftl v 1) (Z.b2z b) = 2 * v + Z.b2z b.
Proof.
  intros. assert (E : Z.land (Z.shiftl v 1) (Z.b2z b) = 0).
  { apply Z.bits_inj'. intros m Hm. rewrite Z.land_spec, Z.bits_0. destruct (decide (m = 0)) as [->|].
    - rewrite Z.shiftl_spec_low by lia. done.
    - destruct b; [|change (Z.b2z false) with 0; rewrite Z.bits_0; apply andb_false_r]. change (Z.b2z true) with (Z.ones 1). rewrite Z.ones_spec_high by lia.
      apply andb_false_r. }
  pose proof (Z.add_lor_land (Z.shiftl v 1) (Z.b2z b)) as A. rewrite E in A. rewrite Z.shiftl_mul_pow2 in * by lia. lia.
Qed.

Lemma get_bits_loop_spec n bytes pos v :
  0 ≤ pos → pos + Z.of_nat n ≤ u64_max → 0 ≤ v → (v + 1) * 2 ^ Z.of_nat n ≤ u64_max + 1 →
  get_bits_loop n bytes pos v = v * 2 ^ Z.of_nat n + field n (bit bytes) pos.
Proof.
  revert pos v. induction n as [|n IH]; intros pos v H0 Hm Hv Hb; cbn [get_bits_loop field]; [lia|].
  rewrite get_bit_at_bit, wrap_u64_id by lia. rewrite Nat2Z.inj_succ, Z.pow_succ_r in * by lia.
  pose proof (Z.pow_pos_nonneg 2 (Z.of_nat n) ltac:(lia) ltac:(lia)) as Hp.
  assert (H2v : Z.shiftl v 1 = 2 * v) by (rewrite Z.shiftl_mul_pow2; lia).
  rewrite (wrap_u64_id (Z.shiftl v 1)) by (rewrite H2v; nia). rewrite lor_shift1 by done.
  rewrite IH; [lia|lia|lia|destruct (bit bytes pos); simpl Z.b2z; lia|destruct (bit bytes pos); simpl Z.b2z; nia].
Qed.

(** The number in a field, as the type says. *)
Definition field_value (signed : bool) (bits : Z) (s : Z → bool) (p : Z) : Z :=
  let v := field (Z.to_nat bits) s p in
  if signed && (2 ^ (bits - 1) <=? v) then v - 2 ^ bits else v.

Lemma pow_le_64 b : 0 ≤ b ≤ 64 → 1 ≤ 2 ^ b ≤ u64_max + 1.
Proof.
  intros. split; [apply (Z.pow_le_mono_r 2 0 b); lia|]. change (u64_max + 1) with (2 ^ 64). apply Z.pow_le_mono_r; lia.
Qed.

Lemma pow_split b : 1 ≤ b → 2 ^ b = 2 * 2 ^ (b - 1).
Proof. intros. rewrite <- Z.pow_succ_r by lia. f_equal. lia. Qed.

Lemma sign_extend v b :
  0 ≤ b ≤ 64 → 0 ≤ v < 2 ^ b → Z.lor v (Z.lxor u64_max (Z.shiftl 1 b - 1)) = v + (u64_max + 1) - 2 ^ b.
Proof.
  intros Hb Hv. rewrite Z.shiftl_1_l. change u64_max with (Z.ones 64) at 1.
  replace (2 ^ b - 1) with (Z.ones b) by (rewrite Z.ones_equiv; lia).
  assert (E : Z.lxor (Z.ones 64) (Z.ones b) = Z.shiftl (Z.ones (64 - b)) b).
  { apply Z.bits_inj'. intros m Hm. rewrite Z.lxor_spec. destruct (decide (m < b)).
    - rewrite Z.shiftl_spec_low, !Z.ones_spec_low by lia. done.
    - rewrite Z.shiftl_spec, (Z.ones_spec_high b) by lia. rewrite xorb_false_r. destruct (decide (m < 64)).
      + rewrite !Z.ones_spec_low by lia. done.
      + rewrite !Z.ones_spec_high by lia. done. }
  rewrite E. assert (D : Z.land v (Z.shiftl (Z.ones (64 - b)) b) = 0).
  { apply Z.bits_inj'. intros m Hm. rewrite Z.land_spec, Z.bits_0. destruct (decide (m < b)).
    - rewrite Z.shiftl_spec_low by lia. apply andb_false_r.
    - rewrite <- (Z.mod_small v (2 ^ b)) by done. rewrite Z.mod_pow2_bits_high by lia. done. }
  pose proof (Z.add_lor_land v (Z.shiftl (Z.ones (64 - b)) b)) as A. rewrite D in A.
  rewrite Z.shiftl_mul_pow2, Z.ones_equiv in * by lia.
  assert (P : 2 ^ (64 - b) * 2 ^ b = u64_max + 1) by (rewrite <- Z.pow_add_r by lia; by replace (64 - b + b) with 64 by lia).
  lia.
Qed.

Lemma wrap_i64_shift z : wrap_i64 (z + (u64_max + 1)) = wrap_i64 z.
Proof.
  unfold wrap_i64. f_equal. replace (z + (u64_max + 1) - i64_min) with (z - i64_min + 1 * (u64_max + 1)) by lia.
  apply Z.mod_add. done.
Qed.

(** A field of at most 63 unsigned or 64 signed bits is an [i64]. *)
Lemma pow_le_63 b : 0 ≤ b ≤ 63 → 1 ≤ 2 ^ b ≤ i64_max + 1.
Proof.
  intros. split; [apply (Z.pow_le_mono_r 2 0 b); lia|]. change (i64_max + 1) with (2 ^ 63). apply Z.pow_le_mono_r; lia.
Qed.

Lemma get_bits_spec bytes offset bits signed :
  1 ≤ bits ≤ 64 → (signed = false → bits ≤ 63) → 0 ≤ offset → offset + bits ≤ u64_max →
  get_bits bytes offset bits signed = field_value signed bits (bit bytes) offset.
Proof.
  intros Hb Hu H0 Hm. unfold get_bits, field_value. pose proof (pow_le_64 bits ltac:(lia)) as Hp.
  rewrite get_bits_loop_spec; [|lia|lia|lia|rewrite Z2Nat.id by lia; lia]. rewrite Z.mul_0_l, Z.add_0_l.
  pose proof (field_range (Z.to_nat bits) (bit bytes) offset) as R. rewrite Z2Nat.id in R by lia.
  set (v := field _ _ _) in *. clearbody v. rewrite land_one_bit, negb_involutive by lia.
  pose proof (pow_split bits ltac:(lia)) as Sp. pose proof (Z.pow_pos_nonneg 2 (bits - 1) ltac:(lia) ltac:(lia)) as Pp.
  assert (T : Z.testbit v (bits - 1) = (2 ^ (bits - 1) <=? v)).
  { rewrite Z.testbit_eqb by lia. destruct (Z.leb_spec (2 ^ (bits - 1)) v).
    - replace (v / 2 ^ (bits - 1)) with 1; [done|]. apply Z.div_unique with (v - 2 ^ (bits - 1)); lia.
    - rewrite Z.div_small by lia. done. }
  rewrite T. pose proof (pow_le_63 (bits - 1) ltac:(lia)) as Q. assert (Em : i64_min = - (i64_max + 1)) by done.
  destruct signed; cbn [andb].
  - destruct (Z.leb_spec (2 ^ (bits - 1)) v).
    + assert (W : wrap_i64 (v - 2 ^ bits) = v - 2 ^ bits) by (apply wrap_i64_id; lia).
      destruct (Z.ltb_spec bits 64).
      * rewrite sign_extend by lia. by replace (v + (u64_max + 1) - 2 ^ bits) with (v - 2 ^ bits + (u64_max + 1)) by lia; rewrite wrap_i64_shift.
      * replace bits with 64 in * by lia. rewrite <- (wrap_i64_shift (v - 2 ^ 64)) in W.
        by replace (v - 2 ^ 64 + (u64_max + 1)) with v in W by (change (2 ^ 64) with (u64_max + 1); lia).
    + destruct (bits <? 64); apply wrap_i64_id; lia.
  - pose proof (pow_le_63 bits ltac:(lia)). apply wrap_i64_id. lia.
Qed.

(** ** Overflow *)

Definition low (signed : bool) (bits : Z) : Z := if signed then - 2 ^ (bits - 1) else 0.
Definition high (signed : bool) (bits : Z) : Z := if signed then 2 ^ (bits - 1) - 1 else 2 ^ bits - 1.

(** What OVERFLOW makes of a number: nothing, the nearest bound, or the number of the type that is
    congruent to it. *)
Definition fit (mode : BitfieldOverflow) (signed : bool) (bits v : Z) : option Z :=
  if (low signed bits <=? v) && (v <=? high signed bits) then Some v
  else match mode with
       | FailOvf => None
       | Sat => Some (if high signed bits <? v then high signed bits else low signed bits)
       | Wrap => Some ((v - low signed bits) mod 2 ^ bits + low signed bits)
       end.

Definition type_ok (signed : bool) (bits : Z) : Prop := 1 ≤ bits ≤ 64 ∧ (signed = false → bits ≤ 63).

Lemma type_bounds signed bits :
  type_ok signed bits → i64_min ≤ low signed bits ≤ 0 ∧ 0 ≤ high signed bits ≤ i64_max ∧
  high signed bits - low signed bits + 1 = 2 ^ bits.
Proof.
  intros [Hb Hu]. unfold low, high. pose proof (pow_le_63 (bits - 1) ltac:(lia)). pose proof (pow_split bits ltac:(lia)).
  assert (i64_min = - (i64_max + 1)) by done. destruct signed; [lia|]. pose proof (pow_le_63 bits ltac:(lia)).
  unfold i64_min. lia.
Qed.

Lemma fit_range mode signed bits v w :
  type_ok signed bits → fit mode signed bits v = Some w → low signed bits ≤ w ≤ high signed bits.
Proof.
  intros Ht. pose proof (type_bounds signed bits Ht) as B. pose proof (Z.mod_pos_bound (v - low signed bits) (2 ^ bits)) as Mb.
  unfold fit. destruct (Z.leb_spec (low signed bits) v), (Z.leb_spec v (high signed bits)); cbn [andb]; [by intros [= <-]|..];
    (destruct mode; [intros [= <-]; destruct Ht; pose proof (pow_le_64 bits); lia|intros [= <-]; destruct (high signed bits <? v); lia|done]).
Qed.

Lemma rem_residue v r : 0 < r → (if Z.rem v r <? 0 then Z.rem v r + r else Z.rem v r) = v mod r.
Proof.
  intros Hr. pose proof (Z.quot_rem' v r) as Q. pose proof (Z.rem_bound_abs v r ltac:(lia)) as Bd.
  destruct (Z.ltb_spec (Z.rem v r) 0).
  - apply Z.mod_unique_pos with (Z.quot v r - 1); lia.
  - apply Z.mod_unique_pos with (Z.quot v r); lia.
Qed.

Lemma apply_overflow_spec mode signed bits v :
  type_ok signed bits →
  apply_overflow_i128 v bits signed mode = (default 0 (fit mode signed bits v), bool_decide (is_Some (fit mode signed bits v))).
Proof.
  intros Ht. pose proof (type_bounds signed bits Ht) as B. destruct Ht as [Hb Hu].
  pose proof (pow_le_64 bits ltac:(lia)) as P. pose proof (pow_split bits ltac:(lia)) as Sp.
  pose proof (Z.mod_pos_bound v (2 ^ bits) ltac:(lia)) as Mb.
  assert (E : (if signed then (- Z.shiftl 1 (bits - 1), Z.shiftl 1 (bits - 1) - 1)
    else (0, if 64 <=? bits then u64_max else Z.shiftl 1 bits - 1)) = (low signed bits, high signed bits)).
  { unfold low, high. destruct signed; rewrite !Z.shiftl_1_l; [done|]. destruct (Z.leb_spec 64 bits); [lia|done]. }
  unfold apply_overflow_i128, fit. rewrite E. destruct ((low signed bits <=? v) && (v <=? high signed bits)) eqn:Er.
  { rewrite wrap_i64_id by lia. done. }
  destruct mode; cbn [from_option id].
  - rewrite !Z.shiftl_1_l, rem_residue by lia.
    assert (En : negb signed && (64 <=? bits) = false) by (destruct signed; [done|]; apply Z.leb_gt; lia). rewrite En.
    rewrite bool_decide_true by done. f_equal. unfold low, high in *. destruct signed; cbn [andb].
    + replace ((v - - 2 ^ (bits - 1)) mod 2 ^ bits + - 2 ^ (bits - 1)) with
        (if 2 ^ (bits - 1) <=? v mod 2 ^ bits then v mod 2 ^ bits - 2 ^ bits else v mod 2 ^ bits).
      * rewrite wrap_i64_id; [done|]. destruct (Z.leb_spec (2 ^ (bits - 1)) (v mod 2 ^ bits)); lia.
      * pose proof (Z.div_mod v (2 ^ bits) ltac:(lia)) as D. destruct (Z.leb_spec (2 ^ (bits - 1)) (v mod 2 ^ bits)).
        -- rewrite <- (Z.mod_unique_pos (v - - 2 ^ (bits - 1)) (2 ^ bits) (v / 2 ^ bits + 1) (v mod 2 ^ bits - 2 ^ (bits - 1))); lia.
        -- rewrite <- (Z.mod_unique_pos (v - - 2 ^ (bits - 1)) (2 ^ bits) (v / 2 ^ bits) (v mod 2 ^ bits + 2 ^ (bits - 1))); lia.
    + rewrite Z.sub_0_r, Z.add_0_r. pose proof (pow_le_63 bits ltac:(lia)). apply wrap_i64_id. unfold i64_min. lia.
  - rewrite bool_decide_true by done. f_equal. apply wrap_i64_id. destruct (high signed bits <? v); lia.
  - done.
Qed.

(** ** BITFIELD on an infinite sequence of bits *)

Definition ideal_store (s : Z → bool) (offset bits : Z) (stored : option Z) (reply : Z) : (Z → bool) * option Z :=
  match stored with Some w => (put_field s offset bits w, Some reply) | None => (s, None) end.

Definition ideal_op (mode : BitfieldOverflow) (s : Z → bool) (op : BitfieldOp) : (Z → bool) * option Z :=
  match op with
  | BfGet signed bits offset => (s, Some (field_value signed bits s offset))
  | BfSet signed bits offset v =>
    ideal_store s offset bits (fit mode signed bits v) (field_value signed bits s offset)
  | BfIncrBy signed bits offset d =>
    let stored := fit mode signed bits (field_value signed bits s offset + d) in
    ideal_store s offset bits stored (default 0 stored)
  end.

Fixpoint ideal_ops (mode : BitfieldOverflow) (s : Z → bool) (ops : list BitfieldOp) : (Z → bool) * list (option Z) :=
  match ops with
  | [] => (s, [])
  | op :: ops => let '(s, r) := ideal_op mode s op in let '(s, rs) := ideal_ops mode s ops in (s, r :: rs)
  end.

(** The type exists and the field does not reach the end of the 64-bit positions. *)
Definition op_valid (op : BitfieldOp) : Prop :=
  let '(signed, bits, offset, _) := bf_parts op in type_ok signed bits ∧ 0 ≤ offset ∧ offset + bits + 7 ≤ u64_max.

(** Where the fields end. *)
Definition op_end (op : BitfieldOp) : Z := let '(_, bits, offset, _) := bf_parts op in offset + bits.
Definition ops_end (ops : list BitfieldOp) : Z := foldr (λ op n, Z.max (op_end op) n) 0 ops.

Lemma end_bytes a b : (Z.max a b + 7) / 8 = Z.max ((a + 7) / 8) ((b + 7) / 8).
Proof.
  destruct (Z.max_spec a b) as [[H ->]|[H ->]]; [pose proof (Z.div_le_mono (a + 7) (b + 7) 8)|pose proof (Z.div_le_mono (b + 7) (a + 7) 8)]; lia.
Qed.

Lemma ops_end_fits ops : Forall op_valid ops → 0 ≤ ops_end ops ∧ ops_end ops + 7 ≤ u64_max.
Proof.
  induction 1 as [|op ops Hv _ IH]; [done|]. cbn [ops_end foldr]. fold (ops_end ops). unfold op_valid, op_end in *.
  destruct (bf_parts op) as [[[signed bits] offset] w]. destruct Hv as ([] & ? & ?). lia.
Qed.

Lemma bf_extent_valid ops n b :
  Forall op_valid ops → 0 ≤ n → ∃ b', bf_extent ops n b = Ok (Z.max n (ops_end ops), b').
Proof.
  intros Hv. revert n b. induction Hv as [|op ops Ho Hv IH]; intros n b Hn; cbn [bf_extent ops_end foldr].
  { exists b. by rewrite Z.max_l. }
  fold (ops_end ops). unfold op_valid, op_end in *. destruct (bf_parts op) as [[[signed bits] offset] w].
  destruct Ho as ([Hb Hu] & H0 & Hm). destruct (Z.eqb_spec bits 0), (Z.ltb_spec 64 bits); try lia. cbn [orb].
  assert (Eu : negb signed && (63 <? bits) = false) by (destruct signed; [done|]; apply Z.ltb_ge, Hu; done). rewrite Eu.
  unfold sat_add_u64. rewrite Z.min_l by lia. edestruct (IH (Z.max n (offset + bits))) as [b' ->]; [lia|].
  exists b'. by rewrite Z.max_assoc.
Qed.

Lemma put_field_ext s s' p n w w' q :
  (∀ q, 0 ≤ q → s q = s' q) → 0 ≤ q → (∀ j, 0 ≤ j < n → Z.testbit w j = Z.testbit w' j) →
  put_field s p n w q = put_field s' p n w' q.
Proof.
  intros Hs Hq Hw. unfold put_field. destruct (Z.leb_spec p q), (Z.ltb_spec q (p + n)); cbn [andb]; [apply Hw; lia|by apply Hs..].
Qed.

Lemma set_bits_spec bytes offset bits w :
  1 ≤ bits ≤ 64 → 0 ≤ offset → offset + bits ≤ zlen bytes * 8 → offset + bits ≤ u64_max →
  ∃ bytes', set_bits bytes offset bits (wrap_u64 w) bits = Ret bytes' ∧ length bytes' = length bytes ∧
    ∀ q, 0 ≤ q → bit bytes' q = put_field (bit bytes) offset bits w q.
Proof.
  intros Hb H0 Hl Hm. unfold set_bits.
  destruct (set_bits_loop_spec (Z.to_nat bits) bytes offset
    (Z.land (wrap_u64 w) (if 64 <=? bits then u64_max else Z.shiftl 1 bits - 1))) as (bytes' & E & L & B); [lia..|].
  exists bytes'. split; [done|]. split; [done|]. intros q Hq. rewrite B by done. rewrite Z2Nat.id by lia.
  apply put_field_ext; [done|done|]. intros j Hj.
  assert (Em : (if 64 <=? bits then u64_max else Z.shiftl 1 bits - 1) = Z.ones bits).
  { rewrite Z.ones_equiv, Z.shiftl_1_l. destruct (Z.leb_spec 64 bits); [by replace bits with 64 by lia|lia]. }
  rewrite Em, Z.land_ones, Z.mod_pow2_bits_low by lia. unfold wrap_u64. change (u64_max + 1) with (2 ^ 64).
  apply Z.mod_pow2_bits_low. lia.
Qed.

Lemma field_value_ext signed bits s s' p :
  0 ≤ p → 0 ≤ bits → (∀ q, 0 ≤ q → s q = s' q) → field_value signed bits s p = field_value signed bits s' p.
Proof. intros Hp Hb H. unfold field_value. rewrite (field_ext _ s s' p); [done|]. intros q Hq. apply H. lia. Qed.

(** The bytes hold the first bits of the sequence. *)
Definition holds (bytes : Bytes) (s : Z → bool) : Prop := ∀ q, 0 ≤ q → bit bytes q = s q.

Lemma bf_store_spec bytes s signed bits offset stored reply :
  type_ok signed bits → 0 ≤ offset → offset + bits + 7 ≤ u64_max → holds bytes s →
  ∃ bytes' wrote r, bf_store bytes offset bits (default 0 stored, bool_decide (is_Some stored)) reply = Ret (bytes', wrote, r) ∧
    holds bytes' (ideal_store s offset bits stored reply).1 ∧ r = (ideal_store s offset bits stored reply).2 ∧
    (wrote = false → bytes' = bytes) ∧ zlen bytes' ≤ Z.max (zlen bytes) ((offset + bits + 7) / 8).
Proof.
  intros Ht H0 Hm Hs. unfold bf_store, ideal_store. destruct stored as [w|]; cbn [fst snd].
  - rewrite bool_decide_true by done. unfold ensure_len. rewrite (wrap_u64_id (offset + bits)), (wrap_u64_id (offset + bits + 7)) by (destruct Ht; lia).
    set (g := grow bytes ((offset + bits + 7) / 8)). pose proof (grow_length bytes ((offset + bits + 7) / 8)) as G. fold g in G.
    assert (Hg : ∀ q, bit g q = bit bytes q) by (intros q; apply grow_bit). clearbody g.
    pose proof (Z.div_mod (offset + bits + 7) 8 ltac:(lia)). pose proof (Z.mod_pos_bound (offset + bits + 7) 8 ltac:(lia)).
    destruct Ht as [Hb Hu]. destruct (set_bits_spec g offset bits w) as (b' & E & L & B); [lia..|]. cbn [from_option id].
    rewrite E. cbn [mbind exec_bind]. eexists b', true, _. split; [done|]. split; [|split; [done|split; [done|lia]]].
    intros q Hq. rewrite B by done. apply put_field_ext; [|done|done]. intros q' Hq'. rewrite Hg. by apply Hs.
  - rewrite bool_decide_false by (by intros []). eexists bytes, false, None. split; [done|]. split; [done|].
    split; [done|]. split; [done|lia].
Qed.

Lemma bf_op_spec mode bytes s op :
  op_valid op → holds bytes s →
  ∃ bytes' wrote, bf_op mode bytes op = Ret (bytes', wrote, (ideal_op mode s op).2) ∧ holds bytes' (ideal_op mode s op).1 ∧
    (wrote = false → bytes' = bytes) ∧ zlen bytes' ≤ Z.max (zlen bytes) ((op_end op + 7) / 8).
Proof.
  intros Hv Hs. destruct op as [signed bits offset|signed bits offset v|signed bits offset d]; cbn in Hv; destruct Hv as (Ht & H0 & Hm);
    pose proof Ht as [Hb Hu]; cbn [bf_op ideal_op]; unfold apply_overflow; rewrite get_bits_spec, (field_value_ext _ _ _ s) by (done || lia).
  - exists bytes, false. split; [done|]. split; [done|]. split; [done|lia].
  - rewrite apply_overflow_spec by done.
    edestruct (bf_store_spec bytes s signed bits offset (fit mode signed bits v)) as (b & w & r & E & H & -> & Hw & Hn); [done..|].
    rewrite E. by exists b, w.
  - rewrite apply_overflow_spec by done. cbn [fst].
    edestruct (bf_store_spec bytes s signed bits offset (fit mode signed bits (field_value signed bits s offset + d)))
      as (b & w & r & E & H & -> & Hw & Hn); [done..|].
    rewrite E. by exists b, w.
Qed.

Lemma bf_ops_spec mode ops bytes s :
  Forall op_valid ops → holds bytes s →
  ∃ bytes' wrote, bf_ops mode bytes ops = Ret (bytes', wrote, (ideal_ops mode s ops).2) ∧ holds bytes' (ideal_ops mode s ops).1 ∧
    (wrote = false → bytes' = bytes) ∧ zlen bytes' ≤ Z.max (zlen bytes) ((ops_end ops + 7) / 8).
Proof.
  revert bytes s. induction ops as [|op ops IH]; intros bytes s Hv Hs; cbn [bf_ops ideal_ops].
  { exists bytes, false. split; [done|]. split; [done|]. split; [done|lia]. }
  inversion Hv as [|? ? Hv1 Hv2]; subst. destruct (bf_op_spec mode bytes s op Hv1 Hs) as (b1 & w1 & -> & H1 & W1 & L1).
  destruct (ideal_op mode s op) as [s1 r1]. cbn [fst snd mbind exec_bind] in *.
  destruct (IH b1 s1 Hv2 H1) as (b2 & w2 & -> & H2 & W2 & L2). destruct (ideal_ops mode s1 ops) as [s2 rs]. cbn [fst snd mbind exec_bind] in *.
  exists b2, (w1 || w2). split; [done|]. split; [done|]. split.
  { intros [E1 E2]%orb_false_iff. rewrite W2, W1; done. }
  cbn [ops_end foldr]. fold (ops_end ops). pose proof (end_bytes (op_end op) (ops_end ops)). lia.
Qed.

(** ** On the keyspace *)

Section keyspace.
Context {GeoSet Srch : Type} `{!Platform GeoSet, !PlatformLaws GeoSet, !SearchManager Srch, !SearchLaws Srch}.
Abbreviation Slot := (KeySlot GeoSet).
Abbreviation C := (Cache GeoSet Srch).
Abbreviation M := (St C).
Implicit Types (c : C) (k : Bytes) (m : gmap Bytes Slot).

Ltac wp_step := first [apply wp_bind | apply wp_try | apply wp_ret | apply wp_asks | apply wp_modify].
Ltac wp_steps := repeat (wp_step; cbv beta).

Definition bit_sizes {A} (o : exec (BitOutcome A)) : option (Z * Z) :=
  match o with Ret (BitDone _ sizes) => sizes | _ => None end.

Lemma bit_action_ok {A} t k limit (f : Bytes → exec (option Bytes * A)) :
  action_ok k (bit_action (GeoSet := GeoSet) t k limit f) bit_sizes.
Proof.
  intros cur exp token. unfold bit_action, rmw_old.
  destruct cur as [e|]; [destruct (slot_ttl_live t exp)|]; (destruct (f _) as [[[bytes|] a]|]; [|done..]); destruct (limit <? _); done.
Qed.

(** The value a string key shows, empty if there is none. *)
Definition shown (t : Clock) k m : Bytes :=
  match visible t k m with Some (mkKeySlot _ (VString e)) => e_value e | _ => [] end.

Definition bit_spec {A} (t : Clock) (limit : Z) (f : Bytes → exec (option Bytes * A)) k (token : Z) m
    : gmap Bytes Slot * exec (result KError A) :=
  let '(m', o) := do_string (bit_action (GeoSet := GeoSet) t k limit f) k token m in
  (m', match o with
       | Err e => Ret (Err e)
       | Ok (Ret (BitDone a _)) => Ret (Ok a)
       | Ok (Ret BitTooLarge) => Ret (Err EntryTooLarge)
       | Ok Panic => Panic
       end).

Lemma wp_bit_write {A} t k limit (f : Bytes → exec (option Bytes * A)) c :
  inv c → (∀ token, (bit_spec t limit f k token (slots c)).2 ≠ Panic) →
  wp (try_bind (mutate_string k (bit_action t k limit f)) bit_account) c
    (λ c' r, ∃ token, Ret r = (bit_spec t limit f k token (slots c)).2 ∧ lands c c' (bit_spec t limit f k token (slots c)).1).
Proof.
  intros H Hf. apply wp_try. eapply wp_mono; [apply wp_do_string; [done|apply bit_action_ok]|].
  intros c1 r (token & -> & Hacc). specialize (Hf token). unfold bit_spec in *.
  assert (W : ∀ c' (r : result KError A), Ret r = (bit_spec t limit f k token (slots c)).2 → lands c c' (bit_spec t limit f k token (slots c)).1 →
    ∃ token, Ret r = (bit_spec t limit f k token (slots c)).2 ∧ lands c c' (bit_spec t limit f k token (slots c)).1) by eauto.
  set (Q := λ (c' : C) (r : result KError A), ∃ token, _) in *. unfold bit_spec in W.
  destruct (do_string _ k token (slots c)) as [m' [[[a [[old new]|]|]|]|e]]; cbn [fst snd bit_account accounted bit_sizes] in *.
  - apply wp_bind. eapply wp_mono; [exact Hacc|]. intros c2 [] Hl. apply wp_ret. by apply W.
  - apply wp_ret. apply W; [done|by apply step_lands].
  - apply wp_ret. apply W; [done|by apply step_lands].
  - done.
  - apply W; [done|by apply step_lands].
Qed.

Lemma wp_bit_capacity t rounds k needed_len limit c :
  inv c → (∀ i, round_ok (rounds i)) →
  wp (bit_capacity t rounds k needed_len limit) c (λ c' r,
    (r = Err EntryTooLarge ∧ c' = c ∧
       limit < raw_entry (GeoSet := GeoSet) k (Z.max needed_len (zlen (shown t k (slots c))))) ∨ made_room c c' r).
Proof.
  intros H Hr. unfold bit_capacity. apply wp_bind. eapply wp_mono; [by apply wp_get_string_entry|]. intros c1 old [-> ->].
  assert (E : default [] (e_value <$> (s ← visible t k (slots c); match slot_value s with VString e => Some e | _ => None end))
    = shown t k (slots c)).
  { unfold shown. destruct (visible t k (slots c)) as [[exp v]|]; [|done]. by destruct v. }
  rewrite E. destruct (Z.ltb_spec limit (raw_entry (GeoSet := GeoSet) k (Z.max needed_len (zlen (shown t k (slots c)))))).
  - apply wp_ret. by left.
  - eapply wp_mono; [by apply wp_ensure_capacity|]. by right.
Qed.

(** How [setbit] and [bitfield] end. *)
Definition bit_written {A} (t : Clock) c k needed_len (f : Bytes → exec (option Bytes * A)) c' (r : result KError A) : Prop :=
  let m0 := purge t k (slots c) in
  (∃ e, r = Err e ∧ step c c' m0 ∧
     ((e = WrongType ∧ string_or_absent t k (slots c) = Err WrongType) ∨
      (e = EntryTooLarge ∧ max_entry_size c < raw_entry (GeoSet := GeoSet) k (Z.max needed_len (zlen (shown t k (slots c))))))) ∨
  ∃ m1, m1 ⊆ m0 ∧ (max_memory c = 0 → m1 = m0) ∧
    ((r = Err OutOfMemory ∧ max_memory c ≠ 0 ∧ step c c' m1) ∨
     ∃ token, Ret r = (bit_spec t (max_entry_size c) f k token m1).2 ∧
       lands c c' (bit_spec t (max_entry_size c) f k token m1).1).

Lemma shown_purge t k m : shown t k (purge t k m) = shown t k m.
Proof. unfold shown. by rewrite visible_purge. Qed.

Lemma string_or_absent_err t k m e : string_or_absent t k m = Err e → e = WrongType.
Proof. unfold string_or_absent. destruct (visible t k m) as [s|]; [|done]. destruct (is_string _); [done|]. by intros [= <-]. Qed.

Lemma wp_bit_program {A} t rounds k (check : bool) needed_len (f : Bytes → exec (option Bytes * A)) c :
  inv c → (∀ i, round_ok (rounds i)) → (∀ old, f old ≠ Panic) →
  wp (_ ?← ensure_string_or_absent t k;
      limit ← asks max_entry_size;
      _ ?← (if check then bit_capacity t rounds k needed_len limit else mret (Ok tt));
      outcome ?← mutate_string k (bit_action t k limit f);
      bit_account outcome) c (bit_written t c k needed_len f).
Proof.
  intros H Hr Hf. apply wp_try. eapply wp_mono; [by apply wp_ensure_string|]. intros c1 r [H1 ->].
  destruct (string_or_absent t k (slots c)) as [[]|e] eqn:Es.
  2: { pose proof (string_or_absent_err _ _ _ _ Es) as ->. left. exists WrongType. split; [done|]. split; [done|]. by left. }
  destruct (cfg_limits _ _ _ H1) as [Em Ee]. apply wp_bind, wp_asks. rewrite Ee. apply wp_try.
  assert (Hcap : wp (if check then bit_capacity t rounds k needed_len (max_entry_size c) else mret (Ok ())) c1 (λ c' r,
    (r = Err EntryTooLarge ∧ c' = c1 ∧
       max_entry_size c < raw_entry (GeoSet := GeoSet) k (Z.max needed_len (zlen (shown t k (slots c1))))) ∨ made_room c1 c' r)).
  { destruct check; [apply wp_bit_capacity; [apply H1|done]|]. apply wp_ret. right. apply made_room_refl, H1. }
  eapply wp_mono; [exact Hcap|]. intros c2 r [(-> & -> & Hbig)|(m1 & H2 & Hsub & Hun & Hres)].
  { left. exists EntryTooLarge. split; [done|]. split; [done|]. right. split; [done|].
    by rewrite (st_slots _ _ _ H1), shown_purge in Hbig. }
  rewrite (st_slots _ _ _ H1), Em in *. pose proof (step_trans _ _ _ _ _ H1 H2) as H12.
  destruct r as [[]|e].
  - eapply wp_mono; [apply wp_bit_write; [apply H2|]|].
    { intros token. unfold bit_spec, do_string, bit_action.
      destruct (slots c2 !! k) as [[exp v]|]; [destruct v|]; try done;
        (destruct (rmw_old _ _ _) as [[[ov ke] fl] os]; pose proof (Hf ov); destruct (f ov) as [[[b|] a]|]; [|done..]);
        by destruct (max_entry_size c <? _). }
    intros c3 r (token & E & Hl). right. rewrite (st_slots _ _ _ H2) in *. exists m1. split; [done|].
    split; [by intros [_ ?]%Hun|]. right. exists token. split; [done|]. by eapply lands_trans.
  - right. exists m1. split; [done|]. split; [by intros [_ ?]%Hun|]. left. destruct Hres as [|[= ->]]; [done|].
    split; [done|]. split; [by intros [? _]%Hun|done].
Qed.

Lemma bit_written_inv {A} t c k n (f : Bytes → exec (option Bytes * A)) c' r : bit_written t c k n f c' r → fits c' → inv c'.
Proof.
  intros [(e & _ & Hst & _)|(m1 & _ & _ & [(_ & _ & Hst)|(token & _ & _ & Hl)])] Hf; [by destruct Hst..|].
  by destruct (Hl Hf).
Qed.
End keyspace.
