(* ===== verification/BitmapProps.v ===== *)
(** * Properties of bitmaps *)

From S2P Require Import Prelude RustStd Errors ListType SetType HashType SortedSet StreamType Memory KeyMap Keyspace CacheOps CacheFacts EvictionFacts CacheSpecs CacheScan KeyspaceSim Bitmap BitmapFacts.
From Stdlib Require Import Lia.
Local Open Scope Z_scope.

(** ** A string as a list of bits *)

Definition byte_bits (b : byte) : list bool := (λ i, has_bit b (Z.of_nat i)) <$> List.seq 0 8.
Definition bits_of (bytes : Bytes) : list bool := bytes ≫= byte_bits.

Definition count_true (l : list bool) : Z := zlen (filter (λ b, b = true) l).

Lemma byte_bits_length b : length (byte_bits b) = 8%nat.
Proof. done. Qed.

Lemma bits_of_cons b bytes : bits_of (b :: bytes) = byte_bits b ++ bits_of bytes.
Proof. done. Qed.

Lemma bits_of_length bytes : length (bits_of bytes) = (8 * length bytes)%nat.
Proof. induction bytes as [|b bytes IH]; [done|]. rewrite bits_of_cons, length_app, byte_bits_length, IH. simpl. lia. Qed.

Lemma bits_of_drop n bytes : bits_of (drop n bytes) = drop (8 * n) (bits_of bytes).
Proof.
  revert bytes. induction n as [|n IH]; intros bytes; [done|]. destruct bytes as [|b bytes]; [by rewrite !drop_nil|].
  rewrite bits_of_cons. cbn [drop]. rewrite IH. replace (8 * S n)%nat with (length (byte_bits b) + 8 * n)%nat by (rewrite byte_bits_length; lia).
  by rewrite drop_app_add.
Qed.

Lemma bits_of_take n bytes : bits_of (take n bytes) = take (8 * n) (bits_of bytes).
Proof.
  revert bytes. induction n as [|n IH]; intros bytes; [done|]. destruct bytes as [|b bytes]; [by rewrite take_nil|].
  cbn [take]. rewrite !bits_of_cons, IH. replace (8 * S n)%nat with (length (byte_bits b) + 8 * n)%nat by (rewrite byte_bits_length; lia).
  by rewrite take_app_add.
Qed.

Lemma bits_of_lookup bytes p : (p < 8 * length bytes)%nat → bits_of bytes !! p = Some (bit bytes (Z.of_nat p)).
Proof.
  intros Hp. pose proof (Nat.div_mod p 8 ltac:(lia)) as D. pose proof (Nat.mod_upper_bound p 8 ltac:(lia)) as R.
  set (q := (p / 8)%nat) in *. set (r := (p mod 8)%nat) in *.
  destruct (lookup_lt_is_Some_2 bytes q) as [b Hb]; [lia|]. rewrite bit_lookup.
  replace (Z.of_nat p / 8) with (Z.of_nat q) by (unfold q; rewrite Nat2Z.inj_div; done). rewrite Nat2Z.id, Hb.
  replace (Z.of_nat p mod 8) with (Z.of_nat r) by (unfold r; rewrite Nat2Z.inj_mod; done).
  rewrite <- (take_drop_middle bytes q b Hb). unfold bits_of. rewrite bind_app, bind_cons. fold (bits_of (take q bytes)).
  assert (L : length (bits_of (take q bytes)) = (8 * q)%nat) by (rewrite bits_of_length, length_take; lia).
  rewrite lookup_app_r by lia. rewrite L, lookup_app_l by (rewrite byte_bits_length; lia).
  unfold byte_bits. rewrite list_lookup_fmap, lookup_seq_lt by lia. simpl. do 2 f_equal. lia.
Qed.

Lemma count_true_app l l' : count_true (l ++ l') = count_true l + count_true l'.
Proof. unfold count_true. rewrite filter_app, length_app. lia. Qed.

Lemma count_ones_bits b : count_ones b = count_true (byte_bits b).
Proof.
  unfold count_ones, count_true, byte_bits. induction (List.seq 0 8) as [|i l IH]; [done|]. rewrite fmap_cons, !filter_cons.
  repeat case_decide; try done; simpl; lia.
Qed.

Lemma count_bytes bytes : foldr (λ b n, count_ones b + n) 0 bytes = count_true (bits_of bytes).
Proof. induction bytes as [|b bytes IH]; [done|]. cbn [foldr]. by rewrite IH, count_ones_bits, bits_of_cons, count_true_app. Qed.

(** The positions of a window, one by one. *)
Lemma window_bits bytes s n :
  0 ≤ s → 0 ≤ n → s + n ≤ zlen bytes * 8 →
  take (Z.to_nat n) (drop (Z.to_nat s) (bits_of bytes)) = bit bytes <$> seqZ s n.
Proof.
  intros Hs Hn Hl. apply list_eq. intros i. rewrite list_lookup_fmap. destruct (decide (i < Z.to_nat n)%nat).
  - rewrite lookup_take_lt, lookup_drop, bits_of_lookup by lia. rewrite lookup_seqZ_lt by lia. simpl. do 2 f_equal. lia.
  - rewrite lookup_take_ge, lookup_seqZ_ge by lia. done.
Qed.

Lemma count_positions bytes s n :
  zlen (filter (λ pos, get_bit_at bytes pos = 1) (seqZ s n)) = count_true (bit bytes <$> seqZ s n).
Proof.
  unfold count_true. induction (seqZ s n) as [|p l IH]; [done|]. rewrite fmap_cons, !filter_cons.
  unfold bit at 1. repeat case_decide; try lia; simpl; lia.
Qed.

(** ** Counting and searching *)

Definition first_index (v : bool) (l : list bool) : option Z := (λ x, Z.of_nat x.1) <$> list_find (λ b, b = v) l.

Lemma find_in_byte_skip b v :
  (if v =? 1 then u8 b else Z.lxor 255 (u8 b)) = 0 → v = 0 ∨ v = 1 → find_in_byte b v = None.
Proof. intros H [-> | ->]; destruct b; try discriminate H; reflexivity. Qed.

Lemma find_in_byte_bits b v :
  v = 0 ∨ v = 1 → find_in_byte b v = fst <$> list_find (λ x, x = (v =? 1)) (byte_bits b).
Proof.
  intros Hv. unfold find_in_byte, byte_bits. rewrite list_find_fmap.
  match goal with |- fst <$> ?L1 = fst <$> (_ <$> ?L2) => assert (E : L1 = L2) end.
  - apply list_find_ext. intros i. cbn. destruct Hv as [-> | ->]; cbn; destruct (has_bit b (Z.of_nat i)); done.
  - rewrite E. clear E. by destruct (list_find _ _) as [[i x]|].
Qed.

Lemma find_in_bytes_bits bytes bi v :
  v = 0 ∨ v = 1 → find_in_bytes bytes bi v = (λ i, bi * 8 + i) <$> first_index (v =? 1) (bits_of bytes).
Proof.
  intros Hv. revert bi. induction bytes as [|b bytes IH]; intros bi; [done|]. cbn [find_in_bytes]. rewrite bits_of_cons.
  assert (E : (if (if v =? 1 then u8 b else Z.lxor 255 (u8 b)) =? 0 then find_in_bytes bytes (bi + 1) v
    else match find_in_byte b v with Some i => Some (bi * 8 + Z.of_nat i) | None => find_in_bytes bytes (bi + 1) v end) =
    match find_in_byte b v with Some i => Some (bi * 8 + Z.of_nat i) | None => find_in_bytes bytes (bi + 1) v end).
  { destruct (Z.eqb_spec (if v =? 1 then u8 b else Z.lxor 255 (u8 b)) 0) as [E|]; [|done]. by rewrite find_in_byte_skip. }
  rewrite E, find_in_byte_bits by done. unfold first_index. destruct (list_find _ (byte_bits b)) as [[i x]|] eqn:Ef.
  - by rewrite (list_find_app_l _ _ _ _ _ Ef).
  - rewrite (list_find_app_r _ _ _ Ef), IH. unfold first_index. rewrite byte_bits_length. cbn [fmap option_fmap option_map].
    destruct (list_find _ (bits_of bytes)) as [[i x]|]; [|done]. simpl. f_equal. lia.
Qed.

Lemma find_positions bytes v s n :
  v = 0 ∨ v = 1 →
  snd <$> list_find (λ pos, get_bit_at bytes pos = v) (seqZ s n) = (λ i, s + i) <$> first_index (v =? 1) (bit bytes <$> seqZ s n).
Proof.
  intros Hv. unfold first_index. rewrite list_find_fmap.
  match goal with |- snd <$> ?L1 = _ <$> (_ <$> (_ <$> ?L2)) => assert (E : L1 = L2) end.
  - apply list_find_ext. intros p. cbn. rewrite get_bit_at_bit. destruct Hv as [-> | ->], (bit bytes p); done.
  - rewrite E. clear E. destruct (list_find _ _) as [[i p]|] eqn:Ef; [|done]. apply list_find_Some in Ef as (Hi & _).
    by apply lookup_seqZ in Hi as [-> _].
Qed.

(** The bits a command looks at: from bit [s * u] on, [n * u] of them, with [u] the unit. *)
Definition window (bytes : Bytes) (u s n : Z) : list bool :=
  take (Z.to_nat (u * n)) (drop (Z.to_nat (u * s)) (bits_of bytes)).

Definition units (bit_unit : bool) : Z := if bit_unit then 1 else 8.

(** The range of a command: nothing, or the first unit and the number of units. *)
Definition range_of (start end_ : option Z) (len : Z) (open_start : bool) : option (Z * Z) :=
  let '(s, e) := bit_window start end_ len open_start in
  if (e <? s) || (len <=? s) then None else Some (s, Z.min e (len - 1) - s + 1).

Definition len_in (bytes : Bytes) (bit_unit : bool) : Z := zlen (bits_of bytes) / units bit_unit.

Lemma len_in_eq bytes bit_unit : len_in bytes bit_unit = if bit_unit then zlen bytes * 8 else zlen bytes.
Proof.
  unfold len_in. rewrite bits_of_length. destruct bit_unit; cbn [units]; [rewrite Z.div_1_r; lia|].
  rewrite Nat2Z.inj_mul, Z.mul_comm. apply Z.div_mul. done.
Qed.

Lemma normalize_nonneg i len : 0 ≤ normalize_index i len.
Proof. unfold normalize_index. destruct (Z.ltb_spec i 0); lia. Qed.

Lemma range_of_bounds start end_ len b s n :
  0 ≤ len → range_of start end_ len b = Some (s, n) → 0 ≤ s ∧ 0 < n ∧ s + n ≤ len.
Proof.
  intros Hl. unfold range_of. destruct (bit_window start end_ len b) as [s' e] eqn:E.
  destruct (Z.ltb_spec e s'), (Z.leb_spec len s'); cbn [orb]; try done. intros [= <- <-].
  assert (0 ≤ s'); [|lia]. unfold bit_window in E.
  destruct start, end_; simplify_eq; try lia; apply normalize_nonneg.
Qed.

Lemma bitcount_window bytes start end_ bit_unit :
  bitcount_value bytes start end_ bit_unit =
    match range_of start end_ (len_in bytes bit_unit) false with
    | Some (s, n) => count_true (window bytes (units bit_unit) s n)
    | None => 0
    end.
Proof.
  rewrite len_in_eq. unfold bitcount_value. destruct (Z.eqb_spec (zlen bytes) 0) as [E0|Hne].
  - destruct (range_of _ _ _ _) as [[s n]|] eqn:E; [|done]. apply range_of_bounds in E; [|destruct bit_unit; lia].
    destruct bit_unit; lia.
  - pose proof (λ len s n, range_of_bounds start end_ len false s n) as Hb. unfold range_of in *. destruct bit_unit.
    + specialize (Hb (zlen bytes * 8)). destruct (bit_window start end_ (zlen bytes * 8) false) as [s e].
      destruct (_ || _); [done|]. specialize (Hb s _ ltac:(lia) eq_refl). unfold window. cbn [units]. rewrite !Z.mul_1_l.
      rewrite window_bits by lia. apply count_positions.
    + specialize (Hb (zlen bytes)). destruct (bit_window start end_ (zlen bytes) false) as [s e].
      destruct (_ || _); [done|]. specialize (Hb s _ ltac:(lia) eq_refl). unfold window. cbn [units].
      rewrite count_bytes, bits_of_take, bits_of_drop, !Z2Nat.inj_mul by lia. done.
Qed.

Lemma bitpos_window bytes v start end_ bit_unit :
  v = 0 ∨ v = 1 → bytes ≠ [] →
  bitpos_value bytes v start end_ bit_unit =
    match range_of start end_ (len_in bytes bit_unit) true with
    | Some (s, n) =>
      match first_index (v =? 1) (window bytes (units bit_unit) s n) with
      | Some i => units bit_unit * s + i
      | None => if (v =? 0) && negb (bool_decide (is_Some end_)) then zlen bytes * 8 else -1
      end
    | None => -1
    end.
Proof.
  intros Hv Hne. rewrite len_in_eq. unfold bitpos_value. destruct (Z.eqb_spec (zlen bytes) 0) as [E0|_].
  { destruct bytes; [done|simpl in E0; lia]. }
  cbv zeta. pose proof (λ len s n, range_of_bounds start end_ len true s n) as Hb. unfold range_of in *.
  set (len := if bit_unit then zlen bytes * 8 else zlen bytes) in *. specialize (Hb len).
  destruct (bit_window start end_ len true) as [s e]. destruct (_ || _); [done|].
  specialize (Hb s _ ltac:(unfold len; destruct bit_unit; lia) eq_refl). unfold window, len in *.
  destruct bit_unit; cbn [units] in *.
  - rewrite !Z.mul_1_l, find_positions by done. rewrite window_bits by lia. by destruct (first_index _ _).
  - rewrite find_in_bytes_bits by done. rewrite bits_of_take, bits_of_drop, !Z2Nat.inj_mul by lia. 
    change (Z.to_nat 8) with 8%nat. destruct (first_index _ _); [|done]. simpl. lia.
Qed.

(** ** BITOP *)

Definition bool_op (op : BitOpKind) (a b : bool) : bool :=
  match op with BitAnd => a && b | BitOr => a || b | BitXor => xorb a b | BitNot => negb a end.

Lemma bitop_byte_bit op a b i :
  op ≠ BitNot → 0 ≤ i < 8 → has_bit (bitop_byte op a b) i = bool_op op (has_bit a i) (has_bit b i).
Proof.
  intros Ho Hi. rewrite !has_bit_spec by done. unfold bitop_byte. rewrite u8_byte_of_Z, testbit_mod_256 by lia.
  destruct op; [apply Z.land_spec|apply Z.lor_spec|apply Z.lxor_spec|done].
Qed.

Lemma zip_bit op a b q :
  op ≠ BitNot → length a = length b → 0 ≤ q →
  bit (zip_with (bitop_byte op) a b) q = bool_op op (bit a q) (bit b q).
Proof.
  intros Ho Hl Hq. pose proof (Z.mod_pos_bound q 8 ltac:(lia)). rewrite !bit_lookup, lookup_zip_with.
  destruct (a !! Z.to_nat (q / 8)) as [x|] eqn:Ea, (b !! Z.to_nat (q / 8)) as [y|] eqn:Eb; cbn [mbind option_bind].
  - by apply bitop_byte_bit.
  - apply lookup_lt_Some in Ea. apply lookup_ge_None in Eb. lia.
  - apply lookup_ge_None in Ea. apply lookup_lt_Some in Eb. lia.
  - by destruct op.
Qed.

Lemma not_bit src q : 0 ≤ q < zlen src * 8 → bit ((λ b, byte_of_Z (Z.lxor 255 (u8 b))) <$> src) q = negb (bit src q).
Proof.
  intros Hq. pose proof (Z.mod_pos_bound q 8 ltac:(lia)). pose proof (Z.div_mod q 8 ltac:(lia)). rewrite !bit_lookup, list_lookup_fmap.
  destruct (src !! Z.to_nat (q / 8)) as [b|] eqn:E; [|apply lookup_ge_None in E; lia]. cbn [fmap option_fmap option_map].
  rewrite !has_bit_spec, u8_byte_of_Z, testbit_mod_256, Z.lxor_spec, testbit_255 by lia. by destruct (Z.testbit _ _).
Qed.

Definition longest (sources : list Bytes) : Z := foldr (λ s n, Z.max (zlen s) n) 0 sources.

Lemma longest_ge s sources : s ∈ sources → zlen s ≤ longest sources.
Proof. induction 1 as [s l|s s' l Hin IH]; unfold longest in *; cbn [foldr]; lia. Qed.

Lemma grow_exact s n : zlen s ≤ n → zlen (grow s n) = n.
Proof. intros. rewrite grow_length. lia. Qed.

Lemma bitop_fold op rest acc n q :
  op ≠ BitNot → 0 ≤ q → zlen acc = n → (∀ s, s ∈ rest → zlen s ≤ n) →
  let v := foldl (λ acc src, zip_with (bitop_byte op) acc (grow src n)) acc rest in
  zlen v = n ∧ bit v q = foldl (λ b s, bool_op op b (bit s q)) (bit acc q) rest.
Proof.
  intros Ho Hq. revert acc. induction rest as [|s rest IH]; intros acc Ha Hr; [done|]. cbn [foldl].
  assert (Hs : zlen (grow s n) = n) by (apply grow_exact, Hr; left).
  destruct (IH (zip_with (bitop_byte op) acc (grow s n))) as [Hl Hb].
  - rewrite length_zip_with. lia.
  - intros s' Hs'. apply Hr. by right.
  - split; [done|]. rewrite Hb, zip_bit, grow_bit by (done || lia). done.
Qed.

Lemma bitop_bits op s0 rest q :
  op ≠ BitNot → 0 ≤ q →
  bit (bitop_value op (s0 :: rest)) q = foldl (λ b s, bool_op op b (bit s q)) (bit s0 q) rest.
Proof.
  intros Ho Hq. pose proof (longest_ge s0 (s0 :: rest) ltac:(left)) as H0. unfold longest in H0.
  set (n := foldr _ _ _) in H0. destruct (bitop_fold op rest (grow s0 n) n q) as [_ Hb]; [done|done|by apply grow_exact| |].
  - intros s Hs. apply (longest_ge s (s0 :: rest)). by right.
  - rewrite grow_bit in Hb. destruct op; [exact Hb..|done].
Qed.

Definition ideal_bitop (op : BitOpKind) (sources : list Bytes) (q : Z) : bool :=
  match sources with
  | [] => false
  | s0 :: rest =>
    match op with
    | BitNot => (q <? zlen s0 * 8) && negb (bit s0 q)
    | _ => foldl (λ b s, bool_op op b (bit s q)) (bit s0 q) rest
    end
  end.

Lemma bitop_value_bits op sources : holds (bitop_value op sources) (ideal_bitop op sources).
Proof.
  intros q Hq. destruct sources as [|s0 rest]; [by destruct op|]. unfold ideal_bitop.
  destruct op; try (by rewrite bitop_bits). cbn [bitop_value]. destruct (Z.ltb_spec q (zlen s0 * 8)).
  - by rewrite not_bit.
  - apply bit_ge. rewrite length_fmap. lia.
Qed.

(** ** On the keyspace *)

Section props.
Context {GeoSet Srch : Type} `{!Platform GeoSet, !PlatformLaws GeoSet, !SearchManager Srch, !SearchLaws Srch}.
Abbreviation Slot := (KeySlot GeoSet).
Abbreviation C := (Cache GeoSet Srch).
Abbreviation M := (St C).
Implicit Types (c : C) (k : Bytes) (m : gmap Bytes Slot).

Ltac wp_step := first [apply wp_bind | apply wp_try | apply wp_ret | apply wp_asks | apply wp_modify].
Ltac wp_steps := repeat (wp_step; cbv beta).

Lemma set_one_spec offset v old :
  0 ≤ offset → v = 0 ∨ v = 1 →
  ∃ b, set_one offset v old = Ret (Some b, get_bit_at old offset) ∧ zlen b = Z.max (offset / 8 + 1) (zlen old) ∧
    ∀ q, 0 ≤ q → get_bit_at b q = if q =? offset then v else get_bit_at old q.
Proof.
  intros H0 Hv. unfold set_one. pose proof (grow_length old (offset / 8 + 1)) as G.
  pose proof (Z.div_mod offset 8 ltac:(lia)). pose proof (Z.mod_pos_bound offset 8 ltac:(lia)).
  destruct (write_bit_spec (grow old (offset / 8 + 1)) offset (v =? 1)) as (b & E & L & B); [lia|].
  rewrite E. exists b. cbn [mbind exec_bind]. rewrite !(get_bit_at_bit (grow _ _)), grow_bit, <- get_bit_at_bit.
  split; [done|]. split; [lia|]. intros q Hq. rewrite get_bit_at_bit, B by done. destruct (Z.eqb_spec q offset).
  - by destruct Hv as [-> | ->].
  - by rewrite grow_bit, <- get_bit_at_bit.
Qed.

Lemma wp_setbit t rounds k offset v c :
  inv c → (∀ i, round_ok (rounds i)) → 0 ≤ offset ≤ MAX_BIT_OFFSET → v = 0 ∨ v = 1 →
  wp (setbit t rounds k offset v) c (bit_written t c k (offset / 8 + 1) (set_one offset v)).
Proof.
  intros H Hr Ho Hv. unfold setbit. destruct (Z.ltb_spec 1 v); [lia|]. destruct (Z.ltb_spec MAX_BIT_OFFSET offset); [lia|].
  apply (wp_bit_program t rounds k true); [done|done|]. intros old.
  destruct (set_one_spec offset v old) as (b & -> & _); [lia|done|done].
Qed.

Lemma wp_read_string t k c :
  inv c → wp (read_string t k) c (λ c' r, step c c' (purge t k (slots c)) ∧
    match string_or_absent t k (slots c) with
    | Ok _ => ∃ o, r = Ok o ∧ default [] o = shown t k (slots c)
    | Err e => r = Err e
    end).
Proof.
  intros H. unfold read_string. apply wp_bind. eapply wp_mono; [by apply wp_key_type|]. intros c1 kt [H1 ->].
  unfold type_at, string_or_absent, shown. destruct (visible t k (slots c)) as [s|] eqn:Ev.
  - cbn [fmap option_fmap option_map default from_option]. destruct s as [exp v].
    destruct v; cbn [value_type slot_value is_string id]; try by wp_steps.
    apply wp_bind. eapply wp_mono; [apply wp_get_string_entry, H1|]. intros c2 r [-> ->]. wp_steps. split; [done|].
    rewrite (st_slots _ _ _ H1), visible_purge, Ev. cbn. by eexists.
  - cbn. wp_steps. split; [done|]. by exists None.
Qed.

Lemma wp_getbit t k q c :
  inv c → 0 ≤ q ≤ MAX_BIT_OFFSET → string_or_absent t k (slots c) = Ok tt →
  wp (getbit t k q) c (λ c' r, r = Ok (get_bit_at (shown t k (slots c)) q)).
Proof.
  intros H Hq Hs. unfold getbit. destruct (Z.ltb_spec MAX_BIT_OFFSET q); [lia|]. apply wp_try.
  eapply wp_mono; [by apply wp_read_string|]. intros c1 r [_ Hr]. rewrite Hs in Hr. destruct Hr as (o & -> & ->). by wp_steps.
Qed.

(** What a write leaves: the new value under the old expiry. *)
Lemma bit_spec_written {A} t limit (f : Bytes → exec (option Bytes * A)) k token m b (a : A) :
  due t k m = false → string_or_absent t k m = Ok tt → f (shown t k m) = Ret (Some b, a) →
  raw_entry (GeoSet := GeoSet) k (zlen b) ≤ limit →
  ∃ e, bit_spec t limit f k token m = (<[k := mkKeySlot (visible t k m ≫= expires_at) (VString e)]> m, Ret (Ok a)) ∧ e_value e = b.
Proof.
  intros Hd Hs Hf Hl. unfold bit_spec, do_string, bit_action. unfold shown, string_or_absent, due, visible in *.
  destruct (m !! k) as [[exp v]|]; cbn [mbind option_bind] in *; [rewrite Hd in *|].
  - destruct v as [e| | | | | |]; try done. unfold rmw_old.
    assert (L : slot_ttl_live t exp = true).
    { unfold is_expired, slot_ttl_live in *. cbn in Hd. destruct exp; [|done]. apply Z.ltb_lt. by apply Z.leb_gt. }
    rewrite L, Hf. destruct (Z.ltb_spec limit (raw_entry (GeoSet := GeoSet) k (zlen b))); [lia|]. by eexists.
  - unfold rmw_old. rewrite Hf. destruct (Z.ltb_spec limit (raw_entry (GeoSet := GeoSet) k (zlen b))); [lia|]. by eexists.
Qed.

Lemma bit_spec_kept {A} t limit (f : Bytes → exec (option Bytes * A)) k token m (a : A) :
  due t k m = false → string_or_absent t k m = Ok tt → f (shown t k m) = Ret (None, a) →
  bit_spec t limit f k token m = (m, Ret (Ok a)).
Proof.
  intros Hd Hs Hf. unfold bit_spec, do_string, bit_action. unfold shown, string_or_absent, due, visible in *.
  destruct (m !! k) as [[exp v]|]; cbn [mbind option_bind] in *; [rewrite Hd in *|].
  - destruct v as [e| | | | | |]; try done. unfold rmw_old.
    assert (L : slot_ttl_live t exp = true).
    { unfold is_expired, slot_ttl_live in *. cbn in Hd. destruct exp; [|done]. apply Z.ltb_lt. by apply Z.leb_gt. }
    by rewrite L, Hf.
  - unfold rmw_old. by rewrite Hf.
Qed.

(** Without a memory limit and for a value that is not too large, the write succeeds: the key shows
    the new value under the old expiry, and every other key is as before. *)
Lemma bit_written_result {A} t c k n (f : Bytes → exec (option Bytes * A)) c' r o a :
  bit_written t c k n f c' r → max_memory c = 0 → string_or_absent t k (slots c) = Ok tt →
  raw_entry (GeoSet := GeoSet) k (Z.max n (zlen (shown t k (slots c)))) ≤ max_entry_size c →
  f (shown t k (slots c)) = Ret (o, a) → (∀ b, o = Some b → raw_entry (GeoSet := GeoSet) k (zlen b) ≤ max_entry_size c) →
  r = Ok a ∧ shown t k (slots c') = default (shown t k (slots c)) o ∧ string_or_absent t k (slots c') = Ok tt ∧
  (visible t k (slots c') ≫= expires_at) = (visible t k (slots c) ≫= expires_at) ∧
  (∀ k', k' ≠ k → visible t k' (slots c') = visible t k' (slots c)).
Proof.
  intros Hw Hm Hs Hl Hf Hb.
  destruct Hw as [(e & -> & _ & [(-> & Hbad)|(-> & Hbad)])|(m1 & _ & Hun & Hw)]; [congruence|lia|].
  rewrite (Hun Hm) in Hw. destruct Hw as [(_ & ? & _)|(token & Er & Sl & _)]; [done|].
  assert (Hs0 : string_or_absent t k (purge t k (slots c)) = Ok tt) by (unfold string_or_absent in *; by rewrite visible_purge).
  destruct o as [b|].
  - destruct (bit_spec_written t (max_entry_size c) f k token (purge t k (slots c)) b a) as (e & Es & Ee);
      [apply due_purge|done|by rewrite shown_purge|by apply Hb|].
    rewrite Es in Er, Sl. cbn [fst snd] in Er, Sl. injection Er as ->. rewrite visible_purge in Sl.
    set (exp := visible t k (slots c) ≫= expires_at) in *.
    assert (Hlive : is_expired t (mkKeySlot (GeoSet := GeoSet) exp (VString e)) = false).
    { unfold exp, visible. destruct (slots c !! k) as [s|]; [|done]. cbn [mbind option_bind].
      destruct (is_expired t s) eqn:Ex; done. }
    assert (Hvis : visible t k (slots c') = Some (mkKeySlot exp (VString e))).
    { unfold visible. rewrite Sl, lookup_insert_eq. cbn [mbind option_bind]. by rewrite Hlive. }
    split; [done|]. split; [unfold shown at 1; by rewrite Hvis|]. split; [unfold string_or_absent; by rewrite Hvis|].
    split; [by rewrite Hvis|]. intros k' Hk'. rewrite Sl. unfold visible at 1. rewrite lookup_insert_ne by done. by apply visible_ne.
  - rewrite bit_spec_kept with (a := a) in Er, Sl by (apply due_purge || done || by rewrite shown_purge).
    cbn [fst snd] in Er, Sl. injection Er as ->. unfold shown, string_or_absent in *. rewrite Sl, visible_purge. split; [done|].
    split; [done|]. split; [done|]. split; [done|]. intros k' Hk'. by apply visible_ne.
Qed.

Lemma wp_read_sources t keys c :
  inv c → wp (read_sources t keys) c (λ c' r, ∃ m, step c c' m).
Proof.
  revert c. induction keys as [|k keys IH]; intros c H; cbn [read_sources]; [wp_steps; eexists; by apply step_refl|].
  apply wp_try. eapply wp_mono; [by apply wp_read_string|]. intros c1 r [H1 _]. destruct r as [v|e]; [|by eexists].
  apply wp_try. eapply wp_mono; [apply IH, H1|]. intros c2 r [m H2]. pose proof (step_trans _ _ _ _ _ H1 H2).
  destruct r; [wp_steps|]; by eexists.
Qed.

Lemma visible_purge_any t k k' m : visible t k (purge t k' m) = visible t k m.
Proof. destruct (decide (k = k')) as [->|]; [apply visible_purge|by apply visible_ne]. Qed.

Lemma wp_read_sources_shown t keys c :
  inv c → (∀ k, k ∈ keys → string_or_absent t k (slots c) = Ok tt) →
  wp (read_sources t keys) c (λ c' r, (∃ m, step c c' m ∧ ∀ k, visible t k m = visible t k (slots c)) ∧
    r = Ok ((λ k, shown t k (slots c)) <$> keys)).
Proof.
  revert c. induction keys as [|k keys IH]; intros c H Hs; cbn [read_sources].
  { wp_steps. split; [|done]. exists (slots c). split; [by apply step_refl|done]. }
  apply wp_try. eapply wp_mono; [by apply wp_read_string|]. intros c1 r [H1 Hr]. rewrite Hs in Hr by left.
  destruct Hr as (o & -> & Eo). pose proof (st_slots _ _ _ H1) as S1. apply wp_try. eapply wp_mono; [apply IH; [apply H1|]|].
  - intros k' Hk'. unfold string_or_absent. rewrite S1, visible_purge_any. apply Hs. by right.
  - intros c2 r [(m & H2 & Hm) ->]. wp_steps. split.
    + exists m. split; [by eapply step_trans|]. intros k'. by rewrite Hm, S1, visible_purge_any.
    + rewrite Eo. cbn [fmap list_fmap]. do 2 f_equal. apply list_fmap_ext. intros _ k' _. unfold shown.
      by rewrite S1, visible_purge_any.
Qed.

Lemma bitop_action_ok t dest v : action_ok dest (bitop_action (GeoSet := GeoSet) t dest v) rmw_sizes.
Proof. by intros cur exp token. Qed.

(** Removing a string and giving its memory back. *)
Lemma wp_remove_string k c exp e :
  inv c → slots c !! k = Some (mkKeySlot exp (VString e)) →
  wp (_ ?← mutate_string k remove_action;
      _ ← account_replace (entry_size (GeoSet := GeoSet) e) 0;
      mret (Ok 0)) c (λ c' (r : result KError Z), step c c' (base.delete k (slots c)) ∧ r = Ok 0).
Proof.
  intros H Hk. apply wp_try, wp_mutate_string; [done|]. intros kv token Hkv. rewrite Hk. cbn [remove_action fst snd string_map_action apply_action].
  intros E. pose proof (step_freed c kv k _ H Hk Hkv E) as Hst. apply wp_bind. unfold wp.
  assert (Hsz : 0 ≤ entry_size (GeoSet := GeoSet) e) by apply (slot_bytes_pos k (mkKeySlot exp (VString e))).
  rewrite account_replace_eq; [|apply (inv_usage_u64 c H)|done|done]. apply wp_ret.
  unfold freed, slot_bytes in Hst. cbn [slot_value is_string memory_category] in Hst.
  cbn [memory_tracker memory_usage set_key_values]. rewrite Z.add_0_r, (wrap_u64_id (wrap_u64 _)) by apply wrap_u64_range.
  by split.
Qed.

Lemma wp_bitop t rounds op dest ks c :
  inv c → (∀ i, round_ok (rounds i)) → wp (bitop t rounds op dest ks) c (λ c' _, fits c' → inv c').
Proof.
  intros H Hr. unfold bitop. case_decide; [by wp_steps|]. destruct (_ && _); [by wp_steps|]. apply wp_try.
  eapply wp_mono; [by apply wp_read_sources|]. intros c1 r [m1 H1]. destruct r as [sources|e]; [|by destruct H1].
  apply wp_try. eapply wp_mono; [apply wp_ensure_string, H1|]. intros c2 r [H2 Er]. destruct r as [[]|e]; [|by destruct H2].
  apply wp_bind, wp_asks. destruct (_ <? _); [wp_steps; by destruct H2|].
  apply wp_bind. eapply wp_mono; [apply wp_get_string_entry, H2|]. intros c2' old [-> ->]. pose proof (st_inv _ _ _ H2) as Hi. case_decide.
  - destruct (_ <? _) eqn:Es; [|by wp_steps]. destruct (visible t dest (slots c2)) as [[exp v]|] eqn:Ev; [|done].
    destruct (purge_live _ _ _ _ Ev) as [_ Ek]. destruct v as [e| | | | | |]; try done.
    cbn [mbind option_bind slot_value fmap option_fmap option_map default from_option id].
    eapply wp_mono; [by eapply wp_remove_string|]. by intros c3 r [[] _].
  - apply wp_try. eapply wp_mono; [by apply wp_ensure_capacity|]. intros c3 r (m3 & Hc & _). destruct r as [[]|e]; [|by destruct Hc].
    eapply wp_mono; [apply wp_rmw; [apply Hc|apply bitop_action_ok]|]. intros c4 r (token & _ & _ & Hl) Hf. by destruct (Hl Hf).
Qed.

Lemma bitop_spec_set t dest v token m :
  due t dest m = false → string_or_absent t dest m = Ok tt →
  ∃ e, rmw_spec (bitop_action (GeoSet := GeoSet) t dest v) EntryTooLarge dest token m =
    (<[dest := mkKeySlot None (VString e)]> m, Ok (zlen v)) ∧ e_value e = v.
Proof.
  intros Hd Hs. unfold rmw_spec, do_string. unfold string_or_absent, visible, due in *.
  destruct (m !! dest) as [[exp x]|]; [|by eexists]. cbn [mbind option_bind] in Hs. rewrite Hd in Hs.
  destruct x; try done. by eexists.
Qed.

(** BITOP without a memory limit. *)
Definition bitop_done (t : Clock) c dest (v : Bytes) c' (r : result KError Z) : Prop :=
  r = Ok (zlen v) ∧ (fits c' → inv c') ∧ (∀ k, k ≠ dest → visible t k (slots c') = visible t k (slots c)) ∧
  (v ≠ [] → ∃ e, visible t dest (slots c') = Some (mkKeySlot None (VString e)) ∧ e_value e = v).

Lemma wp_bitop_done t rounds op dest ks c :
  let v := bitop_value op ((λ k, shown t k (slots c)) <$> ks) in
  inv c → (∀ i, round_ok (rounds i)) → max_memory c = 0 → ks ≠ [] → (op = BitNot → length ks = 1%nat) →
  (∀ k, k ∈ dest :: ks → string_or_absent t k (slots c) = Ok tt) →
  raw_entry (GeoSet := GeoSet) dest (zlen v) ≤ max_entry_size c →
  wp (bitop t rounds op dest ks) c (bitop_done t c dest v).
Proof.
  intros v H Hr Hm Hne Hop Hs Hl. unfold bitop. rewrite decide_False by done.
  assert (En : bool_decide (op = BitNot) && negb (length ks =? 1)%nat = false).
  { apply andb_false_iff. destruct (decide (op = BitNot)) as [Eo|]; [right; by rewrite (Hop Eo)|left; by apply bool_decide_false]. }
  rewrite En. clear En. apply wp_try. eapply wp_mono; [apply wp_read_sources_shown; [done|intros k Hk; apply Hs; by right]|].
  intros c1 r [(m1 & H1 & V1) ->]. fold v. clearbody v. apply wp_try. eapply wp_mono; [apply wp_ensure_string, H1|].
  intros c2 r [H2 ->]. rewrite (st_slots _ _ _ H1) in *. destruct (cfg_limits _ _ _ H1) as [Em1 Ee1], (cfg_limits _ _ _ H2) as [Em2 Ee2].
  assert (V2 : ∀ k, visible t k (slots c2) = visible t k (slots c)) by (intros k; by rewrite (st_slots _ _ _ H2), visible_purge_any, V1).
  assert (D2 : due t dest (slots c2) = false) by (rewrite (st_slots _ _ _ H2); apply due_purge).
  assert (Hd : string_or_absent t dest (slots c2) = Ok tt) by (unfold string_or_absent; rewrite V2; apply Hs; left).
  unfold string_or_absent in Hd |- *. rewrite V1, <- (V2 dest), Hd. pose proof (st_inv _ _ _ H2) as I2.
  apply wp_bind, wp_asks. rewrite Ee2, Ee1. destruct (Z.ltb_spec (max_entry_size c) (raw_entry (GeoSet := GeoSet) dest (zlen v))); [lia|].
  apply wp_bind. eapply wp_mono; [by apply wp_get_string_entry|]. intros c2' old [-> ->]. case_decide as Ev.
  - assert (Hkeep : bitop_done t c dest v c2 (Ok 0)) by (rewrite Ev; split; [done|]; split; [done|]; split; [by intros k _|done]).
    destruct (_ <? _) eqn:Es; [|by wp_steps]. destruct (visible t dest (slots c2)) as [[exp x]|] eqn:Ed; [|done].
    destruct (purge_live _ _ _ _ Ed) as [_ Ek]. destruct x as [e| | | | | |]; try done.
    cbn [mbind option_bind slot_value fmap option_fmap option_map default from_option id].
    eapply wp_mono; [by eapply wp_remove_string|]. intros c3 r [H3 ->]. rewrite Ev. split; [done|]. split; [intros _; apply H3|].
    split; [|done]. intros k Hk. rewrite (st_slots _ _ _ H3), <- V2. unfold visible. by rewrite lookup_delete_ne.
  - apply wp_try. eapply wp_mono; [by apply wp_ensure_capacity|]. intros c3 r (m3 & H3 & _ & Hun & _).
    destruct Hun as [-> ->]; [congruence|]. pose proof (st_slots _ _ _ H3) as S3.
    eapply wp_mono; [apply wp_rmw; [apply H3|apply bitop_action_ok]|]. intros c4 r (token & -> & Sl & Hst). rewrite S3 in *.
    destruct (bitop_spec_set t dest v token (slots c2) D2 Hd) as (e & Es & Hv). rewrite Es in *. cbn [fst snd] in *.
    split; [done|]. split; [intros Hf; by destruct (Hst Hf)|]. split.
    + intros k Hk. rewrite <- V2, Sl. unfold visible. by rewrite lookup_insert_ne.
    + intros _. exists e. rewrite Sl. unfold visible. by rewrite lookup_insert_eq.
Qed.

Lemma bf_body_ok mode ops n b old : Forall op_valid ops → bf_body mode ops n b old ≠ Panic.
Proof.
  intros Hv. unfold bf_body. destruct (bf_ops_spec mode ops (if b then grow old n else old) (bit (if b then grow old n else old)) Hv)
    as (b' & w & -> & _); [by intros q _|]. done.
Qed.

Lemma bf_body_spec mode ops n w old :
  Forall op_valid ops → n = (ops_end ops + 7) / 8 →
  ∃ o, bf_body mode ops n w old = Ret (o, (ideal_ops mode (bit old) ops).2) ∧
    holds (default old o) (ideal_ops mode (bit old) ops).1 ∧ zlen (default old o) ≤ Z.max n (zlen old).
Proof.
  intros Hv Hn. unfold bf_body. set (g := if w then grow old n else old).
  assert (Hg : ∀ q, bit g q = bit old q) by (unfold g; destruct w; [apply grow_bit|done]).
  assert (Lg : zlen g ≤ Z.max n (zlen old)) by (unfold g; destruct w; [rewrite grow_length; lia|lia]).
  destruct (bf_ops_spec mode ops g (bit old) Hv) as (b & wr & -> & H & W & L); [intros q _; apply Hg|].
  cbn [mbind exec_bind]. eexists. split; [done|]. destruct wr; cbn [default from_option id]; [split; [done|lia]|].
  rewrite (W eq_refl) in H. split; [|lia]. intros q Hq. rewrite <- Hg. by apply H.
Qed.

Lemma wp_bitfield t rounds k ops mode c :
  inv c → (∀ i, round_ok (rounds i)) → Forall op_valid ops →
  wp (bitfield t rounds k ops mode) c (λ c' r, ops = [] ∧ c' = c ∧ r = Ok [] ∨
    (∃ m, step c c' m ∧ ∃ e, bf_extent ops 0 false = Err e) ∨
    ∃ n b, bf_extent ops 0 false = Ok (n, b) ∧
      bit_written t c k (wrap_u64 (n + 7) / 8) (bf_body mode ops (wrap_u64 (n + 7) / 8) b) c' r).
Proof.
  intros H Hr Hv. unfold bitfield. case_decide; [wp_steps; by left|].
  destruct (bf_extent ops 0 false) as [[n b]|e].
  - eapply wp_mono; [apply (wp_bit_program t rounds k b (wrap_u64 (n + 7) / 8) (bf_body mode ops (wrap_u64 (n + 7) / 8) b)); try done|].
    + intros old. by apply bf_body_ok.
    + intros c' r Hw. right. right. by exists n, b.
  - apply wp_try. eapply wp_mono; [by apply wp_ensure_string|]. intros c1 r [H1 _].
    destruct r as [[]|e']; [wp_steps|]; right; left; eexists; (split; [exact H1|by exists e]).
Qed.

(** How a sequence of calls runs. *)
Lemma run_bind {A B} (p : M A) (f : A → M B) c c1 a r : p c = Ret (c1, a) → f a c1 = r → (p ≫= f) c = r.
Proof. intros E <-. unfold mbind, st_bind. by rewrite E. Qed.

Lemma run_try {A B} (p : M (result KError A)) (f : A → M (result KError B)) c c1 a r :
  p c = Ret (c1, Ok a) → f a c1 = r → try_bind p f c = r.
Proof. intros E <-. unfold try_bind, mbind, st_bind. by rewrite E. Qed.

(** ** Properties *)

(** SETBIT and GETBIT.  On a string or missing key, without a memory limit and for an entry that is
    not too large, SETBIT returns the old bit, keeps the expiry and every other key, and afterwards
    GETBIT reads the new bit at its offset and the old bits everywhere else, also beyond the end. *)
Theorem setbit_getbit t rounds k offset v c :
  inv c → (∀ i, round_ok (rounds i)) → max_memory c = 0 → 0 ≤ offset ≤ MAX_BIT_OFFSET → v = 0 ∨ v = 1 →
  string_or_absent t k (slots c) = Ok tt →
  raw_entry (GeoSet := GeoSet) k (Z.max (offset / 8 + 1) (zlen (shown t k (slots c)))) ≤ max_entry_size c →
  ∃ c', setbit t rounds k offset v c = Ret (c', Ok (get_bit_at (shown t k (slots c)) offset)) ∧
    (visible t k (slots c') ≫= expires_at) = (visible t k (slots c) ≫= expires_at) ∧
    (∀ k', k' ≠ k → visible t k' (slots c') = visible t k' (slots c)) ∧
    (fits c' → inv c' ∧ ∀ q, 0 ≤ q ≤ MAX_BIT_OFFSET →
       ∃ c'', getbit t k q c' = Ret (c'', Ok (if q =? offset then v else get_bit_at (shown t k (slots c)) q))).
Proof.
  intros H Hr Hm Ho Hv Hs Hl. destruct (set_one_spec offset v (shown t k (slots c)) ltac:(lia) Hv) as (b & Ef & Lb & Bb).
  destruct (wp_elim _ _ _ (wp_setbit t rounds k offset v c H Hr Ho Hv)) as (c' & r & E & Hw). exists c'.
  pose proof (bit_written_inv _ _ _ _ _ _ _ Hw) as Hi.
  edestruct (bit_written_result _ _ _ _ _ _ _ _ _ Hw Hm Hs Hl Ef) as (-> & Hsh & Hs' & He & Ho'); [by intros ? [= <-]; rewrite Lb|].
  split; [done|]. split; [done|]. split; [done|]. intros Hf. split; [auto|]. intros q Hq.
  destruct (wp_elim _ _ _ (wp_getbit t k q c' (Hi Hf) Hq Hs')) as (c'' & r & E2 & ->).
  exists c''. rewrite E2, Hsh. cbn [default from_option id]. rewrite Bb by lia. done.
Qed.


(** BITOP combines the sources bit by bit, the shorter ones padded with zeros; NOT inverts its only
    source within its length.  Without a memory limit and for a result that is not too large, the
    reply is the length of the result, and the destination holds exactly its bits, without expiry;
    every other key stays. *)
Theorem bitop_stores t rounds op dest ks c :
  let sources := (λ k, shown t k (slots c)) <$> ks in
  inv c → (∀ i, round_ok (rounds i)) → max_memory c = 0 → ks ≠ [] → (op = BitNot → length ks = 1%nat) →
  (∀ k, k ∈ dest :: ks → string_or_absent t k (slots c) = Ok tt) →
  raw_entry (GeoSet := GeoSet) dest (zlen (bitop_value op sources)) ≤ max_entry_size c →
  ∃ c' n, bitop t rounds op dest ks c = Ret (c', Ok n) ∧ (fits c' → inv c') ∧
    (n ≠ 0 → ∃ e, visible t dest (slots c') = Some (mkKeySlot None (VString e)) ∧ zlen (e_value e) = n ∧
       holds (e_value e) (ideal_bitop op sources)) ∧
    (∀ k, k ≠ dest → visible t k (slots c') = visible t k (slots c)).
Proof.
  intros sources H Hr Hm Hne Hop Hs Hl.
  destruct (wp_elim _ _ _ (wp_bitop_done t rounds op dest ks c H Hr Hm Hne Hop Hs Hl)) as (c' & r & E & -> & Hi & Ho & Hd).
  eexists c', _. split; [exact E|]. split; [done|]. split; [|done]. fold sources in Hd |- *. intros Hz.
  destruct Hd as (e & Ev & Ee); [by intros Ez; rewrite Ez in Hz|]. exists e. split; [done|]. rewrite Ee. split; [done|].
  apply bitop_value_bits.
Qed.

(** BITCOUNT and BITPOS read the window of bits that the range selects, in bytes or in bits: BITCOUNT
    counts its ones, and BITPOS finds the first position of the bit, or the end of the string when
    zero is looked for without an explicit end, or -1. *)
Theorem bitmap_queries t k start end_ bit_unit v c :
  inv c → string_or_absent t k (slots c) = Ok tt → v = 0 ∨ v = 1 → shown t k (slots c) ≠ [] →
  let bytes := shown t k (slots c) in
  let bits s n := window bytes (units bit_unit) s n in
  (∃ c', bitcount t k start end_ bit_unit c = Ret (c', Ok
     match range_of start end_ (len_in bytes bit_unit) false with
     | Some (s, n) => count_true (bits s n)
     | None => 0
     end)) ∧
  (∃ c', bitpos t k v start end_ bit_unit c = Ret (c', Ok
     match range_of start end_ (len_in bytes bit_unit) true with
     | Some (s, n) =>
       match first_index (v =? 1) (bits s n) with
       | Some i => units bit_unit * s + i
       | None => if (v =? 0) && negb (bool_decide (is_Some end_)) then zlen bytes * 8 else -1
       end
     | None => -1
     end)).
Proof.
  intros H Hs Hv Hne bytes bits.
  destruct (wp_elim _ _ _ (wp_read_string t k c H)) as (c' & r & E & _ & Hr). rewrite Hs in Hr. destruct Hr as (o & -> & Eo).
  split; exists c'; unfold bits; [rewrite <- bitcount_window|rewrite <- bitpos_window by done]; unfold bytes; rewrite <- Eo.
  - unfold bitcount. by eapply run_try.
  - unfold bitpos. destruct (Z.ltb_spec 1 v); [lia|]. by eapply run_try.
Qed.

Lemma set_bits_loop_panics n bytes pos value :
  (∀ b, write_bit bytes pos b = Panic) → set_bits_loop (S n) bytes pos value = Panic.
Proof. intros H. cbn [set_bits_loop]. by rewrite H. Qed.

Lemma body_panics mode v : in_i64 v → bf_body mode [BfSet true 64 u64_max v] 0 true [] = Panic.
Proof.
  intros Hv. unfold bf_body. cbn [bf_ops bf_op]. unfold apply_overflow.
  rewrite apply_overflow_spec by (split; [lia|done]). unfold fit, low, high. change (2 ^ (64 - 1)) with (i64_max + 1).
  assert (Em : i64_min = - (i64_max + 1)) by done.
  destruct (Z.leb_spec (- (i64_max + 1)) v); [|lia]. destruct (Z.leb_spec v (i64_max + 1 - 1)); [|lia]. cbn [andb].
  rewrite bool_decide_true by done. unfold bf_store. cbn [fst snd from_option id]. unfold set_bits, ensure_len.
  change (Z.to_nat 64) with 64%nat. rewrite set_bits_loop_panics; [done|]. intros b. unfold write_bit.
  rewrite lookup_ge_None_2; [done|]. change (wrap_u64 (wrap_u64 (u64_max + 64) + 7) / 8) with 8.
  apply Nat2Z.inj_le. rewrite Z2Nat.id by (vm_compute; discriminate). vm_compute. discriminate.
Qed.

(** BITFIELD with a field at the last position of the 64-bit range (what [#i64::MAX] saturates to)
    on a missing key: the length computation wraps, the value is too short, and the server panics
    while it holds the shard. *)
Theorem bitfield_offset_panics t rounds k v mode c :
  inv c → (∀ i, round_ok (rounds i)) → max_memory c = 0 → slots c !! k = None →
  raw_entry (GeoSet := GeoSet) k 0 ≤ max_entry_size c → in_i64 v →
  bitfield t rounds k [BfSet true 64 u64_max v] mode c = Panic.
Proof.
  intros H Hr Hm Hk Hl Hv. unfold bitfield. rewrite decide_False by done.
  destruct (wp_elim _ _ _ (wp_ensure_string t k c H)) as (c1 & r & E1 & H1 & ->).
  assert (Vk : visible t k (slots c) = None) by (unfold visible; by rewrite Hk).
  assert (Pk : purge t k (slots c) = slots c) by (unfold purge, due; by rewrite Hk). rewrite Pk in H1.
  unfold string_or_absent in E1. rewrite Vk in E1. destruct (cfg_limits _ _ _ H1) as [Em Ee].
  eapply run_try; [exact E1|]. eapply run_try; [reflexivity|]. eapply run_bind; [reflexivity|].
  cbn [fst snd]. change (wrap_u64 (_ + 7) / 8) with 0.
  destruct (wp_elim _ _ _ (wp_bit_capacity t rounds k 0 (max_entry_size c1) c1 (st_inv _ _ _ H1) Hr)) as (c2 & r & E2 & Hc).
  assert (S1 : shown t k (slots c1) = []) by (unfold shown; by rewrite (st_slots _ _ _ H1), Vk). rewrite S1 in Hc.
  destruct Hc as [(_ & _ & Hbad)|(m2 & H2 & _ & Hun & _)]; [rewrite Ee in Hbad; change (Z.max 0 (zlen [])) with 0 in Hbad; lia|].
  destruct (Hun ltac:(congruence)) as [-> ->]. eapply run_try; [exact E2|].
  rewrite (st_slots _ _ _ H1) in H2.
  destruct (wp_elim _ _ _ (wp_do_string k (bit_action t k (max_entry_size c1) (bf_body mode [BfSet true 64 u64_max v] 0 true))
    bit_sizes c2 (st_inv _ _ _ H2) (bit_action_ok t k _ _))) as (c3 & r & E3 & token & -> & _).
  unfold do_string in E3. rewrite (st_slots _ _ _ H2), Hk in E3. unfold bit_action at 2 in E3. cbn [rmw_old] in E3.
  rewrite body_panics in E3 by done. by eapply run_try.
Qed.
End props.


(** ** Witnesses *)

(** A two-byte string with a lifetime, and a one-byte string. *)
Definition two_strings : Cache unit unit :=
  ran [(clock_at 0, no_rounds, CSet (bs "a") (bs "ab") (for_ms 10)); (clock_at 0, no_rounds, CSet (bs "b") (bs "c") plain)].

Lemma two_strings_inv : @inv unit unit byte_platform two_strings.
Proof.
  apply (ran_inv _ 0); [|vm_compute; reflexivity]. cbn. pose proof no_rounds_ok. repeat (split; [lia|split; [done|]]). done.
Qed.

