(* ===== verification/CacheProps.v ===== *)
(** * Properties of the keyspace

    Accounting over programs of keyspace calls, eviction, listing, and the places where a past-due
    slot shows through. *)

From S2P Require Import Prelude RustStd Errors Glob ListType SetType HashType SortedSet StreamType Memory KeyMap Keyspace CacheOps CacheFacts EvictionFacts CacheSpecs CacheScan KeyspaceSim Bitmap BitmapFacts BitmapProps.
From Stdlib Require Import Lia.
Local Open Scope Z_scope.

Section props.
Context {GeoSet Srch : Type} `{!Platform GeoSet, !PlatformLaws GeoSet, !SearchManager Srch, !SearchLaws Srch}.
Abbreviation Slot := (KeySlot GeoSet).
Abbreviation C := (Cache GeoSet Srch).
Abbreviation M := (St C).
Implicit Types (c : C) (k : Bytes) (m : gmap Bytes Slot) (s : Slot) (e : Entry).

Ltac wp_step := first [apply wp_bind | apply wp_try | apply wp_ret | apply wp_asks | apply wp_modify].
Ltac wp_steps := repeat (wp_step; cbv beta).

(** ** Programs *)

Inductive cop : Type :=
| OStore (t : Clock) (rounds : nat → Round) (k v : Bytes) (opts : StoreOptions)
| OLoad (t : Clock) (k : Bytes) (do_touch : bool)
| ODelete (k : Bytes)
| ODeleteMany (ks : list Bytes)
| OExists (t : Clock) (k : Bytes)
| OKeyType (t : Clock) (k : Bytes)
| OExpire (t : Clock) (k : Bytes) (ttl : Z)
| OExpireAt (t : Clock) (k : Bytes) (at_ms : Z)
| OSetTypedExpire (t : Clock) (k : Bytes) (at_ms : Z)
| OPersist (k : Bytes)
| OTtl (t : Clock) (k : Bytes)
| ORename (t : Clock) (src dst : Bytes) (nx : bool)
| OIncr (t : Clock) (k : Bytes) (delta : Z)
| ODecr (t : Clock) (k : Bytes) (delta : Z)
| OAppend (t : Clock) (rounds : nat → Round) (k suffix : Bytes)
| OSetrange (t : Clock) (rounds : nat → Round) (k : Bytes) (offset : nat) (v : Bytes)
| OSetbit (t : Clock) (rounds : nat → Round) (k : Bytes) (offset bit : Z)
| OBitop (t : Clock) (rounds : nat → Round) (op : BitOpKind) (dest : Bytes) (ks : list Bytes)
| OBitfield (t : Clock) (rounds : nat → Round) (k : Bytes) (ops : list BitfieldOp) (mode : BitfieldOverflow)
| OKeys (t : Clock) (pattern : option Str)
| OSweep (t : Clock)
| OFlush
| OEvict (t : Clock) (rounds : nat → Round) (needed : Z)
| OSetPolicy (p : EvictionPolicy)
| OSetMaxMemory (t : Clock) (rounds : nat → Round) (size : Z)
| OSetMaxEntrySize (size : Z)
| OWatch (k : Bytes)
| OTouchWatch (k : Bytes).

Definition void {A} (m : M A) : M unit := _ ← m; mret tt.

Definition cexec (o : cop) : M unit :=
  match o with
  | OStore t rounds k v opts => void (store t rounds k v opts)
  | OLoad t k b => void (load t k b)
  | ODelete k => void (CacheOps.delete k)
  | ODeleteMany ks => void (delete_many ks)
  | OExists t k => void (exists_ t k)
  | OKeyType t k => void (key_type t k)
  | OExpire t k n => void (expire t k n)
  | OExpireAt t k n => void (expire_at_unix_ms t k n)
  | OSetTypedExpire t k n => void (set_typed_expire_unix_ms t k n)
  | OPersist k => void (persist k)
  | OTtl t k => void (ttl t k)
  | ORename t src dst b => void (rename t src dst b)
  | OIncr t k d => void (incr t k d)
  | ODecr t k d => void (decr t k d)
  | OAppend t rounds k x => void (append t rounds k x)
  | OSetrange t rounds k n v => void (setrange t rounds k n v)
  | OSetbit t rounds k n b => void (setbit t rounds k n b)
  | OBitop t rounds op dest ks => void (bitop t rounds op dest ks)
  | OBitfield t rounds k ops mode => void (bitfield t rounds k ops mode)
  | OKeys t p => void (keys t p)
  | OSweep t => void (sweep t)
  | OFlush => flush
  | OEvict t rounds n => void (evict_memory t rounds n)
  | OSetPolicy p => set_eviction_policy p
  | OSetMaxMemory t rounds n => void (set_max_memory t rounds n)
  | OSetMaxEntrySize n => void (set_max_entry_size n)
  | OWatch k => void (watch_generation k)
  | OTouchWatch k => touch_watch_key k
  end.

Fixpoint crun (ops : list cop) : M unit :=
  match ops with [] => mret tt | o :: ops => _ ← cexec o; crun ops end.

(** The shuffles of the eviction rounds are permutations; positions are not negative, and the end of a
    written range or field fits 64 bits. *)
Definition op_ok (o : cop) : Prop :=
  match o with
  | OStore _ r _ _ _ | OAppend _ r _ _ | OEvict _ r _ | OSetMaxMemory _ r _ | OBitop _ r _ _ _ => ∀ i, round_ok (r i)
  | OSetrange _ r _ n v => (∀ i, round_ok (r i)) ∧ Z.of_nat n + zlen v ≤ u64_max
  | OSetbit _ r _ n b => (∀ i, round_ok (r i)) ∧ 0 ≤ n ∧ 0 ≤ b
  | OBitfield _ r _ ops _ => (∀ i, round_ok (r i)) ∧ Forall op_valid ops
  | _ => True
  end.

(** At every step of the program the sizes add up to less than 2^64. *)
Fixpoint run_fits (ops : list cop) c : bool :=
  match ops with
  | [] => true
  | o :: ops =>
    match cexec o c with
    | Ret (c', _) => (other c' + bytes (slots c') <=? u64_max) && run_fits ops c'
    | Panic => true
    end
  end.

(** ** One step *)

Lemma wp_void {A} (m : M A) c (Q : C → Prop) : wp m c (λ c' _, Q c') → wp (void m) c (λ c' _, Q c').
Proof. intros H. apply wp_bind. eapply wp_mono; [exact H|]. auto. Qed.

Lemma lands_inv c c' m : lands c c' m → fits c' → inv c'.
Proof. intros [_ H] Hf. by destruct (H Hf). Qed.

Lemma written_inv {A} c m0 (spec : Z → gmap Bytes Slot → gmap Bytes Slot * result KError A) c' r :
  written c m0 spec c' r → fits c' → inv c'.
Proof. intros (m1 & _ & _ & [(_ & _ & [])|(token & _ & Hl)]) Hf; [done|by eapply lands_inv]. Qed.

Lemma checked_inv t c m0 g new_len k c' r : checked_written t c m0 g new_len k c' r → fits c' → inv c'.
Proof.
  unfold checked_written. destruct (precheck _ _ _ _ _) as [[]|]; [apply written_inv|]. by intros [_ []].
Qed.

Lemma inv_eviction c on p n : inv c → inv (set_eviction c on p n).
Proof. intros []. by split. Qed.

Lemma wp_set_max_memory t rounds size c :
  inv c → (∀ i, round_ok (rounds i)) → wp (set_max_memory t rounds size) c (λ c' _, inv c').
Proof.
  intros H Hr. unfold wp, set_max_memory. destruct (_ && _); [done|]. cbv zeta.
  set (c1 := set_limits _ _ _). assert (H1 : inv c1).
  { destruct H as [H1 H2 H3 H4 H5 H6 H7]. split; try done. by destruct H3. }
  clearbody c1. destruct (0 <? size); [|done]. destruct (_ && _); [|done].
  change (wp (_ ← evict_memory t rounds (sat_sub_u64 (total_memory (memory_tracker c1)) size); mret (Ok ())) c1 (λ c' (_ : result KError unit), inv c')).
  apply wp_bind. eapply wp_mono; [by apply wp_evict_memory|]. intros c2 r (m & [] & _). by wp_steps.
Qed.

Lemma wp_incr_inv (st : Stat) t k delta c :
  inv c → wp (_ ← stats_incr st; incr_decr t k delta) c (λ c' _, fits c' → inv c').
Proof.
  intros H. apply wp_bind. eapply wp_mono; [by apply wp_stats|]. intros c1 [] H1.
  eapply wp_mono; [apply wp_incr_decr, H1|]. intros c2 r (token & _ & Hl). by eapply lands_inv.
Qed.

Lemma wp_setbit_inv t rounds k n b c :
  inv c → (∀ i, round_ok (rounds i)) → 0 ≤ n → 0 ≤ b → wp (setbit t rounds k n b) c (λ c' _, fits c' → inv c').
Proof.
  intros H Hr Hn Hb. destruct (decide (b ≤ 1)); [destruct (decide (n ≤ MAX_BIT_OFFSET))|].
  - eapply wp_mono; [apply wp_setbit; [done|done|lia|lia]|]. intros c' r Hw. by eapply bit_written_inv.
  - unfold setbit. destruct (Z.ltb_spec 1 b); [lia|]. destruct (Z.ltb_spec MAX_BIT_OFFSET n); [by wp_steps|lia].
  - unfold setbit. destruct (Z.ltb_spec 1 b); [by wp_steps|lia].
Qed.

Lemma wp_bitfield_inv t rounds k ops mode c :
  inv c → (∀ i, round_ok (rounds i)) → Forall op_valid ops → wp (bitfield t rounds k ops mode) c (λ c' _, fits c' → inv c').
Proof.
  intros H Hr Hv. eapply wp_mono; [by apply wp_bitfield|].
  intros c' r [(_ & -> & _)|[(m & [] & _)|(n & b & _ & Hw)]]; [done..|]. by eapply bit_written_inv.
Qed.

Lemma cexec_inv o c : inv c → op_ok o → wp (cexec o) c (λ c' _, fits c' → inv c').
Proof.
  intros H Ho. destruct o; cbn [cexec op_ok] in *; try apply (wp_void _ _ (λ c', fits c' → inv c')).
  - eapply wp_mono; [by apply wp_store|]. intros c' r Hw. by eapply written_inv.
  - eapply wp_mono; [by apply wp_load|]. by intros c' r [[] _].
  - eapply wp_mono; [by apply wp_delete|]. by intros c' r [[] _].
  - eapply wp_mono; [by apply wp_delete_many|]. by intros c' r [[] _].
  - eapply wp_mono; [by apply wp_exists|]. by intros c' r [[] _].
  - eapply wp_mono; [by apply wp_key_type|]. by intros c' r [[] _].
  - eapply wp_mono; [by apply wp_expire|]. by intros c' r [[] _].
  - eapply wp_mono; [by apply wp_expire_at|]. by intros c' r [[] _].
  - eapply wp_mono; [by apply wp_set_typed_expire|]. by intros c' r (m & []).
  - eapply wp_mono; [by apply wp_persist|]. by intros c' r [[] _].
  - eapply wp_mono; [by apply wp_ttl|]. by intros c' r [[] _].
  - eapply wp_mono; [by apply wp_rename|]. intros c' r [Hl _]. by eapply lands_inv.
  - by apply wp_incr_inv.
  - by apply wp_incr_inv.
  - eapply wp_mono; [by apply wp_append|]. intros c' r Hw. by eapply checked_inv.
  - destruct Ho as [Hr Hw]. eapply wp_mono; [by apply wp_setrange|]. intros c' r Hc. by eapply checked_inv.
  - destruct Ho as (Hr & Hn & Hb). by apply wp_setbit_inv.
  - by apply wp_bitop.
  - destruct Ho as [Hr Hv]. by apply wp_bitfield_inv.
  - eapply wp_mono; [by apply wp_keys|]. by intros c' r (_ & l & []).
  - eapply wp_mono; [by apply wp_sweep|]. by intros c' r [[] _].
  - eapply wp_mono; [by apply wp_flush|]. by intros c' r [? _].
  - eapply wp_mono; [by apply wp_evict_memory|]. by intros c' r (m & [] & _).
  - intros _. by apply inv_eviction.
  - eapply wp_mono; [by apply wp_set_max_memory|]. done.
  - unfold wp, set_max_entry_size. repeat case_match; simplify_eq; try done. intros _. by destruct H.
  - unfold wp, watch_generation. destruct (watch_gens c !! k); [done|]. intros _. by apply inv_watch.
  - intros _. by apply inv_watch.
Qed.

Lemma crun_inv ops c : inv c → Forall op_ok ops → run_fits ops c = true → ∃ c', crun ops c = Ret (c', tt) ∧ inv c'.
Proof.
  revert c. induction ops as [|o ops IH]; intros c H Ho Hf; [by exists c|]. inversion Ho as [|? ? Ho1 Ho2]; subst.
  destruct (wp_elim _ _ _ (cexec_inv o c H Ho1)) as (c1 & [] & E & H1). cbn [run_fits crun] in *.
  unfold mbind, st_bind. rewrite E in *. apply andb_true_iff in Hf as [Hf1%Z.leb_le Hf2]. apply IH; auto.
Qed.

(** ** Properties *)



(** A past-due container that nobody has touched yet still shows.  Although EXISTS answers no, SET
    is refused with a type error, DEL reports a deletion, and PERSIST succeeds and makes the key
    visible again, for ever. *)
Theorem stale_slot_shows t rounds k v opts c s :
  inv c → (∀ i, round_ok (rounds i)) → max_memory c = 0 → too_large (GeoSet := GeoSet) (max_entry_size c) k v = false →
  slots c !! k = Some s → is_expired t s = true → is_string (slot_value s) = false →
  (∃ c', exists_ t k c = Ret (c', false)) ∧
  (∃ c', store t rounds k v opts c = Ret (c', Err WrongType)) ∧
  (∃ c', CacheOps.delete k c = Ret (c', true)) ∧
  (∃ c', persist k c = Ret (c', true) ∧ ∀ t', visible t' k (slots c') = Some (mkKeySlot None (slot_value s))).
Proof.
  intros H Hr Hm Hl Hk Hx Hty. split; [|split; [|split]].
  - destruct (wp_elim _ _ _ (wp_exists t k c H)) as (c' & r & E & _ & ->). exists c'. rewrite E. do 2 f_equal.
    apply bool_decide_false. unfold visible. rewrite Hk. simpl. rewrite Hx. by intros [].
  - destruct (wp_elim _ _ _ (wp_store t rounds k v opts c H Hr)) as (c' & r & E & (token & -> & _)%written_unlimited); [|done].
    exists c'. rewrite E. unfold store_spec. unfold too_large in Hl. rewrite Hl. unfold do_string. rewrite Hk.
    destruct s as [exp x]. by destruct x.
  - destruct (wp_elim _ _ _ (wp_delete k c H)) as (c' & r & E & _ & ->). exists c'. rewrite E. do 2 f_equal.
    apply bool_decide_true. by exists s.
  - destruct (wp_elim _ _ _ (wp_persist k c H)) as (c' & r & E & Hst & ->). exists c'.
    assert (Hp : persist_spec k (slots c) = (<[k := mkKeySlot None (slot_value s)]> (slots c), true)).
    { unfold persist_spec. rewrite Hk, decide_True; [done|]. unfold is_expired in Hx. by destruct (expires_at s). }
    rewrite Hp in *. split; [done|]. intros t'. unfold visible. rewrite (st_slots _ _ _ Hst). cbn [fst].
    by rewrite lookup_insert_eq.
Qed.
End props.

(** ** Witnesses *)

(** Strings come, grow, are renamed and swept, under a memory limit that forces an eviction. *)
Definition busy : list cop :=
  [OSetPolicy AllKeysLru; OSetMaxMemory (clock_at 0) no_rounds 700;
   OStore (clock_at 1) no_rounds (bs "a") (bs "1") (for_ms 10); OStore (clock_at 2) no_rounds (bs "b") (bs "2") plain;
   OAppend (clock_at 3) no_rounds (bs "b") (bs "3"); OIncr (clock_at 4) (bs "b") 1; ORename (clock_at 5) (bs "b") (bs "key") false;
   OStore (clock_at 6) (λ _, mkRound (replicate 5 [(0, 0); (1, 0); (2, 0); (3, 0)]%nat) 0 id id 0) (bs "c") (replicate 300 x00) plain;
   OSetbit (clock_at 7) no_rounds (bs "bits") 30 1; OBitop (clock_at 8) no_rounds BitNot (bs "c") [bs "bits"];
   OBitfield (clock_at 9) no_rounds (bs "bits") [BfIncrBy true 16 40 (-3)] Wrap; OSweep (clock_at 20); OWatch (bs "c"); ODelete (bs "c")].



(** A hash whose time was over at the tenth millisecond, looked at in the twentieth. *)
Definition old_hash : KeySlot unit := mkKeySlot (Some 10000000) (VHash (hset hash_new (bs "f") (bs "v")).1).

Definition stale_cache : Cache unit unit :=
  let c := new_with_sweep_loadfactor 1 0 4096 in
  match @kv_insert unit unit byte_platform (bs "h") old_hash c with
  | Ret (c, _) => set_memory c (account (memory_tracker c) (@slot_bytes unit byte_platform (bs "h") old_hash) CatHashes) 0
  | Panic => c
  end.

Lemma stale_cache_inv : @inv unit unit byte_platform stale_cache.
Proof.
  pose (c0 := new_with_sweep_loadfactor 1 0 4096 : Cache unit unit).
  destruct (inv_new (Platform0 := byte_platform) (Srch := unit) 1 0 4096) as [H0 E0].
  destruct (km_insert_spec (@hash_one unit byte_platform) (key_values c0) (bs "h") old_hash (inv_map _ H0))
    as (kv & E & Hkv & Ec & _).
  unfold stale_cache, kv_insert, on_map. fold c0. rewrite E. cbn [mbind exec_bind].
  eapply st_inv, (inv_put (Platform0 := byte_platform) (PlatformLaws0 := byte_platform_laws) c0 _ (bs "h") old_hash); done.
Qed.
