(* ===== verification/PubSub.v ===== *)
(** * Pub/Sub ([pubsub.rs], [commands/pubsub.rs])

    The subscription tables, the fan-out of a message, the accounting of what waits in the buffers of
    the clients, and the commands.  The buffers themselves are [tokio] channels: publishing yields the
    list of messages it sends, and whether a send succeeds is an argument.  The iteration order of hash
    maps and sets is the class [FanOut].

    Every operation is one step.  In the source an operation takes the locks of the tables one after
    the other; the two places where another connection can come in between with a visible effect, the
    admission of a message before its fan-out and the accounting after it, are definitions of their
    own ([reserve], [publish_sends], [account_deliveries], [settle]), so that such orders can be stated. *)

From S2P Require Import Prelude RustStd Errors Resp Reply Text Memory ChannelGlob.
Local Open Scope Z_scope.

Abbreviation ClientId := Z.
Abbreviation Table := (gmap Bytes (gset Z)).
Abbreviation Reverse := (gmap Z (gset Bytes)).

Definition DEFAULT_CLIENT_BUFFER_CAPACITY : Z := 1024.

Record PublishOutcome : Type := mkOutcome {
  recipients : Z;
  bytes_enqueued : Z;
  bytes_overwritten : Z;
  outcome_dropped : Z
}.

Record PubSub : Type := mkPubSub {
  channels : Table;
  patterns : Table;
  clients : gset Z;
  client_channels : Reverse;
  client_patterns : Reverse;
  shard_channels : Table;
  client_shard_channels : Reverse;
  pending_by_client : gmap Z (list Z);
  next_client_id : Z;
  buffer_capacity : Z;
  messages_dropped : Z;
  client_protocol : gmap Z Z
}.

Class FanOut : Type := {
  ids_of : gset Z → list Z;
  names_of : gset Bytes → list Bytes;
  table_iter : Table → list (Bytes * gset Z)
}.

Class FanOutLaws `{!FanOut} : Prop := {
  ids_of_perm (s : gset Z) : ids_of s ≡ₚ elements s;
  names_of_perm (s : gset Bytes) : names_of s ≡ₚ elements s;
  table_iter_perm (m : Table) : table_iter m ≡ₚ map_to_list m
}.

(** The order of the keys, for closed examples. *)
#[global] Instance key_fanout : FanOut := {| ids_of s := elements s; names_of s := elements s; table_iter m := map_to_list m |}.
#[global] Instance key_fanout_laws : FanOutLaws.
Proof. by split. Qed.

Definition with_client_buffer_capacity (capacity : Z) : PubSub :=
  mkPubSub ∅ ∅ ∅ ∅ ∅ ∅ ∅ ∅ 0 (Z.max capacity 1) 0 ∅.
Definition pubsub_new : PubSub := with_client_buffer_capacity DEFAULT_CLIENT_BUFFER_CAPACITY.

(** ** Field updates *)

Definition set_channels (p : PubSub) (t : Table) (r : Reverse) : PubSub :=
  mkPubSub t (patterns p) (clients p) r (client_patterns p) (shard_channels p) (client_shard_channels p) (pending_by_client p)
    (next_client_id p) (buffer_capacity p) (messages_dropped p) (client_protocol p).
Definition set_patterns (p : PubSub) (t : Table) (r : Reverse) : PubSub :=
  mkPubSub (channels p) t (clients p) (client_channels p) r (shard_channels p) (client_shard_channels p) (pending_by_client p)
    (next_client_id p) (buffer_capacity p) (messages_dropped p) (client_protocol p).
Definition set_shards (p : PubSub) (t : Table) (r : Reverse) : PubSub :=
  mkPubSub (channels p) (patterns p) (clients p) (client_channels p) (client_patterns p) t r (pending_by_client p)
    (next_client_id p) (buffer_capacity p) (messages_dropped p) (client_protocol p).
Definition set_pending (p : PubSub) (q : gmap Z (list Z)) (dropped : Z) : PubSub :=
  mkPubSub (channels p) (patterns p) (clients p) (client_channels p) (client_patterns p) (shard_channels p) (client_shard_channels p)
    q (next_client_id p) (buffer_capacity p) dropped (client_protocol p).
Definition set_clients (p : PubSub) (cs : gset Z) (next : Z) (proto : gmap Z Z) : PubSub :=
  mkPubSub (channels p) (patterns p) cs (client_channels p) (client_patterns p) (shard_channels p) (client_shard_channels p)
    (pending_by_client p) next (buffer_capacity p) (messages_dropped p) proto.

(** ** The tables *)

(** [entry(name).or_insert_with(HashSet::new).insert(client)], in both directions. *)
Definition table_add (client : ClientId) (name : Bytes) (t : Table) : Table := <[name := {[client]} ∪ default ∅ (t !! name)]> t.
Definition reverse_add (client : ClientId) (name : Bytes) (r : Reverse) : Reverse := <[client := {[name]} ∪ default ∅ (r !! client)]> r.

(** A channel without subscribers goes away. *)
Definition table_remove (client : ClientId) (name : Bytes) (t : Table) : Table :=
  match t !! name with
  | Some subscribers =>
    let subscribers := subscribers ∖ {[client]} in
    if decide (subscribers = ∅) then delete name t else <[name := subscribers]> t
  | None => t
  end.

(** A client without channels keeps an empty set. *)
Definition reverse_remove (client : ClientId) (name : Bytes) (r : Reverse) : Reverse :=
  match r !! client with Some names => <[client := names ∖ {[name]}]> r | None => r end.

Definition remove_all_from (client : ClientId) (names : list Bytes) (t : Table) : Table := foldl (λ t name, table_remove client name t) t names.

Definition count_of (client : ClientId) (r : Reverse) : Z := match r !! client with Some names => Z.of_nat (size names) | None => 0 end.

Definition subscribe (client : ClientId) (channel : Bytes) (p : PubSub) : PubSub * Z :=
  let p := set_channels p (table_add client channel (channels p)) (reverse_add client channel (client_channels p)) in
  (p, count_of client (client_channels p) + count_of client (client_patterns p)).

Definition unsubscribe (client : ClientId) (channel : Bytes) (p : PubSub) : PubSub * Z :=
  let p := set_channels p (table_remove client channel (channels p)) (reverse_remove client channel (client_channels p)) in
  (p, count_of client (client_channels p) + count_of client (client_patterns p)).

Definition psubscribe (client : ClientId) (pattern : Bytes) (p : PubSub) : PubSub * Z :=
  let p := set_patterns p (table_add client pattern (patterns p)) (reverse_add client pattern (client_patterns p)) in
  (p, count_of client (client_channels p) + count_of client (client_patterns p)).

Definition punsubscribe (client : ClientId) (pattern : Bytes) (p : PubSub) : PubSub * Z :=
  let p := set_patterns p (table_remove client pattern (patterns p)) (reverse_remove client pattern (client_patterns p)) in
  (p, count_of client (client_channels p) + count_of client (client_patterns p)).

Definition ssubscribe (client : ClientId) (channel : Bytes) (p : PubSub) : PubSub * Z :=
  let p := set_shards p (table_add client channel (shard_channels p)) (reverse_add client channel (client_shard_channels p)) in
  (p, count_of client (client_shard_channels p)).

Definition sunsubscribe (client : ClientId) (channel : Bytes) (p : PubSub) : PubSub * Z :=
  let p := set_shards p (table_remove client channel (shard_channels p)) (reverse_remove client channel (client_shard_channels p)) in
  (p, count_of client (client_shard_channels p)).

Section fan_out.
Context `{!FanOut}.

Definition unsubscribe_all (client : ClientId) (p : PubSub) : PubSub * list Bytes :=
  let names := names_of (default ∅ (client_channels p !! client)) in
  (set_channels p (remove_all_from client names (channels p)) (delete client (client_channels p)), names).

Definition punsubscribe_all (client : ClientId) (p : PubSub) : PubSub * list Bytes :=
  let names := names_of (default ∅ (client_patterns p !! client)) in
  (set_patterns p (remove_all_from client names (patterns p)) (delete client (client_patterns p)), names).

Definition sunsubscribe_all (client : ClientId) (p : PubSub) : PubSub * list Bytes :=
  let names := names_of (default ∅ (client_shard_channels p !! client)) in
  (set_shards p (remove_all_from client names (shard_channels p)) (delete client (client_shard_channels p)), names).

(** ** Clients *)

Definition sum_sizes (q : list Z) : Z := foldr (λ x y, wrap_u64 (x + y)) 0 q.

Definition register_client (p : PubSub) : PubSub * ClientId :=
  let client := next_client_id p in
  (set_clients p ({[client]} ∪ clients p) (wrap_u64 (client + 1)) (<[client := 2]> (client_protocol p)), client).

Definition unregister_client (client : ClientId) (p : PubSub) : PubSub * Z :=
  let '(p, _) := unsubscribe_all client p in
  let '(p, _) := punsubscribe_all client p in
  let '(p, _) := sunsubscribe_all client p in
  let p := set_clients p (clients p ∖ {[client]}) (next_client_id p) (delete client (client_protocol p)) in
  let pending := match pending_by_client p !! client with Some q => sum_sizes q | None => 0 end in
  (set_pending p (delete client (pending_by_client p)) (messages_dropped p), pending).

Definition set_client_protocol (client : ClientId) (version : Z) (p : PubSub) : PubSub :=
  set_clients p (clients p) (next_client_id p) (<[client := if 3 <=? version then 3 else 2]> (client_protocol p)).

Definition client_buffer_capacity (p : PubSub) : Z := Z.max (buffer_capacity p) 1.

Definition set_client_buffer_capacity (capacity : Z) (p : PubSub) : PubSub :=
  mkPubSub (channels p) (patterns p) (clients p) (client_channels p) (client_patterns p) (shard_channels p) (client_shard_channels p)
    (pending_by_client p) (next_client_id p) (Z.max capacity 1) (messages_dropped p) (client_protocol p).

(** The queue of a client after its first messages left it; an empty queue goes away. *)
Definition shorten (client : ClientId) (q : list Z) (m : gmap Z (list Z)) : gmap Z (list Z) :=
  if decide (q = []) then delete client m else <[client := q]> m.

Definition note_delivered (client : ClientId) (p : PubSub) : PubSub * Z :=
  match pending_by_client p !! client with
  | Some q => (set_pending p (shorten client (tail q) (pending_by_client p)) (messages_dropped p), default 0 (head q))
  | None => (p, 0)
  end.

Definition note_lagged (client : ClientId) (n : Z) (p : PubSub) : PubSub * Z :=
  if n =? 0 then (p, 0) else
  match pending_by_client p !! client with
  | Some q =>
    let drop_n := Z.to_nat (Z.min n (zlen q)) in
    (set_pending p (shorten client (drop drop_n q) (pending_by_client p)) (messages_dropped p),
     foldl (λ freed size, sat_add_u64 freed size) 0 (take drop_n q))
  | None => (p, 0)
  end.

(** ** Publishing *)

Definition pubsub_frame (proto : Z) (elements : list RespValue) : RespValue :=
  if 3 <=? proto then Push elements else Array elements.

(** One message to every subscriber that is registered. *)
Definition sends_to (p : PubSub) (elements : list RespValue) (subscribers : gset Z) : list (ClientId * RespValue) :=
  omap (λ client,
    if decide (client ∈ clients p)
    then Some (client, pubsub_frame (default 2 (client_protocol p !! client)) elements)
    else None) (ids_of subscribers).

Definition spublish_sends (channel message : Bytes) (p : PubSub) : list (ClientId * RespValue) :=
  match shard_channels p !! channel with
  | Some subscribers => sends_to p [bulk (bs "smessage"); bulk channel; bulk message] subscribers
  | None => []
  end.

Definition publish_sends (channel message : Bytes) (p : PubSub) : list (ClientId * RespValue) :=
  match channels p !! channel with
  | Some subscribers => sends_to p [bulk (bs "message"); bulk channel; bulk message] subscribers
  | None => []
  end ++
  (table_iter (patterns p) ≫= (λ '(pattern, subscribers),
    if matches pattern channel
    then sends_to p [bulk (bs "pmessage"); bulk pattern; bulk channel; bulk message] subscribers
    else [])).

(** The oldest messages of a full queue are overwritten. *)
Fixpoint make_room (capacity : Z) (q : list Z) (overwritten dropped : Z) : list Z * Z * Z :=
  match q with
  | old :: q' =>
    if capacity <=? zlen q then make_room capacity q' (sat_add_u64 overwritten old) (sat_add_u64 dropped 1)
    else (q, overwritten, dropped)
  | [] => ([], overwritten, dropped)
  end.

Fixpoint enqueue_all (capacity message_size : Z) (delivered : list ClientId) (pending : gmap Z (list Z)) (enqueued overwritten dropped : Z)
    : gmap Z (list Z) * Z * Z * Z :=
  match delivered with
  | client :: delivered =>
    let '(q, overwritten, dropped) := make_room capacity (default [] (pending !! client)) overwritten dropped in
    enqueue_all capacity message_size delivered (<[client := q ++ [message_size]]> pending)
      (sat_add_u64 enqueued message_size) overwritten dropped
  | [] => (pending, enqueued, overwritten, dropped)
  end.

Definition account_deliveries (delivered : list ClientId) (message_size dropped : Z) (p : PubSub) : PubSub * PublishOutcome :=
  let '(pending, enqueued, overwritten, dropped) :=
    enqueue_all (client_buffer_capacity p) message_size delivered (pending_by_client p) 0 0 dropped in
  (set_pending p pending (if 0 <? dropped then wrap_u64 (messages_dropped p + dropped) else messages_dropped p),
   mkOutcome (zlen delivered) enqueued overwritten dropped).

(** The clients whose buffer took the message, and how many did not. *)
Definition delivered_of (accepts : ClientId → RespValue → bool) (sends : list (ClientId * RespValue)) : list ClientId :=
  (filter (λ x, accepts x.1 x.2 = true) sends).*1.
Definition failed_of (accepts : ClientId → RespValue → bool) (sends : list (ClientId * RespValue)) : Z :=
  zlen (filter (λ x, accepts x.1 x.2 = false) sends).

Definition publish_with_outcome (accepts : ClientId → RespValue → bool) (channel message : Bytes) (p : PubSub) : PubSub * PublishOutcome :=
  let sends := publish_sends channel message p in
  account_deliveries (delivered_of accepts sends) (zlen message) (failed_of accepts sends) p.

Definition spublish_with_outcome (accepts : ClientId → RespValue → bool) (channel message : Bytes) (p : PubSub) : PubSub * PublishOutcome :=
  let sends := spublish_sends channel message p in
  account_deliveries (delivered_of accepts sends) (zlen message) (failed_of accepts sends) p.

(** ** Queries *)

Definition subscribers_of (name : Bytes) (t : Table) : Z := match t !! name with Some s => Z.of_nat (size s) | None => 0 end.

Definition num_channels (p : PubSub) : Z := Z.of_nat (size (channels p)).
Definition num_patterns (p : PubSub) : Z := Z.of_nat (size (patterns p)).
Definition num_shard_channels (p : PubSub) : Z := Z.of_nat (size (shard_channels p)).
Definition num_subscribers (channel : Bytes) (p : PubSub) : Z := subscribers_of channel (channels p).
Definition num_shard_subscribers (channel : Bytes) (p : PubSub) : Z := subscribers_of channel (shard_channels p).

Definition list_names (pattern : option Bytes) (t : Table) : list Bytes :=
  match pattern with
  | Some pat => filter (λ ch, matches pat ch = true) (table_iter t).*1
  | None => (table_iter t).*1
  end.
Definition list_channels (pattern : option Bytes) (p : PubSub) : list Bytes := list_names pattern (channels p).
Definition list_shard_channels (pattern : option Bytes) (p : PubSub) : list Bytes := list_names pattern (shard_channels p).

Definition client_subscription_count (client : ClientId) (p : PubSub) : Z * Z :=
  (count_of client (client_channels p), count_of client (client_patterns p)).

Definition client_pending_memory (client : ClientId) (p : PubSub) : Z :=
  match pending_by_client p !! client with Some q => sum_sizes q | None => 0 end.

Definition pending_memory (p : PubSub) : Z := map_fold (λ _ q total, wrap_u64 (sum_sizes q + total)) 0 (pending_by_client p).

Definition estimate_delivery_count (channel : Bytes) (p : PubSub) : Z :=
  foldl (λ count '(pattern, subscribers),
    if matches pattern channel then sat_add_u64 count (Z.of_nat (size subscribers)) else count)
    (match channels p !! channel with Some s => sat_add_u64 0 (Z.of_nat (size s)) | None => 0 end)
    (table_iter (patterns p)).

Definition sat_mul_u64 (a b : Z) : Z := Z.min (a * b) u64_max.

Definition fanout_memory_cost (channel : Bytes) (message_size : Z) (p : PubSub) : Z :=
  sat_mul_u64 message_size (Z.max (estimate_delivery_count channel p) 1).

End fan_out.
