(* ===== verification/PubSubCommands.v ===== *)
(** * Pub/Sub commands and sessions ([commands/pubsub.rs], [commands/mod.rs], [network.rs])

    The tables of [PubSub.v] are shared by the databases of a server; each database has a memory
    tracker of its own.  A connection registers itself, sends commands through its session, takes
    messages from its buffer while it is in subscribed mode, and unregisters itself at the end.  The
    commands here are those of an authenticated connection outside MULTI. *)

From S2P Require Import Prelude RustStd Errors Resp Reply Text Memory ChannelGlob PubSub.
Local Open Scope Z_scope.

Inductive PubStat : Type :=
| pubsub_messages_sent | stat_publish | stat_subscribe | stat_unsubscribe | stat_psubscribe | stat_punsubscribe | stat_pubsub.

#[global] Instance PubStat_eq_dec : EqDecision PubStat.
Proof. solve_decision. Defined.

(** The tracker of database [db] is [trackers db]. *)
Record Server : Type := mkServer {
  pubsub : PubSub;
  trackers : Z → MemoryTracker;
  pub_stats : PubStat → Z
}.

Definition set_pubsub (s : Server) (p : PubSub) : Server := mkServer p (trackers s) (pub_stats s).
Definition set_tracker (s : Server) (db : Z) (t : MemoryTracker) : Server :=
  mkServer (pubsub s) (λ db', if decide (db' = db) then t else trackers s db') (pub_stats s).
Definition count_stat (st : PubStat) (n : Z) (s : Server) : Server :=
  mkServer (pubsub s) (trackers s) (λ st', if decide (st' = st) then wrap_u64 (pub_stats s st + n) else pub_stats s st').

Definition bulk_arg (args : list RespValue) (i : nat) : option Bytes := args !! i ≫= as_bulk_string.

(** ** Memory *)

Definition release_pubsub_memory (db size : Z) (s : Server) : Server :=
  if 0 <? size then set_tracker s db (deallocate (trackers s db) size CatPubSub) else s.

Definition note_pubsub_delivered (db : Z) (client : ClientId) (s : Server) : Server :=
  let '(p, size) := note_delivered client (pubsub s) in
  release_pubsub_memory db size (set_pubsub s p).

(** A message of [fanout_cost] bytes is reserved. *)
Definition reserve (db fanout_cost : Z) (s : Server) : option Server :=
  let '(t, granted) := allocate (trackers s db) fanout_cost CatPubSub in
  if granted then Some (set_tracker s db t) else None.

(** What the admission took too much, and what was overwritten, is given back. *)
Definition settle (db fanout_cost : Z) (outcome : PublishOutcome) (s : Server) : Server :=
  let s := if bytes_enqueued outcome <? fanout_cost
           then set_tracker s db (deallocate (trackers s db) (fanout_cost - bytes_enqueued outcome) CatPubSub) else s in
  if 0 <? bytes_overwritten outcome
  then set_tracker s db (deallocate (trackers s db) (bytes_overwritten outcome) CatPubSub) else s.

Section commands.
Context `{!FanOut}.

Definition unregister_pubsub_client (db : Z) (client : ClientId) (s : Server) : Server :=
  let '(p, pending) := unregister_client client (pubsub s) in
  release_pubsub_memory db pending (set_pubsub s p).

(** ** Publishing *)

Definition cmd_publish (db : Z) (accepts : ClientId → RespValue → bool) (args : list RespValue) (s : Server) : Server * result KError RespValue :=
  let s := count_stat stat_publish 1 s in
  if negb (length args =? 2)%nat then (s, Ok (wrong_args (str "publish"))) else
  match bulk_arg args 0 with
  | None => (s, Ok (error (str "ERR invalid channel")))
  | Some channel =>
    match bulk_arg args 1 with
    | None => (s, Ok (error (str "ERR invalid message")))
    | Some message =>
      let max_message := max_message_size (trackers s db) in
      if max_message <? zlen message then (s, Err (MessageTooLarge (zlen message) max_message)) else
      let fanout_cost := fanout_memory_cost channel (zlen message) (pubsub s) in
      match reserve db fanout_cost s with
      | None => (s, Err OutOfMemory)
      | Some s =>
        let '(p, outcome) := publish_with_outcome accepts channel message (pubsub s) in
        let s := count_stat pubsub_messages_sent (recipients outcome) (set_pubsub s p) in
        (settle db fanout_cost outcome s, Ok (Integer (wrap_i64 (recipients outcome))))
      end
    end
  end.

Definition cmd_spublish (db : Z) (accepts : ClientId → RespValue → bool) (args : list RespValue) (s : Server) : Server * result KError RespValue :=
  if negb (length args =? 2)%nat then (s, Ok (wrong_args (str "spublish"))) else
  match bulk_arg args 0 with
  | None => (s, Ok (error (str "ERR invalid channel")))
  | Some channel =>
    match bulk_arg args 1 with
    | None => (s, Ok (error (str "ERR invalid message")))
    | Some message =>
      let max_message := max_message_size (trackers s db) in
      if max_message <? zlen message then (s, Err (MessageTooLarge (zlen message) max_message)) else
      let fanout_cost := sat_mul_u64 (zlen message) (Z.max (num_shard_subscribers channel (pubsub s)) 1) in
      match reserve db fanout_cost s with
      | None => (s, Err OutOfMemory)
      | Some s =>
        let '(p, outcome) := spublish_with_outcome accepts channel message (pubsub s) in
        (settle db fanout_cost outcome (set_pubsub s p), Ok (Integer (wrap_i64 (recipients outcome))))
      end
    end
  end.

(** ** Subscribing *)

Definition confirmation (verb : Str) (name : option Bytes) (count : Z) : RespValue :=
  Array [bulk (as_bytes verb); BulkString name; Integer (wrap_i64 count)].

(** One confirmation per argument; an argument that is no bulk string is answered with an error. *)
Fixpoint confirm_each {S : Type} (verb invalid : Str) (op : Bytes → S → S * Z) (args : list RespValue) (s : S) : S * list RespValue :=
  match args with
  | arg :: args =>
    match as_bulk_string arg with
    | Some name =>
      let '(s, count) := op name s in
      let '(s, responses) := confirm_each verb invalid op args s in
      (s, confirmation verb (Some name) count :: responses)
    | None =>
      let '(s, responses) := confirm_each verb invalid op args s in
      (s, error invalid :: responses)
    end
  | [] => (s, [])
  end.

Definition on_pubsub {A : Type} (f : PubSub → PubSub * A) (s : Server) : Server * A :=
  let '(p, a) := f (pubsub s) in (set_pubsub s p, a).

Definition invalid_channel : Str := str "ERR invalid channel".
Definition invalid_pattern : Str := str "ERR invalid pattern".

Definition cmd_subscribe (client : ClientId) (args : list RespValue) (s : Server) : Server * list RespValue :=
  let s := count_stat stat_subscribe 1 s in
  if decide (args = []) then (s, [wrong_args (str "subscribe")]) else
  on_pubsub (confirm_each (str "subscribe") invalid_channel (subscribe client) args) s.

Definition cmd_unsubscribe (client : ClientId) (args : list RespValue) (s : Server) : Server * list RespValue :=
  let s := count_stat stat_unsubscribe 1 s in
  if decide (args = []) then
    let '(s, names) := on_pubsub (unsubscribe_all client) s in
    let '(channel_count, pattern_count) := client_subscription_count client (pubsub s) in
    (s, if decide (names = []) then [confirmation (str "unsubscribe") None pattern_count]
        else (λ name, confirmation (str "unsubscribe") (Some name) (channel_count + pattern_count)) <$> names)
  else on_pubsub (confirm_each (str "unsubscribe") invalid_channel (unsubscribe client) args) s.

Definition cmd_psubscribe (client : ClientId) (args : list RespValue) (s : Server) : Server * list RespValue :=
  let s := count_stat stat_psubscribe 1 s in
  if decide (args = []) then (s, [wrong_args (str "psubscribe")]) else
  on_pubsub (confirm_each (str "psubscribe") invalid_pattern (psubscribe client) args) s.

Definition cmd_punsubscribe (client : ClientId) (args : list RespValue) (s : Server) : Server * list RespValue :=
  let s := count_stat stat_punsubscribe 1 s in
  if decide (args = []) then
    let '(s, names) := on_pubsub (punsubscribe_all client) s in
    let '(channel_count, pattern_count) := client_subscription_count client (pubsub s) in
    (s, if decide (names = []) then [confirmation (str "punsubscribe") None channel_count]
        else (λ name, confirmation (str "punsubscribe") (Some name) (channel_count + pattern_count)) <$> names)
  else on_pubsub (confirm_each (str "punsubscribe") invalid_pattern (punsubscribe client) args) s.

Definition cmd_ssubscribe (client : ClientId) (args : list RespValue) (s : Server) : Server * list RespValue :=
  if decide (args = []) then (s, [wrong_args (str "ssubscribe")]) else
  on_pubsub (confirm_each (str "ssubscribe") invalid_channel (ssubscribe client) args) s.

(** Without arguments the count is that of the channel, not of the client. *)
Definition cmd_sunsubscribe (client : ClientId) (args : list RespValue) (s : Server) : Server * list RespValue :=
  if decide (args = []) then
    let '(s, names) := on_pubsub (sunsubscribe_all client) s in
    (s, if decide (names = []) then [confirmation (str "sunsubscribe") None 0]
        else (λ name, confirmation (str "sunsubscribe") (Some name) (num_shard_subscribers name (pubsub s))) <$> names)
  else on_pubsub (confirm_each (str "sunsubscribe") invalid_channel (sunsubscribe client) args) s.

(** ** PUBSUB *)

(** The counts of the named channels. *)
Definition count_each (count : Bytes → Z) (args : list RespValue) : list RespValue :=
  omap as_bulk_string args ≫= (λ channel, [bulk channel; Integer (wrap_i64 (count channel))]).

Definition list_reply (names : option Bytes → list Bytes) (args : list RespValue) : RespValue :=
  match args with
  | _ :: arg :: _ =>
    match as_bulk_string arg with Some pat => Array (bulk <$> names (Some pat)) | None => error invalid_pattern end
  | _ => Array (bulk <$> names None)
  end.

Definition pubsub_help : list RespValue :=
  (λ line, bulk (bs line)) <$>
  ["PUBSUB <subcommand> [<arg> ...]. Subcommands are:"; "CHANNELS [pattern] -- list active channels";
   "NUMSUB [channel ...] -- subscriber counts per channel"; "NUMPAT -- number of pattern subscriptions";
   "SHARDCHANNELS [pattern] -- list active shard channels"; "SHARDNUMSUB [shardchannel ...] -- shard subscriber counts";
   "HELP -- print this help"]%string.

Definition cmd_pubsub `{!Uppercase} (args : list RespValue) (s : Server) : Server * RespValue :=
  let s := count_stat stat_pubsub 1 s in
  let p := pubsub s in
  if decide (args = []) then (s, wrong_args (str "pubsub")) else
  match bulk_arg args 0 with
  | None => (s, error (str "ERR invalid subcommand"))
  | Some sub =>
    let sub := to_uppercase (from_utf8_lossy sub) in
    (s, if decide (sub = str "CHANNELS") then list_reply (λ pat, list_channels pat p) args
        else if decide (sub = str "NUMSUB") then Array (count_each (λ ch, num_subscribers ch p) (tail args))
        else if decide (sub = str "NUMPAT") then Integer (wrap_i64 (num_patterns p))
        else if decide (sub = str "SHARDCHANNELS") then list_reply (λ pat, list_shard_channels pat p) args
        else if decide (sub = str "SHARDNUMSUB") then Array (count_each (λ ch, num_shard_subscribers ch p) (tail args))
        else if decide (sub = str "HELP") then Array pubsub_help
        else error (str "ERR unknown subcommand '" ++ sub ++ str "'. Try PUBSUB HELP."))
  end.

End commands.

(** ** Sessions *)

(** The fields of a connection's [CommandHandler] that RESET puts back, apart from those of [Session]. *)
Record Flags : Type := mkFlags {
  in_multi : bool;
  multi_aborted : bool;
  multi_queue : list RespValue;
  watched : gmap Bytes Z;
  client_name : option Bytes;
  asking : bool;
  cluster_readonly : bool;
  client_no_evict : bool;
  client_no_touch : bool;
  client_tracking : bool;
  client_tracking_redirect : Z;
  client_tracking_prefixes : list Bytes;
  client_tracking_bcast : bool;
  client_tracking_optin : bool;
  client_tracking_optout : bool;
  client_tracking_noloop : bool;
  client_caching : option bool
}.

Definition fresh_flags : Flags :=
  mkFlags false false [] ∅ None false false false false false (-1) [] false false false false None.

Record Session : Type := mkSession {
  client_id : option ClientId;
  pubsub_subscriptions : Z;
  shard_subscriptions : Z;
  selected_db : Z;
  protocol_version : Z;
  flags : Flags
}.

Definition session_new (client : ClientId) : Session := mkSession (Some client) 0 0 0 2 fresh_flags.

Definition set_pubsub_subscriptions (n : Z) (h : Session) : Session :=
  mkSession (client_id h) n (shard_subscriptions h) (selected_db h) (protocol_version h) (flags h).
Definition set_shard_subscriptions (n : Z) (h : Session) : Session :=
  mkSession (client_id h) (pubsub_subscriptions h) n (selected_db h) (protocol_version h) (flags h).

Definition clear_watches (f : Flags) : Flags :=
  mkFlags (in_multi f) (multi_aborted f) (multi_queue f) ∅ (client_name f) (asking f) (cluster_readonly f) (client_no_evict f)
    (client_no_touch f) (client_tracking f) (client_tracking_redirect f) (client_tracking_prefixes f) (client_tracking_bcast f)
    (client_tracking_optin f) (client_tracking_optout f) (client_tracking_noloop f) (client_caching f).

Definition in_pubsub_mode (h : Session) : bool := (0 <? pubsub_subscriptions h) || (0 <? shard_subscriptions h).

Definition maybe_pubsub_push_frames (h : Session) (responses : list RespValue) : list RespValue :=
  if protocol_version h <? 3 then responses
  else (λ r, match r with Array a => Push a | other => other end) <$> responses.

Definition pubsub_count_from_frame (frame : option RespValue) : option Z :=
  match frame with
  | Some (Array a) | Some (Push a) => match a !! 2%nat with Some (Integer n) => Some n | _ => None end
  | _ => None
  end.

(** The tail the six handlers share: the last count becomes the session's, and several confirmations
    are several frames. *)
Definition answer_frames (set : Z → Session → Session) (responses : list RespValue) (h : Session) : Session * RespValue :=
  let responses := maybe_pubsub_push_frames h responses in
  (match pubsub_count_from_frame (last responses) with Some n => set (wrap_u64 n) h | None => h end,
   match responses with [r] => r | _ => Multiple responses end).

Definition not_registered : KError := InvalidArgument (str "client not registered for pub/sub").

Definition handle_frames (set : Z → Session → Session) (cmd : ClientId → list RespValue → Server → Server * list RespValue)
    (args : list RespValue) (h : Session) (s : Server) : Session * Server * result KError RespValue :=
  match client_id h with
  | None => (h, s, Err not_registered)
  | Some client =>
    let '(s, responses) := cmd client args s in
    let '(h, reply) := answer_frames set responses h in
    (h, s, Ok reply)
  end.

Section sessions.
Context `{!FanOut} `{!Uppercase} (cluster : bool) (databases : Z).

Definition handle_subscribe := handle_frames set_pubsub_subscriptions cmd_subscribe.
Definition handle_unsubscribe := handle_frames set_pubsub_subscriptions cmd_unsubscribe.
Definition handle_psubscribe := handle_frames set_pubsub_subscriptions cmd_psubscribe.
Definition handle_punsubscribe := handle_frames set_pubsub_subscriptions cmd_punsubscribe.
Definition handle_ssubscribe := handle_frames set_shard_subscriptions cmd_ssubscribe.
Definition handle_sunsubscribe := handle_frames set_shard_subscriptions cmd_sunsubscribe.

(** RESET leaves subscribed mode; the tables keep the client's subscriptions. *)
Definition handle_reset (h : Session) (s : Server) : Session * Server * result KError RespValue :=
  (mkSession (client_id h) 0 0 0 2 fresh_flags,
   match client_id h with Some id => set_pubsub s (set_client_protocol id 2 (pubsub s)) | None => s end,
   Ok (SimpleString (bs "RESET"))).

Definition handle_select (args : list RespValue) (h : Session) : Session * RespValue :=
  if cluster then (h, error (str "ERR SELECT is not allowed in cluster mode")) else
  let out_of_range := error (str "ERR DB index is out of range") in
  match args with
  | [arg] =>
    match parse_integer arg with
    | Ok index =>
      if (0 <=? index) && (index <? databases) then
        (if decide (index = selected_db h) then h
         else mkSession (client_id h) (pubsub_subscriptions h) (shard_subscriptions h) index (protocol_version h) (clear_watches (flags h)),
         SimpleString (bs "OK"))
      else (h, out_of_range)
    | Err _ => (h, out_of_range)
    end
  | _ => (h, wrong_args (str "select"))
  end.

(** HELLO once its options are accepted. *)
Definition hello_accepted (proto : Z) (h : Session) (s : Server) : Session * Server :=
  (mkSession (client_id h) (pubsub_subscriptions h) (shard_subscriptions h) (selected_db h) proto (flags h),
   match client_id h with Some id => set_pubsub s (set_client_protocol id proto (pubsub s)) | None => s end).

(** ** Dispatch *)

Inductive Command : Type :=
| Subscribe | Unsubscribe | Psubscribe | Punsubscribe | Ssubscribe | Sunsubscribe
| Reset | Publish | Spublish | Pubsub | Select.

(** The commands of [Command] that a subscribed connection may still send. *)
Definition allowed_subscribed (cmd : Command) : bool :=
  match cmd with
  | Subscribe | Unsubscribe | Psubscribe | Punsubscribe | Ssubscribe | Sunsubscribe | Reset => true
  | Publish | Spublish | Pubsub | Select => false
  end.

Definition not_in_subscribed_context : RespValue :=
  error (str "ERR Command not allowed inside a subscribed context. Did you mean SUBSCRIBE / PSUBSCRIBE?").

Definition dispatch (accepts : ClientId → RespValue → bool) (cmd : Command) (args : list RespValue) (h : Session) (s : Server)
    : Session * Server * result KError RespValue :=
  if in_pubsub_mode h && negb (allowed_subscribed cmd) then (h, s, Ok not_in_subscribed_context) else
  match cmd with
  | Subscribe => handle_subscribe args h s
  | Unsubscribe => handle_unsubscribe args h s
  | Psubscribe => handle_psubscribe args h s
  | Punsubscribe => handle_punsubscribe args h s
  | Ssubscribe => handle_ssubscribe args h s
  | Sunsubscribe => handle_sunsubscribe args h s
  | Reset => handle_reset h s
  | Publish => let '(s, r) := cmd_publish (selected_db h) accepts args s in (h, s, r)
  | Spublish => let '(s, r) := cmd_spublish (selected_db h) accepts args s in (h, s, r)
  | Pubsub => let '(s, r) := cmd_pubsub args s in (h, s, Ok r)
  | Select => let '(h, r) := handle_select args h in (h, s, Ok r)
  end.

(** ** Connections *)

Record Host : Type := mkHost {
  server : Server;
  sessions : gmap ClientId Session
}.

Inductive Event : Type :=
| Connect
| Request (client : ClientId) (cmd : Command) (args : list RespValue) (accepts : ClientId → RespValue → bool)
| Hello (client : ClientId) (proto : Z)
| Receive (client : ClientId)
| Lagged (client : ClientId) (n : Z)
| Disconnect (client : ClientId)
| Resize (capacity : Z)
| OtherMemory (db : Z) (op : MemoryTracker → MemoryTracker).

Definition host_new (max_memory max_message : Z) : Host :=
  mkHost (mkServer pubsub_new (λ _, tracker_new max_memory max_message) (λ _, 0)) ∅.

Definition disconnect (client : ClientId) (x : Host) : Host :=
  mkHost (unregister_pubsub_client 0 client (server x)) (delete client (sessions x)).

(** The connection works on the tracker of database 0, its session on that of the selected one.  A
    connection takes a message only in subscribed mode.  One that lags leaves its loop, and a
    [Disconnect] follows. *)
Definition host_step (x : Host) (e : Event) : Host :=
  match e with
  | Connect =>
    let '(p, client) := register_client (pubsub (server x)) in
    mkHost (set_pubsub (server x) p) (<[client := session_new client]> (sessions x))
  | Request client cmd args accepts =>
    match sessions x !! client with
    | Some h =>
      let '(h, s, _) := dispatch accepts cmd args h (server x) in
      mkHost s (<[client := h]> (sessions x))
    | None => x
    end
  | Hello client proto =>
    match sessions x !! client with
    | Some h => let '(h, s) := hello_accepted proto h (server x) in mkHost s (<[client := h]> (sessions x))
    | None => x
    end
  | Receive client =>
    match sessions x !! client with
    | Some h => if in_pubsub_mode h then mkHost (note_pubsub_delivered 0 client (server x)) (sessions x) else x
    | None => x
    end
  | Lagged client n =>
    match sessions x !! client with
    | Some h =>
      if in_pubsub_mode h then
        let '(p, freed) := note_lagged client n (pubsub (server x)) in
        mkHost (release_pubsub_memory 0 freed (set_pubsub (server x) p)) (sessions x)
      else x
    | None => x
    end
  | Disconnect client => match sessions x !! client with Some _ => disconnect client x | None => x end
  | Resize capacity => mkHost (set_pubsub (server x) (set_client_buffer_capacity capacity (pubsub (server x)))) (sessions x)
  | OtherMemory db op => mkHost (set_tracker (server x) db (op (trackers (server x) db))) (sessions x)
  end.

Definition host_run (x : Host) (events : list Event) : Host := foldl host_step x events.

End sessions.
