(* ===== verification/PubSubFacts.v ===== *)
(** * Facts about Pub/Sub

    The two directions of a subscription table against the set of pairs they stand for, the commands
    against the same commands on such sets, and the queues of pending sizes. *)

From S2P Require Import Prelude RustStd Errors Resp Reply Text Memory ChannelGlob PubSub PubSubCommands.
From Stdlib Require Import Lia.
Local Open Scope Z_scope.

(** ** Tables *)

Abbreviation Pairs := (gset (Z * Bytes)).

Implicit Types (s : gset (Z * Bytes)) (t : gmap Bytes (gset Z)) (r : gmap Z (gset Bytes)) (c client : Z) (n name : Bytes) (p : PubSub).

Definition names_in (c : Z) (s : Pairs) : gset Bytes := set_map snd (filter (λ x, x.1 = c) s).
Definition subs_in (n : Bytes) (s : Pairs) : gset Z := set_map fst (filter (λ x, x.2 = n) s).
Definition forget (c : Z) (s : Pairs) : Pairs := filter (λ x, x.1 ≠ c) s.

Lemma elem_of_names_in c n s : n ∈ names_in c s ↔ (c, n) ∈ s.
Proof.
  unfold names_in. rewrite elem_of_map. split.
  - intros ([c' n'] & -> & [? ?]%elem_of_filter). simpl in *. by subst.
  - intros H. exists (c, n). by rewrite elem_of_filter.
Qed.

Lemma elem_of_subs_in c n s : c ∈ subs_in n s ↔ (c, n) ∈ s.
Proof.
  unfold subs_in. rewrite elem_of_map. split.
  - intros ([c' n'] & -> & [? ?]%elem_of_filter). simpl in *. by subst.
  - intros H. exists (c, n). by rewrite elem_of_filter.
Qed.

Lemma elem_of_forget x c s : x ∈ forget c s ↔ x.1 ≠ c ∧ x ∈ s.
Proof. unfold forget. by rewrite elem_of_filter. Qed.

(** Both directions hold the pairs of [s], and no channel is without subscribers. *)
Record table_ok (t : Table) (r : Reverse) (s : Pairs) : Prop := {
  to_subs : ∀ n, default ∅ (t !! n) = subs_in n s;
  to_names : ∀ c, default ∅ (r !! c) = names_in c s;
  no_empty : ∀ n, t !! n ≠ Some ∅
}.

Lemma table_ok_empty : table_ok ∅ ∅ ∅.
Proof. split; intros ?; rewrite lookup_empty; [..|done]; set_solver. Qed.

Lemma lookup_insert_default {K A : Type} `{Countable K} `{Countable A} (k j : K) (x : gset A) (m : gmap K (gset A)) :
  default ∅ (<[k := x]> m !! j) = if decide (k = j) then x else default ∅ (m !! j).
Proof. rewrite lookup_insert. by case_decide. Qed.

Lemma table_add_ok c n t r s : table_ok t r s → table_ok (table_add c n t) (reverse_add c n r) ({[(c, n)]} ∪ s).
Proof.
  intros [H1 H2 H3]. unfold table_add, reverse_add. split.
  - intros n'. rewrite lookup_insert_default. apply set_eq. intros c'. rewrite elem_of_subs_in, elem_of_union, elem_of_singleton.
    case_decide; [subst n'|]; rewrite ?elem_of_union, H1, elem_of_subs_in; set_solver.
  - intros c'. rewrite lookup_insert_default. apply set_eq. intros n'. rewrite elem_of_names_in, elem_of_union, elem_of_singleton.
    case_decide; [subst c'|]; rewrite ?elem_of_union, H2, elem_of_names_in; set_solver.
  - intros n'. rewrite lookup_insert. case_decide; [|done]. intros [= E]. set_solver.
Qed.

Lemma table_remove_lookup c n t n' :
  default ∅ (table_remove c n t !! n') = if decide (n = n') then default ∅ (t !! n') ∖ {[c]} else default ∅ (t !! n').
Proof.
  unfold table_remove. destruct (t !! n) as [x|] eqn:E; simpl.
  - destruct (decide (x ∖ {[c]} = ∅)) as [E'|_].
    + rewrite lookup_delete. case_decide; [subst n'|done]. by rewrite E.
    + rewrite lookup_insert. case_decide; [subst n'|done]. by rewrite E.
  - case_decide; [subst n'|done]. rewrite E. set_solver.
Qed.

Lemma table_remove_no_empty c n t : (∀ n', t !! n' ≠ Some ∅) → ∀ n', table_remove c n t !! n' ≠ Some ∅.
Proof.
  intros H n'. unfold table_remove. destruct (t !! n) as [x|]; [|done].
  destruct (decide (x ∖ {[c]} = ∅)); [rewrite lookup_delete|rewrite lookup_insert]; case_decide; naive_solver.
Qed.

Lemma reverse_remove_lookup c n r c' :
  default ∅ (reverse_remove c n r !! c') = if decide (c = c') then default ∅ (r !! c') ∖ {[n]} else default ∅ (r !! c').
Proof.
  unfold reverse_remove. destruct (r !! c) as [x|] eqn:E; simpl.
  - rewrite lookup_insert. case_decide; [subst c'|done]. by rewrite E.
  - case_decide; [subst c'|done]. rewrite E. set_solver.
Qed.

Lemma table_remove_ok c n t r s : table_ok t r s → table_ok (table_remove c n t) (reverse_remove c n r) (s ∖ {[(c, n)]}).
Proof.
  intros [H1 H2 H3]. split; [| |by apply table_remove_no_empty].
  - intros n'. rewrite table_remove_lookup, H1. apply set_eq. intros c'. rewrite elem_of_subs_in, elem_of_difference, elem_of_singleton.
    case_decide; rewrite ?elem_of_difference, elem_of_subs_in; set_solver.
  - intros c'. rewrite reverse_remove_lookup, H2. apply set_eq. intros n'. rewrite elem_of_names_in, elem_of_difference, elem_of_singleton.
    case_decide; rewrite ?elem_of_difference, elem_of_names_in; set_solver.
Qed.

Lemma remove_all_lookup c names t n :
  default ∅ (remove_all_from c names t !! n) = if decide (n ∈ names) then default ∅ (t !! n) ∖ {[c]} else default ∅ (t !! n).
Proof.
  unfold remove_all_from. revert t. induction names as [|m names IH]; intros t; [done|]. cbn [foldl].
  rewrite IH, !table_remove_lookup. destruct (decide (m = n)) as [->|Hne].
  - rewrite (decide_True (P := n ∈ n :: names)) by left. case_decide; set_solver.
  - destruct (decide (n ∈ names)); [rewrite decide_True by (by right)|rewrite decide_False by (rewrite elem_of_cons; naive_solver)]; done.
Qed.

Lemma remove_all_no_empty c names t : (∀ n, t !! n ≠ Some ∅) → ∀ n, remove_all_from c names t !! n ≠ Some ∅.
Proof.
  unfold remove_all_from. revert t. induction names as [|m names IH]; intros t H; [done|]. by apply IH, table_remove_no_empty.
Qed.

Lemma remove_all_ok c names t r s :
  table_ok t r s → (∀ n, n ∈ names ↔ (c, n) ∈ s) → table_ok (remove_all_from c names t) (delete c r) (forget c s).
Proof.
  intros [H1 H2 H3] Hn. split; [| |by apply remove_all_no_empty].
  - intros n. rewrite remove_all_lookup, H1. apply set_eq. intros c'. rewrite elem_of_subs_in, elem_of_forget. simpl.
    case_decide as E; rewrite ?elem_of_difference, elem_of_subs_in, Hn in *; set_solver.
  - intros c'. rewrite lookup_delete. case_decide; [subst c'|rewrite H2]; apply set_eq; intros n;
      rewrite !elem_of_names_in, elem_of_forget || rewrite elem_of_names_in, elem_of_forget; set_solver.
Qed.

Lemma count_of_names c t r s : table_ok t r s → count_of c r = Z.of_nat (size (names_in c s)).
Proof. intros H. unfold count_of. rewrite <- (to_names _ _ _ H c). by destruct (r !! c). Qed.

Lemma subscribers_of_subs n t r s : table_ok t r s → subscribers_of n t = Z.of_nat (size (subs_in n s)).
Proof. intros H. unfold subscribers_of. rewrite <- (to_subs _ _ _ H n). by destruct (t !! n). Qed.

(** ** Subscriptions as sets *)

Record Subs : Type := mkSubs {
  on_channel : Pairs;
  on_pattern : Pairs;
  on_shard : Pairs
}.

Implicit Types (S : Subs).

Definition no_subs : Subs := mkSubs ∅ ∅ ∅.
Definition forget_all (c : Z) (S : Subs) : Subs := mkSubs (forget c (on_channel S)) (forget c (on_pattern S)) (forget c (on_shard S)).

(** What a confirmation counts: the channels and patterns of the client, or its shard channels. *)
Definition plain_count (c : Z) (S : Subs) : Z := Z.of_nat (size (names_in c (on_channel S))) + Z.of_nat (size (names_in c (on_pattern S))).
Definition shard_count (c : Z) (S : Subs) : Z := Z.of_nat (size (names_in c (on_shard S))).

Definition counted (count : Subs → Z) (S : Subs) : Subs * Z := (S, count S).

Definition spec_subscribe (c : Z) (n : Bytes) (S : Subs) := counted (plain_count c) (mkSubs ({[(c, n)]} ∪ on_channel S) (on_pattern S) (on_shard S)).
Definition spec_unsubscribe (c : Z) (n : Bytes) (S : Subs) := counted (plain_count c) (mkSubs (on_channel S ∖ {[(c, n)]}) (on_pattern S) (on_shard S)).
Definition spec_psubscribe (c : Z) (n : Bytes) (S : Subs) := counted (plain_count c) (mkSubs (on_channel S) ({[(c, n)]} ∪ on_pattern S) (on_shard S)).
Definition spec_punsubscribe (c : Z) (n : Bytes) (S : Subs) := counted (plain_count c) (mkSubs (on_channel S) (on_pattern S ∖ {[(c, n)]}) (on_shard S)).
Definition spec_ssubscribe (c : Z) (n : Bytes) (S : Subs) := counted (shard_count c) (mkSubs (on_channel S) (on_pattern S) ({[(c, n)]} ∪ on_shard S)).
Definition spec_sunsubscribe (c : Z) (n : Bytes) (S : Subs) := counted (shard_count c) (mkSubs (on_channel S) (on_pattern S) (on_shard S ∖ {[(c, n)]})).

Section spec.
Context `{!FanOut}.

(** Without arguments everything of the kind goes, with one confirmation per name. *)
Definition spec_forget (verb : Str) (names : gset Bytes) (rest : Z) : list RespValue :=
  if decide (names = ∅) then [confirmation verb None rest] else (λ n, confirmation verb (Some n) rest) <$> names_of names.

Definition spec_command (cmd : Command) (c : Z) (args : list RespValue) (S : Subs) : Subs * list RespValue :=
  match cmd with
  | Subscribe =>
    if decide (args = []) then (S, [wrong_args (str "subscribe")]) else confirm_each (str "subscribe") invalid_channel (spec_subscribe c) args S
  | Psubscribe =>
    if decide (args = []) then (S, [wrong_args (str "psubscribe")]) else confirm_each (str "psubscribe") invalid_pattern (spec_psubscribe c) args S
  | Ssubscribe =>
    if decide (args = []) then (S, [wrong_args (str "ssubscribe")]) else confirm_each (str "ssubscribe") invalid_channel (spec_ssubscribe c) args S
  | Unsubscribe =>
    if decide (args = []) then
      let S' := mkSubs (forget c (on_channel S)) (on_pattern S) (on_shard S) in
      (S', spec_forget (str "unsubscribe") (names_in c (on_channel S)) (plain_count c S'))
    else confirm_each (str "unsubscribe") invalid_channel (spec_unsubscribe c) args S
  | Punsubscribe =>
    if decide (args = []) then
      let S' := mkSubs (on_channel S) (forget c (on_pattern S)) (on_shard S) in
      (S', spec_forget (str "punsubscribe") (names_in c (on_pattern S)) (plain_count c S'))
    else confirm_each (str "punsubscribe") invalid_pattern (spec_punsubscribe c) args S
  | Sunsubscribe =>
    if decide (args = []) then
      let S' := mkSubs (on_channel S) (on_pattern S) (forget c (on_shard S)) in
      (S', spec_forget (str "sunsubscribe") (names_in c (on_shard S)) (shard_count c S'))
    else confirm_each (str "sunsubscribe") invalid_channel (spec_sunsubscribe c) args S
  | _ => (S, [])
  end.

(** The same commands on the server. *)
Definition command_frames (cmd : Command) : Z → list RespValue → Server → Server * list RespValue :=
  match cmd with
  | Subscribe => cmd_subscribe
  | Unsubscribe => cmd_unsubscribe
  | Psubscribe => cmd_psubscribe
  | Punsubscribe => cmd_punsubscribe
  | Ssubscribe => cmd_ssubscribe
  | Sunsubscribe => cmd_sunsubscribe
  | _ => λ _ _ x, (x, [])
  end.
End spec.

Record related (p : PubSub) (S : Subs) : Prop := {
  rel_channel : table_ok (channels p) (client_channels p) (on_channel S);
  rel_pattern : table_ok (patterns p) (client_patterns p) (on_pattern S);
  rel_shard : table_ok (shard_channels p) (client_shard_channels p) (on_shard S)
}.

Lemma related_new : related pubsub_new no_subs.
Proof. split; apply table_ok_empty. Qed.

Definition refines {A : Type} (f : PubSub → PubSub * A) (g : Subs → Subs * A) : Prop :=
  ∀ p S, related p S → related (f p).1 (g S).1 ∧ (f p).2 = (g S).2.

Lemma plain_count_related c p S : related p S → count_of c (client_channels p) + count_of c (client_patterns p) = plain_count c S.
Proof. intros [H1 H2 _]. unfold plain_count. by rewrite (count_of_names c _ _ _ H1), (count_of_names c _ _ _ H2). Qed.

Lemma counted_refines (f : PubSub → PubSub) (g : Subs → Subs) (count : PubSub → Z) (count' : Subs → Z) :
  (∀ p S, related p S → related (f p) (g S)) → (∀ p S, related p S → count p = count' S) →
  refines (λ p, (f p, count (f p))) (λ S, counted count' (g S)).
Proof. intros H1 H2 p S H. split; [by apply H1|]. by apply H2, H1. Qed.

Lemma related_set_channels p S t r s : related p S → table_ok t r s → related (set_channels p t r) (mkSubs s (on_pattern S) (on_shard S)).
Proof. by intros []. Qed.
Lemma related_set_patterns p S t r s : related p S → table_ok t r s → related (set_patterns p t r) (mkSubs (on_channel S) s (on_shard S)).
Proof. by intros []. Qed.
Lemma related_set_shards p S t r s : related p S → table_ok t r s → related (set_shards p t r) (mkSubs (on_channel S) (on_pattern S) s).
Proof. by intros []. Qed.

Create HintDb tables.
#[export] Hint Resolve rel_channel rel_pattern rel_shard table_add_ok table_remove_ok related_set_channels related_set_patterns related_set_shards
  plain_count_related : tables.

Lemma shard_count_related c p S : related p S → count_of c (client_shard_channels p) = shard_count c S.
Proof. intros [_ _ H]. by apply (count_of_names c _ _ _ H). Qed.
#[export] Hint Resolve shard_count_related : tables.

Lemma subscribe_refines c n : refines (subscribe c n) (spec_subscribe c n).
Proof. apply (counted_refines _ _ (λ p, count_of c (client_channels p) + count_of c (client_patterns p))); eauto with tables. Qed.
Lemma unsubscribe_refines c n : refines (unsubscribe c n) (spec_unsubscribe c n).
Proof. apply (counted_refines _ _ (λ p, count_of c (client_channels p) + count_of c (client_patterns p))); eauto with tables. Qed.
Lemma psubscribe_refines c n : refines (psubscribe c n) (spec_psubscribe c n).
Proof. apply (counted_refines _ _ (λ p, count_of c (client_channels p) + count_of c (client_patterns p))); eauto with tables. Qed.
Lemma punsubscribe_refines c n : refines (punsubscribe c n) (spec_punsubscribe c n).
Proof. apply (counted_refines _ _ (λ p, count_of c (client_channels p) + count_of c (client_patterns p))); eauto with tables. Qed.
Lemma ssubscribe_refines c n : refines (ssubscribe c n) (spec_ssubscribe c n).
Proof. apply (counted_refines _ _ (λ p, count_of c (client_shard_channels p))); eauto with tables. Qed.
Lemma sunsubscribe_refines c n : refines (sunsubscribe c n) (spec_sunsubscribe c n).
Proof. apply (counted_refines _ _ (λ p, count_of c (client_shard_channels p))); eauto with tables. Qed.

Lemma confirm_refines verb invalid (f : Bytes → PubSub → PubSub * Z) (g : Bytes → Subs → Subs * Z) args :
  (∀ n, refines (f n) (g n)) → refines (confirm_each verb invalid f args) (confirm_each verb invalid g args).
Proof.
  intros Hfg. induction args as [|arg args IH]; intros p S H; [done|]. cbn [confirm_each].
  destruct (as_bulk_string arg) as [n|].
  - destruct (Hfg n p S H) as [H1 H2]. destruct (f n p) as [p' k], (g n S) as [S' k']. simpl in H1, H2.
    destruct (IH p' S' H1) as [H3 H4]. destruct (confirm_each _ _ f args p'), (confirm_each _ _ g args S'). simpl in *. by subst.
  - destruct (IH p S H) as [H3 H4]. destruct (confirm_each _ _ f args p), (confirm_each _ _ g args S). simpl in *. by subst.
Qed.

Lemma on_pubsub_refines verb invalid (f : Bytes → PubSub → PubSub * Z) (g : Bytes → Subs → Subs * Z) args (x : Server) S (P : Prop) :
  (∀ n, refines (f n) (g n)) → related (pubsub x) S →
  let y := on_pubsub (confirm_each verb invalid f args) x in
  related (pubsub y.1) (confirm_each verb invalid g args S).1 ∧ (P → y.2 = (confirm_each verb invalid g args S).2).
Proof.
  intros Hfg H. destruct (confirm_refines verb invalid f g args Hfg _ _ H) as [H1 H2]. unfold on_pubsub.
  by destruct (confirm_each verb invalid f args _).
Qed.

Section refinement.
Context {FO : FanOut} {FL : FanOutLaws}.

Lemma elem_of_names_of n (x : gset Bytes) : n ∈ names_of x ↔ n ∈ x.
Proof. rewrite names_of_perm. apply elem_of_elements. Qed.

Lemma names_of_nil (x : gset Bytes) : names_of x = [] ↔ x = ∅.
Proof.
  split; intros E.
  - apply set_eq. intros n. rewrite <- elem_of_names_of, E. set_solver.
  - apply elem_of_nil_inv. intros n. rewrite elem_of_names_of, E. set_solver.
Qed.

Lemma forget_names c t r s : table_ok t r s →
  let names := names_of (default ∅ (r !! c)) in
  names = names_of (names_in c s) ∧ table_ok (remove_all_from c names t) (delete c r) (forget c s).
Proof.
  intros H. simpl. rewrite (to_names _ _ _ H c). split; [done|]. apply remove_all_ok; [done|].
  intros n. by rewrite elem_of_names_of, elem_of_names_in.
Qed.

Lemma unsubscribe_all_refines c :
  refines (unsubscribe_all c) (λ S, (mkSubs (forget c (on_channel S)) (on_pattern S) (on_shard S), names_of (names_in c (on_channel S)))).
Proof. intros p S H. destruct (forget_names c _ _ _ (rel_channel _ _ H)) as [E Ht]. split; [by apply related_set_channels|done]. Qed.

Lemma punsubscribe_all_refines c :
  refines (punsubscribe_all c) (λ S, (mkSubs (on_channel S) (forget c (on_pattern S)) (on_shard S), names_of (names_in c (on_pattern S)))).
Proof. intros p S H. destruct (forget_names c _ _ _ (rel_pattern _ _ H)) as [E Ht]. split; [by apply related_set_patterns|done]. Qed.

Lemma sunsubscribe_all_refines c :
  refines (sunsubscribe_all c) (λ S, (mkSubs (on_channel S) (on_pattern S) (forget c (on_shard S)), names_of (names_in c (on_shard S)))).
Proof. intros p S H. destruct (forget_names c _ _ _ (rel_shard _ _ H)) as [E Ht]. split; [by apply related_set_shards|done]. Qed.

Lemma names_in_forget c s : names_in c (forget c s) = ∅.
Proof. apply set_eq. intros n. rewrite elem_of_names_in, elem_of_forget. set_solver. Qed.

Lemma spec_forget_names (verb : Str) (x : gset Bytes) (rest : Z) :
  spec_forget verb x rest =
  if decide (names_of x = []) then [confirmation verb None rest] else (λ n, confirmation verb (Some n) rest) <$> names_of x.
Proof. unfold spec_forget. destruct (decide (x = ∅)) as [E|E]; rewrite <- names_of_nil in E; [by rewrite decide_True|by rewrite decide_False]. Qed.

(** The tables follow the sets under every command, and so do the replies, but for the counts of a
    SUNSUBSCRIBE without arguments. *)
Lemma command_refines cmd c args (x : Server) S :
  related (pubsub x) S →
  let y := command_frames cmd c args x in
  related (pubsub y.1) (spec_command cmd c args S).1 ∧
  ((cmd, args) ≠ (Sunsubscribe, []) → y.2 = (spec_command cmd c args S).2).
Proof.
  intros H. destruct cmd; try (by split); simpl.
  - unfold cmd_subscribe. case_decide; [by split|]. apply on_pubsub_refines; [apply subscribe_refines|done].
  - unfold cmd_unsubscribe. case_decide; [|apply on_pubsub_refines; [apply unsubscribe_refines|done]].
    unfold on_pubsub. cbn [pubsub count_stat]. destruct (unsubscribe_all_refines c _ _ H) as [H1 H2].
    destruct (unsubscribe_all c _) as [p' names]. pose proof (plain_count_related c _ _ H1) as Hc. simpl in *.
    split; [done|]. intros _. rewrite spec_forget_names, H2, <- Hc. case_decide; [|done].
    rewrite (count_of_names c _ _ _ (rel_channel _ _ H1)). simpl. by rewrite names_in_forget.
  - unfold cmd_psubscribe. case_decide; [by split|]. apply on_pubsub_refines; [apply psubscribe_refines|done].
  - unfold cmd_punsubscribe. case_decide; [|apply on_pubsub_refines; [apply punsubscribe_refines|done]].
    unfold on_pubsub. cbn [pubsub count_stat]. destruct (punsubscribe_all_refines c _ _ H) as [H1 H2].
    destruct (punsubscribe_all c _) as [p' names]. pose proof (plain_count_related c _ _ H1) as Hc. simpl in *.
    split; [done|]. intros _. rewrite spec_forget_names, H2, <- Hc. case_decide; [|done].
    rewrite (count_of_names c _ _ _ (rel_pattern _ _ H1)). simpl. rewrite names_in_forget. by rewrite Z.add_0_r.
  - unfold cmd_ssubscribe. case_decide; [by split|]. apply on_pubsub_refines; [apply ssubscribe_refines|done].
  - unfold cmd_sunsubscribe. case_decide; [|apply on_pubsub_refines; [apply sunsubscribe_refines|done]].
    unfold on_pubsub. destruct (sunsubscribe_all_refines c _ _ H) as [H1 H2]. destruct (sunsubscribe_all c _) as [p' names].
    split; [done|]. by subst.
Qed.

End refinement.
