(* ===== verification/PubSubSim.v ===== *)
(** * Connections against sets of subscriptions

    The connections of a server, their sessions and the tables, step by step, against a machine that
    only holds the connected clients and three sets of subscriptions. *)

From S2P Require Import Prelude RustStd Errors Resp Reply Text Memory ChannelGlob PubSub PubSubCommands PubSubFacts.
From Stdlib Require Import Lia.
Local Open Scope Z_scope.

Implicit Types (S : Subs) (c client : Z) (p : PubSub) (s : Server) (h : Session).

Record Spec : Type := mkSpec {
  spec_next : Z;
  spec_clients : gset Z;
  spec_subs : Subs
}.

Definition spec_new : Spec := mkSpec 0 ∅ no_subs.

Section spec_machine.
Context {FO : FanOut}.

Definition spec_step (X : Spec) (e : Event) : Spec :=
  match e with
  | Connect => mkSpec (wrap_u64 (spec_next X + 1)) ({[spec_next X]} ∪ spec_clients X) (spec_subs X)
  | Request client cmd args _ =>
    if decide (client ∈ spec_clients X) then mkSpec (spec_next X) (spec_clients X) (spec_command cmd client args (spec_subs X)).1 else X
  | Disconnect client =>
    if decide (client ∈ spec_clients X) then mkSpec (spec_next X) (spec_clients X ∖ {[client]}) (forget_all client (spec_subs X)) else X
  | _ => X
  end.

Definition spec_run (X : Spec) (events : list Event) : Spec := foldl spec_step X events.
End spec_machine.

(** ** What leaves the tables alone *)

Definition tables (p : PubSub) :=
  (channels p, client_channels p, patterns p, client_patterns p, shard_channels p, client_shard_channels p).
Definition registry (p : PubSub) := (clients p, next_client_id p).

Lemma related_tables p p' S : tables p' = tables p → related p S → related p' S.
Proof. unfold tables. intros [= E1 E2 E3 E4 E5 E6] [H1 H2 H3]. split; congruence. Qed.

Lemma release_pubsub db size s : pubsub (release_pubsub_memory db size s) = pubsub s.
Proof. unfold release_pubsub_memory. by case_match. Qed.

Lemma settle_pubsub db cost o s : pubsub (settle db cost o s) = pubsub s.
Proof. unfold settle. by repeat case_match. Qed.

Lemma reserve_pubsub db cost s s' : reserve db cost s = Some s' → pubsub s' = pubsub s.
Proof. unfold reserve. destruct (allocate _ _ _) as [t []]; [|done]. by intros [= <-]. Qed.

Lemma account_tables delivered size dropped p :
  let p' := (account_deliveries delivered size dropped p).1 in tables p' = tables p ∧ registry p' = registry p.
Proof. unfold account_deliveries. by destruct (enqueue_all _ _ _ _ _ _ _) as [[[? ?] ?] ?]. Qed.

Definition untouched (s s' : Server) : Prop :=
  tables (pubsub s') = tables (pubsub s) ∧ registry (pubsub s') = registry (pubsub s).

Lemma note_delivered_untouched db c s : untouched s (note_pubsub_delivered db c s).
Proof.
  unfold note_pubsub_delivered, untouched. destruct (note_delivered c (pubsub s)) as [p size] eqn:E. rewrite release_pubsub. simpl.
  unfold note_delivered in E. by case_match; simplify_eq.
Qed.

Lemma note_lagged_untouched db c n s :
  let '(p, freed) := note_lagged c n (pubsub s) in untouched s (release_pubsub_memory db freed (set_pubsub s p)).
Proof.
  destruct (note_lagged c n (pubsub s)) as [p freed] eqn:E. unfold untouched. rewrite release_pubsub. simpl.
  unfold note_lagged in E. by repeat case_match; simplify_eq.
Qed.

Section publishing.
Context {FO : FanOut}.

(** A publish is refused, with only its statistics counted, or reserved, sent and settled. *)
Lemma cmd_publish_cases db accepts args s :
  let s1 := count_stat stat_publish 1 s in
  (∃ r, cmd_publish db accepts args s = (s1, r)) ∨
  ∃ channel message s2,
    args = [bulk channel; bulk message] ∧ zlen message ≤ max_message_size (trackers s db) ∧
    let cost := fanout_memory_cost channel (zlen message) (pubsub s) in
    reserve db cost s1 = Some s2 ∧
    let out := publish_with_outcome accepts channel message (pubsub s) in
    cmd_publish db accepts args s =
      (settle db cost out.2 (count_stat pubsub_messages_sent (recipients out.2) (set_pubsub s2 out.1)), Ok (Integer (wrap_i64 (recipients out.2)))).
Proof.
  intros s1. unfold cmd_publish. fold s1. destruct (Nat.eqb_spec (length args) 2) as [Hl|]; [|left; eauto]. cbn [negb].
  destruct args as [|a0 [|a1 [|]]]; try done. unfold bulk_arg. cbn [lookup list_lookup mbind option_bind].
  destruct a0 as [| | |[channel|]| | | | | | |]; try (left; eauto; fail). destruct a1 as [| | |[message|]| | | | | | |]; try (left; eauto; fail).
  cbn [as_bulk_string]. destruct (Z.ltb_spec (max_message_size (trackers s1 db)) (zlen message)); [left; eauto|].
  destruct (reserve _ _ s1) as [s2|] eqn:Er; [|left; eauto]. right. exists channel, message, s2. split_and!; [done..|].
  rewrite (reserve_pubsub _ _ _ _ Er). change (pubsub s1) with (pubsub s). by destruct (publish_with_outcome _ _ _ _).
Qed.

Lemma cmd_spublish_cases db accepts args s :
  (∃ r, cmd_spublish db accepts args s = (s, r)) ∨
  ∃ channel message s2,
    args = [bulk channel; bulk message] ∧ zlen message ≤ max_message_size (trackers s db) ∧
    let cost := sat_mul_u64 (zlen message) (Z.max (num_shard_subscribers channel (pubsub s)) 1) in
    reserve db cost s = Some s2 ∧
    let out := spublish_with_outcome accepts channel message (pubsub s) in
    cmd_spublish db accepts args s = (settle db cost out.2 (set_pubsub s2 out.1), Ok (Integer (wrap_i64 (recipients out.2)))).
Proof.
  unfold cmd_spublish. destruct (Nat.eqb_spec (length args) 2) as [Hl|]; [|left; eauto]. cbn [negb].
  destruct args as [|a0 [|a1 [|]]]; try done. unfold bulk_arg. cbn [lookup list_lookup mbind option_bind].
  destruct a0 as [| | |[channel|]| | | | | | |]; try (left; eauto; fail). destruct a1 as [| | |[message|]| | | | | | |]; try (left; eauto; fail).
  cbn [as_bulk_string]. destruct (Z.ltb_spec (max_message_size (trackers s db)) (zlen message)); [left; eauto|].
  destruct (reserve _ _ s) as [s2|] eqn:Er; [|left; eauto]. right. exists channel, message, s2. split_and!; [done..|].
  rewrite (reserve_pubsub _ _ _ _ Er). by destruct (spublish_with_outcome _ _ _ _).
Qed.

Lemma publish_untouched db accepts args s : untouched s (cmd_publish db accepts args s).1.
Proof.
  destruct (cmd_publish_cases db accepts args s) as [[r ->]|(channel & message & s2 & _ & _ & Er & ->)]; [done|].
  unfold untouched. cbn [fst]. rewrite settle_pubsub. apply account_tables.
Qed.

Lemma spublish_untouched db accepts args s : untouched s (cmd_spublish db accepts args s).1.
Proof.
  destruct (cmd_spublish_cases db accepts args s) as [[r ->]|(channel & message & s2 & _ & _ & Er & ->)]; [done|].
  unfold untouched. cbn [fst]. rewrite settle_pubsub. apply account_tables.
Qed.

(** ** What subscription commands leave alone *)

Section views.
Context {A : Type} (view : PubSub → A).
Context (Hch : ∀ p t r, view (set_channels p t r) = view p) (Hpat : ∀ p t r, view (set_patterns p t r) = view p)
  (Hsh : ∀ p t r, view (set_shards p t r) = view p).

Lemma confirm_view verb invalid (f : Bytes → PubSub → PubSub * Z) args p :
  (∀ n p, view (f n p).1 = view p) → view (confirm_each verb invalid f args p).1 = view p.
Proof.
  intros Hf. revert p. induction args as [|arg args IH]; intros p; [done|]. cbn [confirm_each]. destruct (as_bulk_string arg) as [n|].
  - pose proof (Hf n p) as H. destruct (f n p) as [p' k]. specialize (IH p'). destruct (confirm_each _ _ f args p'). simpl in *. congruence.
  - specialize (IH p). by destruct (confirm_each _ _ f args p).
Qed.

Lemma on_pubsub_view {B : Type} (f : PubSub → PubSub * B) s :
  (∀ p, view (f p).1 = view p) → view (pubsub (on_pubsub f s).1) = view (pubsub s) ∧ trackers (on_pubsub f s).1 = trackers s.
Proof. intros Hf. unfold on_pubsub. specialize (Hf (pubsub s)). by destruct (f (pubsub s)). Qed.

Lemma command_view cmd c args s :
  let s' := (command_frames cmd c args s).1 in view (pubsub s') = view (pubsub s) ∧ trackers s' = trackers s.
Proof.
  destruct cmd; try done; simpl;
    unfold cmd_subscribe, cmd_unsubscribe, cmd_psubscribe, cmd_punsubscribe, cmd_ssubscribe, cmd_sunsubscribe; case_decide; try done.
  all: first
    [ match goal with |- context [on_pubsub (confirm_each ?v ?i ?f ?a) ?s'] =>
        apply (on_pubsub_view (confirm_each v i f a) s'); intros p; apply confirm_view; intros n p'; first [apply Hch|apply Hpat|apply Hsh] end
    | split; [first [apply Hch|apply Hpat|apply Hsh]|done] ].
Qed.
End views.

Lemma command_registry cmd c args s : registry (pubsub (command_frames cmd c args s).1) = registry (pubsub s).
Proof. by apply (command_view registry). Qed.

End publishing.

(** ** Sessions *)

Definition subscribing (cmd : Command) : bool :=
  match cmd with Subscribe | Unsubscribe | Psubscribe | Punsubscribe | Ssubscribe | Sunsubscribe => true | _ => false end.

Definition sharded (cmd : Command) : bool := match cmd with Ssubscribe | Sunsubscribe => true | _ => false end.

Definition set_count (cmd : Command) : Z → Session → Session := if sharded cmd then set_shard_subscriptions else set_pubsub_subscriptions.

Section host.
Context {FO : FanOut} {FL : FanOutLaws} {UP : Uppercase} (cluster : bool) (databases : Z).

Lemma dispatch_subscribing accepts cmd args h s c :
  client_id h = Some c → subscribing cmd = true →
  dispatch cluster databases accepts cmd args h s =
    let y := command_frames cmd c args s in
    let z := answer_frames (set_count cmd) y.2 h in (z.1, y.1, Ok z.2).
Proof.
  intros Hc Hs. unfold dispatch. assert (allowed_subscribed cmd = true) as -> by by destruct cmd. rewrite andb_false_r.
  destruct cmd; try done; unfold handle_subscribe, handle_unsubscribe, handle_psubscribe, handle_punsubscribe, handle_ssubscribe,
    handle_sunsubscribe, handle_frames; rewrite Hc; simpl;
    by match goal with |- context [let '(_, _) := ?y in _] => destruct y end.
Qed.

Lemma answer_client cmd frames h : client_id (answer_frames (set_count cmd) frames h).1 = client_id h.
Proof. unfold answer_frames. simpl. case_match; [|done]. unfold set_count. by case_match. Qed.

Lemma select_session args h :
  let h' := (handle_select cluster databases args h).1 in
  client_id h' = client_id h ∧ pubsub_subscriptions h' = pubsub_subscriptions h ∧ shard_subscriptions h' = shard_subscriptions h.
Proof. unfold handle_select. repeat (case_match; try done). Qed.

(** The other commands leave the tables alone. *)
Lemma dispatch_other accepts cmd args h s c :
  client_id h = Some c → subscribing cmd = false →
  let y := dispatch cluster databases accepts cmd args h s in
  client_id y.1.1 = Some c ∧ untouched s y.1.2 ∧
  (cmd ≠ Reset → pubsub_subscriptions y.1.1 = pubsub_subscriptions h ∧ shard_subscriptions y.1.1 = shard_subscriptions h).
Proof.
  intros Hc Hs. unfold dispatch. destruct (in_pubsub_mode h && _); [done|]. destruct cmd; try done.
  - simpl. by rewrite Hc.
  - pose proof (publish_untouched (selected_db h) accepts args s). by destruct (cmd_publish _ _ _ _).
  - pose proof (spublish_untouched (selected_db h) accepts args s). by destruct (cmd_spublish _ _ _ _).
  - unfold cmd_pubsub. repeat (case_match; try done); by simplify_eq.
  - destruct (select_session args h) as (H1 & H2 & H3). destruct (handle_select _ _ _ _) as [h' r]. simpl in *. by rewrite H1.
Qed.

Lemma dispatch_related accepts cmd args h s c S :
  client_id h = Some c → related (pubsub s) S →
  let y := dispatch cluster databases accepts cmd args h s in
  client_id y.1.1 = Some c ∧ related (pubsub y.1.2) (spec_command cmd c args S).1 ∧ registry (pubsub y.1.2) = registry (pubsub s).
Proof.
  intros Hc HS. destruct (subscribing cmd) eqn:Hs.
  - rewrite (dispatch_subscribing accepts cmd args h s c Hc Hs). cbn [fst snd]. rewrite answer_client. split_and!; [done| |apply command_registry].
    by apply command_refines.
  - destruct (dispatch_other accepts cmd args h s c Hc Hs) as (H1 & [H2 H3] & _). split_and!; [done| |done].
    assert (spec_command cmd c args S = (S, [])) as -> by by destruct cmd. by apply (related_tables (pubsub s)).
Qed.

(** ** The machine *)

Record host_related (x : Host) (X : Spec) : Prop := {
  hr_subs : related (pubsub (server x)) (spec_subs X);
  hr_registry : registry (pubsub (server x)) = (spec_clients X, spec_next X);
  hr_sessions : dom (sessions x) = spec_clients X;
  hr_ids : ∀ c h, sessions x !! c = Some h → client_id h = Some c
}.

Lemma host_related_new max_memory max_message : host_related (host_new max_memory max_message) spec_new.
Proof. split; [apply related_new|done..]. Qed.

Lemma hr_session x X c : host_related x X →
  (∃ h, sessions x !! c = Some h ∧ client_id h = Some c ∧ c ∈ spec_clients X) ∨ (sessions x !! c = None ∧ c ∉ spec_clients X).
Proof.
  intros [_ _ H1 H2]. rewrite <- H1. destruct (sessions x !! c) as [h|] eqn:E; [left|right].
  - exists h. split_and!; [done|by apply H2|by apply elem_of_dom; eexists].
  - by apply not_elem_of_dom in E.
Qed.

Lemma host_related_server x X s : host_related x X → untouched (server x) s → host_related (mkHost s (sessions x)) X.
Proof. intros [H1 H2 H3 H4] [H5 H6]. split; simpl; [by apply (related_tables (pubsub (server x)))|by rewrite H6|done..]. Qed.

Lemma host_related_session x X c h : host_related x X → is_Some (sessions x !! c) → client_id h = Some c →
  host_related (mkHost (server x) (<[c := h]> (sessions x))) X.
Proof.
  intros [H1 H2 H3 H4] Hx Hc. split; simpl; [done..| |].
  - rewrite dom_insert_L, H3. apply elem_of_dom in Hx. set_solver.
  - intros c' h'. rewrite lookup_insert. case_decide; [by intros [= <-]; subst|apply H4].
Qed.

Lemma unregister_tables c p :
  tables (unregister_client c p).1 =
    let p' := (sunsubscribe_all c (punsubscribe_all c (unsubscribe_all c p).1).1).1 in tables p'.
Proof. done. Qed.

Lemma disconnect_related x X c : host_related x X →
  host_related (disconnect c x) (mkSpec (spec_next X) (spec_clients X ∖ {[c]}) (forget_all c (spec_subs X))).
Proof.
  intros [H1 H2 H3 H4]. unfold disconnect, unregister_pubsub_client.
  pose proof (unregister_tables c (pubsub (server x))) as Ht.
  assert (Hr : registry (unregister_client c (pubsub (server x))).1 = (clients (pubsub (server x)) ∖ {[c]}, next_client_id (pubsub (server x)))) by done.
  destruct (unregister_client c (pubsub (server x))) as [p pending]. cbn [fst] in *. split; cbn [server sessions spec_subs spec_next spec_clients].
  - rewrite release_pubsub. simpl. apply (related_tables _ _ _ Ht). simpl.
    pose proof (proj1 (unsubscribe_all_refines c _ _ H1)) as Ha. pose proof (proj1 (punsubscribe_all_refines c _ _ Ha)) as Hb.
    exact (proj1 (sunsubscribe_all_refines c _ _ Hb)).
  - rewrite release_pubsub. simpl. rewrite Hr. unfold registry in H2. by injection H2 as -> ->.
  - by rewrite dom_delete_L, H3.
  - intros c' h. rewrite lookup_delete. case_decide; [done|apply H4].
Qed.

Lemma host_step_related x X e : host_related x X → host_related (host_step cluster databases x e) (spec_step X e).
Proof.
  intros H. pose proof H as [H1 H2 H3 H4]. destruct e as [|c cmd args accepts|c proto|c|c n|c|capacity|db op]; cbn [host_step spec_step].
  - injection H2 as E1 E2. unfold register_client. split; cbn [server sessions spec_subs spec_next spec_clients].
    + by apply (related_tables (pubsub (server x))).
    + unfold registry. simpl. by rewrite E1, E2.
    + by rewrite dom_insert_L, H3, E2.
    + intros c h. rewrite lookup_insert. case_decide; [by intros [= <-]; subst|apply H4].
  - destruct (hr_session x X c H) as [(h & -> & Hc & Hin)|[-> Hin]]; [rewrite decide_True by done|by rewrite decide_False].
    destruct (dispatch_related accepts cmd args h (server x) c _ Hc H1) as (Hd1 & Hd2 & Hd3).
    destruct (dispatch _ _ _ _ _ _ _) as [[h' s'] r]. cbn [fst snd] in *. split; cbn [server sessions spec_subs spec_next spec_clients]; [done|by rewrite Hd3| |].
    + rewrite dom_insert_L, H3. set_solver.
    + intros c' h''. rewrite lookup_insert. case_decide; [by intros [= <-]; subst|apply H4].
  - destruct (hr_session x X c H) as [(h & E & Hc & Hin)|[-> _]]; [rewrite E|done]. simpl. rewrite Hc.
    apply (host_related_session (mkHost _ (sessions x)) X c); [|by exists h|done]. by apply host_related_server.
  - destruct (sessions x !! c) as [h|]; [|done]. case_match; [|done]. apply host_related_server; [done|apply note_delivered_untouched].
  - destruct (sessions x !! c) as [h|]; [|done]. case_match; [|done]. pose proof (note_lagged_untouched 0 c n (server x)) as Hl.
    destruct (note_lagged c n _). by apply host_related_server.
  - destruct (hr_session x X c H) as [(h & -> & Hc & Hin)|[-> Hin]]; [rewrite decide_True by done|by rewrite decide_False].
    by apply disconnect_related.
  - by apply host_related_server.
  - by apply host_related_server.
Qed.

Lemma host_run_related x X events : host_related x X → host_related (host_run cluster databases x events) (spec_run X events).
Proof. revert x X. induction events as [|e events IH]; intros x X H; [done|]. apply IH. by apply host_step_related. Qed.

End host.

(** ** Subscribed mode

    The counts a session keeps against the subscriptions its client has. *)

Implicit Types (args frames : list RespValue).

(** ** Counts *)

Definition count_for (cmd : Command) (c : Z) (S : Subs) : Z := if sharded cmd then shard_count c S else plain_count c S.

Definition bulks (args : list RespValue) : bool := forallb (λ a, bool_decide (is_Some (as_bulk_string a))) args.

(** A command touches the subscriptions of its client, and of one kind. *)
Record touches (cmd : Command) (c : Z) (S S' : Subs) : Prop := {
  same_shards : sharded cmd = false → on_shard S' = on_shard S;
  same_plain : sharded cmd = true → on_channel S' = on_channel S ∧ on_pattern S' = on_pattern S;
  same_others : ∀ c', c' ≠ c → plain_count c' S' = plain_count c' S ∧ shard_count c' S' = shard_count c' S
}.

Lemma touches_refl cmd c S : touches cmd c S S.
Proof. by split. Qed.

Lemma touches_trans cmd c S1 S2 S3 : touches cmd c S1 S2 → touches cmd c S2 S3 → touches cmd c S1 S3.
Proof.
  intros [A1 A2 A3] [B1 B2 B3]. split.
  - intros E. rewrite B1, A1; done.
  - intros E. destruct (A2 E), (B2 E). split; congruence.
  - intros c' Hc. destruct (A3 c' Hc), (B3 c' Hc). split; congruence.
Qed.

Lemma names_in_add c' c (n : Bytes) (s : Pairs) : c' ≠ c → names_in c' ({[(c, n)]} ∪ s) = names_in c' s.
Proof. intros Hc. apply set_eq. intros m. rewrite !elem_of_names_in. set_solver. Qed.
Lemma names_in_remove c' c (n : Bytes) (s : Pairs) : c' ≠ c → names_in c' (s ∖ {[(c, n)]}) = names_in c' s.
Proof. intros Hc. apply set_eq. intros m. rewrite !elem_of_names_in. set_solver. Qed.
Lemma names_in_forget_ne c' c (s : Pairs) : c' ≠ c → names_in c' (forget c s) = names_in c' s.
Proof. intros Hc. apply set_eq. intros m. rewrite !elem_of_names_in, elem_of_forget. set_solver. Qed.

Ltac touch :=
  split; [done|done|]; intros ? ?; unfold plain_count, shard_count; simpl;
  rewrite ?names_in_add, ?names_in_remove, ?names_in_forget_ne by done; done.

Lemma names_positive c (s : Pairs) : 0 < Z.of_nat (size (names_in c s)) ↔ ∃ n, (c, n) ∈ s.
Proof.
  setoid_rewrite <- elem_of_names_in. split.
  - intros H. apply set_choose_L. intros E. rewrite E, size_empty in H. lia.
  - intros [n Hn]. assert (size (names_in c s) ≠ 0%nat); [|lia]. intros E%size_empty_inv. set_solver.
Qed.

Lemma counts_positive c S :
  0 < plain_count c S ∨ 0 < shard_count c S ↔ ∃ n, (c, n) ∈ on_channel S ∪ on_pattern S ∪ on_shard S.
Proof.
  unfold plain_count, shard_count. setoid_rewrite elem_of_union. setoid_rewrite elem_of_union.
  pose proof (names_positive c (on_channel S)). pose proof (names_positive c (on_pattern S)). pose proof (names_positive c (on_shard S)).
  assert (∀ a b : nat, 0 < Z.of_nat a + Z.of_nat b ↔ 0 < Z.of_nat a ∨ 0 < Z.of_nat b) as -> by lia. naive_solver.
Qed.

Section mode.
Context {FO : FanOut} {FL : FanOutLaws} {UP : Uppercase} (cluster : bool) (databases : Z).

(** ** The last confirmation *)

Lemma confirm_last (verb invalid : Str) (op : Bytes → Subs → Subs * Z) cmd c args S :
  (∀ n S, (op n S).2 = count_for cmd c (op n S).1 ∧ touches cmd c S (op n S).1) → args ≠ [] → bulks args = true →
  let y := confirm_each verb invalid op args S in
  (∃ n, last y.2 = Some (confirmation verb (Some n) (count_for cmd c y.1))) ∧ touches cmd c S y.1.
Proof.
  intros Hop. revert S. induction args as [|arg args IH]; intros S Hne Hb; [done|]. cbn [bulks forallb] in Hb.
  apply andb_true_iff in Hb as [[n Hn]%bool_decide_eq_true Hb]. cbn [confirm_each]. rewrite Hn.
  destruct (Hop n S) as [H1 H2]. destruct (op n S) as [S1 k]. simpl in H1, H2. destruct args as [|arg' args].
  - simpl. rewrite H1. split; [by exists n|done].
  - destruct (IH S1 ltac:(done) Hb) as [[m Hm] Ht]. destruct (confirm_each _ _ op (arg' :: args) S1) as [S2 frames]. simpl in *.
    rewrite last_cons, Hm. split; [by exists m|]. by eapply touches_trans.
Qed.

Lemma forget_last (verb : Str) (x : gset Bytes) (k : Z) : ∃ name, last (spec_forget verb x k) = Some (confirmation verb name k).
Proof.
  unfold spec_forget. case_decide as E; [by eexists|]. rewrite <- names_of_nil in E. rewrite fmap_last.
  destruct (names_of x) as [|n l] using rev_ind; [done|]. rewrite last_snoc. by eexists.
Qed.

(** The last frame of a subscription command carries the client's count, or the command was refused. *)
Lemma spec_command_last cmd c args S :
  subscribing cmd = true → bulks args = true →
  let y := spec_command cmd c args S in
  (y.1 = S ∧ pubsub_count_from_frame (last y.2) = None ∨
   ∃ verb name, last y.2 = Some (confirmation verb name (count_for cmd c y.1))) ∧ touches cmd c S y.1.
Proof.
  intros Hs Hb.
  assert (Hconfirm : ∀ verb invalid op, (∀ n S, (op n S).2 = count_for cmd c (op n S).1 ∧ touches cmd c S (op n S).1) → args ≠ [] →
    let y := confirm_each verb invalid op args S in
    (y.1 = S ∧ pubsub_count_from_frame (last y.2) = None ∨ ∃ verb name, last y.2 = Some (confirmation verb name (count_for cmd c y.1))) ∧
    touches cmd c S y.1).
  { intros verb invalid op Hop Hne. destruct (confirm_last verb invalid op cmd c args S Hop Hne Hb) as [[n Hn] Ht].
    split; [right; by eexists _, _|done]. }
  destruct cmd; try done; simpl; case_decide as E;
    first [split; [by left|apply touches_refl] | apply Hconfirm; [intros n S'; split; [done|touch]|done] | split; [right; eexists; apply forget_last|touch]].
Qed.

(** ** Sessions *)

Lemma push_count h frames : pubsub_count_from_frame (last (maybe_pubsub_push_frames h frames)) = pubsub_count_from_frame (last frames).
Proof. unfold maybe_pubsub_push_frames. case_match; [done|]. rewrite fmap_last. by destruct (last frames) as [[]|]. Qed.

Lemma wrap_u64_i64 n : wrap_u64 (wrap_i64 n) = wrap_u64 n.
Proof.
  unfold wrap_u64, wrap_i64. rewrite Z.add_mod_idemp_l by done. f_equal. lia.
Qed.

Definition counts_ok (h : Session) (c : Z) (S : Subs) : Prop :=
  pubsub_subscriptions h = wrap_u64 (plain_count c S) ∧ shard_subscriptions h = wrap_u64 (shard_count c S).

Lemma answer_counts cmd c frames h S S' :
  counts_ok h c S → touches cmd c S S' →
  (S' = S ∧ pubsub_count_from_frame (last frames) = None ∨
   ∃ verb name, last frames = Some (confirmation verb name (count_for cmd c S'))) →
  counts_ok (answer_frames (set_count cmd) frames h).1 c S'.
Proof.
  intros [H1 H2] [T1 T2 _] Hf. unfold answer_frames. cbn [fst]. rewrite push_count.
  destruct Hf as [[-> ->]|(verb & name & ->)]; [done|]. simpl. rewrite wrap_u64_i64. unfold set_count, count_for, counts_ok.
  destruct (sharded cmd); simpl.
  - destruct (T2 eq_refl) as [E1 E2]. split; [|done]. rewrite H1. unfold plain_count. by rewrite E1, E2.
  - split; [done|]. rewrite H2. unfold shard_count. by rewrite (T1 eq_refl).
Qed.

(** ** Runs *)

(** Requests whose arguments are bulk strings, without RESET and without SUNSUBSCRIBE of everything. *)
Definition clean (e : Event) : bool :=
  match e with
  | Request _ cmd args _ => bulks args && match cmd with Reset => false | Sunsubscribe => negb (bool_decide (args = [])) | _ => true end
  | _ => true
  end.

Record modes (x : Host) (X : Spec) (bound : Z) : Prop := {
  mode_related : host_related x X;
  mode_ids : ∀ c, c ∈ spec_clients X → 0 ≤ c < spec_next X;
  mode_next : 0 ≤ spec_next X ≤ bound;
  mode_owners : ∀ c, c ∉ spec_clients X → plain_count c (spec_subs X) = 0 ∧ shard_count c (spec_subs X) = 0;
  mode_counts : ∀ c h, sessions x !! c = Some h → counts_ok h c (spec_subs X)
}.

Lemma modes_new max_memory max_message : modes (host_new max_memory max_message) spec_new 0.
Proof. split; [apply host_related_new|set_solver|done|done|done]. Qed.

Lemma request_modes x X bound c cmd args accepts :
  modes x X bound → clean (Request c cmd args accepts) = true →
  modes (host_step cluster databases x (Request c cmd args accepts)) (spec_step X (Request c cmd args accepts)) bound.
Proof.
  intros [H1 H2 H3 H4 H5] Hcl. pose proof (host_step_related cluster databases x X (Request c cmd args accepts) H1) as Hr.
  cbn [host_step spec_step] in *. destruct (hr_session x X c H1) as [(h & E & Hc & Hin)|[E Hin]]; rewrite E in *;
    [rewrite decide_True in * by done|rewrite decide_False in * by done; done].
  simpl in Hcl. apply andb_true_iff in Hcl as [Hb Hcmd].
  assert (touches cmd c (spec_subs X) (spec_command cmd c args (spec_subs X)).1 ∧
    counts_ok (dispatch cluster databases accepts cmd args h (server x)).1.1 c (spec_command cmd c args (spec_subs X)).1) as [Ht Hn].
  { destruct (subscribing cmd) eqn:Hs.
    - destruct (spec_command_last cmd c args (spec_subs X) Hs Hb) as [Hl Ht]. split; [done|].
      rewrite (dispatch_subscribing cluster databases accepts cmd args h _ c Hc Hs). cbn [fst].
      apply (answer_counts cmd c _ h (spec_subs X)); [by apply H5|done|].
      destruct (command_refines cmd c args _ _ (hr_subs _ _ H1)) as [_ ->]; [done|]. intros [= -> ->]. done.
    - assert (spec_command cmd c args (spec_subs X) = (spec_subs X, [])) as -> by by destruct cmd. split; [apply touches_refl|].
      destruct (dispatch_other cluster databases accepts cmd args h (server x) c Hc Hs) as (_ & _ & Hk).
      destruct Hk as [Hk1 Hk2]; [by intros ->|]. unfold counts_ok. rewrite Hk1, Hk2. by apply H5. }
  destruct (dispatch _ _ _ _ _ _ _) as [[h' s'] r]. simpl in Hn. split; simpl; [done..| |].
  - intros c' Hc'. destruct (same_others _ _ _ _ Ht c') as [-> ->]; [set_solver|by apply H4].
  - intros c' h''. rewrite lookup_insert. case_decide as Ec; [intros [= <-]; by subst|].
    intros Hh. destruct (same_others _ _ _ _ Ht c') as [Eq1 Eq2]; [done|]. unfold counts_ok. rewrite Eq1, Eq2. by apply H5.
Qed.

Lemma forget_counts c c' S :
  plain_count c' (forget_all c S) = (if decide (c' = c) then 0 else plain_count c' S) ∧
  shard_count c' (forget_all c S) = (if decide (c' = c) then 0 else shard_count c' S).
Proof.
  unfold plain_count, shard_count, forget_all. simpl. case_decide; [subst; by rewrite !names_in_forget|by rewrite !names_in_forget_ne].
Qed.

Lemma step_modes x X bound e :
  modes x X bound → bound < u64_max → clean e = true → modes (host_step cluster databases x e) (spec_step X e) (bound + 1).
Proof.
  intros H Hb Hcl. pose proof H as [H1 H2 H3 H4 H5]. pose proof (host_step_related cluster databases x X e H1) as Hr.
  destruct e as [|c cmd args accepts|c proto|c|c n|c|capacity|db op].
  - pose proof (hr_registry _ _ H1) as [= E1 E2].
    assert (Hw : wrap_u64 (spec_next X + 1) = spec_next X + 1) by (apply wrap_u64_id; lia).
    split; [done|..]; cbn [spec_step spec_clients spec_next spec_subs]; rewrite ?Hw.
    + intros c Hc. destruct (decide (c = spec_next X)); [lia|]. assert (0 ≤ c < spec_next X) by (apply H2; set_solver). lia.
    + lia.
    + intros c Hc. apply H4. set_solver.
    + cbn [host_step]. unfold register_client. simpl. rewrite E2. intros c h. rewrite lookup_insert. case_decide as Ec; [|by apply H5].
      intros [= <-]. subst c. unfold counts_ok. destruct (H4 (spec_next X)) as [-> ->]; [|done]. intros Hin%H2. lia.
  - destruct (request_modes x X bound c cmd args accepts H Hcl) as [? ? ? ? ?]. split; [done..|lia|done|done].
  - split; [done..|simpl; lia|done|]. cbn [host_step spec_step]. destruct (sessions x !! c) as [h|] eqn:E; [|done]. simpl.
    intros c' h'. rewrite lookup_insert. case_decide; [intros [= <-]; subst c'; by apply (H5 c h)|apply H5].
  - split; [done..|simpl; lia|done|]. cbn [host_step]. repeat (case_match; try done).
  - split; [done..|simpl; lia|done|]. cbn [host_step]. destruct (sessions x !! c); [|done]. case_match; [|done]. by destruct (note_lagged _ _ _).
  - cbn [host_step spec_step] in *. destruct (hr_session x X c H1) as [(h & E & Hc & Hin)|[E Hin]]; rewrite E in *;
      [rewrite decide_True in * by done|rewrite decide_False in * by done; split; [done..|lia|done|done]].
    split; simpl; [done|set_solver|lia|..].
    + intros c' Hc'. destruct (forget_counts c c' (spec_subs X)) as [-> ->]. case_decide; [done|]. apply H4. set_solver.
    + intros c' h'. rewrite lookup_delete. case_decide; [done|]. intros Hh. unfold counts_ok.
      destruct (forget_counts c c' (spec_subs X)) as [-> ->]. rewrite !decide_False by done. by apply H5.
  - split; [done..|simpl; lia|done|done].
  - split; [done..|simpl; lia|done|done].
Qed.

Lemma run_modes x X bound events :
  modes x X bound → bound + zlen events ≤ u64_max → forallb clean events = true →
  modes (host_run cluster databases x events) (spec_run X events) (bound + zlen events).
Proof.
  revert x X bound. induction events as [|e events IH]; intros x X bound H Hb Hcl; cbn [forallb length] in *; [by rewrite Z.add_0_r|].
  apply andb_true_iff in Hcl as [He Hcl]. rewrite Nat2Z.inj_succ in *.
  replace (bound + Z.succ (zlen events)) with (bound + 1 + zlen events) by lia. apply IH; [|lia|done]. apply step_modes; [done|lia|done].
Qed.

End mode.
