(* ===== verification/PubSubMemory.v ===== *)
(** * Memory of pending messages

    The Pub/Sub counter of database 0 against the sizes that wait in the queues. *)

From S2P Require Import Prelude RustStd Errors Resp Reply Text Memory ChannelGlob PubSub PubSubCommands PubSubFacts PubSubSim.
From Stdlib Require Import Lia.
Local Open Scope Z_scope.

Implicit Types (c client size : Z) (p : PubSub) (s : Server) (q : list Z) (m : gmap Z (list Z)).

(** ** Queues *)

Definition sumZ (q : list Z) : Z := foldr Z.add 0 q.
Definition bytes_of (m : gmap Z (list Z)) : Z := map_fold (λ _ q total, sumZ q + total) 0 m.
Definition sizes_ok (m : gmap Z (list Z)) : Prop := map_Forall (λ _ q, Forall (λ v, 0 ≤ v) q) m.

(** The bytes that wait, exactly. *)
Definition pending_bytes (p : PubSub) : Z := bytes_of (pending_by_client p).

Lemma sumZ_app q q' : sumZ (q ++ q') = sumZ q + sumZ q'.
Proof. induction q as [|v q IH]; [done|]. simpl. rewrite IH. lia. Qed.

Lemma sumZ_pos q : Forall (λ v, 0 ≤ v) q → 0 ≤ sumZ q.
Proof. induction 1; simpl; lia. Qed.

Lemma bytes_of_delete c m : bytes_of m = sumZ (default [] (m !! c)) + bytes_of (delete c m).
Proof.
  destruct (m !! c) as [q|] eqn:E; simpl; [|by rewrite delete_id].
  unfold bytes_of. rewrite (map_fold_delete_L _ _ c q m); [done| |done]. intros. lia.
Qed.

Lemma bytes_of_insert c q m : bytes_of (<[c := q]> m) = bytes_of m - sumZ (default [] (m !! c)) + sumZ q.
Proof.
  rewrite (bytes_of_delete c m), (bytes_of_delete c (<[c := q]> m)), lookup_insert_eq, delete_insert_eq. simpl. lia.
Qed.

Lemma bytes_of_shorten c q m : bytes_of (shorten c q m) = bytes_of m - sumZ (default [] (m !! c)) + sumZ q.
Proof.
  unfold shorten. case_decide as E; [|apply bytes_of_insert]. subst. rewrite (bytes_of_delete c m). simpl. lia.
Qed.

Lemma sizes_ok_lookup c m : sizes_ok m → Forall (λ v, 0 ≤ v) (default [] (m !! c)).
Proof. intros H. destruct (m !! c) as [q|] eqn:E; simpl; [by apply (H c)|constructor]. Qed.

Lemma sizes_ok_insert c q m : sizes_ok m → Forall (λ v, 0 ≤ v) q → sizes_ok (<[c := q]> m).
Proof. intros H Hq. by apply map_Forall_insert_2. Qed.

Lemma sizes_ok_delete c m : sizes_ok m → sizes_ok (delete c m).
Proof. apply map_Forall_delete. Qed.

Lemma sizes_ok_shorten c q m : sizes_ok m → Forall (λ v, 0 ≤ v) q → sizes_ok (shorten c q m).
Proof. intros. unfold shorten. case_decide; [by apply sizes_ok_delete|by apply sizes_ok_insert]. Qed.

Lemma bytes_of_pos m : sizes_ok m → 0 ≤ bytes_of m.
Proof.
  unfold bytes_of. induction m as [|c q m Hc _ IH] using map_first_key_ind; [done|]. intros H.
  rewrite map_fold_insert_L; [|intros; lia|done]. pose proof (sumZ_pos q (H c q (lookup_insert_eq _ _ _))).
  apply map_Forall_insert_1_2 in H; [|done]. specialize (IH H). lia.
Qed.

Lemma sum_sizes_exact q : Forall (λ v, 0 ≤ v) q → sumZ q ≤ u64_max → sum_sizes q = sumZ q.
Proof.
  induction 1 as [|v q Hv Hq IH]; simpl; [done|]. intros Hb. pose proof (sumZ_pos q Hq). fold (sumZ q) in *.
  rewrite IH by lia. apply wrap_u64_id. lia.
Qed.

(** ** Taking messages *)

(** Only registered clients have a queue. *)
Definition owned (p : PubSub) : Prop := dom (pending_by_client p) ⊆ clients p.

Lemma dom_shorten c q q' m : m !! c = Some q' → dom (shorten c q m) ⊆ dom m.
Proof. intros E%elem_of_dom_2. unfold shorten. case_decide; [rewrite dom_delete_L|rewrite dom_insert_L]; set_solver. Qed.

(** What a client's queue loses is what it reports. *)
Definition gives_back (p p' : PubSub) (n : Z) : Prop :=
  sizes_ok (pending_by_client p') ∧ pending_bytes p' = pending_bytes p - n ∧ 0 ≤ n ∧
  (owned p → owned p').

Lemma note_delivered_bytes c p : sizes_ok (pending_by_client p) → gives_back p (note_delivered c p).1 (note_delivered c p).2.
Proof.
  intros H. pose proof (sizes_ok_lookup c _ H) as Hq. unfold note_delivered, gives_back, pending_bytes.
  destruct (pending_by_client p !! c) as [q|] eqn:E; [|simpl; split_and!; [done|lia|lia|done]]. simpl in *.
  assert (Ht : Forall (λ v, 0 ≤ v) (tail q)) by by destruct q; [|inversion Hq].
  split_and!; [by apply sizes_ok_shorten| |destruct q; [done|by inversion Hq]|].
  - rewrite bytes_of_shorten, E. destruct q; simpl; lia.
  - unfold owned. simpl. intros Ho. etransitivity; [by eapply dom_shorten|done].
Qed.

Lemma note_lagged_bytes c n p :
  sizes_ok (pending_by_client p) → pending_bytes p ≤ u64_max → gives_back p (note_lagged c n p).1 (note_lagged c n p).2.
Proof.
  intros H Hb. pose proof (sizes_ok_lookup c _ H) as Hq. unfold note_lagged, gives_back, pending_bytes in *.
  destruct (n =? 0); [simpl; split_and!; [done|lia|lia|done]|].
  destruct (pending_by_client p !! c) as [q|] eqn:E; [|simpl; split_and!; [done|lia|lia|done]]. simpl in *.
  set (k := Z.to_nat _). pose proof (take_drop k q) as Es. rewrite <- Es in Hq. apply Forall_app in Hq as [Hq1 Hq2].
  pose proof (f_equal sumZ Es) as Ez. rewrite sumZ_app in Ez. pose proof (sumZ_pos _ Hq1). pose proof (sumZ_pos _ Hq2).
  assert (sumZ q ≤ bytes_of (pending_by_client p)).
  { rewrite (bytes_of_delete c), E. simpl. pose proof (bytes_of_pos _ (sizes_ok_delete c _ H)). lia. }
  assert (foldl (λ freed size, sat_add_u64 freed size) 0 (take k q) = sumZ (take k q)) as ->.
  { etransitivity; [apply (sat_fold (take k q) 0); [done|done|unfold sumZ in *; lia]|done]. }
  split_and!; [by apply sizes_ok_shorten| |lia|].
  - rewrite bytes_of_shorten, E. simpl. lia.
  - unfold owned. simpl. intros Ho. etransitivity; [by eapply dom_shorten|done].
Qed.

Lemma unregister_bytes {FO : FanOut} c p :
  sizes_ok (pending_by_client p) → pending_bytes p ≤ u64_max → gives_back p (unregister_client c p).1 (unregister_client c p).2.
Proof.
  intros H Hb. pose proof (sizes_ok_lookup c _ H) as Hq. unfold gives_back, pending_bytes in *. simpl.
  pose proof (bytes_of_delete c (pending_by_client p)) as E. pose proof (bytes_of_pos _ (sizes_ok_delete c _ H)).
  pose proof (sumZ_pos _ Hq). split; [by apply sizes_ok_delete|]. rewrite assoc by apply _. split.
  - destruct (pending_by_client p !! c) as [q|]; simpl in *; [rewrite sum_sizes_exact by (done || lia)|]; lia.
  - unfold owned. simpl. rewrite dom_delete_L. set_solver.
Qed.

(** ** Enqueueing *)

Lemma make_room_bytes capacity q overwritten dropped :
  Forall (λ v, 0 ≤ v) q → 0 ≤ overwritten → overwritten + sumZ q ≤ u64_max →
  let y := make_room capacity q overwritten dropped in
  Forall (λ v, 0 ≤ v) y.1.1 ∧ sumZ y.1.1 + y.1.2 = sumZ q + overwritten ∧ overwritten ≤ y.1.2.
Proof.
  intros Hq. revert overwritten dropped. induction Hq as [|v q Hv Hq IH]; intros overwritten dropped Ho Hb; [simpl; split_and!; [constructor|lia..]|].
  pose proof (sumZ_pos q Hq). cbn [make_room]. simpl in Hb. fold (sumZ q) in Hb. case_match.
  - assert (sat_add_u64 overwritten v = overwritten + v) as -> by (unfold sat_add_u64; lia).
    destruct (IH (overwritten + v) (sat_add_u64 dropped 1)) as (H1 & H2 & H3); [lia|lia|]. split_and!; [done|simpl; fold (sumZ q); lia|lia].
  - simpl. split_and!; [by constructor|lia|lia].
Qed.

Lemma enqueue_all_bytes capacity size delivered m enqueued overwritten dropped :
  sizes_ok m → 0 ≤ size → 0 ≤ enqueued → 0 ≤ overwritten →
  enqueued + size * zlen delivered ≤ u64_max → overwritten + bytes_of m + size * zlen delivered ≤ u64_max →
  let y := enqueue_all capacity size delivered m enqueued overwritten dropped in
  sizes_ok y.1.1.1 ∧ y.1.1.2 = enqueued + size * zlen delivered ∧
  bytes_of y.1.1.1 + y.1.2 = bytes_of m + overwritten + size * zlen delivered ∧ overwritten ≤ y.1.2.
Proof.
  revert m enqueued overwritten dropped. induction delivered as [|c delivered IH]; intros m enqueued overwritten dropped Hm Hs He Ho Hb1 Hb2;
    cbn [enqueue_all length] in *; [simpl; split_and!; [done|lia..]|].
  rewrite Nat2Z.inj_succ in *. pose proof (sizes_ok_lookup c m Hm) as Hq. pose proof (sumZ_pos _ Hq).
  pose proof (bytes_of_delete c m) as Ed. pose proof (bytes_of_pos _ (sizes_ok_delete c _ Hm)).
  destruct (make_room_bytes capacity _ overwritten dropped Hq Ho) as (H1 & H2 & H3); [nia|].
  destruct (make_room _ _ _ _) as [[q o] d]. simpl in H1, H2, H3.
  assert (sat_add_u64 enqueued size = enqueued + size) as -> by (unfold sat_add_u64; nia).
  assert (Hq' : Forall (λ v, 0 ≤ v) (q ++ [size])) by (apply Forall_app; split; [done|by repeat constructor]).
  assert (Eb : bytes_of (<[c := q ++ [size]]> m) = bytes_of m + overwritten - o + size).
  { rewrite bytes_of_insert, sumZ_app. simpl. lia. }
  destruct (IH (<[c := q ++ [size]]> m) (enqueued + size) o d) as (A & B & C & D); [by apply sizes_ok_insert|lia|lia|lia|lia|lia|].
  split_and!; [done|rewrite B; lia|rewrite C; lia|lia].
Qed.

Lemma enqueue_all_dom capacity size delivered m enqueued overwritten dropped c :
  c ∈ dom (enqueue_all capacity size delivered m enqueued overwritten dropped).1.1.1 → c ∈ dom m ∨ c ∈ delivered.
Proof.
  revert m enqueued overwritten dropped. induction delivered as [|c' delivered IH]; intros m enqueued overwritten dropped; cbn [enqueue_all]; [by left|].
  destruct (make_room _ _ _ _) as [[q o] d]. intros [H|H]%IH; [|right; by right]. rewrite dom_insert_L in H. set_solver.
Qed.

Lemma account_owned delivered size dropped p :
  owned p → (∀ c, c ∈ delivered → c ∈ clients p) → owned (account_deliveries delivered size dropped p).1.
Proof.
  unfold owned, account_deliveries. intros Ho Hd c. pose proof (enqueue_all_dom (client_buffer_capacity p) size delivered (pending_by_client p) 0 0 dropped c) as H.
  destruct (enqueue_all _ _ _ _ _ _ _) as [[[m e] o] d]. simpl in *. intros [Hc|Hc]%H; [by apply Ho|by apply Hd].
Qed.

Lemma account_bytes delivered size dropped p :
  sizes_ok (pending_by_client p) → 0 ≤ size → pending_bytes p + size * zlen delivered ≤ u64_max →
  let y := account_deliveries delivered size dropped p in
  sizes_ok (pending_by_client y.1) ∧ bytes_enqueued y.2 = size * zlen delivered ∧ 0 ≤ bytes_overwritten y.2 ∧
  pending_bytes y.1 = pending_bytes p + bytes_enqueued y.2 - bytes_overwritten y.2.
Proof.
  intros H Hs Hb. pose proof (bytes_of_pos _ H). unfold pending_bytes in *. unfold account_deliveries.
  destruct (enqueue_all_bytes (client_buffer_capacity p) size delivered (pending_by_client p) 0 0 dropped) as (A & B & C & D); [done|lia..|].
  destruct (enqueue_all _ _ _ _ _ _ _) as [[[m e] o] d]. simpl in *. split_and!; [done|lia..].
Qed.

(** ** Reserving *)

Section reserving.
Context {FO : FanOut} {FL : FanOutLaws}.

Lemma ids_of_length (x : gset Z) : length (ids_of x) = size x.
Proof. by rewrite ids_of_perm. Qed.

Lemma omap_length_le {A B : Type} (f : A → option B) (l : list A) : (length (omap f l) ≤ length l)%nat.
Proof. induction l as [|a l IH]; [done|]. cbn. cbn in IH. destruct (f a); cbn; lia. Qed.

Lemma sends_to_length p elements (x : gset Z) : (length (sends_to p elements x) ≤ size x)%nat.
Proof. unfold sends_to. etransitivity; [apply omap_length_le|]. by rewrite ids_of_length. Qed.

Definition deliveries (channel : Bytes) (l : list (Bytes * gset Z)) : Z :=
  foldr (λ x n, (if matches x.1 channel then Z.of_nat (size x.2) else 0) + n) 0 l.

Lemma deliveries_pos channel l : 0 ≤ deliveries channel l.
Proof. induction l as [|x l IH]; simpl; [done|]. case_match; lia. Qed.

Lemma estimate_fold channel l n : 0 ≤ n ≤ u64_max →
  foldl (λ count '(pattern, subscribers),
    if matches pattern channel then sat_add_u64 count (Z.of_nat (size (subscribers : gset Z))) else count) n l =
  Z.min (n + deliveries channel l) u64_max.
Proof.
  revert n. induction l as [|[pattern x] l IH]; intros n Hn; simpl; [lia|]. pose proof (deliveries_pos channel l).
  case_match; [|rewrite IH by done; f_equal; lia]. rewrite IH by (unfold sat_add_u64; lia). unfold sat_add_u64. lia.
Qed.

Lemma estimate_exact channel p :
  estimate_delivery_count channel p =
  Z.min (Z.of_nat (size (default ∅ (channels p !! channel))) + deliveries channel (table_iter (patterns p))) u64_max.
Proof.
  assert (0 ≤ u64_max) by done. unfold estimate_delivery_count. pose proof (deliveries_pos channel (table_iter (patterns p))).
  destruct (channels p !! channel) as [x|]; simpl; rewrite estimate_fold by (unfold sat_add_u64; lia); [unfold sat_add_u64; lia|].
  done.
Qed.

Lemma publish_sends_length channel message p :
  zlen (publish_sends channel message p) ≤ Z.of_nat (size (default ∅ (channels p !! channel))) + deliveries channel (table_iter (patterns p)).
Proof.
  unfold publish_sends. rewrite length_app, Nat2Z.inj_add. apply Z.add_le_mono.
  - destruct (channels p !! channel) as [x|]; simpl; [|lia].
    pose proof (sends_to_length p [bulk (bs "message"); bulk channel; bulk message] x). lia.
  - induction (table_iter (patterns p)) as [|[pattern x] l IH]; [done|]. cbn [mbind list_bind deliveries foldr fst snd].
    fold (deliveries channel l). rewrite length_app. case_match; [|simpl; lia].
    pose proof (sends_to_length p [bulk (bs "pmessage"); bulk pattern; bulk channel; bulk message] x). simpl in *. lia.
Qed.

Lemma delivered_of_length accepts sends : (length (delivered_of accepts sends) ≤ length sends)%nat.
Proof. unfold delivered_of. rewrite length_fmap. apply length_filter. Qed.

Lemma sat_mul_covers size n k : 0 ≤ size → 0 ≤ k ≤ n → sat_mul_u64 size (Z.max (Z.min n u64_max) 1) < u64_max → size * k ≤ sat_mul_u64 size (Z.max (Z.min n u64_max) 1).
Proof. unfold sat_mul_u64. intros Hs Hk Hc. destruct (decide (size = 0)); [subst; lia|]. assert (n < u64_max) by nia. nia. Qed.

Lemma publish_cost accepts channel message p :
  fanout_memory_cost channel (zlen message) p < u64_max →
  zlen message * zlen (delivered_of accepts (publish_sends channel message p)) ≤ fanout_memory_cost channel (zlen message) p.
Proof.
  unfold fanout_memory_cost. rewrite estimate_exact. intros Hc. apply sat_mul_covers; [lia| |done].
  pose proof (delivered_of_length accepts (publish_sends channel message p)). pose proof (publish_sends_length channel message p). lia.
Qed.

Lemma spublish_cost accepts channel message p :
  let cost := sat_mul_u64 (zlen message) (Z.max (num_shard_subscribers channel p) 1) in
  cost < u64_max → zlen message * zlen (delivered_of accepts (spublish_sends channel message p)) ≤ cost.
Proof.
  intros cost Hc. unfold cost, sat_mul_u64 in *. pose proof (delivered_of_length accepts (spublish_sends channel message p)) as H.
  assert (zlen (spublish_sends channel message p) ≤ num_shard_subscribers channel p).
  { unfold spublish_sends, num_shard_subscribers, subscribers_of. destruct (shard_channels p !! channel) as [x|]; [|done].
    pose proof (sends_to_length p [bulk (bs "smessage"); bulk channel; bulk message] x). lia. }
  nia.
Qed.

End reserving.

(** ** The counter *)

Definition counter (s : Server) : Z := counters (trackers s 0) CatPubSub.
Definition message_limit (s : Server) : Z := max_message_size (trackers s 0).

Lemma deallocate_counter t size : 0 ≤ size ≤ counters t CatPubSub →
  counters (deallocate t size CatPubSub) CatPubSub = counters t CatPubSub - size ∧ max_message_size (deallocate t size CatPubSub) = max_message_size t.
Proof.
  intros Hs. unfold deallocate. destruct (Z.eqb_spec size 0); [lia|]. simpl. unfold set_counter, sat_sub_u64. rewrite decide_True by done. lia.
Qed.

Lemma release_counter s size : 0 ≤ size ≤ counter s →
  counter (release_pubsub_memory 0 size s) = counter s - size ∧ message_limit (release_pubsub_memory 0 size s) = message_limit s.
Proof.
  unfold counter, message_limit, release_pubsub_memory. intros Hs. destruct (Z.ltb_spec 0 size); [|split; [lia|done]].
  simpl. by apply deallocate_counter.
Qed.

Lemma reserve_counter s s' cost : reserve 0 cost s = Some s' → 0 ≤ cost → 0 ≤ counter s → counter s + cost ≤ u64_max →
  cost ≤ message_limit s ∧ counter s' = counter s + cost ∧ message_limit s' = message_limit s.
Proof.
  unfold reserve, allocate, counter, message_limit. destruct (can_allocate _ _ _) eqn:E; [|done]. intros [= <-] Hc H0 Hb. simpl. split.
  - unfold can_allocate in E. destruct (Z.ltb_spec (max_message_size (trackers s 0)) cost); [done|lia].
  - unfold account. destruct (Z.eqb_spec cost 0); [split; [lia|done]|]. simpl. unfold set_counter. rewrite decide_True by done.
    split; [apply wrap_u64_id; lia|done].
Qed.

Lemma reserve_limit s s' cost : reserve 0 cost s = Some s' → cost ≤ message_limit s.
Proof.
  unfold reserve, allocate, message_limit. destruct (can_allocate _ _ _) eqn:E; [|done]. intros _.
  unfold can_allocate in E. destruct (Z.ltb_spec (max_message_size (trackers s 0)) cost); [done|lia].
Qed.

Lemma settle_counter s cost o :
  0 ≤ bytes_enqueued o ≤ cost → 0 ≤ bytes_overwritten o → cost - bytes_enqueued o + bytes_overwritten o ≤ counter s →
  counter (settle 0 cost o s) = counter s - (cost - bytes_enqueued o) - bytes_overwritten o ∧ message_limit (settle 0 cost o s) = message_limit s.
Proof.
  unfold counter, message_limit, settle. intros He Ho Hb. destruct (Z.ltb_spec (bytes_enqueued o) cost) as [Hl|Hl].
  - destruct (deallocate_counter (trackers s 0) (cost - bytes_enqueued o)) as [E1 E2]; [lia|].
    destruct (Z.ltb_spec 0 (bytes_overwritten o)); simpl; [|rewrite E1; split; [lia|done]].
    destruct (deallocate_counter (deallocate (trackers s 0) (cost - bytes_enqueued o) CatPubSub) (bytes_overwritten o)) as [E3 E4]; [lia|].
    rewrite E3, E4. split; [lia|done].
  - destruct (Z.ltb_spec 0 (bytes_overwritten o)); simpl; [|split; [lia|done]].
    destruct (deallocate_counter (trackers s 0) (bytes_overwritten o)) as [E3 E4]; [lia|]. rewrite E3. split; [lia|done].
Qed.

(** ** The server *)

(** The counter is what waits, at most [bound]; messages are at most [limit]. *)
Record charged (s : Server) (limit bound : Z) : Prop := {
  ch_sizes : sizes_ok (pending_by_client (pubsub s));
  ch_counter : counter s = pending_bytes (pubsub s);
  ch_owned : owned (pubsub s);
  ch_bound : pending_bytes (pubsub s) ≤ bound;
  ch_limit : message_limit s = limit
}.

Lemma charged_mono s limit bound bound' : charged s limit bound → bound ≤ bound' → charged s limit bound'.
Proof. intros [? ? ? ? ?] ?. split; [done..|lia|done]. Qed.

Lemma charged_same s s' limit bound :
  charged s limit bound → pending_by_client (pubsub s') = pending_by_client (pubsub s) → clients (pubsub s) ⊆ clients (pubsub s') →
  counter s' = counter s → message_limit s' = message_limit s → charged s' limit bound.
Proof.
  intros [H1 H2 Ho H3 H4] E1 Ec E2 E3. unfold pending_bytes, owned in *.
  split; unfold pending_bytes, owned; [by rewrite E1|by rewrite E1, E2|rewrite E1; set_solver|by rewrite E1|by rewrite E3].
Qed.

Lemma charged_release s limit bound p n :
  charged s limit bound → gives_back (pubsub s) p n → charged (release_pubsub_memory 0 n (set_pubsub s p)) limit bound.
Proof.
  intros [H1 H2 Ho H3 H4] (G1 & G2 & G3 & G4). pose proof (bytes_of_pos _ G1) as Hpos. fold (pending_bytes p) in Hpos.
  destruct (release_counter (set_pubsub s p) n) as [E1 E2]; [change (counter (set_pubsub s p)) with (counter s); lia|].
  change (counter (set_pubsub s p)) with (counter s) in E1. split; rewrite ?release_pubsub; simpl; [done|rewrite E1; lia|by apply G4|lia|by rewrite E2].
Qed.

(** Reserved, enqueued and settled, a message is charged for what it adds. *)
Lemma charged_publish s s2 s3 limit bound cost delivered size dropped :
  charged s limit bound → bound + limit ≤ u64_max → limit < u64_max → 0 ≤ size → 0 ≤ cost →
  (cost < u64_max → size * zlen delivered ≤ cost) → reserve 0 cost s = Some s2 → (∀ c, c ∈ delivered → c ∈ clients (pubsub s)) →
  let y := account_deliveries delivered size dropped (pubsub s) in
  pubsub s3 = y.1 → trackers s3 = trackers s2 → charged (settle 0 cost y.2 s3) limit (bound + limit).
Proof.
  intros [H1 H2 Ho H3 H4] Hb Hl Hs Hc Hcover Hr Hd y E1 E2. pose proof (bytes_of_pos _ H1) as Hpos. fold (pending_bytes (pubsub s)) in Hpos.
  pose proof (reserve_limit _ _ _ Hr) as Hcl. rewrite H4 in Hcl. specialize (Hcover ltac:(lia)).
  destruct (reserve_counter _ _ _ Hr) as (_ & R2 & R3); [lia..|].
  destruct (account_bytes delivered size dropped (pubsub s) H1 Hs) as (A1 & A2 & A3 & A4); [lia|]. fold y in A1, A2, A3, A4.
  pose proof (bytes_of_pos _ A1) as Hpos'. fold (pending_bytes y.1) in Hpos'.
  assert (Ec : counter s3 = counter s + cost) by (unfold counter in *; by rewrite E2).
  assert (El : message_limit s3 = limit) by (unfold message_limit in *; rewrite E2; congruence).
  destruct (settle_counter s3 cost y.2) as [S1 S2]; [nia|lia|lia|].
  split; rewrite ?settle_pubsub, ?E1; [done|rewrite S1; lia|by apply account_owned|lia|by rewrite S2].
Qed.

Section charged.
Context {FO : FanOut} {FL : FanOutLaws}.

Lemma fanout_cost_pos (channel message : Bytes) p : 0 ≤ fanout_memory_cost channel (zlen message) p.
Proof. unfold fanout_memory_cost, sat_mul_u64. assert (0 ≤ u64_max) by done. nia. Qed.

Lemma sends_to_clients p elements (x : gset Z) c f : (c, f) ∈ sends_to p elements x → c ∈ clients p.
Proof. unfold sends_to. intros (c' & _ & E)%list_elem_of_omap. by case_decide; simplify_eq. Qed.

Lemma delivered_clients accepts sends p c :
  (∀ c f, (c, f) ∈ sends → c ∈ clients p) → c ∈ delivered_of accepts sends → c ∈ clients p.
Proof. intros H. unfold delivered_of. intros ([c' f] & -> & [_ Hin]%list_elem_of_filter)%list_elem_of_fmap. by eapply H. Qed.

Lemma publish_sends_clients channel message p c f : (c, f) ∈ publish_sends channel message p → c ∈ clients p.
Proof.
  unfold publish_sends. intros [H|H]%elem_of_app.
  - destruct (channels p !! channel); [by eapply sends_to_clients|by apply not_elem_of_nil in H].
  - apply list_elem_of_bind in H as ([pattern x] & H & _). case_match; [by eapply sends_to_clients|by apply not_elem_of_nil in H].
Qed.

Lemma spublish_sends_clients channel message p c f : (c, f) ∈ spublish_sends channel message p → c ∈ clients p.
Proof.
  unfold spublish_sends. intros H. destruct (shard_channels p !! channel); [by eapply sends_to_clients|by apply not_elem_of_nil in H].
Qed.

Lemma charged_cmd_publish s limit bound accepts args :
  charged s limit bound → bound + limit ≤ u64_max → limit < u64_max → 0 ≤ limit →
  charged (cmd_publish 0 accepts args s).1 limit (bound + limit).
Proof.
  intros H Hb Hl H0. destruct (cmd_publish_cases 0 accepts args s) as [[r ->]|(channel & message & s2 & _ & _ & Hr & ->)].
  { apply (charged_mono _ _ bound); [|lia]. by apply (charged_same s). }
  cbn [fst]. eapply (charged_publish (count_stat stat_publish 1 s) s2); [by apply (charged_same s)|done..|lia|apply fanout_cost_pos|apply publish_cost|done| |done|done].
  intros c. apply delivered_clients, publish_sends_clients.
Qed.

Lemma charged_cmd_spublish s limit bound accepts args :
  charged s limit bound → bound + limit ≤ u64_max → limit < u64_max → 0 ≤ limit →
  charged (cmd_spublish 0 accepts args s).1 limit (bound + limit).
Proof.
  intros H Hb Hl H0. destruct (cmd_spublish_cases 0 accepts args s) as [[r ->]|(channel & message & s2 & _ & _ & Hr & ->)].
  { apply (charged_mono _ _ bound); [done|lia]. }
  cbn [fst]. eapply (charged_publish s s2); [done..|lia| |apply spublish_cost|done| |done|done].
  - unfold sat_mul_u64. assert (0 ≤ u64_max) by done. nia.
  - intros c. apply delivered_clients, spublish_sends_clients.
Qed.

(** ** Runs *)

Context {UP : Uppercase} (cluster : bool) (databases : Z).

(** Nobody selects another database, and what else charges the trackers leaves Pub/Sub alone. *)
Definition on_database_0 (e : Event) : Prop :=
  match e with
  | Request _ Select _ _ => False
  | OtherMemory db op => ∀ t, counters (op t) CatPubSub = counters t CatPubSub ∧ max_message_size (op t) = max_message_size t
  | _ => True
  end.

Record accounted (x : Host) (limit bound : Z) : Prop := {
  ac_charged : charged (server x) limit bound;
  ac_ids : ∀ c h, sessions x !! c = Some h → client_id h = Some c ∧ selected_db h = 0
}.

Lemma accounted_new max_memory limit : accounted (host_new max_memory limit) limit 0.
Proof. split; [|done]. by split. Qed.

Lemma answer_database cmd frames (h : Session) : selected_db (answer_frames (set_count cmd) frames h).1 = selected_db h.
Proof. unfold answer_frames. simpl. case_match; [|done]. unfold set_count. by case_match. Qed.

Lemma dispatch_accounted accepts cmd args (h : Session) s c limit bound :
  charged s limit bound → bound + limit ≤ u64_max → limit < u64_max → 0 ≤ limit → cmd ≠ Select →
  client_id h = Some c → selected_db h = 0 →
  let y := dispatch cluster databases accepts cmd args h s in
  charged y.1.2 limit (bound + limit) ∧ selected_db y.1.1 = 0.
Proof.
  intros H Hb Hl H0 Hsel Hc Hd. assert (Hm : charged s limit (bound + limit)) by (apply (charged_mono _ _ bound); [done|lia]).
  destruct (subscribing cmd) eqn:Hs.
  - rewrite (dispatch_subscribing cluster databases accepts cmd args h s c Hc Hs). cbn [fst snd]. rewrite answer_database.
    split; [|done]. destruct (command_view pending_by_client ltac:(done) ltac:(done) ltac:(done) cmd c args s) as [E1 E2].
    destruct (command_view clients ltac:(done) ltac:(done) ltac:(done) cmd c args s) as [E3 _].
    apply (charged_same s); [done|done|by rewrite E3|unfold counter; by rewrite E2|unfold message_limit; by rewrite E2].
  - unfold dispatch. destruct (in_pubsub_mode h && _); [done|]. destruct cmd; try done; rewrite ?Hd.
    + simpl. rewrite Hc. split; [|done]. by apply (charged_same s).
    + pose proof (charged_cmd_publish s limit bound accepts args H Hb Hl H0). by destruct (cmd_publish _ _ _ _).
    + pose proof (charged_cmd_spublish s limit bound accepts args H Hb Hl H0). by destruct (cmd_spublish _ _ _ _).
    + assert (charged (cmd_pubsub args s).1 limit (bound + limit)).
      { apply (charged_same s); [done|..]; unfold cmd_pubsub; repeat (case_match; try done). }
      by destruct (cmd_pubsub args s).
Qed.

Lemma step_accounted x limit bound e :
  accounted x limit bound → bound + limit ≤ u64_max → limit < u64_max → 0 ≤ limit → 0 ≤ bound → on_database_0 e →
  accounted (host_step cluster databases x e) limit (bound + limit).
Proof.
  intros [H1 H2] Hb Hl H0 Hbp He. assert (Hm : charged (server x) limit (bound + limit)) by (apply (charged_mono _ _ bound); [done|lia]).
  assert (Hq : pending_bytes (pubsub (server x)) ≤ u64_max) by (pose proof (ch_bound _ _ _ H1); lia).
  destruct e as [|c cmd args accepts|c proto|c|c n|c|capacity|db op]; cbn [host_step].
  - split; simpl; [apply (charged_same (server x)); simpl; done || set_solver|]. intros c h. rewrite lookup_insert. case_decide; [by intros [= <-]; subst|apply H2].
  - destruct (sessions x !! c) as [h|] eqn:E; [|by split]. destruct (H2 c h E) as [Hc Hd].
    destruct (dispatch_accounted accepts cmd args h (server x) c limit bound H1 Hb Hl H0 ltac:(by intros ->) Hc Hd) as [D1 D2].
    assert (D3 : client_id (dispatch cluster databases accepts cmd args h (server x)).1.1 = Some c).
    { destruct (subscribing cmd) eqn:Hs; [|by apply dispatch_other]. rewrite (dispatch_subscribing cluster databases accepts cmd args h _ c Hc Hs). cbn [fst snd]. by rewrite answer_client. }
    destruct (dispatch _ _ _ _ _ _ _) as [[h' s'] r]. simpl in *. split; simpl; [done|].
    intros c' h''. rewrite lookup_insert. case_decide; [by intros [= <-]; subst|apply H2].
  - destruct (sessions x !! c) as [h|] eqn:E; [|by split]. destruct (H2 c h E) as [Hc Hd]. simpl. rewrite Hc. split; simpl; [by apply (charged_same (server x))|].
    intros c' h'. rewrite lookup_insert. case_decide; [by intros [= <-]; subst|apply H2].
  - destruct (sessions x !! c) as [h|]; [|by split]. case_match; [|by split]. split; [|done]. simpl. unfold note_pubsub_delivered.
    pose proof (note_delivered_bytes c _ (ch_sizes _ _ _ H1)) as G. destruct (note_delivered c _). by apply charged_release.
  - destruct (sessions x !! c) as [h|]; [|by split]. case_match; [|by split].
    pose proof (note_lagged_bytes c n _ (ch_sizes _ _ _ H1) Hq) as G. destruct (note_lagged c n _). split; [|done]. by apply charged_release.
  - destruct (sessions x !! c) as [h|]; [|by split]. unfold disconnect, unregister_pubsub_client.
    pose proof (unregister_bytes c _ (ch_sizes _ _ _ H1) Hq) as G. destruct (unregister_client c _). split; simpl; [by apply charged_release|].
    intros c' h'. rewrite lookup_delete. case_decide; [done|apply H2].
  - split; [|done]. by apply (charged_same (server x)).
  - split; [|done]. simpl in He. destruct (He (trackers (server x) db)) as [E1 E2].
    apply (charged_same (server x)); [done|done|done|..]; unfold counter, message_limit; simpl; case_decide; by subst.
Qed.

Lemma run_accounted x limit bound events :
  accounted x limit bound → bound + limit * zlen events ≤ u64_max → limit < u64_max → 0 ≤ limit → 0 ≤ bound → Forall on_database_0 events →
  accounted (host_run cluster databases x events) limit (bound + limit * zlen events).
Proof.
  intros H Hb Hl H0 Hbp He. revert x bound H Hb Hbp. induction He as [|e events He1 He2 IH]; intros x bound H Hb Hbp; cbn [length] in *; [by rewrite Z.mul_0_r, Z.add_0_r|].
  rewrite Nat2Z.inj_succ in *. replace (bound + limit * Z.succ (zlen events)) with (bound + limit + limit * zlen events) by lia.
  apply IH; [|lia|lia]. apply step_accounted; [done|nia|done..].
Qed.

End charged.
