(* ===== verification/PubSubProps.v ===== *)
(** * Properties of Pub/Sub *)

From S2P Require Import Prelude RustStd Errors Resp Reply Text Memory ChannelGlob PubSub PubSubCommands PubSubFacts PubSubSim PubSubMemory.
From Stdlib Require Import Lia.
Local Open Scope Z_scope.

Implicit Types (c client : Z) (p : PubSub) (f : RespValue) (channel message pattern : Bytes) (events : list Event).

(** ** Who gets a message *)

Definition message_frame (channel message : Bytes) : list RespValue := [bulk (bs "message"); bulk channel; bulk message].
Definition pmessage_frame (pattern channel message : Bytes) : list RespValue :=
  [bulk (bs "pmessage"); bulk pattern; bulk channel; bulk message].

Lemma pubsub_frame_inj proto e1 e2 : pubsub_frame proto e1 = pubsub_frame proto e2 → e1 = e2.
Proof. unfold pubsub_frame. by case_match; intros [= ->]. Qed.

Section delivery.
Context {FO : FanOut} {FL : FanOutLaws}.

Lemma elem_of_ids_of c (x : gset Z) : c ∈ ids_of x ↔ c ∈ x.
Proof. rewrite ids_of_perm. apply elem_of_elements. Qed.

Lemma elem_of_sends_to p elements (x : gset Z) c f :
  (c, f) ∈ sends_to p elements x ↔ c ∈ x ∧ c ∈ clients p ∧ f = pubsub_frame (default 2 (client_protocol p !! c)) elements.
Proof.
  unfold sends_to. rewrite list_elem_of_omap. split.
  - intros (c' & Hc & E). rewrite elem_of_ids_of in Hc. by case_decide; simplify_eq.
  - intros (Hc & Hr & ->). exists c. by rewrite elem_of_ids_of, decide_True.
Qed.

Lemma sends_to_NoDup p elements (x : gset Z) : NoDup (sends_to p elements x).
Proof.
  unfold sends_to. assert (NoDup (ids_of x)) as H by (rewrite ids_of_perm; apply NoDup_elements).
  induction H as [|c l Hc Hl IH]; [constructor|]. cbn. case_decide; [|done]. constructor; [|done].
  intros (c' & Hc' & E)%list_elem_of_omap. by case_decide; simplify_eq.
Qed.

Lemma elem_of_publish_sends p S channel message c f :
  related p S →
  (c, f) ∈ publish_sends channel message p ↔
  c ∈ clients p ∧ ∃ elements, f = pubsub_frame (default 2 (client_protocol p !! c)) elements ∧
    ((c, channel) ∈ on_channel S ∧ elements = message_frame channel message ∨
     ∃ pattern, (c, pattern) ∈ on_pattern S ∧ covers pattern channel ∧ elements = pmessage_frame pattern channel message).
Proof.
  intros [H1 H2 _]. unfold publish_sends. rewrite elem_of_app.
  assert ((c, f) ∈ (match channels p !! channel with Some x => sends_to p (message_frame channel message) x | None => [] end) ↔
    (c, channel) ∈ on_channel S ∧ c ∈ clients p ∧ f = pubsub_frame (default 2 (client_protocol p !! c)) (message_frame channel message)) as Ha.
  { rewrite <- elem_of_subs_in, <- (to_subs _ _ _ H1). destruct (channels p !! channel) as [x|]; simpl; [apply elem_of_sends_to|]. set_solver. }
  rewrite Ha, list_elem_of_bind. split.
  - intros [(Hc & Hr & ->)|([pattern x] & Hs & Hin)]; [naive_solver|]. destruct (matches pattern channel) eqn:Em; [|by apply not_elem_of_nil in Hs].
    apply elem_of_sends_to in Hs as (Hc & Hr & ->). split; [done|]. eexists. split; [done|]. right. exists pattern. split_and!; [|by apply channel_match_correct|done].
    rewrite <- elem_of_subs_in, <- (to_subs _ _ _ H2). rewrite table_iter_perm in Hin. apply elem_of_map_to_list in Hin. by rewrite Hin.
  - intros (Hr & elements & -> & [[Hc ->]|(pattern & Hp & Hm & ->)]); [by left|]. right.
    rewrite <- elem_of_subs_in, <- (to_subs _ _ _ H2) in Hp. destruct (patterns p !! pattern) as [x|] eqn:E; simpl in Hp; [|set_solver].
    exists (pattern, x). apply channel_match_correct in Hm as ->. rewrite elem_of_sends_to, table_iter_perm, elem_of_map_to_list. done.
Qed.

Lemma publish_sends_NoDup channel message p : NoDup (publish_sends channel message p).
Proof.
  unfold publish_sends. apply NoDup_app. split_and!.
  - destruct (channels p !! channel); [apply sends_to_NoDup|constructor].
  - intros [c f] Ha Hb. apply list_elem_of_bind in Hb as ([pattern x] & Hb & _). destruct (channels p !! channel); [|by apply not_elem_of_nil in Ha].
    case_match; [|by apply not_elem_of_nil in Hb]. apply elem_of_sends_to in Ha as (_ & _ & ->), Hb as (_ & _ & E). by apply pubsub_frame_inj in E.
  - apply NoDup_bind.
    + intros [pat1 x1] [pat2 x2] [c f] Hp1 Hp2 Ha Hb. rewrite table_iter_perm in Hp1, Hp2. apply elem_of_map_to_list in Hp1, Hp2.
      repeat (case_match; [|by (apply not_elem_of_nil in Ha || apply not_elem_of_nil in Hb)]).
      apply elem_of_sends_to in Ha as (_ & _ & ->), Hb as (_ & _ & E). apply pubsub_frame_inj in E. by simplify_eq.
    + intros [pattern x] _. case_match; [apply sends_to_NoDup|constructor].
    + rewrite table_iter_perm. apply NoDup_map_to_list.
Qed.

Lemma publish_reply db accepts channel message (s s' : Server) r :
  cmd_publish db accepts [bulk channel; bulk message] s = (s', Ok r) →
  r = Integer (wrap_i64 (zlen (delivered_of accepts (publish_sends channel message (pubsub s))))).
Proof.
  unfold cmd_publish. simpl. case_match; [done|]. destruct (reserve _ _ _) as [s1|] eqn:Er; [|done]. apply reserve_pubsub in Er. simpl in Er.
  unfold publish_with_outcome. rewrite Er. unfold account_deliveries. destruct (enqueue_all _ _ _ _ _ _ _) as [[[m e] o] d]. by intros [= _ <-].
Qed.

End delivery.

(** ** Examples *)

(** ASCII letters, which is all the examples need. *)
#[local] Instance ascii_upper : Uppercase := λ s, (λ ch, if (97 <=? ch) && (ch <=? 122) then ch - 32 else ch) <$> s.

Definition always : Z → RespValue → bool := λ _ _, true.
Definition news : Bytes := bs "news".
Definition hello : Bytes := bs "hello".

(** Two clients; the first subscribes to a channel and a pattern that matches it. *)
Definition reader_and_writer : list Event :=
  [Connect; Connect; Request 0 Subscribe [bulk news] always; Request 0 Psubscribe [bulk (bs "n*")] always].

Definition one_megabyte : Z := 1048576.

(** ** Subscriptions *)

Section properties.
Context {FO : FanOut} {FL : FanOutLaws} {UP : Uppercase} (cluster : bool) (databases max_memory max_message : Z).

Abbreviation reached events := (host_run cluster databases (host_new max_memory max_message) events).

(** C19. The tables of the server, in both directions, are at any time the three sets of subscriptions
    that the requests so far describe, no channel is without subscribers, the registered clients are the
    connected ones, and every subscription command is answered with the confirmations these sets call
    for, except a SUNSUBSCRIBE without arguments. *)
Theorem pubsub_simulation events :
  let X := spec_run spec_new events in
  host_related (reached events) X ∧
  ∀ cmd c args, (cmd, args) ≠ (Sunsubscribe, []) →
    (command_frames cmd c args (server (reached events))).2 = (spec_command cmd c args (spec_subs X)).2.
Proof.
  intros X. assert (H : host_related (reached events) X) by apply host_run_related, host_related_new.
  split; [done|]. intros cmd c args Hne. by apply command_refines; [apply H|].
Qed.



(** C35. While requests carry bulk strings and nobody sends RESET or SUNSUBSCRIBE without arguments, a
    session counts its client's subscriptions, and it is in subscribed mode exactly while the client
    has one. *)
Theorem subscribed_mode events :
  zlen events ≤ u64_max → forallb clean events = true →
  let S := spec_subs (spec_run spec_new events) in
  ∀ c h, sessions (reached events) !! c = Some h →
    pubsub_subscriptions h = wrap_u64 (plain_count c S) ∧ shard_subscriptions h = wrap_u64 (shard_count c S) ∧
    (plain_count c S ≤ u64_max → shard_count c S ≤ u64_max →
     in_pubsub_mode h = true ↔ ∃ n, (c, n) ∈ on_channel S ∪ on_pattern S ∪ on_shard S).
Proof.
  intros Hb Hcl S c h Hh. destruct (run_modes cluster databases _ _ 0 events (modes_new max_memory max_message)) as [_ _ _ _ Hm]; [lia|done|].
  destruct (Hm c h Hh) as [H1 H2]. fold S in H1, H2. split_and!; [done|done|]. intros Hp Hs. unfold in_pubsub_mode. rewrite H1, H2.
  rewrite !wrap_u64_id by (unfold plain_count, shard_count in *; lia). rewrite orb_true_iff, !Z.ltb_lt. by apply counts_positive.
Qed.

End properties.

(** ** What the code gets wrong *)

Section findings.
Context {FO : FanOut} {FL : FanOutLaws}.

(** A message within the size limit is refused for lack of memory, whether or not memory is
    limited, as soon as the message times the number of its deliveries exceeds the limit for one
    message. *)
Theorem publish_fanout_refused db accepts channel message (s : Server) :
  zlen message ≤ max_message_size (trackers s db) →
  max_message_size (trackers s db) < fanout_memory_cost channel (zlen message) (pubsub s) →
  cmd_publish db accepts [bulk channel; bulk message] s = (count_stat stat_publish 1 s, Err OutOfMemory).
Proof.
  intros Hm Hc. unfold cmd_publish. simpl. rewrite (proj2 (Z.ltb_ge _ _)) by done. unfold reserve, allocate, can_allocate. simpl.
  by rewrite (proj2 (Z.ltb_lt _ _)).
Qed.

End findings.

(** The state a round of publishing on database 1 starts from and ends in. *)
Record round_ready (x : Host) (channel : Bytes) (charge message_limit : Z) : Prop := {
  rr_reader : ∃ h, sessions x !! 0 = Some h ∧ in_pubsub_mode h = true;
  rr_writer : ∃ h, sessions x !! 1 = Some h ∧ in_pubsub_mode h = false ∧ selected_db h = 1;
  rr_channel : channels (pubsub (server x)) !! channel = Some {[0]};
  rr_patterns : patterns (pubsub (server x)) = ∅;
  rr_client : 0 ∈ clients (pubsub (server x));
  rr_pending : pending_by_client (pubsub (server x)) = ∅;
  rr_free : limit (trackers (server x) 1) = 0;
  rr_limit : max_message_size (trackers (server x) 1) = message_limit;
  rr_charge : counters (trackers (server x) 1) CatPubSub = charge;
  rr_zero : counters (trackers (server x) 0) CatPubSub = 0
}.

Definition round (channel message : Bytes) : list Event := [Request 1 Publish [bulk channel; bulk message] always; Receive 0].

Lemma account_charge t size : 0 ≤ size → 0 ≤ counters t CatPubSub ∧ counters t CatPubSub + size ≤ u64_max →
  counters (account t size CatPubSub) CatPubSub = counters t CatPubSub + size ∧
  limit (account t size CatPubSub) = limit t ∧ max_message_size (account t size CatPubSub) = max_message_size t.
Proof.
  intros Hs Hb. unfold account. destruct (Z.eqb_spec size 0); [split_and!; [lia|done|done]|]. simpl. unfold set_counter.
  rewrite decide_True by done. split_and!; [apply wrap_u64_id; lia|done|done].
Qed.

Lemma release_other db db' size (s : Server) : db ≠ db' → trackers (release_pubsub_memory db size s) db' = trackers s db'.
Proof. intros Hne. unfold release_pubsub_memory. case_match; [|done]. simpl. by rewrite decide_False. Qed.

Lemma release_zero db size (s : Server) :
  counters (trackers s db) CatPubSub = 0 → counters (trackers (release_pubsub_memory db size s) db) CatPubSub = 0.
Proof.
  intros H. unfold release_pubsub_memory. destruct (Z.ltb_spec 0 size); [|done]. simpl. rewrite decide_True by done.
  unfold deallocate. case_match; [done|]. simpl. unfold set_counter, sat_sub_u64. rewrite decide_True, H by done. lia.
Qed.

Section leak.
Context {UP : Uppercase} (cluster : bool) (databases : Z).

Lemma sends_to_reader p elements :
  0 ∈ clients p → sends_to p elements {[0]} = [(0, pubsub_frame (default 2 (client_protocol p !! 0)) elements)].
Proof. intros H. unfold sends_to. change (ids_of {[0]}) with [0]. simpl. by rewrite decide_True. Qed.

Lemma publish_to_reader p channel message :
  channels p !! channel = Some {[0]} → patterns p = ∅ → 0 ∈ clients p → pending_by_client p = ∅ →
  fanout_memory_cost channel (zlen message) p = sat_mul_u64 (zlen message) 1 ∧
  let y := publish_with_outcome always channel message p in
  y.1 = set_pending p {[0 := [zlen message]]} (messages_dropped p) ∧ bytes_enqueued y.2 = sat_add_u64 0 (zlen message) ∧ bytes_overwritten y.2 = 0.
Proof.
  intros H1 H2 H3 H4. unfold fanout_memory_cost, estimate_delivery_count, publish_with_outcome, publish_sends. rewrite H1, H2. simpl.
  rewrite sends_to_reader by done. split; [done|]. unfold account_deliveries, delivered_of, failed_of. simpl. by rewrite H4.
Qed.

Lemma round_charges x channel message charge message_limit :
  round_ready x channel charge message_limit → zlen message ≤ message_limit → message_limit ≤ u64_max →
  0 ≤ charge → charge + zlen message ≤ u64_max →
  round_ready (host_run cluster databases x (round channel message)) channel (charge + zlen message) message_limit.
Proof.
  intros [(h0 & E0 & M0) (h1 & E1 & M1 & D1) H1 H2 H3 H4 H5 H6 H7 H8] Hm Hl Hc Hb.
  destruct (publish_to_reader (pubsub (server x)) channel message H1 H2 H3 H4) as (P1 & P2 & P3 & P4).
  unfold round, host_run. cbn [foldl host_step]. rewrite E1. unfold dispatch. rewrite M1, D1. cbn [andb].
  assert (Em : sat_mul_u64 (zlen message) 1 = zlen message) by (unfold sat_mul_u64; lia).
  assert (Ea : sat_add_u64 0 (zlen message) = zlen message) by (unfold sat_add_u64; lia).
  assert (Hp : cmd_publish 1 always [bulk channel; bulk message] (server x) =
    (count_stat pubsub_messages_sent (recipients (publish_with_outcome always channel message (pubsub (server x))).2)
      (set_pubsub (set_tracker (count_stat stat_publish 1 (server x)) 1 (account (trackers (server x) 1) (zlen message) CatPubSub))
        (set_pending (pubsub (server x)) {[0 := [zlen message]]} (messages_dropped (pubsub (server x))))),
     Ok (Integer (wrap_i64 (recipients (publish_with_outcome always channel message (pubsub (server x))).2))))).
  { unfold cmd_publish. simpl. rewrite H6, (proj2 (Z.ltb_ge _ _)) by lia. unfold reserve, allocate, can_allocate. simpl.
    rewrite P1, Em, H6, (proj2 (Z.ltb_ge _ _)), H5 by lia. simpl. rewrite <- P2.
    destruct (publish_with_outcome _ _ _ _) as [p o]. simpl in *. unfold settle. rewrite P3, P4, Ea, !Z.ltb_irrefl. done. }
  rewrite Hp. cbn [host_step sessions]. rewrite lookup_insert_ne, E0, M0 by done.
  unfold note_pubsub_delivered, note_delivered. cbn [server pubsub count_stat set_pubsub set_tracker set_pending pending_by_client].
  rewrite lookup_singleton_eq. cbn [tail head default from_option]. unfold shorten. rewrite decide_True by done.
  destruct (account_charge (trackers (server x) 1) (zlen message)) as (A1 & A2 & A3); [lia|lia|].
  split; cbn [server sessions]; rewrite ?release_pubsub, ?release_other by done; cbn [pubsub set_pubsub set_tracker trackers count_stat].
  - exists h0. by rewrite lookup_insert_ne.
  - exists h1. by rewrite lookup_insert_eq.
  - done.
  - done.
  - done.
  - apply delete_singleton_eq.
  - by rewrite decide_True, A2.
  - by rewrite decide_True, A3.
  - rewrite decide_True, A1 by done. lia.
  - rewrite release_zero; done.
Qed.

Lemma rounds_charge x channel message charge message_limit (n : nat) :
  round_ready x channel charge message_limit → zlen message ≤ message_limit → message_limit ≤ u64_max →
  0 ≤ charge → charge + Z.of_nat n * zlen message ≤ u64_max →
  round_ready (host_run cluster databases x (concat (replicate n (round channel message)))) channel (charge + Z.of_nat n * zlen message) message_limit.
Proof.
  revert x charge. induction n as [|n IH]; intros x charge H Hm Hl Hc Hb; [by rewrite Z.mul_0_l, Z.add_0_r|].
  rewrite Nat2Z.inj_succ in *. replace (charge + Z.succ (Z.of_nat n) * zlen message) with (charge + zlen message + Z.of_nat n * zlen message) by lia.
  apply (IH (host_run cluster databases x (round channel message))); [|done|done|lia|lia]. apply round_charges; [done..|lia].
Qed.
End leak.

(** Two clients; the first subscribes, the second selects database 1. *)
Definition reader_and_other_database : list Event :=
  [Connect; Connect; Request 0 Subscribe [bulk news] always; Request 1 Select [bulk (bs "1")] always].

Lemma leak_start : round_ready (host_run false 16 (host_new 0 one_megabyte) reader_and_other_database) news 0 one_megabyte.
Proof.
  split; try (vm_compute; reflexivity).
  - eexists. split; vm_compute; reflexivity.
  - eexists. split; [vm_compute; reflexivity|vm_compute; done].
Qed.

(** C37. Messages published from a connection on another database are charged to that database and
    given back to database 0: after any number of messages, all of them delivered and nothing waiting,
    the other database is still charged for every one. *)
Theorem publish_leaks_elsewhere (n : nat) (message : Bytes) :
  zlen message ≤ one_megabyte → Z.of_nat n * zlen message ≤ u64_max →
  let x := host_run false 16 (host_run false 16 (host_new 0 one_megabyte) reader_and_other_database)
             (concat (replicate n (round news message))) in
  pending_by_client (pubsub (server x)) = ∅ ∧
  category_memory (trackers (server x) 0) CatPubSub = 0 ∧
  category_memory (trackers (server x) 1) CatPubSub = Z.of_nat n * zlen message.
Proof.
  intros Hm Hb x.
  destruct (rounds_charge false 16 _ news message 0 one_megabyte n leak_start) as [_ _ _ _ _ H1 _ _ H2 H3]; [exact Hm|by vm_compute|lia|lia|].
  split_and!; [exact H1|exact H3|]. etransitivity; [exact H2|lia].
Qed.

(** The session of a client after some events on an empty server. *)
Definition session_after (events : list Event) (c : Z) : option Session :=
  sessions (host_run false 16 (host_new 0 one_megabyte) events) !! c.

Definition two_shard_readers : list Event :=
  [Connect; Connect; Request 0 Ssubscribe [bulk news] always; Request 1 Ssubscribe [bulk news] always; Request 0 Sunsubscribe [] always].

(** A client that drops all its shard channels stays in subscribed mode when another client reads
    one of them: the confirmation counts the other client, the session takes this for its own count,
    and ordinary commands are refused. *)
Theorem sunsubscribe_sticks :
  names_in 0 (on_shard (spec_subs (spec_run spec_new two_shard_readers))) = ∅ ∧
  (in_pubsub_mode <$> session_after two_shard_readers 0) = Some true ∧
  (λ h, (dispatch false 16 always Publish [bulk news; bulk hello] h (server (host_run false 16 (host_new 0 one_megabyte) two_shard_readers))).2)
    <$> session_after two_shard_readers 0 = Some (Ok not_in_subscribed_context).
Proof. split_and!; vm_compute; reflexivity. Qed.

Definition reset_reader : list Event :=
  [Connect; Connect; Request 0 Subscribe [bulk news] always; Request 0 Reset [] always;
   Request 1 Publish [bulk news; bulk hello] always; Receive 0].

(** RESET leaves subscribed mode but not the channels: the client still gets messages, which it no longer
    takes from its buffer. *)
Theorem reset_keeps_subscriptions :
  let x := host_run false 16 (host_new 0 one_megabyte) reset_reader in
  (in_pubsub_mode <$> session_after reset_reader 0) = Some false ∧
  num_subscribers news (pubsub (server x)) = 1 ∧ client_pending_memory 0 (pubsub (server x)) = 5.
Proof. split_and!; vm_compute; reflexivity. Qed.

(** A client that takes its message before the publisher has accounted for it leaves the message
    counted for good; in the other order nothing remains. *)
Theorem delivery_before_accounting :
  let p := pubsub (server (host_run false 16 (host_new 0 one_megabyte) reader_and_writer)) in
  let account p := (account_deliveries [0] 5 0 p).1 in
  let take p := (note_delivered 0 p).1 in
  client_pending_memory 0 (take (account p)) = 0 ∧ client_pending_memory 0 (account (take p)) = 5.
Proof. split_and!; vm_compute; reflexivity. Qed.

(** ** Witnesses *)

Lemma pubsub_simulation_witness :
  host_related (host_run false 16 (host_new 0 one_megabyte) reader_and_writer) (spec_run spec_new reader_and_writer).
Proof. exact (proj1 (pubsub_simulation false 16 0 one_megabyte reader_and_writer)). Defined.


Definition reader_gets_message : list Event :=
  reader_and_writer ++ [Request 1 Publish [bulk news; bulk hello] always; Receive 0; Disconnect 0; Disconnect 1].


Lemma subscribed_mode_witness :
  ∃ h, sessions (host_run false 16 (host_new 0 one_megabyte) reader_and_writer) !! 0 = Some h ∧
    pubsub_subscriptions h = wrap_u64 (plain_count 0 (spec_subs (spec_run spec_new reader_and_writer))).
Proof.
  destruct (sessions (host_run false 16 (host_new 0 one_megabyte) reader_and_writer) !! 0) as [h|] eqn:Hh; [|by vm_compute in Hh].
  exists h. split; [done|]. refine (proj1 (subscribed_mode false 16 0 one_megabyte reader_and_writer _ _ 0 h Hh)).
  - by vm_compute.
  - by vm_compute.
Defined.

Lemma publish_leaks_elsewhere_witness :
  category_memory (trackers (server (host_run false 16 (host_run false 16 (host_new 0 one_megabyte) reader_and_other_database)
    (concat (replicate 3 (round news hello))))) 1) CatPubSub = 15.
Proof. refine (proj2 (proj2 (publish_leaks_elsewhere 3 hello _ _))); by vm_compute. Defined.
