(* ===== verification/ClusterState.v ===== *)
(** * Cluster topology ([cluster/state.rs])

    Slot ownership with its epochs, the nodes a process knows, fail reports, elections, migration of
    slots and the votes that prepare it.  The text of [nodes.conf] is in [ClusterConf.v].

    The clocks are arguments: [now] is the wall clock in milliseconds, an [Instant] is a number too.
    The iteration order of hash maps is the class [ClusterOrder].  A method that takes the lock is one
    step. *)

From S2P Require Import Prelude RustStd Text HashSlot.
From Stdlib Require Import Lia.
Local Open Scope Z_scope.

Definition em_dash : Str := [8212].
Definition DEFAULT_NODE_TIMEOUT_MS : Z := 15000.
Definition PREPARE_VOTE_TTL_MS : Z := 60000.

Definition sat_add_u16 (a b : Z) : Z := Z.min (a + b) 65535.

Record ClusterNode : Type := mkNode {
  n_id : Str;
  n_ip : Str;
  n_port : Z;
  n_cport : Z;
  n_myself : bool;
  n_master : bool;
  n_master_id : option Str;
  n_pfail : bool;
  n_fail : bool;
  n_repl_offset : Z;
  n_repl_priority : Z
}.

#[global] Instance ClusterNode_eq_dec : EqDecision ClusterNode.
Proof. solve_decision. Defined.

Record RedirectTarget : Type := mkRedirect { rt_slot : Z; rt_ip : Str; rt_port : Z; rt_node_id : Str }.

Record OwnershipRange : Type := mkRange {
  or_start : Z;
  or_end : Z;
  or_owner_id : Str;
  or_ip : Str;
  or_port : Z;
  or_epoch : Z
}.

Record RoleMapEntry : Type := mkRole {
  rm_id : Str;
  rm_master : bool;
  rm_master_id : Str;
  rm_ip : Str;
  rm_port : Z;
  rm_repl_offset : Z;
  rm_repl_priority : Z
}.

Inductive ManualFailoverMode : Type := Safe | Force | Takeover.

Record PrepareVote : Type := mkVote { v_target_id : Str; v_slot_epoch : Z; v_prepared_at : Z }.

#[global] Instance PrepareVote_eq_dec : EqDecision PrepareVote.
Proof. solve_decision. Defined.

Definition prepare_vote_expired (now : Z) (v : PrepareVote) : bool := PREPARE_VOTE_TTL_MS <? sat_sub_u64 now (v_prepared_at v).

Inductive OwnershipApplyResult : Type := Applied | RejectedStale | SkippedTransition | Invalid.

Record Inner : Type := mkInner {
  my_id : Str;
  my_ip : Str;
  my_port : Z;
  slot_owner : list Str;
  slot_config_epoch : list Z;
  migrating : gmap Z Str;
  importing : gmap Z Str;
  prepare_node : gmap Z PrepareVote;
  nodes : gmap Str ClusterNode;
  current_epoch : Z;
  node_timeout_ms : Z;
  last_pong : gmap Str Z;
  fail_reports : gmap Str (gset Str);
  local_repl_offset : Z;
  local_repl_priority : Z
}.

(** The order in which hash maps and sets are visited. *)
Class ClusterOrder : Type := {
  node_iter : gmap Str ClusterNode → list (Str * ClusterNode);
  slot_iter : gmap Z Str → list (Z * Str);
  id_iter : gset Str → list Str
}.

Class ClusterOrderLaws `{!ClusterOrder} : Prop := {
  node_iter_perm (m : gmap Str ClusterNode) : node_iter m ≡ₚ map_to_list m;
  slot_iter_perm (m : gmap Z Str) : slot_iter m ≡ₚ map_to_list m;
  id_iter_perm (x : gset Str) : id_iter x ≡ₚ elements x
}.

#[global] Instance key_cluster_order : ClusterOrder :=
  {| node_iter m := map_to_list m; slot_iter m := map_to_list m; id_iter x := elements x |}.
#[global] Instance key_cluster_order_laws : ClusterOrderLaws.
Proof. by split. Qed.

(** ** Field updates *)

Definition set_slots (g : Inner) (owner : list Str) (epochs : list Z) : Inner :=
  mkInner (my_id g) (my_ip g) (my_port g) owner epochs (migrating g) (importing g) (prepare_node g) (nodes g) (current_epoch g)
    (node_timeout_ms g) (last_pong g) (fail_reports g) (local_repl_offset g) (local_repl_priority g).
Definition set_transit (g : Inner) (mig imp : gmap Z Str) (prep : gmap Z PrepareVote) : Inner :=
  mkInner (my_id g) (my_ip g) (my_port g) (slot_owner g) (slot_config_epoch g) mig imp prep (nodes g) (current_epoch g)
    (node_timeout_ms g) (last_pong g) (fail_reports g) (local_repl_offset g) (local_repl_priority g).
Definition set_nodes (g : Inner) (ns : gmap Str ClusterNode) : Inner :=
  mkInner (my_id g) (my_ip g) (my_port g) (slot_owner g) (slot_config_epoch g) (migrating g) (importing g) (prepare_node g) ns
    (current_epoch g) (node_timeout_ms g) (last_pong g) (fail_reports g) (local_repl_offset g) (local_repl_priority g).
Definition set_epoch (g : Inner) (e : Z) : Inner :=
  mkInner (my_id g) (my_ip g) (my_port g) (slot_owner g) (slot_config_epoch g) (migrating g) (importing g) (prepare_node g) (nodes g) e
    (node_timeout_ms g) (last_pong g) (fail_reports g) (local_repl_offset g) (local_repl_priority g).
Definition set_timeout (g : Inner) (ms : Z) : Inner :=
  mkInner (my_id g) (my_ip g) (my_port g) (slot_owner g) (slot_config_epoch g) (migrating g) (importing g) (prepare_node g) (nodes g)
    (current_epoch g) ms (last_pong g) (fail_reports g) (local_repl_offset g) (local_repl_priority g).
Definition set_health (g : Inner) (pong : gmap Str Z) (reports : gmap Str (gset Str)) : Inner :=
  mkInner (my_id g) (my_ip g) (my_port g) (slot_owner g) (slot_config_epoch g) (migrating g) (importing g) (prepare_node g) (nodes g)
    (current_epoch g) (node_timeout_ms g) pong reports (local_repl_offset g) (local_repl_priority g).
Definition set_local (g : Inner) (offset priority : Z) : Inner :=
  mkInner (my_id g) (my_ip g) (my_port g) (slot_owner g) (slot_config_epoch g) (migrating g) (importing g) (prepare_node g) (nodes g)
    (current_epoch g) (node_timeout_ms g) (last_pong g) (fail_reports g) offset priority.

Definition with_address (n : ClusterNode) (ip : Str) (port : Z) : ClusterNode :=
  mkNode (n_id n) ip port (sat_add_u16 port 10000) (n_myself n) (n_master n) (n_master_id n) (n_pfail n) (n_fail n) (n_repl_offset n) (n_repl_priority n).
Definition with_role (n : ClusterNode) (master : bool) (master_id : option Str) : ClusterNode :=
  mkNode (n_id n) (n_ip n) (n_port n) (n_cport n) (n_myself n) master master_id (n_pfail n) (n_fail n) (n_repl_offset n) (n_repl_priority n).
Definition with_fail (n : ClusterNode) (pfail fail : bool) : ClusterNode :=
  mkNode (n_id n) (n_ip n) (n_port n) (n_cport n) (n_myself n) (n_master n) (n_master_id n) pfail fail (n_repl_offset n) (n_repl_priority n).
Definition with_repl (n : ClusterNode) (offset priority : Z) : ClusterNode :=
  mkNode (n_id n) (n_ip n) (n_port n) (n_cport n) (n_myself n) (n_master n) (n_master_id n) (n_pfail n) (n_fail n) offset priority.

Definition alter_node (f : ClusterNode → ClusterNode) (id : Str) (g : Inner) : Inner := set_nodes g (alter f id (nodes g)).

(** ** Slots *)

Definition slot_ok (slot : Z) : bool := slot <? SLOT_COUNT.
Definition sidx (slot : Z) : nat := Z.to_nat slot.

Definition own (g : Inner) (slot : Z) (id : Str) (epoch : Z) : Inner :=
  set_slots g (<[sidx slot := id]> (slot_owner g)) (<[sidx slot := epoch]> (slot_config_epoch g)).
Definition forget_transit (g : Inner) (slot : Z) : Inner :=
  set_transit g (delete slot (migrating g)) (delete slot (importing g)) (delete slot (prepare_node g)).
Definition clear_transit (g : Inner) : Inner := set_transit g ∅ ∅ ∅.
Definition bump (g : Inner) : Inner := set_epoch g (sat_add_u64 (current_epoch g) 1).

(** Every slot of one owner goes to another, with the current epoch. *)
Definition hand_over (from to : Str) (g : Inner) : Inner :=
  set_slots g ((λ o, if decide (o = from) then to else o) <$> slot_owner g)
    (zip_with (λ o e, if decide (o = from) then current_epoch g else e) (slot_owner g) (slot_config_epoch g)).

Definition owner_at (g : Inner) (slot : Z) : option Str := slot_owner g !! sidx slot.
Definition epoch_at (g : Inner) (slot : Z) : option Z := slot_config_epoch g !! sidx slot.

Definition slot_epoch (g : Inner) (slot : Z) : Z := default 0 (epoch_at g slot).
Definition owner_id_of (g : Inner) (slot : Z) : option Str := owner_at g slot.
Definition owns_slot (g : Inner) (slot : Z) : bool := match owner_at g slot with Some id => bool_decide (id = my_id g) | None => false end.
Definition owner_of (g : Inner) (slot : Z) : option ClusterNode :=
  id ← owner_at g slot; if decide (id = []) then None else nodes g !! id.
Definition slot_unbound (g : Inner) (slot : Z) : bool := match owner_at g slot with Some id => bool_decide (id = []) | None => true end.

Definition bump_epoch (g : Inner) : Inner * Z := let g := bump g in (g, current_epoch g).

Definition set_config_epoch (epoch : Z) (g : Inner) : result Str Inner :=
  if epoch <=? current_epoch g then
    Err (str "ERR Node config epoch (" ++ to_string epoch ++ str ") is not greater than the current local config epoch (" ++
         to_string (current_epoch g) ++ str ")")
  else Ok (set_epoch g epoch).

Definition out_of_range (slot : Z) : Str := str "ERR Invalid or out of range slot " ++ to_string slot.

Fixpoint check_add (slots : list Z) (g : Inner) : result Str unit :=
  match slots with
  | [] => Ok tt
  | slot :: slots =>
    if negb (slot_ok slot) then Err (out_of_range slot) else
    let cur := default [] (owner_at g slot) in
    if negb (bool_decide (cur = [])) && negb (bool_decide (cur = my_id g))
    then Err (str "ERR Slot " ++ to_string slot ++ str " is already busy (owned by " ++ cur ++ str ")")
    else check_add slots g
  end.

Definition take_slots (id : Str) (slots : list Z) (g : Inner) : Inner :=
  foldl (λ g slot, forget_transit (own g slot id (current_epoch g)) slot) g slots.

Definition add_slots (slots : list Z) (g : Inner) : result Str Inner :=
  if decide (slots = []) then Err (str "ERR wrong number of arguments for 'cluster|addslots' command") else
  _ ← check_add slots g;
  Ok (take_slots (my_id g) slots (bump g)).

Fixpoint check_del (slots : list Z) (g : Inner) : result Str unit :=
  match slots with
  | [] => Ok tt
  | slot :: slots =>
    if negb (slot_ok slot) then Err (out_of_range slot) else
    let cur := default [] (owner_at g slot) in
    if decide (cur = []) then Err (str "ERR Slot " ++ to_string slot ++ str " is already unassigned")
    else if decide (cur = my_id g) then check_del slots g
    else Err (str "ERR Slot " ++ to_string slot ++ str " is not served by this node (owned by " ++ cur ++ str ")")
  end.

Definition del_slots (slots : list Z) (g : Inner) : result Str Inner :=
  if decide (slots = []) then Err (str "ERR wrong number of arguments for 'cluster|delslots' command") else
  _ ← check_del slots g;
  Ok (take_slots [] slots (bump g)).

Fixpoint check_ranges (ranges : list (Z * Z)) : result Str (list Z) :=
  match ranges with
  | [] => Ok []
  | (first, last) :: ranges =>
    if last <? first then Err (str "ERR start slot number " ++ to_string first ++ str " is greater than end slot number " ++ to_string last)
    else if negb (slot_ok last) then Err (out_of_range last)
    else rest ← check_ranges ranges; Ok (seqZ first (last - first + 1) ++ rest)
  end.

Fixpoint check_distinct (seen : gset Z) (slots : list Z) : result Str unit :=
  match slots with
  | [] => Ok tt
  | s :: slots => if decide (s ∈ seen) then Err (str "ERR Slot " ++ to_string s ++ str " specified multiple times")
                  else check_distinct ({[s]} ∪ seen) slots
  end.

Definition expand_slot_ranges (ranges : list (Z * Z)) : result Str (list Z) :=
  out ← check_ranges ranges;
  _ ← check_distinct ∅ out;
  Ok out.

Definition add_slot_ranges (ranges : list (Z * Z)) (g : Inner) : result Str Inner :=
  slots ← expand_slot_ranges ranges;
  if decide (slots = []) then Err (str "ERR wrong number of arguments for 'cluster|addslotsrange' command") else add_slots slots g.

Definition del_slot_ranges (ranges : list (Z * Z)) (g : Inner) : result Str Inner :=
  slots ← expand_slot_ranges ranges;
  if decide (slots = []) then Err (str "ERR wrong number of arguments for 'cluster|delslotsrange' command") else del_slots slots g.

Definition owns_any (id : Str) (g : Inner) : bool := existsb (λ o, bool_decide (o = id)) (slot_owner g).

Definition flush_slots (g : Inner) : Inner :=
  clear_transit (if owns_any (my_id g) g then hand_over (my_id g) [] (bump g) else g).

Definition reset_cluster_config (g : Inner) : Inner :=
  let g := bump g in
  let g := set_slots g ((λ _, []) <$> slot_owner g) ((λ _, current_epoch g) <$> slot_config_epoch g) in
  let g := set_health (clear_transit g) ∅ ∅ in
  set_nodes g ((λ n, mkNode (n_id n) (n_ip n) (n_port n) (n_cport n) true true None false false (n_repl_offset n) (n_repl_priority n)) <$>
               filter (λ x, x.1 = my_id g) (nodes g)).

(** ** Nodes and roles *)

Definition forget_node (node_id : Str) (g : Inner) : result Str Inner :=
  if decide (node_id = my_id g) then Err (str "ERR I tried hard but I can't forget myself")
  else if negb (bool_decide (is_Some (nodes g !! node_id))) then Err (str "ERR Unknown node " ++ node_id)
  else if owns_any node_id g then Err (str "ERR Can't forget a master with assigned slots. Delete slots first.")
  else
    let g := set_nodes g (delete node_id (nodes g)) in
    let g := set_health g (delete node_id (last_pong g)) ((λ x, x ∖ {[node_id]}) <$> delete node_id (fail_reports g)) in
    Ok (set_transit g (filter (λ x, x.2 ≠ node_id) (migrating g)) (filter (λ x, x.2 ≠ node_id) (importing g))
          (filter (λ x, v_target_id x.2 ≠ node_id) (prepare_node g))).

Definition set_local_repl_offset (offset : Z) (g : Inner) : Inner :=
  alter_node (λ n, with_repl n offset (n_repl_priority n)) (my_id g) (set_local g offset (local_repl_priority g)).
Definition set_local_repl_priority (priority : Z) (g : Inner) : Inner :=
  alter_node (λ n, with_repl n (n_repl_offset n) priority) (my_id g) (set_local g (local_repl_offset g) priority).
Definition set_node_timeout_ms (ms : Z) (g : Inner) : Inner := set_timeout g (Z.max ms 20).

Definition me (g : Inner) : option ClusterNode := nodes g !! my_id g.
Definition is_replica_of (master_id : Str) (g : Inner) : bool :=
  match me g with Some n => negb (n_master n) && bool_decide (n_master_id n = Some master_id) | None => false end.
Definition is_cluster_replica (g : Inner) : bool := match me g with Some n => negb (n_master n) | None => false end.
Definition my_master_id (g : Inner) : option Str := n ← me g; if n_master n then None else n_master_id n.

Definition can_serve_readonly (slot : Z) (g : Inner) : bool :=
  if negb (slot_ok slot) then false else
  match me g with
  | None => false
  | Some n =>
    if n_master n then false else
    match n_master_id n with
    | None => false
    | Some mid => match owner_at g slot with Some o => bool_decide (o = mid) | None => false end
    end
  end.

Definition node_is_master (id : Str) (g : Inner) : bool := match nodes g !! id with Some n => n_master n | None => false end.
Definition node_is_fail (id : Str) (g : Inner) : bool := match nodes g !! id with Some n => n_fail n | None => false end.
Definition node_is_pfail (id : Str) (g : Inner) : bool := match nodes g !! id with Some n => n_pfail n | None => false end.

(** [last_pong.entry(id).or_insert_with(Instant::now)] *)
Definition first_pong (t : Z) (id : Str) (g : Inner) : Inner :=
  match last_pong g !! id with Some _ => g | None => set_health g (<[id := t]> (last_pong g)) (fail_reports g) end.

Definition add_node_with_role (t : Z) (id ip : Str) (port : Z) (role_master : option bool) (role_master_id : option (option Str)) (g : Inner) : Inner :=
  if decide (id = my_id g) then g else
  let existing := nodes g !! id in
  let master := default (default true (n_master <$> existing)) role_master in
  let master_id := default (n ← existing; n_master_id n) role_master_id in
  first_pong t id (set_nodes g (<[id :=
    mkNode id ip port (sat_add_u16 port 10000) false master master_id (default false (n_pfail <$> existing)) (default false (n_fail <$> existing))
      (default 0 (n_repl_offset <$> existing)) (default 100 (n_repl_priority <$> existing))]> (nodes g))).

Definition add_node (t : Z) (id ip : Str) (port : Z) (g : Inner) : Inner := add_node_with_role t id ip port None None g.

Definition merge_role (t : Z) (g : Inner) (e : RoleMapEntry) : Inner :=
  if decide (rm_id e = my_id g) then g else
  let master_id := if rm_master e || bool_decide (rm_master_id e = []) then None else Some (rm_master_id e) in
  alter_node (λ n, with_repl n (rm_repl_offset e) (rm_repl_priority e)) (rm_id e)
    (add_node_with_role t (rm_id e) (rm_ip e) (rm_port e) (Some (rm_master e)) (Some master_id) g).
Definition merge_role_map (t : Z) (entries : list RoleMapEntry) (g : Inner) : Inner := foldl (merge_role t) g entries.

Definition configure_as_replica_of (master_id : Str) (g : Inner) : result Str Inner :=
  if decide (master_id = my_id g) then Err (str "cannot replicate myself")
  else if negb (bool_decide (is_Some (nodes g !! master_id))) then Err (str "Unknown node " ++ master_id)
  else
    let g := clear_transit (if owns_any (my_id g) g then hand_over (my_id g) master_id (bump g) else g) in
    let g := alter_node (λ n, with_fail (with_role n false (Some master_id)) (n_pfail n) false) (my_id g) g in
    Ok (alter_node (λ n, with_role n true None) master_id g).

Definition slots_of (id : Str) (g : Inner) : nat := length (filter (λ o, o = id) (slot_owner g)).

(** Slots, and how many were claimed. *)
Definition claim_slots_from (failed_id : Str) (g : Inner) : result Str (Inner * nat) :=
  if negb (bool_decide (is_Some (nodes g !! failed_id))) then Err (str "Unknown node " ++ failed_id)
  else
    let claimed := slots_of failed_id g in
    let g := clear_transit (if (0 <? claimed)%nat then hand_over failed_id (my_id g) (bump g) else g) in
    Ok (alter_node (λ n, with_fail (with_role n true None) (n_pfail n) false) (my_id g) g, claimed).

Definition reconfigure_as_replica_of_failover_winner (winner_id : Str) (g : Inner) : result Str Inner :=
  if decide (winner_id = my_id g) then Err (str "cannot reconfigure as replica of myself")
  else if is_replica_of winner_id g then Ok g
  else if negb (bool_decide (is_Some (nodes g !! winner_id))) then Err (str "Unknown node " ++ winner_id)
  else configure_as_replica_of winner_id (alter_node (λ n, with_fail (with_role n true None) false false) winner_id g).

(** ** Failure detection *)

Definition touch_pong (t : Z) (id : Str) (g : Inner) : Inner :=
  let g := alter_node (λ n, with_fail n false false) id g in
  set_health g (<[id := t]> (last_pong g)) ((λ x, x ∖ {[id]}) <$> fail_reports g).

(** A [Duration] is a number of nanoseconds. *)
Definition from_millis (ms : Z) : Z := ms * 1000000.
Definition elapsed_since_pong (t : Z) (id : Str) (g : Inner) : Z :=
  match last_pong g !! id with
  | Some t0 => Z.max (t - t0) 0
  | None => from_millis (Z.min (node_timeout_ms g * 2) u64_max)
  end.

Definition mark_fail (id : Str) (g : Inner) : Inner :=
  if decide (id = my_id g) then g else alter_node (λ n, with_fail n false true) id g.

Definition master_count (g : Inner) : nat :=
  Nat.max (size (filter (λ x, n_master x.2 = true ∧ n_fail x.2 = false) (nodes g))) 1.
Definition fail_quorum_size (g : Inner) : nat :=
  let m := master_count g in if (m <=? 2)%nat then 1%nat else (Nat.div m 2 + 1)%nat.

Definition ingest_fail_reports (from_peer : Str) (suspects : list Str) (g : Inner) : Inner :=
  if decide (from_peer = []) then g else set_health g (last_pong g) (<[from_peer := list_to_set suspects]> (fail_reports g)).

Definition suspected (id : Str) (g : Inner) : bool := match nodes g !! id with Some n => n_pfail n || n_fail n | None => false end.

Definition count_failure_reports (node_id : Str) (g : Inner) : Z :=
  (if suspected node_id g then 1 else 0) +
  Z.of_nat (size (filter (λ x, x.1 ≠ node_id ∧ node_id ∈ x.2) (fail_reports g))).

(** A reporter whose vote counts: a known master that is not failed. *)
Definition reporter_ok (g : Inner) (reporter : Str) : bool :=
  match nodes g !! reporter with Some n => n_master n && negb (n_fail n) | None => false end.

Definition votes_against (cand : Str) (g : Inner) : nat :=
  ((if suspected cand g then 1 else 0) +
   size (filter (λ x, x.1 ≠ cand ∧ reporter_ok g x.1 = true ∧ cand ∈ x.2) (fail_reports g)))%nat.

Definition escalate_one (quorum : nat) (acc : Inner * list Str) (cand : Str) : Inner * list Str :=
  let '(g, newly) := acc in
  if node_is_fail cand g then acc
  else if (quorum <=? votes_against cand g)%nat then
    match nodes g !! cand with
    | Some n => (alter_node (λ n, with_fail n false true) cand g, newly ++ [cand])
    | None => acc
    end
  else acc.

Definition fail_candidates (g : Inner) : gset Str :=
  (list_to_set ((n_id ∘ snd) <$> map_to_list (filter (λ x, n_myself x.2 = false ∧ (n_pfail x.2 || n_fail x.2) = true) (nodes g))) ∪
   ⋃ (snd <$> map_to_list (fail_reports g))) ∖ {[my_id g]}.

Section iteration.
Context `{!ClusterOrder}.

Definition escalate_fails (g : Inner) : Inner * list Str :=
  foldl (escalate_one (fail_quorum_size g)) (g, []) (id_iter (fail_candidates g)).

Definition note_unreachable (id : Str) (g : Inner) : Inner * bool :=
  if decide (id = []) then (g, false)
  else if decide (id = my_id g) then (g, false)
  else match nodes g !! id with
       | None => (g, false)
       | Some n =>
         if n_fail n then (g, false) else
         let '(g, newly) := escalate_fails (alter_node (λ n, with_fail n true (n_fail n)) id g) in
         (g, bool_decide (id ∈ newly))
       end.

(** ** What is gossiped, and elections *)

Definition node_values (g : Inner) : list ClusterNode := snd <$> node_iter (nodes g).

Definition peer_snapshots (g : Inner) : list ClusterNode := filter (λ n, n_myself n = false) (node_values g).

Definition local_fail_reports (g : Inner) : list Str :=
  sort_strings (n_id <$> filter (λ n, n_myself n = false ∧ (n_pfail n || n_fail n) = true) (node_values g)).

Definition role_entry (g : Inner) (n : ClusterNode) : RoleMapEntry :=
  mkRole (n_id n) (n_master n) (default [] (n_master_id n)) (n_ip n) (n_port n)
    (if n_myself n then local_repl_offset g else n_repl_offset n)
    (if n_myself n then local_repl_priority g else n_repl_priority n).
Definition role_map_snapshot (g : Inner) : list RoleMapEntry :=
  merge_sort (λ a b, str_le (rm_id a) (rm_id b)) (role_entry g <$> node_values g).

(** [Vec::dedup] *)
Fixpoint dedup (l : list Str) : list Str :=
  match l with
  | x :: ((y :: _) as l') => if decide (x = y) then dedup l' else x :: dedup l'
  | _ => l
  end.

Definition replicas_of (master_id : Str) (g : Inner) : list Str :=
  dedup (sort_strings (n_id <$> filter (λ n, n_fail n = false ∧ n_master n = false ∧ n_master_id n = Some master_id) (node_values g))).

(** Priority and offset of a candidate, as this node knows them. *)
Definition pri_off (g : Inner) (id : Str) : Z * Z :=
  if decide (id = my_id g) then (local_repl_priority g, local_repl_offset g)
  else (default 100 (n_repl_priority <$> nodes g !! id), default 0 (n_repl_offset <$> nodes g !! id)).

Definition cmp_candidates (g : Inner) (a b : Str) : comparison :=
  match (pri_off g a).1 ?= (pri_off g b).1 with
  | Eq => match (pri_off g a).2 ?= (pri_off g b).2 with
          | Eq => cmp_list Z.compare a b
          | c => c
          end
  | c => c
  end.

(** [Iterator::max_by]: the last of the greatest elements. *)
Definition max_by {A} (cmp : A → A → comparison) (l : list A) : option A :=
  foldl (λ best x, match best with None => Some x | Some b => match cmp b x with Gt => Some b | _ => Some x end end) None l.

Definition failover_election_winner (failed_master_id : Str) (g : Inner) : option Str :=
  if negb (is_replica_of failed_master_id g) then None else
  let candidates := replicas_of failed_master_id g in
  if decide (candidates = []) then (if local_repl_priority g =? 0 then None else Some (my_id g)) else
  let eligible := filter (λ id, 0 < (pri_off g id).1) candidates in
  if decide (eligible = []) then None else max_by (cmp_candidates g) eligible.

Definition election_repl_offset (node_id : Str) (g : Inner) : Z :=
  if decide (node_id = my_id g) then local_repl_offset g else default 0 (n_repl_offset <$> nodes g !! node_id).

Definition other_master_with_slots (g : Inner) : option Str :=
  snd <$> foldl (λ (best : option (nat * Str)) n,
    if n_myself n || n_fail n || negb (n_master n) || bool_decide (n_id n = my_id g) then best else
    let count := slots_of (n_id n) g in
    if (count =? 0)%nat then best else
    match best with
    | None => Some (count, n_id n)
    | Some (c, id) =>
      if (c <? count)%nat || ((count =? c)%nat && bool_decide (cmp_list Z.compare (n_id n) id = Gt)) then Some (count, n_id n) else best
    end) None (node_values g).

Definition should_claim_on_failover (failed_master_id : Str) (g : Inner) : bool :=
  match failover_election_winner failed_master_id g with Some w => bool_decide (w = my_id g) | None => false end.

Definition my_shard_id (g : Inner) : Str :=
  match me g with
  | Some n => match n_master n, n_master_id n with
              | false, Some mid => if decide (mid = []) then my_id g else mid
              | _, _ => my_id g
              end
  | None => my_id g
  end.

Definition my_role_wire (g : Inner) : Str * Str :=
  match me g with
  | Some n => if n_master n then (str "master", str "-") else (str "slave", default (str "-") (n_master_id n))
  | None => (str "master", str "-")
  end.

Definition manual_failover (mode : ManualFailoverMode) (g : Inner) : Inner * result Str nat :=
  match my_master_id g with
  | None => (g, Err (str "You should send CLUSTER FAILOVER to a replica"))
  | Some master_id =>
    let claim g := match claim_slots_from master_id g with Ok (g, n) => (g, Ok n) | Err e => (g, Err e) end in
    match mode with
    | Safe =>
      if negb (node_is_fail master_id g) && negb (node_is_pfail master_id g)
      then (g, Err (str "Master node is not marked as fail/pfail " ++ em_dash ++ str " use FORCE or TAKEOVER"))
      else if negb (should_claim_on_failover master_id g) then (g, Err (str "This replica is not the failover election winner"))
      else claim g
    | Force =>
      if negb (should_claim_on_failover master_id g) then (g, Err (str "This replica is not the failover election winner " ++ em_dash ++ str " use TAKEOVER"))
      else claim (mark_fail master_id g)
    | Takeover => claim (mark_fail master_id g)
    end
  end.

End iteration.

(** ** Moving a slot *)

Definition contains_node (id : Str) (g : Inner) : bool := bool_decide (is_Some (nodes g !! id)).

Definition give_slot (slot : Z) (node_id : Str) (g : Inner) : Inner :=
  let g := bump g in forget_transit (own g slot node_id (current_epoch g)) slot.

Definition reassign_slot (slot : Z) (node_id : Str) (g : Inner) : result Str Inner :=
  if negb (slot_ok slot) then Err (str "slot out of range: " ++ to_string slot)
  else if negb (contains_node node_id g) then Err (str "Unknown node " ++ node_id)
  else Ok (give_slot slot node_id g).

Definition set_migrating (slot : Z) (dest_node_id : Str) (g : Inner) : result Str Inner :=
  if negb (slot_ok slot) then Err (str "Slot out of range")
  else if negb (contains_node dest_node_id g) then Err (str "I don't know about node " ++ dest_node_id)
  else if negb (bool_decide (owner_at g slot = Some (my_id g))) then Err (str "I'm not the owner of hash slot")
  else Ok (set_transit g (<[slot := dest_node_id]> (migrating g)) (delete slot (importing g)) (prepare_node g)).

Definition set_importing (slot : Z) (source_node_id : Str) (g : Inner) : result Str Inner :=
  if negb (slot_ok slot) then Err (str "Slot out of range")
  else if negb (contains_node source_node_id g) then Err (str "I don't know about node " ++ source_node_id)
  else Ok (set_transit g (delete slot (migrating g)) (<[slot := source_node_id]> (importing g)) (prepare_node g)).

Definition set_stable (slot : Z) (g : Inner) : result Str Inner :=
  if negb (slot_ok slot) then Err (str "Slot out of range") else Ok (forget_transit g slot).

Definition set_prepare (g : Inner) (prep : gmap Z PrepareVote) : Inner := set_transit g (migrating g) (importing g) prep.
Definition drop_prepare (slot : Z) (g : Inner) : Inner := set_prepare g (delete slot (prepare_node g)).

(** The vote of [set_prepare_node], between the test hook and the autosave. *)
Definition record_vote (now slot : Z) (node_id : Str) (g : Inner) : result Str Inner :=
  if negb (contains_node node_id g) then Err (str "I don't know about node " ++ node_id) else
  let owner := default [] (owner_at g slot) in
  let owns := bool_decide (owner = my_id g) in
  let already_target := negb (bool_decide (owner = [])) && bool_decide (owner = node_id) in
  let vote := Ok (set_prepare g (<[slot := mkVote node_id (slot_epoch g slot) now]> (prepare_node g))) in
  if decide (node_id = my_id g) then
    if owns || already_target || bool_decide (is_Some (importing g !! slot)) then vote
    else if bool_decide (owner = []) || contains_node owner g then vote
    else Err (str "not ready to prepare NODE as dest for slot " ++ to_string slot ++ str " (unexpected owner " ++ owner ++ str ")")
  else
    if negb owns && negb already_target
    then Err (str "local neither owns slot " ++ to_string slot ++ str " nor already assigned to dest")
    else match migrating g !! slot with
         | Some m =>
           if decide (m = node_id) then vote
           else Err (str "MIGRATING dest is " ++ m ++ str " want " ++ node_id ++ str " for slot " ++ to_string slot)
         | None => vote
         end.

Definition prepare_topology_ready (g : Inner) (slot : Z) (node_id : Str) : result Str unit :=
  let owner := default [] (owner_at g slot) in
  let owns := bool_decide (owner = my_id g) in
  let already_target := negb (bool_decide (owner = [])) && bool_decide (owner = node_id) in
  if decide (node_id = my_id g) then
    if owns || already_target || bool_decide (is_Some (importing g !! slot)) then Ok tt
    else if bool_decide (owner = []) || contains_node owner g then Ok tt
    else Err (str "not ready to commit NODE as dest for slot " ++ to_string slot ++ str " (unexpected owner " ++ owner ++ str ")")
  else
    if negb owns && negb already_target
    then Err (str "local neither owns slot " ++ to_string slot ++ str " nor already assigned to dest (commit re-check)")
    else match migrating g !! slot with
         | Some m =>
           if decide (m = node_id) then Ok tt
           else Err (str "MIGRATING dest is " ++ m ++ str " want " ++ node_id ++ str " for slot " ++ to_string slot ++ str " (commit re-check)")
         | None => Ok tt
         end.

Definition purge_expired_prepare (now slot : Z) (g : Inner) : Inner :=
  match prepare_node g !! slot with
  | Some v => if prepare_vote_expired now v then drop_prepare slot g else g
  | None => g
  end.

Definition prepared_node (now slot : Z) (g : Inner) : Inner * option Str :=
  let g := purge_expired_prepare now slot g in (g, v_target_id <$> prepare_node g !! slot).
Definition prepared_slot_epoch (now slot : Z) (g : Inner) : Inner * option Z :=
  let g := purge_expired_prepare now slot g in (g, v_slot_epoch <$> prepare_node g !! slot).
Definition clear_all_prepares (g : Inner) : Inner := set_prepare g ∅.

(** The checks [check_prepare_valid] and [commit_prepare_node] share, after the test hook: the clock is
    read once for the lazy purge and once for the vote itself. *)
Definition recheck_vote (now now' slot : Z) (node_id : Str) (g : Inner) : Inner * result Str unit :=
  let g := purge_expired_prepare now slot g in
  match prepare_node g !! slot with
  | None => (g, Err (str "no prepare vote for slot " ++ to_string slot ++ str " (cleared, expired, or never set)"))
  | Some vote =>
    if negb (bool_decide (v_target_id vote = node_id))
    then (g, Err (str "prepare target is " ++ v_target_id vote ++ str " want " ++ node_id ++ str " for slot " ++ to_string slot))
    else if prepare_vote_expired now' vote
    then (drop_prepare slot g, Err (str "prepare vote expired for slot " ++ to_string slot))
    else if negb (v_slot_epoch vote =? slot_epoch g slot)
    then (g, Err (str "prepare epoch stale for slot " ++ to_string slot ++ str " (vote " ++ to_string (v_slot_epoch vote) ++
                  str " current " ++ to_string (slot_epoch g slot) ++ str ")"))
    else (g, prepare_topology_ready g slot node_id)
  end.

(** [commit_prepare_node] between the test hooks and the autosave. *)
Definition commit_vote (now now' slot : Z) (node_id : Str) (g : Inner) : Inner * result Str unit :=
  match recheck_vote now now' slot node_id g with
  | (g, Err e) => (g, Err e)
  | (g, Ok _) =>
    if negb (contains_node node_id g) then (g, Err (str "Unknown node " ++ node_id))
    else (give_slot slot node_id g, Ok tt)
  end.

(** ** Gossip of ownership *)

Definition node_addr (g : Inner) (owner_id : Str) : Str * Z :=
  match nodes g !! owner_id with Some n => (n_ip n, n_port n) | None => ([], 0) end.

(** The runs of equal elements of a table: first index, last index, element.  The loops of
    [ownership_snapshot], [slots_ranges] and [format_slot_epoch_header_lines] have this shape. *)
Fixpoint runs_from {A} `{EqDecision A} (start slot : Z) (cur : A) (l : list A) : list (Z * Z * A) :=
  match l with
  | [] => [(start, slot - 1, cur)]
  | x :: l => if decide (x = cur) then runs_from start (slot + 1) cur l
              else (start, slot - 1, cur) :: runs_from slot (slot + 1) x l
  end.
Definition runs {A} `{EqDecision A} (l : list A) : list (Z * Z * A) :=
  match l with [] => [] | x :: l => runs_from 0 1 x l end.

Definition ownership_snapshot (g : Inner) : list OwnershipRange :=
  (λ '(first, last, (owner, epoch)), let '(ip, port) := node_addr g owner in mkRange first last owner ip port epoch) <$>
  runs (zip (slot_owner g) (slot_config_epoch g)).

Definition slots_ranges (g : Inner) : list (Z * Z * ClusterNode) :=
  omap (λ '(first, last, owner),
    if decide (owner = []) then None else (λ n, (first, last, n)) <$> nodes g !! owner) (runs (slot_owner g)).

(** Install or refresh the owner of a range; [None] when it is unknown and has no address. *)
Definition learn_owner (t : Z) (r : OwnershipRange) (g : Inner) : option Inner :=
  if contains_node (or_owner_id r) g then
    Some (if negb (bool_decide (or_ip r = [])) && negb (or_port r =? 0)
          then alter_node (λ n, if n_myself n then n else with_address n (or_ip r) (or_port r)) (or_owner_id r) g else g)
  else if bool_decide (or_ip r = []) || (or_port r =? 0) then None
  else Some (first_pong t (or_owner_id r) (set_nodes g (<[or_owner_id r :=
         mkNode (or_owner_id r) (or_ip r) (or_port r) (sat_add_u16 (or_port r) 10000) false true None false false 0 100]> (nodes g)))).

(** Applied, skipped and rejected slots. *)
Definition apply_slot (r : OwnershipRange) (acc : Inner * (nat * nat * nat)) (slot : Z) : Inner * (nat * nat * nat) :=
  let '(g, (applied, skipped, rejected)) := acc in
  if bool_decide (is_Some (migrating g !! slot)) || bool_decide (is_Some (importing g !! slot)) then (g, (applied, S skipped, rejected))
  else if slot_epoch g slot <? or_epoch r then (own g slot (or_owner_id r) (or_epoch r), (S applied, skipped, rejected))
  else (g, (applied, skipped, S rejected)).

Definition apply_ownership_range (t : Z) (r : OwnershipRange) (g : Inner) : Inner * OwnershipApplyResult :=
  if (or_end r <? or_start r) || negb (slot_ok (or_end r)) then (g, Invalid)
  else if decide (or_owner_id r = []) then (g, Invalid)
  else match learn_owner t r g with
       | None => (g, RejectedStale)
       | Some g =>
         let '(g, (applied, skipped, rejected)) := foldl (apply_slot r) (g, (0, 0, 0)%nat) (seqZ (or_start r) (or_end r - or_start r + 1)) in
         let g := if (0 <? applied)%nat && (current_epoch g <? or_epoch r) then set_epoch g (or_epoch r) else g in
         (g, if (0 <? applied)%nat then Applied else if (0 <? skipped)%nat then SkippedTransition else RejectedStale)
       end.

(** Ranges applied, rejected and skipped. *)
Definition merge_range (t : Z) (acc : Inner * (Z * Z * Z)) (r : OwnershipRange) : Inner * (Z * Z * Z) :=
  let '(g, (applied, rejected, skipped)) := acc in
  match apply_ownership_range t r g with
  | (g, Applied) => (g, (applied + 1, rejected, skipped))
  | (g, RejectedStale) | (g, Invalid) => (g, (applied, rejected + 1, skipped))
  | (g, SkippedTransition) => (g, (applied, rejected, skipped + 1))
  end.
Definition merge_ownership_snapshot (t : Z) (ranges : list OwnershipRange) (g : Inner) : Inner * (Z * Z * Z) :=
  foldl (merge_range t) (g, (0, 0, 0)) ranges.

(** ** Redirections *)

Definition moved_target (slot : Z) (g : Inner) : option RedirectTarget :=
  n ← owner_of g slot; Some (mkRedirect slot (n_ip n) (n_port n) (n_id n)).
Definition ask_target (slot : Z) (g : Inner) : option RedirectTarget :=
  dest_id ← migrating g !! slot; n ← nodes g !! dest_id; Some (mkRedirect slot (n_ip n) (n_port n) (n_id n)).

Definition covered (g : Inner) (id : Str) : bool :=
  negb (bool_decide (id = [])) && match nodes g !! id with Some n => negb (n_fail n) | None => false end.
Definition has_full_coverage (g : Inner) : bool := forallb (covered g) (slot_owner g).
