(* ===== verification/ClusterConf.v ===== *)
(** * The [nodes.conf] file and the settings around the topology ([cluster/state.rs])

    The text of [CLUSTER NODES] and of the saved file, its parser, and the methods of [ClusterState]
    that involve more than the topology: flags, announced address, test hooks and saving.

    A file system is the map of its [nodes.conf] files by directory.  Whether a write succeeds is an
    argument: a failed one has an error, what it leaves of the file and whether the expired votes were
    purged before. *)

From S2P Require Import Prelude RustStd Text HashSlot ClusterState.
From Stdlib Require Import Lia.
Local Open Scope Z_scope.

Inductive Io : Type := IoDone | IoFailed (e : Str) (leaves : option Str) (purged : bool).

Record ClusterState : Type := mkCluster {
  inner : Inner;
  nodes_conf_dir : option Str;
  source_node_fail_inject : Z;
  prepare_fail_inject : Z;
  commit_recheck_clear_inject : Z;
  require_full_coverage : bool;
  allow_reads_when_down : bool;
  announce_ip : option Str;
  announce_port : option Z;
  disk : gmap Str Str
}.

Definition set_inner (c : ClusterState) (g : Inner) : ClusterState :=
  mkCluster g (nodes_conf_dir c) (source_node_fail_inject c) (prepare_fail_inject c) (commit_recheck_clear_inject c)
    (require_full_coverage c) (allow_reads_when_down c) (announce_ip c) (announce_port c) (disk c).
Definition set_dir (c : ClusterState) (dir : option Str) : ClusterState :=
  mkCluster (inner c) dir (source_node_fail_inject c) (prepare_fail_inject c) (commit_recheck_clear_inject c)
    (require_full_coverage c) (allow_reads_when_down c) (announce_ip c) (announce_port c) (disk c).
Definition set_injects (c : ClusterState) (source prepare recheck : Z) : ClusterState :=
  mkCluster (inner c) (nodes_conf_dir c) source prepare recheck
    (require_full_coverage c) (allow_reads_when_down c) (announce_ip c) (announce_port c) (disk c).
Definition set_flags (c : ClusterState) (full reads : bool) : ClusterState :=
  mkCluster (inner c) (nodes_conf_dir c) (source_node_fail_inject c) (prepare_fail_inject c) (commit_recheck_clear_inject c)
    full reads (announce_ip c) (announce_port c) (disk c).
Definition set_announce (c : ClusterState) (ip : option Str) (port : option Z) : ClusterState :=
  mkCluster (inner c) (nodes_conf_dir c) (source_node_fail_inject c) (prepare_fail_inject c) (commit_recheck_clear_inject c)
    (require_full_coverage c) (allow_reads_when_down c) ip port (disk c).
Definition set_disk (c : ClusterState) (d : gmap Str Str) : ClusterState :=
  mkCluster (inner c) (nodes_conf_dir c) (source_node_fail_inject c) (prepare_fail_inject c) (commit_recheck_clear_inject c)
    (require_full_coverage c) (allow_reads_when_down c) (announce_ip c) (announce_port c) d.

(** A method of the topology, run on the whole state. *)
Definition on_inner (f : Inner → Inner) (c : ClusterState) : ClusterState := set_inner c (f (inner c)).

(** ** Construction *)

Definition with_identity (ip : Str) (port : Z) (id : Str) (master : bool) (master_id : option Str) (own_all_slots : bool) : ClusterState :=
  let node := mkNode id ip port (sat_add_u16 port 10000) true master master_id false false 0 100 in
  let owner := if own_all_slots then id else [] in
  mkCluster (mkInner id ip port (replicate (Z.to_nat SLOT_COUNT) owner) (replicate (Z.to_nat SLOT_COUNT) 1) ∅ ∅ ∅ {[id := node]} 1
               DEFAULT_NODE_TIMEOUT_MS ∅ ∅ 0 100)
    None 0 0 0 true false None None ∅.

(** [{:0w$x}] *)
Definition hex_digit (n : Z) : Z := if n <? 10 then 48 + n else 87 + n.
Fixpoint hex (width : nat) (n : Z) : Str :=
  match width with
  | O => []
  | S w => hex w (n / 16) ++ [hex_digit (n mod 16)]
  end.

(** [generate_node_id]: a [u128] never has more than 32 digits, a [u32] never more than 8. *)
Definition generate_node_id (nanos : Z) : Str :=
  let mixed := (nanos * 11400714819323198485 + 16045690984503098046) mod 2 ^ 128 in
  hex 32 mixed ++ hex 8 (Z.shiftr mixed 64 mod 2 ^ 32).

Definition single_node (nanos : Z) (ip : Str) (port : Z) : ClusterState := with_identity ip port (generate_node_id nanos) true None true.

(** ** Settings *)

Definition set_require_full_coverage (b : bool) (c : ClusterState) : ClusterState := set_flags c b (allow_reads_when_down c).
Definition set_allow_reads_when_down (b : bool) (c : ClusterState) : ClusterState := set_flags c (require_full_coverage c) b.

Definition advertised_addr (c : ClusterState) : Str * Z :=
  (default (my_ip (inner c)) (announce_ip c), default (my_port (inner c)) (announce_port c)).

Definition refresh_myself_advertised (c : ClusterState) : ClusterState :=
  let '(ip, port) := advertised_addr c in
  on_inner (λ g, alter_node (λ n, with_address n ip port) (my_id g) g) c.

Definition set_announce_ip (ip : option Str) (c : ClusterState) : ClusterState :=
  refresh_myself_advertised (set_announce c (i ← ip; if decide (i = []) then None else Some i) (announce_port c)).
Definition set_announce_port (port : option Z) (c : ClusterState) : ClusterState :=
  refresh_myself_advertised (set_announce c (announce_ip c) (p ← port; if 0 <? p then Some p else None)).
Definition set_nodes_conf_dir (dir : Str) (c : ClusterState) : ClusterState := set_dir c (if decide (dir = []) then None else Some dir).

Definition cluster_state_ok (c : ClusterState) : bool := if negb (require_full_coverage c) then true else has_full_coverage (inner c).

(** ** Printing *)

Definition nl : Str := [10].

Fixpoint slot_ranges_from (slot : Z) (open : option Z) (node_id : Str) (l : list Str) : list (Z * Z) :=
  match l with
  | [] => match open with Some first => [(first, slot - 1)] | None => [] end
  | o :: l =>
    if decide (o = node_id) then slot_ranges_from (slot + 1) (Some (default slot open)) node_id l
    else match open with
         | Some first => (first, slot - 1) :: slot_ranges_from (slot + 1) None node_id l
         | None => slot_ranges_from (slot + 1) None node_id l
         end
  end.
Definition slot_ranges_for (slot_owner : list Str) (node_id : Str) : list (Z * Z) := slot_ranges_from 0 None node_id slot_owner.

Definition range_word (r : Z * Z) : Str := if r.1 =? r.2 then to_string r.1 else to_string r.1 ++ str "-" ++ to_string r.2.

Definition flag_words (n : ClusterNode) : list Str :=
  (if n_myself n then [str "myself"] else []) ++ (if n_fail n then [str "fail"] else if n_pfail n then [str "fail?"] else []) ++
  [if n_master n then str "master" else str "slave"].

(** The ids of [format_nodes]: this node first, then in order. *)
Definition node_ids (g : Inner) : list Str :=
  (if decide (is_Some (nodes g !! my_id g)) then [my_id g] else []) ++
  sort_strings ((map_to_list (delete (my_id g) (nodes g))).*1).

Section printing.
Context `{!ClusterOrder}.

Definition transit_words (g : Inner) : list Str :=
  ((λ x : Z * Str, str "[" ++ to_string x.1 ++ str "->-" ++ x.2 ++ str "]") <$> slot_iter (migrating g)) ++
  ((λ x : Z * Str, str "[" ++ to_string x.1 ++ str "-<-" ++ x.2 ++ str "]") <$> slot_iter (importing g)).

Definition node_line (g : Inner) (id : Str) (n : ClusterNode) : Str :=
  let range_str := join space ((range_word <$> slot_ranges_for (slot_owner g) id) ++ if n_myself n then transit_words g else []) in
  n_id n ++ space ++ n_ip n ++ str ":" ++ to_string (n_port n) ++ str "@" ++ to_string (n_cport n) ++ space ++
  join (str ",") (flag_words n) ++ space ++ default (str "-") (n_master_id n) ++ space ++ to_string 0 ++ space ++ to_string 0 ++ space ++
  to_string (current_epoch g) ++ space ++ (if n_fail n then str "disconnected" else str "connected") ++
  (if decide (range_str = []) then [] else space ++ range_str).

Definition format_nodes (g : Inner) : Str :=
  join nl (omap (λ id, node_line g id <$> nodes g !! id) (node_ids g)) ++ nl.

Definition format_slot_epoch_header_lines (g : Inner) : list Str :=
  (λ '(first, last, e), str "# slot-epoch " ++ to_string first ++ space ++ to_string last ++ space ++ to_string e) <$> runs (slot_config_epoch g).

(** The votes that are not expired, by slot. *)
Definition purge_votes (now : Z) (g : Inner) : Inner :=
  set_prepare g (filter (λ x, prepare_vote_expired now x.2 = false) (prepare_node g)).
Definition prepare_line (slot : Z) (v : PrepareVote) : Str :=
  str "# prepare " ++ to_string slot ++ space ++ v_target_id v ++ space ++ to_string (v_slot_epoch v) ++ space ++ to_string (v_prepared_at v).
Definition format_prepare_header_lines (g : Inner) : list Str :=
  omap (λ slot, (λ v, prepare_line slot v) <$> prepare_node g !! slot) (merge_sort Z.le (map_to_list (prepare_node g)).*1).

Definition yes_no (b : bool) : Str := if b then str "yes" else str "no".

Definition header_lines (now : Z) (c : ClusterState) : list Str :=
  [ str "# Kore cluster nodes.conf generated by CLUSTER SAVECONFIG";
    str "# epoch " ++ to_string (current_epoch (inner c));
    str "# require-full-coverage " ++ yes_no (require_full_coverage c);
    str "# allow-reads-when-down " ++ yes_no (allow_reads_when_down c);
    match announce_ip c with Some ip => str "# announce-ip " ++ ip | None => str "# announce-ip" end;
    match announce_port c with Some p => str "# announce-port " ++ to_string p | None => str "# announce-port 0" end;
    str "# replica-priority " ++ to_string (local_repl_priority (inner c)) ] ++
  format_slot_epoch_header_lines (inner c) ++ format_prepare_header_lines (purge_votes now (inner c)).

Definition conf_text (now : Z) (c : ClusterState) : Str :=
  concat ((λ l, l ++ nl) <$> header_lines now c) ++ format_nodes (inner c).

Definition save_nodes_conf_to (io : Io) (now : Z) (dir : Str) (c : ClusterState) : ClusterState * result Str unit :=
  let key := if decide (dir = []) then str "." else dir in
  match io with
  | IoDone => (set_disk (on_inner (purge_votes now) c) (<[key := conf_text now c]> (disk c)), Ok tt)
  | IoFailed e leaves purged =>
    let c := if purged then on_inner (purge_votes now) c else c in
    (set_disk c (match leaves with Some text => <[key := text]> (disk c) | None => disk c end), Err e)
  end.

Definition autosave_nodes_conf (io : Io) (now : Z) (c : ClusterState) : ClusterState :=
  match nodes_conf_dir c with
  | None => c
  | Some dir => (save_nodes_conf_to io now dir c).1
  end.

(** ** Votes *)

Definition take_source_node_inject_fail (c : ClusterState) : ClusterState * bool :=
  let n := source_node_fail_inject c in
  if 0 <? n then (set_injects c (n - 1) (prepare_fail_inject c) (commit_recheck_clear_inject c), true) else (c, false).
Definition take_prepare_inject_fail (c : ClusterState) : ClusterState * bool :=
  let n := prepare_fail_inject c in
  if 0 <? n then (set_injects c (source_node_fail_inject c) (n - 1) (commit_recheck_clear_inject c), true) else (c, false).
Definition take_commit_recheck_clear_inject (c : ClusterState) : ClusterState * bool :=
  let n := commit_recheck_clear_inject c in
  if 0 <? n then (set_injects c (source_node_fail_inject c) (prepare_fail_inject c) (n - 1), true) else (c, false).

Definition set_prepare_node (io : Io) (now slot : Z) (node_id : Str) (c : ClusterState) : ClusterState * result Str unit :=
  if negb (slot_ok slot) then (c, Err (str "Slot out of range")) else
  let '(c, inject) := take_prepare_inject_fail c in
  if inject then (c, Err (str "injected PREPARE failure")) else
  match record_vote now slot node_id (inner c) with
  | Err e => (c, Err e)
  | Ok g => (autosave_nodes_conf io now (set_inner c g), Ok tt)
  end.

Definition abort_prepare_node (io : Io) (now slot : Z) (c : ClusterState) : ClusterState * result Str unit :=
  if negb (slot_ok slot) then (c, Err (str "Slot out of range"))
  else (autosave_nodes_conf io now (on_inner (drop_prepare slot) c), Ok tt).

Definition recheck_hook (slot : Z) (c : ClusterState) : ClusterState :=
  let '(c, clear) := take_commit_recheck_clear_inject c in if clear then on_inner (drop_prepare slot) c else c.

Definition check_prepare_valid (now now' slot : Z) (node_id : Str) (c : ClusterState) : ClusterState * result Str unit :=
  if negb (slot_ok slot) then (c, Err (str "Slot out of range")) else
  let c := recheck_hook slot c in
  let '(g, r) := recheck_vote now now' slot node_id (inner c) in (set_inner c g, r).

Definition commit_prepare_node (io : Io) (now now' slot : Z) (node_id : Str) (c : ClusterState) : ClusterState * result Str unit :=
  if negb (slot_ok slot) then (c, Err (str "Slot out of range")) else
  let '(c, inject) := take_source_node_inject_fail c in
  if inject then (c, Err (str "injected source NODE failure")) else
  let c := recheck_hook slot c in
  match commit_vote now now' slot node_id (inner c) with
  | (g, Ok _) => (autosave_nodes_conf io now' (set_inner c g), Ok tt)
  | (g, Err e) => (set_inner c g, Err e)
  end.

Definition set_node (slot : Z) (node_id : Str) (c : ClusterState) : ClusterState * result Str unit :=
  let '(c, inject) := take_source_node_inject_fail c in
  if inject then (c, Err (str "injected source NODE failure")) else
  match reassign_slot slot node_id (inner c) with
  | Ok g => (set_inner c g, Ok tt)
  | Err e => (c, Err e)
  end.

End printing.

(** ** Parsing *)

(** [parse::<u16>], [parse::<u32>] *)
Definition parse_u16 (s : Str) : option Z := z ← parse_u64 s; if z <=? u16_max then Some z else None.
Definition parse_u32 (s : Str) : option Z := z ← parse_u64 s; if z <=? u32_max then Some z else None.

(** [str::strip_prefix] *)
Fixpoint strip_prefix (p s : Str) : option Str :=
  match p, s with
  | [], _ => Some s
  | c :: p, d :: s => if c =? d then strip_prefix p s else None
  | _ :: _, [] => None
  end.

(** [str::rsplit_once] on a character *)
Definition rsplit_once (d : Z) (s : Str) : option (Str * Str) :=
  '(b, a) ← split_once d (reverse s); Some (reverse a, reverse b).

(** [str::split] on a character: [cur] holds the current piece, reversed. *)
Fixpoint split_from (d : Z) (cur s : Str) : list Str :=
  match s with
  | [] => [reverse cur]
  | c :: r => if c =? d then reverse cur :: split_from d [] r else split_from d (c :: cur) r
  end.
Definition split_on (d : Z) (s : Str) : list Str := split_from d [] s.

(** [splitn(2, char::is_whitespace)]: what is in front of the first white space, and what follows it. *)
Fixpoint split_space (s : Str) : Str * Str :=
  match s with
  | [] => ([], [])
  | c :: r => if is_whitespace c then ([], r) else let '(a, b) := split_space r in (c :: a, b)
  end.

Definition starts_with (d : Z) (s : Str) : bool := match s with c :: _ => c =? d | [] => false end.
Definition hash_mark : Z := 35.

Definition parse_nodes_conf_header_epoch (text : Str) : option Z :=
  head (omap (λ line, rest ← strip_prefix (str "# epoch ") (trim line); parse_u64 (trim rest)) (lines text)).

Record NodesConfLiveFlags : Type := mkFlags {
  f_require_full_coverage : option bool;
  f_allow_reads_when_down : option bool;
  f_announce_ip : option Str;
  f_announce_port : option Z;
  f_replica_priority : option Z
}.

Definition parse_yes_no (s : Str) : option bool :=
  let t := to_ascii_lowercase (trim s) in
  if decide (t ∈ [str "yes"; str "true"; str "1"; str "on"]) then Some true
  else if decide (t ∈ [str "no"; str "false"; str "0"; str "off"]) then Some false
  else None.

(** What follows the hash marks of a comment line. *)
Definition comment (line : Str) : option Str :=
  let t := trim line in if starts_with hash_mark t then Some (trim (trim_start_matches hash_mark t)) else None.

(** The newer value when there is one. *)
Definition update {A} (old new : option A) : option A := match new with Some _ => new | None => old end.

Definition parse_flag_line (fl : NodesConfLiveFlags) (line : Str) : NodesConfLiveFlags :=
  match comment line with
  | None => fl
  | Some rest =>
    if decide (rest = []) then fl else
    let '(key, after) := split_space rest in
    let val := trim after in
    if decide (key = str "require-full-coverage") then
      mkFlags (update (f_require_full_coverage fl) (parse_yes_no val)) (f_allow_reads_when_down fl) (f_announce_ip fl) (f_announce_port fl) (f_replica_priority fl)
    else if decide (key = str "allow-reads-when-down") then
      mkFlags (f_require_full_coverage fl) (update (f_allow_reads_when_down fl) (parse_yes_no val)) (f_announce_ip fl) (f_announce_port fl) (f_replica_priority fl)
    else if decide (key = str "announce-ip") then
      mkFlags (f_require_full_coverage fl) (f_allow_reads_when_down fl) (Some val) (f_announce_port fl) (f_replica_priority fl)
    else if decide (key = str "announce-port") then
      mkFlags (f_require_full_coverage fl) (f_allow_reads_when_down fl) (f_announce_ip fl)
        (if decide (val = []) then Some 0 else update (f_announce_port fl) (parse_u16 val)) (f_replica_priority fl)
    else if decide (key = str "replica-priority") then
      mkFlags (f_require_full_coverage fl) (f_allow_reads_when_down fl) (f_announce_ip fl) (f_announce_port fl) (update (f_replica_priority fl) (parse_u32 val))
    else fl
  end.

Definition parse_nodes_conf_live_flags (text : Str) : NodesConfLiveFlags :=
  foldl parse_flag_line (mkFlags None None None None None) (lines text).

Definition parse_slot_epoch (line : Str) : option (Z * Z * Z) :=
  rest ← comment line;
  match split_whitespace rest with
  | key :: a :: b :: parts =>
    if decide (key = str "slot-epoch") then
      a ← parse_u16 a;
      match parts with
      | third :: _ =>
        last ← parse_u16 b; epoch ← parse_u64 third;
        if (last <? a) || negb (slot_ok last) then None else Some (a, last, epoch)
      | [] => epoch ← parse_u64 b; if negb (slot_ok a) then None else Some (a, a, epoch)
      end
    else None
  | _ => None
  end.

Definition parse_nodes_conf_slot_epochs (text : Str) : list (Z * Z * Z) := omap parse_slot_epoch (lines text).

Definition parse_prepare (now : Z) (line : Str) : option (Z * PrepareVote) :=
  rest ← comment line;
  match split_whitespace rest with
  | key :: slot_s :: target :: epoch_s :: ts_s :: _ =>
    if decide (key = str "prepare") then
      slot ← parse_u16 slot_s;
      if negb (slot_ok slot) then None else
      epoch ← parse_u64 epoch_s; ts ← parse_u64 ts_s;
      let v := mkVote target epoch ts in
      if prepare_vote_expired now v then None else Some (slot, v)
    else None
  | _ => None
  end.

Definition parse_nodes_conf_prepares (now : Z) (text : Str) : gmap Z PrepareVote :=
  foldl (λ m line, match parse_prepare now line with Some (slot, v) => <[slot := v]> m | None => m end) ∅ (lines text).

Record ParsedNodesLine : Type := mkLine {
  l_id : Str;
  l_ip : Str;
  l_port : Z;
  l_myself : bool;
  l_master : bool;
  l_fail : bool;
  l_pfail : bool;
  l_master_id : option Str;
  l_epoch : Z;
  l_slots : list (Z * Z)
}.

Definition at_line (lineno : Z) (what : Str) : Str := str "line " ++ to_string (lineno + 1) ++ str ": " ++ what.

(** The slots of one word of a node line. *)
Definition parse_slot_word (lineno : Z) (tok : Str) : result Str (list (Z * Z)) :=
  if starts_with 91 tok then Ok [] else
  match split_once 45 tok with
  | Some (a, b) =>
    match parse_u16 a, parse_u16 b with
    | Some first, Some last => Ok (if (first <=? last) && slot_ok last then [(first, last)] else [])
    | _, _ => Err (at_line lineno (str "bad slot range " ++ tok))
    end
  | None =>
    match parse_u16 tok with
    | Some s => Ok (if slot_ok s then [(s, s)] else [])
    | None => Err (at_line lineno (str "bad slot " ++ tok))
    end
  end.

Fixpoint parse_slot_words (lineno : Z) (toks : list Str) : result Str (list (Z * Z)) :=
  match toks with
  | [] => Ok []
  | tok :: toks => a ← parse_slot_word lineno tok; b ← parse_slot_words lineno toks; Ok (a ++ b)
  end.

Definition parse_node_line (lineno : Z) (line : Str) : result Str ParsedNodesLine :=
  match split_whitespace line with
  | id :: addr :: flags :: master :: ping :: pong :: epoch :: link :: slots =>
    let ip_port := match split_once 64 addr with Some (a, _) => a | None => addr end in
    match rsplit_once 58 ip_port with
    | None => Err (at_line lineno (str "bad address " ++ addr))
    | Some (ip, port_s) =>
      match parse_u16 port_s with
      | None => Err (at_line lineno (str "bad port"))
      | Some port =>
        let fs := split_on 44 flags in
        slots ← parse_slot_words lineno slots;
        Ok (mkLine id ip port (bool_decide (str "myself" ∈ fs)) (bool_decide (str "master" ∈ fs) || negb (bool_decide (str "slave" ∈ fs)))
              (bool_decide (str "fail" ∈ fs)) (bool_decide (str "fail?" ∈ fs)) (if decide (master = str "-") then None else Some master)
              (default 1 (parse_u64 epoch)) slots)
      end
    end
  | _ => Err (at_line lineno (str "expected at least 8 fields"))
  end.

Fixpoint parse_lines_from (lineno : Z) (ls : list Str) : result Str (list ParsedNodesLine) :=
  match ls with
  | [] => Ok []
  | line :: ls =>
    let line := trim line in
    if bool_decide (line = []) || starts_with hash_mark line then parse_lines_from (lineno + 1) ls
    else l ← parse_node_line lineno line; rest ← parse_lines_from (lineno + 1) ls; Ok (l :: rest)
  end.
Definition parse_nodes_conf_lines (text : Str) : result Str (list ParsedNodesLine) := parse_lines_from 0 (lines text).

(** ** Loading *)

(** Give the slots of a range an owner and an epoch, or only an epoch. *)
Definition stamp_range (owner : option Str) (epoch : Z) (g : Inner) (r : Z * Z) : Inner :=
  foldl (λ g slot, if slot_ok slot then own g slot (default (default [] (owner_at g slot)) owner) epoch else g) g (seqZ r.1 (r.2 - r.1 + 1)).

Definition load_node_line (t epoch : Z) (g : Inner) (l : ParsedNodesLine) : Inner :=
  let g :=
    if decide (l_id l = my_id g)
    then alter_node (λ n, with_fail (with_role n (l_master l) (l_master_id l)) false false) (my_id g) g
    else first_pong t (l_id l) (set_nodes g (<[l_id l :=
           mkNode (l_id l) (l_ip l) (l_port l) (sat_add_u16 (l_port l) 10000) false (l_master l) (l_master_id l) (l_pfail l) (l_fail l) 0 100]> (nodes g))) in
  foldl (stamp_range (Some (l_id l)) epoch) g (l_slots l).

Definition load_slot_epoch (g : Inner) (x : Z * Z * Z) : Inner :=
  let '(first, last, e) := x in
  let e := Z.max e 1 in
  let g := stamp_range None e g (first, last) in
  if current_epoch g <? e then set_epoch g e else g.

Definition max_epoch (ls : list ParsedNodesLine) : Z := foldr Z.max 0 (l_epoch <$> ls).

Definition apply_live (fl : NodesConfLiveFlags) (c : ClusterState) : ClusterState :=
  let c := match f_require_full_coverage fl with Some b => set_require_full_coverage b c | None => c end in
  let c := match f_allow_reads_when_down fl with Some b => set_allow_reads_when_down b c | None => c end in
  let c := match f_announce_ip fl with Some ip => set_announce_ip (if decide (ip = []) then None else Some ip) c | None => c end in
  let c := match f_announce_port fl with Some p => set_announce_port (if p =? 0 then None else Some p) c | None => c end in
  match f_replica_priority fl with Some p => on_inner (set_local_repl_priority p) c | None => c end.

(** The line of this node: the one flagged so, else the one at this address. *)
Definition find_myself (ip : Str) (port : Z) (ls : list ParsedNodesLine) : option ParsedNodesLine :=
  match list_find (λ l, l_myself l = true) ls with
  | Some (_, l) => Some l
  | None => snd <$> list_find (λ l, l_ip l = ip ∧ l_port l = port) ls
  end.

Definition from_nodes_conf (now t : Z) (ip : Str) (port : Z) (text : Str) : result Str ClusterState :=
  ls ← parse_nodes_conf_lines text;
  if decide (ls = []) then Err (str "no node lines in nodes.conf") else
  match find_myself ip port ls with
  | None => Err (str "no myself line and no node matching this process ip:port")
  | Some l =>
    let c := with_identity ip port (l_id l) (l_master l) (l_master_id l) false in
    let epoch := Z.max (default (max_epoch ls) (parse_nodes_conf_header_epoch text)) 1 in
    let g := foldl (load_node_line t epoch) (set_epoch (inner c) epoch) ls in
    let g := foldl load_slot_epoch g (parse_nodes_conf_slot_epochs text) in
    let g := set_prepare g (parse_nodes_conf_prepares now text ∪ prepare_node g) in
    Ok (apply_live (parse_nodes_conf_live_flags text) (set_inner c g))
  end.

(** [load_or_single_node]: the file, when it could be read. *)
Definition load_or_single_node (nanos now t : Z) (ip : Str) (port : Z) (file : option Str) : ClusterState :=
  match file with
  | Some text => match from_nodes_conf now t ip port text with Ok c => c | Err _ => single_node nanos ip port end
  | None => single_node nanos ip port
  end.
