(* ===== verification/ClusterGossip.v ===== *)
(** * Gossip between the nodes of a cluster ([cluster/gossip.rs])

    The replies of [CLUSTER OWNERS], [ROLEMAP] and [FAILREPORTS] with their parsers, and a round of
    gossip: probes of the peers, merging of what they answer, failure detection, election and
    promotion.

    What the network answers is an argument.  The effects on replication and on other nodes are a list
    of actions. *)

From S2P Require Import Prelude RustStd Text Resp Reply HashSlot ClusterState ClusterConf.
From Stdlib Require Import Lia.
Local Open Scope Z_scope.

Definition bulk_str (s : Str) : RespValue := bulk (as_bytes s).
(** [n as i64] of a [u64] *)
Definition as_i64 (n : Z) : RespValue := Integer (wrap_i64 n).

Section replies.
Context `{!ClusterOrder}.

Definition owners_row (r : OwnershipRange) : RespValue :=
  Array [Integer (or_start r); Integer (or_end r); bulk_str (or_owner_id r); bulk_str (or_ip r); Integer (or_port r); as_i64 (or_epoch r)].
Definition cluster_owners_reply (g : Inner) : RespValue := Array (owners_row <$> ownership_snapshot g).

Definition rolemap_row (e : RoleMapEntry) : RespValue :=
  Array [bulk_str (rm_id e); bulk_str (if rm_master e then str "master" else str "slave");
         bulk_str (if decide (rm_master_id e = []) then str "-" else rm_master_id e); bulk_str (rm_ip e); Integer (rm_port e);
         as_i64 (rm_repl_offset e); Integer (rm_repl_priority e)].
Definition cluster_rolemap_reply (g : Inner) : RespValue := Array (rolemap_row <$> role_map_snapshot g).

Definition cluster_failreports_reply (g : Inner) : RespValue := Array (bulk_str <$> local_fail_reports g).

(** ** Parsing them *)

Fixpoint parse_rows {A} (f : RespValue → result Str A) (rows : list RespValue) : result Str (list A) :=
  match rows with
  | [] => Ok []
  | row :: rows => a ← f row; l ← parse_rows f rows; Ok (a :: l)
  end.

Definition bulk_field (what : Str) (v : RespValue) : result Str Str :=
  match as_bulk_string v with Some b => Ok (from_utf8_lossy b) | None => Err what end.
Definition u16_field (what : Str) (v : RespValue) : result Str Z :=
  match v with Integer n => if (0 <=? n) && (n <=? u16_max) then Ok n else Err what | _ => Err what end.
Definition u64_field (what : Str) (v : RespValue) : result Str Z :=
  match v with Integer n => if 0 <=? n then Ok (wrap_u64 n) else Err what | _ => Err what end.

Definition parse_owners_row (row : RespValue) : result Str OwnershipRange :=
  match row with
  | Array fields =>
    match fields with
    | f0 :: f1 :: f2 :: f3 :: f4 :: f5 :: _ =>
      first ← u16_field (str "OWNERS start not integer") f0;
      last ← u16_field (str "OWNERS end not integer") f1;
      owner_id ← bulk_field (str "OWNERS owner_id not bulk") f2;
      ip ← bulk_field (str "OWNERS ip not bulk") f3;
      port ← u16_field (str "OWNERS port not integer") f4;
      epoch ← u64_field (str "OWNERS epoch not integer") f5;
      Ok (mkRange first last owner_id ip port epoch)
    | _ => Err (str "OWNERS row needs 6 fields, got " ++ to_string (zlen fields))
    end
  | _ => Err (str "OWNERS row is not an array")
  end.
Definition parse_owners_reply (v : RespValue) : result Str (list OwnershipRange) :=
  match v with Array rows => parse_rows parse_owners_row rows | _ => Err (str "OWNERS reply is not an array") end.

Definition parse_rolemap_row (row : RespValue) : result Str RoleMapEntry :=
  match row with
  | Array fields =>
    match fields with
    | f0 :: f1 :: f2 :: f3 :: f4 :: more =>
      id ← bulk_field (str "ROLEMAP id not bulk") f0;
      role ← bulk_field (str "ROLEMAP role not bulk") f1;
      master_id ← bulk_field (str "ROLEMAP master_id not bulk") f2;
      ip ← bulk_field (str "ROLEMAP ip not bulk") f3;
      port ← u16_field (str "ROLEMAP port not integer") f4;
      let repl_offset := match more with Integer n :: _ => if 0 <=? n then wrap_u64 n else 0 | _ => 0 end in
      let repl_priority := match more with _ :: Integer n :: _ => if (0 <=? n) && (n <=? u32_max) then n else 100 | _ => 100 end in
      Ok (mkRole id (bool_decide (to_ascii_lowercase role = str "master")) (if decide (master_id = str "-") then [] else master_id) ip port
            repl_offset repl_priority)
    | _ => Err (str "ROLEMAP row needs " ++ [8805] ++ str "5 fields, got " ++ to_string (zlen fields))
    end
  | _ => Err (str "ROLEMAP row is not an array")
  end.
Definition parse_rolemap_reply (v : RespValue) : result Str (list RoleMapEntry) :=
  match v with Array rows => parse_rows parse_rolemap_row rows | _ => Err (str "ROLEMAP reply is not an array") end.

Definition parse_fail_reports_reply (v : RespValue) : result Str (list Str) :=
  match v with
  | Array rows => parse_rows (bulk_field (str "FAILREPORTS entry not bulk")) rows
  | _ => Err (str "FAILREPORTS reply is not an array")
  end.

(** ** Pulling from a peer: [None] is a command that failed. *)

Definition pull_and_merge_owners (t : Z) (reply : option RespValue) (g : Inner) : Inner :=
  match reply with
  | Some v => match parse_owners_reply v with Ok ranges => (merge_ownership_snapshot t ranges g).1 | Err _ => g end
  | None => g
  end.
Definition pull_and_merge_rolemap (t : Z) (reply : option RespValue) (g : Inner) : Inner :=
  match reply with
  | Some v => match parse_rolemap_reply v with Ok entries => merge_role_map t entries g | Err _ => g end
  | None => g
  end.
Definition pull_and_ingest_fail_reports (peer_id : Str) (reply : option RespValue) (g : Inner) : Inner :=
  match reply with
  | Some v => match parse_fail_reports_reply v with Ok suspects => ingest_fail_reports peer_id suspects g | Err _ => g end
  | None => g
  end.

(** What one probe meets: whether the bus answers with PONG, whether the client port accepts, and the
    replies there. *)
Record Probe : Type := mkProbe {
  pr_time : Z;
  pr_bus : bool;
  pr_connect : bool;
  pr_ping : option RespValue;
  pr_owners : option RespValue;
  pr_rolemap : option RespValue;
  pr_failreports : option RespValue
}.

Definition is_pong (v : option RespValue) : bool :=
  match v with
  | Some (SimpleString s) | Some (BulkString (Some s)) => bool_decide (s = bs "PONG")
  | _ => false
  end.

Definition ping_and_sync (peer_id : Str) (p : Probe) (g : Inner) : Inner * bool :=
  if negb (pr_connect p) then (g, pr_bus p)
  else if negb (pr_bus p) && negb (is_pong (pr_ping p)) then (g, false)
  else
    let g := pull_and_merge_owners (pr_time p) (pr_owners p) g in
    let g := pull_and_merge_rolemap (pr_time p) (pr_rolemap p) g in
    (pull_and_ingest_fail_reports peer_id (pr_failreports p) g, true).

(** ** Failover *)

Inductive Action : Type := SetReplicaOf (addr : Str) | PromoteToMaster | AnnounceFail (to failed : Str).

(** The replication offset, when there is a persistence manager. *)
Definition refresh_offset (repl : option Z) (g : Inner) : Inner :=
  match repl with Some off => set_local_repl_offset off g | None => g end.

(** The replication of this node is pointed at another one. *)
Definition point_at (repl : option Z) (id : Str) (g : Inner) : list Action :=
  match repl, nodes g !! id with
  | Some _, Some n => [SetReplicaOf (n_ip n ++ str ":" ++ to_string (n_port n))]
  | _, _ => []
  end.

Definition follow_new_master (repl : option Z) (winner : Str) (g : Inner) : Inner * list Action :=
  match reconfigure_as_replica_of_failover_winner winner g with
  | Ok g => (g, point_at repl winner g)
  | Err _ => (g, [])
  end.

Definition maybe_failover_on_master_fail (io : Io) (now : Z) (repl : option Z) (failed_id : Str) (c : ClusterState) : ClusterState * list Action :=
  if negb (is_replica_of failed_id (inner c)) then (c, []) else
  let c := on_inner (refresh_offset repl) c in
  if negb (should_claim_on_failover failed_id (inner c)) then
    match failover_election_winner failed_id (inner c) with
    | None => (c, [])
    | Some winner => let '(g, acts) := follow_new_master repl winner (inner c) in (set_inner c g, acts)
    end
  else
    let promote := match repl with Some _ => [PromoteToMaster] | None => [] end in
    match claim_slots_from failed_id (inner c) with
    | Ok (g, _) => (autosave_nodes_conf io now (set_inner c g), promote)
    | Err _ => (c, promote)
    end.

Definition force_mark_fail (io : Io) (now : Z) (repl : option Z) (node_id : Str) (c : ClusterState) : ClusterState * list Action :=
  maybe_failover_on_master_fail io now repl node_id (on_inner (mark_fail node_id) c).

(** One iteration over the failed masters. *)
Definition follow_winner (repl : option Z) (acc : Inner * list Action) (failed_id : Str) : Inner * list Action :=
  let '(g, acts) := acc in
  match failover_election_winner failed_id g with
  | Some winner =>
    if bool_decide (winner = my_id g) || is_replica_of winner g then (g, acts)
    else let '(g, more) := follow_new_master repl winner g in (g, acts ++ more)
  | None => (g, acts)
  end.

Definition try_follow_failed_masters (repl : option Z) (g : Inner) : Inner * list Action :=
  let my_failed_masters := n_id <$> filter (λ p, n_fail p = true ∧ is_replica_of (n_id p) g = true) (peer_snapshots g) in
  if decide (my_failed_masters = []) then (g, []) else
  let g := refresh_offset repl g in
  match other_master_with_slots g with
  | Some new_master => if is_replica_of new_master g then (g, []) else follow_new_master repl new_master g
  | None =>
    foldl (follow_winner repl) (g, []) my_failed_masters
  end.

Definition superseded (other : Str) (g : Inner) : bool :=
  let my_slots := slots_of (my_id g) g in
  let other_slots := slots_of other g in
  (my_slots <? other_slots)%nat ||
  ((other_slots =? my_slots)%nat && bool_decide (cmp_list Z.compare other (my_id g) = Gt)) ||
  ((my_slots =? 0)%nat && (0 <? other_slots)%nat).

Definition try_demote_if_superseded (repl : option Z) (g : Inner) : Inner * list Action :=
  match me g with
  | None => (g, [])
  | Some n =>
    if negb (n_master n) || n_fail n then (g, []) else
    match other_master_with_slots g with
    | None => (g, [])
    | Some other => if superseded other g then follow_new_master repl other g else (g, [])
    end
  end.

(** ** A round *)

Definition bus_announce_fail_to_others (failed_id : Str) (g : Inner) : list Action :=
  (λ p, AnnounceFail (n_id p) failed_id) <$> filter (λ p, n_id p ≠ failed_id ∧ n_fail p = false) (peer_snapshots g).

Definition probe_peer (io : Io) (now timeout : Z) (repl : option Z) (net : ClusterNode → Probe)
    (acc : ClusterState * list Action) (peer : ClusterNode) : ClusterState * list Action :=
  let '(c, acts) := acc in
  if n_fail peer then acc else
  let p := net peer in
  let '(g, reachable) := ping_and_sync (n_id peer) p (inner c) in
  if reachable then (set_inner c (touch_pong (pr_time p) (n_id peer) g), acts)
  else if from_millis timeout <=? elapsed_since_pong (pr_time p) (n_id peer) g then
    let '(g, newly) := note_unreachable (n_id peer) g in
    let c := set_inner c g in
    if newly then
      let announced := bus_announce_fail_to_others (n_id peer) g in
      let '(c, more) := maybe_failover_on_master_fail io now repl (n_id peer) c in (c, acts ++ announced ++ more)
    else (c, acts)
  else (set_inner c g, acts).

(** The probes, and the failovers of what they make fail. *)
Definition probe_and_escalate (io : Io) (now : Z) (repl : option Z) (net : ClusterNode → Probe) (c : ClusterState) : ClusterState * list Action :=
  let timeout := node_timeout_ms (inner c) in
  let '(c, acts) := foldl (probe_peer io now timeout repl net) (c, []) (peer_snapshots (inner c)) in
  let '(g, newly) := escalate_fails (inner c) in
  foldl (λ '(c, acts) id,
      let '(c, more) := maybe_failover_on_master_fail io now repl id c in (c, acts ++ more)) (set_inner c g, acts) newly.

Definition gossip_tick (io : Io) (now : Z) (repl : option Z) (net : ClusterNode → Probe) (c : ClusterState) : ClusterState * list Action :=
  let '(c, acts) := probe_and_escalate io now repl net c in
  let '(g, more) := try_follow_failed_masters repl (inner c) in
  let '(g, more') := try_demote_if_superseded repl g in
  (set_inner c g, acts ++ more ++ more').

End replies.
