(* ===== verification/ClusterBus.v ===== *)
(** * The peer bus ([cluster/bus.rs])

    Frames of the bus between nodes, the handlers of the requests, a connection served frame by frame,
    and what the client makes of an answer. *)

From S2P Require Import Prelude RustStd Text Rdb ClusterState ClusterConf.
From Stdlib Require Import Lia.
Local Open Scope Z_scope.

Definition MAGIC : Bytes := bs "KORB".
Definition VERSION : Z := 1.
Definition HEADER_LEN : nat := 12.
Definition MAX_BODY_LEN : Z := 65536.

Definition TYPE_PING : Z := 1.
Definition TYPE_PONG : Z := 2.
Definition TYPE_MEET : Z := 3.
Definition TYPE_MEET_ACK : Z := 4.
Definition TYPE_FAIL : Z := 5.
Definition TYPE_PREPARE : Z := 10.
Definition TYPE_COMMIT : Z := 11.
Definition TYPE_ABORT : Z := 12.
Definition TYPE_OK : Z := 20.
Definition TYPE_ERR : Z := 21.

Definition peer_cport (client_port : Z) : Z := sat_add_u16 client_port 10000.

(** ** Frames *)

Definition encode_frame (msg_type : Z) (body : Bytes) : Bytes :=
  MAGIC ++ [byte_of_Z VERSION; byte_of_Z msg_type; byte_of_Z 0; byte_of_Z 0] ++ le_bytes 4 (zlen body) ++ body.

(** [{:02x?}] of a slice *)
Definition debug_hex (b : Bytes) : Str := str "[" ++ join (str ", ") ((hex 2 ∘ u8) <$> b) ++ str "]".

Definition decode_header (buf : Bytes) : result Str (Z * Z) :=
  if (length buf <? HEADER_LEN)%nat
  then Err (str "header too short: " ++ to_string (zlen buf) ++ str " < " ++ to_string (Z.of_nat HEADER_LEN))
  else if negb (bool_decide (take 4 buf = MAGIC)) then Err (str "wrong magic: got " ++ debug_hex (take 4 buf) ++ str " want KORB")
  else
    let version := default 0 (u8 <$> buf !! 4%nat) in
    if negb (version =? VERSION) then Err (str "unsupported bus version " ++ to_string version)
    else
      let body_len := from_le (take 4 (drop 8 buf)) in
      if MAX_BODY_LEN <? body_len then Err (str "body_len " ++ to_string body_len ++ str " exceeds max " ++ to_string MAX_BODY_LEN)
      else Ok (default 0 (u8 <$> buf !! 5%nat), body_len).

(** ** Bodies *)

Definition write_lp_str (s : Str) : Bytes := le_bytes 2 (zlen (as_bytes s)) ++ as_bytes s.

Definition encode_slot_target (slot : Z) (target_id : Str) : Bytes := le_bytes 2 slot ++ write_lp_str target_id.

Definition decode_slot_target (body : Bytes) : result Str (Z * Str) :=
  if (length body <? 4)%nat then Err (str "slot-target body too short: " ++ to_string (zlen body))
  else
    let slot := from_le (take 2 body) in
    let id_len := from_le (take 2 (drop 2 body)) in
    if zlen body <? 4 + id_len
    then Err (str "slot-target id truncated: need " ++ to_string (4 + id_len) ++ str " have " ++ to_string (zlen body))
    else Ok (slot, from_utf8_lossy (take (Z.to_nat id_len) (drop 4 body))).

Definition encode_string_body (msg : Str) : Bytes := write_lp_str msg.

Definition decode_string_body (body : Bytes) : Str :=
  if (length body <? 2)%nat then from_utf8_lossy body
  else
    let len := from_le (take 2 body) in
    if zlen body <? 2 + len then from_utf8_lossy body else from_utf8_lossy (take (Z.to_nat len) (drop 2 body)).

Record MeetBody : Type := mkMeet { mb_id : Str; mb_ip : Str; mb_port : Z; mb_role : Str; mb_master_id : Str }.

(** The string at the front of what is left of the body, and what follows it. *)
Definition read_lp_str (rest : Bytes) : result Str (Str * Bytes) :=
  if (length rest <? 2)%nat then Err (str "meet body truncated (len)")
  else
    let len := from_le (take 2 rest) in
    let rest := drop 2 rest in
    if zlen rest <? len then Err (str "meet body truncated (data)")
    else Ok (from_utf8_lossy (take (Z.to_nat len) rest), drop (Z.to_nat len) rest).

Definition encode_meet_body (m : MeetBody) : Bytes :=
  write_lp_str (mb_id m) ++ write_lp_str (mb_ip m) ++ le_bytes 2 (mb_port m) ++ write_lp_str (mb_role m) ++ write_lp_str (mb_master_id m).

Definition decode_meet_body (body : Bytes) : result Str MeetBody :=
  '(id, rest) ← read_lp_str body;
  '(ip, rest) ← read_lp_str rest;
  if (length rest <? 2)%nat then Err (str "meet body truncated (port)") else
  let port := from_le (take 2 rest) in
  '(role, rest) ← read_lp_str (drop 2 rest);
  '(master_id, rest) ← read_lp_str rest;
  Ok (mkMeet id ip port role master_id).

(** ** Handlers *)

(** What a request finds outside the state: the two readings of the wall clock, the monotonic clock and
    the outcome of saving. *)
Record Env : Type := mkEnv { e_now : Z; e_now' : Z; e_t : Z; e_io : Io }.

Definition error_frame (e : Str) : Bytes := encode_frame TYPE_ERR (encode_string_body e).
Definition result_frame {A} (r : result Str A) : Bytes := match r with Ok _ => encode_frame TYPE_OK [] | Err e => error_frame e end.

Section handlers.
Context `{!ClusterOrder} (env : Env).

Definition handle_ping (body : Bytes) (c : ClusterState) : ClusterState * Bytes :=
  let remote := decode_string_body body in
  let c := if negb (bool_decide (body = [])) && negb (bool_decide (remote = [])) && negb (bool_decide (remote = my_id (inner c)))
           then on_inner (touch_pong (e_t env) remote) c else c in
  (c, encode_frame TYPE_PONG (encode_string_body (my_id (inner c)))).

Definition handle_meet (body : Bytes) (c : ClusterState) : ClusterState * Bytes :=
  match decode_meet_body body with
  | Ok m =>
    if decide (mb_id m = my_id (inner c)) then (c, error_frame (str "ERR CLUSTER MEET would meet myself"))
    else if bool_decide (mb_id m = []) || bool_decide (mb_ip m = []) || (mb_port m =? 0) then (c, error_frame (str "ERR invalid MEET body"))
    else
      let slave := eq_ignore_ascii_case (mb_role m) (str "slave") in
      let mid := if slave then (if bool_decide (mb_master_id m = str "-") || bool_decide (mb_master_id m = []) then None else Some (mb_master_id m)) else None in
      let c := on_inner (λ g, touch_pong (e_t env) (mb_id m)
        (add_node_with_role (e_t env) (mb_id m) (mb_ip m) (mb_port m) (Some (negb slave)) (Some mid) g)) c in
      (c, encode_frame TYPE_MEET_ACK (encode_string_body (my_id (inner c))))
  | Err e => (c, error_frame e)
  end.

Definition handle_fail (body : Bytes) (c : ClusterState) : ClusterState * Bytes :=
  let failed := decode_string_body body in
  if bool_decide (failed = []) || bool_decide (failed = my_id (inner c)) then (c, error_frame (str "ERR invalid FAIL target"))
  else (on_inner (mark_fail failed) c, encode_frame TYPE_OK []).

Definition handle_prepare (body : Bytes) (c : ClusterState) : ClusterState * Bytes :=
  match decode_slot_target body with
  | Ok (slot, target) => let '(c, r) := set_prepare_node (e_io env) (e_now env) slot target c in (c, result_frame r)
  | Err e => (c, error_frame e)
  end.

Definition handle_commit (body : Bytes) (c : ClusterState) : ClusterState * Bytes :=
  match decode_slot_target body with
  | Ok (slot, target) => let '(c, r) := commit_prepare_node (e_io env) (e_now env) (e_now' env) slot target c in (c, result_frame r)
  | Err e => (c, error_frame e)
  end.

Definition handle_abort (body : Bytes) (c : ClusterState) : ClusterState * Bytes :=
  match decode_slot_target body with
  | Ok (slot, target) => let '(c, r) := abort_prepare_node (e_io env) (e_now env) slot c in (c, result_frame r)
  | Err e => (c, error_frame e)
  end.

Definition handle_request (msg_type : Z) (body : Bytes) (c : ClusterState) : ClusterState * Bytes :=
  if msg_type =? TYPE_PING then handle_ping body c
  else if msg_type =? TYPE_MEET then handle_meet body c
  else if msg_type =? TYPE_FAIL then handle_fail body c
  else if msg_type =? TYPE_PREPARE then handle_prepare body c
  else if msg_type =? TYPE_COMMIT then handle_commit body c
  else if msg_type =? TYPE_ABORT then handle_abort body c
  else (c, error_frame (str "unknown bus type " ++ to_string msg_type)).

End handlers.

(** [handle_bus_conn] on everything the peer sends before it closes: the state, the replies and how it
    ends.  A frame takes at least a header, so the length of the stream is fuel enough. *)
Fixpoint serve_bus `{!ClusterOrder} (fuel : nat) (envs : nat → Env) (i : nat) (buf : Bytes) (c : ClusterState) : ClusterState * list Bytes * result Str unit :=
  match fuel with
  | O => (c, [], Ok tt)
  | S fuel =>
    if (length buf <? HEADER_LEN)%nat then (c, [], Ok tt) else
    match decode_header (take HEADER_LEN buf) with
    | Err e => (c, [], Err e)
    | Ok (msg_type, body_len) =>
      let rest := drop HEADER_LEN buf in
      if zlen rest <? body_len then (c, [], Err (str "read body: early eof")) else
      let n := Z.to_nat body_len in
      let '(c, reply) := handle_request (envs i) msg_type (take n rest) c in
      let '(c, replies, r) := serve_bus fuel envs (S i) (drop n rest) c in
      (c, reply :: replies, r)
    end
  end.
Definition handle_bus_conn `{!ClusterOrder} (envs : nat → Env) (stream : Bytes) (c : ClusterState) : ClusterState * list Bytes * result Str unit :=
  serve_bus (S (length stream)) envs 0 stream c.

(** ** The client *)

Inductive BusRpcError : Type := Transport (e : Str) | Remote (e : Str).

(** What comes back on the connection, read as one frame; [Err] is a failure to connect, write or
    read. *)
Definition read_frame (answer : result Str Bytes) : result BusRpcError (Z * Bytes) :=
  match answer with
  | Err e => Err (Transport e)
  | Ok buf =>
    if (length buf <? HEADER_LEN)%nat then Err (Transport (str "read header: early eof")) else
    match decode_header (take HEADER_LEN buf) with
    | Err e => Err (Transport e)
    | Ok (msg_type, body_len) =>
      let rest := drop HEADER_LEN buf in
      if zlen rest <? body_len then Err (Transport (str "read body: early eof")) else Ok (msg_type, take (Z.to_nat body_len) rest)
    end
  end.

Definition unexpected (what : Str) (ty : Z) : BusRpcError := Remote (str "unexpected " ++ what ++ str " reply type " ++ to_string ty).

(** PREPARE, COMMIT, ABORT and FAIL *)
Definition bus_ack (what : Str) (answer : result Str Bytes) : result BusRpcError unit :=
  '(ty, body) ← read_frame answer;
  if ty =? TYPE_OK then Ok tt else if ty =? TYPE_ERR then Err (Remote (decode_string_body body)) else Err (unexpected what ty).

Definition bus_meet (answer : result Str Bytes) : result BusRpcError Str :=
  '(ty, body) ← read_frame answer;
  if ty =? TYPE_MEET_ACK then
    let peer_id := decode_string_body body in if decide (peer_id = []) then Err (Remote (str "empty MEET_ACK id")) else Ok peer_id
  else if ty =? TYPE_ERR then Err (Remote (decode_string_body body)) else Err (unexpected (str "MEET") ty).

Definition bus_ping_id (answer : result Str Bytes) : result BusRpcError Str :=
  '(ty, body) ← read_frame answer;
  if ty =? TYPE_PONG then Ok (decode_string_body body)
  else if ty =? TYPE_ERR then Err (Remote (decode_string_body body)) else Err (unexpected (str "PING") ty).
