(* ===== verification/ClusterCommands.v ===== *)
(** * CLUSTER and the routing of keys ([commands/cluster.rs], [commands/mod.rs])

    The subcommands of CLUSTER that change or show the topology, and the check that decides whether a
    node serves a key or redirects the client.  MIGRATEKEYS and RESHARD move keys between nodes and are
    not here.

    The effects on replication and on the keyspace are a list.  A handler never fails: its errors are
    replies. *)

From S2P Require Import Prelude RustStd Errors Resp Reply Text HashSlot ClusterState ClusterConf ClusterGossip ClusterBus.
From Stdlib Require Import Lia.
Local Open Scope Z_scope.

Inductive Effect : Type := Replication (a : Action) | FlushAll.

Definition Outcome : Type := ClusterState * list Effect * RespValue.

Definition cluster_args (sub : Str) : RespValue := wrong_args (str "cluster|" ++ sub).
Definition bad_slot : RespValue := error (str "ERR Invalid or out of range slot").
Definition err_reply (e : Str) : RespValue := error (str "ERR " ++ e).

(** A bulk string argument, read as text. *)
Definition text_arg (v : RespValue) : option Str := from_utf8_lossy <$> as_bulk_string v.

Definition slot_arg (v : RespValue) : option Z :=
  match parse_integer v with Ok s => if (0 <=? s) && (s <? SLOT_COUNT) then Some s else None | Err _ => None end.
Definition port_arg (v : RespValue) : option Z :=
  match parse_integer v with Ok p => if (0 <? p) && (p <=? u16_max) then Some p else None | Err _ => None end.
Definition natural_arg (v : RespValue) : option Z :=
  match parse_integer v with Ok n => if 0 <=? n then Some (wrap_u64 n) else None | Err _ => None end.

Definition keys_in_slot (keys : list Bytes) (slot : Z) : list Bytes :=
  if negb (slot_ok slot) then [] else filter (λ k, key_hash_slot k = slot) keys.

(** ** Replies *)

Section replies.
Context `{!ClusterOrder}.

Definition endpoint (n : ClusterNode) : RespValue := Array [bulk_str (n_ip n); Integer (n_port n); bulk_str (n_id n)].

Definition cluster_slots_reply (g : Inner) : RespValue :=
  Array (omap (λ '(first, last, master),
    if decide (n_id master = []) then None else
    Some (Array ([Integer first; Integer last; endpoint master] ++
                 omap (λ rid, endpoint <$> nodes g !! rid) (replicas_of (n_id master) g)))) (slots_ranges g)).

Definition shard_node_fields (n : ClusterNode) (role : Str) (repl_offset : Z) : RespValue :=
  let health := if n_fail n then str "fail" else if n_pfail n then str "loading" else str "online" in
  Array [bulk (bs "id"); bulk_str (n_id n); bulk (bs "endpoint"); bulk_str (n_ip n ++ str ":" ++ to_string (n_port n));
         bulk (bs "ip"); bulk_str (n_ip n); bulk (bs "port"); Integer (n_port n); bulk (bs "role"); bulk_str role;
         bulk (bs "replication-offset"); as_i64 repl_offset; bulk (bs "health"); bulk_str health].

(** The ranges by master, in the order of the ids; the node is that of the first range. *)
Definition shard_masters (ranges : list (Z * Z * ClusterNode)) : list Str := dedup (sort_strings ((λ x, n_id x.2) <$> ranges)).

Definition cluster_shards_reply (g : Inner) : RespValue :=
  let ranges := slots_ranges g in
  Array (omap (λ master_id,
    let mine := filter (λ x : Z * Z * ClusterNode, n_id x.2 = master_id) ranges in
    (λ '(_, _, master),
      Array [bulk (bs "slots"); Array (x ← mine; [Integer x.1.1; Integer x.1.2]); bulk (bs "nodes");
             Array (shard_node_fields master (str "master") (election_repl_offset master_id g) ::
                    omap (λ rid, (λ r, shard_node_fields r (str "replica") (election_repl_offset rid g)) <$> nodes g !! rid) (replicas_of master_id g))])
    <$> head mine) (shard_masters ranges)).

Definition count {A} (f : A → bool) (l : list A) : Z := zlen (filter (λ x, f x = true) l).

Definition format_info (c : ClusterState) : Str :=
  let g := inner c in
  let assigned := count (λ id, negb (bool_decide (id = [])) && contains_node id g) (slot_owner g) in
  let fail_slots := count (λ id, node_is_fail id g) (slot_owner g) in
  let masters_with_slots := size (list_to_set (C := gset Str)
    (filter (λ id, id ≠ [] ∧ node_is_master id g = true ∧ node_is_fail id g = false) (slot_owner g))) in
  let line k v := str k ++ str ":" ++ v ++ [13; 10] in
  line "cluster_state" (if cluster_state_ok c then str "ok" else str "fail") ++
  line "cluster_slots_assigned" (to_string assigned) ++
  line "cluster_slots_ok" (to_string (Z.max (assigned - fail_slots) 0)) ++
  line "cluster_slots_pfail" (to_string 0) ++
  line "cluster_slots_fail" (to_string fail_slots) ++
  line "cluster_known_nodes" (to_string (Z.of_nat (size (nodes g)))) ++
  line "cluster_size" (to_string (Z.max (Z.of_nat masters_with_slots) (if 0 <? assigned then 1 else 0))) ++
  line "cluster_current_epoch" (to_string (current_epoch g)) ++
  line "cluster_my_epoch" (to_string (current_epoch g)) ++
  line "cluster_stats_messages_ping_sent" (to_string 0) ++
  line "cluster_stats_messages_pong_sent" (to_string 0) ++
  line "cluster_stats_messages_sent" (to_string 0) ++
  line "cluster_stats_messages_ping_received" (to_string 0) ++
  line "cluster_stats_messages_pong_received" (to_string 0) ++
  line "cluster_stats_messages_received" (to_string 0).

End replies.

(** ** MEET *)

(** What a MEET meets: the answer on the bus, then the connection and the replies on the client port,
    and the topology pulled at the end. *)
Record Meeting : Type := mkMeeting {
  mt_bus : result BusRpcError Str;
  mt_connect : result Str unit;
  mt_myid : result Str RespValue;
  mt_meetpeer : result Str RespValue;
  mt_pull : option (option RespValue * option RespValue)
}.

Definition meet_myself : Str := str "ERR CLUSTER MEET would meet myself".

Section commands.
Context `{!ClusterOrder, !Uppercase} (debug : RespValue → Str).
Context (env : Env) (dir : Str) (repl : option Z) (data_replica : bool) (keys : list Bytes) (meet : Str → Z → Meeting).

Definition meet_done (m : Meeting) (peer_id ip : Str) (port : Z) (g : Inner) : Inner :=
  let t := e_t env in
  let g := touch_pong t peer_id (add_node t peer_id ip port g) in
  match mt_pull m with
  | Some (owners, rolemap) => pull_and_merge_rolemap t rolemap (pull_and_merge_owners t owners g)
  | None => g
  end.

Definition meet_peer (ip : Str) (port : Z) (g : Inner) : result Str Inner :=
  let m := meet ip port in
  match mt_bus m with
  | Ok peer_id => if decide (peer_id = my_id g) then Err meet_myself else Ok (meet_done m peer_id ip port g)
  | Err (Remote e) => Err (str "ERR CLUSTER MEET " ++ e)
  | Err (Transport _) =>
    match mt_connect m with
    | Err e => Err (str "ERR CLUSTER MEET " ++ e)
    | Ok _ =>
      match mt_myid m with
      | Err e => Err (str "ERR CLUSTER MEET " ++ e)
      | Ok (BulkString (Some b)) =>
        let peer_id := from_utf8_lossy b in
        if decide (peer_id = my_id g) then Err meet_myself else
        match mt_meetpeer m with
        | Err e => Err (str "ERR CLUSTER MEET " ++ e)
        | Ok (Resp.Error e) => Err (str "ERR CLUSTER MEET peer rejected MEETPEER: " ++ from_utf8_lossy e)
        | Ok (SimpleString s) =>
          if decide (s = bs "OK") then Ok (meet_done m peer_id ip port g)
          else Err (str "ERR CLUSTER MEET unexpected MEETPEER reply: " ++ debug (SimpleString s))
        | Ok other => Err (str "ERR CLUSTER MEET unexpected MEETPEER reply: " ++ debug other)
        end
      | Ok (Resp.Error e) => Err (str "ERR CLUSTER MEET peer error: " ++ from_utf8_lossy e)
      | Ok other => Err (str "ERR CLUSTER MEET unexpected MYID reply: " ++ debug other)
      end
    end
  end.

(** ** Subcommands that change the topology *)

Definition reply (v : RespValue) (c : ClusterState) : Outcome := (c, [], v).

Definition try_autosave_nodes_conf (c : ClusterState) : ClusterState :=
  (save_nodes_conf_to (e_io env) (e_now env) dir (set_nodes_conf_dir dir c)).1.

(** The reply to a method of the topology: OK after saving, or its error. *)
Definition finish (e : Str → RespValue) (r : result Str Inner) (c : ClusterState) : Outcome :=
  match r with
  | Ok g => (try_autosave_nodes_conf (set_inner c g), [], ok)
  | Err msg => (c, [], e msg)
  end.
Definition finish_outer (e : Str → RespValue) (r : ClusterState * result Str unit) : Outcome :=
  match r with
  | (c, Ok _) => (try_autosave_nodes_conf c, [], ok)
  | (c, Err msg) => (c, [], e msg)
  end.

Definition refresh (c : ClusterState) : ClusterState := on_inner (refresh_offset repl) c.
Definition promote : list Effect := match repl with Some _ => [Replication PromoteToMaster] | None => [] end.

Definition slot_args (args : list RespValue) : option (list Z) := mapM slot_arg args.

Fixpoint range_args (args : list RespValue) : option (list (Z * Z)) :=
  match args with
  | a :: b :: args => first ← slot_arg a; last ← slot_arg b; rest ← range_args args; Some ((first, last) :: rest)
  | _ => Some []
  end.
Definition parse_slot_ranges (args : list RespValue) : result Str (list (Z * Z)) :=
  if bool_decide (args = []) || Nat.odd (length args)
  then Err (str "ERR wrong number of arguments for 'cluster|addslotsrange|delslotsrange' command")
  else match range_args args with Some l => Ok l | None => Err (str "ERR Invalid or out of range slot") end.

Definition handle_cluster_meet (args : list RespValue) (c : ClusterState) : Outcome :=
  match args with
  | [a; b] =>
    match text_arg a with
    | None => reply (error (str "ERR invalid ip address")) c
    | Some ip =>
      match port_arg b with
      | None => reply (error (str "ERR Invalid TCP base port specified: port must be 1-65535")) c
      | Some port => finish error (meet_peer ip port (inner c)) c
      end
    end
  | _ => reply (cluster_args (str "meet")) c
  end.

(** The role fields of MEETPEER: error, absent, or role and master. *)
Definition role_args (args : list RespValue) : RespValue + option bool * option (option Str) :=
  match args with
  | [a; b] =>
    match text_arg a with
    | None => inl (error (str "ERR invalid role"))
    | Some role =>
      match text_arg b with
      | None => inl (error (str "ERR invalid master id"))
      | Some mid =>
        let role := to_ascii_lowercase role in
        let is_master := bool_decide (role = str "master") || bool_decide (role = str "myself") in
        inr (Some is_master, Some (if is_master || bool_decide (mid = str "-") || bool_decide (mid = []) then None else Some mid))
      end
    end
  | _ => inr (None, None)
  end.

Definition handle_cluster_meetpeer (args : list RespValue) (c : ClusterState) : Outcome :=
  match args with
  | a0 :: a1 :: a2 :: more =>
    if negb (bool_decide (length more = 0%nat ∨ length more = 2%nat)) then reply (cluster_args (str "meetpeer")) c else
    match text_arg a0, text_arg a1, port_arg a2 with
    | None, _, _ => reply (error (str "ERR invalid node id")) c
    | _, None, _ => reply (error (str "ERR invalid ip address")) c
    | _, _, None => reply (error (str "ERR Invalid port")) c
    | Some id, Some ip, Some port =>
      if decide (id = my_id (inner c)) then reply ok c else
      match role_args more with
      | inl e => reply e c
      | inr (role_master, role_master_id) =>
        let t := e_t env in
        finish error (Ok (touch_pong t id (add_node_with_role t id ip port role_master role_master_id (inner c)))) c
      end
    end
  | _ => reply (cluster_args (str "meetpeer")) c
  end.

Definition failover_mode (args : list RespValue) : RespValue + ManualFailoverMode :=
  let syntax := error (str "ERR syntax error, try CLUSTER FAILOVER [FORCE|TAKEOVER]") in
  match args with
  | [] => inr Safe
  | [a] =>
    match to_uppercase <$> text_arg a with
    | Some s => if decide (s = str "FORCE") then inr Force else if decide (s = str "TAKEOVER") then inr Takeover else inl syntax
    | None => inl syntax
    end
  | _ => inl (cluster_args (str "failover"))
  end.

Definition handle_cluster_failover (args : list RespValue) (c : ClusterState) : Outcome :=
  match failover_mode args with
  | inl e => reply e c
  | inr mode =>
    let c := refresh c in
    match manual_failover mode (inner c) with
    | (g, Ok _) => (try_autosave_nodes_conf (set_inner c g), promote, ok)
    | (g, Err e) => (set_inner c g, [], err_reply e)
    end
  end.

Definition handle_cluster_replicate (args : list RespValue) (c : ClusterState) : Outcome :=
  match args with
  | [a] =>
    match text_arg a with
    | None => reply (error (str "ERR invalid node id")) c
    | Some master_id =>
      match configure_as_replica_of master_id (inner c) with
      | Ok g => (try_autosave_nodes_conf (set_inner c g), Replication <$> point_at repl master_id g, ok)
      | Err e => reply (err_reply e) c
      end
    end
  | _ => reply (cluster_args (str "replicate")) c
  end.

Definition setslot_syntax (form : Str) : RespValue := error (str "ERR syntax error, expected CLUSTER SETSLOT <slot> " ++ form).

(** A form of SETSLOT with a node, and one without. *)
Definition with_node (form : Str) (rest : list RespValue) (k : Str → ClusterState → Outcome) (c : ClusterState) : Outcome :=
  match rest with
  | [a] => match text_arg a with Some node_id => k node_id c | None => reply syntax_error c end
  | _ => reply (setslot_syntax (form ++ str " <node-id>")) c
  end.
Definition without_node (form : Str) (rest : list RespValue) (k : ClusterState → Outcome) (c : ClusterState) : Outcome :=
  match rest with [] => k c | _ => reply (setslot_syntax form) c end.

Definition handle_cluster_setslot (args : list RespValue) (c : ClusterState) : Outcome :=
  match args with
  | a0 :: a1 :: rest =>
    match slot_arg a0 with
    | None => reply bad_slot c
    | Some slot =>
      match to_uppercase <$> text_arg a1 with
      | None => reply syntax_error c
      | Some sub =>
        let io := e_io env in
        let now := e_now env in
        if decide (sub = str "MIGRATING") then with_node sub rest (λ id c, finish err_reply (set_migrating slot id (inner c)) c) c
        else if decide (sub = str "IMPORTING") then with_node sub rest (λ id c, finish err_reply (set_importing slot id (inner c)) c) c
        else if decide (sub = str "STABLE") then without_node sub rest (λ c, finish err_reply (set_stable slot (inner c)) c) c
        else if decide (sub = str "NODE") then with_node sub rest (λ id c, finish_outer err_reply (set_node slot id c)) c
        else if decide (sub = str "PREPARE") then with_node sub rest (λ id c, finish_outer err_reply (set_prepare_node io now slot id c)) c
        else if decide (sub = str "ABORTPREPARE") then without_node sub rest (λ c, finish_outer err_reply (abort_prepare_node io now slot c)) c
        else if decide (sub = str "CHECKPREPARE") then
          with_node sub rest (λ id c, let '(c, r) := check_prepare_valid now (e_now' env) slot id c in
            (c, [], match r with Ok _ => ok | Err e => err_reply e end)) c
        else if decide (sub = str "COMMITPREPARE") then
          with_node sub rest (λ id c, finish_outer err_reply (commit_prepare_node io now (e_now' env) slot id c)) c
        else reply (error (str "ERR unknown subcommand '" ++ sub ++ str "'. Try CLUSTER HELP.")) c
      end
    end
  | _ => reply (cluster_args (str "setslot")) c
  end.

Definition reset_hard (args : list RespValue) : RespValue + bool :=
  let syntax := error (str "ERR syntax error, try CLUSTER RESET [HARD|SOFT]") in
  match args with
  | [] => inr false
  | [a] =>
    match to_uppercase <$> text_arg a with
    | Some s => if decide (s = str "HARD") then inr true else if decide (s = str "SOFT") then inr false else inl syntax
    | None => inl syntax
    end
  | _ => inl (cluster_args (str "reset"))
  end.

Definition handle_cluster_reset (args : list RespValue) (c : ClusterState) : Outcome :=
  match reset_hard args with
  | inl e => reply e c
  | inr hard =>
    let c := on_inner reset_cluster_config c in
    (try_autosave_nodes_conf c, (if hard then [FlushAll] else []) ++ (if data_replica then promote else []), ok)
  end.

(** ** Subcommands that show it *)

Record StatsOptions : Type := mkStats { by_key_count : bool; stats_limit : option Z; descending : bool }.

Fixpoint stats_options (args : list RespValue) (o : StatsOptions) : RespValue + StatsOptions :=
  match args with
  | [] => inr o
  | a :: args =>
    match to_uppercase <$> text_arg a with
    | None => inl (error (str "ERR syntax error in CLUSTER SLOT-STATS options"))
    | Some tok =>
      if decide (tok = str "ORDERBY") then
        match args with
        | [] => inl (error (str "ERR syntax error, ORDERBY requires a metric"))
        | m :: args =>
          match to_ascii_lowercase <$> text_arg m with
          | None => inl (error (str "ERR syntax error, invalid ORDERBY metric"))
          | Some metric =>
            if decide (metric ∈ [str "key-count"; str "key_count"; str "keycount"; str "cpu-usec"; str "network-bytes-in"; str "network-bytes-out"])
            then stats_options args (mkStats true (stats_limit o) (descending o))
            else inl (error (str "ERR Unknown ORDERBY metric '" ++ metric ++ str "'"))
          end
        end
      else if decide (tok = str "LIMIT") then
        match args with
        | [] => inl (error (str "ERR syntax error, LIMIT requires a non-negative integer"))
        | n :: args =>
          match natural_arg n with
          | Some n => stats_options args (mkStats (by_key_count o) (Some n) (descending o))
          | None => inl (error (str "ERR syntax error, LIMIT requires a non-negative integer"))
          end
        end
      else if decide (tok = str "ASC") then stats_options args (mkStats (by_key_count o) (stats_limit o) false)
      else if decide (tok = str "DESC") then stats_options args (mkStats (by_key_count o) (stats_limit o) true)
      else inl (error (str "ERR syntax error, unexpected token '" ++ tok ++ str "'"))
    end
  end.

Definition stats_rows (first last : Z) (g : Inner) : list (Z * Z) :=
  (λ slot, (slot, count (λ k, key_hash_slot k =? slot) keys)) <$>
  filter (λ slot, owns_slot g slot = true) (seqZ first (last - first + 1)).

Definition stats_le (desc : bool) (a b : Z * Z) : Prop :=
  if desc then b.2 < a.2 ∨ (b.2 = a.2 ∧ a.1 ≤ b.1) else a.2 < b.2 ∨ (a.2 = b.2 ∧ a.1 ≤ b.1).
#[local] Instance stats_le_dec desc : RelDecision (stats_le desc).
Proof. intros a b. unfold stats_le. destruct desc; apply _. Defined.

Definition stats_row (x : Z * Z) : RespValue :=
  Array [bulk (bs "slot"); Integer x.1; bulk (bs "key-count"); Integer x.2; bulk (bs "cpu-usec"); Integer 0;
         bulk (bs "network-bytes-in"); Integer 0; bulk (bs "network-bytes-out"); Integer 0].

Definition handle_cluster_slot_stats (args : list RespValue) (g : Inner) : RespValue :=
  match args with
  | [] => cluster_args (str "slot-stats")
  | a :: rest =>
    match to_uppercase <$> text_arg a with
    | None => error (str "ERR syntax error, try CLUSTER SLOT-STATS SLOTSRANGE <start> <end>")
    | Some sub =>
      if decide (sub = str "SLOTSRANGE") then
        match rest with
        | a1 :: a2 :: opts =>
          match slot_arg a1, slot_arg a2 with
          | Some first, Some last =>
            if last <? first then error (str "ERR start slot must be <= end slot") else
            match stats_options opts (mkStats false None true) with
            | inl e => e
            | inr o =>
              let rows := stats_rows first last g in
              let rows := if by_key_count o then merge_sort (stats_le (descending o)) rows else rows in
              let rows := match stats_limit o with Some n => take (Z.to_nat n) rows | None => rows end in
              Array (stats_row <$> rows)
            end
          | _, _ => bad_slot
          end
        | _ => cluster_args (str "slot-stats|slotsrange")
        end
      else error (str "ERR syntax error, try CLUSTER SLOT-STATS SLOTSRANGE <start> <end> [ORDERBY key-count [LIMIT n] [ASC|DESC]]")
    end
  end.

Definition no_args (sub : Str) (args : list RespValue) (k : Outcome) (c : ClusterState) : Outcome :=
  match args with [] => k | _ => reply (cluster_args sub) c end.
Definition node_arg (sub : Str) (args : list RespValue) (k : Str → Outcome) (c : ClusterState) : Outcome :=
  match args with
  | [a] => match text_arg a with Some id => k id | None => reply (error (str "ERR invalid node id")) c end
  | _ => reply (cluster_args sub) c
  end.
Definition slots_command (sub : Str) (args : list RespValue) (f : list Z → Inner → result Str Inner) (c : ClusterState) : Outcome :=
  match args with
  | [] => reply (cluster_args sub) c
  | _ => match slot_args args with Some slots => finish error (f slots (inner c)) c | None => reply bad_slot c end
  end.
Definition ranges_command (args : list RespValue) (f : list (Z * Z) → Inner → result Str Inner) (c : ClusterState) : Outcome :=
  match parse_slot_ranges args with Ok ranges => finish error (f ranges (inner c)) c | Err e => reply (error e) c end.

Definition cluster_help : RespValue :=
  Array (bulk <$> [
    bs "CLUSTER <subcommand> [<arg> ...]. Subcommands are:";
    bs "KEYSLOT <key> -- return the hash slot for key";
    bs "MYID -- return this node's cluster id";
    bs "MYSHARDID -- return this node's shard id (master id of the shard)";
    bs "INFO -- cluster state summary";
    bs "NODES -- node list in CLUSTER NODES format";
    bs "SLOTS -- slot ranges: [start end [master_ip port id] [replica_ip port id]...]";
    bs "SHARDS -- Redis-7 style shards (slots + master/replica nodes; RESP2 field arrays)";
    bs "LINKS -- cluster bus links (always empty; no binary bus)";
    bs "SETSLOT <slot> MIGRATING|IMPORTING|STABLE|NODE|PREPARE|ABORTPREPARE|CHECKPREPARE|COMMITPREPARE [node-id]";
    bs "MIGRATEKEYS <slot> <ip> <port> -- move keys in slot to dest";
    bs "RESHARD <slot> <node-id> | <start> <end> <node-id> -- orchestrate migrate + dual-end NODE (verify+retry, not atomic; range aborts on non-complete)";
    bs "RESHARD FINISH <slot> <node-id> -- dual-end SETSLOT NODE only (recover partial_*_node; warns if source still has keys)";
    bs "RESHARD PLAN <node-id> <num-slots> -- greedy plan of slots to move to dest (no data move)";
    bs "RESHARD AUTO <node-id> <num-slots> -- plan then execute (local + remote source RESP; not 2PC)";
    bs "MEET <ip> <port> -- introduce peer into the cluster";
    bs "REPLICATE <node-id> -- become replica of node";
    bs "FAILOVER [FORCE|TAKEOVER] -- replica claims master slots (election / force / takeover)";
    bs "COUNTKEYSINSLOT <slot> -- number of local keys in hash slot";
    bs "GETKEYSINSLOT <slot> <count> -- sample local keys in hash slot";
    bs "SLOT-STATS SLOTSRANGE <start> <end> [ORDERBY key-count [LIMIT n] [ASC|DESC]] -- local slot key counts (owned slots)";
    bs "REPLICAS|SLAVES <node-id> -- replica node ids of the given master";
    bs "BUMPEPOCH -- force-bump config epoch (returns 1)";
    bs "SET-CONFIG-EPOCH <epoch> -- set config epoch if greater than current (Batch EK)";
    bs "ADDSLOTS <slot> [slot ...] -- assign hash slots to this node";
    bs "DELSLOTS <slot> [slot ...] -- unbind hash slots owned by this node";
    bs "FLUSHSLOTS -- unbind all hash slots owned by this node";
    bs "ADDSLOTSRANGE start end [start end ...] -- assign inclusive slot ranges to this node";
    bs "DELSLOTSRANGE start end [start end ...] -- unbind inclusive slot ranges owned by this node";
    bs "FORGET <node-id> -- drop peer from nodes table (not if it owns slots)";
    bs "RESET [SOFT|HARD] -- clear cluster config (HARD also FLUSHALL-style key wipe)";
    bs "SAVECONFIG -- write cluster nodes.conf under dir (topology + live flags; also autosaved on topology / CONFIG flag changes; loaded on next boot if present)";
    bs "OWNERS -- compressed slot ownership ranges with config epochs (gossip merge)";
    bs "EPOCH -- current config epoch";
    bs "FAILREPORTS -- node ids this node marks pfail/fail (gossip quorum votes)";
    bs "COUNT-FAILURE-REPORTS <node-id> -- active failure report count for a node";
    bs "ROLEMAP -- roles [id, master|slave, master_id, ip, port, offset, priority] (election)";
    bs "HELP -- print this help"]).

(** [handle_cluster] without MIGRATEKEYS and RESHARD; [None] is one of them. *)
Definition handle_cluster (args : list RespValue) (c : ClusterState) : option Outcome :=
  match args with
  | [] => Some (reply (wrong_args (str "cluster")) c)
  | a :: args =>
    match to_uppercase <$> text_arg a with
    | None => Some (reply (error (str "ERR unknown subcommand")) c)
    | Some sub =>
      let g := inner c in
      let named x := bool_decide (sub = str x) in
      if named "MIGRATEKEYS" || named "RESHARD" then None else
      Some (
        if named "HELP" then reply cluster_help c
        else if named "KEYSLOT" then
          match args with
          | [k] => reply (match as_bulk_string k with Some k => Integer (key_hash_slot k) | None => error (str "ERR invalid key") end) c
          | _ => reply (cluster_args (str "keyslot")) c
          end
        else if named "MYID" then no_args (str "myid") args (reply (bulk_str (my_id g)) c) c
        else if named "MYSHARDID" then no_args (str "myshardid") args (reply (bulk_str (my_shard_id g)) c) c
        else if named "INFO" then no_args (str "info") args (reply (bulk_str (format_info c)) c) c
        else if named "NODES" then no_args (str "nodes") args (reply (bulk_str (format_nodes g)) c) c
        else if named "SLOTS" then no_args (str "slots") args (reply (cluster_slots_reply g) c) c
        else if named "SHARDS" then no_args (str "shards") args (reply (cluster_shards_reply g) c) c
        else if named "LINKS" then no_args (str "links") args (reply (Array []) c) c
        else if named "SETSLOT" then handle_cluster_setslot args c
        else if named "MEET" then handle_cluster_meet args c
        else if named "MEETPEER" then handle_cluster_meetpeer args c
        else if named "REPLICATE" then handle_cluster_replicate args c
        else if named "FAILOVER" then handle_cluster_failover args c
        else if named "SLOT-STATS" || named "SLOTSTATS" then reply (handle_cluster_slot_stats args g) c
        else if named "COUNTKEYSINSLOT" then
          match args with
          | [s] => reply (match slot_arg s with Some slot => Integer (zlen (keys_in_slot keys slot)) | None => bad_slot end) c
          | _ => reply (cluster_args (str "countkeysinslot")) c
          end
        else if named "GETKEYSINSLOT" then
          match args with
          | [s; n] =>
            reply (match slot_arg s, natural_arg n with
                   | None, _ => bad_slot
                   | _, None => error (str "ERR Invalid COUNT: must be a non-negative integer")
                   | Some slot, Some n => Array (bulk <$> take (Z.to_nat n) (keys_in_slot keys slot))
                   end) c
          | _ => reply (cluster_args (str "getkeysinslot")) c
          end
        else if named "REPLICAS" || named "SLAVES" then
          node_arg (str "replicas") args (λ id,
            reply (if contains_node id g then Array (bulk_str <$> replicas_of id g) else error (str "ERR Unknown node " ++ id)) c) c
        else if named "BUMPEPOCH" then no_args (str "bumpepoch") args (try_autosave_nodes_conf (on_inner bump c), [], Integer 1) c
        else if named "SET-CONFIG-EPOCH" then
          match args with
          | [e] => match natural_arg e with
                   | Some epoch => finish error (set_config_epoch epoch g) c
                   | None => reply (error (str "ERR Invalid or out of range config epoch")) c
                   end
          | _ => reply (cluster_args (str "set-config-epoch")) c
          end
        else if named "ADDSLOTS" then slots_command (str "addslots") args add_slots c
        else if named "DELSLOTS" then slots_command (str "delslots") args del_slots c
        else if named "FLUSHSLOTS" then no_args (str "flushslots") args (finish error (Ok (flush_slots g)) c) c
        else if named "ADDSLOTSRANGE" then ranges_command args add_slot_ranges c
        else if named "DELSLOTSRANGE" then ranges_command args del_slot_ranges c
        else if named "FORGET" then node_arg (str "forget") args (λ id, finish error (forget_node id g) c) c
        else if named "SAVECONFIG" then
          no_args (str "saveconfig") args
            (let '(c, r) := save_nodes_conf_to (e_io env) (e_now env) dir (set_nodes_conf_dir dir c) in
             (c, [], match r with Ok _ => ok | Err e => err_reply e end)) c
        else if named "RESET" then handle_cluster_reset args c
        else if named "OWNERS" then no_args (str "owners") args (reply (cluster_owners_reply g) c) c
        else if named "EPOCH" then no_args (str "epoch") args (reply (as_i64 (current_epoch g)) c) c
        else if named "FAILREPORTS" then no_args (str "failreports") args (reply (cluster_failreports_reply g) c) c
        else if named "COUNT-FAILURE-REPORTS" then
          node_arg (str "count-failure-reports") args (λ id, reply (Integer (count_failure_reports id g)) c) c
        else if named "ROLEMAP" then
          no_args (str "rolemap") args (let c := refresh c in reply (cluster_rolemap_reply (inner c)) c) c
        else reply (error (str "ERR unknown subcommand '" ++ sub ++ str "'. Try CLUSTER HELP.")) c)
    end
  end.

End commands.

(** ** Routing *)

(** Where a command on some keys goes. *)
Inductive Route : Type := Here | CrossSlot | ClusterDown | NotServed (slot : Z) | Moved (t : RedirectTarget) | Ask (t : RedirectTarget).

Definition same_slot (slot : Z) (ks : list Bytes) : bool := forallb (λ k, key_hash_slot k =? slot) ks.

(** [check_cluster_redirect] once it has the keys of the command. *)
Definition route (keys : list Bytes) (is_write asking readonly : bool) (present : Bytes → bool) (c : ClusterState) : Route :=
  match keys with
  | [] => Here
  | k :: ks =>
    let slot := key_hash_slot k in
    let g := inner c in
    if negb (same_slot slot ks) then CrossSlot else
    let asking_import := asking && bool_decide (is_Some (importing g !! slot)) in
    if negb (cluster_state_ok c) && negb asking_import && negb (allow_reads_when_down c && negb is_write) then ClusterDown
    else if asking_import then Here
    else if negb (owns_slot g slot) then
      if readonly && negb is_write && can_serve_readonly slot g then Here
      else match moved_target slot g with Some t => Moved t | None => NotServed slot end
    else if bool_decide (is_Some (migrating g !! slot)) && negb (forallb present keys) then
      match ask_target slot g with Some t => Ask t | None => Here end
    else Here
  end.

Definition redirect (what : Str) (t : RedirectTarget) : RespValue :=
  error (what ++ space ++ to_string (rt_slot t) ++ space ++ rt_ip t ++ str ":" ++ to_string (rt_port t)).

Definition route_reply (r : Route) : option RespValue :=
  match r with
  | Here => None
  | CrossSlot => Some (error (str "CROSSSLOT Keys in request don't hash to the same slot"))
  | ClusterDown => Some (error (str "CLUSTERDOWN The cluster is down"))
  | NotServed slot => Some (error (str "CLUSTERDOWN Hash slot not served (" ++ to_string slot ++ str ")"))
  | Moved t => Some (redirect (str "MOVED") t)
  | Ask t => Some (redirect (str "ASK") t)
  end.
