(* ===== verification/ClusterFacts.v ===== *)
(** * The invariant of the cluster state

    What holds of the topology at any time, and that every method keeps it. *)

From S2P Require Import Prelude RustStd Text HashSlot ClusterState.
From Stdlib Require Import Lia.
Local Open Scope Z_scope.

Definition slot_in (s : Z) : Prop := 0 ≤ s < SLOT_COUNT.

Record node_ok (my id : Str) (n : ClusterNode) : Prop := {
  no_id : n_id n = id;
  no_myself : n_myself n = bool_decide (id = my);
  no_me : id = my → n_fail n = false ∧ n_pfail n = false;
  no_port : in_u16 (n_port n);
  no_cport : n_cport n = sat_add_u16 (n_port n) 10000
}.

Definition vote_ok (v : PrepareVote) : Prop := in_u64 (v_slot_epoch v).

Record cluster_ok (g : Inner) : Prop := {
  ok_id : my_id g ≠ [];
  ok_owners : length (slot_owner g) = Z.to_nat SLOT_COUNT;
  ok_epochs : length (slot_config_epoch g) = Z.to_nat SLOT_COUNT;
  ok_known : ∀ i o, slot_owner g !! i = Some o → o = [] ∨ is_Some (nodes g !! o);
  ok_epoch : ∀ i e, slot_config_epoch g !! i = Some e → 1 ≤ e ≤ current_epoch g;
  ok_current : 1 ≤ current_epoch g ≤ u64_max;
  ok_nodes : ∀ id n, nodes g !! id = Some n → node_ok (my_id g) id n;
  ok_me : is_Some (nodes g !! my_id g);
  ok_migrating : ∀ s d, migrating g !! s = Some d →
    slot_in s ∧ owner_at g s = Some (my_id g) ∧ importing g !! s = None ∧ is_Some (nodes g !! d);
  ok_importing : ∀ s d, importing g !! s = Some d → slot_in s ∧ is_Some (nodes g !! d);
  ok_votes : ∀ s v, prepare_node g !! s = Some v → slot_in s ∧ vote_ok v;
  ok_port : in_u16 (my_port g)
}.

Create HintDb cluster.
#[export] Hint Constructors node_ok : cluster.

(** ** Parts that the invariant does not look at *)

(** Two states that agree on everything the invariant is about. *)
Definition same_core (g g' : Inner) : Prop :=
  my_id g' = my_id g ∧ slot_owner g' = slot_owner g ∧ slot_config_epoch g' = slot_config_epoch g ∧ migrating g' = migrating g ∧
  importing g' = importing g ∧ prepare_node g' = prepare_node g ∧ nodes g' = nodes g ∧ current_epoch g' = current_epoch g ∧
  my_port g' = my_port g.

Lemma same_core_ok g g' : same_core g g' → cluster_ok g → cluster_ok g'.
Proof.
  destruct g, g'. unfold same_core; simpl. intros (-> & -> & -> & -> & -> & -> & -> & -> & ->) []. split; assumption.
Qed.

Lemma set_health_ok g p r : cluster_ok g → cluster_ok (set_health g p r).
Proof. by apply same_core_ok. Qed.
Lemma set_local_ok g o p : cluster_ok g → cluster_ok (set_local g o p).
Proof. by apply same_core_ok. Qed.
Lemma set_timeout_ok g ms : cluster_ok g → cluster_ok (set_timeout g ms).
Proof. by apply same_core_ok. Qed.
Lemma first_pong_ok t id g : cluster_ok g → cluster_ok (first_pong t id g).
Proof. unfold first_pong. destruct (last_pong g !! id); [done|apply set_health_ok]. Qed.
#[export] Hint Resolve set_health_ok set_local_ok set_timeout_ok first_pong_ok : cluster.

(** ** Nodes *)

Lemma set_nodes_ok g ns :
  cluster_ok g → (∀ id, is_Some (nodes g !! id) → is_Some (ns !! id)) → (∀ id n, ns !! id = Some n → node_ok (my_id g) id n) →
  cluster_ok (set_nodes g ns).
Proof.
  intros [H1 H2 H3 H4 H5 H6 H7 H8 H9 H10 H11 H12] Hd Hn. split; simpl; try done.
  - intros i o Hi. destruct (H4 i o Hi); auto.
  - auto.
  - intros s d Hs. destruct (H9 s d Hs) as (? & ? & ? & ?). auto.
  - intros s d Hs. destruct (H10 s d Hs) as (? & ?). auto.
Qed.

Lemma alter_node_ok f id g :
  (∀ n, node_ok (my_id g) id n → node_ok (my_id g) id (f n)) → cluster_ok g → cluster_ok (alter_node f id g).
Proof.
  intros Hf H. apply set_nodes_ok; [done| |].
  - intros x [n Hx]. destruct (decide (x = id)) as [->|]; [rewrite lookup_alter_eq|rewrite lookup_alter_ne by done]; rewrite Hx; eauto.
  - intros x n. destruct (decide (x = id)) as [->|]; [rewrite lookup_alter_eq|rewrite lookup_alter_ne by done].
    + intros (n0 & H0 & ->)%fmap_Some. apply Hf. by apply (ok_nodes g H).
    + apply (ok_nodes g H).
Qed.

Lemma insert_node_ok id n g : node_ok (my_id g) id n → cluster_ok g → cluster_ok (set_nodes g (<[id := n]> (nodes g))).
Proof.
  intros Hn H. apply set_nodes_ok; [done| |].
  - intros x Hx. destruct (decide (x = id)) as [->|]; [rewrite lookup_insert_eq|rewrite lookup_insert_ne by done]; eauto.
  - intros x m. destruct (decide (x = id)) as [->|]; [rewrite lookup_insert_eq; by intros [= <-]|rewrite lookup_insert_ne by done].
    apply (ok_nodes g H).
Qed.

(** What the updates of a node keep. *)
Lemma with_role_ok my id n m mid : node_ok my id n → node_ok my id (with_role n m mid).
Proof. intros []. by split. Qed.
Lemma with_repl_ok my id n o p : node_ok my id n → node_ok my id (with_repl n o p).
Proof. intros []. by split. Qed.
Lemma with_address_ok my id n ip port : in_u16 port → node_ok my id n → node_ok my id (with_address n ip port).
Proof. intros ? []. by split. Qed.
Lemma with_fail_ok my id n p f : (id = my → f = false ∧ p = false) → node_ok my id n → node_ok my id (with_fail n p f).
Proof. intros ? []. by split. Qed.
#[export] Hint Resolve with_role_ok with_repl_ok with_address_ok : cluster.

(** ** Slots *)

Lemma set_epoch_ok g e : cluster_ok g → current_epoch g ≤ e ≤ u64_max → cluster_ok (set_epoch g e).
Proof.
  intros [H1 H2 H3 H4 H5 H6 H7 H8 H9 H10 H11 H12] He. split; simpl; try done; [|lia]. intros i x Hx. specialize (H5 i x Hx). lia.
Qed.

Lemma bump_ok g : cluster_ok g → cluster_ok (bump g).
Proof. intros H. pose proof (ok_current g H). apply set_epoch_ok; [done|]. unfold sat_add_u64. lia. Qed.
#[export] Hint Resolve bump_ok : cluster.

Lemma bump_mono g : cluster_ok g → current_epoch g ≤ current_epoch (bump g).
Proof. intros H. pose proof (ok_current g H). simpl. unfold sat_add_u64. lia. Qed.

Lemma transit_ok g mig imp prep :
  cluster_ok g →
  (∀ s d, mig !! s = Some d → slot_in s ∧ owner_at g s = Some (my_id g) ∧ imp !! s = None ∧ is_Some (nodes g !! d)) →
  (∀ s d, imp !! s = Some d → slot_in s ∧ is_Some (nodes g !! d)) → (∀ s v, prep !! s = Some v → slot_in s ∧ vote_ok v) →
  cluster_ok (set_transit g mig imp prep).
Proof. intros [] ? ? ?. split; simpl; assumption. Qed.

Lemma clear_transit_ok g : cluster_ok g → cluster_ok (clear_transit g).
Proof. intros H. apply transit_ok; [done|..]; intros s x Hs; by rewrite lookup_empty in Hs. Qed.
#[export] Hint Resolve clear_transit_ok : cluster.

Lemma forget_transit_ok g slot : cluster_ok g → cluster_ok (forget_transit g slot).
Proof.
  intros H. apply transit_ok; [done|..]; intros s x [Hn Hs]%lookup_delete_Some.
  - destruct (ok_migrating g H s x Hs) as (? & ? & Hi & ?). split_and!; try done. by rewrite lookup_delete_ne.
  - by apply (ok_importing g H).
  - by apply (ok_votes g H).
Qed.
#[export] Hint Resolve forget_transit_ok : cluster.

Lemma set_prepare_ok g prep : cluster_ok g → (∀ s v, prep !! s = Some v → slot_in s ∧ vote_ok v) → cluster_ok (set_prepare g prep).
Proof. intros H Hp. apply transit_ok; [done|apply (ok_migrating g H)|apply (ok_importing g H)|done]. Qed.

Lemma drop_prepare_ok slot g : cluster_ok g → cluster_ok (drop_prepare slot g).
Proof. intros H. apply set_prepare_ok; [done|]. intros s v [_ Hs]%lookup_delete_Some. by apply (ok_votes g H). Qed.
#[export] Hint Resolve drop_prepare_ok : cluster.

(** The tables with new owners and epochs, in a state where nothing migrates from a slot that moves. *)
Lemma set_slots_ok g os es :
  cluster_ok g → length os = length (slot_owner g) → length es = length (slot_config_epoch g) →
  (∀ i o, os !! i = Some o → o = [] ∨ is_Some (nodes g !! o)) → (∀ i e, es !! i = Some e → 1 ≤ e ≤ current_epoch g) →
  (∀ s d, migrating g !! s = Some d → os !! sidx s = Some (my_id g)) → cluster_ok (set_slots g os es).
Proof.
  intros [H1 H2 H3 H4 H5 H6 H7 H8 H9 H10 H11 H12] Ho He Hk Hb Hm. split; simpl; try done; [congruence|congruence|].
  intros s d Hs. destruct (H9 s d Hs) as (? & ? & ? & ?). split_and!; try done. unfold owner_at. simpl. by eapply Hm.
Qed.

Lemma own_ok g slot id e :
  cluster_ok g → id = [] ∨ is_Some (nodes g !! id) → 1 ≤ e ≤ current_epoch g → migrating g !! slot = None → slot_in slot → cluster_ok (own g slot id e).
Proof.
  intros H Hid He Hm Hin. apply set_slots_ok; [done|by rewrite length_insert|by rewrite length_insert|..].
  - intros i o [(? & <- & ?)|[? Ho]]%list_lookup_insert_Some; [done|by apply (ok_known g H i)].
  - intros i x [(? & <- & ?)|[? Ho]]%list_lookup_insert_Some; [done|by apply (ok_epoch g H i)].
  - intros s d Hs. destruct (ok_migrating g H s d Hs) as (Hs' & Ho & _). unfold sidx, slot_in in *.
    rewrite list_lookup_insert_ne; [done|]. intros E. apply Z2Nat.inj in E; [|lia..]. congruence.
Qed.

(** Stamping a slot and forgetting what was in transit commute. *)
Lemma forget_own g slot id e : forget_transit (own g slot id e) slot = own (forget_transit g slot) slot id e.
Proof. done. Qed.

Lemma take_slot_ok g slot id e :
  cluster_ok g → id = [] ∨ is_Some (nodes g !! id) → 1 ≤ e ≤ current_epoch g → slot_in slot → cluster_ok (forget_transit (own g slot id e) slot).
Proof.
  intros H Hid He Hs. rewrite forget_own. apply own_ok; [by apply forget_transit_ok|done..|by apply lookup_delete_eq|done].
Qed.

Lemma take_slots_ok id slots g :
  cluster_ok g → id = [] ∨ is_Some (nodes g !! id) → Forall slot_in slots → cluster_ok (take_slots id slots g).
Proof.
  unfold take_slots. intros H Hid Hs. revert g H Hid. induction Hs as [|s l Hs Hl IH]; intros g H Hid; [done|]. simpl.
  apply IH; [|done]. pose proof (ok_current g H). apply take_slot_ok; [done..|lia|done].
Qed.

Lemma give_slot_ok slot id g : cluster_ok g → is_Some (nodes g !! id) → slot_in slot → cluster_ok (give_slot slot id g).
Proof.
  intros H Hid Hs. apply (take_slots_ok id [slot] (bump g)); [by apply bump_ok|by right|by constructor].
Qed.

(** Handing over every slot of a node, with nothing left in transit. *)
Lemma hand_over_ok from to g : cluster_ok g → to = [] ∨ is_Some (nodes g !! to) → cluster_ok (clear_transit (hand_over from to g)).
Proof.
  intros H Hto. pose proof (ok_current g H). change (cluster_ok (hand_over from to (clear_transit g))).
  apply set_slots_ok; [by apply clear_transit_ok|by rewrite length_fmap| |..].
  - rewrite length_zip_with. simpl. rewrite (ok_owners g H), (ok_epochs g H). lia.
  - intros i o (o' & -> & Ho)%list_lookup_fmap_Some. case_decide; [done|by apply (ok_known g H i)].
  - intros i e (o & e' & -> & Ho & He)%lookup_zip_with_Some. simpl. case_decide; [lia|by apply (ok_epoch g H i)].
  - simpl. intros s d Hs. by rewrite lookup_empty in Hs.
Qed.

(** ** Every method keeps the invariant *)

(** A fallible method keeps the invariant when the state it returns has it. *)
Definition keeps (r : result Str Inner) : Prop := ∀ g, r = Ok g → cluster_ok g.

Lemma keeps_ok g : cluster_ok g → keeps (Ok g).
Proof. by intros H ? [= <-]. Qed.
Lemma keeps_err e : keeps (Err e).
Proof. done. Qed.
Lemma keeps_if (b : bool) r1 r2 : (b = true → keeps r1) → (b = false → keeps r2) → keeps (if b then r1 else r2).
Proof. by destruct b; auto. Qed.
Lemma keeps_decide (P : Prop) `{!Decision P} r1 r2 : (P → keeps r1) → (¬ P → keeps r2) → keeps (if decide P then r1 else r2).
Proof. by case_decide; auto. Qed.
#[export] Hint Resolve keeps_ok keeps_err : cluster.

(** Case analysis on the guards of a method. *)
Ltac guards :=
  repeat match goal with
    | |- keeps (Err _) => apply keeps_err
    | |- keeps (if decide _ then _ else _) => apply keeps_decide; intros ?
    | |- keeps (if _ then _ else _) => apply keeps_if; intros ?
    end.

Lemma slot_ok_in s : 0 ≤ s → slot_ok s = true → slot_in s.
Proof. unfold slot_ok, slot_in. rewrite Z.ltb_lt. lia. Qed.

Lemma negb_slot_ok s : 0 ≤ s → negb (slot_ok s) = false → slot_in s.
Proof. intros ? ?%negb_false_iff. by apply slot_ok_in. Qed.

Lemma known_node id g : negb (bool_decide (is_Some (nodes g !! id))) = false → is_Some (nodes g !! id).
Proof. by intros ?%negb_false_iff%bool_decide_eq_true. Qed.

Lemma check_add_slots slots g : Forall (λ s, 0 ≤ s) slots → check_add slots g = Ok tt → Forall slot_in slots.
Proof.
  induction 1 as [|s l Hs Hl IH]; [constructor|]. simpl. destruct (slot_ok s) eqn:E; [|done]. simpl. destruct (negb _ && negb _); [done|].
  intros Hc. constructor; [by apply slot_ok_in|auto].
Qed.

Lemma check_del_slots slots g : Forall (λ s, 0 ≤ s) slots → check_del slots g = Ok tt → Forall slot_in slots.
Proof.
  induction 1 as [|s l Hs Hl IH]; [constructor|]. simpl. destruct (slot_ok s) eqn:E; [|done]. simpl. case_decide; [done|].
  case_decide; [|done]. intros Hc. constructor; [by apply slot_ok_in|auto].
Qed.

Lemma add_slots_ok slots g : Forall (λ s, 0 ≤ s) slots → cluster_ok g → keeps (add_slots slots g).
Proof.
  intros Hs H. unfold add_slots. guards. destruct (check_add slots g) as [[]|] eqn:E; [|done]. apply keeps_ok, take_slots_ok.
  - by apply bump_ok.
  - right. apply (ok_me g H).
  - by eapply check_add_slots.
Qed.

Lemma del_slots_ok slots g : Forall (λ s, 0 ≤ s) slots → cluster_ok g → keeps (del_slots slots g).
Proof.
  intros Hs H. unfold del_slots. guards. destruct (check_del slots g) as [[]|] eqn:E; [|done]. apply keeps_ok, take_slots_ok.
  - by apply bump_ok.
  - by left.
  - by eapply check_del_slots.
Qed.

Lemma check_ranges_nonneg ranges l : Forall (λ r, 0 ≤ r.1) ranges → check_ranges ranges = Ok l → Forall (λ s, 0 ≤ s) l.
Proof.
  intros H. revert l. induction H as [|[a b] rs Hr Hrs IH]; intros l; simpl; [by intros [= <-]|].
  repeat (case_match; [done|]). destruct (check_ranges rs) as [rest|]; [|done]. intros [= <-]. apply Forall_app; split; [|by apply IH].
  apply Forall_forall. intros s Hs%elem_of_seqZ. simpl in *. lia.
Qed.

Lemma expand_nonneg ranges l : Forall (λ r, 0 ≤ r.1) ranges → expand_slot_ranges ranges = Ok l → Forall (λ s, 0 ≤ s) l.
Proof.
  intros H. unfold expand_slot_ranges. destruct (check_ranges ranges) as [out|] eqn:E; [|done]. simpl.
  destruct (check_distinct ∅ out); [|done]. intros [= <-]. by eapply check_ranges_nonneg.
Qed.

Lemma add_slot_ranges_ok ranges g : Forall (λ r, 0 ≤ r.1) ranges → cluster_ok g → keeps (add_slot_ranges ranges g).
Proof.
  intros Hr H. unfold add_slot_ranges. destruct (expand_slot_ranges ranges) as [l|] eqn:E; [|done]. simpl. case_decide; [done|].
  apply add_slots_ok; [by eapply expand_nonneg|done].
Qed.
Lemma del_slot_ranges_ok ranges g : Forall (λ r, 0 ≤ r.1) ranges → cluster_ok g → keeps (del_slot_ranges ranges g).
Proof.
  intros Hr H. unfold del_slot_ranges. destruct (expand_slot_ranges ranges) as [l|] eqn:E; [|done]. simpl. case_decide; [done|].
  apply del_slots_ok; [by eapply expand_nonneg|done].
Qed.

Lemma set_config_epoch_ok e g : e ≤ u64_max → cluster_ok g → keeps (set_config_epoch e g).
Proof. intros He H. unfold set_config_epoch. guards. apply keeps_ok, set_epoch_ok; [done|]. lia. Qed.

Lemma flush_slots_ok g : cluster_ok g → cluster_ok (flush_slots g).
Proof.
  intros H. unfold flush_slots. destruct (owns_any (my_id g) g); [|by apply clear_transit_ok].
  apply hand_over_ok; [by apply bump_ok|by left].
Qed.

Lemma reset_cluster_config_ok g : cluster_ok g → cluster_ok (reset_cluster_config g).
Proof.
  intros H. pose proof (bump_ok g H) as Hb. unfold reset_cluster_config. cbv zeta. set (g1 := bump g) in *.
  destruct (ok_me g H) as [n Hn]. assert (Hid : my_id g1 ≠ []) by apply (ok_id g H).
  split; simpl; try done.
  - rewrite length_fmap. apply (ok_owners g H).
  - rewrite length_fmap. apply (ok_epochs g H).
  - intros i o (? & -> & ?)%list_lookup_fmap_Some. by left.
  - intros i e (? & -> & ?)%list_lookup_fmap_Some. pose proof (ok_current g1 Hb). simpl in *. lia.
  - apply (ok_current g1 Hb).
  - intros id m (m0 & <- & Hm)%lookup_fmap_Some. apply map_lookup_filter_Some in Hm as [Hm E]. simpl in E. subst id.
    destruct (ok_nodes g H _ _ Hm). split; simpl; try done. by rewrite bool_decide_eq_true_2.
  - rewrite lookup_fmap. assert (filter (λ x, x.1 = my_id g) (nodes g) !! my_id g = Some n) as ->; [by apply map_lookup_filter_Some|done].
  - apply (ok_port g H).
Qed.

Lemma owns_any_false id g i o : owns_any id g = false → slot_owner g !! i = Some o → o ≠ id.
Proof.
  unfold owns_any. intros H Hi ->. apply not_true_iff_false in H. apply H, existsb_exists. exists id.
  split; [apply list_elem_of_In; by eapply list_elem_of_lookup_2|by apply bool_decide_eq_true_2].
Qed.

Lemma delete_known (id x : Str) (ns : gmap Str ClusterNode) : x ≠ id → is_Some (ns !! x) → is_Some (delete id ns !! x).
Proof. intros. by rewrite lookup_delete_ne. Qed.

Lemma forget_node_ok id g : cluster_ok g → keeps (forget_node id g).
Proof.
  intros H. pose proof H as [H1 H2 H3 H4 H5 H6 H7 H8 H9 H10 H11 H12]. unfold forget_node. guards. apply keeps_ok.
  split; simpl; try done.
  - intros i o Hi. destruct (H4 i o Hi) as [?|?]; [by left|]. right. apply delete_known; [|done]. by eapply owns_any_false.
  - intros x n [_ Hx]%lookup_delete_Some. by apply H7.
  - apply delete_known; [congruence|done].
  - intros s d [Hs Hd]%map_lookup_filter_Some. destruct (H9 s d Hs) as (? & ? & Hi & ?). split_and!; try done.
    + apply map_lookup_filter_None. by left.
    + by apply delete_known.
  - intros s d [Hs Hd]%map_lookup_filter_Some. destruct (H10 s d Hs) as (? & ?). split; [done|by apply delete_known].
  - intros s v [Hs _]%map_lookup_filter_Some. by apply H11.
Qed.

Lemma set_local_repl_offset_ok o g : cluster_ok g → cluster_ok (set_local_repl_offset o g).
Proof. intros H. apply alter_node_ok; auto with cluster. Qed.
Lemma set_local_repl_priority_ok p g : cluster_ok g → cluster_ok (set_local_repl_priority p g).
Proof. intros H. apply alter_node_ok; auto with cluster. Qed.

Lemma add_node_with_role_ok t id ip port m mid g : in_u16 port → cluster_ok g → cluster_ok (add_node_with_role t id ip port m mid g).
Proof.
  intros Hp H. unfold add_node_with_role. case_decide; [done|]. apply first_pong_ok, insert_node_ok; [|done]. split; simpl; try done. by rewrite bool_decide_eq_false_2.
Qed.

Lemma merge_role_ok t e g : in_u16 (rm_port e) → cluster_ok g → cluster_ok (merge_role t g e).
Proof.
  intros Hp H. unfold merge_role. case_decide; [done|]. apply alter_node_ok; [auto with cluster|]. by apply add_node_with_role_ok.
Qed.
Lemma merge_role_map_ok t es g : Forall (λ e, in_u16 (rm_port e)) es → cluster_ok g → cluster_ok (merge_role_map t es g).
Proof. unfold merge_role_map. intros Hp. revert g. induction Hp as [|e l He Hl IH]; intros g H; [done|]. by apply IH, merge_role_ok. Qed.

(** Becoming a replica or a master. *)
Lemma handed_over_ok (b : bool) from to g : cluster_ok g → to = [] ∨ is_Some (nodes g !! to) → cluster_ok (clear_transit (if b then hand_over from to (bump g) else g)).
Proof. intros H Hto. destruct b; [apply hand_over_ok; [by apply bump_ok|done]|by apply clear_transit_ok]. Qed.

Lemma configure_as_replica_of_ok id g : cluster_ok g → keeps (configure_as_replica_of id g).
Proof.
  intros H. unfold configure_as_replica_of. guards. apply keeps_ok. apply alter_node_ok; [auto with cluster|]. apply alter_node_ok.
  - intros n Hn. apply with_fail_ok; [|by apply with_role_ok]. intros E. split; [done|]. apply (no_me _ _ _ Hn E).
  - apply handed_over_ok; [done|]. right. by apply known_node.
Qed.

Lemma claim_slots_from_ok id g g' n : cluster_ok g → claim_slots_from id g = Ok (g', n) → cluster_ok g'.
Proof.
  intros H. unfold claim_slots_from. destruct (negb _); [done|]. intros [= <- _]. apply alter_node_ok.
  - intros m Hm. apply with_fail_ok; [|by apply with_role_ok]. intros E. split; [done|]. apply (no_me _ _ _ Hm E).
  - apply handed_over_ok; [done|]. right. apply (ok_me g H).
Qed.

Lemma reconfigure_ok id g : cluster_ok g → keeps (reconfigure_as_replica_of_failover_winner id g).
Proof.
  intros H. unfold reconfigure_as_replica_of_failover_winner. guards; [by apply keeps_ok|]. apply configure_as_replica_of_ok, alter_node_ok; [|done].
  intros n Hn. apply with_fail_ok; [done|by apply with_role_ok].
Qed.

(** Failure detection. *)
Lemma touch_pong_ok t id g : cluster_ok g → cluster_ok (touch_pong t id g).
Proof. intros H. apply set_health_ok, alter_node_ok; [|done]. intros n. by apply with_fail_ok. Qed.

Lemma fail_node_ok id g : id ≠ my_id g → cluster_ok g → cluster_ok (alter_node (λ n, with_fail n false true) id g).
Proof. intros Hid. apply alter_node_ok. intros n. by apply with_fail_ok. Qed.

Lemma mark_fail_ok id g : cluster_ok g → cluster_ok (mark_fail id g).
Proof. intros H. unfold mark_fail. case_decide; [done|by apply fail_node_ok]. Qed.

Lemma ingest_fail_reports_ok p l g : cluster_ok g → cluster_ok (ingest_fail_reports p l g).
Proof. intros H. unfold ingest_fail_reports. case_decide; [done|by apply set_health_ok]. Qed.

Lemma escalate_one_ok q acc id : id ≠ my_id acc.1 → cluster_ok acc.1 → cluster_ok (escalate_one q acc id).1 ∧ my_id (escalate_one q acc id).1 = my_id acc.1.
Proof.
  destruct acc as [g l]. simpl. intros Hid H. unfold escalate_one. destruct (node_is_fail id g); [done|]. destruct (_ <=? _)%nat; [|done].
  destruct (nodes g !! id); [|done]. split; [by apply fail_node_ok|done].
Qed.

Lemma escalate_all_ok q ids acc : my_id acc.1 ∉ ids → cluster_ok acc.1 → cluster_ok (foldl (escalate_one q) acc ids).1.
Proof.
  revert acc. induction ids as [|id ids IH]; intros acc Hn H; [done|]. apply not_elem_of_cons in Hn as [Hid Hn]. simpl.
  destruct (escalate_one_ok q acc id) as [H' E]; [done..|]. apply IH; [by rewrite E|done].
Qed.

Section iteration.
Context {CO : ClusterOrder} {CL : ClusterOrderLaws}.

Lemma elem_of_id_iter (x : Str) (s : gset Str) : x ∈ id_iter s ↔ x ∈ s.
Proof. by rewrite id_iter_perm, elem_of_elements. Qed.

Lemma escalate_fails_ok g : cluster_ok g → cluster_ok (escalate_fails g).1.
Proof.
  intros H. apply escalate_all_ok; [|done]. simpl. rewrite elem_of_id_iter. unfold fail_candidates. set_solver.
Qed.

Lemma suspect_ok id g n : nodes g !! id = Some n → n_fail n = false → id ≠ my_id g → cluster_ok g → cluster_ok (alter_node (λ n, with_fail n true (n_fail n)) id g).
Proof.
  intros Hn Hf Hid H. apply set_nodes_ok; [done| |].
  - intros x Hx. destruct (decide (x = id)) as [->|]; [rewrite lookup_alter_eq, Hn; eauto|by rewrite lookup_alter_ne].
  - intros x m. destruct (decide (x = id)) as [->|]; [rewrite lookup_alter_eq, Hn; intros [= <-]|rewrite lookup_alter_ne by done; apply (ok_nodes g H)].
    apply with_fail_ok; [done|by apply (ok_nodes g H)].
Qed.

Lemma note_unreachable_ok id g : cluster_ok g → cluster_ok (note_unreachable id g).1.
Proof.
  intros H. unfold note_unreachable. repeat (case_decide; [done|]). destruct (nodes g !! id) as [n|] eqn:E; [|done].
  destruct (n_fail n) eqn:Ef; [done|]. pose proof (escalate_fails_ok _ (suspect_ok id g n E Ef ltac:(done) H)) as Ho.
  by destruct (escalate_fails _).
Qed.

Lemma manual_failover_ok mode g : cluster_ok g → cluster_ok (manual_failover mode g).1.
Proof.
  intros H. assert (Hc : ∀ id g, cluster_ok g → cluster_ok (match claim_slots_from id g with Ok (g, n) => (g, Ok n) | Err e => (g, Err e) end : Inner * result Str nat).1).
  { intros id g' H'. destruct (claim_slots_from id g') as [[g'' k]|] eqn:E; [by eapply claim_slots_from_ok|done]. }
  unfold manual_failover. destruct (my_master_id g) as [m|]; [|done]. destruct mode; cbv zeta;
    repeat match goal with |- cluster_ok (if ?b then _ else _).1 => destruct b; [done|] end; apply Hc; auto using mark_fail_ok.
Qed.
End iteration.

(** Moving slots. *)
Lemma reassign_slot_ok slot id g : 0 ≤ slot → cluster_ok g → keeps (reassign_slot slot id g).
Proof. intros Hs H. unfold reassign_slot. guards. apply keeps_ok, give_slot_ok; [done|by apply known_node|by apply negb_slot_ok]. Qed.

Lemma set_migrating_ok slot id g : 0 ≤ slot → cluster_ok g → keeps (set_migrating slot id g).
Proof.
  intros Hs H. unfold set_migrating. guards. apply keeps_ok, transit_ok; [done|..].
  - intros s d [[<- <-]|[Hn Hd]]%lookup_insert_Some.
    + split_and!; [by apply negb_slot_ok| |by rewrite lookup_delete_eq|by apply known_node].
      by apply negb_false_iff, bool_decide_eq_true in H2.
    + destruct (ok_migrating g H s d Hd) as (? & ? & Hi & ?). split_and!; try done. by rewrite lookup_delete_ne.
  - intros s d [_ Hd]%lookup_delete_Some. by apply (ok_importing g H).
  - apply (ok_votes g H).
Qed.

Lemma set_importing_ok slot id g : 0 ≤ slot → cluster_ok g → keeps (set_importing slot id g).
Proof.
  intros Hs H. unfold set_importing. guards. apply keeps_ok, transit_ok; [done|..].
  - intros s d [Hn Hd]%lookup_delete_Some. destruct (ok_migrating g H s d Hd) as (? & ? & Hi & ?). split_and!; try done. by rewrite lookup_insert_ne.
  - intros s d [[<- <-]|[Hn Hd]]%lookup_insert_Some; [|by apply (ok_importing g H)]. split; [by apply negb_slot_ok|by apply known_node].
  - apply (ok_votes g H).
Qed.

Lemma set_stable_ok slot g : cluster_ok g → keeps (set_stable slot g).
Proof. intros H. unfold set_stable. guards. by apply keeps_ok, forget_transit_ok. Qed.

Lemma slot_epoch_range g slot : cluster_ok g → 0 ≤ slot_epoch g slot ≤ current_epoch g.
Proof.
  intros H. pose proof (ok_current g H). unfold slot_epoch, epoch_at. destruct (_ !! _) as [e|] eqn:E; simpl; [|lia].
  pose proof (ok_epoch g H _ _ E). lia.
Qed.

Lemma record_vote_ok now slot id g : slot_in slot → cluster_ok g → keeps (record_vote now slot id g).
Proof.
  intros Hs H. assert (Hv : keeps (Ok (set_prepare g (<[slot := mkVote id (slot_epoch g slot) now]> (prepare_node g))))).
  { apply keeps_ok, set_prepare_ok; [done|]. intros s v [[<- <-]|[_ Hv]]%lookup_insert_Some; [|by apply (ok_votes g H)].
    split; [done|]. pose proof (slot_epoch_range g slot H). pose proof (ok_current g H). unfold vote_ok. simpl. lia. }
  unfold record_vote. guards; try done. destruct (migrating g !! slot); [|done]. by guards.
Qed.

Lemma purge_expired_prepare_ok now slot g : cluster_ok g → cluster_ok (purge_expired_prepare now slot g).
Proof. intros H. unfold purge_expired_prepare. destruct (_ !! _); [|done]. case_match; [by apply drop_prepare_ok|done]. Qed.

Lemma recheck_vote_ok now now' slot id g : cluster_ok g → cluster_ok (recheck_vote now now' slot id g).1.
Proof.
  intros H. unfold recheck_vote. apply (purge_expired_prepare_ok now slot) in H. destruct (_ !! _); [|done].
  repeat (case_match; [try done; by apply drop_prepare_ok|]). done.
Qed.

Lemma commit_vote_ok now now' slot id g : slot_in slot → cluster_ok g → cluster_ok (commit_vote now now' slot id g).1.
Proof.
  intros Hs H. unfold commit_vote. apply (recheck_vote_ok now now' slot id) in H. destruct (recheck_vote now now' slot id g) as [g' [[]|]]; [|done].
  simpl in *. destruct (contains_node id g') eqn:E; [|done]. simpl. apply give_slot_ok; [done| |done]. by apply bool_decide_eq_true in E.
Qed.

(** ** Applying a range *)

Definition in_transit (g : Inner) (slot : Z) : bool := bool_decide (is_Some (migrating g !! slot)) || bool_decide (is_Some (importing g !! slot)).

(** The slot changes hands when a range that covers it is applied. *)
Definition takes (r : OwnershipRange) (g : Inner) (slot : Z) : bool := negb (in_transit g slot) && (slot_epoch g slot <? or_epoch r).

Lemma sidx_inj s s' : slot_in s → slot_in s' → sidx s = sidx s' → s = s'.
Proof. unfold slot_in, sidx. lia. Qed.

Lemma slot_lookup {A} (l : list A) s : length l = Z.to_nat SLOT_COUNT → slot_in s → is_Some (l !! sidx s).
Proof. intros Hl Hs. apply lookup_lt_is_Some. unfold slot_in, sidx in *. lia. Qed.

Lemma own_lookup g slot id e s :
  length (slot_owner g) = Z.to_nat SLOT_COUNT → length (slot_config_epoch g) = Z.to_nat SLOT_COUNT → slot_in slot → slot_in s →
  owner_at (own g slot id e) s = (if decide (s = slot) then Some id else owner_at g s) ∧
  epoch_at (own g slot id e) s = (if decide (s = slot) then Some e else epoch_at g s).
Proof.
  intros Ho He Hs Hs'. unfold owner_at, epoch_at. simpl. case_decide as E.
  - subst s. unfold slot_in, sidx in *. by rewrite !list_lookup_insert_eq by lia.
  - assert (sidx slot ≠ sidx s) by (intros Es; apply E; symmetry; by apply sidx_inj). by rewrite !list_lookup_insert_ne.
Qed.

Lemma takes_own r g slot id e s :
  length (slot_owner g) = Z.to_nat SLOT_COUNT → length (slot_config_epoch g) = Z.to_nat SLOT_COUNT → slot_in slot → slot_in s → s ≠ slot →
  takes r (own g slot id e) s = takes r g s.
Proof.
  intros. unfold takes, slot_epoch. destruct (own_lookup g slot id e s) as [_ ->]; [done..|]. by rewrite decide_False.
Qed.

(** The state after a range, slot by slot, and how many slots it took. *)
Lemma apply_slots_spec r l g cnt :
  length (slot_owner g) = Z.to_nat SLOT_COUNT → length (slot_config_epoch g) = Z.to_nat SLOT_COUNT → NoDup l → Forall slot_in l →
  let res := foldl (apply_slot r) (g, cnt) l in
  ∃ os es, res.1 = set_slots g os es ∧ length os = length (slot_owner g) ∧ length es = length (slot_config_epoch g) ∧
    res.2.1.1 = (cnt.1.1 + length (filter (λ s, takes r g s = true) l))%nat ∧
    ∀ s, slot_in s →
      os !! sidx s = (if bool_decide (s ∈ l) && takes r g s then Some (or_owner_id r) else owner_at g s) ∧
      es !! sidx s = (if bool_decide (s ∈ l) && takes r g s then Some (or_epoch r) else epoch_at g s).
Proof.
  revert g cnt. induction l as [|x l IH]; intros g [[a k] j] Ho He Hd Hl.
  { exists (slot_owner g), (slot_config_epoch g). split_and!; try done; [by destruct g|..]; simpl; lia || done. }
  apply NoDup_cons in Hd as [Hx Hd]. apply Forall_cons in Hl as [Hxin Hl]. cbv zeta in *. cbn [foldl].
  assert (Es : apply_slot r (g, (a, k, j)) x = (if takes r g x then own g x (or_owner_id r) (or_epoch r) else g,
    ((a + if takes r g x then 1 else 0)%nat, if in_transit g x then S k else k, if in_transit g x || takes r g x then j else S j))).
  { unfold apply_slot, takes, in_transit. destruct (_ || _) eqn:E1; cbn [negb andb orb]; [by rewrite Nat.add_0_r|].
    destruct (_ <? _); by rewrite ?Nat.add_0_r, ?Nat.add_1_r. }
  rewrite Es. clear Es. rewrite filter_cons.
  set (g1 := if takes r g x then own g x (or_owner_id r) (or_epoch r) else g).
  assert (L1 : length (slot_owner g1) = Z.to_nat SLOT_COUNT ∧ length (slot_config_epoch g1) = Z.to_nat SLOT_COUNT)
    by (unfold g1; destruct (takes r g x); simpl; rewrite ?length_insert; done).
  assert (T1 : ∀ s, slot_in s → s ≠ x → takes r g1 s = takes r g s) by (intros s Hs Hne; unfold g1; destruct (takes r g x); [by apply takes_own|done]).
  assert (S1 : ∀ s, slot_in s → s ≠ x → owner_at g1 s = owner_at g s ∧ epoch_at g1 s = epoch_at g s).
  { intros s Hs Hne. unfold g1. destruct (takes r g x); [|done].
    destruct (own_lookup g x (or_owner_id r) (or_epoch r) s Ho He Hxin Hs) as [-> ->]. by rewrite !decide_False. }
  match goal with |- context [foldl (apply_slot r) (g1, ?c)] => destruct (IH g1 c) as (os & es & -> & L2 & L3 & Ec & Hs); [by destruct L1..|done|done|] end.
  exists os, es. split_and!.
  - unfold g1. by destruct (takes r g x).
  - destruct L1 as [L1 _]. congruence.
  - destruct L1 as [_ L1]. congruence.
  - rewrite Ec. cbn [fst snd]. rewrite (filter_ext_in (λ s, takes r g1 s = true) (λ s, takes r g s = true)).
    + destruct (takes r g x) eqn:E; [rewrite decide_True by done|rewrite decide_False by done]; simpl; lia.
    + intros s Hsl. rewrite T1; [done| |by intros ->]. rewrite Forall_forall in Hl. by apply Hl.
  - intros s Hsin. destruct (Hs s Hsin) as [-> ->]. destruct (decide (s = x)) as [->|Hne].
    + rewrite (bool_decide_eq_false_2 (x ∈ l)), (bool_decide_eq_true_2 (x ∈ x :: l)) by (done || left). simpl. unfold g1.
      destruct (takes r g x); [|done]. destruct (own_lookup g x (or_owner_id r) (or_epoch r) x Ho He Hxin Hxin) as [-> ->]. by rewrite !decide_True.
    + rewrite T1 by done. destruct (S1 s Hsin Hne) as [-> ->].
      assert (bool_decide (s ∈ x :: l) = bool_decide (s ∈ l)) as ->; [|done]. apply bool_decide_ext. rewrite elem_of_cons. naive_solver.
Qed.

(** ** Installing the owner of a range *)

(** Two states that differ in the nodes and the times of contact only. *)
Record same_slots (g g' : Inner) : Prop := {
  ss_id : my_id g' = my_id g;
  ss_owner : slot_owner g' = slot_owner g;
  ss_epochs : slot_config_epoch g' = slot_config_epoch g;
  ss_mig : migrating g' = migrating g;
  ss_imp : importing g' = importing g;
  ss_votes : prepare_node g' = prepare_node g;
  ss_current : current_epoch g' = current_epoch g
}.

Lemma first_pong_same t id g g' : same_slots g g' → same_slots g (first_pong t id g').
Proof. intros []. unfold first_pong. destruct (last_pong g' !! id); by split. Qed.

Lemma learn_owner_ok t r g g' :
  in_u16 (or_port r) → cluster_ok g → learn_owner t r g = Some g' →
  cluster_ok g' ∧ is_Some (nodes g' !! or_owner_id r) ∧ same_slots g g' ∧ ∀ id, is_Some (nodes g !! id) → is_Some (nodes g' !! id).
Proof.
  intros Hp H. unfold learn_owner. destruct (contains_node (or_owner_id r) g) eqn:E.
  - apply bool_decide_eq_true in E. intros [= <-]. case_match; [|by split_and!].
    assert (D : ∀ id, is_Some (nodes g !! id) → is_Some (nodes (alter_node (λ n, if n_myself n then n else with_address n (or_ip r) (or_port r)) (or_owner_id r) g) !! id)).
    { intros id [n Hn]. simpl. destruct (decide (id = or_owner_id r)) as [->|]; [rewrite lookup_alter_eq|rewrite lookup_alter_ne by done]; rewrite Hn; eauto. }
    split_and!; [|by apply D|by split|done]. apply alter_node_ok; [|done]. intros n Hn. destruct (n_myself n); auto with cluster.
  - apply bool_decide_eq_false in E. destruct (_ || _) eqn:Ea; [done|]. intros [= <-]. split_and!.
    + apply first_pong_ok, insert_node_ok; [|done]. split; simpl; try done. rewrite bool_decide_eq_false_2; [done|]. intros Ex. apply E. rewrite Ex. apply (ok_me g H).
    + unfold first_pong. destruct (last_pong _ !! _); simpl; rewrite lookup_insert_eq; eauto.
    + by apply first_pong_same.
    + intros id Hid. unfold first_pong. destruct (last_pong _ !! _); simpl; rewrite lookup_insert_ne; try done; by intros <-.
Qed.

(** ** Applying a range, as a whole *)

Definition covers (r : OwnershipRange) (s : Z) : bool := (or_start r <=? s) && (s <=? or_end r).

(** A range that is looked at: in bounds, with an owner that is known or can be installed. *)
Definition admissible (r : OwnershipRange) (g : Inner) : bool :=
  negb ((or_end r <? or_start r) || negb (slot_ok (or_end r))) && negb (bool_decide (or_owner_id r = [])) &&
  (contains_node (or_owner_id r) g || negb (bool_decide (or_ip r = []) || (or_port r =? 0))).

Lemma learn_owner_cases t r g : is_Some (learn_owner t r g) ↔ contains_node (or_owner_id r) g || negb (bool_decide (or_ip r = []) || (or_port r =? 0)) = true.
Proof.
  unfold learn_owner. destruct (contains_node (or_owner_id r) g); simpl; [by split; eauto|]. destruct (_ || _); simpl; [|by split; eauto].
  split; [by intros []|done].
Qed.

Definition range_slots (r : OwnershipRange) : list Z := seqZ (or_start r) (or_end r - or_start r + 1).

Lemma elem_of_range_slots r s : s ∈ range_slots r ↔ covers r s = true.
Proof. unfold range_slots, covers. rewrite elem_of_seqZ, andb_true_iff, !Z.leb_le. lia. Qed.

Lemma range_slots_in r : 0 ≤ or_start r → slot_ok (or_end r) = true → Forall slot_in (range_slots r).
Proof.
  intros H0 H1. apply Forall_forall. intros s. rewrite elem_of_range_slots. unfold covers, slot_ok, slot_in in *. rewrite andb_true_iff, !Z.leb_le.
  rewrite Z.ltb_lt in H1. lia.
Qed.

Lemma takes_same r g g' s : same_slots g g' → takes r g' s = takes r g s.
Proof. intros [_ _ E1 E2 E3 _ _]. unfold takes, in_transit, slot_epoch, epoch_at. by rewrite E1, E2, E3. Qed.

(** The tables after the slots of a range were taken, in a state whose epoch is not behind. *)
Lemma range_state_ok r g os es e' :
  cluster_ok g → is_Some (nodes g !! or_owner_id r) → length os = length (slot_owner g) → length es = length (slot_config_epoch g) →
  current_epoch g ≤ e' ≤ u64_max → 0 ≤ or_epoch r → (∀ s, slot_in s → covers r s && takes r g s = true → or_epoch r ≤ e') →
  (∀ s, slot_in s →
    os !! sidx s = (if covers r s && takes r g s then Some (or_owner_id r) else owner_at g s) ∧
    es !! sidx s = (if covers r s && takes r g s then Some (or_epoch r) else epoch_at g s)) →
  cluster_ok (set_slots (set_epoch g e') os es).
Proof.
  intros H Ho L1 L2 He H0 Ht Hs. pose proof (ok_owners g H) as LO. pose proof (ok_epochs g H) as LE.
  assert (Hi : ∀ {A} (l : list A) i x, length l = Z.to_nat SLOT_COUNT → l !! i = Some x → slot_in (Z.of_nat i) ∧ sidx (Z.of_nat i) = i).
  { intros A l i x Hl Hi%lookup_lt_Some. unfold slot_in, sidx. lia. }
  apply set_slots_ok; simpl; try done; [by apply set_epoch_ok|..].
  - intros i o Hio. destruct (Hi _ os i o ltac:(congruence) Hio) as [Hin Ei]. rewrite <- Ei in Hio. destruct (Hs _ Hin) as [E _]. rewrite E in Hio.
    destruct (covers r _ && takes r g _); [injection Hio as <-; by right|by apply (ok_known g H) in Hio].
  - intros i o Hio. destruct (Hi _ es i o ltac:(congruence) Hio) as [Hin Ei]. rewrite <- Ei in Hio. destruct (Hs _ Hin) as [_ E]. rewrite E in Hio.
    destruct (covers r _ && takes r g _) eqn:Et.
    + simplify_eq. specialize (Ht _ Hin Et). apply andb_true_iff in Et as [_ Et]. unfold takes in Et. apply andb_true_iff in Et as [_ Et%Z.ltb_lt].
      assert (1 ≤ slot_epoch g (Z.of_nat i)); [|lia]. unfold slot_epoch. destruct (slot_lookup _ _ LE Hin) as [x Hx]. unfold epoch_at. rewrite Hx. simpl.
      apply (ok_epoch g H) in Hx. lia.
    + apply (ok_epoch g H) in Hio. lia.
  - intros s d Hm. destruct (ok_migrating g H s d Hm) as (Hin & Hown & _). destruct (Hs s Hin) as [-> _].
    assert (takes r g s = false) as ->; [|by rewrite andb_false_r]. unfold takes, in_transit. rewrite (bool_decide_eq_true_2 (is_Some (migrating g !! s))); eauto.
Qed.

(** What the methods of gossip keep of the slots besides owners and epochs. *)
Record grows (g g' : Inner) : Prop := {
  gr_id : my_id g' = my_id g;
  gr_mig : migrating g' = migrating g;
  gr_imp : importing g' = importing g;
  gr_votes : prepare_node g' = prepare_node g;
  gr_current : current_epoch g ≤ current_epoch g';
  gr_known : ∀ id, is_Some (nodes g !! id) → is_Some (nodes g' !! id)
}.

(** What a range makes of a state: it is refused, or the slots it covers and takes have its owner and
    its epoch, and nothing else of the slots changes. *)
Lemma apply_range_spec t r g :
  0 ≤ or_start r → in_u16 (or_port r) → in_u64 (or_epoch r) → cluster_ok g →
  let g' := (apply_ownership_range t r g).1 in
  cluster_ok g' ∧ grows g g' ∧
  ∀ s, slot_in s →
    owner_at g' s = (if admissible r g && covers r s && takes r g s then Some (or_owner_id r) else owner_at g s) ∧
    epoch_at g' s = (if admissible r g && covers r s && takes r g s then Some (or_epoch r) else epoch_at g s).
Proof.
  intros H0 Hp He H. cbv zeta. assert (G0 : grows g g) by (split; done || lia). unfold apply_ownership_range, admissible.
  destruct ((or_end r <? or_start r) || negb (slot_ok (or_end r))) eqn:Eb; cbn [negb andb]; [by split_and!|].
  apply orb_false_iff in Eb as [_ Eb%negb_false_iff]. destruct (decide (or_owner_id r = [])) as [En|En];
    [rewrite bool_decide_eq_true_2 by done; by split_and!|rewrite bool_decide_eq_false_2 by done]. cbn [negb andb].
  pose proof (learn_owner_cases t r g) as Hc. destruct (learn_owner t r g) as [g1|] eqn:E.
  2: { destruct (_ || negb _); [by destruct (proj2 Hc eq_refl)|]. by split_and!. }
  rewrite (proj1 Hc ltac:(eauto)). clear Hc G0. destruct (learn_owner_ok t r g g1 Hp H E) as (H1 & Ho & Hs & Hd). cbn [andb].
  destruct (apply_slots_spec r (range_slots r) g1 (0, 0, 0)%nat) as (os & es & Er & L1 & L2 & Ec & Hsl);
    [apply (ok_owners g1 H1)|apply (ok_epochs g1 H1)|apply NoDup_seqZ|by apply range_slots_in|].
  fold (range_slots r). destruct (foldl (apply_slot r) (g1, (0, 0, 0)%nat) (range_slots r)) as [g2 [[a k] j]]. cbn [fst snd] in Er, Ec. subst g2.
  assert (Hcv : ∀ s, bool_decide (s ∈ range_slots r) = covers r s).
  { intros s. destruct (covers r s) eqn:Ecv; [apply bool_decide_eq_true_2|apply bool_decide_eq_false_2]; rewrite elem_of_range_slots, Ecv; done. }
  setoid_rewrite Hcv in Hsl.
  set (e' := if (0 <? a)%nat && (current_epoch g1 <? or_epoch r) then or_epoch r else current_epoch g1).
  assert (Ew : (if (0 <? a)%nat && (current_epoch (set_slots g1 os es) <? or_epoch r) then set_epoch (set_slots g1 os es) (or_epoch r)
     else set_slots g1 os es) = set_slots (set_epoch g1 e') os es) by (unfold e'; simpl; by destruct (_ && _); destruct g1).
  rewrite Ew. cbn [fst]. pose proof (ok_current g1 H1) as Hcur.
  assert (He' : current_epoch g1 ≤ e' ≤ u64_max) by (unfold e'; destruct (_ && _) eqn:Eq; [apply andb_true_iff in Eq as [_ ?%Z.ltb_lt]|]; lia).
  split_and!.
  - apply (range_state_ok r); try done; [lia|]. intros s Hin Ht. unfold e'. assert ((0 <? a)%nat = true) as ->.
    { apply Nat.ltb_lt. rewrite Ec. simpl. apply andb_true_iff in Ht as [Hs1 Hs2]. assert (Hf : s ∈ filter (λ s, takes r g1 s = true) (range_slots r))
        by (apply list_elem_of_filter; split; [done|by apply elem_of_range_slots]). destruct (filter _ (range_slots r)); [by apply not_elem_of_nil in Hf|simpl; lia]. }
    simpl. destruct (Z.ltb_spec (current_epoch g1) (or_epoch r)); lia.
  - destruct Hs. split; simpl; try done. lia.
  - intros s Hin. destruct (Hsl s Hin) as [E1 E2]. unfold owner_at at 1, epoch_at at 1. simpl. rewrite E1, E2, (takes_same r g g1 s Hs).
    unfold owner_at, epoch_at. by rewrite (ss_owner _ _ Hs), (ss_epochs _ _ Hs).
Qed.
