(* ===== verification/ClusterEpochs.v ===== *)
(** * Epochs fence the ownership of slots

    The epoch of a slot never goes back, and its owner changes only together with it. *)

From S2P Require Import Prelude RustStd Text HashSlot ClusterState ClusterFacts.
From Stdlib Require Import Lia.
Local Open Scope Z_scope.

(** The table of slots moves forward. *)
Record rises (g g' : Inner) : Prop := {
  ri_id : my_id g' = my_id g;
  ri_current : current_epoch g ≤ current_epoch g';
  ri_epoch : ∀ s, slot_in s → slot_epoch g s ≤ slot_epoch g' s;
  ri_owner : ∀ s, slot_in s → current_epoch g' < u64_max → slot_epoch g' s = slot_epoch g s → owner_at g' s = owner_at g s
}.

(** No vote is new. *)
Definition votes_kept (g g' : Inner) : Prop := ∀ s v, prepare_node g' !! s = Some v → prepare_node g !! s = Some v.

Record advances (g g' : Inner) : Prop := { av_rises : rises g g'; av_votes : votes_kept g g' }.

Lemma rises_refl g : rises g g.
Proof. by split. Qed.
Lemma rises_trans g1 g2 g3 : rises g1 g2 → rises g2 g3 → rises g1 g3.
Proof.
  intros [I1 C1 E1 O1] [I2 C2 E2 O2]. split; [congruence|lia|intros s Hs; specialize (E1 s Hs); specialize (E2 s Hs); lia|].
  intros s Hs Hc E. specialize (E1 s Hs). specialize (E2 s Hs). rewrite O2, O1; [done|done|lia..|done|lia|lia].
Qed.

Lemma advances_refl g : advances g g.
Proof. split; [apply rises_refl|by intros s v]. Qed.
Lemma advances_trans g1 g2 g3 : advances g1 g2 → advances g2 g3 → advances g1 g3.
Proof. intros [R1 V1] [R2 V2]. split; [by eapply rises_trans|]. intros s v Hv. by apply V1, V2. Qed.

Lemma same_votes g g' : prepare_node g' = prepare_node g → votes_kept g g'.
Proof. by intros E s v; rewrite E. Qed.
Lemma drop_votes g slot : votes_kept g (drop_prepare slot g).
Proof. intros s v. simpl. by intros [_ ?]%lookup_delete_Some. Qed.
Lemma no_votes g g' : prepare_node g' = ∅ → votes_kept g g'.
Proof. by intros E s v; rewrite E, lookup_empty. Qed.

(** The table of slots is the same. *)
Definition same_table (g g' : Inner) : Prop :=
  my_id g' = my_id g ∧ slot_owner g' = slot_owner g ∧ slot_config_epoch g' = slot_config_epoch g ∧ current_epoch g ≤ current_epoch g'.

Lemma same_table_rises g g' : same_table g g' → rises g g'.
Proof.
  intros (? & Eo & Ee & ?). split; [done|done|..]; intros s Hs; unfold slot_epoch, epoch_at, owner_at; rewrite ?Ee, ?Eo; done || lia.
Qed.

Lemma same_table_adv g g' : same_table g g' → votes_kept g g' → advances g g'.
Proof. intros ? ?. split; [by apply same_table_rises|done]. Qed.

(** Some slots got the epoch that follows the current one; the others are as they were. *)
Lemma restamped_adv g g' :
  cluster_ok g → my_id g' = my_id g → current_epoch g' = current_epoch (bump g) → votes_kept g g' →
  (∀ s, slot_in s → (owner_at g' s = owner_at g s ∧ epoch_at g' s = epoch_at g s) ∨ epoch_at g' s = Some (current_epoch (bump g))) → advances g g'.
Proof.
  intros H Hid Hc Hv Hs. pose proof (bump_mono g H) as Hb. assert (Hlt : current_epoch (bump g) < u64_max → current_epoch g < current_epoch (bump g))
    by (simpl; unfold sat_add_u64; lia).
  split; [|done]. split; [done|lia|..]; intros s Hin; pose proof (slot_epoch_range g s H) as Hr; unfold slot_epoch in *; destruct (Hs s Hin) as [[Eo Ee]|Ee]; rewrite Ee; simpl.
  - lia.
  - simpl in Hb. lia.
  - done.
  - rewrite Hc. simpl in Hlt |- *. lia.
Qed.

Lemma take_slots_lookup id slots g s :
  length (slot_owner g) = Z.to_nat SLOT_COUNT → length (slot_config_epoch g) = Z.to_nat SLOT_COUNT → Forall slot_in slots → slot_in s →
  let g' := take_slots id slots g in
  current_epoch g' = current_epoch g ∧ my_id g' = my_id g ∧ votes_kept g g' ∧
  ((owner_at g' s = owner_at g s ∧ epoch_at g' s = epoch_at g s) ∨ epoch_at g' s = Some (current_epoch g)).
Proof.
  unfold take_slots. intros Ho He Hs Hin. revert g Ho He. induction Hs as [|x l Hx Hl IH]; intros g Ho He; [by split_and!; [..|intros s' v|left]|]. simpl.
  destruct (IH (forget_transit (own g x id (current_epoch g)) x)) as (-> & -> & Hv & Hc); [by simpl; rewrite length_insert..|]. split_and!; [done..| |].
  { intros s' v Hw%Hv. simpl in Hw. by apply lookup_delete_Some in Hw as [_ ?]. }
  destruct (own_lookup g x id (current_epoch g) s Ho He Hx Hin) as [Eo Ee]. unfold owner_at, epoch_at in *. simpl in *.
  destruct Hc as [[-> ->]| ->]; [|by right]. rewrite Eo, Ee. destruct (decide (s = x)); [by right|by left].
Qed.

Lemma take_slots_adv id slots g : cluster_ok g → Forall slot_in slots → advances g (take_slots id slots (bump g)).
Proof.
  intros H Hs. pose proof (ok_owners g H). pose proof (ok_epochs g H). assert (Hz : slot_in 0) by (unfold slot_in; vm_compute; split; congruence).
  apply restamped_adv; [done|..]; [by apply (take_slots_lookup id slots (bump g) 0)..|]. intros s Hin.
  by destruct (take_slots_lookup id slots (bump g) s) as (_ & _ & _ & ?).
Qed.

Lemma give_slot_adv slot id g : cluster_ok g → slot_in slot → advances g (give_slot slot id g).
Proof. intros H Hs. apply (take_slots_adv id [slot] g H). by constructor. Qed.

Lemma hand_over_lookup from to g s :
  (owner_at (hand_over from to g) s = owner_at g s ∧ epoch_at (hand_over from to g) s = epoch_at g s) ∨
  epoch_at (hand_over from to g) s = Some (current_epoch g) ∨ length (slot_owner g) ≠ length (slot_config_epoch g).
Proof.
  destruct (decide (length (slot_owner g) = length (slot_config_epoch g))) as [El|]; [|by auto]. unfold owner_at, epoch_at. simpl.
  rewrite list_lookup_fmap, lookup_zip_with. destruct (slot_owner g !! sidx s) as [o|] eqn:Eo; simpl.
  - destruct (lookup_lt_is_Some_2 (slot_config_epoch g) (sidx s)) as [e Ee]; [apply lookup_lt_Some in Eo; lia|]. rewrite Ee. simpl. case_decide; auto.
  - apply lookup_ge_None in Eo. rewrite (proj2 (lookup_ge_None (slot_config_epoch g) (sidx s))) by lia. auto.
Qed.

Lemma handed_over_adv (b : bool) from to g : cluster_ok g → advances g (clear_transit (if b then hand_over from to (bump g) else g)).
Proof.
  intros H. destruct b; [|by apply same_table_adv; [|apply no_votes]]. apply restamped_adv; [done..|by apply no_votes|]. intros s _. change (owner_at (clear_transit ?x)) with (owner_at x).
  change (epoch_at (clear_transit ?x)) with (epoch_at x).
  destruct (hand_over_lookup from to (bump g) s) as [?|[?|Hl]]; [by left|by right|]. destruct Hl. simpl. by rewrite (ok_owners g H), (ok_epochs g H).
Qed.

Lemma alter_node_adv f id g g' : advances g g' → advances g (alter_node f id g').
Proof. intros [[? ? ? ?] ?]. by split; [split|]. Qed.
Lemma set_health_adv p r g g' : advances g g' → advances g (set_health g' p r).
Proof. intros [[? ? ? ?] ?]. by split; [split|]. Qed.

Create HintDb epochs.
#[export] Hint Resolve advances_refl alter_node_adv set_health_adv handed_over_adv take_slots_adv give_slot_adv : epochs.

(** ** Every method advances the epochs *)

Definition steps_up (g : Inner) (r : result Str Inner) : Prop := ∀ g', r = Ok g' → advances g g'.

Lemma add_slots_adv slots g : Forall (λ s, 0 ≤ s) slots → cluster_ok g → steps_up g (add_slots slots g).
Proof.
  intros Hs H g'. unfold add_slots. case_decide; [done|]. destruct (check_add slots g) as [[]|] eqn:E; [|done]. intros [= <-].
  apply take_slots_adv; [done|by eapply check_add_slots].
Qed.
Lemma del_slots_adv slots g : Forall (λ s, 0 ≤ s) slots → cluster_ok g → steps_up g (del_slots slots g).
Proof.
  intros Hs H g'. unfold del_slots. case_decide; [done|]. destruct (check_del slots g) as [[]|] eqn:E; [|done]. intros [= <-].
  apply take_slots_adv; [done|by eapply check_del_slots].
Qed.
Lemma add_slot_ranges_adv ranges g : Forall (λ r, 0 ≤ r.1) ranges → cluster_ok g → steps_up g (add_slot_ranges ranges g).
Proof.
  intros Hr H g'. unfold add_slot_ranges. destruct (expand_slot_ranges ranges) as [l|] eqn:E; [|done]. simpl. case_decide; [done|].
  apply add_slots_adv; [by eapply expand_nonneg|done].
Qed.
Lemma del_slot_ranges_adv ranges g : Forall (λ r, 0 ≤ r.1) ranges → cluster_ok g → steps_up g (del_slot_ranges ranges g).
Proof.
  intros Hr H g'. unfold del_slot_ranges. destruct (expand_slot_ranges ranges) as [l|] eqn:E; [|done]. simpl. case_decide; [done|].
  apply del_slots_adv; [by eapply expand_nonneg|done].
Qed.

Lemma set_config_epoch_adv e g : steps_up g (set_config_epoch e g).
Proof.
  intros g'. unfold set_config_epoch. destruct (Z.leb_spec e (current_epoch g)); [done|]. intros [= <-]. apply same_table_adv; [|by apply same_votes]. split_and!; try done. simpl. lia.
Qed.
Lemma flush_slots_adv g : cluster_ok g → advances g (flush_slots g).
Proof. apply handed_over_adv. Qed.

Lemma reset_cluster_config_adv g : cluster_ok g → advances g (reset_cluster_config g).
Proof.
  intros H. apply restamped_adv; [done..|by apply no_votes|]. intros s Hs. right. unfold epoch_at. simpl. rewrite list_lookup_fmap.
  destruct (slot_lookup (slot_config_epoch g) s (ok_epochs g H) Hs) as [e ->]. done.
Qed.

Lemma forget_node_adv id g : steps_up g (forget_node id g).
Proof.
  intros g'. unfold forget_node. repeat (case_decide || case_match); try done. intros [= <-]. apply same_table_adv; [done|].
  intros s v. simpl. by intros [? _]%map_lookup_filter_Some.
Qed.

Lemma add_node_with_role_adv t id ip port m mid g : advances g (add_node_with_role t id ip port m mid g).
Proof.
  unfold add_node_with_role. case_decide; [apply advances_refl|]. unfold first_pong. destruct (last_pong _ !! _); by apply same_table_adv, same_votes.
Qed.
Lemma merge_role_map_adv t es g : advances g (merge_role_map t es g).
Proof.
  unfold merge_role_map. revert g. induction es as [|e es IH]; intros g; [apply advances_refl|]. simpl. eapply advances_trans; [|apply IH].
  unfold merge_role. case_decide; [apply advances_refl|]. apply alter_node_adv, add_node_with_role_adv.
Qed.

Lemma configure_as_replica_of_adv id g : cluster_ok g → steps_up g (configure_as_replica_of id g).
Proof. intros H g'. unfold configure_as_replica_of. case_decide; [done|]. destruct (negb _); [done|]. intros [= <-]. auto with epochs. Qed.
Lemma claim_slots_from_adv id g g' n : cluster_ok g → claim_slots_from id g = Ok (g', n) → advances g g'.
Proof. intros H. unfold claim_slots_from. destruct (negb _); [done|]. intros [= <- _]. auto with epochs. Qed.
Lemma reconfigure_adv id g : cluster_ok g → steps_up g (reconfigure_as_replica_of_failover_winner id g).
Proof.
  intros H g'. unfold reconfigure_as_replica_of_failover_winner. case_decide; [done|]. destruct (is_replica_of id g); [intros [= <-]; apply advances_refl|].
  destruct (negb _); [done|]. intros Hc. eapply advances_trans; [by apply alter_node_adv, advances_refl|]. eapply configure_as_replica_of_adv; [|done].
  apply alter_node_ok; [|done]. intros n Hn. apply with_fail_ok; [done|by apply with_role_ok].
Qed.

Lemma mark_fail_adv id g : advances g (mark_fail id g).
Proof. unfold mark_fail. case_decide; auto with epochs. Qed.
Lemma ingest_fail_reports_adv p l g : advances g (ingest_fail_reports p l g).
Proof. unfold ingest_fail_reports. case_decide; auto with epochs. Qed.

Lemma escalate_all_adv q ids acc : advances acc.1 (foldl (escalate_one q) acc ids).1.
Proof.
  revert acc. induction ids as [|id ids IH]; intros [g l]; [apply advances_refl|]. simpl. eapply advances_trans; [|apply IH].
  unfold escalate_one. repeat case_match; simpl; auto with epochs.
Qed.

Section iteration.
Context {CO : ClusterOrder}.
Lemma escalate_fails_adv g : advances g (escalate_fails g).1.
Proof. apply (escalate_all_adv _ _ (g, [])). Qed.
Lemma note_unreachable_adv id g : advances g (note_unreachable id g).1.
Proof.
  unfold note_unreachable. repeat (case_decide; [apply advances_refl|]). destruct (nodes g !! id) as [n|]; [|apply advances_refl].
  destruct (n_fail n); [apply advances_refl|]. pose proof (escalate_fails_adv (alter_node (λ n, with_fail n true (n_fail n)) id g)) as Ha.
  destruct (escalate_fails _). eapply advances_trans; [by apply alter_node_adv, advances_refl|done].
Qed.
Lemma manual_failover_adv mode g : cluster_ok g → advances g (manual_failover mode g).1.
Proof.
  intros H. assert (Hc : ∀ id g', cluster_ok g' → advances g g' → advances g (match claim_slots_from id g' with Ok (g, n) => (g, Ok n) | Err e => (g', Err e) end : Inner * result Str nat).1).
  { intros id g' H' Ha. destruct (claim_slots_from id g') as [[g'' k]|] eqn:E; [|done]. eapply advances_trans; [done|by eapply claim_slots_from_adv]. }
  unfold manual_failover. destruct (my_master_id g) as [m|]; [|apply advances_refl]. destruct mode; cbv zeta;
    repeat match goal with |- advances _ (if ?b then _ else _).1 => destruct b; [apply advances_refl|] end; apply Hc; auto using mark_fail_ok, mark_fail_adv, advances_refl.
Qed.
End iteration.

Lemma reassign_slot_adv slot id g : 0 ≤ slot → cluster_ok g → steps_up g (reassign_slot slot id g).
Proof.
  intros Hs H g'. unfold reassign_slot. destruct (negb (slot_ok slot)) eqn:E; [done|]. destruct (negb (contains_node id g)); [done|]. intros [= <-].
  apply give_slot_adv; [done|by apply negb_slot_ok].
Qed.
Lemma set_migrating_adv slot id g : steps_up g (set_migrating slot id g).
Proof. intros g'. unfold set_migrating. repeat case_match; try done. intros [= <-]. by apply same_table_adv, same_votes. Qed.
Lemma set_importing_adv slot id g : steps_up g (set_importing slot id g).
Proof. intros g'. unfold set_importing. repeat case_match; try done. intros [= <-]. by apply same_table_adv, same_votes. Qed.
Lemma set_stable_adv slot g : steps_up g (set_stable slot g).
Proof. intros g'. unfold set_stable. repeat case_match; try done. intros [= <-]. by apply same_table_adv, drop_votes. Qed.
(** The one method that makes a vote. *)
Lemma record_vote_rises now slot id g g' :
  record_vote now slot id g = Ok g' →
  rises g g' ∧ prepare_node g' = <[slot := mkVote id (slot_epoch g slot) now]> (prepare_node g) ∧ slot_epoch g' slot = slot_epoch g slot.
Proof.
  assert (Hv : ∀ g', Ok (set_prepare g (<[slot := mkVote id (slot_epoch g slot) now]> (prepare_node g))) = @Ok Str _ g' →
    rises g g' ∧ prepare_node g' = <[slot := mkVote id (slot_epoch g slot) now]> (prepare_node g) ∧ slot_epoch g' slot = slot_epoch g slot)
    by (intros ? [= <-]; split_and!; [by apply same_table_rises|done..]).
  unfold record_vote. repeat (case_match || case_decide); try done; apply Hv.
Qed.

Lemma purge_expired_prepare_adv now slot g : advances g (purge_expired_prepare now slot g).
Proof. unfold purge_expired_prepare. destruct (_ !! _); [|apply advances_refl]. case_match; [by apply same_table_adv, drop_votes|apply advances_refl]. Qed.
Lemma recheck_vote_adv now now' slot id g : advances g (recheck_vote now now' slot id g).1.
Proof.
  eapply advances_trans; [apply (purge_expired_prepare_adv now slot)|]. unfold recheck_vote. set (g1 := purge_expired_prepare now slot g).
  repeat case_match; simpl; try apply advances_refl. by apply same_table_adv, drop_votes.
Qed.
Lemma commit_vote_adv now now' slot id g : slot_in slot → cluster_ok g → advances g (commit_vote now now' slot id g).1.
Proof.
  intros Hs H. unfold commit_vote. pose proof (recheck_vote_adv now now' slot id g) as Ha. pose proof (recheck_vote_ok now now' slot id g H) as Ho.
  destruct (recheck_vote now now' slot id g) as [g1 [[]|]]; [|done]. simpl in *. destruct (negb _); [done|]. simpl.
  eapply advances_trans; [done|by apply give_slot_adv].
Qed.

(** ** Ranges from a peer *)

Definition range_ok (r : OwnershipRange) : Prop := 0 ≤ or_start r ∧ in_u16 (or_port r) ∧ in_u64 (or_epoch r).

Lemma apply_range_adv t r g : range_ok r → cluster_ok g → advances g (apply_ownership_range t r g).1.
Proof.
  intros (H0 & Hp & He) H. destruct (apply_range_spec t r g H0 Hp He H) as (_ & [? ? ? Ev ? ?] & Hs). split; [|by apply same_votes]. split; [done|done|..]; intros s Hin.
  - unfold slot_epoch at 2. destruct (Hs s Hin) as [_ ->]. destruct (_ && takes r g s) eqn:Et; [|done]. apply andb_true_iff in Et as [_ Et].
    apply andb_true_iff in Et as [_ Et%Z.ltb_lt]. simpl. lia.
  - intros _ E. unfold slot_epoch at 1 in E. destruct (Hs s Hin) as [-> E2]. rewrite E2 in E. destruct (_ && takes r g s) eqn:Et; [|done].
    apply andb_true_iff in Et as [_ Et]. apply andb_true_iff in Et as [_ Et%Z.ltb_lt]. simpl in E. lia.
Qed.

Lemma merge_range_state t g c r : (merge_range t (g, c) r).1 = (apply_ownership_range t r g).1.
Proof. destruct c as [[a b] k]. unfold merge_range. by destruct (apply_ownership_range t r g) as [g' []]. Qed.

(** Merging ranges, as a fold on the state alone. *)
Definition apply_ranges (t : Z) (rs : list OwnershipRange) (g : Inner) : Inner := foldl (λ g r, (apply_ownership_range t r g).1) g rs.

Lemma merge_snapshot_state t rs g : (merge_ownership_snapshot t rs g).1 = apply_ranges t rs g.
Proof.
  unfold merge_ownership_snapshot, apply_ranges. generalize (0, 0, 0) as c. revert g. induction rs as [|r rs IH]; intros g c; [done|]. cbn [foldl].
  rewrite (surjective_pairing (merge_range t (g, c) r)), IH. by rewrite merge_range_state.
Qed.

Lemma apply_ranges_ok t rs g : Forall range_ok rs → cluster_ok g → cluster_ok (apply_ranges t rs g) ∧ advances g (apply_ranges t rs g).
Proof.
  intros Hr. revert g. induction Hr as [|r rs H1 Hr IH]; intros g H; [split; [done|apply advances_refl]|]. simpl.
  destruct (IH (apply_ownership_range t r g).1) as [Ho Ha].
  - destruct H1 as (? & ? & ?). by apply apply_range_spec.
  - split; [done|]. eapply advances_trans; [by apply apply_range_adv|done].
Qed.
