(* ===== verification/ClusterRun.v ===== *)
(** * A node over time

    The events of a node: commands of clients, requests on the bus, rounds of gossip and settings.
    Every event keeps the invariant and moves the epochs forward; a vote comes from a request to
    prepare. *)

From S2P Require Import Prelude RustStd Errors Resp Reply Text HashSlot Rdb RdbFacts ClusterState ClusterConf ClusterGossip ClusterBus ClusterCommands ClusterFacts ClusterEpochs.
From Stdlib Require Import Lia.
Local Open Scope Z_scope.

(** ** Steps of the topology *)

Record forward (g g' : Inner) : Prop := { fw_ok : cluster_ok g'; fw_adv : advances g g' }.

Lemma forward_refl g : cluster_ok g → forward g g.
Proof. intros H. split; [done|apply advances_refl]. Qed.
Lemma forward_trans g1 g2 g3 : forward g1 g2 → forward g2 g3 → forward g1 g3.
Proof. intros [] []. split; [done|by eapply advances_trans]. Qed.

Lemma forward_result g r g' : keeps r → steps_up g r → r = Ok g' → forward g g'.
Proof. intros Hk Hs E. split; [by apply Hk|by apply Hs]. Qed.

Lemma touch_pong_forward t id g : cluster_ok g → forward g (touch_pong t id g).
Proof. intros H. split; [by apply touch_pong_ok|]. apply set_health_adv, alter_node_adv, advances_refl. Qed.
Lemma add_node_forward t id ip port m mid g : in_u16 port → cluster_ok g → forward g (add_node_with_role t id ip port m mid g).
Proof. intros Hp H. split; [by apply add_node_with_role_ok|apply add_node_with_role_adv]. Qed.
Lemma mark_fail_forward id g : cluster_ok g → forward g (mark_fail id g).
Proof. intros H. split; [by apply mark_fail_ok|apply mark_fail_adv]. Qed.
Lemma refresh_offset_forward repl g : cluster_ok g → forward g (refresh_offset repl g).
Proof.
  intros H. destruct repl as [o|]; [|by apply forward_refl]. split; [by apply set_local_repl_offset_ok|].
  apply alter_node_adv. by apply same_table_adv, same_votes.
Qed.

(** ** What peers answer *)

Lemma parse_rows_Forall {A} (P : A → Prop) f rows l : (∀ v a, f v = Ok a → P a) → parse_rows f rows = Ok l → Forall P l.
Proof.
  intros Hf. revert l. induction rows as [|row rows IH]; intros l; simpl; [by intros [= <-]|].
  destruct (f row) as [a|] eqn:E; [|done]. simpl. destruct (parse_rows f rows); [|done]. intros [= <-]. constructor; [by eapply Hf|by apply IH].
Qed.

Lemma u16_field_range w v n : u16_field w v = Ok n → in_u16 n.
Proof. destruct v; try done. simpl. destruct (_ && _) eqn:E; [|done]. intros [= <-]. apply andb_true_iff in E. rewrite !Z.leb_le in E. lia. Qed.
Lemma u64_field_range w v n : u64_field w v = Ok n → in_u64 n.
Proof. destruct v; try done. simpl. destruct (0 <=? i); [|done]. intros [= <-]. apply wrap_u64_range. Qed.

Lemma parse_owners_row_ok v r : parse_owners_row v = Ok r → range_ok r.
Proof.
  unfold parse_owners_row. intros H. destruct v as [| | | |fields| | | | | |]; try done. do 6 (destruct fields as [|? fields]; [done|]).
  repeat match type of H with ?x ≫= _ = Ok _ => let E := fresh "F" in destruct x eqn:E; [simpl in H|done] end.
  injection H as <-. unfold range_ok. simpl.
  repeat match goal with F : u16_field _ _ = Ok _ |- _ => apply u16_field_range in F | F : u64_field _ _ = Ok _ |- _ => apply u64_field_range in F end.
  by split_and!; lia || done.
Qed.

Lemma parse_rolemap_row_ok v e : parse_rolemap_row v = Ok e → in_u16 (rm_port e).
Proof.
  unfold parse_rolemap_row. intros H. destruct v as [| | | |fields| | | | | |]; try done. do 5 (destruct fields as [|? fields]; [done|]).
  repeat match type of H with ?x ≫= _ = Ok _ => let E := fresh "F" in destruct x eqn:E; [simpl in H|done] end.
  injection H as <-. simpl. by eapply u16_field_range.
Qed.

Lemma pull_owners_forward t v g : cluster_ok g → forward g (pull_and_merge_owners t v g).
Proof.
  intros H. unfold pull_and_merge_owners. destruct v as [v|]; [|by apply forward_refl].
  destruct (parse_owners_reply v) as [rs|] eqn:E; [|by apply forward_refl]. rewrite merge_snapshot_state.
  destruct (apply_ranges_ok t rs g) as [Ho Ha]; [|done|by split]. destruct v; try done.
  eapply parse_rows_Forall; [apply parse_owners_row_ok|done].
Qed.

Lemma pull_rolemap_forward t v g : cluster_ok g → forward g (pull_and_merge_rolemap t v g).
Proof.
  intros H. unfold pull_and_merge_rolemap. destruct v as [v|]; [|by apply forward_refl].
  destruct (parse_rolemap_reply v) as [es|] eqn:E; [|by apply forward_refl]. split; [|apply merge_role_map_adv]. apply merge_role_map_ok; [|done].
  destruct v; try done. eapply parse_rows_Forall; [apply parse_rolemap_row_ok|done].
Qed.

Lemma pull_reports_forward p v g : cluster_ok g → forward g (pull_and_ingest_fail_reports p v g).
Proof.
  intros H. unfold pull_and_ingest_fail_reports. destruct v as [v|]; [|by apply forward_refl].
  destruct (parse_fail_reports_reply v); [|by apply forward_refl]. split; [by apply ingest_fail_reports_ok|apply ingest_fail_reports_adv].
Qed.

Lemma ping_and_sync_forward id p g : cluster_ok g → forward g (ping_and_sync id p g).1.
Proof.
  intros H. unfold ping_and_sync. destruct (negb (pr_connect p)); [by apply forward_refl|]. destruct (_ && _); [by apply forward_refl|]. simpl.
  pose proof (pull_owners_forward (pr_time p) (pr_owners p) g H) as F1. pose proof (pull_rolemap_forward (pr_time p) (pr_rolemap p) _ (fw_ok _ _ F1)) as F2.
  eapply forward_trans; [done|]. eapply forward_trans; [done|]. apply pull_reports_forward, F2.
Qed.

(** ** Steps of the whole component *)

Record outer_ok (c : ClusterState) : Prop := {
  oo_inner : cluster_ok (inner c);
  oo_announce : ∀ p, announce_port c = Some p → in_u16 p
}.

Record goes (c c' : ClusterState) : Prop := { go_ok : outer_ok c'; go_adv : advances (inner c) (inner c') }.

Lemma goes_refl c : outer_ok c → goes c c.
Proof. intros H. split; [done|apply advances_refl]. Qed.
Lemma goes_trans c1 c2 c3 : goes c1 c2 → goes c2 c3 → goes c1 c3.
Proof. intros [] []. split; [done|by eapply advances_trans]. Qed.

Lemma set_inner_goes c g : outer_ok c → forward (inner c) g → goes c (set_inner c g).
Proof. intros [H1 H2] []. by split; [split|]. Qed.

(** Everything but the topology changes. *)
Lemma outer_goes c c' : outer_ok c → inner c' = inner c → announce_port c' = announce_port c → goes c c'.
Proof. intros [H1 H2] Ei Ea. split; [split; [by rewrite Ei|by rewrite Ea]|]. rewrite Ei. apply advances_refl. Qed.

Section node.
Context {CO : ClusterOrder} {CL : ClusterOrderLaws}.

Lemma purge_votes_forward now g : cluster_ok g → forward g (purge_votes now g).
Proof.
  intros H. split.
  - apply set_prepare_ok; [done|]. intros s v [Hv _]%map_lookup_filter_Some. by apply (ok_votes g H).
  - apply same_table_adv; [done|]. intros s v. simpl. by intros [? _]%map_lookup_filter_Some.
Qed.

Lemma save_goes io now dir c : outer_ok c → goes c (save_nodes_conf_to io now dir c).1.
Proof.
  intros H. unfold save_nodes_conf_to. assert (Hp : goes c (on_inner (purge_votes now) c)) by (apply set_inner_goes; [done|apply purge_votes_forward, H]).
  destruct io as [|e leaves [|]]; simpl; [..|by apply outer_goes]; (eapply goes_trans; [exact Hp|]; apply outer_goes; [apply Hp|done..]).
Qed.

Lemma autosave_goes io now c : outer_ok c → goes c (autosave_nodes_conf io now c).
Proof. intros H. unfold autosave_nodes_conf. destruct (nodes_conf_dir c); [by apply save_goes|by apply goes_refl]. Qed.

(** *** Failover and gossip *)

Lemma follow_forward repl w g : cluster_ok g → forward g (follow_new_master repl w g).1.
Proof.
  intros H. unfold follow_new_master. destruct (reconfigure_as_replica_of_failover_winner w g) as [g'|] eqn:E; [|by apply forward_refl].
  eapply forward_result; [by apply reconfigure_ok|by apply reconfigure_adv|done].
Qed.

Lemma maybe_failover_goes io now repl id c : outer_ok c → goes c (maybe_failover_on_master_fail io now repl id c).1.
Proof.
  intros H. unfold maybe_failover_on_master_fail. destruct (negb _); [by apply goes_refl|].
  assert (Hr : goes c (on_inner (refresh_offset repl) c)) by (apply set_inner_goes; [done|apply refresh_offset_forward, H]). set (c1 := on_inner _ c) in *.
  eapply goes_trans; [exact Hr|]. pose proof (go_ok _ _ Hr) as H1. destruct (negb (should_claim_on_failover id (inner c1))).
  - destruct (failover_election_winner id (inner c1)) as [w|]; [|by apply goes_refl]. pose proof (follow_forward repl w (inner c1) (oo_inner c1 H1)) as Hf.
    destruct (follow_new_master repl w (inner c1)). by apply set_inner_goes.
  - destruct (claim_slots_from id (inner c1)) as [[g n]|] eqn:E; [|by apply goes_refl]. simpl.
    assert (Hc : goes c1 (set_inner c1 g)) by (apply set_inner_goes; [done|split; [by eapply claim_slots_from_ok, E; apply H1|by eapply claim_slots_from_adv, E; apply H1]]).
    eapply goes_trans; [exact Hc|]. apply autosave_goes, Hc.
Qed.

Lemma try_follow_forward repl g : cluster_ok g → forward g (try_follow_failed_masters repl g).1.
Proof.
  intros H. unfold try_follow_failed_masters. set (l := n_id <$> _). case_decide; [by apply forward_refl|].
  pose proof (refresh_offset_forward repl g H) as Hr. set (g1 := refresh_offset repl g) in *. eapply forward_trans; [exact Hr|]. pose proof (fw_ok _ _ Hr) as H1.
  destruct (other_master_with_slots g1) as [m|]; [destruct (is_replica_of m g1); [by apply forward_refl|by apply follow_forward]|].
  generalize (@nil Action) as acts. clearbody l g1. clear -H1 CL. revert g1 H1. induction l as [|x l IH]; intros g1 H1 acts; [by apply forward_refl|]. simpl.
  destruct (failover_election_winner x g1) as [w|]; [|by apply IH]. destruct (_ || _); [by apply IH|]. pose proof (follow_forward repl w g1 H1) as Hf.
  destruct (follow_new_master repl w g1) as [g2 more]. eapply forward_trans; [exact Hf|]. apply IH, Hf.
Qed.

Lemma try_demote_forward repl g : cluster_ok g → forward g (try_demote_if_superseded repl g).1.
Proof.
  intros H. unfold try_demote_if_superseded. destruct (me g) as [n|]; [|by apply forward_refl]. destruct (_ || _); [by apply forward_refl|].
  destruct (other_master_with_slots g) as [m|]; [|by apply forward_refl]. destruct (superseded m g); [by apply follow_forward|by apply forward_refl].
Qed.

Lemma probe_peer_goes io now timeout repl net acc peer : outer_ok acc.1 → goes acc.1 (probe_peer io now timeout repl net acc peer).1.
Proof.
  destruct acc as [c acts]. simpl. intros H. unfold probe_peer. destruct (n_fail peer); [by apply goes_refl|].
  pose proof (ping_and_sync_forward (n_id peer) (net peer) (inner c) (oo_inner c H)) as Hp. destruct (ping_and_sync _ _ _) as [g []]; simpl in Hp.
  { apply set_inner_goes; [done|]. eapply forward_trans; [exact Hp|]. apply touch_pong_forward, Hp. }
  destruct (_ <=? _); [|by apply set_inner_goes].
  assert (Hn : forward g (note_unreachable (n_id peer) g).1) by (split; [apply note_unreachable_ok, Hp|apply note_unreachable_adv]).
  destruct (note_unreachable (n_id peer) g) as [g2 newly]; simpl in Hn.
  assert (Hc : goes c (set_inner c g2)) by (apply set_inner_goes; [done|by eapply forward_trans]). destruct newly; [|done].
  pose proof (maybe_failover_goes io now repl (n_id peer) _ (go_ok _ _ Hc)) as Hm. destruct (maybe_failover_on_master_fail _ _ _ _ _). by eapply goes_trans.
Qed.

Lemma fold_goes {A} (f : ClusterState * list Action → A → ClusterState * list Action) l acc :
  (∀ acc x, outer_ok acc.1 → goes acc.1 (f acc x).1) → outer_ok acc.1 → goes acc.1 (foldl f acc l).1.
Proof.
  intros Hf. revert acc. induction l as [|x l IH]; intros acc H; [by apply goes_refl|]. simpl. eapply goes_trans; [by apply Hf|].
  apply IH. by eapply go_ok, Hf.
Qed.

Lemma probe_and_escalate_goes io now repl net c : outer_ok c → goes c (probe_and_escalate io now repl net c).1.
Proof.
  intros H. unfold probe_and_escalate.
  pose proof (fold_goes (probe_peer io now (node_timeout_ms (inner c)) repl net) (peer_snapshots (inner c)) (c, []) (probe_peer_goes _ _ _ _ _) H) as H1.
  destruct (foldl (probe_peer _ _ _ _ _) _ _) as [c1 acts]; simpl in H1.
  assert (He : forward (inner c1) (escalate_fails (inner c1)).1) by (split; [apply escalate_fails_ok, H1|apply escalate_fails_adv]).
  destruct (escalate_fails (inner c1)) as [g2 newly]; simpl in He.
  assert (H2 : goes c (set_inner c1 g2)) by (eapply goes_trans; [exact H1|apply set_inner_goes; [apply H1|done]]).
  eapply goes_trans; [exact H2|]. apply (fold_goes _ newly (set_inner c1 g2, acts)); [|apply H2]. intros [c' a'] x Hx.
  pose proof (maybe_failover_goes io now repl x c' Hx) as Hm. by destruct (maybe_failover_on_master_fail _ _ _ _ _).
Qed.

Lemma gossip_tick_goes io now repl net c : outer_ok c → goes c (gossip_tick io now repl net c).1.
Proof.
  intros H. unfold gossip_tick. pose proof (probe_and_escalate_goes io now repl net c H) as H4. destruct (probe_and_escalate io now repl net c) as [c3 acts]; simpl in H4.
  pose proof (try_follow_forward repl (inner c3) (oo_inner _ (go_ok _ _ H4))) as Hf. destruct (try_follow_failed_masters repl (inner c3)) as [g4 more]; simpl in Hf.
  pose proof (try_demote_forward repl g4 (fw_ok _ _ Hf)) as Hd. destruct (try_demote_if_superseded repl g4) as [g5 more']; simpl in Hd |- *.
  eapply goes_trans; [exact H4|]. apply set_inner_goes; [apply H4|by eapply forward_trans].
Qed.

(** *** Votes *)

(** A vote made at this time, for the epoch the slot has. *)
Definition fresh_vote (now : Z) (c : ClusterState) (s : Z) (v : PrepareVote) : Prop :=
  v_prepared_at v = now ∧ v_slot_epoch v = slot_epoch (inner c) s.

Record moves (now : Z) (c c' : ClusterState) : Prop := {
  mv_ok : outer_ok c';
  mv_rises : rises (inner c) (inner c');
  mv_votes : ∀ s v, prepare_node (inner c') !! s = Some v → prepare_node (inner c) !! s = Some v ∨ fresh_vote now c' s v
}.

Lemma goes_moves now c c' : goes c c' → moves now c c'.
Proof. intros [H [Hr Hv]]. split; [done|done|]. intros s v Hs. left. by apply Hv. Qed.

Lemma goes_then_moves now c1 c2 c3 : goes c1 c2 → moves now c2 c3 → moves now c1 c3.
Proof.
  intros [_ [R1 V1]] [H3 R2 V2]. split; [done|by eapply rises_trans|]. intros s v Hs. destruct (V2 s v Hs) as [Hv|]; [left; by apply V1|by right].
Qed.

(** Saving after a move keeps what the move did. *)
Lemma moves_then_save now c1 c2 c3 : moves now c1 c2 → goes c2 c3 → slot_config_epoch (inner c3) = slot_config_epoch (inner c2) → moves now c1 c3.
Proof.
  intros [_ R1 V1] [H3 [R2 V2]] E. split; [done|by eapply rises_trans|]. intros s v Hs. destruct (V1 s v (V2 s v Hs)) as [|[? Ev]]; [by left|right].
  split; [done|]. rewrite Ev. unfold slot_epoch, epoch_at. by rewrite E.
Qed.

Lemma save_epochs io now dir c : slot_config_epoch (inner (save_nodes_conf_to io now dir c).1) = slot_config_epoch (inner c).
Proof. unfold save_nodes_conf_to. by destruct io as [|e leaves [|]]. Qed.
Lemma autosave_epochs io now c : slot_config_epoch (inner (autosave_nodes_conf io now c)) = slot_config_epoch (inner c).
Proof. unfold autosave_nodes_conf. destruct (nodes_conf_dir c); [apply save_epochs|done]. Qed.

Lemma set_prepare_node_moves io now slot id c : 0 ≤ slot → outer_ok c → moves now c (set_prepare_node io now slot id c).1.
Proof.
  intros Hs H. unfold set_prepare_node. destruct (negb (slot_ok slot)) eqn:Es; [by apply goes_moves, goes_refl|]. apply negb_slot_ok in Es; [|done].
  assert (Ht : goes c (take_prepare_inject_fail c).1) by (unfold take_prepare_inject_fail; destruct (0 <? _); [by apply outer_goes|by apply goes_refl]).
  destruct (take_prepare_inject_fail c) as [c1 inject]; simpl in Ht. eapply goes_then_moves; [exact Ht|]. pose proof (go_ok _ _ Ht) as H1.
  destruct inject; [by apply goes_moves, goes_refl|]. destruct (record_vote now slot id (inner c1)) as [g|] eqn:E; [|by apply goes_moves, goes_refl]. simpl.
  destruct (record_vote_rises now slot id _ g E) as (Hr & Ep & Ee). pose proof (record_vote_ok now slot id _ Es (oo_inner _ H1) g E) as Ho.
  assert (Hm : moves now c1 (set_inner c1 g)).
  { split; [by split; [|apply H1]|done|]. intros s v. simpl. rewrite Ep. intros [[<- <-]|[_ ?]]%lookup_insert_Some; [right|by left].
    split; [done|]. simpl. by rewrite Ee. }
  eapply moves_then_save; [exact Hm|apply autosave_goes, Hm|apply autosave_epochs].
Qed.

Lemma drop_prepare_forward slot g : cluster_ok g → forward g (drop_prepare slot g).
Proof. intros H. split; [by apply drop_prepare_ok|]. apply same_table_adv; [done|apply drop_votes]. Qed.

Lemma abort_prepare_node_goes io now slot c : outer_ok c → goes c (abort_prepare_node io now slot c).1.
Proof.
  intros H. unfold abort_prepare_node. destruct (negb _); [by apply goes_refl|]. simpl.
  assert (Hd : goes c (on_inner (drop_prepare slot) c)) by (apply set_inner_goes; [done|apply drop_prepare_forward, H]).
  eapply goes_trans; [exact Hd|apply autosave_goes, Hd].
Qed.

Lemma recheck_hook_goes slot c : outer_ok c → goes c (recheck_hook slot c).
Proof.
  intros H. unfold recheck_hook. assert (Ht : goes c (take_commit_recheck_clear_inject c).1)
    by (unfold take_commit_recheck_clear_inject; destruct (0 <? _); [by apply outer_goes|by apply goes_refl]).
  destruct (take_commit_recheck_clear_inject c) as [c1 []]; simpl in Ht; [|done]. eapply goes_trans; [exact Ht|].
  apply set_inner_goes; [apply Ht|apply drop_prepare_forward, Ht].
Qed.

Lemma check_prepare_valid_goes now now' slot id c : outer_ok c → goes c (check_prepare_valid now now' slot id c).1.
Proof.
  intros H. unfold check_prepare_valid. destruct (negb _); [by apply goes_refl|]. pose proof (recheck_hook_goes slot c H) as Hh. eapply goes_trans; [exact Hh|].
  assert (Hf : forward (inner (recheck_hook slot c)) (recheck_vote now now' slot id (inner (recheck_hook slot c))).1)
    by (split; [apply recheck_vote_ok, Hh|apply recheck_vote_adv]).
  destruct (recheck_vote _ _ _ _ _). apply set_inner_goes; [apply Hh|done].
Qed.

Lemma take_source_goes c : outer_ok c → goes c (take_source_node_inject_fail c).1.
Proof. intros H. unfold take_source_node_inject_fail. destruct (0 <? _); [by apply outer_goes|by apply goes_refl]. Qed.

Lemma commit_prepare_node_goes io now now' slot id c : 0 ≤ slot → outer_ok c → goes c (commit_prepare_node io now now' slot id c).1.
Proof.
  intros Hs H. unfold commit_prepare_node. destruct (negb (slot_ok slot)) eqn:Es; [by apply goes_refl|]. apply negb_slot_ok in Es; [|done].
  pose proof (take_source_goes c H) as Ht. destruct (take_source_node_inject_fail c) as [c1 []]; simpl in Ht; [done|].
  pose proof (recheck_hook_goes slot c1 (go_ok _ _ Ht)) as Hh. set (c2 := recheck_hook slot c1) in *.
  assert (Hf : forward (inner c2) (commit_vote now now' slot id (inner c2)).1) by (split; [apply commit_vote_ok; [done|apply Hh]|apply commit_vote_adv; [done|apply Hh]]).
  destruct (commit_vote now now' slot id (inner c2)) as [g [[]|]]; simpl in Hf |- *; (eapply goes_trans; [exact Ht|]; eapply goes_trans; [exact Hh|]);
    assert (Hc : goes c2 (set_inner c2 g)) by (apply set_inner_goes; [apply Hh|done]); [|done]. eapply goes_trans; [exact Hc|apply autosave_goes, Hc].
Qed.

Lemma set_node_goes slot id c : 0 ≤ slot → outer_ok c → goes c (set_node slot id c).1.
Proof.
  intros Hs H. unfold set_node. pose proof (take_source_goes c H) as Ht. destruct (take_source_node_inject_fail c) as [c1 []]; simpl in Ht; [done|].
  destruct (reassign_slot slot id (inner c1)) as [g|] eqn:E; [|done]. eapply goes_trans; [exact Ht|]. apply set_inner_goes; [apply Ht|].
  eapply forward_result; [apply reassign_slot_ok; [done|apply Ht]|apply reassign_slot_adv; [done|apply Ht]|done].
Qed.

(** *** Requests on the bus *)

Lemma decode_slot_nonneg body slot id : decode_slot_target body = Ok (slot, id) → 0 ≤ slot.
Proof.
  unfold decode_slot_target. destruct (_ <? _)%nat; [done|]. destruct (_ <? _); [done|]. intros [= <- _]. pose proof (from_le_range (take 2 body)). lia.
Qed.

Lemma decode_meet_port body m : decode_meet_body body = Ok m → in_u16 (mb_port m).
Proof.
  unfold decode_meet_body. destruct (read_lp_str body) as [[id r1]|]; [|done]. simpl. destruct (read_lp_str r1) as [[ip r2]|]; [|done]. simpl.
  destruct (_ <? 2)%nat; [done|]. destruct (read_lp_str (drop 2 r2)) as [[role r3]|]; [|done]. simpl. destruct (read_lp_str r3) as [[mid r4]|]; [|done].
  intros [= <-]. simpl. pose proof (from_le_range (take 2 r2)) as Hr. rewrite length_take in Hr. unfold u16_max.
  assert (256 ^ Z.of_nat (2 `min` length r2) ≤ 256 ^ 2) by (apply Z.pow_le_mono_r; lia). lia.
Qed.

Lemma handle_request_moves env ty body c : outer_ok c → moves (e_now env) c (handle_request env ty body c).1.
Proof.
  intros H. assert (R : moves (e_now env) c c) by (by apply goes_moves, goes_refl). unfold handle_request.
  repeat match goal with |- context [if ?b then _ else _] => destruct b end; try done.
  - apply goes_moves. unfold handle_ping. simpl. destruct (_ && _); [|by apply goes_refl]. apply set_inner_goes; [done|apply touch_pong_forward, H].
  - unfold handle_meet. destruct (decode_meet_body body) as [m|] eqn:E; [|done]. apply decode_meet_port in E. case_decide; [done|].
    destruct (_ || _); [done|]. simpl. apply goes_moves, set_inner_goes; [done|]. eapply forward_trans; [by apply add_node_forward; [|apply H]|].
    apply touch_pong_forward, add_node_forward; [done|apply H].
  - unfold handle_fail. destruct (_ || _); [done|]. apply goes_moves, set_inner_goes; [done|apply mark_fail_forward, H].
  - unfold handle_prepare. destruct (decode_slot_target body) as [[slot id]|] eqn:E; [|done]. apply decode_slot_nonneg in E.
    pose proof (set_prepare_node_moves (e_io env) (e_now env) slot id c E H) as Hm. by destruct (set_prepare_node _ _ _ _ _).
  - unfold handle_commit. destruct (decode_slot_target body) as [[slot id]|] eqn:E; [|done]. apply decode_slot_nonneg in E. apply goes_moves.
    pose proof (commit_prepare_node_goes (e_io env) (e_now env) (e_now' env) slot id c E H) as Hm. by destruct (commit_prepare_node _ _ _ _ _ _).
  - unfold handle_abort. destruct (decode_slot_target body) as [[slot id]|] eqn:E; [|done]. apply goes_moves.
    pose proof (abort_prepare_node_goes (e_io env) (e_now env) slot c H) as Hm. by destruct (abort_prepare_node _ _ _ _).
Qed.

(** *** Commands *)

Lemma slot_arg_nonneg v s : slot_arg v = Some s → 0 ≤ s.
Proof. unfold slot_arg. destruct (parse_integer v); [|done]. destruct (_ && _) eqn:E; [|done]. intros [= <-]. apply andb_true_iff in E as [?%Z.leb_le _]. done. Qed.
Lemma port_arg_range v p : port_arg v = Some p → in_u16 p.
Proof.
  unfold port_arg. destruct (parse_integer v); [|done]. destruct (_ && _) eqn:E; [|done]. intros [= <-].
  apply andb_true_iff in E as [?%Z.ltb_lt ?%Z.leb_le]. lia.
Qed.
Lemma slot_args_nonneg args l : slot_args args = Some l → Forall (λ s, 0 ≤ s) l.
Proof. intros H%mapM_Some. induction H; constructor; [by eapply slot_arg_nonneg|done]. Qed.
Lemma range_args_nonneg args l : range_args args = Some l → Forall (λ r, 0 ≤ r.1) l.
Proof.
  revert l. assert (Hn : ∀ n args, (length args ≤ n)%nat → ∀ l, range_args args = Some l → Forall (λ r, 0 ≤ r.1) l); [|by eapply Hn].
  intros n. induction n as [|n IH]; intros args' Hl l; destruct args' as [|a [|b args']]; simpl in *; try (by intros [= <-]); [lia|].
  destruct (slot_arg a) as [x|] eqn:E; [|done]. simpl. destruct (slot_arg b); [|done]. simpl. destruct (range_args args') as [l'|] eqn:E'; [|done].
  intros [= <-]. constructor; [by eapply slot_arg_nonneg|]. eapply IH; [|done]. lia.
Qed.

Context {UP : Uppercase} (debug : RespValue → Str).

Section command.
Context (env : Env) (dir : Str) (repl : option Z) (data_replica : bool) (keys : list Bytes) (meet : Str → Z → Meeting).

Abbreviation now := (e_now env).

Lemma set_dir_goes c d : outer_ok c → goes c (set_nodes_conf_dir d c).
Proof. intros H. by apply outer_goes. Qed.

Lemma try_autosave_goes c : outer_ok c → goes c (try_autosave_nodes_conf env dir c).
Proof. intros H. eapply goes_trans; [by apply (set_dir_goes c dir)|]. by apply save_goes, set_dir_goes. Qed.

Lemma finish_goes e r c : outer_ok c → (∀ g, r = Ok g → forward (inner c) g) → goes c (finish env dir e r c).1.1.
Proof.
  intros H Hf. unfold finish. destruct r as [g|]; [|by apply goes_refl]. simpl.
  assert (Hc : goes c (set_inner c g)) by (apply set_inner_goes; [done|by apply Hf]). eapply goes_trans; [exact Hc|apply try_autosave_goes, Hc].
Qed.

Lemma finish_outer_moves e r c : moves now c r.1 → moves now c (finish_outer env dir e r).1.1.
Proof.
  intros H. destruct r as [c' [[]|]]; simpl in *; [|done]. eapply moves_then_save; [exact H|apply try_autosave_goes, H|].
  unfold try_autosave_nodes_conf. by rewrite save_epochs.
Qed.

Lemma meet_peer_forward ip port g g' : in_u16 port → cluster_ok g → meet_peer debug env meet ip port g = Ok g' → forward g g'.
Proof.
  intros Hp H. assert (Hd : ∀ m id, forward g (meet_done env m id ip port g)).
  { intros m id. unfold meet_done. pose proof (add_node_forward (e_t env) id ip port None None g Hp H) as F1.
    pose proof (touch_pong_forward (e_t env) id _ (fw_ok _ _ F1)) as F2. assert (F3 := forward_trans _ _ _ F1 F2). destruct (mt_pull m) as [[o r]|]; [|done].
    pose proof (pull_owners_forward (e_t env) o _ (fw_ok _ _ F3)) as F4. eapply forward_trans; [exact F3|]. eapply forward_trans; [exact F4|].
    apply pull_rolemap_forward, F4. }
  unfold meet_peer. repeat (case_match || case_decide); intros; simplify_eq; apply Hd.
Qed.

Lemma handle_cluster_meet_goes args c : outer_ok c → goes c (handle_cluster_meet debug env dir meet args c).1.1.
Proof.
  intros H. unfold handle_cluster_meet. destruct args as [|a [|b [|]]]; try by apply goes_refl. destruct (text_arg a) as [ip|]; [|by apply goes_refl].
  destruct (port_arg b) as [port|] eqn:E; [|by apply goes_refl]. apply finish_goes; [done|]. intros g. apply meet_peer_forward; [by eapply port_arg_range|apply H].
Qed.

Lemma handle_cluster_meetpeer_goes args c : outer_ok c → goes c (handle_cluster_meetpeer env dir args c).1.1.
Proof.
  intros H. unfold handle_cluster_meetpeer. destruct args as [|a0 [|a1 [|a2 more]]]; try by apply goes_refl. destruct (negb _); [by apply goes_refl|].
  destruct (text_arg a0) as [id|]; [|by apply goes_refl]. destruct (text_arg a1) as [ip|]; [|by apply goes_refl].
  destruct (port_arg a2) as [port|] eqn:E; [|by apply goes_refl]. case_decide; [by apply goes_refl|]. destruct (role_args more) as [|[rm rid]]; [by apply goes_refl|].
  apply finish_goes; [done|]. intros g [= <-]. pose proof (add_node_forward (e_t env) id ip port rm rid (inner c) (port_arg_range _ _ E) (oo_inner c H)) as F.
  eapply forward_trans; [exact F|]. apply touch_pong_forward, F.
Qed.

Lemma handle_cluster_failover_goes args c : outer_ok c → goes c (handle_cluster_failover env dir repl args c).1.1.
Proof.
  intros H. unfold handle_cluster_failover. destruct (failover_mode args) as [|mode]; [by apply goes_refl|].
  assert (Hr : goes c (refresh repl c)) by (apply set_inner_goes; [done|apply refresh_offset_forward, H]). eapply goes_trans; [exact Hr|].
  assert (Hf : forward (inner (refresh repl c)) (manual_failover mode (inner (refresh repl c))).1)
    by (split; [apply manual_failover_ok, Hr|apply manual_failover_adv, Hr]).
  destruct (manual_failover mode _) as [g [n|]]; simpl in Hf |- *;
    assert (Hc : goes (refresh repl c) (set_inner (refresh repl c) g)) by (apply set_inner_goes; [apply Hr|done]); [|done].
  eapply goes_trans; [exact Hc|apply try_autosave_goes, Hc].
Qed.

Lemma handle_cluster_replicate_goes args c : outer_ok c → goes c (handle_cluster_replicate env dir repl args c).1.1.
Proof.
  intros H. unfold handle_cluster_replicate. destruct args as [|a [|]]; try by apply goes_refl. destruct (text_arg a) as [id|]; [|by apply goes_refl].
  destruct (configure_as_replica_of id (inner c)) as [g|] eqn:E; [|by apply goes_refl]. simpl.
  assert (Hc : goes c (set_inner c g)).
  { apply set_inner_goes; [done|]. eapply forward_result; [apply configure_as_replica_of_ok, H|apply configure_as_replica_of_adv, H|done]. }
  eapply goes_trans; [exact Hc|apply try_autosave_goes, Hc].
Qed.

Lemma with_node_moves form rest k c : outer_ok c → (∀ id, moves now c (k id c).1.1) → moves now c (with_node form rest k c).1.1.
Proof.
  intros H Hk. unfold with_node. destruct rest as [|a [|]]; try by apply goes_moves, goes_refl. destruct (text_arg a); [done|by apply goes_moves, goes_refl].
Qed.
Lemma without_node_moves form rest k c : outer_ok c → moves now c (k c).1.1 → moves now c (without_node form rest k c).1.1.
Proof. intros H Hk. unfold without_node. destruct rest; [done|by apply goes_moves, goes_refl]. Qed.

Lemma handle_cluster_setslot_moves args c : outer_ok c → moves now c (handle_cluster_setslot env dir args c).1.1.
Proof.
  intros H. pose proof (oo_inner c H) as Hi. assert (R : moves now c c) by (by apply goes_moves, goes_refl). unfold handle_cluster_setslot.
  destruct args as [|a0 [|a1 rest]]; try done. destruct (slot_arg a0) as [slot|] eqn:E; [|done]. apply slot_arg_nonneg in E.
  destruct (to_uppercase <$> text_arg a1) as [sub|]; [|done]. cbv zeta. repeat case_decide; [..|done].
  - apply with_node_moves; [done|]. intros id. apply goes_moves, finish_goes; [done|]. intros g.
    apply forward_result; [by apply set_migrating_ok|apply set_migrating_adv].
  - apply with_node_moves; [done|]. intros id. apply goes_moves, finish_goes; [done|]. intros g.
    apply forward_result; [by apply set_importing_ok|apply set_importing_adv].
  - apply without_node_moves; [done|]. apply goes_moves, finish_goes; [done|]. intros g. apply forward_result; [by apply set_stable_ok|apply set_stable_adv].
  - apply with_node_moves; [done|]. intros id. by apply finish_outer_moves, goes_moves, set_node_goes.
  - apply with_node_moves; [done|]. intros id. by apply finish_outer_moves, set_prepare_node_moves.
  - apply without_node_moves; [done|]. by apply finish_outer_moves, goes_moves, abort_prepare_node_goes.
  - apply with_node_moves; [done|]. intros id. pose proof (check_prepare_valid_goes (e_now env) (e_now' env) slot id c H) as Hc.
    destruct (check_prepare_valid _ _ _ _ _). by apply goes_moves.
  - apply with_node_moves; [done|]. intros id. by apply finish_outer_moves, goes_moves, commit_prepare_node_goes.
Qed.

Lemma handle_cluster_reset_goes args c : outer_ok c → goes c (handle_cluster_reset env dir repl data_replica args c).1.1.
Proof.
  intros H. unfold handle_cluster_reset. destruct (reset_hard args) as [|hard]; [by apply goes_refl|]. simpl.
  assert (Hc : goes c (on_inner reset_cluster_config c)).
  { apply set_inner_goes; [done|]. split; [apply reset_cluster_config_ok, H|apply reset_cluster_config_adv, H]. }
  eapply goes_trans; [exact Hc|apply try_autosave_goes, Hc].
Qed.

Lemma slots_command_goes sub args f c :
  outer_ok c → (∀ l g, Forall (λ s, 0 ≤ s) l → f l (inner c) = Ok g → forward (inner c) g) → goes c (slots_command env dir sub args f c).1.1.
Proof.
  intros H Hf. unfold slots_command. destruct args as [|a args]; [by apply goes_refl|]. destruct (slot_args (a :: args)) as [l|] eqn:E; [|by apply goes_refl].
  apply finish_goes; [done|]. intros g. apply Hf. by eapply slot_args_nonneg.
Qed.
Lemma ranges_command_goes args f c :
  outer_ok c → (∀ l g, Forall (λ r, 0 ≤ r.1) l → f l (inner c) = Ok g → forward (inner c) g) → goes c (ranges_command env dir args f c).1.1.
Proof.
  intros H Hf. unfold ranges_command, parse_slot_ranges. destruct (_ || _); [by apply goes_refl|].
  destruct (range_args args) as [l|] eqn:E; [|by apply goes_refl]. apply finish_goes; [done|]. intros g. apply Hf. by eapply range_args_nonneg.
Qed.
Lemma no_args_moves sub args k c : outer_ok c → moves now c k.1.1 → moves now c (no_args sub args k c).1.1.
Proof. intros H Hk. destruct args; [done|by apply goes_moves, goes_refl]. Qed.
Lemma node_arg_moves sub args k c : outer_ok c → (∀ id, moves now c (k id).1.1) → moves now c (node_arg sub args k c).1.1.
Proof.
  intros H Hk. unfold node_arg. destruct args as [|a [|]]; try by apply goes_moves, goes_refl. destruct (text_arg a); [done|by apply goes_moves, goes_refl].
Qed.

Lemma natural_arg_range v n : natural_arg v = Some n → in_u64 n.
Proof. unfold natural_arg. destruct (parse_integer v); [|done]. destruct (0 <=? _); [|done]. intros [= <-]. apply wrap_u64_range. Qed.

Lemma handle_cluster_moves args c o : outer_ok c → handle_cluster debug env dir repl data_replica keys meet args c = Some o → moves now c o.1.1.
Proof.
  intros H. pose proof (oo_inner c H) as Hi. assert (R : ∀ v, moves now c (reply v c).1.1) by (intros v; by apply goes_moves, goes_refl).
  unfold handle_cluster. destruct args as [|a args]; [by intros [= <-]|]. destruct (to_uppercase <$> text_arg a) as [sub|]; [|by intros [= <-]].
  cbv zeta. destruct (_ || _); [done|]. intros [= <-].
  repeat match goal with
    | |- moves _ _ (if ?b then _ else _).1.1 => destruct b; [first [apply R | by apply no_args_moves | idtac]|]
    end; try apply R.
  - destruct args as [|k [|]]; apply R.
  - by apply handle_cluster_setslot_moves.
  - by apply goes_moves, handle_cluster_meet_goes.
  - by apply goes_moves, handle_cluster_meetpeer_goes.
  - by apply goes_moves, handle_cluster_replicate_goes.
  - by apply goes_moves, handle_cluster_failover_goes.
  - destruct args as [|k [|]]; apply R.
  - destruct args as [|k [|k' [|]]]; apply R.
  - by apply node_arg_moves.
  - apply no_args_moves; [done|]. assert (Hb : goes c (on_inner bump c)).
    { apply set_inner_goes; [done|]. split; [by apply bump_ok|]. apply same_table_adv; [|by apply same_votes]. split_and!; try done. by apply bump_mono. }
    apply goes_moves. eapply goes_trans; [exact Hb|apply try_autosave_goes, Hb].
  - destruct args as [|e [|]]; try apply R. destruct (natural_arg e) as [epoch|] eqn:E; [|apply R]. apply natural_arg_range in E.
    apply goes_moves, finish_goes; [done|]. intros g. apply forward_result; [apply set_config_epoch_ok; [lia|done]|apply set_config_epoch_adv].
  - apply goes_moves, slots_command_goes; [done|]. intros l g Hl. apply forward_result; [by apply add_slots_ok|by apply add_slots_adv].
  - apply goes_moves, slots_command_goes; [done|]. intros l g Hl. apply forward_result; [by apply del_slots_ok|by apply del_slots_adv].
  - apply no_args_moves; [done|]. apply goes_moves, (finish_goes error (Ok (flush_slots (inner c))) c H). intros g [= <-]. split; [by apply flush_slots_ok|by apply flush_slots_adv].
  - apply goes_moves, ranges_command_goes; [done|]. intros l g Hl. apply forward_result; [by apply add_slot_ranges_ok|by apply add_slot_ranges_adv].
  - apply goes_moves, ranges_command_goes; [done|]. intros l g Hl. apply forward_result; [by apply del_slot_ranges_ok|by apply del_slot_ranges_adv].
  - apply node_arg_moves; [done|]. intros id. apply goes_moves, finish_goes; [done|]. intros g. apply forward_result; [by apply forget_node_ok|apply forget_node_adv].
  - apply no_args_moves; [done|]. pose proof (save_goes (e_io env) (e_now env) dir _ (go_ok _ _ (set_dir_goes c dir H))) as Hs.
    destruct (save_nodes_conf_to _ _ _ _) as [c' r]. apply goes_moves. eapply goes_trans; [by apply set_dir_goes|exact Hs].
  - by apply goes_moves, handle_cluster_reset_goes.
  - by apply node_arg_moves.
  - apply no_args_moves; [done|]. apply goes_moves, set_inner_goes; [done|by apply refresh_offset_forward].
Qed.

End command.

(** ** Events *)

Inductive Event : Type :=
| Command (env : Env) (dir : Str) (repl : option Z) (data_replica : bool) (keys : list Bytes) (meet : Str → Z → Meeting) (args : list RespValue)
| BusRequest (env : Env) (msg_type : Z) (body : Bytes)
| Gossip (io : Io) (at_ms : Z) (repl : option Z) (net : ClusterNode → Probe)
| SetCoverage (b : bool)
| SetReads (b : bool)
| SetAnnounceIp (ip : option Str)
| SetAnnouncePort (port : option Z)
| SetPriority (p : Z)
| SetTimeout (ms : Z).

(** A port is 16 bits wide. *)
Definition event_ok (ev : Event) : Prop := match ev with SetAnnouncePort (Some p) => in_u16 p | _ => True end.

(** What the wall clock shows. *)
Definition clock (ev : Event) : Z :=
  match ev with Command env _ _ _ _ _ _ | BusRequest env _ _ => e_now env | Gossip _ now _ _ => now | _ => 0 end.

Definition node_step (c : ClusterState) (ev : Event) : ClusterState :=
  match ev with
  | Command env dir repl data_replica keys meet args =>
    match handle_cluster debug env dir repl data_replica keys meet args c with Some o => o.1.1 | None => c end
  | BusRequest env msg_type body => (handle_request env msg_type body c).1
  | Gossip io now repl net => (gossip_tick io now repl net c).1
  | SetCoverage b => set_require_full_coverage b c
  | SetReads b => set_allow_reads_when_down b c
  | SetAnnounceIp ip => set_announce_ip ip c
  | SetAnnouncePort port => set_announce_port port c
  | SetPriority p => on_inner (set_local_repl_priority p) c
  | SetTimeout ms => on_inner (set_node_timeout_ms ms) c
  end.
Definition node_run (c : ClusterState) (events : list Event) : ClusterState := foldl node_step c events.

Lemma advertised_port c : outer_ok c → in_u16 (advertised_addr c).2.
Proof. intros [H Ha]. unfold advertised_addr. simpl. destruct (announce_port c) as [p|]; [by apply Ha|apply (ok_port _ H)]. Qed.

Lemma refresh_myself_goes c : outer_ok c → goes c (refresh_myself_advertised c).
Proof.
  intros H. unfold refresh_myself_advertised. pose proof (advertised_port c H) as Hp. destruct (advertised_addr c) as [ip port]. simpl in Hp.
  apply set_inner_goes; [done|]. split; [apply alter_node_ok; [auto with cluster|apply H]|apply alter_node_adv, advances_refl].
Qed.

Lemma node_step_moves c ev : outer_ok c → event_ok ev → moves (clock ev) c (node_step c ev).
Proof.
  intros H He. destruct ev; simpl.
  - destruct (handle_cluster _ _ _ _ _ _ _ _ _) as [o|] eqn:E; [by eapply handle_cluster_moves|by apply goes_moves, goes_refl].
  - by apply handle_request_moves.
  - by apply goes_moves, gossip_tick_goes.
  - by apply goes_moves, outer_goes.
  - by apply goes_moves, outer_goes.
  - apply goes_moves. eapply goes_trans; [|apply refresh_myself_goes]; [by apply outer_goes|]. by eapply go_ok, outer_goes.
  - apply goes_moves. assert (Ha : goes c (set_announce c (announce_ip c) (p ← port; if 0 <? p then Some p else None))).
    { split; [split; [apply H|]|apply advances_refl]. simpl. intros p. destruct port as [q|]; [|done]. simpl. destruct (0 <? q); [|done]. by intros [= <-]. }
    eapply goes_trans; [exact Ha|apply refresh_myself_goes, Ha].
  - apply goes_moves, set_inner_goes; [done|]. split; [by apply set_local_repl_priority_ok, H|]. apply alter_node_adv. by apply same_table_adv, same_votes.
  - apply goes_moves, set_inner_goes; [done|]. split; [by apply set_timeout_ok, H|by apply same_table_adv, same_votes].
Qed.

Lemma node_run_ok c events : outer_ok c → Forall event_ok events → outer_ok (node_run c events) ∧ rises (inner c) (inner (node_run c events)).
Proof.
  intros H He. revert c H. induction He as [|ev l H1 Hl IH]; intros c H; [split; [done|apply rises_refl]|]. simpl.
  pose proof (node_step_moves c ev H H1) as [Ho Hr _]. destruct (IH _ Ho). split; [done|by eapply rises_trans].
Qed.

End node.

(** ** Commits and the votes behind them

    A vote that is found was recorded by some step and held since; a commit needs such a vote, and
    gives the slot to its target. *)

(** ** Committing *)

(** What a commit found and what it made of the slot. *)
Record committed (now' slot : Z) (target : Str) (g g' : Inner) : Prop := {
  cm_slot : slot_in slot;
  cm_vote : ∃ v, prepare_node g !! slot = Some v ∧ v_target_id v = target ∧ prepare_vote_expired now' v = false ∧ v_slot_epoch v = slot_epoch g slot;
  cm_owner : owner_at g' slot = Some target;
  cm_epoch : slot_epoch g' slot = sat_add_u64 (current_epoch g) 1;
  cm_spent : prepare_node g' !! slot = None;
  cm_rest : ∀ s, slot_in s → s ≠ slot → owner_at g' s = owner_at g s ∧ epoch_at g' s = epoch_at g s
}.

Lemma purged_vote now slot g v : prepare_node (purge_expired_prepare now slot g) !! slot = Some v → purge_expired_prepare now slot g = g.
Proof.
  unfold purge_expired_prepare. destruct (prepare_node g !! slot) as [w|] eqn:E; [|done]. destruct (prepare_vote_expired now w); [|done].
  simpl. by rewrite lookup_delete_eq.
Qed.

Lemma recheck_vote_inv now now' slot target g g' :
  recheck_vote now now' slot target g = (g', Ok tt) →
  g' = g ∧ ∃ v, prepare_node g !! slot = Some v ∧ v_target_id v = target ∧ prepare_vote_expired now' v = false ∧ v_slot_epoch v = slot_epoch g slot.
Proof.
  unfold recheck_vote. destruct (prepare_node (purge_expired_prepare now slot g) !! slot) as [v|] eqn:E; [|done]. pose proof (purged_vote now slot g v E) as Ep. rewrite Ep in *.
  destruct (negb (bool_decide _)) eqn:E1; [done|]. destruct (prepare_vote_expired now' v) eqn:E2; [done|]. destruct (negb (_ =? _)) eqn:E3; [done|]. intros [= <- _].
  apply negb_false_iff in E1, E3. apply bool_decide_eq_true in E1. apply Z.eqb_eq in E3. split; [done|]. by exists v.
Qed.

Lemma commit_vote_inv now now' slot target g g' :
  cluster_ok g → slot_in slot → commit_vote now now' slot target g = (g', Ok tt) → committed now' slot target g g'.
Proof.
  intros H Hs. unfold commit_vote. destruct (recheck_vote now now' slot target g) as [g1 [[]|]] eqn:E; [|done].
  destruct (recheck_vote_inv _ _ _ _ _ _ E) as [-> Hv]. destruct (negb _); [done|]. intros [= <-].
  pose proof (λ s, own_lookup (bump g) slot target (current_epoch (bump g)) s (ok_owners g H) (ok_epochs g H) Hs) as Hl.
  split; [done|done|..].
  - destruct (Hl slot Hs) as [Eo _]. rewrite decide_True in Eo by done. exact Eo.
  - destruct (Hl slot Hs) as [_ Ee]. rewrite decide_True in Ee by done. unfold slot_epoch, give_slot. change (epoch_at (forget_transit ?x slot) slot) with (epoch_at x slot).
    cbv zeta. by rewrite Ee.
  - simpl. apply lookup_delete_eq.
  - intros s Hs' Hne. destruct (Hl s Hs') as [Eo Ee]. rewrite decide_False in Eo by done. rewrite decide_False in Ee by done. split; [exact Eo|exact Ee].
Qed.

Section node.
Context {CO : ClusterOrder} {CL : ClusterOrderLaws}.

Lemma save_owners io now dir c : slot_owner (inner (save_nodes_conf_to io now dir c).1) = slot_owner (inner c).
Proof. unfold save_nodes_conf_to. by destruct io as [|e leaves [|]]. Qed.
Lemma autosave_owners io now c : slot_owner (inner (autosave_nodes_conf io now c)) = slot_owner (inner c).
Proof. unfold autosave_nodes_conf. destruct (nodes_conf_dir c); [apply save_owners|done]. Qed.
Lemma autosave_votes io now c s : prepare_node (inner c) !! s = None → prepare_node (inner (autosave_nodes_conf io now c)) !! s = None.
Proof.
  intros H. destruct (prepare_node (inner (autosave_nodes_conf io now c)) !! s) as [v|] eqn:E; [|done]. revert E. unfold autosave_nodes_conf.
  destruct (nodes_conf_dir c) as [d|]; [|congruence]. unfold save_nodes_conf_to. destruct io as [|e leaves [|]]; simpl; rewrite ?map_lookup_filter_Some; naive_solver.
Qed.

Lemma recheck_hook_same slot c v : prepare_node (inner (recheck_hook slot c)) !! slot = Some v → inner (recheck_hook slot c) = inner c.
Proof.
  unfold recheck_hook, take_commit_recheck_clear_inject. destruct (0 <? _); [|done]. simpl. by rewrite lookup_delete_eq.
Qed.

Lemma commit_inv io now now' slot target c c' :
  outer_ok c → 0 ≤ slot → commit_prepare_node io now now' slot target c = (c', Ok tt) → committed now' slot target (inner c) (inner c').
Proof.
  intros H H0. unfold commit_prepare_node. destruct (negb (slot_ok slot)) eqn:Es; [done|]. apply negb_slot_ok in Es; [|done].
  pose proof (take_source_goes c H) as Ht. assert (Ei : inner (take_source_node_inject_fail c).1 = inner c) by (unfold take_source_node_inject_fail; by destruct (0 <? _)).
  destruct (take_source_node_inject_fail c) as [c1 []]; simpl in Ht, Ei; [done|]. pose proof (recheck_hook_goes slot c1 (go_ok _ _ Ht)) as Hh.
  destruct (commit_vote now now' slot target (inner (recheck_hook slot c1))) as [g [[]|]] eqn:E; [|done]. intros [= <-].
  apply commit_vote_inv in E; [|apply Hh|done]. pose proof (cm_vote _ _ _ _ _ E) as (v & Hv & _). rewrite (recheck_hook_same _ _ _ Hv), Ei in E.
  set (c3 := set_inner _ g). destruct E as [E1 E2 E3 E4 E5 E6]. split; [done|done|..].
  - unfold owner_at. by rewrite autosave_owners.
  - unfold slot_epoch, epoch_at. by rewrite autosave_epochs.
  - by apply autosave_votes.
  - intros s Hs Hne. unfold owner_at, epoch_at. rewrite autosave_owners, autosave_epochs. by apply E6.
Qed.

(** ** The history of a vote *)

Context {UP : Uppercase} (debug : RespValue → Str).

(** The step that recorded the vote, and that it was there after every step since. *)
Definition recorded (c0 : ClusterState) (events : list Event) (s : Z) (v : PrepareVote) : Prop :=
  ∃ pre ev post, events = pre ++ ev :: post ∧ v_prepared_at v = clock ev ∧
    v_slot_epoch v = slot_epoch (inner (node_run debug c0 (pre ++ [ev]))) s ∧
    ∀ mid rest, post = mid ++ rest → prepare_node (inner (node_run debug c0 (pre ++ ev :: mid))) !! s = Some v.

Lemma node_run_snoc c0 l ev : node_run debug c0 (l ++ [ev]) = node_step debug (node_run debug c0 l) ev.
Proof. unfold node_run. by rewrite foldl_app. Qed.

Lemma vote_recorded c0 events s v :
  outer_ok c0 → prepare_node (inner c0) = ∅ → Forall event_ok events →
  prepare_node (inner (node_run debug c0 events)) !! s = Some v → recorded c0 events s v.
Proof.
  intros H0 Hv He. revert v. induction events as [|ev l IH] using rev_ind; intros v Hs; [simpl in Hs; by rewrite Hv, lookup_empty in Hs|].
  apply Forall_app in He as [He [He1 _]%Forall_cons]. pose proof (proj1 (node_run_ok debug c0 l H0 He)) as Hl. rewrite node_run_snoc in Hs.
  destruct (mv_votes _ _ _ (node_step_moves debug _ ev Hl He1) s v Hs) as [Hk|[Ht Hep]].
  - destruct (IH He v Hk) as (pre & e & post & -> & E1 & E2 & Hall). exists pre, e, (post ++ [ev]). split_and!; [by rewrite <- app_assoc|done|done|].
    intros mid rest Em. destruct (decide (rest = [])) as [->|Hne].
    + rewrite app_nil_r in Em. subst mid. rewrite app_comm_cons, app_assoc, node_run_snoc. done.
    + destruct rest as [|x rest _] using rev_ind; [done|]. rewrite app_assoc in Em. apply app_inj_tail in Em as [-> _]. by eapply Hall.
  - exists l, ev, []. split_and!; [done|done|by rewrite node_run_snoc|]. intros mid rest Em. symmetry in Em. apply app_eq_nil in Em as [-> _]. by rewrite node_run_snoc.
Qed.

Lemma run_between c0 pre post : outer_ok c0 → Forall event_ok (pre ++ post) →
  rises (inner (node_run debug c0 pre)) (inner (node_run debug c0 (pre ++ post))).
Proof.
  intros H [H1 H2]%Forall_app. unfold node_run. rewrite foldl_app. apply node_run_ok; [by apply node_run_ok|done].
Qed.

(** Nothing happened to the slot between the vote and the end. *)
Lemma vote_fenced c0 pre ev mid rest s :
  outer_ok c0 → Forall event_ok (pre ++ ev :: mid ++ rest) → slot_in s →
  let g := inner (node_run debug c0 (pre ++ ev :: mid ++ rest)) in
  let g' := inner (node_run debug c0 (pre ++ ev :: mid)) in
  current_epoch g < u64_max → slot_epoch g s = slot_epoch (inner (node_run debug c0 (pre ++ [ev]))) s →
  owner_at g' s = owner_at g s ∧ slot_epoch g' s = slot_epoch g s.
Proof.
  intros H He Hs. cbv zeta. intros Hc Eq.
  assert (E1 : pre ++ ev :: mid ++ rest = (pre ++ ev :: mid) ++ rest) by (by rewrite <- app_assoc). assert (E2 : pre ++ ev :: mid = (pre ++ [ev]) ++ mid) by (by rewrite <- app_assoc).
  rewrite E1 in *. pose proof (run_between c0 _ _ H He) as R1. apply Forall_app in He as [He _]. rewrite E2 in He. pose proof (run_between c0 _ _ H He) as R2. rewrite <- E2 in R2.
  pose proof (ri_epoch _ _ R1 s Hs). pose proof (ri_epoch _ _ R2 s Hs). assert (Ee : slot_epoch (inner (node_run debug c0 (pre ++ ev :: mid))) s = slot_epoch (inner (node_run debug c0 ((pre ++ ev :: mid) ++ rest))) s) by lia.
  split; [|done]. symmetry. by apply (ri_owner _ _ R1 s Hs Hc).
Qed.

End node.
