(* ===== verification/ClusterLoad.v ===== *)
(** * The states a node starts in

    A fresh node and a node loaded from any [nodes.conf] have the invariant. *)

From S2P Require Import Prelude RustStd Text HashSlot ClusterState ClusterConf ClusterFacts ClusterEpochs ClusterRun.
From Stdlib Require Import Lia.
Local Open Scope Z_scope.

Lemma length_hex w n : length (hex w n) = w.
Proof. revert n. induction w as [|w IH]; intros n; [done|]. simpl. rewrite length_app, IH. simpl. lia. Qed.

Lemma generate_node_id_ne nanos : generate_node_id nanos ≠ [].
Proof. intros E. apply (f_equal length) in E. unfold generate_node_id in E. rewrite length_app, !length_hex in E. done. Qed.

#[local] Opaque Z.to_nat.

Lemma with_identity_ok ip port id master mid (all : bool) : id ≠ [] → in_u16 port → outer_ok (with_identity ip port id master mid all).
Proof.
  intros Hid Hp. split; [|done]. split; simpl; try done.
  - intros i o [-> _]%lookup_replicate. destruct all; [right; rewrite lookup_singleton_eq; eauto|by left].
  - intros i e [-> _]%lookup_replicate. lia.
  - intros x n [<- <-]%lookup_singleton_Some. split; simpl; try done. by rewrite bool_decide_eq_true_2.
  - rewrite lookup_singleton_eq. eauto.
Qed.

Lemma single_node_ok nanos ip port : in_u16 port → outer_ok (single_node nanos ip port).
Proof. intros. apply with_identity_ok; [apply generate_node_id_ne|done]. Qed.

(** ** Parsed numbers *)

Lemma parse_u16_range s z : parse_u16 s = Some z → in_u16 z.
Proof.
  unfold parse_u16. destruct (parse_u64 s) as [n|] eqn:E; [|done]. simpl. apply parse_u64_range in E. destruct (Z.leb_spec n u16_max); [|done]. intros [= <-]. lia.
Qed.

(** ** Parsed lines *)

Definition line_ok (l : ParsedNodesLine) : Prop :=
  l_id l ≠ [] ∧ in_u16 (l_port l) ∧ in_u64 (l_epoch l) ∧ Forall (λ r : Z * Z, 0 ≤ r.1) (l_slots l).

Lemma parse_slot_word_ok n tok l : parse_slot_word n tok = Ok l → Forall (λ r : Z * Z, 0 ≤ r.1) l.
Proof.
  unfold parse_slot_word. destruct (starts_with 91 tok); [by intros [= <-]|]. destruct (split_once 45 tok) as [[a b]|].
  - destruct (parse_u16 a) as [x|] eqn:E; [|done]. destruct (parse_u16 b); [|done]. apply parse_u16_range in E. destruct (_ && _); intros [= <-]; repeat constructor. simpl. lia.
  - destruct (parse_u16 tok) as [x|] eqn:E; [|done]. apply parse_u16_range in E. destruct (slot_ok x); intros [= <-]; repeat constructor. simpl. lia.
Qed.

Lemma parse_slot_words_ok n toks l : parse_slot_words n toks = Ok l → Forall (λ r : Z * Z, 0 ≤ r.1) l.
Proof.
  revert l. induction toks as [|tok toks IH]; intros l; simpl; [by intros [= <-]|]. destruct (parse_slot_word n tok) as [a|] eqn:E; [|done]. simpl.
  destruct (parse_slot_words n toks); [|done]. intros [= <-]. apply Forall_app; split; [by eapply parse_slot_word_ok|by apply IH].
Qed.

Lemma parse_node_line_ok n s l : parse_node_line n s = Ok l → line_ok l.
Proof.
  unfold parse_node_line. pose proof (split_words s) as Hw. destruct (split_whitespace s) as [|id ws]; [done|]. apply Forall_cons in Hw as [Hid _].
  do 7 (destruct ws as [|? ws]; [done|]). destruct (rsplit_once 58 _) as [[ip port_s]|]; [|done].
  destruct (parse_u16 port_s) as [port|] eqn:Ep; [|done]. apply parse_u16_range in Ep. destruct (parse_slot_words n ws) as [slots|] eqn:Es; [|done]. simpl.
  intros [= <-]. apply parse_slot_words_ok in Es. unfold line_ok. simpl. split_and!; try done; try lia; [by apply word_solid in Hid as [_ ?]|..].
  - destruct (parse_u64 _) as [e|] eqn:Ee; simpl; [apply parse_u64_range in Ee|]; lia.
  - destruct (parse_u64 _) as [e|] eqn:Ee; simpl; [apply parse_u64_range in Ee; lia|]. by vm_compute.
Qed.

Lemma parse_lines_ok n ss ls : parse_lines_from n ss = Ok ls → Forall line_ok ls.
Proof.
  revert n ls. induction ss as [|s ss IH]; intros n ls; simpl; [by intros [= <-]|]. destruct (_ || _); [apply IH|].
  destruct (parse_node_line n (trim s)) as [l|] eqn:E; [|done]. simpl. destruct (parse_lines_from (n + 1) ss) as [ls'|] eqn:E'; [|done]. intros [= <-].
  constructor; [by eapply parse_node_line_ok|by eapply IH].
Qed.

(** ** Loading *)

(** Nothing is in transit while a file is loaded. *)
Record loading (g : Inner) : Prop := { ld_ok : cluster_ok g; ld_mig : migrating g = ∅; ld_imp : importing g = ∅ }.

Lemma stamp_slots_ok owner e l g :
  loading g → (∀ id, owner = Some id → is_Some (nodes g !! id)) → 1 ≤ e ≤ current_epoch g → Forall (λ s, 0 ≤ s) l →
  let g' := foldl (λ g slot, if slot_ok slot then own g slot (default (default [] (owner_at g slot)) owner) e else g) g l in
  loading g' ∧ nodes g' = nodes g ∧ current_epoch g' = current_epoch g ∧ my_id g' = my_id g.
Proof.
  intros Hl Ho He Hs. revert g Hl Ho He. induction Hs as [|s l Hs Hl IH]; intros g Hg Ho He; [done|]. simpl. destruct (slot_ok s) eqn:Es; [|by apply IH].
  apply (IH (own g s _ e)); [|done..]. destruct Hg as [Hk Hm Hi]. split; [|done..]. apply own_ok; try done; [|by rewrite Hm|by apply slot_ok_in].
  destruct owner as [id|]; simpl; [right; by apply Ho|]. destruct (owner_at g s) eqn:Eo; [by eapply ok_known|by left].
Qed.

Lemma stamp_range_ok owner e r g :
  loading g → (∀ id, owner = Some id → is_Some (nodes g !! id)) → 1 ≤ e ≤ current_epoch g → 0 ≤ r.1 →
  let g' := stamp_range owner e g r in loading g' ∧ nodes g' = nodes g ∧ current_epoch g' = current_epoch g ∧ my_id g' = my_id g.
Proof.
  intros Hl Ho He Hr. apply stamp_slots_ok; try done. apply Forall_forall. intros s Hs%elem_of_seqZ. lia.
Qed.

Lemma load_node_line_ok t e l g :
  loading g → line_ok l → 1 ≤ e ≤ current_epoch g →
  let g' := load_node_line t e g l in loading g' ∧ current_epoch g' = current_epoch g ∧ my_id g' = my_id g.
Proof.
  intros [Hk Hm Hi] (Hid & Hp & _ & Hs) He. unfold load_node_line. set (g1 := if decide _ then _ else _).
  assert (H1 : loading g1 ∧ is_Some (nodes g1 !! l_id l) ∧ current_epoch g1 = current_epoch g ∧ my_id g1 = my_id g).
  { unfold g1. case_decide as Ed.
    - split_and!; try done; [split; [|done..]|].
      + apply alter_node_ok; [|done]. intros n Hn. apply with_fail_ok; [done|by apply with_role_ok].
      + simpl. rewrite Ed, lookup_alter_eq. destruct (ok_me g Hk) as [n ->]. eauto.
    - assert (Hf : cluster_ok (first_pong t (l_id l) (set_nodes g (<[l_id l := mkNode (l_id l) (l_ip l) (l_port l) (sat_add_u16 (l_port l) 10000) false (l_master l) (l_master_id l) (l_pfail l) (l_fail l) 0 100]> (nodes g))))).
      { apply first_pong_ok, insert_node_ok; [|done]. split; simpl; try done. by rewrite bool_decide_eq_false_2. }
      unfold first_pong in *. destruct (last_pong _ !! _); simpl in *; split_and!; try done; by split || (simpl; rewrite lookup_insert_eq; eauto). }
  clearbody g1. clear Hk Hm Hi. destruct H1 as (H1 & Hn & Ec & Ei). rewrite <- Ec, <- Ei. rewrite <- Ec in He. clear Ec Ei g. cbv zeta.
  revert g1 H1 Hn He. induction Hs as [|r rs Hr Hs IH]; intros g H1 Hn He; [done|]. simpl.
  destruct (stamp_range_ok (Some (l_id l)) e r g H1) as (H2 & En & Ec & Ei); [by intros ? [= <-]|done..|]. rewrite <- Ec, <- Ei. apply IH; [done|by rewrite En|lia].
Qed.

Lemma load_node_lines_ok t e ls g :
  loading g → Forall line_ok ls → 1 ≤ e ≤ current_epoch g →
  let g' := foldl (load_node_line t e) g ls in loading g' ∧ current_epoch g' = current_epoch g ∧ my_id g' = my_id g.
Proof.
  intros Hg Hl He. revert g Hg He. induction Hl as [|l ls H1 Hl IH]; intros g Hg He; [done|]. simpl.
  destruct (load_node_line_ok t e l g Hg H1 He) as (H2 & Ec & Ei). rewrite <- Ec, <- Ei. apply IH; [done|lia].
Qed.

(** Stamping does not look at the current epoch. *)
Lemma stamp_set_epoch owner e e' r g : set_epoch (stamp_range owner e g r) e' = stamp_range owner e (set_epoch g e') r.
Proof.
  unfold stamp_range. generalize (seqZ r.1 (r.2 - r.1 + 1)) as l. intros l. revert g. induction l as [|s l IH]; intros g; [done|]. simpl. rewrite IH. by destruct (slot_ok s).
Qed.

Lemma set_epoch_same g : set_epoch g (current_epoch g) = g.
Proof. by destruct g. Qed.

Lemma load_slot_epoch_eq g a b e :
  loading g → 0 ≤ a → load_slot_epoch g (a, b, e) = stamp_range None (Z.max e 1) (set_epoch g (Z.max (current_epoch g) (Z.max e 1))) (a, b).
Proof.
  intros Hg Ha. unfold load_slot_epoch. cbv zeta. assert (Ec : ∀ l g, current_epoch (foldl (λ g slot, if slot_ok slot then own g slot (default (default [] (owner_at g slot)) None) (Z.max e 1) else g) g l) = current_epoch g).
  { clear. induction l as [|s l IH]; intros g; [done|]. simpl. rewrite IH. by destruct (slot_ok s). }
  unfold stamp_range at 1. rewrite Ec. rewrite <- stamp_set_epoch. destruct (Z.ltb_spec (current_epoch g) (Z.max e 1)).
  - by rewrite (Z.max_r (current_epoch g) (Z.max e 1)) by lia.
  - rewrite (Z.max_l (current_epoch g) (Z.max e 1)) by lia. rewrite <- (set_epoch_same (stamp_range None (Z.max e 1) g (a, b))) at 1. f_equal. unfold stamp_range. by rewrite Ec.
Qed.

Lemma load_slot_epochs_ok xs g :
  loading g → Forall (λ x : Z * Z * Z, 0 ≤ x.1.1 ∧ in_u64 x.2) xs →
  let g' := foldl load_slot_epoch g xs in loading g' ∧ my_id g' = my_id g.
Proof.
  intros Hg Hx. revert g Hg. induction Hx as [|[[a b] e] xs [Ha He] Hx IH]; intros g Hg; [done|]. cbn [foldl]. simpl in Ha, He.
  rewrite load_slot_epoch_eq by done. pose proof (ok_current g (ld_ok g Hg)) as Hc.
  destruct (stamp_range_ok None (Z.max e 1) (a, b) (set_epoch g (Z.max (current_epoch g) (Z.max e 1)))) as (H1 & _ & _ & Ei); [|done|simpl; lia|done|].
  - destruct Hg as [Hk Hm Hi]. split; [|done..]. apply set_epoch_ok; [done|]. assert (1 ≤ u64_max) by done. lia.
  - destruct (IH _ H1) as [H2 E2]. split; [done|]. cbv zeta in *. rewrite E2, Ei. done.
Qed.

Lemma parse_slot_epoch_ok s x : parse_slot_epoch s = Some x → 0 ≤ x.1.1 ∧ in_u64 x.2.
Proof.
  unfold parse_slot_epoch. destruct (comment s) as [rest|]; [|done]. simpl. destruct (split_whitespace rest) as [|key [|a [|b parts]]]; try done.
  case_decide; [|done]. destruct (parse_u16 a) as [x1|] eqn:Ea; [|done]. simpl. apply parse_u16_range in Ea. destruct parts as [|c parts].
  - destruct (parse_u64 b) as [e|] eqn:Ee; [|done]. simpl. apply parse_u64_range in Ee. destruct (negb _); [done|]. intros [= <-]. simpl. lia.
  - destruct (parse_u16 b); [|done]. simpl. destruct (parse_u64 c) as [e|] eqn:Ee; [|done]. simpl. apply parse_u64_range in Ee. destruct (_ || _); [done|].
    intros [= <-]. simpl. lia.
Qed.

Lemma parse_prepare_ok now s slot v : parse_prepare now s = Some (slot, v) → slot_in slot ∧ vote_ok v.
Proof.
  unfold parse_prepare. destruct (comment s) as [rest|]; [|done]. simpl. destruct (split_whitespace rest) as [|key [|a [|b [|c [|d ws]]]]]; try done.
  case_decide; [|done]. destruct (parse_u16 a) as [x|] eqn:Ea; [|done]. simpl. apply parse_u16_range in Ea. destruct (negb (slot_ok x)) eqn:Es; [done|].
  destruct (parse_u64 c) as [e|] eqn:Ee; [|done]. simpl. apply parse_u64_range in Ee. destruct (parse_u64 d); [|done]. simpl. case_match; [done|]. intros [= <- <-].
  split; [apply negb_slot_ok; [lia|done]|done].
Qed.

Lemma parse_prepares_ok now text s v : parse_nodes_conf_prepares now text !! s = Some v → slot_in s ∧ vote_ok v.
Proof.
  unfold parse_nodes_conf_prepares. assert (H0 : ∀ s v, (∅ : gmap Z PrepareVote) !! s = Some v → slot_in s ∧ vote_ok v) by (intros ? ?; by rewrite lookup_empty).
  revert H0 s v. generalize (∅ : gmap Z PrepareVote) as m. induction (lines text) as [|l ls IH]; intros m Hm s v; [apply Hm|]. simpl. apply IH. clear s v. intros s v.
  destruct (parse_prepare now l) as [[slot w]|] eqn:E; [|apply Hm]. intros [[<- <-]|[_ ?]]%lookup_insert_Some; [by eapply parse_prepare_ok|by apply Hm].
Qed.

Lemma find_myself_in ip port ls l : find_myself ip port ls = Some l → l ∈ ls.
Proof.
  unfold find_myself. destruct (list_find _ ls) as [[i x]|] eqn:E.
  - intros [= <-]. apply list_find_Some in E as (E & _). by eapply list_elem_of_lookup_2.
  - intros ([j x] & E' & ->)%fmap_Some. apply list_find_Some in E' as (E' & _). by eapply list_elem_of_lookup_2.
Qed.

Lemma max_epoch_range ls : Forall line_ok ls → in_u64 (max_epoch ls).
Proof.
  unfold max_epoch. induction 1 as [|l ls (_ & _ & He & _) Hl IH]; [by vm_compute|]. change (in_u64 (Z.max (l_epoch l) (foldr Z.max 0 (l_epoch <$> ls)))). lia.
Qed.

Lemma head_omap_Some {A B} (f : A → option B) l b : head (omap f l) = Some b → ∃ a, f a = Some b.
Proof. induction l as [|a l IH]; [done|]. simpl. destruct (f a) eqn:E; [|done]. intros [= <-]. eauto. Qed.

Lemma header_epoch_range text e : parse_nodes_conf_header_epoch text = Some e → in_u64 e.
Proof.
  intros (line & H)%head_omap_Some. destruct (strip_prefix _ _); [|done]. by apply parse_u64_range in H.
Qed.

(** Settings change nothing that the invariant is about but the address of this node. *)
Lemma apply_live_ok fl c : outer_ok c → (∀ p, f_announce_port fl = Some p → in_u16 p) → outer_ok (apply_live fl c).
Proof.
  intros H Hp. destruct fl as [full reads aip aport prio]. unfold apply_live. cbv zeta. simpl in *.
  set (c1 := match full with Some b => set_require_full_coverage b c | None => c end).
  assert (H1 : outer_ok c1) by (unfold c1; destruct full; [by eapply go_ok, outer_goes|done]). clearbody c1.
  set (c2 := match reads with Some b => set_allow_reads_when_down b c1 | None => c1 end).
  assert (H2 : outer_ok c2) by (unfold c2; destruct reads; [by eapply go_ok, outer_goes|done]). clearbody c2.
  set (c3 := match aip with Some ip => set_announce_ip (if decide (ip = []) then None else Some ip) c2 | None => c2 end).
  assert (H3 : outer_ok c3) by (unfold c3; destruct aip; [by eapply go_ok, refresh_myself_goes, go_ok, outer_goes|done]). clearbody c3.
  set (c4 := match aport with Some p => set_announce_port (if p =? 0 then None else Some p) c3 | None => c3 end).
  assert (H4 : outer_ok c4).
  { unfold c4. destruct aport as [p|]; [|done]. eapply go_ok, refresh_myself_goes. split; [apply H3|]. simpl. intros q. destruct (p =? 0); [done|]. simpl.
    destruct (0 <? p); [|done]. intros [= <-]. by apply Hp. }
  clearbody c4. destruct prio; [|done]. split; [apply set_local_repl_priority_ok, H4|apply H4].
Qed.

Lemma flag_port_range text p : f_announce_port (parse_nodes_conf_live_flags text) = Some p → in_u16 p.
Proof.
  unfold parse_nodes_conf_live_flags. assert (H0 : ∀ p, f_announce_port (mkFlags None None None None None) = Some p → in_u16 p) by done.
  revert H0 p. generalize (mkFlags None None None None None) as fl. induction (lines text) as [|l ls IH]; intros fl Hf p; [apply Hf|]. simpl. apply IH. clear p IH.
  intros p. unfold parse_flag_line. destruct (comment l) as [rest|]; [|apply Hf]. case_decide; [apply Hf|]. destruct (split_space rest) as [key after]. cbv zeta.
  repeat case_decide; simpl; try apply Hf; [by intros [= <-]|]. destruct (parse_u16 (trim after)) as [q|] eqn:E; simpl; [|apply Hf]. intros [= <-]. by eapply parse_u16_range.
Qed.

(** A node loaded from a file has the invariant, whatever the file says. *)
Lemma from_nodes_conf_ok now t ip port text c : in_u16 port → from_nodes_conf now t ip port text = Ok c → outer_ok c.
Proof.
  intros Hp. unfold from_nodes_conf, parse_nodes_conf_lines. destruct (parse_lines_from 0 (lines text)) as [ls|] eqn:El; [|done]. simpl.
  apply parse_lines_ok in El. case_decide; [done|]. destruct (find_myself ip port ls) as [l|] eqn:Ef; [|done]. intros [= <-].
  apply find_myself_in in Ef. rewrite Forall_forall in El. pose proof (El l Ef) as (Hid & _). rewrite <- Forall_forall in El.
  pose proof (with_identity_ok ip port (l_id l) (l_master l) (l_master_id l) false Hid Hp) as H0. set (c0 := with_identity _ _ _ _ _ _) in *.
  set (e := Z.max _ 1). assert (He : 1 ≤ e ≤ u64_max).
  { unfold e. assert (in_u64 (default (max_epoch ls) (parse_nodes_conf_header_epoch text))); [|assert (1 ≤ u64_max) by done; lia].
    destruct (parse_nodes_conf_header_epoch text) eqn:E; simpl; [by eapply header_epoch_range|by apply max_epoch_range]. }
  destruct (load_node_lines_ok t e ls (set_epoch (inner c0) e)) as (H1 & Ec & Ei); [|done|simpl; lia|].
  { split; [|done..]. apply set_epoch_ok; [apply H0|]. simpl. lia. }
  destruct (load_slot_epochs_ok (parse_nodes_conf_slot_epochs text) _ H1) as [H2 E2].
  { apply Forall_forall. intros x (s & Hs & Hx)%list_elem_of_omap. by eapply parse_slot_epoch_ok. }
  apply apply_live_ok; [|apply flag_port_range]. split; [|apply H0]. apply set_prepare_ok; [apply H2|]. intros s v.
  rewrite lookup_union_Some_raw. intros [Hv|[_ Hv]]; [by eapply parse_prepares_ok|by apply (ok_votes _ (ld_ok _ H2))].
Qed.

Lemma load_or_single_node_ok nanos now t ip port file : in_u16 port → outer_ok (load_or_single_node nanos now t ip port file).
Proof.
  intros Hp. unfold load_or_single_node. destruct file as [text|]; [|by apply single_node_ok].
  destruct (from_nodes_conf now t ip port text) eqn:E; [by eapply from_nodes_conf_ok|by apply single_node_ok].
Qed.
