(* ===== verification/ClusterMerge.v ===== *)
(** * Merging what a peer says about the slots

    The ranges of a snapshot are the runs of the table; sent as a reply, parsed and merged, they make of
    each slot the newer of two records. *)

From S2P Require Import Prelude RustStd Resp Reply Text HashSlot ClusterState ClusterConf ClusterGossip ClusterFacts ClusterEpochs ClusterRun.
From Stdlib Require Import Lia.
Local Open Scope Z_scope.

#[local] Opaque Z.to_nat.

(** ** Runs *)

Section runs.
Context {A : Type} `{!EqDecision A}.

Definition in_run (r : Z * Z * A) (i : Z) : Prop := r.1.1 ≤ i ≤ r.1.2.

(** The runs from an open one on: they start at [start], and every index of the rest is in one run,
    which has its element. *)
Lemma runs_from_bounds start slot (cur : A) l r :
  start < slot → r ∈ runs_from start slot cur l → start ≤ r.1.1 ≤ r.1.2 ∧ r.1.2 < slot + Z.of_nat (length l).
Proof.
  revert start slot cur. induction l as [|x l IH]; intros start slot cur Hs; simpl.
  - intros ->%list_elem_of_singleton. simpl. lia.
  - case_decide.
    + intros Hr%IH; [|lia]. lia.
    + intros [->|Hr]%elem_of_cons; [simpl; lia|]. apply IH in Hr; [|lia]. lia.
Qed.

Lemma runs_from_find start slot (cur : A) l i :
  start < slot → start ≤ i < slot + Z.of_nat (length l) →
  ∃ pre r post, runs_from start slot cur l = pre ++ r :: post ∧ in_run r i ∧
    r.2 = (if i <? slot then cur else default cur (l !! Z.to_nat (i - slot))) ∧
    (∀ r', r' ∈ pre ++ post → ¬ in_run r' i).
Proof.
  revert start slot cur. induction l as [|x l IH]; intros start slot cur Hs Hi; simpl in *.
  - exists [], (start, slot - 1, cur), []. split_and!; [done|unfold in_run; simpl; lia| |by intros ? ?%not_elem_of_nil].
    destruct (Z.ltb_spec i slot); [done|lia].
  - case_decide as E.
    + subst x. destruct (IH start (slot + 1) cur) as (pre & r & post & -> & Hr & Ex & Hn); [lia..|]. exists pre, r, post. split_and!; try done.
      rewrite Ex. destruct (Z.ltb_spec i (slot + 1)), (Z.ltb_spec i slot); try lia; try done.
      * assert (i = slot) as -> by lia. by rewrite Z.sub_diag.
      * replace (Z.to_nat (i - slot)) with (S (Z.to_nat (i - (slot + 1)))) by lia. done.
    + destruct (Z.ltb_spec i slot) as [Hlt|Hge].
      * exists [], (start, slot - 1, cur), (runs_from slot (slot + 1) x l). split_and!; [done|unfold in_run; simpl; lia|done|].
        intros r' Hr'. simpl in Hr'. apply runs_from_bounds in Hr'; [|lia]. unfold in_run. lia.
      * destruct (IH slot (slot + 1) x) as (pre & r & post & -> & Hr & Ex & Hn); [lia..|]. exists ((start, slot - 1, cur) :: pre), r, post. split_and!; try done.
        -- rewrite Ex. destruct (Z.ltb_spec i (slot + 1)).
           ++ assert (i = slot) as -> by lia. by rewrite Z.sub_diag.
           ++ replace (Z.to_nat (i - slot)) with (S (Z.to_nat (i - (slot + 1)))) by lia. simpl.
              destruct (l !! Z.to_nat (i - (slot + 1))) eqn:El; [done|]. apply lookup_ge_None in El. lia.
        -- intros r' [->|Hr']%elem_of_cons; [unfold in_run; simpl; lia|]. by apply Hn.
Qed.

Lemma runs_bounds (l : list A) r : r ∈ runs l → 0 ≤ r.1.1 ≤ r.1.2 ∧ r.1.2 < Z.of_nat (length l).
Proof. destruct l as [|x l]; [by intros ?%not_elem_of_nil|]. intros Hr%runs_from_bounds; [|lia]. simpl. lia. Qed.

(** Every index is in exactly one run, and the run has its element. *)
Lemma runs_find (l : list A) i x :
  l !! i = Some x → ∃ pre r post, runs l = pre ++ r :: post ∧ in_run r (Z.of_nat i) ∧ r.2 = x ∧ ∀ r', r' ∈ pre ++ post → ¬ in_run r' (Z.of_nat i).
Proof.
  intros Hi. pose proof (lookup_lt_Some _ _ _ Hi) as Hl. destruct l as [|y l]; [done|]. simpl in Hl.
  destruct (runs_from_find 0 1 y l (Z.of_nat i)) as (pre & r & post & E & Hr & Ex & Hn); [lia..|]. exists pre, r, post. split_and!; try done.
  rewrite Ex. destruct (Z.ltb_spec (Z.of_nat i) 1).
  - assert (i = 0%nat) as -> by lia. by injection Hi.
  - destruct i as [|i]; [lia|]. simpl in Hi. replace (Z.to_nat (Z.of_nat (S i) - 1)) with i by lia. by rewrite Hi.
Qed.

Lemma runs_elem (l : list A) r : r ∈ runs l → r.2 ∈ l.
Proof.
  destruct l as [|x l]; [by intros ?%not_elem_of_nil|]. simpl. intros Hr. assert (H : ∀ start slot (cur : A) l, r ∈ runs_from start slot cur l → r.2 = cur ∨ r.2 ∈ l).
  { clear. intros start slot cur l. revert start slot cur. induction l as [|x l IH]; intros start slot cur; simpl; [intros ->%list_elem_of_singleton; by left|].
    case_decide; [intros [?|?]%IH; [by left|right; by right]|]. intros [->|[->|?]%IH]%elem_of_cons; [by left|right; left|right; by right]. }
  apply H in Hr as [->|?]; [left|by right].
Qed.
End runs.

(** ** Strings on the wire *)

(** A string of Unicode scalar values: what [String] can hold. *)
Definition valid_str (s : Str) : Prop := from_utf8 (as_bytes s) = Some s.

Lemma valid_lossy s : valid_str s → from_utf8_lossy (as_bytes s) = s.
Proof. intros H. by apply utf8_exact in H as [? _]. Qed.

Lemma bulk_field_str w s : valid_str s → bulk_field w (bulk_str s) = Ok s.
Proof. intros H. unfold bulk_field, bulk_str. simpl. by rewrite valid_lossy. Qed.
Lemma u16_field_int w n : in_u16 n → u16_field w (Integer n) = Ok n.
Proof. intros [H1 H2]. unfold u16_field. apply Z.leb_le in H1, H2. by rewrite H1, H2. Qed.
Lemma u64_field_int w n : 0 ≤ n ≤ i64_max → u64_field w (as_i64 n) = Ok n.
Proof.
  intros H. unfold u64_field, as_i64. rewrite wrap_i64_id by (unfold i64_min; lia). rewrite (proj2 (Z.leb_le 0 n)) by lia.
  rewrite wrap_u64_id; [done|]. assert (i64_max ≤ u64_max) by (by vm_compute). lia.
Qed.

Definition range_sendable (r : OwnershipRange) : Prop :=
  in_u16 (or_start r) ∧ in_u16 (or_end r) ∧ valid_str (or_owner_id r) ∧ valid_str (or_ip r) ∧ in_u16 (or_port r) ∧ 0 ≤ or_epoch r ≤ i64_max.

Lemma parse_owners_row_roundtrip r : range_sendable r → parse_owners_row (owners_row r) = Ok r.
Proof.
  intros (H1 & H2 & H3 & H4 & H5 & H6). unfold owners_row, parse_owners_row. rewrite !u16_field_int, !bulk_field_str, u64_field_int by done. simpl. by destruct r.
Qed.

Lemma parse_rows_map {B} (f : RespValue → result Str B) g (l : list B) : Forall (λ x, f (g x) = Ok x) l → parse_rows f (g <$> l) = Ok l.
Proof. induction 1 as [|x l Hx Hl IH]; [done|]. rewrite fmap_cons. cbn [parse_rows]. by rewrite Hx, IH. Qed.

(** ** Snapshots *)

(** What other nodes can learn from a state: its strings and epochs fit the wire, its nodes have
    addresses. *)
Record sendable (g : Inner) : Prop := {
  sd_nodes : ∀ id n, nodes g !! id = Some n → valid_str id ∧ valid_str (n_ip n) ∧ n_ip n ≠ [] ∧ n_port n ≠ 0;
  sd_epoch : current_epoch g ≤ i64_max
}.

Definition snapshot_range (g : Inner) (x : Z * Z * (Str * Z)) : OwnershipRange :=
  mkRange x.1.1 x.1.2 x.2.1 (node_addr g x.2.1).1 (node_addr g x.2.1).2 x.2.2.

Lemma ownership_snapshot_eq g : ownership_snapshot g = snapshot_range g <$> runs (zip (slot_owner g) (slot_config_epoch g)).
Proof. unfold ownership_snapshot. apply list_fmap_ext. intros i [[a b] [o e]] _. unfold snapshot_range. simpl. by destruct (node_addr g o). Qed.

Definition table_at (g : Inner) (s : Z) (o : Str) (e : Z) : Prop := owner_at g s = Some o ∧ epoch_at g s = Some e.

Lemma table_total g s : cluster_ok g → slot_in s → ∃ o e, table_at g s o e.
Proof.
  intros H Hs. destruct (slot_lookup _ s (ok_owners g H) Hs) as [o Ho]. destruct (slot_lookup _ s (ok_epochs g H) Hs) as [e He]. by exists o, e.
Qed.

Lemma zip_table g s o e : table_at g s o e → zip (slot_owner g) (slot_config_epoch g) !! sidx s = Some (o, e).
Proof. intros [Ho He]. apply lookup_zip_with_Some. by exists o, e. Qed.

Lemma snapshot_find g s o e :
  cluster_ok g → slot_in s → table_at g s o e →
  ∃ pre r post, ownership_snapshot g = pre ++ r :: post ∧ covers r s = true ∧ or_owner_id r = o ∧ or_epoch r = e ∧
    or_ip r = (node_addr g o).1 ∧ or_port r = (node_addr g o).2 ∧ Forall (λ r', covers r' s = false) pre ∧ Forall (λ r', covers r' s = false) post.
Proof.
  intros H Hs Ht. destruct (runs_find _ _ _ (zip_table g s o e Ht)) as (pre & r & post & E & Hr & Ex & Hn). rewrite ownership_snapshot_eq, E, fmap_app, fmap_cons.
  assert (Es : Z.of_nat (sidx s) = s) by (unfold sidx, slot_in in *; lia). rewrite Es in *.
  assert (Hc : ∀ x, covers (snapshot_range g x) s = true ↔ in_run x s) by (intros x; unfold covers, in_run; simpl; rewrite andb_true_iff, !Z.leb_le; done).
  exists (snapshot_range g <$> pre), (snapshot_range g r), (snapshot_range g <$> post). destruct r as [[a b] [o' e']]. simpl in Ex. injection Ex as -> ->.
  split_and!; try done; [by apply Hc|..]; apply Forall_fmap, Forall_forall; intros x Hx; simpl; apply not_true_iff_false; rewrite Hc; apply Hn; set_solver.
Qed.

Lemma snapshot_elem g r :
  cluster_ok g → r ∈ ownership_snapshot g →
  0 ≤ or_start r ≤ or_end r ∧ or_end r < SLOT_COUNT ∧ (∃ i, slot_owner g !! i = Some (or_owner_id r)) ∧ (∃ i, slot_config_epoch g !! i = Some (or_epoch r)) ∧
  or_ip r = (node_addr g (or_owner_id r)).1 ∧ or_port r = (node_addr g (or_owner_id r)).2.
Proof.
  intros H. rewrite ownership_snapshot_eq. intros (x & -> & Hx)%list_elem_of_fmap. pose proof (runs_bounds _ _ Hx) as Hb. pose proof (runs_elem _ _ Hx) as He.
  rewrite length_zip_with, (ok_owners g H), (ok_epochs g H) in Hb. apply list_elem_of_lookup in He as [i He]. destruct x as [[a b] [o e]]. simpl in *.
  apply lookup_zip_with_Some in He as (? & ? & [= <- <-] & ? & ?). rewrite Nat.min_id in Hb.
  assert (0 ≤ SLOT_COUNT) by (by vm_compute). rewrite Z2Nat.id in Hb by done. split_and!; eauto; lia.
Qed.

Lemma node_addr_port g o : cluster_ok g → in_u16 (node_addr g o).2.
Proof. intros H. unfold node_addr. destruct (nodes g !! o) eqn:E; simpl; [by apply (no_port _ _ _ (ok_nodes g H o _ E))|by vm_compute]. Qed.

Lemma valid_nil : valid_str [].
Proof. done. Qed.

Lemma snapshot_sendable g : cluster_ok g → sendable g → Forall range_sendable (ownership_snapshot g).
Proof.
  intros H [Hn Hc]. apply Forall_forall. intros r Hr. destruct (snapshot_elem g r H Hr) as (Hb1 & Hb2 & (i & Ho) & (j & He) & Hip & Hport).
  assert (Hs : SLOT_COUNT ≤ u16_max) by (by vm_compute). pose proof (ok_epoch g H j _ He). unfold range_sendable. split_and!; try lia.
  - destruct (ok_known g H i _ Ho) as [->|[n E]]; [apply valid_nil|by apply (Hn _ n E)].
  - rewrite Hip. unfold node_addr. destruct (nodes g !! or_owner_id r) as [n|] eqn:E; [by apply (Hn _ n E)|apply valid_nil].
  - rewrite Hport. by apply node_addr_port.
  - rewrite Hport. by apply node_addr_port.
Qed.

Lemma owners_reply_roundtrip g : cluster_ok g → sendable g → parse_owners_reply (cluster_owners_reply g) = Ok (ownership_snapshot g).
Proof.
  intros H Hs. unfold cluster_owners_reply, parse_owners_reply. apply parse_rows_map. eapply Forall_impl; [by apply snapshot_sendable|].
  intros r. apply parse_owners_row_roundtrip.
Qed.

(** ** Merging a snapshot *)

Lemma grows_refl g : grows g g.
Proof. split; done || lia. Qed.
Lemma grows_trans g1 g2 g3 : grows g1 g2 → grows g2 g3 → grows g1 g3.
Proof. intros [] []. split; try congruence; [lia|auto]. Qed.

Lemma sendable_range_ok r : range_sendable r → range_ok r.
Proof. intros (H1 & _ & _ & _ & H5 & H6). assert (i64_max ≤ u64_max) by (by vm_compute). unfold range_ok. split_and!; lia. Qed.

Lemma apply_ranges_grows t rs g : Forall range_ok rs → cluster_ok g → cluster_ok (apply_ranges t rs g) ∧ grows g (apply_ranges t rs g).
Proof.
  intros Hr. revert g. induction Hr as [|r rs (H0 & Hp & He) Hr IH]; intros g H; [split; [done|apply grows_refl]|]. simpl.
  destruct (apply_range_spec t r g H0 Hp He H) as (H1 & G1 & _). destruct (IH _ H1) as [H2 G2]. split; [done|by eapply grows_trans].
Qed.

Lemma apply_ranges_skip t rs g s :
  Forall range_ok rs → Forall (λ r, covers r s = false) rs → cluster_ok g → slot_in s →
  owner_at (apply_ranges t rs g) s = owner_at g s ∧ epoch_at (apply_ranges t rs g) s = epoch_at g s.
Proof.
  intros Hr Hc. revert g. induction Hr as [|r rs (H0 & Hp & He) Hr IH]; intros g H Hs; [done|]. apply Forall_cons in Hc as [Hc Hcs]. simpl.
  destruct (apply_range_spec t r g H0 Hp He H) as (H1 & _ & Hsl). destruct (IH Hcs _ H1 Hs) as [-> ->]. destruct (Hsl s Hs) as [-> ->]. by rewrite Hc, andb_false_r.
Qed.

(** What a slot becomes when a peer has it with this owner and this epoch. *)
Definition learns (g : Inner) (s : Z) (o : Str) (e : Z) : bool := negb (in_transit g s) && negb (bool_decide (o = [])) && (slot_epoch g s <? e).

Lemma grows_transit g g' s : grows g g' → in_transit g' s = in_transit g s.
Proof. intros [_ E1 E2 _ _ _]. unfold in_transit. by rewrite E1, E2. Qed.

Lemma snapshot_merge_slot t g1 g2 s o e :
  cluster_ok g1 → cluster_ok g2 → sendable g2 → slot_in s → table_at g2 s o e →
  let g' := apply_ranges t (ownership_snapshot g2) g1 in
  owner_at g' s = (if learns g1 s o e then Some o else owner_at g1 s) ∧ epoch_at g' s = (if learns g1 s o e then Some e else epoch_at g1 s).
Proof.
  intros H1 H2 Hsd Hs Ht. pose proof (snapshot_sendable g2 H2 Hsd) as Hall.
  destruct (snapshot_find g2 s o e H2 Hs Ht) as (pre & r & post & E & Hc & Eo & Ee & Eip & Eport & Hpre & Hpost).
  assert (Hb : 0 ≤ or_start r ≤ or_end r ∧ or_end r < SLOT_COUNT) by (destruct (snapshot_elem g2 r H2) as (? & ? & _); [rewrite E; set_solver|done]).
  rewrite E in *. apply Forall_app in Hall as [A1 A2]. apply Forall_cons in A2 as [A2 A3].
  assert (R1 : Forall range_ok pre) by (eapply Forall_impl; [exact A1|apply sendable_range_ok]).
  assert (R3 : Forall range_ok post) by (eapply Forall_impl; [exact A3|apply sendable_range_ok]). pose proof (sendable_range_ok r A2) as (R2 & R4 & R5).
  cbv zeta. unfold apply_ranges. rewrite foldl_app. cbn [foldl]. fold (apply_ranges t pre g1).
  destruct (apply_ranges_grows t pre g1 R1 H1) as [K1 G1]. destruct (apply_ranges_skip t pre g1 s R1 Hpre H1 Hs) as [S1 S2]. set (ga := apply_ranges t pre g1) in *.
  destruct (apply_range_spec t r ga R2 R4 R5 K1) as (K2 & G2 & Hsl). set (gb := (apply_ownership_range t r ga).1) in *. fold (apply_ranges t post gb).
  destruct (apply_ranges_skip t post gb s R3 Hpost K2 Hs) as [-> ->]. destruct (Hsl s Hs) as [-> ->]. rewrite Hc, Eo, Ee, S1, S2, andb_true_r.
  assert (admissible r ga && takes r ga s = learns g1 s o e) as ->; [|done].
  unfold takes, learns, slot_epoch. rewrite (grows_transit g1 ga s G1), S2, Ee. unfold admissible, slot_ok. rewrite Eo, Eip, Eport.
  rewrite (proj2 (Z.ltb_ge (or_end r) (or_start r))), (proj2 (Z.ltb_lt (or_end r) SLOT_COUNT)) by lia. cbn [orb negb andb].
  destruct (bool_decide_reflect (o = [])) as [->|Ho]; cbn [negb andb]; [by rewrite andb_false_r|]. rewrite andb_true_r.
  assert (contains_node o ga || negb (bool_decide ((node_addr g2 o).1 = []) || ((node_addr g2 o).2 =? 0)) = true) as ->; [|done].
  destruct Ht as [Ht _]. destruct (ok_known g2 H2 _ _ Ht) as [?|[n Hn]]; [done|]. destruct (sd_nodes g2 Hsd o n Hn) as (_ & _ & Hip & Hport).
  unfold node_addr. rewrite Hn. simpl. rewrite bool_decide_eq_false_2 by done. rewrite (proj2 (Z.eqb_neq _ _) Hport). by rewrite orb_true_r.
Qed.

(** ** What a peer learns can be learnt from it *)

Lemma first_pong_nodes t id g : nodes (first_pong t id g) = nodes g ∧ current_epoch (first_pong t id g) = current_epoch g.
Proof. unfold first_pong. by destruct (last_pong g !! id). Qed.

Lemma learn_owner_sendable t r g g' :
  range_sendable r → sendable g → learn_owner t r g = Some g' → sendable g'.
Proof.
  intros (_ & _ & H3 & H4 & _ & _) [Hn Hc]. unfold learn_owner. destruct (contains_node (or_owner_id r) g) eqn:E.
  - intros [= <-]. destruct (negb _ && negb _) eqn:Ea; [|done]. apply andb_true_iff in Ea as [Ea%negb_true_iff%bool_decide_eq_false Eb%negb_true_iff%Z.eqb_neq].
    split; [|done]. intros id n. simpl. destruct (decide (id = or_owner_id r)) as [->|]; [rewrite lookup_alter_eq|rewrite lookup_alter_ne by done; apply Hn].
    intros (m & Hm & ->)%fmap_Some. destruct (Hn _ m Hm) as (? & ? & ? & ?). destruct (n_myself m); by split_and!.
  - destruct (_ || _) eqn:Ea; [done|]. apply orb_false_iff in Ea as [Ea%bool_decide_eq_false Eb%Z.eqb_neq]. intros [= <-].
    destruct (first_pong_nodes t (or_owner_id r) (set_nodes g (<[or_owner_id r := mkNode (or_owner_id r) (or_ip r) (or_port r) (sat_add_u16 (or_port r) 10000) false true None false false 0 100]> (nodes g)))) as [En Ec].
    split; [|by rewrite Ec]. rewrite En. simpl. intros id n [[<- <-]|[_ Hx]]%lookup_insert_Some; [by split_and!|by apply Hn].
Qed.

Lemma apply_slots_nodes r l acc : nodes (foldl (apply_slot r) acc l).1 = nodes acc.1 ∧ current_epoch (foldl (apply_slot r) acc l).1 = current_epoch acc.1.
Proof.
  revert acc. induction l as [|s l IH]; intros [g [[a k] j]]; [done|]. cbn [foldl]. destruct (IH (apply_slot r (g, (a, k, j)) s)) as [-> ->].
  unfold apply_slot. by repeat case_match.
Qed.

Lemma apply_range_sendable t r g : range_sendable r → sendable g → sendable (apply_ownership_range t r g).1.
Proof.
  intros Hr Hg. unfold apply_ownership_range. destruct (_ || _); [done|]. case_decide; [done|]. destruct (learn_owner t r g) as [g1|] eqn:E; [|done].
  pose proof (learn_owner_sendable t r g g1 Hr Hg E) as [Hn Hc]. destruct (apply_slots_nodes r (seqZ (or_start r) (or_end r - or_start r + 1)) (g1, (0, 0, 0)%nat)) as [En Ec].
  destruct (foldl (apply_slot r) _ _) as [g2 [[a k] j]]. simpl in En, Ec |- *. destruct Hr as (_ & _ & _ & _ & _ & He).
  destruct (_ && _); (split; [simpl; rewrite En; exact Hn|simpl; lia]).
Qed.

Lemma apply_ranges_sendable t rs g : Forall range_sendable rs → sendable g → sendable (apply_ranges t rs g).
Proof. intros Hr. revert g. induction Hr as [|r rs H1 Hr IH]; intros g Hg; [done|]. simpl. by apply IH, apply_range_sendable. Qed.

Lemma pull_is_merge t g1 g2 :
  cluster_ok g2 → sendable g2 → pull_and_merge_owners t (Some (cluster_owners_reply g2)) g1 = apply_ranges t (ownership_snapshot g2) g1.
Proof. intros H Hs. unfold pull_and_merge_owners. by rewrite owners_reply_roundtrip, merge_snapshot_state. Qed.
