(* ===== verification/ClusterElection.v ===== *)
(** * Failures and elections

    Who is marked as failed, who wins an election, and what two nodes agree on once they exchanged their
    role maps. *)

From S2P Require Import Prelude RustStd Resp Reply Text HashSlot ClusterState ClusterConf ClusterGossip ClusterFacts ClusterEpochs ClusterRun ClusterMerge.
From Stdlib Require Import Lia.
Local Open Scope Z_scope.

(** ** Marking nodes as failed *)

(** A state with more nodes failed, the rest as before. *)
Record fails_more (g g' : Inner) (newly : list Str) : Prop := {
  fm_id : my_id g' = my_id g;
  fm_reports : fail_reports g' = fail_reports g;
  fm_nodes : ∀ id, nodes g' !! id = if bool_decide (id ∈ newly) then (λ n, with_fail n false true) <$> nodes g !! id else nodes g !! id
}.

Lemma fails_more_refl g : fails_more g g [].
Proof. split; [done..|]. intros id. by rewrite bool_decide_eq_false_2 by apply not_elem_of_nil. Qed.

Lemma fails_more_snoc g g' l x : fails_more g g' l → x ∉ l → fails_more g (alter_node (λ n, with_fail n false true) x g') (l ++ [x]).
Proof.
  intros [E1 E2 E3] Hx. split; [done..|]. intros id. simpl. destruct (decide (id = x)) as [->|Hne].
  - rewrite lookup_alter_eq, E3, (bool_decide_eq_false_2 (x ∈ l)), bool_decide_eq_true_2 by (done || set_solver). done.
  - rewrite lookup_alter_ne, E3 by done. assert (bool_decide (id ∈ l ++ [x]) = bool_decide (id ∈ l)) as ->; [|done].
    apply bool_decide_ext. set_solver.
Qed.

Lemma reporter_ok_more g g' l r : fails_more g g' l → reporter_ok g' r = true → reporter_ok g r = true.
Proof. intros [_ _ E]. unfold reporter_ok. rewrite E. destruct (bool_decide _), (nodes g !! r); simpl; try done. by rewrite andb_false_r. Qed.

Lemma votes_more id g g' l : fails_more g g' l → id ∉ l → (votes_against id g' ≤ votes_against id g)%nat.
Proof.
  intros F Hid. pose proof F as [_ Er En]. unfold votes_against. specialize (En id). rewrite bool_decide_eq_false_2 in En by done.
  unfold suspected. rewrite En, Er. apply Nat.add_le_mono_l, map_subseteq_size, map_filter_subseteq_ext.
  intros r x Hx (H1 & H2 & H3). split_and!; try done. by eapply reporter_ok_more.
Qed.

(** The state of the loop: [done] candidates were visited. *)
Record escalating (q : nat) (g : Inner) (visited : list Str) (acc : Inner * list Str) : Prop := {
  es_more : fails_more g acc.1 acc.2;
  es_new : ∀ id, id ∈ acc.2 → id ∈ visited ∧ (q ≤ votes_against id g)%nat ∧ ∃ n, nodes g !! id = Some n ∧ n_fail n = false;
  es_rest : ∀ id n, id ∈ visited → id ∉ acc.2 → nodes g !! id = Some n → n_fail n = false → (votes_against id acc.1 < q)%nat
}.

Lemma escalate_step q g visited acc x :
  x ∉ visited → escalating q g visited acc → escalating q g (visited ++ [x]) (escalate_one q acc x).
Proof.
  intros Hx [F Hn Hr]. destruct acc as [g1 newly]. simpl in *. assert (Hxn : x ∉ newly) by (intros ?%Hn; tauto).
  pose proof (fm_nodes _ _ _ F x) as Ex. rewrite bool_decide_eq_false_2 in Ex by done. unfold escalate_one, node_is_fail. rewrite Ex.
  assert (K : (∀ n, nodes g !! x = Some n → n_fail n = false → (votes_against x g1 < q)%nat) → escalating q g (visited ++ [x]) (g1, newly)).
  { intros Hk. split; simpl; [done| |].
    - intros id Hid. destruct (Hn id Hid) as (? & ? & ?). split_and!; try done. set_solver.
    - intros id n [Hid| ->%list_elem_of_singleton]%elem_of_app Hni; [by apply Hr|]. by apply Hk. }
  destruct (nodes g !! x) as [n|] eqn:En; simpl.
  2: { destruct (_ <=? _)%nat; by apply K. }
  destruct (n_fail n) eqn:Ef; [apply K; intros ? [= <-]; congruence|].
  destruct (Nat.leb_spec q (votes_against x g1)) as [Hq|Hq]; [|apply K; by intros ? [= <-] _]. split; simpl.
  - by apply fails_more_snoc.
  - intros id [Hid| ->%list_elem_of_singleton]%elem_of_app.
    + destruct (Hn id Hid) as (? & ? & ?). split_and!; try done. set_solver.
    + split_and!; [set_solver| |by exists n]. pose proof (votes_more x g g1 newly F Hxn). lia.
  - intros id m [Hid| ->%list_elem_of_singleton]%elem_of_app Hni Hm Hf; [|set_solver]. assert (id ∉ newly) by set_solver.
    assert (Hne : id ≠ x) by set_solver. specialize (Hr id m Hid ltac:(done) Hm Hf). eapply Nat.le_lt_trans; [|exact Hr].
    apply (votes_more id g1 _ [x]); [|set_solver]. apply (fails_more_snoc g1 g1 []); [apply fails_more_refl|apply not_elem_of_nil].
Qed.

Lemma escalate_all q g l visited acc : NoDup (visited ++ l) → escalating q g visited acc → escalating q g (visited ++ l) (foldl (escalate_one q) acc l).
Proof.
  revert visited acc. induction l as [|x l IH]; intros visited acc Hd H; [by rewrite app_nil_r|]. cbn [foldl].
  replace (visited ++ x :: l) with ((visited ++ [x]) ++ l) in * by (by rewrite <- app_assoc). apply IH; [done|]. apply escalate_step; [|done].
  apply NoDup_app in Hd as (Hd & _ & _). apply NoDup_app in Hd as (_ & Hd & _). intros Hx. apply (Hd x Hx). by left.
Qed.

Lemma quorum_positive g : (1 ≤ fail_quorum_size g)%nat.
Proof. unfold fail_quorum_size. case_match; lia. Qed.

Lemma elem_of_fail_candidates g id :
  cluster_ok g → id ≠ my_id g → suspected id g = true ∨ (∃ r x, fail_reports g !! r = Some x ∧ id ∈ x) → id ∈ fail_candidates g.
Proof.
  intros H Hid Hs. unfold fail_candidates. rewrite elem_of_difference, not_elem_of_singleton, elem_of_union, elem_of_list_to_set, elem_of_union_list. split; [|done].
  destruct Hs as [Hs|(r & x & Hr & Hx)]; [left|right].
  - unfold suspected in Hs. destruct (nodes g !! id) as [n|] eqn:E; [|done]. destruct (ok_nodes g H id n E) as [En Em _ _ _].
    apply list_elem_of_fmap. exists (id, n). split; [done|]. apply elem_of_map_to_list, map_lookup_filter_Some. split; [done|]. split; [|done]. simpl.
    by rewrite Em, bool_decide_eq_false_2.
  - exists x. split; [|done]. apply list_elem_of_fmap. exists (r, x). split; [done|]. by apply elem_of_map_to_list.
Qed.

Lemma no_votes_against id g : suspected id g = false → (¬ ∃ r x, fail_reports g !! r = Some x ∧ id ∈ x) → votes_against id g = 0%nat.
Proof.
  intros Hs Hr. unfold votes_against. rewrite Hs. simpl. apply map_size_empty_iff, map_eq. intros r. rewrite lookup_empty.
  apply map_lookup_filter_None. right. intros x Hx (_ & _ & Hid). apply Hr. eauto.
Qed.

Section iteration.
Context {CO : ClusterOrder} {CL : ClusterOrderLaws}.

Lemma escalate_fails_spec g : escalating (fail_quorum_size g) g (id_iter (fail_candidates g)) (escalate_fails g).
Proof.
  apply (escalate_all _ g (id_iter (fail_candidates g)) [] (g, [])); [cbn [app]; rewrite id_iter_perm; apply NoDup_elements|]. split; simpl; [apply fails_more_refl|..].
  - by intros id ?%not_elem_of_nil.
  - by intros id n ?%not_elem_of_nil.
Qed.

(** A node that is left unmarked has less than a quorum against it. *)
Lemma escalated_rest g id n :
  cluster_ok g → id ≠ my_id g → nodes g !! id = Some n → node_is_fail id (escalate_fails g).1 = false →
  (votes_against id (escalate_fails g).1 < fail_quorum_size g)%nat.
Proof.
  intros H Hne Hn Hf. destruct (escalate_fails_spec g) as [F Hnew Hr]. pose proof (fm_nodes _ _ _ F id) as E. unfold node_is_fail in Hf. rewrite E, Hn in Hf.
  destruct (bool_decide_reflect (id ∈ (escalate_fails g).2)) as [|Hni]; [done|]. simpl in Hf.
  destruct (decide (id ∈ fail_candidates g)) as [Hc|Hc]; [apply (Hr id n); [by apply elem_of_id_iter|done..]|].
  assert (Hz : votes_against id g = 0%nat).
  { apply no_votes_against.
    - destruct (suspected id g) eqn:Es; [|done]. destruct Hc. apply elem_of_fail_candidates; auto.
    - intros Hx. destruct Hc. apply elem_of_fail_candidates; auto. }
  pose proof (votes_more id g _ _ F Hni). pose proof (quorum_positive g). lia.
Qed.

(** ** Elections *)

Definition replica_at (g : Inner) (m id : Str) : Prop := ∃ n, nodes g !! id = Some n ∧ n_master n = false ∧ n_master_id n = Some m.

Lemma elem_of_node_values g n : cluster_ok g → n ∈ node_values g ↔ nodes g !! n_id n = Some n.
Proof.
  intros H. unfold node_values. rewrite list_elem_of_fmap. split.
  - intros ([k m] & -> & Hx). rewrite node_iter_perm in Hx. apply elem_of_map_to_list in Hx. simpl. by rewrite (no_id _ _ _ (ok_nodes g H k m Hx)).
  - intros Hn. exists (n_id n, n). split; [done|]. rewrite node_iter_perm. by apply elem_of_map_to_list.
Qed.

Lemma elem_of_dedup l x : x ∈ dedup l ↔ x ∈ l.
Proof.
  induction l as [|a l IH]; [done|]. destruct l as [|b l]; [done|]. change (dedup (a :: b :: l)) with (if decide (a = b) then dedup (b :: l) else a :: dedup (b :: l)).
  case_decide as E; [subst a|]; rewrite ?elem_of_cons, IH; rewrite ?elem_of_cons; tauto.
Qed.

Lemma elem_of_replicas g m id : cluster_ok g → id ∈ replicas_of m g ↔ replica_at g m id ∧ node_is_fail id g = false.
Proof.
  intros H. unfold replicas_of, sort_strings. rewrite elem_of_dedup, merge_sort_Permutation, list_elem_of_fmap. unfold replica_at, node_is_fail. split.
  - intros (n & -> & Hn). apply list_elem_of_filter in Hn as [(Hf & Hm & Hi) Hn]. apply elem_of_node_values in Hn; [|done]. rewrite Hn. split; [by exists n|done].
  - intros [(n & Hn & Hm & Hi) Hf]. rewrite Hn in Hf. pose proof (no_id _ _ _ (ok_nodes g H id n Hn)) as En. exists n. split; [done|]. apply list_elem_of_filter.
    split; [done|]. apply elem_of_node_values; [done|]. by rewrite En.
Qed.

Definition rank (g : Inner) (id : Str) : Z * (Z * Str) := ((pri_off g id).1, ((pri_off g id).2, id)).

Lemma cmp_candidates_rank g a b : cmp_candidates g a b = cmp_lex Z.compare (cmp_lex Z.compare (cmp_list Z.compare)) (rank g a) (rank g b).
Proof. done. Qed.

Lemma max_by_spec {A} (cmp : A → A → comparison) l m :
  TotalCmp cmp → max_by cmp l = Some m → m ∈ l ∧ ∀ x, x ∈ l → cmp x m ≠ Gt.
Proof.
  intros Hc. unfold max_by. set (f := λ (best : option A) x, match best with None => Some x | Some b => match cmp b x with Gt => Some b | _ => Some x end end).
  assert (K : ∀ l b m, foldl f (Some b) l = Some m → (m = b ∨ m ∈ l) ∧ cmp b m ≠ Gt ∧ ∀ x, x ∈ l → cmp x m ≠ Gt).
  { induction l0 as [|x l0 IH]; intros b m0; simpl.
    - intros [= <-]. split_and!; [by left|by rewrite (cmp_refl cmp)|by intros ? ?%not_elem_of_nil].
    - destruct (cmp b x) eqn:E; intros Hm; apply IH in Hm as (Hin & Hb & Hall).
      1-2: split_and!; [destruct Hin as [->|?]; [right; left|right; by right]|apply (cmp_le_trans cmp b x m0); [by rewrite E|done]|].
      1-2: intros y [->|Hy]%elem_of_cons; [done|by apply Hall].
      split_and!; [destruct Hin as [->|?]; [by left|right; by right]|done|]. intros y [->|Hy]%elem_of_cons; [|by apply Hall].
      apply (cmp_le_trans cmp x b m0); [|done]. rewrite (cmp_flip cmp b x), E. done. }
  destruct l as [|x l]; [done|]. simpl. intros Hm. apply K in Hm as (Hin & Hb & Hall). split; [destruct Hin as [->|?]; [left|by right]|].
  intros y [->|Hy]%elem_of_cons; [done|by apply Hall].
Qed.

#[export] Instance cmp_candidates_total g : TotalCmp (cmp_candidates g).
Proof.
  pose proof (_ : TotalCmp (cmp_lex Z.compare (cmp_lex Z.compare (cmp_list Z.compare)))) as [R F T].
  split; intros; rewrite ?cmp_candidates_rank in *; [apply R|apply F|by eapply T].
Qed.

(** Candidates of an election: live replicas that may be promoted. *)
Definition eligible (g : Inner) (m id : Str) : Prop := replica_at g m id ∧ node_is_fail id g = false ∧ 0 < (pri_off g id).1.

(** The winner is a candidate, and no candidate has a higher priority, or the same and a higher offset,
    or the same and a greater id. *)
Lemma winner_spec m g w :
  cluster_ok g → failover_election_winner m g = Some w → eligible g m w ∧ ∀ x, eligible g m x → cmp_candidates g x w ≠ Gt.
Proof.
  intros H. unfold failover_election_winner. destruct (is_replica_of m g) eqn:Er; [|done]. simpl.
  assert (Hme : my_id g ∈ replicas_of m g).
  { apply elem_of_replicas; [done|]. unfold is_replica_of, me in Er. destruct (nodes g !! my_id g) as [n|] eqn:En; [|done].
    apply andb_true_iff in Er as [Em%negb_true_iff Ei%bool_decide_eq_true]. split; [by exists n|]. unfold node_is_fail. rewrite En.
    by apply (no_me _ _ _ (ok_nodes g H _ n En)). }
  rewrite decide_False by (intros E; rewrite E in Hme; by apply not_elem_of_nil in Hme). case_decide; [done|]. intros Hw. apply max_by_spec in Hw as [Hin Hall]; [|apply _].
  assert (K : ∀ x, x ∈ filter (λ id, 0 < (pri_off g id).1) (replicas_of m g) ↔ eligible g m x).
  { intros x. rewrite list_elem_of_filter, elem_of_replicas by done. unfold eligible. tauto. }
  split; [by apply K|]. intros x Hx. apply Hall. by apply K.
Qed.

(** Two nodes that see the same candidates with the same ranks elect the same winner. *)
Lemma same_winner m g1 g2 w1 w2 :
  cluster_ok g1 → cluster_ok g2 → (∀ id, eligible g1 m id ↔ eligible g2 m id) → (∀ id, eligible g1 m id → pri_off g1 id = pri_off g2 id) →
  failover_election_winner m g1 = Some w1 → failover_election_winner m g2 = Some w2 → w1 = w2.
Proof.
  intros H1 H2 He Hp E1 E2. apply winner_spec in E1 as [A1 B1]; [|done]. apply winner_spec in E2 as [A2 B2]; [|done].
  pose proof (B1 w2 (proj2 (He w2) A2)) as C1. pose proof (B2 w1 (proj1 (He w1) A1)) as C2. rewrite cmp_candidates_rank in C1, C2.
  assert (R : ∀ id, eligible g1 m id → rank g2 id = rank g1 id) by (intros id Hid; unfold rank; by rewrite <- Hp).
  rewrite (R w1 A1), (R w2 (proj2 (He w2) A2)) in C2.
  assert (E : cmp_lex Z.compare (cmp_lex Z.compare (cmp_list Z.compare)) (rank g1 w1) (rank g1 w2) = Eq).
  { rewrite (cmp_flip (cmp_lex Z.compare (cmp_lex Z.compare (cmp_list Z.compare)))) in C1. by destruct (cmp_lex _ _ (rank g1 w1) (rank g1 w2)). }
  apply cmp_eq in E. by injection E.
Qed.
End iteration.

(** ** Exchanging role maps

    After two nodes pulled each other's role maps they agree on who replicates whom and on the ranks of
    an election. *)

(** ** Merging entries *)

Definition entry_master (e : RoleMapEntry) : option Str := if rm_master e || bool_decide (rm_master_id e = []) then None else Some (rm_master_id e).

(** The node an entry makes of what was known of it. *)
Definition merged_node (old : option ClusterNode) (e : RoleMapEntry) : ClusterNode :=
  mkNode (rm_id e) (rm_ip e) (rm_port e) (sat_add_u16 (rm_port e) 10000) false (rm_master e) (entry_master e)
    (default false (n_pfail <$> old)) (default false (n_fail <$> old)) (rm_repl_offset e) (rm_repl_priority e).

(** What merging role maps leaves alone. *)
Record same_self (g g' : Inner) : Prop := {
  sf_id : my_id g' = my_id g;
  sf_priority : local_repl_priority g' = local_repl_priority g;
  sf_offset : local_repl_offset g' = local_repl_offset g
}.

Lemma merge_role_spec t g e :
  same_self g (merge_role t g e) ∧
  ∀ id, nodes (merge_role t g e) !! id = if decide (id = rm_id e ∧ rm_id e ≠ my_id g) then Some (merged_node (nodes g !! id) e) else nodes g !! id.
Proof.
  unfold merge_role. case_decide as E; [split; [done|]; intros id; by rewrite decide_False by tauto|].
  unfold add_node_with_role. rewrite decide_False by done. set (g1 := set_nodes g _).
  assert (En : ∀ x, nodes (alter_node (λ n, with_repl n (rm_repl_offset e) (rm_repl_priority e)) (rm_id e) (first_pong t (rm_id e) g1)) !! x =
    alter (λ n, with_repl n (rm_repl_offset e) (rm_repl_priority e)) (rm_id e) (nodes g1) !! x) by (intros x; simpl; by destruct (first_pong_nodes t (rm_id e) g1) as [-> _]).
  split; [by unfold first_pong; destruct (last_pong _ !! _); split|]. intros id. rewrite En. unfold g1. simpl. destruct (decide (id = rm_id e)) as [->|Hne].
  - rewrite lookup_alter_eq, lookup_insert_eq, decide_True by done. done.
  - rewrite lookup_alter_ne, lookup_insert_ne, decide_False by (done || tauto). done.
Qed.

Lemma merge_role_map_spec t es g :
  NoDup (rm_id <$> es) →
  same_self g (merge_role_map t es g) ∧
  (∀ id, id = my_id g ∨ id ∉ rm_id <$> es → nodes (merge_role_map t es g) !! id = nodes g !! id) ∧
  (∀ e, e ∈ es → rm_id e ≠ my_id g → nodes (merge_role_map t es g) !! rm_id e = Some (merged_node (nodes g !! rm_id e) e)).
Proof.
  unfold merge_role_map. revert g. induction es as [|x es IH]; intros g Hd; [split_and!; [done..|by intros e ?%not_elem_of_nil]|].
  rewrite fmap_cons in Hd |- *. apply NoDup_cons in Hd as [Hx Hd]. cbn [foldl]. destruct (merge_role_spec t g x) as [[I1 I2 I3] Hn].
  destruct (IH (merge_role t g x) Hd) as ([J1 J2 J3] & K1 & K2). rewrite I1 in *. split_and!.
  - split; congruence.
  - intros id Hid. rewrite K1 by set_solver. rewrite Hn. rewrite decide_False; [done|]. intros [-> ?]. destruct Hid as [?|Hid]; [done|set_solver].
  - intros e [->|He]%elem_of_cons Hm.
    + rewrite K1 by tauto. rewrite Hn, decide_True by done. done.
    + rewrite (K2 e He Hm), Hn, decide_False; [done|]. intros [Ee _]. apply Hx. rewrite <- Ee. by apply list_elem_of_fmap_2.
Qed.

(** ** The wire *)

Definition entry_sendable (e : RoleMapEntry) : Prop :=
  valid_str (rm_id e) ∧ valid_str (rm_master_id e) ∧ rm_master_id e ≠ str "-" ∧ valid_str (rm_ip e) ∧ in_u16 (rm_port e) ∧
  0 ≤ rm_repl_offset e ≤ i64_max ∧ 0 ≤ rm_repl_priority e ≤ u32_max.

Lemma parse_rolemap_row_roundtrip e : entry_sendable e → parse_rolemap_row (rolemap_row e) = Ok e.
Proof.
  intros (H1 & H2 & H3 & H4 & H5 & H6 & H7). unfold rolemap_row, parse_rolemap_row. cbv zeta. rewrite (bulk_field_str _ (rm_id e)) by done. cbn [mbind result_bind].
  assert (Hr : ∀ w, bulk_field w (bulk_str (if rm_master e then str "master" else str "slave")) = Ok (if rm_master e then str "master" else str "slave"))
    by (intros w; apply bulk_field_str; by destruct (rm_master e)).
  rewrite Hr. cbn [mbind result_bind].
  assert (Hm : ∀ w, bulk_field w (bulk_str (if decide (rm_master_id e = []) then str "-" else rm_master_id e)) = Ok (if decide (rm_master_id e = []) then str "-" else rm_master_id e))
    by (intros w; apply bulk_field_str; by case_decide).
  rewrite Hm. cbn [mbind result_bind]. rewrite (bulk_field_str _ (rm_ip e)), u16_field_int by done. cbn [mbind result_bind]. unfold as_i64.
  rewrite wrap_i64_id by (unfold i64_min; lia). rewrite (proj2 (Z.leb_le 0 (rm_repl_offset e))) by lia.
  rewrite wrap_u64_id by (assert (i64_max ≤ u64_max) by (by vm_compute); lia).
  rewrite (proj2 (Z.leb_le 0 (rm_repl_priority e))), (proj2 (Z.leb_le (rm_repl_priority e) u32_max)) by lia. cbn [andb].
  assert (bool_decide (to_ascii_lowercase (if rm_master e then str "master" else str "slave") = str "master") = rm_master e) as -> by (by destruct (rm_master e)).
  assert ((if decide ((if decide (rm_master_id e = []) then str "-" else rm_master_id e) = str "-") then [] else if decide (rm_master_id e = []) then str "-" else rm_master_id e) = rm_master_id e) as ->.
  { destruct (decide (rm_master_id e = [])) as [->|]; [by rewrite decide_True|by rewrite decide_False]. }
  by destruct e.
Qed.

(** ** What a node tells *)

Record roles_sendable (g : Inner) : Prop := {
  rs_nodes : ∀ id n, nodes g !! id = Some n →
    valid_str id ∧ valid_str (n_ip n) ∧ (∀ m, n_master_id n = Some m → valid_str m ∧ m ≠ str "-") ∧
    0 ≤ n_repl_offset n ≤ i64_max ∧ 0 ≤ n_repl_priority n ≤ u32_max;
  rs_offset : 0 ≤ local_repl_offset g ≤ i64_max;
  rs_priority : 0 ≤ local_repl_priority g ≤ u32_max
}.

Lemma entry_of_node g id n : cluster_ok g → roles_sendable g → nodes g !! id = Some n → rm_id (role_entry g n) = id ∧ entry_sendable (role_entry g n).
Proof.
  intros H [Hs Ho Hp] Hn. destruct (ok_nodes g H id n Hn) as [E1 E2 _ Hport _]. destruct (Hs id n Hn) as (V1 & V2 & V3 & V4 & V5).
  split; [done|]. unfold entry_sendable, role_entry. simpl. rewrite E1. assert (Hv : valid_str (default [] (n_master_id n)) ∧ default [] (n_master_id n) ≠ str "-").
  { destruct (n_master_id n) as [m|]; [by apply V3|split; [apply valid_nil|done]]. }
  destruct (n_myself n); split_and!; tauto || lia.
Qed.

Section iteration.
Context {CO : ClusterOrder} {CL : ClusterOrderLaws}.

Lemma elem_of_role_map g e : cluster_ok g → e ∈ role_map_snapshot g ↔ ∃ id n, nodes g !! id = Some n ∧ e = role_entry g n.
Proof.
  intros H. unfold role_map_snapshot. rewrite merge_sort_Permutation, list_elem_of_fmap. split.
  - intros (n & -> & Hn). apply elem_of_node_values in Hn; [|done]. by exists (n_id n), n.
  - intros (id & n & Hn & ->). exists n. split; [done|]. apply elem_of_node_values; [done|]. by rewrite (no_id _ _ _ (ok_nodes g H id n Hn)).
Qed.

Lemma node_values_ids g : cluster_ok g → n_id <$> node_values g ≡ₚ (map_to_list (nodes g)).*1.
Proof.
  intros H. unfold node_values. rewrite <- list_fmap_compose. rewrite node_iter_perm. apply Permutation_refl'. apply list_fmap_ext. intros i [k n] Hi.
  apply list_elem_of_lookup_2, elem_of_map_to_list in Hi. simpl. apply (no_id _ _ _ (ok_nodes g H k n Hi)).
Qed.

Lemma role_map_NoDup g : cluster_ok g → NoDup (rm_id <$> role_map_snapshot g).
Proof.
  intros H. unfold role_map_snapshot. rewrite merge_sort_Permutation, <- list_fmap_compose. change (NoDup (n_id <$> node_values g)).
  rewrite node_values_ids by done. apply NoDup_fst_map_to_list.
Qed.

Lemma rolemap_reply_roundtrip g : cluster_ok g → roles_sendable g → parse_rolemap_reply (cluster_rolemap_reply g) = Ok (role_map_snapshot g).
Proof.
  intros H Hs. unfold cluster_rolemap_reply, parse_rolemap_reply. apply parse_rows_map, Forall_forall. intros e He.
  apply elem_of_role_map in He as (id & n & Hn & ->); [|done]. apply parse_rolemap_row_roundtrip. by eapply entry_of_node.
Qed.

(** What a node knows after it pulled the role map of another one. *)
Definition pulled_roles (t : Z) (g2 g1 : Inner) : Inner := pull_and_merge_rolemap t (Some (cluster_rolemap_reply g2)) g1.

Lemma pulled_roles_spec t g2 g1 :
  cluster_ok g2 → roles_sendable g2 →
  let g := pulled_roles t g2 g1 in
  same_self g1 g ∧ (∀ id, id = my_id g1 ∨ nodes g2 !! id = None → nodes g !! id = nodes g1 !! id) ∧
  (∀ id n, nodes g2 !! id = Some n → id ≠ my_id g1 → nodes g !! id = Some (merged_node (nodes g1 !! id) (role_entry g2 n))).
Proof.
  intros H Hs. cbv zeta. unfold pulled_roles, pull_and_merge_rolemap. rewrite rolemap_reply_roundtrip by done.
  destruct (merge_role_map_spec t (role_map_snapshot g2) g1 (role_map_NoDup g2 H)) as (S1 & K1 & K2). split_and!; [done|..].
  - intros id [->|Hid]; [apply K1; by left|]. apply K1. right. intros (e & -> & (x & n & Hn & ->)%elem_of_role_map)%list_elem_of_fmap; [|done].
    destruct (entry_of_node g2 x n H Hs Hn) as [Ex _]. rewrite Ex in Hid. congruence.
  - intros id n Hn Hid. destruct (entry_of_node g2 id n H Hs Hn) as [Ex _]. rewrite <- Ex at 1. rewrite K2; [by rewrite Ex| |by rewrite Ex].
    apply elem_of_role_map; [done|]. by exists id, n.
Qed.

Lemma pulled_roles_ok t g2 g1 : cluster_ok g1 → cluster_ok (pulled_roles t g2 g1).
Proof. intros H. apply pull_rolemap_forward, H. Qed.

Lemma pulled_roles_sendable t g2 g1 : cluster_ok g2 → roles_sendable g1 → roles_sendable g2 → roles_sendable (pulled_roles t g2 g1).
Proof.
  intros H [N1 O1 P1] S2. destruct (pulled_roles_spec t g2 g1 H S2) as ([_ Ep Eo] & K1 & K2). split; [|by rewrite Eo|by rewrite Ep].
  intros id n Hn. destruct (decide (id = my_id g1)) as [->|Hne]; [rewrite K1 in Hn by (by left); by apply N1|].
  destruct (nodes g2 !! id) as [n2|] eqn:E; [|rewrite K1 in Hn by (by right); by apply N1]. rewrite (K2 id n2 E Hne) in Hn. injection Hn as <-.
  destruct (entry_of_node g2 id n2 H S2 E) as [Ei (V1 & V2 & V3 & V4 & _ & V6 & V7)]. unfold merged_node. simpl in *. rewrite Ei in V1. split_and!; try (done || lia).
  intros m. unfold entry_master. destruct (_ || _); [done|]. intros [= <-]. done.
Qed.

(** ** Agreement *)

(** An entry says what it was made from. *)
Lemma replica_merged g id n old m :
  m ≠ [] → nodes g !! id = Some n → (n_master (merged_node old (role_entry g n)) = false ∧ n_master_id (merged_node old (role_entry g n)) = Some m) ↔ replica_at g m id.
Proof.
  intros Hm Hn. unfold replica_at, merged_node, entry_master, role_entry. simpl. split.
  - intros [E1 E2]. rewrite E1 in E2. simpl in E2. destruct (n_master_id n) as [m'|] eqn:E; simpl in E2; [|done].
    case_bool_decide; [done|]. injection E2 as ->. by exists n.
  - intros (n' & Hn' & E1 & E2). simplify_eq. rewrite E1, E2. simpl. by rewrite bool_decide_eq_false_2.
Qed.

Lemma pri_off_merged g id n old :
  cluster_ok g → nodes g !! id = Some n → (n_repl_priority (merged_node old (role_entry g n)), n_repl_offset (merged_node old (role_entry g n))) = pri_off g id.
Proof.
  intros H Hn. unfold pri_off, merged_node, role_entry. simpl. destruct (ok_nodes g H id n Hn) as [_ Em _ _ _]. rewrite Em, Hn.
  case_decide; [by rewrite bool_decide_eq_true_2|by rewrite bool_decide_eq_false_2].
Qed.

Lemma pri_off_other g id n : id ≠ my_id g → nodes g !! id = Some n → pri_off g id = (n_repl_priority n, n_repl_offset n).
Proof. intros Hid Hn. unfold pri_off. by rewrite decide_False, Hn by done. Qed.
Lemma pri_off_self g g' : same_self g g' → pri_off g' (my_id g') = pri_off g (my_id g).
Proof. intros [E1 E2 E3]. unfold pri_off. by rewrite !decide_True, E2, E3 by done. Qed.

(** A node that pulled a role map agrees with its sender on every node the sender knows but itself. *)
Lemma pulled_agrees t g2 g1 id n m :
  cluster_ok g2 → roles_sendable g2 → m ≠ [] → nodes g2 !! id = Some n → id ≠ my_id g1 →
  (replica_at (pulled_roles t g2 g1) m id ↔ replica_at g2 m id) ∧ pri_off (pulled_roles t g2 g1) id = pri_off g2 id.
Proof.
  intros H Hs Hm Hn Hid. destruct (pulled_roles_spec t g2 g1 H Hs) as ([E1 _ _] & _ & K). specialize (K id n Hn Hid). split.
  - rewrite <- (replica_merged g2 id n (nodes g1 !! id) m Hm Hn). unfold replica_at at 1. rewrite K. naive_solver.
  - rewrite <- (pri_off_merged g2 id n (nodes g1 !! id) H Hn). apply pri_off_other; [by rewrite E1|done].
Qed.

(** After an exchange in both directions the two nodes agree on everything an election looks at. *)
Lemma exchange_agrees t t' g1 g2 m id :
  cluster_ok g1 → cluster_ok g2 → roles_sendable g1 → roles_sendable g2 → my_id g1 ≠ my_id g2 → m ≠ [] →
  let g2' := pulled_roles t g1 g2 in let g1' := pulled_roles t' g2' g1 in
  (replica_at g1' m id ↔ replica_at g2' m id) ∧ (replica_at g2' m id → pri_off g1' id = pri_off g2' id).
Proof.
  intros H1 H2 S1 S2 Hne Hm. cbv zeta. set (g2' := pulled_roles t g1 g2). pose proof (pulled_roles_ok t g1 g2 H2) as H2'. pose proof (pulled_roles_sendable t g1 g2 H1 S2 S1) as S2'.
  fold g2' in H2', S2'. destruct (pulled_roles_spec t' g2' g1 H2' S2') as (F1 & K1 & _). set (g1' := pulled_roles t' g2' g1) in *.
  destruct (decide (id = my_id g1)) as [->|Hid].
  - destruct (ok_me g1 H1) as [n Hn]. destruct (pulled_agrees t g1 g2 (my_id g1) n m H1 S1 Hm Hn Hne) as [A1 A2]. fold g2' in A1, A2. split.
    + rewrite A1. unfold replica_at. by rewrite K1 by (by left).
    + intros _. rewrite A2. rewrite <- (sf_id _ _ F1). by rewrite (pri_off_self g1 g1' F1), (sf_id _ _ F1).
  - destruct (nodes g2' !! id) as [n|] eqn:En.
    + destruct (pulled_agrees t' g2' g1 id n m H2' S2' Hm En Hid) as [A1 A2]. split; [done|by intros _].
    + assert (Hg : nodes g1 !! id = None).
      { destruct (nodes g1 !! id) as [n1|] eqn:E1; [|done]. destruct (pulled_roles_spec t g1 g2 H1 S1) as (_ & L1 & L2). fold g2' in L1, L2.
        destruct (decide (id = my_id g2)) as [->|Hid2]; [rewrite L1 in En by (by left); by destruct (ok_me g2 H2); congruence|].
        rewrite (L2 id n1 E1 Hid2) in En. done. }
      unfold replica_at. rewrite K1 by (by right). rewrite Hg, En. split; [|by intros (? & ? & _)]. split; by intros (? & ? & _).
Qed.
End iteration.
