(* ===== verification/ClusterTick.v ===== *)
(** * What a round of gossip does to a node

    A master that is not the largest gives up its slots; a replica that was told of the failure of its
    master is never promoted. *)

From S2P Require Import Prelude RustStd Resp Reply Text HashSlot ClusterState ClusterConf ClusterGossip ClusterBus ClusterFacts ClusterEpochs ClusterRun ClusterMerge ClusterElection.
From Stdlib Require Import Lia.
Local Open Scope Z_scope.

(** ** The largest of the other masters *)

(** A live master with slots that is not this node. *)
Definition rival (g : Inner) (id : Str) : Prop :=
  id ≠ my_id g ∧ (∃ n, nodes g !! id = Some n ∧ n_fail n = false ∧ n_master n = true) ∧ (0 < slots_of id g)%nat.

(** Larger: more slots, or as many and a greater id. *)
Definition larger (g : Inner) (a b : Str) : Prop :=
  (slots_of b g < slots_of a g)%nat ∨ (slots_of a g = slots_of b g ∧ cmp_list Z.compare a b = Gt).

Section node.
Context {CO : ClusterOrder} {CL : ClusterOrderLaws}.

Definition pick_master (g : Inner) (best : option (nat * Str)) (n : ClusterNode) : option (nat * Str) :=
  if n_myself n || n_fail n || negb (n_master n) || bool_decide (n_id n = my_id g) then best else
  let count := slots_of (n_id n) g in
  if (count =? 0)%nat then best else
  match best with
  | None => Some (count, n_id n)
  | Some (c, id) =>
    if (c <? count)%nat || ((count =? c)%nat && bool_decide (cmp_list Z.compare (n_id n) id = Gt)) then Some (count, n_id n) else best
  end.

(** What the loop has found: the count is that of the id, which is a rival, and no visited rival is
    larger. *)
Definition found (g : Inner) (seen : list ClusterNode) (best : option (nat * Str)) : Prop :=
  match best with
  | None => ∀ n, n ∈ seen → ¬ rival g (n_id n)
  | Some (c, id) => c = slots_of id g ∧ rival g id ∧ ∀ n, n ∈ seen → rival g (n_id n) → ¬ larger g (n_id n) id
  end.

Lemma rival_node g n : cluster_ok g → nodes g !! n_id n = Some n →
  rival g (n_id n) ↔ n_myself n || n_fail n || negb (n_master n) || bool_decide (n_id n = my_id g) = false ∧ slots_of (n_id n) g ≠ 0%nat.
Proof.
  intros H Hn. unfold rival. destruct (ok_nodes g H _ n Hn) as [_ Em _ _ _]. rewrite !orb_false_iff, negb_false_iff, bool_decide_eq_false, Em, bool_decide_eq_false. split.
  - intros (H1 & (n' & Hn' & H2 & H3) & H4). simplify_eq. split_and!; try done. lia.
  - intros (((H1 & H2) & H3) & H4). destruct H1 as [H1 H1']. split_and!; [done|by exists n|lia].
Qed.

Lemma larger_trans g a b c : larger g a b → larger g b c → larger g a c.
Proof.
  unfold larger. intros [H1|[E1 C1]] [H2|[E2 C2]]; [left; lia|left; lia|left; lia|right]. split; [lia|].
  rewrite <- (cmp_lt_gt (cmp_list Z.compare)) in C1, C2 |- *. by eapply (cmp_lt_trans (cmp_list Z.compare)).
Qed.
Lemma larger_irrefl g a : ¬ larger g a a.
Proof. intros [?|[_ E]]; [lia|]. by rewrite (cmp_refl (cmp_list Z.compare)) in E. Qed.

Lemma pick_found g seen best n : cluster_ok g → nodes g !! n_id n = Some n → found g seen best → found g (seen ++ [n]) (pick_master g best n).
Proof.
  intros H Hn Hf. pose proof (rival_node g n H Hn) as Hr. unfold pick_master. destruct (_ || bool_decide _) eqn:Eb.
  { assert (Hno : ¬ rival g (n_id n)) by (rewrite Hr; intros [? _]; done). destruct best as [[c id]|]; simpl in *; [destruct Hf as (? & ? & Hf); split_and!; try done|];
      intros x [Hx| ->%list_elem_of_singleton]%elem_of_app; auto. }
  cbv zeta. destruct (Nat.eqb_spec (slots_of (n_id n) g) 0) as [E0|E0].
  { assert (Hno : ¬ rival g (n_id n)) by (rewrite Hr; intros [_ ?]; done). destruct best as [[c id]|]; simpl in *; [destruct Hf as (? & ? & Hf); split_and!; try done|];
      intros x [Hx| ->%list_elem_of_singleton]%elem_of_app; auto. }
  assert (Hyes : rival g (n_id n)) by (by rewrite Hr). clear Hr Eb. destruct best as [[c id]|]; simpl in *.
  - destruct Hf as (-> & Hid & Hf). destruct (_ || _) eqn:El.
    + assert (Hl : larger g (n_id n) id).
      { apply orb_true_iff in El as [El%Nat.ltb_lt|El]; [by left|]. apply andb_true_iff in El as [El%Nat.eqb_eq Ec%bool_decide_eq_true]. by right. }
      split_and!; try done. intros x [Hx| ->%list_elem_of_singleton]%elem_of_app Hrx Hlx; [|by eapply larger_irrefl]. apply (Hf x Hx Hrx). by eapply larger_trans.
    + split_and!; try done. intros x [Hx| ->%list_elem_of_singleton]%elem_of_app Hrx; [by apply Hf|]. apply orb_false_iff in El as [El%Nat.ltb_ge Ec].
      intros [Hl|[Hl Hc]]; [lia|]. rewrite (proj2 (Nat.eqb_eq _ _) Hl), bool_decide_eq_true_2 in Ec by done. done.
  - split_and!; try done. intros x [Hx| ->%list_elem_of_singleton]%elem_of_app Hrx; [by destruct (Hf x Hx)|apply larger_irrefl].
Qed.

Lemma other_master_found g : cluster_ok g → match other_master_with_slots g with
  | Some id => rival g id ∧ ∀ x, rival g x → ¬ larger g x id
  | None => ∀ x, ¬ rival g x
  end.
Proof.
  intros H. assert (K : ∀ l seen best, (∀ n, n ∈ l → nodes g !! n_id n = Some n) → found g seen best → found g (seen ++ l) (foldl (pick_master g) best l)).
  { induction l as [|n l IH]; intros seen best Hl Hf; [by rewrite app_nil_r|]. cbn [foldl]. replace (seen ++ n :: l) with ((seen ++ [n]) ++ l) by (by rewrite <- app_assoc).
    apply IH; [intros x Hx; apply Hl; by right|]. apply pick_found; [done|apply Hl; left|done]. }
  specialize (K (node_values g) [] None). cbn [app] in K. unfold other_master_with_slots. fold (pick_master g).
  assert (Hv : ∀ x, rival g x → ∃ n, n ∈ node_values g ∧ n_id n = x).
  { intros x (_ & (n & Hn & _) & _). pose proof (no_id _ _ _ (ok_nodes g H x n Hn)) as E. exists n. split; [|done]. apply elem_of_node_values; [done|by rewrite E]. }
  destruct (foldl (pick_master g) None (node_values g)) as [[c id]|]; simpl in *.
  - destruct K as (_ & Hr & Hall); [intros n Hn; by apply elem_of_node_values|by intros n ?%not_elem_of_nil|]. split; [done|]. intros x Hx.
    destruct (Hv x Hx) as (n & Hn & <-). by apply Hall.
  - intros x Hx. destruct (Hv x Hx) as (n & Hn & <-). apply (K ltac:(intros m Hm; by apply elem_of_node_values) ltac:(by intros m ?%not_elem_of_nil) n Hn Hx).
Qed.

(** ** After a round *)

Lemma larger_total g a b : a ≠ b → larger g a b ∨ larger g b a.
Proof.
  intros Hne. unfold larger. destruct (Nat.lt_trichotomy (slots_of a g) (slots_of b g)) as [?|[E|?]]; [by right; left| |by left; left].
  destruct (cmp_list Z.compare a b) eqn:Ec.
  - by apply cmp_eq in Ec.
  - right. right. split; [done|]. by rewrite <- (cmp_lt_gt (cmp_list Z.compare)).
  - left. by right.
Qed.

Lemma superseded_larger other g : rival g other → superseded other g = true ↔ larger g other (my_id g).
Proof.
  intros (_ & _ & Hc). unfold superseded, larger. rewrite !orb_true_iff, !andb_true_iff, !Nat.ltb_lt, !Nat.eqb_eq, bool_decide_eq_true. split.
  - intros [[?|?]|[? ?]]; [by left|by right|left; lia].
  - intros [?|?]; [by left; left|by left; right].
Qed.

Lemma alter_me f id g : id ≠ my_id g → me (alter_node f id g) = me g.
Proof. intros Hne. unfold me. simpl. by rewrite lookup_alter_ne. Qed.

(** The node becomes a replica of the other one, which receives its slots. *)
Lemma configured_replica id g g' : cluster_ok g → configure_as_replica_of id g = Ok g' →
  my_id g' = my_id g ∧ is_replica_of id g' = true ∧ slot_owner g' = (λ o, if decide (o = my_id g) then id else o) <$> slot_owner g.
Proof.
  intros H. unfold configure_as_replica_of. destruct (decide (id = my_id g)) as [|Hne]; [done|]. destruct (negb _) eqn:Eb; [done|]. intros [= <-].
  set (ga := if owns_any (my_id g) g then hand_over (my_id g) id (bump g) else g).
  assert (Ei : my_id ga = my_id g) by (unfold ga; by destruct (owns_any _ _)). assert (En : nodes ga = nodes g) by (unfold ga; by destruct (owns_any _ _)).
  split_and!; [done|..].
  - unfold is_replica_of. rewrite alter_me by (cbn; by rewrite Ei). unfold me. cbn. rewrite Ei, En. destruct (ok_me g H) as [n Hn]. rewrite lookup_alter_eq, Hn. cbn. by rewrite bool_decide_eq_true_2.
  - cbn. unfold ga. destruct (owns_any (my_id g) g) eqn:Eo; [done|]. symmetry.
    rewrite <- (list_fmap_id (slot_owner g)) at 2. apply list_fmap_ext. intros i o Ho. cbn. rewrite decide_False; [done|]. by eapply owns_any_false.
Qed.

Lemma followed_master repl id g : cluster_ok g → id ≠ my_id g → is_Some (nodes g !! id) →
  is_replica_of id (follow_new_master repl id g).1 = true ∧
  (is_replica_of id g = false → slot_owner (follow_new_master repl id g).1 = (λ o, if decide (o = my_id g) then id else o) <$> slot_owner g).
Proof.
  intros H Hne Hk. unfold follow_new_master, reconfigure_as_replica_of_failover_winner. rewrite decide_False by done.
  destruct (is_replica_of id g) eqn:Er; [done|]. rewrite bool_decide_eq_true_2 by done. cbn [negb]. set (g1 := alter_node _ id g).
  assert (H1 : cluster_ok g1) by (apply alter_node_ok; [|done]; intros n Hn; apply with_fail_ok; [done|by apply with_role_ok]). destruct (configure_as_replica_of id g1) as [g'|e] eqn:E.
  - destruct (configured_replica id g1 g' H1 E) as (_ & Hr & Hs). split; [done|]. intros _. exact Hs.
  - exfalso. unfold configure_as_replica_of in E. rewrite decide_False in E by done. rewrite bool_decide_eq_true_2 in E; [done|]. cbn. rewrite lookup_alter_eq. destruct Hk as [n ->]. eauto.
Qed.

Definition is_master (g : Inner) : bool := match me g with Some n => n_master n | None => false end.

Lemma replica_not_master id g : is_replica_of id g = true → is_master g = false.
Proof. unfold is_replica_of, is_master. destruct (me g); [|done]. by intros [?%negb_true_iff _]%andb_true_iff. Qed.

(** A master that stays one is larger than any other master it sees. *)
Lemma demote_largest repl g : cluster_ok g → let g' := (try_demote_if_superseded repl g).1 in
  is_master g' = true → ∀ x, rival g' x → larger g' (my_id g') x.
Proof.
  intros H. cbv zeta. unfold try_demote_if_superseded. destruct (me g) as [n|] eqn:Em; [|by unfold is_master; cbn; rewrite Em].
  destruct (no_me _ _ _ (ok_nodes g H _ n Em) eq_refl) as [Ef _]. rewrite Ef, orb_false_r. destruct (n_master n) eqn:En; cbn [negb]; [|by unfold is_master; cbn; rewrite Em, En].
  pose proof (other_master_found g H) as Ho. destruct (other_master_with_slots g) as [o|]; [|by intros _ x Hx%Ho]. destruct Ho as [Hro Hmax].
  pose proof (superseded_larger o g Hro) as Hsup. pose proof Hro as (Hne & (no & Hno & _) & _). destruct (superseded o g).
  - destruct (followed_master repl o g H Hne ltac:(eauto)) as [Hr _]. by rewrite (replica_not_master _ _ Hr).
  - cbn [fst]. intros _ x Hx. assert (Hl : larger g (my_id g) o) by (destruct (larger_total g o (my_id g) Hne) as [?%Hsup|?]; done).
    destruct (decide (x = o)) as [->|Hxo]; [done|]. destruct (larger_total g x o Hxo) as [?%Hmax|?]; [done|done|]. by eapply larger_trans.
Qed.

(** ** A replica whose master is marked *)

(** The node replicates a node that it has marked as failed. *)
Definition stuck (m : Str) (g : Inner) : Prop := is_replica_of m g = true ∧ node_is_fail m g = true.

Lemma stuck_nodes m g g' :
  my_id g' = my_id g →
  (∀ n, nodes g !! my_id g = Some n → ∃ n', nodes g' !! my_id g = Some n' ∧ n_master n' = n_master n ∧ n_master_id n' = n_master_id n) →
  (∀ n, nodes g !! m = Some n → n_fail n = true → ∃ n', nodes g' !! m = Some n' ∧ n_fail n' = true) → stuck m g → stuck m g'.
Proof.
  unfold stuck, is_replica_of, node_is_fail, me. intros Ei H1 H2 [S1 S2]. rewrite Ei. destruct (nodes g !! my_id g) as [n|]; [|done].
  destruct (H1 n eq_refl) as (n' & -> & -> & ->). split; [done|]. destruct (nodes g !! m) as [k|]; [|done]. by destruct (H2 k eq_refl S2) as (k' & -> & ->).
Qed.

Lemma stuck_alter m f id g :
  (∀ n, id = my_id g → n_master (f n) = n_master n ∧ n_master_id (f n) = n_master_id n) → (∀ n, id = m → n_fail n = true → n_fail (f n) = true) →
  stuck m g → stuck m (alter_node f id g).
Proof.
  intros H1 H2. apply stuck_nodes; [done|..]; intros n Hn.
  - cbn. destruct (decide (id = my_id g)) as [->|Hne]; [rewrite lookup_alter_eq, Hn|rewrite lookup_alter_ne by done]; [|by eauto]. exists (f n). auto.
  - intros Hf. cbn. destruct (decide (id = m)) as [->|Hne]; [rewrite lookup_alter_eq, Hn|rewrite lookup_alter_ne by done]; [|by eauto]. exists (f n). auto.
Qed.

Lemma stuck_same m g g' : my_id g' = my_id g → nodes g' = nodes g → stuck m g → stuck m g'.
Proof. intros Ei En. apply stuck_nodes; [done|rewrite En; eauto..]. Qed.

Lemma stuck_first_pong m t id g : stuck m g → stuck m (first_pong t id g).
Proof. unfold first_pong. destruct (last_pong g !! id); [done|]. by apply stuck_same. Qed.

Lemma stuck_learn m t r g g' : learn_owner t r g = Some g' → stuck m g → stuck m g'.
Proof.
  unfold learn_owner. destruct (contains_node (or_owner_id r) g) eqn:E.
  - intros [= <-] Hs. case_match; [|done]. apply stuck_alter; [..|done]; intros n _; by destruct (n_myself n).
  - apply bool_decide_eq_false in E. destruct (_ || _); [done|]. intros [= <-] Hs. apply stuck_first_pong.
    assert (Hne : ∀ id n, nodes g !! id = Some n → or_owner_id r ≠ id) by (intros id n Hn <-; eauto).
    revert Hs. apply stuck_nodes; [done|..]; intros n Hn; cbn; rewrite lookup_insert_ne by eauto; eauto.
Qed.

Lemma apply_slots_same r l acc : my_id (foldl (apply_slot r) acc l).1 = my_id acc.1 ∧ nodes (foldl (apply_slot r) acc l).1 = nodes acc.1.
Proof.
  revert acc. induction l as [|s l IH]; intros acc; [done|]. cbn [foldl]. destruct (IH (apply_slot r acc s)) as [-> ->].
  destruct acc as [g [[a b] c]]. unfold apply_slot. destruct (_ || _); [done|]. by destruct (_ <? _).
Qed.

Lemma stuck_range m t r g : stuck m g → stuck m (apply_ownership_range t r g).1.
Proof.
  intros H. unfold apply_ownership_range. destruct (_ || _); [done|]. case_decide; [done|]. destruct (learn_owner t r g) as [g1|] eqn:E; [|done].
  apply (stuck_learn m t r g g1 E) in H. pose proof (apply_slots_same r (seqZ (or_start r) (or_end r - or_start r + 1)) (g1, (0, 0, 0)%nat)) as [E1 E2].
  destruct (foldl _ _ _) as [g2 [[a b] c]]. cbn [fst] in E1, E2 |- *. destruct (_ && _); by apply (stuck_same m g1).
Qed.

Lemma stuck_add m t id ip port rm rmid g : stuck m g → stuck m (add_node_with_role t id ip port rm rmid g).
Proof.
  intros H. unfold add_node_with_role. destruct (decide (id = my_id g)) as [|Hne]; [done|]. apply stuck_first_pong. revert H. apply stuck_nodes; [done|..]; cbn.
  - intros n Hn. rewrite lookup_insert_ne by done. eauto.
  - intros n Hn Hf. destruct (decide (id = m)) as [->|]; [rewrite lookup_insert_eq|rewrite lookup_insert_ne by done; by eauto]. rewrite Hn. cbn. eauto.
Qed.

Lemma stuck_role m t e g : stuck m g → stuck m (merge_role t g e).
Proof.
  intros H. unfold merge_role. destruct (decide (rm_id e = my_id g)) as [|Hne]; [done|]. apply stuck_alter; [done..|]. by apply stuck_add.
Qed.

Lemma stuck_fold {A} m (f : Inner → A → Inner) l g : (∀ g x, stuck m g → stuck m (f g x)) → stuck m g → stuck m (foldl f g l).
Proof. intros Hf. revert g. induction l as [|x l IH]; intros g H; [done|]. cbn [foldl]. apply IH, Hf, H. Qed.

Lemma stuck_sync m id p g : stuck m g → stuck m (ping_and_sync id p g).1.
Proof.
  intros H. unfold ping_and_sync. destruct (negb (pr_connect p)); [done|]. destruct (_ && _); [done|]. cbn [fst].
  unfold pull_and_ingest_fail_reports, pull_and_merge_rolemap, pull_and_merge_owners.
  assert (H1 : ∀ t v, stuck m (match v with Some v => match parse_owners_reply v with Ok ranges => (merge_ownership_snapshot t ranges g).1 | Err _ => g end | None => g end)).
  { intros t [v|]; [|done]. destruct (parse_owners_reply v); [|done]. rewrite merge_snapshot_state. apply stuck_fold; [|done]. intros g' r. apply stuck_range. }
  specialize (H1 (pr_time p) (pr_owners p)). set (g1 := match pr_owners p with Some _ => _ | None => g end) in *. clearbody g1.
  assert (H2 : ∀ t v, stuck m (match v with Some v => match parse_rolemap_reply v with Ok es => merge_role_map t es g1 | Err _ => g1 end | None => g1 end)).
  { intros t [v|]; [|done]. destruct (parse_rolemap_reply v); [|done]. apply stuck_fold; [|done]. intros g' e. apply stuck_role. }
  specialize (H2 (pr_time p) (pr_rolemap p)). set (g2 := match pr_rolemap p with Some _ => _ | None => g1 end) in *. clearbody g2.
  destruct (pr_failreports p) as [v|]; [|done]. destruct (parse_fail_reports_reply v); [|done]. unfold ingest_fail_reports. case_decide; [done|]. by apply (stuck_same m g2).
Qed.

Lemma stuck_only m id g : stuck m g → id ≠ m → is_replica_of id g = false.
Proof.
  intros [H _] Hne. unfold is_replica_of in *. destruct (me g) as [n|]; [|done]. apply andb_true_iff in H as [-> E%bool_decide_eq_true]. rewrite E.
  apply bool_decide_eq_false_2. congruence.
Qed.
Lemma stuck_not_me m g : cluster_ok g → stuck m g → m ≠ my_id g.
Proof.
  intros H [_ Hf] ->. unfold node_is_fail in Hf. destruct (ok_me g H) as [n Hn]. rewrite Hn in Hf. destruct (no_me _ _ _ (ok_nodes g H _ n Hn) eq_refl). congruence.
Qed.

Lemma stuck_fails m g g' newly : fails_more g g' newly → stuck m g → stuck m g'.
Proof.
  intros [Ei _ En]. apply stuck_nodes; [done|..]; intros n Hn; rewrite En, Hn; case_bool_decide; cbn; eauto.
Qed.
Lemma stuck_escalate m g : stuck m g → stuck m (escalate_fails g).1 ∧ m ∉ (escalate_fails g).2.
Proof.
  intros H. destruct (escalate_fails_spec g) as [F Hn _]. split; [by eapply stuck_fails|]. intros Hm. destruct (Hn m Hm) as (_ & _ & n & E & Ef).
  destruct H as [_ H]. unfold node_is_fail in H. rewrite E in H. congruence.
Qed.
Lemma stuck_note m id g : stuck m g → stuck m (note_unreachable id g).1 ∧ ((note_unreachable id g).2 = true → id ≠ m).
Proof.
  intros H. unfold note_unreachable. do 2 (case_decide; [done|]). destruct (nodes g !! id) as [n|] eqn:En; [|done].
  destruct (n_fail n) eqn:Ef; [done|]. assert (Hs : stuck m (alter_node (λ n, with_fail n true (n_fail n)) id g)) by (by apply stuck_alter).
  apply stuck_escalate in Hs. destruct (escalate_fails _) as [g' newly]. cbn in *. split; [apply Hs|]. intros ?%bool_decide_eq_true ->. by apply Hs.
Qed.

Lemma not_failover io now repl id c : is_replica_of id (inner c) = false → maybe_failover_on_master_fail io now repl id c = (c, []).
Proof. unfold maybe_failover_on_master_fail. by intros ->. Qed.

Lemma announce_no_promotion id g : PromoteToMaster ∉ bus_announce_fail_to_others id g.
Proof. unfold bus_announce_fail_to_others. by intros (p & ? & _)%list_elem_of_fmap. Qed.
Lemma follow_no_promotion repl id g : PromoteToMaster ∉ (follow_new_master repl id g).2.
Proof.
  unfold follow_new_master. destruct (reconfigure_as_replica_of_failover_winner id g) as [g'|]; [|apply not_elem_of_nil]. cbn. unfold point_at.
  destruct repl; [|apply not_elem_of_nil]. destruct (nodes g' !! id); [|apply not_elem_of_nil]. by intros [=]%list_elem_of_singleton.
Qed.

Definition quiet (m : Str) (r : ClusterState * list Action) : Prop := stuck m (inner r.1) ∧ PromoteToMaster ∉ r.2.

Lemma quiet_probe m io now timeout repl net acc peer :
  (n_fail peer = false → n_id peer ≠ m) → quiet m acc → quiet m (probe_peer io now timeout repl net acc peer).
Proof.
  destruct acc as [c acts]. intros Hp [H Ha]. cbn in H, Ha. unfold probe_peer. destruct (n_fail peer); [done|]. specialize (Hp eq_refl).
  pose proof (stuck_sync m (n_id peer) (net peer) (inner c) H) as Hs. destruct (ping_and_sync _ _ _) as [g []]; cbn in Hs.
  { split; [|done]. cbn. apply (stuck_same m (alter_node (λ n, with_fail n false false) (n_id peer) g)); [done..|]. by apply stuck_alter. }
  destruct (_ <=? _); [|by split]. pose proof (stuck_note m (n_id peer) g Hs) as [Hn _]. destruct (note_unreachable (n_id peer) g) as [g2 []]; cbn in Hn; [|by split].
  rewrite not_failover by (cbn; by eapply stuck_only). split; [done|]. cbn. rewrite !not_elem_of_app. split_and!; [done|apply announce_no_promotion|apply not_elem_of_nil].
Qed.

Lemma quiet_probes m io now timeout repl net peers acc :
  (∀ p, p ∈ peers → n_fail p = false → n_id p ≠ m) → quiet m acc → quiet m (foldl (probe_peer io now timeout repl net) acc peers).
Proof.
  revert acc. induction peers as [|p l IH]; intros acc Hp H; [done|]. cbn [foldl]. apply IH; [intros q Hq; apply Hp; by right|].
  apply quiet_probe; [apply Hp; left|done].
Qed.

Lemma quiet_escalated m io now repl newly acc : m ∉ newly → quiet m acc →
  foldl (λ '(c, acts) id, let '(c, more) := maybe_failover_on_master_fail io now repl id c in (c, acts ++ more)) acc newly = acc.
Proof.
  intros Hm [H _]. induction newly as [|x l IH]; [done|]. apply not_elem_of_cons in Hm as [Hx Hl]. cbn [foldl]. destruct acc as [c acts].
  rewrite not_failover, app_nil_r by (eapply stuck_only; done). by apply IH.
Qed.

(** Still marked, and the node still a replica of some node. *)
Definition settled (m : Str) (g : Inner) : Prop := node_is_fail m g = true ∧ is_cluster_replica g = true.

Lemma replica_is_replica id g : is_replica_of id g = true → is_cluster_replica g = true.
Proof. unfold is_replica_of, is_cluster_replica. destruct (me g); [|done]. by intros [? _]%andb_true_iff. Qed.
Lemma stuck_settled m g : stuck m g → settled m g.
Proof. intros [? ?]. split; [done|by eapply replica_is_replica]. Qed.

Lemma alter_fail f id m g : id ≠ m → node_is_fail m (alter_node f id g) = node_is_fail m g.
Proof. intros Hne. unfold node_is_fail. cbn. by rewrite lookup_alter_ne. Qed.
Lemma refresh_offset_fail repl m g : node_is_fail m (refresh_offset repl g) = node_is_fail m g.
Proof.
  destruct repl as [o|]; [|done]. cbn. unfold set_local_repl_offset, node_is_fail. cbn. destruct (decide (my_id g = m)) as [<-|Hne]; [|by rewrite lookup_alter_ne].
  rewrite lookup_alter_eq. by destruct (nodes g !! my_id g).
Qed.
Lemma refresh_offset_replica repl m g : is_replica_of m (refresh_offset repl g) = is_replica_of m g.
Proof.
  destruct repl as [o|]; [|done]. cbn. unfold set_local_repl_offset, is_replica_of, me. cbn. rewrite lookup_alter_eq. by destruct (nodes g !! my_id g).
Qed.

Lemma follow_settled repl w m g : cluster_ok g → w ≠ my_id g → is_Some (nodes g !! w) → w ≠ m → m ≠ my_id g →
  node_is_fail m g = true → settled m (follow_new_master repl w g).1.
Proof.
  intros H Hw Hk Hwm Hm Hf. split; [|eapply replica_is_replica, followed_master; done].
  unfold follow_new_master, reconfigure_as_replica_of_failover_winner. rewrite decide_False by done. destruct (is_replica_of w g); [done|].
  rewrite bool_decide_eq_true_2 by done. cbn [negb]. unfold configure_as_replica_of. rewrite decide_False by done. destruct (negb _); [done|]. cbn [fst].
  set (g1 := alter_node _ w g). rewrite !alter_fail by (done || by destruct (owns_any (my_id g1) g1)). rewrite <- Hf, <- (alter_fail (λ n, with_fail (with_role n true None) false false) w m g) by done.
  fold g1. by destruct (owns_any (my_id g1) g1).
Qed.

Lemma follow_winners_none repl m l g acts : (∀ x, x ∈ l → x = m) → is_replica_of m g = false → foldl (follow_winner repl) (g, acts) l = (g, acts).
Proof.
  induction l as [|x l IH]; intros Hx Hr; [done|]. cbn [foldl]. rewrite (Hx x) by left. unfold follow_winner at 2, failover_election_winner. rewrite Hr. cbn [negb].
  apply IH; [|done]. intros y Hy. apply Hx. by right.
Qed.

Lemma replica_of_one a b g : is_replica_of a g = true → a ≠ b → is_replica_of b g = false.
Proof.
  unfold is_replica_of. intros H Hne. destruct (me g) as [n|]; [|done]. apply andb_true_iff in H as [-> E%bool_decide_eq_true]. rewrite E.
  apply bool_decide_eq_false_2. congruence.
Qed.

Lemma follow_winners_settled repl m l g acts : cluster_ok g → stuck m g → (∀ x, x ∈ l → x = m) → PromoteToMaster ∉ acts →
  settled m (foldl (follow_winner repl) (g, acts) l).1 ∧ PromoteToMaster ∉ (foldl (follow_winner repl) (g, acts) l).2.
Proof.
  intros H1 S1 Hl N0. pose proof (stuck_not_me m g H1 S1) as Hm. induction l as [|x l IH]; [split; [by apply stuck_settled|done]|]. cbn [foldl]. rewrite (Hl x) by left.
  specialize (IH ltac:(intros y Hy; apply Hl; by right)). unfold follow_winner at 2 4.
  destruct (failover_election_winner m g) as [w|] eqn:Ew; [|apply IH]. destruct (_ || _) eqn:Eb; [apply IH|].
  apply orb_false_iff in Eb as [Ew1%bool_decide_eq_false Ew2]. destruct (winner_spec m g w H1 Ew) as [(Hel & Hfw & _) _].
  assert (Hwm : w ≠ m) by (intros ->; destruct S1; congruence). assert (Hk : is_Some (nodes g !! w)) by (destruct Hel as (n & -> & _); eauto).
  pose proof (follow_settled repl w m g H1 Ew1 Hk Hwm Hm (proj2 S1)) as Hset. destruct (followed_master repl w g H1 Ew1 Hk) as [Hrep _].
  pose proof (follow_no_promotion repl w g) as Hno. destruct (follow_new_master repl w g) as [g2 more]. cbn [fst snd] in *.
  rewrite (follow_winners_none repl m); [split; [done|cbn [snd]; by rewrite not_elem_of_app]|intros y Hy; apply Hl; by right|]. by eapply replica_of_one.
Qed.

Lemma follow_masters_settled repl m g : cluster_ok g → stuck m g →
  settled m (try_follow_failed_masters repl g).1 ∧ PromoteToMaster ∉ (try_follow_failed_masters repl g).2.
Proof.
  intros H Hs. unfold try_follow_failed_masters. set (l := n_id <$> _). case_decide; [split; [by apply stuck_settled|apply not_elem_of_nil]|].
  assert (Hl : ∀ x, x ∈ l → x = m).
  { intros x (p & -> & [[_ Hp] _]%list_elem_of_filter)%list_elem_of_fmap. destruct (decide (n_id p = m)) as [->|Hne]; [done|]. rewrite (stuck_only m _ g Hs Hne) in Hp. done. }
  pose proof (fw_ok _ _ (refresh_offset_forward repl g H)) as H1. assert (S1 : stuck m (refresh_offset repl g)) by (unfold stuck; by rewrite refresh_offset_fail, refresh_offset_replica).
  pose proof (stuck_not_me m _ H1 S1) as Hm. cbv zeta. pose proof (other_master_found _ H1) as Ho. destruct (other_master_with_slots _) as [w|]; [|apply follow_winners_settled; try done; apply not_elem_of_nil].
  destruct (is_replica_of w _); [split; [by apply stuck_settled|apply not_elem_of_nil]|]. split; [|apply follow_no_promotion]. destruct Ho as [(Hw & (n & Hn & Hf & _) & _) _].
  destruct S1 as [_ Sf]. apply follow_settled; [done|done|by eexists| |done|done]. intros ->. unfold node_is_fail in Sf. rewrite Hn in Sf. congruence.
Qed.

(** ** The round as a whole *)

(** A master that stays a master is larger than the masters it sees. *)
Lemma tick_largest io now repl net c : outer_ok c → let g := inner (gossip_tick io now repl net c).1 in
  is_master g = true → ∀ x, rival g x → larger g (my_id g) x.
Proof.
  intros H. cbv zeta. unfold gossip_tick. pose proof (probe_and_escalate_goes io now repl net c H) as H1. destruct (probe_and_escalate io now repl net c) as [c1 acts].
  pose proof (try_follow_forward repl (inner c1) (oo_inner _ (go_ok _ _ H1))) as H2. destruct (try_follow_failed_masters repl (inner c1)) as [g2 more].
  pose proof (demote_largest repl g2 (fw_ok _ _ H2)) as H3. by destruct (try_demote_if_superseded repl g2).
Qed.

Lemma demote_replica repl m g : settled m g → try_demote_if_superseded repl g = (g, []).
Proof. intros [_ H]. unfold is_cluster_replica, try_demote_if_superseded in *. destruct (me g) as [n|]; [|done]. by rewrite H. Qed.

Lemma quiet_probe_and_escalate m io now repl net c : outer_ok c → stuck m (inner c) → quiet m (probe_and_escalate io now repl net c).
Proof.
  intros Hc Hs. unfold probe_and_escalate.
  assert (Hq : quiet m (foldl (probe_peer io now (node_timeout_ms (inner c)) repl net) (c, []) (peer_snapshots (inner c)))).
  { apply quiet_probes; [|split; [done|apply not_elem_of_nil]]. intros p [_ Hp]%list_elem_of_filter Hf <-. apply elem_of_node_values in Hp; [|apply Hc].
    destruct Hs as [_ Hs]. unfold node_is_fail in Hs. rewrite Hp in Hs. congruence. }
  destruct (foldl (probe_peer _ _ _ _ _) _ _) as [c1 acts]. destruct Hq as [Hq1 Hq2]. cbn in Hq1, Hq2. destruct (stuck_escalate m (inner c1) Hq1) as [He Hn].
  destruct (escalate_fails (inner c1)) as [g2 newly]. cbn in He, Hn. rewrite (quiet_escalated m) by done. by split.
Qed.

(** A replica that has marked its master before the round stays one, and is not promoted. *)
Lemma tick_settled m io now repl net c : outer_ok c → stuck m (inner c) →
  settled m (inner (gossip_tick io now repl net c).1) ∧ PromoteToMaster ∉ (gossip_tick io now repl net c).2.
Proof.
  intros H Hs. unfold gossip_tick. pose proof (quiet_probe_and_escalate m io now repl net c H Hs) as [Q1 Q2]. pose proof (probe_and_escalate_goes io now repl net c H) as H1.
  destruct (probe_and_escalate io now repl net c) as [c1 acts]. cbn in Q1, Q2. destruct (follow_masters_settled repl m (inner c1) (oo_inner _ (go_ok _ _ H1)) Q1) as [F1 F2].
  destruct (try_follow_failed_masters repl (inner c1)) as [g2 more]. cbn in F1, F2. rewrite (demote_replica repl m) by done. split; [done|]. cbn. rewrite app_nil_r. by rewrite not_elem_of_app.
Qed.

End node.
