(* ===== verification/ClusterReload.v ===== *)
(** * Loading what was saved

    The state that a node has after it is started with the nodes.conf it wrote. *)

From S2P Require Import Prelude RustStd Text HashSlot ClusterState ClusterConf ClusterFacts ClusterEpochs ClusterMerge ClusterElection.
From Stdlib Require Import Lia.
Local Open Scope Z_scope.
#[local] Opaque Z.to_nat.

(** ** The lines of nodes.conf

    What is written as a line of words is read back as these words, for every kind of line. *)

Abbreviation all_words := (Forall (λ x : Str, word x = true)).

(** ** Comment lines *)

Definition comment_line (ws : list Str) : Str := join space (str "#" :: ws).

(** Words of which the first does not begin with a hash mark. *)
Definition comment_words (ws : list Str) : Prop := all_words ws ∧ ∃ c r ws', ws = (c :: r) :: ws' ∧ c ≠ hash_mark.

Lemma comment_line_words ws : comment_words ws → all_words (str "#" :: ws).
Proof. intros [H _]. by constructor. Qed.

Lemma comment_line_eq ws : comment_words ws → comment_line ws = hash_mark :: 32 :: join space ws.
Proof. intros [_ (c & r & ws' & -> & _)]. unfold comment_line. by rewrite join_app_cons. Qed.

Lemma trim_comment ws : comment_words ws → trim (comment_line ws) = comment_line ws.
Proof. intros H. apply (trim_join (str "#") ws hash_mark []); [done|by apply comment_line_words]. Qed.

Lemma trim_space s : trim (32 :: s) = trim s.
Proof. done. Qed.

Lemma trim_words ws : comment_words ws → trim (join space ws) = join space ws.
Proof. intros [H (c & r & ws' & -> & _)]. by apply (trim_join (c :: r) ws' c r). Qed.

Lemma comment_of_line ws : comment_words ws → comment (comment_line ws) = Some (join space ws).
Proof.
  intros H. unfold comment. rewrite trim_comment, comment_line_eq by done. cbn [starts_with]. rewrite Z.eqb_refl. cbn [trim_start_matches]. rewrite Z.eqb_refl. simpl.
  by rewrite trim_space, trim_words.
Qed.

Lemma comment_line_skipped lineno ws ls : comment_words ws → parse_lines_from lineno (comment_line ws :: ls) = parse_lines_from (lineno + 1) ls.
Proof.
  intros H. cbn [parse_lines_from]. rewrite trim_comment by done. rewrite comment_line_eq by done. cbn [starts_with]. by rewrite Z.eqb_refl, orb_true_r.
Qed.

Lemma comment_line_plain ws : comment_words ws → plain_line (comment_line ws).
Proof. intros H. by apply join_plain, comment_line_words. Qed.

(** ** Slot epochs and votes *)

Lemma number_solid z : solid (to_string z) = true.
Proof.
  unfold solid. apply forallb_forall. intros c Hc%list_elem_of_In. pose proof (to_string_chars z) as H. rewrite Forall_forall in H. apply H in Hc.
  apply negb_true_iff. unfold is_whitespace. destruct Hc as [->|Hc]; [done|]. lia.
Qed.
Lemma number_word z : 0 ≤ z → word (to_string z) = true.
Proof. intros Hz. apply word_intro; [apply number_solid|]. by destruct (to_string_parse_nat z Hz) as (_ & c & r & -> & _). Qed.

Lemma parse_to_string_u16 z : in_u16 z → parse_u16 (to_string z) = Some z.
Proof.
  intros Hz. assert (u16_max ≤ u64_max) by (by vm_compute). unfold parse_u16. rewrite parse_to_string_u64 by lia. simpl. by rewrite (proj2 (Z.leb_le _ _)) by lia.
Qed.
Lemma parse_to_string_u32 z : 0 ≤ z ≤ u32_max → parse_u32 (to_string z) = Some z.
Proof.
  intros Hz. assert (u32_max ≤ u64_max) by (by vm_compute). unfold parse_u32. rewrite parse_to_string_u64 by lia. simpl. by rewrite (proj2 (Z.leb_le _ _)) by lia.
Qed.

Lemma slot_u16 s : slot_in s → in_u16 s.
Proof. intros [? ?]. assert (SLOT_COUNT ≤ u16_max) by (by vm_compute). lia. Qed.

(** The lines that set epochs and those that hold votes. *)
Definition epoch_words (x : Z * Z * Z) : list Str := [str "slot-epoch"; to_string x.1.1; to_string x.1.2; to_string x.2].
Definition vote_words (x : Z * PrepareVote) : list Str :=
  [str "prepare"; to_string x.1; v_target_id x.2; to_string (v_slot_epoch x.2); to_string (v_prepared_at x.2)].

(** A comment whose first word is no keyword of a parser means nothing to it. *)
Lemma other_comment_epoch ws k : comment_words (k :: ws) → k ≠ str "slot-epoch" → parse_slot_epoch (comment_line (k :: ws)) = None.
Proof.
  intros H Hk. unfold parse_slot_epoch. rewrite comment_of_line by done. cbn [mbind option_bind]. rewrite split_join by apply H.
  destruct ws as [|a [|b ws]]; [done..|]. by rewrite decide_False.
Qed.
Lemma other_comment_vote now ws k : comment_words (k :: ws) → k ≠ str "prepare" → parse_prepare now (comment_line (k :: ws)) = None.
Proof.
  intros H Hk. unfold parse_prepare. rewrite comment_of_line by done. cbn [mbind option_bind]. rewrite split_join by apply H.
  do 4 (destruct ws as [|? ws]; [done|]). by rewrite decide_False.
Qed.

Lemma epoch_words_ok x : 0 ≤ x.1.1 → 0 ≤ x.1.2 → 0 ≤ x.2 → comment_words (epoch_words x).
Proof. intros. split; [repeat constructor; by apply number_word|]. by eexists _, _, _. Qed.
Lemma vote_words_ok x : 0 ≤ x.1 → word (v_target_id x.2) = true → 0 ≤ v_slot_epoch x.2 → 0 ≤ v_prepared_at x.2 → comment_words (vote_words x).
Proof. intros. split; [repeat constructor; try done; by apply number_word|]. by eexists _, _, _. Qed.

Lemma parse_epoch_line x : slot_in x.1.1 → slot_in x.1.2 → x.1.1 ≤ x.1.2 → in_u64 x.2 → parse_slot_epoch (comment_line (epoch_words x)) = Some x.
Proof.
  intros H1 H2 Hle He. pose proof H1 as [? _]. pose proof H2 as [? ?]. assert (Hw : comment_words (epoch_words x)) by (apply epoch_words_ok; lia).
  unfold parse_slot_epoch. rewrite comment_of_line by done. cbn [mbind option_bind]. rewrite split_join by apply Hw. unfold epoch_words. rewrite decide_True by done.
  rewrite !parse_to_string_u16, parse_to_string_u64 by (done || by apply slot_u16). cbn [mbind option_bind]. unfold slot_ok.
  rewrite (proj2 (Z.ltb_ge _ _)), (proj2 (Z.ltb_lt _ _)) by lia. by destruct x as [[] ].
Qed.

Lemma parse_vote_line now x :
  slot_in x.1 → word (v_target_id x.2) = true → in_u64 (v_slot_epoch x.2) → in_u64 (v_prepared_at x.2) →
  parse_prepare now (comment_line (vote_words x)) = if prepare_vote_expired now x.2 then None else Some x.
Proof.
  intros H1 Hw He Ht. pose proof H1 as [? ?]. assert (Hc : comment_words (vote_words x)) by (apply vote_words_ok; done || lia).
  unfold parse_prepare. rewrite comment_of_line by done. cbn [mbind option_bind]. rewrite split_join by apply Hc. unfold vote_words. rewrite decide_True by done.
  rewrite parse_to_string_u16, !parse_to_string_u64 by (done || by apply slot_u16). cbn [mbind option_bind]. unfold slot_ok. rewrite (proj2 (Z.ltb_lt _ _)) by lia. cbn [negb].
  destruct x as [slot [tgt e ts]]. cbn [fst snd v_target_id v_slot_epoch v_prepared_at]. done.
Qed.

(** ** Settings *)

Lemma split_space_words w ws : word w = true → ws ≠ [] → split_space (join space (w :: ws)) = (w, join space ws).
Proof.
  intros [Hs _]%word_solid Hne. rewrite join_app_cons by done. induction w as [|c w IH]; [done|]. cbn in Hs. apply andb_true_iff in Hs as [Hc%negb_true_iff Hs].
  cbn [app split_space]. rewrite Hc, (IH Hs). done.
Qed.
Lemma split_space_word w : word w = true → split_space w = (w, []).
Proof.
  intros [Hs _]%word_solid. induction w as [|c w IH]; [done|]. cbn in Hs. apply andb_true_iff in Hs as [Hc%negb_true_iff Hs]. cbn [split_space]. by rewrite Hc, (IH Hs).
Qed.
Lemma trim_word w : word w = true → trim w = w.
Proof.
  intros H. destruct w as [|c r]; [done|]. rewrite <- (trim_join (c :: r) [] c r) at 2; [done|done|by constructor].
Qed.

Definition is_flag_key (k : Str) : Prop :=
  k ∈ [str "require-full-coverage"; str "allow-reads-when-down"; str "announce-ip"; str "announce-port"; str "replica-priority"].

#[export] Instance is_flag_key_dec k : Decision (is_flag_key k) := _.

(** Other comments, and lines that are none, leave the settings alone. *)
Lemma other_comment_flag fl k ws : comment_words (k :: ws) → ¬ is_flag_key k → parse_flag_line fl (comment_line (k :: ws)) = fl.
Proof.
  intros H Hk. unfold parse_flag_line. rewrite comment_of_line by done. case_decide; [done|].
  assert (E : ∃ a, split_space (join space (k :: ws)) = (k, a)).
  { destruct H as [[Hw _]%Forall_cons _]. destruct ws as [|w ws]; eexists; [by apply split_space_word|by apply split_space_words]. }
  destruct E as [a ->]. unfold is_flag_key in Hk. rewrite !elem_of_cons in Hk. repeat (rewrite decide_False by tauto). done.
Qed.

(** ** Node lines *)

Lemma split_once_none d a : d ∉ a → split_once d a = None.
Proof. induction a as [|c a IH]; intros H; [done|]. apply not_elem_of_cons in H as [Hc Ha]. cbn. destruct (Z.eqb_spec c d); [congruence|]. by rewrite IH. Qed.
Lemma rsplit_once_app d a b : d ∉ b → rsplit_once d (a ++ d :: b) = Some (a, b).
Proof.
  intros H. unfold rsplit_once. rewrite reverse_app, reverse_cons, <- app_assoc. cbn [app]. rewrite split_once_app by (by rewrite elem_of_reverse).
  cbn. by rewrite !reverse_involutive.
Qed.

Lemma number_chars z c : 0 ≤ z → c ∈ to_string z → 48 ≤ c ≤ 57.
Proof. intros Hz Hc. destruct (to_string_digits z Hz) as [_ H]. rewrite Forall_forall in H. by apply H. Qed.

Definition slot_range_ok (r : Z * Z) : Prop := slot_in r.1 ∧ slot_in r.2 ∧ r.1 ≤ r.2.

Lemma range_word_ok r : slot_range_ok r → word (range_word r) = true.
Proof.
  intros ([? ?] & [? ?] & ?). unfold range_word. destruct (_ =? _); [by apply number_word|]. apply word_intro; [rewrite !solid_app, !number_solid; done|].
  by destruct (to_string_parse_nat r.1) as (_ & c & t & -> & _).
Qed.

Lemma parse_range_word lineno r : slot_range_ok r → parse_slot_word lineno (range_word r) = Ok [r].
Proof.
  intros (H1 & H2 & Hle). pose proof H1 as [? ?]. pose proof H2 as [? ?]. unfold parse_slot_word, range_word.
  assert (Hn : ∀ z, 0 ≤ z → 45 ∉ to_string z) by (intros z Hz Hc%number_chars; [lia|done]).
  assert (Hb : ∀ t, starts_with 91 (to_string r.1 ++ t) = false).
  { intros t. destruct (to_string_parse_nat r.1) as (_ & c & u & -> & Hc); [done|]. cbn. lia. }
  destruct (Z.eqb_spec r.1 r.2) as [E|E].
  - rewrite <- (app_nil_r (to_string r.1)) at 1. rewrite Hb, split_once_none by auto. rewrite parse_to_string_u16 by (by apply slot_u16).
    unfold slot_ok. rewrite (proj2 (Z.ltb_lt _ _)) by lia. destruct r; simpl in *; congruence.
  - rewrite Hb. change (str "-" ++ to_string r.2) with (45 :: to_string r.2). rewrite split_once_app by auto. rewrite !parse_to_string_u16 by (by apply slot_u16).
    unfold slot_ok. rewrite (proj2 (Z.leb_le _ _)), (proj2 (Z.ltb_lt _ _)) by lia. by destruct r.
Qed.

Lemma parse_range_words lineno rs ws :
  Forall slot_range_ok rs → Forall (λ w : Str, starts_with 91 w = true) ws → parse_slot_words lineno ((range_word <$> rs) ++ ws) = Ok rs.
Proof.
  intros Hr Hw. induction Hr as [|r rs H Hr IH]; cbn [fmap list_fmap app parse_slot_words].
  - induction Hw as [|w ws Hx Hw IH]; [done|]. cbn [parse_slot_words]. unfold parse_slot_word. rewrite Hx. cbn [mbind result_bind]. by rewrite IH.
  - rewrite parse_range_word by done. cbn [mbind result_bind]. fold (fmap range_word rs). by rewrite IH.
Qed.

Section printing.
Context {CO : ClusterOrder}.

Definition node_words (g : Inner) (id : Str) (n : ClusterNode) : list Str :=
  [n_id n; n_ip n ++ str ":" ++ to_string (n_port n) ++ str "@" ++ to_string (n_cport n); join (str ",") (flag_words n); default (str "-") (n_master_id n);
   to_string 0; to_string 0; to_string (current_epoch g); if n_fail n then str "disconnected" else str "connected"] ++
  (range_word <$> slot_ranges_for (slot_owner g) id) ++ (if n_myself n then transit_words g else []).

Lemma node_line_words g id n :
  all_words ((range_word <$> slot_ranges_for (slot_owner g) id) ++ (if n_myself n then transit_words g else [])) → node_line g id n = join space (node_words g id n).
Proof.
  intros Hw. unfold node_line, node_words. cbv zeta. set (ws := (range_word <$> _) ++ _) in *. clearbody ws.
  assert (J : ∀ l, l ≠ [] → join space (l ++ ws) = join space l ++ if decide (join space ws = []) then [] else space ++ join space ws).
  { intros l Hl. destruct ws as [|w ws]; [cbn; by rewrite !app_nil_r|]. rewrite decide_False; [by apply join_app|].
    apply Forall_cons in Hw as [[_ Hne]%word_solid _]. destruct ws; [done|]. rewrite join_app_cons by done. by destruct w. }
  rewrite J by done. cbn [join]. by rewrite <- !app_assoc.
Qed.

(** What a node line can hold. *)
Record node_writable (n : ClusterNode) : Prop := {
  nw_id : word (n_id n) = true;
  nw_mark : starts_with hash_mark (n_id n) = false;
  nw_ip : solid (n_ip n) = true;
  nw_at : 64 ∉ n_ip n;
  nw_port : in_u16 (n_port n);
  nw_cport : 0 ≤ n_cport n;
  nw_master : ∀ m, n_master_id n = Some m → word m = true ∧ m ≠ str "-"
}.

Definition line_read (g : Inner) (id : Str) (n : ClusterNode) : ParsedNodesLine :=
  mkLine (n_id n) (n_ip n) (n_port n) (n_myself n) (n_master n) (n_fail n) (negb (n_fail n) && n_pfail n) (n_master_id n) (current_epoch g)
    (slot_ranges_for (slot_owner g) id).

Lemma flags_word n : word (join (str ",") (flag_words n)) = true.
Proof. unfold flag_words. by destruct (n_myself n), (n_fail n), (n_pfail n), (n_master n). Qed.

Lemma node_words_ok g id n :
  node_writable n → 0 ≤ current_epoch g → all_words ((range_word <$> slot_ranges_for (slot_owner g) id) ++ (if n_myself n then transit_words g else [])) →
  all_words (node_words g id n).
Proof.
  intros [H1 _ H3 _ Hp Hc H6] He Hw. unfold node_words. set (ws := (range_word <$> _) ++ _) in *. clearbody ws. repeat (apply Forall_cons; split); try done.
  - apply word_intro; [|by destruct (n_ip n)]. rewrite !solid_app, !number_solid, H3. done.
  - apply flags_word.
  - destruct (n_master_id n) as [m|]; [by apply H6|done].
  - by apply number_word.
  - by destruct (n_fail n).
Qed.

Lemma parse_address n : node_writable n →
  let addr := n_ip n ++ str ":" ++ to_string (n_port n) ++ str "@" ++ to_string (n_cport n) in
  split_once 64 addr = Some (n_ip n ++ str ":" ++ to_string (n_port n), to_string (n_cport n)) ∧
  rsplit_once 58 (n_ip n ++ str ":" ++ to_string (n_port n)) = Some (n_ip n, to_string (n_port n)).
Proof.
  intros [_ _ _ H4 [Hp _] _ _]. cbv zeta. split.
  - change (str "@" ++ to_string (n_cport n)) with (64 :: to_string (n_cport n)). rewrite !app_assoc. apply split_once_app. rewrite !not_elem_of_app.
    split_and!; [done|by vm_compute; intros ?%list_elem_of_singleton|]. intros Hc%number_chars; [lia|done].
  - apply (rsplit_once_app 58). intros Hc%number_chars; [lia|done].
Qed.

Lemma parse_node_words lineno g id n :
  node_writable n → 0 ≤ current_epoch g ≤ u64_max → Forall slot_range_ok (slot_ranges_for (slot_owner g) id) →
  all_words (if n_myself n then transit_words g else []) →
  parse_node_line lineno (join space (node_words g id n)) = Ok (line_read g id n).
Proof.
  intros Hn He Hr Ht. assert (Hall : all_words ((range_word <$> slot_ranges_for (slot_owner g) id) ++ (if n_myself n then transit_words g else []))).
  { apply Forall_app. split; [|done]. apply Forall_fmap. eapply Forall_impl; [exact Hr|]. intros r. apply range_word_ok. }
  unfold parse_node_line. rewrite split_join by (apply node_words_ok; done || lia). unfold node_words. cbn [app].
  destruct (parse_address n Hn) as [-> ->]. rewrite parse_to_string_u16 by apply Hn.
  rewrite parse_range_words; [|done|]. 2: { destruct (n_myself n); [|done]. unfold transit_words. apply Forall_app. by split; apply Forall_fmap, Forall_forall. }
  cbn [mbind result_bind]. rewrite parse_to_string_u64 by done. unfold line_read. f_equal.
  assert (Em : (if decide (default (str "-") (n_master_id n) = str "-") then None else Some (default (str "-") (n_master_id n))) = n_master_id n).
  { pose proof (nw_master n Hn) as Hm. destruct (n_master_id n) as [m|]; [|done]. cbn. rewrite decide_False; [done|]. by apply Hm. }
  rewrite Em. unfold flag_words. by destruct (n_myself n), (n_fail n), (n_pfail n), (n_master n).
Qed.

(** A node line is no comment. *)
Lemma node_line_trim g id n : node_writable n → all_words (node_words g id n) → trim (join space (node_words g id n)) = join space (node_words g id n).
Proof.
  intros Hn Hw. destruct (n_id n) as [|c r] eqn:E; [by destruct (word_solid _ (nw_id n Hn))|]. unfold node_words in *. rewrite E in *. by apply (trim_join _ _ c r).
Qed.
Lemma node_line_mark g id n : node_writable n → starts_with hash_mark (join space (node_words g id n)) = false ∧ join space (node_words g id n) ≠ [].
Proof.
  intros Hn. pose proof (nw_mark n Hn) as Hm. destruct (word_solid _ (nw_id n Hn)) as [_ Hne]. unfold node_words. cbn [app]. rewrite join_app_cons by done.
  by destruct (n_id n) as [|c r].
Qed.
Lemma node_line_comment g id n : node_writable n → all_words (node_words g id n) → comment (join space (node_words g id n)) = None.
Proof. intros Hn Hw. unfold comment. rewrite node_line_trim by done. by rewrite (proj1 (node_line_mark g id n Hn)). Qed.

(** ** The whole file *)

Definition epoch_lines (g : Inner) : list (list Str) := epoch_words <$> runs (slot_config_epoch g).
Definition vote_list (g : Inner) : list (Z * PrepareVote) := omap (λ slot, pair slot <$> prepare_node g !! slot) (merge_sort Z.le (map_to_list (prepare_node g)).*1).

Definition setting_words (c : ClusterState) : list (list Str) :=
  [ [str "Kore"; str "cluster"; str "nodes.conf"; str "generated"; str "by"; str "CLUSTER"; str "SAVECONFIG"];
    [str "epoch"; to_string (current_epoch (inner c))];
    [str "require-full-coverage"; yes_no (require_full_coverage c)];
    [str "allow-reads-when-down"; yes_no (allow_reads_when_down c)];
    str "announce-ip" :: option_list (announce_ip c);
    [str "announce-port"; to_string (default 0 (announce_port c))];
    [str "replica-priority"; to_string (local_repl_priority (inner c))] ].

Definition header_words (now : Z) (c : ClusterState) : list (list Str) :=
  setting_words c ++ epoch_lines (inner c) ++ (vote_words <$> vote_list (purge_votes now (inner c))).

(** The nodes in the order of the file. *)
Definition listing (g : Inner) : list (Str * ClusterNode) := omap (λ id, pair id <$> nodes g !! id) (node_ids g).

Lemma header_lines_words now c : header_lines now c = comment_line <$> header_words now c.
Proof.
  unfold header_lines, header_words. rewrite !fmap_app. f_equal; [|f_equal].
  - unfold setting_words. rewrite !fmap_cons. repeat f_equal; [by destruct (announce_ip c)|by destruct (announce_port c)].
  - unfold format_slot_epoch_header_lines, epoch_lines. rewrite <- list_fmap_compose. apply list_fmap_ext. by intros i [[a b] e] _.
  - unfold format_prepare_header_lines, vote_list. set (l := merge_sort Z.le _). clearbody l. induction l as [|x l IH]; [done|]. cbn [omap list_omap].
    destruct (prepare_node (purge_votes now (inner c)) !! x) as [v|] eqn:Ev; cbn [fmap option_fmap option_map]; [|exact IH]. cbn [list_fmap fmap]. f_equal. exact IH.
Qed.

Lemma conf_text_lines now c :
  listing (inner c) ≠ [] →
  (∀ x, x ∈ listing (inner c) → node_line (inner c) x.1 x.2 = join space (node_words (inner c) x.1 x.2)) →
  conf_text now c = join nl ((comment_line <$> header_words now c) ++ ((λ x, join space (node_words (inner c) x.1 x.2)) <$> listing (inner c))) ++ nl.
Proof.
  intros Hne Hl. unfold conf_text, format_nodes. rewrite header_lines_words.
  assert (E : omap (λ id, node_line (inner c) id <$> nodes (inner c) !! id) (node_ids (inner c)) = (λ x, join space (node_words (inner c) x.1 x.2)) <$> listing (inner c)).
  { transitivity ((λ x, node_line (inner c) x.1 x.2) <$> listing (inner c)); [|apply list_fmap_ext; intros i x Hx; by eapply Hl, list_elem_of_lookup_2].
    unfold listing. generalize (node_ids (inner c)) as l. induction l as [|id l IH]; [done|]. cbn [omap list_omap]. destruct (nodes (inner c) !! id); cbn; [by f_equal|done]. }
  rewrite E. set (L := _ <$> listing (inner c)). assert (HL : L ≠ []) by (unfold L; by destruct (listing (inner c))). clearbody L. set (H := comment_line <$> _). clearbody H.
  clear -HL. induction H as [|h H IH]; [done|]. cbn [fmap list_fmap concat app]. rewrite join_app_cons by (by destruct H). rewrite <- !app_assoc. by rewrite <- IH.
Qed.

End printing.

(** What the format can hold. *)
Record conf_writable (c : ClusterState) : Prop := {
  cw_ok : cluster_ok (inner c);
  cw_nodes : ∀ id n, nodes (inner c) !! id = Some n →
    word id = true ∧ starts_with hash_mark id = false ∧ solid (n_ip n) = true ∧ (64 ∉ n_ip n) ∧ (∀ m, n_master_id n = Some m → word m = true ∧ m ≠ str "-");
  cw_ip : ∀ ip, announce_ip c = Some ip → word ip = true;
  cw_port : ∀ p, announce_port c = Some p → 0 < p ≤ u16_max;
  cw_priority : 0 ≤ local_repl_priority (inner c) ≤ u32_max;
  cw_votes : ∀ s v, prepare_node (inner c) !! s = Some v → word (v_target_id v) = true ∧ in_u64 (v_prepared_at v)
}.

Lemma omap_Some_id {A} (l : list A) : omap Some l = l.
Proof. induction l as [|x l IH]; [done|]. cbn. by f_equal. Qed.

Lemma inserted_lookup {A} (l : list (Z * A)) s v : NoDup l.*1 → (s, v) ∈ l ↔ foldl (λ m x, <[x.1 := x.2]> m) (∅ : gmap Z A) l !! s = Some v.
Proof.
  intros Hd. assert (K : ∀ (m : gmap Z A), foldl (λ m x, <[x.1 := x.2]> m) m l !! s = Some v ↔ (s, v) ∈ l ∨ ((s ∉ l.*1) ∧ m !! s = Some v)).
  { induction l as [|[k a] l IH]; intros m; [cbn; split; [intros ?; right; split; [apply not_elem_of_nil|done]|intros [?%not_elem_of_nil|[_ ?]]; done]|].
    cbn in Hd. apply NoDup_cons in Hd as [Hk Hd]. cbn [foldl fmap list_fmap fst snd]. rewrite IH, elem_of_cons, not_elem_of_cons by done. clear IH.
    destruct (decide (s = k)) as [->|Hne].
    - rewrite lookup_insert_eq. split; [intros [?|[_ [= ->]]]; [by left; right|by left; left]|]. intros [[[= ->]|?]|[[? _] _]]; [by right|by left|done].
    - rewrite lookup_insert_ne by done. split; [intros [?|[? ?]]; [by left; right|by right]|]. intros [[[= -> ->]|?]|[[_ ?] ?]]; [done|by left|by right]. }
  rewrite K, lookup_empty. split; [by left|]. by intros [?|[_ ?]].
Qed.

Lemma omap_part_NoDup {A B} (f : A * B → option (A * B)) (l : list (A * B)) : (∀ x y, f x = Some y → y = x) → NoDup l.*1 → NoDup (omap f l).*1.
Proof.
  intros Hf. induction l as [|x l IH]; intros Hd; [constructor|]. cbn in Hd. apply NoDup_cons in Hd as [Hx Hd]. cbn [omap list_omap]. destruct (f x) as [y|] eqn:E; [|by apply IH].
  apply Hf in E as ->. cbn. constructor; [|by apply IH]. intros (y & E & Hy)%list_elem_of_fmap. apply list_elem_of_omap in Hy as (z & Hz & ->%Hf). apply Hx. rewrite E.
  apply list_elem_of_fmap. by exists z.
Qed.

(** ** The ranges of a node *)

Lemma slot_ranges_bounds slot open who l r :
  (∀ f, open = Some f → f < slot) → r ∈ slot_ranges_from slot open who l → default slot open ≤ r.1 ≤ r.2 ∧ r.2 < slot + Z.of_nat (length l).
Proof.
  revert slot open. induction l as [|o l IH]; intros slot open Ho; cbn [slot_ranges_from length].
  - destruct open as [f|]; [|by intros ?%not_elem_of_nil]. specialize (Ho f eq_refl). intros ->%list_elem_of_singleton. cbn. lia.
  - case_decide.
    + intros Hr%IH; [|intros f [= <-]; destruct open as [g|]; cbn; [specialize (Ho g eq_refl)|]; lia]. cbn in Hr.  destruct open as [g|]; cbn in *; lia.
    + destruct open as [f|].
      * specialize (Ho f eq_refl). intros [->|Hr%IH]%elem_of_cons; cbn in *; [lia| |done]. lia.
      * intros Hr%IH; [cbn in *; lia|done].
Qed.

Lemma slot_ranges_cover slot open who l i :
  (∀ f, open = Some f → f < slot) →
  (∃ r, r ∈ slot_ranges_from slot open who l ∧ r.1 ≤ i ≤ r.2) ↔ (∃ f, open = Some f ∧ f ≤ i < slot) ∨ (slot ≤ i ∧ l !! Z.to_nat (i - slot) = Some who).
Proof.
  revert slot open. induction l as [|o l IH]; intros slot open Ho; cbn [slot_ranges_from].
  - rewrite lookup_nil. destruct open as [f|]; split.
    + intros (r & ->%list_elem_of_singleton & Hr). left. exists f. cbn in Hr. split; [done|lia].
    + intros [(f' & [= ->] & Hf)|[_ ?]]; [|done]. exists (f', slot - 1). split; [left|cbn; lia].
    + by intros (r & ?%not_elem_of_nil & _).
    + by intros [(f' & ? & _)|[_ ?]].
  - assert (L : ∀ x : Str, (slot ≤ i ∧ (o :: l) !! Z.to_nat (i - slot) = Some x) ↔ (i = slot ∧ o = x) ∨ (slot + 1 ≤ i ∧ l !! Z.to_nat (i - (slot + 1)) = Some x)).
    { intros x. destruct (Z.lt_trichotomy i slot) as [Hi|[->|Hi]].
      - split; [lia|]. intros [[? _]|[? _]]; lia.
      - rewrite Z.sub_diag. split; [intros [_ [= <-]]; by left|]. intros [[_ <-]|[? _]]; [done|lia].
      - replace (Z.to_nat (i - slot)) with (S (Z.to_nat (i - (slot + 1)))) by lia. cbn [lookup list_lookup].
        split; [intros [_ E]; right; split; [lia|done]|]. intros [[? _]|[_ E]]; [lia|split; [lia|done]]. }
    rewrite L. case_decide as Eo.
    + subst o. rewrite IH by (intros f [= <-]; destruct open as [g|]; cbn; [specialize (Ho g eq_refl)|]; lia). split.
      * intros [(f & [= <-] & Hf)|?]; [|tauto]. destruct open as [g|]; cbn in Hf; [|right; left; split; [lia|done]].
        destruct (decide (i = slot)) as [->|]; [tauto|]. left. exists g. split; [done|lia].
      * intros [(f & -> & Hf)|[[-> _]|?]]; [| |tauto]; left; eexists; (split; [done|]); [cbn; lia|]. destruct open as [g|]; cbn; [specialize (Ho g eq_refl)|]; lia.
    + destruct open as [f|].
      * specialize (Ho f eq_refl). specialize (IH (slot + 1) None ltac:(done)). split.
        -- intros (r & [->|Hr]%elem_of_cons & Hi); [left; exists f; cbn in Hi; split; [done|lia]|].
           destruct (proj1 IH (ex_intro _ r (conj Hr Hi))) as [(? & ? & _)|?]; [done|tauto].
        -- intros [(f' & [= <-] & Hf)|[[_ ?]|Hn]]; [exists (f, slot - 1); split; [left|cbn; lia]|done|].
           destruct (proj2 IH (or_intror Hn)) as (r & Hr & Hi). exists r. split; [by right|done].
      * rewrite IH by done. split; [intros [(? & ? & _)|?]; [done|tauto]|]. intros [(? & ? & _)|[[_ ?]|?]]; [done|done|tauto].
Qed.

Lemma ranges_ok g id : cluster_ok g → Forall slot_range_ok (slot_ranges_for (slot_owner g) id).
Proof.
  intros H. apply Forall_forall. intros r Hr%slot_ranges_bounds; [|done]. rewrite (ok_owners g H) in Hr. cbn in Hr. unfold slot_range_ok, slot_in.
  assert (0 ≤ SLOT_COUNT) by (by vm_compute). lia.
Qed.

Lemma ranges_cover g id s : cluster_ok g → slot_in s → (∃ r, r ∈ slot_ranges_for (slot_owner g) id ∧ r.1 ≤ s ≤ r.2) ↔ owner_at g s = Some id.
Proof.
  intros H [H0 _]. unfold slot_ranges_for. rewrite slot_ranges_cover by done. rewrite Z.sub_0_r. unfold owner_at, sidx. split; [intros [(? & ? & _)|[_ ?]]; done|]. intros E. by right.
Qed.

(** ** The lines of the file *)

Section reload.
Context {CO : ClusterOrder} {CL : ClusterOrderLaws}.

Lemma listing_elem g x : cluster_ok g → x ∈ listing g ↔ nodes g !! x.1 = Some x.2.
Proof.
  intros H. unfold listing. rewrite list_elem_of_omap. split.
  - intros (id & _ & E). destruct (nodes g !! id) as [n|] eqn:En; [|done]. injection E as <-. done.
  - intros Hx. destruct x as [id n]. cbn in Hx. exists id. rewrite Hx. split; [|done]. unfold node_ids. apply elem_of_app. destruct (decide (id = my_id g)) as [->|Hne].
    + left. rewrite decide_True by eauto. left.
    + right. unfold sort_strings. rewrite merge_sort_Permutation. apply list_elem_of_fmap. exists (id, n). split; [done|]. apply elem_of_map_to_list. by rewrite lookup_delete_ne.
Qed.

Lemma listing_NoDup g : NoDup (listing g).*1.
Proof.
  assert (Hn : NoDup (node_ids g)).
  { unfold node_ids. apply NoDup_app. split_and!.
    - case_decide; [apply NoDup_singleton|constructor].
    - intros x Hx. case_decide; [|by apply not_elem_of_nil in Hx]. apply list_elem_of_singleton in Hx as ->. unfold sort_strings. rewrite merge_sort_Permutation.
      intros (y & E & Hy)%list_elem_of_fmap. destruct y as [k n]. cbn in E. subst k. apply elem_of_map_to_list in Hy. by rewrite lookup_delete_eq in Hy.
    - unfold sort_strings. rewrite merge_sort_Permutation. apply NoDup_fst_map_to_list. }
  unfold listing. induction Hn as [|id l Hid Hn IH]; [constructor|]. cbn [omap list_omap]. destruct (nodes g !! id) as [n|]; cbn; [|exact IH]. constructor; [|exact IH].
  intros (y & -> & Hy)%list_elem_of_fmap. apply list_elem_of_omap in Hy as (k & Hk & E). destruct (nodes g !! k); [|done]. injection E as <-. done.
Qed.

Lemma listing_head g n : nodes g !! my_id g = Some n → ∃ rest, listing g = (my_id g, n) :: rest.
Proof. intros H. unfold listing, node_ids. rewrite decide_True by eauto. cbn [app omap list_omap]. rewrite H. cbn. by eexists. Qed.

Section saved.
Context (c : ClusterState) (W : conf_writable c).

Abbreviation g := (inner c).

Lemma saved_node id n : nodes g !! id = Some n → node_writable n.
Proof.
  intros Hn. destruct (cw_nodes c W id n Hn) as (H1 & H2 & H3 & H4 & H5). destruct (ok_nodes g (cw_ok c W) id n Hn) as [E1 _ _ Hp Hc]. split; try done; [by rewrite E1..|].
  rewrite Hc. unfold sat_add_u16. lia.
Qed.

Lemma transit_words_ok : all_words (transit_words g).
Proof.
  assert (Hw : ∀ (x : Str) s d, solid x = true → word d = true → word (str "[" ++ to_string s ++ x ++ d ++ str "]") = true).
  { intros x s d Hx [Hd _]%word_solid. apply word_intro; [|done]. rewrite !solid_app, number_solid, Hx, Hd. done. }
  unfold transit_words. apply Forall_app. split; apply Forall_fmap, Forall_forall; intros [s d] Hx; rewrite slot_iter_perm in Hx; apply elem_of_map_to_list in Hx; apply Hw; try done.
  - destruct (ok_migrating g (cw_ok c W) s d Hx) as (_ & _ & _ & n & Hn). apply (proj1 (cw_nodes c W d n Hn)).
  - destruct (ok_importing g (cw_ok c W) s d Hx) as (_ & n & Hn). apply (proj1 (cw_nodes c W d n Hn)).
Qed.

Lemma line_words_ok id n : nodes g !! id = Some n →
  all_words (if n_myself n then transit_words g else []) ∧
  all_words ((range_word <$> slot_ranges_for (slot_owner g) id) ++ (if n_myself n then transit_words g else [])) ∧ all_words (node_words g id n).
Proof.
  intros Hn. assert (H1 : all_words (if n_myself n then transit_words g else [])) by (destruct (n_myself n); [apply transit_words_ok|constructor]).
  assert (H2 : all_words ((range_word <$> slot_ranges_for (slot_owner g) id) ++ (if n_myself n then transit_words g else []))).
  { apply Forall_app. split; [|done]. apply Forall_fmap. eapply Forall_impl; [apply (ranges_ok g id (cw_ok c W))|]. intros r. apply range_word_ok. }
  split_and!; [done|done|]. apply node_words_ok; [by eapply saved_node| |done]. pose proof (ok_current g (cw_ok c W)). lia.
Qed.

Lemma epochs_read_ok x : x ∈ runs (slot_config_epoch g) → slot_in x.1.1 ∧ slot_in x.1.2 ∧ x.1.1 ≤ x.1.2 ∧ 1 ≤ x.2 ≤ current_epoch g.
Proof.
  intros Hx. pose proof (runs_bounds _ _ Hx) as Hb. rewrite (ok_epochs g (cw_ok c W)) in Hb. assert (0 ≤ SLOT_COUNT) by (by vm_compute). rewrite Z2Nat.id in Hb by done.
  pose proof (runs_elem _ _ Hx) as He. apply list_elem_of_lookup in He as [i He]. apply (ok_epoch g (cw_ok c W)) in He. unfold slot_in. lia.
Qed.

Lemma vote_list_elem now x : x ∈ vote_list (purge_votes now g) ↔ prepare_node g !! x.1 = Some x.2 ∧ prepare_vote_expired now x.2 = false.
Proof.
  unfold vote_list. rewrite list_elem_of_omap. split.
  - intros (s & _ & E). destruct (prepare_node (purge_votes now g) !! s) as [v|] eqn:Ev; [|done]. injection E as <-. cbn in Ev |- *. by apply map_lookup_filter_Some in Ev.
  - intros [H1 H2]. destruct x as [s v]. cbn in H1, H2. assert (Hf : prepare_node (purge_votes now g) !! s = Some v) by (cbn; by apply map_lookup_filter_Some).
    exists s. rewrite Hf. split; [|done]. rewrite merge_sort_Permutation. apply list_elem_of_fmap. exists (s, v). split; [done|]. by apply elem_of_map_to_list.
Qed.

Lemma vote_list_ok now x : x ∈ vote_list (purge_votes now g) → slot_in x.1 ∧ word (v_target_id x.2) = true ∧ in_u64 (v_slot_epoch x.2) ∧ in_u64 (v_prepared_at x.2).
Proof.
  intros [H _]%vote_list_elem. destruct (cw_votes c W _ _ H) as [H1 H2]. destruct (ok_votes g (cw_ok c W) _ _ H) as [H3 H4]. exact (conj H3 (conj H1 (conj H4 H2))).
Qed.

Lemma setting_words_ok : Forall comment_words (setting_words c).
Proof.
  unfold setting_words. pose proof (ok_current g (cw_ok c W)). pose proof (cw_priority c W).
  repeat (apply Forall_cons; split); [| | | | | | |by constructor]; (split; [|by eexists _, _, _]); repeat constructor; try (by apply number_word; lia).
  - by destruct (require_full_coverage c).
  - by destruct (allow_reads_when_down c).
  - destruct (announce_ip c) as [ip|] eqn:E; cbn; [|constructor]. constructor; [by apply (cw_ip c W)|constructor].
  - apply number_word. destruct (announce_port c) as [p|] eqn:E; cbn; [|done]. pose proof (cw_port c W p E). lia.
Qed.

Lemma header_words_ok now : Forall comment_words (header_words now c).
Proof.
  unfold header_words. rewrite !Forall_app. split_and!; [apply setting_words_ok|..]; apply Forall_fmap, Forall_forall.
  - intros x Hx%epochs_read_ok. apply epoch_words_ok; unfold slot_in in *; lia.
  - intros x Hx%vote_list_ok. apply vote_words_ok; unfold slot_in in *; naive_solver lia.
Qed.

Definition conf_lines (now : Z) : list Str := (comment_line <$> header_words now c) ++ ((λ x, join space (node_words g x.1 x.2)) <$> listing g).

Lemma conf_lines_read now : lines (conf_text now c) = conf_lines now.
Proof.
  destruct (ok_me g (cw_ok c W)) as [n Hn]. destruct (listing_head g n Hn) as [rest El].
  rewrite conf_text_lines; [|by rewrite El|].
  - apply lines_join; [|unfold conf_lines; rewrite El; by destruct (comment_line <$> header_words now c)]. apply Forall_app. split; apply Forall_fmap.
    + eapply Forall_impl; [apply header_words_ok|]. intros ws. apply comment_line_plain.
    + apply Forall_forall. intros x Hx. apply join_plain. apply listing_elem in Hx; [|apply W]. by apply line_words_ok.
  - intros x Hx. apply listing_elem in Hx; [|apply W]. apply node_line_words. by apply line_words_ok.
Qed.

(** *** Nodes *)

Lemma nodes_read now : parse_nodes_conf_lines (conf_text now c) = Ok ((λ x, line_read g x.1 x.2) <$> listing g).
Proof.
  unfold parse_nodes_conf_lines. rewrite conf_lines_read. unfold conf_lines. generalize 0 as lineno.
  induction (header_words_ok now) as [|ws l Hw Hl IH]; intros lineno; cbn [fmap list_fmap app].
  - assert (Hx : ∀ x, x ∈ listing g → nodes g !! x.1 = Some x.2) by (intros x; apply listing_elem, W). revert lineno. induction (listing g) as [|x l IH]; intros lineno; [done|].
    specialize (IH ltac:(intros y Hy; apply Hx; by right)). specialize (Hx x ltac:(left)). destruct (line_words_ok x.1 x.2 Hx) as (H1 & _ & H3). pose proof (saved_node x.1 x.2 Hx) as Hn.
    cbn [fmap list_fmap parse_lines_from]. rewrite node_line_trim by done. destruct (node_line_mark g x.1 x.2 Hn) as [-> Hne]. rewrite bool_decide_eq_false_2 by done. cbn [orb].
    pose proof (ok_current g (cw_ok c W)). rewrite parse_node_words; [|done|lia|apply ranges_ok, W|done]. cbn [mbind result_bind]. fold (fmap (M:=list) (λ x, join space (node_words g x.1 x.2))). by rewrite IH.
  - rewrite comment_line_skipped by done. apply IH.
Qed.

Lemma header_epoch_read now : parse_nodes_conf_header_epoch (conf_text now c) = Some (current_epoch g).
Proof.
  unfold parse_nodes_conf_header_epoch. rewrite conf_lines_read. unfold conf_lines, header_words, setting_words. cbn [app fmap list_fmap omap list_omap].
  pose proof (ok_current g (cw_ok c W)) as Hc. pose proof setting_words_ok as Hs. unfold setting_words in Hs. apply Forall_cons in Hs as [H1 Hs]. apply Forall_cons in Hs as [H2 _].
  rewrite trim_comment by done. rewrite trim_comment by done. change (strip_prefix (str "# epoch ") (comment_line [str "epoch"; to_string (current_epoch g)])) with (Some (to_string (current_epoch g))).
  cbn [mbind option_bind]. rewrite trim_word by (apply number_word; lia). rewrite parse_to_string_u64 by lia. done.
Qed.

(** A line that is a node line says nothing to the readers of comments. *)
Lemma node_lines_silent {A} (f : Str → option A) : (∀ line, comment line = None → f line = None) → omap f ((λ x, join space (node_words g x.1 x.2)) <$> listing g) = [].
Proof.
  intros Hf. assert (Hx : ∀ x, x ∈ listing g → nodes g !! x.1 = Some x.2) by (intros x; apply listing_elem, W). induction (listing g) as [|x l IH]; [done|].
  specialize (Hx x ltac:(left)) as Hn. cbn [fmap list_fmap omap list_omap]. rewrite Hf by (apply node_line_comment; [by eapply saved_node|by apply line_words_ok]). apply IH. intros y Hy. apply Hx. by right.
Qed.

Lemma comments_silent {A} (f : Str → option A) (l : list (list Str)) : (∀ ws, ws ∈ l → f (comment_line ws) = None) → omap f (comment_line <$> l) = [].
Proof. intros Hf. induction l as [|ws l IH]; [done|]. cbn [fmap list_fmap omap list_omap]. rewrite Hf by left. apply IH. intros w Hw. apply Hf. by right. Qed.

Lemma comments_read {A B} (f : Str → option A) (h : B → list Str) (k : B → option A) (l : list B) :
  (∀ x, x ∈ l → f (comment_line (h x)) = k x) → omap f (comment_line <$> (h <$> l)) = omap k l.
Proof. intros Hf. induction l as [|x l IH]; [done|]. cbn [fmap list_fmap omap list_omap]. rewrite Hf by left. rewrite <- IH; [done|]. intros y Hy. apply Hf. by right. Qed.

Lemma settings_other ws : ws ∈ setting_words c → comment_words ws ∧ ∃ k' ws', ws = k' :: ws' ∧ k' ≠ str "slot-epoch" ∧ k' ≠ str "prepare".
Proof.
  intros Hw. pose proof setting_words_ok as Hs. rewrite Forall_forall in Hs. split; [by apply Hs|]. unfold setting_words in Hw. rewrite !elem_of_cons in Hw.
  destruct Hw as [->|[->|[->|[->|[->|[->|[->|?%not_elem_of_nil]]]]]]]; try done; by eexists _, _.
Qed.

(** *** Epochs *)

Lemma slot_epochs_read now : parse_nodes_conf_slot_epochs (conf_text now c) = runs (slot_config_epoch g).
Proof.
  unfold parse_nodes_conf_slot_epochs. rewrite conf_lines_read. unfold conf_lines, header_words. rewrite !fmap_app, !omap_app.
  rewrite (comments_silent _ (setting_words c)), node_lines_silent, (comments_silent _ (vote_words <$> _)), !app_nil_r; [cbn [app]|..].
  - unfold epoch_lines. rewrite (comments_read _ _ Some); [by apply omap_Some_id|]. intros x (H1 & H2 & H3 & H4)%epochs_read_ok. pose proof (ok_current g (cw_ok c W)).
    apply parse_epoch_line; [done..|lia].
  - intros ws (x & -> & Hx)%list_elem_of_fmap. apply other_comment_epoch; [|done]. pose proof (header_words_ok now) as Hh. rewrite Forall_forall in Hh. apply Hh. unfold header_words.
    rewrite !elem_of_app. right. right. apply list_elem_of_fmap. by exists x.
  - intros line E. unfold parse_slot_epoch. by rewrite E.
  - intros ws Hw. destruct (settings_other ws Hw) as (Hc & k & ws' & -> & Hk & _). by apply other_comment_epoch.
Qed.

(** *** Votes *)

Lemma header_elem now ws : ws ∈ header_words now c → comment_words ws.
Proof. intros Hw. pose proof (header_words_ok now) as H. rewrite Forall_forall in H. by apply H. Qed.

Lemma votes_parsed now now' :
  omap (parse_prepare now') (lines (conf_text now c)) = omap (λ x, if prepare_vote_expired now' x.2 then None else Some x) (vote_list (purge_votes now g)).
Proof.
  rewrite conf_lines_read. unfold conf_lines, header_words. rewrite !fmap_app, !omap_app.
  rewrite (comments_silent _ (setting_words c)), node_lines_silent, (comments_silent _ (epoch_lines g)), app_nil_r; [cbn [app]|..].
  - apply comments_read. intros x (H1 & H2 & H3 & H4)%vote_list_ok. by apply parse_vote_line.
  - intros ws Hw. assert (Hc : comment_words ws) by (apply (header_elem now); unfold header_words; set_solver). apply list_elem_of_fmap in Hw as (x & -> & _). by apply other_comment_vote.
  - intros line E. unfold parse_prepare. by rewrite E.
  - intros ws Hw. destruct (settings_other ws Hw) as (Hc & k & ws' & -> & _ & Hk). by apply other_comment_vote.
Qed.

Lemma vote_list_NoDup now : NoDup (vote_list (purge_votes now g)).*1.
Proof.
  unfold vote_list. assert (Hn : NoDup (merge_sort Z.le (map_to_list (prepare_node (purge_votes now g))).*1)) by (rewrite merge_sort_Permutation; apply NoDup_fst_map_to_list).
  induction Hn as [|s l Hs Hn IH]; [constructor|]. cbn [omap list_omap]. destruct (prepare_node _ !! s) as [v|]; cbn; [|exact IH]. constructor; [|exact IH].
  intros (y & -> & Hy)%list_elem_of_fmap. apply list_elem_of_omap in Hy as (k & Hk & E). apply fmap_Some in E as (w & _ & ->). done.
Qed.

Lemma votes_read now now' s v :
  parse_nodes_conf_prepares now' (conf_text now c) !! s = Some v ↔
  prepare_node g !! s = Some v ∧ prepare_vote_expired now v = false ∧ prepare_vote_expired now' v = false.
Proof.
  unfold parse_nodes_conf_prepares.
  assert (F : ∀ (l : list Str) (m : gmap Z PrepareVote), foldl (λ m line, match parse_prepare now' line with Some (slot, v) => <[slot := v]> m | None => m end) m l =
    foldl (λ m x, <[x.1 := x.2]> m) m (omap (parse_prepare now') l)).
  { induction l as [|x l IH]; intros m; [done|]. cbn [foldl omap list_omap]. destruct (parse_prepare now' x) as [[a b]|]; cbn [foldl]; apply IH. }
  rewrite F, votes_parsed. set (k := omap _ _). assert (Hk : ∀ x, x ∈ k ↔ (prepare_node g !! x.1 = Some x.2 ∧ prepare_vote_expired now x.2 = false) ∧ prepare_vote_expired now' x.2 = false).
  { intros x. unfold k. rewrite list_elem_of_omap. setoid_rewrite vote_list_elem. split.
    - intros (y & Hy & E). destruct (prepare_vote_expired now' y.2) eqn:Ee; [done|]. injection E as ->. by split.
    - intros [Hx E]. exists x. split; [done|by rewrite E]. }
  assert (Hd : NoDup k.*1) by (apply omap_part_NoDup, vote_list_NoDup; intros x y; by destruct (prepare_vote_expired now' x.2); [|intros [= ->]]).
  rewrite <- inserted_lookup, Hk by done. cbn. tauto.
Qed.

(** *** Settings *)

Lemma setting_read (fl : NodesConfLiveFlags) k (w : Str) : word k = true → word w = true → comment_words [k; w] →
  parse_flag_line fl (comment_line [k; w]) =
  (if decide (k = str "require-full-coverage") then
      mkFlags (update (f_require_full_coverage fl) (parse_yes_no w)) (f_allow_reads_when_down fl) (f_announce_ip fl) (f_announce_port fl) (f_replica_priority fl)
    else if decide (k = str "allow-reads-when-down") then
      mkFlags (f_require_full_coverage fl) (update (f_allow_reads_when_down fl) (parse_yes_no w)) (f_announce_ip fl) (f_announce_port fl) (f_replica_priority fl)
    else if decide (k = str "announce-ip") then
      mkFlags (f_require_full_coverage fl) (f_allow_reads_when_down fl) (Some w) (f_announce_port fl) (f_replica_priority fl)
    else if decide (k = str "announce-port") then
      mkFlags (f_require_full_coverage fl) (f_allow_reads_when_down fl) (f_announce_ip fl) (update (f_announce_port fl) (parse_u16 w)) (f_replica_priority fl)
    else if decide (k = str "replica-priority") then
      mkFlags (f_require_full_coverage fl) (f_allow_reads_when_down fl) (f_announce_ip fl) (f_announce_port fl) (update (f_replica_priority fl) (parse_u32 w))
    else fl).
Proof.
  intros Hk Hw Hc. unfold parse_flag_line. rewrite comment_of_line by done. rewrite split_space_words by done. cbn [join]. rewrite trim_word by done.
  assert (k ++ space ++ w ≠ []) by (destruct (word_solid k Hk) as [_ ?]; by destruct k). rewrite decide_False by done.
  destruct (word_solid w Hw) as [_ Hne]. by rewrite (decide_False (P:=w = [])).
Qed.

Lemma foldl_same {A B} (f : A → B → A) (l : list B) a : (∀ x, x ∈ l → f a x = a) → foldl f a l = a.
Proof. intros H. induction l as [|x l IH]; [done|]. cbn [foldl]. rewrite H by left. apply IH. intros y Hy. apply H. by right. Qed.

Lemma not_flag_key (k : Str) : bool_decide (is_flag_key k) = false → ¬ is_flag_key k.
Proof. apply bool_decide_eq_false_1. Qed.

Lemma announced_ip_read (fl : NodesConfLiveFlags) :
  parse_flag_line fl (comment_line (str "announce-ip" :: option_list (announce_ip c))) =
  mkFlags (f_require_full_coverage fl) (f_allow_reads_when_down fl) (Some (default [] (announce_ip c))) (f_announce_port fl) (f_replica_priority fl).
Proof.
  destruct (announce_ip c) as [ip|] eqn:E; [|done]. pose proof (cw_ip c W ip E) as Hw. change (option_list (Some ip)) with [ip].
  rewrite setting_read; [done|done|done|]. split; [by repeat constructor|]. by eexists _, _, _.
Qed.

Lemma coverage_read (fl : NodesConfLiveFlags) b :
  parse_flag_line fl (comment_line [str "require-full-coverage"; yes_no b]) =
  mkFlags (Some b) (f_allow_reads_when_down fl) (f_announce_ip fl) (f_announce_port fl) (f_replica_priority fl).
Proof. by destruct b. Qed.
Lemma reads_read (fl : NodesConfLiveFlags) b :
  parse_flag_line fl (comment_line [str "allow-reads-when-down"; yes_no b]) =
  mkFlags (f_require_full_coverage fl) (Some b) (f_announce_ip fl) (f_announce_port fl) (f_replica_priority fl).
Proof. by destruct b. Qed.
Lemma port_read (fl : NodesConfLiveFlags) p : in_u16 p →
  parse_flag_line fl (comment_line [str "announce-port"; to_string p]) =
  mkFlags (f_require_full_coverage fl) (f_allow_reads_when_down fl) (f_announce_ip fl) (Some p) (f_replica_priority fl).
Proof.
  intros Hp. assert (Hw : word (to_string p) = true) by (apply number_word; lia).
  rewrite setting_read; [by rewrite parse_to_string_u16|done|done|]. split; [by repeat constructor|]. by eexists _, _, _.
Qed.
Lemma priority_read (fl : NodesConfLiveFlags) p : 0 ≤ p ≤ u32_max →
  parse_flag_line fl (comment_line [str "replica-priority"; to_string p]) =
  mkFlags (f_require_full_coverage fl) (f_allow_reads_when_down fl) (f_announce_ip fl) (f_announce_port fl) (Some p).
Proof.
  intros Hp. assert (Hw : word (to_string p) = true) by (apply number_word; lia).
  rewrite setting_read; [by rewrite parse_to_string_u32|done|done|]. split; [by repeat constructor|]. by eexists _, _, _.
Qed.

Lemma flags_read now :
  parse_nodes_conf_live_flags (conf_text now c) =
  mkFlags (Some (require_full_coverage c)) (Some (allow_reads_when_down c)) (Some (default [] (announce_ip c))) (Some (default 0 (announce_port c))) (Some (local_repl_priority g)).
Proof.
  unfold parse_nodes_conf_live_flags. rewrite conf_lines_read. unfold conf_lines, header_words. rewrite !fmap_app, !foldl_app.
  pose proof (header_elem now) as Hh. unfold header_words in Hh.
  rewrite (foldl_same _ (_ <$> listing g)), (foldl_same _ (comment_line <$> (vote_words <$> _))), (foldl_same _ (comment_line <$> epoch_lines g)).
  - assert (Hs : ∀ i ws, setting_words c !! i = Some ws → comment_words ws) by (intros i ws; apply Forall_lookup_1, setting_words_ok). unfold setting_words in *. cbn [fmap list_fmap foldl].
    rewrite (other_comment_flag _ (str "Kore")) by (by apply (Hs 0%nat) || apply not_flag_key). rewrite (other_comment_flag _ (str "epoch")) by (by apply (Hs 1%nat) || apply not_flag_key).
    rewrite coverage_read, reads_read, announced_ip_read, port_read, priority_read; [done|apply W|].
    destruct (announce_port c) as [p|] eqn:E; cbn; [pose proof (cw_port c W p E); lia|done].
  - intros l (ws & -> & Hw)%list_elem_of_fmap. assert (Hc : comment_words ws) by (apply Hh; set_solver). apply list_elem_of_fmap in Hw as (x & -> & _). apply other_comment_flag; [done|]. by apply not_flag_key.
  - intros l (ws & -> & Hw)%list_elem_of_fmap. assert (Hc : comment_words ws) by (apply Hh; set_solver). apply list_elem_of_fmap in Hw as (x & -> & _). apply other_comment_flag; [done|]. by apply not_flag_key.
  - intros l (x & -> & Hx)%list_elem_of_fmap. apply listing_elem in Hx; [|apply W]. unfold parse_flag_line. rewrite node_line_comment; [done|by eapply saved_node|by apply line_words_ok].
Qed.

End saved.
End reload.
