(* ===== verification/ClusterRestore.v ===== *)
(** * The state that loading builds

    The slots, the nodes and the settings of a node that starts with the file it saved. *)

From S2P Require Import Prelude RustStd Text HashSlot ClusterState ClusterConf ClusterFacts ClusterEpochs ClusterMerge ClusterElection ClusterReload.
From Stdlib Require Import Lia.
Local Open Scope Z_scope.

#[local] Opaque Z.to_nat.

(** ** Stamping *)

(** Everything but the slots and the nodes. *)
Record same_rest (g g' : Inner) : Prop := {
  sr_id : my_id g' = my_id g;
  sr_ip : my_ip g' = my_ip g;
  sr_port : my_port g' = my_port g;
  sr_mig : migrating g' = migrating g;
  sr_imp : importing g' = importing g;
  sr_votes : prepare_node g' = prepare_node g;
  sr_epoch : current_epoch g' = current_epoch g;
  sr_offset : local_repl_offset g' = local_repl_offset g
}.

Lemma same_rest_refl g : same_rest g g.
Proof. by split. Qed.
Lemma same_rest_trans g1 g2 g3 : same_rest g1 g2 → same_rest g2 g3 → same_rest g1 g3.
Proof. intros [] []. split; congruence. Qed.

(** Both tables are complete. *)
Definition tables (g : Inner) : Prop := length (slot_owner g) = Z.to_nat SLOT_COUNT ∧ length (slot_config_epoch g) = Z.to_nat SLOT_COUNT.

Definition stamp (owner : option Str) (e : Z) (g : Inner) (slot : Z) : Inner :=
  if slot_ok slot then own g slot (default (default [] (owner_at g slot)) owner) e else g.

(** Some slots have another owner and epoch, or another epoch. *)
Record stamped (owner : option Str) (e : Z) (here : Z → Prop) (g g' : Inner) : Prop := {
  sm_rest : same_rest g g';
  sm_nodes : nodes g' = nodes g;
  sm_tables : tables g';
  sm_in : ∀ s, slot_in s → here s → owner_at g' s = Some (default (default [] (owner_at g s)) owner) ∧ epoch_at g' s = Some e;
  sm_out : ∀ s, slot_in s → ¬ here s → owner_at g' s = owner_at g s ∧ epoch_at g' s = epoch_at g s
}.

Lemma table_some g s : tables g → slot_in s → is_Some (owner_at g s).
Proof. intros [H _] Hs. by apply slot_lookup. Qed.

Lemma stamp_slots owner e l g : tables g → Forall slot_in l → stamped owner e (λ s, s ∈ l) g (foldl (stamp owner e) g l).
Proof.
  intros Hg Hl. revert g Hg. induction Hl as [|x l Hx Hl IH]; intros g Hg; cbn [foldl].
  { split; [apply same_rest_refl|done|done|by intros s _ ?%not_elem_of_nil|done]. }
  assert (E : stamp owner e g x = own g x (default (default [] (owner_at g x)) owner) e) by (unfold stamp, slot_ok; destruct Hx; by rewrite (proj2 (Z.ltb_lt _ _))).
  rewrite E. set (o := default _ owner). pose proof (λ s, own_lookup g x o e s (proj1 Hg) (proj2 Hg) Hx) as Ho.
  destruct (IH (own g x o e)) as [R1 R2 R3 R4 R5]. { destruct Hg as [H1 H2]. split; cbn; by rewrite length_insert. }
  split; [eapply same_rest_trans; [|exact R1]; by split|exact R2|done|..].
  - intros s Hs Hin. destruct (Ho s Hs) as [Eo Ee]. destruct (decide (s ∈ l)) as [Hsl|Hsl].
    + destruct (R4 s Hs Hsl) as [-> ->]. rewrite Eo. split; [|done]. case_decide as Ed; [|done]. subst x. cbn. unfold o. by destruct owner.
    + destruct (R5 s Hs Hsl) as [-> ->]. rewrite Eo, Ee. apply elem_of_cons in Hin as [->|?]; [|done]. rewrite !decide_True by done. done.
  - intros s Hs Hout. apply not_elem_of_cons in Hout as [Hne Hout]. destruct (R5 s Hs Hout) as [-> ->]. destruct (Ho s Hs) as [-> ->]. by rewrite !decide_False.
Qed.

Definition on_range (s : Z) (r : Z * Z) : Prop := r.1 ≤ s ≤ r.2.

Lemma stamp_ranges owner e rs g : tables g → Forall slot_range_ok rs → stamped owner e (λ s, Exists (on_range s) rs) g (foldl (stamp_range owner e) g rs).
Proof.
  intros Hg Hr. set (l := rs ≫= λ r, seqZ r.1 (r.2 - r.1 + 1)).
  assert (E : foldl (stamp_range owner e) g rs = foldl (stamp owner e) g l).
  { unfold l. clear. revert g. induction rs as [|r rs IH]; intros g; [done|]. cbn [foldl]. rewrite bind_cons, foldl_app. apply IH. }
  assert (Hl : ∀ s, s ∈ l ↔ Exists (on_range s) rs).
  { intros s. unfold l. rewrite list_elem_of_bind, Exists_exists. unfold on_range. setoid_rewrite elem_of_seqZ. split; intros (r & H1 & H2); exists r; [split; [done|lia]|split; [lia|done]]. }
  rewrite E. destruct (stamp_slots owner e l g Hg) as [S1 S2 S3 S4 S5].
  { apply Forall_forall. intros s (r & H1 & H2)%Hl%Exists_exists. rewrite Forall_forall in Hr. destruct (Hr r H1) as ([? ?] & [? ?] & ?). unfold on_range, slot_in in *. lia. }
  split; try done; intros s Hs He; [apply S4|apply S5]; rewrite ?Hl; done.
Qed.

(** ** Node lines *)

(** The node that a line of another node makes. *)
Definition node_of (l : ParsedNodesLine) : ClusterNode :=
  mkNode (l_id l) (l_ip l) (l_port l) (sat_add_u16 (l_port l) 10000) false (l_master l) (l_master_id l) (l_pfail l) (l_fail l) 0 100.

Definition owns_line (s : Z) (l : ParsedNodesLine) : Prop := Exists (on_range s) (l_slots l).

Lemma load_line_spec t e g l : tables g → Forall slot_range_ok (l_slots l) → let g' := load_node_line t e g l in
  same_rest g g' ∧ tables g' ∧
  (∀ id, nodes g' !! id = if decide (id = l_id l) then
      if decide (id = my_id g) then (λ n, with_fail (with_role n (l_master l) (l_master_id l)) false false) <$> nodes g !! id else Some (node_of l)
    else nodes g !! id) ∧
  (∀ s, slot_in s → (owns_line s l → owner_at g' s = Some (l_id l)) ∧ (¬ owns_line s l → owner_at g' s = owner_at g s)).
Proof.
  intros Hg Hr. cbv zeta. unfold load_node_line. set (g1 := if decide (l_id l = my_id g) then _ else _).
  assert (H1 : same_rest g g1 ∧ slot_owner g1 = slot_owner g ∧ slot_config_epoch g1 = slot_config_epoch g ∧
    ∀ id, nodes g1 !! id = if decide (id = l_id l) then
      if decide (id = my_id g) then (λ n, with_fail (with_role n (l_master l) (l_master_id l)) false false) <$> nodes g !! id else Some (node_of l) else nodes g !! id).
  { unfold g1. destruct (decide (l_id l = my_id g)) as [Ei|Ei].
    - split_and!; [by split|done|done|]. intros id. cbn. destruct (decide (id = l_id l)) as [->|Hne]; [rewrite (decide_True (P:=l_id l = my_id g)) by done; rewrite Ei; apply lookup_alter_eq|].
      apply lookup_alter_ne. congruence.
    - unfold first_pong. destruct (last_pong _ !! _); (split_and!; [by split|done|done|]); intros id; cbn; (destruct (decide (id = l_id l)) as [->|Hne];
        [rewrite decide_False by done; apply lookup_insert_eq|by apply lookup_insert_ne]). }
  clearbody g1. destruct H1 as (R & Eo & Ee & En). destruct (stamp_ranges (Some (l_id l)) e (l_slots l) g1) as [S1 S2 S3 S4 S5]; [unfold tables; by rewrite Eo, Ee|done|].
  split_and!; [by eapply same_rest_trans|done|intros id; rewrite S2; apply En|]. intros s Hs. split; intros Hx; [apply (S4 s Hs Hx)|]. destruct (S5 s Hs Hx) as [-> _]. unfold owner_at. by rewrite Eo.
Qed.

Record loaded (ls : list ParsedNodesLine) (g g' : Inner) : Prop := {
  lo_rest : same_rest g g';
  lo_tables : tables g';
  lo_new : ∀ l, l ∈ ls → l_id l ≠ my_id g → nodes g' !! l_id l = Some (node_of l);
  lo_old : ∀ id, id ∉ (l_id <$> ls) → nodes g' !! id = nodes g !! id;
  lo_me : ∀ n, nodes g !! my_id g = Some n →
    (∀ l, l ∈ ls → l_id l = my_id g → with_fail (with_role n (l_master l) (l_master_id l)) false false = n) → nodes g' !! my_id g = Some n;
  lo_in : ∀ s o, slot_in s → Exists (owns_line s) ls → (∀ l, l ∈ ls → owns_line s l → l_id l = o) → owner_at g' s = Some o;
  lo_out : ∀ s, slot_in s → ¬ Exists (owns_line s) ls → owner_at g' s = owner_at g s
}.

#[local] Instance on_range_dec s r : Decision (on_range s r) := _.
#[local] Instance owns_line_dec s l : Decision (owns_line s l) := _.

Lemma load_lines_spec t e ls g :
  tables g → NoDup (l_id <$> ls) → Forall (λ l, Forall slot_range_ok (l_slots l)) ls → loaded ls g (foldl (load_node_line t e) g ls).
Proof.
  intros Hg Hd Hr. revert g Hg Hd. induction Hr as [|l ls Hl Hr IH]; intros g Hg Hd; cbn [foldl].
  { split; try done; [by intros l ?%not_elem_of_nil|by intros s o _ ?%Exists_nil]. }
  cbn in Hd. apply NoDup_cons in Hd as [Hni Hd]. destruct (load_line_spec t e g l Hg Hl) as (R & T & N & O). set (g1 := load_node_line t e g l) in *. destruct (IH g1 T Hd) as [R1 T1 N1 N2 N3 O1 O2].
  pose proof (sr_id _ _ R) as Ei. split; [by eapply same_rest_trans|done|..].
  - intros l' [->|Hin]%elem_of_cons Hne; [|apply N1; [done|by rewrite Ei]]. rewrite N2 by done. rewrite N, decide_True, decide_False by done. done.
  - intros id [H1 H2]%not_elem_of_cons. rewrite N2 by done. by rewrite N, decide_False.
  - intros n Hn Hsame. rewrite <- Ei. apply N3; [|intros l' Hin E; apply Hsame; [by right|congruence]]. rewrite Ei, N. destruct (decide (my_id g = l_id l)) as [E|]; [|done].
    rewrite decide_True by done. rewrite Hn. cbn. f_equal. apply Hsame; [left|done].
  - intros s o Hs Hex Ho. destruct (decide (Exists (owns_line s) ls)) as [He|He]; [apply O1; [done|done|intros l' Hin; apply Ho; by right]|].
    rewrite O2 by done. apply Exists_cons in Hex as [Hx|?]; [|done]. rewrite (proj1 (O s Hs) Hx). f_equal. apply Ho; [left|done].
  - intros s Hs Hex. rewrite Exists_cons in Hex. rewrite O2 by tauto. apply O; [done|tauto].
Qed.

(** ** Epoch lines *)

Lemma load_epoch_eq g x : 1 ≤ x.2 ≤ current_epoch g → load_slot_epoch g x = foldl (stamp_range None x.2) g [(x.1.1, x.1.2)].
Proof.
  intros Hx. destruct x as [[a b] e]. cbn [fst snd] in *. unfold load_slot_epoch. cbv zeta. rewrite Z.max_l by lia. cbn [foldl].
  assert (Ec : ∀ l g, current_epoch (foldl (λ g slot, if slot_ok slot then own g slot (default (default [] (owner_at g slot)) None) e else g) g l) = current_epoch g).
  { clear. induction l as [|s l IH]; intros g; [done|]. cbn [foldl]. rewrite IH. by destruct (slot_ok s). }
  unfold stamp_range at 1. rewrite Ec. by rewrite (proj2 (Z.ltb_ge _ _)) by lia.
Qed.

Definition epoch_ok (g : Inner) (x : Z * Z * Z) : Prop := slot_range_ok x.1 ∧ 1 ≤ x.2 ≤ current_epoch g.
Definition covers_slot (s : Z) (x : Z * Z * Z) : Prop := on_range s x.1.

Lemma load_epochs_spec xs g : tables g → Forall (epoch_ok g) xs → let g' := foldl load_slot_epoch g xs in
  same_rest g g' ∧ nodes g' = nodes g ∧ tables g' ∧ (∀ s, slot_in s → owner_at g' s = owner_at g s) ∧
  (∀ s e, slot_in s → Exists (covers_slot s) xs → (∀ x, x ∈ xs → covers_slot s x → x.2 = e) → epoch_at g' s = Some e) ∧
  (∀ s, slot_in s → ¬ Exists (covers_slot s) xs → epoch_at g' s = epoch_at g s).
Proof.
  intros Hg Hx. cbv zeta. revert g Hg Hx. induction xs as [|x xs IH]; intros g Hg Hx; cbn [foldl].
  { split_and!; try done. by intros s e _ ?%Exists_nil. }
  apply Forall_cons in Hx as [[Hr He] Hx]. rewrite load_epoch_eq by done. destruct (stamp_ranges None x.2 [(x.1.1, x.1.2)] g) as [S1 S2 S3 S4 S5]; [done|constructor; [exact Hr|constructor]|].
  set (g1 := foldl (stamp_range None x.2) g _) in *. destruct (IH g1 S3) as (R & N & T & O & E1 & E2).
  { eapply Forall_impl; [exact Hx|]. intros y [? ?]. split; [done|]. by rewrite (sr_epoch _ _ S1). }
  assert (Hc : ∀ s, Exists (on_range s) [(x.1.1, x.1.2)] ↔ covers_slot s x) by (intros s; rewrite Exists_cons, Exists_nil; unfold covers_slot, on_range; cbn; tauto).
  split_and!; [by eapply same_rest_trans|congruence|done|..].
  - intros s Hs. rewrite O by done. destruct (decide (Exists (on_range s) [(x.1.1, x.1.2)])) as [Hx1|Hx1]; [|by apply S5].
    destruct (S4 s Hs Hx1) as [-> _]. destruct (table_some g s Hg Hs) as [o ->]. done.
  - intros s e Hs Hex Hall. destruct (decide (Exists (covers_slot s) xs)) as [Hx1|Hx1]; [apply E1; [done|done|]; intros y Hy; apply Hall; by right|].
    rewrite E2 by done. apply Exists_cons in Hex as [Hx2|?]; [|done]. destruct (S4 s Hs (proj2 (Hc s) Hx2)) as [_ ->]. f_equal. apply Hall; [left|done].
  - intros s Hs Hex. rewrite Exists_cons in Hex. rewrite E2 by tauto. apply S5; [done|]. rewrite Hc. tauto.
Qed.

(** ** The whole state *)

(** What a restart keeps: the slots with their owners and epochs, the votes that are still valid, the
    other nodes but for their replication state, the role of this one, and the settings.  Migrations are
    dropped, and this node has the address it announces. *)
Record restarted (now now' : Z) (ip : Str) (port : Z) (c c' : ClusterState) : Prop := {
  rs_id : my_id (inner c') = my_id (inner c);
  rs_owner : slot_owner (inner c') = slot_owner (inner c);
  rs_epochs : slot_config_epoch (inner c') = slot_config_epoch (inner c);
  rs_current : current_epoch (inner c') = current_epoch (inner c);
  rs_transit : migrating (inner c') = ∅ ∧ importing (inner c') = ∅;
  rs_votes : ∀ s v, prepare_node (inner c') !! s = Some v ↔
    prepare_node (inner c) !! s = Some v ∧ prepare_vote_expired now v = false ∧ prepare_vote_expired now' v = false;
  rs_peers : ∀ id, id ≠ my_id (inner c) →
    nodes (inner c') !! id = (λ n, with_repl (with_fail n (negb (n_fail n) && n_pfail n) (n_fail n)) 0 100) <$> nodes (inner c) !! id;
  rs_me : ∀ n, me (inner c) = Some n → ∃ n', me (inner c') = Some n' ∧ n_master n' = n_master n ∧ n_master_id n' = n_master_id n ∧
    n_ip n' = default ip (announce_ip c) ∧ n_port n' = default port (announce_port c) ∧ n_fail n' = false ∧ n_pfail n' = false;
  rs_settings : require_full_coverage c' = require_full_coverage c ∧ allow_reads_when_down c' = allow_reads_when_down c ∧
    announce_ip c' = announce_ip c ∧ announce_port c' = announce_port c ∧ local_repl_priority (inner c') = local_repl_priority (inner c)
}.

Lemma table_eq {A} (l l' : list A) : length l = Z.to_nat SLOT_COUNT → length l' = Z.to_nat SLOT_COUNT → (∀ s, slot_in s → l !! sidx s = l' !! sidx s) → l = l'.
Proof.
  intros H1 H2 Hs. apply list_eq. intros i. destruct (decide (i < length l)%nat) as [Hi|Hi]; [|rewrite !lookup_ge_None_2 by lia; done].
  rewrite <- (Nat2Z.id i). apply (Hs (Z.of_nat i)). unfold slot_in. assert (0 ≤ SLOT_COUNT) by (by vm_compute). lia.
Qed.


Section reload.
Context {CO : ClusterOrder} {CL : ClusterOrderLaws}.
Context (c : ClusterState) (W : conf_writable c).

Abbreviation g := (inner c).
Abbreviation read := ((λ x : Str * ClusterNode, line_read g x.1 x.2) <$> listing g).

Lemma read_ids : l_id <$> read = (listing g).*1.
Proof.
  rewrite <- list_fmap_compose. apply list_fmap_ext. intros i x Hx%list_elem_of_lookup_2. apply listing_elem in Hx; [|apply W]. cbn.
  apply (no_id _ _ _ (ok_nodes g (cw_ok c W) x.1 x.2 Hx)).
Qed.

Lemma read_elem l : l ∈ read ↔ ∃ n, nodes g !! l_id l = Some n ∧ l = line_read g (l_id l) n.
Proof.
  rewrite list_elem_of_fmap. split.
  - intros (x & -> & Hx). apply listing_elem in Hx; [|apply W]. exists x.2. cbn. by rewrite (no_id _ _ _ (ok_nodes g (cw_ok c W) x.1 x.2 Hx)).
  - intros (n & Hn & E). exists (l_id l, n). split; [done|]. apply listing_elem; [apply W|done].
Qed.

Lemma read_owns s l : slot_in s → l ∈ read → owns_line s l ↔ owner_at g s = Some (l_id l).
Proof.
  intros Hs (n & Hn & E)%read_elem. rewrite <- (ranges_cover g (l_id l) s (cw_ok c W) Hs). unfold owns_line. rewrite E at 1. cbn [line_read l_slots]. apply Exists_exists.
Qed.

Lemma saved_tables : tables g.
Proof. split; [apply (ok_owners g (cw_ok c W))|apply (ok_epochs g (cw_ok c W))]. Qed.

(** The state after the node lines. *)
Lemma lines_restore t e g0 :
  tables g0 → my_id g0 = my_id g → (∀ s, slot_in s → owner_at g0 s = Some []) →
  let g' := foldl (load_node_line t e) g0 read in loaded read g0 g' ∧ ∀ s, slot_in s → owner_at g' s = owner_at g s.
Proof.
  intros T Ei Ho. cbv zeta. assert (L : loaded read g0 (foldl (load_node_line t e) g0 read)).
  { apply load_lines_spec; [done|rewrite read_ids; apply listing_NoDup|]. apply Forall_forall. intros l (n & Hn & ->)%read_elem. cbn. apply ranges_ok, W. }
  split; [done|]. intros s Hs. destruct (table_some g s saved_tables Hs) as [o Eo]. rewrite Eo. destruct (decide (Exists (owns_line s) read)) as [He|He].
  - apply (lo_in _ _ _ L s o Hs He). intros l Hl Hx. apply read_owns in Hx; [|done..]. congruence.
  - rewrite (lo_out _ _ _ L s Hs He), Ho by done. f_equal. destruct (ok_known g (cw_ok c W) _ _ Eo) as [|[n Hn]]; [done|]. destruct He. apply Exists_exists.
    exists (line_read g o n). assert (Hid : n_id n = o) by apply (no_id _ _ _ (ok_nodes g (cw_ok c W) o n Hn)).
    assert (Hl : line_read g o n ∈ read) by (apply read_elem; exists n; cbn; by rewrite Hid). split; [done|]. apply read_owns; [done|done|]. cbn. by rewrite Hid.
Qed.

(** The state after the epoch lines. *)
Lemma epochs_restore g1 :
  tables g1 → current_epoch g1 = current_epoch g → let g' := foldl load_slot_epoch g1 (runs (slot_config_epoch g)) in
  same_rest g1 g' ∧ nodes g' = nodes g1 ∧ tables g' ∧ (∀ s, slot_in s → owner_at g' s = owner_at g1 s) ∧ (∀ s, slot_in s → epoch_at g' s = epoch_at g s).
Proof.
  intros T Ec. cbv zeta. destruct (load_epochs_spec (runs (slot_config_epoch g)) g1 T) as (R & N & T' & O & E1 & _).
  { apply Forall_forall. intros x (H1 & H2 & H3 & H4)%(epochs_read_ok c W). split; [done|]. by rewrite Ec. }
  split_and!; try done. intros s Hs. destruct (slot_lookup _ s (proj2 saved_tables) Hs) as [e Ee]. unfold epoch_at at 2. rewrite Ee.
  destruct (runs_find _ _ _ Ee) as (pre & r & post & Er & Hr & Ex & Hn). assert (Es : Z.of_nat (sidx s) = s) by (unfold sidx, slot_in in *; lia). rewrite Es in *.
  apply E1; [done|rewrite Er; apply Exists_app; right; left; exact Hr|]. intros x Hx Hc. rewrite Er in Hx. rewrite elem_of_app, elem_of_cons in Hx.
  destruct (decide (x = r)) as [->|Hne]; [done|]. destruct (Hn x); [set_solver|exact Hc].
Qed.

(** The settings. *)
Lemma settings_restore c0 n0 :
  me (inner c0) = Some n0 →
  let c' := apply_live (mkFlags (Some (require_full_coverage c)) (Some (allow_reads_when_down c)) (Some (default [] (announce_ip c))) (Some (default 0 (announce_port c)))
                          (Some (local_repl_priority g))) c0 in
  (require_full_coverage c' = require_full_coverage c ∧ allow_reads_when_down c' = allow_reads_when_down c ∧
   announce_ip c' = announce_ip c ∧ announce_port c' = announce_port c ∧ local_repl_priority (inner c') = local_repl_priority g) ∧
  same_rest (inner c0) (inner c') ∧ slot_owner (inner c') = slot_owner (inner c0) ∧ slot_config_epoch (inner c') = slot_config_epoch (inner c0) ∧
  (∀ id, id ≠ my_id (inner c0) → nodes (inner c') !! id = nodes (inner c0) !! id) ∧
  me (inner c') = Some (with_repl (with_address n0 (default (my_ip (inner c0)) (announce_ip c)) (default (my_port (inner c0)) (announce_port c))) (n_repl_offset n0) (local_repl_priority g)).
Proof.
  intros Hm. cbv zeta. unfold apply_live. cbn [f_require_full_coverage f_allow_reads_when_down f_announce_ip f_announce_port f_replica_priority].
  assert (Ei : (if decide (default [] (announce_ip c) = []) then None else Some (default [] (announce_ip c))) = announce_ip c).
  { destruct (announce_ip c) as [ip|] eqn:E; [|done]. cbn. rewrite decide_False; [done|]. by apply word_solid, (cw_ip c W). }
  assert (Ep : (if default 0 (announce_port c) =? 0 then None else Some (default 0 (announce_port c))) = announce_port c).
  { destruct (announce_port c) as [p|] eqn:E; [|done]. cbn. pose proof (cw_port c W p E). by rewrite (proj2 (Z.eqb_neq _ _)) by lia. }
  assert (Ei' : (i ← announce_ip c; if decide (i = []) then None else Some i) = announce_ip c).
  { destruct (announce_ip c) as [ip|] eqn:E; [|done]. cbn. rewrite decide_False; [done|]. by apply word_solid, (cw_ip c W). }
  assert (Ep' : (p ← announce_port c; if 0 <? p then Some p else None) = announce_port c).
  { destruct (announce_port c) as [p|] eqn:E; [|done]. cbn. pose proof (cw_port c W p E). by rewrite (proj2 (Z.ltb_lt _ _)) by lia. }
  rewrite Ei, Ep. unfold set_announce_port, set_announce_ip, refresh_myself_advertised, advertised_addr. cbn. rewrite Ei', Ep'. cbn.
  split_and!; try done.
  - intros id Hne. by rewrite !lookup_alter_ne.
  - unfold me in *. cbn. by rewrite !lookup_alter_eq, Hm.
Qed.

(** A node that starts with the file it saved is as it was. *)
Lemma reload_spec now now' t ip port :
  ∃ c', from_nodes_conf now' t ip port (conf_text now c) = Ok c' ∧ restarted now now' ip port c c'.
Proof.
  destruct (ok_me g (cw_ok c W)) as [n Hn]. destruct (listing_head g n Hn) as [rest El]. destruct (ok_nodes g (cw_ok c W) _ n Hn) as [Eid Emy Eme Epo Ecp].
  rewrite bool_decide_eq_true_2 in Emy by done. destruct (Eme eq_refl) as [Ef Epf]. pose proof (ok_current g (cw_ok c W)) as Hc.
  unfold from_nodes_conf. rewrite (nodes_read c W). cbn [mbind result_bind]. rewrite decide_False by (by rewrite El).
  assert (Hfind : find_myself ip port read = Some (line_read g (my_id g) n)).
  { unfold find_myself. rewrite El. cbn [fmap list_fmap list_find fst snd]. rewrite decide_True by (by cbn). done. }
  rewrite Hfind, (header_epoch_read c W). cbn [default from_option id]. rewrite Z.max_l by lia. cbn [line_read l_id l_master l_master_id]. rewrite Eid.
  rewrite (slot_epochs_read c W), (flags_read c W). set (c0 := with_identity ip port (my_id g) (n_master n) (n_master_id n) false).
  destruct (lines_restore t (current_epoch g) (set_epoch (inner c0) (current_epoch g))) as [L O1].
  { split; cbn; by rewrite length_replicate. } { done. } { intros s Hs. unfold owner_at. cbn. apply lookup_replicate_2. unfold sidx, slot_in in *. lia. }
  set (g1 := foldl (load_node_line t (current_epoch g)) _ read) in *. destruct (epochs_restore g1 (lo_tables _ _ _ L)) as (R2 & N2 & T2 & O2 & E2); [by rewrite (sr_epoch _ _ (lo_rest _ _ _ L))|].
  set (g2 := foldl load_slot_epoch g1 _) in *. pose proof (same_rest_trans _ _ _ (lo_rest _ _ _ L) R2) as R.
  set (c1 := set_inner c0 (set_prepare g2 (parse_nodes_conf_prepares now' (conf_text now c) ∪ prepare_node g2))).
  set (n0 := mkNode (my_id g) ip port (sat_add_u16 port 10000) true (n_master n) (n_master_id n) false false 0 100).
  assert (Hme : nodes g2 !! my_id g = Some n0).
  { rewrite N2. apply (lo_me _ _ _ L); [cbn; apply lookup_singleton_eq|]. intros l Hl E. apply read_elem in Hl as (m & Hm & ->). cbn in E, Hm. rewrite E in Hm. assert (m = n) as -> by congruence. done. }
  eexists. split; [done|]. destruct (settings_restore c1 n0) as (S1 & S2 & S3 & S4 & S5 & S6); [unfold me; cbn; by rewrite (sr_id _ _ R)|].
  set (c' := apply_live _ c1) in *.
  split; [by rewrite (sr_id _ _ S2); cbn; rewrite (sr_id _ _ R)| | |by rewrite (sr_epoch _ _ S2); cbn; rewrite (sr_epoch _ _ R)| | | | |done].
  - rewrite S3. cbn. apply table_eq; [apply T2|apply saved_tables|]. intros s Hs. change (owner_at g2 s = owner_at g s). by rewrite O2, O1.
  - rewrite S4. cbn. apply table_eq; [apply T2|apply saved_tables|]. intros s Hs. by apply E2.
  - rewrite (sr_mig _ _ S2), (sr_imp _ _ S2). cbn. by rewrite (sr_mig _ _ R), (sr_imp _ _ R).
  - intros s v. rewrite (sr_votes _ _ S2). cbn. rewrite (sr_votes _ _ R). cbn. rewrite map_union_empty. apply (votes_read c W).
  - intros id Hne. rewrite S5 by (cbn; by rewrite (sr_id _ _ R)). cbn. rewrite N2. destruct (nodes g !! id) as [m|] eqn:Em; cbn [fmap option_fmap option_map].
    + destruct (ok_nodes g (cw_ok c W) id m Em) as [I1 I2 _ _ I5]. rewrite bool_decide_eq_false_2 in I2 by done.
      assert (Hl : line_read g id m ∈ read) by (apply read_elem; exists m; cbn; by rewrite I1).
      pose proof (lo_new _ _ _ L _ Hl) as Hx. cbn in Hx. rewrite I1 in Hx. rewrite Hx by done. f_equal. unfold node_of. cbn. rewrite <- I5. destruct m; cbn in *. by subst.
    + rewrite (lo_old _ _ _ L); [cbn; by apply lookup_singleton_ne|]. rewrite read_ids. intros (x & -> & Hx)%list_elem_of_fmap. apply listing_elem in Hx; [congruence|apply W].
  - intros n1 Hn1. unfold me in Hn1. assert (n1 = n) as -> by congruence. eexists. split; [exact S6|]. cbn. rewrite (sr_ip _ _ R), (sr_port _ _ R). done.
Qed.

End reload.
