(* ===== verification/ClusterWire.v ===== *)
(** * The bus is transparent

    A frame is read back as what was put into it, so a request over the bus has the effect and the
    result of the method it names. *)

From S2P Require Import Prelude RustStd Text HashSlot Rdb RdbFacts ClusterState ClusterConf ClusterBus ClusterMerge.
From Stdlib Require Import Lia.
Local Open Scope Z_scope.

(** ** Frames *)

Lemma frame_header ty (body rest : Bytes) :
  take HEADER_LEN (encode_frame ty body ++ rest) = MAGIC ++ [byte_of_Z VERSION; byte_of_Z ty; byte_of_Z 0; byte_of_Z 0] ++ le_bytes 4 (zlen body) ∧
  drop HEADER_LEN (encode_frame ty body ++ rest) = body ++ rest.
Proof.
  unfold encode_frame. set (h := MAGIC ++ [byte_of_Z VERSION; byte_of_Z ty; byte_of_Z 0; byte_of_Z 0] ++ le_bytes 4 (zlen body)).
  assert (E : (MAGIC ++ [byte_of_Z VERSION; byte_of_Z ty; byte_of_Z 0; byte_of_Z 0] ++ le_bytes 4 (zlen body) ++ body) ++ rest = h ++ body ++ rest)
    by (unfold h; by rewrite <- !app_assoc).
  assert (L : length h = HEADER_LEN) by (unfold h; rewrite !length_app, length_le_bytes; reflexivity). rewrite E, <- L. split; [by rewrite take_app_length|by rewrite drop_app_length].
Qed.

Lemma read_header ty (body : Bytes) :
  0 ≤ ty < 256 → zlen body ≤ MAX_BODY_LEN →
  decode_header (MAGIC ++ [byte_of_Z VERSION; byte_of_Z ty; byte_of_Z 0; byte_of_Z 0] ++ le_bytes 4 (zlen body)) = Ok (ty, zlen body).
Proof.
  intros Ht Hb. unfold decode_header. rewrite !length_app, length_le_bytes. cbn [length Nat.add Nat.ltb Nat.leb]. change (length MAGIC) with 4%nat. cbn [Nat.add Nat.ltb Nat.leb].
  rewrite take_app_length' by done. rewrite bool_decide_eq_true_2 by done. cbn [negb].
  change (MAGIC ++ [byte_of_Z VERSION; byte_of_Z ty; byte_of_Z 0; byte_of_Z 0] ++ le_bytes 4 (zlen body))
    with ((MAGIC ++ [byte_of_Z VERSION; byte_of_Z ty; byte_of_Z 0; byte_of_Z 0]) ++ le_bytes 4 (zlen body)).
  rewrite drop_app_length' by done. rewrite take_ge by (by rewrite length_le_bytes). rewrite from_le_bytes. cbn [lookup list_lookup app MAGIC fmap option_fmap option_map default from_option].
  unfold MAX_BODY_LEN in *. rewrite Z.mod_small by (change (256 ^ Z.of_nat 4) with 4294967296; lia).
  change ((MAGIC ++ [byte_of_Z VERSION; byte_of_Z ty; byte_of_Z 0; byte_of_Z 0]) ++ le_bytes 4 (zlen body)) with
    (MAGIC ++ byte_of_Z VERSION :: byte_of_Z ty :: byte_of_Z 0 :: byte_of_Z 0 :: le_bytes 4 (zlen body)).
  change ((MAGIC ++ byte_of_Z VERSION :: byte_of_Z ty :: byte_of_Z 0 :: byte_of_Z 0 :: le_bytes 4 (zlen body)) !! 4%nat) with (Some (byte_of_Z VERSION)).
  change ((MAGIC ++ byte_of_Z VERSION :: byte_of_Z ty :: byte_of_Z 0 :: byte_of_Z 0 :: le_bytes 4 (zlen body)) !! 5%nat) with (Some (byte_of_Z ty)).
  cbn [fmap option_fmap option_map default from_option]. unfold id. rewrite !u8_byte_of_Z. rewrite (Z.mod_small ty) by lia. cbn [VERSION Z.modulo negb].
  change (1 mod 256 =? 1) with true. cbn [negb]. by rewrite (proj2 (Z.ltb_ge _ _)) by lia.
Qed.

Lemma read_frame_encoded ty (body : Bytes) : 0 ≤ ty < 256 → zlen body ≤ MAX_BODY_LEN → read_frame (Ok (encode_frame ty body)) = Ok (ty, body).
Proof.
  intros Ht Hb. unfold read_frame. destruct (frame_header ty body []) as [E1 E2]. rewrite !app_nil_r in *. rewrite E1, E2, read_header by done.
  assert (L : length (encode_frame ty body) = (12 + length body)%nat) by (unfold encode_frame; rewrite !length_app, length_le_bytes; reflexivity).
  rewrite L. cbn [Nat.add Nat.ltb Nat.leb HEADER_LEN]. rewrite Z.ltb_irrefl, Nat2Z.id, take_ge by done. done.
Qed.

(** A frame that is read has the type that was put into it. *)
Lemma frame_type ty (body : Bytes) ty' body' : read_frame (Ok (encode_frame ty body)) = Ok (ty', body') → ty' = ty mod 256.
Proof.
  unfold read_frame. destruct (frame_header ty body []) as [E1 E2]. rewrite !app_nil_r in *. rewrite E1, E2. destruct (_ <? _)%nat; [done|].
  unfold decode_header. destruct (_ <? _)%nat; [done|]. destruct (negb (bool_decide _)); [done|]. cbv zeta. destruct (negb (_ =? _)); [done|]. destruct (_ <? _); [done|].
  change ((MAGIC ++ [byte_of_Z VERSION; byte_of_Z ty; byte_of_Z 0; byte_of_Z 0] ++ le_bytes 4 (zlen body)) !! 5%nat) with (Some (byte_of_Z ty)).
  destruct (_ <? _); [done|]. intros [= <- _]. apply u8_byte_of_Z.
Qed.

(** ** Requests *)

(** The slot and the target fit the body. *)
Definition rpc_ok (ty slot : Z) (target : Str) : Prop :=
  (ty = TYPE_PREPARE ∨ ty = TYPE_COMMIT ∨ ty = TYPE_ABORT) ∧ in_u16 slot ∧ valid_str target ∧ zlen (as_bytes target) ≤ 65532.

Lemma slot_target_roundtrip slot target : in_u16 slot → valid_str target → zlen (as_bytes target) ≤ 65532 → decode_slot_target (encode_slot_target slot target) = Ok (slot, target).
Proof.
  intros Hs Hv Hl. unfold decode_slot_target, encode_slot_target, write_lp_str. set (b := as_bytes target) in *.
  assert (L : length (le_bytes 2 slot ++ le_bytes 2 (zlen b) ++ b) = (4 + length b)%nat) by (rewrite !length_app, !length_le_bytes; lia). rewrite L.
  assert ((4 + length b <? 4)%nat = false) as -> by (apply Nat.ltb_ge; lia). rewrite take_app_length' by (by rewrite length_le_bytes). rewrite (drop_app_length' _ _ 2) by (by rewrite length_le_bytes).
  rewrite take_app_length' by (by rewrite length_le_bytes). rewrite !from_le_bytes. change (256 ^ Z.of_nat 2) with 65536. unfold u16_max in *. rewrite !Z.mod_small by lia.
  rewrite (proj2 (Z.ltb_ge _ _)) by lia. rewrite app_assoc, drop_app_length' by (rewrite length_app, !length_le_bytes; done). rewrite Nat2Z.id, take_ge by done.
  unfold b. by rewrite valid_lossy.
Qed.

Lemma string_body_roundtrip s : valid_str s → zlen (as_bytes s) ≤ 65535 → decode_string_body (encode_string_body s) = s.
Proof.
  intros Hv Hl. unfold decode_string_body, encode_string_body, write_lp_str. set (b := as_bytes s) in *.
  rewrite length_app, length_le_bytes. assert ((2 + length b <? 2)%nat = false) as -> by (apply Nat.ltb_ge; lia). rewrite take_app_length' by (by rewrite length_le_bytes).
  rewrite from_le_bytes. change (256 ^ Z.of_nat 2) with 65536. rewrite Z.mod_small by lia. rewrite (proj2 (Z.ltb_ge _ _)) by lia.
  rewrite drop_app_length' by (by rewrite length_le_bytes). rewrite Nat2Z.id, take_ge by done. unfold b. by rewrite valid_lossy.
Qed.

(** What the client makes of the outcome. *)
Lemma ack_result what (r : result Str unit) :
  (bus_ack what (Ok (result_frame r)) = Ok tt ↔ r = Ok tt) ∧
  ∀ e, r = Err e → valid_str e → zlen (as_bytes e) ≤ 65533 → bus_ack what (Ok (result_frame r)) = Err (Remote e).
Proof.
  destruct r as [[]|e]; cbn [result_frame]; unfold bus_ack.
  - rewrite read_frame_encoded by (by vm_compute). done.
  - unfold error_frame. split.
    + split; [|done]. destruct (decide (zlen (encode_string_body e) ≤ MAX_BODY_LEN)) as [Hl|Hl]; [by rewrite read_frame_encoded|].
      destruct (read_frame (Ok (encode_frame TYPE_ERR (encode_string_body e)))) as [[ty body]|] eqn:E; [|done]. cbn. destruct (ty =? TYPE_OK) eqn:Ety; [|by destruct (ty =? TYPE_ERR)].
      intros _. exfalso. apply Z.eqb_eq in Ety. pose proof (frame_type _ _ _ _ E) as Et. rewrite Ety in Et. by vm_compute in Et.
    + intros e' [= <-] Hv Hl. rewrite read_frame_encoded; [cbn [mbind result_bind]|by vm_compute|].
      * change (TYPE_ERR =? TYPE_OK) with false. change (TYPE_ERR =? TYPE_ERR) with true. cbv iota. by rewrite string_body_roundtrip by (done || lia).
      * unfold encode_string_body, write_lp_str. rewrite length_app, length_le_bytes. unfold MAX_BODY_LEN. lia.
Qed.

(** ** A connection *)

Section conn.
Context {CO : ClusterOrder}.

(** The method that a request names. *)
Definition rpc_local (env : Env) (x : Z * Z * Str) (c : ClusterState) : ClusterState * result Str unit :=
  let '(ty, slot, target) := x in
  if ty =? TYPE_PREPARE then set_prepare_node (e_io env) (e_now env) slot target c
  else if ty =? TYPE_COMMIT then commit_prepare_node (e_io env) (e_now env) (e_now' env) slot target c
  else abort_prepare_node (e_io env) (e_now env) slot c.

(** The methods, called one after the other. *)
Fixpoint local_run (envs : nat → Env) (i : nat) (rpcs : list (Z * Z * Str)) (c : ClusterState) : ClusterState * list (result Str unit) :=
  match rpcs with
  | [] => (c, [])
  | x :: rpcs => let '(c, r) := rpc_local (envs i) x c in let '(c, rs) := local_run envs (S i) rpcs c in (c, r :: rs)
  end.

Definition rpc_frame (x : Z * Z * Str) : Bytes := encode_frame x.1.1 (encode_slot_target x.1.2 x.2).

Lemma rpc_handled env x c : rpc_ok x.1.1 x.1.2 x.2 →
  handle_request env x.1.1 (encode_slot_target x.1.2 x.2) c = ((rpc_local env x c).1, result_frame (rpc_local env x c).2).
Proof.
  destruct x as [[ty slot] target]. cbn [fst snd]. intros (Ht & Hs & Hv & Hl). unfold handle_request, rpc_local, handle_prepare, handle_commit, handle_abort.
  rewrite !slot_target_roundtrip by done. destruct Ht as [->|[->| ->]]; cbn [Z.eqb Pos.eqb TYPE_PREPARE TYPE_COMMIT TYPE_ABORT TYPE_PING TYPE_MEET TYPE_FAIL].
  - by destruct (set_prepare_node _ _ _ _ _).
  - by destruct (commit_prepare_node _ _ _ _ _ _).
  - by destruct (abort_prepare_node _ _ _ _).
Qed.

Lemma rpc_body_fits x : rpc_ok x.1.1 x.1.2 x.2 → 0 ≤ x.1.1 < 256 ∧ zlen (encode_slot_target x.1.2 x.2) ≤ MAX_BODY_LEN.
Proof.
  intros (Ht & _ & _ & Hl). split; [destruct Ht as [->|[->| ->]]; by vm_compute|]. unfold encode_slot_target, write_lp_str. rewrite !length_app, !length_le_bytes. unfold MAX_BODY_LEN. lia.
Qed.

Lemma serve_frames envs rpcs fuel i c :
  Forall (λ x, rpc_ok x.1.1 x.1.2 x.2) rpcs → (length (concat (rpc_frame <$> rpcs)) < fuel)%nat →
  serve_bus fuel envs i (concat (rpc_frame <$> rpcs)) c = ((local_run envs i rpcs c).1, result_frame <$> (local_run envs i rpcs c).2, Ok tt).
Proof.
  intros Hr. revert fuel i c. induction Hr as [|x rpcs Hx Hr IH]; intros fuel i c Hf; (destruct fuel as [|fuel]; [lia|]); [done|]. destruct (rpc_body_fits x Hx) as [H1 H2].
  rewrite fmap_cons in *. cbn [concat] in *. set (rest := concat (rpc_frame <$> rpcs)) in *. rewrite length_app in Hf.
  assert (L : length (rpc_frame x) = (12 + length (encode_slot_target x.1.2 x.2))%nat) by (unfold rpc_frame, encode_frame; rewrite !length_app, length_le_bytes; reflexivity).
  assert (Hh : (length (rpc_frame x ++ rest) <? HEADER_LEN)%nat = false) by (rewrite length_app, L; done).
  assert (E : take HEADER_LEN (rpc_frame x ++ rest) = MAGIC ++ [byte_of_Z VERSION; byte_of_Z x.1.1; byte_of_Z 0; byte_of_Z 0] ++ le_bytes 4 (zlen (encode_slot_target x.1.2 x.2)) ∧
    drop HEADER_LEN (rpc_frame x ++ rest) = encode_slot_target x.1.2 x.2 ++ rest) by apply frame_header. destruct E as [E1 E2].
  cbn [serve_bus]. rewrite Hh, E1, E2, read_header by done. rewrite length_app, (proj2 (Z.ltb_ge _ _)) by lia. cbv zeta. rewrite Nat2Z.id, take_app_length, drop_app_length.
  rewrite rpc_handled by done. cbn [local_run]. destruct (rpc_local (envs i) x c) as [c1 r]. cbn [fst snd]. rewrite IH by lia. by destruct (local_run envs (S i) rpcs c1).
Qed.

End conn.
