(* ===== verification/ClusterProps.v ===== *)
(** * Properties of the cluster

    What holds of a node after any sequence of commands, bus messages and rounds of gossip; what a
    commit of a slot needs; what two nodes agree on after they talked; when a node is declared failed
    and who takes over; where a client is sent. *)

From S2P Require Import Prelude RustStd Resp Reply Text HashSlot ClusterState ClusterConf ClusterGossip ClusterBus ClusterCommands ClusterFacts ClusterEpochs ClusterRun ClusterLoad ClusterMerge ClusterElection ClusterTick ClusterReload ClusterRestore ClusterWire.
From Stdlib Require Import Lia.
Local Open Scope Z_scope.

#[local] Opaque Z.to_nat.

(** ** Examples *)

(** ASCII letters, which is all the examples need. *)
#[local] Instance ascii_letters : Uppercase := λ s, (λ ch, if (97 <=? ch) && (ch <=? 122) then ch - 32 else ch) <$> s.

Definition plain (v : RespValue) : Str := [].
Definition localhost : Str := str "127.0.0.1".
Definition nodeA : Str := str "a".
Definition nodeB : Str := str "b".
Definition nodeC : Str := str "c".

(** A node that owns every slot, and one that owns none. *)
Definition full (id : Str) (port : Z) : ClusterState := with_identity localhost port id true None true.
Definition bare (id : Str) (port : Z) : ClusterState := with_identity localhost port id true None false.

Definition at_ms (ms : Z) : Env := mkEnv ms ms (ms * 1000000) IoDone.

(** ** Redirects *)

Lemma moved_to slot g t : cluster_ok g → moved_target slot g = Some t → rt_slot t = slot ∧ owner_at g slot = Some (rt_node_id t).
Proof.
  intros H. unfold moved_target, owner_of. destruct (owner_at g slot) as [o|]; [|done]. cbn. case_decide; [done|]. destruct (nodes g !! o) as [n|] eqn:E; [|done].
  cbn. intros [= <-]. cbn. by rewrite (no_id _ _ _ (ok_nodes g H o n E)).
Qed.

Lemma asked_of slot g : cluster_ok g → is_Some (migrating g !! slot) → ∃ t, ask_target slot g = Some t ∧ migrating g !! slot = Some (rt_node_id t).
Proof.
  intros H [d Hd]. destruct (ok_migrating g H slot d Hd) as (_ & _ & _ & n & Hn). unfold ask_target. rewrite Hd. cbn. rewrite Hn. cbn. eexists. split; [done|].
  cbn. by rewrite (no_id _ _ _ (ok_nodes g H d n Hn)).
Qed.

Section properties.
Context {CO : ClusterOrder} {CL : ClusterOrderLaws} {UP : Uppercase} (debug : RespValue → Str).

Abbreviation reached c events := (node_run debug c events).

(** C9. Whatever was in the configuration file a node starts with, after any sequence of CLUSTER
    commands, bus messages, rounds of gossip and settings the topology is well formed: both tables have
    an entry for every slot, every owner is a known node, no slot is ahead of the current epoch, a
    migrating slot is owned here and not imported, and the node itself is known and never failed. *)
Theorem cluster_typed nanos now t ip port file events :
  in_u16 port → Forall event_ok events → cluster_ok (inner (reached (load_or_single_node nanos now t ip port file) events)).
Proof. intros Hp He. apply node_run_ok; [by apply load_or_single_node_ok|done]. Qed.

(** C12. The epoch of a slot never goes back, and below the last epoch the owner of a slot changes only
    together with a greater one. *)
Theorem slot_epochs_fence c before after s :
  outer_ok c → Forall event_ok (before ++ after) → slot_in s →
  let g := inner (reached c before) in
  let g' := inner (reached c (before ++ after)) in
  slot_epoch g s ≤ slot_epoch g' s ∧
  (current_epoch g' < u64_max → owner_at g' s ≠ owner_at g s → slot_epoch g s < slot_epoch g' s).
Proof.
  intros H He Hs. cbv zeta. pose proof (run_between debug c before after H He) as [_ _ R1 R2]. split; [by apply R1|].
  intros Hc Hne. specialize (R1 s Hs). destruct (decide (slot_epoch (inner (reached c (before ++ after))) s = slot_epoch (inner (reached c before)) s)) as [E|]; [|lia].
  by destruct (Hne (R2 s Hs Hc E)).
Qed.

(** C4. A commit of a slot succeeds only on a vote for its target that one of the steps recorded, that
    was there ever since, that is not older than the time to live, and during which the slot kept its
    owner and its epoch; it spends the vote and gives the slot, and no other, to the target under a
    greater epoch. *)
Theorem commit_needs_vote c0 events io now now' slot target c' :
  outer_ok c0 → prepare_node (inner c0) = ∅ → Forall event_ok events → 0 ≤ slot →
  let c := reached c0 events in
  current_epoch (inner c) < u64_max → commit_prepare_node io now now' slot target c = (c', Ok tt) →
  (∃ before ev after, events = before ++ ev :: after ∧ now' - clock ev ≤ PREPARE_VOTE_TTL_MS ∧
    ∀ mid rest, after = mid ++ rest →
      let g := inner (reached c0 (before ++ ev :: mid)) in
      prepare_node g !! slot = Some (mkVote target (slot_epoch g slot) (clock ev)) ∧
      owner_at g slot = owner_at (inner c) slot ∧ slot_epoch g slot = slot_epoch (inner c) slot) ∧
  owner_at (inner c') slot = Some target ∧ slot_epoch (inner c) slot < slot_epoch (inner c') slot ∧ prepare_node (inner c') !! slot = None ∧
  ∀ s, slot_in s → s ≠ slot → owner_at (inner c') s = owner_at (inner c) s.
Proof.
  intros H0 Hv He Hs. cbv zeta. intros Hc Hcm. pose proof (proj1 (node_run_ok debug c0 events H0 He)) as Hok.
  destruct (commit_inv _ _ _ _ _ _ _ Hok Hs Hcm) as [Hin (v & Hpv & Ht & Hx & Hep) Ho Hee Hsp Hr]. split_and!; [|done| |done|intros s Hi Hne; by apply Hr].
  - destruct (vote_recorded debug c0 events slot v H0 Hv He Hpv) as (before & ev & after & E & Hcl & Hse & Hall). subst events.
    exists before, ev, after. split_and!; [done| |].
    + unfold prepare_vote_expired in Hx. apply Z.ltb_ge in Hx. rewrite Hcl in Hx. unfold sat_sub_u64 in Hx. lia.
    + intros mid rest ->. cbv zeta. destruct (vote_fenced debug c0 before ev mid rest slot H0 He Hin Hc ltac:(congruence)) as [F1 F2]. rewrite F1, F2.
      split_and!; [|done|done]. rewrite (Hall mid rest eq_refl). f_equal. destruct v; simpl in *; congruence.
  - rewrite Hee. pose proof (slot_epoch_range _ slot (oo_inner _ Hok)). unfold sat_add_u64. lia.
Qed.

(** ** The bus *)

(** C11. A connection on the bus that carries any number of PREPARE, COMMIT and ABORT requests leaves the
    node in the state that the methods would have left it in, called in that order, and the answer to
    each tells the peer whether its method succeeded, and the error of the one that did not. *)
Theorem bus_transparent envs rpcs what c :
  Forall (λ x, rpc_ok x.1.1 x.1.2 x.2) rpcs →
  let '(c', replies, r) := handle_bus_conn envs (concat (rpc_frame <$> rpcs)) c in
  let '(d, results) := local_run envs 0 rpcs c in
  r = Ok tt ∧ c' = d ∧
  Forall2 (λ reply res, (bus_ack what (Ok reply) = Ok tt ↔ res = Ok tt) ∧
    ∀ e, res = Err e → valid_str e → zlen (as_bytes e) ≤ 65533 → bus_ack what (Ok reply) = Err (Remote e)) replies results.
Proof.
  intros Hr. unfold handle_bus_conn. rewrite serve_frames by (done || lia). destruct (local_run envs 0 rpcs c) as [d results]. cbn [fst snd]. split_and!; [done|done|].
  apply Forall2_fmap_l, Forall_Forall2_diag, Forall_forall. intros res _. apply ack_result.
Qed.

(** ** Restarts *)


(** ** Gossip *)

(** A node after it pulled the OWNERS reply of another one. *)
Abbreviation pulled_owners t g2 g1 := (pull_and_merge_owners t (Some (cluster_owners_reply g2)) g1).

(** C10. After each of two nodes pulled from the other they agree on the owner of a slot that is in
    transit on neither exactly when they did before or the newer of the two records has an owner: an
    unbound slot does not spread, and a conflict under one epoch stays. *)
Theorem gossip_converges t t' g1 g2 s o1 e1 o2 e2 :
  cluster_ok g1 → cluster_ok g2 → sendable g1 → sendable g2 → slot_in s → in_transit g1 s = false → in_transit g2 s = false →
  table_at g1 s o1 e1 → table_at g2 s o2 e2 →
  let g1' := pulled_owners t g2 g1 in
  let g2' := pulled_owners t' g1' g2 in
  owner_at g1' s = owner_at g2' s ↔ o1 = o2 ∨ (e1 < e2 ∧ o2 ≠ []) ∨ (e2 < e1 ∧ o1 ≠ []).
Proof.
  intros H1 H2 S1 S2 Hs T1 T2 A1 A2. cbv zeta. rewrite (pull_is_merge t g1 g2) by done. pose proof (snapshot_sendable g2 H2 S2) as R2.
  destruct (apply_ranges_grows t (ownership_snapshot g2) g1) as [K1 _]; [eapply Forall_impl; [exact R2|apply sendable_range_ok]|done|].
  pose proof (apply_ranges_sendable t _ g1 R2 S1) as K2. destruct (snapshot_merge_slot t g1 g2 s o2 e2 H1 H2 S2 Hs A2) as [Eo Ee].
  set (g1' := apply_ranges t (ownership_snapshot g2) g1) in *. rewrite pull_is_merge by done. pose proof A1 as [Ao1 Ae1]. pose proof A2 as [Ao2 Ae2].
  assert (L1 : learns g1 s o2 e2 = negb (bool_decide (o2 = [])) && (e1 <? e2)) by (unfold learns, slot_epoch; by rewrite T1, Ae1).
  assert (A1' : table_at g1' s (if learns g1 s o2 e2 then o2 else o1) (if learns g1 s o2 e2 then e2 else e1)) by (split; [rewrite Eo|rewrite Ee]; by destruct (learns g1 s o2 e2)).
  destruct (snapshot_merge_slot t' g2 g1' s _ _ H2 K1 K2 Hs A1') as [-> _]. rewrite Eo, Ao1, Ao2. rewrite L1.
  unfold learns, slot_epoch. rewrite T2, Ae2. cbn [negb andb default from_option]. unfold id.
  destruct (bool_decide_reflect (o2 = [])) as [E2|E2]; destruct (Z.ltb_spec e1 e2) as [Hlt|Hlt]; cbn [negb andb]; rewrite ?Z.ltb_irrefl, ?andb_false_r.
  - assert ((e2 <? e1) = false) as -> by lia. rewrite andb_false_r. naive_solver lia.
  - destruct (bool_decide_reflect (o1 = [])), (Z.ltb_spec e2 e1); cbn [negb andb]; naive_solver lia.
  - naive_solver lia.
  - destruct (bool_decide_reflect (o1 = [])), (Z.ltb_spec e2 e1); cbn [negb andb]; naive_solver lia.
Qed.

(** ** Failures *)


(** ** Failover *)

(** C14. When two nodes have exchanged their role maps and agree on which replicas of a master are down,
    at most one of them takes over its slots: both would compare the candidates by priority, offset and
    id and find the same one. *)
Theorem one_claimant t t' g1 g2 m :
  cluster_ok g1 → cluster_ok g2 → roles_sendable g1 → roles_sendable g2 → my_id g1 ≠ my_id g2 → m ≠ [] →
  let g2' := pulled_roles t g1 g2 in
  let g1' := pulled_roles t' g2' g1 in
  (∀ id, replica_at g2' m id → node_is_fail id g1' = node_is_fail id g2') →
  ¬ (should_claim_on_failover m g1' = true ∧ should_claim_on_failover m g2' = true).
Proof.
  intros H1 H2 S1 S2 Hne Hm. cbv zeta. set (g2' := pulled_roles t g1 g2). set (g1' := pulled_roles t' g2' g1). intros Hf [C1 C2].
  pose proof (λ id, exchange_agrees t t' g1 g2 m id H1 H2 S1 S2 Hne Hm) as A. cbv zeta in A. fold g2' in A. fold g1' in A.
  pose proof (pulled_roles_ok t g1 g2 H2) as K2. pose proof (pulled_roles_ok t' g2' g1 H1) as K1. pose proof (pulled_roles_spec t g1 g2 H1 S1) as ([I2 _ _] & _).
  pose proof (pulled_roles_spec t' g2' g1 K2 (pulled_roles_sendable t g1 g2 H1 S2 S1)) as ([I1 _ _] & _). fold g2' in K2, I2. fold g1' in K1, I1.
  unfold should_claim_on_failover in C1, C2. destruct (failover_election_winner m g1') as [w1|] eqn:E1; [|done]. destruct (failover_election_winner m g2') as [w2|] eqn:E2; [|done].
  apply bool_decide_eq_true in C1, C2. apply Hne. rewrite <- I1, <- I2, <- C1, <- C2.
  assert (E : ∀ id, eligible g1' m id ↔ eligible g2' m id).
  { intros id. destruct (A id) as [A1 A2]. unfold eligible. rewrite A1. split; intros (R1 & R2 & R3); (split; [done|]); [rewrite <- Hf, <- A2|rewrite Hf, A2]; done. }
  apply (same_winner m g1' g2'); [done|done|exact E| |done|done]. intros id (R & _)%E. by apply A.
Qed.

(** C40. A replica that marks its master as failed before it finds out by its own probes, as the FAIL
    message of a peer makes it do, is not promoted by a round of gossip, whatever its peers answer and
    even when it is the only candidate: it stays a replica, and its master stays marked, so that the
    next round finds it in the same state unless it was pointed at another master. *)
Theorem announced_fail_blocks_failover io now repl net c m :
  outer_ok c → is_replica_of m (inner c) = true → node_is_fail m (inner c) = true →
  let '(c', actions) := gossip_tick io now repl net c in
  (PromoteToMaster ∉ actions) ∧ is_cluster_replica (inner c') = true ∧ node_is_fail m (inner c') = true.
Proof.
  intros H Hr Hf. destruct (tick_settled m io now repl net c H) as [[T1 T2] T3]; [by split|]. by destruct (gossip_tick io now repl net c).
Qed.

(** C39. After a round of gossip a node that is still a master owns more slots than every other live
    master it knows, or as many with a greater id.  So of the masters of a sharded cluster, not only of
    two that claimed the same slots, all but the largest turn themselves into its replicas. *)
Theorem gossip_leaves_one_master io now repl net c :
  outer_ok c →
  let g := inner (gossip_tick io now repl net c).1 in
  is_master g = true → ∀ id n, id ≠ my_id g → nodes g !! id = Some n → n_master n = true → n_fail n = false → (0 < slots_of id g)%nat →
  (slots_of id g < slots_of (my_id g) g)%nat ∨ (slots_of (my_id g) g = slots_of id g ∧ cmp_list Z.compare (my_id g) id = Gt).
Proof.
  intros H. cbv zeta. intros Hm id n Hne Hn Hmm Hf Hs. apply (tick_largest io now repl net c H Hm id). split_and!; [done|by exists n|done].
Qed.

(** ** Routing *)

(** C15. A command without ASKING that is refused with MOVED is sent to the owner of the slot of its
    keys.  If that node has the same owner for the slot and is up it serves the command, or refuses it
    with ASK for a slot that it migrates and a key it does not have; the node it names serves the command
    with ASKING once it imports the slot. *)
Theorem redirects_reach keys is_write readonly present1 present2 present3 c1 c2 c3 t :
  outer_ok c1 → outer_ok c2 → route keys is_write false readonly present1 c1 = Moved t →
  owner_at (inner c1) (rt_slot t) = Some (rt_node_id t) ∧
  (my_id (inner c2) = rt_node_id t → owner_at (inner c2) (rt_slot t) = owner_at (inner c1) (rt_slot t) → cluster_state_ok c2 = true →
   match route keys is_write false readonly present2 c2 with
   | Here => is_Some (migrating (inner c2) !! rt_slot t) → forallb present2 keys = true
   | Ask t' => forallb present2 keys = false ∧ migrating (inner c2) !! rt_slot t = Some (rt_node_id t') ∧
       (is_Some (importing (inner c3) !! rt_slot t) → route keys is_write true readonly present3 c3 = Here)
   | _ => False
   end).
Proof.
  intros H1 H2. unfold route. destruct keys as [|k ks]; [done|]. set (slot := key_hash_slot k). destruct (negb (same_slot slot ks)) eqn:Es; [done|]. cbn [andb negb].
  destruct (negb (cluster_state_ok c1) && _ && _); [done|]. destruct (negb (owns_slot (inner c1) slot)) eqn:Eo.
  2: { destruct (bool_decide (is_Some (migrating (inner c1) !! slot)) && negb (forallb present1 (k :: ks))); [|done]. by destruct (ask_target slot (inner c1)). }
  destruct (readonly && negb is_write && can_serve_readonly slot (inner c1)); [done|]. destruct (moved_target slot (inner c1)) as [t'|] eqn:Et; [|done]. intros [= ->].
  destruct (moved_to slot (inner c1) t (oo_inner _ H1) Et) as [Esl Eown]. rewrite Esl. split; [done|]. intros Eid Eag Hok.
  rewrite Hok. cbn [negb andb]. unfold owns_slot. rewrite Eag, Eown, bool_decide_eq_true_2 by done. cbn [negb].
  destruct (bool_decide_reflect (is_Some (migrating (inner c2) !! slot))) as [Hmig|Hmig]; cbn [andb]; [|done].
  destruct (forallb present2 (k :: ks)) eqn:Ep; cbn [negb]; [done|]. destruct (asked_of slot (inner c2) (oo_inner _ H2) Hmig) as (t' & -> & Hm).
  split_and!; [done|done|]. intros Hi. rewrite bool_decide_eq_true_2 by done. cbn [negb andb]. by rewrite andb_false_r.
Qed.

End properties.

(** ** The properties at work *)

(** A command, as its words. *)
Definition says (words : list Bytes) : Event :=
  Command (at_ms 10) (str "/tmp") None false [] (λ _ _, mkMeeting (Err (Transport [])) (Err []) (Err []) (Err []) None) (bulk <$> words).
Definition meets (id : Bytes) (port : Bytes) : Event := says [bs "MEETPEER"; id; bs "127.0.0.1"; port].

(** Nobody answers. *)
Definition silent (peer : ClusterNode) : Probe := mkProbe 0 false false None None None None.

Definition ran (c : ClusterState) (events : list Event) : ClusterState := node_run plain c events.

Lemma ran_ok ip port id (all : bool) events :
  id ≠ [] → in_u16 port → Forall event_ok events → outer_ok (ran (with_identity ip port id true None all) events).
Proof. intros. apply node_run_ok; [by apply with_identity_ok|done]. Qed.

Lemma done_pair {A} (p : A * result Str unit) : p.2 = Ok tt → p = (p.1, Ok tt).
Proof. destruct p. simpl. by intros ->. Qed.

Definition settings : list Event := [SetAnnouncePort (Some 7100); meets (bs "b") (bs "7001"); Gossip IoDone 20 None silent].

Lemma cluster_typed_witness : cluster_ok (inner (node_run plain (load_or_single_node 7 0 0 localhost 7000 None) settings)).
Proof. apply (cluster_typed plain 7 0 0 localhost 7000 None settings); [by vm_compute|repeat constructor; by vm_compute]. Defined.

(** Slot 5 is assigned. *)
Lemma slot_epochs_fence_witness :
  slot_epoch (inner (bare nodeA 7000)) 5 < slot_epoch (inner (ran (bare nodeA 7000) [says [bs "ADDSLOTS"; bs "5"]])) 5.
Proof.
  apply (slot_epochs_fence plain (bare nodeA 7000) [] [says [bs "ADDSLOTS"; bs "5"]] 5); [|repeat constructor|by vm_compute|by vm_compute|].
  - by apply with_identity_ok; vm_compute.
  - intros E. by vm_compute in E.
Defined.

(** Slot 5 is voted for over the bus, and committed. *)
Definition voting : list Event := [meets (bs "b") (bs "7001"); BusRequest (at_ms 20) TYPE_PREPARE (encode_slot_target 5 nodeB)].

Lemma commit_needs_vote_witness :
  let r := commit_prepare_node IoDone 30 30 5 nodeB (node_run plain (full nodeA 7000) voting) in
  r.2 = Ok tt ∧ owner_at (inner r.1) 5 = Some nodeB.
Proof.
  assert (E : (commit_prepare_node IoDone 30 30 5 nodeB (node_run plain (full nodeA 7000) voting)).2 = Ok tt) by (by vm_compute). cbv zeta. split; [exact E|].
  pose proof (commit_needs_vote plain (full nodeA 7000) voting IoDone 30 30 5 nodeB (commit_prepare_node IoDone 30 30 5 nodeB (node_run plain (full nodeA 7000) voting)).1) as H.
  apply H; [apply (ran_ok localhost 7000 nodeA true []); vm_compute; [discriminate|split; discriminate|constructor]|reflexivity|repeat constructor|vm_compute; discriminate|vm_compute; reflexivity|exact (done_pair _ E)].
Defined.

(** Two nodes, one of which assigned slot 5 to itself. *)
Definition assigned : ClusterState := ran (bare nodeB 7001) [says [bs "ADDSLOTS"; bs "5"]].

Definition sendable_check (g : Inner) : bool :=
  bool_decide (map_Forall (λ id n, valid_str id ∧ valid_str (n_ip n) ∧ n_ip n ≠ [] ∧ n_port n ≠ 0) (nodes g)) && (current_epoch g <=? i64_max).
Lemma sendable_checked g : sendable_check g = true → sendable g.
Proof. unfold sendable_check. intros [H%bool_decide_eq_true ?%Z.leb_le]%andb_true_iff. split; [exact H|done]. Qed.

Lemma gossip_converges_witness :
  let g1 := pull_and_merge_owners 0 (Some (cluster_owners_reply (inner assigned))) (inner (full nodeA 7000)) in
  owner_at g1 5 = owner_at (pull_and_merge_owners 0 (Some (cluster_owners_reply g1)) (inner assigned)) 5.
Proof.
  apply (gossip_converges 0 0 (inner (full nodeA 7000)) (inner assigned) 5 nodeA 1 nodeB 2);
    [apply (ran_ok localhost 7000 nodeA true []); by vm_compute|apply ran_ok; [by vm_compute..|repeat constructor]|by apply sendable_checked; vm_compute..|by vm_compute|by vm_compute|by vm_compute|by vm_compute|by vm_compute|].
  right. left. split; [by vm_compute|discriminate].
Defined.

(** Three masters: the first suspects the second, and the third reports it. *)
Definition accused : Inner :=
  ingest_fail_reports nodeC [nodeB] (note_unreachable nodeB (inner (ran (full nodeA 7000) [meets (bs "b") (bs "7001"); meets (bs "c") (bs "7002")]))).1.


(** Two replicas of a master. *)
Definition replica_of_c (id : Str) (port : Z) : Inner := inner (ran (bare id port) [meets (bs "c") (bs "7002"); says [bs "REPLICATE"; bs "c"]]).

Lemma replica_of_c_ok id port : id ≠ [] → in_u16 port → cluster_ok (replica_of_c id port).
Proof. intros. apply (ran_ok localhost port id false); [done|done|repeat constructor]. Qed.

#[local] Instance master_known_dec (o : option Str) : Decision (∀ m, o = Some m → valid_str m ∧ m ≠ str "-").
Proof. destruct o as [m|]; [|by left]. destruct (decide (valid_str m ∧ m ≠ str "-")) as [H|H]; [left; by intros ? [= <-]|right; auto]. Defined.

Definition roles_check (g : Inner) : bool :=
  bool_decide (map_Forall (λ id n, valid_str id ∧ valid_str (n_ip n) ∧ (∀ m, n_master_id n = Some m → valid_str m ∧ m ≠ str "-") ∧
    0 ≤ n_repl_offset n ≤ i64_max ∧ 0 ≤ n_repl_priority n ≤ u32_max) (nodes g)) &&
  bool_decide (0 ≤ local_repl_offset g ≤ i64_max) && bool_decide (0 ≤ local_repl_priority g ≤ u32_max).
Lemma roles_checked g : roles_check g = true → roles_sendable g.
Proof. unfold roles_check. intros [[H1%bool_decide_eq_true H2%bool_decide_eq_true]%andb_true_iff H3%bool_decide_eq_true]%andb_true_iff. by split. Qed.

Lemma nobody_failed g id : bool_decide (map_Forall (λ _ n, n_fail n = false) (nodes g)) = true → node_is_fail id g = false.
Proof. intros H%bool_decide_eq_true. unfold node_is_fail. destruct (nodes g !! id) as [n|] eqn:E; [|done]. by apply (H id n). Qed.

Lemma one_claimant_witness :
  let g1 := replica_of_c nodeA 7000 in
  let g2 := pulled_roles 0 g1 (replica_of_c nodeB 7001) in
  should_claim_on_failover nodeC g2 = true ∧
  ¬ (should_claim_on_failover nodeC (pulled_roles 0 g2 g1) = true ∧ should_claim_on_failover nodeC g2 = true).
Proof.
  split; [by vm_compute|].
  apply (one_claimant 0 0 (replica_of_c nodeA 7000) (replica_of_c nodeB 7001) nodeC);
    [apply replica_of_c_ok; by vm_compute..|by apply roles_checked; vm_compute|by apply roles_checked; vm_compute|by vm_compute|by vm_compute|].
  intros id _. rewrite !nobody_failed; [done|by vm_compute..].
Defined.

(** The only replica of a master, which a peer announces as failed. *)
Definition told_replica : ClusterState :=
  ran (full nodeB 7001) [meets (bs "a") (bs "7000"); says [bs "REPLICATE"; bs "a"];
                         BusRequest (at_ms 30) TYPE_FAIL (encode_string_body nodeA)].

Lemma announced_fail_blocks_failover_witness :
  should_claim_on_failover nodeA (inner told_replica) = true ∧ owner_at (inner told_replica) 5 = Some nodeA ∧
  let '(c', actions) := gossip_tick IoDone 40 (Some 0) silent told_replica in
  (PromoteToMaster ∉ actions) ∧ is_cluster_replica (inner c') = true ∧ node_is_fail nodeA (inner c') = true.
Proof.
  split; [by vm_compute|]. split; [by vm_compute|]. apply (announced_fail_blocks_failover IoDone 40 (Some 0) silent told_replica nodeA); [|by vm_compute..].
  apply (ran_ok localhost 7001 nodeB true); [by vm_compute|by vm_compute|repeat constructor].
Defined.

(** A master that owns all slots but one, and a master of three slots that hears of the master of
    three others. *)
Definition largest : ClusterState := ran (full nodeC 7002) [meets (bs "b") (bs "7001"); says [bs "SETSLOT"; bs "5"; bs "NODE"; bs "b"]].
Definition lower : ClusterState := ran (bare nodeA 7000) [meets (bs "b") (bs "7001"); says [bs "ADDSLOTSRANGE"; bs "0"; bs "2"]].
Definition upper : ClusterState := ran (bare nodeB 7001) [says [bs "ADDSLOTSRANGE"; bs "3"; bs "5"]].
Definition answers (g : Inner) (peer : ClusterNode) : Probe := mkProbe 0 true true None (Some (cluster_owners_reply g)) None None.

Lemma gossip_leaves_one_master_witness :
  (let g := inner (gossip_tick IoDone 20 None silent largest).1 in
   (slots_of nodeB g < slots_of (my_id g) g)%nat ∨ (slots_of (my_id g) g = slots_of nodeB g ∧ cmp_list Z.compare (my_id g) nodeB = Gt)) ∧
  (let g := inner (gossip_tick IoDone 20 None (answers (inner upper)) lower).1 in
   (slots_of nodeA (inner lower), is_master g, slots_of nodeA g, slots_of nodeB g) = (3%nat, false, 0%nat, 6%nat)).
Proof.
  split; [cbv zeta|vm_compute; reflexivity].
  refine (gossip_leaves_one_master IoDone 20 None silent largest _ _ nodeB (mkNode nodeB localhost 7001 17001 false true None false false 0 100) _ _ _ _ _).
  - apply (ran_ok localhost 7002 nodeC true); [discriminate|split; discriminate|repeat constructor].
  - vm_compute. reflexivity.
  - intros E. vm_compute in E. discriminate.
  - vm_compute. reflexivity.
  - reflexivity.
  - reflexivity.
  - apply Nat.ltb_lt. vm_compute. reflexivity.
Defined.

(** The slot of the key moves from the second node to the third; the first knows the second. *)
Definition asked_first : ClusterState := ran (full nodeA 7000) [meets (bs "b") (bs "7001"); says [bs "REPLICATE"; bs "b"]].
Definition migrates : ClusterState := ran (full nodeB 7001) [meets (bs "c") (bs "7002"); says [bs "SETSLOT"; bs "12182"; bs "MIGRATING"; bs "c"]].
Definition imports : ClusterState := ran (full nodeC 7002) [meets (bs "b") (bs "7001"); says [bs "SETSLOT"; bs "12182"; bs "IMPORTING"; bs "b"]].
Definition at_b : RedirectTarget := mkRedirect 12182 localhost 7001 nodeB.
Definition at_c : RedirectTarget := mkRedirect 12182 localhost 7002 nodeC.

Lemma redirects_reach_witness :
  let nothing (_ : Bytes) := false in
  route [bs "foo"] true false false nothing asked_first = Moved at_b ∧ route [bs "foo"] true false false nothing migrates = Ask at_c ∧
  route [bs "foo"] true true false nothing imports = Here.
Proof.
  cbv zeta. assert (E1 : route [bs "foo"] true false false (λ _, false) asked_first = Moved at_b) by (by vm_compute).
  assert (E2 : route [bs "foo"] true false false (λ _, false) migrates = Ask at_c) by (by vm_compute). split; [exact E1|]. split; [exact E2|].
  destruct (redirects_reach [bs "foo"] true false (λ _, false) (λ _, false) (λ _, false) asked_first migrates imports at_b) as [_ H].
  - apply (ran_ok localhost 7000 nodeA true); [discriminate|split; discriminate|repeat constructor].
  - apply (ran_ok localhost 7001 nodeB true); [discriminate|split; discriminate|repeat constructor].
  - exact E1.
  - rewrite E2 in H. destruct H as (_ & _ & H); [vm_compute; reflexivity..|]. apply H. vm_compute. eexists. reflexivity.
Defined.

(** A vote over the bus, a commit of it, and one more that finds it spent. *)
Lemma bus_transparent_witness :
  let rpcs := [(TYPE_PREPARE, 5, nodeB); (TYPE_COMMIT, 5, nodeB); (TYPE_COMMIT, 5, nodeB)] in
  let c := ran (full nodeA 7000) [meets (bs "b") (bs "7001")] in
  (bus_ack (str "COMMIT") ∘ Ok <$> (handle_bus_conn (λ _, at_ms 20) (concat (rpc_frame <$> rpcs)) c).1.2) =
    [Ok tt; Ok tt; Err (Remote (str "no prepare vote for slot 5 (cleared, expired, or never set)"))] ∧
  (handle_bus_conn (λ _, at_ms 20) (concat (rpc_frame <$> rpcs)) c).1.1 = (local_run (λ _, at_ms 20) 0 rpcs c).1.
Proof.
  cbv zeta. split; [vm_compute; reflexivity|].
  pose proof (bus_transparent (λ _, at_ms 20) [(TYPE_PREPARE, 5, nodeB); (TYPE_COMMIT, 5, nodeB); (TYPE_COMMIT, 5, nodeB)] (str "COMMIT")
    (ran (full nodeA 7000) [meets (bs "b") (bs "7001")])) as H.
  destruct (handle_bus_conn _ _ _) as [[c' replies] r]. destruct (local_run _ _ _ _) as [d results]. apply H.
  assert (K : ∀ ty, ty = TYPE_PREPARE ∨ ty = TYPE_COMMIT ∨ ty = TYPE_ABORT → rpc_ok ty 5 nodeB) by (intros ty Ht; split; [exact Ht|split_and!; by vm_compute]).
  do 3 (constructor; [apply K; cbn; auto|]). constructor.
Defined.

(** A node with two peers, one of which it suspects, a vote and a migration. *)
Definition busy : ClusterState :=
  ran (full nodeA 7000) [meets (bs "b") (bs "7001"); meets (bs "c") (bs "7002"); says [bs "SETSLOT"; bs "5"; bs "MIGRATING"; bs "b"];
                         BusRequest (at_ms 20) TYPE_PREPARE (encode_slot_target 5 nodeB); SetAnnouncePort (Some 7100)].

Definition writable_check (c : ClusterState) : bool :=
  bool_decide (map_Forall (λ id n, word id = true ∧ starts_with hash_mark id = false ∧ solid (n_ip n) = true ∧ (64 ∉ n_ip n) ∧
    match n_master_id n with Some m => word m && negb (bool_decide (m = str "-")) | None => true end = true) (nodes (inner c))) &&
  match announce_ip c with Some ip => word ip | None => true end &&
  match announce_port c with Some p => (0 <? p) && (p <=? u16_max) | None => true end &&
  bool_decide (0 ≤ local_repl_priority (inner c) ≤ u32_max) &&
  bool_decide (map_Forall (λ _ v, word (v_target_id v) = true ∧ in_u64 (v_prepared_at v)) (prepare_node (inner c))).

Lemma writable_checked c : cluster_ok (inner c) → writable_check c = true → conf_writable c.
Proof.
  intros H. unfold writable_check. rewrite !andb_true_iff, !bool_decide_eq_true. intros ((((H1 & H2) & H3) & H4) & H5). split; [done| |..|done|exact H5].
  - intros id n Hn. destruct (H1 id n Hn) as (A1 & A2 & A3 & A4 & A5). split_and!; try done. intros m E. rewrite E, andb_true_iff, negb_true_iff, bool_decide_eq_false in A5. done.
  - intros ip E. by rewrite E in H2.
  - intros p E. rewrite E in H3. lia.
Qed.

Lemma busy_writable : conf_writable busy.
Proof.
  apply writable_checked; [|vm_compute; reflexivity]. apply (ran_ok localhost 7000 nodeA true); [discriminate|split; discriminate|repeat constructor; vm_compute; discriminate].
Qed.

